(* ===== verification/_CoqProject ===== *)
-Q . S2P
Prelude.v
Text.v
Json.v
Scrub.v
RelayAck.v
RelayQueue.v
RelayQueueFacts.v
RelayFlush.v
RelayFlushFacts.v
RelayIngress.v
ScrubFacts.v
RelayIngressFacts.v
PagePatch.v
PagePatchFacts.v
BriefTiers.v
BriefTiersFacts.v
Diff.v
DiffFacts.v
DiffHunks.v
PageFile.v
PageFileFacts.v
WikiPaths.v
WikiSync.v
WikiSyncFacts.v
WikiSyncQuiet.v
WikiSyncTheorems.v
WikiExport.v
WikiExportFacts.v
LlmFallback.v
LlmFallbackFacts.v
ActiveProject.v
ActiveProjectFacts.v
StoreTables.v
ProjectAuthz.v
ProjectAuthzFacts.v
ProjectNames.v
ProjectNamesFacts.v
ScopeResolver.v
ScopeResolverFacts.v
ScopePolicy.v
FtsQuery.v
FtsQueryFacts.v
FtsCjkFacts.v
Identity.v
IdentityFacts.v
OpsBase.v
AgentMessages.v
AgentMessagesFacts.v
Handoffs.v
HandoffsFacts.v
HandoffContract.v
SessionQueue.v
SessionQueueFacts.v
SessionQueueContract.v
IdleEnd.v
IdleEndFacts.v
IdleEndContract.v
Okf.v
OkfFacts.v
Pages.v
PagesFacts.v
PagesLinks.v
PagesTables.v
PagesInvariant.v
PagesHistory.v
PagesWrites.v
PagesContract.v
Observation.v
Ingest.v
Purge.v
Capture.v
IngestFacts.v
IngestInvariant.v
IngestKeys.v
IngestContract.v
PurgeContract.v
HookEvents.v
HookProcess.v
HookContract.v
HookBatch.v
