(* ===== verification/Prelude.v ===== *)
(** * Verification of ai-memory

    ai-memory keeps a long-term memory for coding agents: hooks capture what
    an agent does, a server stores it in SQLite and as a Markdown wiki, and
    tools read it back.  This development models parts of the program as Rocq
    functions translated from the Rust sources and proves what makes them
    correct.  This file is the root; it also holds the vocabulary the other
    files share (Rust's [Result], saturating and wrapping integers, the list
    and sorting lemmas, the hint database [rust]).

    ** How the program's parts fit together, and where they are modelled

    Capture, companion side.  A hook command hands a batch of events to the
    relay, which validates and scrubs each event, queues it durably, and
    delivers it to the server's [POST /hook/batch] when it can.

    - [Text], [Json]: Rust strings as UTF-8 byte lists, serde_json values.
    - [Scrub], [ScrubFacts]: companions/ai-memory-client/src lib.rs and
      scrub.rs, the privacy scrub and the body check.
    - [RelayIngress], [RelayIngressFacts]: companions/ai-memory-relay/src
      identity.rs and the [init], [read_input] and [enqueue] commands of
      relay.rs: what may enter the queue.
    - [RelayQueue], [RelayQueueFacts]: queue.rs, the SQLite tables and their
      transactions.
    - [RelayAck]: ack.rs, validation of the server's acknowledgement.
    - [RelayFlush], [RelayFlushFacts]: [flush_locked] of relay.rs and the URLs
      of http.rs: select a batch, send it with retries, apply the
      acknowledgement.  Its sensitive-content filter is an argument there;
      [RelayIngressFacts] instantiates it with the filter of [Scrub].

    Wiki mirrors, companion side.  The wikisync companion keeps a directory of
    page files in step with the server's wiki.

    - [PageFile], [PageFileFacts]: companions/ai-memory-wikisync/src
      page_file.rs, the file format.
    - [WikiPaths]: paths.rs, which server-reported paths are accepted.
    - [WikiSync] (definitions), [WikiSyncFacts], [WikiSyncQuiet],
      [WikiSyncTheorems]: bidi.rs with state.rs and what it
      uses of sync.rs and client.rs, the two-way sync.
    - [WikiExport], [WikiExportFacts]: the one-way export of
      sync.rs, over the environment of [WikiSync].

    Requests, server side.  A request names a workspace and a project or
    leaves them out; the scope resolver finds out which project is meant, asks
    the authorization choke point, and creates a project only for a write.

    - [ActiveProject], [ActiveProjectFacts]: crates/ai-memory-core/src
      active_project.rs, the pointer hooks publish to and tools read.
    - [StoreTables]: the rows of the scope tables, as SQLite holds them.
    - [ProjectAuthz], [ProjectAuthzFacts]: crates/ai-memory-store/src
      project_authz.rs, the only place access is decided.
    - [ProjectNames], [ProjectNamesFacts]: name resolution of
      project_coordinates.rs and the create-or-resolve transactions of ops.rs.
    - [ScopeResolver], [ScopeResolverFacts], [ScopePolicy]: scope.rs.  The
      resolver reads the pointer through the class [ProjectPointer]
      ([ScopeResolver]), whose laws [ScopePolicy] discharges for
      [ActiveProject]; it calls the tables through the transactions of
      [ProjectNames] and the decision of [ProjectAuthz].

    Capture, server side.  An event arrives alone or in a batch, is dropped or
    admitted to its session, runs its effects and completes its key.

    - [HookEvents]: crates/ai-memory-hooks/src payload.rs, drop_list.rs and
      capture_policy.rs as far as the router reads them, the set of subagent
      sessions and the rate limiter of router.rs.
    - [HookProcess]: [process_authorized] of router.rs and what it calls: the
      scope an event sticks to, its admission, and its effects in their order.
      [HookContract] proves what an acknowledged event has done.
    - [HookBatch]: [POST /hook] and [POST /hook/batch] of router.rs, from the
      drops that cost nothing to the acknowledgement, which is checked against
      the relay's own validation ([RelayAck]).
    - [Observation], [Ingest]: observation.rs of the core crate, and sessions,
      observations, ingest keys, hook admission, the guarded ends and token
      usage of crates/ai-memory-store/src/ops.rs, over the tables of
      [Handoffs], [Pages] and [SessionQueue].
    - [Purge]: the owner-checked purge of a session; [Capture]: the commands of
      the writer over both.
    - [IngestFacts] (each operation), [IngestInvariant] (the invariant of the
      tables and what keeps it), [IngestKeys] (the life of an ingest key and a
      concrete capture), [IngestContract] and [PurgeContract] (what the router
      relies on).

    Work handed over, server side.  Agents of different projects write to each
    other, and a session leaves its successor a handoff.  The commands run one
    at a time on the store's writer.

    - [Identity], [IdentityFacts]: crates/ai-memory-core/src ids.rs, actor.rs
      and the byte cap of sanitize.rs: agents, operators, and the owner filter
      that decides whose rows a caller may touch.
    - [OpsBase]: the statements, errors and audit rows the transactions of
      crates/ai-memory-store/src ops.rs share, and [OrdersRows], what is
      assumed of ORDER BY.
    - [AgentMessages], [AgentMessagesFacts]: message.rs of the core crate and
      the mailbox of ops.rs, reader.rs and dashboard.rs.
    - [Handoffs], [HandoffsFacts], [HandoffContract]: handoff.rs of the core
      crate, the handoff transactions of ops.rs and their selection in
      reader.rs; the invariant of the tables, and what the client may rely on.
    - [SessionQueue], [SessionQueueFacts], [SessionQueueContract]:
      session_consolidation.rs, the writer commands over it and the worker of
      crates/ai-memory-cli/src/commands/serve.rs that works it off: the queue
      a session is put on when it ends, its leases and attempts.
    - [IdleEnd], [IdleEndFacts], [IdleEndContract]: the batched idle end of
      ops.rs and the tick of crates/ai-memory-hooks/src idle_end.rs that
      decides what to end, over the tables of [Handoffs] and [SessionQueue].

    The wiki, server side.  A page is never changed in place: each write adds a
    version, which supersedes the latest one.

    - [Okf], [OkfFacts]: okf.rs of the core crate, the keys every page's
      frontmatter is given, and when two frontmatters are the same.
    - [Pages]: the page types of page.rs and ids.rs and every page command of
      the writer over the page, link, entity, evidence and index tables of
      ops.rs.
    - [PagesFacts] (the versions of a path), [PagesLinks] (where links lead),
      [PagesTables] (what a write leaves in the other tables),
      [PagesInvariant] (the invariant of all of them and the changes that keep
      it), [PagesHistory] (each command as such changes), [PagesWrites] (a
      write succeeds, reads back and repeats, and a concrete wiki),
      [PagesContract] (what the wiki relies on).

    Components on their own.

    - [FtsQuery], [FtsQueryFacts], [FtsCjkFacts]: fts_query.rs, user text made
      into full-text queries.
    - [LlmFallback], [LlmFallbackFacts]: crates/ai-memory-llm/src error.rs and
      fallback.rs, the provider chain with its circuit breakers.
    - [PagePatch], [PagePatchFacts]: crates/ai-memory-mcp/src page_patch.rs,
      section edits of a wiki page.
    - [BriefTiers], [BriefTiersFacts]: crates/ai-memory-hooks/src
      brief_tiers.rs, how a session brief spends its budget.
    - [Diff], [DiffFacts], [DiffHunks]: crates/ai-memory-web/src diff.rs, the
      page history diff.

    A file without a suffix holds the definitions, named as in the source and
    executable; the [Facts], [Quiet], [Theorems], [Policy], [Hunks], [Keys],
    [Invariant] and [Contract] files hold the proofs and the concrete runs.

    ** How the models are written

    - A struct is a Record, an enum an Inductive, an operation one Definition
      with the source's branches in their order; an operation that can fail
      returns [result], and nothing is returned beside an error, so a failing
      transaction leaves its tables as they were.
    - Machine integers are [Z] with the saturation or wrap-around of the
      source written out, or [nat] where they are lengths and counters of
      data in memory.
    - State shared by concurrent requests ([LlmFallback], [ActiveProject]) is
      changed by one function per lock section; a method is the sequence of
      its sections with arbitrary sections of others in between.  A request to
      the store ([ScopeResolver]) is a sequence of calls in a state monad with
      a trace: other requests change the store between two calls, a call may
      fail before it is delivered, and a write may commit and lose its reply.
      A sync run ([WikiSync]) and an idle-end tick ([IdleEnd]) let others
      change everything between their effects; a hook event ([HookProcess])
      runs in a monad with a trace of its effects, its calls numbered, other
      requests before each of them, and [HookContract] has a program logic of
      the effects.
    - What the source takes from elsewhere is an argument: SHA-256, compiled
      regular expressions, the url crate, serde_json's reader and printer,
      Unicode lower-casing and character classes, the FTS5 parser, HashMap
      iteration order, the order of rows with equal sort keys, the range of
      valid timestamps, clocks, fresh ids, what an HTTP server or a model
      provider answers, and at each SQLite statement whether it fails
      (a violated foreign key included).
      Hypotheses on them are named where a group of theorems needs them
      ([serde_ok] of [PageFileFacts], [lawful] iteration and [interleaved]
      sections of [ActiveProjectFacts], [json_round_trip] of [PagesWrites],
      the laws of [ScopeResolver]'s pointer class) and instantiated by the witnesses.

    ** What the theorems show

    - Nothing captured is lost: an event stays queued or leaves a receipt with
      its hash through any flush ([flush_no_loss_in_order]), acknowledgements
      are accepted exactly when consistent ([validate_iff_well_formed]) and
      release exactly what they name ([handle_delivery_exact]); the queue's
      invariant holds in every reachable queue ([reachable_queue_ok]), enqueue
      is all-or-nothing and replays are recognized.
    - Nothing private leaves: what is accepted is exactly what the scrub leaves
      alone ([reject_sensitive_iff_clean]) and a validated event is the
      submitted one scrubbed ([validated_event_private]).
    - A wiki sync never loses an edit silently, justifies every effect by what
      it read, settles the pages it acted on, and partitions all pages
      ([decide_never_loses_silently], [run_effects_justified], [sync_settles],
      [plan_covers_every_page_once]); the export likewise.
    - A request reaches only what its caller may reach
      ([returned_scopes_are_authorized], [access_decision_correct],
      [strict_refines_compatible]), an unscoped write lands where the unscoped
      read answers from ([unscoped_write_follows_read]), the pointer never
      crosses actors ([lookup_isolated]), and the bounded lookups answer as
      unbounded ones ([resolve_name_correct], [keyed_map_refines_log]).
    - A captured event takes effect once: its observation is recorded once per
      key ([observed_exactly_once]), in a session its sender may write to
      ([admission_guarded]), after its author's access was decided
      ([first_effect_is_authorized]); its key is completed after its effects
      ([effects_precede_completion]), and then a delivery is a replay without
      effects ([completed_delivery_is_replayed], [replay_runs_nothing]).  An
      acknowledged end has ended its session ([acknowledged_end_has_ended],
      [end_processed_once]), a compaction's page is rewritten
      ([checkpoint_page_is_rewritten]), usage converges
      ([usage_totals_converge]) and the tables stay well formed
      ([capture_tables_ok]).  A batch is answered in the relay's terms
      ([batch_ack_passes_relay], [batch_ack_reports_verdicts]) and treats an
      event as [POST /hook] does ([single_event_matches_batch]), in bounded
      memory ([shared_sets_stay_bounded]).
    - A purge removes exactly what is the session's ([purge_is_exact]) for good
      ([purge_is_terminal]).
    - What is handed over arrives once and at the right address: no message is
      popped twice and a pop is the oldest one waiting
      ([message_delivered_once], [pop_takes_oldest_waiting]); a handoff is
      claimed once between two releases, by a caller entitled to it
      ([handoff_claimed_once]), no command touches a handoff outside its
      scope and owner ([handoffs_stay_with_their_owner]), and the one offered
      for a directory is the most preferred and can be accepted
      ([preferred_handoff_is_delivered], [cwd_within_components]).  Operators
      are stored without loss ([identity_keys_faithful]).
    - Every session's end is worked off once: a queued generation is never
      lost ([queued_generation_accounted]), a lease has one holder
      ([lease_is_exclusive]), attempts are bounded and come round again
      ([attempts_bounded]) and a worker empties the queue
      ([worker_drains_queue]).  A session whose harness died is ended only as
      it was judged ([idle_end_batch_exact], [idle_end_tick_guarded]) and no
      page it did not see is overwritten ([idle_end_keeps_pages]).
    - The wiki keeps what was written: versions are never lost but to a delete
      ([page_history_kept]), the sweep takes one retired history and spares
      every live one ([sweep_takes_one_retired_history]), all tables stay
      well-formed ([page_tables_stay_ok]), a write does what it says on every
      branch ([page_write_exact]) and nothing the second time
      ([rewriting_changes_nothing]), conditional writes are
      compare-and-swaps ([conditional_write_is_cas],
      [conditional_batch_all_or_nothing]), links follow the pages they name
      ([links_agree_with_names]), and the frontmatter of every page conforms,
      stably ([conform_frontmatter_stable]).
    - Algorithms meet their reference: shortest edit scripts
      ([edit_script_is_shortest]) and applicable patches ([unified_is_patch]),
      the page edit as one splice ([apply_is_splice]), the CJK phrase search
      as substring search ([cjk_lookup_exact]), the page file round trip, the
      brief within its budget.
    - The provider chain returns the first settled answer and starves no
      candidate ([call_returns_first_settled], [rested_candidate_answers]).

    ** Fuel and bounds

    Recursion that is not structural carries fuel that its caller computes
    and that is proved enough:

    - [FtsQuery.prepare_token_fuel]: the token's length; the recursion is one
      level deep ([prepare_fts5_token_terminates]).
    - [Diff]: a snake is at most the length of the old side, a search does at
      most [MAX_EDIT_DISTANCE] + 1 rounds as the source does, backtracking
      keeps at most [x] lines per step, and each round of the hunk loop
      consumes a change ([edit_script_is_shortest] and [unified_is_patch] are
      about the results, with no fuel hypothesis).
    - [RelayFlush]: a flush runs for the rounds its environment lists; the
      theorems hold for every list.
    - [Handoffs.chunks]: the number of ids, enough because every chunk takes
      at least one ([HandoffsFacts.chunks_concat]).
    - [Pages.decay_chain]: one more than the versions in the table; every
      round marks another one ([PagesHistory.decay_chain_closed]).
    - Retries, candidates, probes and pages are loops over lists.

    ** Not modelled

    - SQLite, its files, migrations and permissions (the rows and a fault per
      statement stand for them, its CHECK constraints among the faults),
      directory walks, symbolic-link checks, locks between processes, HTTP
      transport, printed reports and log lines.
    - Resolution of a project by repository identity or marker alias, the
      name backfill, and the scheduler row of a new project.
    - Of pages: the columns of access, decay and embeddings, the [pages_fts]
      copy a trigger keeps, the parsing of page metadata and bodies, and the
      admission chain in front of the writer.
    - Of a session's purge: embeddings, the search index rows, scheduler
      claims and proposals that go by cascade, the files to unlink; of the
      capture: token rows per call.  Purges and moves of projects and
      workspaces, which delete or re-home pages, messages and handoffs, and the
      workstream runs that claim a handoff.
    - Of the hook router: building an envelope from a query and a body, the
      capture protocol and the per-agent payload texts, the resolution of a
      scope from a directory, managed runs, the wiki layer with its webhooks,
      what a session's digest, page and baton say, briefs and context
      injection.
    - The MCP and admin routers, the web views, the git-backed wiki, grants,
      decay and belief scores, the consolidation crate, the model vendors'
      HTTP clients, transcripts and process control of the workstream crate,
      the command line and the desktop and TypeScript companions: I/O and data
      plumbing around the parts above, or numerical heuristics without a
      contract of their own. *)

From stdpp Require Export base gmap strings numbers option sorting pretty list.
Export list.

#[export] Set Default Goal Selector "!".

(** ** Rust's [Result] *)

Inductive result (A E : Type) : Type :=
  | Ok (a : A)
  | Err (e : E).

Arguments Ok {A E} a.
Arguments Err {A E} e.

Definition result_bind {A B E} (r : result A E) (k : A → result B E) : result B E :=
  match r with
  | Ok a => k a
  | Err e => Err e
  end.

Definition is_ok {A E} (r : result A E) : bool :=
  match r with Ok _ => true | Err _ => false end.

(** [try_for_each] and [map(..).collect::<Result<Vec<_>, _>>()]: stop at the
    first error. *)
Fixpoint try_for_each {A E} (f : A → result unit E) (l : list A) : result unit E :=
  match l with
  | [] => Ok tt
  | x :: l' => match f x with Ok _ => try_for_each f l' | Err e => Err e end
  end.

Fixpoint try_map {A B E} (f : A → result B E) (l : list A) : result (list B) E :=
  match l with
  | [] => Ok []
  | x :: l' =>
      match f x with
      | Ok y => match try_map f l' with Ok ys => Ok (y :: ys) | Err e => Err e end
      | Err e => Err e
      end
  end.

#[export] Instance result_eq_dec `{EqDecision A, EqDecision E} : EqDecision (result A E).
Proof. solve_decision. Defined.

Declare Scope rust_scope.
Delimit Scope rust_scope with rust.

(** Early return on [Err], the [?] operator of Rust. *)
Notation "'let?' x := r 'in' k" := (result_bind r (λ x, k))
  (at level 10, x name, r at level 100, k at level 200,
   format "'let?'  x  :=  r  'in' '//' k") : rust_scope.

(** A guard with an early return: [if c { return Err(e) }]. *)
Notation "'bail_if' c 'with' e ';;' k" := (if c then Err e else k)
  (at level 10, c at level 99, e at level 99, k at level 200,
   format "'bail_if'  c  'with'  e  ';;' '//' k") : rust_scope.

(** Inversion of a successful guarded computation. *)
Lemma result_bind_Ok {A B E} (r : result A E) (k : A → result B E) b :
  result_bind r k = Ok b ↔ ∃ a, r = Ok a ∧ k a = Ok b.
Proof. destruct r; naive_solver. Qed.

Lemma bail_Ok {A E} (c : bool) (e : E) (k : result A E) a :
  (if c then Err e else k) = Ok a ↔ c = false ∧ k = Ok a.
Proof. destruct c; naive_solver. Qed.

Lemma try_for_each_Ok {A E} (f : A → result unit E) l u :
  try_for_each f l = Ok u ↔ Forall (λ x, f x = Ok tt) l.
Proof.
  induction l as [|x l IH]; simpl.
  - destruct u. split; [constructor|done].
  - rewrite Forall_cons. destruct (f x) as [[]|e]; naive_solver.
Qed.

Lemma try_map_Ok {A B E} (f : A → result B E) l l' :
  try_map f l = Ok l' ↔ Forall2 (λ x y, f x = Ok y) l l'.
Proof.
  revert l'; induction l as [|x l IH]; intros l'; simpl.
  - split; [intros [= <-]; constructor|by intros ->%Forall2_nil_inv_l].
  - destruct (f x) as [y|e] eqn:E1.
    + destruct (try_map f l) as [ys|e] eqn:E2.
      * split.
        -- intros [= <-]. constructor; [done|]. by apply IH.
        -- intros (y' & ys' & Hy & Hys & ->)%Forall2_cons_inv_l.
           assert (y = y') as -> by congruence. apply IH in Hys. congruence.
      * split; [done|]. intros (y' & ys' & Hy & Hys & ->)%Forall2_cons_inv_l.
        apply IH in Hys. congruence.
    + split; [done|]. intros (y' & ys' & Hy & Hys & ->)%Forall2_cons_inv_l. congruence.
Qed.

(** Peels guards and binds off a hypothesis [_ = Ok _], one layer at a time. *)
Ltac peel_ok :=
  repeat match goal with
  | H : result_bind _ _ = Ok _ |- _ =>
      let a := fresh "a" in let Ha := fresh "Hr" in
      apply result_bind_Ok in H as (a & Ha & H)
  | H : (if _ then Err _ else _) = Ok _ |- _ =>
      let Hc := fresh "Hg" in apply bail_Ok in H as [Hc H]
  | H : Ok _ = Ok _ |- _ => injection H as H
  | H : Err _ = Ok _ |- _ => discriminate H
  end.

(** ** Machine integers *)

Definition u64_max : Z := (2 ^ 64 - 1)%Z.
Definition i64_min : Z := (- 2 ^ 63)%Z.
Definition i64_max : Z := (2 ^ 63 - 1)%Z.

Definition in_u64 (z : Z) : Prop := (0 ≤ z ≤ u64_max)%Z.
Definition in_i64 (z : Z) : Prop := (i64_min ≤ z ≤ i64_max)%Z.

(** [u64::saturating_add] and [i64::saturating_sub]. *)
Definition u64_saturating_add (a b : Z) : Z := Z.min (a + b) u64_max.
Definition u64_saturating_mul (a b : Z) : Z := Z.min (a * b) u64_max.
Definition i64_saturating_sub (a b : Z) : Z := Z.max i64_min (Z.min (a - b) i64_max).

Lemma u64_saturating_add_in a b :
  in_u64 a → (0 ≤ b)%Z → in_u64 (u64_saturating_add a b).
Proof. unfold in_u64, u64_saturating_add. lia. Qed.

Lemma u64_saturating_add_mono a b : in_u64 a → (0 ≤ b)%Z → (a ≤ u64_saturating_add a b)%Z.
Proof. unfold in_u64, u64_saturating_add. lia. Qed.

Lemma i64_saturating_sub_in a b : in_i64 (i64_saturating_sub a b).
Proof. unfold in_i64, i64_saturating_sub, i64_min, i64_max. lia. Qed.

Lemma i64_saturating_sub_exact a b :
  in_i64 (a - b) → i64_saturating_sub a b = (a - b)%Z.
Proof. unfold in_i64, i64_saturating_sub. lia. Qed.

Create HintDb rust discriminated.
#[export] Hint Resolve u64_saturating_add_in u64_saturating_add_mono
  i64_saturating_sub_in : rust.

(** ** Lists *)

(** [iter().take_while(p).count()]. *)
Fixpoint count_while {A} (p : A → bool) (l : list A) : nat :=
  match l with
  | [] => 0
  | x :: l' => if p x then S (count_while p l') else 0
  end.

Lemma count_while_le {A} (p : A → bool) l : count_while p l ≤ length l.
Proof. induction l as [|x l IH]; simpl; [lia|]. destruct (p x); lia. Qed.

Lemma count_while_prefix {A} (p : A → bool) l :
  Forall (λ x, p x = true) (take (count_while p l) l).
Proof.
  induction l as [|x l IH]; simpl; [constructor|].
  destruct (p x) eqn:E; simpl; [by constructor|constructor].
Qed.

Lemma count_while_stop {A} (p : A → bool) l x :
  l !! count_while p l = Some x → p x = false.
Proof.
  induction l as [|y l IH]; simpl; [done|].
  destruct (p y) eqn:E; simpl; [done|]. by intros [= ->].
Qed.

(** [windows(2).any(r)]: some adjacent pair satisfies [r]. *)
Fixpoint any_adjacent {A} (r : A → A → bool) (l : list A) : bool :=
  match l with
  | x :: ((y :: _) as l') => r x y || any_adjacent r l'
  | _ => false
  end.

(** Strictly ascending lists of indices. *)
Inductive ascending : list nat → Prop :=
  | ascending_nil : ascending []
  | ascending_cons x l : Forall (λ y, x < y) l → ascending l → ascending (x :: l).

#[export] Hint Constructors ascending : rust.

Lemma ascending_seq a n : ascending (seq a n).
Proof.
  revert a; induction n as [|n IH]; intros a; simpl; constructor; [|done].
  apply Forall_forall. intros y Hy%elem_of_seq. lia.
Qed.

Lemma ascending_any_adjacent l :
  any_adjacent (λ a b, b <=? a) l = false ↔ ascending l.
Proof.
  split.
  - induction l as [|x [|y l] IH]; [constructor|repeat constructor|].
    intros [Hxy Hl]%orb_false_iff. specialize (IH Hl).
    constructor; [|done]. apply Nat.leb_gt in Hxy.
    inversion IH as [|? ? Hy]; subst. constructor; [done|].
    eapply Forall_impl; [exact Hy|]. simpl; lia.
  - induction 1 as [|x l Hx Hl IH]; [done|].
    destruct l as [|y l]; [done|].
    change ((y <=? x) || any_adjacent (λ a b, b <=? a) (y :: l) = false).
    rewrite IH, orb_false_r. apply Nat.leb_gt.
    by inversion Hx.
Qed.

Lemma ascending_lookup_lower l i x z :
  ascending (x :: l) → (x :: l) !! i = Some z → x + i ≤ z.
Proof.
  revert l x; induction i as [|i IH]; intros l x Hl Hi; simpl in Hi.
  - injection Hi as ->. lia.
  - destruct l as [|y l]; [done|].
    inversion Hl as [|? ? Hx Hl']; subst. inversion Hx; subst.
    specialize (IH l y Hl' Hi). lia.
Qed.

Lemma ascending_lookup_ge l i z : ascending l → l !! i = Some z → i ≤ z.
Proof.
  intros Hl Hi. destruct l as [|x l]; [done|].
  pose proof (ascending_lookup_lower l i x z Hl Hi). lia.
Qed.

Lemma ascending_NoDup l : ascending l → NoDup l.
Proof.
  induction 1 as [|x l Hx Hl IH]; constructor; [|done].
  intros Hin. rewrite Forall_forall in Hx. specialize (Hx x Hin). lia.
Qed.

Lemma ascending_below l n :
  ascending l → Forall (λ x, x < n) l → length l ≤ n.
Proof.
  intros Hl Hn. destruct (last l) as [z|] eqn:E.
  - rewrite last_lookup in E. pose proof (ascending_lookup_ge _ _ _ Hl E).
    pose proof (Forall_lookup_1 _ _ _ _ Hn E). simpl in *. lia.
  - apply last_None in E as ->. simpl. lia.
Qed.

(** Strong induction on the length of a list. *)
Lemma list_length_ind {A} (P : list A → Prop) :
  (∀ l, (∀ l', length l' < length l → P l') → P l) → ∀ l, P l.
Proof.
  intros H l. remember (length l) as n eqn:E. revert l E.
  induction n as [n IH] using lt_wf_ind. intros l ->. apply H.
  intros l' Hl'. by eapply IH.
Qed.

(** Predicates inherited by sublists. *)
Lemma Forall_sublist {A} (P : A → Prop) (l k : list A) :
  sublist l k → Forall P k → Forall P l.
Proof. induction 1; intros HF; [constructor|inversion HF; subst; eauto using Forall_cons..]. Qed.

Lemma sublist_NoDup {A} (l k : list A) : sublist l k → NoDup k → NoDup l.
Proof.
  induction 1 as [|x l k Hs IH|x l k Hs IH]; intros Hk; [constructor|..];
    apply NoDup_cons in Hk as [Hx Hk]; [|auto].
  constructor; [|auto]. intros Hin. apply Hx. by eapply elem_of_sublist.
Qed.

Lemma StronglySorted_sublist {A} (R : relation A) (l k : list A) :
  sublist l k → StronglySorted R k → StronglySorted R l.
Proof.
  induction 1 as [|x l k Hs IH|x l k Hs IH]; intros HR; [constructor|..];
    apply StronglySorted_cons in HR as [Hx HR]; [|auto].
  constructor; [auto|]. by eapply Forall_sublist.
Qed.

Lemma StronglySorted_snoc {A} (R : relation A) (l : list A) x :
  StronglySorted R l → Forall (λ y, R y x) l → StronglySorted R (l ++ [x]).
Proof.
  intros Hl Hx. apply StronglySorted_app. split; [|split; [done|repeat constructor]].
  intros y z Hy ->%list_elem_of_singleton. rewrite Forall_forall in Hx. auto.
Qed.

Lemma list_filter_id {A} (P : A → Prop) `{!∀ x, Decision (P x)} (l : list A) :
  Forall P l → filter P l = l.
Proof. induction 1; [done|]. rewrite filter_cons_True by done. congruence. Qed.

Lemma list_filter_none {A} (P : A → Prop) `{!∀ x, Decision (P x)} (l : list A) :
  Forall (λ x, ¬ P x) l → filter P l = [].
Proof. induction 1; [done|]. by rewrite filter_cons_False. Qed.

Lemma list_find_None_Forall {A} (P : A → Prop) `{!∀ x, Decision (P x)} (l : list A) :
  list_find P l = None ↔ Forall (λ x, ¬ P x) l.
Proof. apply list_find_None. Qed.

(** ** Stable sorting by a key ([sort_by_key]) *)

Section SortByKey.
Context {A K : Type} (key : A → K) (lt : K → K → bool).

(** Insertion after the elements whose key is not greater. *)
Fixpoint insert_by_key (x : A) (l : list A) : list A :=
  match l with
  | [] => [x]
  | y :: l' => if lt (key x) (key y) then x :: l else y :: insert_by_key x l'
  end.

Definition sort_by_key (l : list A) : list A := foldl (λ acc x, insert_by_key x acc) [] l.

Lemma sort_by_key_snoc l x : sort_by_key (l ++ [x]) = insert_by_key x (sort_by_key l).
Proof. unfold sort_by_key. by rewrite foldl_app. Qed.

Lemma insert_by_key_perm x l : insert_by_key x l ≡ₚ x :: l.
Proof.
  induction l as [|y l IH]; cbn [insert_by_key]; [done|].
  destruct (lt (key x) (key y)); [done|]. rewrite IH. constructor.
Qed.

Lemma sort_by_key_perm l : sort_by_key l ≡ₚ l.
Proof.
  induction l as [|x l IH] using rev_ind; [done|].
  rewrite sort_by_key_snoc, insert_by_key_perm, IH. apply Permutation_cons_append.
Qed.
End SortByKey.

(** The comparison of a total preorder. *)
Class StrictWeakOrder {K} (lt : K → K → bool) : Prop := {
  swo_asym a b : lt a b = true → lt b a = false;
  swo_neg_trans a b c : lt b a = false → lt c b = false → lt c a = false;
}.

Section SortByKeyFacts.
Context {A K : Type} (key : A → K) (lt : K → K → bool) `{!StrictWeakOrder lt}
        `{!EqDecision K}.

Definition by_key (x y : A) : Prop := lt (key y) (key x) = false.

Lemma insert_by_key_sorted x l :
  StronglySorted by_key l → StronglySorted by_key (insert_by_key key lt x l).
Proof.
  induction 1 as [|y l Hl IH Hy]; cbn [insert_by_key]; [repeat constructor|].
  destruct (lt (key x) (key y)) eqn:E.
  - assert (by_key x y) by (by apply swo_asym).
    constructor; [by constructor|]. constructor; [done|].
    eapply Forall_impl; [exact Hy|]. unfold by_key in *. eauto using swo_neg_trans.
  - constructor; [done|]. rewrite insert_by_key_perm. by constructor.
Qed.

Lemma sort_by_key_sorted l : StronglySorted by_key (sort_by_key key lt l).
Proof.
  induction l as [|x l IH] using rev_ind; [constructor|].
  rewrite sort_by_key_snoc. by apply insert_by_key_sorted.
Qed.

Lemma insert_by_key_stable k x l :
  StronglySorted by_key l →
  filter (λ y, key y = k) (insert_by_key key lt x l) =
  filter (λ y, key y = k) l ++ filter (λ y, key y = k) [x].
Proof.
  induction 1 as [|y l Hl IH Hy]; cbn [insert_by_key]; [done|].
  destruct (lt (key x) (key y)) eqn:E.
  - rewrite (filter_cons _ x (y :: l)), (filter_cons _ x []).
    case_decide as Hk; [|by rewrite app_nil_r].
    assert (Hnil : filter (λ y, key y = k) (y :: l) = []).
    { apply list_filter_none, Forall_cons. split.
      - intros Hk'. rewrite Hk, Hk' in E. pose proof (swo_asym _ _ E). congruence.
      - eapply Forall_impl; [exact Hy|]. unfold by_key. intros z Hz Hk'. congruence. }
    by rewrite Hnil.
  - rewrite !(filter_cons _ y). case_decide; simpl; by rewrite IH.
Qed.

Lemma sort_by_key_stable k l :
  filter (λ y, key y = k) (sort_by_key key lt l) = filter (λ y, key y = k) l.
Proof.
  induction l as [|x l IH] using rev_ind; [done|].
  rewrite sort_by_key_snoc, insert_by_key_stable, IH by apply sort_by_key_sorted.
  by rewrite filter_app.
Qed.
End SortByKeyFacts.
