(* ===== verification/Text.v ===== *)
(** * Rust strings

    A [&str] is the list of its UTF-8 bytes ([list ascii]); byte offsets are
    positions of that list.  Operations that work on characters go through
    [chars], which groups the bytes into encoded characters by their lead
    byte, as [str::chars] does on a valid string.  The operations follow the
    standard library functions the source calls. *)

From Stdlib Require Export Ascii.
From S2P Require Export Prelude.

Definition bytes := (list ascii).

(** The bytes of a literal. *)
Definition lit (s : string) : bytes := String.list_ascii_of_string s.

(** And back. *)
Definition str (s : bytes) : string := String.string_of_list_ascii s.

Lemma lit_str s : lit (str s) = s.
Proof. apply String.list_ascii_of_string_of_list_ascii. Qed.

Lemma str_inj s t : str s = str t → s = t.
Proof. intros H. rewrite <- (lit_str s), <- (lit_str t). by rewrite H. Qed.

Definition byte_val (a : ascii) : N := N_of_ascii a.

Definition newline : ascii := "010"%char.

(** One encoded character: its bytes. *)
Definition utf8_char := (list ascii).

(** Length of an encoded character from its lead byte. *)
Definition utf8_width (a : ascii) : nat :=
  let n := byte_val a in
  if (n <? 192)%N then 1 else if (n <? 224)%N then 2 else if (n <? 240)%N then 3 else 4.

Fixpoint chars (s : bytes) : list utf8_char :=
  match s with
  | [] => []
  | a :: s1 =>
      match utf8_width a, s1 with
      | 2, b :: s2 => [a; b] :: chars s2
      | 3, b :: c :: s3 => [a; b; c] :: chars s3
      | 4, b :: c :: d :: s4 => [a; b; c; d] :: chars s4
      | _, _ => [a] :: chars s1
      end
  end.

Definition char_count (s : bytes) : nat := length (chars s).

Lemma concat_chars s : concat (chars s) = s.
Proof.
  induction s as [s IH] using list_length_ind.
  destruct s as [|a s1]; [done|]. cbn [chars].
  assert (Hdef : concat ([a] :: chars s1) = a :: s1).
  { simpl. f_equal. apply IH. simpl; lia. }
  destruct (utf8_width a) as [|[|[|[|[|n]]]]]; try done.
  - destruct s1 as [|b s2]; [done|]. simpl. do 2 f_equal. apply IH. simpl; lia.
  - destruct s1 as [|b [|c s3]]; try done. simpl. do 3 f_equal. apply IH. simpl; lia.
  - destruct s1 as [|b [|c [|d s4]]]; try done. simpl. do 4 f_equal. apply IH. simpl; lia.
Qed.

(** [str::from_utf8]: the well-formed byte sequences of RFC 3629. *)
Definition byte_in (lo hi : N) (a : ascii) : bool :=
  ((lo <=? byte_val a) && (byte_val a <=? hi))%N.

Definition continuation : ascii → bool := byte_in 128 191.

(** The second byte a lead byte allows. *)
Definition second_byte (lead : ascii) : ascii → bool :=
  if (byte_val lead =? 224)%N then byte_in 160 191
  else if (byte_val lead =? 237)%N then byte_in 128 159
  else if (byte_val lead =? 240)%N then byte_in 144 191
  else if (byte_val lead =? 244)%N then byte_in 128 143
  else continuation.

Fixpoint valid_utf8 (s : bytes) : bool :=
  match s with
  | [] => true
  | a :: s1 =>
      if (byte_val a <? 128)%N then valid_utf8 s1
      else if byte_in 194 223 a then
        match s1 with b :: s2 => second_byte a b && valid_utf8 s2 | _ => false end
      else if byte_in 224 239 a then
        match s1 with
        | b :: c :: s3 => second_byte a b && continuation c && valid_utf8 s3
        | _ => false
        end
      else if byte_in 240 244 a then
        match s1 with
        | b :: c :: d :: s4 =>
            second_byte a b && continuation c && continuation d && valid_utf8 s4
        | _ => false
        end
      else false
  end.

(** One character at the head of a valid string. *)
Inductive utf8_string : bytes → Prop :=
  | utf8_nil : utf8_string []
  | utf8_cons c s :
      (∀ t, chars (c ++ t) = c :: chars t) → c ≠ [] →
      (∀ t, valid_utf8 (c ++ t) = valid_utf8 t) →
      utf8_string s → utf8_string (c ++ s).

Lemma utf8_width_1 a : (byte_val a <? 128)%N = true → utf8_width a = 1.
Proof. unfold utf8_width. intros H%N.ltb_lt. by rewrite (proj2 (N.ltb_lt _ 192)) by lia. Qed.
Lemma utf8_width_2 a : byte_in 194 223 a = true → utf8_width a = 2.
Proof.
  unfold utf8_width, byte_in. intros [?%N.leb_le ?%N.leb_le]%andb_true_iff.
  rewrite (proj2 (N.ltb_ge _ 192)), (proj2 (N.ltb_lt _ 224)) by lia. done.
Qed.
Lemma utf8_width_3 a : byte_in 224 239 a = true → utf8_width a = 3.
Proof.
  unfold utf8_width, byte_in. intros [?%N.leb_le ?%N.leb_le]%andb_true_iff.
  rewrite (proj2 (N.ltb_ge _ 192)), (proj2 (N.ltb_ge _ 224)), (proj2 (N.ltb_lt _ 240)) by lia. done.
Qed.
Lemma utf8_width_4 a : byte_in 240 244 a = true → utf8_width a = 4.
Proof.
  unfold utf8_width, byte_in. intros [?%N.leb_le ?%N.leb_le]%andb_true_iff.
  rewrite (proj2 (N.ltb_ge _ 192)), (proj2 (N.ltb_ge _ 224)), (proj2 (N.ltb_ge _ 240)) by lia. done.
Qed.

Lemma valid_utf8_string s : valid_utf8 s = true → utf8_string s.
Proof.
  induction s as [s IH] using list_length_ind. destruct s as [|a s1]; [constructor|].
  cbn [valid_utf8]. destruct (byte_val a <? 128)%N eqn:E1.
  { intros H. apply (utf8_cons [a]); [|done| |by apply IH; [simpl; lia|]].
    - intros t. cbn [app chars]. by rewrite (utf8_width_1 _ E1).
    - intros t. cbn [app valid_utf8]. by rewrite E1. }
  destruct (byte_in 194 223 a) eqn:E2.
  { destruct s1 as [|b s2]; [done|]. intros [Hb H]%andb_true_iff.
    apply (utf8_cons [a; b]); [|done| |by apply IH; [simpl; lia|]].
    - intros t. cbn [app chars]. by rewrite (utf8_width_2 _ E2).
    - intros t. cbn [app valid_utf8]. by rewrite E1, E2, Hb. }
  destruct (byte_in 224 239 a) eqn:E3.
  { destruct s1 as [|b [|c s3]]; try done. intros [[Hb Hc]%andb_true_iff H]%andb_true_iff.
    apply (utf8_cons [a; b; c]); [|done| |by apply IH; [simpl; lia|]].
    - intros t. cbn [app chars]. by rewrite (utf8_width_3 _ E3).
    - intros t. cbn [app valid_utf8]. by rewrite E1, E2, E3, Hb, Hc. }
  destruct (byte_in 240 244 a) eqn:E4; [|done].
  destruct s1 as [|b [|c [|d s4]]]; try done.
  intros [[[Hb Hc]%andb_true_iff Hd]%andb_true_iff H]%andb_true_iff.
  apply (utf8_cons [a; b; c; d]); [|done| |by apply IH; [simpl; lia|]].
  - intros t. cbn [app chars]. by rewrite (utf8_width_4 _ E4).
  - intros t. cbn [app valid_utf8]. by rewrite E1, E2, E3, E4, Hb, Hc, Hd.
Qed.

Lemma chars_app s t : valid_utf8 s = true → chars (s ++ t) = chars s ++ chars t.
Proof.
  intros H%valid_utf8_string. induction H as [|c s Hc _ _ _ IH]; [done|].
  by rewrite <- app_assoc, !Hc, IH.
Qed.

Lemma valid_utf8_app s t : valid_utf8 s = true → valid_utf8 (s ++ t) = valid_utf8 t.
Proof.
  intros H%valid_utf8_string. induction H as [|c s _ _ Hv _ IH]; [done|].
  by rewrite <- app_assoc, Hv, IH.
Qed.

(** A character that [chars] finds again wherever it is concatenated. *)
Record encoded (c : utf8_char) : Prop := {
  encoded_nonempty : c ≠ [];
  encoded_chars t : chars (c ++ t) = c :: chars t;
  encoded_valid t : valid_utf8 (c ++ t) = valid_utf8 t;
}.

Lemma chars_encoded s : valid_utf8 s = true → Forall encoded (chars s).
Proof.
  intros H%valid_utf8_string. induction H as [|c s Hc Hne Hv _ IH]; [constructor|].
  rewrite Hc. by constructor.
Qed.

Lemma chars_concat l : Forall encoded l → chars (concat l) = l ∧ valid_utf8 (concat l) = true.
Proof.
  induction 1 as [|c l [Hne Hc Hv] _ [IH1 IH2]]; [done|]. cbn [concat]. by rewrite Hc, Hv, IH1.
Qed.

(** Code point of an encoded character. *)
Definition code_point (c : utf8_char) : N :=
  match byte_val <$> c with
  | [a] => a
  | [a; b] => (a mod 32 * 64 + b mod 64)%N
  | [a; b; c] => (a mod 16 * 4096 + b mod 64 * 64 + c mod 64)%N
  | [a; b; c; d] => (a mod 8 * 262144 + b mod 64 * 4096 + c mod 64 * 64 + d mod 64)%N
  | _ => 0%N
  end.

(** [char::is_whitespace]: the Unicode White_Space property. *)
Definition is_whitespace (c : utf8_char) : bool :=
  let n := code_point c in
  ((9 <=? n) && (n <=? 13) || (n =? 32) || (n =? 133) || (n =? 160) || (n =? 5760)
   || (8192 <=? n) && (n <=? 8202) || (n =? 8232) || (n =? 8233) || (n =? 8239)
   || (n =? 8287) || (n =? 12288))%N.

(** [char::is_control]: general category Cc. *)
Definition is_control (c : utf8_char) : bool :=
  let n := code_point c in ((n <? 32) || (127 <=? n) && (n <? 160))%N.

(** [u8::is_ascii_whitespace]: space, tab, line feed, form feed, carriage return. *)
Definition is_ascii_whitespace (a : ascii) : bool :=
  let n := byte_val a in ((n =? 32) || (n =? 9) || (n =? 10) || (n =? 12) || (n =? 13))%N.

Definition is_ascii_alphanumeric (a : ascii) : bool :=
  let n := byte_val a in
  ((48 <=? n) && (n <=? 57) || (65 <=? n) && (n <=? 90) || (97 <=? n) && (n <=? 122))%N.

Definition to_ascii_uppercase (s : bytes) : bytes :=
  (λ a, let n := byte_val a in if ((97 <=? n) && (n <=? 122))%N then ascii_of_N (n - 32) else a) <$> s.
Definition to_ascii_lowercase (s : bytes) : bytes :=
  (λ a, let n := byte_val a in if ((65 <=? n) && (n <=? 90))%N then ascii_of_N (n + 32) else a) <$> s.

(** [trim_start_matches], [trim_end_matches] on a list of characters or bytes. *)
Fixpoint drop_while {A} (p : A → bool) (l : list A) : list A :=
  match l with
  | [] => []
  | x :: l' => if p x then drop_while p l' else l
  end.

Definition drop_end_while {A} (p : A → bool) (l : list A) : list A :=
  reverse (drop_while p (reverse l)).

Definition trim (s : bytes) : bytes :=
  concat (drop_end_while is_whitespace (drop_while is_whitespace (chars s))).

Definition trim_end (s : bytes) : bytes :=
  concat (drop_end_while is_whitespace (chars s)).

(** What is left after a run is dropped. *)
Lemma drop_while_drop {A} (p : A → bool) l : drop_while p l = drop (length l - length (drop_while p l)) l.
Proof.
  assert (H : ∀ l, length (drop_while p l) ≤ length l).
  { clear l. induction l as [|x l IH]; simpl; [lia|]. destruct (p x); simpl; lia. }
  induction l as [|x l IH]; [done|]. cbn [drop_while]. destruct (p x).
  - pose proof (H l). cbn [length]. rewrite Nat.sub_succ_l by lia. cbn [drop]. exact IH.
  - by rewrite Nat.sub_diag.
Qed.

Lemma length_drop_while {A} (p : A → bool) l : length (drop_while p l) ≤ length l.
Proof. rewrite drop_while_drop, length_drop. lia. Qed.

Lemma drop_while_head {A} (p : A → bool) l x rest : drop_while p l = x :: rest → p x = false.
Proof. induction l as [|y l IH]; simpl; [done|]. destruct (p y) eqn:E; [done|]. by intros [= <- _]. Qed.

Lemma drop_while_none {A} (p : A → bool) x l : p x = false → drop_while p (x :: l) = x :: l.
Proof. intros E. simpl. by rewrite E. Qed.

Lemma drop_while_fixed {A} (p : A → bool) l :
  drop_while p l = l ↔ match l with [] => True | x :: _ => p x = false end.
Proof.
  destruct l as [|x l]; [done|]. cbn [drop_while]. destruct (p x) eqn:E; [|done].
  split; [|done]. intros H. exfalso.
  assert (length (drop_while p l) ≤ length l) as Hl; [|rewrite H in Hl; simpl in Hl; lia].
  clear. induction l as [|y l IH]; [done|]. simpl. destruct (p y); simpl; lia.
Qed.

Lemma drop_while_suffix {A} (p : A → bool) l : ∃ pre, l = pre ++ drop_while p l.
Proof.
  induction l as [|x l [pre IH]]; [by exists []|]. cbn [drop_while].
  destruct (p x); [|by exists []]. exists (x :: pre). by rewrite IH at 1.
Qed.

Lemma drop_while_length {A} (p : A → bool) l (f : list A → nat) :
  (∀ k r, f (k ++ r) = f k + f r) → f (drop_while p l) ≤ f l.
Proof. intros Hf. destruct (drop_while_suffix p l) as [pre E]. rewrite E at 2. rewrite Hf. lia. Qed.

(** A string whose ends are visible ASCII characters is its own trim. *)
Lemma trim_visible a m z :
  (byte_val a <? 128)%N = true → (byte_val z <? 128)%N = true →
  is_whitespace [a] = false → is_whitespace [z] = false → valid_utf8 (a :: m) = true →
  trim (a :: m ++ [z]) = a :: m ++ [z].
Proof.
  intros Ha Hz Wa Wz Hv. unfold trim.
  assert (Hc : chars (a :: m ++ [z]) = chars (a :: m) ++ [[z]]).
  { change (a :: m ++ [z]) with ((a :: m) ++ [z]). rewrite chars_app by done. simpl.
    by rewrite (utf8_width_1 _ Hz). }
  assert (Hh : ∃ l, chars (a :: m) = [a] :: l).
  { cbn [chars]. rewrite (utf8_width_1 _ Ha). eauto. }
  destruct Hh as [l Hl]. rewrite Hc, Hl. cbn [app drop_while]. rewrite Wa.
  unfold drop_end_while. change ([a] :: l ++ [[z]]) with (([a] :: l) ++ [[z]]).
  rewrite reverse_app. change (reverse [[z]]) with [[z]]. cbn [app drop_while]. rewrite Wz.
  rewrite reverse_cons, reverse_involutive, <- Hl, concat_app, concat_chars. done.
Qed.

(** [split_whitespace]: the maximal runs of non-whitespace characters. *)
Fixpoint words_of (cs : list utf8_char) (word : bytes) : list bytes :=
  match cs with
  | [] => match word with [] => [] | _ => [word] end
  | c :: cs' =>
      if is_whitespace c
      then match word with [] => words_of cs' [] | _ => word :: words_of cs' [] end
      else words_of cs' (word ++ c)
  end.

Definition split_whitespace (s : bytes) : list bytes := words_of (chars s) [].

Fixpoint join (sep : bytes) (l : list bytes) : bytes :=
  match l with
  | [] => []
  | [x] => x
  | x :: l' => x ++ sep ++ join sep l'
  end.

(** [split_inclusive('\n')]: lines with their newline; no empty last piece. *)
Fixpoint split_inclusive_acc (line s : bytes) : list bytes :=
  match s with
  | [] => match line with [] => [] | _ => [line] end
  | a :: s' =>
      if Ascii.eqb a newline then (line ++ [a]) :: split_inclusive_acc [] s'
      else split_inclusive_acc (line ++ [a]) s'
  end.

Definition split_inclusive (s : bytes) : list bytes := split_inclusive_acc [] s.

Lemma split_inclusive_acc_concat line s : concat (split_inclusive_acc line s) = line ++ s.
Proof.
  revert line; induction s as [|a s IH]; intros line; simpl.
  - destruct line; simpl; by rewrite ?app_nil_r.
  - destruct (Ascii.eqb a newline); simpl; rewrite IH; simpl; by rewrite <- app_assoc.
Qed.

Lemma split_inclusive_concat s : concat (split_inclusive s) = s.
Proof. apply split_inclusive_acc_concat. Qed.

Lemma split_inclusive_acc_line acc line rest :
  newline ∉ line →
  split_inclusive_acc acc (line ++ newline :: rest)
  = (acc ++ line ++ [newline]) :: split_inclusive_acc [] rest.
Proof.
  revert acc; induction line as [|a line IH]; intros acc Hn; cbn [app split_inclusive_acc]; [done|].
  apply not_elem_of_cons in Hn as [Ha Hn].
  destruct (Ascii.eqb_spec a newline); [congruence|]. rewrite (IH _ Hn). by rewrite <- app_assoc.
Qed.

Lemma split_inclusive_line line rest :
  newline ∉ line → split_inclusive (line ++ newline :: rest) = (line ++ [newline]) :: split_inclusive rest.
Proof. intros Hn. unfold split_inclusive. by rewrite split_inclusive_acc_line. Qed.

(** [ends_with(c)] and [strip_suffix(c)] for one ASCII character. *)
Definition ends_with (c : ascii) (s : bytes) : bool :=
  match last s with Some a => Ascii.eqb a c | None => false end.

Definition strip_suffix (c : ascii) (s : bytes) : option bytes :=
  if ends_with c s then Some (removelast s) else None.

(** [str::lines]: the newline, and a carriage return before it, are cut off. *)
Definition line_of (piece : bytes) : bytes :=
  match strip_suffix newline piece with
  | Some line => match strip_suffix "013"%char line with Some l => l | None => line end
  | None => piece
  end.

Definition lines (s : bytes) : list bytes := line_of <$> split_inclusive s.

(** [strip_prefix]. *)
Fixpoint strip_prefix (pre s : bytes) : option bytes :=
  match pre, s with
  | [], _ => Some s
  | a :: pre', b :: s' => if Ascii.eqb a b then strip_prefix pre' s' else None
  | _ :: _, [] => None
  end.

Lemma strip_prefix_Some pre s r : strip_prefix pre s = Some r ↔ s = pre ++ r.
Proof.
  revert s; induction pre as [|a pre IH]; intros s; simpl; [naive_solver|].
  destruct s as [|b s]; [naive_solver|].
  destruct (Ascii.eqb_spec a b) as [->|Hne].
  - rewrite IH. naive_solver.
  - split; [done|]. intros [= -> _]. done.
Qed.

(** [split_once] and [rsplit_once] on one ASCII character. *)
Fixpoint split_once (c : ascii) (s : bytes) : option (bytes * bytes) :=
  match s with
  | [] => None
  | a :: s' =>
      if Ascii.eqb a c then Some ([], s')
      else match split_once c s' with
           | Some (l, r) => Some (a :: l, r)
           | None => None
           end
  end.

Definition rsplit_once (c : ascii) (s : bytes) : option (bytes * bytes) :=
  match split_once c (reverse s) with
  | Some (l, r) => Some (reverse r, reverse l)
  | None => None
  end.

Lemma split_once_Some c s l r :
  split_once c s = Some (l, r) ↔ s = l ++ c :: r ∧ c ∉ l.
Proof.
  revert l r; induction s as [|a s IH]; intros l r; simpl.
  - split; [done|]. intros [H _]. by destruct l.
  - destruct (Ascii.eqb_spec a c) as [->|Hne].
    + split.
      * intros [= <- <-]. split; [done|]. apply not_elem_of_nil.
      * intros [H Hn]. destruct l as [|b l]; simpl in H.
        -- by injection H as ->.
        -- injection H as <- _. destruct Hn. left.
    + destruct (split_once c s) as [[l' r']|] eqn:E.
      * split.
        -- intros [= <- <-]. destruct (proj1 (IH l' r') eq_refl) as [-> Hn]. split; [done|].
           intros [?|?]%elem_of_cons; [by subst|done].
        -- intros [H Hn]. destruct l as [|b l]; simpl in H; [by injection H as -> _|].
           injection H as <- ->. assert (Some (l', r') = Some (l, r)) as [= -> ->]; [|done].
           apply IH. split; [done|]. intros ?. apply Hn. by right.
      * split; [done|]. intros [H Hn]. destruct l as [|b l]; simpl in H; [by injection H as -> _|].
        injection H as <- ->. assert (None = Some (l, r)) as [=].
        apply IH. split; [done|]. intros ?. apply Hn. by right.
Qed.

Lemma split_once_None c s : split_once c s = None ↔ c ∉ s.
Proof.
  induction s as [|a s IH]; simpl.
  - split; [intros _; apply not_elem_of_nil|done].
  - destruct (Ascii.eqb_spec a c) as [->|Hne].
    + split; [done|]. intros H. destruct H. left.
    + rewrite not_elem_of_cons. destruct (split_once c s) as [[l r]|]; naive_solver.
Qed.

(** [str::split(c)]: always at least one piece. *)
Fixpoint split_on (c : ascii) (s : bytes) : list bytes :=
  match s with
  | [] => [[]]
  | a :: s' =>
      if Ascii.eqb a c then [] :: split_on c s'
      else match split_on c s' with
           | piece :: rest => (a :: piece) :: rest
           | [] => [[a]]
           end
  end.

Lemma split_on_nonempty c s : split_on c s ≠ [].
Proof. destruct s as [|a s]; simpl; [done|]. destruct (Ascii.eqb a c), (split_on c s); done. Qed.

Lemma join_split_on c s : join [c] (split_on c s) = s.
Proof.
  induction s as [|a s IH]; [done|]. simpl. pose proof (split_on_nonempty c s) as Hne.
  destruct (Ascii.eqb_spec a c) as [->|Hac].
  - destruct (split_on c s) as [|p ps] eqn:E; [done|]. simpl in *. by rewrite IH.
  - destruct (split_on c s) as [|p ps] eqn:E; [done|]. rewrite <- IH. by destruct ps.
Qed.

(** Conversions used where a component keeps opaque [string]s. *)
Definition keep_chars (p : utf8_char → bool) (n : nat) (s : string) : string :=
  String.string_of_list_ascii (concat (take n (List.filter p (chars (lit s))))).
