(* ===== verification/Json.v ===== *)
(** * JSON values

    serde_json's [Value] as the companions use it: an object is the list of
    its fields in map order.  Reading and printing JSON text is serde_json's
    work and always an argument of the components; a number is only its
    literal, since no component computes with one. *)

From S2P Require Export Text.

Local Open Scope rust_scope.

Inductive json :=
  | JNull
  | JBool (b : bool)
  | JNumber (literal : bytes)
  | JString (s : bytes)
  | JArray (items : list json)
  | JObject (fields : list (bytes * json)).

(** Induction with the hypothesis for every item and every field. *)
Section JsonInd.
Variable P : json → Prop.
Hypothesis HNull : P JNull.
Hypothesis HBool : ∀ b, P (JBool b).
Hypothesis HNumber : ∀ n, P (JNumber n).
Hypothesis HString : ∀ s, P (JString s).
Hypothesis HArray : ∀ items, Forall P items → P (JArray items).
Hypothesis HObject : ∀ fields, Forall (λ f, P (snd f)) fields → P (JObject fields).

Fixpoint json_nested_ind (j : json) : P j :=
  match j with
  | JNull => HNull
  | JBool b => HBool b
  | JNumber n => HNumber n
  | JString s => HString s
  | JArray items =>
      HArray items
        ((fix go (l : list json) : Forall P l :=
            match l with
            | [] => Forall_nil_2 P
            | x :: l' => Forall_cons_2 P x l' (json_nested_ind x) (go l')
            end) items)
  | JObject fields =>
      HObject fields
        ((fix go (l : list (bytes * json)) : Forall (λ f, P (snd f)) l :=
            match l with
            | [] => Forall_nil_2 _
            | f :: l' => Forall_cons_2 _ f l' (json_nested_ind (snd f)) (go l')
            end) fields)
  end.
End JsonInd.

(** [PartialEq]. *)
Fixpoint json_eqb (a b : json) : bool :=
  match a, b with
  | JNull, JNull => true
  | JBool x, JBool y => Bool.eqb x y
  | JNumber x, JNumber y | JString x, JString y => bool_decide (x = y)
  | JArray xs, JArray ys =>
      (fix go (xs ys : list json) : bool :=
         match xs, ys with
         | [], [] => true
         | x :: xs', y :: ys' => json_eqb x y && go xs' ys'
         | _, _ => false
         end) xs ys
  | JObject xs, JObject ys =>
      (fix go (xs ys : list (bytes * json)) : bool :=
         match xs, ys with
         | [], [] => true
         | x :: xs', y :: ys' =>
             bool_decide (fst x = fst y) && json_eqb (snd x) (snd y) && go xs' ys'
         | _, _ => false
         end) xs ys
  | _, _ => false
  end.

Lemma json_eqb_eq a b : json_eqb a b = true ↔ a = b.
Proof.
  revert b; induction a as [|x|x|x|xs IH|xs IH] using json_nested_ind;
    intros b; destruct b as [|y|y|y|ys|ys]; cbn [json_eqb];
    rewrite ?bool_decide_eq_true, ?Bool.eqb_true_iff; try naive_solver.
  - revert ys; induction IH as [|x xs Hx Hxs IH]; intros [|y ys]; try naive_solver.
    rewrite andb_true_iff, Hx, IH. naive_solver.
  - revert ys; induction IH as [|[k x] xs Hx Hxs IH]; intros [|[k' y] ys]; simpl; try naive_solver.
    rewrite !andb_true_iff, bool_decide_eq_true, Hx, IH. naive_solver.
Qed.

#[export] Instance json_eq_dec : EqDecision json.
Proof.
  intros a b. destruct (json_eqb a b) eqn:E.
  - left. by apply json_eqb_eq.
  - right. intros H%json_eqb_eq. congruence.
Defined.

Definition as_str (j : json) : option bytes := match j with JString s => Some s | _ => None end.
Definition as_array (j : json) : option (list json) :=
  match j with JArray l => Some l | _ => None end.
Definition is_number (j : json) : bool := match j with JNumber _ => true | _ => false end.
Definition is_object (j : json) : bool := match j with JObject _ => true | _ => false end.

(** [Value::get] on an object. *)
Definition json_get (key : bytes) (j : json) : option json :=
  match j with
  | JObject fields => snd <$> head (filter (λ f, fst f = key) fields)
  | _ => None
  end.
