(* ===== verification/Scrub.v ===== *)
(** * Privacy validation of the capture companions

    Models [companions/ai-memory-client/src/lib.rs] and [scrub.rs]: the text
    scrub, the bounded walk over JSON values, the sensitive-key test and the
    body check.  Compiling and running a regular expression is the regex
    crate's and an argument, as is serde_json's printer. *)

From S2P Require Export Json.

Local Open Scope rust_scope.

(** ** Invisible and hidden characters *)

Definition char_in (lo hi : N) (c : utf8_char) : bool :=
  ((lo <=? code_point c) && (code_point c <=? hi))%N.
Definition char_is (n : N) (c : utf8_char) : bool := (code_point c =? n)%N.

Definition is_hidden_text_char (offset : nat) (c : utf8_char) : bool :=
  char_in 0x2061 0x2064 c || char_in 0xe0000 0xe007f c || char_is 0xfeff c && (0 <? offset).

Definition is_default_ignorable (c : utf8_char) : bool :=
  char_is 0xad c || char_is 0x34f c || char_is 0x61c c || char_is 0x115f c || char_is 0x1160 c
  || char_is 0x17b4 c || char_is 0x17b5 c || char_in 0x180b 0x180f c || char_in 0x200b 0x200f c
  || char_in 0x202a 0x202e c || char_in 0x2060 0x206f c || char_is 0x3164 c
  || char_in 0xfe00 0xfe0f c || char_is 0xfeff c || char_is 0xffa0 c || char_in 0xfff0 0xfff8 c
  || char_in 0x1bca0 0x1bca3 c || char_in 0x1d173 0x1d17a c || char_in 0xe0000 0xe0fff c.

(** [emoji_tag_run_len], in characters. *)
Fixpoint emoji_tag_run_len (len : nat) (rest : list utf8_char) : nat :=
  match rest with
  | [] => 0
  | ch :: rest' =>
      if char_in 0xe0020 0xe007e ch then emoji_tag_run_len (S len) rest'
      else if char_is 0xe007f ch && (0 <? len) then S len
      else 0
  end.

(** The characters of the scrub loop that are pushed. *)
Definition kept_char (offset : nat) (ch : utf8_char) : bool :=
  char_is 10 ch || char_is 13 ch || char_is 9 ch
  || negb (is_control ch || char_in 0x202a 0x202e ch || char_in 0x2066 0x2069 ch
           || is_hidden_text_char offset ch).

(** The loop that fills [controls_removed]; [tags] characters of a flag's tag
    run are still to be copied. *)
Fixpoint remove_controls (offset tags : nat) (cs : list utf8_char) : list utf8_char :=
  match cs with
  | [] => []
  | ch :: cs' =>
      let next := offset + length ch in
      match tags with
      | S tags' => ch :: remove_controls next tags' cs'
      | O =>
          if char_is 0x1f3f4 ch then ch :: remove_controls next (emoji_tag_run_len 0 cs') cs'
          else if kept_char offset ch then ch :: remove_controls next 0 cs'
          else remove_controls next 0 cs'
      end
  end.

Definition controls_removed (input : bytes) : bytes :=
  concat (remove_controls 0 0 (chars input)).

(** ** Redaction rules *)

(** One match: byte range and text of group 0, group 3, and the expansion of
    a replacement template. *)
Record Captures := mkCaptures {
  c_start : nat;
  c_end : nat;
  c_text : bytes;
  c_group3 : option bytes;
  c_expand : bytes → bytes;
}.

Definition REDACTED : bytes := lit "[REDACTED]".

(** [text[i..j]]. *)
Definition slice (text : bytes) (i j : nat) : bytes := take (j - i) (drop i text).

(** [shadow] and [origin]: the visible bytes and their positions. *)
Fixpoint shadow_of (index : nat) (cs : list utf8_char) : list (ascii * nat) :=
  match cs with
  | [] => []
  | ch :: cs' =>
      (if is_default_ignorable ch then [] else zip ch (seq index (length ch)))
      ++ shadow_of (index + length ch) cs'
  end.

Section Scrub.
(** The regex crate. *)
Context {Regex : Type}.
Variable regex_new : bytes → Regex.
Variable captures_iter : Regex → bytes → list Captures.
Variable replace_all : Regex → bytes → (Captures → bytes) → bytes.
(** serde_json's printer. *)
Variable to_string : json → bytes.

Record RedactionRule := mkRule { regex : Regex; replacement_template : bytes }.

Definition replacement (rule : RedactionRule) (captures : Captures) : bytes :=
  if match c_group3 captures with
     | Some value =>
         (char_count value <? 6)
         || bool_decide (value ∈ [REDACTED; lit "[REDACTED CREDENTIAL]"; lit "[REDACTED PRIVATE KEY]"])
     | None => false
     end
  then c_text captures
  else c_expand captures (replacement_template rule).

(** The loop over the matches in the shadow. *)
Fixpoint redact_matches (text : bytes) (origin : list nat) (rule : RedactionRule)
    (output : bytes) (copied : nat) (matches : list Captures) : bytes :=
  match matches with
  | [] => output ++ drop copied text
  | captures :: matches' =>
      let start := default (length text) (origin !! c_start captures) in
      let end_ := match origin !! (c_end captures - 1) with
                  | Some last => if c_start captures <? c_end captures then S last else start
                  | None => start
                  end in
      let replaced := replacement rule captures in
      if (start <? copied) || bool_decide (replaced = c_text captures)
      then redact_matches text origin rule output copied matches'
      else redact_matches text origin rule (output ++ slice text copied start ++ replaced) end_ matches'
  end.

Definition redact_through_invisibles (text : bytes) (rule : RedactionRule) : bytes :=
  let shadow := shadow_of 0 (chars text) in
  redact_matches text (snd <$> shadow) rule [] 0 (captures_iter (regex rule) (fst <$> shadow)).

(** One step of the fold over the patterns. *)
Definition apply_rule (text : bytes) (rule : RedactionRule) : bytes :=
  let text := if existsb is_default_ignorable (chars text)
              then redact_through_invisibles text rule else text in
  replace_all (regex rule) text (replacement rule).

Definition dquote : bytes := [ascii_of_nat 34].

Definition secret_patterns : list RedactionRule :=
  [mkRule (regex_new (lit
     "(?s)-----BEGIN [A-Z0-9 ]*PRIVATE KEY(?: BLOCK)?-----.*?-----END [A-Z0-9 ]*PRIVATE KEY(?: BLOCK)?-----"))
     (lit "[REDACTED PRIVATE KEY]");
   mkRule (regex_new (lit
     "-----BEGIN [A-Z0-9 ]*PRIVATE KEY(?: BLOCK)?-----(?:(?:\r?\n|(?:\\r)?\\n)[ \t]*(?:(?:Proc-Type|DEK-Info|Version|Comment|Hash):[^\r\n\\]*)?)*?(?:(?:\r?\n|(?:\\r)?\\n)[ \t]*[A-Za-z0-9+/=]{16,}[ \t]*)+(?P<end>\r?(?m:$)|["
     ++ dquote ++ lit "'\\…]|\.\.\.)"))
     (lit "[REDACTED PRIVATE KEY]${end}");
   mkRule (regex_new (lit
     "\b(?:github_pat_[A-Za-z0-9_]{20,}|gh[pousr]_[A-Za-z0-9]{20,}|sk-[A-Za-z0-9_-]{16,}|AKIA[0-9A-Z]{16})\b"))
     (lit "[REDACTED CREDENTIAL]");
   mkRule (regex_new (lit "\b(?:aim|ams)_[A-Za-z0-9_-]{40,}")) (lit "[REDACTED CREDENTIAL]");
   mkRule (regex_new (lit "(?i)\b(bearer\s+)[A-Za-z0-9._~+/=-]{8,}")) (lit "$1[REDACTED]");
   mkRule (regex_new (lit
     "(?i)\b(api[_-]?key|access[_-]?token|auth[_-]?token|token|secret|password)\b((?:\\*"
     ++ dquote ++ lit ")?\s*[:=]\s*)(\\*" ++ dquote ++ lit "[^" ++ dquote ++ lit "\\\r\n]{6,}\\*"
     ++ dquote ++ lit "|'[^'\r\n]{6,}'|(?:\[REDACTED(?: CREDENTIAL| PRIVATE KEY)?\]|[^\s,;])+)"))
     (lit "$1$2[REDACTED]")].

Definition sanitize_external_text (input : bytes) : bytes :=
  foldl apply_rule (controls_removed input) secret_patterns.

(** ** The walk over a value ([lib.rs]) *)

Inductive ScrubError :=
  | NestingLimit
  | TextTooLong
  | SensitiveEnvelope
  | BodyAuthority
  | BodyTooLong.

Definition MAX_TEXT : Z := 256 * 1024.

Definition bounded_text (text : bytes) (depth : nat) : result unit ScrubError :=
  bail_if 64 <? depth with NestingLimit;;
  bail_if (MAX_TEXT <? Z.of_nat (length text))%Z with TextTooLong;;
  Ok tt.

Fixpoint bounded (value : json) (depth : nat) : result unit ScrubError :=
  bail_if 64 <? depth with NestingLimit;;
  match value with
  | JString text => bounded_text text depth
  | JArray items => try_for_each (λ item, bounded item (S depth)) items
  | JObject fields =>
      try_for_each (λ f,
        match bounded_text (fst f) (S depth) with
        | Ok _ => bounded (snd f) (S depth)
        | Err e => Err e
        end) fields
  | _ => Ok tt
  end.

Definition is_upper (c : utf8_char) : bool := char_in 65 90 c.
Definition is_lower (c : utf8_char) : bool := char_in 97 122 c.
Definition is_char (p : utf8_char → bool) (c : option utf8_char) : bool :=
  match c with Some c => p c | None => false end.

(** The key in snake case, as the loop of [sensitive_key] spells it. *)
Fixpoint snake_name (previous : option utf8_char) (cs : list utf8_char) : bytes :=
  match cs with
  | [] => []
  | ch :: cs' =>
      (if is_upper ch
          && (is_char is_lower previous || is_char is_upper previous && is_char is_lower (head cs'))
       then ["_"%char] else [])
      ++ (if is_upper ch then [ascii_of_N (code_point ch + 32)]
          else if is_lower ch || char_in 48 57 ch then ch
          else ["_"%char])
      ++ snake_name (Some ch) cs'
  end.

Definition metrics : list bytes := split_on " "%char (lit
  "max_tokens input_tokens token_count token_usage output_tokens total_tokens cache_read_input_tokens cache_creation_input_tokens prompt_tokens completion_tokens reasoning_tokens").
Definition qualifiers : list bytes := split_on " "%char (lit
  "access refresh id auth authorization bearer session api private client oauth secret password credential cookie").
Definition sensitive_words : list bytes := split_on " "%char (lit
  "authorization auth jwt pwd bearer password passwd secret token cookie credential apikey privatekey accesskey signature").

Definition key_parts (name : bytes) : list bytes :=
  List.filter (λ part, negb (bool_decide (part = []))) (split_on "_"%char name).

Definition usage_count (parts : list bytes) : bool :=
  (1 <? length parts)
  && bool_decide (last parts = Some (lit "tokens"))
  && negb (existsb (λ part, bool_decide (part ∈ qualifiers)) (removelast parts)).

Definition sensitive_key (key : bytes) (value : json) : bool :=
  let name := snake_name None (chars key) in
  let parts := key_parts name in
  let is_metric := bool_decide (name ∈ metrics) || usage_count parts in
  if is_number value && is_metric then false
  else
    existsb (λ word, existsb (λ part,
        bool_decide (drop_end_while (Ascii.eqb "s"%char) part = word)) parts) sensitive_words
    || any_adjacent (λ a b,
         bool_decide (a ∈ [lit "api"; lit "private"; lit "access"; lit "session"])
         && bool_decide (b ∈ [lit "key"; lit "keys"])) parts.

(** [reject_sensitive] on a string, the case the walk itself calls. *)
Definition reject_text (text : bytes) : result unit ScrubError :=
  let? _u := bounded_text text 0 in
  bail_if negb (bool_decide (sanitize_external_text text = text)) with SensitiveEnvelope;;
  Ok tt.

Fixpoint sanitize_value (value : json) : result json ScrubError :=
  match value with
  | JString text => Ok (JString (sanitize_external_text text))
  | JArray items =>
      match try_map sanitize_value items with Ok items' => Ok (JArray items') | Err e => Err e end
  | JObject fields =>
      match try_map (λ f,
        match reject_text (fst f) with
        | Ok _ =>
            if sensitive_key (fst f) (snd f) then Ok (fst f, JString REDACTED)
            else match sanitize_value (snd f) with
                 | Ok v => Ok (fst f, v)
                 | Err e => Err e
                 end
        | Err e => Err e
        end) fields with
      | Ok fields' => Ok (JObject fields')
      | Err e => Err e
      end
  | other => Ok other
  end.

Definition sanitize_external_value (value : json) : result json ScrubError :=
  let? _u := bounded value 0 in
  sanitize_value value.

Definition reject_sensitive (value : json) : result unit ScrubError :=
  let? _u := bounded value 0 in
  let? safe := sanitize_external_value value in
  bail_if negb (bool_decide (safe = value)) with SensitiveEnvelope;;
  Ok tt.

(** Authority a body may not supply. *)
Definition AUTHORITY_KEYS : list bytes :=
  lit <$> ["workspace"; "project"; "actor"; "author_id"; "headers"]%string.

Definition check_body (body : json) : result unit ScrubError :=
  bail_if negb (is_object body)
          || existsb (λ key, match json_get key body with Some _ => true | None => false end)
               AUTHORITY_KEYS
    with BodyAuthority;;
  let? _u := reject_sensitive body in
  bail_if (MAX_TEXT <? Z.of_nat (length (to_string body)))%Z with BodyTooLong;;
  Ok tt.
End Scrub.
