(* ===== verification/RelayAck.v ===== *)
(** * Acknowledgements of [POST /hook/batch]

    Models [companions/ai-memory-relay/src/ack.rs]: the outcome vocabulary,
    the batch acknowledgement and its whole-response validation.  An
    acknowledgement is accepted exactly when it is one of the well-formed
    acknowledgements of [well_formed_ack], and then names the indexes to
    release. *)

From S2P Require Export Prelude.

Local Open Scope rust_scope.

(** ** Outcomes *)

Definition OUTCOMES : list string :=
  [ "stored"; "replayed"; "resumed"; "ignored_end"; "dropped_policy";
    "dropped_subagent"; "dropped_unauthorized"; "dropped_collision";
    "dropped_invalid"; "unknown" ]%string.

(** [OUTCOMES.iter().find(known == value).unwrap_or("unknown")]. *)
Definition outcome (value : string) : string :=
  match list_find (λ known, known = value) OUTCOMES with
  | Some (_, known) => known
  | None => "unknown"%string
  end.

Definition outcome_counts : gmap string Z :=
  list_to_map ((λ key, (key, 0%Z)) <$> OUTCOMES).

(** ** The acknowledgement *)

Record EventResult := mkEventResult { er_index : nat; er_outcome : string }.

Record BatchAck := mkBatchAck {
  accepted : nat;
  accepted_indices : option (list nat);
  failed_index : option nat;
  results : option (list EventResult);
}.

(** Why an acknowledgement was refused, one constructor per message. *)
Inductive AckRejected :=
  | IndexOutsideBatch (bad batch_len : nat)
  | IndicesNotAscending
  | PrefixDisagrees (accepted prefix : nat)
  | AcceptedExceedsBatch (accepted batch_len : nat)
  | FailedOutsideBatch (failed batch_len : nat)
  | FailedAlsoAccepted (failed : nat)
  | AcceptedAfterFailed (after failed : nat)
  | ResultsMismatch.

Definition contiguous_prefix (indices : list nat) : nat :=
  count_while (λ '(pos, idx), pos =? idx) (zip (seq 0 (length indices)) indices).

(** The indexes an acknowledgement claims, before [failed_index] and
    [results] are looked at. *)
Definition claimed_indices (batch_len : nat) (ack : BatchAck) : result (list nat) AckRejected :=
  match accepted_indices ack with
  | Some indices =>
      match list_find (λ idx, batch_len ≤ idx) indices with
      | Some (_, bad) => Err (IndexOutsideBatch bad batch_len)
      | None =>
          bail_if any_adjacent (λ a b, b <=? a) indices with IndicesNotAscending;;
          bail_if negb (contiguous_prefix indices =? accepted ack)
            with PrefixDisagrees (accepted ack) (contiguous_prefix indices);;
          Ok indices
      end
  | None =>
      bail_if batch_len <? accepted ack with AcceptedExceedsBatch (accepted ack) batch_len;;
      Ok (seq 0 (accepted ack))
  end.

Definition check_failed (batch_len : nat) (ack : BatchAck) (indices : list nat)
    : result unit AckRejected :=
  match failed_index ack with
  | None => Ok ()
  | Some failed =>
      bail_if batch_len <=? failed with FailedOutsideBatch failed batch_len;;
      bail_if bool_decide (failed ∈ indices) with FailedAlsoAccepted failed;;
      match list_find (λ idx, failed < idx) indices with
      | Some (_, after) => Err (AcceptedAfterFailed after failed)
      | None => Ok ()
      end
  end.

Definition check_results (ack : BatchAck) (indices : list nat) : result unit AckRejected :=
  match results ack with
  | None => Ok ()
  | Some rs =>
      bail_if negb (length rs =? length indices)
              || existsb (λ '(r, i), negb (er_index r =? i)) (zip rs indices)
        with ResultsMismatch;;
      Ok ()
  end.

Definition validate (batch_len : nat) (ack : BatchAck) : result (list nat) AckRejected :=
  let? indices := claimed_indices batch_len ack in
  let? _u := check_failed batch_len ack indices in
  let? _v := check_results ack indices in
  Ok indices.

Definition acknowledged_outcome (ack : BatchAck) (index : nat) : string :=
  match results ack ≫= (λ rs, snd <$> list_find (λ r, er_index r = index) rs) with
  | Some r => outcome (er_outcome r)
  | None => "unknown"%string
  end.

(** ** Specification: the well-formed acknowledgements of a batch *)

Record well_formed_ack (batch_len : nat) (ack : BatchAck) (indices : list nat) : Prop := {
  wf_claim : match accepted_indices ack with
             | Some claimed => indices = claimed
             | None => indices = seq 0 (accepted ack)
             end;
  wf_ascending : ascending indices;
  wf_in_batch : Forall (λ i, i < batch_len) indices;
  wf_prefix : ∀ i, i < accepted ack → i ∈ indices;
  wf_prefix_ends : accepted ack ∉ indices;
  wf_failed : ∀ failed, failed_index ack = Some failed →
              failed < batch_len ∧ Forall (λ i, i < failed) indices;
  wf_results : ∀ rs, results ack = Some rs → er_index <$> rs = indices;
}.

(** ** Lemmas *)

Lemma outcome_in (v : string) : outcome v ∈ OUTCOMES.
Proof.
  unfold outcome. destruct (list_find _ OUTCOMES) as [[i k]|] eqn:E.
  - apply list_find_Some in E as (Hk & _). eapply list_elem_of_lookup_2; eauto.
  - repeat constructor.
Qed.

Lemma acknowledged_outcome_in ack i : acknowledged_outcome ack i ∈ OUTCOMES.
Proof.
  unfold acknowledged_outcome. destruct (_ ≫= _); [apply outcome_in|].
  by repeat constructor.
Qed.

Lemma outcome_known (v : string) : v ∈ OUTCOMES → outcome v = v.
Proof.
  intros Hv. unfold outcome.
  destruct (list_find _ OUTCOMES) as [[i k]|] eqn:E.
  - by apply list_find_Some in E as (_ & -> & _).
  - apply list_find_None_Forall in E. rewrite Forall_forall in E. by destruct (E v Hv).
Qed.

(** The prefix count, with the positions counted from [base]. *)
Lemma contiguous_from base l p :
  ascending l → Forall (λ x, base ≤ x) l →
  count_while (λ '(pos, idx), pos =? idx) (zip (seq base (length l)) l) = p ↔
  (∀ i, base ≤ i < base + p → i ∈ l) ∧ base + p ∉ l.
Proof.
  intros Hl. revert base p; induction Hl as [|x l Hx Hl IH]; intros base p Hb; simpl.
  - split.
    + intros <-. split; [lia|apply not_elem_of_nil].
    + intros [Hin _]. destruct p as [|p]; [done|].
      specialize (Hin base ltac:(lia)). by apply not_elem_of_nil in Hin.
  - inversion Hb as [|? ? Hbx Hbl]; subst.
    destruct (Nat.eqb_spec base x) as [->|Hne].
    + assert (Hs : Forall (λ y, S x ≤ y) l) by (eapply Forall_impl; [exact Hx|]; simpl; lia).
      destruct p as [|p].
      { split; [done|]. intros [_ Hn]. destruct Hn. rewrite Nat.add_0_r. left. }
      specialize (IH (S x) p Hs).
      split.
      * intros [= Hp]. apply IH in Hp as [Hin Hn]. split.
        -- intros i Hi. destruct (decide (i = x)) as [->|]; [left|].
           right. apply Hin. lia.
        -- rewrite <- Nat.add_succ_comm. intros [?|?]%elem_of_cons; [lia|done].
      * intros [Hin Hn]. f_equal. apply IH. split.
        -- intros i Hi. specialize (Hin i ltac:(lia)).
           apply elem_of_cons in Hin as [->|?]; [lia|done].
        -- intros ?. apply Hn. right. by rewrite <- Nat.add_succ_comm.
    + assert (Hbn : base ∉ x :: l).
      { rewrite elem_of_cons, Forall_forall in *. intros [->|Hin]; [done|].
        specialize (Hx base Hin). lia. }
      split.
      * intros <-. split; [lia|]. by rewrite Nat.add_0_r.
      * intros [Hin _]. destruct p as [|p]; [done|].
        destruct Hbn. apply Hin. lia.
Qed.

Lemma contiguous_prefix_spec l p :
  ascending l →
  contiguous_prefix l = p ↔ (∀ i, i < p → i ∈ l) ∧ p ∉ l.
Proof.
  intros Hl. unfold contiguous_prefix. rewrite contiguous_from.
  - split; intros [Hin Hn]; split; try done; intros i Hi; apply Hin; lia.
  - done.
  - apply Forall_forall; lia.
Qed.

Lemma claimed_indices_spec n ack l :
  claimed_indices n ack = Ok l ↔
  match accepted_indices ack with
  | Some claimed => l = claimed
  | None => l = seq 0 (accepted ack)
  end ∧ ascending l ∧ Forall (λ i, i < n) l ∧
  (∀ i, i < accepted ack → i ∈ l) ∧ accepted ack ∉ l.
Proof.
  unfold claimed_indices. destruct (accepted_indices ack) as [claimed|].
  - destruct (list_find _ claimed) as [[i bad]|] eqn:E.
    + split; [done|]. intros (-> & _ & Hn & _).
      apply list_find_Some in E as (Hi & Hbad & _).
      pose proof (Forall_lookup_1 _ _ _ _ Hn Hi). simpl in *. lia.
    + apply list_find_None_Forall in E.
      rewrite !bail_Ok, ascending_any_adjacent, negb_false_iff, Nat.eqb_eq.
      split.
      * intros (Hasc & Hp & [= ->]). apply contiguous_prefix_spec in Hp as [? ?]; [|done].
        repeat split; try done. eapply Forall_impl; [exact E|]. simpl; lia.
      * intros (-> & Hasc & _ & Hin & Hn).
        rewrite contiguous_prefix_spec by done. done.
  - rewrite bail_Ok, Nat.ltb_ge. split.
    + intros (Hle & [= <-]). repeat split.
      * apply ascending_seq.
      * apply Forall_seq. lia.
      * intros i Hi. apply elem_of_seq. lia.
      * rewrite elem_of_seq. lia.
    + intros (-> & _ & Hn & _). split; [|done].
      rewrite Forall_seq in Hn.
      destruct (accepted ack) as [|a]; [lia|]. specialize (Hn a). lia.
Qed.

Lemma check_failed_spec n ack l u :
  check_failed n ack l = Ok u ↔
  ∀ failed, failed_index ack = Some failed → failed < n ∧ Forall (λ i, i < failed) l.
Proof.
  unfold check_failed. destruct u, (failed_index ack) as [f|]; [|naive_solver].
  rewrite !bail_Ok, Nat.leb_gt, bool_decide_eq_false.
  destruct (list_find _ l) as [[i bad]|] eqn:E; simpl.
  - apply list_find_Some in E as (Hi & Hbad & _). split; [naive_solver|].
    intros H. destruct (H f eq_refl) as [_ Hall].
    pose proof (Forall_lookup_1 _ _ _ _ Hall Hi). simpl in *. lia.
  - apply list_find_None_Forall in E. rewrite Forall_forall in E. split.
    + intros (Hf & Hnin & _) ? [= <-]. split; [done|].
      apply Forall_forall. intros i Hi. specialize (E i Hi).
      destruct (decide (i = f)) as [->|]; [done|lia].
    + intros H. destruct (H f eq_refl) as [Hf Hall]. repeat split; [done|].
      intros Hin. rewrite Forall_forall in Hall. specialize (Hall f Hin). lia.
Qed.

Lemma zip_indices_match rs l :
  negb (length rs =? length l)
    || existsb (λ '(r, i), negb (er_index r =? i)) (zip rs l) = false ↔
  er_index <$> rs = l.
Proof.
  rewrite orb_false_iff, negb_false_iff, Nat.eqb_eq.
  revert l; induction rs as [|r rs IH]; intros [|i l]; simpl; [naive_solver..|].
  rewrite orb_false_iff, negb_false_iff, Nat.eqb_eq.
  specialize (IH l). split.
  - intros (Hlen & -> & Hz). f_equal. apply IH. auto.
  - intros [= -> Hl]. destruct (proj2 IH Hl). auto.
Qed.

Lemma check_results_spec ack l u :
  check_results ack l = Ok u ↔ ∀ rs, results ack = Some rs → er_index <$> rs = l.
Proof.
  unfold check_results. destruct u, (results ack) as [rs|]; [|naive_solver].
  rewrite bail_Ok, zip_indices_match. naive_solver.
Qed.

Lemma validate_ascending n ack l : validate n ack = Ok l → ascending l.
Proof.
  unfold validate. intros H. apply result_bind_Ok in H as (l' & Hl & H). peel_ok. subst.
  apply claimed_indices_spec in Hl. tauto.
Qed.

Lemma well_formed_validates batch_len ack indices :
  well_formed_ack batch_len ack indices → validate batch_len ack = Ok indices.
Proof.
  intros [Hc Ha Hb Hp He Hf Hr]. apply result_bind_Ok. exists indices. split.
  - apply claimed_indices_spec. destruct (accepted_indices ack); done.
  - rewrite (proj2 (check_failed_spec _ _ _ ()) Hf); simpl.
    by rewrite (proj2 (check_results_spec _ _ ()) Hr).
Qed.

(** ** Properties *)

(** C26. Whole-response validation is exactly the specification: a batch
    acknowledgement is accepted, releasing [indices], if and only if those
    indexes are the claimed ones, strictly ascending, inside the batch, with
    [accepted] their contiguous prefix, all before [failed_index] (itself in
    the batch), and reported one by one and in order by [results]. *)
Theorem validate_iff_well_formed batch_len ack indices :
  validate batch_len ack = Ok indices ↔ well_formed_ack batch_len ack indices.
Proof.
  split; [|apply well_formed_validates]. unfold validate. rewrite result_bind_Ok.
  intros (l & Hl & H). peel_ok. subst l. apply claimed_indices_spec in Hl as (? & ? & ? & ? & ?).
  rewrite check_failed_spec in Hr. rewrite check_results_spec in Hr0. by split.
Qed.

(** After validation, the outcome recorded for the [k]-th released index
    is the normalized outcome of the [k]-th reported result, and always one
    of the ten known labels. *)
Theorem acknowledged_outcome_of_result batch_len ack indices rs k i r :
  validate batch_len ack = Ok indices →
  results ack = Some rs → indices !! k = Some i → rs !! k = Some r →
  acknowledged_outcome ack i = outcome (er_outcome r) ∧
  acknowledged_outcome ack i ∈ OUTCOMES.
Proof.
  intros Hv%validate_iff_well_formed Hrs Hi Hr.
  pose proof (wf_results _ _ _ Hv rs Hrs) as Hmap.
  pose proof (ascending_NoDup _ (wf_ascending _ _ _ Hv)) as Hnd.
  assert (Heq : acknowledged_outcome ack i = outcome (er_outcome r)).
  { unfold acknowledged_outcome. rewrite Hrs. simpl.
    assert (Hri : er_index r = i).
    { rewrite <- Hmap, list_lookup_fmap, Hr in Hi. by injection Hi. }
    destruct (list_find _ rs) as [[j r']|] eqn:E; simpl.
    - apply list_find_Some in E as (Hj & Hj' & _).
      assert (j = k) as ->.
      { apply (NoDup_lookup indices j k i Hnd); [|done].
        by rewrite <- Hmap, list_lookup_fmap, Hj; simpl; f_equal. }
      rewrite Hr in Hj. by injection Hj as ->.
    - apply list_find_None_Forall in E. by destruct (Forall_lookup_1 _ _ _ _ E Hr). }
  split; [done|]. rewrite Heq. apply outcome_in.
Qed.

Definition example_ack : BatchAck :=
  mkBatchAck 2 (Some [0; 1; 3]) (Some 4)
    (Some [mkEventResult 0 "stored"; mkEventResult 1 "weird"; mkEventResult 3 "resumed"]).

Lemma acknowledged_outcome_of_result_witness :
  validate 6 example_ack = Ok [0; 1; 3] ∧
  acknowledged_outcome example_ack 3 = "resumed"%string.
Proof.
  split; [vm_compute; reflexivity|].
  apply (acknowledged_outcome_of_result 6 example_ack [0; 1; 3]
           [mkEventResult 0 "stored"; mkEventResult 1 "weird"; mkEventResult 3 "resumed"]
           2 3 (mkEventResult 3 "resumed")); vm_compute; reflexivity.
Defined.
