(* ===== verification/RelayQueue.v ===== *)
(** * The relay's durable queue

    Models [companions/ai-memory-relay/src/queue.rs] over an in-memory image
    of its SQLite tables: [pending] in [seq] order, [receipt] and
    [session_agent] as finite maps on their primary keys, the single
    [binding] row.  Each operation is one immediate transaction: an [Err]
    leaves the database unchanged because nothing is returned. *)

From S2P Require Export RelayAck Text.

Local Open Scope rust_scope.
Local Open Scope Z_scope.

(** ** Bounds *)

Definition MAX_PENDING_ITEMS : Z := 50000.
Definition MAX_PENDING_BYTES : Z := 64 * 1024 * 1024.
Definition MAX_RECEIPTS : Z := 200000.
Definition MAX_SESSION_PINS : Z := 50000.
Definition MAX_BATCH_ITEMS : nat := 256.
Definition RETRY_WINDOW_MS : Z := 30 * 24 * 60 * 60 * 1000.

(** ** Data *)

Record Binding := mkBinding {
  b_server_url : string;
  b_producer : string;
  b_actor : string;
  b_workspace : string;
  b_project : string;
}.

#[export] Instance Binding_eq_dec : EqDecision Binding.
Proof. solve_decision. Defined.

Inductive BindOutcome := Created | Recognized.

Record EnqueueReport := mkEnqueueReport { rep_accepted : nat; rep_recognized : nat }.

(** A validated event ([identity::ValidEvent]). *)
Record ValidEvent := mkValidEvent {
  ev_event_id : string;
  ev_agent : string;
  ev_event : string;
  ev_session_id : string;
  ev_cwd : string;
  ev_body_json : string;
  ev_body_sha256 : string;
  ev_ingest_key : string;
}.

(** A row of [pending]. *)
Record PendingRow := mkPendingRow {
  p_seq : Z;
  p_ingest_key : string;
  p_event_id : string;
  p_agent : string;
  p_event : string;
  p_session_id : string;
  p_cwd : string;
  p_body_json : string;
  p_body_sha256 : string;
  p_body_bytes : Z;
  p_first_seen_ms : Z;
  p_first_attempt_ms : option Z;
  p_attempts : Z;
  p_last_error : option string;
}.

(** A row of [receipt], without its key. *)
Record ReceiptRow := mkReceiptRow {
  r_body_sha256 : string;
  r_first_attempt_ms : Z;
  r_delivered_at_ms : Z;
  r_outcome : option string;
}.

(** The columns [select_batch] reads. *)
Record PendingItem := mkPendingItem {
  i_seq : Z;
  i_ingest_key : string;
  i_event_id : string;
  i_agent : string;
  i_event : string;
  i_session_id : string;
  i_body_json : string;
  i_body_bytes : Z;
  i_first_seen_ms : Z;
  i_first_attempt_ms : option Z;
}.

Definition item_of_row (r : PendingRow) : PendingItem :=
  mkPendingItem (p_seq r) (p_ingest_key r) (p_event_id r) (p_agent r) (p_event r)
    (p_session_id r) (p_body_json r) (p_body_bytes r) (p_first_seen_ms r)
    (p_first_attempt_ms r).

(** [PendingItem::session]. *)
Definition session (i : PendingItem) : string * string := (i_agent i, i_session_id i).

Definition row_session (r : PendingRow) : string * string := (p_agent r, p_session_id r).

Record Batch := mkBatch {
  items : list PendingItem;
  blocked_sessions : nat;
  budget_deferred : nat;
}.

(** The database. [q_next_seq] is SQLite's AUTOINCREMENT counter. *)
Record Queue := mkQueue {
  q_binding : option Binding;
  q_pending : list PendingRow;
  q_next_seq : Z;
  q_receipt : gmap string ReceiptRow;
  q_session_agent : gmap string (string * Z);
}.

(** The database [Queue::open] creates. *)
Definition fresh_queue : Queue := mkQueue None [] 1 ∅ ∅.

Definition set_pending (rows : list PendingRow) (q : Queue) : Queue :=
  mkQueue (q_binding q) rows (q_next_seq q) (q_receipt q) (q_session_agent q).

(** [SELECT ... FROM pending WHERE ingest_key = ?1]. *)
Definition pending_by_key (key : string) (rows : list PendingRow) : option PendingRow :=
  snd <$> list_find (λ r, p_ingest_key r = key) rows.

(** ** [Queue::bind] *)

Inductive BindError := BindingMismatch (existing requested : Binding).

Definition bind (b : Binding) (q : Queue) : result (Queue * BindOutcome) BindError :=
  match q_binding q with
  | Some existing =>
      if decide (existing = b) then Ok (q, Recognized) else Err (BindingMismatch existing b)
  | None =>
      Ok (mkQueue (Some b) (q_pending q) (q_next_seq q) (q_receipt q) (q_session_agent q),
          Created)
  end.

(** ** [Queue::enqueue] *)

Inductive CollisionWith := InThisFile | InThisQueue.

Inductive EnqueueError :=
  | PinTableFull
  | SessionIdentityConflict (session_id bound event_id agent : string)
  | IdentityCollision (ingest_key : string) (other : CollisionWith)
  | QueueFull (items bytes : Z)
  | ReplayProtectionFull (receipts items protected : Z).

(** What the transaction has accumulated. *)
Record EnqueueTx := mkEnqueueTx {
  tx_pending : list PendingRow;
  tx_next_seq : Z;
  tx_items : Z;
  tx_bytes : Z;
  tx_pins : Z;
  tx_report : EnqueueReport;
  tx_seen_keys : gmap string string;
  tx_seen_sessions : gmap string string;
}.

Definition sum_bytes (rows : list PendingRow) : Z :=
  foldr (λ r acc, p_body_bytes r + acc) 0 rows.

Definition enqueue_begin (q : Queue) : EnqueueTx :=
  mkEnqueueTx (q_pending q) (q_next_seq q) (Z.of_nat (length (q_pending q)))
    (sum_bytes (q_pending q)) (Z.of_nat (size (q_session_agent q)))
    (mkEnqueueReport 0 0) ∅ ∅.

Definition bound_agent (q : Queue) (tx : EnqueueTx) (sid : string) : option string :=
  match fst <$> q_session_agent q !! sid with
  | Some a => Some a
  | None => tx_seen_sessions tx !! sid
  end.

(** [SELECT body_sha256 FROM pending ... UNION ALL SELECT ... FROM receipt]. *)
Definition known_sha (q : Queue) (tx : EnqueueTx) (key : string) : option string :=
  match pending_by_key key (tx_pending tx) with
  | Some r => Some (p_body_sha256 r)
  | None => r_body_sha256 <$> q_receipt q !! key
  end.

Definition body_len (e : ValidEvent) : Z := Z.of_nat (String.length (ev_body_json e)).

Definition new_row (seq now_ms : Z) (e : ValidEvent) : PendingRow :=
  mkPendingRow seq (ev_ingest_key e) (ev_event_id e) (ev_agent e) (ev_event e)
    (ev_session_id e) (ev_cwd e) (ev_body_json e) (ev_body_sha256 e)
    (body_len e) now_ms None 0 None.

(** The session-pin checks at the head of the loop body: the new pin count. *)
Definition check_pin (q : Queue) (tx : EnqueueTx) (e : ValidEvent) : result Z EnqueueError :=
  match bound_agent q tx (ev_session_id e) with
  | None =>
      let pins := tx_pins tx + 1 in
      bail_if MAX_SESSION_PINS <? pins with PinTableFull;;
      Ok pins
  | Some bound =>
      bail_if negb (String.eqb bound (ev_agent e))
        with SessionIdentityConflict (ev_session_id e) bound (ev_event_id e) (ev_agent e);;
      Ok (tx_pins tx)
  end.

Definition check_seen_key (tx : EnqueueTx) (e : ValidEvent) : result unit EnqueueError :=
  match tx_seen_keys tx !! ev_ingest_key e with
  | Some previous =>
      bail_if negb (String.eqb previous (ev_body_sha256 e))
        with IdentityCollision (ev_ingest_key e) InThisFile;;
      Ok ()
  | None => Ok ()
  end.

(** The tail of the loop body for a key the queue does not know. *)
Definition insert_event (q : Queue) (now_ms : Z) (tx : EnqueueTx) (e : ValidEvent)
    : result EnqueueTx EnqueueError :=
  let receipts := Z.of_nat (size (q_receipt q)) in
  let items := tx_items tx + 1 in
  let bytes := tx_bytes tx + body_len e in
  bail_if (MAX_PENDING_ITEMS <? items) || (MAX_PENDING_BYTES <? bytes)
    with QueueFull items bytes;;
  let protected := receipts + items in
  bail_if MAX_RECEIPTS <? protected with ReplayProtectionFull receipts items protected;;
  Ok (mkEnqueueTx (tx_pending tx ++ [new_row (tx_next_seq tx) now_ms e]) (tx_next_seq tx + 1)
        items bytes (tx_pins tx)
        (mkEnqueueReport (S (rep_accepted (tx_report tx))) (rep_recognized (tx_report tx)))
        (tx_seen_keys tx) (tx_seen_sessions tx)).

Definition recognize (tx : EnqueueTx) : EnqueueTx :=
  mkEnqueueTx (tx_pending tx) (tx_next_seq tx) (tx_items tx) (tx_bytes tx) (tx_pins tx)
    (mkEnqueueReport (rep_accepted (tx_report tx)) (S (rep_recognized (tx_report tx))))
    (tx_seen_keys tx) (tx_seen_sessions tx).

(** The state after the pin and file-collision checks have passed. *)
Definition note_seen (tx : EnqueueTx) (pins : Z) (e : ValidEvent) : EnqueueTx :=
  mkEnqueueTx (tx_pending tx) (tx_next_seq tx) (tx_items tx) (tx_bytes tx) pins (tx_report tx)
    (<[ev_ingest_key e := ev_body_sha256 e]> (tx_seen_keys tx))
    (<[ev_session_id e := ev_agent e]> (tx_seen_sessions tx)).

(** One iteration of the loop over the input events. *)
Definition enqueue_event (q : Queue) (now_ms : Z) (tx : EnqueueTx) (e : ValidEvent)
    : result EnqueueTx EnqueueError :=
  let? pins := check_pin q tx e in
  let? _u := check_seen_key tx e in
  let tx := note_seen tx pins e in
  match known_sha q tx (ev_ingest_key e) with
  | Some known =>
      bail_if negb (String.eqb known (ev_body_sha256 e))
        with IdentityCollision (ev_ingest_key e) InThisQueue;;
      Ok (recognize tx)
  | None => insert_event q now_ms tx e
  end.

Fixpoint enqueue_loop (q : Queue) (now_ms : Z) (tx : EnqueueTx) (events : list ValidEvent)
    : result EnqueueTx EnqueueError :=
  match events with
  | [] => Ok tx
  | e :: events' =>
      let? tx' := enqueue_event q now_ms tx e in
      enqueue_loop q now_ms tx' events'
  end.

(** [INSERT INTO session_agent ... ON CONFLICT DO UPDATE SET last_seen_ms]
    for every session of the file: an existing pin keeps its agent. *)
Definition pin_sessions (now_ms : Z) (seen : gmap string string)
    (table : gmap string (string * Z)) : gmap string (string * Z) :=
  union_with (λ old _, Some (fst old, now_ms)) table ((λ a, (a, now_ms)) <$> seen).

Definition enqueue (events : list ValidEvent) (now_ms : Z) (q : Queue)
    : result (Queue * EnqueueReport) EnqueueError :=
  let? tx := enqueue_loop q now_ms (enqueue_begin q) events in
  Ok (mkQueue (q_binding q) (tx_pending tx) (tx_next_seq tx) (q_receipt q)
        (pin_sessions now_ms (tx_seen_sessions tx) (q_session_agent q)),
      tx_report tx).

(** ** [is_expired] and [Queue::select_batch] *)

Definition is_expired (first_attempt_ms : option Z) (now_ms : Z) : bool :=
  match first_attempt_ms with
  | Some started => RETRY_WINDOW_MS <=? i64_saturating_sub now_ms started
  | None => false
  end.

Section SelectBatch.
Variable limit : nat.
Variable byte_budget : Z.
Variable now_ms : Z.
Variable deferred : gset (string * string).
Variable cost_of : PendingItem → Z.

(** The cursor loop over [pending ORDER BY seq ASC]. *)
Fixpoint select_loop (rows : list PendingRow) (seen : gset (string * string))
    (batch : Batch) (spent : Z) : Batch :=
  match rows with
  | [] => batch
  | row :: rows' =>
      if (limit <=? length (items batch))%nat then batch
      else
        let item := item_of_row row in
        let s := session item in
        if decide (s ∈ seen) then select_loop rows' seen batch spent
        else
          let seen := {[s]} ∪ seen in
          if decide (s ∈ deferred) then select_loop rows' seen batch spent
          else if is_expired (i_first_attempt_ms item) now_ms then
            select_loop rows' seen
              (mkBatch (items batch) (S (blocked_sessions batch)) (budget_deferred batch)) spent
          else
            let cost := cost_of item in
            if negb (length (items batch) =? 0)%nat && (byte_budget <? spent + cost) then
              select_loop rows' seen
                (mkBatch (items batch) (blocked_sessions batch) (S (budget_deferred batch))) spent
            else
              select_loop rows' seen
                (mkBatch (items batch ++ [item]) (blocked_sessions batch) (budget_deferred batch))
                (spent + cost)
  end.
End SelectBatch.

(** [limit.clamp(1, MAX_BATCH_ITEMS)]. *)
Definition clamp_limit (limit : nat) : nat := Nat.max 1 (Nat.min limit MAX_BATCH_ITEMS).

Definition select_batch (limit : nat) (byte_budget now_ms : Z)
    (deferred : gset (string * string)) (cost_of : PendingItem → Z) (q : Queue) : Batch :=
  select_loop (clamp_limit limit) byte_budget now_ms deferred cost_of
    (q_pending q) ∅ (mkBatch [] 0 0) 0.

(** ** [Queue::stamp_attempt] *)

Definition stamp_row (now_ms : Z) (r : PendingRow) : PendingRow :=
  mkPendingRow (p_seq r) (p_ingest_key r) (p_event_id r) (p_agent r) (p_event r)
    (p_session_id r) (p_cwd r) (p_body_json r) (p_body_sha256 r) (p_body_bytes r)
    (p_first_seen_ms r)
    (Some (match p_first_attempt_ms r with Some t => t | None => now_ms end))
    (p_attempts r + 1) (p_last_error r).

Definition stamp_key (now_ms : Z) (rows : list PendingRow) (key : string) : list PendingRow :=
  (λ r, if String.eqb (p_ingest_key r) key then stamp_row now_ms r else r) <$> rows.

Definition stamp_attempt (keys : list string) (now_ms : Z) (q : Queue) : Queue :=
  set_pending (foldl (stamp_key now_ms) (q_pending q) keys) q.

(** ** [Queue::confirm] *)

(** [COALESCE(NULLIF(receipt.outcome, 'unknown'), excluded.outcome)]. *)
Definition merge_outcome (old : option string) (new : string) : option string :=
  match old with
  | Some o => if String.eqb o "unknown" then Some new else Some o
  | None => Some new
  end.

Definition receipt_upsert (now_ms : Z) (row : PendingRow) (label : string)
    (receipts : gmap string ReceiptRow) : gmap string ReceiptRow :=
  let fresh := mkReceiptRow (p_body_sha256 row)
    (match p_first_attempt_ms row with Some t => t | None => p_first_seen_ms row end)
    now_ms (Some (outcome label)) in
  match receipts !! p_ingest_key row with
  | None => <[p_ingest_key row := fresh]> receipts
  | Some old =>
      <[p_ingest_key row := mkReceiptRow (r_body_sha256 old) (r_first_attempt_ms old) now_ms
          (merge_outcome (r_outcome old) (outcome label))]> receipts
  end.

Definition delete_key (key : string) (rows : list PendingRow) : list PendingRow :=
  filter (λ r, p_ingest_key r ≠ key) rows.

Definition confirm_one (now_ms : Z) (st : Queue * nat) (k : string * string) : Queue * nat :=
  let '(q, moved) := st in
  let '(key, label) := k in
  match pending_by_key key (q_pending q) with
  | None => (q, moved)
  | Some row =>
      (mkQueue (q_binding q) (delete_key key (q_pending q)) (q_next_seq q)
         (receipt_upsert now_ms row label (q_receipt q)) (q_session_agent q),
       S moved)
  end.

Definition confirm (keys : list (string * string)) (now_ms : Z) (q : Queue) : Queue * nat :=
  foldl (confirm_one now_ms) (q, 0%nat) keys.

(** ** [Queue::record_failure] and [Queue::prune] *)

Definition failure_label (class : string) : string :=
  keep_chars (λ c, negb (is_control c)) 80 class.

Definition set_last_error (label : string) (r : PendingRow) : PendingRow :=
  mkPendingRow (p_seq r) (p_ingest_key r) (p_event_id r) (p_agent r) (p_event r)
    (p_session_id r) (p_cwd r) (p_body_json r) (p_body_sha256 r) (p_body_bytes r)
    (p_first_seen_ms r) (p_first_attempt_ms r) (p_attempts r) (Some label).

Definition record_failure (key class : string) (q : Queue) : Queue :=
  set_pending
    ((λ r, if String.eqb (p_ingest_key r) key then set_last_error (failure_label class) r else r)
       <$> q_pending q) q.

Definition prune_cutoff (now_ms : Z) : Z := i64_saturating_sub now_ms RETRY_WINDOW_MS.

Definition prune (now_ms : Z) (q : Queue) : Queue * nat :=
  let cutoff := prune_cutoff now_ms in
  let receipts := filter (λ kv, ¬ r_first_attempt_ms (kv.2) < cutoff) (q_receipt q) in
  let sessions := filter (λ kv, ¬ (snd (kv.2) < cutoff ∧
                                   kv.1 ∉ p_session_id <$> q_pending q)) (q_session_agent q) in
  (mkQueue (q_binding q) (q_pending q) (q_next_seq q) receipts sessions,
   ((size (q_receipt q) - size receipts) + (size (q_session_agent q) - size sessions))%nat).

(** ** [Queue::stats] *)

Record Stats := mkStats {
  pending_items : Z;
  pending_bytes : Z;
  pending_sessions : Z;
  attempted_items : Z;
  expired_items : Z;
  oldest_pending_age_ms : Z;
  max_attempts : Z;
  receipts : Z;
  known_sessions : Z;
  receipt_outcomes : gmap string Z;
}.

(** [COALESCE(MIN(x), 0)] and [COALESCE(MAX(x), 0)]. *)
Definition sql_min (l : list Z) : Z :=
  match l with [] => 0 | x :: l' => foldl Z.min x l' end.
Definition sql_max (l : list Z) : Z :=
  match l with [] => 0 | x :: l' => foldl Z.max x l' end.

Definition count_where {A} (p : A → bool) (l : list A) : Z :=
  Z.of_nat (length (List.filter p l)).

(** Receipts inside the window, counted by normalized outcome. *)
Definition receipt_outcome_counts (cutoff : Z) (table : gmap string ReceiptRow) : gmap string Z :=
  map_fold (λ _ r counts,
      if r_first_attempt_ms r <? cutoff then counts
      else alter (λ n, n + 1) (outcome (default "unknown" (r_outcome r))%string) counts)
    outcome_counts table.

Definition stats (now_ms : Z) (q : Queue) : Stats :=
  let cutoff := prune_cutoff now_ms in
  let rows := q_pending q in
  mkStats (Z.of_nat (length rows)) (sum_bytes rows)
    (Z.of_nat (length (remove_dups (row_session <$> rows))))
    (count_where (λ r, match p_first_attempt_ms r with Some _ => true | None => false end) rows)
    (count_where (λ r, match p_first_attempt_ms r with
                       | Some t => t <=? cutoff | None => false end) rows)
    (match rows with
     | [] => 0
     | _ => i64_saturating_sub now_ms (sql_min (p_first_seen_ms <$> rows))
     end)
    (sql_max (p_attempts <$> rows))
    (Z.of_nat (size (q_receipt q))) (Z.of_nat (size (q_session_agent q)))
    (receipt_outcome_counts cutoff (q_receipt q)).
