(* ===== verification/RelayQueueFacts.v ===== *)
(** * Correctness of the relay queue

    The queue invariant [queue_ok] and its preservation by every operation,
    the functional behaviour of [enqueue], [select_batch], [confirm] and the
    retry clock. *)

From S2P Require Export RelayQueue.

Local Open Scope rust_scope.
Local Open Scope Z_scope.

(** ** The queue invariant *)

(** What holds of the rows of [pending], for the agent each session is
    pinned to, the AUTOINCREMENT counter and the receipts. *)
Record rows_inv (bound : string → option string) (next : Z)
    (receipt : gmap string ReceiptRow) (rows : list PendingRow) : Prop := {
  inv_keys : NoDup (p_ingest_key <$> rows);
  inv_disjoint : Forall (λ r, receipt !! p_ingest_key r = None) rows;
  inv_seqs : StronglySorted Z.lt (p_seq <$> rows);
  inv_next : Forall (λ r, p_seq r < next) rows;
  inv_bytes : Forall (λ r, p_body_bytes r = Z.of_nat (String.length (p_body_json r))) rows;
  inv_pinned : Forall (λ r, bound (p_session_id r) = Some (p_agent r)) rows;
  inv_items_max : Z.of_nat (length rows) ≤ MAX_PENDING_ITEMS;
  inv_bytes_max : sum_bytes rows ≤ MAX_PENDING_BYTES;
  inv_receipts_max : Z.of_nat (length rows) + Z.of_nat (size receipt) ≤ MAX_RECEIPTS;
}.

Definition pinned_agent (q : Queue) (sid : string) : option string :=
  fst <$> q_session_agent q !! sid.

Record queue_ok (q : Queue) : Prop := {
  ok_rows : rows_inv (pinned_agent q) (q_next_seq q) (q_receipt q) (q_pending q);
  ok_pins : Z.of_nat (size (q_session_agent q)) ≤ MAX_SESSION_PINS;
}.

(** Rows up to the columns that delivery attempts update. *)
Definition row_core (r : PendingRow) : PendingRow :=
  mkPendingRow (p_seq r) (p_ingest_key r) (p_event_id r) (p_agent r) (p_event r)
    (p_session_id r) (p_cwd r) (p_body_json r) (p_body_sha256 r) (p_body_bytes r)
    (p_first_seen_ms r) None 0 None.

Definition same_rows (l k : list PendingRow) : Prop := row_core <$> l = row_core <$> k.

#[export] Instance same_rows_equiv : Equivalence same_rows.
Proof. unfold same_rows. split; congruence. Qed.

(** A projection that ignores the mutable columns. *)
Lemma same_rows_fmap {B} (f : PendingRow → B) l k :
  (∀ r, f (row_core r) = f r) → same_rows l k → f <$> l = f <$> k.
Proof.
  intros Hf H. apply (f_equal (fmap f)) in H. rewrite <- !list_fmap_compose in H.
  erewrite (list_fmap_ext _ f l), (list_fmap_ext _ f k) in H; [done|..];
    intros; simpl; apply Hf.
Qed.

Lemma same_rows_Forall (P : PendingRow → Prop) l k :
  (∀ r, P (row_core r) ↔ P r) → same_rows l k → Forall P l → Forall P k.
Proof.
  intros HP H Hl. assert (Hk : Forall (P ∘ row_core) k).
  { apply Forall_fmap. unfold same_rows in H. rewrite <- H. apply Forall_fmap.
    eapply Forall_impl; [exact Hl|]. intros r. apply HP. }
  eapply Forall_impl; [exact Hk|]. intros r. apply HP.
Qed.

Lemma same_rows_map (f : PendingRow → PendingRow) l :
  (∀ r, row_core (f r) = row_core r) → same_rows l (f <$> l).
Proof.
  intros Hf. unfold same_rows. rewrite <- list_fmap_compose.
  apply list_fmap_ext. intros; simpl. by rewrite Hf.
Qed.

Lemma sum_bytes_fmap rows : sum_bytes rows = foldr Z.add 0 (p_body_bytes <$> rows).
Proof. induction rows as [|r rows IH]; simpl; [done|]. by rewrite IH. Qed.

Lemma rows_inv_same bound next receipt l k :
  same_rows l k → rows_inv bound next receipt l → rows_inv bound next receipt k.
Proof.
  intros H [Hk Hd Hs Hn Hb Hp Hi Hby Hr].
  assert (Hlen : length k = length l).
  { apply (f_equal length) in H. by rewrite !length_fmap in H. }
  split; try (by eapply same_rows_Forall; eauto; intros r; simpl; done).
  - by rewrite <- (same_rows_fmap p_ingest_key l k).
  - by rewrite <- (same_rows_fmap p_seq l k).
  - by rewrite Hlen.
  - rewrite sum_bytes_fmap in *. by rewrite <- (same_rows_fmap p_body_bytes l k).
  - by rewrite Hlen.
Qed.

Lemma sum_bytes_app l k : sum_bytes (l ++ k) = sum_bytes l + sum_bytes k.
Proof. induction l as [|r l IH]; simpl; [done|]. rewrite IH. lia. Qed.

Lemma rows_inv_sublist bound next receipt l k :
  sublist l k → rows_inv bound next receipt k →
  rows_inv bound next receipt l.
Proof.
  intros Hs [Hk Hd Hsq Hn Hb Hp Hi Hby Hr].
  assert (Hlen := sublist_length _ _ Hs).
  assert (Hf : ∀ B (f : PendingRow → B), sublist (f <$> l) (f <$> k)).
  { intros B f. by apply fmap_sublist. }
  split; try (by eapply Forall_sublist; eauto).
  - eapply sublist_NoDup; [|done]. apply Hf.
  - eapply StronglySorted_sublist; [|done]. apply Hf.
  - lia.
  - assert (sum_bytes l ≤ sum_bytes k); [|lia]. clear -Hs Hb.
    induction Hs as [|x l k Hs IH|x l k Hs IH]; simpl; [done|..];
      inversion Hb; subst; specialize (IH ltac:(done)); lia.
  - lia.
Qed.

(** ** Rewriting a pending row in place *)

Lemma queue_ok_same rows q : same_rows (q_pending q) rows → queue_ok q → queue_ok (set_pending rows q).
Proof. intros H [Hr Hp]. split; simpl; [|done]. by eapply rows_inv_same. Qed.

Lemma stamp_key_same now rows key : same_rows rows (stamp_key now rows key).
Proof. apply same_rows_map. intros r. by destruct (String.eqb _ _). Qed.

Lemma stamp_keys_same now keys rows : same_rows rows (foldl (stamp_key now) rows keys).
Proof.
  revert rows; induction keys as [|k keys IH]; intros rows; simpl; [reflexivity|].
  etransitivity; [apply stamp_key_same|apply IH].
Qed.

Lemma record_failure_same key class q :
  same_rows (q_pending q) (q_pending (record_failure key class q)).
Proof. apply same_rows_map. intros r. by destruct (String.eqb _ _). Qed.

Lemma stamp_attempt_ok keys now q : queue_ok q → queue_ok (stamp_attempt keys now q).
Proof. apply queue_ok_same, stamp_keys_same. Qed.

Lemma record_failure_ok key class q : queue_ok q → queue_ok (record_failure key class q).
Proof. apply queue_ok_same, record_failure_same. Qed.

(** ** Looking up a pending key *)

Lemma pending_by_key_Some key rows r :
  pending_by_key key rows = Some r → r ∈ rows ∧ p_ingest_key r = key.
Proof.
  unfold pending_by_key. destruct (list_find _ rows) as [[i r']|] eqn:E; simpl; [|done].
  intros [= ->]. apply list_find_Some in E as (Hi & Hk & _).
  split; [by eapply list_elem_of_lookup_2|done].
Qed.

Lemma pending_by_key_None key rows :
  pending_by_key key rows = None ↔ key ∉ p_ingest_key <$> rows.
Proof.
  unfold pending_by_key. destruct (list_find _ rows) as [[i r']|] eqn:E; simpl.
  - apply list_find_Some in E as (Hi & <- & _). split; [done|]. intros [].
    apply list_elem_of_fmap. exists r'. split; [done|]. by eapply list_elem_of_lookup_2.
  - split; [|done]. intros _ Hin.
    apply list_elem_of_fmap in Hin as (r & -> & Hr).
    apply list_find_None_Forall in E. rewrite Forall_forall in E. by eapply E.
Qed.

Lemma pending_by_key_unique rows r :
  NoDup (p_ingest_key <$> rows) → r ∈ rows → pending_by_key (p_ingest_key r) rows = Some r.
Proof.
  intros Hnd Hr. destruct (pending_by_key (p_ingest_key r) rows) as [r'|] eqn:E.
  - apply pending_by_key_Some in E as [Hr' Hk].
    apply list_elem_of_lookup in Hr as [i Hi], Hr' as [j Hj].
    assert (i = j) as ->.
    { apply (NoDup_lookup (p_ingest_key <$> rows) i j (p_ingest_key r) Hnd);
        rewrite list_lookup_fmap; [rewrite Hi|rewrite Hj]; simpl; congruence. }
    congruence.
  - apply pending_by_key_None in E. destruct E. apply list_elem_of_fmap. eauto.
Qed.

(** ** [confirm] *)

Lemma receipt_upsert_fresh now row label receipts :
  receipts !! p_ingest_key row = None →
  receipt_upsert now row label receipts =
  <[p_ingest_key row :=
      mkReceiptRow (p_body_sha256 row)
        (match p_first_attempt_ms row with Some t => t | None => p_first_seen_ms row end)
        now (Some (outcome label))]> receipts.
Proof. intros H. unfold receipt_upsert. by rewrite H. Qed.

Lemma delete_key_length key rows r :
  r ∈ rows → p_ingest_key r = key → (length (delete_key key rows) < length rows)%nat.
Proof.
  intros Hr Hk. unfold delete_key. induction Hr as [r l|r x l Hr IH].
  - rewrite filter_cons_False by (by intros []). simpl. pose proof (length_filter
      (λ r0, p_ingest_key r0 ≠ key) l). lia.
  - specialize (IH Hk). rewrite filter_cons. case_decide; simpl; lia.
Qed.

Lemma confirm_one_ok now q n k :
  queue_ok q → queue_ok (fst (confirm_one now (q, n) k)).
Proof.
  intros [Hr Hp]. destruct k as [key label]; simpl.
  destruct (pending_by_key key (q_pending q)) as [row|] eqn:E; simpl; [|by split].
  apply pending_by_key_Some in E as [Hrow Hkey].
  assert (Hsub : sublist (delete_key key (q_pending q)) (q_pending q)) by apply sublist_filter.
  pose proof (inv_disjoint _ _ _ _ Hr) as Hdis. rewrite Forall_forall in Hdis.
  pose proof (inv_receipts_max _ _ _ _ Hr) as Hmax.
  pose proof (delete_key_length key _ _ Hrow Hkey) as Hlen.
  destruct (rows_inv_sublist _ _ _ _ _ Hsub Hr).
  split; simpl; [|done]. split; try done.
  - rewrite receipt_upsert_fresh by auto. apply Forall_forall. intros r Hin.
    apply list_elem_of_filter in Hin as [Hne Hin].
    rewrite lookup_insert_ne; [auto|]. rewrite Hkey. by intros ->.
  - rewrite receipt_upsert_fresh by auto.
    rewrite map_size_insert_None by auto. lia.
Qed.

Lemma confirm_ok keys now q : queue_ok q → queue_ok (fst (confirm keys now q)).
Proof.
  unfold confirm. generalize 0%nat as n. revert q.
  induction keys as [|k keys IH]; intros q n Hq; [done|]. cbn [foldl].
  pose proof (confirm_one_ok now q n k Hq) as Hq'.
  destruct (confirm_one now (q, n) k) as [q' n']. by apply IH.
Qed.

(** ** [prune] *)

Lemma prune_ok now q : queue_ok q → queue_ok (fst (prune now q)).
Proof.
  intros [[Hk Hd Hs Hn Hb Hpin Hi Hby Hr] Hp].
  assert (Hsz : ∀ {V} (P : string * V → Prop) `{!∀ x, Decision (P x)} (m : gmap string V),
             (size (filter P m) ≤ size m)%nat).
  { intros V P ? m. apply map_subseteq_size, map_filter_subseteq. }
  split; [split|]; simpl; try done.
  - eapply Forall_impl; [exact Hd|]. intros r Hr'. simpl.
    apply map_lookup_filter_None. by left.
  - apply Forall_forall. intros r Hin. rewrite Forall_forall in Hpin.
    specialize (Hpin r Hin). unfold pinned_agent in *. simpl.
    destruct (q_session_agent q !! p_session_id r) as [[a t]|] eqn:E; [|done].
    simpl in *. injection Hpin as ->.
    transitivity (fst <$> Some (p_agent r, t)); [|done].
    f_equal. apply map_lookup_filter_Some. split; [exact E|]. simpl. intros [_ []]. apply list_elem_of_fmap. eauto.
  - pose proof (Hsz _ (λ kv, ¬ r_first_attempt_ms kv.2 < prune_cutoff now) _ (q_receipt q)). lia.
  - etransitivity; [|exact Hp]. apply Nat2Z.inj_le, Hsz.
Qed.

(** ** [enqueue]: the loop invariant *)

Definition seen_sids (q : Queue) (tx : EnqueueTx) : gset string :=
  dom (q_session_agent q) ∪ dom (tx_seen_sessions tx).

Record tx_inv (q : Queue) (tx : EnqueueTx) : Prop := {
  t_rows : rows_inv (bound_agent q tx) (tx_next_seq tx) (q_receipt q) (tx_pending tx);
  t_items : tx_items tx = Z.of_nat (length (tx_pending tx));
  t_bytes : tx_bytes tx = sum_bytes (tx_pending tx);
  t_pins : tx_pins tx = Z.of_nat (size (seen_sids q tx));
  t_pins_max : tx_pins tx ≤ MAX_SESSION_PINS;
}.

Lemma bound_agent_None q tx sid :
  bound_agent q tx sid = None ↔ sid ∉ seen_sids q tx.
Proof.
  unfold bound_agent, seen_sids.
  rewrite not_elem_of_union, !not_elem_of_dom.
  destruct (q_session_agent q !! sid) as [[a t]|]; simpl; naive_solver.
Qed.

(** A passed pin check binds the event's session to its agent. *)
Lemma check_pin_bound q tx e pins :
  check_pin q tx e = Ok pins →
  bound_agent q (note_seen tx pins e) (ev_session_id e) = Some (ev_agent e).
Proof.
  unfold check_pin, bound_agent. simpl.
  destruct (q_session_agent q !! ev_session_id e) as [[a t]|]; simpl; intros H; peel_ok.
  - apply negb_false_iff, String.eqb_eq in Hg. by subst.
  - by rewrite lookup_insert_eq.
Qed.

Lemma check_pin_keeps q tx e pins sid a :
  check_pin q tx e = Ok pins →
  bound_agent q tx sid = Some a → bound_agent q (note_seen tx pins e) sid = Some a.
Proof.
  intros Hc Ha. destruct (decide (sid = ev_session_id e)) as [->|Hne].
  - rewrite (check_pin_bound _ _ _ _ Hc).
    unfold check_pin in Hc. rewrite Ha in Hc. peel_ok.
    apply negb_false_iff, String.eqb_eq in Hg. by subst.
  - unfold bound_agent in *; simpl. by rewrite lookup_insert_ne.
Qed.

Lemma note_seen_inv q tx e pins :
  tx_inv q tx → check_pin q tx e = Ok pins → tx_inv q (note_seen tx pins e).
Proof.
  intros [Hrows Hi Hb Hp Hm] Hc. split; simpl; try done.
  - destruct Hrows as [? ? ? ? ? Hpin ? ? ?]. split; try done.
    eapply Forall_impl; [exact Hpin|]. intros r. by apply check_pin_keeps.
  - unfold seen_sids; simpl. rewrite dom_insert_L.
    replace (dom (q_session_agent q) ∪ ({[ev_session_id e]} ∪ dom (tx_seen_sessions tx)))
      with ({[ev_session_id e]} ∪ seen_sids q tx) by (unfold seen_sids; set_solver).
    unfold check_pin in Hc. destruct (bound_agent q tx (ev_session_id e)) as [a|] eqn:E.
    + peel_ok. subst. rewrite subseteq_union_1_L; [done|].
      apply singleton_subseteq_l. destruct (decide (ev_session_id e ∈ seen_sids q tx)); [done|].
      apply bound_agent_None in n. congruence.
    + peel_ok. subst. apply bound_agent_None in E.
      rewrite size_union by set_solver. rewrite size_singleton. lia.
  - unfold check_pin in Hc. destruct (bound_agent q tx (ev_session_id e)); peel_ok; subst; [done|].
    apply Z.ltb_ge in Hg. done.
Qed.

(** The row [insert_event] appends. *)
Lemma insert_event_inv q now tx e tx' :
  tx_inv q tx → bound_agent q tx (ev_session_id e) = Some (ev_agent e) →
  known_sha q tx (ev_ingest_key e) = None →
  insert_event q now tx e = Ok tx' → tx_inv q tx'.
Proof.
  intros [[Hk Hd Hs Hn Hb Hpin Himax Hbmax Hrmax] Hi Hby Hp Hm] Hbound Hknown H.
  unfold insert_event in H. peel_ok. subst tx'.
  apply orb_false_iff in Hg as [Hg1%Z.ltb_ge Hg2%Z.ltb_ge]. apply Z.ltb_ge in Hg0.
  unfold known_sha in Hknown.
  destruct (pending_by_key (ev_ingest_key e) (tx_pending tx)) eqn:Ek; [done|].
  apply pending_by_key_None in Ek. apply fmap_None in Hknown.
  split; simpl; try done; [split|..];
    rewrite ?length_app, ?sum_bytes_app, ?fmap_app, ?Forall_app; simpl; try lia.
  - apply NoDup_app. split; [done|]. split; [|apply NoDup_singleton].
    intros x Hx ->%list_elem_of_singleton. done.
  - split; [done|]. by repeat constructor.
  - apply StronglySorted_snoc; [done|]. by apply Forall_fmap.
  - split; [|repeat constructor; simpl; lia].
    eapply Forall_impl; [exact Hn|]. simpl; lia.
  - split; [done|]. by repeat constructor.
  - split; [done|]. by repeat constructor.
Qed.

(** What one event does: recognized, or appended as a new row. *)
Lemma enqueue_event_cases q now tx e tx' :
  enqueue_event q now tx e = Ok tx' →
  ∃ pins, check_pin q tx e = Ok pins ∧
    ((known_sha q tx (ev_ingest_key e) = Some (ev_body_sha256 e) ∧
      tx' = recognize (note_seen tx pins e)) ∨
     (known_sha q tx (ev_ingest_key e) = None ∧
      insert_event q now (note_seen tx pins e) e = Ok tx')).
Proof.
  unfold enqueue_event. intros H.
  apply result_bind_Ok in H as (pins & Hc & H).
  apply result_bind_Ok in H as (u & _ & H). exists pins. split; [done|].
  change (known_sha q (note_seen tx pins e) (ev_ingest_key e))
    with (known_sha q tx (ev_ingest_key e)) in H.
  destruct (known_sha q tx (ev_ingest_key e)) as [known|]; [left|by right].
  peel_ok. apply negb_false_iff, String.eqb_eq in Hg. by subst.
Qed.

Lemma enqueue_event_inv q now tx e tx' :
  tx_inv q tx → enqueue_event q now tx e = Ok tx' → tx_inv q tx'.
Proof.
  intros Hinv (pins & Hc & [[Hk ->]|[Hk Hi]])%enqueue_event_cases.
  - destruct (note_seen_inv _ _ _ _ Hinv Hc). by split.
  - eapply insert_event_inv; [by apply note_seen_inv|by apply check_pin_bound|done|done].
Qed.

Lemma enqueue_loop_inv q now events tx tx' :
  tx_inv q tx → enqueue_loop q now tx events = Ok tx' → tx_inv q tx'.
Proof.
  revert tx; induction events as [|e events IH]; intros tx Hinv H; simpl in H.
  - by injection H as <-.
  - apply result_bind_Ok in H as (tx1 & He & H).
    eapply IH; [|done]. by eapply enqueue_event_inv.
Qed.

Lemma enqueue_begin_inv q : queue_ok q → tx_inv q (enqueue_begin q).
Proof.
  intros [Hr Hp]. split; simpl; try done.
  - destruct Hr as [? ? ? ? ? Hpin ? ? ?]. split; try done.
    eapply Forall_impl; [exact Hpin|]. intros r. unfold pinned_agent, bound_agent.
    by intros ->.
  - unfold seen_sids; simpl. rewrite dom_empty_L, union_empty_r_L. by rewrite size_dom.
Qed.

Lemma pin_sessions_lookup now seen table sid :
  fst <$> pin_sessions now seen table !! sid =
  match fst <$> table !! sid with Some a => Some a | None => seen !! sid end.
Proof.
  unfold pin_sessions. rewrite lookup_union_with, lookup_fmap.
  destruct (table !! sid) as [[a t]|], (seen !! sid); done.
Qed.

Lemma pin_sessions_dom now seen table :
  dom (pin_sessions now seen table) = dom table ∪ dom seen.
Proof.
  apply set_eq. intros sid. rewrite elem_of_union, !elem_of_dom.
  pose proof (pin_sessions_lookup now seen table sid) as H.
  destruct (pin_sessions now seen table !! sid) as [[a t]|], (table !! sid) as [[a' t']|],
    (seen !! sid); simpl in H; simplify_eq; rewrite ?is_Some_alt; naive_solver.
Qed.

Lemma enqueue_ok events now q q' rep :
  queue_ok q → enqueue events now q = Ok (q', rep) → queue_ok q'.
Proof.
  intros Hq H. unfold enqueue in H. apply result_bind_Ok in H as (tx & Hl & [= <- <-]).
  apply enqueue_loop_inv in Hl; [|by apply enqueue_begin_inv].
  destruct Hl as [Hrows Hi Hb Hp Hm]. split; simpl.
  - destruct Hrows as [? ? ? ? ? Hpin ? ? ?]. split; try done.
    eapply Forall_impl; [exact Hpin|]. intros r.
    unfold pinned_agent; simpl. by rewrite pin_sessions_lookup.
  - rewrite <- size_dom, pin_sessions_dom. fold (seen_sids q tx). lia.
Qed.

(** ** Steps and reachable queues *)

(** Everything but [prune]: no key is forgotten. *)
Inductive delivery_step : Queue → Queue → Prop :=
  | step_enqueue events now q q' rep :
      enqueue events now q = Ok (q', rep) → delivery_step q q'
  | step_stamp keys now q : delivery_step q (stamp_attempt keys now q)
  | step_confirm keys now q : delivery_step q (fst (confirm keys now q))
  | step_failure key class q : delivery_step q (record_failure key class q).

Inductive relay_step : Queue → Queue → Prop :=
  | step_bind b q q' o : bind b q = Ok (q', o) → relay_step q q'
  | step_prune now q : relay_step q (fst (prune now q))
  | step_delivery q q' : delivery_step q q' → relay_step q q'.

Lemma delivery_step_ok q q' : delivery_step q q' → queue_ok q → queue_ok q'.
Proof. destruct 1; eauto using enqueue_ok, stamp_attempt_ok, confirm_ok, record_failure_ok. Qed.

Lemma bind_ok b q q' o : bind b q = Ok (q', o) → queue_ok q → queue_ok q'.
Proof.
  unfold bind. destruct (q_binding q); [destruct (decide _); [|done]|]; intros [= <- <-]; [done|].
  intros [Hr Hp]. by split.
Qed.

Lemma relay_step_ok q q' : relay_step q q' → queue_ok q → queue_ok q'.
Proof. destruct 1; eauto using bind_ok, prune_ok, delivery_step_ok. Qed.

Lemma fresh_queue_ok : queue_ok fresh_queue.
Proof.
  split; [split|]; simpl; try constructor; unfold MAX_PENDING_ITEMS, MAX_PENDING_BYTES,
    MAX_RECEIPTS, MAX_SESSION_PINS; try lia; rewrite ?map_size_empty; lia.
Qed.

(** ** What the queue knows of an event *)

Definition recorded_sha (q : Queue) (key : string) : option string :=
  match pending_by_key key (q_pending q) with
  | Some r => Some (p_body_sha256 r)
  | None => r_body_sha256 <$> q_receipt q !! key
  end.

(** The event's key is recorded with its content hash, its session pinned. *)
Definition knows (q : Queue) (e : ValidEvent) : Prop :=
  recorded_sha q (ev_ingest_key e) = Some (ev_body_sha256 e) ∧
  pinned_agent q (ev_session_id e) = Some (ev_agent e).

Lemma pending_by_key_same l k key :
  same_rows l k → p_body_sha256 <$> pending_by_key key l = p_body_sha256 <$> pending_by_key key k.
Proof.
  unfold same_rows, pending_by_key. revert k.
  induction l as [|r l IH]; intros [|r' k] H; try discriminate; [done|].
  rewrite !fmap_cons in H. cbn [list_find].
  assert (row_core <$> l = row_core <$> k) as Hl by congruence.
  assert (row_core r = row_core r') as H' by congruence. clear H; rename H' into H.
  pose proof (f_equal p_ingest_key H : p_ingest_key r = p_ingest_key r') as Hk.
  pose proof (f_equal p_body_sha256 H : p_body_sha256 r = p_body_sha256 r') as Hsha.
  rewrite Hk. case_decide; simpl; [congruence|].
  specialize (IH k Hl). destruct (list_find _ l) as [[]|], (list_find _ k) as [[]|]; simpl in *;
    congruence.
Qed.

Lemma recorded_sha_same rows q key :
  same_rows (q_pending q) rows → recorded_sha (set_pending rows q) key = recorded_sha q key.
Proof.
  intros H%(pending_by_key_same _ _ key). unfold recorded_sha. simpl.
  destruct (pending_by_key key rows), (pending_by_key key (q_pending q)); simpl in *; congruence.
Qed.

Lemma pending_by_key_delete_ne key key' rows :
  key ≠ key' → pending_by_key key (delete_key key' rows) = pending_by_key key rows.
Proof.
  intros Hne. unfold pending_by_key, delete_key. induction rows as [|r rows IH]; [done|].
  rewrite filter_cons. case_decide as Hd; simpl.
  - case_decide; [done|]. destruct (list_find _ (filter _ rows)) as [[]|],
      (list_find _ rows) as [[]|]; simpl in *; congruence.
  - rewrite decide_False by congruence.
    rewrite IH. by destruct (list_find _ rows) as [[]|].
Qed.

Lemma pending_by_key_delete_eq key rows : pending_by_key key (delete_key key rows) = None.
Proof.
  apply pending_by_key_None. intros (r & -> & Hr)%list_elem_of_fmap.
  by apply list_elem_of_filter in Hr as [[] _].
Qed.

Lemma confirm_one_recorded now q n k key :
  queue_ok q → recorded_sha (fst (confirm_one now (q, n) k)) key = recorded_sha q key.
Proof.
  intros [Hr _]. destruct k as [key' label]; simpl.
  destruct (pending_by_key key' (q_pending q)) as [row|] eqn:E; simpl; [|done].
  pose proof (pending_by_key_Some _ _ _ E) as [Hrow Hkey].
  pose proof (inv_disjoint _ _ _ _ Hr) as Hdis. rewrite Forall_forall in Hdis.
  unfold recorded_sha; simpl. rewrite receipt_upsert_fresh by auto.
  destruct (decide (key = key')) as [->|Hne].
  - rewrite pending_by_key_delete_eq, E, Hkey, lookup_insert_eq. done.
  - rewrite pending_by_key_delete_ne by done. rewrite lookup_insert_ne by congruence. done.
Qed.

Lemma confirm_one_pins now st k :
  q_session_agent (fst (confirm_one now st k)) = q_session_agent (fst st).
Proof. destruct st as [q n], k as [key l]; simpl. by destruct (pending_by_key _ _). Qed.

Lemma confirm_recorded keys now q key :
  queue_ok q →
  recorded_sha (fst (confirm keys now q)) key = recorded_sha q key ∧
  q_session_agent (fst (confirm keys now q)) = q_session_agent q.
Proof.
  unfold confirm. generalize 0%nat as n. revert q.
  induction keys as [|k keys IH]; intros q n Hq; [done|]. cbn [foldl].
  pose proof (confirm_one_ok now q n k Hq) as Hq'.
  pose proof (confirm_one_recorded now q n k key Hq) as Hrec.
  pose proof (confirm_one_pins now (q, n) k) as Hpin.
  destruct (confirm_one now (q, n) k) as [q' n']. simpl in *.
  destruct (IH q' n' Hq'). split; congruence.
Qed.

(** ** [enqueue] and what is known *)

Lemma pending_by_key_app key l k :
  pending_by_key key (l ++ k) =
  match pending_by_key key l with Some r => Some r | None => pending_by_key key k end.
Proof.
  unfold pending_by_key. induction l as [|r l IH]; simpl; [done|].
  case_decide; simpl; [done|].
  destruct (list_find _ (l ++ k)) as [[]|], (list_find _ l) as [[]|]; simpl in *; congruence.
Qed.

(** Facts of the loop that do not need the invariant: rows are appended, the
    pins and recorded hashes only grow, each event is counted once. *)
Record tx_extends (q : Queue) (now : Z) (tx tx' : EnqueueTx) (events : list ValidEvent) : Prop := {
  x_rows : ∃ new, tx_pending tx' = tx_pending tx ++ new ∧
             Forall (λ r, ∃ e s, e ∈ events ∧ r = new_row s now e ∧
                            known_sha q tx (ev_ingest_key e) = None) new ∧
             rep_accepted (tx_report tx') = (rep_accepted (tx_report tx) + length new)%nat;
  x_count : (rep_accepted (tx_report tx') + rep_recognized (tx_report tx') =
             rep_accepted (tx_report tx) + rep_recognized (tx_report tx) + length events)%nat;
  x_bound : ∀ sid a, bound_agent q tx sid = Some a → bound_agent q tx' sid = Some a;
  x_known : ∀ key sha, known_sha q tx key = Some sha → known_sha q tx' key = Some sha;
  x_events : Forall (λ e, bound_agent q tx' (ev_session_id e) = Some (ev_agent e) ∧
                          known_sha q tx' (ev_ingest_key e) = Some (ev_body_sha256 e)) events;
}.

Lemma insert_event_known q now tx e tx' :
  known_sha q tx (ev_ingest_key e) = None →
  insert_event q now tx e = Ok tx' →
  (∀ key sha, known_sha q tx key = Some sha → known_sha q tx' key = Some sha) ∧
  known_sha q tx' (ev_ingest_key e) = Some (ev_body_sha256 e).
Proof.
  unfold insert_event. intros Hnone H. peel_ok. subst tx'. unfold known_sha in *; simpl.
  assert (Hone : ∀ key, key ≠ ev_ingest_key e →
            pending_by_key key [new_row (tx_next_seq tx) now e] = None).
  { intros key Hne. unfold pending_by_key; simpl. by rewrite decide_False. }
  split.
  - intros key sha. rewrite pending_by_key_app.
    destruct (pending_by_key key (tx_pending tx)) eqn:Ep; [done|]. intros Hrec.
    rewrite Hone; [done|]. intros ->. rewrite Ep in Hnone. congruence.
  - rewrite pending_by_key_app.
    destruct (pending_by_key (ev_ingest_key e) (tx_pending tx)); [done|].
    unfold pending_by_key; simpl. by rewrite decide_True.
Qed.

Lemma tx_extends_refl q now tx : tx_extends q now tx tx [].
Proof.
  split; try done.
  exists []. rewrite app_nil_r. split; [done|]. split; [constructor|simpl; lia].
Qed.

Lemma enqueue_event_extends q now tx e tx' :
  enqueue_event q now tx e = Ok tx' → tx_extends q now tx tx' [e].
Proof.
  intros (pins & Hc & [[Hk ->]|[Hk Hi]])%enqueue_event_cases.
  - split; simpl; [|lia|..].
    + exists []. rewrite app_nil_r. split; [done|]. split; [constructor|simpl; lia].
    + intros sid a. by apply (check_pin_keeps _ _ _ pins).
    + done.
    + repeat constructor; simpl; [by apply (check_pin_bound _ _ _ pins)|done].
  - destruct (insert_event_known _ _ (note_seen tx pins e) e tx' Hk Hi) as [Hkeep Hnew].
    unfold insert_event in Hi. peel_ok. subst tx'. split; simpl; [|lia|..].
    + eexists. split; [done|]. split; [|simpl; lia].
      repeat constructor. exists e. eexists. split; [left|done].
    + intros sid a. by apply (check_pin_keeps _ _ _ pins).
    + exact Hkeep.
    + repeat constructor; [by apply (check_pin_bound _ _ _ pins)|exact Hnew].
Qed.

Lemma tx_extends_trans q now tx tx1 tx2 e es :
  tx_extends q now tx tx1 [e] → tx_extends q now tx1 tx2 es →
  tx_extends q now tx tx2 (e :: es).
Proof.
  intros [(n1 & Hp1 & Hn1 & Ha1) Hc1 Hb1 Hk1 He1] [(n2 & Hp2 & Hn2 & Ha2) Hc2 Hb2 Hk2 He2].
  split.
  - exists (n1 ++ n2). rewrite Hp2, Hp1, app_assoc, length_app. split; [done|].
    split; [|lia]. apply Forall_app. split.
    + eapply Forall_impl; [exact Hn1|]. intros r (e' & s & ->%list_elem_of_singleton & H).
      exists e, s. split; [left|done].
    + eapply Forall_impl; [exact Hn2|]. intros r (e' & s & Hin & -> & Hnone).
      exists e', s. split; [by right|]. split; [done|].
      destruct (known_sha q tx (ev_ingest_key e')) eqn:E; [|done].
      apply Hk1 in E. congruence.
  - simpl in *. lia.
  - auto.
  - auto.
  - constructor; [|done]. inversion He1 as [|? ? [Hb Hk] _]; subst. auto.
Qed.

Lemma enqueue_loop_extends q now events tx tx' :
  enqueue_loop q now tx events = Ok tx' → tx_extends q now tx tx' events.
Proof.
  revert tx; induction events as [|e events IH]; intros tx H; simpl in H.
  - injection H as <-. apply tx_extends_refl.
  - apply result_bind_Ok in H as (tx1 & He & H).
    eapply tx_extends_trans; [by apply enqueue_event_extends|auto].
Qed.

Lemma bound_agent_begin q sid : bound_agent q (enqueue_begin q) sid = pinned_agent q sid.
Proof. unfold bound_agent, pinned_agent; simpl. by destruct (q_session_agent q !! sid). Qed.

Lemma pinned_agent_after q tx now sid :
  fst <$> pin_sessions now (tx_seen_sessions tx) (q_session_agent q) !! sid =
  bound_agent q tx sid.
Proof. rewrite pin_sessions_lookup. done. Qed.

(** Re-enqueueing known events: each one is recognized. *)
Lemma enqueue_loop_known q now events tx :
  Forall (λ e, bound_agent q tx (ev_session_id e) = Some (ev_agent e) ∧
               known_sha q tx (ev_ingest_key e) = Some (ev_body_sha256 e)) events →
  (∀ key sha, tx_seen_keys tx !! key = Some sha → known_sha q tx key = Some sha) →
  ∃ tx', enqueue_loop q now tx events = Ok tx' ∧
    tx_pending tx' = tx_pending tx ∧ tx_next_seq tx' = tx_next_seq tx ∧
    rep_accepted (tx_report tx') = rep_accepted (tx_report tx) ∧
    rep_recognized (tx_report tx') = (rep_recognized (tx_report tx) + length events)%nat.
Proof.
  revert tx; induction events as [|e events IH]; intros tx Hall Hseen; simpl.
  { exists tx. repeat split; lia. }
  inversion Hall as [|? ? [Hb Hk] Hall']; subst.
  set (tx1 := recognize (note_seen tx (tx_pins tx) e)).
  assert (Hpin : check_pin q tx e = Ok (tx_pins tx)).
  { unfold check_pin. rewrite Hb, String.eqb_refl. done. }
  assert (He : enqueue_event q now tx e = Ok tx1).
  { unfold enqueue_event. rewrite Hpin. cbn [result_bind].
    assert (check_seen_key tx e = Ok ()) as ->.
    { unfold check_seen_key. destruct (tx_seen_keys tx !! ev_ingest_key e) as [sha|] eqn:E; [|done].
      apply Hseen in E. rewrite Hk in E. injection E as <-. by rewrite String.eqb_refl. }
    cbn [result_bind].
    change (known_sha q (note_seen tx (tx_pins tx) e) (ev_ingest_key e))
      with (known_sha q tx (ev_ingest_key e)). by rewrite Hk, String.eqb_refl. }
  rewrite He. cbn [result_bind].
  destruct (IH tx1) as (tx' & Hl & Hp & Hs & Ha & Hr).
  - eapply Forall_impl; [exact Hall'|]. intros e' [Hb' Hk']. split; [|done].
    by apply (check_pin_keeps _ _ _ _ _ _ Hpin).
  - intros key sha. simpl. destruct (decide (key = ev_ingest_key e)) as [->|Hne].
    + rewrite lookup_insert_eq. by intros [= <-].
    + rewrite lookup_insert_ne by done. apply Hseen.
  - exists tx'. simpl in *. repeat split; [done..|lia].
Qed.

(** ** The retry clock *)

(** [r'] is [r] some operations later: identity columns equal, a started
    retry clock unchanged. *)
Definition row_later (r r' : PendingRow) : Prop :=
  row_core r = row_core r' ∧
  ∀ t, p_first_attempt_ms r = Some t → p_first_attempt_ms r' = Some t.

#[export] Instance row_later_preorder : PreOrder row_later.
Proof.
  split; [by intros r|]. intros r1 r2 r3 [H1 H2] [H3 H4]. split; [congruence|auto].
Qed.

(** Every old row of [q'] descends from a row of [q]. *)
Definition queue_later (q q' : Queue) : Prop :=
  q_next_seq q ≤ q_next_seq q' ∧
  ∀ r', r' ∈ q_pending q' → p_seq r' < q_next_seq q →
    ∃ r, r ∈ q_pending q ∧ row_later r r'.

Lemma row_later_seq r r' : row_later r r' → p_seq r = p_seq r'.
Proof. intros [H _]. exact (f_equal p_seq H). Qed.

#[export] Instance queue_later_preorder : PreOrder queue_later.
Proof.
  split.
  - intros q. split; [done|]. intros r Hr _. by exists r.
  - intros q1 q2 q3 [Hn1 H1] [Hn2 H2]. split; [lia|]. intros r3 Hr3 Hlt.
    destruct (H2 r3 Hr3) as (r2 & Hr2 & Hl2); [lia|].
    pose proof (row_later_seq _ _ Hl2).
    destruct (H1 r2 Hr2) as (r1 & Hr1 & Hl1); [lia|].
    exists r1. split; [done|]. by etransitivity.
Qed.

Lemma queue_later_map f q :
  (∀ r, row_later r (f r)) → queue_later q (set_pending (f <$> q_pending q) q).
Proof.
  intros Hf. split; [done|]. intros r' Hr' _. simpl in Hr'.
  apply list_elem_of_fmap in Hr' as (r & -> & Hr). eauto.
Qed.

Lemma stamp_keys_later keys now rows r' :
  r' ∈ foldl (stamp_key now) rows keys → ∃ r, r ∈ rows ∧ row_later r r'.
Proof.
  revert rows; induction keys as [|k keys IH]; intros rows Hr'; simpl in *; [by exists r'|].
  apply IH in Hr' as (r1 & Hr1 & Hl). apply list_elem_of_fmap in Hr1 as (r & -> & Hr).
  exists r. split; [done|]. etransitivity; [|exact Hl].
  destruct (String.eqb _ _); [|done]. split; [done|]. simpl. by intros t ->.
Qed.

Lemma enqueue_later events now q q' rep :
  queue_ok q → enqueue events now q = Ok (q', rep) → queue_later q q'.
Proof.
  intros Hq H. unfold enqueue in H. apply result_bind_Ok in H as (tx & Hl & [= <- <-]).
  assert (Hgen : ∀ tx0, enqueue_loop q now tx0 events = Ok tx →
    tx_next_seq tx0 ≤ tx_next_seq tx ∧
    ∀ r', r' ∈ tx_pending tx → p_seq r' < tx_next_seq tx0 → r' ∈ tx_pending tx0).
  { clear. induction events as [|e events IH]; intros tx0 H; simpl in H.
    { by injection H as <-. }
    apply result_bind_Ok in H as (tx1 & (pins & _ & Hcase)%enqueue_event_cases & H).
    apply IH in H as [Hn Hin].
    destruct Hcase as [[_ ->]|[_ Hi]]; [by split|].
    unfold insert_event in Hi. peel_ok. subst tx1. simpl in *. split; [lia|].
    intros r' Hr' Hlt. specialize (Hin r' Hr' ltac:(lia)).
    apply elem_of_app in Hin as [Hin|Hin]; [done|].
    apply list_elem_of_singleton in Hin as ->. simpl in *. lia. }
  destruct (Hgen _ Hl) as [Hn Hin]. split; [done|]. simpl.
  intros r' Hr' Hlt. exists r'. split; [by apply Hin|done].
Qed.

Lemma confirm_later keys now q : queue_later q (fst (confirm keys now q)).
Proof.
  unfold confirm. generalize 0%nat as n. revert q.
  induction keys as [|k keys IH]; intros q n; [reflexivity|]. cbn [foldl].
  assert (H1 : queue_later q (fst (confirm_one now (q, n) k))).
  { destruct k as [key l]; simpl. destruct (pending_by_key _ _); simpl; [|reflexivity].
    split; [done|]. simpl. intros r' [_ Hr']%list_elem_of_filter _. by exists r'. }
  destruct (confirm_one now (q, n) k) as [q' n']. etransitivity; [exact H1|apply IH].
Qed.

Lemma relay_step_later q q' : queue_ok q → relay_step q q' → queue_later q q'.
Proof.
  intros Hq. destruct 1 as [b q q' o H|now q|q q' H].
  - revert H. unfold bind.
    destruct (q_binding q); [destruct (decide _); [|done]|]; intros [= <- <-]; [done|].
    split; [done|]. intros r Hr _. by exists r.
  - split; [done|]. intros r Hr _. by exists r.
  - destruct H as [events now q q' rep H|keys now q|keys now q|key class q].
    + by eapply enqueue_later.
    + split; [done|]. intros r' Hr' _. exact (stamp_keys_later _ _ _ _ Hr').
    + apply confirm_later.
    + apply queue_later_map. intros r. by destruct (String.eqb _ _).
Qed.

Lemma relay_steps_later q q' : queue_ok q → rtc relay_step q q' → queue_later q q'.
Proof.
  intros Hq H. revert Hq. induction H as [q|q1 q2 q3 H12 H23 IH]; intros Hq; [done|].
  etransitivity; [by apply relay_step_later|]. apply IH. by eapply relay_step_ok.
Qed.

Lemma is_expired_mono first now now' :
  now ≤ now' → is_expired first now = true → is_expired first now' = true.
Proof.
  unfold is_expired. destruct first as [t|]; [|done].
  rewrite !Z.leb_le. unfold i64_saturating_sub. lia.
Qed.

Lemma row_seq_unique q r1 r2 :
  queue_ok q → r1 ∈ q_pending q → r2 ∈ q_pending q → p_seq r1 = p_seq r2 → r1 = r2.
Proof.
  intros [Hr _] H1 H2 Heq. pose proof (inv_seqs _ _ _ _ Hr) as Hs. clear Hr.
  induction (q_pending q) as [|r rows IH]; [by apply not_elem_of_nil in H1|].
  rewrite fmap_cons in Hs. apply StronglySorted_cons in Hs as [Hx Hs].
  rewrite Forall_fmap, Forall_forall in Hx. simpl in Hx.
  apply elem_of_cons in H1 as [->|H1], H2 as [->|H2]; auto.
  - specialize (Hx r2 H2). lia.
  - specialize (Hx r1 H1). lia.
Qed.

(** ** [select_batch] *)

(** [row] is the oldest pending row of its session. *)
Definition is_head (rows : list PendingRow) (row : PendingRow) : Prop :=
  ∃ before after, rows = before ++ row :: after ∧
    Forall (λ r, row_session r ≠ row_session row) before.

(** A row that may be sent now. *)
Definition eligible (now_ms : Z) (deferred : gset (string * string)) (row : PendingRow) : Prop :=
  (row_session row ∉ deferred) ∧ is_expired (p_first_attempt_ms row) now_ms = false.

Definition total_cost (cost_of : PendingItem → Z) (l : list PendingItem) : Z :=
  foldr (λ i acc, cost_of i + acc) 0 l.

Lemma total_cost_app cost l k : total_cost cost (l ++ k) = total_cost cost l + total_cost cost k.
Proof. induction l as [|i l IH]; simpl; [done|]. rewrite IH. lia. Qed.

(** What a selected batch promises, for the pending rows [all]. *)
Record batch_spec (limit : nat) (byte_budget now_ms : Z) (deferred : gset (string * string))
    (cost_of : PendingItem → Z) (all : list PendingRow) (b : Batch) : Prop := {
  bs_heads : Forall (λ i, ∃ row, i = item_of_row row ∧ is_head all row ∧
                                 eligible now_ms deferred row) (items b);
  bs_one_per_session : NoDup (session <$> items b);
  bs_oldest_first : sublist (items b) (item_of_row <$> all);
  bs_count : (length (items b) ≤ limit)%nat;
  bs_budget : ((length (items b) ≤ 1)%nat) ∨ total_cost cost_of (items b) ≤ byte_budget;
}.

(** The head of a session is the first of its rows. *)
Lemma head_first past r rest row :
  is_head (past ++ r :: rest) row → row_session r = row_session row →
  Forall (λ x, row_session x ≠ row_session row) past → r = row.
Proof.
  intros (before & after & Hall & Hbef) Heq Hpast. revert before Hall Hbef.
  induction Hpast as [|p past Hp Hpast IH]; intros [|b before] Hall Hbef; simpl in Hall.
  - by simplify_list_eq.
  - simplify_list_eq. apply Forall_cons in Hbef as [Hn _]. destruct Hn. unfold row_session. congruence.
  - by simplify_list_eq.
  - simplify_list_eq. apply Forall_cons in Hbef as [_ Hbef]. by eapply IH.
Qed.

Section SelectSpec.
Context (limit : nat) (budget now : Z) (deferred : gset (string * string))
  (cost_of : PendingItem → Z).

Abbreviation select := (select_loop limit budget now deferred cost_of).

(** The loop invariant after the rows [past]. *)
Record loop_inv (past rest : list PendingRow) (seen : gset (string * string))
    (b : Batch) (spent : Z) : Prop := {
  li_seen : ∀ s, s ∈ seen ↔ s ∈ row_session <$> past;
  li_sessions : Forall (λ i, session i ∈ seen) (items b);
  li_spent : spent = total_cost cost_of (items b);
  li_order : sublist (items b) (item_of_row <$> past);
  li_spec : batch_spec limit budget now deferred cost_of (past ++ rest) b;
}.

Lemma loop_inv_skip past row rest seen b b' spent :
  loop_inv past (row :: rest) seen b spent → items b' = items b →
  loop_inv (past ++ [row]) rest ({[row_session row]} ∪ seen) b' spent.
Proof.
  intros [Hs Hin Hsp Ho [H1 H2 H3 H4 H5]] Hb. rewrite <- Hb in *.
  split; try done; rewrite ?fmap_app, <- ?app_assoc; simpl.
  - intros s. rewrite elem_of_union, elem_of_singleton, elem_of_app, Hs, list_elem_of_singleton.
    naive_solver.
  - eapply Forall_impl; [exact Hin|]. intros i Hi. simpl. set_solver.
  - by apply sublist_inserts_r.
  - by split.
Qed.

Lemma loop_inv_seen past row rest seen b spent :
  loop_inv past (row :: rest) seen b spent → row_session row ∈ seen →
  loop_inv (past ++ [row]) rest seen b spent.
Proof.
  intros Hinv Hseen. pose proof (loop_inv_skip _ _ _ _ _ b _ Hinv eq_refl) as Hinv'.
  replace ({[row_session row]} ∪ seen) with seen in Hinv' by set_solver. done.
Qed.

Lemma loop_inv_take past row rest seen b spent k j :
  loop_inv past (row :: rest) seen b spent →
  row_session row ∉ seen → eligible now deferred row →
  (length (items b) < limit)%nat →
  (items b = [] ∨ spent + cost_of (item_of_row row) ≤ budget) →
  loop_inv (past ++ [row]) rest ({[row_session row]} ∪ seen)
    (mkBatch (items b ++ [item_of_row row]) k j) (spent + cost_of (item_of_row row)).
Proof.
  intros Hinv Hseen Hel Hlim Hbud.
  destruct (loop_inv_skip _ _ _ _ _ b _ Hinv eq_refl) as [Hs' Hin' _ Ho' _].
  destruct Hinv as [Hs Hin Hsp Ho [H1 H2 H3 H4 H5]].
  assert (Hsub : sublist (items b ++ [item_of_row row]) (item_of_row <$> past ++ [row])).
  { rewrite fmap_app. apply sublist_app; [done|reflexivity]. }
  split; simpl; [done|..|done|].
  - apply Forall_app. split; [done|]. repeat constructor. set_solver.
  - rewrite total_cost_app. simpl. lia.
  - rewrite <- app_assoc. split; simpl.
    + apply Forall_app. split; [done|]. repeat constructor.
      exists row. split; [done|]. split; [|done]. exists past, rest. split; [done|].
      apply Forall_forall. intros r Hr Heq. apply Hseen, Hs. apply list_elem_of_fmap. eauto.
    + rewrite fmap_app. apply NoDup_app. split; [done|]. split; [|apply NoDup_singleton].
      intros s (i & -> & Hi)%list_elem_of_fmap Heq%list_elem_of_singleton.
      rewrite Forall_forall in Hin. specialize (Hin i Hi). apply Hseen.
      change (session (item_of_row row)) with (row_session row) in Heq. by rewrite <- Heq.
    + replace (past ++ row :: rest) with ((past ++ [row]) ++ rest)
        by (by rewrite <- app_assoc).
      rewrite fmap_app. by apply sublist_inserts_r.
    + rewrite length_app. simpl. lia.
    + destruct Hbud as [->|Hbud]; [left; simpl; lia|right].
      rewrite total_cost_app. simpl. lia.
Qed.

Lemma select_loop_spec past rest seen b spent :
  loop_inv past rest seen b spent →
  batch_spec limit budget now deferred cost_of (past ++ rest) (select rest seen b spent).
Proof.
  revert past seen b spent. induction rest as [|row rest IH]; intros past seen b spent Hinv.
  { apply (li_spec _ _ _ _ _ Hinv). }
  simpl. destruct (Nat.leb_spec limit (length (items b))) as [Hle|Hlt];
    [apply (li_spec _ _ _ _ _ Hinv)|].
  change (session (item_of_row row)) with (row_session row).
  replace (past ++ row :: rest) with ((past ++ [row]) ++ rest) by (by rewrite <- app_assoc).
  case_decide as Hseen; [by apply IH, loop_inv_seen|].
  case_decide as Hdef; [by apply IH; eapply loop_inv_skip|].
  destruct (is_expired _ now) eqn:Hexp; [by apply IH; eapply loop_inv_skip|].
  destruct (_ && _) eqn:Hbud; [by apply IH; eapply loop_inv_skip|].
  apply IH, loop_inv_take; try done.
  apply andb_false_iff in Hbud as [Hz|Hb].
  - left. apply negb_false_iff, Nat.eqb_eq, nil_length_inv in Hz. done.
  - right. by apply Z.ltb_ge.
Qed.

Lemma select_loop_keeps rest seen b spent :
  items b ≠ [] → items (select rest seen b spent) ≠ [].
Proof.
  revert seen b spent. induction rest as [|row rest IH]; intros seen b spent Hb; simpl; [done|].
  repeat case_match; try apply IH; try done. simpl.
  intros Hnil. by apply app_eq_nil in Hnil as [_ ?].
Qed.

(** Progress: the loop only ends empty-handed when no head is eligible. *)
Lemma select_loop_progress past rest seen b spent row :
  (0 < limit)%nat →
  (∀ s, s ∈ seen ↔ s ∈ row_session <$> past) → items b = [] →
  row ∈ rest → is_head (past ++ rest) row → row_session row ∉ seen →
  eligible now deferred row →
  items (select rest seen b spent) ≠ [].
Proof.
  intros Hlim. revert past seen b spent.
  induction rest as [|r rest IH]; intros past seen b spent Hs Hb Hin Hhead Hns Hel;
    [by apply not_elem_of_nil in Hin|].
  simpl. rewrite Hb. simpl. rewrite (proj2 (Nat.leb_gt _ _)) by lia.
  change (session (item_of_row r)) with (row_session r).
  replace (past ++ r :: rest) with ((past ++ [r]) ++ rest) in Hhead by (by rewrite <- app_assoc).
  assert (Hs' : ∀ s, s ∈ {[row_session r]} ∪ seen ↔ s ∈ row_session <$> past ++ [r]).
  { intros s. rewrite fmap_app, elem_of_union, elem_of_app, elem_of_singleton, Hs. simpl.
    rewrite list_elem_of_singleton. naive_solver. }
  destruct (decide (row_session r = row_session row)) as [Heq|Hne].
  - (* the head of the session is the first row of that session: r itself *)
    assert (r = row) as ->.
    { apply (head_first past r rest row); [by rewrite <- app_assoc in Hhead|done|].
      apply Forall_forall. intros x Hx Hxe. apply Hns, Hs. apply list_elem_of_fmap. eauto. }
    rewrite decide_False by done.
    destruct Hel as [Hd He]. rewrite decide_False by done. simpl. rewrite He.
    by apply select_loop_keeps.
  - apply elem_of_cons in Hin as [->|Hin]; [done|].
    case_decide as Hseen.
    { apply (IH (past ++ [r])); try done.
      intros s. rewrite <- Hs', elem_of_union, elem_of_singleton. naive_solver. }
    assert (Hns' : row_session row ∉ {[row_session r]} ∪ seen).
    { rewrite elem_of_union, elem_of_singleton. intros [?|?]; congruence. }
    assert (Hstep : ∀ b', items b' = [] →
              items (select rest ({[row_session r]} ∪ seen) b' spent) ≠ []).
    { intros b' Hb'. by apply (IH (past ++ [r])). }
    case_decide; [by apply Hstep|].
    destruct (is_expired _ _); [by apply Hstep|].
    by apply select_loop_keeps.
Qed.
End SelectSpec.

Lemma select_batch_spec limit budget now deferred cost_of q :
  batch_spec (clamp_limit limit) budget now deferred cost_of (q_pending q)
    (select_batch limit budget now deferred cost_of q).
Proof.
  apply (select_loop_spec _ _ _ _ _ []).
  split; simpl; try done.
  { intros s. rewrite elem_of_empty. split; [done|]. by intros ?%not_elem_of_nil. }
  split; simpl; try constructor; [apply sublist_nil_l|lia|lia].
Qed.

Lemma enqueue_knows events now q q' rep :
  enqueue events now q = Ok (q', rep) → Forall (knows q') events.
Proof.
  intros H. unfold enqueue in H. apply result_bind_Ok in H as (tx & Hl & [= <- <-]).
  eapply Forall_impl; [apply (x_events _ _ _ _ _ (enqueue_loop_extends _ _ _ _ _ Hl))|].
  intros e [Hb Hk]. split; [exact Hk|].
  unfold pinned_agent; simpl. by rewrite pin_sessions_lookup.
Qed.

(** ** Properties *)

(** C32. Queue invariant: in every queue reachable from a fresh database by
    bind, enqueue, stamp, confirm, failure and prune transactions, ingest
    keys are unique across [pending] and [receipt], rows are in strictly
    increasing sequence order below the AUTOINCREMENT counter, every pending
    session is pinned to the agent of its rows, and the item, byte,
    replay-protection (pending plus receipts) and pin limits hold. *)
Theorem reachable_queue_ok q : rtc relay_step fresh_queue q → queue_ok q.
Proof.
  intros H. pose proof fresh_queue_ok as Hq. revert Hq.
  induction H as [|q1 q2 q3 H12 _ IH]; [done|]. intros Hq. apply IH. by eapply relay_step_ok.
Qed.

(** All-or-nothing enqueue: on success every event of the file is
    recorded with its content hash and its session pinned to its agent, the
    receipts and binding are untouched, the old rows are kept in place, the
    rows appended are exactly the counted [accepted] ones, each for an event
    whose key was unknown, and [accepted + recognized] is the file's length. *)
Theorem enqueue_functional events now q q' rep :
  enqueue events now q = Ok (q', rep) →
  Forall (knows q') events ∧
  q_receipt q' = q_receipt q ∧ q_binding q' = q_binding q ∧
  (rep_accepted rep + rep_recognized rep)%nat = length events ∧
  ∃ new, q_pending q' = q_pending q ++ new ∧ length new = rep_accepted rep ∧
    Forall (λ r, ∃ e s, e ∈ events ∧ r = new_row s now e ∧
                   recorded_sha q (ev_ingest_key e) = None) new.
Proof.
  intros H. split; [by eapply enqueue_knows|].
  unfold enqueue in H. apply result_bind_Ok in H as (tx & Hl & [= <- <-]).
  destruct (enqueue_loop_extends _ _ _ _ _ Hl) as [(new & Hp & Hn & Ha) Hc _ _ _].
  simpl in *. split; [done|split; [done|split; [done|by exists new]]].
Qed.

Definition witness_event (n : string) : ValidEvent :=
  mkValidEvent n "claude-code" "stop" "s1" "/w" "{}" "sha0" n.

Definition witness_queue : Queue :=
  match enqueue [witness_event "k1"; witness_event "k2"] 10 fresh_queue with
  | Ok (q, _) => q
  | Err _ => fresh_queue
  end.

Lemma witness_queue_reachable : rtc relay_step fresh_queue witness_queue.
Proof.
  apply rtc_once, step_delivery.
  apply (step_enqueue [witness_event "k1"; witness_event "k2"] 10 _ _ (mkEnqueueReport 2 0)).
  vm_compute. reflexivity.
Qed.

Lemma witness_queue_ok : queue_ok witness_queue.
Proof.
  apply (enqueue_ok [witness_event "k1"; witness_event "k2"] 10 fresh_queue _
           (mkEnqueueReport 2 0)); [apply fresh_queue_ok|vm_compute; reflexivity].
Qed.

Lemma reachable_queue_ok_witness : queue_ok witness_queue ∧ length (q_pending witness_queue) = 2%nat.
Proof.
  split; [|vm_compute; reflexivity].
  apply reachable_queue_ok. exact witness_queue_reachable.
Defined.

Lemma enqueue_functional_witness :
  Forall (knows witness_queue) [witness_event "k1"; witness_event "k2"].
Proof.
  refine (proj1 (enqueue_functional [witness_event "k1"; witness_event "k2"] 10 fresh_queue
            witness_queue (mkEnqueueReport 2 0) _)).
  vm_compute. reflexivity.
Defined.

(** What [knows] survives: every transaction but [prune]. *)
Lemma knows_delivery_step q q' e :
  queue_ok q → delivery_step q q' → knows q e → knows q' e.
Proof.
  intros Hq Hstep [Hk Hp]. destruct Hstep as [events now q q' rep H|keys now q|keys now q|key class q].
  - unfold enqueue in H. apply result_bind_Ok in H as (tx & Hl & [= <- <-]).
    destruct (enqueue_loop_extends _ _ _ _ _ Hl) as [_ _ Hb Hkn _].
    split; [by apply (Hkn _ _ Hk)|].
    unfold pinned_agent; simpl. rewrite pin_sessions_lookup. apply Hb.
    by rewrite bound_agent_begin.
  - split; [|done]. unfold stamp_attempt. by rewrite recorded_sha_same by apply stamp_keys_same.
  - destruct (confirm_recorded keys now q (ev_ingest_key e) Hq) as [Hr Hs].
    split; [by rewrite Hr|]. unfold pinned_agent. by rewrite Hs.
  - split; [|done]. unfold record_failure. rewrite recorded_sha_same; [done|].
    apply (record_failure_same key class).
Qed.

Lemma knows_delivery_steps q q' e :
  queue_ok q → rtc delivery_step q q' → knows q e → knows q' e.
Proof.
  intros Hq H. revert Hq. induction H as [|q1 q2 q3 H12 _ IH]; [done|].
  intros Hq Hk. apply IH; [by eapply delivery_step_ok|by eapply knows_delivery_step].
Qed.

(** Replay protection: once a file has been enqueued, submitting it again
    after any sequence of further enqueues, attempt stamps, acknowledgements
    and failures (no prune) recognizes every event, accepts none, and leaves
    the pending rows and the receipts exactly as they are. *)
Theorem replay_recognized events now now' q q1 q2 rep :
  queue_ok q → enqueue events now q = Ok (q1, rep) → rtc delivery_step q1 q2 →
  ∃ q3, enqueue events now' q2 = Ok (q3, mkEnqueueReport 0 (length events)) ∧
    q_pending q3 = q_pending q2 ∧ q_receipt q3 = q_receipt q2.
Proof.
  intros Hq H1 H12. pose proof (enqueue_ok _ _ _ _ _ Hq H1) as Hq1.
  pose proof (enqueue_knows _ _ _ _ _ H1) as Hknows.
  destruct (enqueue_loop_known q2 now' events (enqueue_begin q2)) as (tx & Hl & Hp & _ & Ha & Hr).
  - eapply Forall_impl; [exact Hknows|]. intros e He. simpl.
    destruct (knows_delivery_steps _ _ _ Hq1 H12 He) as [Hk Hb].
    split; [by rewrite bound_agent_begin|exact Hk].
  - intros key sha. simpl. by rewrite lookup_empty.
  - exists (mkQueue (q_binding q2) (tx_pending tx) (tx_next_seq tx) (q_receipt q2)
              (pin_sessions now' (tx_seen_sessions tx) (q_session_agent q2))).
    split; [|by split]. unfold enqueue. rewrite Hl. cbn [result_bind].
    destruct (tx_report tx) as [a r]. simpl in *. by subst.
Qed.

Lemma replay_recognized_witness :
  ∃ q3, enqueue [witness_event "k1"; witness_event "k2"] 99
          (fst (confirm [("k1", "stored")] 50 witness_queue))%string
        = Ok (q3, mkEnqueueReport 0 2) ∧ length (q_pending q3) = 1%nat.
Proof.
  destruct (replay_recognized [witness_event "k1"; witness_event "k2"] 10 99 fresh_queue
              witness_queue (fst (confirm [("k1", "stored")] 50 witness_queue))%string
              (mkEnqueueReport 2 0) fresh_queue_ok) as (q3 & H & Hp & _).
  - vm_compute. reflexivity.
  - apply rtc_once, step_confirm.
  - exists q3. split; [exact H|]. rewrite Hp. vm_compute. reflexivity.
Defined.

(** Batch selection: every selected item is the oldest pending row of its
    session (so no event, terminal ones included, overtakes an earlier one of
    its session), is neither deferred nor past its retry window; at most one
    per session, oldest first, at most [clamp_limit limit], and over the byte
    budget only when alone.  And selection makes progress: if some session
    head is eligible, the batch is not empty. *)
Theorem select_batch_correct limit budget now deferred cost_of q :
  batch_spec (clamp_limit limit) budget now deferred cost_of (q_pending q)
    (select_batch limit budget now deferred cost_of q) ∧
  (∀ row, is_head (q_pending q) row → eligible now deferred row →
     items (select_batch limit budget now deferred cost_of q) ≠ []).
Proof.
  split; [by apply select_batch_spec|].
  intros row Hhead Hel. apply (select_loop_progress _ _ _ _ _ [] _ _ _ _ row); try done.
  - unfold clamp_limit. lia.
  - intros s. rewrite elem_of_empty. split; [done|]. by intros ?%not_elem_of_nil.
  - destruct Hhead as (before & after & -> & _). apply elem_of_app. right. left.
Qed.

Lemma select_batch_correct_witness :
  i_ingest_key <$> items (select_batch 10 100 20 ∅ (λ _, 1) witness_queue) = ["k1"%string] ∧
  items (select_batch 10 100 20 ∅ (λ _, 1) witness_queue) ≠ [].
Proof.
  split; [vm_compute; reflexivity|].
  apply (proj2 (select_batch_correct 10 100 20 ∅ (λ _, 1) witness_queue)
           (new_row 1 10 (witness_event "k1"))).
  - exists [], [new_row 2 10 (witness_event "k2")]. split; [vm_compute; reflexivity|constructor].
  - split; [apply not_elem_of_empty|reflexivity].
Defined.

(** The retry clock never restarts: once an event's retry window has
    closed at [now], then whatever transactions follow (new attempts and
    failures included) and at any later time, no batch selects that row
    again. *)
Theorem expired_never_resent q q' now now' row limit budget deferred cost_of :
  queue_ok q → rtc relay_step q q' →
  row ∈ q_pending q → is_expired (p_first_attempt_ms row) now = true → now ≤ now' →
  ∀ i, i ∈ items (select_batch limit budget now' deferred cost_of q') → i_seq i ≠ p_seq row.
Proof.
  intros Hq Hsteps Hrow Hexp Hle i Hi Hseq.
  destruct (select_batch_spec limit budget now' deferred cost_of q') as [Hheads _ _ _ _].
  rewrite Forall_forall in Hheads. destruct (Hheads i Hi) as (row' & -> & Hhead & _ & Hfresh).
  simpl in Hseq.
  destruct Hhead as (before & after & Hall & _).
  assert (Hin' : row' ∈ q_pending q') by (rewrite Hall; set_solver).
  destruct (relay_steps_later _ _ Hq Hsteps) as [_ Hlater].
  destruct (Hlater row' Hin') as (row0 & Hrow0 & Hl).
  { rewrite Hseq. pose proof (inv_next _ _ _ _ (ok_rows _ Hq)) as Hn.
    rewrite Forall_forall in Hn. by apply Hn. }
  assert (row0 = row) as ->.
  { apply (row_seq_unique q); try done. rewrite (row_later_seq _ _ Hl). done. }
  destruct (p_first_attempt_ms row) as [t|] eqn:Et; [|done].
  rewrite (proj2 Hl t Et) in Hfresh.
  rewrite (is_expired_mono _ now now') in Hfresh by done. done.
Qed.

Lemma expired_never_resent_witness :
  let q := stamp_attempt ["k1"%string] 10 witness_queue in
  let batch := select_batch 10 100 (10 + RETRY_WINDOW_MS) ∅ (λ _, 1)
                 (stamp_attempt ["k1"%string] 500 q) in
  blocked_sessions batch = 1%nat ∧ ∀ i, i ∈ items batch → i_seq i ≠ 1.
Proof.
  split; [vm_compute; reflexivity|]. set (q := stamp_attempt ["k1"%string] 10 witness_queue).
  apply (expired_never_resent q _ (10 + RETRY_WINDOW_MS) (10 + RETRY_WINDOW_MS)
    (stamp_row 10 (new_row 1 10 (witness_event "k1")))).
  - apply stamp_attempt_ok. exact witness_queue_ok.
  - apply rtc_once, step_delivery, step_stamp.
  - change (q_pending q) with (q_pending (stamp_attempt ["k1"%string] 10 witness_queue)).
    vm_compute. left.
  - vm_compute. reflexivity.
  - lia.
Defined.
