(* ===== verification/RelayFlush.v ===== *)
(** * Delivering the queue

    Models [companions/ai-memory-relay/src/relay.rs] ([flush_locked],
    [send_with_retries], the time bounds) and the URL construction of
    [http.rs].  The environment of a flush (clock readings, HTTP exchanges)
    is an explicit argument: one [RoundEnv] per iteration of the batch loop.
    Durations and instants are in nanoseconds, the [*_ms] columns in
    milliseconds.  JSON parsing, form encoding and the sensitive-content
    filter of [ai-memory-client] are arguments. *)

From S2P Require Export RelayQueue.

Local Open Scope rust_scope.
Local Open Scope Z_scope.

(** ** Time bounds *)

Definition SECOND : Z := 1000000000.
Definition MILLISECOND : Z := 1000000.

Definition TRANSPORT_RETRIES : nat := 2.
Definition PER_EVENT_TIMEOUT : Z := 2 * SECOND.
Definition MAX_BATCH_TIMEOUT : Z := 120 * SECOND.
Definition TOTAL_BUDGET : Z := 900 * SECOND.
Definition MAX_BACKOFF : Z := 2 * SECOND.
Definition MAX_BATCH_BYTES : Z := 8 * 1024 * 1024.
Definition ITEM_FRAMING_BYTES : Z := 32.
Definition u32_max : Z := 2 ^ 32 - 1.

(** [Duration::checked_sub], [Instant::saturating_duration_since]. *)
Definition checked_sub (a b : Z) : option Z := if b <=? a then Some (a - b) else None.
Definition duration_since (later earlier : Z) : Z := Z.max 0 (later - earlier).

(** Milliseconds the event may still be resent, as a [Duration]. *)
Definition ttl_remaining (first_attempt_ms now_ms : Z) : Z :=
  let spent := i64_saturating_sub now_ms first_attempt_ms in
  let left := i64_saturating_sub RETRY_WINDOW_MS spent in
  (if left <? 0 then 0 else left) * MILLISECOND.

Definition batch_timeout (n_items : nat) (remaining : Z) : Z :=
  let items := Z.min (Z.of_nat (Nat.max n_items 1)) u32_max in
  Z.max (Z.min (Z.min (PER_EVENT_TIMEOUT * items) MAX_BATCH_TIMEOUT) remaining) MILLISECOND.

(** ** HTTP *)

Record Delivery := mkDelivery { status : Z; body : string; body_over_limit : bool }.

(** The query pairs of [http::item_url], in order. *)
Definition item_query (b : Binding) (item : PendingItem) : list (string * string) :=
  [ ("event", i_event item); ("agent", i_agent item); ("workspace", b_workspace b);
    ("project", b_project b); ("extension", b_producer b);
    ("source_event", i_event item); ("ingest_key", i_ingest_key item) ]%string.

Section Flush.
(** [serde_json], [url::form_urlencoded] and [ai_memory_client]. *)
Context {json : Type}.
Variable parse_body : string → option json.
Variable parse_ack : string → option BatchAck.
Variable form_encode : list (string * string) → string.
Variable not_sensitive : list string → bool.
Variable check_body : json → bool.

Definition item_url (base : string) (b : Binding) (item : PendingItem) : string :=
  (base ++ "/hook?" ++ form_encode (item_query b item))%string.

Definition item_cost (base : string) (b : Binding) (item : PendingItem) : Z :=
  Z.of_nat (String.length (item_url base b item))
  + Z.of_nat (String.length (i_body_json item)) + ITEM_FRAMING_BYTES.

Record BatchItem := mkBatchItem { bi_url : string; bi_body : json }.

(** The wire form of an item, or [None] for one that must not be sent. *)
Definition wire_item (b : Binding) (item : PendingItem) : option BatchItem :=
  match parse_body (i_body_json item) with
  | None => None
  | Some parsed =>
      if not_sensitive [i_event_id item; i_agent item; i_event item; i_session_id item]
         && check_body parsed
         && not_sensitive [item_url (b_server_url b) b item]
      then Some (mkBatchItem (item_url (b_server_url b) b item) parsed)
      else None
  end.

(** ** [send_with_retries] *)

Inductive SendError :=
  | TtlReached
  | BudgetExhausted
  | Transport (class : string).

(** The network and the clock during one send: [Instant] readings in order
    and the answer to each attempt. *)
Record SendEnv := mkSendEnv {
  clock : nat → Z;
  post_batch : nat → list BatchItem → Z → result Delivery string;
}.

(** A request put on the wire: when its admission was checked, its timeout. *)
Record Post := mkPost { post_at : Z; post_timeout : Z }.

Definition backoff (attempt : nat) (left : Z) : Z :=
  Z.min (Z.min (250 * MILLISECOND * 2 ^ Z.of_nat (Nat.min attempt 8)) MAX_BACKOFF) left.

(** The retry loop; [retries_left = TRANSPORT_RETRIES - attempt]. *)
Fixpoint send_attempts (retries_left attempt : nat) (env : SendEnv) (batch : list BatchItem)
    (deadline ttl_deadline : Z) : list Post * result Delivery SendError :=
  let t := (3 * attempt)%nat in
  if ttl_deadline <=? clock env (t + 1) then ([], Err TtlReached)
  else
    let left := duration_since deadline (clock env (t + 2)) in
    if left =? 0 then ([], Err BudgetExhausted)
    else
      let timeout := batch_timeout (length batch) left in
      let post := mkPost (clock env (t + 1)) timeout in
      match post_batch env attempt batch timeout with
      | Ok d => ([post], Ok d)
      | Err e =>
          match retries_left with
          | O => ([post], Err (Transport e))
          | S retries_left' =>
              if backoff attempt (duration_since deadline (clock env (t + 3))) =? 0
              then ([post], Err (Transport e))
              else
                let '(posts, r) :=
                  send_attempts retries_left' (S attempt) env batch deadline ttl_deadline in
                (post :: posts, r)
          end
      end.

Definition send_with_retries (env : SendEnv) (batch : list BatchItem) (remaining ttl_left : Z)
    : list Post * result Delivery SendError :=
  let start := clock env 0 in
  send_attempts TRANSPORT_RETRIES 0 env batch (start + Z.min remaining ttl_left)
    (start + ttl_left).

(** ** [flush_locked] *)

Inductive FlushFailure :=
  | TransportFailure (e : SendError) (kept : nat)
  | HttpStatus (code : Z) (kept : nat)
  | OversizedAck (code : Z) (kept : nat)
  | UnreadableAck (code : Z) (kept : nat)
  | InconsistentAck (code : Z) (why : AckRejected) (kept : nat).

Record FlushState := mkFlushState {
  fs_queue : Queue;
  fs_deferred : gset (string * string);
  fs_delivered : nat;
  fs_outcomes : gmap string Z;
  fs_batches : nat;
  fs_blocked_sessions : nat;
  fs_dropped_unsafe : nat;
  fs_failure : option FlushFailure;
  fs_backed_off : bool;
}.

(** Clock readings and network of one iteration: elapsed times since the
    flush started, wall-clock milliseconds. *)
Record RoundEnv := mkRoundEnv {
  elapsed_select : Z;
  now_ms : Z;
  send_now_ms : Z;
  elapsed_send : Z;
  send_env : SendEnv;
  confirm_now_ms : Z;
}.

(** Every item of a refused batch is charged, and the flush stops. *)
Definition fail_batch (batch : list PendingItem) (class : string) (why : FlushFailure)
    (st : FlushState) : FlushState :=
  mkFlushState
    (foldl (λ q i, record_failure (i_ingest_key i) class q) (fs_queue st) batch)
    (fs_deferred st) (fs_delivered st) (fs_outcomes st) (fs_batches st)
    (fs_blocked_sessions st) (fs_dropped_unsafe st) (Some why) (fs_backed_off st).

Definition min_duration (l : list Z) : Z :=
  match l with [] => 0 | x :: l' => foldl Z.min x l' end.

Definition batch_ttl (now send_now : Z) (batch : list PendingItem) : Z :=
  min_duration ((λ i, ttl_remaining (default now (i_first_attempt_ms i)) send_now) <$> batch).

Definition confirmed_items (ack : BatchAck) (accepted : list nat) (batch : list PendingItem)
    : list (string * string) :=
  omap (λ idx, (λ i, (i_ingest_key i, acknowledged_outcome ack idx)) <$> batch !! idx) accepted.

(** [deferred.insert] for every unaccepted item the server did try. *)
Definition defer_items (ack : BatchAck) (accepted : list nat) (batch : list PendingItem)
    (deferred : gset (string * string)) : gset (string * string) :=
  foldl (λ acc '(position, item),
      if bool_decide (position ∈ accepted) then acc
      else if match failed_index ack with
              | Some failed => (failed <? position)%nat | None => false end then acc
      else {[session item]} ∪ acc)
    deferred (zip (seq 0 (length batch)) batch).

(** The response handling of one batch: new state and whether to stop. *)
Definition handle_delivery (env : RoundEnv) (batch : list PendingItem) (d : Delivery)
    (st : FlushState) : FlushState * bool :=
  let kept := length batch in
  if negb ((status d =? 200) || (status d =? 429)) then
    (fail_batch batch ("http " ++ pretty (status d))%string (HttpStatus (status d) kept) st, true)
  else if body_over_limit d then
    (fail_batch batch "oversized ack" (OversizedAck (status d) kept) st, true)
  else
    match parse_ack (body d) with
    | None => (fail_batch batch "malformed ack" (UnreadableAck (status d) kept) st, true)
    | Some ack =>
        match validate (length batch) ack with
        | Err why =>
            (fail_batch batch "inconsistent ack" (InconsistentAck (status d) why kept) st, true)
        | Ok accepted =>
            let confirmed := confirmed_items ack accepted batch in
            let '(q, moved) := confirm confirmed (confirm_now_ms env) (fs_queue st) in
            let outcomes :=
              foldl (λ counts '(_, o), alter (λ n, n + 1) o counts) (fs_outcomes st) confirmed in
            let q :=
              match failed_index ack ≫= (λ f, batch !! f) with
              | Some item => record_failure (i_ingest_key item) "server reported failed_index" q
              | None => q
              end in
            let backed_off := status d =? 429 in
            (mkFlushState q (defer_items ack accepted batch (fs_deferred st))
               (fs_delivered st + moved) outcomes (fs_batches st) (fs_blocked_sessions st)
               (fs_dropped_unsafe st) (fs_failure st) (backed_off || fs_backed_off st),
             backed_off)
        end
    end.

(** Sending one non-empty safe batch. *)
Definition send_batch (env : RoundEnv) (batch : list PendingItem) (wire : list BatchItem)
    (st : FlushState) : FlushState * bool :=
  let q := stamp_attempt (i_ingest_key <$> batch) (now_ms env) (fs_queue st) in
  let st := mkFlushState q (fs_deferred st) (fs_delivered st) (fs_outcomes st)
              (S (fs_batches st)) (fs_blocked_sessions st) (fs_dropped_unsafe st)
              (fs_failure st) (fs_backed_off st) in
  let ttl_left := batch_ttl (now_ms env) (send_now_ms env) batch in
  match checked_sub TOTAL_BUDGET (elapsed_send env) with
  | None => (st, true)
  | Some remaining =>
      match snd (send_with_retries (send_env env) wire remaining ttl_left) with
      | Err e => (fail_batch batch "transport" (TransportFailure e (length batch)) st, true)
      | Ok d => handle_delivery env batch d st
      end
  end.

Definition is_safe (b : Binding) (item : PendingItem) : bool :=
  match wire_item b item with Some _ => true | None => false end.

(** One iteration of the batch loop. *)
Definition flush_round (b : Binding) (env : RoundEnv) (st : FlushState) : FlushState * bool :=
  match checked_sub TOTAL_BUDGET (elapsed_select env) with
  | None => (st, true)
  | Some _ =>
      let batch := select_batch MAX_BATCH_ITEMS MAX_BATCH_BYTES (now_ms env) (fs_deferred st)
                     (item_cost (b_server_url b) b) (fs_queue st) in
      let st := mkFlushState (fs_queue st) (fs_deferred st) (fs_delivered st) (fs_outcomes st)
                  (fs_batches st) (blocked_sessions batch) (fs_dropped_unsafe st)
                  (fs_failure st) (fs_backed_off st) in
      match items batch with
      | [] => (st, true)
      | _ =>
          let unsafe_keys := (λ i, (i_ingest_key i, "dropped_policy"%string)) <$>
                               List.filter (λ i, negb (is_safe b i)) (items batch) in
          let '(q, dropped) := confirm unsafe_keys (now_ms env) (fs_queue st) in
          let st := mkFlushState q (fs_deferred st) (fs_delivered st) (fs_outcomes st)
                      (fs_batches st) (fs_blocked_sessions st)
                      (fs_dropped_unsafe st + dropped) (fs_failure st) (fs_backed_off st) in
          let safe := List.filter
            (λ i, negb (existsb (λ k, String.eqb (fst k) (i_ingest_key i)) unsafe_keys))
            (items batch) in
          match omap (wire_item b) (items batch) with
          | [] => (st, false)
          | wire => send_batch env safe wire st
          end
      end
  end.

(** [for _ in 0..options.max_batches]: one environment per iteration. *)
Fixpoint flush_loop (b : Binding) (envs : list RoundEnv) (st : FlushState) : FlushState :=
  match envs with
  | [] => st
  | env :: envs' =>
      let '(st', stop) := flush_round b env st in
      if stop then st' else flush_loop b envs' st'
  end.

Definition flush_start (q : Queue) : FlushState :=
  mkFlushState q ∅ 0 outcome_counts 0 0 0 None false.

Definition flush_locked (b : Binding) (prune_now : Z) (envs : list RoundEnv) (q : Queue)
    : FlushState :=
  flush_loop b envs (flush_start (fst (prune prune_now q))).

(** The process exit code: [Report::exit_code]. *)
Definition exit_code (st : FlushState) : Z :=
  match fs_failure st with
  | Some _ => 2
  | None => if 0 <? pending_items (stats 0 (fs_queue st)) then 3 else 0
  end.
End Flush.
