(* ===== verification/RelayFlushFacts.v ===== *)
(** * Correctness of the relay's delivery loop

    A flush loses nothing, releases each session in order, releases exactly
    what a validated acknowledgement names, and bounds its requests. *)

From S2P Require Export RelayFlush RelayQueueFacts.

Local Open Scope rust_scope.
Local Open Scope Z_scope.

(** ** What a flush may do to the queue *)

Definition cores (q : Queue) : list PendingRow := row_core <$> q_pending q.

(** If the key is pending, it is the oldest of its session. *)
Definition oldest (q : Queue) (key : string) : Prop :=
  ∀ r r', r ∈ cores q → r' ∈ cores q → p_ingest_key r = key →
    row_session r' = row_session r → p_seq r ≤ p_seq r'.

Record flush_rel (q q' : Queue) : Prop := {
  fr_steps : rtc delivery_step q q';
  fr_rows : sublist (cores q') (cores q);
  fr_order : ∀ r r', r ∈ cores q → r' ∈ cores q → row_session r' = row_session r →
               p_seq r' < p_seq r → r' ∈ cores q' → r ∈ cores q';
}.

#[export] Instance flush_rel_preorder : PreOrder flush_rel.
Proof.
  split; [by intros q|].
  intros q1 q2 q3 [S12 R12 O12] [S23 R23 O23]. split.
  - by etransitivity.
  - by etransitivity.
  - intros r r' Hr Hr' Hs Hlt Hr3.
    assert (Hr2 : r' ∈ cores q2) by (by eapply elem_of_sublist).
    eapply (O23 r r'); try done. by eapply (O12 r r').
Qed.

Lemma flush_rel_ok q q' : flush_rel q q' → queue_ok q → queue_ok q'.
Proof.
  intros [Hs _ _]. induction Hs as [|q1 q2 q3 H12 _ IH]; [done|].
  intros Hq. apply IH. by eapply delivery_step_ok.
Qed.

Lemma oldest_flush_rel q q' key : flush_rel q q' → oldest q key → oldest q' key.
Proof.
  intros [_ Hsub _] Hold r r' Hr Hr'. apply Hold; by eapply elem_of_sublist.
Qed.

(** A step that only rewrites mutable columns. *)
Lemma flush_rel_same q q' :
  delivery_step q q' → same_rows (q_pending q) (q_pending q') → flush_rel q q'.
Proof.
  intros Hs H. assert (Hc : cores q' = cores q) by (by unfold cores; rewrite H).
  split; [by apply rtc_once| |]; rewrite Hc; done.
Qed.

Lemma flush_rel_stamp keys now q : flush_rel q (stamp_attempt keys now q).
Proof. apply flush_rel_same; [apply step_stamp|apply stamp_keys_same]. Qed.

Lemma flush_rel_failure key class q : flush_rel q (record_failure key class q).
Proof. apply flush_rel_same; [apply step_failure|apply record_failure_same]. Qed.

Lemma flush_rel_failures class l q :
  flush_rel q (foldl (λ q i, record_failure (i_ingest_key i) class q) q l).
Proof.
  revert q; induction l as [|i l IH]; intros q; simpl; [done|].
  etransitivity; [apply (flush_rel_failure (i_ingest_key i) class)|apply IH].
Qed.

Lemma cores_delete_key key rows :
  row_core <$> delete_key key rows = delete_key key (row_core <$> rows).
Proof.
  unfold delete_key. induction rows as [|r rows IH]; [done|].
  rewrite filter_cons, fmap_cons, filter_cons. simpl. case_decide; [|done].
  by rewrite fmap_cons, IH.
Qed.

Lemma cores_key_unique q r r' :
  queue_ok q → r ∈ cores q → r' ∈ cores q → p_ingest_key r = p_ingest_key r' → r = r'.
Proof.
  intros [Hr _] H1 H2 Heq. pose proof (inv_keys _ _ _ _ Hr) as Hk.
  rewrite <- (same_rows_fmap p_ingest_key (cores q) (q_pending q)) in Hk; [|done|].
  - apply pending_by_key_unique in H1, H2; try done. rewrite Heq in H1. congruence.
  - unfold same_rows, cores. rewrite <- list_fmap_compose. by apply list_fmap_ext.
Qed.

Lemma cores_confirm_one now q n key label :
  cores (fst (confirm_one now (q, n) (key, label))) = delete_key key (cores q).
Proof.
  unfold cores. simpl. destruct (pending_by_key key (q_pending q)) as [row|] eqn:E; simpl.
  - apply cores_delete_key.
  - rewrite <- cores_delete_key. f_equal. symmetry.
    apply pending_by_key_None in E. apply list_filter_id, Forall_forall.
    intros r Hr <-. apply E, list_elem_of_fmap. eauto.
Qed.

Lemma confirm_one_step now q n k : delivery_step q (fst (confirm_one now (q, n) k)).
Proof.
  replace (fst (confirm_one now (q, n) k)) with (fst (confirm [k] now q)); [apply step_confirm|].
  destruct k as [key l]. unfold confirm; simpl. by destruct (pending_by_key _ _).
Qed.

Lemma flush_rel_confirm_one now q n k :
  queue_ok q → oldest q (fst k) → flush_rel q (fst (confirm_one now (q, n) k)).
Proof.
  intros Hq Hold. destruct k as [key label]. simpl in Hold. split.
  - apply rtc_once, confirm_one_step.
  - rewrite cores_confirm_one. apply sublist_filter.
  - rewrite cores_confirm_one. intros r r' Hr Hr' Hs Hlt Hin.
    apply list_elem_of_filter. split; [|done]. intros Hk.
    specialize (Hold r r' Hr Hr' Hk Hs). lia.
Qed.

Lemma flush_rel_confirm keys now q :
  queue_ok q → Forall (λ k, oldest q (fst k)) keys → flush_rel q (fst (confirm keys now q)).
Proof.
  unfold confirm. generalize 0%nat as n. revert q.
  induction keys as [|k keys IH]; intros q n Hq Hold; [done|]. cbn [foldl].
  inversion Hold as [|? ? Hk Hold']; subst.
  pose proof (flush_rel_confirm_one now q n k Hq Hk) as H1.
  destruct (confirm_one now (q, n) k) as [q' n']. etransitivity; [exact H1|].
  apply IH; [by eapply flush_rel_ok|].
  eapply Forall_impl; [exact Hold'|]. intros k'. by apply oldest_flush_rel.
Qed.

(** ** Selected items are the oldest of their sessions *)

Lemma is_head_oldest q row :
  queue_ok q → is_head (q_pending q) row → oldest q (p_ingest_key row).
Proof.
  intros Hq (before & after & Hall & Hbef) r r' Hr Hr' Hk Hs.
  assert (Hrow : row_core row ∈ cores q).
  { unfold cores. rewrite Hall. apply list_elem_of_fmap. exists row. set_solver. }
  assert (r = row_core row) as -> by (by apply (cores_key_unique q)).
  apply list_elem_of_fmap in Hr' as (x & -> & Hx). simpl in *.
  pose proof (inv_seqs _ _ _ _ (ok_rows _ Hq)) as Hsort. rewrite Hall in Hx, Hsort.
  rewrite fmap_app, fmap_cons in Hsort. apply StronglySorted_app_1_r in Hsort.
  apply StronglySorted_cons in Hsort as [Hlt _]. rewrite Forall_fmap, Forall_forall in Hlt.
  apply elem_of_app in Hx as [Hx|Hx].
  - rewrite Forall_forall in Hbef. by destruct (Hbef x Hx).
  - apply elem_of_cons in Hx as [->|Hx]; [done|]. specialize (Hlt x Hx). simpl in Hlt. lia.
Qed.

Lemma selected_oldest limit budget now deferred cost q :
  queue_ok q →
  Forall (λ i, oldest q (i_ingest_key i)) (items (select_batch limit budget now deferred cost q)).
Proof.
  intros Hq. destruct (select_batch_spec limit budget now deferred cost q) as [Hh _ _ _ _].
  eapply Forall_impl; [exact Hh|]. intros i (row & -> & Hhead & _).
  by apply is_head_oldest.
Qed.

Section FlushFacts.
Context {json : Type} (parse_body : string → option json) (parse_ack : string → option BatchAck)
  (form_encode : list (string * string) → string) (not_sensitive : list string → bool)
  (check_body : json → bool).

Abbreviation handle := (handle_delivery (json:=json) parse_ack).
Abbreviation send := (send_batch (json:=json) parse_ack).
Abbreviation round :=
  (flush_round parse_body parse_ack form_encode not_sensitive check_body).

Lemma confirmed_items_batch ack accepted batch (P : string → Prop) :
  Forall (λ i, P (i_ingest_key i)) batch →
  Forall (λ k, P (fst k)) (confirmed_items ack accepted batch).
Proof.
  intros Hb. apply Forall_forall. intros k (idx & Hidx & Hk)%list_elem_of_omap.
  destruct (batch !! idx) as [i|] eqn:E; simpl in Hk; [|done]. injection Hk as <-.
  by apply (Forall_lookup_1 _ _ _ _ Hb E).
Qed.

Lemma handle_delivery_rel env batch d st st' stop :
  queue_ok (fs_queue st) → Forall (λ i, oldest (fs_queue st) (i_ingest_key i)) batch →
  handle env batch d st = (st', stop) → flush_rel (fs_queue st) (fs_queue st').
Proof.
  intros Hq Hold H. unfold handle_delivery in H.
  destruct (negb _); [injection H as <- _; apply flush_rel_failures|].
  destruct (body_over_limit d); [injection H as <- _; apply flush_rel_failures|].
  destruct (parse_ack _) as [ack|]; [|injection H as <- _; apply flush_rel_failures].
  destruct (validate _ _) as [accepted|]; [|injection H as <- _; apply flush_rel_failures].
  pose proof (flush_rel_confirm (confirmed_items ack accepted batch) (confirm_now_ms env)
                (fs_queue st) Hq (confirmed_items_batch _ _ _ _ Hold)) as Hc.
  destruct (confirm _ _ _) as [q moved]. injection H as <- _. simpl in *.
  etransitivity; [exact Hc|].
  destruct (_ ≫= _) as [item|]; [apply flush_rel_failure|done].
Qed.

Lemma send_batch_rel env batch wire st st' stop :
  queue_ok (fs_queue st) → Forall (λ i, oldest (fs_queue st) (i_ingest_key i)) batch →
  send env batch wire st = (st', stop) → flush_rel (fs_queue st) (fs_queue st').
Proof.
  intros Hq Hold H. unfold send_batch in H.
  pose proof (flush_rel_stamp (i_ingest_key <$> batch) (now_ms env) (fs_queue st)) as Hs.
  etransitivity; [exact Hs|].
  destruct (checked_sub _ _); [|by injection H as <- _].
  destruct (snd _) as [d|e]; [|injection H as <- _; apply flush_rel_failures].
  apply handle_delivery_rel in H; [done|by eapply flush_rel_ok|].
  eapply Forall_impl; [exact Hold|]. intros i. by apply oldest_flush_rel.
Qed.

Lemma flush_round_rel b env st st' stop :
  queue_ok (fs_queue st) → round b env st = (st', stop) →
  flush_rel (fs_queue st) (fs_queue st').
Proof.
  intros Hq H. unfold flush_round in H.
  destruct (checked_sub _ _); [|by injection H as <- _].
  pose proof (selected_oldest MAX_BATCH_ITEMS MAX_BATCH_BYTES (now_ms env) (fs_deferred st)
                (item_cost form_encode (b_server_url b) b) (fs_queue st) Hq) as Hold.
  destruct (items (select_batch _ _ _ _ _ _)) as [|i0 its]; [by injection H as <- _|].
  set (unsafe := _ <$> List.filter _ _) in H.
  assert (Hun : Forall (λ k, oldest (fs_queue st) (fst k)) unsafe).
  { apply Forall_fmap, Forall_forall. intros i Hi.
    apply list_elem_of_In, filter_In in Hi as [Hi _]. rewrite Forall_forall in Hold.
    by apply Hold, list_elem_of_In. }
  pose proof (flush_rel_confirm unsafe (now_ms env) (fs_queue st) Hq Hun) as Hc.
  destruct (confirm unsafe _ _) as [q dropped]. simpl in Hc.
  destruct (omap _ _) as [|w ws]; [by injection H as <- _|].
  etransitivity; [exact Hc|]. apply send_batch_rel in H; [done|by eapply flush_rel_ok|].
  apply Forall_forall. intros i Hi. apply list_elem_of_In, filter_In in Hi as [Hi _].
  rewrite Forall_forall in Hold. eapply oldest_flush_rel; [exact Hc|].
  by apply Hold, list_elem_of_In.
Qed.

Lemma flush_loop_rel b envs st :
  queue_ok (fs_queue st) →
  flush_rel (fs_queue st) (fs_queue (flush_loop parse_body parse_ack form_encode not_sensitive
                                       check_body b envs st)).
Proof.
  revert st; induction envs as [|env envs IH]; intros st Hq; simpl; [done|].
  destruct (flush_round _ _ _ _ _ b env st) as [st' stop] eqn:E.
  apply flush_round_rel in E; [|done].
  destruct stop; [done|]. etransitivity; [exact E|]. apply IH. by eapply flush_rel_ok.
Qed.
End FlushFacts.

Lemma recorded_flush_rel q q' key :
  queue_ok q → flush_rel q q' → is_Some (recorded_sha q key) →
  recorded_sha q' key = recorded_sha q key.
Proof.
  intros Hq [Hsteps _ _] [sha Hk]. rewrite Hk. revert Hk.
  induction Hsteps as [|q1 q2 q3 H12 _ IH]; [done|]. intros Hk.
  apply IH; [by eapply delivery_step_ok|].
  destruct H12 as [events now q q' rep H|keys now q|keys now q|key' class q].
  - unfold enqueue in H. apply result_bind_Ok in H as (tx & Hl & [= <- <-]).
    exact (x_known _ _ _ _ _ (enqueue_loop_extends _ _ _ _ _ Hl) _ _ Hk).
  - unfold stamp_attempt. rewrite recorded_sha_same; [done|apply stamp_keys_same].
  - by rewrite (proj1 (confirm_recorded keys now q key Hq)).
  - unfold record_failure. rewrite recorded_sha_same; [done|apply (record_failure_same key' class)].
Qed.

(** ** Properties *)

(** C1. A whole flush loses nothing and keeps order, for every server and
    clock behaviour: it preserves the queue invariant, every event pending
    before it is afterwards still pending or receipted with the same content
    hash, no row appears or changes identity, and within a session an event
    leaves the queue only after every older event of that session has. *)
Theorem flush_no_loss_in_order {json} (parse_body : string → option json) parse_ack form_encode
    not_sensitive check_body b prune_now envs q :
  queue_ok q →
  let q' := fs_queue (flush_locked parse_body parse_ack form_encode not_sensitive check_body
                        b prune_now envs q) in
  queue_ok q' ∧
  Forall (λ r, recorded_sha q' (p_ingest_key r) = Some (p_body_sha256 r)) (q_pending q) ∧
  sublist (cores q') (cores q) ∧
  ∀ r r', r ∈ cores q → r' ∈ cores q → row_session r' = row_session r →
    p_seq r' < p_seq r → r' ∈ cores q' → r ∈ cores q'.
Proof.
  intros Hq q'. pose proof (prune_ok prune_now q Hq) as Hp.
  assert (Hrel : flush_rel (fst (prune prune_now q)) q').
  { exact (flush_loop_rel _ _ _ _ _ b envs (flush_start (fst (prune prune_now q))) Hp). }
  pose proof (flush_rel_ok _ _ Hrel Hp) as Hok.
  split; [done|]. split; [|split; [apply Hrel|apply Hrel]].
  apply Forall_forall. intros r Hr.
  assert (Hrec : recorded_sha (fst (prune prune_now q)) (p_ingest_key r) = Some (p_body_sha256 r)).
  { unfold recorded_sha. simpl.
    by rewrite (pending_by_key_unique _ _ (inv_keys _ _ _ _ (ok_rows _ Hq)) Hr). }
  by rewrite (recorded_flush_rel _ _ _ Hp Hrel), Hrec by (by eexists).
Qed.

(** A concrete relay: bodies are their own JSON, nothing is sensitive, the
    server acknowledges the first item of every batch. *)
Definition witness_binding : Binding := mkBinding "http://h" "p" "a" "w" "x".

Definition witness_env (response : result Delivery string) : RoundEnv :=
  mkRoundEnv 0 20 20 0 (mkSendEnv (λ _, 0) (λ _ (_ : list (BatchItem (json:=string))) _, response)) 30.

Definition witness_flush (envs : list RoundEnv) (q : Queue) : FlushState :=
  flush_locked (json:=string) Some (λ _, Some (mkBatchAck 1 None None None))
    (λ _, "") (λ _, true) (λ _, true) witness_binding 15 envs q.

Lemma flush_no_loss_in_order_witness :
  let q' := fs_queue (witness_flush [witness_env (Ok (mkDelivery 200 "" false))] witness_queue) in
  queue_ok q' ∧ p_ingest_key <$> q_pending q' = ["k2"%string].
Proof.
  intros q'. split; [|vm_compute; reflexivity].
  refine (proj1 (flush_no_loss_in_order (json:=string) Some (λ _, Some (mkBatchAck 1 None None None))
    (λ _, "") (λ _, true) (λ _, true) witness_binding 15
    [witness_env (Ok (mkDelivery 200 "" false))] witness_queue witness_queue_ok)).
Defined.

(** ** What an acknowledgement releases *)

Definition pending_keys (q : Queue) : list string := p_ingest_key <$> q_pending q.

(** The acknowledgement a delivery carries, if it is one. *)
Definition delivered_ack (parse_ack : string → option BatchAck) (n : nat) (d : Delivery)
    : option (BatchAck * list nat) :=
  if negb ((status d =? 200) || (status d =? 429)) || body_over_limit d then None
  else ack ← parse_ack (body d);
       match validate n ack with Ok accepted => Some (ack, accepted) | Err _ => None end.

Lemma pending_keys_cores q : pending_keys q = p_ingest_key <$> cores q.
Proof. unfold pending_keys, cores. by rewrite <- list_fmap_compose. Qed.

Lemma pending_keys_failures class l q :
  pending_keys (foldl (λ q i, record_failure (i_ingest_key i) class q) q l) = pending_keys q ∧
  q_receipt (foldl (λ q i, record_failure (i_ingest_key i) class q) q l) = q_receipt q.
Proof.
  revert q; induction l as [|i l IH]; intros q; simpl; [done|].
  destruct (IH (record_failure (i_ingest_key i) class q)) as [-> ->]. split; [|done].
  symmetry. apply same_rows_fmap; [done|]. apply (record_failure_same (i_ingest_key i) class).
Qed.

Lemma delete_key_keys key rows :
  p_ingest_key <$> delete_key key rows = filter (λ k, k ≠ key) (p_ingest_key <$> rows).
Proof.
  unfold delete_key. induction rows as [|r rows IH]; [done|].
  rewrite fmap_cons, !filter_cons. case_decide; [by rewrite fmap_cons, IH|done].
Qed.

Lemma confirm_keys keys now q n :
  pending_keys (fst (foldl (confirm_one now) (q, n) keys)) =
  filter (λ k, k ∉ fst <$> keys) (pending_keys q).
Proof.
  revert q n; induction keys as [|k keys IH]; intros q n; cbn [foldl].
  - symmetry. apply list_filter_id, Forall_forall. intros k _. apply not_elem_of_nil.
  - assert (H1 : pending_keys (fst (confirm_one now (q, n) k)) =
                 filter (λ k', k' ≠ fst k) (pending_keys q)).
    { destruct k as [key label]. rewrite !pending_keys_cores, cores_confirm_one.
      apply delete_key_keys. }
    destruct (confirm_one now (q, n) k) as [q' n']. rewrite IH. simpl in H1. rewrite H1.
    rewrite list_filter_filter. apply list_filter_iff. intros x. rewrite fmap_cons.
    rewrite not_elem_of_cons. naive_solver.
Qed.

Lemma confirm_one_receipt_ne now q n k key :
  queue_ok q → key ≠ fst k →
  q_receipt (fst (confirm_one now (q, n) k)) !! key = q_receipt q !! key ∧
  pending_by_key key (q_pending (fst (confirm_one now (q, n) k))) =
  pending_by_key key (q_pending q).
Proof.
  intros [Hr _] Hne. destruct k as [key' l]; simpl in *.
  destruct (pending_by_key key' (q_pending q)) as [row|] eqn:E; simpl; [|done].
  apply pending_by_key_Some in E as [Hrow Hkey].
  pose proof (inv_disjoint _ _ _ _ Hr) as Hdis. rewrite Forall_forall in Hdis.
  rewrite receipt_upsert_fresh by auto. rewrite lookup_insert_ne by congruence.
  by rewrite pending_by_key_delete_ne.
Qed.

Lemma confirm_receipt_ne now keys q n key :
  queue_ok q → key ∉ fst <$> keys →
  q_receipt (fst (foldl (confirm_one now) (q, n) keys)) !! key = q_receipt q !! key.
Proof.
  revert q n; induction keys as [|k keys IH]; intros q n Hq Hnin; [done|]. cbn [foldl].
  rewrite fmap_cons, not_elem_of_cons in Hnin. destruct Hnin as [Hne Hnin].
  destruct (confirm_one_receipt_ne now q n k key Hq Hne) as [Hr _].
  pose proof (confirm_one_ok now q n k Hq) as Hq'.
  destruct (confirm_one now (q, n) k) as [q' n']. simpl in *. by rewrite IH.
Qed.

Lemma confirm_receipt now keys q n key label row :
  queue_ok q → NoDup (fst <$> keys) → (key, label) ∈ keys →
  pending_by_key key (q_pending q) = Some row →
  q_receipt (fst (foldl (confirm_one now) (q, n) keys)) !! key =
  Some (mkReceiptRow (p_body_sha256 row)
          (match p_first_attempt_ms row with Some t => t | None => p_first_seen_ms row end)
          now (Some (outcome label))).
Proof.
  revert q n; induction keys as [|k keys IH]; intros q n Hq Hnd Hin Hrow.
  { by apply not_elem_of_nil in Hin. }
  cbn [foldl]. rewrite fmap_cons in Hnd. apply NoDup_cons in Hnd as [Hk Hnd].
  pose proof (confirm_one_ok now q n k Hq) as Hq'.
  apply elem_of_cons in Hin as [<-|Hin].
  - pose proof (confirm_receipt_ne now keys (fst (confirm_one now (q, n) (key, label)))
      (snd (confirm_one now (q, n) (key, label))) key Hq' Hk) as Hrest.
    rewrite <- surjective_pairing in Hrest. rewrite Hrest. simpl. rewrite Hrow. simpl.
    apply pending_by_key_Some in Hrow as [Hrow Hkey].
    pose proof (inv_disjoint _ _ _ _ (ok_rows _ Hq)) as Hdis. rewrite Forall_forall in Hdis.
    rewrite receipt_upsert_fresh by auto. by rewrite Hkey, lookup_insert_eq.
  - assert (Hne : key ≠ fst k).
    { intros ->. apply Hk. apply list_elem_of_fmap. by exists (fst k, label). }
    destruct (confirm_one_receipt_ne now q n k key Hq Hne) as [_ Hp].
    destruct (confirm_one now (q, n) k) as [q' n']. simpl in *. apply IH; try done.
    by rewrite Hp.
Qed.

Lemma confirmed_items_keys ack accepted batch k label :
  (k, label) ∈ confirmed_items ack accepted batch ↔
  ∃ idx i, idx ∈ accepted ∧ batch !! idx = Some i ∧ k = i_ingest_key i ∧
           label = acknowledged_outcome ack idx.
Proof.
  unfold confirmed_items. rewrite list_elem_of_omap. split.
  - intros (idx & Hidx & H). destruct (batch !! idx) as [i|] eqn:E; simpl in H; [|done].
    injection H as <- <-. by exists idx, i.
  - intros (idx & i & Hidx & Hi & -> & ->). exists idx. by rewrite Hi.
Qed.

Lemma confirmed_items_NoDup ack accepted batch :
  NoDup (i_ingest_key <$> batch) → NoDup accepted →
  NoDup (fst <$> confirmed_items ack accepted batch).
Proof.
  intros Hb Ha. unfold confirmed_items. induction Ha as [|idx l Hidx Ha IH]; [constructor|].
  cbn [omap list_omap]. destruct (batch !! idx) as [i|] eqn:E; simpl; [|exact IH].
  constructor; [|exact IH]. intros ([k label] & Heq & Hin)%list_elem_of_fmap. simpl in Heq.
  apply confirmed_items_keys in Hin as (idx' & i' & Hidx' & Hi' & Hk & _).
  assert (idx = idx') as <-; [|done].
  apply (NoDup_lookup _ idx idx' (i_ingest_key i) Hb); rewrite list_lookup_fmap.
  - by rewrite E.
  - rewrite Hi'. simpl. congruence.
Qed.

(** What a delivery releases, exactly: without a valid acknowledgement
    (any status but 200 and 429, an oversized, unreadable or inconsistent
    body) no key leaves the queue, no receipt is written and the flush stops
    with a failure; with one, precisely the keys of the accepted items leave,
    each with a receipt holding its content hash and its acknowledged
    outcome, and the flush stops exactly on 429. *)
Theorem handle_delivery_exact {json} parse_ack (env : RoundEnv (json:=json)) batch d st st' stop :
  queue_ok (fs_queue st) → NoDup (i_ingest_key <$> batch) →
  handle_delivery parse_ack env batch d st = (st', stop) →
  match delivered_ack parse_ack (length batch) d with
  | None =>
      pending_keys (fs_queue st') = pending_keys (fs_queue st) ∧
      q_receipt (fs_queue st') = q_receipt (fs_queue st) ∧
      is_Some (fs_failure st') ∧ stop = true
  | Some (ack, accepted) =>
      pending_keys (fs_queue st') =
        filter (λ k, k ∉ fst <$> confirmed_items ack accepted batch) (pending_keys (fs_queue st)) ∧
      (∀ idx i row, idx ∈ accepted → batch !! idx = Some i →
         pending_by_key (i_ingest_key i) (q_pending (fs_queue st)) = Some row →
         q_receipt (fs_queue st') !! i_ingest_key i =
         Some (mkReceiptRow (p_body_sha256 row)
                 (match p_first_attempt_ms row with Some t => t | None => p_first_seen_ms row end)
                 (confirm_now_ms env) (Some (acknowledged_outcome ack idx)))) ∧
      fs_failure st' = fs_failure st ∧ stop = (status d =? 429)
  end.
Proof.
  intros Hq Hnd H. unfold handle_delivery, delivered_ack in *.
  assert (Hfail : ∀ class why,
    (fail_batch batch class why st, true) = (st', stop) →
    pending_keys (fs_queue st') = pending_keys (fs_queue st) ∧
    q_receipt (fs_queue st') = q_receipt (fs_queue st) ∧
    is_Some (fs_failure st') ∧ stop = true).
  { intros class why [= <- <-]. simpl.
    destruct (pending_keys_failures class batch (fs_queue st)). eauto. }
  destruct (negb _); simpl; [by eapply Hfail|].
  destruct (body_over_limit d); [by eapply Hfail|].
  destruct (parse_ack (body d)) as [ack|]; simpl; [|by eapply Hfail].
  destruct (validate (length batch) ack) as [accepted|] eqn:Hv; [|by eapply Hfail].
  clear Hfail. apply validate_ascending in Hv.
  pose proof (confirm_keys (confirmed_items ack accepted batch) (confirm_now_ms env)
                (fs_queue st) 0) as Hkeys.
  assert (Hrec := confirm_receipt (confirm_now_ms env) (confirmed_items ack accepted batch)
                (fs_queue st) 0).
  unfold confirm in H. destruct (foldl _ _ _) as [q moved]. injection H as <- <-. simpl in *.
  assert (Hsame : ∀ o, let q1 := match o with
      | Some item => record_failure (i_ingest_key item) "server reported failed_index" q
      | None => q end in pending_keys q1 = pending_keys q ∧ q_receipt q1 = q_receipt q).
  { intros [item|]; [|done]. split; [|done]. symmetry. apply same_rows_fmap; [done|].
    apply (record_failure_same (i_ingest_key item)). }
  destruct (Hsame (failed_index ack ≫= (λ f, batch !! f))) as [-> ->].
  split; [done|split; [|done]]. intros idx i row Hidx Hi Hrow.
  rewrite (Hrec (i_ingest_key i) (acknowledged_outcome ack idx) row); try done.
  - by rewrite outcome_known by apply acknowledged_outcome_in.
  - apply confirmed_items_NoDup; [done|]. by apply ascending_NoDup.
  - apply confirmed_items_keys. by exists idx, i.
Qed.

Lemma handle_delivery_exact_witness :
  let st := flush_start witness_queue in
  let batch := item_of_row <$> take 1 (q_pending witness_queue) in
  let st' := fst (handle_delivery (λ _, Some (mkBatchAck 1 None None None))
                    (witness_env (Ok (mkDelivery 200 "" false))) batch
                    (mkDelivery 429 "" false) st) in
  pending_keys (fs_queue st') = ["k2"%string] ∧ fs_failure st' = None.
Proof.
  intros st batch st'.
  destruct (handle_delivery_exact (λ _, Some (mkBatchAck 1 None None None))
    (witness_env (Ok (mkDelivery 200 "" false))) batch (mkDelivery 429 "" false) st
    st' true witness_queue_ok) as (Hk & _ & Hf & _).
  - vm_compute. repeat constructor. apply not_elem_of_nil.
  - vm_compute. reflexivity.
  - split; [rewrite Hk; vm_compute; reflexivity|rewrite Hf; vm_compute; reflexivity].
Defined.

(** ** [send_with_retries] *)

Section Send.
Context {json : Type} (env : SendEnv (json:=json)) (batch : list (BatchItem (json:=json))).

(** One request of a send with [remaining] budget and the given deadlines. *)
Definition post_ok (deadline ttl_deadline : Z) (p : Post) : Prop :=
  post_at p < ttl_deadline ∧ MILLISECOND ≤ post_timeout p ≤ MAX_BATCH_TIMEOUT ∧
  ∃ t, post_timeout p ≤ Z.max MILLISECOND (deadline - t) ∧ t < deadline.

Lemma batch_timeout_bounds n left :
  MILLISECOND ≤ batch_timeout n left ≤ MAX_BATCH_TIMEOUT ∧
  batch_timeout n left ≤ Z.max MILLISECOND left.
Proof.
  unfold batch_timeout, MILLISECOND, MAX_BATCH_TIMEOUT, PER_EVENT_TIMEOUT, SECOND. lia.
Qed.

Lemma attempt_post_ok t1 t2 deadline ttl :
  t1 < ttl → duration_since deadline t2 ≠ 0 →
  post_ok deadline ttl (mkPost t1 (batch_timeout (length batch) (duration_since deadline t2))).
Proof.
  intros H1 H2. pose proof (batch_timeout_bounds (length batch) (duration_since deadline t2)).
  unfold duration_since in *. split; simpl; [done|split; [tauto|]]. exists t2. lia.
Qed.

Lemma send_attempts_bounds r a deadline ttl :
  (length (fst (send_attempts r a env batch deadline ttl)) ≤ S r)%nat ∧
  Forall (post_ok deadline ttl) (fst (send_attempts r a env batch deadline ttl)).
Proof.
  revert a; induction r as [|r IH]; intros a; cbn [send_attempts];
    (destruct (Z.leb_spec ttl (clock env (3 * a + 1))) as [|Hlt];
       [split; simpl; [lia|apply Forall_nil_2]|]);
    (destruct (Z.eqb_spec (duration_since deadline (clock env (3 * a + 2))) 0) as [|Hne];
       [split; simpl; [lia|apply Forall_nil_2]|]);
    pose proof (attempt_post_ok _ _ _ _ Hlt Hne) as Hp;
    (destruct (post_batch _ _ _ _) as [d|e]; [split; simpl; [lia|by apply Forall_singleton]|]).
  - split; simpl; [lia|by apply Forall_singleton].
  - destruct (_ =? 0); [split; simpl; [lia|by apply Forall_singleton]|].
    specialize (IH (S a)). destruct (send_attempts r _ _ _ _ _) as [posts res]. simpl in *.
    split; [lia|]. apply Forall_cons. tauto.
Qed.

(** A delivery is the answer to the last request made. *)
Lemma send_attempts_result r a deadline ttl d :
  snd (send_attempts r a env batch deadline ttl) = Ok d →
  ∃ n t, length (fst (send_attempts r a env batch deadline ttl)) = S n ∧
         post_batch env (a + n) batch t = Ok d.
Proof.
  revert a; induction r as [|r IH]; intros a; cbn [send_attempts];
    (destruct (_ <=? _); [done|]); (destruct (_ =? 0); [done|]);
    set (t := batch_timeout _ _);
    (destruct (post_batch env a batch t) as [d'|e] eqn:E;
       [intros [= ->]; exists 0%nat, t; by rewrite Nat.add_0_r|]); [done|].
  destruct (_ =? 0); [done|]. specialize (IH (S a)).
  destruct (send_attempts r _ _ _ _ _) as [posts res]. simpl in *.
  intros (n & t' & Hn & Hp)%IH. exists (S n), t'. by rewrite Hn, <- Nat.add_succ_comm.
Qed.
End Send.

(** Bounded sending: whatever the clock and the server do, one batch is
    put on the wire at most three times, every attempt is admitted strictly
    before the batch's retry window closes and strictly before the flush
    deadline, and no attempt's timeout exceeds two minutes or (beyond a one
    millisecond floor) the time left to that deadline; a returned delivery is
    the answer to the last request, and a server that answers the first
    request in time is asked only once. *)
Theorem send_with_retries_bounded {json} (env : SendEnv (json:=json)) batch remaining ttl_left :
  let '(posts, r) := send_with_retries env batch remaining ttl_left in
  let start := clock env 0 in
  let deadline := start + Z.min remaining ttl_left in
  (length posts ≤ 3)%nat ∧ Forall (post_ok deadline (start + ttl_left)) posts ∧
  (∀ d, r = Ok d → ∃ n t, length posts = S n ∧ post_batch env n batch t = Ok d) ∧
  (∀ d, clock env 1 < start + ttl_left → clock env 2 < deadline →
        (∀ t, post_batch env 0 batch t = Ok d) → r = Ok d ∧ length posts = 1%nat).
Proof.
  destruct (send_with_retries env batch remaining ttl_left) as [posts r] eqn:E.
  unfold send_with_retries in E. set (deadline := clock env 0 + Z.min remaining ttl_left) in *.
  set (ttl := clock env 0 + ttl_left) in *.
  destruct (send_attempts_bounds env batch TRANSPORT_RETRIES 0 deadline ttl) as [Hlen Hall].
  pose proof (send_attempts_result env batch TRANSPORT_RETRIES 0 deadline ttl) as Hres.
  rewrite E in *. simpl in *. split; [done|]. split; [done|]. split; [by intros d ->; apply Hres|].
  intros d H1 H2 Hpost. unfold TRANSPORT_RETRIES in E. simpl in E.
  rewrite (proj2 (Z.leb_gt _ _)) in E by exact H1.
  rewrite (proj2 (Z.eqb_neq _ _)) in E by (unfold duration_since; lia).
  rewrite Hpost in E. by injection E as <- <-.
Qed.
