(* ===== verification/RelayIngress.v ===== *)
(** * Events entering the relay

    Models [companions/ai-memory-relay/src/identity.rs] (bounds, the retry
    identity, validation of one event) and the commands of [relay.rs] and
    [http.rs] in front of the queue: [init] with [normalize_server_url],
    [read_input] and [enqueue].  SHA-256, serde_json, the url crate and the
    regex crate (through [Scrub]) are arguments. *)

From S2P Require Export RelayQueue Scrub.

Local Open Scope rust_scope.

(** ** Bounds *)

Definition MAX_PRODUCER_LEN : nat := 64.
Definition MAX_ACTOR_LEN : nat := 64.
Definition MAX_EVENT_LEN : nat := 128.
Definition MAX_EVENT_ID_LEN : nat := 128.
Definition MAX_AGENT_LEN : nat := 64.
Definition MAX_SCOPE_LEN : nat := 128.
Definition MAX_SESSION_ID_LEN : nat := 256.
Definition MAX_CWD_LEN : Z := 4096.
Definition MAX_BODY_BYTES : Z := 256 * 1024.
Definition MAX_INPUT_BYTES : Z := 32 * 1024 * 1024.
Definition MAX_INPUT_ITEMS : Z := 10000.
Definition TERMINAL_EVENTS : list bytes := [lit "session-end"].

Definition is_token (value : bytes) (max : nat) : bool :=
  negb (bool_decide (value = []))
  && (length value <=? max)
  && forallb (λ b, is_ascii_alphanumeric b || existsb (Ascii.eqb b) ["."; "_"; "-"; ":"]%char) value.

Definition is_plain (value : bytes) (max : Z) : bool :=
  negb (bool_decide (trim value = []))
  && (Z.of_nat (char_count value) <=? max)%Z
  && negb (existsb is_control (chars value)).

(** One item of the input array. *)
Record InputEvent := mkInputEvent {
  in_event_id : bytes;
  in_agent : bytes;
  in_event : bytes;
  in_body : json;
}.

Definition is_terminal (e : ValidEvent) : bool := bool_decide (lit (ev_event e) ∈ TERMINAL_EVENTS).

(** ** Errors: the position and the producer's id, never body content *)

Inductive Detail :=
  | SensitiveEvent | UnsafeIdentity | UnsafeBody | BadEventId | BadAgent | BadEvent
  | BodyNotObject | NoSessionId | BadSessionId | NoCwd | BadCwd | BodyOverLimit (len : nat).

Inductive IngressError :=
  | BadProducer | BadActor | UnsafeScope (label : bytes) | BadScope (label : bytes)
  | UnsafeBinding
  | InvalidUrl | NotHttp | UrlUserinfo | UrlQuery | UrlFragment | UrlNoHost
  | BindRefused (e : BindError)
  | NotBound
  | FileUnreadable | FileTooLarge | NotAnEventArray | NoEvents | TooManyEvents (n : nat)
  | InvalidItem (index : nat) (event_id : option bytes) (detail : Detail)
  | EnqueueRefused (e : EnqueueError).

(** A parsed URL, as far as it is read. *)
Record Url := mkUrl {
  scheme : bytes;
  username : bytes;
  password : option bytes;
  query : option bytes;
  fragment : option bytes;
  host_str : option bytes;
  port : option N;
  url_path : bytes;
}.

Section Ingress.
Context {Regex : Type}.
Variable regex_new : bytes → Regex.
Variable captures_iter : Regex → bytes → list Captures.
Variable replace_all : Regex → bytes → (Captures → bytes) → bytes.
Variable to_string : json → bytes.
Variable sha256_hex : bytes → bytes.
Variable url_parse : bytes → option Url.
Variable events_from_slice : bytes → option (list InputEvent).

#[local] Abbreviation reject_sensitive := (reject_sensitive regex_new captures_iter replace_all).

(** ** Namespaces *)

Definition check_producer (producer : bytes) : result unit IngressError :=
  bail_if negb (is_token producer MAX_PRODUCER_LEN) with BadProducer;; Ok tt.

Definition check_actor (actor : bytes) : result unit IngressError :=
  bail_if negb (is_token actor MAX_ACTOR_LEN) with BadActor;; Ok tt.

Definition check_scope (label value : bytes) : result unit IngressError :=
  bail_if negb (is_ok (reject_sensitive (JString value))) with UnsafeScope label;;
  bail_if negb (is_plain value (Z.of_nat MAX_SCOPE_LEN)) with BadScope label;;
  Ok tt.

(** ** The retry identity *)

Definition identity_of (parts : list bytes) : bytes :=
  to_string (JArray (JString <$> lit "external-capture-v1" :: parts)).

Definition ingest_key (producer actor agent session_id source_event event_id : bytes) : bytes :=
  sha256_hex (identity_of [producer; actor; agent; session_id; source_event; event_id]).

(** ** [validate] *)

Definition IDENTITY_KEYS : list bytes :=
  lit <$> ["session_id"; "cwd"; "producer"; "actor"; "event_id"; "agent"; "event"; "ingest_key"]%string.

Definition envelope (input : InputEvent) (producer actor : bytes) : json :=
  JObject [(lit "actor", JString actor); (lit "agent", JString (in_agent input));
           (lit "event", JString (in_event input)); (lit "event_id", JString (in_event_id input));
           (lit "producer", JString producer)].

Definition validate (index : nat) (input : InputEvent) (producer actor : bytes)
    : result ValidEvent IngressError :=
  let fail := InvalidItem index None in
  bail_if negb (is_ok (reject_sensitive (envelope input producer actor))) with fail SensitiveEvent;;
  let identities := omap (λ key, json_get key (in_body input)) IDENTITY_KEYS in
  bail_if negb (is_ok (reject_sensitive (JArray identities))) with fail UnsafeIdentity;;
  match sanitize_external_value regex_new captures_iter replace_all (in_body input) with
  | Err _ => Err (fail UnsafeBody)
  | Ok body =>
      bail_if negb (is_ok (check_body regex_new captures_iter replace_all to_string body))
        with fail UnsafeBody;;
      bail_if negb (is_plain (in_event_id input) (Z.of_nat MAX_EVENT_ID_LEN)) with fail BadEventId;;
      let fail := InvalidItem index (Some (in_event_id input)) in
      bail_if negb (is_token (in_agent input) MAX_AGENT_LEN) with fail BadAgent;;
      bail_if negb (is_token (in_event input) MAX_EVENT_LEN) with fail BadEvent;;
      bail_if negb (is_object body) with fail BodyNotObject;;
      match json_get (lit "session_id") body with
      | Some (JString session_id) =>
          bail_if negb (is_plain session_id (Z.of_nat MAX_SESSION_ID_LEN)) with fail BadSessionId;;
          match json_get (lit "cwd") body with
          | Some (JString cwd) =>
              bail_if negb (is_plain cwd MAX_CWD_LEN) with fail BadCwd;;
              let body_json := to_string body in
              bail_if (MAX_BODY_BYTES <? Z.of_nat (length body_json))%Z
                with fail (BodyOverLimit (length body_json));;
              Ok (mkValidEvent (str (in_event_id input)) (str (in_agent input)) (str (in_event input))
                    (str session_id) (str cwd) (str body_json) (str (sha256_hex body_json))
                    (str (ingest_key producer actor (in_agent input) session_id (in_event input)
                            (in_event_id input))))
          | _ => Err (fail NoCwd)
          end
      | _ => Err (fail NoSessionId)
      end
  end.

(** ** [init] *)

Definition colon : ascii := ":"%char.

(** Decimal digits of a port. *)
Definition digits (n : N) : bytes := lit (pretty n).

Definition normalize_server_url (raw : bytes) : result bytes IngressError :=
  match url_parse raw with
  | None => Err InvalidUrl
  | Some url =>
      bail_if negb (bool_decide (scheme url ∈ [lit "http"; lit "https"])) with NotHttp;;
      bail_if negb (bool_decide (username url = [])) || bool_decide (password url ≠ None)
        with UrlUserinfo;;
      bail_if bool_decide (query url ≠ None) with UrlQuery;;
      bail_if bool_decide (fragment url ≠ None) with UrlFragment;;
      match host_str url with
      | None => Err UrlNoHost
      | Some host =>
          let authority := match port url with
                           | Some port => host ++ [colon] ++ digits port
                           | None => host
                           end in
          let path := drop_end_while (Ascii.eqb "/"%char) (url_path url) in
          Ok (scheme url ++ lit "://" ++ authority ++ path)
      end
  end.

Definition init_binding (server_url producer actor workspace project : bytes)
    : result Binding IngressError :=
  let? _u := check_producer producer in
  let? _u := check_actor actor in
  let? _u := check_scope (lit "workspace") workspace in
  let? _u := check_scope (lit "project") project in
  bail_if negb (is_ok (reject_sensitive
                 (JObject [(lit "actor", JString actor); (lit "producer", JString producer);
                           (lit "server_url", JString server_url)])))
    with UnsafeBinding;;
  let? url := normalize_server_url server_url in
  Ok (mkBinding (str url) (str producer) (str actor) (str workspace) (str project)).

Definition init (server_url producer actor workspace project : bytes) (q : Queue)
    : result (Queue * BindOutcome) IngressError :=
  let? binding := init_binding server_url producer actor workspace project in
  match bind binding q with
  | Ok r => Ok r
  | Err e => Err (BindRefused e)
  end.

(** ** [read_input] and [enqueue] *)

Definition utf8_bom : bytes := ascii_of_nat <$> [239; 187; 191].

(** The file: its size when it was inspected, then its contents when it was
    read.  Reading stops one byte past the limit, so what is read is over the
    limit exactly when the contents are. *)
Record InputFile := mkInputFile { meta_len : Z; file_bytes : option bytes }.

Fixpoint validate_from (index : nat) (producer actor : bytes) (input : list InputEvent)
    : result (list ValidEvent) IngressError :=
  match input with
  | [] => Ok []
  | event :: input' =>
      let? e := validate index event producer actor in
      let? es := validate_from (S index) producer actor input' in
      Ok (e :: es)
  end.

Definition read_input (file : InputFile) (binding : Binding)
    : result (list ValidEvent) IngressError :=
  bail_if (MAX_INPUT_BYTES <? meta_len file)%Z with FileTooLarge;;
  match file_bytes file with
  | None => Err FileUnreadable
  | Some raw =>
      bail_if (MAX_INPUT_BYTES <? Z.of_nat (length raw))%Z with FileTooLarge;;
      let json := match strip_prefix utf8_bom raw with Some rest => rest | None => raw end in
      match events_from_slice json with
      | None => Err NotAnEventArray
      | Some input =>
          bail_if bool_decide (input = []) with NoEvents;;
          bail_if (MAX_INPUT_ITEMS <? Z.of_nat (length input))%Z with TooManyEvents (length input);;
          validate_from 0 (lit (b_producer binding)) (lit (b_actor binding)) input
      end
  end.

Definition enqueue_file (file : InputFile) (now_ms : Z) (q : Queue)
    : result (Queue * EnqueueReport) IngressError :=
  match q_binding q with
  | None => Err NotBound
  | Some binding =>
      let? events := read_input file binding in
      match enqueue events now_ms q with
      | Ok r => Ok r
      | Err e => Err (EnqueueRefused e)
      end
  end.
End Ingress.
