(* ===== verification/ScrubFacts.v ===== *)
(** * What the privacy validation guarantees *)

From S2P Require Export Scrub.

Local Open Scope rust_scope.

(** ** Hidden characters *)

(** A character the scrub keeps at any position but the first. *)
Definition visible_char (ch : utf8_char) : bool := kept_char 1 ch.

(** A text without hidden characters: after a black flag a complete tag run
    may follow, everything else is visible; a byte-order mark may only start
    the text. *)
Fixpoint tidy (offset tags : nat) (cs : list utf8_char) : bool :=
  match cs with
  | [] => true
  | ch :: cs' =>
      let next := offset + length ch in
      match tags with
      | S tags' => tidy next tags' cs'
      | O =>
          if char_is 0x1f3f4 ch then tidy next (emoji_tag_run_len 0 cs') cs'
          else kept_char offset ch && tidy next 0 cs'
      end
  end.

Lemma remove_controls_tidy offset tags cs :
  tidy offset tags cs = true → remove_controls offset tags cs = cs.
Proof.
  revert offset tags; induction cs as [|ch cs IH]; intros offset tags H; [done|].
  cbn [tidy remove_controls] in *. destruct tags as [|tags]; [|by rewrite IH].
  destruct (char_is 0x1f3f4 ch); [by rewrite IH|].
  apply andb_true_iff in H as [-> H]. by rewrite IH.
Qed.

Lemma kept_char_mono offset offset' ch :
  offset' ≤ offset → kept_char offset ch = true → kept_char offset' ch = true.
Proof.
  unfold kept_char, is_hidden_text_char. intros Hle H.
  destruct (Nat.ltb_spec 0 offset'), (Nat.ltb_spec 0 offset); [done|lia| |done].
  rewrite andb_false_r, orb_false_r. rewrite andb_true_r in H.
  apply orb_true_iff in H as [H|H]; [by rewrite H|]. apply orb_true_iff. right.
  apply negb_true_iff in H. apply negb_true_iff. rewrite !orb_false_iff in *. tauto.
Qed.

(** Tag characters are never kept outside a run. *)
Lemma kept_not_tag offset ch :
  kept_char offset ch = true ∨ char_is 0x1f3f4 ch = true →
  char_in 0xe0020 0xe007e ch = false ∧ char_is 0xe007f ch = false.
Proof.
  intros H. destruct (char_in 0xe0000 0xe007f ch) eqn:Hh.
  - exfalso. assert (Hr : (0xe0000 <= code_point ch <= 0xe007f)%N).
    { unfold char_in in Hh. by apply andb_true_iff in Hh as [?%N.leb_le ?%N.leb_le]. }
    assert (Hne : ∀ n, (n < 0xe0000)%N → char_is n ch = false)
      by (intros n Hn; unfold char_is; apply N.eqb_neq; lia).
    destruct H as [H|H]; [|by rewrite Hne in H].
    unfold kept_char, is_hidden_text_char in H. rewrite !Hne, Hh in H by done.
    by rewrite !orb_true_r in H.
  - unfold char_in, char_is in *. apply andb_false_iff in Hh.
    rewrite andb_false_iff, N.eqb_neq, !N.leb_gt in *. lia.
Qed.

Lemma run_len_outside len offset cs : emoji_tag_run_len len (remove_controls offset 0 cs) = 0.
Proof.
  revert offset; induction cs as [|ch cs IH]; intros offset; cbn [remove_controls]; [done|].
  destruct (char_is 0x1f3f4 ch) eqn:Hf.
  - destruct (kept_not_tag offset ch) as [H1 H2]; [by right|]. cbn [emoji_tag_run_len].
    by rewrite H1, H2.
  - destruct (kept_char offset ch) eqn:Hk; [|apply IH].
    destruct (kept_not_tag offset ch) as [H1 H2]; [by left|]. cbn [emoji_tag_run_len].
    by rewrite H1, H2.
Qed.

Lemma run_len_more len cs : emoji_tag_run_len len cs = 0 ∨ len < emoji_tag_run_len len cs.
Proof.
  revert len; induction cs as [|ch cs IH]; intros len; cbn [emoji_tag_run_len]; [by left|].
  destruct (char_in _ _ ch).
  - destruct (IH (S len)); [by left|right; lia].
  - destruct (_ && _); [right; lia|by left].
Qed.

Lemma run_len_remove len offset cs :
  emoji_tag_run_len len (remove_controls offset (emoji_tag_run_len len cs - len) cs)
  = emoji_tag_run_len len cs.
Proof.
  revert len offset; induction cs as [|ch cs IH]; intros len offset; [done|].
  destruct (run_len_more len (ch :: cs)) as [E|Hlt].
  { rewrite E. apply run_len_outside. }
  cbn [emoji_tag_run_len] in *. destruct (char_in 0xe0020 0xe007e ch) eqn:Ht.
  - replace (emoji_tag_run_len (S len) cs - len)
      with (S (emoji_tag_run_len (S len) cs - S len)) by lia.
    cbn [remove_controls emoji_tag_run_len]. by rewrite Ht, IH.
  - destruct (char_is 0xe007f ch && (0 <? len)) eqn:Hc; [|lia].
    replace (S len - len) with 1 by lia. cbn [remove_controls emoji_tag_run_len].
    by rewrite Ht, Hc.
Qed.

Lemma tidy_remove_controls offset offset' tags cs :
  offset' ≤ offset → tidy offset' tags (remove_controls offset tags cs) = true.
Proof.
  revert offset offset' tags; induction cs as [|ch cs IH]; intros offset offset' tags Hle; [done|].
  cbn [remove_controls]. destruct tags as [|tags]; [|cbn [tidy]; apply IH; lia].
  destruct (char_is 0x1f3f4 ch) eqn:Hf.
  - cbn [tidy]. rewrite Hf. pose proof (run_len_remove 0 (offset + length ch) cs) as Hr.
    rewrite Nat.sub_0_r in Hr. rewrite Hr. apply IH. lia.
  - destruct (kept_char offset ch) eqn:Hk; [|apply IH; lia].
    cbn [tidy]. rewrite Hf, (kept_char_mono _ _ _ Hle Hk). apply IH. lia.
Qed.

Lemma remove_controls_sublist offset tags cs : sublist (remove_controls offset tags cs) cs.
Proof.
  revert offset tags; induction cs as [|ch cs IH]; intros offset tags; cbn [remove_controls]; [done|].
  destruct tags; [|by constructor].
  repeat case_match; by constructor.
Qed.

Lemma sublist_concat {A} (l k : list (list A)) : sublist l k → sublist (concat l) (concat k).
Proof. induction 1; simpl; [done|by apply sublist_app|by apply sublist_inserts_l]. Qed.

(** ** Values *)

Lemma Forall2_diag_inv {A} (R : A → A → Prop) l : Forall2 R l l → Forall (λ x, R x x) l.
Proof. induction l as [|x l IH]; intros H; [constructor|]. inversion H; subst. constructor; auto. Qed.

Section ScrubFacts.
Context {Regex : Type}.
Variable regex_new : bytes → Regex.
Variable captures_iter : Regex → bytes → list Captures.
Variable replace_all : Regex → bytes → (Captures → bytes) → bytes.

#[local] Abbreviation scrub := (sanitize_external_text regex_new captures_iter replace_all).
#[local] Abbreviation sanitize_value := (sanitize_value regex_new captures_iter replace_all).
#[local] Abbreviation sanitize_external_value :=
  (sanitize_external_value regex_new captures_iter replace_all).
#[local] Abbreviation reject_sensitive := (reject_sensitive regex_new captures_iter replace_all).

(** A value with nothing to redact: every text and key is what the scrub
    makes of it, and every sensitive key holds the redaction mark. *)
Inductive clean : json → Prop :=
  | clean_null : clean JNull
  | clean_bool b : clean (JBool b)
  | clean_number n : clean (JNumber n)
  | clean_string t : scrub t = t → clean (JString t)
  | clean_array items : Forall clean items → clean (JArray items)
  | clean_object fields : Forall clean_field fields → clean (JObject fields)
with clean_field : bytes * json → Prop :=
  | field_redacted k :
      scrub k = k → sensitive_key k (JString REDACTED) = true → clean_field (k, JString REDACTED)
  | field_plain k v : scrub k = k → sensitive_key k v = false → clean v → clean_field (k, v).

Lemma bounded_text_any_depth t d : bounded_text t d = Ok tt → bounded_text t 0 = Ok tt.
Proof. unfold bounded_text. intros H. peel_ok. by rewrite Hg0. Qed.

Lemma bounded_string t d : bounded (JString t) d = Ok tt → bounded_text t 0 = Ok tt.
Proof. cbn [bounded]. intros H. peel_ok. by eapply bounded_text_any_depth. Qed.

Lemma reject_text_Ok t u :
  reject_text regex_new captures_iter replace_all t = Ok u ↔
  bounded_text t 0 = Ok tt ∧ scrub t = t.
Proof.
  unfold reject_text. destruct (bounded_text t 0) as [[]|e]; cbn [result_bind]; [|naive_solver].
  destruct u. case_bool_decide; simpl; naive_solver.
Qed.

Lemma bounded_array items d : bounded (JArray items) d = Ok tt → Forall (λ i, bounded i (S d) = Ok tt) items.
Proof.
  cbn [bounded]. destruct (64 <? d); [done|]. intros H%try_for_each_Ok. done.
Qed.

Lemma bounded_object fields d :
  bounded (JObject fields) d = Ok tt →
  Forall (λ f, bounded_text (fst f) 0 = Ok tt ∧ bounded (snd f) (S d) = Ok tt) fields.
Proof.
  cbn [bounded]. destruct (64 <? d); [done|]. intros H%try_for_each_Ok.
  eapply Forall_impl; [exact H|]. intros [k v]. simpl.
  destruct (bounded_text k (S d)) as [[]|e] eqn:E; [|done].
  intros Hv. split; [by eapply bounded_text_any_depth|done].
Qed.

(** A value is its own sanitized form exactly when it is clean. *)
Lemma sanitize_value_fixed v d :
  bounded v d = Ok tt → (sanitize_value v = Ok v ↔ clean v).
Proof.
  revert d; induction v as [| | |t|items IH|fields IH] using json_nested_ind; intros d Hb;
    cbn [Scrub.sanitize_value]; try (split; [constructor|done]).
  - split; [intros [= ?]; by constructor|]. inversion 1; congruence.
  - apply bounded_array in Hb. split.
    + destruct (try_map _ items) as [items'|e] eqn:E; [|done]. intros [= ->].
      apply try_map_Ok, Forall2_diag_inv in E. constructor.
      rewrite Forall_forall in IH. rewrite Forall_forall in Hb. rewrite Forall_forall in E.
      apply Forall_forall. intros i Hi. eapply IH; eauto.
    + inversion 1 as [| | | |? Hc|]; subst.
      assert (E : try_map sanitize_value items = Ok items); [|by rewrite E].
      apply try_map_Ok, Forall_Forall2_diag. rewrite Forall_forall in IH. rewrite Forall_forall in Hb.
      rewrite Forall_forall in Hc. apply Forall_forall. intros i Hi. eapply IH; eauto.
  - apply bounded_object in Hb. split.
    + destruct (try_map _ fields) as [fields'|e] eqn:E; [|done]. intros [= ->].
      apply try_map_Ok, Forall2_diag_inv in E. constructor.
      rewrite Forall_forall in IH. rewrite Forall_forall in Hb. rewrite Forall_forall in E.
      apply Forall_forall. intros [k v] Hi. specialize (E _ Hi). specialize (IH _ Hi).
      specialize (Hb _ Hi). simpl in *. destruct (reject_text _ _ _ k) as [u|] eqn:Hr; [|done].
      apply reject_text_Ok in Hr as [_ Hk].
      destruct (sensitive_key k v) eqn:Hs.
      * injection E as <-. by apply field_redacted.
      * destruct (sanitize_value v) as [v'|] eqn:Hv; [|done]. injection E as ->.
        apply field_plain; [done..|]. eapply IH; [apply Hb|done].
    + inversion 1 as [| | | | |? Hc]; subst.
      match goal with |- match ?t with _ => _ end = _ => assert (E : t = Ok fields); [|by rewrite E] end.
      apply try_map_Ok, Forall_Forall2_diag. rewrite Forall_forall in IH. rewrite Forall_forall in Hb.
      rewrite Forall_forall in Hc. apply Forall_forall. intros [k v] Hi.
      specialize (Hc _ Hi). specialize (IH _ Hi). destruct (Hb _ Hi) as [Hbk Hbv]. simpl in *.
      assert (Hr : reject_text regex_new captures_iter replace_all k = Ok tt)
        by (apply reject_text_Ok; split; [done|by inversion Hc]).
      rewrite Hr. inversion Hc as [? ? Hs|? ? ? Hs Hv]; subst; rewrite Hs; [done|].
      by rewrite (proj2 (IH (S d) Hbv) Hv).
Qed.

Lemma reject_sensitive_clean v u :
  reject_sensitive v = Ok u ↔ bounded v 0 = Ok tt ∧ clean v.
Proof.
  unfold Scrub.reject_sensitive, Scrub.sanitize_external_value.
  destruct (bounded v 0) as [[]|e] eqn:Hb; cbn [result_bind]; [|naive_solver].
  rewrite <- (sanitize_value_fixed v 0 Hb).
  destruct (sanitize_value v) as [v'|e]; cbn [result_bind]; [|naive_solver].
  destruct u. case_bool_decide; simpl; naive_solver.
Qed.

(** ** What sanitation leaves of a value *)

(** [field_of v k x]: some object inside [v] has the field [k: x]. *)
Inductive field_of : json → bytes → json → Prop :=
  | field_here fields k x : (k, x) ∈ fields → field_of (JObject fields) k x
  | field_in_item items i k x : i ∈ items → field_of i k x → field_of (JArray items) k x
  | field_in_field fields k' v k x : (k', v) ∈ fields → field_of v k x → field_of (JObject fields) k x.

(** [text_of v t]: [t] is a string value inside [v]. *)
Inductive text_of : json → bytes → Prop :=
  | text_here t : text_of (JString t) t
  | text_in_item items i t : i ∈ items → text_of i t → text_of (JArray items) t
  | text_in_field fields k v t : (k, v) ∈ fields → text_of v t → text_of (JObject fields) t.

Definition redacted (v v' : json) : Prop :=
  (∀ k x, field_of v' k x → scrub k = k ∧ (x = JString REDACTED ∨ sensitive_key k x = false)) ∧
  (∀ t, text_of v' t → t = REDACTED ∨ ∃ t0, t = scrub t0 ∧ text_of v t0).

Lemma sanitize_is_number v v' : sanitize_value v = Ok v' → is_number v' = is_number v.
Proof. destruct v; cbn [Scrub.sanitize_value]; repeat case_match; intros; by simplify_eq. Qed.

Lemma sensitive_key_number k v v' : is_number v' = is_number v → sensitive_key k v' = sensitive_key k v.
Proof. unfold sensitive_key. by intros ->. Qed.

(** What the walk makes of one field. *)
Lemma sanitize_field_Ok k v kv' :
  match reject_text regex_new captures_iter replace_all k with
  | Ok _ =>
      if sensitive_key k v then Ok (k, JString REDACTED)
      else match sanitize_value v with Ok v' => Ok (k, v') | Err e => Err e end
  | Err e => Err e
  end = Ok kv' →
  fst kv' = k ∧ scrub k = k ∧
  (sensitive_key k v = true ∧ snd kv' = JString REDACTED
   ∨ sensitive_key k v = false ∧ sanitize_value v = Ok (snd kv')).
Proof.
  destruct (reject_text _ _ _ k) as [u|] eqn:Hr; [|done]. apply reject_text_Ok in Hr as [_ Hk].
  destruct (sensitive_key k v) eqn:Hs; [intros [= <-]; naive_solver|].
  destruct (sanitize_value v) as [v'|]; [|done]. intros [= <-]. naive_solver.
Qed.

Lemma sanitize_array_inv items v' :
  sanitize_value (JArray items) = Ok v' →
  ∃ items', v' = JArray items' ∧ Forall2 (λ x y, sanitize_value x = Ok y) items items'.
Proof.
  cbn [Scrub.sanitize_value]. destruct (try_map _ items) as [items'|e] eqn:E; [|done].
  intros [= <-]. apply try_map_Ok in E. eauto.
Qed.

Lemma sanitize_object_inv fields v' :
  sanitize_value (JObject fields) = Ok v' →
  ∃ fields', v' = JObject fields' ∧
    Forall2 (λ f f', fst f' = fst f ∧ scrub (fst f) = fst f ∧
      (sensitive_key (fst f) (snd f) = true ∧ snd f' = JString REDACTED
       ∨ sensitive_key (fst f) (snd f) = false ∧ sanitize_value (snd f) = Ok (snd f'))) fields fields'.
Proof.
  cbn [Scrub.sanitize_value]. destruct (try_map _ fields) as [fields'|e] eqn:E; [|done].
  intros [= <-]. apply try_map_Ok in E. exists fields'. split; [done|].
  eapply Forall2_impl; [exact E|]. intros [k v] kv' H. by apply sanitize_field_Ok in H.
Qed.

Lemma sanitize_value_redacted v v' : sanitize_value v = Ok v' → redacted v v'.
Proof.
  revert v'; induction v as [| | |t|items IH|fields IH] using json_nested_ind; intros v' H.
  1-3: injection H as <-; split; [inversion 1|inversion 1].
  - injection H as <-. split; [inversion 1|]. intros t' Ht. inversion Ht; subst. right.
    eexists. split; [done|constructor].
  - apply sanitize_array_inv in H as (items' & -> & H2). rewrite Forall_forall in IH. split.
    + intros k x Hf. inversion Hf as [|? i ? ? Hi Hin|]; subst.
      apply list_elem_of_lookup in Hi as [n Hn].
      destruct (Forall2_lookup_r _ _ _ _ _ H2 Hn) as (i0 & Hi0 & Hs).
      apply list_elem_of_lookup_2 in Hi0. exact (proj1 (IH _ Hi0 _ Hs) _ _ Hin).
    + intros t Ht. inversion Ht as [|? i ? Hi Hin|]; subst.
      apply list_elem_of_lookup in Hi as [n Hn].
      destruct (Forall2_lookup_r _ _ _ _ _ H2 Hn) as (i0 & Hi0 & Hs).
      apply list_elem_of_lookup_2 in Hi0. destruct (proj2 (IH _ Hi0 _ Hs) _ Hin) as [?|(t0 & ? & ?)];
        [by left|right]. exists t0. split; [done|]. by eapply text_in_item.
  - apply sanitize_object_inv in H as (fields' & -> & H2). rewrite Forall_forall in IH.
    assert (Hback : ∀ k v', (k, v') ∈ fields' → ∃ v0, (k, v0) ∈ fields ∧ scrub k = k ∧
      (v' = JString REDACTED ∨ sensitive_key k v0 = false ∧ sanitize_value v0 = Ok v')).
    { intros k v' [n Hn]%list_elem_of_lookup.
      destruct (Forall2_lookup_r _ _ _ _ _ H2 Hn) as ([k0 v0] & Hi0 & Hk & Hs & Hv). simpl in *.
      subst k0. apply list_elem_of_lookup_2 in Hi0. exists v0. naive_solver. }
    split.
    + intros k x Hf. inversion Hf as [? ? ? Hin| |? k' v' ? ? Hin Hf']; subst.
      * destruct (Hback _ _ Hin) as (v0 & _ & Hk & [->|[Hs Hv]]); [naive_solver|].
        split; [done|]. right. rewrite <- Hs.
        apply sensitive_key_number. by apply sanitize_is_number.
      * destruct (Hback _ _ Hin) as (v0 & Hi0 & Hk & [->|[Hs Hv]]); [by inversion Hf'|].
        exact (proj1 (IH _ Hi0 _ Hv) _ _ Hf').
    + intros t Ht. inversion Ht as [| |? k' v' ? Hin Ht']; subst.
      destruct (Hback _ _ Hin) as (v0 & Hi0 & Hk & [->|[Hs Hv]]).
      * inversion Ht'; subst. by left.
      * destruct (proj2 (IH _ Hi0 _ Hv) _ Ht') as [?|(t0 & ? & ?)]; [by left|right].
        exists t0. split; [done|]. by eapply text_in_field.
Qed.

(** Looking a key up commutes with sanitation. *)
Lemma json_get_sanitize key v v' :
  sanitize_value v = Ok v' →
  match json_get key v with
  | None => json_get key v' = None
  | Some x => ∃ x', json_get key v' = Some x' ∧
      (sensitive_key key x = true ∧ x' = JString REDACTED
       ∨ sensitive_key key x = false ∧ sanitize_value x = Ok x')
  end.
Proof.
  destruct v as [| | | |items|fields]; intros H.
  1-3: by injection H as <-. 1: by injection H as <-.
  - by apply sanitize_array_inv in H as (items' & -> & _).
  - apply sanitize_object_inv in H as (fields' & -> & H2). unfold json_get.
    induction H2 as [|[k x] [k' x'] fields fields' (Hk & _ & Hx) H2 IH]; [done|].
    simpl in Hk, Hx. subst k'. rewrite !filter_cons. simpl.
    destruct (decide (k = key)) as [->|]; [|exact IH]. simpl. eauto.
Qed.
End ScrubFacts.

(** Hidden characters are gone: what the scrub passes to its patterns is
    the text with some characters deleted, in which every character is visible
    apart from a complete flag tag run and a leading byte-order mark; a text
    that was already so is returned unchanged, so scrubbing twice removes
    nothing more. *)
Theorem controls_removed_tidy input :
  valid_utf8 input = true →
  let out := controls_removed input in
  sublist out input ∧ valid_utf8 out = true ∧ tidy 0 0 (chars out) = true ∧
  controls_removed out = out ∧ (tidy 0 0 (chars input) = true → out = input).
Proof.
  intros Hv out.
  pose proof (remove_controls_sublist 0 0 (chars input)) as Hs.
  destruct (chars_concat (remove_controls 0 0 (chars input))) as [Hc Hvo].
  { eapply Forall_sublist; [exact Hs|]. by apply chars_encoded. }
  fold (controls_removed input) in Hc, Hvo. fold out in Hc, Hvo.
  assert (Ht : tidy 0 0 (chars out) = true) by (rewrite Hc; by apply tidy_remove_controls).
  split_and!; [|done|done| |].
  - rewrite <- (concat_chars input). by apply sublist_concat.
  - unfold controls_removed at 1. rewrite remove_controls_tidy by done. apply concat_chars.
  - intros Hi. unfold out, controls_removed. rewrite remove_controls_tidy by done. apply concat_chars.
Qed.

(** An envelope is accepted exactly when it is within the size and nesting
    limits and clean: every text and every key is what the scrub makes of it,
    and every sensitive key holds the redaction mark. *)
Theorem reject_sensitive_iff_clean {Regex} (regex_new : bytes → Regex) captures_iter replace_all v :
  reject_sensitive regex_new captures_iter replace_all v = Ok tt ↔
  bounded v 0 = Ok tt ∧ clean regex_new captures_iter replace_all v.
Proof. apply reject_sensitive_clean. Qed.

Lemma controls_removed_tidy_witness :
  let input := ascii_of_N <$> [226; 128; 174; 97; 7; 98]%N in
  controls_removed input = lit "ab" ∧
  let out := controls_removed input in
  sublist out input ∧ valid_utf8 out = true ∧ tidy 0 0 (chars out) = true ∧
  controls_removed out = out ∧ (tidy 0 0 (chars input) = true → out = input).
Proof. split; [vm_compute; reflexivity|]. apply controls_removed_tidy. vm_compute. reflexivity. Defined.
