(* ===== verification/RelayIngressFacts.v ===== *)
(** * What entering the relay guarantees *)

From S2P Require Export RelayFlush RelayIngress ScrubFacts.

Local Open Scope rust_scope.

Lemma is_ok_true {A E} (r : result A E) : negb (is_ok r) = false ↔ ∃ a, r = Ok a.
Proof. destruct r; simpl; naive_solver. Qed.

(** The keys of the native identity are not credentials, whatever they hold. *)
Lemma native_keys_kept v :
  sensitive_key (lit "session_id") v = false ∧ sensitive_key (lit "cwd") v = false.
Proof. destruct v; split; vm_compute; reflexivity. Qed.

Lemma envelope_keys_kept t :
  Forall (λ k, sensitive_key k (JString t) = false)
    (lit <$> ["actor"; "agent"; "event"; "event_id"; "producer"]%string).
Proof. repeat constructor. Qed.

Section IngressFacts.
Context {Regex : Type}.
Variable regex_new : bytes → Regex.
Variable captures_iter : Regex → bytes → list Captures.
Variable replace_all : Regex → bytes → (Captures → bytes) → bytes.
Variable to_string : json → bytes.
Variable sha256_hex : bytes → bytes.

#[local] Abbreviation sanitize_value := (sanitize_value regex_new captures_iter replace_all).
#[local] Abbreviation sanitize_external_value :=
  (sanitize_external_value regex_new captures_iter replace_all).
#[local] Abbreviation reject_sensitive := (reject_sensitive regex_new captures_iter replace_all).
#[local] Abbreviation check_body := (check_body regex_new captures_iter replace_all to_string).
#[local] Abbreviation clean := (clean regex_new captures_iter replace_all).
#[local] Abbreviation redacted := (redacted regex_new captures_iter replace_all).
#[local] Abbreviation validate := (validate regex_new captures_iter replace_all to_string sha256_hex).
#[local] Abbreviation ingest_key := (ingest_key to_string sha256_hex).

(** A text that may be sent. *)
Definition safe_text (t : bytes) : Prop := bounded_text t 0 = Ok tt ∧ clean (JString t).

Lemma bounded_text_lower t d : d ≤ 64 → bounded_text t 0 = Ok tt → bounded_text t d = Ok tt.
Proof.
  unfold bounded_text. intros Hd H. peel_ok. rewrite Hg0.
  by rewrite (proj2 (Nat.ltb_ge 64 d) Hd).
Qed.

Lemma reject_sensitive_texts ts :
  Forall safe_text ts → reject_sensitive (JArray (JString <$> ts)) = Ok tt.
Proof.
  intros H. apply reject_sensitive_clean. split.
  - cbn [bounded]. apply try_for_each_Ok, Forall_fmap. eapply Forall_impl; [exact H|].
    intros t [Hb _]. simpl. by apply bounded_text_lower; [lia|].
  - constructor. apply Forall_fmap. eapply Forall_impl; [exact H|]. by intros t [_ Hc].
Qed.

Lemma clean_plain_field k v :
  sensitive_key k v = false → clean_field regex_new captures_iter replace_all (k, v) → clean v.
Proof. intros Hs H. inversion H; [congruence|done]. Qed.

(** The texts of an accepted envelope may be sent. *)
Lemma envelope_safe input producer actor :
  reject_sensitive (envelope input producer actor) = Ok tt →
  Forall safe_text [in_agent input; in_event input; in_event_id input].
Proof.
  intros [Hb Hc]%reject_sensitive_clean. unfold envelope in *.
  apply bounded_object in Hb. rewrite !Forall_cons in Hb. cbn [fst snd] in Hb.
  inversion Hc as [| | | | |? Hf]; subst. rewrite !Forall_cons in Hf.
  destruct Hb as (_ & (_ & Hb1) & (_ & Hb2) & (_ & Hb3) & _).
  destruct Hf as (_ & Hf1 & Hf2 & Hf3 & _).
  pose proof (envelope_keys_kept (in_agent input)) as H1.
  pose proof (envelope_keys_kept (in_event input)) as H2.
  pose proof (envelope_keys_kept (in_event_id input)) as H3.
  rewrite !fmap_cons, !Forall_cons in H1, H2, H3.
  rewrite !Forall_cons. split_and!; [| | |constructor];
    (split; [by eapply bounded_string|]).
  - eapply clean_plain_field; [|exact Hf1]. tauto.
  - eapply clean_plain_field; [|exact Hf2]. tauto.
  - eapply clean_plain_field; [|exact Hf3]. tauto.
Qed.

(** An identity field of the body that was accepted survives sanitation as it
    is. *)
Lemma identity_kept body body' key t :
  key ∈ IDENTITY_KEYS → (∀ v, sensitive_key key v = false) →
  reject_sensitive (JArray (omap (λ key, json_get key body) IDENTITY_KEYS)) = Ok tt →
  sanitize_value body = Ok body' → json_get key body' = Some (JString t) →
  json_get key body = Some (JString t) ∧ safe_text t.
Proof.
  intros Hin Hk [Hb Hc]%reject_sensitive_clean Hs Hget.
  pose proof (json_get_sanitize _ _ _ key _ _ Hs) as Hj.
  destruct (json_get key body) as [x|] eqn:Hx; [|congruence].
  destruct Hj as (x' & Hx' & [[Hsk _]|[_ Hsx]]); [by rewrite Hk in Hsk|].
  assert (x' = JString t) as -> by congruence.
  assert (Hel : x ∈ omap (λ key, json_get key body) IDENTITY_KEYS).
  { apply list_elem_of_omap. by exists key. }
  inversion Hc as [| | | |? Hcl|]; subst. rewrite Forall_forall in Hcl. specialize (Hcl _ Hel).
  apply bounded_array in Hb. rewrite Forall_forall in Hb. specialize (Hb _ Hel).
  pose proof (proj2 (sanitize_value_fixed _ _ _ x 1 Hb) Hcl) as Hfix.
  assert (x = JString t) as -> by congruence.
  split; [done|]. split; [|done]. by eapply bounded_string.
Qed.

(** Everything an accepted event satisfies. *)
Record accepted_event (input : InputEvent) (producer actor : bytes) (ev : ValidEvent)
    (body : json) (session_id cwd : bytes) : Prop := {
  ae_body : sanitize_external_value (in_body input) = Ok body;
  ae_check : check_body body = Ok tt;
  ae_session : json_get (lit "session_id") (in_body input) = Some (JString session_id);
  ae_cwd : json_get (lit "cwd") (in_body input) = Some (JString cwd);
  ae_safe : Forall safe_text [in_agent input; in_event input; in_event_id input; session_id];
  ae_bounds :
    is_plain (in_event_id input) (Z.of_nat MAX_EVENT_ID_LEN) = true ∧
    is_token (in_agent input) MAX_AGENT_LEN = true ∧
    is_token (in_event input) MAX_EVENT_LEN = true ∧
    is_plain session_id (Z.of_nat MAX_SESSION_ID_LEN) = true ∧
    is_plain cwd MAX_CWD_LEN = true ∧
    (Z.of_nat (length (to_string body)) ≤ MAX_BODY_BYTES)%Z;
  ae_event :
    ev = mkValidEvent (str (in_event_id input)) (str (in_agent input)) (str (in_event input))
           (str session_id) (str cwd) (str (to_string body)) (str (sha256_hex (to_string body)))
           (str (ingest_key producer actor (in_agent input) session_id (in_event input)
                   (in_event_id input)));
}.

Lemma validate_accepted index input producer actor ev :
  validate index input producer actor = Ok ev →
  ∃ body session_id cwd, accepted_event input producer actor ev body session_id cwd.
Proof.
  unfold RelayIngress.validate. intros H. peel_ok.
  apply is_ok_true in Hg as [[] Henv]. apply is_ok_true in Hg0 as [[] Hid].
  destruct (sanitize_external_value (in_body input)) as [body|e] eqn:Hs; [|done]. peel_ok.
  apply is_ok_true in Hg as [[] Hchk].
  destruct (json_get (lit "session_id") body) as [[]|] eqn:Hsid; try done. peel_ok.
  destruct (json_get (lit "cwd") body) as [[]|] eqn:Hcwd; try done. peel_ok.
  assert (Hsv : sanitize_value (in_body input) = Ok body)
    by (unfold Scrub.sanitize_external_value in Hs; by peel_ok).
  destruct (identity_kept (in_body input) body (lit "session_id") s) as [Hs1 Hs2]; try done.
  { by left. } { intros v. apply native_keys_kept. }
  destruct (identity_kept (in_body input) body (lit "cwd") s0) as [Hs3 Hs4]; try done.
  { right. by left. } { intros v. apply native_keys_kept. }
  apply envelope_safe in Henv. rewrite !Forall_cons in Henv.
  exists body, s, s0. constructor; try done.
  - rewrite !Forall_cons. tauto.
  - repeat match goal with Hx : negb _ = false |- _ => apply negb_false_iff in Hx end.
    split_and!; try done. lia.
Qed.

(** A validated event carries nothing it must not: its body is the
    submitted one with every text scrubbed and every sensitive key redacted,
    it claims no authority, its native session id and working directory are
    the submitted ones untouched, its texts are within their limits and it is
    persisted as the exact bytes it is hashed from. *)
Theorem validated_event_private index input producer actor ev :
  validate index input producer actor = Ok ev →
  ∃ body session_id cwd,
    accepted_event input producer actor ev body session_id cwd ∧
    redacted (in_body input) body ∧ bounded body 0 = Ok tt ∧ clean body ∧
    Forall (λ key, json_get key body = None) AUTHORITY_KEYS.
Proof.
  intros (body & sid & cwd & Hacc)%validate_accepted. exists body, sid, cwd. split; [done|].
  destruct Hacc as [Hbody Hchk _ _ _ _ _]. split.
  { apply sanitize_value_redacted. unfold Scrub.sanitize_external_value in Hbody. by peel_ok. }
  unfold Scrub.check_body in Hchk. peel_ok. apply reject_sensitive_clean in Hr as [Hb Hc].
  split_and!; [done..|]. apply orb_false_iff in Hg as [_ Ha].
  apply Forall_forall. intros key Hkey.
  destruct (json_get key body) as [x|] eqn:Hx; [|done]. exfalso.
  assert (existsb (λ key, match json_get key body with Some _ => true | None => false end)
            AUTHORITY_KEYS = true); [|congruence].
  apply existsb_exists. exists key. rewrite Hx. split; [by apply list_elem_of_In|done].
Qed.

(** The client's functions as the flush calls them. *)
Variable from_str : bytes → option json.
Variable form_encode : list (string * string) → string.

Definition flush_parse_body (s : string) : option json := from_str (lit s).
Definition flush_check_body (v : json) : bool := is_ok (check_body v).
Definition flush_not_sensitive (texts : list string) : bool :=
  is_ok (reject_sensitive (match texts with
                           | [t] => JString (lit t)
                           | _ => JArray ((λ t, JString (lit t)) <$> texts)
                           end)).

#[local] Abbreviation wire_item :=
  (wire_item flush_parse_body form_encode flush_not_sensitive flush_check_body).

(** The row of an event, at any later point of its life. *)
Definition row_of_event (ev : ValidEvent) (item : PendingItem) : Prop :=
  i_event_id item = ev_event_id ev ∧ i_agent item = ev_agent ev ∧ i_event item = ev_event ev ∧
  i_session_id item = ev_session_id ev ∧ i_body_json item = ev_body_json ev.

(** A validated event is never dropped for its content: whatever queue it
    is delivered from, once serde_json reads back the body it printed, the
    only check of the flush that can still refuse the event is the one on the
    URL built from the queue's binding. *)
Theorem validated_event_deliverable index input producer actor ev b item :
  validate index input producer actor = Ok ev → row_of_event ev item →
  (∀ body, sanitize_external_value (in_body input) = Ok body → from_str (to_string body) = Some body) →
  let url := item_url form_encode (b_server_url b) b item in
  ∃ body, sanitize_external_value (in_body input) = Ok body ∧
    wire_item b item = if flush_not_sensitive [url] then Some (mkBatchItem url body) else None.
Proof.
  intros (body & sid & cwd & Hacc)%validate_accepted (He1 & He2 & He3 & He4 & He5) Hserde url.
  destruct Hacc as [Hbody Hchk _ _ Hsafe _ ->]. exists body. split; [done|]. simpl in *.
  unfold RelayFlush.wire_item, flush_parse_body. rewrite He5, lit_str, Hserde by done.
  fold url. unfold flush_check_body. rewrite Hchk. cbn [is_ok].
  assert (Hn : flush_not_sensitive [i_event_id item; i_agent item; i_event item; i_session_id item] = true).
  { unfold flush_not_sensitive. rewrite He1, He2, He3, He4. simpl. rewrite !lit_str.
    rewrite !Forall_cons in Hsafe.
    assert (Ht : reject_sensitive (JArray (JString <$>
      [in_event_id input; in_agent input; in_event input; sid])) = Ok tt).
    { apply reject_sensitive_texts. rewrite !Forall_cons. tauto. }
    simpl in Ht. by rewrite Ht. }
  by rewrite Hn.
Qed.
End IngressFacts.

(** The retry identity: two validated events of any producers with the
    same ingest key name the same producer, actor, agent, session, event and
    event id, unless two different texts have the same SHA-256; the payload
    plays no part in it. *)
Theorem retry_identity {Regex} (regex_new : bytes → Regex) captures_iter replace_all to_string
    sha256_hex i i' input input' p p' a a' ev ev' :
  (∀ ts ts' : list bytes, to_string (JArray (JString <$> ts)) = to_string (JArray (JString <$> ts')) → ts = ts') →
  validate regex_new captures_iter replace_all to_string sha256_hex i input p a = Ok ev →
  validate regex_new captures_iter replace_all to_string sha256_hex i' input' p' a' = Ok ev' →
  ev_ingest_key ev = ev_ingest_key ev' →
  (p = p' ∧ a = a' ∧ in_agent input = in_agent input' ∧ ev_session_id ev = ev_session_id ev' ∧
   in_event input = in_event input' ∧ in_event_id input = in_event_id input') ∨
  ∃ x y, x ≠ y ∧ sha256_hex x = sha256_hex y.
Proof.
  intros Hserde (b & sid & cwd & H)%validate_accepted (b' & sid' & cwd' & H')%validate_accepted Hk.
  destruct H as [_ _ _ _ _ _ ->], H' as [_ _ _ _ _ _ ->]. simpl in *. apply str_inj in Hk.
  unfold ingest_key in Hk.
  destruct (decide (identity_of to_string [p; a; in_agent input; sid; in_event input; in_event_id input]
    = identity_of to_string [p'; a'; in_agent input'; sid'; in_event input'; in_event_id input']))
    as [E|Hne]; [left|right; eauto].
  apply Hserde in E. simplify_eq. done.
Qed.

(** ** A concrete event

    Patterns that match nothing, a printer that frames the strings of an array
    by their length, and the identity for SHA-256. *)

Definition no_captures (_ _ : bytes) : list Captures := [].
Definition keep_text (_ text : bytes) (_ : Captures → bytes) : bytes := text.

Definition framed (s : bytes) : bytes := replicate (length s) "1"%char ++ "0"%char :: s.

Definition demo_to_string (v : json) : bytes :=
  match v with
  | JArray items => concat (framed <$> omap as_str items)
  | _ => lit "{}"
  end.

Lemma replicate_cut n m (x y : bytes) :
  replicate n "1"%char ++ "0"%char :: x = replicate m "1"%char ++ "0"%char :: y → n = m ∧ x = y.
Proof.
  revert m; induction n as [|n IH]; intros [|m]; simpl; intros H; try discriminate H.
  - by injection H as ->.
  - injection H as H. by apply IH in H as [-> ->].
Qed.

Lemma framed_inj s t x y : framed s ++ x = framed t ++ y → s = t ∧ x = y.
Proof.
  unfold framed. rewrite <- !app_assoc. intros [Hl H]%replicate_cut. by apply app_inj_1.
Qed.

Lemma demo_to_string_inj ts ts' :
  demo_to_string (JArray (JString <$> ts)) = demo_to_string (JArray (JString <$> ts')) → ts = ts'.
Proof.
  revert ts'; induction ts as [|t ts IH]; intros [|t' ts'] H; [done| | |].
  - apply (f_equal length) in H. simpl in H. unfold framed in H. rewrite !length_app in H. simpl in H. lia.
  - apply (f_equal length) in H. simpl in H. unfold framed in H. rewrite !length_app in H. simpl in H. lia.
  - simpl in H. apply framed_inj in H as [-> H]. f_equal. by apply IH.
Qed.

Definition demo_body : json :=
  JObject [(lit "apiToken", JString (lit "abc")); (lit "cwd", JString (lit "/w"));
           (lit "session_id", JString (lit "s1"))].
Definition demo_input : InputEvent :=
  mkInputEvent (lit "run/1") (lit "codex") (lit "session-end") demo_body.

Definition demo_validate (index : nat) (input : InputEvent) : result ValidEvent IngressError :=
  validate id no_captures keep_text demo_to_string id index input (lit "prod") (lit "op").

Definition demo_ev : ValidEvent :=
  mkValidEvent "run/1" "codex" "session-end" "s1" "/w" "{}" "{}"
    (str (ingest_key demo_to_string id (lit "prod") (lit "op") (lit "codex") (lit "s1")
       (lit "session-end") (lit "run/1"))).

Lemma demo_validated i : demo_validate i demo_input = Ok demo_ev.
Proof. vm_compute. reflexivity. Qed.

Lemma validated_event_private_witness :
  ∃ body session_id cwd,
    accepted_event id no_captures keep_text demo_to_string id demo_input (lit "prod") (lit "op")
      demo_ev body session_id cwd ∧
    redacted id no_captures keep_text demo_body body ∧ bounded body 0 = Ok tt ∧
    clean id no_captures keep_text body ∧
    Forall (λ key, json_get key body = None) AUTHORITY_KEYS.
Proof.
  exact (validated_event_private id no_captures keep_text demo_to_string id 0 demo_input
    (lit "prod") (lit "op") demo_ev (demo_validated 0)).
Defined.

Definition demo_sanitized : json :=
  JObject [(lit "apiToken", JString REDACTED); (lit "cwd", JString (lit "/w"));
           (lit "session_id", JString (lit "s1"))].
Definition demo_from_str (s : bytes) : option json := Some demo_sanitized.
Definition demo_binding : Binding := mkBinding "http://h" "prod" "op" "w" "x".
Definition demo_item : PendingItem := item_of_row (stamp_row 5 (new_row 1 0 demo_ev)).

Lemma validated_event_deliverable_witness :
  let url := item_url (λ _, "q=1"%string) (b_server_url demo_binding) demo_binding demo_item in
  ∃ body, sanitize_external_value id no_captures keep_text (in_body demo_input) = Ok body ∧
    wire_item (flush_parse_body demo_from_str) (λ _, "q=1"%string)
      (flush_not_sensitive id no_captures keep_text)
      (flush_check_body id no_captures keep_text demo_to_string) demo_binding demo_item
    = if flush_not_sensitive id no_captures keep_text [url] then Some (mkBatchItem url body) else None.
Proof.
  apply (validated_event_deliverable id no_captures keep_text demo_to_string id demo_from_str
    (λ _, "q=1"%string) 0 demo_input (lit "prod") (lit "op") demo_ev demo_binding demo_item
    (demo_validated 0)).
  - by split_and!.
  - intros body Hb. vm_compute in Hb. injection Hb as <-. reflexivity.
Defined.

Lemma retry_identity_witness :
  (lit "prod" = lit "prod" ∧ lit "op" = lit "op" ∧ in_agent demo_input = in_agent demo_input ∧
   ev_session_id demo_ev = ev_session_id demo_ev ∧ in_event demo_input = in_event demo_input ∧
   in_event_id demo_input = in_event_id demo_input) ∨ ∃ x y : bytes, x ≠ y ∧ id x = id y.
Proof.
  exact (retry_identity id no_captures keep_text demo_to_string id 0 1 demo_input demo_input
    (lit "prod") (lit "prod") (lit "op") (lit "op") demo_ev demo_ev demo_to_string_inj
    (demo_validated 0) (demo_validated 1) eq_refl).
Defined.
