(* ===== verification/PagePatch.v ===== *)
(** * Section-level page edits

    Models [crates/ai-memory-mcp/src/page_patch.rs]: the markdown heading
    scanner, the section table with its byte ranges, and the application of a
    batch of edits.  Bodies are byte lists; ranges are byte offsets.  SHA-256
    and Unicode lower-casing are arguments. *)

From S2P Require Export Text.

Local Open Scope rust_scope.

(** ** Bounds *)

Definition MAX_EDITS : nat := 32.
Definition MAX_EDIT_CHARS : Z := 64 * 1024.
Definition MAX_CHANGED_CHARS : Z := 256 * 1024.
Definition MAX_SECTION_HASHES : nat := 100.

(** ** Data *)

Inductive AppendTarget := TargetSection | TargetEndOfPage.

Inductive PagePatchEdit :=
  | Append (target : AppendTarget) (anchor : option bytes) (content : bytes)
  | AddSection (anchor content : bytes)
  | ReplaceSection (anchor section_sha256 content : bytes).

Inductive PatchError :=
  | Empty | TooMany | ContentTooLarge | BatchTooLarge
  | MissingAnchor | UnexpectedAnchor
  | AnchorNotFound (anchor : bytes)
  | AmbiguousAnchor (anchor : bytes)
  | DuplicateTarget (anchor : bytes)
  | InvalidNewHeading
  | HeadingExists (title : bytes)
  | SectionPreconditionFailed (anchor : bytes)
  | Overlapping.

(** [Range<usize>]. *)
Record range := mkRange { start : nat; end_ : nat }.

#[export] Instance range_eq_dec : EqDecision range.
Proof. solve_decision. Defined.

Definition range_is_empty (r : range) : bool := end_ r <=? start r.
Definition range_contains (r : range) (i : nat) : bool := (start r <=? i) && (i <? end_ r).

(** [&s[r]]. *)
Definition slice (s : bytes) (r : range) : bytes := take (end_ r - start r) (drop (start r) s).

Record Section_ := mkSection {
  anchor : bytes;
  normalized : bytes;
  level : nat;
  whole : range;
  content_range : range;
}.

Inductive Placement := PlaceSection | PlaceEndOfPage | PlaceNewSection.

Definition placement_rank (p : Placement) : nat :=
  match p with PlaceSection => 0 | PlaceEndOfPage => 1 | PlaceNewSection => 2 end.

Record Change := mkChange {
  ch_range : range;
  replacement : bytes;
  placement : Placement;
  heading_at : option nat;
}.

(** ** The heading scanner *)

Definition hash_char : ascii := "#"%char.
Definition space : ascii := " "%char.
Definition tab : ascii := "009"%char.

Definition trim_start_spaces (line : bytes) : bytes := drop_while (Ascii.eqb space) line.

(** The title, without a closing run of [#] after a space or a tab. *)
Definition strip_closing (title : bytes) : bytes :=
  let without_closing := drop_end_while (Ascii.eqb hash_char) title in
  match last without_closing with
  | None => []
  | Some c => if Ascii.eqb c space || Ascii.eqb c tab then trim_end without_closing else title
  end.

Definition heading (line : bytes) : option (nat * bytes) :=
  let trimmed := match strip_prefix [space; space; space] line with
                 | Some rest => rest
                 | None => trim_start_spaces line
                 end in
  if 3 <? length line - length trimmed then None
  else
    let hashes := count_while (Ascii.eqb hash_char) trimmed in
    if negb ((1 <=? hashes) && (hashes <=? 6))
       || negb (match trimmed !! hashes with None => true | Some c => is_ascii_whitespace c end)
    then None
    else
      let title := strip_closing (trim (drop hashes trimmed)) in
      match title with [] => None | _ => Some (hashes, title) end.

Definition backtick : ascii := "`"%char.
Definition tilde : ascii := "~"%char.

Definition fence_marker (line : bytes) : option (ascii * nat) :=
  let trimmed := trim_start_spaces line in
  if 3 <? length line - length trimmed then None
  else
    match trimmed with
    | [] => None
    | marker :: _ =>
        if negb (Ascii.eqb marker backtick) && negb (Ascii.eqb marker tilde) then None
        else
          let width := count_while (Ascii.eqb marker) trimmed in
          if 3 <=? width then Some (marker, width) else None
    end.

Definition closes_fence (line : bytes) (marker : ascii) (width : nat) : bool :=
  let trimmed := trim_start_spaces line in
  if 3 <? length line - length trimmed then false
  else
    let count := count_while (Ascii.eqb marker) trimmed in
    (width <=? count) && match trim (drop count trimmed) with [] => true | _ => false end.

Definition parse_single_heading (raw : bytes) : result (nat * bytes) PatchError :=
  bail_if bool_decide (newline ∈ raw) with InvalidNewHeading;;
  match heading raw with
  | None => Err InvalidNewHeading
  | Some (level, title) => bail_if level =? 1 with InvalidNewHeading;; Ok (level, title)
  end.

(** A heading of the page: its line's range, its level, its title. *)
Record Heading := mkHeading { h_start : nat; h_content : nat; h_level : nat; h_anchor : bytes }.

(** The line loop of [parse_sections]. *)
Fixpoint scan_lines (offset : nat) (fence : option (ascii * nat)) (lines : list bytes)
    : list Heading :=
  match lines with
  | [] => []
  | line_nl :: lines' =>
      let line := match strip_suffix newline line_nl with Some l => l | None => line_nl end in
      let next := offset + length line_nl in
      match fence with
      | Some (marker, width) =>
          scan_lines next (if closes_fence line marker width then None else fence) lines'
      | None =>
          match fence_marker line with
          | Some m => scan_lines next (Some m) lines'
          | None =>
              match heading line with
              | Some (lvl, a) => mkHeading offset next lvl a :: scan_lines next None lines'
              | None => scan_lines next None lines'
              end
          end
      end
  end.

(** Where the section opened by a heading of [lvl] ends. *)
Definition section_end (lvl : nat) (later : list Heading) (body_len : nat) : nat :=
  match list_find (λ h, h_level h ≤ lvl) later with
  | Some (_, h) => h_start h
  | None => body_len
  end.

Definition appended (existing content : bytes) : bytes :=
  let prefix := match existing with
                | [] => []
                | _ => if ends_with newline existing then [] else [newline]
                end in
  let suffix := if ends_with newline content then [] else [newline] in
  prefix ++ content ++ suffix.

Definition section_content (content : bytes) : bytes :=
  match content with
  | [] => []
  | _ => if ends_with newline content then content else content ++ [newline]
  end.

(** [constant_time_eq]: the accumulated XOR of the byte pairs is zero. *)
Definition constant_time_eq (left right : bytes) : bool :=
  (length left =? length right)
  && (foldl (λ different '(a, b), N.lor different (N.lxor (byte_val a) (byte_val b)))
        0%N (zip left right) =? 0)%N.

Definition edit_content (e : PagePatchEdit) : bytes :=
  match e with
  | Append _ _ content | AddSection _ content | ReplaceSection _ _ content => content
  end.

(** The size loop of [validate_bounds] ([usize::saturating_add]). *)
Fixpoint check_sizes (total : Z) (edits : list PagePatchEdit) : result Z PatchError :=
  match edits with
  | [] => Ok total
  | e :: edits' =>
      let size := Z.of_nat (char_count (edit_content e)) in
      bail_if (MAX_EDIT_CHARS <? size)%Z with ContentTooLarge;;
      check_sizes (u64_saturating_add total size) edits'
  end.

Definition validate_bounds (edits : list PagePatchEdit) : result unit PatchError :=
  bail_if length edits =? 0 with Empty;;
  bail_if MAX_EDITS <? length edits with TooMany;;
  let? total := check_sizes 0 edits in
  bail_if (MAX_CHANGED_CHARS <? total)%Z with BatchTooLarge;;
  Ok ().

(** [changes.sort_by_key(|c| (c.range.start, c.range.end, c.placement))]. *)
Definition change_key (c : Change) : nat * nat * nat :=
  (start (ch_range c), end_ (ch_range c), placement_rank (placement c)).

Definition key_lt (a b : nat * nat * nat) : bool :=
  let '(a1, a2, a3) := a in
  let '(b1, b2, b3) := b in
  (a1 <? b1) || (a1 =? b1) && ((a2 <? b2) || (a2 =? b2) && (a3 <? b3)).

Definition sort_changes (l : list Change) : list Change := sort_by_key change_key key_lt l.

(** The merge loop; [merged] is kept in reverse, its last element first. *)
Fixpoint merge_changes (merged changes : list Change) : result (list Change) PatchError :=
  match changes with
  | [] => Ok (reverse merged)
  | c :: changes' =>
      match merged with
      | [] => merge_changes [c] changes'
      | previous :: rest =>
          if range_is_empty (ch_range previous) && bool_decide (ch_range c = ch_range previous)
          then merge_changes (mkChange (ch_range previous) (replacement previous ++ replacement c)
                                (placement previous) (heading_at previous) :: rest) changes'
          else
            bail_if start (ch_range c) <? end_ (ch_range previous) with Overlapping;;
            merge_changes (c :: merged) changes'
      end
  end.

(** [String::replace_range]. *)
Definition replace_range (s : bytes) (r : range) (by_ : bytes) : bytes :=
  take (start r) s ++ by_ ++ drop (end_ r) s.

(** [for change in merged.into_iter().rev() { replace_range }]. *)
Definition apply_changes (body : bytes) (merged : list Change) : bytes :=
  foldl (λ s c, replace_range s (ch_range c) (replacement c)) body (reverse merged).

(** Does a replacement delete the heading of a section another edit writes
    into? *)
Definition hits_replaced_heading (changes : list Change) : bool :=
  existsb (λ replaced,
    existsb (λ change, match heading_at change with
                       | Some h => range_contains (ch_range replaced) h
                       | None => false
                       end) changes) changes.

Section Patch.
Variable sha256_hex : bytes → bytes.
Variable to_lowercase : bytes → bytes.

Definition normalize_anchor (raw : bytes) : bytes :=
  let title := match heading raw with Some (_, title) => title | None => raw end in
  to_lowercase (join [space] (split_whitespace title)).

Fixpoint sections_of (body_len : nat) (headings : list Heading) : list Section_ :=
  match headings with
  | [] => []
  | h :: later =>
      let e := section_end (h_level h) later body_len in
      mkSection (h_anchor h) (normalize_anchor (h_anchor h)) (h_level h)
        (mkRange (h_start h) e) (mkRange (h_content h) e)
      :: sections_of body_len later
  end.

Definition parse_sections (body : bytes) : list Section_ :=
  sections_of (length body) (scan_lines 0 None (split_inclusive body)).

Record SectionHash := mkSectionHash { sh_anchor : bytes; sh_level : nat; sh_sha256 : bytes }.

Definition section_hashes (body : bytes) : list SectionHash * bool :=
  let sections := parse_sections body in
  ((λ s, mkSectionHash (anchor s) (level s) (sha256_hex (slice body (whole s))))
     <$> take MAX_SECTION_HASHES sections,
   MAX_SECTION_HASHES <? length sections).

(** Lookup in the [by_anchor] multimap. *)
Definition by_anchor (sections : list Section_) (n : bytes) : list Section_ :=
  filter (λ s, normalized s = n) sections.

Definition find_section (sections : list Section_) (a : bytes) : result Section_ PatchError :=
  match by_anchor sections (normalize_anchor a) with
  | [] => Err (AnchorNotFound a)
  | [s] => Ok s
  | _ => Err (AmbiguousAnchor a)
  end.

(** The [targets] and [added] hash sets. *)
Record Targets := mkTargets { targets : gset bytes; added : gset bytes }.

Definition nul_eof : bytes := "000"%char :: lit "eof".
Definition nul_add (n : bytes) : bytes := "000"%char :: lit "add:" ++ n.

(** [if !targets.insert(key) { return Err(DuplicateTarget(name)) }]. *)
Definition claim_target (t : Targets) (key name : bytes) : result Targets PatchError :=
  bail_if bool_decide (key ∈ targets t) with DuplicateTarget name;;
  Ok (mkTargets ({[key]} ∪ targets t) (added t)).

Definition plan_edit (body : bytes) (sections : list Section_) (t : Targets) (e : PagePatchEdit)
    : result (Targets * Change) PatchError :=
  let n := length body in
  match e with
  | Append TargetEndOfPage a content =>
      bail_if match a with
              | Some v => match trim v with [] => false | _ => true end
              | None => false
              end with UnexpectedAnchor;;
      let? t' := claim_target t nul_eof (lit "end_of_page") in
      Ok (t', mkChange (mkRange n n) (appended body content) PlaceEndOfPage None)
  | Append TargetSection a content =>
      match a with
      | None => Err MissingAnchor
      | Some raw =>
          let? s := find_section sections raw in
          let? t' := claim_target t (normalized s) (anchor s) in
          Ok (t', mkChange (mkRange (end_ (whole s)) (end_ (whole s)))
                    (appended (slice body (whole s)) content) PlaceSection
                    (Some (start (whole s))))
      end
  | AddSection a content =>
      let? lt := parse_single_heading a in
      let title := snd lt in
      let norm := normalize_anchor title in
      bail_if bool_decide (by_anchor sections norm ≠ []) || bool_decide (norm ∈ added t)
        with HeadingExists title;;
      let t' := mkTargets ({[nul_add norm]} ∪ targets t) ({[norm]} ∪ added t) in
      let head := replicate (fst lt) hash_char ++ [space] ++ title in
      Ok (t', mkChange (mkRange n n) (appended body (head ++ [newline] ++ content))
                PlaceNewSection None)
  | ReplaceSection a sha content =>
      let? s := find_section sections a in
      let? t' := claim_target t (normalized s) (anchor s) in
      bail_if negb (constant_time_eq (trim sha) (sha256_hex (slice body (whole s))))
        with SectionPreconditionFailed (anchor s);;
      Ok (t', mkChange (content_range s) (section_content content) PlaceSection
                (Some (start (whole s))))
  end.

Fixpoint plan_edits (body : bytes) (sections : list Section_) (t : Targets)
    (edits : list PagePatchEdit) : result (list Change) PatchError :=
  match edits with
  | [] => Ok []
  | e :: edits' =>
      let? tc := plan_edit body sections t e in
      let? changes := plan_edits body sections (fst tc) edits' in
      Ok (snd tc :: changes)
  end.

Definition apply (body : bytes) (edits : list PagePatchEdit) : result bytes PatchError :=
  let? _u := validate_bounds edits in
  let? changes := plan_edits body (parse_sections body) (mkTargets ∅ ∅) edits in
  bail_if hits_replaced_heading changes with Overlapping;;
  let? merged := merge_changes [] (sort_changes changes) in
  Ok (apply_changes body merged).
End Patch.
