(* ===== verification/PagePatchFacts.v ===== *)
(** * Correctness of section-level page edits *)

From S2P Require Export PagePatch.

Local Open Scope rust_scope.

(** ** [constant_time_eq] is equality *)

Lemma byte_val_inj a b : byte_val a = byte_val b → a = b.
Proof. intros H. rewrite <- (ascii_N_embedding a), <- (ascii_N_embedding b). by f_equal. Qed.

Lemma xor_fold_zero l acc :
  foldl (λ d '(a, b), N.lor d (N.lxor (byte_val a) (byte_val b))) acc l = 0%N ↔
  acc = 0%N ∧ Forall (λ '(a, b), a = b) l.
Proof.
  revert acc; induction l as [|[a b] l IH]; intros acc; simpl.
  - split; [by split|tauto].
  - rewrite IH, N.lor_eq_0_iff, N.lxor_eq_0_iff, Forall_cons. split.
    + intros [[-> Hab] Hl]. split; [done|split; [|done]]. by apply byte_val_inj.
    + intros (-> & -> & Hl). done.
Qed.

Lemma constant_time_eq_iff left right : constant_time_eq left right = true ↔ left = right.
Proof.
  unfold constant_time_eq. rewrite andb_true_iff, Nat.eqb_eq, N.eqb_eq, xor_fold_zero.
  split; [|by intros ->; split; [done|split; [done|]]; induction right; constructor].
  intros (Hlen & _ & Hall). revert right Hlen Hall.
  induction left as [|a l IH]; intros [|b r] Hlen Hall; simpl in *; try done.
  apply Forall_cons in Hall as [-> Hall]. f_equal. auto.
Qed.

(** ** The scanner's ranges *)

Lemma split_inclusive_acc_pieces line s :
  Forall (λ l, l ≠ []) (split_inclusive_acc line s).
Proof.
  revert line; induction s as [|a s IH]; intros line; simpl.
  - destruct line; [constructor|]. by repeat constructor.
  - destruct (Ascii.eqb a newline); [|done]. constructor; [|done]. by destruct line.
Qed.

(** Headings in order, at most one per line, from [lo] up to [hi]. *)
Inductive headings_in (hi : nat) : nat → list Heading → Prop :=
  | headings_nil lo : headings_in hi lo []
  | headings_cons lo h hs :
      lo ≤ h_start h → h_start h < h_content h → h_content h ≤ hi →
      headings_in hi (h_content h) hs → headings_in hi lo (h :: hs).

Lemma headings_in_weaken hi lo lo' hs : lo' ≤ lo → headings_in hi lo hs → headings_in hi lo' hs.
Proof. intros Hle H. inversion H; subst; constructor; try done; lia. Qed.

Lemma scan_lines_in offset fence lines hi :
  Forall (λ l, l ≠ []) lines → offset + length (concat lines) ≤ hi →
  headings_in hi offset (scan_lines offset fence lines).
Proof.
  intros Hl. revert offset fence; induction Hl as [|l lines Hne Hl IH]; intros offset fence Hhi;
    cbn [scan_lines]; [constructor|].
  cbn [concat] in Hhi. rewrite length_app in Hhi.
  assert (Hstep : ∀ f, headings_in hi offset (scan_lines (offset + length l) f lines)).
  { intros f. eapply headings_in_weaken; [|apply IH]; lia. }
  assert (0 < length l) by (destruct l; simpl; [done|lia]).
  destruct fence as [[m w]|]; [apply Hstep|].
  destruct (fence_marker _) as [m|]; [apply Hstep|].
  destruct (heading _) as [[lvl a]|]; [|apply Hstep].
  constructor; simpl; try lia. apply IH. lia.
Qed.

Lemma headings_in_lower hi lo hs h : headings_in hi lo hs → h ∈ hs → lo ≤ h_start h < hi.
Proof.
  induction 1 as [|lo h' hs H1 H2 H3 H4 IH]; intros Hin; [by apply not_elem_of_nil in Hin|].
  apply elem_of_cons in Hin as [->|Hin]; [lia|]. specialize (IH Hin). lia.
Qed.

(** ** The section table *)

Definition nested_in (inner outer : range) : Prop :=
  start outer ≤ start inner ∧ end_ inner ≤ end_ outer.

(** Ranges of one section of a body of [n] bytes. *)
Record section_wf (n : nat) (s : Section_) : Prop := {
  sw_order : start (whole s) < start (content_range s);
  sw_content : start (content_range s) ≤ end_ (content_range s);
  sw_end : end_ (whole s) = end_ (content_range s);
  sw_in : end_ (whole s) ≤ n;
}.

(** A later section is disjoint from an earlier one or inside its content. *)
Definition laminar_pair (s1 s2 : Section_) : Prop :=
  end_ (whole s1) ≤ start (whole s2) ∨ nested_in (whole s2) (content_range s1).

Definition laminar (ss : list Section_) : Prop := StronglySorted laminar_pair ss.

Section Table.
Variable to_lowercase : bytes → bytes.

Lemma section_end_cons lvl h hs n :
  section_end lvl (h :: hs) n =
  if decide (h_level h ≤ lvl) then h_start h else section_end lvl hs n.
Proof.
  unfold section_end. simpl. case_decide; [done|]. by destruct (list_find _ hs) as [[]|].
Qed.

Lemma section_end_bounds hi lo lvl hs :
  headings_in hi lo hs → lo ≤ hi → lo ≤ section_end lvl hs hi ≤ hi.
Proof.
  intros H. induction H as [|lo h hs H1 H2 H3 H4 IH]; intros Hle; [by unfold section_end|].
  rewrite section_end_cons. case_decide; [lia|]. specialize (IH ltac:(lia)). lia.
Qed.

(** A deeper section closes no later. *)
Lemma section_end_mono hi lo lvl lvl' hs :
  headings_in hi lo hs → lvl ≤ lvl' → section_end lvl' hs hi ≤ section_end lvl hs hi.
Proof.
  intros H Hlvl. induction H as [|lo h hs H1 H2 H3 H4 IH]; [done|].
  rewrite !section_end_cons.
  pose proof (section_end_bounds _ _ lvl _ H4 ltac:(lia)).
  repeat case_decide; lia.
Qed.

Lemma sections_of_elem n hs s :
  s ∈ sections_of to_lowercase n hs →
  ∃ before h later, hs = before ++ h :: later ∧
    start (whole s) = h_start h ∧ start (content_range s) = h_content h ∧
    level s = h_level h ∧ anchor s = h_anchor h ∧
    end_ (whole s) = section_end (h_level h) later n ∧
    end_ (content_range s) = section_end (h_level h) later n.
Proof.
  induction hs as [|h hs IH]; simpl; intros Hin; [by apply not_elem_of_nil in Hin|].
  apply elem_of_cons in Hin as [->|Hin].
  - by exists [], h, hs.
  - destruct (IH Hin) as (b & h' & l & -> & H). by exists (h :: b), h', l.
Qed.

(** Where a heading after a section's own sits: past its end, or it opens a
    section that closes inside. *)
Lemma section_end_nested n lo lvl before h rest :
  headings_in n lo (before ++ h :: rest) →
  section_end lvl (before ++ h :: rest) n ≤ h_start h ∨
  section_end (h_level h) rest n ≤ section_end lvl (before ++ h :: rest) n.
Proof.
  revert lo; induction before as [|b before IH]; intros lo Hin; simpl in *;
    inversion Hin as [|? ? ? H1 H2 H3 H4]; subst; rewrite section_end_cons; case_decide.
  - by left.
  - right. apply (section_end_mono _ _ _ _ _ H4). lia.
  - left. pose proof (headings_in_lower _ _ _ h H4 ltac:(set_solver)). lia.
  - by eapply IH.
Qed.

Lemma headings_in_app n lo before h later :
  headings_in n lo (before ++ h :: later) →
  lo ≤ h_start h ∧ h_start h < h_content h ∧ h_content h ≤ n ∧ headings_in n (h_content h) later.
Proof.
  revert lo; induction before as [|b before IH]; intros lo H;
    inversion H as [|? ? ? H1 H2 H3 H4]; subst; [done|].
  specialize (IH _ H4). intuition lia.
Qed.

Lemma sections_of_wf n lo hs :
  headings_in n lo hs → Forall (section_wf n) (sections_of to_lowercase n hs).
Proof.
  intros H. apply Forall_forall. intros s Hs.
  apply sections_of_elem in Hs as (b & h & l & -> & H1 & H2 & _ & _ & H3 & H4).
  apply headings_in_app in H as (? & ? & ? & Hl).
  pose proof (section_end_bounds _ _ (h_level h) _ Hl ltac:(lia)).
  split; lia.
Qed.

Lemma sections_of_laminar n lo hs :
  headings_in n lo hs → laminar (sections_of to_lowercase n hs).
Proof.
  induction 1 as [|lo h hs H1 H2 H3 H4 IH]; [constructor|]. cbn [sections_of].
  apply StronglySorted_cons. split; [|done]. apply Forall_forall. intros s Hs.
  apply sections_of_elem in Hs as (b & g & l & -> & Hst & _ & _ & _ & Hen & _).
  unfold laminar_pair, nested_in. simpl. rewrite Hst, Hen.
  pose proof (headings_in_app _ _ _ _ _ H4).
  destruct (section_end_nested _ _ (h_level h) _ _ _ H4); [by left|right; lia].
Qed.
End Table.

(** ** Splicing: the reference the rewriting loop is checked against *)

(** One left-to-right pass over the body, copying what lies between changes. *)
Fixpoint splice (body : bytes) (pos : nat) (cs : list Change) : bytes :=
  match cs with
  | [] => drop pos body
  | c :: cs' =>
      take (start (ch_range c) - pos) (drop pos body) ++ replacement c
        ++ splice body (end_ (ch_range c)) cs'
  end.

(** Each change starts where the one before it ended, or later. *)
Fixpoint chained (pos : nat) (cs : list Change) : bool :=
  match cs with
  | [] => true
  | c :: cs' => (pos <=? start (ch_range c)) && chained (end_ (ch_range c)) cs'
  end.

Definition change_in (n : nat) (c : Change) : Prop :=
  start (ch_range c) ≤ end_ (ch_range c) ≤ n.

Lemma apply_changes_foldr body cs :
  apply_changes body cs =
  foldr (λ c s, replace_range s (ch_range c) (replacement c)) body cs.
Proof.
  unfold apply_changes. induction cs as [|c cs IH]; [done|].
  by rewrite reverse_cons, foldl_app, IH.
Qed.

Lemma take_take_drop {A} (l : list A) p q : p ≤ q → take p l ++ take (q - p) (drop p l) = take q l.
Proof. intros H. rewrite take_take_drop. f_equal. lia. Qed.

(** Back-to-front replacement is the left-to-right splice. *)
Lemma apply_changes_splice body cs pos :
  Forall (change_in (length body)) cs → chained pos cs = true → pos ≤ length body →
  apply_changes body cs = take pos body ++ splice body pos cs.
Proof.
  rewrite apply_changes_foldr. intros Hin. revert pos.
  induction Hin as [|c cs Hc Hin IH]; intros pos Hch Hpos; simpl in *; [by rewrite take_drop|].
  apply andb_true_iff in Hch as [Hle%Nat.leb_le Hch].
  destruct Hc as [Hse Hen]. rewrite (IH _ Hch Hen).
  unfold replace_range.
  rewrite take_app_le by (rewrite length_take; lia).
  rewrite take_take, Nat.min_l by lia.
  rewrite drop_app_length' by (rewrite length_take; lia).
  by rewrite (app_assoc (take pos body)), take_take_drop by lia.
Qed.

(** ** The merge loop *)

Fixpoint chain_end (pos : nat) (cs : list Change) : nat :=
  match cs with [] => pos | c :: cs' => chain_end (end_ (ch_range c)) cs' end.

Lemma chained_app pos cs ds :
  chained pos (cs ++ ds) = chained pos cs && chained (chain_end pos cs) ds.
Proof.
  revert pos; induction cs as [|c cs IH]; intros pos; simpl; [done|]. by rewrite IH, andb_assoc.
Qed.

Lemma splice_app body pos cs ds ds' :
  (∀ p, splice body p ds = splice body p ds') →
  splice body pos (cs ++ ds) = splice body pos (cs ++ ds').
Proof.
  intros H. revert pos; induction cs as [|c cs IH]; intros pos; simpl; [done|].
  by rewrite IH.
Qed.

(** Two insertions at one offset are one. *)
Lemma splice_merge body p c d cs pl h :
  range_is_empty (ch_range c) = true → change_in (length body) c → ch_range d = ch_range c →
  splice body p (c :: d :: cs) =
  splice body p (mkChange (ch_range c) (replacement c ++ replacement d) pl h :: cs).
Proof.
  unfold range_is_empty, change_in. intros He%Nat.leb_le Hin Hd. simpl. rewrite Hd.
  replace (start (ch_range c) - end_ (ch_range c)) with 0 by lia. simpl.
  by rewrite <- (app_assoc (replacement c)).
Qed.

Lemma merge_changes_spec body merged changes :
  Forall (change_in (length body)) merged →
  Forall (change_in (length body)) changes →
  chained 0 (reverse merged) = true →
  match merge_changes merged changes with
  | Ok m => chained 0 (reverse merged ++ changes) = true ∧ chained 0 m = true ∧
            Forall (change_in (length body)) m ∧
            splice body 0 m = splice body 0 (reverse merged ++ changes)
  | Err e => e = Overlapping ∧ chained 0 (reverse merged ++ changes) = false
  end.
Proof.
  intros Hm Hc. revert merged Hm. induction Hc as [|c cs Hc Hcs IH]; intros merged Hm Hch.
  - simpl. rewrite app_nil_r. split_and!; [done|done|by apply Forall_reverse|done].
  - destruct merged as [|p rest]; cbn [merge_changes].
    { apply (IH [c]); [by constructor|]. done. }
    apply Forall_cons in Hm as [Hp Hrest].
    rewrite reverse_cons in Hch |- *. rewrite chained_app in Hch.
    apply andb_true_iff in Hch as [Hch1 Hch2].
    simpl in Hch2. rewrite andb_true_r in Hch2.
    destruct (range_is_empty (ch_range p) && bool_decide (ch_range c = ch_range p)) eqn:E.
    + apply andb_true_iff in E as [Ee Eq%bool_decide_eq_true].
      specialize (IH (mkChange (ch_range p) (replacement p ++ replacement c)
                         (placement p) (heading_at p) :: rest)).
      rewrite reverse_cons in IH.
      assert (Hcc : chained 0 ((reverse rest ++ [p]) ++ c :: cs) =
                chained 0 ((reverse rest ++ [mkChange (ch_range p) (replacement p ++ replacement c)
                         (placement p) (heading_at p)]) ++ cs)).
      { rewrite <- !app_assoc, !chained_app. simpl. rewrite Eq. f_equal. f_equal.
        unfold change_in, range_is_empty in *. apply Nat.leb_le in Ee.
        by rewrite (proj2 (Nat.leb_le _ _)) by lia. }
      assert (Hsp : splice body 0 ((reverse rest ++ [p]) ++ c :: cs) =
                splice body 0 ((reverse rest ++ [mkChange (ch_range p) (replacement p ++ replacement c)
                         (placement p) (heading_at p)]) ++ cs)).
      { rewrite <- !app_assoc. apply splice_app. intros q. by apply splice_merge. }
      rewrite Hcc, Hsp. apply IH; [by constructor|].
      rewrite chained_app. simpl. by rewrite Hch1, Hch2.
    + destruct (start (ch_range c) <? end_ (ch_range p)) eqn:El.
      * split; [done|]. rewrite <- app_assoc, chained_app. simpl.
        apply Nat.ltb_lt in El. rewrite (proj2 (Nat.leb_gt _ _) El).
        by rewrite !andb_false_r.
      * apply Nat.ltb_ge in El. specialize (IH (c :: p :: rest)).
        rewrite !reverse_cons, <- !app_assoc in IH. rewrite <- app_assoc.
        apply IH; [by constructor; [|constructor]|].
        rewrite chained_app. simpl. rewrite Hch1, Hch2. simpl.
        by rewrite (proj2 (Nat.leb_le _ _) El).
Qed.

(** The merge loop and the rewriting loop together are the splice. *)
Lemma merge_apply_spec body changes :
  Forall (change_in (length body)) changes →
  (let? merged := merge_changes [] changes in Ok (apply_changes body merged)) =
  if chained 0 changes then Ok (splice body 0 changes) else Err Overlapping.
Proof.
  intros Hc. pose proof (merge_changes_spec body [] changes ltac:(constructor) Hc eq_refl) as H.
  simpl in H. destruct (merge_changes [] changes) as [m|e]; simpl.
  - destruct H as (-> & Hm & Hin & <-). by rewrite (apply_changes_splice _ _ 0) by (done || lia).
  - destruct H as [-> ->]. done.
Qed.

(** ** The stable sort *)

Lemma key_lt_spec a b :
  key_lt a b = true ↔
  let '(a1, a2, a3) := a in let '(b1, b2, b3) := b in
  a1 < b1 ∨ a1 = b1 ∧ (a2 < b2 ∨ a2 = b2 ∧ a3 < b3).
Proof.
  destruct a as [[a1 a2] a3], b as [[b1 b2] b3]. simpl.
  rewrite !orb_true_iff, !andb_true_iff, !orb_true_iff, !andb_true_iff.
  rewrite !Nat.ltb_lt, !Nat.eqb_eq. done.
Qed.

#[export] Instance key_lt_swo : StrictWeakOrder key_lt.
Proof.
  split.
  - intros [[] ] [[] ] H%key_lt_spec. apply not_true_iff_false. rewrite key_lt_spec. lia.
  - intros [[] ] [[] ] [[] ]. rewrite <- !not_true_iff_false, !key_lt_spec. lia.
Qed.

Abbreviation key_le := (by_key change_key key_lt).

Lemma key_le_start c d : key_le c d → start (ch_range c) ≤ start (ch_range d).
Proof.
  unfold by_key. rewrite <- not_true_iff_false, key_lt_spec. simpl. lia.
Qed.

(** ** Planning *)

(** The heading line a section was opened by. *)
Definition opened_by (body : bytes) (s : Section_) : Prop :=
  let line := slice body (mkRange (start (whole s)) (start (content_range s))) in
  heading (match strip_suffix newline line with Some l => l | None => line end)
    = Some (level s, anchor s).

Lemma scan_lines_opened offset fence lines h :
  h ∈ scan_lines offset fence lines →
  ∃ before line after, lines = before ++ line :: after ∧
    h_start h = offset + length (concat before) ∧
    h_content h = h_start h + length line ∧
    heading (match strip_suffix newline line with Some l => l | None => line end)
      = Some (h_level h, h_anchor h).
Proof.
  revert offset fence; induction lines as [|l lines IH]; intros offset fence;
    cbn [scan_lines]; [by intros ?%not_elem_of_nil|].
  assert (Hrec : ∀ f, h ∈ scan_lines (offset + length l) f lines →
    ∃ before line after, l :: lines = before ++ line :: after ∧
      h_start h = offset + length (concat before) ∧
      h_content h = h_start h + length line ∧
      heading (match strip_suffix newline line with Some l => l | None => line end)
        = Some (h_level h, h_anchor h)).
  { intros f Hf. destruct (IH _ _ Hf) as (b & line & a & -> & H1 & H2 & H3).
    exists (l :: b), line, a. cbn [concat]. rewrite length_app. repeat split; try done; lia. }
  destruct fence as [[m w]|]; [apply Hrec|].
  destruct (fence_marker _) as [m|]; [apply Hrec|].
  destruct (heading (match strip_suffix newline l with Some l' => l' | None => l end))
    as [[lvl a]|] eqn:Eh; [|apply Hrec].
  intros [->|Hin]%elem_of_cons; [|by eapply Hrec].
  exists [], l, lines. simpl. repeat split; [lia|done].
Qed.

Lemma slice_concat {b a : list bytes} {line : bytes} body p q :
  concat (b ++ line :: a) = body → p = length (concat b) → q = p + length line →
  slice body (mkRange p q) = line.
Proof.
  intros <- -> ->. unfold slice. simpl. rewrite concat_app. simpl.
  rewrite drop_app_length, take_app_length'; [done|lia].
Qed.

Section PatchFacts.
Variable sha256_hex : bytes → bytes.
Variable to_lowercase : bytes → bytes.

#[local] Abbreviation parse := (parse_sections to_lowercase).
#[local] Abbreviation plan1 := (plan_edit sha256_hex to_lowercase).
#[local] Abbreviation plan := (plan_edits sha256_hex to_lowercase).
#[local] Abbreviation find := (find_section to_lowercase).

Lemma scan_body_in body :
  headings_in (length body) 0 (scan_lines 0 None (split_inclusive body)).
Proof.
  apply scan_lines_in; [apply split_inclusive_acc_pieces|].
  by rewrite split_inclusive_concat.
Qed.

Lemma parse_sections_wf body : Forall (section_wf (length body)) (parse body).
Proof. eapply sections_of_wf, scan_body_in. Qed.

Lemma parse_sections_opened body : Forall (opened_by body) (parse body).
Proof.
  apply Forall_forall. intros s Hs.
  apply sections_of_elem in Hs as (b & h & l & Hscan & H1 & H2 & H3 & H4 & _).
  assert (Hh : h ∈ scan_lines 0 None (split_inclusive body)) by (rewrite Hscan; set_solver).
  apply scan_lines_opened in Hh as (bl & line & al & Hl & Hst & Hco & Hhd).
  unfold opened_by. rewrite H1, H2, H3, H4.
  rewrite (slice_concat (b:=bl) (a:=al) (line:=line)); [done|..].
  - by rewrite <- Hl, split_inclusive_concat.
  - done.
  - done.
Qed.

Lemma find_section_elem ss a s : find ss a = Ok s → s ∈ ss.
Proof.
  unfold find_section, by_anchor. intros H.
  assert (Hs : s ∈ filter (λ s, normalized s = normalize_anchor to_lowercase a) ss).
  { destruct (filter _ ss) as [|s' [|]]; simplify_eq. set_solver. }
  by apply list_elem_of_filter in Hs as [_ Hs].
Qed.

Lemma find_section_wf body a s : find (parse body) a = Ok s → section_wf (length body) s.
Proof.
  intros H%find_section_elem. pose proof (parse_sections_wf body) as Hwf.
  rewrite Forall_forall in Hwf. auto.
Qed.

(** Every planned change is a range of the body. *)
Lemma plan_edit_in body t e t' c :
  plan1 body (parse body) t e = Ok (t', c) → change_in (length body) c.
Proof.
  unfold change_in.
  destruct e as [[] [a|] content|a content|a sha content]; cbn [plan_edit]; intros H; peel_ok;
    simplify_eq; simpl; try lia;
    match goal with Hf : find_section _ _ _ = Ok _ |- _ => destruct (find_section_wf _ _ _ Hf) end;
    lia.
Qed.

Lemma plan_edits_Forall (P : Change → Prop) body ss edits changes t :
  (∀ t e t' c, e ∈ edits → plan1 body ss t e = Ok (t', c) → P c) →
  plan body ss t edits = Ok changes → Forall P changes.
Proof.
  revert t changes; induction edits as [|e edits IH]; intros t changes HP H;
    cbn [plan_edits] in H; peel_ok; subst; [constructor|].
  destruct a as [t' c]. simpl in *. constructor.
  - eapply HP; [|done]. set_solver.
  - eapply IH; [|done]. intros. eapply HP; [|done]. set_solver.
Qed.

Lemma plan_edits_in body t edits changes :
  plan body (parse body) t edits = Ok changes → Forall (change_in (length body)) changes.
Proof.
  apply plan_edits_Forall. intros ???? _. apply plan_edit_in.
Qed.

(** ** The table *)

(** For every page body, the section table is well formed: each section's
    ranges lie in the body with the content after the heading line, a later
    section is disjoint from an earlier one or nested in its content, and the
    line at a section's start is a heading of its level and title. *)
Theorem parse_sections_correct body :
  Forall (section_wf (length body)) (parse body) ∧ laminar (parse body)
  ∧ Forall (opened_by body) (parse body).
Proof.
  split_and!; [apply parse_sections_wf|eapply sections_of_laminar, scan_body_in|
               apply parse_sections_opened].
Qed.

(** ** A batch is one splice *)

Lemma apply_splice_eq body edits :
  apply sha256_hex to_lowercase body edits =
  (let? _u := validate_bounds edits in
   let? changes := plan body (parse body) (mkTargets ∅ ∅) edits in
   if hits_replaced_heading changes || negb (chained 0 (sort_changes changes))
   then Err Overlapping else Ok (splice body 0 (sort_changes changes))).
Proof.
  unfold apply. destruct (validate_bounds edits) as [u|]; [|done]. cbn [result_bind].
  destruct (plan body (parse body) _ edits) as [changes|e] eqn:Hp; [|done]. cbn [result_bind].
  destruct (hits_replaced_heading changes); [done|]. cbn [orb].
  rewrite merge_apply_spec; [by destruct (chained 0 _)|].
  rewrite (sort_by_key_perm change_key key_lt). by eapply plan_edits_in.
Qed.

(** C34. A batch either fails in validation or planning, or its changes are
    applied as one left-to-right splice of the original body in the stable
    (start, end, placement) order, exactly when no change starts inside the
    one before it and no replacement deletes a written section's heading;
    the merging of insertions and the back-to-front rewriting are
    unobservable. *)
Theorem apply_is_splice body edits :
  apply sha256_hex to_lowercase body edits =
  (let? _u := validate_bounds edits in
   let? changes := plan body (parse body) (mkTargets ∅ ∅) edits in
   if hits_replaced_heading changes || negb (chained 0 (sort_changes changes))
   then Err Overlapping else Ok (splice body 0 (sort_changes changes)))
  ∧ ∀ changes, sort_changes changes ≡ₚ changes ∧ StronglySorted key_le (sort_changes changes)
      ∧ ∀ k, filter (λ d, change_key d = k) (sort_changes changes)
             = filter (λ d, change_key d = k) changes.
Proof.
  split; [apply apply_splice_eq|]. intros changes.
  split_and!; [apply (sort_by_key_perm change_key key_lt)|apply sort_by_key_sorted, _|
               intros k; apply sort_by_key_stable, _].
Qed.

(** ** Additive batches *)

Definition additive (e : PagePatchEdit) : bool :=
  match e with ReplaceSection _ _ _ => false | _ => true end.

Definition insertion (c : Change) : Prop := start (ch_range c) = end_ (ch_range c).

Lemma plan_edit_additive body ss t e t' c :
  additive e = true → plan1 body ss t e = Ok (t', c) → insertion c.
Proof.
  unfold insertion. destruct e as [[] [a|] content|a content|a sha content];
    cbn [plan_edit additive]; intros Ha H; peel_ok; by simplify_eq.
Qed.

Lemma insertions_no_hits changes :
  Forall insertion changes → hits_replaced_heading changes = false.
Proof.
  intros Hi. apply not_true_iff_false. unfold hits_replaced_heading.
  rewrite existsb_exists. intros (c & Hc & Hx).
  apply existsb_exists in Hx as (d & _ & Hd). rewrite Forall_forall in Hi.
  specialize (Hi c ltac:(by apply list_elem_of_In)). unfold insertion in Hi.
  destruct (heading_at d); [|done]. unfold range_contains in Hd.
  apply andb_true_iff in Hd as [?%Nat.leb_le ?%Nat.ltb_lt]. lia.
Qed.

Lemma insertions_chained pos cs :
  Forall insertion cs → StronglySorted key_le cs →
  Forall (λ c, pos ≤ start (ch_range c)) cs → chained pos cs = true.
Proof.
  revert pos; induction cs as [|c cs IH]; intros pos Hi Hs Hp; simpl; [done|].
  apply Forall_cons in Hi as [Hc Hi]. apply Forall_cons in Hp as [Hp _].
  apply StronglySorted_cons in Hs as [Hx Hs]. rewrite (proj2 (Nat.leb_le _ _) Hp).
  apply IH; [done..|]. eapply Forall_impl; [exact Hx|]. intros d Hd%key_le_start.
  unfold insertion in Hc. lia.
Qed.

Lemma insertions_keep body pos cs :
  Forall insertion cs → chained pos cs = true → sublist (drop pos body) (splice body pos cs).
Proof.
  revert pos; induction cs as [|c cs IH]; intros pos Hi Hch; simpl in *; [done|].
  apply Forall_cons in Hi as [Hc Hi]. apply andb_true_iff in Hch as [Hle%Nat.leb_le Hch].
  rewrite <- (take_drop (start (ch_range c) - pos) (drop pos body)) at 1.
  apply sublist_app; [done|]. apply sublist_inserts_l.
  rewrite drop_drop. replace (pos + _) with (end_ (ch_range c)) by (unfold insertion in Hc; lia).
  auto.
Qed.

Lemma validate_bounds_not_overlapping edits e : validate_bounds edits = Err e → e ≠ Overlapping.
Proof.
  unfold validate_bounds. repeat (destruct (_ : bool); [naive_solver|]).
  assert (Hs : ∀ total e, check_sizes total edits = Err e → e ≠ Overlapping).
  { induction edits as [|e' edits IH]; intros total e''; cbn [check_sizes]; [done|].
    destruct (_ : bool); [naive_solver|apply IH]. }
  destruct (check_sizes 0 edits) as [total|] eqn:E; cbn [result_bind]; [|naive_solver].
  destruct (_ : bool); naive_solver.
Qed.

Lemma plan_edits_not_overlapping body ss t edits e :
  plan body ss t edits = Err e → e ≠ Overlapping.
Proof.
  revert t; induction edits as [|e' edits IH]; intros t; cbn [plan_edits]; [done|].
  destruct (plan1 body ss t e') as [tc|e''] eqn:Hp; cbn [result_bind].
  - destruct (plan body ss (fst tc) edits) eqn:Hr; cbn [result_bind]; [done|]. intros [= ->]. eauto.
  - intros [= ->]. revert Hp.
    unfold plan_edit, claim_target, find_section, parse_single_heading.
    repeat case_match; simplify_eq; try done; cbn [result_bind]; repeat case_match; naive_solver.
Qed.

(** A batch of appends and new sections never deletes or reorders a
    byte of the page, and never fails as overlapping. *)
Theorem additive_batch_keeps_page body edits :
  Forall (λ e, additive e = true) edits →
  match apply sha256_hex to_lowercase body edits with
  | Ok r => sublist body r
  | Err e => e ≠ Overlapping
  end.
Proof.
  intros Ha. rewrite apply_splice_eq.
  destruct (validate_bounds edits) as [u|e] eqn:Hv; cbn [result_bind];
    [|by eapply validate_bounds_not_overlapping].
  destruct (plan body (parse body) _ edits) as [changes|e] eqn:Hp; cbn [result_bind];
    [|by eapply plan_edits_not_overlapping].
  assert (Hi : Forall insertion changes).
  { eapply plan_edits_Forall; [|exact Hp]. rewrite Forall_forall in Ha.
    eauto using plan_edit_additive. }
  rewrite insertions_no_hits by done. rewrite <- (sort_by_key_perm change_key key_lt) in Hi.
  assert (Hch : chained 0 (sort_changes changes) = true).
  { apply insertions_chained; [done|apply sort_by_key_sorted, _|]. apply Forall_true. lia. }
  rewrite Hch. exact (insertions_keep body 0 _ Hi Hch).
Qed.

(** ** Preconditions and targets *)

(** What an edit writes into, when it names an existing place. *)
Definition target_key (ss : list Section_) (e : PagePatchEdit) : option bytes :=
  match e with
  | Append TargetEndOfPage _ _ => Some nul_eof
  | Append TargetSection (Some a) _ | ReplaceSection a _ _ =>
      match find ss a with Ok s => Some (normalized s) | Err _ => None end
  | _ => None
  end.

Definition added_key (e : PagePatchEdit) : option bytes :=
  match e with
  | AddSection a _ =>
      match parse_single_heading a with
      | Ok (_, title) => Some (normalize_anchor to_lowercase title)
      | Err _ => None
      end
  | _ => None
  end.

Lemma claim_target_Ok t key name t' :
  claim_target t key name = Ok t' →
  (key ∉ targets t) ∧ targets t' = {[key]} ∪ targets t ∧ added t' = added t.
Proof. unfold claim_target. intros H. peel_ok. subst. by apply bool_decide_eq_false in Hg. Qed.

(** A planned edit claims its key, which was free. *)
Lemma plan_edit_keys body ss t e t' c :
  plan1 body ss t e = Ok (t', c) →
  targets t ⊆ targets t' ∧ added t ⊆ added t' ∧
  (∀ k, target_key ss e = Some k → (k ∉ targets t) ∧ k ∈ targets t') ∧
  (∀ k, added_key e = Some k → (k ∉ added t) ∧ k ∈ added t' ∧ by_anchor ss k = []).
Proof.
  destruct e as [[] [a|] content|a content|a sha content]; cbn [plan_edit target_key added_key];
    intros H; peel_ok; simplify_eq;
    repeat match goal with
    | Hf : claim_target _ _ _ = Ok _ |- _ => apply claim_target_Ok in Hf as (? & -> & ->)
    | Hf : find_section _ _ _ = Ok _ |- _ => rewrite Hf
    end; try (split_and!; [set_solver..| |]; intros; simplify_eq; set_solver).
  apply orb_false_iff in Hg as [Hb Hn]. apply bool_decide_eq_false in Hb, Hn.
  destruct a0 as [lvl title]. simpl in *. rewrite Hr.
  split; [set_solver|]. split; [set_solver|]. split; [done|].
  intros k [= <-]. split_and!; [done|set_solver|]. by apply dec_stable.
Qed.

Lemma plan_edits_keys body ss t edits changes :
  plan body ss t edits = Ok changes →
  NoDup (omap (target_key ss) edits) ∧ NoDup (omap added_key edits) ∧
  Forall (λ k, k ∉ targets t) (omap (target_key ss) edits) ∧
  Forall (λ k, (k ∉ added t) ∧ by_anchor ss k = []) (omap added_key edits).
Proof.
  revert t changes; induction edits as [|e edits IH]; intros t changes H;
    cbn [plan_edits] in H; peel_ok; subst; [by repeat constructor|].
  destruct a as [t' c]. simpl in *. apply plan_edit_keys in Hr as (Ht & Ha & Hk & Hk').
  apply IH in Hr0 as (IH1 & IH2 & IH3 & IH4). clear IH.
  rewrite Forall_forall in IH3, IH4.
  assert (∀ k, k ∈ omap (target_key ss) edits → k ∉ targets t) by set_solver.
  assert (∀ k, k ∈ omap added_key edits → (k ∉ added t) ∧ by_anchor ss k = []) by set_solver.
  split_and!.
  - destruct (target_key ss e) as [k|]; [|done]. destruct (Hk k eq_refl).
    apply NoDup_cons. split; [|done]. intros Hin. by apply (IH3 k).
  - destruct (added_key e) as [k|]; [|done]. destruct (Hk' k eq_refl) as (_ & ? & _).
    apply NoDup_cons. split; [|done]. intros Hin. by apply (IH4 k).
  - apply Forall_forall. destruct (target_key ss e) as [k|]; [|done]. destruct (Hk k eq_refl).
    intros k' [->|]%elem_of_cons; auto.
  - apply Forall_forall. destruct (added_key e) as [k|]; [|done].
    destruct (Hk' k eq_refl) as (? & ? & ?). intros k' [->|]%elem_of_cons; auto.
Qed.

(** A replacement is planned against the hash of the section it read. *)
Definition precondition_holds (body : bytes) (e : PagePatchEdit) : Prop :=
  match e with
  | ReplaceSection a sha _ =>
      ∃ s, find (parse body) a = Ok s ∧ trim sha = sha256_hex (slice body (whole s))
  | _ => True
  end.

Lemma plan_edits_preconditions body t edits changes :
  plan body (parse body) t edits = Ok changes → Forall (precondition_holds body) edits.
Proof.
  revert t changes; induction edits as [|e edits IH]; intros t changes H;
    cbn [plan_edits] in H; peel_ok; subst; [constructor|].
  destruct a as [t' c]. simpl in *. constructor; [|by eapply IH].
  destruct e as [| |a sha content]; cbn [plan_edit precondition_holds] in *; [done..|].
  peel_ok. apply negb_false_iff, constant_time_eq_iff in Hg. eauto.
Qed.

(** A batch is applied only against the page it was written for: every
    replaced section exists, is unambiguous and hashes to the digest the
    edit carries; no section and no end of page is written twice; and no two
    new sections share a title, nor does one repeat an existing title. *)
Theorem applied_batch_preconditions body edits r :
  apply sha256_hex to_lowercase body edits = Ok r →
  0 < length edits ≤ MAX_EDITS ∧
  Forall (precondition_holds body) edits ∧
  NoDup (omap (target_key (parse body)) edits) ∧
  NoDup (omap added_key edits) ∧
  Forall (λ k, by_anchor (parse body) k = []) (omap added_key edits).
Proof.
  unfold apply, validate_bounds. intros H. peel_ok.
  apply Nat.eqb_neq in Hg0. apply Nat.ltb_ge in Hg1.
  pose proof (plan_edits_preconditions _ _ _ _ Hr0).
  apply plan_edits_keys in Hr0 as (? & ? & _ & Hadd). split_and!; try done; [lia|].
  eapply Forall_impl; [exact Hadd|]. by intros k [_ ?].
Qed.
End PatchFacts.

(** ** Concrete pages *)

(** A stand-in digest that tells bodies of different lengths apart. *)
Definition demo_sha (b : bytes) : bytes := replicate (length b) "a"%char.

Definition demo_page : bytes :=
  lit "# Title" ++ [newline] ++ lit "text" ++ [newline] ++ lit "## foo" ++ [newline]
  ++ lit "old" ++ [newline].

Definition demo_edits : list PagePatchEdit :=
  [ReplaceSection (lit "foo") (demo_sha (lit "## foo" ++ [newline] ++ lit "old" ++ [newline])) (lit "new");
   Append TargetEndOfPage None (lit "tail")].

Lemma additive_batch_keeps_page_witness :
  Forall (λ e, additive e = true) [AddSection (lit "## bar") (lit "x")] ∧
  match apply demo_sha id demo_page [AddSection (lit "## bar") (lit "x")] with
  | Ok r => sublist demo_page r
  | Err e => e ≠ Overlapping
  end.
Proof.
  assert (H : Forall (λ e, additive e = true) [AddSection (lit "## bar") (lit "x")])
    by by repeat constructor.
  split; [exact H|]. exact (additive_batch_keeps_page demo_sha id demo_page _ H).
Defined.

Lemma applied_batch_preconditions_witness :
  ∃ r, apply demo_sha id demo_page demo_edits = Ok r ∧
    Forall (precondition_holds demo_sha id demo_page) demo_edits.
Proof.
  eexists. split; [vm_compute; reflexivity|].
  apply (applied_batch_preconditions demo_sha id demo_page demo_edits _ ltac:(vm_compute; reflexivity)).
Defined.

(** A closing run of [#] inside the title survives one parse: the page gets a
    heading that reads back as the title it was checked against being absent. *)
Lemma add_section_title_not_stable :
  let titles := λ page, (λ s, anchor s) <$> parse_sections id page in
  let add := λ heading, apply demo_sha id demo_page [AddSection heading (lit "x")] in
  titles demo_page = [lit "Title"; lit "foo"] ∧
  add (lit "## foo") = Err (HeadingExists (lit "foo")) ∧
  match add (lit "## foo # #") with
  | Ok r => titles r = [lit "Title"; lit "foo"; lit "foo"]
  | Err _ => False
  end.
Proof. vm_compute. repeat split. Qed.
