(* ===== verification/BriefTiers.v ===== *)
(** * Tier assignment of the session brief

    Models [crates/ai-memory-hooks/src/brief_tiers.rs]: which depth each core
    page of the project brief renders at.  Byte counts are naturals: they are
    lengths of strings in memory, whose sums stay inside [usize]. *)

From S2P Require Export Prelude.

Definition SHORT_BODY_SLACK : nat := 128.

Inductive BriefTier := Omitted | TitleOnly | L0 | L1 | L2.

#[export] Instance BriefTier_eq_dec : EqDecision BriefTier.
Proof. solve_decision. Defined.

(** The derived order. *)
Definition depth (t : BriefTier) : nat :=
  match t with Omitted => 0 | TitleOnly => 1 | L0 => 2 | L1 => 3 | L2 => 4 end.

Definition tier_lt (t u : BriefTier) : bool := depth t <? depth u.
Definition tier_le (t u : BriefTier) : bool := depth t <=? depth u.

Record PageCosts := mkPageCosts {
  privileged : bool;
  title_only : nat;
  tier_costs : option (nat * nat * nat);
}.

Definition cost (page : PageCosts) (tier : BriefTier) : nat :=
  match tier, tier_costs page with
  | Omitted, _ => 0
  | L0, Some (l0, _, _) => l0
  | L1, Some (_, l1, _) => l1
  | L2, Some (_, _, l2) => l2
  | _, _ => title_only page
  end.

Definition l1_adds (page : PageCosts) : bool :=
  match tier_costs page with Some (l0, l1, _) => l0 <? l1 | None => false end.

Record BriefBudget := mkBriefBudget {
  prefix : nat;
  content_ceiling : nat;
  recent_full : nat;
  recent_first : nat;
}.

Record BriefPlan := mkBriefPlan {
  plan_tiers : list BriefTier;
  omitted_from : nat;
  recent_reserve : nat;
}.

(** The [recent_share] closure. *)
Definition recent_share (budget : BriefBudget) (left : nat) : nat :=
  Nat.min (recent_full budget) (Nat.max (left `div` 4) (recent_first budget)).

(** ** Coverage *)

Definition coverage_tier (page : PageCosts) : BriefTier :=
  match tier_costs page with
  | Some (l0, _, l2) => if l2 <? l0 then L2 else L0
  | None => TitleOnly
  end.

Definition coverage_ceiling (pages : list PageCosts) (budget : BriefBudget)
    (count_only : nat → nat) : nat :=
  let variable := content_ceiling budget - prefix budget in
  let recent_cap := recent_share budget variable in
  let omitted_floor := match pages with [] => 0 | _ => count_only (length pages) end in
  content_ceiling budget - (recent_cap + omitted_floor).

(** The coverage loop, up to its [break]: tiers of the covered pages, bytes
    spent. *)
Fixpoint cover (ceiling spent : nat) (pages : list PageCosts) : list BriefTier * nat :=
  match pages with
  | [] => ([], spent)
  | page :: pages' =>
      let tier := coverage_tier page in
      let c := cost page tier in
      if ceiling <? spent + c then ([], spent)
      else let '(tiers, spent') := cover ceiling (spent + c) pages' in (tier :: tiers, spent')
  end.

(** ** Reserves *)

Definition omitted_reserve_of (n_pages from remaining : nat)
    (omitted_full count_only : nat → nat) : nat :=
  if from =? n_pages then 0
  else Nat.min (Nat.max (Nat.min (omitted_full from) (remaining `div` 4))
                        (count_only (n_pages - from)))
               remaining.

Definition recent_reserve_of (budget : BriefBudget) (after_omitted : nat) : nat :=
  Nat.min (recent_share budget after_omitted) after_omitted.

(** ** Promotion *)

Definition positive (d : nat) : option nat := if d =? 0 then None else Some d.

(** [checked_sub]. *)
Definition checked_sub (a b : nat) : option nat := if b <=? a then Some (a - b) else None.

Definition delta (pages : list PageCosts) (tiers : list BriefTier) (idx : nat)
    (target : BriefTier) : option nat :=
  match pages !! idx, tiers !! idx with
  | Some page, Some current =>
      match tier_costs page with
      | Some _ =>
          if bool_decide (current ≠ TitleOnly) && tier_lt current target
          then checked_sub (cost page target) (cost page current) ≫= positive
          else None
      | None => None
      end
  | _, _ => None
  end.

Definition saving (pages : list PageCosts) (tiers : list BriefTier) (idx : nat)
    (target : BriefTier) : option nat :=
  match pages !! idx, tiers !! idx with
  | Some page, Some current =>
      match tier_costs page with
      | Some _ =>
          if bool_decide (target = L2) && bool_decide (current ≠ TitleOnly)
             && tier_lt current target
          then checked_sub (cost page current) (cost page target) ≫= positive
          else None
      | None => None
      end
  | _, _ => None
  end.

(** [d <= room.min(max_delta)], with [None] for [usize::MAX]. *)
Definition affordable (d room : nat) (max_delta : option nat) : bool :=
  (d <=? room) && match max_delta with Some m => d <=? m | None => true end.

(** One iteration of the [promote] closure's loop over [(tiers, room)]. *)
Definition promote_one (pages : list PageCosts) (target : BriefTier) (max_delta : option nat)
    (st : list BriefTier * nat) (idx : nat) : list BriefTier * nat :=
  let '(tiers, room) := st in
  match saving pages tiers idx target with
  | Some s => (<[idx := target]> tiers, room + s)
  | None =>
      match delta pages tiers idx target with
      | Some d =>
          if affordable d room max_delta then (<[idx := target]> tiers, room - d) else st
      | None => st
      end
  end.

Definition promote (pages : list PageCosts) (order : list nat) (target : BriefTier)
    (max_delta : option nat) (st : list BriefTier * nat) : list BriefTier * nat :=
  foldl (promote_one pages target max_delta) st order.

Definition privileged_at (pages : list PageCosts) (idx : nat) : bool :=
  match pages !! idx with Some page => privileged page | None => false end.

Definition every_page_at_l1 (included : list PageCosts) (tiers : list BriefTier) : bool :=
  forallb (λ '(page, tier), tier_le L1 tier || negb (l1_adds page)) (zip included tiers).

(** Keys [(Option<usize>, usize)] of the cheapest-first order. *)
Definition option_nat_lt (a b : option nat) : bool :=
  match a, b with
  | None, Some _ => true
  | Some x, Some y => x <? y
  | _, None => false
  end.

Definition cheapest_lt (a b : option nat * nat) : bool :=
  option_nat_lt (fst a) (fst b)
  || negb (option_nat_lt (fst b) (fst a)) && (snd a <? snd b).

(** The four unconditional passes. *)
Definition deepen (pages : list PageCosts) (priv unpriv : list nat)
    (st : list BriefTier * nat) : list BriefTier * nat :=
  let st := promote pages priv L1 None st in
  let st := promote pages priv L2 None st in
  let st := promote pages unpriv L1 None st in
  promote pages unpriv L2 (Some SHORT_BODY_SLACK) st.

(** Everything [assign_tiers] computes before promoting: the covered tiers, the
    first omitted page, and the two reserves. *)
Definition assign_reserves (pages : list PageCosts) (budget : BriefBudget)
    (omitted_full count_only : nat → nat) : list BriefTier * nat * nat * nat :=
  let '(covered, spent) := cover (coverage_ceiling pages budget count_only) (prefix budget) pages in
  let remaining := content_ceiling budget - spent in
  let omitted_reserve :=
    omitted_reserve_of (length pages) (length covered) remaining omitted_full count_only in
  let reserve := recent_reserve_of budget (remaining - omitted_reserve) in
  (covered, remaining, omitted_reserve, reserve).

Definition assign_tiers (pages : list PageCosts) (budget : BriefBudget)
    (omitted_full count_only : nat → nat) : BriefPlan :=
  let '(covered, remaining, omitted_reserve, reserve) :=
    assign_reserves pages budget omitted_full count_only in
  let from := length covered in
  let tiers := covered ++ replicate (length pages - from) Omitted in
  let room := remaining - (omitted_reserve + reserve) in
  let priv := filter (λ i, privileged_at pages i = true) (seq 0 from) in
  let unpriv := filter (λ i, privileged_at pages i = false) (seq 0 from) in
  let '(tiers, room) := deepen pages priv unpriv (tiers, room) in
  let '(tiers, _) :=
    if every_page_at_l1 (take from pages) tiers then
      let cheapest := sort_by_key (λ i, (delta pages tiers i L2, i)) cheapest_lt unpriv in
      promote pages cheapest L2 None (tiers, room)
    else (tiers, room) in
  mkBriefPlan tiers from reserve.
