(* ===== verification/BriefTiersFacts.v ===== *)
(** * The session brief: budget, coverage and priority *)

From S2P Require Export BriefTiers.

(** Bytes the pages render to. *)
Definition total (pages : list PageCosts) (tiers : list BriefTier) : nat :=
  sum_list (zip_with cost pages tiers).

Lemma total_insert pages tiers i page t u :
  pages !! i = Some page → tiers !! i = Some t →
  total pages (<[i := u]> tiers) + cost page t = total pages tiers + cost page u.
Proof.
  unfold total. revert pages tiers; induction i as [|i IH];
    intros [|p pages] [|t' tiers] Hp Ht; simpl in *; simplify_eq; [lia|].
  specialize (IH _ _ Hp Ht). lia.
Qed.

Lemma total_replicate pages n : total pages (replicate n Omitted) = 0.
Proof. unfold total. revert pages; induction n; intros [|p pages]; simpl; auto. Qed.

Lemma total_omitted pages tiers n : total pages (tiers ++ replicate n Omitted) = total pages tiers.
Proof.
  revert pages; induction tiers as [|t tiers IH]; intros pages.
  - rewrite app_nil_l, total_replicate. unfold total. by destruct pages.
  - destruct pages as [|p pages]; [done|]. unfold total in *. simpl. by rewrite IH.
Qed.

(** ** One promotion *)

(** What a successful promotion changes. *)
Inductive deepened (pages : list PageCosts) (target : BriefTier) (max_delta : option nat)
    (st : list BriefTier * nat) (idx : nat) : list BriefTier * nat → Prop :=
  | deepened_intro page current excerpts room' :
      pages !! idx = Some page → fst st !! idx = Some current →
      tier_costs page = Some excerpts → current ≠ TitleOnly → depth current < depth target →
      room' + cost page target = snd st + cost page current →
      (target = L2 ∧ cost page target < cost page current ∨
       cost page current < cost page target ∧
       affordable (cost page target - cost page current) (snd st) max_delta = true) →
      deepened pages target max_delta st idx (<[idx := target]> (fst st), room').

Lemma positive_sub_Some a b d : checked_sub a b ≫= positive = Some d ↔ b < a ∧ d = a - b.
Proof.
  unfold checked_sub, positive. destruct (b <=? a) eqn:E; simpl.
  - apply Nat.leb_le in E. destruct (a - b =? 0) eqn:E2; simpl.
    + apply Nat.eqb_eq in E2. split; [done|lia].
    + apply Nat.eqb_neq in E2. split; [intros [= <-]; lia|intros [? ->]; done].
  - apply Nat.leb_gt in E. split; [done|lia].
Qed.

Lemma promote_one_cases pages target max_delta st idx :
  promote_one pages target max_delta st idx = st ∨
  deepened pages target max_delta st idx (promote_one pages target max_delta st idx).
Proof.
  destruct st as [tiers room]. unfold promote_one.
  destruct (saving pages tiers idx target) as [s|] eqn:Es.
  - right. unfold saving in Es. repeat case_match; simplify_eq.
    repeat match goal with H : _ && _ = true |- _ => apply andb_true_iff in H as [] end.
    apply positive_sub_Some in Es as [? ->]. unfold tier_lt in *.
    econstructor; simpl; eauto; try by eapply bool_decide_eq_true_1.
    + by apply Nat.ltb_lt.
    + lia.
    + left. split; [by eapply bool_decide_eq_true_1|done].
  - destruct (delta pages tiers idx target) as [d|] eqn:Ed; [|by left].
    destruct (affordable d room max_delta) eqn:Ea; [|by left]. right.
    unfold delta in Ed. repeat case_match; simplify_eq.
    repeat match goal with H : _ && _ = true |- _ => apply andb_true_iff in H as [] end.
    apply positive_sub_Some in Ed as [? ->]. unfold tier_lt in *.
    econstructor; simpl; eauto; try by eapply bool_decide_eq_true_1.
    + by apply Nat.ltb_lt.
    + unfold affordable in Ea. apply andb_true_iff in Ea as [?%Nat.leb_le _]. lia.
Qed.

(** Rule induction over a pass. *)
Lemma promote_ind pages order target max_delta (P : list BriefTier * nat → Prop) :
  (∀ st idx st', idx ∈ order → P st → deepened pages target max_delta st idx st' → P st') →
  ∀ st, P st → P (promote pages order target max_delta st).
Proof.
  unfold promote. induction order as [|i order IH]; intros Hstep st Hst; cbn [foldl]; [done|].
  apply IH; [intros; eapply Hstep; [|done..]; set_solver|].
  destruct (promote_one_cases pages target max_delta st i) as [->|Hd]; [done|].
  eapply Hstep; [|done..]. set_solver.
Qed.

(** ** What every pass preserves *)

Definition ledger (pages : list PageCosts) (n : nat) (st : list BriefTier * nat) : Prop :=
  total pages (fst st) + snd st = n.

Lemma promote_ledger pages order target max_delta st n :
  ledger pages n st → ledger pages n (promote pages order target max_delta st).
Proof.
  intros H. apply promote_ind; [|done]. clear st H. unfold ledger.
  intros st i st' _ <- [page current ? room' Hp Ht _ _ _ Hroom _]. simpl.
  pose proof (total_insert _ _ _ _ _ target Hp Ht). lia.
Qed.

(** Covered pages show at least their coverage tier, the rest nothing. *)
Definition tier_ok (from i : nat) (page : PageCosts) (tier : BriefTier) : Prop :=
  if decide (i < from)
  then depth (coverage_tier page) ≤ depth tier ∧
       match tier_costs page with None => tier = TitleOnly | Some _ => tier ≠ TitleOnly end
  else tier = Omitted.

Definition shape (pages : list PageCosts) (from : nat) (tiers : list BriefTier) : Prop :=
  length tiers = length pages ∧
  ∀ i page tier, pages !! i = Some page → tiers !! i = Some tier → tier_ok from i page tier.

Definition below (from : nat) (order : list nat) : Prop := Forall (λ i, i < from) order.

Lemma promote_shape pages order target max_delta st from :
  below from order → target = L1 ∨ target = L2 →
  shape pages from (fst st) → shape pages from (fst (promote pages order target max_delta st)).
Proof.
  intros Ho Ht Hs. apply promote_ind; [|done]. clear st Hs.
  intros st i st' Hi [Hl Hs] [page current exc room' Hp Hc Hex Hto Hd _ _]. simpl.
  unfold below in Ho. rewrite Forall_forall in Ho. specialize (Ho i Hi).
  split; [by rewrite length_insert|]. intros j pj tj Hpj Htj.
  destruct (decide (i = j)) as [<-|Hne].
  - rewrite list_lookup_insert_eq in Htj by by eapply lookup_lt_Some.
    simplify_eq. specialize (Hs _ _ _ Hp Hc). unfold tier_ok in *. rewrite decide_True in * by done.
    rewrite Hex in *. split; [lia|]. by destruct Ht as [-> | ->].
  - rewrite list_lookup_insert_ne in Htj by done. by eapply Hs.
Qed.

(** Tiers only deepen, and only at indices of the pass. *)
Definition only_deeper (order : list nat) (tiers tiers' : list BriefTier) : Prop :=
  ∀ j t, tiers !! j = Some t → ∃ t', tiers' !! j = Some t' ∧ depth t ≤ depth t' ∧
    (j ∉ order → t' = t).

Lemma promote_only_deeper pages order target max_delta st :
  only_deeper order (fst st) (fst (promote pages order target max_delta st)).
Proof.
  apply (promote_ind _ _ _ _ (λ st', only_deeper order (fst st) (fst st')));
    [|intros j t Hj; by exists t].
  intros st1 i st2 Hi H1 [page current ? room' Hp Hc _ _ Hd _ _] j t Hj. simpl.
  destruct (H1 j t Hj) as (t' & Ht' & Hle & Heq). destruct (decide (i = j)) as [->|Hne].
  - rewrite list_lookup_insert_eq by by eapply lookup_lt_Some.
    exists target. simplify_eq. split_and!; [done|lia|done].
  - rewrite list_lookup_insert_ne by done. by exists t'.
Qed.

(** ** Coverage *)

Definition coverage_cost (page : PageCosts) : nat := cost page (coverage_tier page).

Lemma cover_spec ceiling spent pages :
  let '(covered, spent') := cover ceiling spent pages in
  length covered ≤ length pages ∧
  covered = coverage_tier <$> take (length covered) pages ∧
  spent' = spent + total pages covered ∧
  (spent ≤ ceiling → spent' ≤ ceiling) ∧
  (covered ≠ [] → spent' ≤ ceiling) ∧
  (∀ page, pages !! length covered = Some page → ceiling < spent' + coverage_cost page).
Proof.
  unfold total, coverage_cost. revert spent; induction pages as [|p pages IH]; intros spent;
    cbn [cover]; [simpl; split_and!; try done; lia|].
  destruct (ceiling <? spent + cost p (coverage_tier p)) eqn:E.
  - apply Nat.ltb_lt in E. simpl. split_and!; try done; try lia. by intros ? [= <-].
  - apply Nat.ltb_ge in E. specialize (IH (spent + cost p (coverage_tier p))).
    destruct (cover ceiling _ pages) as [covered spent'].
    destruct IH as (H1 & H2 & H3 & H4 & _ & H6). simpl.
    split_and!; [lia|by f_equal|lia|intros; apply H4; lia|intros; apply H4; lia|exact H6].
Qed.

Lemma covered_shape pages covered n :
  length covered ≤ length pages → covered = coverage_tier <$> take (length covered) pages →
  n = length pages - length covered →
  shape pages (length covered) (covered ++ replicate n Omitted).
Proof.
  intros Hle Hc ->. split; [rewrite length_app, length_replicate; lia|].
  intros i page tier Hp Ht. unfold tier_ok. case_decide as Hi.
  - rewrite lookup_app_l, Hc, list_lookup_fmap, lookup_take_lt, Hp in Ht by done. simplify_eq/=.
    split; [done|]. unfold coverage_tier. repeat case_match; done.
  - rewrite lookup_app_r in Ht by lia. by apply lookup_replicate in Ht as [-> _].
Qed.

(** ** The plan, stage by stage *)

Section Plan.
Variables (pages : list PageCosts) (budget : BriefBudget) (omitted_full count_only : nat → nat).

#[local] Abbreviation plan := (assign_tiers pages budget omitted_full count_only).
#[local] Abbreviation reserves := (assign_reserves pages budget omitted_full count_only).

Definition covering : list BriefTier * nat :=
  cover (coverage_ceiling pages budget count_only) (prefix budget) pages.
Definition from : nat := length (fst covering).
Definition remaining : nat := content_ceiling budget - snd covering.

(** Bytes held back for the section that lists the omitted pages. *)
Definition omitted_reserve : nat :=
  omitted_reserve_of (length pages) from remaining omitted_full count_only.
Definition held_recent : nat := recent_reserve_of budget (remaining - omitted_reserve).

Definition start_state : list BriefTier * nat :=
  (fst covering ++ replicate (length pages - from) Omitted,
   remaining - (omitted_reserve + held_recent)).
Definition priv : list nat := filter (λ i, privileged_at pages i = true) (seq 0 from).
Definition unpriv : list nat := filter (λ i, privileged_at pages i = false) (seq 0 from).
Definition deep_state : list BriefTier * nat := deepen pages priv unpriv start_state.
Definition cheapest : list nat :=
  sort_by_key (λ i, (delta pages (fst deep_state) i L2, i)) cheapest_lt unpriv.
Definition final_state : list BriefTier * nat :=
  if every_page_at_l1 (take from pages) (fst deep_state)
  then promote pages cheapest L2 None deep_state else deep_state.

Lemma assign_tiers_eq : plan = mkBriefPlan (fst final_state) from held_recent.
Proof.
  unfold assign_tiers, assign_reserves, final_state, cheapest, deep_state, start_state,
    held_recent, omitted_reserve, remaining, priv, unpriv, from, covering.
  destruct (cover _ _ _) as [covered spent]. cbn [fst snd].
  destruct (deepen _ _ _ _) as [tiers room]. cbn [fst snd].
  destruct (every_page_at_l1 _ _); [|done]. by destruct (promote _ _ _ _ _).
Qed.

Lemma priv_below : below from priv.
Proof. apply Forall_forall. intros i [_ ?%elem_of_seq]%list_elem_of_filter. lia. Qed.

Lemma unpriv_below : below from unpriv.
Proof. apply Forall_forall. intros i [_ ?%elem_of_seq]%list_elem_of_filter. lia. Qed.

Lemma cheapest_perm : cheapest ≡ₚ unpriv.
Proof. apply sort_by_key_perm. Qed.

Lemma cheapest_below : below from cheapest.
Proof. unfold below. rewrite cheapest_perm. apply unpriv_below. Qed.

(** Rule for whatever every pass preserves. *)
Lemma final_state_ind (P : list BriefTier * nat → Prop) :
  (∀ order target m st, below from order → target = L1 ∨ target = L2 → P st →
     P (promote pages order target m st)) →
  P start_state → P final_state.
Proof.
  intros Hp H0. pose proof priv_below. pose proof unpriv_below. pose proof cheapest_below.
  assert (P deep_state) by (unfold deep_state, deepen; auto 10).
  unfold final_state. destruct (every_page_at_l1 _ _); auto.
Qed.

Lemma covering_facts :
  from ≤ length pages ∧
  fst covering = coverage_tier <$> take from pages ∧
  snd covering = prefix budget + total pages (fst covering) ∧
  (fst covering ≠ [] → snd covering ≤ coverage_ceiling pages budget count_only) ∧
  (∀ page, pages !! from = Some page →
     coverage_ceiling pages budget count_only < snd covering + coverage_cost page).
Proof.
  unfold from, covering.
  pose proof (cover_spec (coverage_ceiling pages budget count_only) (prefix budget) pages) as H.
  destruct (cover _ _ _) as [covered spent]. simpl. intuition.
Qed.

Lemma covering_le : prefix budget ≤ content_ceiling budget → snd covering ≤ content_ceiling budget.
Proof.
  intros Hp. destruct covering_facts as (_ & _ & Hs & Hc & _).
  destruct (fst covering) eqn:E; [rewrite Hs; unfold total; simpl; destruct pages; simpl; lia|].
  specialize (Hc ltac:(done)). unfold coverage_ceiling in Hc. lia.
Qed.

Lemma omitted_reserve_le : omitted_reserve ≤ remaining.
Proof. unfold omitted_reserve, omitted_reserve_of. destruct (_ =? _); lia. Qed.

Lemma held_recent_le : omitted_reserve + held_recent ≤ remaining.
Proof. unfold held_recent, recent_reserve_of. pose proof omitted_reserve_le. lia. Qed.

Lemma final_ledger :
  prefix budget ≤ content_ceiling budget →
  prefix budget + total pages (fst final_state) + snd final_state + omitted_reserve + held_recent
  = content_ceiling budget.
Proof.
  intros Hp. pose proof (covering_le Hp) as Hle. pose proof held_recent_le.
  destruct covering_facts as (_ & _ & Hs & _).
  assert (Hl : ledger pages (total pages (fst covering) + snd start_state) final_state).
  { apply final_state_ind; [auto using promote_ledger|].
    unfold ledger, start_state. simpl. by rewrite total_omitted. }
  unfold ledger, start_state in Hl. simpl in Hl. unfold remaining in *. lia.
Qed.

Lemma final_shape : shape pages from (fst final_state).
Proof.
  apply (final_state_ind (λ st, shape pages from (fst st))).
  - intros. by apply promote_shape.
  - destruct covering_facts as (? & ? & _). unfold start_state, from in *. simpl.
    by apply covered_shape.
Qed.

(** The count of omitted pages keeps its room. *)
Lemma omitted_count_fits :
  (∀ m n, m ≤ n → count_only m ≤ count_only n) →
  prefix budget + recent_share budget (content_ceiling budget - prefix budget)
    + count_only (length pages) ≤ content_ceiling budget →
  from < length pages → count_only (length pages - from) ≤ omitted_reserve.
Proof.
  intros Hmono Hroom Hfrom. unfold omitted_reserve, omitted_reserve_of.
  rewrite (proj2 (Nat.eqb_neq _ _)) by lia.
  assert (count_only (length pages) ≤ remaining); [|specialize (Hmono (length pages - from) (length pages)); lia].
  destruct covering_facts as (_ & _ & Hs & Hc & _). unfold remaining, coverage_ceiling in *.
  destruct (fst covering) eqn:E.
  - rewrite Hs. unfold total. simpl. destruct pages; simpl in *; lia.
  - specialize (Hc ltac:(done)). destruct pages; simpl in *; lia.
Qed.
End Plan.

(** The brief never exceeds its budget: what the pages render to, the
    room held for the omitted and the recent sections and the fixed prefix add
    up to at most the content ceiling; and when pages are crowded out, the
    line that counts them always keeps its room. *)
Theorem brief_fits_budget pages budget omitted_full count_only :
  prefix budget ≤ content_ceiling budget →
  let plan := assign_tiers pages budget omitted_full count_only in
  let held := omitted_reserve pages budget omitted_full count_only in
  prefix budget + total pages (plan_tiers plan) + held + recent_reserve plan
    ≤ content_ceiling budget
  ∧ ((∀ m n, m ≤ n → count_only m ≤ count_only n) →
     prefix budget + recent_share budget (content_ceiling budget - prefix budget)
       + count_only (length pages) ≤ content_ceiling budget →
     omitted_from plan < length pages → count_only (length pages - omitted_from plan) ≤ held).
Proof.
  intros Hp plan held. unfold plan. rewrite assign_tiers_eq. simpl. split.
  - pose proof (final_ledger pages budget omitted_full count_only Hp). lia.
  - apply omitted_count_fits.
Qed.

(** Coverage first: the omitted pages are a suffix, every page before it
    shows at least its cheapest full form (a page without an excerpt exactly
    its path line), and the suffix begins at the first page whose coverage
    does not fit. *)
Theorem brief_coverage_first pages budget omitted_full count_only :
  let plan := assign_tiers pages budget omitted_full count_only in
  let ceiling := coverage_ceiling pages budget count_only in
  let spent := λ k, prefix budget + sum_list (coverage_cost <$> take k pages) in
  omitted_from plan ≤ length pages ∧
  shape pages (omitted_from plan) (plan_tiers plan) ∧
  (0 < omitted_from plan → spent (omitted_from plan) ≤ ceiling) ∧
  (∀ page, pages !! omitted_from plan = Some page →
     ceiling < spent (omitted_from plan) + coverage_cost page).
Proof.
  intros plan ceiling spent. unfold plan. rewrite assign_tiers_eq. simpl.
  destruct (covering_facts pages budget omitted_full count_only) as (Hle & Hcov & Hs & Hc & Hn).
  assert (Hspent : spent (from pages budget count_only) = snd (covering pages budget count_only)).
  { unfold spent. rewrite Hs, Hcov. f_equal. unfold total. clear.
    generalize (from pages budget count_only). induction pages as [|p ps IH]; intros [|n]; simpl; auto. }
  split_and!; [done|apply final_shape| |].
  - intros H0. rewrite Hspent. apply Hc. intros E. unfold from in H0. rewrite E in H0. simpl in H0. lia.
  - intros page Hpage. rewrite Hspent. by apply Hn.
Qed.

(** ** Priority *)

Lemma promote_untouched pages order target max_delta st j :
  j ∉ order → fst (promote pages order target max_delta st) !! j = fst st !! j.
Proof.
  intros Hj.
  apply (promote_ind _ _ _ _ (λ st', fst st' !! j = fst st !! j)); [|done].
  intros st1 i st2 Hi <- [page current ? room' ? ? ? ? ? ? ?]. simpl.
  apply list_lookup_insert_ne. congruence.
Qed.

Section Priority.
Variables (pages : list PageCosts) (budget : BriefBudget) (omitted_full count_only : nat → nat).

#[local] Abbreviation start := (start_state pages budget omitted_full count_only).
#[local] Abbreviation deep := (deep_state pages budget omitted_full count_only).
#[local] Abbreviation final := (final_state pages budget omitted_full count_only).
#[local] Abbreviation priv := (priv pages budget count_only).
#[local] Abbreviation unpriv := (unpriv pages budget count_only).
#[local] Abbreviation from := (from pages budget count_only).

(** What the privileged pages get before any other page is looked at. *)
Definition privileged_state : list BriefTier * nat :=
  promote pages priv L2 None (promote pages priv L1 None start).

Lemma elem_of_unpriv i : i ∈ unpriv ↔ privileged_at pages i = false ∧ i < from.
Proof. unfold BriefTiersFacts.unpriv. rewrite list_elem_of_filter, elem_of_seq. lia || intuition lia. Qed.

Lemma elem_of_priv i : i ∈ priv ↔ privileged_at pages i = true ∧ i < from.
Proof. unfold BriefTiersFacts.priv. rewrite list_elem_of_filter, elem_of_seq. intuition lia. Qed.

Lemma final_privileged i :
  privileged_at pages i = true → fst final !! i = fst privileged_state !! i.
Proof.
  intros Hi. assert (Hn : i ∉ unpriv) by (rewrite elem_of_unpriv; intros [? _]; congruence).
  assert (Hd : fst deep !! i = fst privileged_state !! i).
  { unfold deep_state, deepen. by rewrite !(promote_untouched _ unpriv) by done. }
  rewrite <- Hd. unfold final_state. destruct (every_page_at_l1 _ _); [|done].
  apply promote_untouched. by rewrite cheapest_perm.
Qed.

Lemma start_coverage i page :
  pages !! i = Some page → i < from → fst start !! i = Some (coverage_tier page).
Proof.
  intros Hp Hi. destruct (covering_facts pages budget omitted_full count_only) as (Hle & Hcov & _).
  unfold start_state. simpl. unfold BriefTiersFacts.from in Hi.
  rewrite lookup_app_l, Hcov, list_lookup_fmap, lookup_take_lt by done. by rewrite Hp.
Qed.

(** A long body is not taken by the unconditional passes. *)
Lemma deep_not_L2 i page l0 l1 l2 :
  pages !! i = Some page → privileged page = false → i < from →
  tier_costs page = Some (l0, l1, l2) → Nat.max l0 l1 + SHORT_BODY_SLACK < l2 →
  fst deep !! i ≠ Some L2.
Proof.
  intros Hp Hpriv Hi Hc Hl.
  assert (Hn : i ∉ priv).
  { rewrite elem_of_priv. unfold privileged_at. rewrite Hp. intros [? _]. congruence. }
  assert (Hcur : ∀ t, t ≠ TitleOnly → depth t < depth L2 → cost page t ≤ Nat.max l0 l1).
  { intros [] ? Hd; unfold cost; rewrite ?Hc; simpl in *; (done || lia). }
  unfold deep_state, deepen.
  apply (promote_ind _ _ _ _ (λ st, fst st !! i ≠ Some L2)).
  - intros st j st' _ Hst [pg cur exc room' Hpg Htj Hexc Hto Hd Hr Hcase]. simpl.
    destruct (decide (j = i)) as [->|Hne]; [|by rewrite list_lookup_insert_ne].
    simplify_eq. exfalso. specialize (Hcur cur Hto Hd).
    assert (cost page L2 = l2) as Hl2 by (unfold cost; by rewrite Hc).
    destruct Hcase as [[_ ?]|[? Ha]]; [lia|].
    unfold affordable in Ha. apply andb_true_iff in Ha as [_ ?%Nat.leb_le]. lia.
  - apply (promote_ind _ _ _ _ (λ st, fst st !! i ≠ Some L2)).
    + intros st j st' _ Hst [pg cur exc room' Hpg Htj Hexc Hto Hd Hr Hcase]. simpl.
      destruct (decide (j = i)) as [->|Hne]; [|by rewrite list_lookup_insert_ne].
      rewrite list_lookup_insert_eq by by eapply lookup_lt_Some. done.
    + rewrite !promote_untouched by done. rewrite (start_coverage _ _ Hp Hi).
      unfold coverage_tier. rewrite Hc. rewrite (proj2 (Nat.ltb_ge _ _)) by lia. done.
Qed.

Lemma final_deeper j t :
  fst deep !! j = Some t → ∃ t', fst final !! j = Some t' ∧ depth t ≤ depth t'.
Proof.
  intros Hj. unfold final_state. destruct (every_page_at_l1 _ _); [|by exists t].
  destruct (promote_only_deeper pages (cheapest pages budget omitted_full count_only) L2 None deep j t Hj)
    as (t' & ? & ? & _). by exists t'.
Qed.

(** A long unprivileged body means every included page shows its L1. *)
Lemma long_body_last i page l0 l1 l2 :
  pages !! i = Some page → privileged page = false →
  tier_costs page = Some (l0, l1, l2) → Nat.max l0 l1 + SHORT_BODY_SLACK < l2 →
  fst final !! i = Some L2 →
  ∀ j pj tj, j < from → pages !! j = Some pj → fst final !! j = Some tj →
    3 ≤ depth tj ∨ l1_adds pj = false.
Proof.
  intros Hp Hpriv Hc Hl HL2 j pj tj Hj Hpj Htj.
  pose proof (final_shape pages budget omitted_full count_only) as [Hlen Hs].
  assert (Hi : i < from).
  { specialize (Hs _ _ _ Hp HL2). unfold tier_ok in Hs. case_decide; [done|]. discriminate Hs. }
  pose proof (deep_not_L2 i page l0 l1 l2 Hp Hpriv Hi Hc Hl) as Hdeep.
  assert (Hgate : every_page_at_l1 (take from pages) (fst deep) = true).
  { unfold final_state in HL2. destruct (every_page_at_l1 _ _); done. }
  assert (Hdl : length (fst deep) = length pages).
  { unfold final_state in Hlen. rewrite Hgate in Hlen. rewrite <- Hlen. symmetry.
    apply (promote_ind _ _ _ _ (λ st, length (fst st) = length (fst deep))); [|done].
    intros st k st' _ <- []. simpl. by rewrite length_insert. }
  destruct (lookup_lt_is_Some_2 (fst deep) j) as [t Ht];
    [rewrite Hdl; by eapply lookup_lt_Some|].
  destruct (final_deeper _ _ Ht) as (t' & Ht' & Hdt). simplify_eq.
  unfold every_page_at_l1 in Hgate. rewrite forallb_forall in Hgate.
  assert (Hz : (pj, t) ∈ zip (take from pages) (fst deep)).
  { apply list_elem_of_lookup. exists j. apply lookup_zip_with_Some.
    exists pj, t. split; [done|]. rewrite lookup_take_lt by done. done. }
  apply list_elem_of_In, Hgate, orb_true_iff in Hz as [Hz|Hz].
  - unfold tier_le in Hz. apply Nat.leb_le in Hz. simpl in Hz. left. lia.
  - right. by apply negb_true_iff.
Qed.
End Priority.

(** Priority: privileged pages are deepened as if no other page competed
    for the room, and a long body of another page is shown whole only when
    every included page shows as much as its longer excerpt can. *)
Theorem brief_priority pages budget omitted_full count_only :
  let plan := assign_tiers pages budget omitted_full count_only in
  (∀ i, privileged_at pages i = true →
     plan_tiers plan !! i = fst (privileged_state pages budget omitted_full count_only) !! i) ∧
  (∀ i page l0 l1 l2,
     pages !! i = Some page → privileged page = false →
     tier_costs page = Some (l0, l1, l2) → Nat.max l0 l1 + SHORT_BODY_SLACK < l2 →
     plan_tiers plan !! i = Some L2 →
     ∀ j pj tj, j < omitted_from plan → pages !! j = Some pj →
       plan_tiers plan !! j = Some tj → tier_le L1 tj = true ∨ l1_adds pj = false).
Proof.
  intros plan. unfold plan. rewrite assign_tiers_eq. simpl. split; [apply final_privileged|].
  intros i page l0 l1 l2 Hp Hpr Hc Hl HL2 j pj tj Hj Hpj Htj.
  destruct (long_body_last _ _ _ _ _ _ _ _ _ Hp Hpr Hc Hl HL2 _ _ _ Hj Hpj Htj); [|by right].
  left. by apply Nat.leb_le.
Qed.

(** ** A concrete brief *)

Definition demo_pages : list PageCosts :=
  [mkPageCosts true 20 (Some (100, 200, 400)); mkPageCosts false 20 (Some (100, 150, 900));
   mkPageCosts false 20 None; mkPageCosts false 20 (Some (300, 400, 500))].

Definition demo_budget : BriefBudget := mkBriefBudget 100 1100 200 50.

Lemma brief_fits_budget_witness :
  prefix demo_budget ≤ content_ceiling demo_budget ∧
  prefix demo_budget
    + total demo_pages (plan_tiers (assign_tiers demo_pages demo_budget (λ _, 90) (λ _, 60)))
    + omitted_reserve demo_pages demo_budget (λ _, 90) (λ _, 60)
    + recent_reserve (assign_tiers demo_pages demo_budget (λ _, 90) (λ _, 60))
    ≤ content_ceiling demo_budget.
Proof.
  assert (H : prefix demo_budget ≤ content_ceiling demo_budget) by (simpl; lia).
  split; [exact H|]. exact (proj1 (brief_fits_budget demo_pages demo_budget (λ _, 90) (λ _, 60) H)).
Defined.
