(* ===== verification/Diff.v ===== *)
(** * Bounded line diff

    Models [crates/ai-memory-web/src/diff.rs]: Myers' greedy search with its
    trace and backtracking, the trimming around it, and the grouping of an edit
    script into hunks.  A line is a byte list; the furthest-reaching array [v]
    is a list of naturals addressed by diagonal plus offset. *)

From S2P Require Export Text.

Definition MAX_INPUT_BYTES : Z := 512 * 1024.
Definition MAX_INPUT_LINES : Z := 10000.
Definition MAX_EDIT_DISTANCE : Z := 1000.
Definition MAX_OUTPUT_LINES : Z := 2000.
Definition CONTEXT : nat := 3.

(** ** Data *)

Record DiffLine := mkDiffLine { op : ascii; text : bytes }.

Record Hunk := mkHunk {
  old_start : nat;
  old_len : nat;
  new_start : nat;
  new_len : nat;
  hunk_lines : list DiffLine;
}.

Inductive Diff :=
  | Same
  | Changed (hunks : list Hunk) (truncated : bool)
  | TooLarge (why : string).

Inductive Op := Keep | Delete | Insert.

#[export] Instance Op_eq_dec : EqDecision Op.
Proof. solve_decision. Defined.

(** [Hunk::header]. *)
Definition header (h : Hunk) : string :=
  ("@@ -" +:+ pretty (old_start h) +:+ "," +:+ pretty (old_len h) +:+ " +"
   +:+ pretty (new_start h) +:+ "," +:+ pretty (new_len h) +:+ " @@")%string.

(** ** Myers' search *)

Section Myers.
Variables a b : list bytes.

(** [v[k + offset]]. *)
Definition vget (offset : nat) (v : list nat) (k : Z) : nat :=
  v !!! Z.to_nat (k + Z.of_nat offset).
Definition vset (offset : nat) (v : list nat) (k : Z) (x : nat) : list nat :=
  <[Z.to_nat (k + Z.of_nat offset) := x]> v.

(** Does round [d] enter diagonal [k] from the one above ([k + 1])? *)
Definition from_above (offset : nat) (v : list nat) (d k : Z) : bool :=
  ((k =? - d) || negb (k =? d) && (vget offset v (k - 1) <? vget offset v (k + 1))%nat)%Z.

Definition entry_x (offset : nat) (v : list nat) (d k : Z) : nat :=
  if from_above offset v d k then vget offset v (k + 1) else S (vget offset v (k - 1)).

(** The diagonal run [while x < n && y < m && a[x] == b[y]]; [fuel] bounds its
    length. *)
Fixpoint snake (fuel x y : nat) : nat * nat :=
  match fuel with
  | 0 => (x, y)
  | S fuel' =>
      match a !! x, b !! y with
      | Some p, Some q => if decide (p = q) then snake fuel' (S x) (S y) else (x, y)
      | _, _ => (x, y)
      end
  end.

Inductive RoundResult := Found | NotFound (v : list nat).

(** The loop over the diagonals [k], [k + 2], ... of round [d]. *)
Fixpoint round (offset : nat) (d : Z) (steps : nat) (k : Z) (v : list nat) : RoundResult :=
  match steps with
  | 0 => NotFound v
  | S steps' =>
      let x0 := entry_x offset v d k in
      let y0 := Z.to_nat (Z.of_nat x0 - k) in
      let '(x, y) := snake (length a) x0 y0 in
      let v' := vset offset v k x in
      if (length a <=? x) && (length b <=? y) then Found
      else round offset d steps' (k + 2) v'
  end.

(** The loop over the edit distances [d], [d + 1], ...; it returns the trace. *)
Fixpoint search (offset rounds d : nat) (v : list nat) (trace : list (list nat))
    : option (list (list nat)) :=
  match rounds with
  | 0 => None
  | S rounds' =>
      let trace' := trace ++ [v] in
      match round offset (Z.of_nat d) (S d) (- Z.of_nat d) v with
      | Found => Some trace'
      | NotFound v' => search offset rounds' (S d) v' trace'
      end
  end.

(** [while x > prev_x && y > prev_y { ops.push(Keep) }]; the operations are
    pushed in reverse, so a push is a cons. *)
Fixpoint keep_back (fuel : nat) (x y prev_x prev_y : Z) (ops : list Op) : Z * Z * list Op :=
  match fuel with
  | 0 => (x, y, ops)
  | S fuel' =>
      if ((prev_x <? x) && (prev_y <? y))%Z
      then keep_back fuel' (x - 1) (y - 1) prev_x prev_y (Keep :: ops)
      else (x, y, ops)
  end.

(** One step of [backtrack], at edit distance [d] with the frontier [v]. *)
Definition back_step (offset : nat) (d : nat) (v : list nat) (st : Z * Z * list Op)
    : Z * Z * list Op :=
  let '(x, y, ops) := st in
  let k := (x - y)%Z in
  let prev_k := if from_above offset v (Z.of_nat d) k then (k + 1)%Z else (k - 1)%Z in
  let prev_x := if d =? 0 then 0%Z else Z.of_nat (vget offset v prev_k) in
  let prev_y := if d =? 0 then 0%Z else (prev_x - prev_k)%Z in
  let '(x', _, ops') := keep_back (Z.to_nat x) x y prev_x prev_y ops in
  let ops'' := if d =? 0 then ops'
               else (if (x' =? prev_x)%Z then Insert else Delete) :: ops' in
  (prev_x, prev_y, ops'').

(** [for (d, v) in trace.iter().enumerate().rev()]. *)
Definition backtrack (offset : nat) (trace : list (list nat)) : list Op :=
  snd (foldr (λ '(d, v) st, back_step offset d v st)
         (Z.of_nat (length a), Z.of_nat (length b), [])
         (imap pair trace)).

Definition myers : option (list Op) :=
  let max := length a + length b in
  if max =? 0 then Some []
  else
    let limit := Z.to_nat (Z.min (Z.of_nat max) MAX_EDIT_DISTANCE) in
    let offset := S limit in
    let v := replicate (2 * limit + 3) 0 in
    match search offset (S limit) 0 v [] with
    | Some trace => Some (backtrack offset trace)
    | None => None
    end.
End Myers.

(** [zip(..).take_while(|(x, y)| x == y).count()]. *)
Definition common (a b : list bytes) : nat :=
  count_while (λ '(x, y), bool_decide (x = y)) (zip a b).

Definition edit_script (a b : list bytes) : option (list Op) :=
  let prefix := common a b in
  let suffix := common (reverse (drop prefix a)) (reverse (drop prefix b)) in
  let mid_a := take (length a - suffix - prefix) (drop prefix a) in
  let mid_b := take (length b - suffix - prefix) (drop prefix b) in
  match myers mid_a mid_b with
  | Some ops => Some (replicate prefix Keep ++ ops ++ replicate suffix Keep)
  | None => None
  end.

(** ** Hunks *)

(** Positions in each text before every operation. *)
Fixpoint positions (ia ib : nat) (ops : list Op) : list (nat * nat) :=
  match ops with
  | [] => []
  | o :: ops' =>
      (ia, ib) ::
      match o with
      | Keep => positions (S ia) (S ib) ops'
      | Delete => positions (S ia) ib ops'
      | Insert => positions ia (S ib) ops'
      end
  end.

Definition changes_of (ops : list Op) : list nat :=
  filter (λ i, ops !! i ≠ Some Keep) (seq 0 (length ops)).

(** Absorbs the changes whose context windows touch. *)
Fixpoint merge_run (last_change : nat) (changes : list nat) : nat * list nat :=
  match changes with
  | c :: changes' =>
      if c <=? last_change + 2 * CONTEXT + 1 then merge_run c changes' else (last_change, changes)
  | [] => (last_change, [])
  end.

(** Unified-diff convention for a side the hunk does not touch. *)
Definition start_of (first len : nat) : nat := if len =? 0 then first else first + 1.

Definition make_hunk (first : nat * nat) (olds news : nat) (lines : list DiffLine) : Hunk :=
  mkHunk (start_of (fst first) olds) olds (start_of (snd first) news) news lines.

Section Hunks.
Variables a b : list bytes.

Definition line_at (pos : nat * nat) (o : Op) : DiffLine :=
  match o with
  | Keep => mkDiffLine " "%char (a !!! fst pos)
  | Delete => mkDiffLine "-"%char (a !!! fst pos)
  | Insert => mkDiffLine "+"%char (b !!! snd pos)
  end.

Definition counts_old (o : Op) : nat := match o with Insert => 0 | _ => 1 end.
Definition counts_new (o : Op) : nat := match o with Delete => 0 | _ => 1 end.

(** The loop over one hunk's operations: lines, side lengths and the global
    line count; [true] when the output cap stopped it. *)
Fixpoint emit (seg : list ((nat * nat) * Op)) (emitted olds news : nat) (lines : list DiffLine)
    : bool * nat * nat * nat * list DiffLine :=
  match seg with
  | [] => (false, emitted, olds, news, lines)
  | (pos, o) :: seg' =>
      if (MAX_OUTPUT_LINES <=? Z.of_nat emitted)%Z then (true, emitted, olds, news, lines)
      else emit seg' (S emitted) (olds + counts_old o) (news + counts_new o)
             (lines ++ [line_at pos o])
  end.

(** The outer loop over the changes left; [fuel] bounds its iterations. *)
Fixpoint hunk_loop (fuel : nat) (ops : list Op) (changes : list nat) (emitted : nat)
    (out : list Hunk) : list Hunk * bool :=
  match fuel, changes with
  | S fuel', c :: changes' =>
      let start := c - CONTEXT in
      let '(last_change, rest) := merge_run c changes' in
      let end_ := Nat.min (last_change + CONTEXT + 1) (length ops) in
      let table := zip (positions 0 0 ops) ops in
      let first := positions 0 0 ops !!! start in
      let seg := take (end_ - start) (drop start table) in
      match emit seg emitted 0 0 [] with
      | (true, _, olds, news, lines) =>
          (match lines with [] => out | _ => out ++ [make_hunk first olds news lines] end, true)
      | (false, emitted', olds, news, lines) =>
          hunk_loop fuel' ops rest emitted' (out ++ [make_hunk first olds news lines])
      end
  | _, _ => (out, false)
  end.

Definition hunks (ops : list Op) : list Hunk * bool :=
  let changes := changes_of ops in hunk_loop (length changes) ops changes 0 [].
End Hunks.

(** ** The entry point *)

Definition unified (old new : bytes) : Diff :=
  if decide (old = new) then Same
  else if ((MAX_INPUT_BYTES <? Z.of_nat (length old))
           || (MAX_INPUT_BYTES <? Z.of_nat (length new)))%Z
  then TooLarge "a version is larger than the diff limit"
  else
    let a := lines old in
    let b := lines new in
    if ((MAX_INPUT_LINES <? Z.of_nat (length a)) || (MAX_INPUT_LINES <? Z.of_nat (length b)))%Z
    then TooLarge "a version has more lines than the diff limit"
    else
      match edit_script a b with
      | None => TooLarge "the versions differ in more lines than the diff limit"
      | Some ops =>
          if forallb (λ o, bool_decide (o = Keep)) ops then Changed [] false
          else let '(hs, truncated) := hunks a b ops in Changed hs truncated
      end.

(** Examples of the tests. *)
Example unified_demo :
  unified (lit "a" ++ [newline] ++ lit "b" ++ [newline]) (lit "a" ++ [newline] ++ lit "c" ++ [newline])
  = Changed [mkHunk 1 2 1 2
       [mkDiffLine " " (lit "a"); mkDiffLine "-" (lit "b"); mkDiffLine "+" (lit "c")]] false.
Proof. vm_compute. reflexivity. Qed.
