(* ===== verification/DiffFacts.v ===== *)
(** * Myers' search finds the shortest edit script *)

From S2P Require Export Diff.

(** ** Edit scripts *)

(** [script ops a b]: the operations turn [a] into [b]. *)
Inductive script : list Op → list bytes → list bytes → Prop :=
  | script_nil : script [] [] []
  | script_keep l ops a b : script ops a b → script (Keep :: ops) (l :: a) (l :: b)
  | script_delete l ops a b : script ops a b → script (Delete :: ops) (l :: a) b
  | script_insert l ops a b : script ops a b → script (Insert :: ops) a (l :: b).

Create HintDb diff discriminated.
#[export] Hint Constructors script : diff.

Definition is_edit (o : Op) : nat := match o with Keep => 0 | _ => 1 end.

Fixpoint edits (ops : list Op) : nat :=
  match ops with [] => 0 | o :: ops' => is_edit o + edits ops' end.

Lemma edits_app ops ops' : edits (ops ++ ops') = edits ops + edits ops'.
Proof. induction ops as [|o ops IH]; simpl; [done|]. rewrite IH. lia. Qed.

Lemma edits_replicate_keep n : edits (replicate n Keep) = 0.
Proof. induction n; simpl; auto. Qed.

Lemma edits_reverse ops : edits (reverse ops) = edits ops.
Proof.
  induction ops as [|o ops IH]; [done|]. rewrite reverse_cons, edits_app, IH.
  simpl. lia.
Qed.

Lemma script_app ops1 ops2 a1 a2 b1 b2 :
  script ops1 a1 b1 → script ops2 a2 b2 → script (ops1 ++ ops2) (a1 ++ a2) (b1 ++ b2).
Proof. intros H1 H2. induction H1; simpl; auto with diff. Qed.

Lemma script_keeps a : script (replicate (length a) Keep) a a.
Proof. induction a; simpl; auto with diff. Qed.

Lemma script_reverse ops a b : script ops a b → script (reverse ops) (reverse a) (reverse b).
Proof.
  induction 1 as [|l ops a b H IH|l ops a b H IH|l ops a b H IH]; [constructor|..];
    rewrite !reverse_cons.
  - apply script_app; auto with diff.
  - rewrite <- (app_nil_r (reverse b)). apply script_app; auto with diff.
  - rewrite <- (app_nil_r (reverse a)). apply script_app; auto with diff.
Qed.

Lemma script_length ops a b :
  script ops a b → edits ops ≤ length a + length b.
Proof. induction 1; simpl; lia. Qed.

(** Some script always exists. *)
Lemma script_exists a b : ∃ ops, script ops a b ∧ edits ops = length a + length b.
Proof.
  induction a as [|l a (ops & H & He)].
  - induction b as [|l b (ops & H & He)]; [exists []; auto with diff|].
    exists (Insert :: ops). simpl in *. split; [by constructor|lia].
  - exists (Delete :: ops). simpl. split; [by constructor|lia].
Qed.

(** ** Trimming a common prefix or suffix keeps the distance *)

Lemma script_drop_target ops a l b :
  script ops a (l :: b) → ∃ ops', script ops' a b ∧ edits ops' ≤ S (edits ops).
Proof.
  remember (l :: b) as b0 eqn:E. intros H. revert l b E.
  induction H as [|l' ops a b' H IH|l' ops a b' H IH|l' ops a b' H IH]; intros l b E; simplify_eq.
  - exists (Delete :: ops). split; [by constructor|simpl; lia].
  - destruct (IH _ _ eq_refl) as (ops' & Hs & He). exists (Delete :: ops').
    split; [by constructor|simpl; lia].
  - exists ops. split; [done|simpl; lia].
Qed.

Lemma script_drop_source ops a l b :
  script ops (l :: a) b → ∃ ops', script ops' a b ∧ edits ops' ≤ S (edits ops).
Proof.
  remember (l :: a) as a0 eqn:E. intros H. revert l a E.
  induction H as [|l' ops a' b H IH|l' ops a' b H IH|l' ops a' b H IH]; intros l a E; simplify_eq.
  - exists (Insert :: ops). split; [by constructor|simpl; lia].
  - exists ops. split; [done|simpl; lia].
  - destruct (IH _ _ eq_refl) as (ops' & Hs & He). exists (Insert :: ops').
    split; [by constructor|simpl; lia].
Qed.

Lemma script_trim_head ops l a b :
  script ops (l :: a) (l :: b) → ∃ ops', script ops' a b ∧ edits ops' ≤ edits ops.
Proof.
  intros H. inversion H as [|? ops1 ? ? H1|? ops1 ? ? H1|? ops1 ? ? H1]; subst.
  - by exists ops1.
  - destruct (script_drop_target _ _ _ _ H1) as (ops' & ? & ?). exists ops'. split; [done|].
    simpl in *. lia.
  - destruct (script_drop_source _ _ _ _ H1) as (ops' & ? & ?). exists ops'. split; [done|].
    simpl in *. lia.
Qed.

Lemma script_trim_prefix p ops a b :
  script ops (p ++ a) (p ++ b) → ∃ ops', script ops' a b ∧ edits ops' ≤ edits ops.
Proof.
  revert ops; induction p as [|l p IH]; intros ops H; simpl in H; [by exists ops|].
  apply script_trim_head in H as (ops1 & H1 & ?). apply IH in H1 as (ops2 & ? & ?).
  exists ops2. split; [done|lia].
Qed.

Lemma script_trim_suffix s ops a b :
  script ops (a ++ s) (b ++ s) → ∃ ops', script ops' a b ∧ edits ops' ≤ edits ops.
Proof.
  intros H%script_reverse. rewrite !reverse_app in H.
  apply script_trim_prefix in H as (ops' & H%script_reverse & He).
  rewrite !reverse_involutive in H. exists (reverse ops'). split; [done|].
  rewrite edits_reverse. by rewrite edits_reverse in He.
Qed.

(** ** Reachable points of the edit grid *)

Section Grid.
Variables a b : list bytes.

(** [reach d x y]: [d] edits lead to the point; deletions and insertions may
    leave the grid. *)
Inductive reach : nat → nat → nat → Prop :=
  | reach_start : reach 0 0 0
  | reach_keep d x y p :
      reach d x y → a !! x = Some p → b !! y = Some p → reach d (S x) (S y)
  | reach_delete d x y : reach d x y → reach (S d) (S x) y
  | reach_insert d x y : reach d x y → reach (S d) x (S y).

Definition diagonal (x y : nat) : Z := (Z.of_nat x - Z.of_nat y)%Z.

Lemma reach_diagonal d x y :
  reach d x y → (- Z.of_nat d ≤ diagonal x y ≤ Z.of_nat d ∧ ∃ q, diagonal x y = Z.of_nat d - 2 * q)%Z.
Proof.
  unfold diagonal. induction 1 as [|d x y p H [IH [q Hq]]|d x y H [IH [q Hq]]|d x y H [IH [q Hq]]].
  - split; [lia|by exists 0%Z].
  - split; [lia|exists q; lia].
  - split; [lia|exists q; lia].
  - split; [lia|exists (q + 1)%Z; lia].
Qed.

(** Leaving the grid wastes edits. *)
Lemma reach_clamp d x y :
  reach d x y →
  ∃ d', reach d' (Nat.min x (length a)) (Nat.min y (length b))
    ∧ d' + (x - length a) + (y - length b) ≤ d.
Proof.
  induction 1 as [|d x y p H (d' & IH & Hd) Ha Hb|d x y H (d' & IH & Hd)|d x y H (d' & IH & Hd)].
  - exists 0. split; [constructor|lia].
  - apply lookup_lt_Some in Ha as Hla. apply lookup_lt_Some in Hb as Hlb. exists d'.
    rewrite !Nat.min_l in * by lia. split; [by econstructor|lia].
  - destruct (decide (x < length a)).
    + exists (S d'). rewrite !(Nat.min_l _ (length a)) in * by lia. split; [by constructor|lia].
    + exists d'. rewrite !(Nat.min_r _ (length a)) in * by lia. split; [done|lia].
  - destruct (decide (y < length b)).
    + exists (S d'). rewrite !(Nat.min_l _ (length b)) in * by lia. split; [by constructor|lia].
    + exists d'. rewrite !(Nat.min_r _ (length b)) in * by lia. split; [done|lia].
Qed.

(** Scripts walk through the grid. *)
Lemma reach_script_gen ops a' b' d x y :
  script ops a' b' → a' = drop x a → b' = drop y b → x ≤ length a → y ≤ length b →
  reach d x y → reach (d + edits ops) (length a) (length b).
Proof.
  intros H. revert d x y.
  assert (Hc : ∀ (l : bytes) l' z s, l :: l' = drop z s → s !! z = Some l ∧ l' = drop (S z) s).
  { intros l l' z s E. assert (Hs : drop z s !! 0 = Some l) by by rewrite <- E.
    rewrite lookup_drop, Nat.add_0_r in Hs. split; [done|].
    rewrite (drop_S _ _ _ Hs) in E. by injection E. }
  induction H as [|l ops a' b' H IH|l ops a' b' H IH|l ops a' b' H IH];
    intros d x y Ha Hb Hx Hy Hr; simpl.
  - apply (f_equal length) in Ha, Hb. rewrite length_drop in Ha, Hb. simpl in *.
    replace (length a) with x by lia. replace (length b) with y by lia. by rewrite Nat.add_0_r.
  - apply Hc in Ha as [Ha Ha'], Hb as [Hb Hb'].
    apply (IH d (S x) (S y)); try done; [by eapply lookup_lt_Some|by eapply lookup_lt_Some|].
    by eapply reach_keep.
  - apply Hc in Ha as [Ha Ha']. rewrite Nat.add_succ_r. apply (IH (S d) (S x) y); try done.
    + by eapply lookup_lt_Some.
    + by constructor.
  - apply Hc in Hb as [Hb Hb']. rewrite Nat.add_succ_r. apply (IH (S d) x (S y)); try done.
    + by eapply lookup_lt_Some.
    + by constructor.
Qed.

Lemma reach_script ops : script ops a b → reach (edits ops) (length a) (length b).
Proof.
  intros H. apply (reach_script_gen ops a b 0 0 0); try done; [lia..|constructor].
Qed.
End Grid.

(** ** The furthest-reaching frontier *)

Section Frontier.
Variables (a b : list bytes) (offset : nat).

#[local] Abbreviation get := (vget offset).
#[local] Abbreviation reached := (reach a b).

Definition in_range (k : Z) : Prop := (- Z.of_nat offset ≤ k ≤ Z.of_nat offset)%Z.
Definition sized (v : list nat) : Prop := length v = 2 * offset + 1.

Lemma vget_vset_eq v k x : sized v → in_range k → get (vset offset v k x) k = x.
Proof.
  unfold sized, in_range, vget, vset. intros. apply list_lookup_total_insert_eq. lia.
Qed.

Lemma vget_vset_ne v k j x :
  in_range k → in_range j → j ≠ k → get (vset offset v k x) j = get v j.
Proof.
  unfold in_range, vget, vset. intros. apply list_lookup_total_insert_ne. lia.
Qed.

Lemma vset_sized v k x : sized v → sized (vset offset v k x).
Proof. unfold sized, vset. by rewrite length_insert. Qed.

(** The diagonals round [d] visits. *)
Definition on_round (d : nat) (k : Z) : Prop :=
  (- Z.of_nat d ≤ k ≤ Z.of_nat d ∧ ∃ q, k = Z.of_nat d - 2 * q)%Z.

(** [x] is the furthest point of diagonal [k] within [d] edits. *)
Definition best (d : nat) (k : Z) (x : nat) : Prop :=
  (k ≤ Z.of_nat x)%Z ∧ reached d x (Z.to_nat (Z.of_nat x - k)) ∧
  ∀ x' y', reached d x' y' → diagonal x' y' = k → x' ≤ x.

Lemma best_unique d k x x' : best d k x → best d k x' → x = x'.
Proof.
  intros (H1 & H2 & H3) (H1' & H2' & H3').
  assert (x ≤ x') by (eapply H3'; [exact H2|unfold diagonal; lia]).
  assert (x' ≤ x) by (eapply H3; [exact H2'|unfold diagonal; lia]). lia.
Qed.

(** What round [d] reads: the frontier of the round before it. *)
Definition ready (d : nat) (v : list nat) : Prop :=
  match d with
  | 0 => get v 1 = 0
  | S d' => ∀ k, on_round d' k → best d' k (get v k)
  end.

Lemma snake_spec fuel x y :
  length a - x ≤ fuel →
  ∃ s, snake a b fuel x y = (x + s, y + s) ∧
    (∀ i, i < s → ∃ p, a !! (x + i) = Some p ∧ b !! (y + i) = Some p) ∧
    ¬ (∃ p, a !! (x + s) = Some p ∧ b !! (y + s) = Some p).
Proof.
  revert x y; induction fuel as [|fuel IH]; intros x y Hf; cbn [snake].
  - exists 0. rewrite !Nat.add_0_r. split_and!; [done|intros; lia|].
    intros (p & Hp & _). apply lookup_lt_Some in Hp. lia.
  - destruct (a !! x) as [p|] eqn:Ha; [destruct (b !! y) as [q|] eqn:Hb|];
      [destruct (decide (p = q)) as [<-|Hne]|..].
    + destruct (IH (S x) (S y) ltac:(lia)) as (s & -> & Hs & Hstop).
      exists (S s). rewrite !Nat.add_succ_r. split_and!; [done| |done].
      intros [|i] Hi; [exists p; by rewrite !Nat.add_0_r|].
      rewrite !Nat.add_succ_r. apply (Hs i). lia.
    + exists 0. rewrite !Nat.add_0_r. split_and!; [done|intros; lia|]. intros (r & ? & ?). congruence.
    + exists 0. rewrite !Nat.add_0_r. split_and!; [done|intros; lia|]. intros (r & ? & ?). congruence.
    + exists 0. rewrite !Nat.add_0_r. split_and!; [done|intros; lia|]. intros (r & ? & ?). congruence.
Qed.

(** Where round [d] ends up on diagonal [k]. *)
Definition run_x (d : nat) (v : list nat) (k : Z) : nat :=
  let x0 := entry_x offset v (Z.of_nat d) k in
  fst (snake a b (length a) x0 (Z.to_nat (Z.of_nat x0 - k))).

Lemma run_snake d v k :
  ∃ s, let x0 := entry_x offset v (Z.of_nat d) k in
       let y0 := Z.to_nat (Z.of_nat x0 - k) in
    run_x d v k = x0 + s ∧ snake a b (length a) x0 y0 = (x0 + s, y0 + s) ∧
    (∀ i, i < s → ∃ p, a !! (x0 + i) = Some p ∧ b !! (y0 + i) = Some p) ∧
    ¬ (∃ p, a !! (x0 + s) = Some p ∧ b !! (y0 + s) = Some p).
Proof.
  unfold run_x. set (x0 := entry_x _ _ _ _). set (y0 := Z.to_nat _).
  destruct (snake_spec (length a) x0 y0 ltac:(lia)) as (s & Hs & H1 & H2).
  exists s. simpl. rewrite Hs. done.
Qed.

Lemma on_round_intro d k q :
  (- Z.of_nat d ≤ k ≤ Z.of_nat d → k = Z.of_nat d - 2 * q → on_round d k)%Z.
Proof. intros H Hq. split; [done|by exists q]. Qed.

Lemma from_above_S d v k :
  on_round (S d) k →
  (from_above offset v (Z.of_nat (S d)) k = true ∧ on_round d (k + 1) ∧
     (on_round d (k - 1) → get v (k - 1) < get v (k + 1))) ∨
  (from_above offset v (Z.of_nat (S d)) k = false ∧ on_round d (k - 1) ∧
     (on_round d (k + 1) → get v (k + 1) ≤ get v (k - 1))).
Proof.
  intros [Hk [q Hq]]. unfold from_above.
  assert (Hup : (k < Z.of_nat (S d))%Z → on_round d (k + 1))
    by (intros; apply (on_round_intro _ _ (q - 1)); lia).
  assert (Hdown : (- Z.of_nat (S d) < k)%Z → on_round d (k - 1))
    by (intros; apply (on_round_intro _ _ q); lia).
  destruct (Z.eqb_spec k (- Z.of_nat (S d))) as [Hl|Hl]; simpl orb.
  { left. split; [done|]. split; [apply Hup; lia|]. intros [? _]. lia. }
  destruct (Z.eqb_spec k (Z.of_nat (S d))) as [Hh|Hh]; simpl negb; simpl andb.
  { right. split; [done|]. split; [apply Hdown; lia|]. intros [? _]. lia. }
  destruct (Nat.ltb_spec (get v (k - 1)) (get v (k + 1))).
  - left. split; [done|]. split; [apply Hup; lia|done].
  - right. split; [done|]. split; [apply Hdown; lia|done].
Qed.

(** The entry point of a diagonal is reachable. *)
Lemma entry_reached d v k :
  ready d v → on_round d k →
  (k ≤ Z.of_nat (entry_x offset v (Z.of_nat d) k))%Z ∧
  reached d (entry_x offset v (Z.of_nat d) k)
    (Z.to_nat (Z.of_nat (entry_x offset v (Z.of_nat d) k) - k)).
Proof.
  intros Hr Hk. unfold entry_x. destruct d as [|d].
  - destruct Hk as [Hk _]. replace k with 0%Z by lia.
    change (from_above offset v (Z.of_nat 0) 0) with true. cbv beta iota.
    change (0 + 1)%Z with 1%Z. rewrite Hr. split; [lia|constructor].
  - destruct (from_above_S d v k Hk) as [(-> & Hon & _)|(-> & Hon & _)];
      destruct (Hr _ Hon) as (Hle & Hreach & _).
    + split; [lia|].
      replace (Z.to_nat (Z.of_nat (get v (k + 1)) - k))
        with (S (Z.to_nat (Z.of_nat (get v (k + 1)) - (k + 1)))) by lia.
      by constructor.
    + split; [lia|].
      replace (Z.to_nat (Z.of_nat (S (get v (k - 1))) - k))
        with (Z.to_nat (Z.of_nat (get v (k - 1)) - (k - 1))) by lia.
      by constructor.
Qed.

Lemma reach_snake d x y s :
  reached d x y → (∀ i, i < s → ∃ p, a !! (x + i) = Some p ∧ b !! (y + i) = Some p) →
  reached d (x + s) (y + s).
Proof.
  intros H. induction s as [|s IH]; intros Hs; [by rewrite !Nat.add_0_r|].
  rewrite !Nat.add_succ_r. destruct (Hs s ltac:(lia)) as (p & ? & ?).
  eapply reach_keep; eauto with lia.
Qed.

(** Nothing within [d] edits is further. *)
Lemma run_furthest d v x y :
  reached d x y → ready d v → x ≤ run_x d v (diagonal x y).
Proof.
  intros H. induction H as [|d x y p H IH Ha Hb|d x y H IH|d x y H IH]; intros Hr.
  - lia.
  - specialize (IH Hr). unfold diagonal in *.
    replace (Z.of_nat (S x) - Z.of_nat (S y))%Z with (Z.of_nat x - Z.of_nat y)%Z by lia.
    set (k := (Z.of_nat x - Z.of_nat y)%Z) in *.
    destruct (decide (x = run_x d v k)) as [Heq|]; [|lia]. exfalso.
    destruct (run_snake d v k) as (s & Hrun & _ & _ & Hstop). apply Hstop.
    rewrite <- Hrun, <- Heq. exists p. split; [done|].
    assert (Hk : on_round d k) by (by apply reach_diagonal in H).
    destruct (entry_reached d v k Hr Hk) as [Hle _].
    replace (Z.to_nat _ + s) with y by lia. done.
  - apply reach_diagonal in H as Hd. change (on_round d (diagonal x y)) in Hd.
    assert (Hk : on_round (S d) (diagonal (S x) y)).
    { destruct Hd as [? [q Hq]]. unfold diagonal in *. split; [lia|exists q; lia]. }
    assert (E : (diagonal (S x) y - 1)%Z = diagonal x y) by (unfold diagonal; lia).
    pose proof (Hr _ Hd) as (_ & _ & Hmax). specialize (Hmax _ _ H eq_refl).
    destruct (run_snake (S d) v (diagonal (S x) y)) as (s & -> & _). unfold entry_x.
    destruct (from_above_S d v _ Hk) as [(-> & _ & Hlt)|(-> & _)]; rewrite E in *; [|lia].
    specialize (Hlt Hd). lia.
  - apply reach_diagonal in H as Hd. change (on_round d (diagonal x y)) in Hd.
    assert (Hk : on_round (S d) (diagonal x (S y))).
    { destruct Hd as [? [q Hq]]. unfold diagonal in *. split; [lia|exists (q+1)%Z; lia]. }
    assert (E : (diagonal x (S y) + 1)%Z = diagonal x y) by (unfold diagonal; lia).
    pose proof (Hr _ Hd) as (_ & _ & Hmax). specialize (Hmax _ _ H eq_refl).
    destruct (run_snake (S d) v (diagonal x (S y))) as (s & -> & _). unfold entry_x.
    destruct (from_above_S d v _ Hk) as [(-> & _)|(-> & _ & Hle)]; rewrite E in *; [lia|].
    specialize (Hle Hd). lia.
Qed.

Lemma run_best d v k : ready d v → on_round d k → best d k (run_x d v k).
Proof.
  intros Hr Hk. destruct (entry_reached d v k Hr Hk) as [Hle He].
  destruct (run_snake d v k) as (s & Hrun & _ & Hs & _). rewrite Hrun.
  split_and!; [lia| |].
  - replace (Z.to_nat _) with (Z.to_nat (Z.of_nat (entry_x offset v (Z.of_nat d) k) - k) + s) by lia.
    by apply reach_snake.
  - intros x' y' H <-. rewrite <- Hrun. by apply run_furthest.
Qed.

(** ** One round *)

Definition done_at (k : Z) (x : nat) : Prop :=
  length a ≤ x ∧ length b ≤ Z.to_nat (Z.of_nat x - k).

Lemma entry_x_ext v v' d k :
  get v (k - 1) = get v' (k - 1) → get v (k + 1) = get v' (k + 1) →
  entry_x offset v d k = entry_x offset v' d k.
Proof. unfold entry_x, from_above. by intros -> ->. Qed.

Lemma round_spec d steps k v v0 :
  ready d v0 → d < offset → sized v → (k = Z.of_nat d + 2 - 2 * Z.of_nat steps)%Z → steps ≤ S d →
  (∀ j, in_range j → (∃ q, j = Z.of_nat d - 2 * q - 1)%Z → get v j = get v0 j) →
  (∀ j, on_round d j → (j < k)%Z → get v j = run_x d v0 j ∧ ¬ done_at j (run_x d v0 j)) →
  match round a b offset (Z.of_nat d) steps k v with
  | Found => ∃ j, on_round d j ∧ done_at j (run_x d v0 j)
  | NotFound v' => sized v' ∧
      ∀ j, on_round d j → get v' j = run_x d v0 j ∧ ¬ done_at j (run_x d v0 j)
  end.
Proof.
  intros Hr Hd. revert k v; induction steps as [|steps IH]; intros k v Hv Hk Hst Hodd Hdone;
    cbn [round].
  - split; [done|]. intros j Hj. apply Hdone; [done|]. destruct Hj. lia.
  - assert (Hon : on_round d k) by (split; [lia|exists (Z.of_nat steps); lia]).
    assert (He : entry_x offset v (Z.of_nat d) k = entry_x offset v0 (Z.of_nat d) k).
    { apply entry_x_ext; apply Hodd; unfold in_range; [lia|exists (Z.of_nat steps); lia|
        lia|exists (Z.of_nat steps - 1)%Z; lia]. }
    rewrite He. destruct (run_snake d v0 k) as (s & Hrun & Hsn & _). rewrite Hsn.
    destruct (entry_reached d v0 k Hr Hon) as [Hle _].
    rewrite <- Hrun. set (x0 := entry_x offset v0 (Z.of_nat d) k) in *.
    replace (Z.to_nat (Z.of_nat x0 - k) + s) with (Z.to_nat (Z.of_nat (run_x d v0 k) - k)) by lia.
    destruct ((length a <=? _) && _) eqn:E.
    + exists k. apply andb_true_iff in E as [?%Nat.leb_le ?%Nat.leb_le]. by split.
    + assert (Hnd : ¬ done_at k (run_x d v0 k)).
      { intros [?%Nat.leb_le ?%Nat.leb_le]. rewrite H, H0 in E. done. }
      assert (in_range k) by (unfold in_range; lia).
      apply IH; [by apply vset_sized|lia|lia| |].
      * intros j Hj [q Hq]. rewrite vget_vset_ne; [apply Hodd; eauto|done..|lia].
      * intros j Hj Hjk. destruct (decide (j = k)) as [->|Hne].
        -- by rewrite vget_vset_eq.
        -- assert (in_range j) by (destruct Hj; unfold in_range; lia).
           rewrite vget_vset_ne by done. apply Hdone; [done|].
           destruct Hj as [_ [q Hq]]. lia.
Qed.

(** The start of a round. *)
Lemma round_start d v :
  ready d v → d < offset → sized v →
  match round a b offset (Z.of_nat d) (S d) (- Z.of_nat d) v with
  | Found => ∃ j, on_round d j ∧ done_at j (run_x d v j)
  | NotFound v' => sized v' ∧ ready (S d) v' ∧
      ∀ j, on_round d j → ¬ done_at j (run_x d v j)
  end.
Proof.
  intros Hr Hd Hv.
  pose proof (round_spec d (S d) (- Z.of_nat d) v v Hr Hd Hv ltac:(lia) ltac:(lia)
    ltac:(done) ltac:(intros j [? _] ?; lia)) as H.
  destruct (round _ _ _ _ _ _ _) as [|v']; [done|]. destruct H as [Hs H].
  split_and!; [done| |intros j Hj; by apply H].
  intros k Hk. destruct (H k Hk) as [-> _]. by apply run_best.
Qed.

(** ** The whole search *)

#[local] Abbreviation n := (length a).
#[local] Abbreviation m := (length b).

Lemma search_spec rounds d v trace :
  ready d v → sized v → d + rounds ≤ offset → length trace = d →
  (∀ i w, trace !! i = Some w → ready i w) →
  (∀ d', d' < d → ¬ reached d' n m) →
  match search a b offset rounds d v trace with
  | Some tr => ∃ D, length tr = S D ∧ (∀ i w, tr !! i = Some w → ready i w) ∧
                 reached D n m ∧ (∀ d', d' < D → ¬ reached d' n m)
  | None => ∀ d', d' < d + rounds → ¬ reached d' n m
  end.
Proof.
  revert d v trace; induction rounds as [|rounds IH]; intros d v trace Hr Hv Hd Hlen Htr Hno;
    cbn [search]; [rewrite Nat.add_0_r; done|].
  assert (Htr' : ∀ i w, (trace ++ [v]) !! i = Some w → ready i w).
  { intros i w [Hi|[Hi Hw]]%lookup_app_Some; [by apply Htr|].
    apply list_lookup_singleton_Some in Hw as [? ->]. by replace i with d by lia. }
  pose proof (round_start d v Hr ltac:(lia) Hv) as H.
  destruct (round _ _ _ _ _ _ _) as [|v'].
  - destruct H as (j & Hj & Hx & Hy). exists d.
    split_and!; [rewrite length_app; simpl; lia|done| |done].
    destruct (run_best d v j Hr Hj) as (Hle & Hreach & _).
    destruct (reach_clamp _ _ _ _ _ Hreach) as (d' & Hd' & Hcost).
    rewrite !Nat.min_r in Hd' by done.
    destruct (decide (d' < d)) as [Hlt|Hge]; [by destruct (Hno d' Hlt)|].
    by replace d with d' by lia.
  - destruct H as (Hv' & Hr' & Hnd).
    specialize (IH (S d) v' (trace ++ [v]) Hr' Hv' ltac:(lia)).
    rewrite Nat.add_succ_r. apply IH; [rewrite length_app; simpl; lia|done|].
    intros d' Hd' Hreach. destruct (decide (d' = d)) as [->|]; [|by apply (Hno d'); [lia|]].
    apply reach_diagonal in Hreach as Hk. change (on_round d (diagonal n m)) in Hk.
    apply (Hnd _ Hk). pose proof (run_furthest d v n m Hreach Hr).
    split; [done|]. unfold diagonal in *. lia.
Qed.
End Frontier.

(** ** Backtracking *)

Lemma imap_pair_snoc {A} (l : list A) x :
  imap pair (l ++ [x]) = imap pair l ++ [(length l, x)].
Proof. rewrite imap_app. simpl. by rewrite Nat.add_0_r. Qed.

Lemma keep_back_run fuel s (x0 y0 px py : Z) ops :
  (px ≤ x0 → py ≤ y0 → px = x0 ∨ py = y0)%Z →
  (px ≤ x0)%Z → (py ≤ y0)%Z → s ≤ fuel →
  keep_back fuel (x0 + Z.of_nat s) (y0 + Z.of_nat s) px py ops
  = (x0, y0, replicate s Keep ++ ops).
Proof.
  intros Hor Hx Hy. specialize (Hor Hx Hy). revert s ops.
  assert (Hstop : ∀ f ops, keep_back f x0 y0 px py ops = (x0, y0, ops)).
  { intros [|f] ops; cbn [keep_back]; [done|].
    destruct (Z.ltb_spec px x0), (Z.ltb_spec py y0); simpl; done || lia. }
  induction fuel as [|fuel IH]; intros s ops Hs.
  - replace s with 0 by lia. simpl. by rewrite !Z.add_0_r.
  - destruct s as [|s]; [simpl Z.of_nat; rewrite !Z.add_0_r; apply Hstop|]. cbn [keep_back].
    destruct (Z.ltb_spec px (x0 + Z.of_nat (S s))), (Z.ltb_spec py (y0 + Z.of_nat (S s)));
      simpl; try lia.
    replace (x0 + Z.of_nat (S s) - 1)%Z with (x0 + Z.of_nat s)%Z by lia.
    replace (y0 + Z.of_nat (S s) - 1)%Z with (y0 + Z.of_nat s)%Z by lia.
    rewrite IH by lia. f_equal. change (Keep :: ops) with ([Keep] ++ ops).
    by rewrite app_assoc, <- replicate_S_end.
Qed.

Section Backtrack.
Variables (a b : list bytes) (offset : nat).

#[local] Abbreviation get := (vget offset).
#[local] Abbreviation best := (best a b).

Lemma script_extend_keeps ops x y s :
  script ops (take x a) (take y b) →
  (∀ i, i < s → ∃ p, a !! (x + i) = Some p ∧ b !! (y + i) = Some p) →
  script (ops ++ replicate s Keep) (take (x + s) a) (take (y + s) b).
Proof.
  intros H. induction s as [|s IH]; intros Hs; [by rewrite !Nat.add_0_r, app_nil_r|].
  destruct (Hs s ltac:(lia)) as (p & Ha & Hb).
  rewrite !Nat.add_succ_r, (take_S_r _ _ _ Ha), (take_S_r _ _ _ Hb), replicate_S_end, app_assoc.
  apply script_app; [apply IH; auto with lia|auto with diff].
Qed.

Lemma script_extend_delete ops x y :
  x < length a → script ops (take x a) (take y b) →
  script (ops ++ [Delete]) (take (S x) a) (take y b).
Proof.
  intros [p Hp]%lookup_lt_is_Some_2 H. rewrite (take_S_r _ _ _ Hp), <- (app_nil_r (take y b)).
  apply script_app; auto with diff.
Qed.

Lemma script_extend_insert ops x y :
  y < length b → script ops (take x a) (take y b) →
  script (ops ++ [Insert]) (take x a) (take (S y) b).
Proof.
  intros [p Hp]%lookup_lt_is_Some_2 H. rewrite (take_S_r _ _ _ Hp), <- (app_nil_r (take x a)).
  apply script_app; auto with diff.
Qed.

(** Round 0: only the initial diagonal run. *)
Lemma back_step_zero v x y ops :
  ready a b offset 0 v → best 0 (diagonal x y) x →
  back_step offset 0 v (Z.of_nat x, Z.of_nat y, ops) = (0%Z, 0%Z, replicate x Keep ++ ops)
  ∧ script (replicate x Keep) (take x a) (take y b).
Proof.
  intros Hr Hb. assert (Hxy : x = y).
  { destruct Hb as (_ & H%reach_diagonal & _). unfold diagonal in H. lia. } subst y.
  assert (E : diagonal x x = 0%Z) by (unfold diagonal; lia). rewrite E in Hb.
  destruct (run_snake a b offset 0 v 0) as (s & Hrun & _ & Hs & _).
  assert (H0 : on_round 0 0) by (by apply (on_round_intro 0 0 0)).
  pose proof (best_unique _ _ _ _ _ _ Hb (run_best _ _ _ _ _ _ Hr H0)) as Hx.
  assert (He : entry_x offset v (Z.of_nat 0) 0 = 0) by exact Hr.
  rewrite He in Hrun, Hs. rewrite Hx in *. simpl in Hrun, Hs. rewrite Hrun.
  split.
  - unfold back_step. rewrite Nat.eqb_refl. cbv zeta beta iota.
    pose proof (keep_back_run (Z.to_nat (Z.of_nat s)) s 0 0 0 0 ops) as Hk.
    rewrite Z.add_0_l in Hk. by rewrite Hk by lia.
  - apply (script_extend_keeps [] 0 0 s); [constructor|done].
Qed.

(** A later round: the run, then the edit that entered the diagonal. *)
Lemma back_step_S d v x y ops :
  ready a b offset (S d) v → best (S d) (diagonal x y) x →
  x ≤ length a → y ≤ length b →
  ∃ px py seg,
    back_step offset (S d) v (Z.of_nat x, Z.of_nat y, ops)
      = (Z.of_nat px, Z.of_nat py, seg ++ ops) ∧
    best d (diagonal px py) px ∧ px ≤ length a ∧ py ≤ length b ∧ edits seg = 1 ∧
    ∀ pre, script pre (take px a) (take py b) → script (pre ++ seg) (take x a) (take y b).
Proof.
  intros Hr Hb Hx Hy. set (k := diagonal x y) in *.
  assert (Hk : on_round (S d) k).
  { destruct Hb as (_ & H%reach_diagonal & _). unfold diagonal, on_round in *.
    replace (Z.of_nat x - Z.of_nat (Z.to_nat (Z.of_nat x - k)))%Z with k in H by (unfold k, diagonal in *; lia).
    done. }
  destruct (run_snake a b offset (S d) v k) as (s & Hrun & _ & Hs & _).
  rewrite <- (best_unique _ _ _ _ _ _ Hb (run_best _ _ _ _ _ _ Hr Hk)) in Hrun.
  destruct (entry_reached _ _ _ _ _ _ Hr Hk) as [Hle _].
  unfold back_step. change (Z.of_nat x - Z.of_nat y)%Z with k.
  replace (S d =? 0) with false by done. cbv zeta.
  unfold entry_x in Hrun, Hs, Hle.
  destruct (from_above_S offset d v k Hk) as [(Hf & Hon & _)|(Hf & Hon & _)];
    rewrite Hf in Hrun, Hs, Hle |- *; destruct (Hr _ Hon) as (Hple & Hreach & Hmax).
  - set (px := get v (k + 1)) in *. exists px, (Z.to_nat (Z.of_nat px - (k + 1))).
    exists (Insert :: replicate s Keep).
    assert (Hd : diagonal px (Z.to_nat (Z.of_nat px - (k + 1))) = (k + 1)%Z)
      by (unfold diagonal; lia).
    split_and!; [|by rewrite Hd|unfold k, diagonal in *; lia|unfold k, diagonal in *; lia|
                 simpl; by rewrite edits_replicate_keep|].
    + pose proof (keep_back_run (Z.to_nat (Z.of_nat x)) s (Z.of_nat px) (Z.of_nat px - k)
        (Z.of_nat px) (Z.of_nat px - (k + 1)) ops ltac:(lia) ltac:(lia) ltac:(lia) ltac:(lia)) as E.
      replace (Z.of_nat px + Z.of_nat s)%Z with (Z.of_nat x) in E by lia.
      replace (Z.of_nat px - k + Z.of_nat s)%Z with (Z.of_nat y) in E by (unfold k, diagonal in *; lia).
      rewrite E, Z.eqb_refl. simpl. do 2 f_equal. lia.
    + intros pre Hpre. rewrite Hrun. change (Insert :: replicate s Keep) with ([Insert] ++ replicate s Keep).
      rewrite app_assoc. replace y with (Z.to_nat (Z.of_nat px - k) + s) by (unfold k, diagonal in *; lia).
      apply script_extend_keeps; [|done].
      replace (Z.to_nat (Z.of_nat px - k)) with (S (Z.to_nat (Z.of_nat px - (k + 1)))) by lia.
      apply script_extend_insert; [unfold k, diagonal in *; lia|done].
  - set (px := get v (k - 1)) in *. exists px, (Z.to_nat (Z.of_nat px - (k - 1))).
    exists (Delete :: replicate s Keep).
    assert (Hd : diagonal px (Z.to_nat (Z.of_nat px - (k - 1))) = (k - 1)%Z)
      by (unfold diagonal; lia).
    split_and!; [|by rewrite Hd|unfold k, diagonal in *; lia|unfold k, diagonal in *; lia|
                 simpl; by rewrite edits_replicate_keep|].
    + pose proof (keep_back_run (Z.to_nat (Z.of_nat x)) s (Z.of_nat (S px)) (Z.of_nat (S px) - k)
        (Z.of_nat px) (Z.of_nat px - (k - 1)) ops ltac:(lia) ltac:(lia) ltac:(lia) ltac:(lia)) as E.
      replace (Z.of_nat (S px) + Z.of_nat s)%Z with (Z.of_nat x) in E by lia.
      replace (Z.of_nat (S px) - k + Z.of_nat s)%Z with (Z.of_nat y) in E by (unfold k, diagonal in *; lia).
      rewrite E, (proj2 (Z.eqb_neq _ _)) by lia. simpl. do 2 f_equal. lia.
    + intros pre Hpre. rewrite Hrun. change (Delete :: replicate s Keep) with ([Delete] ++ replicate s Keep).
      rewrite app_assoc.
      replace y with (Z.to_nat (Z.of_nat (S px) - k) + s) by (unfold k, diagonal in *; lia).
      apply script_extend_keeps; [|done].
      replace (Z.to_nat (Z.of_nat (S px) - k)) with (Z.to_nat (Z.of_nat px - (k - 1))) by lia.
      apply script_extend_delete; [unfold k, diagonal in *; lia|done].
Qed.

Lemma backtrack_walk D tr x y ops :
  length tr = S D → (∀ i w, tr !! i = Some w → ready a b offset i w) →
  best D (diagonal x y) x → x ≤ length a → y ≤ length b →
  ∃ pre, snd (foldr (λ '(d, v) st, back_step offset d v st)
                (Z.of_nat x, Z.of_nat y, ops) (imap pair tr)) = pre ++ ops ∧
    script pre (take x a) (take y b) ∧ edits pre = D.
Proof.
  revert tr x y ops; induction D as [|D IH]; intros tr x y ops Hlen Htr Hb Hx Hy.
  - destruct tr as [|v [|]]; try done. change (imap pair [v]) with [(0, v)]. cbn [foldr].
    destruct (back_step_zero v x y ops (Htr 0 v eq_refl) Hb) as [-> Hs].
    exists (replicate x Keep). split_and!; [done|done|apply edits_replicate_keep].
  - destruct (exists_last (l:=tr)) as (tr' & v & ->); [by destruct tr|].
    rewrite length_app in Hlen. simpl in Hlen.
    rewrite imap_pair_snoc, foldr_app. cbn [foldr].
    replace (length tr') with (S D) by lia.
    assert (Hv : ready a b offset (S D) v).
    { apply Htr. rewrite lookup_app_r by lia. by replace (S D - length tr') with 0 by lia. }
    destruct (back_step_S D v x y ops Hv Hb Hx Hy)
      as (px & py & seg & -> & Hb' & Hpx & Hpy & Hseg & Hext).
    destruct (IH tr' px py (seg ++ ops)) as (pre & -> & Hpre & He); try done.
    { lia. }
    { intros i w Hi. apply Htr. by apply lookup_app_l_Some. }
    exists (pre ++ seg). rewrite app_assoc. split_and!; [done|by apply Hext|].
    rewrite edits_app. lia.
Qed.
End Backtrack.

(** ** Correctness of the search *)

(** The shortest script within [limit] edits, if there is one. *)
Definition shortest (a b : list bytes) (limit : nat) (r : option (list Op)) : Prop :=
  match r with
  | Some ops => script ops a b ∧ ∀ ops', script ops' a b → edits ops ≤ edits ops'
  | None => ∀ ops', script ops' a b → limit < edits ops'
  end.

Definition edit_limit : nat := Z.to_nat MAX_EDIT_DISTANCE.

Lemma myers_shortest a b : shortest a b edit_limit (myers a b).
Proof.
  unfold myers. destruct (Nat.eqb_spec (length a + length b) 0) as [E|E].
  { destruct a, b; simpl in *; try lia. split; [constructor|]. intros ops' H. simpl. lia. }
  set (limit := Z.to_nat (Z.min _ _)).
  assert (Hr : ready a b (S limit) 0 (replicate (2 * limit + 3) 0)).
  { unfold ready, vget. by rewrite lookup_total_replicate_2 by lia. }
  pose proof (search_spec a b (S limit) (S limit) 0 _ [] Hr
    ltac:(unfold sized; rewrite length_replicate; lia) ltac:(lia) eq_refl ltac:(done) ltac:(lia)) as H.
  destruct (search _ _ _ _ _ _ _) as [tr|].
  - destruct H as (D & Hlen & Htr & Hreach & Hno).
    assert (Hb : best a b D (diagonal (length a) (length b)) (length a)).
    { split_and!; [unfold diagonal; lia| |].
      - replace (Z.to_nat _) with (length b) by (unfold diagonal; lia). done.
      - intros x' y' Hxy Hd. destruct (decide (x' ≤ length a)) as [|Hgt]; [done|]. exfalso.
        destruct (reach_clamp _ _ _ _ _ Hxy) as (d' & Hd' & Hc). unfold diagonal in Hd.
        rewrite !Nat.min_r in Hd' by lia. apply (Hno d'); [lia|done]. }
    destruct (backtrack_walk a b (S limit) D tr _ _ [] Hlen Htr Hb ltac:(done) ltac:(done))
      as (pre & Hpre & Hs & He).
    unfold backtrack. rewrite Hpre, app_nil_r. rewrite !firstn_all in Hs.
    split; [done|]. intros ops' Hops'. rewrite He.
    destruct (decide (D ≤ edits ops')) as [|Hlt]; [done|].
    exfalso. apply (Hno (edits ops')); [lia|]. by apply reach_script.
  - intros ops' Hops'. unfold edit_limit.
    assert (Hmin : limit = length a + length b ∨ limit = Z.to_nat MAX_EDIT_DISTANCE) by lia.
    destruct (decide (limit < edits ops')) as [Hlt|Hge].
    + destruct Hmin as [->| ->]; [|done]. exfalso. apply script_length in Hops'. lia.
    + exfalso. apply (H (edits ops')); [lia|]. by apply reach_script.
Qed.

(** ** Trimming *)

Lemma common_take a b : take (common a b) a = take (common a b) b.
Proof.
  unfold common. revert b; induction a as [|x a IH]; intros [|y b]; simpl; try done.
  case_bool_decide; simpl; [subst; f_equal; apply IH|done].
Qed.

Lemma common_le a b : common a b ≤ length a ∧ common a b ≤ length b.
Proof.
  unfold common. pose proof (count_while_le (λ '(x, y), bool_decide (x = y)) (zip a b)) as H.
  rewrite length_zip_with in H. lia.
Qed.

(** A list cut as a shared head, a middle and a shared tail. *)
Lemma trim_split (a b : list bytes) :
  let p := common a b in
  let s := common (reverse (drop p a)) (reverse (drop p b)) in
  ∃ pre suf, length pre = p ∧ length suf = s ∧
    a = pre ++ take (length a - s - p) (drop p a) ++ suf ∧
    b = pre ++ take (length b - s - p) (drop p b) ++ suf.
Proof.
  intros p s. exists (take p a), (reverse (take s (reverse (drop p a)))).
  assert (p ≤ length a ∧ p ≤ length b) as [Ha Hb] by apply common_le.
  assert (s ≤ length a - p ∧ s ≤ length b - p) as [Hsa Hsb].
  { rewrite <- !length_drop, <- (length_reverse (drop p a)), <- (length_reverse (drop p b)).
    apply common_le. }
  assert (Hcut : ∀ l : list bytes, p ≤ length l → s ≤ length l - p →
    l = take p l ++ take (length l - s - p) (drop p l) ++ reverse (take s (reverse (drop p l)))).
  { intros l Hp Hs. rewrite take_reverse, reverse_involutive, length_drop.
    replace (length l - s - p) with (length l - p - s) by lia. by rewrite !take_drop. }
  split_and!.
  - rewrite length_take. lia.
  - rewrite length_reverse, length_take, length_reverse, length_drop. lia.
  - by apply Hcut.
  - assert (Htake : take p a = take p b) by apply common_take. rewrite Htake.
    assert (Hsuf : take s (reverse (drop p a)) = take s (reverse (drop p b))) by apply common_take.
    rewrite Hsuf. by apply Hcut.
Qed.

Lemma edit_script_shortest a b : shortest a b edit_limit (edit_script a b).
Proof.
  pose proof (trim_split a b) as Ht. cbv zeta in Ht. unfold edit_script. cbv zeta.
  revert Ht. generalize (common a b) as p. intros p.
  generalize (common (reverse (drop p a)) (reverse (drop p b))) as s.
  intros s (pre & suf & Hp & Hs & Ha & Hb). revert Ha Hb.
  generalize (take (length a - s - p) (drop p a)) as mid_a.
  generalize (take (length b - s - p) (drop p b)) as mid_b. intros mid_b mid_a Ha Hb.
  assert (Hmid : ∀ ops', script ops' a b → ∃ ops, script ops mid_a mid_b ∧ edits ops ≤ edits ops').
  { intros ops' H. rewrite Ha, Hb in H. apply script_trim_prefix in H as (o1 & H & ?).
    apply script_trim_suffix in H as (o2 & H & ?). exists o2. split; [done|lia]. }
  pose proof (myers_shortest mid_a mid_b) as H. destruct (myers mid_a mid_b) as [ops|]; simpl in *.
  - destruct H as [Hops Hmin]. split.
    + rewrite Ha at 1. rewrite Hb at 1. rewrite <- Hp, <- Hs.
      apply script_app; [apply script_keeps|]. apply script_app; [done|apply script_keeps].
    + intros ops' (o & Ho & Hle)%Hmid. rewrite !edits_app, !edits_replicate_keep.
      specialize (Hmin _ Ho). lia.
  - intros ops' (o & Ho & Hle)%Hmid. specialize (H _ Ho). lia.
Qed.
