(* ===== verification/DiffHunks.v ===== *)
(** * The hunks of a diff are a patch *)

From S2P Require Export DiffFacts.

(** ** Applying a unified diff *)

Definition old_side (ls : list DiffLine) : list bytes :=
  text <$> filter (λ l, op l ≠ "+"%char) ls.
Definition new_side (ls : list DiffLine) : list bytes :=
  text <$> filter (λ l, op l ≠ "-"%char) ls.

(** 0-based first line of a side, from its header numbers. *)
Definition first_of (start len : nat) : nat := if len =? 0 then start else start - 1.

(** Applies hunks to [a] from line [pos], [qpos] lines of output written; every
    header number and every old-side line is checked. *)
Fixpoint patch (a : list bytes) (pos qpos : nat) (hs : list Hunk) : option (list bytes) :=
  match hs with
  | [] => Some (drop pos a)
  | h :: hs' =>
      let first := first_of (old_start h) (old_len h) in
      let news := new_side (hunk_lines h) in
      if (pos <=? first)
         && bool_decide (take (old_len h) (drop first a) = old_side (hunk_lines h))
         && (old_len h =? length (old_side (hunk_lines h)))
         && (first_of (new_start h) (new_len h) =? qpos + (first - pos))
         && (new_len h =? length news)
      then match patch a (first + old_len h) (qpos + (first - pos) + length news) hs' with
           | Some r => Some (take (first - pos) (drop pos a) ++ news ++ r)
           | None => None
           end
      else None
  end.

Lemma first_of_start_of first len : first_of (start_of first len) len = first.
Proof. unfold first_of, start_of. destruct (Nat.eqb_spec len 0); simpl; lia. Qed.

(** ** Counting sides *)

Fixpoint old_count (ops : list Op) : nat :=
  match ops with [] => 0 | o :: ops' => counts_old o + old_count ops' end.
Fixpoint new_count (ops : list Op) : nat :=
  match ops with [] => 0 | o :: ops' => counts_new o + new_count ops' end.

Lemma old_count_app ops ops' : old_count (ops ++ ops') = old_count ops + old_count ops'.
Proof. induction ops; simpl; lia. Qed.
Lemma new_count_app ops ops' : new_count (ops ++ ops') = new_count ops + new_count ops'.
Proof. induction ops; simpl; lia. Qed.

Lemma script_counts ops a b : script ops a b → length a = old_count ops ∧ length b = new_count ops.
Proof. induction 1; simpl; lia. Qed.

Lemma script_split o1 o2 a b :
  script (o1 ++ o2) a b →
  script o1 (take (old_count o1) a) (take (new_count o1) b) ∧
  script o2 (drop (old_count o1) a) (drop (new_count o1) b).
Proof.
  revert a b; induction o1 as [|o o1 IH]; intros a b H; simpl in *; [split; [constructor|done]|].
  inversion H; subst; simpl; (edestruct IH as [H1 H2]; [eassumption|]); split; auto with diff.
Qed.

Lemma script_all_keep ops a b : script ops a b → Forall (λ o, o = Keep) ops → a = b.
Proof.
  induction 1; intros Hk; [done|..]; apply Forall_cons in Hk as [Ho Hk]; try discriminate.
  f_equal. auto.
Qed.

Lemma keep_counts ops :
  Forall (λ o, o = Keep) ops → old_count ops = length ops ∧ new_count ops = length ops.
Proof. induction 1 as [|o ops -> H IH]; simpl; lia. Qed.

(** ** The lines of a run of operations *)

Definition lines_of (a b : list bytes) (ia ib : nat) (ops : list Op) : list DiffLine :=
  (λ '(pos, o), line_at a b pos o) <$> zip (positions ia ib ops) ops.

Lemma lines_of_cons a b ia ib o ops :
  lines_of a b ia ib (o :: ops) =
  line_at a b (ia, ib) o :: lines_of a b (ia + counts_old o) (ib + counts_new o) ops.
Proof.
  unfold lines_of. destruct o; simpl; by rewrite ?Nat.add_0_r, ?Nat.add_1_r.
Qed.

Lemma lines_of_sides a b ops sa sb ia ib :
  script ops sa sb →
  (∀ i l, sa !! i = Some l → a !! (ia + i) = Some l) →
  (∀ i l, sb !! i = Some l → b !! (ib + i) = Some l) →
  old_side (lines_of a b ia ib ops) = sa ∧ new_side (lines_of a b ia ib ops) = sb.
Proof.
  intros H. revert ia ib. unfold old_side, new_side.
  assert (Hat : ∀ (s c : list bytes) l z, (∀ i l', (l :: s) !! i = Some l' → c !! (z + i) = Some l') →
    c !!! z = l ∧ ∀ i l', s !! i = Some l' → c !! (z + 1 + i) = Some l').
  { intros s c l z Hc. split.
    - apply list_lookup_total_correct. rewrite <- (Nat.add_0_r z). by apply Hc.
    - intros i l' Hl. rewrite <- Nat.add_assoc. by apply (Hc (S i)). }
  induction H as [|l ops sa sb H IH|l ops sa sb H IH|l ops sa sb H IH]; intros ia ib Ha Hb.
  - done.
  - apply Hat in Ha as [Ha Ha'], Hb as [Hb Hb']. destruct (IH (ia + 1) (ib + 1) Ha' Hb') as [E1 E2].
    rewrite lines_of_cons, !filter_cons_True by done. rewrite !fmap_cons. cbn [counts_old counts_new]. rewrite E1, E2. cbn [line_at text fst snd].
    by rewrite Ha.
  - apply Hat in Ha as [Ha Ha']. rewrite <- (Nat.add_0_r ib) in Hb.
    destruct (IH (ia + 1) (ib + 0) Ha' Hb) as [E1 E2].
    rewrite lines_of_cons, filter_cons_True, filter_cons_False by (simpl; discriminate || (intros H'; by apply H')).
    rewrite !fmap_cons. cbn [counts_old counts_new]. rewrite E1, E2. cbn [line_at text fst snd]. by rewrite Ha.
  - apply Hat in Hb as [Hb Hb']. rewrite <- (Nat.add_0_r ia) in Ha.
    destruct (IH (ia + 0) (ib + 1) Ha Hb') as [E1 E2].
    rewrite lines_of_cons, filter_cons_False, filter_cons_True by (simpl; discriminate || (intros H'; by apply H')).
    rewrite !fmap_cons. cbn [counts_old counts_new]. rewrite E1, E2. cbn [line_at text fst snd]. by rewrite Hb.
Qed.

(** ** One hunk's emission *)

Lemma emit_spec a b ia ib ops emitted olds news lines :
  ∃ k, k ≤ length ops ∧
    emit a b (zip (positions ia ib ops) ops) emitted olds news lines =
    (negb (k =? length ops), emitted + k, olds + old_count (take k ops),
     news + new_count (take k ops), lines ++ lines_of a b ia ib (take k ops)) ∧
    (k < length ops → (MAX_OUTPUT_LINES ≤ Z.of_nat (emitted + k))%Z) ∧
    (Z.of_nat emitted ≤ MAX_OUTPUT_LINES → Z.of_nat (emitted + k) ≤ MAX_OUTPUT_LINES)%Z.
Proof.
  revert ia ib emitted olds news lines; induction ops as [|o ops IH];
    intros ia ib emitted olds news lines.
  - exists 0. simpl. rewrite !Nat.add_0_r, app_nil_r. split_and!; [done|done|lia|done].
  - assert (Ez : zip (positions ia ib (o :: ops)) (o :: ops) =
      ((ia, ib), o) :: zip (positions (ia + counts_old o) (ib + counts_new o) ops) ops).
    { destruct o; simpl; by rewrite ?Nat.add_0_r, ?Nat.add_1_r. }
    rewrite Ez. cbn [emit]. destruct (MAX_OUTPUT_LINES <=? Z.of_nat emitted)%Z eqn:Ecap.
    + apply Z.leb_le in Ecap. exists 0. simpl. rewrite !Nat.add_0_r, app_nil_r.
      split_and!; [lia|done|done|done].
    + apply Z.leb_gt in Ecap.
      destruct (IH (ia + counts_old o) (ib + counts_new o) (S emitted) (olds + counts_old o)
        (news + counts_new o) (lines ++ [line_at a b (ia, ib) o])) as (k & Hk & -> & Hcap & Hle).
      exists (S k). rewrite !Nat.add_succ_r. split_and!.
      * simpl. lia.
      * cbn [take old_count new_count length]. rewrite lines_of_cons, <- app_assoc. simpl.
        by rewrite !Nat.add_assoc.
      * simpl. intros ?. apply Hcap. lia.
      * intros _. apply Hle. lia.
Qed.

(** ** The changes left *)

Definition changes_from (ops : list Op) (d : nat) : list nat :=
  filter (λ i, ops !! i ≠ Some Keep) (seq d (length ops - d)).

Lemma changes_from_cons ops d c cs :
  changes_from ops d = c :: cs →
  d ≤ c < length ops ∧ cs = changes_from ops (S c) ∧
  Forall (λ o, o = Keep) (take (c - d) (drop d ops)).
Proof.
  unfold changes_from. remember (length ops - d) as n eqn:Hn. revert d Hn.
  induction n as [|n IH]; intros d Hn H; [done|]. cbn [seq] in H.
  destruct (ops !! d) as [o|] eqn:Ho; [|apply lookup_ge_None in Ho; lia].
  rewrite filter_cons in H. case_decide as Hd.
  - injection H as <- <-. split_and!; [lia..| |by rewrite Nat.sub_diag].
    by replace (length ops - S d) with n by lia.
  - destruct (IH (S d) ltac:(lia) H) as (Hc & -> & Hk). split_and!; [lia..|done|].
    replace (c - d) with (S (c - S d)) by lia. rewrite (drop_S _ _ _ Ho). simpl.
    constructor; [congruence|done].
Qed.

Lemma changes_from_nil ops d : changes_from ops d = [] → Forall (λ o, o = Keep) (drop d ops).
Proof.
  unfold changes_from. remember (length ops - d) as n eqn:Hn. revert d Hn.
  induction n as [|n IH]; intros d Hn H; [rewrite drop_ge by lia; constructor|]. cbn [seq] in H.
  destruct (ops !! d) as [o|] eqn:Ho; [|apply lookup_ge_None in Ho; lia].
  rewrite filter_cons in H. case_decide as Hd; [done|].
  rewrite (drop_S _ _ _ Ho). constructor; [congruence|apply IH; [lia|done]].
Qed.

(** No change before the next one: the scan may start later. *)
Lemma changes_from_skip ops d e :
  d ≤ e → match changes_from ops d with [] => True | c :: _ => e ≤ c end →
  changes_from ops e = changes_from ops d.
Proof.
  unfold changes_from. intros Hde. remember (length ops - d) as n eqn:Hn. revert d Hde Hn.
  induction n as [|n IH]; intros d Hde Hn H.
  - by replace (length ops - e) with 0 by lia.
  - cbn [seq] in *. rewrite filter_cons in H |- *. case_decide as Hd.
    + replace e with d by lia. replace (length ops - d) with (S n) by lia. cbn [seq].
      by rewrite filter_cons_True.
    + destruct (decide (d = e)) as [<-|Hne].
      * replace (length ops - d) with (S n) by lia. cbn [seq].
        by rewrite filter_cons_False by (intros H'; by apply H').
      * apply IH; [lia|lia|done].
Qed.

Lemma merge_run_spec ops c :
  let '(l, rest) := merge_run c (changes_from ops (S c)) in
  c ≤ l ∧ (c < length ops → l < length ops) ∧ rest = changes_from ops (S l) ∧
  length rest ≤ length (changes_from ops (S c)) ∧
  match rest with [] => True | r :: _ => l + 2 * CONTEXT + 1 < r end.
Proof.
  remember (changes_from ops (S c)) as cs eqn:Hcs. revert c Hcs.
  induction cs as [|r cs IH]; intros c Hcs; cbn [merge_run]; [by split_and!|].
  destruct (r <=? c + 2 * CONTEXT + 1) eqn:E.
  - symmetry in Hcs. apply changes_from_cons in Hcs as (Hr & Hcs & _).
    specialize (IH r Hcs). destruct (merge_run r cs) as [l rest].
    destruct IH as (H1 & H2 & H3 & H4 & H5).
    split_and!; [lia|intros; apply H2; lia|done|simpl; lia|done].
  - apply Nat.leb_gt in E. split_and!; [done|done|done|done|lia].
Qed.

(** ** The loop over the changes *)

Lemma positions_lookup ops ia ib i :
  i < length ops →
  positions ia ib ops !!! i = (ia + old_count (take i ops), ib + new_count (take i ops)).
Proof.
  revert ia ib i; induction ops as [|o ops IH]; intros ia ib i Hi; simpl in Hi; [lia|].
  destruct i as [|i]; simpl; [by rewrite !Nat.add_0_r|].
  destruct o; rewrite IH by lia; f_equal; simpl; lia.
Qed.

Lemma positions_drop ops ia ib i :
  drop i (positions ia ib ops) =
  positions (ia + old_count (take i ops)) (ib + new_count (take i ops)) (drop i ops).
Proof.
  revert ia ib i; induction ops as [|o ops IH]; intros ia ib i; [by destruct i|].
  destruct i as [|i]; simpl; [by rewrite !Nat.add_0_r|].
  destruct o; rewrite IH; f_equal; simpl; lia.
Qed.

Lemma positions_take ops ia ib k : take k (positions ia ib ops) = positions ia ib (take k ops).
Proof.
  revert ia ib k; induction ops as [|o ops IH]; intros ia ib k; [by destruct k|].
  destruct k as [|k]; simpl; [done|]. destruct o; by rewrite IH.
Qed.

Lemma segment_eq ops s k :
  take k (drop s (zip (positions 0 0 ops) ops)) =
  zip (positions (old_count (take s ops)) (new_count (take s ops)) (take k (drop s ops)))
      (take k (drop s ops)).
Proof.
  by rewrite zip_with_drop, zip_with_take, positions_drop, positions_take.
Qed.

Definition total_lines (hs : list Hunk) : nat := sum_list (length ∘ hunk_lines <$> hs).

Lemma total_lines_cons h hs : total_lines (h :: hs) = length (hunk_lines h) + total_lines hs.
Proof. done. Qed.

Section Loop.
Variables (a b : list bytes) (ops : list Op).
Hypothesis Hscript : script ops a b.

#[local] Abbreviation pa i := (old_count (take i ops)).
#[local] Abbreviation pb i := (new_count (take i ops)).

Lemma count_split i j : i ≤ j →
  pa j = pa i + old_count (take (j - i) (drop i ops)) ∧
  pb j = pb i + new_count (take (j - i) (drop i ops)).
Proof.
  intros H. rewrite <- old_count_app, <- new_count_app, take_take_drop.
  by replace (i + (j - i)) with j by lia.
Qed.

(** The operations from [i] to [j] turn the old slice into the new one. *)
Lemma script_cut i j : i ≤ j →
  script (take (j - i) (drop i ops))
    (take (pa j - pa i) (drop (pa i) a)) (take (pb j - pb i) (drop (pb i) b)).
Proof.
  intros Hij. destruct (count_split i j Hij) as [-> ->].
  rewrite !Nat.add_sub'.
  pose proof Hscript as H. rewrite <- (take_drop i ops) in H.
  apply script_split in H as [_ H]. rewrite <- (take_drop (j - i) (drop i ops)) in H.
  by apply script_split in H as [H _].
Qed.

Lemma counts_total : pa (length ops) = length a ∧ pb (length ops) = length b.
Proof. rewrite firstn_all. by destruct (script_counts _ _ _ Hscript). Qed.

Lemma count_le i : pa i ≤ length a ∧ pb i ≤ length b.
Proof.
  destruct counts_total as [<- <-]. destruct (decide (i ≤ length ops)) as [Hi|Hi].
  - destruct (count_split i (length ops) Hi) as [-> ->]. lia.
  - rewrite take_ge by lia. by rewrite firstn_all.
Qed.

(** Unchanged lines between [d] and [s]. *)
Lemma keep_gap d s :
  d ≤ s → s ≤ length ops → Forall (λ o, o = Keep) (take (s - d) (drop d ops)) →
  pa s = pa d + (s - d) ∧ pb s = pb d + (s - d) ∧
  take (s - d) (drop (pa d) a) = take (s - d) (drop (pb d) b).
Proof.
  intros Hd Hs Hk. destruct (count_split d s Hd) as [Ha Hb].
  destruct (keep_counts _ Hk) as [Ka Kb].
  rewrite length_take, length_drop, Nat.min_l in Ka, Kb by lia.
  pose proof (script_all_keep _ _ _ (script_cut d s Hd) Hk) as E.
  rewrite Ka in Ha. rewrite Kb in Hb. rewrite Ha, Hb, !Nat.add_sub' in E. done.
Qed.

(** One hunk over the operations [s .. s + k], after unchanged ones. *)
Lemma patch_hunk d s k hs :
  d ≤ s → s + k ≤ length ops → Forall (λ o, o = Keep) (take (s - d) (drop d ops)) →
  let sops := take k (drop s ops) in
  patch a (pa d) (pb d)
    (make_hunk (pa s, pb s) (old_count sops) (new_count sops)
       (lines_of a b (pa s) (pb s) sops) :: hs) =
  match patch a (pa (s + k)) (pb (s + k)) hs with
  | Some r => Some (take (pb (s + k) - pb d) (drop (pb d) b) ++ r)
  | None => None
  end.
Proof.
  intros Hd Hs Hk sops.
  destruct (keep_gap d s Hd ltac:(lia) Hk) as (Ka & Kb & Kt).
  pose proof (script_cut s (s + k) ltac:(lia)) as Hseg.
  destruct (count_split s (s + k) ltac:(lia)) as [Ca Cb].
  rewrite Ca, Cb, !Nat.add_sub' in *. fold sops in Hseg, Ca, Cb |- *.
  destruct (lines_of_sides a b sops _ _ (pa s) (pb s) Hseg) as [Eo En].
  { intros i l Hl. apply lookup_take_Some in Hl as [Hl _]. by rewrite lookup_drop in Hl. }
  { intros i l Hl. apply lookup_take_Some in Hl as [Hl _]. by rewrite lookup_drop in Hl. }
  destruct (script_counts _ _ _ Hseg) as [Lo Ln].
  cbn [patch make_hunk old_start old_len new_start new_len hunk_lines fst snd].
  rewrite !first_of_start_of, Eo, En, Lo, Ln.
  replace (pb d + (pa s - pa d)) with (pb s) by lia.
  rewrite (proj2 (Nat.leb_le _ _)) by lia. rewrite bool_decide_true by done.
  rewrite !Nat.eqb_refl. cbn [andb].
  destruct (patch a _ _ hs) as [r|]; [|done]. f_equal. rewrite app_assoc. f_equal.
  replace (pa s - pa d) with (s - d) by lia. rewrite Kt.
  replace (pb s) with (pb d + (s - d)) at 1 by lia.
  rewrite <- drop_drop. rewrite take_take_drop. f_equal. lia.
Qed.

(** What the loop returns from position [d] on. *)
Definition loop_spec (d emitted : nat) (hs : list Hunk) (truncated : bool) : Prop :=
  if truncated
  then (Z.of_nat (emitted + total_lines hs) = MAX_OUTPUT_LINES)%Z ∧
       is_Some (patch a (pa d) (pb d) hs)
  else (Z.of_nat (emitted + total_lines hs) ≤ MAX_OUTPUT_LINES)%Z ∧
       patch a (pa d) (pb d) hs = Some (drop (pb d) b) ∧
       (hs = [] → changes_from ops d = []).

Lemma lines_of_length ia ib l : length (lines_of a b ia ib l) = length l.
Proof.
  revert ia ib; induction l as [|o l IH]; intros ia ib; [done|].
  rewrite lines_of_cons. simpl. by rewrite IH.
Qed.

Lemma keep_rest d :
  Forall (λ o, o = Keep) (drop d ops) → drop (pa d) a = drop (pb d) b.
Proof.
  pose proof Hscript as H. rewrite <- (take_drop d ops) in H.
  apply script_split in H as [_ H]. by apply script_all_keep.
Qed.

Lemma hunk_loop_spec fuel d emitted out :
  d ≤ length ops → length (changes_from ops d) ≤ fuel →
  (Z.of_nat emitted ≤ MAX_OUTPUT_LINES)%Z →
  match changes_from ops d with [] => True | c :: _ => d ≤ c - CONTEXT end →
  ∃ hs truncated,
    hunk_loop a b fuel ops (changes_from ops d) emitted out = (out ++ hs, truncated) ∧
    loop_spec d emitted hs truncated.
Proof.
  revert d emitted out; induction fuel as [|fuel IH]; intros d emitted out Hd Hf He Hc;
    destruct (changes_from ops d) as [|c cs] eqn:Ecs; try (simpl in Hf; lia).
  1, 2: exists [], false; cbn [hunk_loop]; rewrite app_nil_r; split; [done|];
    unfold loop_spec, total_lines; simpl; rewrite Nat.add_0_r, Ecs; split_and!; try done;
    f_equal; by apply keep_rest, changes_from_nil.
  destruct (changes_from_cons _ _ _ _ Ecs) as (Hcb & -> & Hk).
  pose proof (merge_run_spec ops c) as Hm. cbn [hunk_loop].
  destruct (merge_run c (changes_from ops (S c))) as [l rest].
  destruct Hm as (Hcl & Hl & -> & Hlr & Hr). specialize (Hl ltac:(lia)).
  set (s := c - CONTEXT) in *. set (e := Nat.min (l + CONTEXT + 1) (length ops)).
  assert (Hse : s < e) by (unfold s, e; lia). assert (He' : e ≤ length ops) by (unfold e; lia).
  assert (Hks : Forall (λ o, o = Keep) (take (s - d) (drop d ops))).
  { replace (take (s - d) (drop d ops)) with (take (s - d) (take (c - d) (drop d ops)))
      by (rewrite take_take; f_equal; lia). by apply Forall_take. }
  assert (Hrest : changes_from ops e = changes_from ops (S l)).
  { apply changes_from_skip; [unfold e; lia|].
    destruct (changes_from ops (S l)); [done|]. unfold e, CONTEXT in *. lia. }
  rewrite segment_eq, positions_lookup by (unfold s; lia). rewrite !Nat.add_0_l.
  set (sops := take (e - s) (drop s ops)).
  destruct (emit_spec a b (pa s) (pb s) sops emitted 0 0 []) as (k & Hk' & -> & Hcap & Hle).
  assert (Hlen : length sops = e - s) by (unfold sops; rewrite length_take, length_drop; lia).
  assert (Htk : take k sops = take k (drop s ops)).
  { unfold sops. rewrite take_take. f_equal. lia. }
  rewrite !Nat.add_0_l, app_nil_l, Htk.
  pose proof (lines_of_length (pa s) (pb s) (take k (drop s ops))) as Hll.
  rewrite length_take, length_drop, Nat.min_l in Hll by lia.
  pose proof (patch_hunk d s k [] Hc ltac:(lia) Hks) as Hone. cbv zeta in Hone.
  destruct (Nat.eqb_spec k (length sops)) as [Ek|Ek]; simpl negb; cbv iota.
  - replace k with (e - s) in * by lia.
    specialize (IH e (emitted + (e - s))
      (out ++ [make_hunk (pa s, pb s) (old_count (take (e - s) (drop s ops)))
         (new_count (take (e - s) (drop s ops)))
         (lines_of a b (pa s) (pb s) (take (e - s) (drop s ops)))]) He').
    rewrite Hrest in IH. destruct IH as (hs & tr & -> & Hspec).
    { simpl in Hf. lia. }
    { by apply Hle. }
    { destruct (changes_from ops (S l)) as [|r rs]; [done|]. unfold e, CONTEXT in *. lia. }
    eexists (_ :: hs), tr. split; [by rewrite <- app_assoc|].
    pose proof (patch_hunk d s (e - s) hs Hc ltac:(lia) Hks) as Hp. cbv zeta in Hp.
    replace (s + (e - s)) with e in Hp by lia.
    unfold loop_spec in *. rewrite total_lines_cons. cbn [make_hunk hunk_lines].
    rewrite Hll, Nat.add_assoc. destruct tr.
    + destruct Hspec as [Ht [r Hr']]. rewrite Hp, Hr'. split; [done|by eexists].
    + destruct Hspec as (Ht & Hp' & _). rewrite Hp, Hp'. split_and!; [done| |done].
      f_equal. destruct (count_split d e ltac:(lia)) as [_ ->]. rewrite Nat.add_sub'.
      rewrite <- drop_drop. apply take_drop.
  - specialize (Hcap ltac:(lia)). specialize (Hle He).
    assert (Hcapped : (Z.of_nat (emitted + k) = MAX_OUTPUT_LINES)%Z) by lia.
    destruct (lines_of a b (pa s) (pb s) (take k (drop s ops))) as [|ln lns] eqn:Els.
    + exists [], true. rewrite app_nil_r. split; [done|]. simpl in Hll. unfold loop_spec.
      split; [|by eexists]. unfold total_lines. simpl. by rewrite <- Hcapped, <- Hll.
    + eexists [_], true. split; [done|]. unfold loop_spec. rewrite total_lines_cons.
      cbn [make_hunk hunk_lines]. rewrite Hone, Hll.
      split; [|by eexists]. unfold total_lines. simpl. by rewrite Nat.add_0_r.
Qed.
End Loop.

Lemma hunks_spec a b ops :
  script ops a b →
  let '(hs, truncated) := hunks a b ops in
  if truncated then Z.of_nat (total_lines hs) = MAX_OUTPUT_LINES ∧ is_Some (patch a 0 0 hs)
  else (Z.of_nat (total_lines hs) ≤ MAX_OUTPUT_LINES)%Z ∧ patch a 0 0 hs = Some b ∧
       (hs = [] → Forall (λ o, o = Keep) ops).
Proof.
  intros H. unfold hunks.
  assert (E : changes_of ops = changes_from ops 0).
  { unfold changes_of, changes_from. by rewrite Nat.sub_0_r. }
  rewrite E. destruct (hunk_loop_spec a b ops H (length (changes_from ops 0)) 0 0 [])
    as (hs & tr & -> & Hspec); [lia|done|done|by destruct (changes_from ops 0); [|lia]|].
  rewrite app_nil_l. unfold loop_spec in Hspec. destruct tr; [done|].
  destruct Hspec as (? & ? & Hnil). split_and!; [done|done|].
  intros Hhs. specialize (Hnil Hhs). by apply changes_from_nil in Hnil.
Qed.

(** ** The entry point *)


(** C39. The rendered diff is a patch: [Same] is exactly equality; an
    untruncated diff carries hunks whose headers and old sides check out
    against the old lines and whose application yields exactly the new lines,
    empty only when the lines agree; the output never carries more than the
    line cap, a truncated one carries exactly it and every hunk still
    applies. *)
Theorem unified_is_patch old new :
  match unified old new with
  | Same => old = new
  | TooLarge _ => old ≠ new
  | Changed hs truncated =>
      old ≠ new ∧
      (Z.of_nat (total_lines hs) ≤ MAX_OUTPUT_LINES)%Z ∧
      (truncated = true → Z.of_nat (total_lines hs) = MAX_OUTPUT_LINES
                          ∧ is_Some (patch (lines old) 0 0 hs)) ∧
      (truncated = false → patch (lines old) 0 0 hs = Some (lines new)) ∧
      (truncated = false → hs = [] → lines old = lines new)
  end.
Proof.
  unfold unified. destruct (decide (old = new)) as [|Hne]; [done|].
  destruct (_ || _); [done|]. cbv zeta. destruct (_ || _); [done|].
  pose proof (edit_script_shortest (lines old) (lines new)) as H.
  destruct (edit_script _ _) as [ops|]; [|done]. destruct H as [Hs _].
  destruct (forallb _ ops) eqn:Ek.
  - assert (E : lines old = lines new).
    { eapply script_all_keep; [exact Hs|]. apply Forall_forall. intros o Ho.
      rewrite forallb_forall in Ek. eapply bool_decide_eq_true_1, Ek. by apply list_elem_of_In. }
    rewrite E. split_and!; [done|done|done|done|done].
  - pose proof (hunks_spec _ _ _ Hs) as H. destruct (hunks _ _ ops) as [hs []].
    + destruct H. split_and!; [done|lia|done|done|done].
    + destruct H as (? & ? & Hnil). split_and!; [done|done|done|done|].
      intros _ Hhs. by eapply script_all_keep; [|apply Hnil].
Qed.
