(* ===== verification/PageFile.v ===== *)
(** * The wikisync page file

    Models [companions/ai-memory-wikisync/src/page_file.rs]: a fixed
    frontmatter followed by the verbatim body.  Printing a JSON string and
    reading a JSON value are serde_json's and are arguments; what the round
    trip needs of them is [serde_ok]. *)

From S2P Require Export Json.

Local Open Scope rust_scope.

(** ** Page metadata *)

Definition DEFAULT_TIER : bytes := lit "semantic".
Definition FENCE : bytes := lit "---".

Record PageMeta := mkPageMeta {
  title : option bytes;
  tags : list bytes;
  pinned : bool;
  tier : option bytes;
}.

#[export] Instance PageMeta_eq_dec : EqDecision PageMeta.
Proof. solve_decision. Defined.

Definition default_meta : PageMeta := mkPageMeta None [] false None.

Definition from_server (title tier : bytes) (pinned : bool) (frontmatter : json) : PageMeta :=
  mkPageMeta
    (if bool_decide (title = []) then None else Some title)
    (match json_get (lit "tags") frontmatter ≫= as_array with
     | Some items => omap as_str items
     | None => []
     end)
    pinned
    (if bool_decide (tier = []) || bool_decide (tier = DEFAULT_TIER) then None else Some tier).

(** ** Parse errors *)

Inductive ParseError :=
  | NotUtf8
  | NoFrontmatter
  | NotKeyValue (line : bytes)
  | DuplicateKey (key : bytes)
  | BadPinned (value : bytes)
  | UnknownKey (key : bytes)
  | NotClosed
  | BadQuoted (key : bytes)
  | NotPlain (key : bytes)
  | NotOneLine (key : bytes)
  | BadTags
  | BadTag (item : json).

Definition trim_eol (line : bytes) : bytes := line_of line.

Definition bom : bytes := ["239"; "187"; "191"]%char.
Definition return_char : ascii := "013"%char.
Definition quote : ascii := Ascii.Ascii false true false false false true false false.

Definition is_blank (s : bytes) : bool := match trim s with [] => true | _ => false end.

Section PageFile.
Variable json_string : bytes → bytes.
Variable json_from_str : bytes → option json.

(** [tags.join(", ")]. *)
Definition tag_list (l : list bytes) : bytes := join (lit ", ") (json_string <$> l).

Definition title_line (meta : PageMeta) : bytes :=
  match title meta with
  | Some t => lit "title: " ++ json_string t ++ [newline]
  | None => []
  end.
Definition tags_line (meta : PageMeta) : bytes :=
  match tags meta with
  | [] => []
  | l => lit "tags: [" ++ tag_list l ++ lit "]" ++ [newline]
  end.
Definition pinned_line (meta : PageMeta) : bytes :=
  if pinned meta then lit "pinned: true" ++ [newline] else [].
Definition tier_line (meta : PageMeta) : bytes :=
  match tier meta with
  | Some t => lit "tier: " ++ json_string t ++ [newline]
  | None => []
  end.

Definition render (meta : PageMeta) (body : bytes) : bytes :=
  FENCE ++ [newline] ++ title_line meta ++ tags_line meta ++ pinned_line meta ++ tier_line meta
  ++ FENCE ++ [newline] ++ body.

(** ** Parsing *)

Definition starts_quoted (value : bytes) : bool :=
  match value with c :: _ => Ascii.eqb c quote | [] => false end.

Definition starts_special (value : bytes) : bool :=
  match value with
  | c :: _ => existsb (Ascii.eqb c) ["'"; "["; "{"; "|"; ">"; "&"; "*"; "!"]%char
  | [] => false
  end.

Definition has_line_break (s : bytes) : bool :=
  existsb (λ c, Ascii.eqb c newline || Ascii.eqb c return_char) s.

Definition scalar (key value : bytes) : result bytes ParseError :=
  let? parsed :=
    if starts_quoted value then
      match json_from_str value with
      | Some (JString text) => Ok text
      | _ => Err (BadQuoted key)
      end
    else if starts_special value then Err (NotPlain key)
    else Ok value in
  bail_if is_blank parsed || has_line_break parsed with NotOneLine key;;
  Ok parsed.

Fixpoint collect_tags (items : list json) : result (list bytes) ParseError :=
  match items with
  | [] => Ok []
  | JString tag :: items' =>
      bail_if is_blank tag with BadTag (JString tag);;
      let? rest := collect_tags items' in Ok (tag :: rest)
  | other :: _ => Err (BadTag other)
  end.

Definition parse_tags (value : bytes) : result (list bytes) ParseError :=
  match json_from_str value with
  | Some (JArray items) => collect_tags items
  | _ => Err BadTags
  end.

(** The [match key] of the line loop. *)
Definition set_key (meta : PageMeta) (key value : bytes) : result PageMeta ParseError :=
  if bool_decide (key = lit "title") then
    let? t := scalar key value in Ok (mkPageMeta (Some t) (tags meta) (pinned meta) (tier meta))
  else if bool_decide (key = lit "tier") then
    let? t := scalar key value in
    Ok (mkPageMeta (title meta) (tags meta) (pinned meta)
          (if bool_decide (t = DEFAULT_TIER) then None else Some t))
  else if bool_decide (key = lit "pinned") then
    if bool_decide (value = lit "true")
    then Ok (mkPageMeta (title meta) (tags meta) true (tier meta))
    else if bool_decide (value = lit "false")
    then Ok (mkPageMeta (title meta) (tags meta) false (tier meta))
    else Err (BadPinned value)
  else if bool_decide (key = lit "tags") then
    let? l := parse_tags value in Ok (mkPageMeta (title meta) l (pinned meta) (tier meta))
  else Err (UnknownKey key).

(** The line loop: the metadata and the bytes consumed up to the closing
    fence. *)
Fixpoint parse_lines (ls : list bytes) (consumed : nat) (meta : PageMeta) (seen : list bytes)
    : result (PageMeta * nat) ParseError :=
  match ls with
  | [] => Err NotClosed
  | piece :: ls' =>
      let consumed := consumed + length piece in
      let line := trim_eol piece in
      if bool_decide (line = FENCE) then Ok (meta, consumed)
      else if is_blank line then parse_lines ls' consumed meta seen
      else
        match split_once ":" line with
        | None => Err (NotKeyValue line)
        | Some (k, v) =>
            let key := trim k in
            let value := trim v in
            bail_if bool_decide (key ∈ seen) with DuplicateKey key;;
            let? meta' := set_key meta key value in
            parse_lines ls' consumed meta' (seen ++ [key])
        end
  end.

Definition parse (file : bytes) : result (PageMeta * bytes) ParseError :=
  bail_if negb (valid_utf8 file) with NotUtf8;;
  let text := match strip_prefix bom file with Some t => t | None => file end in
  let pieces := split_inclusive text in
  let opening := match pieces with p :: _ => p | [] => [] end in
  bail_if bool_decide (trim_eol opening ≠ FENCE) with NoFrontmatter;;
  let? mc := parse_lines (tail pieces) (length opening) default_meta [] in
  Ok (fst mc, drop (snd mc) text).
End PageFile.
