(* ===== verification/PageFileFacts.v ===== *)
(** * The page file round trip *)

From S2P Require Export PageFile.

Local Open Scope rust_scope.

(** ** Visible values *)

(** A value that starts and ends with a visible ASCII character and stays on
    one line. *)
Inductive visible : bytes → Prop :=
  | visible_intro c m z :
      (byte_val c <? 128)%N = true → (byte_val z <? 128)%N = true →
      is_whitespace [c] = false → is_whitespace [z] = false →
      valid_utf8 (c :: m) = true → newline ∉ m →
      visible (c :: m ++ [z]).

Lemma not_whitespace_not_break c :
  is_whitespace [c] = false → c ≠ newline ∧ c ≠ return_char.
Proof. intros H. split; intros ->; vm_compute in H; discriminate. Qed.

Lemma visible_trim v : visible v → trim v = v.
Proof. intros []. by apply trim_visible. Qed.

Lemma visible_no_newline v : visible v → newline ∉ v.
Proof.
  intros [c m z ? ? Hc Hz ? ?]. apply not_whitespace_not_break in Hc as [? _], Hz as [? _].
  intros [?|[?|?%list_elem_of_singleton]%elem_of_app]%elem_of_cons; congruence.
Qed.

Lemma visible_valid v : visible v → valid_utf8 v = true.
Proof.
  intros [c m z ? Hz ? ? Hv ?]. change (c :: m ++ [z]) with ((c :: m) ++ [z]).
  rewrite valid_utf8_app by done. simpl. by rewrite Hz.
Qed.

(** Prefixing with visible ASCII text. *)
Lemma visible_prefix c k v :
  (byte_val c <? 128)%N = true → is_whitespace [c] = false → valid_utf8 (c :: k) = true →
  newline ∉ k → visible v → visible (c :: k ++ v).
Proof.
  intros Hc Hw Hk Hn Hv. pose proof (visible_no_newline _ Hv) as Hnv.
  destruct Hv as [c' m z ? ? Hc' ? Hm Hnm]. change (c' :: m ++ [z]) with ((c' :: m) ++ [z]). rewrite (app_assoc k).
  apply visible_intro; try done.
  - change (c :: k ++ c' :: m) with ((c :: k) ++ (c' :: m)). by rewrite valid_utf8_app.
  - apply not_whitespace_not_break in Hc' as [? _].
    intros [?|[?|?]%elem_of_cons]%elem_of_app; congruence.
Qed.

Lemma trim_eol_visible v : visible v → trim_eol (v ++ [newline]) = v.
Proof.
  intros [c m z ? ? ? Hz ? ?]. unfold trim_eol, line_of, strip_suffix, ends_with.
  rewrite last_snoc, Ascii.eqb_refl, removelast_last.
  change (c :: m ++ [z]) with ((c :: m) ++ [z]). rewrite last_snoc.
  apply not_whitespace_not_break in Hz as [_ Hz].
  destruct (Ascii.eqb_spec z "013"%char); [done|]. done.
Qed.

(** ** One frontmatter line *)

Lemma trim_space v : trim (" "%char :: v) = trim v.
Proof. done. Qed.

Lemma split_once_here c l r : c ∉ l → split_once c (l ++ c :: r) = Some (l, r).
Proof. intros H. by apply split_once_Some. Qed.

(** The keys [render] writes. *)
Definition known_key (k : bytes) : Prop :=
  k = lit "title" ∨ k = lit "tags" ∨ k = lit "pinned" ∨ k = lit "tier".

Definition kv_line (k v : bytes) : bytes := k ++ lit ": " ++ v ++ [newline].

Lemma known_key_visible k v : known_key k → visible v → visible (k ++ lit ": " ++ v).
Proof.
  intros Hk Hv.
  destruct Hk as [-> |[-> |[-> | ->]]];
    match goal with |- visible (lit (String.String ?c ?s) ++ _ ++ _) =>
      change (visible (c :: (lit s ++ lit ": ") ++ v)) end;
    apply visible_prefix; try done; by vm_compute; set_solver.
Qed.

Section Roundtrip.
Variable json_string : bytes → bytes.
Variable json_from_str : bytes → option json.

#[local] Abbreviation render := (render json_string).
#[local] Abbreviation parse := (parse json_from_str).
#[local] Abbreviation parse_lines := (parse_lines json_from_str).

Lemma parse_lines_kv k v rest n meta seen :
  known_key k → visible v → k ∉ seen →
  parse_lines (split_inclusive (kv_line k v ++ rest)) n meta seen =
  (let? meta' := set_key json_from_str meta k v in
   parse_lines (split_inclusive rest) (n + length (kv_line k v)) meta' (seen ++ [k])).
Proof.
  intros Hk Hv Hs. pose proof (known_key_visible k v Hk Hv) as Hl.
  assert (E : kv_line k v = (k ++ lit ": " ++ v) ++ [newline]).
  { unfold kv_line. by rewrite <- !app_assoc. }
  rewrite E, <- app_assoc. cbn [app].
  rewrite split_inclusive_line by by apply visible_no_newline.
  cbn [PageFile.parse_lines]. rewrite trim_eol_visible by done.
  rewrite bool_decide_eq_false_2.
  2: { destruct Hk as [-> |[-> |[-> | ->]]]; discriminate. }
  unfold is_blank. rewrite (visible_trim _ Hl).
  destruct (k ++ lit ": " ++ v) as [|c l] eqn:El; [by destruct k|]. rewrite <- El.
  change (lit ": " ++ v) with (":"%char :: " "%char :: v).
  rewrite split_once_here.
  2: { destruct Hk as [-> |[-> |[-> | ->]]]; vm_compute; set_solver. }
  rewrite trim_space, (visible_trim _ Hv).
  assert (Ht : trim k = k) by (destruct Hk as [-> |[-> |[-> | ->]]]; reflexivity).
  rewrite Ht, bool_decide_eq_false_2 by done. done.
Qed.

(** ** What the round trip needs of serde_json *)

(** The printed string is quoted, stays on one line and reads back. *)
Record string_ok (s : bytes) : Prop := {
  so_shape : ∃ m, json_string s = quote :: m ++ [quote] ∧ valid_utf8 (quote :: m) = true
                  ∧ newline ∉ m;
  so_parse : json_from_str (json_string s) = Some (JString s);
}.

Definition one_line (s : bytes) : Prop := is_blank s = false ∧ has_line_break s = false.

Record meta_ok (meta : PageMeta) : Prop := {
  mo_title t : title meta = Some t → one_line t ∧ string_ok t;
  mo_tier t : tier meta = Some t → one_line t ∧ string_ok t ∧ t ≠ DEFAULT_TIER;
  mo_tags : Forall (λ t, is_blank t = false ∧ string_ok t) (tags meta);
  mo_list : json_from_str (lit "[" ++ tag_list json_string (tags meta) ++ lit "]")
            = Some (JArray (JString <$> tags meta));
}.

Lemma string_ok_visible s : string_ok s → visible (json_string s).
Proof. intros [(m & -> & Hv & Hn) _]. by apply visible_intro. Qed.

Lemma tag_list_valid l :
  Forall string_ok l → valid_utf8 (tag_list json_string l) = true ∧ newline ∉ tag_list json_string l.
Proof.
  unfold tag_list. induction 1 as [|s l Hs Hl [IHv IHn]]; [split; [done|apply not_elem_of_nil]|].
  apply string_ok_visible in Hs.
  pose proof (visible_valid _ Hs). pose proof (visible_no_newline _ Hs).
  rewrite fmap_cons. cbn [join]. destruct (json_string <$> l) eqn:E; [done|].
  rewrite <- E in *. split.
  - by rewrite valid_utf8_app.
  - intros [?|[?|?]%elem_of_app]%elem_of_app; [done| |done]. revert H1. vm_compute. set_solver.
Qed.

Lemma tags_visible l : Forall string_ok l → visible (lit "[" ++ tag_list json_string l ++ lit "]").
Proof.
  intros [Hv Hn]%tag_list_valid. change (visible ("["%char :: tag_list json_string l ++ ["]"%char])).
  by apply visible_intro.
Qed.

Lemma scalar_ok k s : string_ok s → one_line s → scalar json_from_str k (json_string s) = Ok s.
Proof.
  intros [(m & Hm & _) Hp] [Hb Hl]. unfold scalar. rewrite Hp, Hm. simpl.
  by rewrite Hb, Hl.
Qed.

Lemma collect_tags_ok l :
  Forall (λ t, is_blank t = false) l → collect_tags (JString <$> l) = Ok l.
Proof. induction 1 as [|t l Ht Hl IH]; [done|].
  rewrite fmap_cons. cbn [collect_tags]. by rewrite Ht, IH.
Qed.

(** ** Parsing what [render] printed, line by line *)

Variables (meta : PageMeta) (body : bytes).
Hypothesis Hmeta : meta_ok meta.
Hypothesis Hbody : valid_utf8 body = true.

Lemma title_step rest n :
  ∃ seen, parse_lines (split_inclusive (title_line json_string meta ++ rest)) n default_meta []
    = parse_lines (split_inclusive rest) (n + length (title_line json_string meta))
        (mkPageMeta (title meta) [] false None) seen ∧ seen ⊆ [lit "title"].
Proof.
  unfold title_line. destruct (title meta) as [t|] eqn:E.
  - destruct (mo_title _ Hmeta t E) as [H1 H2].
    eexists. split; [|reflexivity]. change (lit "title: " ++ json_string t ++ [newline])
      with (kv_line (lit "title") (json_string t)).
    rewrite parse_lines_kv; [|by left|by apply string_ok_visible|apply not_elem_of_nil].
    unfold set_key. by rewrite bool_decide_eq_true_2, scalar_ok.
  - exists []. rewrite Nat.add_0_r. split; [done|set_solver].
Qed.

Lemma tags_step rest n seen :
  seen ⊆ [lit "title"] →
  ∃ seen', parse_lines (split_inclusive (tags_line json_string meta ++ rest)) n
             (mkPageMeta (title meta) [] false None) seen
    = parse_lines (split_inclusive rest) (n + length (tags_line json_string meta))
        (mkPageMeta (title meta) (tags meta) false None) seen' ∧
    seen' ⊆ [lit "title"; lit "tags"].
Proof.
  intros Hs. unfold tags_line. destruct (tags meta) as [|t l] eqn:E.
  - exists seen. rewrite Nat.add_0_r. split; [done|set_solver].
  - rewrite <- E. pose proof (mo_tags _ Hmeta) as Ht. apply Forall_and in Ht as [Hb Hok].
    exists (seen ++ [lit "tags"]). split; [|set_solver].
    change (lit "tags: [" ++ ?x ++ lit "]" ++ [newline])
      with (lit "tags" ++ lit ": " ++ lit "[" ++ x ++ lit "]" ++ [newline]).
    replace (lit "tags" ++ lit ": " ++ lit "[" ++ tag_list json_string (tags meta) ++ lit "]" ++ [newline])
      with (kv_line (lit "tags") (lit "[" ++ tag_list json_string (tags meta) ++ lit "]"))
      by (unfold kv_line; by rewrite <- !app_assoc).
    rewrite parse_lines_kv; [|by right; left|by apply tags_visible|].
    2: { intros Hin. apply Hs in Hin. revert Hin. vm_compute. set_solver. }
    unfold set_key. rewrite !bool_decide_eq_false_2 by discriminate.
    rewrite bool_decide_eq_true_2 by done. unfold parse_tags.
    by rewrite (mo_list _ Hmeta), collect_tags_ok.
Qed.

Lemma visible_true : visible (lit "true").
Proof. change (visible ("t"%char :: lit "ru" ++ ["e"%char])). apply visible_intro; try done. vm_compute. set_solver. Qed.

Lemma pinned_step rest n seen :
  seen ⊆ [lit "title"; lit "tags"] →
  ∃ seen', parse_lines (split_inclusive (pinned_line meta ++ rest)) n
             (mkPageMeta (title meta) (tags meta) false None) seen
    = parse_lines (split_inclusive rest) (n + length (pinned_line meta))
        (mkPageMeta (title meta) (tags meta) (pinned meta) None) seen' ∧
    seen' ⊆ [lit "title"; lit "tags"; lit "pinned"].
Proof.
  intros Hs. unfold pinned_line. destruct (pinned meta).
  - exists (seen ++ [lit "pinned"]). split; [|set_solver].
    change (lit "pinned: true" ++ [newline]) with (kv_line (lit "pinned") (lit "true")).
    rewrite parse_lines_kv; [|by right; right; left|apply visible_true|].
    2: { intros Hin. apply Hs in Hin. revert Hin. vm_compute. set_solver. }
    done.
  - exists seen. rewrite Nat.add_0_r. split; [done|set_solver].
Qed.

Lemma tier_step rest n seen :
  seen ⊆ [lit "title"; lit "tags"; lit "pinned"] →
  ∃ seen', parse_lines (split_inclusive (tier_line json_string meta ++ rest)) n
             (mkPageMeta (title meta) (tags meta) (pinned meta) None) seen
    = parse_lines (split_inclusive rest) (n + length (tier_line json_string meta)) meta seen'.
Proof.
  intros Hs. unfold tier_line. destruct (tier meta) as [t|] eqn:E.
  - destruct (mo_tier _ Hmeta t E) as (H1 & H2 & H3). exists (seen ++ [lit "tier"]).
    change (lit "tier: " ++ json_string t ++ [newline])
      with (kv_line (lit "tier") (json_string t)).
    rewrite parse_lines_kv; [|by right; right; right|by apply string_ok_visible|].
    2: { intros Hin. apply Hs in Hin. revert Hin. vm_compute. set_solver. }
    unfold set_key. rewrite bool_decide_eq_false_2 by discriminate.
    rewrite bool_decide_eq_true_2, scalar_ok by done. cbn [result_bind].
    rewrite bool_decide_eq_false_2 by done. rewrite <- E. by destruct meta.
  - exists seen. rewrite Nat.add_0_r, <- E. by destruct meta.
Qed.

Lemma closing_step n m seen :
  parse_lines (split_inclusive (FENCE ++ [newline] ++ body)) n m seen = Ok (m, n + 4).
Proof.
  change (FENCE ++ [newline] ++ body) with (FENCE ++ newline :: body).
  rewrite split_inclusive_line by (vm_compute; set_solver). done.
Qed.

(** The bytes before the body. *)
Definition front : bytes :=
  title_line json_string meta ++ tags_line json_string meta ++ pinned_line meta
  ++ tier_line json_string meta.

Lemma render_front : render meta body = FENCE ++ newline :: front ++ FENCE ++ [newline] ++ body.
Proof. unfold PageFile.render, front. by rewrite <- !app_assoc. Qed.

Lemma front_valid : valid_utf8 front = true.
Proof.
  assert (Ha : ∀ s t, valid_utf8 s = true → valid_utf8 t = true → valid_utf8 (s ++ t) = true).
  { intros s t Hs Ht. by rewrite valid_utf8_app. }
  assert (Hstr : ∀ s, string_ok s → valid_utf8 (json_string s) = true).
  { intros s Hs. by apply visible_valid, string_ok_visible. }
  unfold front, title_line, tags_line, pinned_line, tier_line.
  apply Ha; [|apply Ha; [|apply Ha]].
  - destruct (title meta) as [t|] eqn:E; [|done]. destruct (mo_title _ Hmeta t E).
    apply Ha; [done|]. apply Ha; [auto|done].
  - destruct (tags meta) as [|t l] eqn:E; [done|]. rewrite <- E.
    pose proof (mo_tags _ Hmeta) as Ht. apply Forall_and in Ht as [_ Hok].
    apply tag_list_valid in Hok as [Hv _]. apply Ha; [done|]. apply Ha; [done|done].
  - by destruct (pinned meta).
  - destruct (tier meta) as [t|] eqn:E; [|done]. destruct (mo_tier _ Hmeta t E) as (? & ? & ?).
    apply Ha; [done|]. apply Ha; [auto|done].
Qed.

Lemma parse_render : parse (render meta body) = Ok (meta, body).
Proof.
  assert (Hv : valid_utf8 (render meta body) = true).
  { rewrite render_front. change (FENCE ++ newline :: ?x) with ((FENCE ++ [newline]) ++ x).
    change (FENCE ++ newline :: front ++ FENCE ++ [newline] ++ body)
      with ((FENCE ++ [newline]) ++ front ++ (FENCE ++ [newline]) ++ body).
    rewrite valid_utf8_app by done. rewrite valid_utf8_app by apply front_valid.
    by rewrite valid_utf8_app. }
  unfold PageFile.parse. rewrite Hv. cbn [negb]. rewrite render_front.
  change (strip_prefix bom (FENCE ++ newline :: front ++ FENCE ++ [newline] ++ body)) with (@None bytes).
  cbv beta iota zeta. rewrite split_inclusive_line by (vm_compute; set_solver).
  cbv beta iota. change (trim_eol (FENCE ++ [newline])) with FENCE. rewrite bool_decide_eq_false_2 by (intros H; by apply H).
  cbn [tail]. change (length (FENCE ++ [newline])) with 4.
  unfold front. rewrite <- !app_assoc.
  edestruct title_step as (s1 & -> & H1). edestruct (tags_step) as (s2 & -> & H2); [exact H1|].
  edestruct (pinned_step) as (s3 & -> & H3); [exact H2|].
  edestruct (tier_step) as (s4 & ->); [exact H3|]. rewrite closing_step. cbn [result_bind fst snd].
  do 2 f_equal.
  match goal with |- drop ?k ?t = _ =>
    replace t with ((FENCE ++ newline :: front ++ FENCE ++ [newline]) ++ body) end.
  - apply drop_app_length'. unfold front. rewrite !length_app. simpl. rewrite !length_app. simpl. lia.
  - unfold front. rewrite <- !app_assoc. simpl. by rewrite <- !app_assoc.
Qed.
End Roundtrip.

(** Round trip of the page file: parsing what [render] printed returns
    the metadata and the body byte for byte, for every metadata whose strings
    are non-blank single lines that serde_json prints and reads back. *)
Theorem page_file_roundtrip json_string json_from_str meta body :
  meta_ok json_string json_from_str meta → valid_utf8 body = true →
  parse json_from_str (render json_string meta body) = Ok (meta, body).
Proof. apply parse_render. Qed.

(** ** A concrete printer and reader *)

Definition demo_string (s : bytes) : bytes := quote :: s ++ [quote].

(** Reads what [demo_string] prints, and the one list the demo page carries. *)
Definition demo_from_str (v : bytes) : option json :=
  if starts_quoted v then Some (JString (removelast (tail v)))
  else Some (JArray [JString (lit "db"); JString (lit "ops")]).

Definition demo_meta : PageMeta :=
  mkPageMeta (Some (lit "Use: Postgres")) [lit "db"; lit "ops"] true (Some (lit "episodic")).

Lemma demo_string_ok s :
  valid_utf8 (quote :: s) = true → newline ∉ s → string_ok demo_string demo_from_str s.
Proof.
  intros Hv Hn. split; [by exists s|]. unfold demo_string, demo_from_str. simpl.
  by rewrite removelast_last.
Qed.

Lemma demo_meta_ok : meta_ok demo_string demo_from_str demo_meta.
Proof.
  assert (H : ∀ s, s ∈ [lit "Use: Postgres"; lit "db"; lit "ops"; lit "episodic"] →
    string_ok demo_string demo_from_str s ∧ one_line s).
  { intros s Hs. repeat (apply elem_of_cons in Hs as [->|Hs]); [..|by apply not_elem_of_nil in Hs];
      (split; [apply demo_string_ok; [done|vm_compute; set_solver]|done]). }
  split.
  - intros t [= <-]. destruct (H (lit "Use: Postgres")) as [? ?]; [set_solver|done].
  - intros t [= <-]. destruct (H (lit "episodic")) as [? ?]; [set_solver|]. done.
  - repeat constructor; apply H; set_solver.
  - reflexivity.
Qed.

Lemma page_file_roundtrip_witness :
  parse demo_from_str (render demo_string demo_meta (lit "---" ++ [newline] ++ lit "body"))
  = Ok (demo_meta, lit "---" ++ [newline] ++ lit "body").
Proof. apply page_file_roundtrip; [exact demo_meta_ok|reflexivity]. Defined.
