(* ===== verification/WikiPaths.v ===== *)
(** * Wikisync page paths

    Models the validation of [companions/ai-memory-wikisync/src/paths.rs]:
    which server-reported paths may be joined onto the destination. *)

From S2P Require Export Text.

Local Open Scope rust_scope.

Definition MAX_PATH_BYTES : nat := 180.
Definition MAX_SEGMENT_BYTES : nat := 64.
Definition MAX_DEPTH : nat := 8.

Definition slash : ascii := "/"%char.
Definition dot : ascii := "."%char.

Definition RESERVED_STEMS : list bytes :=
  lit <$> ["CON"; "PRN"; "AUX"; "NUL"; "COM1"; "COM2"; "COM3"; "COM4"; "COM5"; "COM6"; "COM7";
           "COM8"; "COM9"; "LPT1"; "LPT2"; "LPT3"; "LPT4"; "LPT5"; "LPT6"; "LPT7"; "LPT8";
           "LPT9"]%string.

Definition is_reserved_stem (segment : bytes) : bool :=
  let stem := match split_on dot segment with piece :: _ => piece | [] => [] end in
  bool_decide (to_ascii_uppercase stem ∈ RESERVED_STEMS).

Definition segment_byte (b : ascii) : bool :=
  is_ascii_alphanumeric b || existsb (Ascii.eqb b) ["."; "-"; "_"]%char.

Definition starts_with (c : ascii) (s : bytes) : bool :=
  match s with a :: _ => Ascii.eqb a c | [] => false end.

Definition valid_segment (segment : bytes) : bool :=
  negb (bool_decide (segment = []))
  && (length segment <=? MAX_SEGMENT_BYTES)
  && forallb segment_byte segment
  && negb (starts_with dot segment)
  && negb (ends_with dot segment)
  && negb (is_reserved_stem segment).

Inductive PathError :=
  | FamilyStar | FamilyWildcard | FamilyNotPortable
  | EmptyPath | PathTooLong | AbsolutePath | NotPortable | TooDeep
  | BadSegment (segment : bytes) | NotMarkdown
  | CaseCollision (first second : bytes).

Definition validate_family (raw : bytes) : result unit PathError :=
  bail_if bool_decide (raw = lit "*") with FamilyStar;;
  bail_if existsb (λ c, existsb (Ascii.eqb c) ["*"; "?"; "["; "]"]%char) raw with FamilyWildcard;;
  bail_if negb (valid_segment raw) with FamilyNotPortable;;
  Ok ().

Definition family_of (path : bytes) : bytes :=
  match split_on slash path with piece :: _ => piece | [] => path end.

Definition ends_with_md (s : bytes) : bool :=
  bool_decide (drop (length s - 3) s = lit ".md").

Definition validate_page_path (raw : bytes) : result unit PathError :=
  bail_if bool_decide (raw = []) with EmptyPath;;
  bail_if MAX_PATH_BYTES <? length raw with PathTooLong;;
  bail_if starts_with slash raw with AbsolutePath;;
  bail_if existsb (λ c, Ascii.eqb c "\"%char || (byte_val c =? 0)%N || (128 <=? byte_val c)%N) raw
    with NotPortable;;
  let segments := split_on slash raw in
  bail_if MAX_DEPTH <? length segments with TooDeep;;
  match List.find (λ s, negb (valid_segment s)) segments with
  | Some s => Err (BadSegment s)
  | None =>
      bail_if negb (ends_with_md (List.last segments [])) with NotMarkdown;;
      Ok ()
  end.

(** The map from a folded path to the first path seen. *)
Fixpoint check_folds (seen : gmap bytes bytes) (paths : list bytes) : result unit PathError :=
  match paths with
  | [] => Ok ()
  | path :: paths' =>
      let folded := to_ascii_lowercase path in
      match seen !! folded with
      | Some first =>
          bail_if bool_decide (first ≠ path) with CaseCollision first path;;
          check_folds seen paths'
      | None => check_folds (<[folded := path]> seen) paths'
      end
  end.

Definition ensure_no_case_fold_collisions (paths : list bytes) : result unit PathError :=
  check_folds ∅ paths.

(** ** What a validated path is *)

(** Lexical resolution of a relative path under a root: [.] stays, [..] pops. *)
Fixpoint resolve (root : list bytes) (segments : list bytes) : list bytes :=
  match segments with
  | [] => root
  | s :: rest =>
      if bool_decide (s = lit ".") then resolve root rest
      else if bool_decide (s = lit "..") then resolve (removelast root) rest
      else resolve (root ++ [s]) rest
  end.

Lemma valid_segment_not_dots s : valid_segment s = true → s ≠ lit "." ∧ s ≠ lit "..".
Proof. intros H. split; intros ->; discriminate H. Qed.

Lemma resolve_valid root segments :
  Forall (λ s, valid_segment s = true) segments → resolve root segments = root ++ segments.
Proof.
  intros H. revert root. induction H as [|s rest Hs _ IH]; intros root; simpl; [by rewrite app_nil_r|].
  destruct (valid_segment_not_dots s Hs). rewrite !bool_decide_eq_false_2 by done.
  by rewrite IH, <- app_assoc.
Qed.

Lemma find_None_forallb {A} (p : A → bool) l :
  List.find (λ x, negb (p x)) l = None → Forall (λ x, p x = true) l.
Proof.
  induction l as [|x l IH]; intros H; [constructor|]. simpl in H.
  destruct (p x) eqn:E; simpl in H; [|done]. constructor; auto.
Qed.

Lemma check_folds_spec seen paths :
  (∀ f p, seen !! f = Some p → f = to_ascii_lowercase p) →
  check_folds seen paths = Ok () →
  (∀ p, p ∈ paths → ∀ q, seen !! to_ascii_lowercase p = Some q → q = p) ∧
  (∀ p q, p ∈ paths → q ∈ paths → to_ascii_lowercase p = to_ascii_lowercase q → p = q).
Proof.
  revert seen; induction paths as [|x paths IH]; intros seen Hs H; cbn [check_folds] in H.
  { split; [intros p Hp|intros p q Hp]; by apply not_elem_of_nil in Hp. }
  destruct (seen !! to_ascii_lowercase x) as [first|] eqn:E.
  - apply bail_Ok in H as [Hg H]. apply bool_decide_eq_false, dec_stable in Hg. subst first.
    destruct (IH seen Hs H) as [H1 H2]. split.
    + intros p [->|Hp]%elem_of_cons q Hq; [congruence|]. by eapply H1.
    + intros p q [->|Hp]%elem_of_cons [->|Hq]%elem_of_cons Heq; [done| | |by eapply H2].
      * apply (H1 q Hq). by rewrite <- Heq.
      * symmetry. apply (H1 p Hp). by rewrite Heq.
  - destruct (IH (<[to_ascii_lowercase x := x]> seen)) as [H1 H2]; [|done|].
    { intros f p [[<- <-]|[_ Hf]]%lookup_insert_Some; [done|by apply Hs]. }
    assert (Hx : ∀ p, p ∈ paths → to_ascii_lowercase p = to_ascii_lowercase x → x = p).
    { intros p Hp Heq. apply (H1 p Hp). rewrite Heq. apply lookup_insert_eq. }
    split.
    + intros p [->|Hp]%elem_of_cons q Hq; [congruence|].
      destruct (decide (to_ascii_lowercase p = to_ascii_lowercase x)) as [Heq|Hne].
      * rewrite Heq in Hq. congruence.
      * apply (H1 p Hp). by rewrite lookup_insert_ne.
    + intros p q [->|Hp]%elem_of_cons [->|Hq]%elem_of_cons Heq; [done| | |by eapply H2].
      * apply Hx; [done|by symmetry].
      * symmetry. by apply Hx.
Qed.

(** Path confinement: an accepted page path is relative, at most 180
    bytes and 8 segments of portable characters, none of them a dot name or a
    reserved device, so resolving it lexically under any root lands exactly at
    the root followed by its own segments; and a set of paths accepted
    together is told apart by a case-insensitive file system. *)
Theorem accepted_paths_confined :
  (∀ raw root, validate_page_path raw = Ok () →
     raw ≠ [] ∧ length raw ≤ MAX_PATH_BYTES ∧ length (split_on slash raw) ≤ MAX_DEPTH ∧
     Forall (λ s, valid_segment s = true) (split_on slash raw) ∧
     join [slash] (split_on slash raw) = raw ∧
     resolve root (split_on slash raw) = root ++ split_on slash raw) ∧
  (∀ paths, ensure_no_case_fold_collisions paths = Ok () →
     ∀ p q, p ∈ paths → q ∈ paths → to_ascii_lowercase p = to_ascii_lowercase q → p = q).
Proof.
  split.
  - intros raw root H. unfold validate_page_path in H. cbv zeta in H.
    apply bail_Ok in H as [H1 H]. apply bail_Ok in H as [H2 H]. apply bail_Ok in H as [_ H].
    apply bail_Ok in H as [_ H]. apply bail_Ok in H as [H5 H].
    apply bool_decide_eq_false in H1. apply Nat.ltb_ge in H2, H5.
    destruct (List.find _ _) as [s|] eqn:Hf; [done|].
    apply (find_None_forallb valid_segment) in Hf as Hall.
    split_and!; [done|done|done|done|apply join_split_on|by apply resolve_valid].
  - intros paths H p q. by apply (check_folds_spec ∅ paths).
Qed.

Example path_samples :
  (λ p, is_ok (validate_page_path (lit p))) <$>
    ["decisions/0007-db.md"; "README.md"; "../escape.md"; "/etc/passwd.md"; "notes//double.md";
     "notes/.hidden.md"; "con.md"; "notes/x.txt"]%string
  = [true; true; false; false; false; false; false; false].
Proof. reflexivity. Qed.
