(* ===== verification/WikiSync.v ===== *)
(** * Two-way wiki sync

    Models [companions/ai-memory-wikisync/src/bidi.rs] with what it uses of
    [state.rs] (scope and page state), [sync.rs] (baseline, rendering,
    guarded writes) and [client.rs] (page reads): the decision matrix, the
    plan over all pages, and the application of a plan.  The SHA-256 function,
    serde_json's string printer and reader, the server behind the HTTP client
    and the file system around the run are arguments. *)

From S2P Require Export PageFile WikiPaths.

Local Open Scope rust_scope.

Definition MAX_PAGES : Z := 10000.
Definition MAX_BODY_BYTES : Z := 8 * 1024 * 1024.
Definition STATE_VERSION : nat := 1.

(** ** State ([state.rs]) *)

Record PageState := mkPageState {
  ps_hash : bytes;
  ps_etag : option bytes;
  ps_page_id : option bytes;
}.

Record SyncScope := mkSyncScope { sc_server : bytes; sc_workspace : bytes; sc_project : bytes }.

#[export] Instance PageState_eq_dec : EqDecision PageState.
Proof. solve_decision. Defined.
#[export] Instance SyncScope_eq_dec : EqDecision SyncScope.
Proof. solve_decision. Defined.

(** [SyncScope::of]. *)
Definition scope_of (server workspace project : bytes) : SyncScope :=
  mkSyncScope (drop_end_while (Ascii.eqb slash) server) workspace project.

Record SyncState := mkSyncState {
  ss_version : nat;
  ss_scope : option SyncScope;
  ss_pages : gmap bytes PageState;
}.

Definition default_state : SyncState := mkSyncState STATE_VERSION None ∅.

Definition with_pages (f : gmap bytes PageState → gmap bytes PageState) (s : SyncState) : SyncState :=
  mkSyncState (ss_version s) (ss_scope s) (f (ss_pages s)).

Inductive ScopeCheck :=
  | ScopeMatch
  | ScopeAdopted
  | ScopeMismatch (recorded : SyncScope).

Definition check_scope (state : SyncState) (scope : SyncScope) : ScopeCheck :=
  match ss_scope state with
  | Some recorded => if bool_decide (recorded ≠ scope) then ScopeMismatch recorded else ScopeMatch
  | None => ScopeAdopted
  end.

(** ** Errors *)

Inductive SyncError :=
  | ForeignBaseline (recorded : SyncScope)
  | PathRefused (e : PathError)
  | TooManyPages
  | OversizedPage (path : bytes)
  | NotModifiedWithoutFile (path : bytes)
  | AlreadyGone (path : bytes)
  | MissingETag (path : bytes)
  | ServerTooOld
  | NoBodyAfterWrite (path : bytes)
  | PreconditionFailed (path : bytes)
  | BatchRefused (deletes : nat)
  | PagesRefused (n : nat)
  | Raced (paths : list bytes)
  | CallFailed
  | IoFailed
  | StepFailed (path : bytes) (cause : SyncError).

(** [baseline_for] ([sync.rs]). *)
Definition baseline_for (state : SyncState) (scope : SyncScope) (adopt : bool)
    : result SyncState SyncError :=
  match check_scope state scope with
  | ScopeMatch => Ok state
  | ScopeAdopted => Ok (mkSyncState (ss_version state) (Some scope) (ss_pages state))
  | ScopeMismatch recorded =>
      bail_if negb adopt with ForeignBaseline recorded;;
      Ok (mkSyncState STATE_VERSION (Some scope) ∅)
  end.

(** ** The decision ([decide]) *)

Inductive Prefer := PreferRepo | PreferServer.

Record Policy := mkPolicy { prefer : option Prefer; propagate_deletes : bool }.

Inductive ServerSide :=
  | Absent
  | NotModified
  | Rendered (page : bytes).

Inductive Action :=
  | Unchanged
  | Export (create : bool)
  | Import (create : bool)
  | Conflict
  | DeleteOnServer
  | DeleteInRepo
  | DeletedOnServer
  | DeletedInRepo
  | GoneOnBothSides.

#[export] Instance Prefer_eq_dec : EqDecision Prefer.
Proof. solve_decision. Defined.
#[export] Instance Action_eq_dec : EqDecision Action.
Proof. solve_decision. Defined.

Definition is_some {A} (o : option A) : bool := match o with Some _ => true | None => false end.

Section Decide.
Variable sha256_hex : bytes → bytes.

Definition disk_is_base (disk : option bytes) (base : option PageState) : bool :=
  match disk, base with
  | Some d, Some b => bool_decide (sha256_hex d = ps_hash b)
  | _, _ => false
  end.

Definition server_is_base (page : bytes) (base : option PageState) : bool :=
  match base with Some b => bool_decide (ps_hash b = sha256_hex page) | None => false end.

Definition decide_page (disk : option bytes) (base : option PageState) (server : ServerSide)
    (policy : Policy) : Action :=
  match server with
  | Absent =>
      match is_some disk, is_some base with
      | true, false => Import true
      | true, true =>
          if negb (propagate_deletes policy) then DeletedOnServer
          else if disk_is_base disk base then DeleteInRepo
          else match prefer policy with
               | Some PreferRepo => Import true
               | Some PreferServer => DeleteInRepo
               | None => Conflict
               end
      | false, true => GoneOnBothSides
      | false, false => Unchanged
      end
  | NotModified =>
      match is_some disk, is_some base with
      | false, true => if propagate_deletes policy then DeleteOnServer else DeletedInRepo
      | false, false => Unchanged
      | true, _ => if disk_is_base disk base then Unchanged else Import false
      end
  | Rendered page =>
      match disk with
      | None =>
          if negb (is_some base) then Export true
          else if negb (propagate_deletes policy) then DeletedInRepo
          else if server_is_base page base then DeleteOnServer
          else match prefer policy with
               | Some PreferRepo => DeleteOnServer
               | Some PreferServer => Export true
               | None => Conflict
               end
      | Some d =>
          if bool_decide (sha256_hex d = sha256_hex page) then Unchanged
          else if disk_is_base disk base then Export false
          else if server_is_base page base then Import false
          else match prefer policy with
               | Some PreferRepo => Import false
               | Some PreferServer => Export false
               | None => Conflict
               end
      end
  end.
End Decide.

(** ** Server pages ([client.rs], [sync.rs]) *)

Record ApiPage := mkApiPage {
  ap_id : option bytes;
  body_markdown : bytes;
  ap_title : bytes;
  ap_tier : bytes;
  ap_pinned : bool;
  frontmatter : json;
}.

Record PageRead := mkPageRead { read_page : option ApiPage; read_etag : option bytes }.

Definition RECREATED_KEYS : list bytes :=
  lit <$> ["title"; "tier"; "pinned"; "tags"; "type"; "generated"; "last_modified_by"]%string.

(** Byte order, as [str] and [BTreeSet<String>] compare. *)
Fixpoint bytes_lt (a b : bytes) : bool :=
  match a, b with
  | [], _ :: _ => true
  | x :: a', y :: b' =>
      (byte_val x <? byte_val y)%N || (byte_val x =? byte_val y)%N && bytes_lt a' b'
  | _, [] => false
  end.

Definition sort_bytes (l : list bytes) : list bytes := sort_by_key id bytes_lt l.

Definition keys_an_import_would_clear (fm : json) : list bytes :=
  match fm with
  | JObject fields => sort_bytes (filter (λ k, k ∉ RECREATED_KEYS) (fst <$> fields))
  | _ => []
  end.

(** ** The plan *)

Record ImportItem := mkImport {
  im_path : bytes; im_create : bool; im_meta : PageMeta; im_body : bytes; im_disk : bytes;
  im_expected_page_id : option bytes;
}.

Record ExportItem := mkExport {
  ex_path : bytes; ex_create : bool; ex_bytes : bytes; ex_etag : option bytes;
  ex_page_id : option bytes; ex_expected_disk : option bytes;
}.

Record ServerDelete := mkServerDelete { sd_path : bytes; sd_expected_page_id : option bytes }.
Record FileDelete := mkFileDelete { fd_path : bytes; fd_expected_hash : bytes }.

Inductive RefusalReason :=
  | WalkRefusal | FileTooLarge | ConflictRefusal | PinnedPage
  | CannotParse (e : ParseError) | WouldClear (keys : list bytes).

Record Refusal := mkRefusal { rf_path : bytes; rf_reason : RefusalReason }.

Inductive Notice := NoticeDeletedOnServer | NoticeDeletedInRepo.

Record Plan := mkPlan {
  imports : list ImportItem;
  exports : list ExportItem;
  server_deletes : list ServerDelete;
  file_deletes : list FileDelete;
  unchanged : list bytes;
  refused : list Refusal;
  batch_refusal : option nat;
  notices : list (bytes * Notice);
  differs : list bytes;
  adopted : gmap bytes PageState;
  forget : list bytes;
}.

Definition empty_plan : Plan := mkPlan [] [] [] [] [] [] None [] [] ∅ [].

(** [push] on one list of the plan. *)
Definition push_import x p := mkPlan (imports p ++ [x]) (exports p) (server_deletes p)
  (file_deletes p) (unchanged p) (refused p) (batch_refusal p) (notices p) (differs p) (adopted p) (forget p).
Definition push_export x p := mkPlan (imports p) (exports p ++ [x]) (server_deletes p)
  (file_deletes p) (unchanged p) (refused p) (batch_refusal p) (notices p) (differs p) (adopted p) (forget p).
Definition push_server_delete x p := mkPlan (imports p) (exports p) (server_deletes p ++ [x])
  (file_deletes p) (unchanged p) (refused p) (batch_refusal p) (notices p) (differs p) (adopted p) (forget p).
Definition push_file_delete x p := mkPlan (imports p) (exports p) (server_deletes p)
  (file_deletes p ++ [x]) (unchanged p) (refused p) (batch_refusal p) (notices p) (differs p) (adopted p) (forget p).
Definition push_unchanged x p := mkPlan (imports p) (exports p) (server_deletes p)
  (file_deletes p) (unchanged p ++ [x]) (refused p) (batch_refusal p) (notices p) (differs p) (adopted p) (forget p).
Definition push_refused path reason p := mkPlan (imports p) (exports p) (server_deletes p)
  (file_deletes p) (unchanged p) (refused p ++ [mkRefusal path reason]) (batch_refusal p) (notices p) (differs p) (adopted p) (forget p).
Definition set_batch_refusal n p := mkPlan (imports p) (exports p) (server_deletes p)
  (file_deletes p) (unchanged p) (refused p) (Some n) (notices p) (differs p) (adopted p) (forget p).
Definition push_notice path n p := mkPlan (imports p) (exports p) (server_deletes p)
  (file_deletes p) (unchanged p) (refused p) (batch_refusal p) (notices p ++ [(path, n)]) (differs p) (adopted p) (forget p).
Definition push_differs x p := mkPlan (imports p) (exports p) (server_deletes p)
  (file_deletes p) (unchanged p) (refused p) (batch_refusal p) (notices p) (differs p ++ [x]) (adopted p) (forget p).
Definition adopt path st p := mkPlan (imports p) (exports p) (server_deletes p)
  (file_deletes p) (unchanged p) (refused p) (batch_refusal p) (notices p) (differs p) (<[path := st]> (adopted p)) (forget p).
Definition push_forget x p := mkPlan (imports p) (exports p) (server_deletes p)
  (file_deletes p) (unchanged p) (refused p) (batch_refusal p) (notices p) (differs p) (adopted p) (forget p ++ [x]).

Inductive CheckStatus := InSync | Drift | Blocked.

Record Outcome := mkOutcome { pending : nat; blocked : bool }.

Definition status (o : Outcome) : CheckStatus :=
  if blocked o then Blocked else if 0 <? pending o then Drift else InSync.

Definition outcome (p : Plan) : Outcome :=
  mkOutcome
    (length (imports p) + length (exports p) + length (server_deletes p)
     + length (file_deletes p) + length (notices p) + length (differs p))
    (negb (length (refused p) =? 0) || is_some (batch_refusal p)).

Definition deletes (p : Plan) : nat := length (server_deletes p) + length (file_deletes p).

Record SyncArgs := mkSyncArgs {
  arg_prefer : option Prefer;
  arg_propagate_deletes : bool;
  max_deletes : nat;
}.

Definition policy_of (args : SyncArgs) : Policy :=
  mkPolicy (arg_prefer args) (arg_propagate_deletes args).

(** ** Building the plan *)

(** What the run reads: the server's listing, the walk of the families, one
    file, one page with an [If-None-Match] hint, and the second, unconditional
    read of a page. *)
Record PlanEnv := mkPlanEnv {
  env_listed : list bytes;
  env_walk : result (list bytes * list Refusal) SyncError;
  env_disk : bytes → result (option bytes) SyncError;
  env_read : bytes → option bytes → result PageRead SyncError;
  env_reread : bytes → result PageRead SyncError;
}.

Section Sync.
Variable sha256_hex : bytes → bytes.
Variable json_string : bytes → bytes.
Variable json_from_str : bytes → option json.

(** [render_page]. *)
Definition render_page (path : bytes) (page : ApiPage) : result bytes SyncError :=
  bail_if (MAX_BODY_BYTES <? Z.of_nat (length (body_markdown page)))%Z with OversizedPage path;;
  Ok (render json_string
        (from_server (ap_title page) (ap_tier page) (ap_pinned page) (frontmatter page))
        (body_markdown page)).

(** [select_pages] on the paths of a listing: the allowlisted, validated,
    deduplicated ones. *)
Definition in_families (families : list bytes) (path : bytes) : bool :=
  existsb (λ f, bool_decide (family_of path = f)) families.

Fixpoint validate_all (paths : list bytes) : result unit SyncError :=
  match paths with
  | [] => Ok ()
  | p :: ps =>
      match validate_page_path p with
      | Ok _ => validate_all ps
      | Err e => Err (PathRefused e)
      end
  end.

Definition no_collisions (paths : list bytes) : result unit SyncError :=
  match ensure_no_case_fold_collisions paths with
  | Ok _ => Ok ()
  | Err e => Err (PathRefused e)
  end.

Definition select_pages (listed families : list bytes) : result (list bytes) SyncError :=
  let mine := filter (λ p, in_families families p = true) listed in
  let? _u := validate_all mine in
  let selected := sort_bytes (remove_dups mine) in
  bail_if (MAX_PAGES <? Z.of_nat (length selected))%Z with TooManyPages;;
  let? _v := no_collisions selected in
  Ok selected.

(** The paths one run considers, in [BTreeSet] order. *)
Definition all_paths (families on_server in_repo : list bytes) (walk_refused : list Refusal)
    (old : SyncState) : list bytes :=
  let in_state := filter (λ p, in_families families p = true)
                    (elements (dom (ss_pages old) : gset bytes)) in
  let refused_paths := rf_path <$> walk_refused in
  sort_bytes (remove_dups (filter (λ p, p ∉ refused_paths) (on_server ++ in_repo ++ in_state))).

(** [plan_import]. *)
Definition plan_import (path : bytes) (create : bool) (disk : bytes) (current : option ApiPage)
    (plan : Plan) : Plan :=
  match parse json_from_str disk with
  | Err e => push_refused path (CannotParse e) plan
  | Ok (meta, body) =>
      let lost := match current with
                  | Some page => keys_an_import_would_clear (frontmatter page)
                  | None => []
                  end in
      if negb (length lost =? 0) then push_refused path (WouldClear lost) plan
      else push_import (mkImport path create meta body disk (current ≫= ap_id)) plan
  end.

(** [full_page]. *)
Definition full_page (env : PlanEnv) (path : bytes) : result ApiPage SyncError :=
  let? read := env_reread env path in
  match read_page read with Some page => Ok page | None => Err (MissingETag path) end.

(** The [If-None-Match] hint: only for a file that is still the base. *)
Definition etag_hint (disk : option bytes) (base : option PageState) : option bytes :=
  if disk_is_base sha256_hex disk base then base ≫= ps_etag else None.

(** The server's side of one page: the read's ETag, the page and its
    rendering. *)
Definition fetch (env : PlanEnv) (on_server : bool) (path : bytes) (disk : option bytes)
    (base : option PageState)
    : result (option bytes * option ApiPage * option bytes) SyncError :=
  if on_server then
    let? read := env_read env path (etag_hint disk base) in
    match read_page read with
    | Some page =>
        let? rendered := render_page path page in
        Ok (read_etag read, Some page, Some rendered)
    | None => Ok (read_etag read, None, None)
    end
  else Ok (None, None, None).

Definition server_side (rendered : option bytes) (on_server : bool) : ServerSide :=
  match rendered, on_server with
  | Some page, _ => Rendered page
  | None, true => NotModified
  | None, false => Absent
  end.

(** The [match decide(..)] of the plan loop. *)
Definition plan_action (env : PlanEnv) (args : SyncArgs) (stateless_check : bool) (path : bytes)
    (disk : option bytes) (base : option PageState) (etag : option bytes)
    (current : option ApiPage) (rendered : option bytes) (action : Action) (plan : Plan)
    : result Plan SyncError :=
  match action with
  | Unchanged =>
      let plan' := match rendered with
                   | Some page => adopt path (mkPageState (sha256_hex page) etag (current ≫= ap_id)) plan
                   | None => plan
                   end in
      Ok (push_unchanged path plan')
  | Export create =>
      match rendered with
      | None => Err (NotModifiedWithoutFile path)
      | Some page =>
          Ok (push_export (mkExport path create page etag (current ≫= ap_id) (sha256_hex <$> disk)) plan)
      end
  | Import create =>
      let d := default [] disk in
      if negb create && negb (is_some current) then
        let? page := full_page env path in Ok (plan_import path create d (Some page) plan)
      else Ok (plan_import path create d current plan)
  | Conflict =>
      if stateless_check && negb (is_some base) then Ok (push_differs path plan)
      else Ok (push_refused path ConflictRefusal plan)
  | DeleteOnServer =>
      let? page := match current with Some page => Ok page | None => full_page env path end in
      if ap_pinned page && bool_decide (arg_prefer args ≠ Some PreferRepo)
      then Ok (push_refused path PinnedPage plan)
      else Ok (push_server_delete (mkServerDelete path (ap_id page)) plan)
  | DeleteInRepo =>
      match disk with
      | None => Err (AlreadyGone path)
      | Some d => Ok (push_file_delete (mkFileDelete path (sha256_hex d)) plan)
      end
  | DeletedOnServer => Ok (push_notice path NoticeDeletedOnServer plan)
  | DeletedInRepo => Ok (push_notice path NoticeDeletedInRepo plan)
  | GoneOnBothSides => Ok (push_forget path plan)
  end.

Definition plan_path (env : PlanEnv) (args : SyncArgs) (on_server : list bytes)
    (old : SyncState) (stateless_check : bool) (plan : Plan) (path : bytes)
    : result Plan SyncError :=
  let? disk := env_disk env path in
  if match disk with Some d => (MAX_BODY_BYTES <? Z.of_nat (length d))%Z | None => false end
  then Ok (push_refused path FileTooLarge plan)
  else
    let base := ss_pages old !! path in
    let listed := bool_decide (path ∈ on_server) in
    let? got := fetch env listed path disk base in
    let '(etag, current, rendered) := got in
    let action := decide_page sha256_hex disk base (server_side rendered listed) (policy_of args) in
    plan_action env args stateless_check path disk base etag current rendered action plan.

Fixpoint plan_paths (env : PlanEnv) (args : SyncArgs) (on_server : list bytes)
    (old : SyncState) (stateless_check : bool) (plan : Plan) (paths : list bytes)
    : result Plan SyncError :=
  match paths with
  | [] => Ok plan
  | path :: paths' =>
      let? plan' := plan_path env args on_server old stateless_check plan path in
      plan_paths env args on_server old stateless_check plan' paths'
  end.

Definition build_plan (env : PlanEnv) (args : SyncArgs) (families : list bytes)
    (old : SyncState) (stateless_check : bool) : result Plan SyncError :=
  let? on_server := select_pages (env_listed env) families in
  let? walked := env_walk env in
  let all := all_paths families on_server (fst walked) (snd walked) old in
  bail_if (MAX_PAGES <? Z.of_nat (length all))%Z with TooManyPages;;
  let? _u := no_collisions all in
  let start := mkPlan [] [] [] [] [] (snd walked) None [] [] ∅ [] in
  let? plan := plan_paths env args on_server old stateless_check start all in
  Ok (if max_deletes args <? deletes plan then set_batch_refusal (deletes plan) plan else plan).
End Sync.

(** ** Applying the plan *)

Inductive Precondition := Latest (id : bytes) | MustBeAbsent.

(** What the run did to the two sides, in order. *)
Inductive Effect :=
  | FileWritten (path : bytes) (old : option bytes) (new : bytes)
  | FileRemoved (path : bytes) (old : bytes)
  | PageWritten (path : bytes) (pre : Precondition)
  | PageDeleted (path : bytes) (expected : bytes).

(** The server's tools as the client calls them, over the server's own state
    (every call may also see what other clients did meanwhile). *)
Record ServerOps (S : Type) := mkServerOps {
  op_write : S → bytes → PageMeta → bytes → Precondition → S * result (option bytes) SyncError;
  op_read : S → bytes → S * result PageRead SyncError;
  op_delete : S → bytes → bytes → S * result unit SyncError;
  op_supported : S → S * result unit SyncError;
}.
Arguments op_write {S}. Arguments op_read {S}. Arguments op_delete {S}. Arguments op_supported {S}.

(** The destination tree, the server, and a clock that numbers the accesses to
    the tree. *)
Record World (S : Type) := mkWorld {
  w_repo : gmap bytes bytes;
  w_server : S;
  w_tick : nat;
  w_log : list Effect;
  w_saved : option SyncState;
}.
Arguments mkWorld {S}. Arguments w_repo {S}. Arguments w_server {S}. Arguments w_tick {S}.
Arguments w_log {S}. Arguments w_saved {S}.

Inductive Rewrite := RewriteNone | RewriteWrote | RewriteSkipped.

#[export] Instance Rewrite_eq_dec : EqDecision Rewrite.
Proof. solve_decision. Defined.

Record Applied := mkApplied { wrote_files : bool; deleted_files : list bytes; raced : list bytes }.

Inductive SyncMode := DryRun | Apply | Check_.

#[export] Instance SyncMode_eq_dec : EqDecision SyncMode.
Proof. solve_decision. Defined.

Section ApplyPlan.
Variable sha256_hex : bytes → bytes.
Variable json_string : bytes → bytes.
Variable json_from_str : bytes → option json.
Context {S : Type} (ops : ServerOps S).

(** What other processes do to the tree before access [n], and whether that
    access succeeds. *)
Variable drift : nat → gmap bytes bytes → gmap bytes bytes.
Variable io_ok : nat → bool.

(** A computation over the world that may fail. *)
Definition M (A : Type) : Type := World S → World S * result A SyncError.
Definition mret {A} (a : A) : M A := λ w, (w, Ok a).
Definition mfail {A} (e : SyncError) : M A := λ w, (w, Err e).
Definition mlift {A} (r : result A SyncError) : M A := λ w, (w, r).
Definition mbind {A B} (m : M A) (k : A → M B) : M B :=
  λ w, match m w with
       | (w', Ok a) => k a w'
       | (w', Err e) => (w', Err e)
       end.
(** [match m { .. }] on both outcomes. *)
Definition mtry {A B} (m : M A) (k : result A SyncError → M B) : M B :=
  λ w, let '(w', r) := m w in k r w'.

#[local] Notation "x <- m ;; k" := (mbind m (λ x, k))
  (at level 60, m at next level, k at level 60, right associativity).

(** One access to the tree. *)
Definition access {A} (k : gmap bytes bytes → World S → World S * result A SyncError) : M A :=
  λ w,
    let repo := drift (w_tick w) (w_repo w) in
    let w' := mkWorld repo (w_server w) (w_tick w + 1) (w_log w) (w_saved w) in
    if io_ok (w_tick w) then k repo w' else (w', Err IoFailed).

Definition set_repo (repo : gmap bytes bytes) (e : Effect) (w : World S) : World S :=
  mkWorld repo (w_server w) (w_tick w) (w_log w ++ [e]) (w_saved w).

(** [write_if_unchanged] ([sync.rs]). *)
Definition write_if_unchanged (path : bytes) (expected : option bytes) (new : bytes) : M bool :=
  access (λ repo w,
    if bool_decide (sha256_hex <$> repo !! path = expected)
    then (set_repo (<[path := new]> repo) (FileWritten path (repo !! path) new) w, Ok true)
    else (w, Ok false)).

Definition delete_file (d : FileDelete) : M bool :=
  access (λ repo w,
    match repo !! fd_path d with
    | None => (w, Err IoFailed)
    | Some old =>
        if bool_decide (sha256_hex old = fd_expected_hash d)
        then (set_repo (delete (fd_path d) repo) (FileRemoved (fd_path d) old) w, Ok true)
        else (w, Ok false)
    end).

Definition file_absent (path : bytes) : M bool :=
  access (λ repo w, (w, Ok (bool_decide (repo !! path = None)))).

(** [state::save]. *)
Definition save (st : SyncState) : M unit :=
  access (λ _ w, (mkWorld (w_repo w) (w_server w) (w_tick w) (w_log w) (Some st), Ok ())).

Definition call_write (path : bytes) (meta : PageMeta) (body : bytes) (pre : Precondition)
    : M (option bytes) :=
  λ w, let '(s, r) := op_write ops (w_server w) path meta body pre in
       (mkWorld (w_repo w) s (w_tick w) (w_log w ++ [PageWritten path pre]) (w_saved w), r).
Definition call_read (path : bytes) : M PageRead :=
  λ w, let '(s, r) := op_read ops (w_server w) path in
       (mkWorld (w_repo w) s (w_tick w) (w_log w) (w_saved w), r).
Definition call_delete (path id : bytes) : M unit :=
  λ w, let '(s, r) := op_delete ops (w_server w) path id in
       (mkWorld (w_repo w) s (w_tick w) (w_log w ++ [PageDeleted path id]) (w_saved w), r).
Definition call_supported : M unit :=
  λ w, let '(s, r) := op_supported ops (w_server w) in
       (mkWorld (w_repo w) s (w_tick w) (w_log w) (w_saved w), r).

Definition delete_server_page (d : ServerDelete) : M bool :=
  absent <- file_absent (sd_path d) ;;
  if negb absent then mret false
  else match sd_expected_page_id d with
       | None => mfail ServerTooOld
       | Some id => _u <- call_delete (sd_path d) id ;; mret true
       end.

Definition import_one (i : ImportItem) : M (PageState * Rewrite) :=
  pre <- match im_create i, im_expected_page_id i with
         | true, _ => mret MustBeAbsent
         | false, Some id => mret (Latest id)
         | false, None => mfail ServerTooOld
         end ;;
  written <- call_write (im_path i) (im_meta i) (im_body i) pre ;;
  read <- call_read (im_path i) ;;
  page <- match read_page read with
          | Some page => mret page
          | None => mfail (NoBodyAfterWrite (im_path i))
          end ;;
  if is_some written && bool_decide (ap_id page ≠ written)
  then mret (mkPageState (sha256_hex (im_disk i)) None written, RewriteNone)
  else
    rendered <- mlift (render_page json_string (im_path i) page) ;;
    rewrite <- (if bool_decide (rendered = im_disk i) then mret RewriteNone
                else wrote <- write_if_unchanged (im_path i) (Some (sha256_hex (im_disk i))) rendered ;;
                     mret (if wrote : bool then RewriteWrote else RewriteSkipped)) ;;
    mret (mkPageState (sha256_hex rendered) (read_etag read)
            (match ap_id page with Some id => Some id | None => written end), rewrite).

Definition note_race (path : bytes) (a : Applied) : Applied :=
  mkApplied (wrote_files a) (deleted_files a) (raced a ++ [path]).

(** A failing step: the state is saved first, then the run stops. *)
Definition stop {A} (st : SyncState) (path : bytes) (e : SyncError) : M A :=
  _u <- save st ;; mfail (StepFailed path e).

Definition set_page (path : bytes) (entry : PageState) : SyncState → SyncState :=
  with_pages (<[path := entry]>).
Definition drop_page (path : bytes) : SyncState → SyncState := with_pages (delete path).

Fixpoint apply_imports (items : list ImportItem) (st : SyncState) (a : Applied)
    : M (SyncState * Applied) :=
  match items with
  | [] => mret (st, a)
  | i :: items' =>
      mtry (import_one i) (λ r,
        match r with
        | Ok (entry, RewriteSkipped) =>
            apply_imports items' (set_page (im_path i) entry st) (note_race (im_path i) a)
        | Ok (entry, rewrite) =>
            apply_imports items' (set_page (im_path i) entry st)
              (mkApplied (wrote_files a || bool_decide (rewrite = RewriteWrote)) (deleted_files a) (raced a))
        | Err (PreconditionFailed _) => apply_imports items' st (note_race (im_path i) a)
        | Err e => stop st (im_path i) e
        end)
  end.

Fixpoint apply_exports (items : list ExportItem) (st : SyncState) (a : Applied)
    : M (SyncState * Applied) :=
  match items with
  | [] => mret (st, a)
  | x :: items' =>
      mtry (write_if_unchanged (ex_path x) (ex_expected_disk x) (ex_bytes x)) (λ r,
        match r with
        | Ok true =>
            apply_exports items'
              (set_page (ex_path x) (mkPageState (sha256_hex (ex_bytes x)) (ex_etag x) (ex_page_id x)) st)
              (mkApplied true (deleted_files a) (raced a))
        | Ok false => apply_exports items' st (note_race (ex_path x) a)
        | Err e => stop st (ex_path x) e
        end)
  end.

Fixpoint apply_server_deletes (items : list ServerDelete) (st : SyncState) (a : Applied)
    : M (SyncState * Applied) :=
  match items with
  | [] => mret (st, a)
  | d :: items' =>
      mtry (delete_server_page d) (λ r,
        match r with
        | Ok true => apply_server_deletes items' (drop_page (sd_path d) st) a
        | Ok false | Err (PreconditionFailed _) =>
            apply_server_deletes items' st (note_race (sd_path d) a)
        | Err e => stop st (sd_path d) e
        end)
  end.

Fixpoint apply_file_deletes (items : list FileDelete) (st : SyncState) (a : Applied)
    : M (SyncState * Applied) :=
  match items with
  | [] => mret (st, a)
  | d :: items' =>
      mtry (delete_file d) (λ r,
        match r with
        | Ok true =>
            apply_file_deletes items' (drop_page (fd_path d) st)
              (mkApplied (wrote_files a) (deleted_files a ++ [fd_path d]) (raced a))
        | Ok false => apply_file_deletes items' st (note_race (fd_path d) a)
        | Err e => stop st (fd_path d) e
        end)
  end.

(** The state a run starts writing from: adopted entries in, forgotten
    entries out. *)
Definition start_state (scope : SyncScope) (old : SyncState) (plan : Plan) : SyncState :=
  mkSyncState (ss_version old) (Some scope)
    (foldl (λ pages path, delete path pages) (adopted plan ∪ ss_pages old) (forget plan)).

Definition apply_plan (scope : SyncScope) (old : SyncState) (plan : Plan) : M Applied :=
  r1 <- apply_imports (imports plan) (start_state scope old plan) (mkApplied false [] []) ;;
  r2 <- apply_exports (exports plan) (fst r1) (snd r1) ;;
  r3 <- apply_server_deletes (server_deletes plan) (fst r2) (snd r2) ;;
  r4 <- apply_file_deletes (file_deletes plan) (fst r3) (snd r3) ;;
  _u <- save (fst r4) ;;
  mret (snd r4).

(** [ensure_conditional_writes]. *)
Definition missing_id (plan : Plan) : bool :=
  existsb (λ i, negb (im_create i) && negb (is_some (im_expected_page_id i))) (imports plan)
  || existsb (λ d, negb (is_some (sd_expected_page_id d))) (server_deletes plan).

Definition ensure_conditional_writes (plan : Plan) : M unit :=
  if missing_id plan then mfail ServerTooOld else call_supported.

(** [run], after the arguments are validated: the plan from what was read,
    and in [Apply] mode its application. *)
Definition run (env : PlanEnv) (args : SyncArgs) (mode : SyncMode) (families : list bytes)
    (scope : SyncScope) (adopt_scope has_state : bool) (loaded : SyncState) : M Outcome :=
  let stateless_check := bool_decide (mode = Check_) && negb has_state in
  old <- mlift (baseline_for loaded scope adopt_scope) ;;
  plan <- mlift (build_plan sha256_hex json_string json_from_str env args families old stateless_check) ;;
  if bool_decide (mode ≠ Apply) then mret (outcome plan)
  else
    match batch_refusal plan with
    | Some n => mfail (BatchRefused n)
    | None =>
        if negb (length (refused plan) =? 0) then mfail (PagesRefused (length (refused plan)))
        else
          _u <- (if (length (imports plan) =? 0) && (length (server_deletes plan) =? 0)
                 then mret () else ensure_conditional_writes plan) ;;
          applied <- apply_plan scope old plan ;;
          if negb (length (raced applied) =? 0) then mfail (Raced (raced applied))
          else mret (outcome plan)
    end.
End ApplyPlan.
