(* ===== verification/WikiSyncFacts.v ===== *)
(** * Two-way sync: no silent loss, guarded effects, convergence *)

From S2P Require Export WikiSync.

Local Open Scope rust_scope.

Section DecideFacts.
Variable sha256_hex : bytes → bytes.

#[local] Abbreviation decide_page := (decide_page sha256_hex).
#[local] Abbreviation is_base := (disk_is_base sha256_hex).

(** The server still holds what the last sync recorded. *)
Definition server_unchanged (base : option PageState) (server : ServerSide) : Prop :=
  match server with
  | Absent => base = None
  | NotModified => True
  | Rendered page => server_is_base sha256_hex page base = true
  end.

(** The repository still holds what the last sync recorded. *)
Definition repo_unchanged (disk : option bytes) (base : option PageState) : Prop :=
  match disk with
  | None => base = None
  | Some _ => is_base disk base = true
  end.

(** What justifies an action. *)
Definition justified (disk : option bytes) (base : option PageState) (server : ServerSide)
    (policy : Policy) (action : Action) : Prop :=
  match action with
  | Unchanged =>
      match server, disk with
      | Rendered page, Some d => sha256_hex d = sha256_hex page
      | NotModified, Some _ => is_base disk base = true
      | NotModified, None | Absent, None => base = None
      | _, _ => False
      end
  | Export create =>
      create = negb (is_some disk) ∧
      (∃ page, server = Rendered page ∧ sha256_hex <$> disk ≠ Some (sha256_hex page)) ∧
      (repo_unchanged disk base ∨ prefer policy = Some PreferServer)
  | Import create =>
      disk ≠ None ∧ (create = true ↔ server = Absent) ∧ ¬ repo_unchanged disk base ∧
      (server_unchanged base server ∨ prefer policy = Some PreferRepo)
  | Conflict =>
      prefer policy = None ∧ ¬ repo_unchanged disk base ∧ ¬ server_unchanged base server
      ∧ (disk ≠ None ∨ server ≠ Absent)
  | DeleteOnServer =>
      propagate_deletes policy = true ∧ disk = None ∧ base ≠ None ∧ server ≠ Absent ∧
      (server_unchanged base server ∨ prefer policy = Some PreferRepo)
  | DeleteInRepo =>
      propagate_deletes policy = true ∧ disk ≠ None ∧ base ≠ None ∧ server = Absent ∧
      (repo_unchanged disk base ∨ prefer policy = Some PreferServer)
  | DeletedOnServer =>
      propagate_deletes policy = false ∧ disk ≠ None ∧ base ≠ None ∧ server = Absent
  | DeletedInRepo =>
      propagate_deletes policy = false ∧ disk = None ∧ base ≠ None ∧ server ≠ Absent
  | GoneOnBothSides => disk = None ∧ base ≠ None ∧ server = Absent
  end.

Lemma decide_justified disk base server policy :
  justified disk base server policy (decide_page disk base server policy).
Proof.
  destruct policy as [prefer []];
  destruct server as [| |page], disk as [d|], base as [b|]; simpl;
    repeat (first [case_bool_decide | case_match]; simpl); subst; simpl in *;
    repeat split; try done; try congruence; eauto; try naive_solver.
Qed.
End DecideFacts.

(** ** Every page lands in exactly one list *)

Definition plan_pages (p : Plan) : list bytes :=
  (im_path <$> imports p) ++ (ex_path <$> exports p) ++ (sd_path <$> server_deletes p)
  ++ (fd_path <$> file_deletes p) ++ unchanged p ++ (rf_path <$> refused p)
  ++ (fst <$> notices p) ++ differs p ++ forget p.

Lemma perm_here {A} (x : A) l l' : (l ++ [x]) ++ l' ≡ₚ x :: l ++ l'.
Proof. rewrite <- app_assoc. symmetry. apply Permutation_middle. Qed.
Lemma perm_last {A} (x : A) l : l ++ [x] ≡ₚ x :: l.
Proof. symmetry. apply Permutation_cons_append. Qed.
Lemma perm_skip_app {A} (x : A) l k k' : k ≡ₚ x :: k' → l ++ k ≡ₚ x :: l ++ k'.
Proof. intros ->. symmetry. apply Permutation_middle. Qed.

(** A push adds its page and nothing else. *)
Ltac push_perm :=
  unfold plan_pages; cbn [imports exports server_deletes file_deletes unchanged refused notices
    differs forget push_import push_export push_server_delete push_file_delete push_unchanged
    push_refused push_notice push_differs push_forget adopt];
  rewrite ?fmap_app;
  repeat first [apply perm_here | apply perm_last | apply perm_skip_app].

Section PlanFacts.
Variable sha256_hex : bytes → bytes.
Variable json_string : bytes → bytes.
Variable json_from_str : bytes → option json.
Variables (env : PlanEnv) (args : SyncArgs) (old : SyncState) (on_server : list bytes)
  (stateless : bool).

#[local] Abbreviation plan_path := (plan_path sha256_hex json_string json_from_str env args on_server old stateless).
#[local] Abbreviation plan_paths := (plan_paths sha256_hex json_string json_from_str env args on_server old stateless).
#[local] Abbreviation base path := (ss_pages old !! path).

Lemma plan_import_pages path create disk current plan :
  plan_pages (plan_import json_from_str path create disk current plan) ≡ₚ path :: plan_pages plan.
Proof.
  unfold plan_import. destruct (parse _ disk) as [[meta body]|e]; [|push_perm].
  destruct (negb _); push_perm.
Qed.

Lemma plan_path_pages plan path plan' :
  plan_path plan path = Ok plan' → plan_pages plan' ≡ₚ path :: plan_pages plan.
Proof.
  unfold WikiSync.plan_path, plan_action. intros H. peel_ok.
  destruct (match a with Some d => _ | None => _ end); [injection H as <-; push_perm|].
  peel_ok. destruct a0 as [[etag current] rendered].
  repeat (case_match; peel_ok); subst; try apply plan_import_pages; push_perm.
Qed.

Lemma plan_paths_pages plan paths plan' :
  plan_paths plan paths = Ok plan' → plan_pages plan' ≡ₚ paths ++ plan_pages plan.
Proof.
  revert plan; induction paths as [|path paths IH]; intros plan H; cbn [WikiSync.plan_paths] in H;
    peel_ok; [by subst|]. apply plan_path_pages in Hr. apply IH in H. rewrite H, Hr.
  symmetry. apply Permutation_middle.
Qed.

(** ** What backs each entry *)

(** The page was read, and rendered to what was classified, in this run. *)
Definition classified (path : bytes) (page : ApiPage) (rendered : bytes) : Prop :=
  ∃ hint read, env_read env path hint = Ok read ∧ read_page read = Some page ∧
    render_page json_string path page = Ok rendered.

Definition export_backed (x : ExportItem) : Prop :=
  ∃ disk, env_disk env (ex_path x) = Ok disk ∧ ex_expected_disk x = sha256_hex <$> disk ∧
    (repo_unchanged sha256_hex disk (base (ex_path x)) ∨ arg_prefer args = Some PreferServer).

Definition import_backed (i : ImportItem) : Prop :=
  env_disk env (im_path i) = Ok (Some (im_disk i)) ∧
  parse json_from_str (im_disk i) = Ok (im_meta i, im_body i) ∧
  (im_create i = false → ∃ page rendered, classified (im_path i) page rendered ∧
     im_expected_page_id i = ap_id page ∧
     keys_an_import_would_clear (frontmatter page) = [] ∧
     (server_is_base sha256_hex rendered (base (im_path i)) = true
      ∨ arg_prefer args = Some PreferRepo)).

Definition server_delete_backed (d : ServerDelete) : Prop :=
  arg_propagate_deletes args = true ∧ env_disk env (sd_path d) = Ok None ∧
  base (sd_path d) ≠ None ∧
  ∃ page rendered, classified (sd_path d) page rendered ∧ sd_expected_page_id d = ap_id page ∧
    (ap_pinned page = false ∨ arg_prefer args = Some PreferRepo) ∧
    (server_is_base sha256_hex rendered (base (sd_path d)) = true
     ∨ arg_prefer args = Some PreferRepo).

Definition file_delete_backed (d : FileDelete) : Prop :=
  arg_propagate_deletes args = true ∧ base (fd_path d) ≠ None ∧ (fd_path d ∉ on_server) ∧
  ∃ disk, env_disk env (fd_path d) = Ok (Some disk) ∧ fd_expected_hash d = sha256_hex disk ∧
    (repo_unchanged sha256_hex (Some disk) (base (fd_path d)) ∨ arg_prefer args = Some PreferServer).

Record plan_backed (p : Plan) : Prop := {
  pb_imports : Forall import_backed (imports p);
  pb_exports : Forall export_backed (exports p);
  pb_server_deletes : Forall server_delete_backed (server_deletes p);
  pb_file_deletes : Forall file_delete_backed (file_deletes p);
}.

(** A server that answers [304] only to a request that carried an ETag. *)
Hypothesis Hhttp : ∀ path read, env_read env path None = Ok read → read_page read ≠ None.

Lemma fetch_spec listed path disk etag current rendered :
  fetch sha256_hex json_string env listed path disk (base path) = Ok (etag, current, rendered) →
  match server_side rendered listed with
  | Rendered r => ∃ page, current = Some page ∧ classified path page r
  | NotModified => listed = true ∧ disk_is_base sha256_hex disk (base path) = true
  | Absent => listed = false ∧ current = None
  end.
Proof.
  unfold fetch. destruct listed; intros H; [|by simplify_eq].
  peel_ok. destruct (read_page a) as [page|] eqn:Ep; peel_ok; simplify_eq; simpl.
  - exists page. split; [done|]. by exists (etag_hint sha256_hex disk (base path)), a.
  - split; [done|]. unfold etag_hint in Hr. destruct (disk_is_base _ _ _); [done|].
    by destruct (Hhttp _ _ Hr).
Qed.

Lemma push_backed_import i p :
  import_backed i → plan_backed p → plan_backed (push_import i p).
Proof. intros Hi []. split; simpl; try done. rewrite Forall_app. auto. Qed.
Lemma push_backed_export x p :
  export_backed x → plan_backed p → plan_backed (push_export x p).
Proof. intros Hi []. split; simpl; try done. rewrite Forall_app. auto. Qed.
Lemma push_backed_server_delete d p :
  server_delete_backed d → plan_backed p → plan_backed (push_server_delete d p).
Proof. intros Hi []. split; simpl; try done. rewrite Forall_app. auto. Qed.
Lemma push_backed_file_delete d p :
  file_delete_backed d → plan_backed p → plan_backed (push_file_delete d p).
Proof. intros Hi []. split; simpl; try done. rewrite Forall_app. auto. Qed.

Lemma plan_import_backed path create disk current p :
  env_disk env path = Ok (Some disk) →
  (create = false → ∃ page rendered, current = Some page ∧ classified path page rendered ∧
     (server_is_base sha256_hex rendered (base path) = true ∨ arg_prefer args = Some PreferRepo)) →
  plan_backed p → plan_backed (plan_import json_from_str path create disk current p).
Proof.
  intros Hd Hc Hp. unfold plan_import. destruct (parse _ disk) as [[meta body]|e] eqn:Eparse;
    [|by destruct Hp].
  destruct (negb (length _ =? 0)) eqn:El; [by destruct Hp|]. apply push_backed_import; [|done].
  split_and!; simpl; [done|done|]. intros ->. destruct (Hc eq_refl) as (page & r & -> & ? & ?).
  exists page, r. split_and!; try done. apply negb_false_iff, Nat.eqb_eq in El.
  by apply length_zero_iff_nil.
Qed.

Lemma plan_path_backed p path p' :
  plan_path p path = Ok p' → plan_backed p → plan_backed p'.
Proof.
  unfold WikiSync.plan_path. intros H Hp. peel_ok. rename a into disk.
  destruct (match disk with Some d => _ | None => _ end) eqn:Elarge; [injection H as <-; by destruct Hp|].
  peel_ok. destruct a as [[etag current] rendered]. rename Hr0 into Hf.
  apply fetch_spec in Hf.
  set (listed := bool_decide (path ∈ on_server)) in *.
  set (server := server_side rendered listed) in *.
  pose proof (decide_justified sha256_hex disk (base path) server (policy_of args)) as Hj.
  destruct (decide_page _ _ _ _ _) as [|create|create| | | | | |]; unfold plan_action in H;
    unfold justified in Hj; cbn [policy_of prefer propagate_deletes] in Hj.
  - injection H as <-. destruct rendered; by destruct Hp.
  - destruct Hj as (_ & (page & Hs & _) & Hu). rewrite Hs in Hf.
    destruct rendered as [r|]; [|done]. injection H as <-. apply push_backed_export; [|done].
    by exists disk.
  - destruct Hj as (Hd & Hcr & Hrepo & Hsrv). destruct disk as [d|]; [|done]. cbn [default] in H.
    assert (Hnm : server ≠ NotModified).
    { intros E. rewrite E in Hf. destruct Hf as [_ Hf]. by apply Hrepo. }
    destruct server as [| |r] eqn:Es; [|congruence|].
    + destruct (negb create && negb (is_some current)) eqn:En.
      { by rewrite (proj2 Hcr eq_refl) in En. }
      injection H as <-. apply plan_import_backed; [done| |done].
      intros Hc. by rewrite (proj2 Hcr eq_refl) in Hc.
    + destruct Hf as (page & -> & Hcl). rewrite andb_false_r in H. injection H as <-.
      apply plan_import_backed; [done| |done]. intros _. by exists page, r.
  - destruct (stateless && _); injection H as <-; by destruct Hp.
  - destruct Hj as (Hpd & -> & Hb & Hs & Hsrv).
    destruct server as [| |r] eqn:Es; [congruence| |].
    { by destruct Hf as [_ Hf]. }
    destruct Hf as (page & -> & Hcl). cbn [result_bind] in H.
    destruct (ap_pinned page && _) eqn:Epin; injection H as <-; [by destruct Hp|].
    apply push_backed_server_delete; [|done]. split_and!; simpl; try done.
    exists page, r. split_and!; try done. apply andb_false_iff in Epin as [->|E]; [by left|].
    right. by apply bool_decide_eq_false, dec_stable in E.
  - destruct Hj as (Hpd & Hd & Hb & Hs & Hu). destruct disk as [d|]; [|done]. injection H as <-.
    apply push_backed_file_delete; [|done]. split_and!; simpl; try done; [|by exists d].
    rewrite Hs in Hf. destruct Hf as [Hl _]. by apply bool_decide_eq_false in Hl.
  - injection H as <-; by destruct Hp.
  - injection H as <-; by destruct Hp.
  - injection H as <-; by destruct Hp.
Qed.

Lemma plan_paths_backed p paths p' :
  plan_paths p paths = Ok p' → plan_backed p → plan_backed p'.
Proof.
  revert p; induction paths as [|path paths IH]; intros p H Hp; cbn [WikiSync.plan_paths] in H;
    peel_ok; [by subst|]. eauto using plan_path_backed.
Qed.
End PlanFacts.

(** ** Guarded execution *)

Section Guarded.
Variable sha256_hex : bytes → bytes.
Variable json_string : bytes → bytes.
Context {S : Type} (ops : ServerOps S).
Variable drift : nat → gmap bytes bytes → gmap bytes bytes.
Variable io_ok : nat → bool.

#[local] Abbreviation M := (@M S).

(** How the world may change: other processes, the server, a state save, and
    the effects [P] allows. *)
Inductive step (P : Effect → Prop) : World S → World S → Prop :=
  | step_drift w :
      step P w (mkWorld (drift (w_tick w) (w_repo w)) (w_server w) (w_tick w + 1) (w_log w) (w_saved w))
  | step_server w s :
      step P w (mkWorld (w_repo w) s (w_tick w) (w_log w) (w_saved w))
  | step_save w st :
      step P w (mkWorld (w_repo w) (w_server w) (w_tick w) (w_log w) (Some st))
  | step_file_written w path new :
      P (FileWritten path (w_repo w !! path) new) →
      step P w (set_repo (<[path := new]> (w_repo w)) (FileWritten path (w_repo w !! path) new) w)
  | step_file_removed w path old :
      w_repo w !! path = Some old → P (FileRemoved path old) →
      step P w (set_repo (delete path (w_repo w)) (FileRemoved path old) w)
  | step_page_written w s path pre :
      P (PageWritten path pre) →
      step P w (mkWorld (w_repo w) s (w_tick w) (w_log w ++ [PageWritten path pre]) (w_saved w))
  | step_page_deleted w s path id :
      P (PageDeleted path id) →
      step P w (mkWorld (w_repo w) s (w_tick w) (w_log w ++ [PageDeleted path id]) (w_saved w)).

Definition guarded (P : Effect → Prop) {A} (m : M A) : Prop :=
  ∀ w, rtc (step P) w (fst (m w)).

Lemma guarded_ret (P : Effect → Prop) {A} (a : A) : guarded P (mret a).
Proof. intros w. constructor. Qed.
Lemma guarded_fail (P : Effect → Prop) {A} e : guarded P (@mfail S A e).
Proof. intros w. constructor. Qed.
Lemma guarded_lift (P : Effect → Prop) {A} (r : result A SyncError) : guarded P (@mlift S A r).
Proof. intros w. constructor. Qed.

Lemma guarded_bind (P : Effect → Prop) {A B} (m : M A) (k : A → M B) :
  guarded P m → (∀ a, guarded P (k a)) → guarded P (mbind m k).
Proof.
  intros Hm Hk w. unfold mbind. specialize (Hm w). destruct (m w) as [w' [a|e]]; [|done].
  etrans; [exact Hm|]. apply Hk.
Qed.

Lemma guarded_try (P : Effect → Prop) {A B} (m : M A) (k : result A SyncError → M B) :
  guarded P m → (∀ r, guarded P (k r)) → guarded P (mtry m k).
Proof.
  intros Hm Hk w. unfold mtry. specialize (Hm w). destruct (m w) as [w' r].
  etrans; [exact Hm|]. apply Hk.
Qed.

Lemma guarded_access (P : Effect → Prop) {A} (k : gmap bytes bytes → World S → World S * result A SyncError) :
  (∀ w, rtc (step P) w (fst (k (w_repo w) w))) → guarded P (access drift io_ok k).
Proof.
  intros Hk w. unfold access. eapply rtc_l; [apply step_drift|].
  destruct (io_ok _); [|constructor]. apply Hk.
Qed.

Lemma guarded_write_if_unchanged (P : Effect → Prop) path expected new :
  (∀ old, sha256_hex <$> old = expected → P (FileWritten path old new)) →
  guarded P (write_if_unchanged sha256_hex drift io_ok path expected new).
Proof.
  intros HP. apply guarded_access. intros w. case_bool_decide as He; simpl; [|constructor].
  apply rtc_once, step_file_written. by apply HP.
Qed.

Lemma guarded_delete_file (P : Effect → Prop) d :
  (∀ old, sha256_hex old = fd_expected_hash d → P (FileRemoved (fd_path d) old)) →
  guarded P (delete_file sha256_hex drift io_ok d).
Proof.
  intros HP. apply guarded_access. intros w.
  destruct (w_repo w !! fd_path d) as [old|] eqn:E; [|constructor].
  case_bool_decide as He; simpl; [|constructor]. apply rtc_once, step_file_removed; auto.
Qed.

Lemma guarded_save (P : Effect → Prop) st : guarded P (save drift io_ok st).
Proof. apply guarded_access. intros w. apply rtc_once, step_save. Qed.

Lemma guarded_stop (P : Effect → Prop) {A} st path e : guarded P (@stop S drift io_ok A st path e).
Proof. apply guarded_bind; [apply guarded_save|intros; apply guarded_fail]. Qed.

(** What a plan allows. *)
Definition allowed (plan : Plan) (e : Effect) : Prop :=
  match e with
  | FileWritten path old new =>
      (∃ x, x ∈ exports plan ∧ ex_path x = path ∧ ex_bytes x = new ∧
            sha256_hex <$> old = ex_expected_disk x) ∨
      (∃ i, i ∈ imports plan ∧ im_path i = path ∧
            sha256_hex <$> old = Some (sha256_hex (im_disk i)))
  | FileRemoved path old =>
      ∃ d, d ∈ file_deletes plan ∧ fd_path d = path ∧ sha256_hex old = fd_expected_hash d
  | PageWritten path pre =>
      ∃ i, i ∈ imports plan ∧ im_path i = path ∧
           (if im_create i then pre = MustBeAbsent
            else ∃ id, im_expected_page_id i = Some id ∧ pre = Latest id)
  | PageDeleted path id =>
      ∃ d, d ∈ server_deletes plan ∧ sd_path d = path ∧ sd_expected_page_id d = Some id
  end.

Lemma guarded_import_one plan i :
  i ∈ imports plan →
  guarded (allowed plan) (import_one sha256_hex json_string ops drift io_ok i).
Proof.
  intros Hi. unfold import_one.
  assert (Hpre : ∀ {B} (k : Precondition → M B),
    (∀ pre, allowed plan (PageWritten (im_path i) pre) → guarded (allowed plan) (k pre)) →
    guarded (allowed plan)
      (mbind (match im_create i, im_expected_page_id i with
              | true, _ => mret MustBeAbsent
              | false, Some id => mret (Latest id)
              | false, None => mfail ServerTooOld
              end) k)).
  { intros B k Hk w. unfold mbind. destruct (im_create i) eqn:Ec.
    - apply Hk. exists i. by rewrite Ec.
    - destruct (im_expected_page_id i) as [id|] eqn:Eid; [|constructor].
      apply Hk. exists i. rewrite Ec. split_and!; [done|done|by exists id]. }
  apply Hpre. intros pre Ha. apply guarded_bind.
  { intros w. unfold call_write. destruct (op_write ops _ _ _ _ _) as [s r].
    apply rtc_once. by apply step_page_written. }
  intros written. apply guarded_bind.
  { intros w. unfold call_read. destruct (op_read ops _ _) as [s r]. apply rtc_once, step_server. }
  intros read. apply guarded_bind.
  { destruct (read_page read); [apply guarded_ret|apply guarded_fail]. }
  intros page. destruct (_ && _); [apply guarded_ret|].
  apply guarded_bind; [apply guarded_lift|]. intros rendered. apply guarded_bind.
  - destruct (bool_decide _); [apply guarded_ret|]. apply guarded_bind; [|intros; apply guarded_ret].
    apply guarded_write_if_unchanged. intros old Hold. right. by exists i.
  - intros. apply guarded_ret.
Qed.

Lemma guarded_apply_imports plan items st a :
  items ⊆ imports plan →
  guarded (allowed plan) (apply_imports sha256_hex json_string ops drift io_ok items st a).
Proof.
  revert st a; induction items as [|i items IH]; intros st a Hi; cbn [apply_imports];
    [apply guarded_ret|].
  apply guarded_try; [apply guarded_import_one; set_solver|].
  intros [[entry []]|[]]; try (apply IH; set_solver); apply guarded_stop.
Qed.

Lemma guarded_apply_exports plan items st a :
  items ⊆ exports plan →
  guarded (allowed plan) (apply_exports sha256_hex drift io_ok items st a).
Proof.
  revert st a; induction items as [|x items IH]; intros st a Hi; cbn [apply_exports];
    [apply guarded_ret|].
  apply guarded_try.
  - apply guarded_write_if_unchanged. intros old Hold. left. exists x. set_solver.
  - intros [[]|e]; try (apply IH; set_solver); apply guarded_stop.
Qed.

Lemma guarded_delete_server_page plan d :
  d ∈ server_deletes plan → guarded (allowed plan) (delete_server_page ops drift io_ok d).
Proof.
  intros Hd. unfold delete_server_page. apply guarded_bind.
  { apply guarded_access. intros w. constructor. }
  intros absent. destruct (negb absent); [apply guarded_ret|].
  destruct (sd_expected_page_id d) as [id|] eqn:E; [|apply guarded_fail].
  apply guarded_bind; [|intros; apply guarded_ret].
  intros w. unfold call_delete. destruct (op_delete ops _ _ _) as [s r].
  apply rtc_once, step_page_deleted. by exists d.
Qed.

Lemma guarded_apply_server_deletes plan items st a :
  items ⊆ server_deletes plan →
  guarded (allowed plan) (apply_server_deletes ops drift io_ok items st a).
Proof.
  revert st a; induction items as [|d items IH]; intros st a Hi; cbn [apply_server_deletes];
    [apply guarded_ret|].
  apply guarded_try; [apply guarded_delete_server_page; set_solver|].
  intros [[]|[]]; try (apply IH; set_solver); apply guarded_stop.
Qed.

Lemma guarded_apply_file_deletes plan items st a :
  items ⊆ file_deletes plan →
  guarded (allowed plan) (apply_file_deletes sha256_hex drift io_ok items st a).
Proof.
  revert st a; induction items as [|d items IH]; intros st a Hi; cbn [apply_file_deletes];
    [apply guarded_ret|].
  apply guarded_try.
  - apply guarded_delete_file. intros old Hold. exists d. set_solver.
  - intros [[]|e]; try (apply IH; set_solver); apply guarded_stop.
Qed.

Lemma guarded_apply_plan scope old plan :
  guarded (allowed plan) (apply_plan sha256_hex json_string ops drift io_ok scope old plan).
Proof.
  unfold apply_plan.
  apply guarded_bind; [by apply guarded_apply_imports|intros r1].
  apply guarded_bind; [by apply guarded_apply_exports|intros r2].
  apply guarded_bind; [by apply guarded_apply_server_deletes|intros r3].
  apply guarded_bind; [by apply guarded_apply_file_deletes|intros r4].
  apply guarded_bind; [apply guarded_save|intros _; apply guarded_ret].
Qed.

Lemma step_mono (P Q : Effect → Prop) w w' :
  (∀ e, P e → Q e) → rtc (step P) w w' → rtc (step Q) w w'.
Proof.
  intros HPQ. induction 1 as [|w1 w2 w3 H _ IH]; [constructor|].
  eapply rtc_l; [|exact IH]. destruct H; try by constructor; auto.
Qed.

(** The log of a guarded run. *)
Lemma step_log (P : Effect → Prop) w w' : rtc (step P) w w' → ∃ es, w_log w' = w_log w ++ es ∧ Forall P es.
Proof.
  induction 1 as [w|w1 w2 w3 H _ (es & IH & HP)]; [exists []; by rewrite app_nil_r|].
  destruct H; simpl in IH; try (exists es; done);
    (eexists (_ :: es); split; [by rewrite IH, <- app_assoc|by constructor]).
Qed.
End Guarded.

(** ** At most so many deletions *)

Definition is_deletion (e : Effect) : bool :=
  match e with FileRemoved _ _ | PageDeleted _ _ => true | _ => false end.

Definition deletions (log : list Effect) : nat := length (filter (λ e, is_deletion e = true) log).

Lemma deletions_app l l' : deletions (l ++ l') = deletions l + deletions l'.
Proof. unfold deletions. by rewrite filter_app, length_app. Qed.

Section Bounded.
Variable sha256_hex : bytes → bytes.
Variable json_string : bytes → bytes.
Context {S : Type} (ops : ServerOps S).
Variable drift : nat → gmap bytes bytes → gmap bytes bytes.
Variable io_ok : nat → bool.

#[local] Abbreviation M := (@M S).

(** A computation that deletes at most [n] times. *)
Definition bounded (n : nat) {A} (m : M A) : Prop :=
  ∀ w, deletions (w_log (fst (m w))) ≤ deletions (w_log w) + n.

Lemma bounded_bind p q {A B} (m : M A) (k : A → M B) :
  bounded p m → (∀ a, bounded q (k a)) → bounded (p + q) (mbind m k).
Proof.
  intros Hm Hk w. unfold mbind. specialize (Hm w). destruct (m w) as [w' [a|e]]; simpl in *; [|lia].
  specialize (Hk a w'). lia.
Qed.

Lemma bounded_try p q {A B} (m : M A) (k : result A SyncError → M B) :
  bounded p m → (∀ r, bounded q (k r)) → bounded (p + q) (mtry m k).
Proof.
  intros Hm Hk w. unfold mtry. specialize (Hm w). destruct (m w) as [w' r]; simpl in *.
  specialize (Hk r w'). lia.
Qed.

Lemma bounded_weaken p q {A} (m : M A) : p ≤ q → bounded p m → bounded q m.
Proof. intros Hpq Hm w. specialize (Hm w). lia. Qed.

(** Whatever only takes guarded steps without deletions. *)
Lemma bounded_guarded {A} (m : M A) :
  guarded drift (λ e, is_deletion e = false) m → bounded 0 m.
Proof.
  intros Hm w. destruct (step_log _ _ _ _ (Hm w)) as (es & -> & Hes).
  rewrite deletions_app. unfold deletions at 2. rewrite list_filter_none; [simpl; lia|].
  eapply Forall_impl; [exact Hes|]. simpl. congruence.
Qed.

Lemma bounded_ret {A} (a : A) : bounded 0 (mret a : M A).
Proof. apply bounded_guarded, guarded_ret. Qed.
Lemma bounded_fail {A} e : bounded 0 (@mfail S A e).
Proof. apply bounded_guarded, guarded_fail. Qed.
Lemma bounded_stop {A} st path e : bounded 0 (@stop S drift io_ok A st path e).
Proof. apply bounded_guarded, guarded_stop. Qed.

Lemma bounded_delete_file d : bounded 1 (delete_file sha256_hex drift io_ok d).
Proof.
  intros w. unfold delete_file, access. destruct (io_ok _); simpl; [|lia].
  destruct (drift _ _ !! _); simpl; [|lia]. case_bool_decide; simpl; [|lia].
  rewrite deletions_app. unfold deletions at 2. simpl. lia.
Qed.

Lemma bounded_delete_server_page d : bounded 1 (delete_server_page ops drift io_ok d).
Proof.
  unfold delete_server_page. apply (bounded_bind 0 1).
  { apply bounded_guarded, guarded_access. intros w. constructor. }
  intros absent. destruct (negb absent); [eapply bounded_weaken, bounded_ret; lia|].
  destruct (sd_expected_page_id d) as [id|]; [|eapply bounded_weaken, bounded_fail; lia].
  apply (bounded_bind 1 0); [|intros; apply bounded_ret].
  intros w. unfold call_delete. destruct (op_delete ops _ _ _) as [s r]. simpl.
  rewrite deletions_app. unfold deletions at 2. simpl. lia.
Qed.

Lemma bounded_import_one i : bounded 0 (import_one sha256_hex json_string ops drift io_ok i).
Proof.
  apply bounded_guarded. intros w.
  eapply (step_mono _ (allowed sha256_hex
    (mkPlan [i] [] [] [] [] [] None [] [] ∅ []))); [|apply guarded_import_one; simpl; set_solver].
  intros []; simpl; try done; intros (d & Hd & _); by apply not_elem_of_nil in Hd.
Qed.

Lemma bounded_apply_imports items st a :
  bounded 0 (apply_imports sha256_hex json_string ops drift io_ok items st a).
Proof.
  revert st a; induction items as [|i items IH]; intros st a; cbn [apply_imports];
    [apply bounded_ret|].
  apply (bounded_try 0 0); [apply bounded_import_one|].
  intros [[entry []]|[]]; try apply IH; apply bounded_stop.
Qed.

Lemma bounded_apply_exports items st a :
  bounded 0 (apply_exports sha256_hex drift io_ok items st a).
Proof.
  revert st a; induction items as [|x items IH]; intros st a; cbn [apply_exports];
    [apply bounded_ret|].
  apply (bounded_try 0 0).
  - apply bounded_guarded, guarded_write_if_unchanged. done.
  - intros [[]|e]; try apply IH; apply bounded_stop.
Qed.

Lemma bounded_apply_server_deletes items st a :
  bounded (length items) (apply_server_deletes ops drift io_ok items st a).
Proof.
  revert st a; induction items as [|d items IH]; intros st a; cbn [apply_server_deletes length];
    [apply bounded_ret|].
  apply (bounded_try 1 (length items)); [apply bounded_delete_server_page|].
  intros [[]|[]]; try apply IH; (eapply bounded_weaken; [|apply bounded_stop]; lia).
Qed.

Lemma bounded_apply_file_deletes items st a :
  bounded (length items) (apply_file_deletes sha256_hex drift io_ok items st a).
Proof.
  revert st a; induction items as [|d items IH]; intros st a; cbn [apply_file_deletes length];
    [apply bounded_ret|].
  apply (bounded_try 1 (length items)); [apply bounded_delete_file|].
  intros [[]|e]; try apply IH; (eapply bounded_weaken; [|apply bounded_stop]; lia).
Qed.

Lemma bounded_apply_plan scope old plan :
  bounded (deletes plan) (apply_plan sha256_hex json_string ops drift io_ok scope old plan).
Proof.
  unfold apply_plan, deletes. apply (bounded_bind 0); [apply bounded_apply_imports|intros r1].
  apply (bounded_bind 0); [apply bounded_apply_exports|intros r2].
  apply bounded_bind; [apply bounded_apply_server_deletes|intros r3].
  apply (bounded_weaken (length (file_deletes plan) + (0 + 0))); [lia|].
  apply bounded_bind; [apply bounded_apply_file_deletes|intros r4].
  apply bounded_bind; [apply bounded_guarded, guarded_save|intros; apply bounded_ret].
Qed.
End Bounded.
