(* ===== verification/WikiSyncQuiet.v ===== *)
(** * A sync without interference settles the pages it acts on *)

From S2P Require Export WikiSyncFacts.

Local Open Scope rust_scope.

Section Quiet.
Variable sha256_hex : bytes → bytes.
Variable json_string : bytes → bytes.
Context {S : Type} (ops : ServerOps S).

(** Nobody else writes to the destination, and its accesses succeed. *)
Definition calm : nat → gmap bytes bytes → gmap bytes bytes := λ _ repo, repo.
Definition always : nat → bool := λ _, true.

#[local] Abbreviation M := (@M S).
#[local] Abbreviation write := (@write_if_unchanged sha256_hex S calm always).

(** The state records exactly what the destination holds. *)
Definition settled (st : SyncState) (repo : gmap bytes bytes) (path : bytes) : Prop :=
  sha256_hex <$> repo !! path = ps_hash <$> ss_pages st !! path.

(** Nothing but [path] moved. *)
Definition only_repo (path : bytes) (repo repo' : gmap bytes bytes) : Prop :=
  ∀ p, p ≠ path → repo' !! p = repo !! p.

Lemma write_quiet path expected new (w : World S) :
  sha256_hex <$> w_repo w !! path = expected →
  ∃ w', write path expected new w = (w', Ok true) ∧ w_repo w' = <[path := new]> (w_repo w).
Proof.
  intros H. unfold write_if_unchanged, access, calm, always. cbn [w_repo].
  rewrite bool_decide_eq_true_2 by done. eexists. split; [reflexivity|done].
Qed.

Lemma delete_file_quiet d (w : World S) old :
  w_repo w !! fd_path d = Some old → sha256_hex old = fd_expected_hash d →
  ∃ w', delete_file sha256_hex calm always d w = (w', Ok true) ∧
        w_repo w' = delete (fd_path d) (w_repo w).
Proof.
  intros H Hh. unfold delete_file, access, calm, always. rewrite H.
  rewrite bool_decide_eq_true_2 by done. eexists. split; [reflexivity|done].
Qed.

Lemma delete_server_page_quiet d w :
  w_repo w !! sd_path d = None →
  let '(w', r) := delete_server_page ops calm always d w in
  w_repo w' = w_repo w ∧ r ≠ Ok false.
Proof.
  intros H. unfold delete_server_page, mbind, file_absent, access, calm, always. cbn [w_repo].
  rewrite H, bool_decide_eq_true_2 by done. cbn [negb].
  destruct (sd_expected_page_id d) as [id|]; [|done]. unfold call_delete. simpl.
  destruct (op_delete ops _ _ _) as [s [u|e]]; done.
Qed.

Lemma save_quiet st (w : World S) :
  ∃ w', save calm always st w = (w', Ok ()) ∧ w_repo w' = w_repo w ∧ w_saved w' = Some st.
Proof. unfold save, access, calm, always. eexists. split; [reflexivity|done]. Qed.

Lemma import_one_quiet i w :
  w_repo w !! im_path i = Some (im_disk i) →
  let '(w', r) := import_one sha256_hex json_string ops calm always i w in
  match r with
  | Ok (entry, rewrite) =>
      rewrite ≠ RewriteSkipped ∧ only_repo (im_path i) (w_repo w) (w_repo w') ∧
      sha256_hex <$> w_repo w' !! im_path i = Some (ps_hash entry)
  | Err _ => w_repo w' = w_repo w
  end.
Proof.
  intros Hd. unfold import_one, mbind. set (pre := match im_create i, im_expected_page_id i with
    | true, _ => mret MustBeAbsent | false, Some id => mret (Latest id)
    | false, None => mfail ServerTooOld end w).
  assert (Hpre : fst pre = w) by (unfold pre; by repeat case_match).
  destruct pre as [w0 [pre'|e]]; simpl in Hpre; subst w0; [|done].
  unfold call_write. destruct (op_write ops _ _ _ _ _) as [s1 [written|e]]; [|done].
  unfold call_read. destruct (op_read ops _ _) as [s2 [read|e]]; [|done].
  destruct (read_page read) as [page|]; [|done]. cbn [mret].
  destruct (is_some written && _); cbn [mret].
  { cbn. rewrite Hd. done. }
  unfold mlift. destruct (render_page json_string (im_path i) page) as [rendered|e]; [|done].
  case_bool_decide as Hr; cbn [mret].
  { cbn. rewrite Hd, Hr. done. }
  edestruct (write_quiet (im_path i) (Some (sha256_hex (im_disk i))) rendered) as (w' & -> & Hw').
  { cbn. by rewrite Hd. }
  cbn [mret w_repo] in *. rewrite Hw'. cbn [w_repo]. split_and!; [done| |by rewrite lookup_insert_eq].
  intros p Hp. by rewrite lookup_insert_ne.
Qed.

(** ** The four loops *)

(** After a loop over [items]: everything else is as before, and every item
    that did not race is settled. *)
Definition loop_post (paths : list bytes) (st : SyncState) (a : Applied) (repo : gmap bytes bytes)
    (st' : SyncState) (a' : Applied) (repo' : gmap bytes bytes) : Prop :=
  (∀ p, p ∉ paths → repo' !! p = repo !! p ∧ ss_pages st' !! p = ss_pages st !! p) ∧
  raced a ⊆ raced a' ∧
  (∀ p, p ∈ paths → p ∉ raced a' → settled st' repo' p).

(** One item, then the rest. *)
Lemma loop_post_cons path paths st a repo st1 a1 repo1 st' a' repo' :
  path ∉ paths → only_repo path repo repo1 →
  (∀ p, p ≠ path → ss_pages st1 !! p = ss_pages st !! p) → raced a ⊆ raced a1 →
  (path ∉ raced a1 → settled st1 repo1 path) →
  loop_post paths st1 a1 repo1 st' a' repo' → loop_post (path :: paths) st a repo st' a' repo'.
Proof.
  intros Hn Hr Hs Ha Hset (H1 & H2 & H3). split_and!.
  - intros p [Hp Hps]%not_elem_of_cons. destruct (H1 p Hps) as [-> ->]. auto.
  - set_solver.
  - intros p [->|Hp]%elem_of_cons Hrace; [|auto]. unfold settled.
    destruct (H1 path Hn) as [-> ->]. apply Hset. set_solver.
Qed.

Lemma loop_post_nil st a repo : loop_post [] st a repo st a repo.
Proof. split_and!; [done|done|]. intros p Hp. by apply not_elem_of_nil in Hp. Qed.

Lemma stop_not_ok {A} st path e (w w' : World S) (a : A) : stop calm always st path e w ≠ (w', Ok a : result A SyncError).
Proof. unfold stop, mbind, save, access, always. simpl. done. Qed.

Lemma set_page_other path entry st p :
  p ≠ path → ss_pages (set_page path entry st) !! p = ss_pages st !! p.
Proof. intros. unfold set_page, with_pages. simpl. by rewrite lookup_insert_ne. Qed.
Lemma drop_page_other path st p :
  p ≠ path → ss_pages (drop_page path st) !! p = ss_pages st !! p.
Proof. intros. unfold drop_page, with_pages. simpl. by rewrite lookup_delete_ne. Qed.

Lemma imports_quiet items st a (w w' : World S) st' a' :
  apply_imports sha256_hex json_string ops calm always items st a w = (w', Ok (st', a')) →
  NoDup (im_path <$> items) → Forall (λ i, w_repo w !! im_path i = Some (im_disk i)) items →
  loop_post (im_path <$> items) st a (w_repo w) st' a' (w_repo w').
Proof.
  revert st a w; induction items as [|i items IH]; intros st a w H Hnd Hall; cbn [apply_imports] in H.
  { injection H as <- <- <-. apply loop_post_nil. }
  rewrite fmap_cons in *. apply NoDup_cons in Hnd as [Hn Hnd]. apply Forall_cons in Hall as [Hi Hall].
  unfold mtry in H. pose proof (import_one_quiet i w Hi) as Hone.
  destruct (import_one _ _ _ _ _ _ _) as [w1 [[entry rw]|e]].
  - destruct Hone as (Hrw & Honly & Hset).
    assert (Hall1 : Forall (λ j, w_repo w1 !! im_path j = Some (im_disk j)) items).
    { rewrite Forall_forall in *. intros j Hj. rewrite Honly; [auto|]. intros E. apply Hn.
      rewrite <- E. by apply list_elem_of_fmap_2. }
    assert (Hs1 : settled (set_page (im_path i) entry st) (w_repo w1) (im_path i)).
    { unfold settled, set_page, with_pages. simpl. by rewrite Hset, lookup_insert_eq. }
    destruct rw; [|..|done]; apply IH in H; try done;
      (eapply loop_post_cons; [done|exact Honly|intros; by apply set_page_other| |done|exact H]; done).
  - destruct e; try (by destruct (stop_not_ok _ _ _ _ _ _ H)).
    apply IH in H; [|done|by rewrite Hone]. rewrite Hone in H.
    eapply loop_post_cons; [done|by intros ??|done| | |exact H].
    + simpl. set_solver.
    + intros Hx. destruct Hx. simpl. set_solver.
Qed.

Lemma exports_quiet items st a (w w' : World S) st' a' :
  apply_exports sha256_hex calm always items st a w = (w', Ok (st', a')) →
  NoDup (ex_path <$> items) →
  Forall (λ x, sha256_hex <$> w_repo w !! ex_path x = ex_expected_disk x) items →
  loop_post (ex_path <$> items) st a (w_repo w) st' a' (w_repo w').
Proof.
  revert st a w; induction items as [|x items IH]; intros st a w H Hnd Hall; cbn [apply_exports] in H.
  { injection H as <- <- <-. apply loop_post_nil. }
  rewrite fmap_cons in *. apply NoDup_cons in Hnd as [Hn Hnd]. apply Forall_cons in Hall as [Hi Hall].
  unfold mtry in H. destruct (write_quiet _ _ (ex_bytes x) w Hi) as (w1 & Hw & Hr1).
  rewrite Hw in H. apply IH in H; [|done|].
  - eapply loop_post_cons; [done| |intros; by apply set_page_other| | |exact H].
    + intros p Hp; by rewrite Hr1, lookup_insert_ne.
    + done.
    + intros _. unfold settled, set_page, with_pages. simpl. by rewrite Hr1, !lookup_insert_eq.
  - rewrite Forall_forall in *. intros j Hj. rewrite Hr1, lookup_insert_ne; [auto|].
    intros E. apply Hn. rewrite E. by apply list_elem_of_fmap_2.
Qed.

Lemma server_deletes_quiet items st a (w w' : World S) st' a' :
  apply_server_deletes ops calm always items st a w = (w', Ok (st', a')) →
  NoDup (sd_path <$> items) → Forall (λ d, w_repo w !! sd_path d = None) items →
  loop_post (sd_path <$> items) st a (w_repo w) st' a' (w_repo w').
Proof.
  revert st a w; induction items as [|d items IH]; intros st a w H Hnd Hall;
    cbn [apply_server_deletes] in H.
  { injection H as <- <- <-. apply loop_post_nil. }
  rewrite fmap_cons in *. apply NoDup_cons in Hnd as [Hn Hnd]. apply Forall_cons in Hall as [Hi Hall].
  unfold mtry in H. pose proof (delete_server_page_quiet d w Hi) as Hone.
  destruct (delete_server_page _ _ _ _ _) as [w1 r]. destruct Hone as [Hr1 Hr].
  destruct r as [[]|e]; [|done|].
  - apply IH in H; [|done|by rewrite Hr1]. rewrite Hr1 in H.
    eapply loop_post_cons; [done|by intros ??|intros; by apply drop_page_other|done| |exact H].
    intros _. unfold settled, drop_page, with_pages. simpl. by rewrite Hi, lookup_delete_eq.
  - destruct e; try (by destruct (stop_not_ok _ _ _ _ _ _ H)).
    apply IH in H; [|done|by rewrite Hr1]. rewrite Hr1 in H.
    eapply loop_post_cons; [done|by intros ??|done| | |exact H].
    + simpl. set_solver.
    + intros Hx. destruct Hx. simpl. set_solver.
Qed.

Lemma file_deletes_quiet items st a (w w' : World S) st' a' :
  apply_file_deletes sha256_hex calm always items st a w = (w', Ok (st', a')) →
  NoDup (fd_path <$> items) →
  Forall (λ d, sha256_hex <$> w_repo w !! fd_path d = Some (fd_expected_hash d)) items →
  loop_post (fd_path <$> items) st a (w_repo w) st' a' (w_repo w').
Proof.
  revert st a w; induction items as [|d items IH]; intros st a w H Hnd Hall;
    cbn [apply_file_deletes] in H.
  { injection H as <- <- <-. apply loop_post_nil. }
  rewrite fmap_cons in *. apply NoDup_cons in Hnd as [Hn Hnd]. apply Forall_cons in Hall as [Hi Hall].
  apply fmap_Some in Hi as (old & Hold & Hh).
  unfold mtry in H. destruct (delete_file_quiet d w old Hold (eq_sym Hh)) as (w1 & Hw & Hr1).
  rewrite Hw in H. apply IH in H; [|done|].
  - eapply loop_post_cons; [done| |intros; by apply drop_page_other| | |exact H].
    + intros p Hp; by rewrite Hr1, lookup_delete_ne.
    + done.
    + intros _. unfold settled, drop_page, with_pages. simpl. by rewrite Hr1, !lookup_delete_eq.
  - rewrite Forall_forall in *. intros j Hj. rewrite Hr1, lookup_delete_ne; [auto|].
    intros E. apply Hn. rewrite E. by apply list_elem_of_fmap_2.
Qed.

(** ** The whole plan *)

(** The destination is the one the plan was built from. *)
Record plan_current (plan : Plan) (repo : gmap bytes bytes) : Prop := {
  pc_imports : Forall (λ i, repo !! im_path i = Some (im_disk i)) (imports plan);
  pc_exports : Forall (λ x, sha256_hex <$> repo !! ex_path x = ex_expected_disk x) (exports plan);
  pc_server_deletes : Forall (λ d, repo !! sd_path d = None) (server_deletes plan);
  pc_file_deletes :
    Forall (λ d, sha256_hex <$> repo !! fd_path d = Some (fd_expected_hash d)) (file_deletes plan);
}.

(** The pages the plan acts on. *)
Definition acted (plan : Plan) : list bytes :=
  (im_path <$> imports plan) ++ (ex_path <$> exports plan) ++ (sd_path <$> server_deletes plan)
  ++ (fd_path <$> file_deletes plan).

Lemma loop_post_app ps qs st a repo st1 a1 repo1 st2 a2 repo2 :
  loop_post ps st a repo st1 a1 repo1 → loop_post qs st1 a1 repo1 st2 a2 repo2 →
  (∀ p, p ∈ ps → p ∉ qs) →
  loop_post (ps ++ qs) st a repo st2 a2 repo2.
Proof.
  intros (H1 & H2 & H3) (K1 & K2 & K3) Hd. split_and!.
  - intros p Hp. rewrite elem_of_app in Hp. destruct (K1 p) as [-> ->]; [tauto|]. apply H1. tauto.
  - set_solver.
  - intros p [Hp|Hp]%elem_of_app Hr; [|auto]. unfold settled. destruct (K1 p (Hd p Hp)) as [-> ->].
    apply H3; set_solver.
Qed.

Lemma Forall_kept {A} (f : A → bytes) (Q : A → option bytes → Prop) (items : list A) (repo repo' : gmap bytes bytes)
    (ps : list bytes) :
  (∀ p, p ∉ ps → repo' !! p = repo !! p) → (∀ x, x ∈ items → f x ∉ ps) →
  Forall (λ x, Q x (repo !! f x)) items → Forall (λ x, Q x (repo' !! f x)) items.
Proof.
  intros Hk Hn H. rewrite Forall_forall in *. intros x Hx. rewrite Hk by auto. auto.
Qed.

Lemma apply_plan_quiet scope old plan (w w' : World S) applied :
  NoDup (acted plan) → plan_current plan (w_repo w) →
  apply_plan sha256_hex json_string ops calm always scope old plan w = (w', Ok applied) →
  ∃ st, w_saved w' = Some st ∧
    ∀ p, p ∈ acted plan → p ∉ raced applied → settled st (w_repo w') p.
Proof.
  intros Hnd [Hi Hx Hsd Hfd] H. unfold acted in Hnd.
  rewrite !NoDup_app in Hnd. destruct Hnd as (N1 & D1 & N2 & D2 & N3 & D3 & N4).
  unfold apply_plan, mbind in H.
  destruct (apply_imports _ _ _ _ _ _ _ _ _) as [w1 [[st1 a1]|]] eqn:E1; [|done].
  apply imports_quiet in E1; [|done|done]. pose proof E1 as (R1 & _). cbn [fst snd] in H.
  destruct (apply_exports _ _ _ _ _ _ _) as [w2 [[st2 a2]|]] eqn:E2; [|done].
  apply exports_quiet in E2; [|done|].
  2: { eapply (Forall_kept ex_path (λ x o, sha256_hex <$> o = ex_expected_disk x)); [apply R1| |done].
       intros x ?%(list_elem_of_fmap_2 ex_path) ?. eapply D1; [eassumption|]. set_solver. }
  pose proof (loop_post_app _ _ _ _ _ _ _ _ _ _ _ E1 E2) as E12.
  specialize (E12 ltac:(intros p Hp Hq; eapply D1; [exact Hp|]; set_solver)).
  pose proof E12 as (R2 & _). cbn [fst snd] in H.
  destruct (apply_server_deletes _ _ _ _ _ _ _) as [w3 [[st3 a3]|]] eqn:E3; [|done].
  apply server_deletes_quiet in E3; [|done|].
  2: { eapply (Forall_kept sd_path (λ _ o, o = None)); [apply R2| |done].
       intros x ?%(list_elem_of_fmap_2 sd_path) [?|?]%elem_of_app; [eapply D1|eapply D2]; try eassumption; set_solver. }
  pose proof (loop_post_app _ _ _ _ _ _ _ _ _ _ _ E12 E3) as E123.
  specialize (E123 ltac:(intros p [Hp|Hp]%elem_of_app Hq; [eapply D1|eapply D2]; try exact Hp; set_solver)).
  pose proof E123 as (R3 & _). cbn [fst snd] in H.
  destruct (apply_file_deletes _ _ _ _ _ _ _) as [w4 [[st4 a4]|]] eqn:E4; [|done].
  apply file_deletes_quiet in E4; [|done|].
  2: { eapply (Forall_kept fd_path (λ d o, sha256_hex <$> o = Some (fd_expected_hash d))); [apply R3| |done].
       intros x ?%(list_elem_of_fmap_2 fd_path) [[?|?]%elem_of_app|?]%elem_of_app;
         [eapply D1|eapply D2|eapply D3]; try eassumption; set_solver. }
  pose proof (loop_post_app _ _ _ _ _ _ _ _ _ _ _ E123 E4) as E1234.
  specialize (E1234 ltac:(intros p [[Hp|Hp]%elem_of_app|Hp]%elem_of_app Hq;
    [eapply D1|eapply D2|eapply D3]; try exact Hp; set_solver)).
  destruct E1234 as (_ & _ & Hall).
  cbn [fst snd] in H. destruct (save_quiet st4 w4) as (w5 & Hs & Hrepo & Hsaved).
  rewrite Hs in H. injection H as <- <-. exists st4. split; [done|]. rewrite Hrepo.
  intros p Hp. apply Hall. unfold acted in Hp. by rewrite <- !app_assoc.
Qed.
End Quiet.
