(* ===== verification/WikiSyncTheorems.v ===== *)
(** * The contract of two-way sync *)

From S2P Require Export WikiSyncQuiet.

Local Open Scope rust_scope.

(** The decision matrix never loses a change silently: a file is
    overwritten or deleted only when it is what the last sync recorded or the
    server is preferred, a server page only when it is unchanged or the
    repository is preferred, deletes only on request; a conflict is exactly a
    change on both sides without a preference; and "unchanged" means the two
    sides agree. *)
Theorem decide_never_loses_silently sha256_hex disk base server policy :
  justified sha256_hex disk base server policy (decide_page sha256_hex disk base server policy).
Proof. apply decide_justified. Qed.

(** ** Planning *)

Section PlanCover.
Variable sha256_hex : bytes → bytes.
Variable json_string : bytes → bytes.
Variable json_from_str : bytes → option json.

Lemma set_batch_refusal_pages n p : plan_pages (set_batch_refusal n p) = plan_pages p.
Proof. done. Qed.

Lemma elem_of_all_paths families on_server in_repo refusals old path :
  path ∈ all_paths families on_server in_repo refusals old ↔
  (path ∉ rf_path <$> refusals) ∧
  (path ∈ on_server ∨ path ∈ in_repo ∨
   in_families families path = true ∧ is_Some (ss_pages old !! path)).
Proof.
  unfold all_paths, sort_bytes. rewrite (sort_by_key_perm id bytes_lt), elem_of_remove_dups.
  rewrite list_elem_of_filter, !elem_of_app, list_elem_of_filter, elem_of_elements, elem_of_dom.
  done.
Qed.

Lemma all_paths_NoDup families on_server in_repo refusals old :
  NoDup (all_paths families on_server in_repo refusals old).
Proof.
  unfold all_paths, sort_bytes. rewrite (sort_by_key_perm id bytes_lt). apply NoDup_remove_dups.
Qed.

Lemma build_plan_inv env args families old stateless plan :
  build_plan sha256_hex json_string json_from_str env args families old stateless = Ok plan →
  ∃ on_server found refusals plan0,
    select_pages (env_listed env) families = Ok on_server ∧
    env_walk env = Ok (found, refusals) ∧
    plan_paths sha256_hex json_string json_from_str env args on_server old stateless
      (mkPlan [] [] [] [] [] refusals None [] [] ∅ [])
      (all_paths families on_server found refusals old) = Ok plan0 ∧
    plan = (if max_deletes args <? deletes plan0 then set_batch_refusal (deletes plan0) plan0 else plan0).
Proof.
  unfold build_plan. intros H. peel_ok. destruct a0 as [found refusals]. simpl in *.
  exists a, found, refusals, a2. by subst.
Qed.

(** The batch refusal is only set at the end. *)
Lemma plan_import_batch path create disk current p :
  batch_refusal (plan_import json_from_str path create disk current p) = batch_refusal p.
Proof.
  unfold plan_import. destruct (parse _ disk) as [[meta body]|e]; [|done]. by destruct (negb _).
Qed.

Lemma plan_paths_batch env args on_server old stateless p paths p' :
  plan_paths sha256_hex json_string json_from_str env args on_server old stateless p paths = Ok p' →
  batch_refusal p' = batch_refusal p.
Proof.
  revert p; induction paths as [|path paths IH]; intros p H; cbn [plan_paths] in H;
    peel_ok; [by subst|]. rewrite (IH _ H). clear H. revert Hr.
  unfold plan_path, plan_action. intros H. peel_ok.
  destruct (match a0 with Some d => _ | None => _ end); [by injection H as <-|].
  peel_ok. destruct a1 as [[etag current] rendered].
  repeat (case_match; peel_ok); subst; try apply plan_import_batch; done.
Qed.
End PlanCover.

(** A plan covers every page exactly once: the pages considered are those
    on the server, in the repository or in the baseline, less the refused
    ones, and each lands in exactly one list of the plan; the whole batch is
    refused exactly when its deletes exceed the ceiling. *)
Theorem plan_covers_every_page_once sha256_hex json_string json_from_str env args families old
    stateless plan :
  build_plan sha256_hex json_string json_from_str env args families old stateless = Ok plan →
  ∃ on_server found refusals all,
    select_pages (env_listed env) families = Ok on_server ∧ env_walk env = Ok (found, refusals) ∧
    NoDup all ∧ plan_pages plan ≡ₚ all ++ (rf_path <$> refusals) ∧
    (∀ path, path ∈ all ↔ (path ∉ rf_path <$> refusals) ∧
       (path ∈ on_server ∨ path ∈ found ∨
        in_families families path = true ∧ is_Some (ss_pages old !! path))) ∧
    is_some (batch_refusal plan) = (max_deletes args <? deletes plan).
Proof.
  intros H. apply build_plan_inv in H as (on_server & found & refusals & p0 & Hs & Hw & Hp & ->).
  exists on_server, found, refusals, (all_paths families on_server found refusals old).
  split_and!; [done|done|apply all_paths_NoDup| |intros; apply elem_of_all_paths|].
  - pose proof (plan_paths_pages _ _ _ _ _ _ _ _ _ _ _ Hp) as Hperm.
    destruct (_ <? _); rewrite ?set_batch_refusal_pages, Hperm; unfold plan_pages; simpl;
      by rewrite app_nil_r.
  - pose proof (plan_paths_batch _ _ _ _ _ _ _ _ _ _ _ Hp) as Hb. simpl in Hb.
    destruct (max_deletes args <? deletes p0) eqn:E; [symmetry; exact E|]. by rewrite Hb, ?E.
Qed.

(** ** Running *)

Section RunFacts.
Variable sha256_hex : bytes → bytes.
Variable json_string : bytes → bytes.
Variable json_from_str : bytes → option json.

(** What justifies an effect, in terms of what the run read and of the
    baseline [old]. *)
Definition effect_justified (env : PlanEnv) (args : SyncArgs) (old : SyncState) (e : Effect) : Prop :=
  match e with
  | FileWritten path before after =>
      ∃ disk, env_disk env path = Ok disk ∧ sha256_hex <$> before = sha256_hex <$> disk ∧
        (repo_unchanged sha256_hex disk (ss_pages old !! path)
         ∨ arg_prefer args = Some PreferServer
         ∨ ∃ d, disk = Some d ∧ is_ok (parse json_from_str d) = true)
  | FileRemoved path before =>
      arg_propagate_deletes args = true ∧ ss_pages old !! path ≠ None ∧
      ∃ disk, env_disk env path = Ok (Some disk) ∧ sha256_hex before = sha256_hex disk ∧
        (repo_unchanged sha256_hex (Some disk) (ss_pages old !! path)
         ∨ arg_prefer args = Some PreferServer)
  | PageWritten path MustBeAbsent => ∃ d, env_disk env path = Ok (Some d)
  | PageWritten path (Latest id) =>
      ∃ page rendered, classified json_string env path page rendered ∧ ap_id page = Some id ∧
        keys_an_import_would_clear (frontmatter page) = [] ∧
        (server_is_base sha256_hex rendered (ss_pages old !! path) = true
         ∨ arg_prefer args = Some PreferRepo)
  | PageDeleted path id =>
      arg_propagate_deletes args = true ∧ env_disk env path = Ok None ∧
      ss_pages old !! path ≠ None ∧
      ∃ page rendered, classified json_string env path page rendered ∧ ap_id page = Some id ∧
        (ap_pinned page = false ∨ arg_prefer args = Some PreferRepo) ∧
        (server_is_base sha256_hex rendered (ss_pages old !! path) = true
         ∨ arg_prefer args = Some PreferRepo)
  end.

Lemma allowed_justified env args old on_server plan e :
  plan_backed sha256_hex json_string json_from_str env args old on_server plan →
  allowed sha256_hex plan e → effect_justified env args old e.
Proof.
  intros [Hi Hx Hs Hf]. rewrite Forall_forall in Hi. rewrite Forall_forall in Hx.
  rewrite Forall_forall in Hs. rewrite Forall_forall in Hf.
  destruct e as [path before after|path before|path pre|path id]; simpl.
  - intros [(x & Hin & <- & _ & Hb)|(i & Hin & <- & Hb)].
    + destruct (Hx x Hin) as (disk & ? & E & ?). exists disk. rewrite Hb. split_and!; [done|done|tauto].
    + destruct (Hi i Hin) as (Hd & Hp & _). exists (Some (im_disk i)). split_and!; [done|done|].
      right. right. exists (im_disk i). by rewrite Hp.
  - intros (d & Hin & <- & Hb). destruct (Hf d Hin) as (? & ? & _ & disk & ? & E & ?).
    split_and!; [done|done|]. exists disk. by rewrite Hb.
  - intros (i & Hin & <- & Hpre). destruct (Hi i Hin) as (Hd & _ & Hc). destruct (im_create i).
    + subst pre. by exists (im_disk i).
    + destruct Hpre as (id & Hid & ->). destruct (Hc eq_refl) as (page & r & ? & E & ? & ?).
      exists page, r. by rewrite <- E.
  - intros (d & Hin & <- & Hid). destruct (Hs d Hin) as (? & ? & ? & page & r & ? & E & ? & ?).
    split_and!; [done|done|done|]. exists page, r. by rewrite <- E.
Qed.

Lemma build_plan_backed env args families old stateless plan :
  (∀ path read, env_read env path None = Ok read → read_page read ≠ None) →
  build_plan sha256_hex json_string json_from_str env args families old stateless = Ok plan →
  ∃ on_server, plan_backed sha256_hex json_string json_from_str env args old on_server plan.
Proof.
  intros Hhttp H. apply build_plan_inv in H as (on_server & found & refusals & p0 & _ & _ & Hp & ->).
  exists on_server. assert (Hb : plan_backed sha256_hex json_string json_from_str env args old on_server p0).
  { eapply plan_paths_backed; [exact Hhttp|exact Hp|]. by split; constructor. }
  destruct (_ <? _); [by destruct Hb|done].
Qed.

Context {S : Type} (ops : ServerOps S).
Variable drift : nat → gmap bytes bytes → gmap bytes bytes.
Variable io_ok : nat → bool.

#[local] Abbreviation run := (run sha256_hex json_string json_from_str ops drift io_ok).
#[local] Abbreviation apply_plan := (apply_plan sha256_hex json_string ops drift io_ok).

(** Either the run stops before touching anything, or it applies an
    unblocked plan after at most one question to the server. *)
Lemma run_cases env args mode families scope adopt has_state loaded w :
  fst (run env args mode families scope adopt has_state loaded w) = w ∨
  ∃ old plan, baseline_for loaded scope adopt = Ok old ∧ mode = Apply ∧
    build_plan sha256_hex json_string json_from_str env args families old
      (bool_decide (mode = Check_) && negb has_state) = Ok plan ∧
    blocked (outcome plan) = false ∧
    ∃ s, let w0 := mkWorld (w_repo w) s (w_tick w) (w_log w) (w_saved w) in
      fst (run env args mode families scope adopt has_state loaded w) = w0 ∨
      fst (run env args mode families scope adopt has_state loaded w)
        = fst (apply_plan scope old plan w0).
Proof.
  unfold WikiSync.run. cbv zeta. unfold mbind, mlift. cbv beta.
  destruct (baseline_for loaded scope adopt) as [old|e]; [|by left].
  destruct (build_plan _ _ _ _ _ _ _ _) as [plan|e] eqn:Hb; [|by left].
  destruct (bool_decide (mode ≠ Apply)) eqn:Hm; [by left|].
  apply bool_decide_eq_false, dec_stable in Hm.
  destruct (batch_refusal plan) as [n|] eqn:Hbr; [by left|].
  destruct (negb (length (refused plan) =? 0)) eqn:Hr; [by left|]. right.
  exists old, plan. split_and!; try done.
  { unfold outcome. simpl. by rewrite Hr, Hbr. }
  set (ask := if (length (imports plan) =? 0) && (length (server_deletes plan) =? 0)
              then mret () else ensure_conditional_writes ops plan).
  assert (Hask : ∃ s, fst (ask w) = mkWorld (w_repo w) s (w_tick w) (w_log w) (w_saved w)).
  { unfold ask. destruct ((length (imports plan) =? 0) && _).
    { exists (w_server w). by destruct w. }
    unfold ensure_conditional_writes. destruct (missing_id plan).
    { exists (w_server w). by destruct w. }
    unfold call_supported. destruct (op_supported ops _) as [s r]. by exists s. }
  destruct Hask as [s Hask]. exists s.
  destruct (ask w) as [w1 [u|e]]; simpl in Hask; subst w1; [|by left]. right.
  destruct (apply_plan scope old plan _) as [w2 [applied|e]]; [|done].
  by destruct (negb (length (raced applied) =? 0)).
Qed.
End RunFacts.


(** Nothing is written unless [--apply] is passed and nothing in the plan
    is refused: otherwise the run leaves the tree, the server, the log and the
    state untouched; and no run deletes more than [--max-deletes] pages. *)
Theorem run_writes_only_unblocked_plans sha256_hex json_string json_from_str {S}
    (ops : ServerOps S) drift io_ok env args mode families scope adopt has_state loaded w :
  let w' := fst (run sha256_hex json_string json_from_str ops drift io_ok env args mode families
                   scope adopt has_state loaded w) in
  (mode ≠ Apply → w' = w) ∧
  (∀ old plan, baseline_for loaded scope adopt = Ok old →
     build_plan sha256_hex json_string json_from_str env args families old
       (bool_decide (mode = Check_) && negb has_state) = Ok plan →
     status (outcome plan) = Blocked → w' = w) ∧
  deletions (w_log w') ≤ deletions (w_log w) + max_deletes args.
Proof.
  intros w'. unfold w'.
  destruct (run_cases sha256_hex json_string json_from_str ops drift io_ok env args mode families
    scope adopt has_state loaded w) as [->|(old & plan & Hb & Hm & Hp & Hbl & s & Hrun)].
  { split_and!; [done|done|lia]. }
  split_and!.
  - done.
  - intros old' plan' Hb' Hp' Hst. assert (old' = old) by congruence. subst old'.
    assert (plan' = plan) by congruence. subst plan'. unfold status in Hst. rewrite Hbl in Hst.
    by destruct (_ <? _).
  - destruct Hrun as [-> | ->]; simpl; [lia|].
    pose proof (bounded_apply_plan sha256_hex json_string ops drift io_ok scope old plan
      (mkWorld (w_repo w) s (w_tick w) (w_log w) (w_saved w))) as H. simpl in H.
    assert (deletes plan ≤ max_deletes args); [|lia].
    unfold outcome in Hbl. simpl in Hbl. apply orb_false_iff in Hbl as [_ Hbr].
    apply build_plan_inv in Hp as (on_server & found & refusals & p0 & _ & _ & Hp0 & Hp).
    destruct (max_deletes args <? deletes p0) eqn:E; [by rewrite Hp in Hbr|].
    rewrite Hp. by apply Nat.ltb_ge in E.
Qed.

(** A sync settles what it acted on: when nobody interferes with the
    destination, every page it imported, exported or deleted without a server
    race is recorded exactly as the destination now holds it, so the next run
    never finds a conflict or a pending import there, and finds it unchanged
    if the server page still renders to the same bytes. *)
Theorem sync_settles sha256_hex json_string {S} (ops : ServerOps S) scope old plan w w' applied :
  NoDup (acted plan) → plan_current sha256_hex plan (w_repo w) →
  apply_plan sha256_hex json_string ops calm always scope old plan w = (w', Ok applied) →
  ∃ st, w_saved w' = Some st ∧
    ∀ p, p ∈ acted plan → p ∉ raced applied →
      settled sha256_hex st (w_repo w') p ∧
      ∀ server policy,
        let action := decide_page sha256_hex (w_repo w' !! p) (ss_pages st !! p) server policy in
        action ≠ Conflict ∧ action ≠ Import true ∧ action ≠ Import false ∧
        (∀ page, server = Rendered page → w_repo w' !! p = Some page → action = Unchanged).
Proof.
  intros Hnd Hc H. destruct (apply_plan_quiet _ _ _ _ _ _ _ _ _ Hnd Hc H) as (st & Hst & Hset).
  exists st. split; [done|]. intros p Hp Hr. specialize (Hset p Hp Hr). split; [done|].
  intros server policy action.
  pose proof (decide_justified sha256_hex (w_repo w' !! p) (ss_pages st !! p) server policy) as Hj.
  fold action in Hj.
  assert (Hu : repo_unchanged sha256_hex (w_repo w' !! p) (ss_pages st !! p)).
  { unfold settled in Hset. unfold repo_unchanged, disk_is_base.
    destruct (w_repo w' !! p), (ss_pages st !! p); simpl in Hset; try done.
    apply bool_decide_eq_true. congruence. }
  split_and!; [intros E; rewrite E in Hj; destruct Hj as (_ & ? & _); done
              |intros E; rewrite E in Hj; destruct Hj as (_ & _ & ? & _); done
              |intros E; rewrite E in Hj; destruct Hj as (_ & _ & ? & _); done|].
  intros page -> Hd. unfold action. rewrite Hd. simpl. by rewrite bool_decide_eq_true_2.
Qed.

(** ** A run *)

From S2P Require Import PageFileFacts.

(** ** The run

    One page only on the server ([notes/a.md]), one file only in the
    repository ([notes/b.md]) and no baseline: the run exports the first and
    imports the second. *)

Definition demo_path_a : bytes := lit "notes/a.md".
Definition demo_path_b : bytes := lit "notes/b.md".
Definition demo_page : ApiPage :=
  mkApiPage (Some (lit "p1")) (lit "hello") (lit "A page") (lit "semantic") false (JObject []).
Definition demo_file : bytes := render demo_string demo_meta (lit "body").
Definition demo_tree : gmap bytes bytes := {[demo_path_b := demo_file]}.
Definition demo_args : SyncArgs := mkSyncArgs None false 3.
Definition demo_scope : SyncScope := mkSyncScope (lit "http://host") (lit "ws") (lit "proj").

Definition demo_env : PlanEnv := mkPlanEnv [demo_path_a] (Ok ([demo_path_b], []))
  (λ path, Ok (demo_tree !! path))
  (λ _ _, Ok (mkPageRead (Some demo_page) (Some (lit "etag"))))
  (λ _, Ok (mkPageRead (Some demo_page) (Some (lit "etag")))).

(** A server that accepts every write and reads [demo_page] back. *)
Definition demo_ops : ServerOps nat := mkServerOps nat
  (λ s _ _ _ _, (s + 1, Ok (Some (lit "p1"))))
  (λ s _, (s, Ok (mkPageRead (Some demo_page) None)))
  (λ s _ _, (s, Ok ())) (λ s, (s, Ok ())).

Definition demo_world : World nat := mkWorld demo_tree 0 0 [] None.

Definition demo_plan : Plan :=
  match build_plan id demo_string demo_from_str demo_env demo_args [lit "notes"] default_state false with
  | Ok p => p
  | Err _ => empty_plan
  end.

Definition demo_applied : World nat * result Applied SyncError :=
  apply_plan id demo_string demo_ops calm always demo_scope default_state demo_plan demo_world.

Lemma demo_build :
  build_plan id demo_string demo_from_str demo_env demo_args [lit "notes"] default_state false
  = Ok demo_plan.
Proof. vm_compute. reflexivity. Qed.

Lemma plan_covers_every_page_once_witness :
  acted demo_plan = [demo_path_b; demo_path_a] ∧
  ∃ on_server found refusals all,
    select_pages (env_listed demo_env) [lit "notes"] = Ok on_server ∧
    env_walk demo_env = Ok (found, refusals) ∧
    NoDup all ∧ plan_pages demo_plan ≡ₚ all ++ (rf_path <$> refusals) ∧
    (∀ path, path ∈ all ↔ (path ∉ rf_path <$> refusals) ∧
       (path ∈ on_server ∨ path ∈ found ∨
        in_families [lit "notes"] path = true ∧ is_Some (ss_pages default_state !! path))) ∧
    is_some (batch_refusal demo_plan) = (max_deletes demo_args <? deletes demo_plan).
Proof.
  split; [vm_compute; reflexivity|].
  exact (plan_covers_every_page_once id demo_string demo_from_str demo_env demo_args [lit "notes"]
    default_state false demo_plan demo_build).
Defined.


Lemma sync_settles_witness :
  match demo_applied with
  | (w', Ok applied) =>
      raced applied = [] ∧
      ∃ st, w_saved w' = Some st ∧
        ∀ p, p ∈ acted demo_plan → p ∉ raced applied →
          settled id st (w_repo w') p ∧
          ∀ server policy,
            let action := decide_page id (w_repo w' !! p) (ss_pages st !! p) server policy in
            action ≠ Conflict ∧ action ≠ Import true ∧ action ≠ Import false ∧
            (∀ page, server = Rendered page → w_repo w' !! p = Some page → action = Unchanged)
  | (_, Err _) => False
  end.
Proof.
  assert (Hnd : NoDup (acted demo_plan)) by (apply (bool_decide_unpack _); vm_compute; exact I).
  assert (Hc : plan_current id demo_plan (w_repo demo_world)).
  { vm_compute. repeat split; repeat constructor. }
  assert (Hr : match demo_applied with (_, Ok a) => bool_decide (raced a = []) | _ => false end = true)
    by (vm_compute; reflexivity).
  destruct demo_applied as [w' [applied|e]] eqn:E; [|discriminate Hr].
  split; [exact (proj1 (bool_decide_eq_true _) Hr)|].
  exact (sync_settles id demo_string demo_ops demo_scope default_state demo_plan demo_world w' applied
    Hnd Hc E).
Defined.
