(* ===== verification/WikiExport.v ===== *)
(** * One-way wiki export

    Models the export half of [companions/ai-memory-wikisync/src/sync.rs]:
    classification, [record_decision], [run_batch] and [run].  What is read
    (the listing, the files, the pages) is the [PlanEnv] of [WikiSync]; the
    writes go through its [write_if_unchanged] and [save].  Titles and diff
    summaries are only printed and are left out of the report. *)

From S2P Require Export WikiSync.

Local Open Scope rust_scope.

Inductive WriteKind := WriteCreate | WriteUpdate | WriteForced.
Inductive DivergentReason := LocalEdit | UnknownFile.

Inductive Classification :=
  | ClassUnchanged
  | ClassWrite (kind : WriteKind)
  | ClassDivergent (reason : DivergentReason).

Record PlannedWrite := mkPlannedWrite {
  pw_kind : WriteKind;
  pw_path : bytes;
  pw_body : bytes;
  pw_etag : option bytes;
  pw_expected_disk : option bytes;
}.

Record Report := mkReport {
  writes : list PlannedWrite;
  rep_unchanged : list bytes;
  divergent : list (bytes * DivergentReason);
  listed : nat;
  matched : nat;
  bytes_to_write : nat;
}.

Inductive Mode := ModePlan | ModeDryRun | ModeApply.

#[export] Instance Mode_eq_dec : EqDecision Mode.
Proof. solve_decision. Defined.

(** Errors of the export itself, next to those of the parts it shares. *)
Inductive ExportError :=
  | Shared (e : SyncError)
  | NotModifiedNoFile (path : bytes)
  | ChangedDuringRun (path : bytes)
  | Diverged (n : nat).

Definition shared {A} (r : result A SyncError) : result A ExportError :=
  match r with Ok a => Ok a | Err e => Err (Shared e) end.

Section Classify.
Variable sha256_hex : bytes → bytes.

Definition classify (disk : option bytes) (base : option PageState) (server : option bytes)
    : Classification :=
  let disk_hash := sha256_hex <$> disk in
  let server_hash := sha256_hex <$> server in
  let disk_equals_server := is_some disk_hash && bool_decide (disk_hash = server_hash) in
  let disk_equals_base := match disk_hash, base with
                          | Some disk, Some base => bool_decide (disk = ps_hash base)
                          | _, _ => false
                          end in
  match disk, base with
  | None, _ => ClassWrite WriteCreate
  | Some _, _ =>
      if disk_equals_server then ClassUnchanged
      else match base with
           | Some _ =>
               if disk_equals_base then
                 match server with None => ClassUnchanged | Some _ => ClassWrite WriteUpdate end
               else ClassDivergent LocalEdit
           | None => ClassDivergent UnknownFile
           end
  end.

(** [record_decision]: one page into the report and the new state. *)
Definition add_write (w : PlannedWrite) (r : Report) : Report :=
  mkReport (writes r ++ [w]) (rep_unchanged r) (divergent r) (listed r) (matched r) (bytes_to_write r).
Definition add_unchanged (path : bytes) (r : Report) : Report :=
  mkReport (writes r) (rep_unchanged r ++ [path]) (divergent r) (listed r) (matched r) (bytes_to_write r).
Definition add_divergent (path : bytes) (reason : DivergentReason) (r : Report) : Report :=
  mkReport (writes r) (rep_unchanged r) (divergent r ++ [(path, reason)]) (listed r) (matched r)
    (bytes_to_write r).

Definition record_decision (report : Report) (new_state : SyncState) (path : bytes)
    (disk body etag page_id : option bytes) (decision : Classification) (force : bool)
    : result (Report * SyncState) ExportError :=
  let entry body := mkPageState (sha256_hex body) etag page_id in
  let store body := with_pages (<[path := entry body]>) new_state in
  match decision with
  | ClassUnchanged =>
      Ok (add_unchanged path report,
          match body with Some body => store body | None => new_state end)
  | ClassWrite kind =>
      match body with
      | None => Err (NotModifiedNoFile path)
      | Some body =>
          Ok (add_write (mkPlannedWrite kind path body etag (sha256_hex <$> disk)) report, store body)
      end
  | ClassDivergent reason =>
      let report := add_divergent path reason report in
      match body with
      | Some body =>
          if force
          then Ok (add_write (mkPlannedWrite WriteForced path body etag (sha256_hex <$> disk)) report,
                   store body)
          else Ok (report, new_state)
      | None => Ok (report, new_state)
      end
  end.
End Classify.

Section ExportRun.
Variable sha256_hex : bytes → bytes.
Variable json_string : bytes → bytes.

(** [read.page.as_ref().map(render_page).transpose()?] and the page's id. *)
Definition rendered_read (path : bytes) (read : PageRead)
    : result (option bytes * option bytes) ExportError :=
  match read_page read with
  | None => Ok (None, None)
  | Some page =>
      let? body := shared (render_page json_string path page) in
      Ok (Some body, ap_id page)
  end.

(** The loop body of [run_batch]. *)
Definition export_page (env : PlanEnv) (force : bool) (old_state : SyncState)
    (acc : Report * SyncState) (path : bytes) : result (Report * SyncState) ExportError :=
  let? disk := shared (env_disk env path) in
  let base := ss_pages old_state !! path in
  let etag_hint := if is_some disk then base ≫= ps_etag else None in
  let? read := shared (env_read env path etag_hint) in
  let? first := rendered_read path read in
  let decision := classify sha256_hex disk base (fst first) in
  let refetch := match decision with ClassDivergent _ => true | _ => false end
                 && force && negb (is_some (fst first)) in
  let? final :=
    (if refetch then
       let? again := shared (env_reread env path) in
       let? got := rendered_read path again in
       Ok (got, classify sha256_hex disk base (fst got))
     else Ok (first, decision)) in
  record_decision sha256_hex (fst acc) (snd acc) path disk (fst (fst final)) (read_etag read)
    (snd (fst final)) (snd final) force.

Fixpoint export_pages (env : PlanEnv) (force : bool) (old_state : SyncState)
    (acc : Report * SyncState) (paths : list bytes) : result (Report * SyncState) ExportError :=
  match paths with
  | [] => Ok acc
  | path :: paths' =>
      let? acc' := export_page env force old_state acc path in
      export_pages env force old_state acc' paths'
  end.

(** The decisions of one batch. *)
Definition decide_batch (env : PlanEnv) (include : list bytes) (force : bool) (old_state : SyncState)
    : result (Report * SyncState) ExportError :=
  let? selected := shared (select_pages (env_listed env) include) in
  let start := mkReport [] [] [] (length (env_listed env)) (length selected) 0 in
  let? acc := export_pages env force old_state (start, old_state) selected in
  let '(report, new_state) := acc in
  Ok (mkReport (writes report) (rep_unchanged report) (divergent report) (listed report)
        (matched report) (sum_list (length ∘ pw_body <$> writes report)), new_state).

Context {S : Type}.
Variable drift : nat → gmap bytes bytes → gmap bytes bytes.
Variable io_ok : nat → bool.

(** Effects in the export's error type. *)
Definition E (A : Type) : Type := World S → World S * result A ExportError.

Fixpoint write_all (ws : list PlannedWrite) : E unit :=
  λ world,
    match ws with
    | [] => (world, Ok tt)
    | w :: ws' =>
        match write_if_unchanged sha256_hex drift io_ok (pw_path w) (pw_expected_disk w) (pw_body w) world with
        | (world', Ok true) => write_all ws' world'
        | (world', Ok false) => (world', Err (ChangedDuringRun (pw_path w)))
        | (world', Err e) => (world', Err (Shared e))
        end
    end.

(** [applied] of [run_batch]. *)
Definition may_apply (mode : Mode) (force : bool) (report : Report) : bool :=
  bool_decide (mode = ModeApply) && ((length (divergent report) =? 0) || force).

Definition run_batch (env : PlanEnv) (include : list bytes) (force : bool) (old_state : SyncState)
    (mode : Mode) : E (Report * SyncState * bool) :=
  λ world,
    match decide_batch env include force old_state with
    | Err e => (world, Err e)
    | Ok (report, new_state) =>
        if may_apply mode force report then
          match write_all (writes report) world with
          | (world', Err e) => (world', Err e)
          | (world', Ok _) =>
              match save drift io_ok new_state world' with
              | (world'', Ok _) => (world'', Ok (report, new_state, true))
              | (world'', Err e) => (world'', Err (Shared e))
              end
          end
        else (world, Ok (report, new_state, false))
    end.

(** [validate_allowlist]. *)
Inductive AllowlistError := EmptyAllowlist | BadFamily (e : PathError).

Fixpoint validate_families (families include : list bytes) : result (list bytes) AllowlistError :=
  match include with
  | [] => Ok families
  | family :: include' =>
      match validate_family family with
      | Err e => Err (BadFamily e)
      | Ok _ =>
          validate_families
            (if bool_decide (family ∈ families) then families else families ++ [family]) include'
      end
  end.

Definition validate_allowlist (include : list bytes) : result (list bytes) AllowlistError :=
  bail_if bool_decide (include = []) with EmptyAllowlist;;
  validate_families [] include.

(** [run] after the allowlist is validated and the state loaded. *)
Definition run_export (env : PlanEnv) (include : list bytes) (force adopt : bool)
    (scope : SyncScope) (loaded : SyncState) (mode : Mode) : E unit :=
  λ world,
    match baseline_for loaded scope adopt with
    | Err e => (world, Err (Shared e))
    | Ok old_state =>
        match run_batch env include force old_state mode world with
        | (world', Err e) => (world', Err e)
        | (world', Ok (report, _, applied)) =>
            if bool_decide (mode = ModeApply) && negb (length (divergent report) =? 0) && negb force
            then (world', Err (Diverged (length (divergent report))))
            else (world', Ok tt)
        end
    end.
End ExportRun.
