(* ===== verification/WikiExportFacts.v ===== *)
(** * The contract of the one-way export *)

From S2P Require Export WikiSyncQuiet WikiExport.

Local Open Scope rust_scope.

Section ExportFacts.
Variable sha256_hex : bytes → bytes.
Variable json_string : bytes → bytes.

#[local] Abbreviation classify := (classify sha256_hex).
#[local] Abbreviation export_page := (export_page sha256_hex json_string).
#[local] Abbreviation export_pages := (export_pages sha256_hex json_string).
#[local] Abbreviation decide_batch := (decide_batch sha256_hex json_string).

(** The file is what the last export recorded. *)
Definition is_base_file (disk : option bytes) (base : option PageState) : Prop :=
  match disk, base with Some d, Some b => sha256_hex d = ps_hash b | _, _ => False end.

(** What each classification means. *)
Lemma classify_spec disk base server :
  match classify disk base server with
  | ClassUnchanged =>
      ∃ d, disk = Some d ∧
        ((∃ s, server = Some s ∧ sha256_hex d = sha256_hex s) ∨ server = None ∧ is_base_file disk base)
  | ClassWrite kind =>
      kind ≠ WriteForced ∧ (disk = None ∨ is_base_file disk base) ∧
      (disk ≠ None → ∃ s, server = Some s ∧ sha256_hex <$> disk ≠ Some (sha256_hex s))
  | ClassDivergent _ =>
      disk ≠ None ∧ ¬ is_base_file disk base ∧
      sha256_hex <$> disk ≠ sha256_hex <$> server
  end.
Proof.
  unfold WikiExport.classify. destruct disk as [d|]; [|naive_solver]. simpl.
  destruct (bool_decide (Some (sha256_hex d) = sha256_hex <$> server)) eqn:E1.
  { apply bool_decide_eq_true in E1. destruct server as [s|]; simplify_eq/=. naive_solver. }
  apply bool_decide_eq_false in E1. destruct base as [b|]; [|naive_solver].
  destruct (bool_decide (sha256_hex d = ps_hash b)) eqn:E2.
  - apply bool_decide_eq_true in E2. destruct server as [s|]; simpl in *; naive_solver.
  - apply bool_decide_eq_false in E2. naive_solver.
Qed.

(** [body] is the rendering of a page the server returned for [path]. *)
Definition served (env : PlanEnv) (path body : bytes) : Prop :=
  ∃ read page, ((∃ hint, env_read env path hint = Ok read) ∨ env_reread env path = Ok read) ∧
    read_page read = Some page ∧ render_page json_string path page = Ok body.

(** Why a planned write may happen. *)
Definition write_backed (env : PlanEnv) (force : bool) (old : SyncState) (w : PlannedWrite) : Prop :=
  served env (pw_path w) (pw_body w) ∧
  ∃ disk, env_disk env (pw_path w) = Ok disk ∧ pw_expected_disk w = sha256_hex <$> disk ∧
    (disk = None ∨ is_base_file disk (ss_pages old !! pw_path w) ∨ force = true).

(** What one page adds to the report and the state. *)
Inductive page_step (env : PlanEnv) (force : bool) (old : SyncState) (path : bytes)
    : Report * SyncState → Report * SyncState → Prop :=
  | page_current r st st' d :
      env_disk env path = Ok (Some d) →
      (∀ p, p ≠ path → ss_pages st' !! p = ss_pages st !! p) →
      (ss_pages st !! path = ss_pages old !! path →
       ps_hash <$> ss_pages st' !! path = Some (sha256_hex d)) →
      page_step env force old path (r, st) (add_unchanged path r, st')
  | page_write r r' st st' w :
      pw_path w = path → write_backed env force old w →
      writes r' = writes r ++ [w] →
      (divergent r' = divergent r ∨ force = true) →
      (∀ p, p ≠ path → ss_pages st' !! p = ss_pages st !! p) →
      ps_hash <$> ss_pages st' !! path = Some (sha256_hex (pw_body w)) →
      page_step env force old path (r, st) (r', st')
  | page_divergent r st reason :
      force = false ∨ (∃ read, env_reread env path = Ok read ∧ read_page read = None) →
      page_step env force old path (r, st) (add_divergent path reason r, st).

Lemma rendered_read_spec path read got :
  rendered_read json_string path read = Ok got →
  match fst got with
  | Some body => ∃ page, read_page read = Some page ∧ render_page json_string path page = Ok body
  | None => read_page read = None
  end.
Proof.
  unfold rendered_read. destruct (read_page read) as [page|]; [|by intros [= <-]].
  unfold shared. destruct (render_page _ path page) as [body|e] eqn:E; [|done]. intros [= <-]. simpl. eauto.
Qed.

Lemma shared_Ok {A} (r : result A SyncError) a : shared r = Ok a ↔ r = Ok a.
Proof. destruct r; simpl; naive_solver. Qed.

Lemma store_other path entry st p :
  p ≠ path → ss_pages (with_pages (<[path := entry]>) st) !! p = ss_pages st !! p.
Proof. intros. simpl. by rewrite lookup_insert_ne. Qed.

(** [record_decision] performs such a step, when the body belongs to the
    decision. *)
Lemma record_decision_step env force old r st path disk body etag id out :
  env_disk env path = Ok disk →
  (∀ b, body = Some b → served env path b) →
  (body = None → force = true →
   ∀ reason, classify disk (ss_pages old !! path) None = ClassDivergent reason →
   ∃ read, env_reread env path = Ok read ∧ read_page read = None) →
  record_decision sha256_hex r st path disk body etag id
    (classify disk (ss_pages old !! path) body) force = Ok out →
  page_step env force old path (r, st) out.
Proof.
  intros Hdisk Hserved Hnone H. pose proof (classify_spec disk (ss_pages old !! path) body) as Hc.
  unfold record_decision in H.
  destruct (classify disk (ss_pages old !! path) body) as [|kind|reason] eqn:E.
  - injection H as <-. destruct Hc as (d & -> & Hc). apply (page_current _ _ _ _ _ _ _ d); [done| |].
    + intros p Hp. destruct body; [|done]. by apply store_other.
    + intros Hst. destruct Hc as [(s & -> & Hs)|[-> Hb]].
      * simpl. rewrite lookup_insert_eq. simpl. by rewrite Hs.
      * rewrite Hst. unfold is_base_file in Hb. destruct (ss_pages old !! path); [|done]. simpl.
        by rewrite Hb.
  - destruct body as [b|]; [|done]. injection H as <-. destruct Hc as (_ & Hd & _).
    apply (page_write _ _ _ _ _ _ _ _ (mkPlannedWrite kind path b etag (sha256_hex <$> disk)));
      [done| |done|by left|intros; by apply store_other|].
    + split; [by apply Hserved|]. exists disk. split_and!; [done|done|]. naive_solver.
    + simpl. by rewrite lookup_insert_eq.
  - destruct body as [b|].
    + destruct force; injection H as <-; [|by apply page_divergent; left].
      apply (page_write _ _ _ _ _ _ _ _ (mkPlannedWrite WriteForced path b etag (sha256_hex <$> disk)));
        [done| |done|by right|intros; by apply store_other|].
      * split; [by apply Hserved|]. exists disk. split_and!; [done|done|]. naive_solver.
      * simpl. by rewrite lookup_insert_eq.
    + injection H as <-. apply page_divergent. destruct force; [right|by left]. by eapply Hnone.
Qed.

Lemma export_page_step env force old acc path out :
  export_page env force old acc path = Ok out → page_step env force old path acc out.
Proof.
  unfold WikiExport.export_page. intros H.
  apply result_bind_Ok in H as (disk & Hdisk%shared_Ok & H).
  apply result_bind_Ok in H as (read & Hread%shared_Ok & H).
  apply result_bind_Ok in H as (first & Hfirst & H).
  apply result_bind_Ok in H as ([got decision] & Hfinal & H). cbn [fst snd] in H.
  apply rendered_read_spec in Hfirst as Hf. destruct acc as [r st].
  destruct (_ && force && negb (is_some (fst first))) eqn:Er.
  - apply result_bind_Ok in Hfinal as (again & Hagain%shared_Ok & Hfinal).
    apply result_bind_Ok in Hfinal as (got' & Hgot & Hfinal). simplify_eq.
    apply rendered_read_spec in Hgot. eapply record_decision_step; [exact Hdisk| | |exact H].
    + intros b Hb. rewrite Hb in Hgot. destruct Hgot as (page & ? & ?). exists again, page. auto.
    + intros Hb _ reason _. rewrite Hb in Hgot. eauto.
  - simplify_eq. eapply record_decision_step; [exact Hdisk| | |exact H].
    + intros b Hb. rewrite Hb in Hf. destruct Hf as (page & ? & ?). exists read, page. eauto.
    + intros Hb -> reason Hd. rewrite Hb in Er. by rewrite Hd in Er.
Qed.

(** ** A batch of pages *)

(** The state records what the destination will hold for [path]. *)
Definition recorded (env : PlanEnv) (r : Report) (st : SyncState) (path : bytes) : Prop :=
  (∃ w, w ∈ writes r ∧ pw_path w = path ∧
        ps_hash <$> ss_pages st !! path = Some (sha256_hex (pw_body w))) ∨
  (path ∉ pw_path <$> writes r) ∧
  (∃ d, env_disk env path = Ok (Some d) ∧ ps_hash <$> ss_pages st !! path = Some (sha256_hex d)).

Definition batch_inv (env : PlanEnv) (force : bool) (old : SyncState) (seen : list bytes)
    (acc : Report * SyncState) : Prop :=
  (∀ p, p ∉ seen → ss_pages (snd acc) !! p = ss_pages old !! p) ∧
  Forall (write_backed env force old) (writes (fst acc)) ∧
  sublist (pw_path <$> writes (fst acc)) seen ∧
  ((∀ path read, env_reread env path = Ok read → read_page read ≠ None) →
   divergent (fst acc) = [] ∨ force = true →
   ∀ p, p ∈ seen → recorded env (fst acc) (snd acc) p).

Lemma recorded_other env r r' st st' p ws :
  writes r' = writes r ++ ws → (p ∉ pw_path <$> ws) →
  ss_pages st' !! p = ss_pages st !! p → recorded env r st p → recorded env r' st' p.
Proof.
  intros Hw Hp Hst [(w & Hin & Hwp & Hh)|(Hn & d & Hd & Hh)]; [left|right].
  - exists w. rewrite Hw, Hst. split_and!; [set_solver|done|done].
  - rewrite Hw, Hst, fmap_app. split; [set_solver|eauto].
Qed.

Lemma page_step_inv env force old seen path acc acc' :
  path ∉ seen → page_step env force old path acc acc' → batch_inv env force old seen acc →
  batch_inv env force old (seen ++ [path]) acc'.
Proof.
  intros Hnew Hstep (Hother & Hback & Hsub & Hrec).
  assert (Hin : ∀ {P : bytes → Prop}, (∀ p, p ∈ seen → P p) → P path → ∀ p, p ∈ seen ++ [path] → P p).
  { intros P Hs Hp p [Hs0 | ->%list_elem_of_singleton]%elem_of_app; auto. }
  assert (Hmem : ∀ p, p ∈ pw_path <$> writes (fst acc) → p ∈ seen)
    by (intros p Hp; by eapply elem_of_sublist).
  destruct Hstep as [r st st' d Hd Hst Hpath|r r' st st' w Hwp Hw Hws Hdiv Hst Hpath|r st reason Hwhy];
    unfold batch_inv; cbn [fst snd] in *.
  - split_and!; [|done|by apply sublist_inserts_r|].
    + intros p Hp. rewrite Hst by set_solver. apply Hother. set_solver.
    + intros Hhttp Hok. apply Hin.
      * intros p Hp. eapply (recorded_other _ _ _ _ _ _ []); [by rewrite app_nil_r|set_solver| |by apply Hrec].
        apply Hst. congruence.
      * right. split; [set_solver|]. exists d. split; [done|]. apply Hpath. by apply Hother.
  - split_and!.
    + intros p Hp. rewrite Hst by set_solver. apply Hother. set_solver.
    + rewrite Hws. apply Forall_app. split; [done|]. constructor; [done|constructor].
    + rewrite Hws, fmap_app. simpl. rewrite Hwp. by apply sublist_app.
    + intros Hhttp Hok. apply Hin.
      * intros p Hp. eapply (recorded_other _ _ _ _ _ _ [w]); [done| | |].
        -- simpl. rewrite Hwp. set_solver.
        -- apply Hst. congruence.
        -- apply Hrec; [done| |done]. destruct Hok as [Hok|]; [|by right]. rewrite Hok in Hdiv.
           destruct Hdiv as [Hdiv|]; [by left|by right].
      * left. exists w. rewrite Hws. set_solver.
  - split_and!; [|done|by apply sublist_inserts_r|].
    + intros p Hp. apply Hother. set_solver.
    + intros Hhttp [Hok|Hok]; [simpl in Hok; by apply app_nil in Hok as [_ ?]|].
      destruct Hwhy as [|(read & Hread & Hnone)]; [congruence|]. by apply Hhttp in Hread.
Qed.

Lemma export_pages_inv env force old acc seen paths out :
  NoDup (seen ++ paths) → export_pages env force old acc paths = Ok out →
  batch_inv env force old seen acc → batch_inv env force old (seen ++ paths) out.
Proof.
  revert acc seen; induction paths as [|path paths IH]; intros acc seen Hnd H Hinv;
    cbn [WikiExport.export_pages] in H; [injection H as <-; by rewrite app_nil_r|].
  apply result_bind_Ok in H as (acc' & Hpage & H). apply export_page_step in Hpage.
  replace (seen ++ path :: paths) with ((seen ++ [path]) ++ paths) in * by (by rewrite <- app_assoc).
  eapply IH; [done|exact H|]. eapply page_step_inv; [|exact Hpage|done].
  rewrite <- app_assoc in Hnd. apply NoDup_app in Hnd as (_ & Hdis & _).
  intros Hp. apply (Hdis _ Hp). left.
Qed.

Lemma select_pages_NoDup listed families selected :
  select_pages listed families = Ok selected → NoDup selected.
Proof.
  unfold select_pages. intros H. peel_ok. subst. unfold sort_bytes.
  rewrite (sort_by_key_perm id bytes_lt). apply NoDup_remove_dups.
Qed.

Lemma decide_batch_inv env include force old report st :
  decide_batch env include force old = Ok (report, st) →
  ∃ selected, select_pages (env_listed env) include = Ok selected ∧
    NoDup selected ∧ batch_inv env force old selected (report, st).
Proof.
  unfold WikiExport.decide_batch. intros H.
  apply result_bind_Ok in H as (selected & Hsel%shared_Ok & H).
  apply result_bind_Ok in H as ([r st'] & Hpages & H). injection H as <- <-.
  exists selected. pose proof (select_pages_NoDup _ _ _ Hsel) as Hnd. split_and!; [done|done|].
  apply (export_pages_inv _ _ _ _ []) in Hpages; [exact Hpages|done|].
  split_and!; [done|constructor|constructor|]. intros _ _ p Hp. by apply not_elem_of_nil in Hp.
Qed.

(** ** Writing a batch *)

Section Write.
Context {S : Type}.
Variable drift : nat → gmap bytes bytes → gmap bytes bytes.
Variable io_ok : nat → bool.

#[local] Abbreviation write_all := (@write_all sha256_hex S drift io_ok).
#[local] Abbreviation run_batch := (@run_batch sha256_hex json_string S drift io_ok).
#[local] Abbreviation run_export := (@run_export sha256_hex json_string S drift io_ok).

(** What a batch may do to the destination. *)
Definition export_allowed (ws : list PlannedWrite) (e : Effect) : Prop :=
  match e with
  | FileWritten path old new =>
      ∃ w, w ∈ ws ∧ pw_path w = path ∧ pw_body w = new ∧ sha256_hex <$> old = pw_expected_disk w
  | _ => False
  end.

Lemma write_all_guarded all ws w :
  ws ⊆ all → rtc (step drift (export_allowed all)) w (fst (write_all ws w)).
Proof.
  revert w; induction ws as [|x ws IH]; intros w Hsub; cbn [WikiExport.write_all]; [done|].
  pose proof (guarded_write_if_unchanged sha256_hex drift io_ok (export_allowed all) (pw_path x)
    (pw_expected_disk x) (pw_body x) (S:=S)) as Hg.
  specialize (Hg ltac:(intros old Ho; exists x; set_solver) w).
  destruct (write_if_unchanged _ _ _ _ _ _ w) as [w' [[]|e]]; cbn [fst] in *; [|done..].
  etrans; [exact Hg|]. apply IH. set_solver.
Qed.

(** A batch that completes wrote all its pages, in order. *)
Definition written_path (e : Effect) : option bytes :=
  match e with FileWritten path _ _ => Some path | _ => None end.

Lemma write_all_log ws w w' :
  write_all ws w = (w', Ok tt) →
  ∃ log, w_log w' = w_log w ++ log ∧ written_path <$> log = Some ∘ pw_path <$> ws ∧ w_saved w' = w_saved w.
Proof.
  revert w; induction ws as [|x ws IH]; intros w H; cbn [WikiExport.write_all] in H.
  { injection H as <-. exists []. by rewrite app_nil_r. }
  unfold write_if_unchanged, access in H. destruct (io_ok (w_tick w)); [|done].
  case_bool_decide as He; [|done]. apply IH in H as (log & -> & Hlog & ->).
  eexists (_ :: log). cbn [w_log set_repo]. rewrite <- app_assoc. split_and!; [done| |done].
  rewrite !fmap_cons, Hlog. done.
Qed.

Lemma write_all_saved ws w : w_saved (fst (write_all ws w)) = w_saved w.
Proof.
  revert w; induction ws as [|x ws IH]; intros w; cbn [WikiExport.write_all]; [done|].
  unfold write_if_unchanged, access. destruct (io_ok (w_tick w)); [|done].
  case_bool_decide; [|done]. by rewrite IH.
Qed.

(** What justifies an effect of an export. *)
Definition export_justified (env : PlanEnv) (include : list bytes) (force : bool) (old : SyncState)
    (e : Effect) : Prop :=
  match e with
  | FileWritten path before after =>
      ∃ selected disk, select_pages (env_listed env) include = Ok selected ∧ path ∈ selected ∧
        served env path after ∧
        env_disk env path = Ok disk ∧ sha256_hex <$> before = sha256_hex <$> disk ∧
        (disk = None ∨ is_base_file disk (ss_pages old !! path) ∨ force = true)
  | _ => False
  end.

Lemma export_allowed_justified env include force old report st e :
  decide_batch env include force old = Ok (report, st) →
  export_allowed (writes report) e → export_justified env include force old e.
Proof.
  intros (selected & Hsel & _ & _ & Hback & Hsub & _)%decide_batch_inv He. cbn [fst] in *.
  destruct e as [path before after| | |]; [|done..].
  destruct He as (w & Hw & <- & <- & Hb). rewrite Forall_forall in Hback.
  destruct (Hback w Hw) as (Hserved & disk & Hdisk & Hexp & Hwhy).
  exists selected, disk. split_and!; try done; [|congruence].
  eapply elem_of_sublist; [|exact Hsub]. by apply list_elem_of_fmap_2.
Qed.

(** Either a run stops before touching anything, or it writes a batch it was
    allowed to write. *)
Lemma run_export_cases env include force adopt scope loaded mode w :
  fst (run_export env include force adopt scope loaded mode w) = w ∨
  ∃ old report st, baseline_for loaded scope adopt = Ok old ∧ mode = ModeApply ∧
    decide_batch env include force old = Ok (report, st) ∧
    (divergent report = [] ∨ force = true) ∧
    let '(w1, r1) := write_all (writes report) w in
    fst (run_export env include force adopt scope loaded mode w) =
      match r1 with Ok _ => fst (save drift io_ok st w1) | Err _ => w1 end ∧
    (snd (run_export env include force adopt scope loaded mode w) = Ok tt → r1 = Ok tt).
Proof.
  unfold WikiExport.run_export, WikiExport.run_batch.
  destruct (baseline_for loaded scope adopt) as [old|e]; [|by left].
  destruct (decide_batch env include force old) as [[report st]|e] eqn:Hd; [|by left].
  destruct (may_apply mode force report) eqn:Hm.
  - right. exists old, report, st. unfold may_apply in Hm.
    apply andb_true_iff in Hm as [Hm%bool_decide_eq_true Ho].
    assert (Hok : divergent report = [] ∨ force = true).
    { apply orb_true_iff in Ho as [Ho|]; [left|by right]. apply Nat.eqb_eq in Ho.
      by destruct (divergent report). }
    split_and!; [done..|]. destruct (write_all (writes report) w) as [w1 [[]|e1]]; [|done].
    destruct (save drift io_ok st w1) as [w2 [u|e2]]; [|done]. by destruct (_ && negb force).
  - left. by destruct (_ && negb force).
Qed.

(** The one-way export is guarded, whatever other processes do meanwhile:
    it only ever writes files, only with [--apply], only pages of the
    allowlisted families with what the server returned, over a file that still
    hashes to what was read and was absent, unedited since the last export, or
    forced; nothing at all is written while some file diverged and [--force]
    is not given; and the state advances only once the whole batch, in order,
    is on disk. *)
Theorem export_run_guarded env include force adopt scope loaded mode w :
  let w' := fst (run_export env include force adopt scope loaded mode w) in
  rtc (step drift (λ e, ∃ old, baseline_for loaded scope adopt = Ok old ∧ mode = ModeApply ∧
         export_justified env include force old e)) w w' ∧
  (w_saved w' ≠ w_saved w →
   ∃ old report st log, baseline_for loaded scope adopt = Ok old ∧
     decide_batch env include force old = Ok (report, st) ∧ w_saved w' = Some st ∧
     w_log w' = w_log w ++ log ∧ written_path <$> log = Some ∘ pw_path <$> writes report) ∧
  (∀ old report st, baseline_for loaded scope adopt = Ok old →
     decide_batch env include force old = Ok (report, st) →
     divergent report ≠ [] → force = false → w' = w).
Proof.
  intros w'. unfold w'.
  destruct (run_export_cases env include force adopt scope loaded mode w)
    as [->|(old & report & st & Hb & Hm & Hd & Hok & Hrun)]; [by split_and!|].
  destruct (write_all (writes report) w) as [w1 r1] eqn:Ew. destruct Hrun as [Hrun _].
  pose proof (write_all_guarded (writes report) (writes report) w (reflexivity _)) as Hg.
  pose proof (write_all_saved (writes report) w) as Hs.
  rewrite Ew in Hg, Hs. cbn [fst] in Hg, Hs. rewrite Hrun. split_and!.
  - eapply step_mono; [|etrans; [exact Hg|]].
    + intros e He. exists old. split_and!; [done|done|]. by eapply export_allowed_justified.
    + destruct r1; [|done]. apply guarded_save.
  - destruct r1 as [[]|e]; [|congruence]. intros Hne. apply write_all_log in Ew as (log & Hlog & Hpaths & _).
    exists old, report, st, log. revert Hne. unfold save, access.
    destruct (io_ok (w_tick w1)); cbn [fst w_saved w_log]; [|congruence]. intros _. by split_and!.
  - intros old' report' st' Hb' Hd' Hdiv Hf. destruct Hok as [Hok|]; [|congruence].
    assert (old' = old) as -> by congruence. assert (report' = report) as -> by congruence. done.
Qed.
End Write.

(** A batch written without interference puts every body in place. *)
Lemma write_all_quiet {S} ws (w : World S) :
  NoDup (pw_path <$> ws) →
  Forall (λ x, sha256_hex <$> w_repo w !! pw_path x = pw_expected_disk x) ws →
  ∃ w', write_all sha256_hex calm always ws w = (w', Ok tt) ∧
    (∀ x, x ∈ ws → w_repo w' !! pw_path x = Some (pw_body x)) ∧
    (∀ p, p ∉ pw_path <$> ws → w_repo w' !! p = w_repo w !! p).
Proof.
  revert w; induction ws as [|x ws IH]; intros w Hnd Hexp; cbn [WikiExport.write_all].
  { exists w. split_and!; [done| |done]. intros x Hx. by apply not_elem_of_nil in Hx. }
  rewrite fmap_cons in Hnd. apply NoDup_cons in Hnd as [Hx Hnd]. apply Forall_cons in Hexp as [Hex Hexp].
  destruct (write_quiet sha256_hex (pw_path x) (pw_expected_disk x) (pw_body x) w Hex)
    as (w1 & -> & Hw1).
  assert (Hkeep : ∀ p, p ≠ pw_path x → w_repo w1 !! p = w_repo w !! p)
    by (intros p Hp; by rewrite Hw1, lookup_insert_ne).
  destruct (IH w1) as (w' & -> & Hin & Hout); [done| |].
  { rewrite Forall_forall in Hexp. apply Forall_forall. intros y Hy. rewrite Hkeep; [by apply Hexp|].
    intros Heq. apply Hx. rewrite <- Heq. by apply list_elem_of_fmap_2. }
  exists w'. split_and!; [done| |].
  - intros y [->|Hy]%elem_of_cons; [|by apply Hin].
    rewrite Hout by done. by rewrite Hw1, lookup_insert_eq.
  - intros p Hp. rewrite fmap_cons in Hp. apply not_elem_of_cons in Hp as [Hp Hps].
    rewrite Hout by done. by apply Hkeep.
Qed.
End ExportFacts.

(** An export settles the pages it covers: when nobody interferes with
    the destination and [--apply] succeeds, every selected page exists in the
    destination and is recorded exactly as it is there, so the next run never
    finds it diverged or missing, and finds it unchanged if the server still
    renders the same bytes; every other page and its record are untouched. *)
Theorem export_settles sha256_hex json_string {S} env include force adopt scope loaded
    (w w' : World S) :
  (∀ path, env_disk env path = Ok (w_repo w !! path)) →
  (∀ path read, env_reread env path = Ok read → read_page read ≠ None) →
  run_export sha256_hex json_string calm always env include force adopt scope loaded ModeApply w
    = (w', Ok tt) →
  ∃ old selected st, baseline_for loaded scope adopt = Ok old ∧
    select_pages (env_listed env) include = Ok selected ∧ w_saved w' = Some st ∧
    (∀ p, p ∈ selected →
       is_Some (w_repo w' !! p) ∧ settled sha256_hex st (w_repo w') p ∧
       ∀ server,
         match classify sha256_hex (w_repo w' !! p) (ss_pages st !! p) server with
         | ClassUnchanged => True
         | ClassWrite kind => kind = WriteUpdate ∧ server ≠ w_repo w' !! p ∧ server ≠ None
         | ClassDivergent _ => False
         end) ∧
    (∀ p, p ∉ selected → w_repo w' !! p = w_repo w !! p ∧ ss_pages st !! p = ss_pages old !! p).
Proof.
  intros Hdisk Hhttp H. unfold run_export, run_batch in H.
  destruct (baseline_for loaded scope adopt) as [old|e] eqn:Hb; [|done].
  destruct (decide_batch _ _ _ _ _ _) as [[report st]|e] eqn:Hd; [|done].
  destruct (decide_batch_inv _ _ _ _ _ _ _ _ Hd) as (selected & Hsel & Hnd & Hother & Hback & Hsub & Hrec).
  cbn [fst snd] in *.
  destruct (may_apply ModeApply force report) eqn:Hm.
  2: { unfold may_apply in Hm. simpl in Hm. apply orb_false_iff in Hm as [Hm ->].
       by rewrite Hm in H. }
  assert (Hok : divergent report = [] ∨ force = true).
  { unfold may_apply in Hm. simpl in Hm. apply orb_true_iff in Hm as [Hm%Nat.eqb_eq|]; [left|by right].
    by destruct (divergent report). }
  specialize (Hrec Hhttp Hok).
  destruct (write_all_quiet sha256_hex (writes report) w) as (w1 & Hw1 & Hin & Hout).
  { eapply sublist_NoDup; [exact Hsub|done]. }
  { eapply Forall_impl; [exact Hback|]. intros x (_ & disk & Hx & -> & _).
    rewrite Hdisk in Hx. by injection Hx as ->. }
  rewrite Hw1 in H. destruct (save_quiet st w1) as (w2 & Hsave & Hrepo & Hsaved). rewrite Hsave in H.
  assert (w2 = w') as -> by (by destruct (_ && negb force); simplify_eq).
  exists old, selected, st. split_and!; try done; rewrite Hrepo.
  - intros p Hp.
    assert (Hset : is_Some (w_repo w1 !! p) ∧ settled sha256_hex st (w_repo w1) p).
    { unfold settled. destruct (Hrec p Hp) as [(x & Hx & <- & Hh)|[Hn (d & Hd' & Hh)]].
      - rewrite (Hin x Hx), Hh. split; [by eexists|done].
      - rewrite Hdisk in Hd'. injection Hd' as Hd'. rewrite (Hout p Hn), Hd', Hh.
        split; [by eexists|done]. }
    destruct Hset as [[d Hd1] Hset]. split_and!; [by eexists|done|]. intros server.
    pose proof (classify_spec sha256_hex json_string (w_repo w1 !! p) (ss_pages st !! p) server) as Hc.
    assert (Hbase : is_base_file sha256_hex (w_repo w1 !! p) (ss_pages st !! p)).
    { unfold settled in Hset. rewrite Hd1 in *. simpl in *.
      destruct (ss_pages st !! p); [by injection Hset|done]. }
    destruct (classify _ _ _ _) as [|kind|reason] eqn:E; [done| |naive_solver].
    rewrite Hd1 in *. destruct Hc as (_ & _ & Hs). destruct Hs as (s & -> & Hne); [done|].
    unfold classify in E. simpl in E, Hne. rewrite bool_decide_eq_false_2 in E by done.
    destruct (ss_pages st !! p) as [b|]; [|done].
    simpl in Hbase. rewrite bool_decide_eq_true_2 in E by done. injection E as <-.
    split_and!; [done| |done]. intros [= ->]. done.
  - intros p Hp. split; [|by apply Hother]. apply Hout. intros Hx. apply Hp. by eapply elem_of_sublist.
Qed.

(** ** An export *)

From S2P Require Import PageFileFacts.
From S2P Require Export WikiSyncTheorems.

Definition demo_exported : World nat * result unit ExportError :=
  run_export id demo_string calm always demo_env [lit "notes"] false false demo_scope default_state
    ModeApply demo_world.

Lemma demo_export_runs :
  demo_exported = (fst demo_exported, Ok tt) ∧
  bool_decide (w_repo (fst demo_exported) !! demo_path_a = None) = false.
Proof. vm_compute. done. Qed.

Lemma export_settles_witness :
  ∃ old selected st, baseline_for default_state demo_scope false = Ok old ∧
    select_pages (env_listed demo_env) [lit "notes"] = Ok selected ∧
    w_saved (fst demo_exported) = Some st ∧
    (∀ p, p ∈ selected →
       is_Some (w_repo (fst demo_exported) !! p) ∧ settled id st (w_repo (fst demo_exported)) p ∧
       ∀ server,
         match classify id (w_repo (fst demo_exported) !! p) (ss_pages st !! p) server with
         | ClassUnchanged => True
         | ClassWrite kind =>
             kind = WriteUpdate ∧ server ≠ w_repo (fst demo_exported) !! p ∧ server ≠ None
         | ClassDivergent _ => False
         end) ∧
    (∀ p, p ∉ selected →
       w_repo (fst demo_exported) !! p = w_repo demo_world !! p ∧ ss_pages st !! p = ss_pages old !! p).
Proof.
  apply (export_settles id demo_string demo_env [lit "notes"] false false demo_scope default_state
    demo_world).
  - done.
  - intros path read [= <-]. done.
  - exact (proj1 demo_export_runs).
Defined.
