(* ===== verification/LlmFallback.v ===== *)
(** * The ordered LLM provider fallback chain

    Models [crates/ai-memory-llm/src/error.rs] and
    [crates/ai-memory-llm/src/fallback.rs].  Providers are third-party
    services: what each answers is an argument of a call.  A chain is shared
    by concurrent calls; every lock section is one transition ([Event]), and
    a call runs against whatever transitions other calls make between its own
    ([Turn]).  Durations and monotonic instants are in nanoseconds, wall-clock
    timestamps are opaque integers. *)

From S2P Require Export Prelude.

Local Open Scope string_scope.
Local Open Scope Z_scope.

(** ** Errors *)

(** What is read of a [reqwest::Error]. *)
Record HttpError := mkHttpError {
  is_timeout : bool;
  is_connect : bool;
  response_status : option Z;
}.

Inductive LlmError :=
  | Http (e : HttpError)
  | Provider (status : Z) (body : string) (retry_after : option Z)
  | Serde (message : string)
  | UnexpectedShape (message : string)
  | TruncatedResponse (model : string) (completion_tokens : option Z)
  | EmptyContent (model : string)
  | NotConfigured (message : string)
  | Auth (message : string)
  | CapacityBusy (what : string)
  | Schema (message : string)
  | AllCandidatesFailed (attempted : nat) (summary : string).

Definition status_is_transient (status : Z) : bool :=
  (status =? 429) || (500 <=? status) && (status <=? 599).

Definition is_transient (e : LlmError) : bool :=
  match e with
  | Provider status _ _ => status_is_transient status
  | Http e => is_timeout e || is_connect e
  | _ => false
  end.

Definition http_status (e : LlmError) : option Z :=
  match e with
  | Http e => response_status e
  | Provider status _ _ => Some status
  | _ => None
  end.

Definition retry_after_of (e : LlmError) : option Z :=
  match e with Provider _ _ retry_after => retry_after | _ => None end.

Definition error_class (e : LlmError) : string :=
  match e with
  | Http _ => "http"
  | Provider _ _ _ => "provider"
  | Serde _ => "serde"
  | UnexpectedShape _ => "unexpected-shape"
  | TruncatedResponse _ _ => "truncated-response"
  | EmptyContent _ => "empty-content"
  | NotConfigured _ => "not-configured"
  | Auth _ => "auth"
  | CapacityBusy _ => "capacity-busy"
  | Schema _ => "schema"
  | AllCandidatesFailed _ _ => "all-candidates-failed"
  end.

(** ** The chain *)

Definition SECOND : Z := 1000000000.
Definition CIRCUIT_COOLDOWN : Z := 30 * SECOND.
Definition MAX_CIRCUIT_COOLDOWN : Z := 60 * 60 * SECOND.

Record Candidate := mkCandidate { provider : string; model : string }.

Record CandidateState := mkCandidateState {
  last_success_at : option Z;
  last_error_at : option Z;
  last_error_status : option Z;
  last_error_class : option string;
  circuit_open_until : option Z;
}.

Definition fresh_state : CandidateState := mkCandidateState None None None None None.

Record Chain := mkChain {
  entries : list (Candidate * CandidateState);
  last_selected : option nat;
}.

(** [FallbackLlmProvider::new]. *)
Definition new_chain (candidates : list Candidate) : Chain :=
  mkChain ((λ c, (c, fresh_state)) <$> candidates) None.

Definition state_at (chain : Chain) (index : nat) : CandidateState :=
  match entries chain !! index with Some (_, s) => s | None => fresh_state end.

Definition update_state (index : nat) (f : CandidateState → CandidateState) (chain : Chain) : Chain :=
  mkChain (alter (λ e, (fst e, f (snd e))) index (entries chain)) (last_selected chain).

(** [matches!(until, Some(until) if now < until)]. *)
Definition opens_after (now : Z) (until : option Z) : bool :=
  match until with Some until => now <? until | None => false end.

Definition circuit_open (chain : Chain) (index : nat) (now : Z) : bool :=
  opens_after now (circuit_open_until (state_at chain index)).

(** [record_success], first lock: the candidate's own state. *)
Definition mark_success (timestamp : Z) (s : CandidateState) : CandidateState :=
  mkCandidateState (Some timestamp) (last_error_at s) (last_error_status s) (last_error_class s) None.

(** Second lock: which candidate answered; true when that changed and is
    logged. *)
Definition select (index : nat) (chain : Chain) : Chain * bool :=
  (mkChain (entries chain) (Some index),
   match last_selected chain with
   | Some previous => negb (previous =? index)%nat
   | None => (0 <? index)%nat
   end).

Definition cooldown_of (err : LlmError) : option Z :=
  if is_transient err
  then Some (Z.min (Z.max (default CIRCUIT_COOLDOWN (retry_after_of err)) CIRCUIT_COOLDOWN)
               MAX_CIRCUIT_COOLDOWN)
  else None.

(** [record_error]: one lock, with the wall clock and the instant its cooldown
    starts from. *)
Definition mark_error (err : LlmError) (timestamp now : Z) (s : CandidateState) : CandidateState :=
  mkCandidateState (last_success_at s) (Some timestamp) (http_status err) (Some (error_class err))
    match cooldown_of err with
    | Some cooldown => Some (now + cooldown)
    | None => circuit_open_until s
    end.

(** The warning of a failure that opens a closed circuit. *)
Definition should_log_transient (err : LlmError) (now : Z) (s : CandidateState) : bool :=
  is_transient err && negb (opens_after now (circuit_open_until s)).

(** ** Transitions of the shared state *)

Inductive Event :=
  | EvSuccess (index : nat) (timestamp : Z)
  | EvSelect (index : nat)
  | EvError (index : nat) (err : LlmError) (timestamp now : Z).

Definition apply_event (chain : Chain) (ev : Event) : Chain :=
  match ev with
  | EvSuccess index timestamp => update_state index (mark_success timestamp) chain
  | EvSelect index => fst (select index chain)
  | EvError index err timestamp now => update_state index (mark_error err timestamp now) chain
  end.

Definition apply_events (chain : Chain) (evs : list Event) : Chain := foldl apply_event chain evs.

(** ** Failure summary *)

Definition failure_label (c : Candidate) (class : string) (status : option Z) : string :=
  provider c +:+ "/" +:+ model c +:+ ": " +:+ class
  +:+ match status with Some status => " " +:+ pretty status | None => "" end.

Definition describe_failure (c : Candidate) (err : LlmError) : string :=
  failure_label c (error_class err) (http_status err).

(** [summary.join("; ")]. *)
Fixpoint join_summary (l : list string) : string :=
  match l with
  | [] => ""
  | [x] => x
  | x :: l' => x +:+ "; " +:+ join_summary l'
  end.

Definition exhausted (attempted : nat) (summary : list string) : LlmError :=
  AllCandidatesFailed attempted (join_summary summary).

(** ** One call *)

(** The surroundings of one candidate during one call: transitions of other
    calls before each lock, and the clock readings. *)
Record Turn := mkTurn {
  before_check : list Event;
  check_at : Z;
  before_record : list Event;
  recorded_at : Z;
  record_instant : Z;
  before_select : list Event;
}.

Section Call.
Context {R : Type}.
(** What candidate [i] answers, when it is asked. *)
Variable ask : nat → result R LlmError.
Variable turn : nat → Turn.

(** [record_success]. *)
Definition record_success (i : nat) (chain : Chain) : Chain :=
  let chain := apply_events chain (before_record (turn i)) in
  let chain := apply_event chain (EvSuccess i (recorded_at (turn i))) in
  let chain := apply_events chain (before_select (turn i)) in
  apply_event chain (EvSelect i).

Definition record_error (i : nat) (err : LlmError) (chain : Chain) : Chain :=
  let chain := apply_events chain (before_record (turn i)) in
  apply_event chain (EvError i err (recorded_at (turn i)) (record_instant (turn i))).

(** The loop of the four entry points from candidate [i] on. *)
Fixpoint call_from (candidates : list Candidate) (i attempted : nat) (summary : list string)
    (chain : Chain) : Chain * result R LlmError :=
  match candidates with
  | [] => (chain, Err (exhausted attempted summary))
  | c :: candidates' =>
      let chain := apply_events chain (before_check (turn i)) in
      if circuit_open chain i (check_at (turn i))
      then call_from candidates' (S i) attempted summary chain
      else
        match ask i with
        | Ok response => (record_success i chain, Ok response)
        | Err err =>
            let chain := record_error i err chain in
            if is_transient err
            then call_from candidates' (S i) (S attempted) (summary ++ [describe_failure c err]) chain
            else (chain, Err err)
        end
  end.

Definition call_chain (chain : Chain) : Chain * result R LlmError :=
  call_from (fst <$> entries chain) 0 0 [] chain.
End Call.

(** ** The four entry points *)

(** A provider during one call: what it would answer to each request. *)
Record LlmProvider (Request Schema Operation Response Value : Type) := mkLlmProvider {
  in_complete : Request → result Response LlmError;
  in_complete_with_operation_id : Request → Operation → result Response LlmError;
  in_complete_structured_raw : Request → Schema → result Value LlmError;
  in_complete_structured_raw_with_operation_id :
    Request → Schema → Operation → result Value LlmError;
}.

Arguments in_complete {_ _ _ _ _}.
Arguments in_complete_with_operation_id {_ _ _ _ _}.
Arguments in_complete_structured_raw {_ _ _ _ _}.
Arguments in_complete_structured_raw_with_operation_id {_ _ _ _ _}.

Section EntryPoints.
Context {Request Schema Operation Response Value : Type}.
Variable inner : nat → LlmProvider Request Schema Operation Response Value.
Variable turn : nat → Turn.

Definition complete (chain : Chain) (request : Request) : Chain * result Response LlmError :=
  call_chain (λ i, in_complete (inner i) request) turn chain.

Definition complete_with_operation_id (chain : Chain) (request : Request) (op : Operation)
    : Chain * result Response LlmError :=
  call_chain (λ i, in_complete_with_operation_id (inner i) request op) turn chain.

Definition complete_structured_raw (chain : Chain) (request : Request) (schema : Schema)
    : Chain * result Value LlmError :=
  call_chain (λ i, in_complete_structured_raw (inner i) request schema) turn chain.

Definition complete_structured_raw_with_operation_id (chain : Chain) (request : Request)
    (schema : Schema) (op : Operation) : Chain * result Value LlmError :=
  call_chain (λ i, in_complete_structured_raw_with_operation_id (inner i) request schema op)
    turn chain.
End EntryPoints.

(** ** Health *)

Record CandidateHealth := mkCandidateHealth {
  h_provider : string;
  h_model : string;
  h_last_selected : bool;
  h_last_success_at : option Z;
  h_last_error_at : option Z;
  h_last_error_status : option Z;
  h_last_error_class : option string;
  h_circuit_open_until : option Z;
}.

(** [selected] is read first; [clock i] is the instant and the timestamp read
    under candidate [i]'s lock. *)
Definition health_of (selected : option nat) (clock : nat → Z * Z) (i : nat)
    (e : Candidate * CandidateState) : CandidateHealth :=
  let '(c, s) := e in
  let '(now, timestamp) := clock i in
  mkCandidateHealth (provider c) (model c) (bool_decide (selected = Some i))
    (last_success_at s) (last_error_at s) (last_error_status s) (last_error_class s)
    match circuit_open_until s with
    | Some until => if now <? until then Some (timestamp + (until - now)) else None
    | None => None
    end.

Definition candidate_health (clock : nat → Z * Z) (chain : Chain) : list CandidateHealth :=
  imap (health_of (last_selected chain) clock) (entries chain).

(** [name] and [model] of the chain as a provider. *)
Definition chain_name (chain : Chain) : string :=
  match entries chain with (c, _) :: _ => provider c | [] => "fallback-chain-empty" end.

Definition chain_model (chain : Chain) : string :=
  match entries chain with (c, _) :: _ => model c | [] => "" end.
