(* ===== verification/LlmFallbackFacts.v ===== *)
(** * What the provider chain guarantees

    A call returns the answer of the first candidate in declaration order that
    is eligible and does not fail transiently, whatever concurrent calls do to
    the circuits; a circuit is open exactly during the cooldown of the
    candidate's latest transient failure, so no candidate is skipped for more
    than an hour. *)

From S2P Require Export LlmFallback.

Local Open Scope Z_scope.

(** ** States and transitions *)

Lemma state_at_update chain i j f :
  state_at (update_state i f chain) j
  = if decide (i = j ∧ (j < length (entries chain))%nat) then f (state_at chain j) else state_at chain j.
Proof.
  unfold state_at, update_state. cbn [entries]. rewrite list_lookup_alter.
  destruct (decide (i = j)) as [->|Hne].
  - destruct (entries chain !! j) as [[c s]|] eqn:E; simpl.
    + apply lookup_lt_Some in E. by rewrite decide_True.
    + apply lookup_ge_None_1 in E. rewrite decide_False by lia. done.
  - by rewrite (decide_False (P := _ ∧ _)) by tauto.
Qed.

Lemma length_apply_event chain ev : length (entries (apply_event chain ev)) = length (entries chain).
Proof. destruct ev; simpl; by rewrite ?length_alter. Qed.

Lemma length_apply_events chain evs : length (entries (apply_events chain evs)) = length (entries chain).
Proof.
  revert chain; induction evs as [|ev evs IH]; intros chain; [done|].
  cbn [apply_events foldl]. etrans; [apply IH|]. apply length_apply_event.
Qed.

Lemma apply_events_app chain l l' : apply_events chain (l ++ l') = apply_events (apply_events chain l) l'.
Proof. apply foldl_app. Qed.

(** The effect of one transition on one candidate's state. *)
Definition on_state (ev : Event) (i : nat) (s : CandidateState) : CandidateState :=
  match ev with
  | EvSuccess j timestamp => if decide (j = i) then mark_success timestamp s else s
  | EvError j err timestamp now => if decide (j = i) then mark_error err timestamp now s else s
  | EvSelect _ => s
  end.

Lemma state_at_event chain ev i :
  (i < length (entries chain))%nat → state_at (apply_event chain ev) i = on_state ev i (state_at chain i).
Proof.
  intros Hi. destruct ev as [j ts|j|j err ts now]; cbn [apply_event on_state]; [|done|];
    rewrite state_at_update; destruct (decide (j = i)) as [->|];
    by rewrite ?decide_True, ?decide_False by tauto.
Qed.

Lemma state_at_events chain evs i :
  (i < length (entries chain))%nat →
  state_at (apply_events chain evs) i = foldl (λ s ev, on_state ev i s) (state_at chain i) evs.
Proof.
  revert chain; induction evs as [|ev evs IH]; intros chain Hi; [done|].
  cbn [apply_events foldl]. fold (apply_events (apply_event chain ev) evs).
  rewrite IH by by rewrite length_apply_event. by rewrite state_at_event.
Qed.

Lemma state_at_new cs i : state_at (new_chain cs) i = fresh_state.
Proof. unfold state_at, new_chain. cbn [entries]. rewrite list_lookup_fmap. by destruct (cs !! i). Qed.

(** ** Circuits *)

Lemma cooldown_bounds err c :
  cooldown_of err = Some c →
  CIRCUIT_COOLDOWN ≤ c ≤ MAX_CIRCUIT_COOLDOWN ∧
  ∀ hint, retry_after_of err = Some hint → Z.min hint MAX_CIRCUIT_COOLDOWN ≤ c.
Proof.
  unfold cooldown_of, CIRCUIT_COOLDOWN, MAX_CIRCUIT_COOLDOWN, SECOND.
  destruct (is_transient err); [|done]. intros [= <-]. split; [lia|].
  intros hint ->. simpl. lia.
Qed.

(** The transition decides the circuit of candidate [i]. *)
Definition settles (i : nat) (ev : Event) : Prop :=
  match ev with
  | EvSuccess j _ => j = i
  | EvError j err _ _ => j = i ∧ is_transient err = true
  | EvSelect _ => False
  end.

#[export] Instance settles_dec i ev : Decision (settles i ev).
Proof. destruct ev; simpl; apply _. Defined.

Lemma circuit_unsettled i ev s :
  ¬ settles i ev → circuit_open_until (on_state ev i s) = circuit_open_until s.
Proof.
  destruct ev as [j ts|j|j err ts now]; simpl; [|done|].
  - intros H. by rewrite decide_False.
  - intros H. destruct (decide (j = i)) as [->|]; [|done]. simpl. unfold cooldown_of.
    destruct (is_transient err); [by destruct H|done].
Qed.

(** A circuit is open exactly during the cooldown of the latest transient
    failure not followed by a success. *)
Lemma circuit_open_iff cs evs i t :
  (i < length cs)%nat →
  circuit_open (apply_events (new_chain cs) evs) i t = true ↔
  ∃ pre err timestamp now post c,
    evs = pre ++ EvError i err timestamp now :: post ∧ Forall (λ ev, ¬ settles i ev) post ∧
    cooldown_of err = Some c ∧ t < now + c.
Proof.
  intros Hi. unfold circuit_open.
  assert (Hl : (i < length (entries (new_chain cs)))%nat) by by (simpl; rewrite length_fmap).
  induction evs as [|ev evs IH] using rev_ind.
  { simpl. rewrite state_at_new. split; [done|]. by intros ([] & ? & ? & ? & ? & ? & ? & _). }
  rewrite apply_events_app. cbn [apply_events foldl]. fold (apply_events (new_chain cs) evs).
  rewrite state_at_event by by rewrite length_apply_events.
  destruct (decide (settles i ev)) as [Hs|Hs].
  - split.
    + destruct ev as [j ts|j|j err ts now]; simpl in Hs; [subst| done |destruct Hs as [-> Ht]];
        cbn [on_state]; rewrite decide_True by done; [done|].
      simpl. destruct (cooldown_of err) as [c|] eqn:Ec; [|by unfold cooldown_of in Ec; rewrite Ht in Ec].
      intros H%Z.ltb_lt. exists evs, err, ts, now, [], c. by repeat split; try constructor.
    + intros (pre & err & ts & now & post & c & E & Hp & Hc & Ht).
      destruct post as [|x post _] using rev_ind.
      * apply app_inj_tail in E as [-> ->]. cbn [on_state]. rewrite decide_True by done. simpl.
        rewrite Hc. by apply Z.ltb_lt.
      * rewrite app_comm_cons, app_assoc in E. apply app_inj_tail in E as [_ ->].
        by apply Forall_app in Hp as [_ [Hx _]%Forall_cons].
  - rewrite circuit_unsettled by done. rewrite IH. split.
    + intros (pre & err & ts & now & post & c & -> & Hp & Hc).
      exists pre, err, ts, now, (post ++ [ev]), c. split; [by rewrite <- app_assoc|].
      split; [|done]. apply Forall_app. by repeat constructor.
    + intros (pre & err & ts & now & post & c & E & Hp & Hc & Ht).
      destruct post as [|x post _] using rev_ind.
      * apply app_inj_tail in E as [-> ->]. destruct Hs. split; [done|].
        unfold cooldown_of in Hc. by destruct (is_transient err).
      * rewrite app_comm_cons, app_assoc in E. apply app_inj_tail in E as [-> ->].
        apply Forall_app in Hp as [Hp _]. by exists pre, err, ts, now, post, c.
Qed.

(** Every failure of candidate [i] was recorded by [limit]. *)
Definition failures_of (i : nat) (limit : Z) (evs : list Event) : Prop :=
  Forall (λ ev, match ev with EvError j _ _ now => j = i → now ≤ limit | _ => True end) evs.

Lemma circuit_closes cs evs i limit t :
  (i < length cs)%nat → failures_of i limit evs → limit + MAX_CIRCUIT_COOLDOWN ≤ t →
  circuit_open (apply_events (new_chain cs) evs) i t = false.
Proof.
  intros Hi Hf Ht. apply not_true_iff_false. rewrite circuit_open_iff by done.
  intros (pre & err & ts & now & post & c & -> & _ & Hc & Hlt).
  apply cooldown_bounds in Hc as [Hc _].
  apply Forall_app in Hf as [_ [Hn _]%Forall_cons]. specialize (Hn eq_refl). lia.
Qed.

(** ** What a call sees *)

(** Agreement from candidate [i] on: all a call still reads. *)
Definition agree_from (i : nat) (c d : Chain) : Prop :=
  length (entries c) = length (entries d) ∧ ∀ j, (i ≤ j)%nat → state_at c j = state_at d j.

Lemma agree_refl i c : agree_from i c c.
Proof. by split. Qed.

Lemma agree_event i c d ev : agree_from i c d → agree_from i (apply_event c ev) (apply_event d ev).
Proof.
  intros [Hl Hs]. split; [by rewrite !length_apply_event|]. intros j Hj.
  destruct ev as [k ts|k|k err ts now]; cbn [apply_event]; [|by apply Hs|];
    by rewrite !state_at_update, Hl, Hs.
Qed.

Lemma agree_events i c d evs : agree_from i c d → agree_from i (apply_events c evs) (apply_events d evs).
Proof.
  revert c d; induction evs as [|ev evs IH]; intros c d H; [done|]. by apply IH, agree_event.
Qed.

(** A call's own failure record concerns a candidate it is done with. *)
Lemma agree_own i c d err ts now :
  agree_from i c d → agree_from (S i) (apply_event c (EvError i err ts now)) d.
Proof.
  intros [Hl Hs]. split; [by rewrite length_apply_event|]. intros j Hj.
  cbn [apply_event]. rewrite state_at_update, decide_False by lia. apply Hs. lia.
Qed.

(** The transitions of other calls between the start of a call and its check
    of candidate [i], when it asked the candidates [asked]. *)
Fixpoint seen_before (turn : nat → Turn) (asked : list nat) (i : nat) : list Event :=
  match i with
  | O => []
  | S i' => seen_before turn asked i' ++ before_check (turn i')
            ++ (if decide (i' ∈ asked) then before_record (turn i') else [])
  end.

Definition seen (turn : nat → Turn) (asked : list nat) (i : nat) : list Event :=
  seen_before turn asked i ++ before_check (turn i).

Lemma seen_before_agree turn asked asked' i :
  (∀ j, (j < i)%nat → j ∈ asked ↔ j ∈ asked') → seen_before turn asked i = seen_before turn asked' i.
Proof.
  induction i as [|i IH]; intros H; [done|]. cbn [seen_before]. rewrite IH by (intros; apply H; lia).
  do 2 f_equal. destruct (H i) as [H1 H2]; [lia|].
  destruct (decide (i ∈ asked)), (decide (i ∈ asked')); tauto.
Qed.

(** The circuit of candidate [i] when the call reaches it. *)
Definition closed_at (turn : nat → Turn) (chain : Chain) (asked : list nat) (i : nat) : Prop :=
  circuit_open (apply_events chain (seen turn asked i)) i (check_at (turn i)) = false.

(** The summary line of an asked candidate that failed. *)
Definition failure_line {R} (candidates : list Candidate) (ask : nat → result R LlmError) (i : nat)
    : option string :=
  match candidates !! i, ask i with
  | Some c, Err err => Some (failure_label c (error_class err) (http_status err))
  | _, _ => None
  end.

Definition failed_transiently {R} (ask : nat → result R LlmError) (i : nat) : Prop :=
  ∃ err, ask i = Err err ∧ is_transient err = true.

(** How a call ends at candidate [stop], having asked [asked]. *)
Inductive ends_with_answer {R} (candidates : list Candidate) (ask : nat → result R LlmError)
    (asked : list nat) : nat → result R LlmError → Prop :=
  | ends_settled before k r :
      asked = before ++ [k] → ask k = r → ¬ failed_transiently ask k →
      Forall (failed_transiently ask) before →
      ends_with_answer candidates ask asked (S k) r
  | ends_exhausted :
      Forall (failed_transiently ask) asked →
      ends_with_answer candidates ask asked (length candidates)
        (Err (AllCandidatesFailed (length asked) (join_summary (omap (failure_line candidates ask) asked)))).

Section CallFacts.
Context {R : Type} (ask : nat → result R LlmError) (turn : nat → Turn).
Variable chain : Chain.
Variable candidates : list Candidate.

(** A call at candidate [i], having asked [asked], in state [now]. *)
Record call_at (i : nat) (asked : list nat) (now : Chain) : Prop := {
  at_ascending : ascending asked;
  at_below : Forall (λ j, (j < i)%nat) asked;
  at_failed : Forall (failed_transiently ask) asked;
  at_state : agree_from i now (apply_events chain (seen_before turn asked i));
  at_checked : ∀ j, (j < i)%nat → j ∈ asked ↔ closed_at turn chain asked j;
}.

Lemma call_at_start : call_at 0 [] chain.
Proof. split; [constructor..|apply agree_refl|]. intros; lia. Qed.

Lemma ascending_snoc l n : ascending l → Forall (λ j, (j < n)%nat) l → ascending (l ++ [n]).
Proof.
  induction 1 as [|x l Hx Hl IH]; intros Hn; [repeat constructor|].
  inversion Hn; subst. simpl. constructor; [|auto]. apply Forall_app. by repeat constructor.
Qed.

(** The state at the check of candidate [i], and whether it is asked. *)
Lemma call_at_check i asked now :
  call_at i asked now →
  let now' := apply_events now (before_check (turn i)) in
  agree_from i now' (apply_events chain (seen turn asked i)) ∧
  (closed_at turn chain asked i ↔ circuit_open now' i (check_at (turn i)) = false).
Proof.
  intros H now'. assert (Ha : agree_from i now' (apply_events chain (seen turn asked i))).
  { unfold now', seen. rewrite apply_events_app. apply agree_events, H. }
  split; [done|]. unfold closed_at, circuit_open. by rewrite (proj2 Ha) by lia.
Qed.

Lemma seen_below i j asked : (j ≤ i)%nat → seen turn (asked ++ [i]) j = seen turn asked j.
Proof.
  intros Hj. unfold seen. f_equal. apply seen_before_agree. intros k Hk.
  rewrite elem_of_app, list_elem_of_singleton. split; [intros [?|?]; [done|lia]|by left].
Qed.

Lemma closed_below i j asked :
  (j ≤ i)%nat → closed_at turn chain (asked ++ [i]) j ↔ closed_at turn chain asked j.
Proof. intros Hj. unfold closed_at. by rewrite seen_below. Qed.

Lemma call_at_skip i asked now :
  call_at i asked now →
  let now' := apply_events now (before_check (turn i)) in
  circuit_open now' i (check_at (turn i)) = true → call_at (S i) asked now'.
Proof.
  intros H now' Ho. destruct (call_at_check _ _ _ H) as [Ha Hc]. fold now' in Ha, Hc.
  assert (Hn : i ∉ asked).
  { intros Hi. pose proof (at_below _ _ _ H) as Hb. rewrite Forall_forall in Hb. apply Hb in Hi. lia. }
  destruct H as [H1 H2 H3 H4 H5]. split; [done| |done| |].
  - eapply Forall_impl; [exact H2|]. simpl. lia.
  - cbn [seen_before]. rewrite decide_False by done. rewrite app_nil_r. fold (seen turn asked i).
    destruct Ha as [Hl Hs]. split; [done|]. intros j Hj. apply Hs. lia.
  - intros j Hj. destruct (decide (j = i)) as [->|]; [|apply H5; lia].
    rewrite Hc, Ho. split; [done|discriminate].
Qed.

(** The candidates a call has asked once it asks candidate [i]. *)
Lemma call_at_ask i asked now :
  call_at i asked now →
  circuit_open (apply_events now (before_check (turn i))) i (check_at (turn i)) = false →
  ascending (asked ++ [i]) ∧
  ∀ j, (j < S i)%nat → j ∈ asked ++ [i] ↔ closed_at turn chain (asked ++ [i]) j.
Proof.
  intros H Ho. destruct (call_at_check _ _ _ H) as [_ Hc]. destruct H as [H1 H2 _ _ H5].
  split; [by apply ascending_snoc|]. intros j Hj. rewrite closed_below by lia.
  rewrite elem_of_app, list_elem_of_singleton.
  destruct (decide (j = i)) as [->|]; [tauto|]. rewrite <- H5 by lia. intuition lia.
Qed.

Lemma call_at_failed i asked now err :
  call_at i asked now →
  circuit_open (apply_events now (before_check (turn i))) i (check_at (turn i)) = false →
  ask i = Err err → is_transient err = true →
  call_at (S i) (asked ++ [i])
    (record_error turn i err (apply_events now (before_check (turn i)))).
Proof.
  intros H Ho Hask Htr. destruct (call_at_ask _ _ _ H Ho) as [Hasc Hel].
  destruct (call_at_check _ _ _ H) as [Ha _]. destruct H as [H1 H2 H3 H4 H5].
  split; [done| | | |done].
  - apply Forall_app. split; [|repeat constructor]. eapply Forall_impl; [exact H2|]. simpl. lia.
  - apply Forall_app. split; [done|]. constructor; [|constructor]. by exists err.
  - unfold record_error. apply agree_own. cbn [seen_before].
    rewrite decide_True by (apply elem_of_app; right; by apply list_elem_of_singleton).
    rewrite app_assoc, apply_events_app. fold (seen turn (asked ++ [i]) i).
    rewrite seen_below by lia. by apply agree_events.
Qed.

Lemma call_from_spec rest i asked summary now :
  drop i candidates = rest → call_at i asked now →
  summary = omap (failure_line candidates ask) asked →
  (i ≤ length candidates)%nat →
  ∃ asked' stop, ends_with_answer candidates ask asked' stop
      (snd (call_from ask turn rest i (length asked) summary now)) ∧
    ascending asked' ∧ (stop ≤ length candidates)%nat ∧ Forall (λ j, (j < stop)%nat) asked' ∧
    ∀ j, (j < stop)%nat → j ∈ asked' ↔ closed_at turn chain asked' j.
Proof.
  revert i asked summary now; induction rest as [|c rest IH]; intros i asked summary now Hd Hat Hsum Hi.
  { assert (i = length candidates) as ->.
    { apply (f_equal length) in Hd. rewrite length_drop in Hd. simpl in Hd. lia. }
    exists asked, (length candidates). simpl. unfold exhausted. rewrite Hsum.
    split; [constructor; apply Hat|]. destruct Hat; auto. }
  assert (Hc : candidates !! i = Some c) by (rewrite <- (Nat.add_0_r i), <- lookup_drop, Hd; done).
  assert (Hd' : drop (S i) candidates = rest).
  { rewrite <- (Nat.add_1_r i), <- drop_drop, Hd. done. }
  assert (Hi' : (S i ≤ length candidates)%nat) by (apply lookup_lt_Some in Hc; lia).
  cbn [call_from]. destruct (circuit_open _ i _) eqn:Ho.
  { apply IH; [done| |done|lia]. by apply call_at_skip. }
  destruct (call_at_ask _ _ _ Hat Ho) as [Hasc Hel].
  assert (Hstop : ∀ r, ask i = r → ¬ failed_transiently ask i → ∃ asked' stop,
    ends_with_answer candidates ask asked' stop r ∧
    ascending asked' ∧ (stop ≤ length candidates)%nat ∧ Forall (λ j, (j < stop)%nat) asked' ∧
    ∀ j, (j < stop)%nat → j ∈ asked' ↔ closed_at turn chain asked' j).
  { intros r Hr Hn. exists (asked ++ [i]), (S i). split_and!; [|done|lia| |done].
    - by eapply ends_settled; [|done|done|apply Hat].
    - apply Forall_app. split; [|repeat constructor]. eapply Forall_impl; [apply Hat|]. simpl. lia. }
  destruct (ask i) as [r|err] eqn:Ha; simpl.
  { apply Hstop; [done|]. intros (? & ? & _). congruence. }
  destruct (is_transient err) eqn:Ht.
  - replace (S (length asked)) with (length (asked ++ [i])) by (rewrite length_app; simpl; lia).
    apply IH; [done|by apply call_at_failed| |lia].
    rewrite Hsum, omap_app. f_equal. simpl. unfold failure_line. by rewrite Hc, Ha.
  - apply Hstop; [done|]. intros (? & ? & ?). simplify_eq. congruence.
Qed.
End CallFacts.

(** How a call of the chain ends. *)
Lemma call_chain_spec {R} (ask : nat → result R LlmError) turn chain :
  let candidates := fst <$> entries chain in
  ∃ asked stop,
    ends_with_answer candidates ask asked stop (snd (call_chain ask turn chain)) ∧
    ascending asked ∧ (stop ≤ length candidates)%nat ∧ Forall (λ j, (j < stop)%nat) asked ∧
    ∀ j, (j < stop)%nat → j ∈ asked ↔ closed_at turn chain asked j.
Proof.
  intros candidates. unfold call_chain.
  apply (call_from_spec ask turn chain candidates candidates 0 [] []); [done| |done|lia].
  apply call_at_start.
Qed.

(** C33. A call tries the candidates in declaration order, each at most once,
    and asks exactly those whose circuit is closed when it reaches them,
    whatever transitions concurrent calls make meanwhile: it returns the first
    answer that is not a transient failure, a deterministic error included,
    and after the last candidate an error that counts the asked ones and
    names, for each, only labels, error class and HTTP status. *)
Theorem call_returns_first_settled {R} (ask : nat → result R LlmError) turn chain :
  let candidates := fst <$> entries chain in
  ∃ asked stop,
    ends_with_answer candidates ask asked stop (snd (call_chain ask turn chain)) ∧
    ascending asked ∧ (stop ≤ length candidates)%nat ∧ Forall (λ j, (j < stop)%nat) asked ∧
    ∀ j, (j < stop)%nat → j ∈ asked ↔ closed_at turn chain asked j.
Proof. apply call_chain_spec. Qed.

(** What a call leaves behind is a sequence of the same transitions. *)
Lemma call_is_events {R} (ask : nat → result R LlmError) turn candidates i attempted summary chain :
  ∃ evs, fst (call_from ask turn candidates i attempted summary chain) = apply_events chain evs.
Proof.
  revert i attempted summary chain; induction candidates as [|c rest IH]; intros i attempted summary chain.
  { by exists []. }
  cbn [call_from]. destruct (circuit_open _ i _).
  { destruct (IH (S i) attempted summary (apply_events chain (before_check (turn i)))) as [evs ->].
    exists (before_check (turn i) ++ evs). by rewrite apply_events_app. }
  destruct (ask i) as [r|err].
  { exists (before_check (turn i) ++ before_record (turn i) ++ [EvSuccess i (recorded_at (turn i))]
            ++ before_select (turn i) ++ [EvSelect i]).
    by rewrite !apply_events_app. }
  set (own := before_check (turn i) ++ before_record (turn i)
                ++ [EvError i err (recorded_at (turn i)) (record_instant (turn i))]).
  assert (Hown : record_error turn i err (apply_events chain (before_check (turn i)))
                 = apply_events chain own) by (unfold own; by rewrite !apply_events_app).
  rewrite Hown. destruct (is_transient err); [|by exists own].
  destruct (IH (S i) (S attempted) (summary ++ [describe_failure c err]) (apply_events chain own))
    as [evs ->].
  exists (own ++ evs). by rewrite apply_events_app.
Qed.

Lemma failures_seen turn asked i k limit :
  (∀ j, failures_of k limit (before_check (turn j)) ∧ failures_of k limit (before_record (turn j))) →
  failures_of k limit (seen turn asked i).
Proof.
  intros H. apply Forall_app. split; [|apply H].
  induction i as [|i IH]; [constructor|]. cbn [seen_before]. unfold failures_of in *.
  rewrite !Forall_app. split_and!; [done|apply H|]. destruct (decide (i ∈ asked)); [apply H|constructor].
Qed.

(** No candidate is starved: in a chain reached by any history, a
    candidate whose failures all lie an hour back is asked again when a call
    reaches it, so if it does not fail transiently the call returns its answer
    or an earlier candidate's, whatever the other candidates and concurrent
    calls do. *)
Theorem rested_candidate_answers {R} (ask : nat → result R LlmError) turn cs evs k limit :
  (k < length cs)%nat → failures_of k limit evs →
  (∀ j, failures_of k limit (before_check (turn j)) ∧ failures_of k limit (before_record (turn j))) →
  limit + MAX_CIRCUIT_COOLDOWN ≤ check_at (turn k) →
  ¬ failed_transiently ask k →
  ∃ j, (j ≤ k)%nat ∧ snd (call_chain ask turn (apply_events (new_chain cs) evs)) = ask j ∧
    ¬ failed_transiently ask j.
Proof.
  intros Hk Hf Ho Ht Hn. set (chain := apply_events (new_chain cs) evs).
  destruct (call_chain_spec ask turn chain) as (asked & stop & He & Hasc & Hs & Hb & Hc).
  assert (Hl : length (fst <$> entries chain) = length cs).
  { rewrite length_fmap. unfold chain. rewrite length_apply_events. simpl. by rewrite length_fmap. }
  assert (Hclosed : closed_at turn chain asked k).
  { unfold closed_at, chain. rewrite <- apply_events_app. eapply circuit_closes; [done| |done].
    apply Forall_app. split; [done|]. by apply failures_seen. }
  assert (Hasked : (k < stop)%nat → k ∈ asked) by (intros; by apply Hc).
  destruct He as [before j r -> Hr Hj Hbefore|Hall].
  - exists j. rewrite <- Hr. split; [|done]. apply Nat.nlt_ge. intros Hlt.
    assert (k ∈ before ++ [j]) as [Hin | ->%list_elem_of_singleton]%elem_of_app.
    + apply Hc; [|done].
      assert (j ∈ before ++ [j]) as Hin by (apply elem_of_app; right; by apply list_elem_of_singleton).
      lia.
    + rewrite Forall_forall in Hbefore. by destruct Hn; apply Hbefore.
    + lia.
  - destruct Hn. rewrite Forall_forall in Hall. apply Hall, Hasked. lia.
Qed.

(** Health reports a circuit as open exactly when a call would skip it. *)
Lemma health_reports_circuit selected clock i c s :
  is_Some (h_circuit_open_until (health_of selected clock i (c, s))) ↔
  opens_after (fst (clock i)) (circuit_open_until s) = true.
Proof.
  unfold health_of. destruct (clock i) as [now ts]. simpl. unfold opens_after.
  destruct (circuit_open_until s) as [until|]; [destruct (now <? until)|];
    (split; [by intros [? ?]|done || eauto]).
Qed.

(** The primary asked to be left alone for two hours; after the one-hour
    ceiling it is asked again and answers. *)
Lemma rested_candidate_answers_witness :
  let cs := [mkCandidate "gemini" "flash"; mkCandidate "local" "small"] in
  let evs := [EvError 0 (Provider 429 "slow down" (Some (7200 * SECOND))) 1 0; EvSuccess 1 2; EvSelect 1] in
  let ask (i : nat) : result nat LlmError := Ok i in
  let turn (t : Z) (i : nat) := mkTurn [] t [] 3 t [] in
  snd (call_chain ask (turn (MAX_CIRCUIT_COOLDOWN - 1)) (apply_events (new_chain cs) evs)) = Ok 1%nat ∧
  ∃ j, (j ≤ 0)%nat ∧
    snd (call_chain ask (turn MAX_CIRCUIT_COOLDOWN) (apply_events (new_chain cs) evs)) = ask j ∧
    ¬ failed_transiently ask j.
Proof.
  split; [vm_compute; reflexivity|].
  apply (rested_candidate_answers _ _ _ _ 0%nat 0).
  - simpl. lia.
  - unfold failures_of. rewrite !Forall_cons. split_and!; [done..|constructor].
  - intros j. split; constructor.
  - vm_compute. discriminate.
  - by intros (? & ? & _).
Defined.
