(* ===== verification/ActiveProject.v ===== *)
(** * The shared "active project" pointer

    Models [crates/ai-memory-core/src/active_project.rs]: the keyed map with
    its time-to-live and capacity, and the pointer that the hook router
    publishes to and the tools read.  The pointer is shared by concurrent
    requests; every lock section is one function on the state, and a method is
    the sequence of its sections with arbitrary sections of other threads in
    between ([meanwhile]).  Instants and durations are in nanoseconds;
    workspace and project ids are opaque numbers. *)

From S2P Require Export Prelude.
From stdpp Require Export gmap fin_maps.

Local Open Scope Z_scope.

Definition WorkspaceId := N.
Definition ProjectId := N.

Definition DEFAULT_PER_KEY_TTL : Z := 60 * 60 * 1000000000.
Definition DEFAULT_MAX_ENTRIES : nat := 4096.

Inductive ActiveProjectMode := Single | PerSession | PerActor.

#[export] Instance mode_eq_dec : EqDecision ActiveProjectMode.
Proof. solve_decision. Defined.

Record ActorKey := mkActorKey { user : option string; session_id : option string }.

#[export] Instance actor_key_eq_dec : EqDecision ActorKey.
Proof. solve_decision. Defined.

#[export] Instance actor_key_countable : Countable ActorKey.
Proof.
  refine (inj_countable' (λ k, (user k, session_id k)) (λ p, mkActorKey p.1 p.2) _).
  by intros [].
Defined.

(** [ActorKey::is_empty]. *)
Definition key_is_empty (k : ActorKey) : bool :=
  match user k, session_id k with None, None => true | _, _ => false end.

Inductive ActiveProjectLookup :=
  | Resolved (ws : WorkspaceId) (proj : ProjectId)
  | Mismatch
  | Unset.

Definition from_single (slot : option (WorkspaceId * ProjectId)) : ActiveProjectLookup :=
  match slot with Some (ws, proj) => Resolved ws proj | None => Unset end.

Inductive ReadPointer :=
  | PointerSession (ws : WorkspaceId) (proj : ProjectId)
  | PointerSharedSlot (ws : WorkspaceId) (proj : ProjectId)
  | PointerStartupSeed (ws : WorkspaceId) (proj : ProjectId)
  | PointerMismatch
  | PointerUnset.

Definition pointer_ids (p : ReadPointer) : option (WorkspaceId * ProjectId) :=
  match p with
  | PointerSession ws proj | PointerSharedSlot ws proj | PointerStartupSeed ws proj => Some (ws, proj)
  | PointerMismatch | PointerUnset => None
  end.

(** ** The keyed map *)

Record Entry := mkEntry {
  e_ws : WorkspaceId;
  e_proj : ProjectId;
  e_default_global : bool;
  e_inserted : Z;
}.

Abbreviation Entries := (gmap ActorKey Entry).

Record PerActorMap := mkPerActorMap { keyed : Entries; ttl : Z; max_entries : nat }.

(** [PerActorMap::new]. *)
Definition new_map (ttl : Z) (max_entries : nat) : PerActorMap :=
  mkPerActorMap ∅ (if ttl =? 0 then DEFAULT_PER_KEY_TTL else ttl) (Nat.max max_entries 1).

(** [now.saturating_duration_since(inserted) < ttl]. *)
Definition live (ttl now : Z) (e : Entry) : bool := Z.max (now - e_inserted e) 0 <? ttl.

Definition purge_expired (now : Z) (m : PerActorMap) : PerActorMap :=
  mkPerActorMap (filter (λ ke, live (ttl m) now (snd ke) = true) (keyed m)) (ttl m) (max_entries m).

(** The order in which a [HashMap] is iterated is unspecified. *)
Definition Iteration := Entries → list (ActorKey * Entry).
Definition lawful (iter : Iteration) : Prop := ∀ m, iter m ≡ₚ map_to_list m.

Definition enforce_cap (iter : Iteration) (m : PerActorMap) : PerActorMap :=
  if (size (keyed m) <=? max_entries m)%nat then m
  else
    let excess := (size (keyed m) - max_entries m)%nat in
    let by_age := sort_by_key (λ ke, e_inserted (snd ke)) Z.ltb (iter (keyed m)) in
    mkPerActorMap (foldl (λ entries ke, delete (fst ke) entries) (keyed m) (take excess by_age))
      (ttl m) (max_entries m).

Definition map_insert (iter : Iteration) (key : ActorKey) (ws : WorkspaceId) (proj : ProjectId)
    (default_global : bool) (now : Z) (m : PerActorMap) : PerActorMap :=
  let m := purge_expired now m in
  enforce_cap iter
    (mkPerActorMap (<[key := mkEntry ws proj default_global now]> (keyed m)) (ttl m) (max_entries m)).

Definition map_get (key : ActorKey) (now : Z) (m : PerActorMap)
    : PerActorMap * option (WorkspaceId * ProjectId) :=
  let m := purge_expired now m in
  (m, (λ e, (e_ws e, e_proj e)) <$> keyed m !! key).

Definition map_get_default_global (key : ActorKey) (now : Z) (m : PerActorMap) : PerActorMap * bool :=
  let m := purge_expired now m in
  (m, match keyed m !! key with Some e => e_default_global e | None => false end).

Definition retarget_entry (proj : ProjectId) (ws : WorkspaceId) (e : Entry) : Entry :=
  if decide (e_proj e = proj) then mkEntry ws (e_proj e) (e_default_global e) (e_inserted e) else e.

Definition map_retarget_project (proj : ProjectId) (ws : WorkspaceId) (now : Z) (m : PerActorMap)
    : PerActorMap :=
  let m := purge_expired now m in
  mkPerActorMap (retarget_entry proj ws <$> keyed m) (ttl m) (max_entries m).

Definition map_clear_project (proj : ProjectId) (now : Z) (m : PerActorMap) : PerActorMap :=
  let m := purge_expired now m in
  mkPerActorMap (filter (λ ke, e_proj (snd ke) ≠ proj) (keyed m)) (ttl m) (max_entries m).

Definition map_clear_workspace (ws : WorkspaceId) (now : Z) (m : PerActorMap) : PerActorMap :=
  let m := purge_expired now m in
  mkPerActorMap (filter (λ ke, e_ws (snd ke) ≠ ws) (keyed m)) (ttl m) (max_entries m).

(** [entries.values().any(p)] after a purge. *)
Definition map_contains (p : Entry → bool) (now : Z) (m : PerActorMap) : PerActorMap * bool :=
  let m := purge_expired now m in
  (m, existsb (λ ke, p (snd ke)) (map_to_list (keyed m))).

(** ** The pointer *)

Record ActiveProject := mkActiveProject {
  mode : ActiveProjectMode;
  single : option (WorkspaceId * ProjectId);
  single_default_global : bool;
  per_actor : PerActorMap;
  ever_keyed : bool;
  seeded : option (WorkspaceId * ProjectId);
}.

Definition with_config (mode : ActiveProjectMode) (ttl : Z) (max_entries : nat) : ActiveProject :=
  mkActiveProject mode None false (new_map ttl max_entries) false None.

Definition with_mode (mode : ActiveProjectMode) : ActiveProject :=
  with_config mode DEFAULT_PER_KEY_TTL DEFAULT_MAX_ENTRIES.

Definition new : ActiveProject := with_mode PerActor.

Definition per_key_ttl (s : ActiveProject) : Z := ttl (per_actor s).

(** *** Lock sections *)

Definition set_single (slot : option (WorkspaceId * ProjectId)) (s : ActiveProject) : ActiveProject :=
  mkActiveProject (mode s) slot (single_default_global s) (per_actor s) (ever_keyed s) (seeded s).

Definition set_flag (value : bool) (s : ActiveProject) : ActiveProject :=
  mkActiveProject (mode s) (single s) value (per_actor s) (ever_keyed s) (seeded s).

Definition set_map (m : PerActorMap) (s : ActiveProject) : ActiveProject :=
  mkActiveProject (mode s) (single s) (single_default_global s) m (ever_keyed s) (seeded s).

Definition mark_keyed (s : ActiveProject) : ActiveProject :=
  mkActiveProject (mode s) (single s) (single_default_global s) (per_actor s) true (seeded s).

Definition set_seeded (slot : option (WorkspaceId * ProjectId)) (s : ActiveProject) : ActiveProject :=
  mkActiveProject (mode s) (single s) (single_default_global s) (per_actor s) (ever_keyed s) slot.

(** The coordinates of an actor that the mode uses. *)
Definition scoped_key (mode : ActiveProjectMode) (actor : ActorKey) : ActorKey :=
  match mode with
  | Single => mkActorKey None None
  | PerSession => mkActorKey None (session_id actor)
  | PerActor => actor
  end.

(** The key of the user-only entry that accompanies a publication. *)
Definition identity_key_of (mode : ActiveProjectMode) (actor : ActorKey) : option ActorKey :=
  match mode, user actor, session_id actor with
  | PerActor, Some u, Some _ => Some (mkActorKey (Some u) None)
  | _, _, _ => None
  end.

(** [set_for] under the map's lock. *)
Definition publish_keyed (iter : Iteration) (actor : ActorKey) (ws : WorkspaceId) (proj : ProjectId)
    (default_global : bool) (now1 now2 : Z) (s : ActiveProject) : ActiveProject :=
  let m := match identity_key_of (mode s) actor with
           | Some key => map_insert iter key ws proj default_global now1 (per_actor s)
           | None => per_actor s
           end in
  set_map (map_insert iter (scoped_key (mode s) actor) ws proj default_global now2 m) s.

Definition retarget_slot (proj : ProjectId) (ws : WorkspaceId) (slot : option (WorkspaceId * ProjectId))
    : option (WorkspaceId * ProjectId) :=
  match slot with
  | Some (w, p) => if decide (p = proj) then Some (ws, p) else slot
  | None => None
  end.

Definition clear_slot (p : WorkspaceId * ProjectId → bool) (slot : option (WorkspaceId * ProjectId))
    : option (WorkspaceId * ProjectId) :=
  match slot with Some ids => if p ids then None else slot | None => None end.

(** The mode or the actor leaves no usable coordinate. *)
Definition unusable (s : ActiveProject) (actor : ActorKey) : bool :=
  bool_decide (mode s = Single) || key_is_empty actor || key_is_empty (scoped_key (mode s) actor).

(** *** Methods *)

Section Methods.
(** What other threads do between the [n]-th and the next section. *)
Variable meanwhile : nat → ActiveProject → ActiveProject.

Definition set_for (iter : Iteration) (actor : ActorKey) (ws : WorkspaceId) (proj : ProjectId)
    (default_global : bool) (now1 now2 : Z) (s : ActiveProject) : ActiveProject :=
  let s := set_single (Some (ws, proj)) s in
  let s := set_flag default_global (meanwhile 0 s) in
  if unusable s actor then s
  else
    let s := mark_keyed (meanwhile 1 s) in
    publish_keyed iter actor ws proj default_global now1 now2 (meanwhile 2 s).

Definition set_scoped_for (iter : Iteration) (actor : ActorKey) (ws : WorkspaceId) (proj : ProjectId)
    (default_global : bool) (now : Z) (s : ActiveProject) : ActiveProject :=
  if unusable s actor then s
  else
    set_map (map_insert iter (scoped_key (mode s) actor) ws proj default_global now (per_actor s)) s.

(** The answer, and whether it is the caller's own entry. *)
Definition lookup_traced (actor : ActorKey) (now : Z) (s : ActiveProject)
    : ActiveProject * (ActiveProjectLookup * bool) :=
  if unusable s actor then (s, (from_single (single s), false))
  else
    let (m, found) := map_get (scoped_key (mode s) actor) now (per_actor s) in
    let s := set_map m s in
    match found with
    | Some (ws, proj) => (s, (Resolved ws proj, true))
    | None =>
        let (m, same_user) :=
          match mode s, user actor with
          | PerActor, Some u => map_get (mkActorKey (Some u) None) now (per_actor s)
          | _, _ => (per_actor s, None)
          end in
        let s := set_map m s in
        match same_user with
        | Some _ => (s, (Mismatch, false))
        | None =>
            let s := meanwhile 0 s in
            if ever_keyed s then (s, (Mismatch, false))
            else
              let s := meanwhile 1 s in
              (s, (from_single (single s), false))
        end
    end.

Definition lookup_for (actor : ActorKey) (now : Z) (s : ActiveProject)
    : ActiveProject * ActiveProjectLookup :=
  let (s, answer) := lookup_traced actor now s in (s, fst answer).

Definition get_for (actor : ActorKey) (now : Z) (s : ActiveProject)
    : ActiveProject * option (WorkspaceId * ProjectId) :=
  let (s, answer) := lookup_for actor now s in
  (s, match answer with Resolved ws proj => Some (ws, proj) | Mismatch | Unset => None end).

Definition read_pointer (actor : ActorKey) (now : Z) (s : ActiveProject) : ActiveProject * ReadPointer :=
  let (s, answer) := lookup_traced actor now s in
  match answer with
  | (Resolved ws proj, true) => (s, PointerSession ws proj)
  | (Resolved ws proj, false) => (s, PointerSharedSlot ws proj)
  | (Unset, _) =>
      let s := meanwhile 2 s in
      (s, match seeded s with
          | Some (ws, proj) => PointerStartupSeed ws proj
          | None => PointerUnset
          end)
  | (Mismatch, _) => (s, PointerMismatch)
  end.

Definition get_for_read (actor : ActorKey) (now : Z) (s : ActiveProject)
    : ActiveProject * option (WorkspaceId * ProjectId) :=
  let (s, p) := read_pointer actor now s in (s, pointer_ids p).

Definition default_global_for (actor : ActorKey) (now : Z) (s : ActiveProject) : ActiveProject * bool :=
  if unusable s actor then (s, single_default_global s)
  else
    let (m, flag) := map_get_default_global (scoped_key (mode s) actor) now (per_actor s) in
    (set_map m s, flag).

(** The legacy single-slot setter and getter, and the startup seed. *)
Definition set (ws : WorkspaceId) (proj : ProjectId) (s : ActiveProject) : ActiveProject :=
  set_single (Some (ws, proj)) s.

Definition get (s : ActiveProject) : option (WorkspaceId * ProjectId) := single s.

Definition seed_read_fallback (ws : WorkspaceId) (proj : ProjectId) (s : ActiveProject) : ActiveProject :=
  set_seeded (Some (ws, proj)) s.

Definition clear (s : ActiveProject) : ActiveProject :=
  let s := set_single None s in
  let s := set_seeded None (meanwhile 0 s) in
  let s := meanwhile 1 s in
  set_map (mkPerActorMap ∅ (ttl (per_actor s)) (max_entries (per_actor s))) s.

Definition retarget_project_workspace (proj : ProjectId) (ws : WorkspaceId) (now : Z) (s : ActiveProject)
    : ActiveProject :=
  let s := set_single (retarget_slot proj ws (single s)) s in
  let s := meanwhile 0 s in
  let s := set_seeded (retarget_slot proj ws (seeded s)) s in
  let s := meanwhile 1 s in
  set_map (map_retarget_project proj ws now (per_actor s)) s.

Definition clear_project (proj : ProjectId) (now : Z) (s : ActiveProject) : ActiveProject :=
  let matches ids := bool_decide (snd ids = proj) in
  let s := set_single (clear_slot matches (single s)) s in
  let s := meanwhile 0 s in
  let s := set_seeded (clear_slot matches (seeded s)) s in
  let s := meanwhile 1 s in
  set_map (map_clear_project proj now (per_actor s)) s.

Definition clear_workspace (ws : WorkspaceId) (now : Z) (s : ActiveProject) : ActiveProject :=
  let matches ids := bool_decide (fst ids = ws) in
  let s := set_single (clear_slot matches (single s)) s in
  let s := meanwhile 0 s in
  let s := set_seeded (clear_slot matches (seeded s)) s in
  let s := meanwhile 1 s in
  set_map (map_clear_workspace ws now (per_actor s)) s.

(** [contains_project] and [contains_workspace]: the slots one after the other,
    then the map. *)
Definition contains_with (slot_matches : WorkspaceId * ProjectId → bool) (matches : Entry → bool)
    (now : Z) (s : ActiveProject) : ActiveProject * bool :=
  if match single s with Some ids => slot_matches ids | None => false end then (s, true)
  else
    let s := meanwhile 0 s in
    if match seeded s with Some ids => slot_matches ids | None => false end then (s, true)
    else
      let s := meanwhile 1 s in
      let (m, found) := map_contains matches now (per_actor s) in
      (set_map m s, found).

Definition contains_project (proj : ProjectId) : Z → ActiveProject → ActiveProject * bool :=
  contains_with (λ ids, bool_decide (snd ids = proj)) (λ e, bool_decide (e_proj e = proj)).

Definition contains_workspace (ws : WorkspaceId) : Z → ActiveProject → ActiveProject * bool :=
  contains_with (λ ids, bool_decide (fst ids = ws)) (λ e, bool_decide (e_ws e = ws)).
End Methods.
