(* ===== verification/ActiveProjectFacts.v ===== *)
(** * Isolation and bounds of the active-project pointer

    The keyed map refines an unbounded log of publications: it only ever holds
    an actor's own latest publication, within its time-to-live, and never more
    than its capacity. *)

From S2P Require Export ActiveProject.

Local Open Scope Z_scope.

(** ** Eviction *)

Lemma foldl_delete_lookup (l : list (ActorKey * Entry)) (m : Entries) k :
  foldl (λ entries ke, delete (fst ke) entries) m l !! k
  = if decide (k ∈ fst <$> l) then None else m !! k.
Proof.
  revert m; induction l as [|[k' e] l IH]; intros m; [done|]. cbn [foldl fmap list_fmap fst].
  rewrite IH, (decide_ext (k ∈ k' :: (fst <$> l)) (k = k' ∨ k ∈ fst <$> l)) by apply elem_of_cons.
  destruct (decide (k ∈ fst <$> l)), (decide (k = k' ∨ k ∈ fst <$> l)); try tauto.
  - subst. destruct o as [->|]; [apply lookup_delete_eq|done].
  - apply lookup_delete_ne. intros ->. tauto.
Qed.

Lemma foldl_delete_size (l : list (ActorKey * Entry)) (m : Entries) :
  NoDup (fst <$> l) → (∀ k, k ∈ fst <$> l → is_Some (m !! k)) →
  size (foldl (λ entries ke, delete (fst ke) entries) m l) = (size m - length l)%nat.
Proof.
  revert m; induction l as [|[k e] l IH]; intros m Hn Hm; [simpl; lia|].
  cbn [foldl fst]. rewrite fmap_cons in Hn, Hm. apply NoDup_cons in Hn as [Hk Hn]. simpl in Hk.
  assert (size (delete k m) = Nat.pred (size m)) as Hs.
  { rewrite map_size_delete_Some; [lia|]. apply Hm. by left. }
  rewrite IH; [simpl; lia|done|]. intros k' Hk'. rewrite lookup_delete_ne.
  - apply Hm. by right.
  - intros ->. by destruct Hk.
Qed.

Lemma foldl_delete_subseteq (l : list (ActorKey * Entry)) (m : Entries) :
  foldl (λ entries ke, delete (fst ke) entries) m l ⊆ m.
Proof.
  apply map_subseteq_spec. intros k e. rewrite foldl_delete_lookup.
  by destruct (decide (k ∈ fst <$> l)).
Qed.

#[export] Instance ltb_strict_weak_order : StrictWeakOrder Z.ltb.
Proof. split; intros; rewrite ?Z.ltb_lt, ?Z.ltb_ge in *; lia. Qed.

Section Cap.
Variable iter : Iteration.
Hypothesis Hiter : lawful iter.

#[local] Abbreviation by_age m := (sort_by_key (λ ke, e_inserted (snd ke)) Z.ltb (iter m)).

Lemma by_age_perm m : by_age m ≡ₚ map_to_list m.
Proof. rewrite sort_by_key_perm. apply Hiter. Qed.

Lemma length_by_age m : length (by_age m) = size m.
Proof. rewrite by_age_perm. apply length_map_to_list. Qed.

Lemma by_age_NoDup m : NoDup (fst <$> by_age m).
Proof. rewrite by_age_perm. apply NoDup_fst_map_to_list. Qed.

Lemma by_age_elem m k e : (k, e) ∈ by_age m ↔ m !! k = Some e.
Proof. rewrite by_age_perm. apply elem_of_map_to_list. Qed.

Lemma cap_keys_NoDup m n : NoDup (fst <$> take n (by_age m)).
Proof.
  rewrite fmap_take. eapply sublist_NoDup; [apply by_age_NoDup|apply sublist_take].
Qed.

Lemma enforce_cap_size m : (size (keyed (enforce_cap iter m)) ≤ max_entries m)%nat.
Proof.
  unfold enforce_cap. destruct (size (keyed m) <=? max_entries m)%nat eqn:E; [by apply Nat.leb_le|].
  apply Nat.leb_gt in E. cbn [keyed]. rewrite foldl_delete_size.
  - rewrite length_take, length_by_age. lia.
  - apply cap_keys_NoDup.
  - intros k. intros ([k' e] & -> & Hin%elem_of_take)%list_elem_of_fmap.
    destruct Hin as (i & Hi & _). apply list_elem_of_lookup_2, by_age_elem in Hi. by exists e.
Qed.

Lemma enforce_cap_subseteq m : keyed (enforce_cap iter m) ⊆ keyed m.
Proof.
  unfold enforce_cap. destruct (_ <=? _)%nat; [done|]. apply foldl_delete_subseteq.
Qed.

(** The newest entry is never the one evicted. *)
Lemma enforce_cap_newest m k e :
  (1 ≤ max_entries m)%nat → keyed m !! k = Some e →
  (∀ k' e', k' ≠ k → keyed m !! k' = Some e' → e_inserted e' < e_inserted e) →
  keyed (enforce_cap iter m) !! k = Some e.
Proof.
  intros Hmax Hk Hnew. unfold enforce_cap. destruct (_ <=? _)%nat eqn:E; [done|].
  apply Nat.leb_gt in E. cbn [keyed]. rewrite foldl_delete_lookup, decide_False; [done|].
  intros ([k' e'] & Heq & Hin%elem_of_take)%list_elem_of_fmap. simpl in Heq. subst k'.
  destruct Hin as (i & Hi & Hlt). pose proof (length_by_age (keyed m)) as Hl.
  assert (e' = e) as ->.
  { apply list_elem_of_lookup_2, by_age_elem in Hi. congruence. }
  destruct (lookup_lt_is_Some_2 (by_age (keyed m)) (S i)) as [[k2 e2] H2]; [lia|].
  assert (Hne : k2 ≠ k).
  { intros ->. pose proof (by_age_NoDup (keyed m)) as Hnd.
    assert (S i = i) by (eapply NoDup_lookup; [exact Hnd|rewrite list_lookup_fmap..];
      [by rewrite H2|by rewrite Hi]). lia. }
  pose proof (sort_by_key_sorted (λ ke, e_inserted (snd ke)) Z.ltb (iter (keyed m))) as Hs.
  rewrite <- (take_drop (S i) (sort_by_key _ _ _)) in Hs.
  apply (StronglySorted_app_1_elem_of _ _ _ (k, e) (k2, e2)) in Hs.
  2: { apply elem_of_take. exists i. split; [done|lia]. }
  2: { apply list_elem_of_lookup. exists O. by rewrite lookup_drop, Nat.add_0_r. }
  unfold by_key in Hs. simpl in Hs. apply Z.ltb_ge in Hs.
  apply list_elem_of_lookup_2, by_age_elem in H2. specialize (Hnew _ _ Hne H2). lia.
Qed.
End Cap.

(** ** The log of publications *)

(** What the lock sections do to the keyed entries, apart from forgetting
    some: [Published] under a key by an actor, and the administrative
    operations. *)
Inductive Label :=
  | Published (publisher key : ActorKey) (ws : WorkspaceId) (proj : ProjectId)
      (default_global : bool) (at_ : Z)
  | Retargeted (proj : ProjectId) (ws : WorkspaceId)
  | ClearedProject (proj : ProjectId)
  | ClearedWorkspace (ws : WorkspaceId)
  | ClearedAll
  | MarkedKeyed.

(** The unbounded map without expiry that the log describes. *)
Definition apply_label (spec : Entries) (l : Label) : Entries :=
  match l with
  | Published _ key ws proj default_global at_ => <[key := mkEntry ws proj default_global at_]> spec
  | Retargeted proj ws => retarget_entry proj ws <$> spec
  | ClearedProject proj => filter (λ ke, e_proj (snd ke) ≠ proj) spec
  | ClearedWorkspace ws => filter (λ ke, e_ws (snd ke) ≠ ws) spec
  | ClearedAll => ∅
  | MarkedKeyed => spec
  end.

Definition latest (log : list Label) : Entries := foldl apply_label ∅ log.

Lemma latest_snoc log l : latest (log ++ [l]) = apply_label (latest log) l.
Proof. unfold latest. by rewrite foldl_app. Qed.

(** The keys an actor's publication may set. *)
Definition publishes (mode : ActiveProjectMode) (publisher key : ActorKey) : Prop :=
  key_is_empty key = false ∧
  (key = scoped_key mode publisher ∨ identity_key_of mode publisher = Some key).

(** One lock section of any method, by any thread. *)
Inductive section (s : ActiveProject) : list Label → ActiveProject → Prop :=
  | sec_single slot : section s [] (set_single slot s)
  | sec_flag b : section s [] (set_flag b s)
  | sec_seeded slot : section s [] (set_seeded slot s)
  | sec_marked : section s [MarkedKeyed] (mark_keyed s)
  | sec_read now : section s [] (set_map (purge_expired now (per_actor s)) s)
  | sec_insert iter publisher key ws proj default_global now :
      lawful iter → publishes (mode s) publisher key →
      section s [Published publisher key ws proj default_global now]
        (set_map (map_insert iter key ws proj default_global now (per_actor s)) s)
  | sec_retarget proj ws now :
      section s [Retargeted proj ws] (set_map (map_retarget_project proj ws now (per_actor s)) s)
  | sec_clear_project proj now :
      section s [ClearedProject proj] (set_map (map_clear_project proj now (per_actor s)) s)
  | sec_clear_workspace ws now :
      section s [ClearedWorkspace ws] (set_map (map_clear_workspace ws now (per_actor s)) s)
  | sec_clear :
      section s [ClearedAll]
        (set_map (mkPerActorMap ∅ (ttl (per_actor s)) (max_entries (per_actor s))) s).

Inductive history (s : ActiveProject) : list Label → ActiveProject → Prop :=
  | history_start : history s [] s
  | history_step log ls s1 s2 : history s log s1 → section s1 ls s2 → history s (log ++ ls) s2.

Lemma history_one s ls s' : section s ls s' → history s ls s'.
Proof. intros H. apply (history_step s [] ls s s'); [constructor|done]. Qed.

Lemma history_trans s log s1 log' s2 :
  history s log s1 → history s1 log' s2 → history s (log ++ log') s2.
Proof.
  intros H. induction 1 as [|log' ls s2 s3 _ IH Hs]; [by rewrite app_nil_r|].
  rewrite app_assoc. by eapply history_step.
Qed.

(** ** The keyed map refines the log *)

Record refines (mode0 : ActiveProjectMode) (ttl0 : Z) (cap : nat) (log : list Label)
    (s : ActiveProject) : Prop := {
  rf_mode : mode s = mode0;
  rf_ttl : ttl (per_actor s) = ttl0;
  rf_cap : max_entries (per_actor s) = cap;
  rf_size : (size (keyed (per_actor s)) ≤ cap)%nat;
  rf_latest : keyed (per_actor s) ⊆ latest log;
  rf_ever : ever_keyed s = true ↔ MarkedKeyed ∈ log;
  rf_published : ∀ publisher key ws proj g at_,
    Published publisher key ws proj g at_ ∈ log → publishes mode0 publisher key;
}.

Lemma refines_start m t c :
  let s := with_config m t c in
  refines m (ttl (per_actor s)) (max_entries (per_actor s)) [] s.
Proof.
  simpl. split; [done..| | | |].
  - simpl. rewrite map_size_empty. lia.
  - apply map_empty_subseteq.
  - simpl. split; [done|by intros ?%elem_of_nil].
  - by intros * ?%elem_of_nil.
Qed.

Lemma purge_subseteq now m : keyed (purge_expired now m) ⊆ keyed m.
Proof. apply map_filter_subseteq. Qed.

Lemma insert_subseteq iter key ws proj g now m spec :
  lawful iter → keyed m ⊆ spec →
  keyed (map_insert iter key ws proj g now m) ⊆ <[key := mkEntry ws proj g now]> spec.
Proof.
  intros Hi Hs. unfold map_insert. etrans; [by apply enforce_cap_subseteq|].
  apply insert_mono. etrans; [apply purge_subseteq|done].
Qed.

(** Sections other than [mark_keyed] and [map_insert] only change the map. *)
Lemma refines_set_map m t c log l s entries :
  refines m t c log s → (size entries ≤ c)%nat → entries ⊆ apply_label (latest log) l →
  (match l with Published publisher key _ _ _ _ => publishes m publisher key | MarkedKeyed => False | _ => True end) →
  refines m t c (log ++ [l])
    (set_map (mkPerActorMap entries (ttl (per_actor s)) (max_entries (per_actor s))) s).
Proof.
  intros [H1 H2 H3 H4 H5 H6 H7] Hsz Hl Hok. split; cbn [set_map mode per_actor ever_keyed ttl keyed max_entries]; auto.
  - by rewrite latest_snoc.
  - rewrite H6, elem_of_app, list_elem_of_singleton. split; [by left|]. intros [?|<-]; [done|done].
  - intros * [Hin| Heq%list_elem_of_singleton]%elem_of_app; [eauto|by subst l].
Qed.

Lemma size_subseteq (m m' : Entries) : m ⊆ m' → (size m ≤ size m')%nat.
Proof. apply map_subseteq_size. Qed.

Lemma refines_section m t c log s ls s' :
  refines m t c log s → section s ls s' → refines m t c (log ++ ls) s'.
Proof.
  intros H Hs. pose proof (purge_subseteq) as Hp.
  destruct Hs as [slot|b|slot| |now|iter pub key ws proj g now Hi Hpub|proj ws now|proj now|ws now|].
  1-3: rewrite app_nil_r; by destruct H.
  - destruct H as [H1 H2 H3 H4 H5 H6 H7]. split; auto.
    + by rewrite latest_snoc.
    + simpl. split; [|done]. intros _. apply elem_of_app. right. by apply list_elem_of_singleton.
    + intros * [Hin|Heq%list_elem_of_singleton]%elem_of_app; [eauto|done].
  - rewrite app_nil_r. destruct H as [H1 H2 H3 H4 H5 H6 H7]. split; auto; simpl.
    + etrans; [|exact H4]. apply size_subseteq, Hp.
    + etrans; [apply Hp|done].
  - destruct (H) as [H1 H2 H3 H4 H5 H6 H7].
    assert (map_insert iter key ws proj g now (per_actor s)
      = mkPerActorMap (keyed (map_insert iter key ws proj g now (per_actor s)))
          (ttl (per_actor s)) (max_entries (per_actor s))) as ->.
    { unfold map_insert, enforce_cap. by destruct (_ <=? _)%nat. }
    apply refines_set_map; [done| | |by rewrite <- H1].
    + rewrite <- H3. unfold map_insert. etrans; [by apply enforce_cap_size|done].
    + by apply insert_subseteq.
  - apply refines_set_map; [done| | |done].
    + rewrite map_size_fmap. etrans; [|apply H]. apply size_subseteq, Hp.
    + simpl. apply map_fmap_mono. etrans; [apply Hp|apply H].
  - apply refines_set_map; [done| | |done].
    + etrans; [|apply H]. apply size_subseteq. etrans; [apply map_filter_subseteq|apply Hp].
    + simpl. apply map_filter_subseteq_mono. etrans; [apply Hp|apply H].
  - apply refines_set_map; [done| | |done].
    + etrans; [|apply H]. apply size_subseteq. etrans; [apply map_filter_subseteq|apply Hp].
    + simpl. apply map_filter_subseteq_mono. etrans; [apply Hp|apply H].
  - apply refines_set_map; [done| | |done]; simpl.
    + rewrite map_size_empty. lia.
    + done.
Qed.

Lemma refines_history m t c log s log' s' :
  refines m t c log s → history s log' s' → refines m t c (log ++ log') s'.
Proof.
  intros H. induction 1 as [|log' ls s1 s2 _ IH Hs]; [by rewrite app_nil_r|].
  rewrite app_assoc. by eapply refines_section.
Qed.

(** ** Every method is a sequence of sections *)

Definition interleaved (meanwhile : nat → ActiveProject → ActiveProject) : Prop :=
  ∀ n s, ∃ log, history s log (meanwhile n s).

Definition idle : nat → ActiveProject → ActiveProject := λ _ s, s.

Lemma idle_interleaved : interleaved idle.
Proof. intros n s. exists []. constructor. Qed.

Lemma history_mode s log s' : history s log s' → mode s' = mode s.
Proof. induction 1 as [|log ls s1 s2 _ <- Hs]; [done|]. by destruct Hs. Qed.

(** Reached from [s] by sections. *)
Definition reaches (s s' : ActiveProject) : Prop := ∃ log, history s log s'.

Lemma reaches_refl s : reaches s s.
Proof. exists []. constructor. Qed.
Lemma reaches_step s s1 ls s2 : reaches s s1 → section s1 ls s2 → reaches s s2.
Proof. intros [log H] Hs. exists (log ++ ls). by eapply history_step. Qed.
Lemma reaches_meanwhile meanwhile n s s1 : interleaved meanwhile → reaches s s1 → reaches s (meanwhile n s1).
Proof. intros Hm [log H]. destruct (Hm n s1) as [log' H']. exists (log ++ log'). by eapply history_trans. Qed.

Lemma unusable_mode s s' actor : mode s' = mode s → unusable s' actor = unusable s actor.
Proof. unfold unusable. by intros ->. Qed.

Lemma usable_key s actor : unusable s actor = false → key_is_empty (scoped_key (mode s) actor) = false.
Proof. unfold unusable. intros [_ ?]%orb_false_iff. done. Qed.

Lemma publish_keyed_reaches iter actor ws proj g now1 now2 s :
  lawful iter → key_is_empty (scoped_key (mode s) actor) = false →
  reaches s (publish_keyed iter actor ws proj g now1 now2 s).
Proof.
  intros Hi Hk. unfold publish_keyed. destruct (identity_key_of (mode s) actor) as [key|] eqn:E.
  - assert (Hkey : key_is_empty key = false).
    { unfold identity_key_of in E. destruct (mode s), (user actor), (session_id actor); simplify_eq. done. }
    eapply reaches_step; [eapply reaches_step; [apply reaches_refl|]|].
    + apply (sec_insert s iter actor key ws proj g now1); [done|]. split; [done|by right].
    + apply (sec_insert (set_map _ s) iter actor _ ws proj g now2); [done|]. split; [done|by left].
  - eapply reaches_step; [apply reaches_refl|].
    apply (sec_insert s iter actor _ ws proj g now2); [done|]. split; [done|by left].
Qed.

Lemma reaches_trans s s1 s2 : reaches s s1 → reaches s1 s2 → reaches s s2.
Proof. intros [log H] [log' H']. exists (log ++ log'). by eapply history_trans. Qed.

Section Methods.
Variable meanwhile : nat → ActiveProject → ActiveProject.
Hypothesis Hmeanwhile : interleaved meanwhile.

Lemma set_for_reaches iter actor ws proj g now1 now2 s :
  lawful iter → reaches s (set_for meanwhile iter actor ws proj g now1 now2 s).
Proof.
  intros Hi. unfold set_for.
  set (s1 := set_flag g (meanwhile 0 (set_single (Some (ws, proj)) s))).
  assert (H1 : reaches s s1).
  { eapply reaches_step; [|constructor]. apply reaches_meanwhile; [done|].
    eapply reaches_step; [apply reaches_refl|constructor]. }
  destruct (unusable s1 actor) eqn:Hu; [done|].
  set (s2 := meanwhile 2 (mark_keyed (meanwhile 1 s1))).
  assert (H2 : reaches s1 s2).
  { apply reaches_meanwhile; [done|]. eapply reaches_step; [|constructor].
    apply reaches_meanwhile; [done|]. apply reaches_refl. }
  eapply reaches_trans; [exact H1|]. eapply reaches_trans; [exact H2|].
  apply publish_keyed_reaches; [done|]. destruct H2 as [log H2]. apply history_mode in H2.
  rewrite H2. by apply usable_key.
Qed.

Lemma set_scoped_for_reaches iter actor ws proj g now s :
  lawful iter → reaches s (set_scoped_for iter actor ws proj g now s).
Proof.
  intros Hi. unfold set_scoped_for. destruct (unusable s actor) eqn:Hu; [apply reaches_refl|].
  eapply reaches_step; [apply reaches_refl|].
  apply (sec_insert s iter actor _ ws proj g now); [done|]. split; [by apply usable_key|by left].
Qed.

Lemma read_reaches s s1 now : reaches s s1 → reaches s (set_map (purge_expired now (per_actor s1)) s1).
Proof. intros H. eapply reaches_step; [exact H|constructor]. Qed.

Lemma set_map_same s : set_map (per_actor s) s = s.
Proof. by destruct s. Qed.

Lemma lookup_traced_reaches actor now s : reaches s (fst (lookup_traced meanwhile actor now s)).
Proof.
  unfold lookup_traced. destruct (unusable s actor); [apply reaches_refl|]. unfold map_get.
  pose proof (read_reaches s s now (reaches_refl s)) as H1.
  set (s1 := set_map (purge_expired now (per_actor s)) s) in *.
  destruct (_ <$> keyed _ !! scoped_key _ _) as [[ws proj]|]; [done|].
  assert (H2 : ∀ b, reaches s (set_map (if b : bool then purge_expired now (per_actor s1) else per_actor s1) s1)).
  { intros [|]; [by apply read_reaches|]. by rewrite set_map_same. }
  pose proof (H2 true) as Hr. specialize (H2 false). simpl in H2.
  destruct (mode s1), (user actor); simpl;
    repeat first [done | case_match | progress simpl |
                  by auto using reaches_meanwhile | by apply reaches_meanwhile; [done|]; auto using reaches_meanwhile].
Qed.

Lemma read_pointer_reaches actor now s : reaches s (fst (read_pointer meanwhile actor now s)).
Proof.
  unfold read_pointer. pose proof (lookup_traced_reaches actor now s) as H.
  destruct (lookup_traced meanwhile actor now s) as [s1 [[ws proj| |] [|]]]; simpl in *; try done;
    by apply reaches_meanwhile.
Qed.

Lemma default_global_for_reaches actor now s : reaches s (fst (default_global_for actor now s)).
Proof.
  unfold default_global_for. destruct (unusable s actor); [apply reaches_refl|].
  apply read_reaches, reaches_refl.
Qed.

(** The administrative methods: the single slot, the seed, the map. *)
Lemma slots_then_map_reaches s slot (on_seed : ActiveProject → option (WorkspaceId * ProjectId))
    (on_map : ActiveProject → PerActorMap) l :
  (∀ u, section u [l] (set_map (on_map u) u)) →
  let s1 := meanwhile 0 (set_single slot s) in
  let s2 := meanwhile 1 (set_seeded (on_seed s1) s1) in
  reaches s (set_map (on_map s2) s2).
Proof.
  intros H s1 s2. eapply reaches_step; [|apply H]. apply reaches_meanwhile; [done|].
  eapply reaches_step; [|apply sec_seeded]. apply reaches_meanwhile; [done|].
  eapply reaches_step; [apply reaches_refl|apply sec_single].
Qed.

Lemma admin_reaches s :
  reaches s (clear meanwhile s) ∧
  (∀ proj ws now, reaches s (retarget_project_workspace meanwhile proj ws now s)) ∧
  (∀ proj now, reaches s (clear_project meanwhile proj now s)) ∧
  (∀ ws now, reaches s (clear_workspace meanwhile ws now s)).
Proof.
  split_and!; intros.
  - apply (slots_then_map_reaches s None (λ _, None)
      (λ u, mkPerActorMap ∅ (ttl (per_actor u)) (max_entries (per_actor u))) ClearedAll), sec_clear.
  - apply (slots_then_map_reaches s _ (λ u, retarget_slot proj ws (seeded u))
      (λ u, map_retarget_project proj ws now (per_actor u)) (Retargeted proj ws)).
    intros. apply sec_retarget.
  - apply (slots_then_map_reaches s _ (λ u, clear_slot _ (seeded u))
      (λ u, map_clear_project proj now (per_actor u)) (ClearedProject proj)).
    intros. apply sec_clear_project.
  - apply (slots_then_map_reaches s _ (λ u, clear_slot _ (seeded u))
      (λ u, map_clear_workspace ws now (per_actor u)) (ClearedWorkspace ws)).
    intros. apply sec_clear_workspace.
Qed.

Lemma contains_reaches p q now s : reaches s (fst (contains_with meanwhile p q now s)).
Proof.
  unfold contains_with. destruct (match single s with Some _ => _ | None => _ end); [apply reaches_refl|].
  pose proof (reaches_meanwhile meanwhile 0 s s Hmeanwhile (reaches_refl s)) as H.
  destruct (match seeded _ with Some _ => _ | None => _ end); [done|].
  apply read_reaches. by apply reaches_meanwhile.
Qed.
End Methods.

(** ** Provenance of an entry *)

(** Neither replaced under its key nor cleared since. *)
Definition untouched (key : ActorKey) (proj : ProjectId) (post : list Label) : Prop :=
  Forall (λ l, match l with
               | Published _ key' _ _ _ _ => key' ≠ key
               | ClearedProject proj' => proj' ≠ proj
               | ClearedAll => False
               | Retargeted _ _ | ClearedWorkspace _ | MarkedKeyed => True
               end) post.

(** The entry stems from the latest publication under its key. *)
Definition published_as (log : list Label) (publisher key : ActorKey) (e : Entry) : Prop :=
  ∃ pre ws post,
    log = pre ++ Published publisher key ws (e_proj e) (e_default_global e) (e_inserted e) :: post ∧
    untouched key (e_proj e) post ∧ (e_ws e = ws ∨ Retargeted (e_proj e) (e_ws e) ∈ post).

Lemma published_as_snoc log l publisher key e :
  published_as log publisher key e → untouched key (e_proj e) [l] →
  published_as (log ++ [l]) publisher key e.
Proof.
  intros (pre & ws & post & -> & Hu & Hw) Hl. exists pre, ws, (post ++ [l]).
  split; [by rewrite <- app_assoc|]. split; [by apply Forall_app|].
  destruct Hw as [?|?]; [by left|]. right. apply elem_of_app. by left.
Qed.

Lemma latest_published log key e :
  latest log !! key = Some e → ∃ publisher, published_as log publisher key e.
Proof.
  revert e; induction log as [|l log IH] using rev_ind; intros e; [done|]. rewrite latest_snoc.
  assert (Hkeep : ∀ e', latest log !! key = Some e' → untouched key (e_proj e') [l] →
                  ∃ publisher, published_as (log ++ [l]) publisher key e').
  { intros e' [pub Hp]%IH Hl. exists pub. by apply published_as_snoc. }
  destruct l as [pub key' ws proj g at_|proj ws|proj|ws| |]; cbn [apply_label].
  - intros [[-> <-]|[Hne He]]%lookup_insert_Some; [|apply Hkeep; [done|by repeat constructor]].
    exists pub, log, ws, []. split; [done|]. split; [constructor|by left].
  - rewrite lookup_fmap. destruct (latest log !! key) as [e'|] eqn:He'; [|done].
    intros [= <-]. unfold retarget_entry. destruct (decide (e_proj e' = proj)) as [<-|];
      [|apply Hkeep; [done|by repeat constructor]].
    destruct (IH _ eq_refl) as (pub & pre & w & post & -> & Hu & Hw).
    exists pub, pre, w, (post ++ [Retargeted (e_proj e') ws]). simpl.
    split; [by rewrite <- app_assoc|]. split; [by apply Forall_app; repeat constructor|].
    right. apply elem_of_app. right. by apply list_elem_of_singleton.
  - intros [He Hn]%map_lookup_filter_Some. apply Hkeep; [done|].
    apply Forall_cons. split; [|constructor]. intros ->. by apply Hn.
  - intros [He _]%map_lookup_filter_Some. apply Hkeep; [done|by repeat constructor].
  - by rewrite lookup_empty.
  - intros He. apply Hkeep; [done|by repeat constructor].
Qed.

Lemma map_get_Some key now m ids :
  snd (map_get key now m) = Some ids →
  ∃ e, keyed m !! key = Some e ∧ live (ttl m) now e = true ∧ ids = (e_ws e, e_proj e).
Proof.
  unfold map_get. cbn [snd]. intros (e & [He Hl]%map_lookup_filter_Some & ->)%fmap_Some. eauto.
Qed.

(** The publisher of an actor's own entry is the actor, as far as the mode
    looks at it. *)
Lemma own_publisher m publisher actor :
  publishes m publisher (scoped_key m actor) →
  (m = PerActor → user publisher = user actor) ∧
  (session_id actor ≠ None → session_id publisher = session_id actor ∧ (m = PerActor → publisher = actor)).
Proof.
  intros [He [Hk|Hk]].
  - destruct m; simpl in *; [done|by simplify_eq|by subst].
  - unfold identity_key_of in Hk. destruct m, (user publisher) as [u|] eqn:Eu, (session_id publisher);
      simplify_eq. simpl in Hk. destruct actor as [u' s']. simplify_eq. simpl. naive_solver.
Qed.

(** The four ways a lookup ends. *)
Lemma lookup_traced_cases meanwhile actor now s :
  interleaved meanwhile →
  let answer := snd (lookup_traced meanwhile actor now s) in
  (unusable s actor = true ∧ answer = (from_single (single s), false)) ∨
  (unusable s actor = false ∧
   ((∃ e, keyed (per_actor s) !! scoped_key (mode s) actor = Some e ∧
       live (per_key_ttl s) now e = true ∧ answer = (Resolved (e_ws e) (e_proj e), true)) ∨
    answer = (Mismatch, false) ∨
    ∃ u v, reaches s u ∧ ever_keyed u = false ∧ answer = (from_single (single v), false))).
Proof.
  intros Hm. unfold lookup_traced. destruct (unusable s actor); [by left|]. right. split; [done|].
  pose proof (map_get_Some (scoped_key (mode s) actor) now (per_actor s)) as Hget.
  assert (H1 : reaches s (set_map (fst (map_get (scoped_key (mode s) actor) now (per_actor s))) s)).
  { apply read_reaches, reaches_refl. }
  destruct (map_get (scoped_key (mode s) actor) now (per_actor s)) as [m1 [[ws proj]|]].
  { destruct (Hget _ eq_refl) as (e & He & Hl & [= -> ->]). left. by exists e. }
  right. cbn [fst] in H1. set (s1 := set_map m1 s) in *.
  assert (H2 : reaches s (set_map (per_actor s1) s1)) by by rewrite set_map_same.
  pose proof (read_reaches s s1 now H1) as H3.
  set (same_user := match mode s1, user actor with PerActor, Some u => _ | _, _ => _ end).
  assert (H4 : reaches s (set_map (fst same_user) s1)) by (unfold same_user; by destruct (mode s1), (user actor)).
  destruct same_user as [m2 [ids|]]; [by left|]. cbn [fst] in H4.
  destruct (ever_keyed (meanwhile 0%nat (set_map m2 s1))) eqn:Ee; [by left|]. right.
  eexists _, _. split; [|split; [exact Ee|done]]. by apply reaches_meanwhile.
Qed.

(** C31. Isolation: in every state that any interleaving of publications,
    reads and administrative operations reaches, a lookup that answers from
    the caller's own entry answers with the latest, unexpired and uncleared
    publication under the caller's own coordinates (by the same user in
    per-actor mode, by the same session when the caller has one), and a caller
    with a usable coordinate is answered from the shared slot only if nothing
    was ever published with [set_for]. *)
Theorem lookup_isolated m t c log s meanwhile actor now :
  history (with_config m t c) log s → interleaved meanwhile →
  let '(_, (answer, own)) := lookup_traced meanwhile actor now s in
  match answer, own with
  | Resolved ws proj, true =>
      unusable s actor = false ∧
      ∃ publisher e, published_as log publisher (scoped_key m actor) e ∧
        e_ws e = ws ∧ e_proj e = proj ∧ live (per_key_ttl s) now e = true ∧
        (m = PerActor → user publisher = user actor) ∧
        (session_id actor ≠ None →
         session_id publisher = session_id actor ∧ (m = PerActor → publisher = actor))
  | Resolved _ _, false | Unset, _ => unusable s actor = true ∨ MarkedKeyed ∉ log
  | Mismatch, _ => unusable s actor = false
  end.
Proof.
  intros Hh Hm.
  pose proof (refines_history _ _ _ _ _ _ _ (refines_start m t c) Hh) as Hr. simpl in Hr.
  destruct (Hr) as [Hmode _ _ _ Hlat _ Hpub].
  destruct (lookup_traced meanwhile actor now s) as [s' answer] eqn:E.
  pose proof (lookup_traced_cases meanwhile actor now s Hm) as Hcases. rewrite E in Hcases.
  cbn [snd] in Hcases.
  destruct Hcases as [[Hu ->]|[Hu [(e & He & Hl & ->)|[->|(u & v & [log' Hu'] & Hev & ->)]]]].
  - destruct (single s) as [[ws proj]|]; by left.
  - split; [done|]. rewrite Hmode in He. eapply lookup_weaken in He; [|exact Hlat].
    apply latest_published in He as [pub Hp].
    assert (Hown : publishes m pub (scoped_key m actor)).
    { destruct Hp as (pre & w & post & -> & _). eapply Hpub, elem_of_app. right. by left. }
    apply own_publisher in Hown. exists pub, e. naive_solver.
  - done.
  - assert (MarkedKeyed ∉ log).
    { intros Hin. eapply refines_history in Hu'; [|exact Hr].
      assert (ever_keyed u = true); [|congruence]. apply Hu', elem_of_app. by left. }
    destruct (single v) as [[ws proj]|]; by right.
Qed.

(** ** Publishing and reading back *)

Lemma live_at ttl now e : 0 < ttl → e_inserted e ≤ now < e_inserted e + ttl → live ttl now e = true.
Proof. intros ? ?. unfold live. apply Z.ltb_lt. lia. Qed.

Lemma map_insert_found iter key ws proj g now m :
  lawful iter → (1 ≤ max_entries m)%nat →
  (∀ k e, keyed m !! k = Some e → e_inserted e < now) →
  keyed (map_insert iter key ws proj g now m) !! key = Some (mkEntry ws proj g now).
Proof.
  intros Hi Hmax Hnew. unfold map_insert. apply enforce_cap_newest; [done|done|apply lookup_insert_eq|].
  cbn [keyed]. intros k e Hne. rewrite lookup_insert_ne by done.
  intros [He _]%map_lookup_filter_Some. by apply Hnew in He.
Qed.

Lemma map_insert_inserted iter key ws proj g now m k e :
  lawful iter → keyed (map_insert iter key ws proj g now m) !! k = Some e →
  e_inserted e = now ∨ keyed m !! k = Some e.
Proof.
  intros Hi He. pose proof (insert_subseteq iter key ws proj g now m (keyed m) Hi ltac:(done)) as Hs.
  eapply lookup_weaken in He; [|exact Hs]. apply lookup_insert_Some in He as [[_ <-]|[_ He]]; auto.
Qed.

Lemma map_insert_params iter key ws proj g now m :
  ttl (map_insert iter key ws proj g now m) = ttl m ∧
  max_entries (map_insert iter key ws proj g now m) = max_entries m.
Proof. unfold map_insert, enforce_cap. by destruct (_ <=? _)%nat. Qed.

Lemma publish_keyed_found iter actor ws proj g now1 now2 s :
  lawful iter → (1 ≤ max_entries (per_actor s))%nat →
  (∀ k e, keyed (per_actor s) !! k = Some e → e_inserted e < now1) → now1 < now2 →
  let s' := publish_keyed iter actor ws proj g now1 now2 s in
  keyed (per_actor s') !! scoped_key (mode s) actor = Some (mkEntry ws proj g now2) ∧
  mode s' = mode s ∧ ttl (per_actor s') = ttl (per_actor s).
Proof.
  intros Hi Hmax Hold Hlt s'. unfold s', publish_keyed. cbn [set_map per_actor mode].
  destruct (identity_key_of (mode s) actor) as [key|].
  - destruct (map_insert_params iter key ws proj g now1 (per_actor s)) as [Ht Hm].
    split; [|split; [done|]].
    + apply map_insert_found; [done|lia|]. intros k e [->|He]%map_insert_inserted; [lia| |done].
      apply Hold in He. lia.
    + by rewrite (proj1 (map_insert_params _ _ _ _ _ _ _)).
  - split; [|split; [done|]].
    + apply map_insert_found; [done|lia|]. intros k e He. apply Hold in He. lia.
    + by rewrite (proj1 (map_insert_params _ _ _ _ _ _ _)).
Qed.

Lemma set_for_idle iter actor ws proj g now1 now2 s :
  unusable s actor = false →
  ∃ s0, set_for idle iter actor ws proj g now1 now2 s = publish_keyed iter actor ws proj g now1 now2 s0 ∧
    mode s0 = mode s ∧ per_actor s0 = per_actor s.
Proof. intros Hu. unfold set_for, idle. change (unusable (set_flag _ _) actor) with (unusable s actor). rewrite Hu. by eexists. Qed.

(** The keyed map refines the unbounded map that the log of publications
    describes: in every reachable state it is a part of it and never exceeds
    the configured number of entries, and a publication is found again, with
    its recall preference, by the same actor until its time-to-live is over,
    provided the clock advanced since the earlier publications and nobody
    interferes: the entry just written is never the one evicted. *)
Theorem keyed_map_refines_log m t c log s :
  0 ≤ t → history (with_config m t c) log s →
  (size (keyed (per_actor s)) ≤ Nat.max c 1)%nat ∧ keyed (per_actor s) ⊆ latest log ∧
  per_key_ttl s = (if t =? 0 then DEFAULT_PER_KEY_TTL else t) ∧
  ∀ iter actor ws proj g now1 now2 now,
    lawful iter → unusable s actor = false →
    (∀ k e, keyed (per_actor s) !! k = Some e → e_inserted e < now1) →
    now1 < now2 ≤ now → now < now2 + per_key_ttl s →
    let s' := set_for idle iter actor ws proj g now1 now2 s in
    snd (get_for idle actor now s') = Some (ws, proj) ∧
    snd (default_global_for actor now s') = g.
Proof.
  intros Ht Hh. pose proof (refines_history _ _ _ _ _ _ _ (refines_start m t c) Hh) as Hr.
  destruct Hr as [Hmode Httl Hcap Hsize Hlat _ _]. cbn [with_config per_actor new_map ttl max_entries] in *.
  do 3 (split; [done|]). intros iter actor ws proj g now1 now2 now Hi Hu Hold Hnow Hlive.
  destruct (set_for_idle iter actor ws proj g now1 now2 s Hu) as (s0 & Hs' & Hm0 & Hp0).
  assert (Hfound := publish_keyed_found iter actor ws proj g now1 now2 s0 Hi).
  rewrite Hp0 in Hfound. cbv zeta in Hfound. destruct Hfound as (Hf & Hm' & Ht'); [lia|done|lia|].
  rewrite Hs'. set (u := publish_keyed iter actor ws proj g now1 now2 s0) in *.
  assert (Hu' : unusable u actor = false) by (rewrite <- Hu; apply unusable_mode; congruence).
  rewrite <- Hm' in Hf.
  assert (Hpurged : keyed (purge_expired now (per_actor u)) !! scoped_key (mode u) actor
                    = Some (mkEntry ws proj g now2)).
  { apply map_lookup_filter_Some. split; [done|]. cbn [snd]. rewrite Ht'.
    apply live_at; cbn [e_inserted]; unfold per_key_ttl in Hlive; [|lia].
    rewrite Httl. destruct (Z.eqb_spec t 0); [done|lia]. }
  unfold get_for, lookup_for, lookup_traced, default_global_for, map_get, map_get_default_global.
  rewrite Hu', Hpurged. done.
Qed.

(** ** Concrete runs *)

Definition alice : ActorKey := mkActorKey (Some "alice"%string) (Some "s1"%string).
Definition bob : ActorKey := mkActorKey (Some "bob"%string) (Some "s2"%string).

(** The pointer of a process whose only events so far were completions
    ([set_scoped_for]) holds live keyed entries, yet a caller whose coordinate
    matches none of them gets [Unset] (or the shared slot), not [Mismatch]. *)
Lemma scoped_publication_not_marked :
  let s := set_scoped_for map_to_list alice 1%N 2%N false 10 new in
  snd (lookup_for idle alice 11 s) = Resolved 1%N 2%N ∧ snd (lookup_for idle bob 11 s) = Unset ∧
  snd (lookup_for idle bob 11 (set_for idle map_to_list alice 1%N 2%N false 10 10 new)) = Mismatch.
Proof. vm_compute. done. Qed.

Lemma map_to_list_lawful : lawful map_to_list.
Proof. by intros m. Qed.

(** Alice publishes project 2 from her session; her lookup finds it. *)
Definition alice_published : ActiveProject := set_for idle map_to_list alice 1%N 2%N true 10 11 new.

Lemma alice_history : ∃ log, history new log alice_published.
Proof. apply (set_for_reaches idle idle_interleaved map_to_list), map_to_list_lawful. Qed.

Lemma lookup_isolated_witness :
  ∃ log, history new log alice_published ∧
  let '(_, (answer, own)) := lookup_traced idle alice 12 alice_published in
  match answer, own with
  | Resolved ws proj, true =>
      unusable alice_published alice = false ∧
      ∃ publisher e, published_as log publisher (scoped_key PerActor alice) e ∧
        e_ws e = ws ∧ e_proj e = proj ∧ live (per_key_ttl alice_published) 12 e = true ∧
        (PerActor = PerActor → user publisher = user alice) ∧
        (session_id alice ≠ None →
         session_id publisher = session_id alice ∧ (PerActor = PerActor → publisher = alice))
  | Resolved _ _, false | Unset, _ => unusable alice_published alice = true ∨ MarkedKeyed ∉ log
  | Mismatch, _ => unusable alice_published alice = false
  end.
Proof.
  destruct alice_history as [log H]. exists log. split; [done|].
  exact (lookup_isolated PerActor DEFAULT_PER_KEY_TTL DEFAULT_MAX_ENTRIES log alice_published idle
           alice 12 H idle_interleaved).
Defined.

Lemma keyed_map_refines_log_witness :
  ∃ log, history new log new ∧
  (size (keyed (per_actor new)) ≤ Nat.max DEFAULT_MAX_ENTRIES 1)%nat ∧
  keyed (per_actor new) ⊆ latest log ∧
  per_key_ttl new = (if DEFAULT_PER_KEY_TTL =? 0 then DEFAULT_PER_KEY_TTL else DEFAULT_PER_KEY_TTL) ∧
  snd (get_for idle alice 12 alice_published) = Some (1%N, 2%N) ∧
  snd (default_global_for alice 12 alice_published) = true.
Proof.
  exists []. split; [constructor|].
  destruct (keyed_map_refines_log PerActor DEFAULT_PER_KEY_TTL DEFAULT_MAX_ENTRIES [] new)
    as (H1 & H2 & H3 & H4); [vm_compute; discriminate|constructor|].
  split; [exact H1|]. split; [exact H2|]. split; [exact H3|].
  apply (H4 map_to_list alice 1%N 2%N true 10 11 12); [apply map_to_list_lawful|done|by intros k e ?|lia|].
  vm_compute. reflexivity.
Defined.
