(* ===== verification/StoreTables.v ===== *)
(** * The store's scope tables

    The rows of the SQLite tables [workspaces], [projects], [project_grants]
    and [users] that scope resolution and authorization read and write
    (schema: [crates/ai-memory-store/migrations]), in rowid order, and the
    outcome of a statement: SQLite may fail at any of them ([fault]).  An id
    column holds the id its bytes decode to, or [None] when they do not. *)

From S2P Require Export ActiveProject Text.

Definition UserId := N.

Record ProjectTuple := mkProjectTuple {
  pt_id : ProjectId;
  pt_workspace : WorkspaceId;
  pt_name : string;
  pt_canonical_name : string;
  pt_legacy_name : string;
  pt_access_mode : option string;
  pt_created_by : option (option UserId);
}.

#[export] Instance project_tuple_eq_dec : EqDecision ProjectTuple.
Proof. solve_decision. Defined.

(** A rename in [audit_log], with the names of its JSON detail; its time is
    left out. *)
Record AuditRow := mkAuditRow {
  au_op : string;
  au_workspace : WorkspaceId;
  au_project : ProjectId;
  au_author : option UserId;
  au_from : string;
  au_to : string;
}.

Record Db := mkDb {
  workspaces : list (WorkspaceId * string);
  projects : list ProjectTuple;
  grants : gmap (WorkspaceId * (ProjectId * UserId)) string;
  users : gset UserId;
  audit_log : list AuditRow;
}.

Inductive AmbiguousMatch := MatchName | MatchCanonicalKey | MatchLegacyKey.

(** The errors these statements can end in. *)
Inductive StoreError :=
  | Sqlite (message : string)
  | MalformedRecord (message : string)
  | StoreForbidden (message : string)
  | InvalidProjectName (message : string)
  | ProjectNameTaken (name : string)
  | NotFound (message : string)
  | ProjectNameAmbiguous (name : string) (holders : list (option string * AmbiguousMatch))
  | WriterClosed
  | ReaderClosed
  | PoolPanic (message : string).

(** The statements of this part of the store. *)
Inductive Statement :=
  | StProjectRow | StUsersExist | StUserExists | StGrant
  | StBegin | StCommit | StMatches | StFindWorkspace | StFindProject | StProjectName
  | StInsertWorkspace | StInsertProject | StOtherWorkspaces | StRename | StAudit
  | StSchedulerState.

(** What one connection sees of the store at one moment. *)
Record Snapshot := mkSnapshot {
  db : Db;
  fault : Statement → option string;
}.

Definition query {A} (snap : Snapshot) (st : Statement) (rows : A) : result A StoreError :=
  match fault snap st with Some message => Err (Sqlite message) | None => Ok rows end.

Definition workspace_name (d : Db) (ws : WorkspaceId) : option string :=
  match list_find (λ w, fst w = ws) (workspaces d) with
  | Some (_, (_, name)) => Some name
  | None => None
  end.

(** [WHERE p.id = ?1], joined with its workspace. *)
Definition project_by_id (d : Db) (id : ProjectId) : option (ProjectTuple * string) :=
  match list_find (λ p, pt_id p = id) (projects d) with
  | Some (_, p) => (λ name, (p, name)) <$> workspace_name d (pt_workspace p)
  | None => None
  end.

(** Primary keys and unique constraints. *)
Record db_ok (d : Db) : Prop := {
  ok_workspace_ids : NoDup (fst <$> workspaces d);
  ok_workspace_names : NoDup (snd <$> workspaces d);
  ok_project_ids : NoDup (pt_id <$> projects d);
  ok_project_names : NoDup ((λ p, (pt_workspace p, pt_name p)) <$> projects d);
  ok_project_workspaces : Forall (λ p, pt_workspace p ∈ fst <$> workspaces d) (projects d);
}.
