(* ===== verification/ProjectAuthz.v ===== *)
(** * The per-project authorization choke point

    Models [crates/ai-memory-store/src/project_authz.rs]: resolving a
    project's authorization state from the store, and the decision. *)

From S2P Require Export StoreTables.

Local Open Scope rust_scope.
Local Open Scope string_scope.

Definition DEFAULT_WORKSPACE_NAME : string := "default".
Definition DEFAULT_PROJECT_NAME : string := "scratch".
Definition GLOBAL_SCOPE_PROJECT : string := "_global".
Definition WORKSPACE_PROFILE_PROJECT : string := "_profile".
Definition USER_PROFILE_PROJECT_PREFIX : string := "_profile.".

Definition RESTRICTED_PROJECT_FORBIDDEN : string :=
  "project access is restricted; root, the project creator, or a matching grant is required".
Definition GLOBAL_SCOPE_WRITE_FORBIDDEN : string :=
  "the global scope is shared with every project; writing it requires root or a write grant on it".

Inductive AccessMode := Open | Restricted.
Inductive GrantLevel := GrantRead | GrantWrite.
Inductive ProjectAccess := Read | Write.

#[export] Instance access_mode_eq_dec : EqDecision AccessMode.
Proof. solve_decision. Defined.
#[export] Instance grant_level_eq_dec : EqDecision GrantLevel.
Proof. solve_decision. Defined.
#[export] Instance project_access_eq_dec : EqDecision ProjectAccess.
Proof. solve_decision. Defined.

Definition access_mode_str (m : AccessMode) : string :=
  match m with Open => "open" | Restricted => "restricted" end.

(** [AccessMode::from_db]: anything unexpected reads as open. *)
Definition access_mode_from_db (value : option string) : AccessMode :=
  if decide (value = Some "restricted") then Restricted else Open.

Definition grant_level_str (l : GrantLevel) : string :=
  match l with GrantRead => "read" | GrantWrite => "write" end.

Definition grant_level_from_db (value : string) : option GrantLevel :=
  if decide (value = "read") then Some GrantRead
  else if decide (value = "write") then Some GrantWrite else None.

Record ProjectPrincipal := mkProjectPrincipal {
  pr_is_root : bool;
  pr_is_creator : bool;
  pr_user_id : option UserId;
}.

Definition anonymous : ProjectPrincipal := mkProjectPrincipal false false None.
Definition root : ProjectPrincipal := mkProjectPrincipal true false None.
Definition user_principal (u : UserId) : ProjectPrincipal := mkProjectPrincipal false false (Some u).

Record ProjectAuthz := mkProjectAuthz {
  distinguishes_operators : bool;
  access_mode : AccessMode;
  is_root : bool;
  is_creator : bool;
  grant : option GrantLevel;
  reserved_global : bool;
}.

(** [ProjectAuthz::authorize]; the error is the denial message. *)
Definition authorize (ctx : ProjectAuthz) (need : ProjectAccess) : result unit string :=
  if negb (distinguishes_operators ctx) then Ok tt
  else if reserved_global ctx && bool_decide (need = Write) then
    if is_root ctx || bool_decide (grant ctx = Some GrantWrite) then Ok tt
    else Err GLOBAL_SCOPE_WRITE_FORBIDDEN
  else
    match access_mode ctx with
    | Open => Ok tt
    | Restricted =>
        if is_root ctx || is_creator ctx then Ok tt
        else
          let admitted := match need with
                          | Read => match grant ctx with Some _ => true | None => false end
                          | Write => bool_decide (grant ctx = Some GrantWrite)
                          end in
          if admitted then Ok tt else Err RESTRICTED_PROJECT_FORBIDDEN
    end.

Definition authorize_project : ProjectAuthz → ProjectAccess → result unit string := authorize.

(** ** Reading a project's state *)

Record ProjectRow := mkProjectRow {
  row_access_mode : AccessMode;
  row_creator : option UserId;
  row_reserved_global : bool;
}.

Definition is_reserved_global (workspace project : string) : bool :=
  (bool_decide (workspace = DEFAULT_WORKSPACE_NAME) && bool_decide (project = GLOBAL_SCOPE_PROJECT))
  || bool_decide (project = WORKSPACE_PROFILE_PROJECT).

Definition read_project_row (snap : Snapshot) (id : ProjectId) : result ProjectRow StoreError :=
  let? row := query snap StProjectRow (project_by_id (db snap) id) in
  match row with
  | Some (p, workspace) =>
      Ok (mkProjectRow (access_mode_from_db (pt_access_mode p)) (mjoin (pt_created_by p))
            (is_reserved_global workspace (pt_name p)))
  | None => Ok (mkProjectRow Open None false)
  end.

Definition read_project_row_strict (snap : Snapshot) (ws : WorkspaceId) (id : ProjectId)
    : result ProjectRow StoreError :=
  let? row := query snap StProjectRow (project_by_id (db snap) id) in
  match row with
  | Some (p, workspace) =>
      bail_if negb (bool_decide (pt_workspace p = ws)) with Sqlite "Query returned no rows";;
      let? access_mode :=
        match pt_access_mode p with
        | Some mode =>
            if decide (mode = "open") then Ok Open
            else if decide (mode = "restricted") then Ok Restricted
            else Err (MalformedRecord "unknown project access mode")
        | None => Err (Sqlite "Invalid column type Null")
        end in
      let? creator :=
        match pt_created_by p with
        | None => Ok None
        | Some (Some u) => Ok (Some u)
        | Some None => Err (MalformedRecord "invalid user id")
        end in
      Ok (mkProjectRow access_mode creator (is_reserved_global workspace (pt_name p)))
  | None => Err (Sqlite "Query returned no rows")
  end.

Definition read_grant (snap : Snapshot) (ws : WorkspaceId) (id : ProjectId) (u : UserId)
    : result (option GrantLevel) StoreError :=
  let? level := query snap StGrant (grants (db snap) !! (ws, (id, u))) in
  Ok (level ≫= grant_level_from_db).

Definition users_exist (snap : Snapshot) : result bool StoreError :=
  query snap StUsersExist (negb (bool_decide (users (db snap) = ∅))).

Inductive Resolution := Compatible | Strict.

#[export] Instance resolution_eq_dec : EqDecision Resolution.
Proof. solve_decision. Defined.

(** The project's row and whether operators are distinguished. *)
Definition resolve_row (snap : Snapshot) (ws : WorkspaceId) (id : ProjectId)
    (principal : ProjectPrincipal) (distinguishes : bool) (resolution : Resolution)
    : result (ProjectRow * bool) StoreError :=
  match resolution with
  | Compatible => let? row := read_project_row snap id in Ok (row, distinguishes)
  | Strict =>
      let? row := read_project_row_strict snap ws id in
      let? exist := users_exist snap in
      let distinguishes := distinguishes || exist in
      match pr_user_id principal with
      | Some u =>
          let? exists_ := query snap StUserExists (bool_decide (u ∈ users (db snap))) in
          bail_if negb exists_ with StoreForbidden "authenticated user no longer exists";;
          Ok (row, distinguishes)
      | None => Ok (row, distinguishes)
      end
  end.

(** The caller's grant, when the decision can need it. *)
Definition resolve_grant (snap : Snapshot) (ws : WorkspaceId) (id : ProjectId)
    (principal : ProjectPrincipal) (row : ProjectRow) (resolution : Resolution)
    : result (option GrantLevel) StoreError :=
  if row_reserved_global row || bool_decide (row_access_mode row = Restricted) then
    match pr_user_id principal with
    | Some u =>
        match read_grant snap ws id u with
        | Ok g => Ok g
        | Err err =>
            if bool_decide (resolution = Strict) then Err err
            else if row_reserved_global row then Ok None
            else Err err
        end
    | None => Ok None
    end
  else Ok None.

Definition resolve (snap : Snapshot) (ws : WorkspaceId) (id : ProjectId)
    (principal : ProjectPrincipal) (distinguishes : bool) (resolution : Resolution)
    : result ProjectAuthz StoreError :=
  let? resolved := resolve_row snap ws id principal distinguishes resolution in
  let '(row, distinguishes) := resolved in
  let is_creator := pr_is_creator principal
                    || (match row_creator row with Some _ => true | None => false end
                        && bool_decide (row_creator row = pr_user_id principal)) in
  let? g := resolve_grant snap ws id principal row resolution in
  Ok (mkProjectAuthz distinguishes (row_access_mode row) (pr_is_root principal) is_creator g
        (row_reserved_global row)).

Definition resolve_project_authz (snap : Snapshot) (ws : WorkspaceId) (id : ProjectId)
    (principal : ProjectPrincipal) (distinguishes : bool) : result ProjectAuthz StoreError :=
  resolve snap ws id principal distinguishes Compatible.

Definition resolve_project_authz_strict (snap : Snapshot) (ws : WorkspaceId) (id : ProjectId)
    (principal : ProjectPrincipal) (distinguishes : bool) : result ProjectAuthz StoreError :=
  resolve snap ws id principal distinguishes Strict.

(** [ReaderPool::authorize_project], and the writer's command of that name. *)
Definition decide_access (snap : Snapshot) (ws : WorkspaceId) (id : ProjectId)
    (principal : ProjectPrincipal) (distinguishes : bool) (need : ProjectAccess)
    : result (result unit string) StoreError :=
  let? ctx := resolve_project_authz snap ws id principal distinguishes in
  Ok (authorize ctx need).
