(* ===== verification/ProjectAuthzFacts.v ===== *)
(** * Who is admitted to a project *)

From S2P Require Export ProjectAuthz.

Local Open Scope rust_scope.
Local Open Scope string_scope.

(** The caller is on the project's row as its creator. *)
Definition created_by (principal : ProjectPrincipal) (p : ProjectTuple) : Prop :=
  ∃ u, pt_created_by p = Some (Some u) ∧ pr_user_id principal = Some u.

(** The stored grants that admit [need]. *)
Definition grants_access (level : string) (need : ProjectAccess) : Prop :=
  level = "write" ∨ level = "read" ∧ need = Read.

(** Entitlement, from the stored rows alone. *)
Inductive entitled (snap : Snapshot) (ws : WorkspaceId) (id : ProjectId)
    (principal : ProjectPrincipal) (need : ProjectAccess) : Prop :=
  | entitled_unknown : project_by_id (db snap) id = None → entitled snap ws id principal need
  | entitled_open p workspace :
      project_by_id (db snap) id = Some (p, workspace) →
      pt_access_mode p ≠ Some "restricted" →
      (is_reserved_global workspace (pt_name p) = true → need = Read) →
      entitled snap ws id principal need
  | entitled_root : pr_is_root principal = true → entitled snap ws id principal need
  | entitled_creator p workspace :
      project_by_id (db snap) id = Some (p, workspace) →
      (is_reserved_global workspace (pt_name p) = true → need = Read) →
      pr_is_creator principal = true ∨ created_by principal p →
      entitled snap ws id principal need
  | entitled_grant u level :
      pr_user_id principal = Some u → fault snap StGrant = None →
      grants (db snap) !! (ws, (id, u)) = Some level → grants_access level need →
      entitled snap ws id principal need.

Lemma query_Ok {A} snap st (rows a : A) :
  query snap st rows = Ok a ↔ fault snap st = None ∧ rows = a.
Proof. unfold query. destruct (fault snap st); naive_solver. Qed.

Lemma grant_level_from_db_Some level g :
  grant_level_from_db level = Some g ↔ level = grant_level_str g.
Proof.
  unfold grant_level_from_db. destruct (decide (level = "read")) as [->|H1];
    [|destruct (decide (level = "write")) as [->|H2]]; destruct g; simpl; naive_solver.
Qed.

(** What [authorize] needs of a grant. *)
Definition admits (g : option GrantLevel) (need : ProjectAccess) : bool :=
  match need, g with
  | Read, Some _ | Write, Some GrantWrite => true
  | _, _ => false
  end.

Lemma authorize_Ok ctx need :
  authorize ctx need = Ok tt ↔
  distinguishes_operators ctx = false ∨ is_root ctx = true ∨ admits (grant ctx) need = true ∨
  ((reserved_global ctx = true → need = Read) ∧ (access_mode ctx = Open ∨ is_creator ctx = true)).
Proof.
  destruct ctx as [d m r c g s]. unfold authorize, admits. simpl.
  destruct d; simpl; [|naive_solver].
  destruct need, g as [[]|], s, m, r, c; simpl; naive_solver.
Qed.

Section Decide.
Variable snap : Snapshot.
Variable ws : WorkspaceId.
Variable id : ProjectId.
Variable principal : ProjectPrincipal.

(** The grant a resolution finds, if it is the caller's business. *)
Lemma resolve_grant_admits row resolution g need :
  resolve_grant snap ws id principal row resolution = Ok g →
  row_reserved_global row = true ∨ row_access_mode row = Restricted →
  admits g need = true ↔
  ∃ u level, pr_user_id principal = Some u ∧ fault snap StGrant = None ∧
    grants (db snap) !! (ws, (id, u)) = Some level ∧ grants_access level need.
Proof.
  unfold resolve_grant, read_grant. intros H Hneed.
  destruct (row_reserved_global row || bool_decide (row_access_mode row = Restricted)) eqn:E.
  2: { apply orb_false_iff in E as [E1 E2%bool_decide_eq_false]. destruct Hneed; congruence. }
  destruct (pr_user_id principal) as [u|] eqn:Eu; [|simplify_eq; split; [by destruct need|naive_solver]].
  unfold query in H. destruct (fault snap StGrant) as [msg|]; simpl in H.
  { destruct (bool_decide (resolution = Strict)); [done|].
    destruct (row_reserved_global row); [|done]. injection H as <-.
    split; [by destruct need|naive_solver]. }
  injection H as <-. destruct (grants (db snap) !! _) as [level|] eqn:Eg; simpl; [|split; [by destruct need|naive_solver]].
  split.
  - destruct (grant_level_from_db level) as [g|] eqn:El; [|by destruct need].
    apply grant_level_from_db_Some in El as ->. unfold grants_access.
    destruct need, g; simpl; naive_solver.
  - intros (u' & level' & Hu' & _ & Hl & Ha). simplify_eq. destruct Ha as [->|[-> Hn]]; [by destruct need|by subst need].
Qed.

Lemma created_by_row p workspace row :
  row = mkProjectRow (access_mode_from_db (pt_access_mode p)) (mjoin (pt_created_by p))
          (is_reserved_global workspace (pt_name p)) →
  (match row_creator row with Some _ => true | None => false end
   && bool_decide (row_creator row = pr_user_id principal)) = true ↔ created_by principal p.
Proof.
  intros ->. simpl. unfold created_by. destruct (pt_created_by p) as [[u|]|]; simpl;
    rewrite ?bool_decide_eq_true; naive_solver.
Qed.

Lemma access_mode_open p : access_mode_from_db p = Open ↔ p ≠ Some "restricted".
Proof. unfold access_mode_from_db. destruct (decide _); naive_solver. Qed.

(** The row the compatible resolution works with. *)
Definition row_of (found : option (ProjectTuple * string)) : ProjectRow :=
  match found with
  | Some (p, workspace) =>
      mkProjectRow (access_mode_from_db (pt_access_mode p)) (mjoin (pt_created_by p))
        (is_reserved_global workspace (pt_name p))
  | None => mkProjectRow Open None false
  end.

Lemma resolve_compatible distinguishes ctx :
  resolve_project_authz snap ws id principal distinguishes = Ok ctx ↔
  fault snap StProjectRow = None ∧
  let row := row_of (project_by_id (db snap) id) in
  ∃ g, resolve_grant snap ws id principal row Compatible = Ok g ∧
    ctx = mkProjectAuthz distinguishes (row_access_mode row) (pr_is_root principal)
            (pr_is_creator principal
             || (match row_creator row with Some _ => true | None => false end
                 && bool_decide (row_creator row = pr_user_id principal)))
            g (row_reserved_global row).
Proof.
  unfold resolve_project_authz, resolve, resolve_row, read_project_row, query.
  destruct (fault snap StProjectRow); cbn [result_bind]; [naive_solver|].
  assert (Hrow : ∀ row, row_of (project_by_id (db snap) id) = row →
    match project_by_id (db snap) id with
    | Some (p, workspace) =>
        Ok (mkProjectRow (access_mode_from_db (pt_access_mode p)) (mjoin (pt_created_by p))
              (is_reserved_global workspace (pt_name p)))
    | None => Ok (mkProjectRow Open None false)
    end = (Ok row : result ProjectRow StoreError)).
  { intros row <-. by destruct (project_by_id (db snap) id) as [[p workspace]|]. }
  rewrite (Hrow _ eq_refl). cbn [result_bind].
  destruct (resolve_grant _ _ _ _ _ _) as [g|err]; cbn [result_bind].
  - split; [intros [= <-]; eauto|]. intros (_ & g' & [= <-] & ->). done.
  - split; [done|]. by intros (_ & g' & ? & _).
Qed.

(** A resolved project row. *)
Lemma decide_known p workspace distinguishes need ctx :
  project_by_id (db snap) id = Some (p, workspace) →
  resolve_project_authz snap ws id principal distinguishes = Ok ctx →
  authorize ctx need = Ok tt ↔ distinguishes = false ∨ entitled snap ws id principal need.
Proof.
  intros Hp (Hf & g & Hgr & ->)%resolve_compatible. rewrite Hp in *. rewrite authorize_Ok.
  cbn [distinguishes_operators is_root is_creator grant reserved_global access_mode].
  rewrite orb_true_iff, (created_by_row p workspace) by done. cbn [row_of row_access_mode row_reserved_global].
  rewrite access_mode_open. pose proof (resolve_grant_admits _ _ _ need Hgr) as Hg. simpl in Hg.
  split.
  - intros [?|[?|[Ha|[Hres [?|?]]]]]; [by left|right; by apply entitled_root| |right..].
    + right. destruct (decide (is_reserved_global workspace (pt_name p) = true ∨
                       access_mode_from_db (pt_access_mode p) = Restricted)) as [Hd|Hd].
      * apply Hg in Ha as (u & level & ? & ? & ? & ?); [|done]. by eapply entitled_grant.
      * eapply entitled_open; [done| |tauto]. rewrite <- access_mode_open.
        destruct (access_mode_from_db (pt_access_mode p)); tauto.
    + by eapply entitled_open.
    + by eapply entitled_creator.
  - intros [?|He]; [by left|]. right.
    destruct He as [|p' w' Hp' Hm Hr|?|p' w' Hp' Hr Hc|u level ? ? ? ?]; simplify_eq; [tauto|tauto|tauto|].
    destruct (decide (is_reserved_global workspace (pt_name p) = true ∨
                       access_mode_from_db (pt_access_mode p) = Restricted)) as [Hd|Hd].
    + right. left. apply Hg; [done|]. by exists u, level.
    + right. right. split; [tauto|]. left. rewrite <- access_mode_open.
      destruct (access_mode_from_db (pt_access_mode p)); tauto.
Qed.

(** A resolved state admits exactly the entitled. *)
Lemma authorize_admits distinguishes need ctx :
  resolve_project_authz snap ws id principal distinguishes = Ok ctx →
  authorize ctx need = Ok tt ↔ distinguishes = false ∨ entitled snap ws id principal need.
Proof.
  intros Hctx. destruct (project_by_id (db snap) id) as [[p workspace]|] eqn:Hp; [by eapply decide_known|].
  apply resolve_compatible in Hctx as (_ & g & _ & ->). rewrite Hp, authorize_Ok. simpl.
  split; [|by right; right; right; split; [|left]]. intros _. right. by apply entitled_unknown.
Qed.

End Decide.

Lemma read_row_strict snap ws id row :
  read_project_row_strict snap ws id = Ok row →
  fault snap StProjectRow = None ∧ row_of (project_by_id (db snap) id) = row ∧
  ∃ p workspace, project_by_id (db snap) id = Some (p, workspace) ∧ pt_workspace p = ws.
Proof.
  unfold read_project_row_strict. intros (found & [Hf <-]%query_Ok & H)%result_bind_Ok.
  split; [done|]. destruct (project_by_id (db snap) id) as [[p workspace]|]; [|done].
  apply bail_Ok in H as [Hws%negb_false_iff%bool_decide_eq_true H].
  apply result_bind_Ok in H as (m & Hm & (c & Hc & [= <-])%result_bind_Ok). split; [|by exists p, workspace].
  unfold row_of. f_equal.
  - unfold access_mode_from_db. destruct (pt_access_mode p) as [mode|]; [|done].
    destruct (decide (mode = "open")) as [->|]; [by simplify_eq|].
    destruct (decide (mode = "restricted")) as [->|]; by simplify_eq.
  - destruct (pt_created_by p) as [[u|]|]; by simplify_eq.
Qed.

(** The strict resolution of managed-run writes never admits more: when
    it resolves at all, the ordinary resolution does too, whatever the strict
    one admits the ordinary one admits, the project is in the named workspace,
    and the two states are the same unless database users exist on a
    deployment whose auth level does not distinguish operators. *)
Theorem strict_refines_compatible snap ws id principal distinguishes strict :
  resolve_project_authz_strict snap ws id principal distinguishes = Ok strict →
  ∃ ctx, resolve_project_authz snap ws id principal distinguishes = Ok ctx ∧
    (∀ need, authorize strict need = Ok tt → authorize ctx need = Ok tt) ∧
    (∃ p workspace, project_by_id (db snap) id = Some (p, workspace) ∧ pt_workspace p = ws) ∧
    (distinguishes = true ∨ users (db snap) = ∅ → ctx = strict).
Proof.
  unfold resolve_project_authz_strict, resolve, resolve_row, users_exist. intros H.
  apply result_bind_Ok in H as ([row d] & Hrow & H).
  apply result_bind_Ok in Hrow as (row' & (Hf & Hof & Hp)%read_row_strict & Hrow).
  apply result_bind_Ok in Hrow as (exist & [_ <-]%query_Ok & Hrow).
  assert (row = row' ∧ d = distinguishes || negb (bool_decide (users (db snap) = ∅))) as [-> ->].
  { destruct (pr_user_id principal) as [u|]; [|by simplify_eq].
    apply result_bind_Ok in Hrow as (e & _ & [_ Hrow]%bail_Ok). by simplify_eq. }
  apply result_bind_Ok in H as (g & Hg & [= <-]).
  assert (Hg' : resolve_grant snap ws id principal row' Compatible = Ok g).
  { unfold resolve_grant in *. destruct (row_reserved_global row' || _); [|done].
    destruct (pr_user_id principal) as [u|]; [|done]. destruct (read_grant snap ws id u); [done|].
    by rewrite bool_decide_true in Hg. }
  eexists. split; [apply resolve_compatible; split; [done|]; rewrite Hof; by exists g|].
  split; [|split; [done|]].
  - intros need. rewrite !authorize_Ok. simpl. destruct distinguishes; naive_solver.
  - intros [->|Hu]; [done|]. rewrite (bool_decide_true _ Hu). simpl.
    by rewrite orb_false_r.
Qed.

(** ** A concrete store *)

(** One restricted project created by user 1, with a read grant for user 2. *)
Definition demo_db : Db :=
  mkDb [(7%N, "team")] [mkProjectTuple 5%N 7%N "secret" "" "" (Some "restricted") (Some (Some 1%N))]
    {[ (7%N, (5%N, 2%N)) := "read" ]} {[ 1%N; 2%N ]} [].

Definition demo_snapshot : Snapshot := mkSnapshot demo_db (λ _, None).


Lemma strict_refines_compatible_witness :
  let strict := mkProjectAuthz true Restricted false true None false in
  ∃ ctx, resolve_project_authz demo_snapshot 7%N 5%N (user_principal 1%N) false = Ok ctx ∧
    (∀ need, authorize strict need = Ok tt → authorize ctx need = Ok tt) ∧
    (∃ p workspace, project_by_id (db demo_snapshot) 5%N = Some (p, workspace) ∧ pt_workspace p = 7%N) ∧
    (false = true ∨ users (db demo_snapshot) = ∅ → ctx = strict).
Proof.
  intros strict.
  apply (strict_refines_compatible demo_snapshot 7%N 5%N (user_principal 1%N) false strict).
  vm_compute. reflexivity.
Defined.
