(* ===== verification/ProjectNames.v ===== *)
(** * Project names

    Models name resolution of [crates/ai-memory-store/src/project_coordinates.rs]
    (without a repository identity) and the writer's create-or-resolve
    transactions of [ops.rs].  A transaction that fails leaves the tables as
    they were; new ids are arguments. *)

From S2P Require Export ProjectAuthz.

Local Open Scope rust_scope.
Local Open Scope string_scope.

Definition MAX_COORDINATE_ROWS : nat := 4.

Record MatchProvenance := mkMatchProvenance {
  exact : bool;
  canonical_compat : bool;
  legacy_compat : bool;
}.

Definition requested_match (p : MatchProvenance) : bool :=
  exact p || canonical_compat p || legacy_compat p.

Record ProjectCoordinateMatch := mkProjectCoordinateMatch {
  cm_id : ProjectId;
  cm_current_name : string;
  cm_canonical_name : option string;
  cm_legacy_name : option string;
  cm_restricted : bool;
  cm_provenance : MatchProvenance;
}.

Definition nullif_empty (s : string) : option string := if decide (s = "") then None else Some s.

(** [MATCH_SQL] for a name and no repository: the three probes, united by id,
    exact matches first, then by id. *)
Section Matches.
Variable d : Db.
Variable ws : WorkspaceId.
Variable requested : string.

Definition exact_rows : list ProjectTuple :=
  filter (λ p, pt_workspace p = ws ∧ pt_name p = requested) (projects d).

Definition canonical_rows : list ProjectTuple :=
  filter (λ p, pt_workspace p = ws ∧ pt_canonical_name p = requested ∧ pt_canonical_name p ≠ "")
    (projects d).

Definition legacy_rows : list ProjectTuple :=
  filter (λ p, pt_workspace p = ws ∧ pt_legacy_name p = requested ∧ pt_legacy_name p ≠ "") (projects d).

Definition provenance_of (max_rows : nat) (p : ProjectTuple) : MatchProvenance :=
  mkMatchProvenance (bool_decide (p ∈ exact_rows)) (bool_decide (p ∈ take max_rows canonical_rows))
    (bool_decide (p ∈ take max_rows legacy_rows)).

(** [ORDER BY exact_match DESC, id]: 0 for the exact row. *)
Definition match_key (m : ProjectTuple * MatchProvenance) : nat * N :=
  ((if exact (snd m) then 0 else 1)%nat, pt_id (fst m)).

Definition match_key_lt (a b : nat * N) : bool :=
  (fst a <? fst b)%nat || ((fst a =? fst b)%nat && (snd a <? snd b)%N).

Definition match_of (m : ProjectTuple * MatchProvenance) : ProjectCoordinateMatch :=
  let '(p, prov) := m in
  mkProjectCoordinateMatch (pt_id p) (pt_name p) (nullif_empty (pt_canonical_name p))
    (nullif_empty (pt_legacy_name p)) (bool_decide (pt_access_mode p = Some "restricted")) prov.

Definition matches_bounded (max_rows : nat) : list ProjectCoordinateMatch :=
  let united := filter (λ m, requested_match (snd m) = true)
                  ((λ p, (p, provenance_of max_rows p)) <$> projects d) in
  match_of <$> take max_rows (sort_by_key match_key match_key_lt united).
End Matches.

Definition matches (d : Db) (ws : WorkspaceId) (requested : string) : list ProjectCoordinateMatch :=
  matches_bounded d ws requested MAX_COORDINATE_ROWS.

Definition ambiguous_holder (m : ProjectCoordinateMatch) : option string * AmbiguousMatch :=
  (if cm_restricted m then None else Some (cm_current_name m),
   if exact (cm_provenance m) then MatchName
   else if canonical_compat (cm_provenance m) then MatchCanonicalKey else MatchLegacyKey).

(** [project_coordinates::resolve]. *)
Definition resolve_name (snap : Snapshot) (ws : WorkspaceId) (requested : string)
    : result (option ProjectCoordinateMatch) StoreError :=
  let? rows := query snap StMatches (matches (db snap) ws requested) in
  match filter (λ m, requested_match (cm_provenance m) = true) rows with
  | [] => Ok None
  | [m] => Ok (Some m)
  | ms => Err (ProjectNameAmbiguous requested (ambiguous_holder <$> ms))
  end.

Definition resolve_existing_project_name (snap : Snapshot) (ws : WorkspaceId) (name : string)
    : result (option ProjectId) StoreError :=
  let? m := resolve_name snap ws name in Ok (cm_id <$> m).

Definition promotion_target (m : ProjectCoordinateMatch) (requested : string) : option string :=
  match cm_canonical_name m with
  | Some canonical =>
      if bool_decide (canonical = requested) && negb (bool_decide (canonical = cm_current_name m))
      then Some canonical else None
  | None => None
  end.

(** ** Workspaces *)

Definition workspace_by_name (d : Db) (name : string) : option WorkspaceId :=
  match list_find (λ w, snd w = name) (workspaces d) with Some (_, (id, _)) => Some id | None => None end.

Definition find_workspace (snap : Snapshot) (name : string) : result (option WorkspaceId) StoreError :=
  query snap StFindWorkspace (workspace_by_name (db snap) name).

Definition project_name_by_id (snap : Snapshot) (ws : WorkspaceId) (id : ProjectId)
    : result (option string) StoreError :=
  query snap StProjectName
    match list_find (λ p, pt_id p = id ∧ pt_workspace p = ws) (projects (db snap)) with
    | Some (_, p) => Some (pt_name p)
    | None => None
    end.

Definition workspace_name_by_id (snap : Snapshot) (ws : WorkspaceId) : result (option string) StoreError :=
  query snap StFindWorkspace (workspace_name (db snap) ws).

Definition find_project (snap : Snapshot) (ws : WorkspaceId) (name : string)
    : result (option ProjectId) StoreError :=
  query snap StFindProject
    match list_find (λ p, pt_workspace p = ws ∧ pt_name p = name) (projects (db snap)) with
    | Some (_, p) => Some (pt_id p)
    | None => None
    end.

(** What a transaction leaves: the tables and its result. *)
Definition Transaction (A : Type) : Type := Db * result A StoreError.

(** Rolled back on an error. *)
Definition transaction {A} (snap : Snapshot) (body : result (Db * A) StoreError) : Transaction A :=
  match query snap StBegin tt, body, query snap StCommit tt with
  | Ok _, Ok (d, a), Ok _ => (d, Ok a)
  | Err e, _, _ | _, Err e, _ | _, _, Err e => (db snap, Err e)
  end.

Definition insert_workspace (d : Db) (id : WorkspaceId) (name : string) : Db :=
  mkDb (workspaces d ++ [(id, name)]) (projects d) (grants d) (users d) (audit_log d).

Definition get_or_create_workspace (snap : Snapshot) (fresh : WorkspaceId) (name : string)
    : Transaction WorkspaceId :=
  transaction snap
    (let? existing := query snap StFindWorkspace (workspace_by_name (db snap) name) in
     match existing with
     | Some id => Ok (db snap, id)
     | None =>
         let? _u := query snap StInsertWorkspace tt in
         Ok (insert_workspace (db snap) fresh name, fresh)
     end).

(** ** Creating and renaming projects *)

Definition is_profile_project (name : string) : bool :=
  bool_decide (name = WORKSPACE_PROFILE_PROJECT) || String.prefix USER_PROFILE_PROJECT_PREFIX name.

Definition initial_access_mode (name : string) (default_mode : AccessMode) : AccessMode :=
  if String.prefix USER_PROFILE_PROJECT_PREFIX name then Restricted
  else if bool_decide (name ∈ [DEFAULT_PROJECT_NAME; GLOBAL_SCOPE_PROJECT; WORKSPACE_PROFILE_PROJECT])
  then Open
  else default_mode.

Definition insert_project (d : Db) (p : ProjectTuple) : Db :=
  mkDb (workspaces d) (projects d ++ [p]) (grants d) (users d) (audit_log d).

(** The INSERT, with the table's unique and foreign-key constraints. *)
Definition insert_project_with_identityless_name (snap : Snapshot) (fresh : ProjectId)
    (ws : WorkspaceId) (name : string) (mode : AccessMode) (creator : option UserId)
    : result (Db * ProjectId) StoreError :=
  let d := db snap in
  let? _u := query snap StInsertProject tt in
  bail_if bool_decide (Exists (λ p, pt_workspace p = ws ∧ pt_name p = name) (projects d))
    with Sqlite "UNIQUE constraint failed: projects.workspace_id, projects.name";;
  bail_if negb (bool_decide (ws ∈ fst <$> workspaces d)
                && match creator with Some u => bool_decide (u ∈ users d) | None => true end)
    with Sqlite "FOREIGN KEY constraint failed";;
  Ok (insert_project d
        (mkProjectTuple fresh ws name "" "" (Some (access_mode_str mode)) (Some <$> creator)), fresh).

Definition contains_slash (name : string) : bool := existsb (Ascii.eqb "/"%char) (lit name).

Definition validate_project_rename (current new_name : string) : result string StoreError :=
  let trimmed := str (trim (lit new_name)) in
  bail_if bool_decide (trimmed = "")
    with InvalidProjectName "project name must not be empty or all whitespace";;
  bail_if contains_slash trimmed
    with InvalidProjectName "project name must not contain '/' (it appears in URL paths)";;
  bail_if is_profile_project trimmed
    with InvalidProjectName (trimmed +:+ " is reserved for the cross-project profile");;
  bail_if is_profile_project current
    with InvalidProjectName "a cross-project profile project cannot be renamed";;
  Ok trimmed.

Definition rename_row (id : ProjectId) (ws : WorkspaceId) (name : string) (p : ProjectTuple) : ProjectTuple :=
  if decide (pt_id p = id ∧ pt_workspace p = ws)
  then mkProjectTuple (pt_id p) (pt_workspace p) name (pt_canonical_name p) (pt_legacy_name p)
         (pt_access_mode p) (pt_created_by p)
  else p.

(** [rename_project_in_tx] with the current name given; the ids are left out
    of the message. *)
Definition rename_project_in_tx (snap : Snapshot) (ws : WorkspaceId) (id : ProjectId)
    (current new_name : string) (author : option UserId) (audit_op : string) : result Db StoreError :=
  let d := db snap in
  let? trimmed := validate_project_rename current new_name in
  let? _u := query snap StRename tt in
  bail_if negb (bool_decide (Exists (λ p, pt_id p = id ∧ pt_workspace p = ws) (projects d)))
    with NotFound "project id no longer exists";;
  bail_if bool_decide (Exists (λ p, pt_workspace p = ws ∧ pt_name p = trimmed ∧ pt_id p ≠ id) (projects d))
    with ProjectNameTaken trimmed;;
  let? _u := query snap StAudit tt in
  Ok (mkDb (workspaces d) (rename_row id ws trimmed <$> projects d) (grants d) (users d)
        (audit_log d ++ [mkAuditRow audit_op ws id author current trimmed])).

(** ** Resolving a name for a write *)

Record NameWriteResolution := mkNameWriteResolution {
  nr_project_id : ProjectId;
  nr_promoted_from : option string;
  nr_authorization_error : option string;
}.

(** A name that an existing project answers to. *)
Definition write_matched (snap : Snapshot) (ws : WorkspaceId) (requested : string)
    (principal : option ProjectPrincipal) (distinguishes promote : bool) (m : ProjectCoordinateMatch)
    : result (Db * NameWriteResolution) StoreError :=
  let? _u :=
    match principal with
    | Some principal =>
        let? ctx := resolve_project_authz snap ws (cm_id m) principal distinguishes in
        match authorize ctx Write with Ok _ => Ok tt | Err message => Err (StoreForbidden message) end
    | None => Ok tt
    end in
  match (if promote then promotion_target m requested else None) with
  | Some canonical =>
      let? d := rename_project_in_tx snap ws (cm_id m) (cm_current_name m) canonical
                  (principal ≫= pr_user_id) "promote_project_name" in
      Ok (d, mkNameWriteResolution (cm_id m) (Some (cm_current_name m)) None)
  | None => Ok (db snap, mkNameWriteResolution (cm_id m) None None)
  end.

(** A new name: the project is created, then decided on its own state. *)
Definition write_new (snap : Snapshot) (fresh : ProjectId) (ws : WorkspaceId) (requested : string)
    (principal : option ProjectPrincipal) (distinguishes : bool) (new_project_mode : AccessMode)
    : result (Db * NameWriteResolution) StoreError :=
  let? _u := query snap StOtherWorkspaces tt in
  let? inserted := insert_project_with_identityless_name snap fresh ws requested
                     (initial_access_mode requested new_project_mode) (principal ≫= pr_user_id) in
  let '(d, id) := inserted in
  let? refused :=
    match principal with
    | Some principal =>
        let? ctx := resolve_project_authz (mkSnapshot d (fault snap)) ws id principal distinguishes in
        Ok match authorize ctx Write with Ok _ => None | Err message => Some message end
    | None => Ok None
    end in
  Ok (d, mkNameWriteResolution id None refused).

Definition resolve_project_name_for_write (snap : Snapshot) (fresh : ProjectId) (ws : WorkspaceId)
    (requested : string) (principal : option ProjectPrincipal) (distinguishes promote : bool)
    (new_project_mode : AccessMode) : Transaction NameWriteResolution :=
  match query snap StBegin tt, resolve_name snap ws requested with
  | Ok _, Ok (Some m) =>
      transaction snap (write_matched snap ws requested principal distinguishes promote m)
  | Ok _, Ok None =>
      let '(d, r) := transaction snap
        (write_new snap fresh ws requested principal distinguishes new_project_mode) in
      match r, query snap StSchedulerState tt with
      | Ok resolved, Ok _ => (d, Ok resolved)
      | Ok _, Err e => (d, Err e)
      | Err e, _ => (d, Err e)
      end
  | Err e, _ | _, Err e => (db snap, Err e)
  end.
