(* ===== verification/ProjectNamesFacts.v ===== *)
(** * What a project name resolves to *)

From S2P Require Export ProjectAuthzFacts ProjectNames.

Local Open Scope rust_scope.
Local Open Scope string_scope.

(** The project answers to the name in its workspace. *)
Definition answers (ws : WorkspaceId) (requested : string) (p : ProjectTuple) : Prop :=
  pt_workspace p = ws ∧
  (pt_name p = requested ∨ (pt_canonical_name p = requested ∨ pt_legacy_name p = requested) ∧ requested ≠ "").

#[export] Instance answers_dec ws requested p : Decision (answers ws requested p) := _.

Section Resolve.
Variable d : Db.
Variable ws : WorkspaceId.
Variable requested : string.

Definition listed (max_rows : nat) (p : ProjectTuple) : Prop :=
  requested_match (provenance_of d ws requested max_rows p) = true.

#[export] Instance listed_dec max_rows p : Decision (listed max_rows p).
Proof. unfold listed. apply _. Defined.

Lemma listed_iff max_rows p :
  listed max_rows p ↔ p ∈ exact_rows d ws requested ∨ p ∈ take max_rows (canonical_rows d ws requested)
                   ∨ p ∈ take max_rows (legacy_rows d ws requested).
Proof.
  unfold listed, requested_match, provenance_of. simpl.
  rewrite !orb_true_iff, !bool_decide_eq_true. tauto.
Qed.

Lemma answers_rows p :
  p ∈ projects d ∧ answers ws requested p ↔
  p ∈ exact_rows d ws requested ∨ p ∈ canonical_rows d ws requested ∨ p ∈ legacy_rows d ws requested.
Proof.
  unfold exact_rows, canonical_rows, legacy_rows, answers. rewrite !list_elem_of_filter.
  split; [|naive_solver]. intros (Hp & Hws & [?|[[Hc|Hc] Hne]]); [tauto| |].
  - right. left. split_and!; congruence.
  - right. right. split_and!; congruence.
Qed.

(** More rows satisfy a predicate than any list of such rows has. *)
Lemma length_sublist_filter {A} (Q : A → Prop) `{∀ x, Decision (Q x)} (l k : list A) :
  sublist l k → Forall Q l → (length l ≤ length (filter Q k))%nat.
Proof.
  induction 1 as [|x l k Hs IH|x l k Hs IH]; intros HQ; simpl; [lia| |].
  - apply Forall_cons in HQ as [Hx HQ]. rewrite filter_cons_True by done. simpl.
    specialize (IH HQ). lia.
  - specialize (IH HQ). rewrite filter_cons. destruct (decide (Q x)); simpl; lia.
Qed.

Lemma sublist_take {A} n (l : list A) : sublist (take n l) l.
Proof. rewrite <- (take_drop n l) at 2. apply sublist_inserts_r. done. Qed.

Lemma sublist_filter_self {A} (Q : A → Prop) `{∀ x, Decision (Q x)} (l : list A) :
  sublist (filter Q l) l.
Proof.
  induction l as [|x l IH]; simpl; [constructor|]. rewrite filter_cons.
  destruct (decide (Q x)); by constructor.
Qed.

Lemma filter_ext_in {A} (Q R : A → Prop) `{∀ x, Decision (Q x), ∀ x, Decision (R x)} (l : list A) :
  (∀ x, x ∈ l → Q x ↔ R x) → filter Q l = filter R l.
Proof.
  induction l as [|x l IH]; intros Hl; [done|]. rewrite !filter_cons.
  rewrite IH by (intros y Hy; apply Hl; by right).
  pose proof (Hl x ltac:(left)) as Hx. destruct (decide (Q x)), (decide (R x)); naive_solver.
Qed.

(** The probes' limits hide a row only when at least [max_rows] are listed. *)
Lemma listed_or_many max_rows :
  filter (listed max_rows) (projects d) = filter (answers ws requested) (projects d) ∨
  ((max_rows ≤ length (filter (listed max_rows) (projects d)))%nat ∧
   (max_rows ≤ length (filter (answers ws requested) (projects d)))%nat).
Proof.
  assert (Hmany : ∀ rows, (rows = canonical_rows d ws requested ∨ rows = legacy_rows d ws requested) →
    ¬ (length rows ≤ max_rows)%nat →
    (max_rows ≤ length (filter (listed max_rows) (projects d)))%nat ∧
    (max_rows ≤ length (filter (answers ws requested) (projects d)))%nat).
  { intros rows Hrows Hl.
    assert (Hsub : sublist (take max_rows rows) (projects d)).
    { etrans; [apply sublist_take|]. destruct Hrows as [-> | ->]; apply sublist_filter_self. }
    assert (Hlen : length (take max_rows rows) = max_rows) by (rewrite length_take; lia).
    split; (etrans; [apply eq_sym, Nat.eq_le_incl in Hlen; exact Hlen|]);
      apply length_sublist_filter; try done; apply Forall_forall; intros p Hp.
    - apply listed_iff. destruct Hrows as [-> | ->]; tauto.
    - assert (p ∈ rows) by (rewrite <- (take_drop max_rows rows); apply elem_of_app; by left).
      apply answers_rows. destruct Hrows as [-> | ->]; tauto. }
  destruct (decide (length (canonical_rows d ws requested) ≤ max_rows)%nat) as [Hc|Hc]; [|right; eauto].
  destruct (decide (length (legacy_rows d ws requested) ≤ max_rows)%nat) as [Hl|Hl]; [|right; eauto].
  left. apply filter_ext_in. intros p Hp. rewrite listed_iff, !take_ge by done.
  rewrite <- answers_rows. tauto.
Qed.

Lemma filter_fmap_requested max_rows (l : list ProjectTuple) :
  filter (λ m, requested_match (snd m) = true) ((λ p, (p, provenance_of d ws requested max_rows p)) <$> l)
  = (λ p, (p, provenance_of d ws requested max_rows p)) <$> filter (listed max_rows) l.
Proof.
  induction l as [|p l IH]; [done|]. rewrite fmap_cons, !filter_cons, IH.
  unfold listed. simpl. by destruct (decide _).
Qed.

(** The rows a lookup works with: some listed rows, in some order. *)
Lemma matches_bounded_rows max_rows :
  ∃ l, l ≡ₚ filter (listed max_rows) (projects d) ∧
    matches_bounded d ws requested max_rows
    = (λ p, match_of (p, provenance_of d ws requested max_rows p)) <$> take max_rows l.
Proof.
  unfold matches_bounded. rewrite filter_fmap_requested.
  set (f p := (p, provenance_of d ws requested max_rows p)).
  assert (Hp : sort_by_key match_key match_key_lt (f <$> filter (listed max_rows) (projects d))
               ≡ₚ f <$> filter (listed max_rows) (projects d)) by apply sort_by_key_perm.
  apply Permutation_map_inv in Hp as (l & Hl & Hp).
  exists l. split; [by symmetry|]. change (map f l) with (f <$> l) in Hl. rewrite Hl, <- fmap_take, <- list_fmap_compose. done.
Qed.

Lemma matches_requested max_rows :
  Forall (λ m, requested_match (cm_provenance m) = true) (matches_bounded d ws requested max_rows).
Proof.
  destruct (matches_bounded_rows max_rows) as (l & Hl & ->).
  apply Forall_fmap, Forall_take. rewrite Hl. apply Forall_forall.
  intros p [Hp _]%list_elem_of_filter. exact Hp.
Qed.
End Resolve.

Lemma filter_all {A} (Q : A → Prop) `{∀ x, Decision (Q x)} l : Forall Q l → filter Q l = l.
Proof. induction 1 as [|x l Hx _ IH]; [done|]. by rewrite filter_cons_True, IH. Qed.

(** The outcome of a lookup that does not fail. *)
Lemma resolve_name_outcome snap ws requested :
  fault snap StMatches = None →
  match filter (answers ws requested) (projects (db snap)) with
  | [] => resolve_name snap ws requested = Ok None
  | [p] => ∃ prov, resolve_name snap ws requested = Ok (Some (match_of (p, prov)))
  | _ => ∃ holders, resolve_name snap ws requested = Err (ProjectNameAmbiguous requested holders)
  end.
Proof.
  intros Hf. unfold resolve_name, query. rewrite Hf. cbn [result_bind]. unfold matches.
  rewrite (filter_all (λ m, requested_match (cm_provenance m) = true)) by apply matches_requested.
  destruct (matches_bounded_rows (db snap) ws requested MAX_COORDINATE_ROWS) as (l & Hl & ->).
  destruct (listed_or_many (db snap) ws requested MAX_COORDINATE_ROWS) as [E|[H1 H2]].
  - rewrite E in Hl. destruct (filter (answers ws requested) (projects (db snap))) as [|p [|q rest]].
    + apply Permutation_nil_r in Hl as ->. done.
    + apply Permutation_singleton_r in Hl as ->. by eexists.
    + apply Permutation_length in Hl. simpl in Hl. destruct l as [|x [|y l]]; try done. by eexists.
  - apply Permutation_length in Hl. unfold MAX_COORDINATE_ROWS in *.
    destruct (filter (answers ws requested) (projects (db snap))) as [|p [|q rest]]; simpl in H2; try lia.
    destruct l as [|x [|y l]]; simpl in Hl; try lia. by eexists.
Qed.

Lemma resolve_name_inv snap ws requested found :
  resolve_name snap ws requested = Ok found →
  found = None ∧ filter (answers ws requested) (projects (db snap)) = [] ∨
  ∃ p prov, found = Some (match_of (p, prov)) ∧ filter (answers ws requested) (projects (db snap)) = [p].
Proof.
  intros H. assert (Hf : fault snap StMatches = None).
  { unfold resolve_name, query in H. by destruct (fault snap StMatches). }
  pose proof (resolve_name_outcome snap ws requested Hf) as Ho.
  destruct (filter _ _) as [|p [|q rest]].
  - rewrite Ho in H. injection H as <-. by left.
  - destruct Ho as (prov & Ho). rewrite Ho in H. injection H as <-. right. by exists p, prov.
  - destruct Ho as (holders & Ho). by rewrite Ho in H.
Qed.

Lemma resolve_existing_inv snap ws requested found :
  resolve_existing_project_name snap ws requested = Ok found →
  found = None ∧ filter (answers ws requested) (projects (db snap)) = [] ∨
  ∃ p, found = Some (pt_id p) ∧ filter (answers ws requested) (projects (db snap)) = [p].
Proof.
  unfold resolve_existing_project_name.
  intros (m & [[-> Hn]|(p & prov & -> & Hp)]%resolve_name_inv & [= <-])%result_bind_Ok; [by left|].
  right. by exists p.
Qed.

(** Name resolution of the read pool, whose three probes and their union are each limited
    to four rows, answers as the unlimited search would: no project when none
    in the workspace answers to the name (by its name, or a non-empty
    canonical or legacy key), that project when exactly one does, and the
    ambiguity error when several do. *)
Theorem resolve_name_correct snap ws requested :
  fault snap StMatches = None →
  match filter (answers ws requested) (projects (db snap)) with
  | [] => resolve_existing_project_name snap ws requested = Ok None
  | [p] => resolve_existing_project_name snap ws requested = Ok (Some (pt_id p))
  | _ => ∃ holders, resolve_existing_project_name snap ws requested
                    = Err (ProjectNameAmbiguous requested holders)
  end.
Proof.
  intros Hf%(resolve_name_outcome snap ws requested). unfold resolve_existing_project_name.
  destruct (filter _ _) as [|p [|q rest]].
  - by rewrite Hf.
  - by destruct Hf as (prov & ->).
  - destruct Hf as (holders & ->). by exists holders.
Qed.

(** Two projects answering to one name: a name and another's legacy key. *)
Definition shared_name_db : Db :=
  mkDb [(7%N, "team")]
    [mkProjectTuple 5%N 7%N "api" "" "" (Some "open") None;
     mkProjectTuple 6%N 7%N "backend" "acme-api" "api" (Some "restricted") None]
    ∅ ∅ [].

Lemma resolve_name_correct_witness :
  (∃ holders, resolve_existing_project_name (mkSnapshot shared_name_db (λ _, None)) 7%N "api"
              = Err (ProjectNameAmbiguous "api" holders)) ∧
  resolve_existing_project_name (mkSnapshot shared_name_db (λ _, None)) 7%N "acme-api"
    = Ok (Some 6%N).
Proof.
  split.
  - apply (resolve_name_correct (mkSnapshot shared_name_db (λ _, None)) 7%N "api"). reflexivity.
  - apply (resolve_name_correct (mkSnapshot shared_name_db (λ _, None)) 7%N "acme-api").
    reflexivity.
Defined.
