(* ===== verification/ScopeResolver.v ===== *)
(** * Scope resolution

    Models [crates/ai-memory-store/src/scope.rs]: which workspace and project
    a request is about, who may reach it, and the create-on-write policy.  A
    request is a sequence of calls to the read pool and the writer; other
    requests change the store between two calls, and a call may fail before it
    is delivered, or lose its reply after the writer committed.  The calls of
    a request are kept in its trace. *)

From S2P Require Export ProjectNames.

Local Open Scope rust_scope.
Local Open Scope string_scope.

Definition WORKSPACE_PROJECT_PAIR_REQUIRED : string := "workspace and project must be provided together".
Definition AMBIGUOUS_UNSCOPED_WRITE : string :=
  "cannot resolve a target for this write: the active-project pointer does not match this caller. Pass an explicit workspace and project, or install the lifecycle hooks so the pointer is populated".
(** A double quote. *)
Definition dquote : string := String "034"%char EmptyString.

Definition PROFILE_NAME_RESERVED : string :=
  "profile projects are reserved: write profile entries with scope " +:+ dquote +:+ "profile" +:+ dquote
  +:+ ", which resolves your own profile".
Definition PRIVATE_PROFILE_NEEDS_USER : string :=
  "this server keeps a private profile per database user; authenticate with your own API key to read or write yours".

Record ScopeName := mkScopeName { sn_workspace : string; sn_project : string }.

Record ResolvedScope := mkResolvedScope { workspace_id : WorkspaceId; project_id : ProjectId }.

#[export] Instance resolved_scope_eq_dec : EqDecision ResolvedScope.
Proof. solve_decision. Defined.

Record ResolvedWriteScope := mkResolvedWriteScope {
  scope : ResolvedScope;
  promoted_from : option string;
}.

Inductive ScopeSource :=
  | SrcExplicit | SrcSession | SrcSharedSlot | SrcStartupSeed | SrcDefault | SrcDefaultAfterMismatch.

#[export] Instance scope_source_eq_dec : EqDecision ScopeSource.
Proof. solve_decision. Defined.

Definition is_fallback (s : ScopeSource) : bool :=
  match s with SrcStartupSeed | SrcDefaultAfterMismatch => true | _ => false end.

Definition is_inferred (s : ScopeSource) : bool :=
  match s with SrcExplicit | SrcSession => false | _ => true end.

Inductive ScopeResolutionError :=
  | WorkspaceProjectPairRequired
  | ScopeWorkspaceEmpty
  | ScopeProjectEmpty
  | TooManyScopes (max actual : nat)
  | WorkspaceNotFound (workspace : string)
  | ProjectNotFoundInWorkspace (workspace project : string)
  | ScopeNameAmbiguous (workspace project : string) (holders : list (option string * AmbiguousMatch))
  | ProjectNotFoundInActiveOrDefault (project : string)
  | AmbiguousUnscopedWrite
  | WriterRequired
  | Forbidden (message : string)
  | ScopeStore (message : string).

Definition is_bad_request (e : ScopeResolutionError) : bool :=
  match e with
  | WorkspaceProjectPairRequired | ScopeWorkspaceEmpty | ScopeProjectEmpty | TooManyScopes _ _
  | ScopeNameAmbiguous _ _ _ | AmbiguousUnscopedWrite => true
  | _ => false
  end.

Definition is_not_found (e : ScopeResolutionError) : bool :=
  match e with
  | WorkspaceNotFound _ | ProjectNotFoundInWorkspace _ _ | ProjectNotFoundInActiveOrDefault _ => true
  | _ => false
  end.

Definition is_forbidden (e : ScopeResolutionError) : bool :=
  match e with Forbidden _ => true | _ => false end.

(** [Display] of the holders of an ambiguous name. *)
Definition holder_text (h : option string * AmbiguousMatch) : string :=
  (match snd h with
   | MatchName => "the name of "
   | MatchCanonicalKey => "the canonical key of "
   | MatchLegacyKey => "the legacy key of "
   end) +:+
  (match fst h with
   | Some name => "project '" +:+ name +:+ "'"
   | None => "a restricted project"
   end).

Fixpoint holders_tail (hs : list (option string * AmbiguousMatch)) : string :=
  match hs with
  | [] => ""
  | [h] => " and " +:+ holder_text h
  | h :: hs => ", " +:+ holder_text h +:+ holders_tail hs
  end.

Definition holders_text (hs : list (option string * AmbiguousMatch)) : string :=
  match hs with [] => "" | h :: hs => ": it is " +:+ holder_text h +:+ holders_tail hs end.

(** [Display] of [StoreError]. *)
Definition store_error_text (e : StoreError) : string :=
  match e with
  | Sqlite m => "sqlite: " +:+ m
  | MalformedRecord m => "malformed record: " +:+ m
  | StoreForbidden m => "forbidden: " +:+ m
  | InvalidProjectName m => "invalid project name: " +:+ m
  | ProjectNameTaken n => "project name '" +:+ n +:+ "' is already taken in this workspace"
  | NotFound m => "not found: " +:+ m
  | ProjectNameAmbiguous n hs =>
      "project name '" +:+ n +:+ "' is ambiguous in this workspace" +:+ holders_text hs
  | WriterClosed => "writer actor is no longer running"
  | ReaderClosed => "read connection pool is closed"
  | PoolPanic m => "reader pool task did not complete: " +:+ m
  end.

Definition from_store (e : StoreError) : ScopeResolutionError := ScopeStore (store_error_text e).

Definition project_lookup_error (e : StoreError) (workspace project : string) : ScopeResolutionError :=
  match e with
  | ProjectNameAmbiguous _ hs => ScopeNameAmbiguous workspace project hs
  | StoreForbidden message =>
      Forbidden ("not authorized for " +:+ project +:+ ": this needs write access. " +:+ message)
  | other => from_store other
  end.

Definition access_str (need : ProjectAccess) : string :=
  match need with Read => "read" | Write => "write" end.

Definition refusal_message (project : string) (held : option GrantLevel) (need : ProjectAccess) : string :=
  match held with
  | Some held =>
      "not authorized for " +:+ project +:+ ": you have " +:+ grant_level_str held
      +:+ " access and this needs " +:+ access_str need
      +:+ ". Ask the server operator to raise your access."
  | None =>
      "not authorized for " +:+ project
      +:+ ". This is an access problem, not an empty memory — ask the server operator to grant you "
      +:+ access_str need +:+ " access on it."
  end.

Definition trimmed_opt (value : option string) : option string :=
  match value with
  | Some s => let t := str (trim (lit s)) in if decide (t = "") then None else Some t
  | None => None
  end.

Definition split_slashed_project (value : string) : option (string * string) :=
  match split_once "/"%char (lit value) with
  | Some (l, r) =>
      if bool_decide (l = []) || bool_decide (r = []) || contains_slash (str r) then None
      else Some (str l, str r)
  | None => None
  end.

(** What scope resolution relies on of the active-project pointer. *)
Definition resolved_ids (l : ActiveProjectLookup) : option (WorkspaceId * ProjectId) :=
  match l with Resolved ws proj => Some (ws, proj) | Mismatch | Unset => None end.

Definition read_agrees (l : ActiveProjectLookup) (r : ReadPointer) : Prop :=
  match l with
  | Resolved ws proj => r = PointerSession ws proj ∨ r = PointerSharedSlot ws proj
  | Mismatch => r = PointerMismatch
  | Unset => r = PointerUnset ∨ ∃ ws proj, r = PointerStartupSeed ws proj
  end.

Class ProjectPointer (P : Type) := {
  pointer_lookup_for : ActorKey → P → P * ActiveProjectLookup;
  pointer_get_for : ActorKey → P → P * option (WorkspaceId * ProjectId);
  pointer_read : ActorKey → P → P * ReadPointer;
  pointer_get_lookup actor p :
    snd (pointer_get_for actor p) = resolved_ids (snd (pointer_lookup_for actor p));
  pointer_read_lookup actor p :
    read_agrees (snd (pointer_lookup_for actor p)) (snd (pointer_read actor p));
}.

(** ** Calls *)

Inductive Delivery := Delivered | Undelivered (e : StoreError) | ReplyLost (e : StoreError).

(** A call of the request: the snapshot it works on and, for the writer, the
    tables it leaves. *)
Inductive Call := Reading (snap : Snapshot) | Writing (snap : Snapshot) (after : Db).

Record Request (P : Type) := mkRequest {
  st_db : Db;
  st_trace : list Call;
  st_pointer : P;
}.

Arguments mkRequest {P}.
Arguments st_db {P}.
Arguments st_trace {P}.
Arguments st_pointer {P}.

(** A computation of a request that may fail. *)
Definition M (P E A : Type) : Type := Request P → Request P * result A E.

Section Monad.
Context {P : Type}.

Definition ret {E A} (a : A) : M P E A := λ s, (s, Ok a).
Definition throw {E A} (e : E) : M P E A := λ s, (s, Err e).

Definition bind {E A B} (m : M P E A) (k : A → M P E B) : M P E B := λ s,
  let (s, r) := m s in
  match r with Ok a => k a s | Err e => (s, Err e) end.

(** [map_err]. *)
Definition map_err {E E' A} (f : E → E') (m : M P E A) : M P E' A := λ s,
  let (s, r) := m s in
  (s, match r with Ok a => Ok a | Err e => Err (f e) end).

(** The result as a value. *)
Definition attempt {E E' A} (m : M P E A) : M P E' (result A E) := λ s,
  let (s, r) := m s in (s, Ok r).

Definition of_result {E A} (r : result A E) : M P E A := λ s, (s, r).

(** A [for] loop whose body may return early with an error. *)
Fixpoint for_each {E A} (body : A → M P E unit) (l : list A) : M P E unit :=
  match l with
  | [] => ret tt
  | x :: l => bind (body x) (λ _, for_each body l)
  end.
End Monad.

Notation "'let!' x := m 'in' k" := (bind m (λ x, k))
  (at level 10, x name, m at level 100, k at level 200,
   format "'let!'  x  :=  m  'in' '//' k") : rust_scope.

(** Pass a missing value or a refusal on as an error. *)
Definition ok_or {P E A} (o : option A) (e : E) : M P E A :=
  match o with Some a => ret a | None => throw e end.

(** The other requests, and the outcome of every call, by its number. *)
Record World := mkWorld {
  meanwhile_db : nat → Db → Db;
  faults : nat → Statement → option string;
  delivery : nat → Delivery;
  fresh_id : nat → N;
  new_project_mode : AccessMode;
  uuid_hyphenated : N → string;
  uuid_simple : N → string;
}.

Section Calls.
Context {P : Type}.
Variable w : World.

Definition next_snapshot (s : Request P) : Snapshot :=
  mkSnapshot (meanwhile_db w (length (st_trace s)) (st_db s)) (faults w (length (st_trace s))).

Definition reading {A} (f : Snapshot → result A StoreError) : M P StoreError A := λ s,
  let snap := next_snapshot s in
  (mkRequest (db snap) (st_trace s ++ [Reading snap]) (st_pointer s),
   match delivery w (length (st_trace s)) with
   | Delivered => f snap
   | Undelivered e | ReplyLost e => Err e
   end).

Definition writing {A} (f : Snapshot → N → Transaction A) : M P StoreError A := λ s,
  let snap := next_snapshot s in
  let (after, r) := f snap (fresh_id w (length (st_trace s))) in
  match delivery w (length (st_trace s)) with
  | Delivered => (mkRequest after (st_trace s ++ [Writing snap after]) (st_pointer s), r)
  | Undelivered e => (mkRequest (db snap) (st_trace s ++ [Reading snap]) (st_pointer s), Err e)
  | ReplyLost e => (mkRequest after (st_trace s ++ [Writing snap after]) (st_pointer s), Err e)
  end.

(** The reader's and the writer's methods. *)
Definition reader_find_workspace name := reading (λ snap, find_workspace snap name).
Definition reader_find_project ws name := reading (λ snap, find_project snap ws name).
Definition reader_workspace_name_by_id ws := reading (λ snap, workspace_name_by_id snap ws).
Definition reader_project_name_by_id ws id := reading (λ snap, project_name_by_id snap ws id).
Definition reader_resolve_existing_project_name ws name :=
  reading (λ snap, resolve_existing_project_name snap ws name).
Definition reader_resolve_project_authz ws id principal distinguishes :=
  reading (λ snap, resolve_project_authz snap ws id principal distinguishes).
Definition reader_authorize_project ws id principal distinguishes need :=
  reading (λ snap, decide_access snap ws id principal distinguishes need).
Definition writer_authorize_project := reader_authorize_project.
Definition writer_get_or_create_workspace name :=
  writing (λ snap fresh, get_or_create_workspace snap fresh name).
Definition writer_resolve_project_name_for_write ws name principal distinguishes promote :=
  writing (λ snap fresh, resolve_project_name_for_write snap fresh ws name principal distinguishes
                           promote (new_project_mode w)).

(** ** Free functions *)

Abbreviation Scoped := (M P ScopeResolutionError).

Definition lookup_existing_workspace (workspace : string) : Scoped WorkspaceId :=
  let! found := map_err from_store (reader_find_workspace workspace) in
  ok_or found (WorkspaceNotFound workspace).

Definition lookup_existing_scope (workspace project : string) : Scoped ResolvedScope :=
  let! ws := lookup_existing_workspace workspace in
  let! found := map_err (λ e, project_lookup_error e workspace project)
                  (reader_resolve_existing_project_name ws project) in
  let! id := ok_or found (ProjectNotFoundInWorkspace workspace project) in
  ret (mkResolvedScope ws id).

Definition create_explicit_scope (workspace project : string) : Scoped ResolvedWriteScope :=
  let! ws := map_err from_store (writer_get_or_create_workspace workspace) in
  let! resolved := map_err (λ e, project_lookup_error e workspace project)
                     (writer_resolve_project_name_for_write ws project None false true) in
  ret (mkResolvedWriteScope (mkResolvedScope ws (nr_project_id resolved)) (nr_promoted_from resolved)).

Definition decide_scope (writer : bool) (scope : ResolvedScope) (principal : ProjectPrincipal)
    (distinguishes : bool) (need : ProjectAccess) : Scoped unit :=
  let! decision := map_err from_store
    (match need, writer with
     | Write, true =>
         writer_authorize_project (workspace_id scope) (project_id scope) principal distinguishes need
     | _, _ =>
         reader_authorize_project (workspace_id scope) (project_id scope) principal distinguishes need
     end) in
  if is_ok decision then ret tt
  else
    let! authz := map_err from_store
      (reader_resolve_project_authz (workspace_id scope) (project_id scope) principal distinguishes) in
    let! found := map_err from_store (reader_project_name_by_id (workspace_id scope) (project_id scope)) in
    let name := match found with Some name => name | None => "the resolved project" end in
    throw (Forbidden (refusal_message name (grant authz) need)).

Definition authorize_scope_for (writer : bool) (scope : ResolvedScope) (viewer : option UserId)
    (need : ProjectAccess) : Scoped ResolvedScope :=
  match viewer with
  | None => ret scope
  | Some viewer =>
      let! _u := decide_scope writer scope (user_principal viewer) true need in
      ret scope
  end.

Definition lookup_existing_scope_guarded (workspace project : string) (viewer : option UserId)
    (need : ProjectAccess) : Scoped ResolvedScope :=
  let! scope := lookup_existing_scope workspace project in
  authorize_scope_for false scope viewer need.

Definition user_profile_project (u : UserId) : string :=
  USER_PROFILE_PROJECT_PREFIX +:+ uuid_simple w u.

Definition refuse_foreign_profile_name (workspace : option string) (project : string)
    (viewer : option UserId) : result unit ScopeResolutionError :=
  if negb (is_profile_project project) then Ok tt
  else
    match viewer with
    | None => Ok tt
    | Some viewer =>
        if bool_decide (workspace = Some DEFAULT_WORKSPACE_NAME)
           && bool_decide (project = user_profile_project viewer)
        then Ok tt
        else Err (Forbidden PROFILE_NAME_RESERVED)
    end.

Definition lookup_project_id_guarded (workspace : string) (id : ProjectId) (viewer : option UserId)
    (need : ProjectAccess) : Scoped ResolvedScope :=
  let! ws := lookup_existing_workspace workspace in
  let! found := map_err from_store (reader_project_name_by_id ws id) in
  let! project := ok_or found (ProjectNotFoundInWorkspace workspace (uuid_hyphenated w id)) in
  let! _u := of_result (if decide (need = Write)
                        then refuse_foreign_profile_name (Some workspace) project viewer else Ok tt) in
  authorize_scope_for false (mkResolvedScope ws id) viewer need.

Definition forbidden_after_create (project message : string) : ScopeResolutionError :=
  Forbidden ("not authorized for " +:+ project +:+ ": this needs write access. " +:+ message).

Definition create_project_in_workspace_guarded (ws : WorkspaceId) (workspace project : string)
    (viewer : option UserId) (promote : bool) : Scoped ResolvedWriteScope :=
  let principal := user_principal <$> viewer in
  let distinguishes := match viewer with Some _ => true | None => false end in
  let! resolved := map_err (λ e, project_lookup_error e workspace project)
    (writer_resolve_project_name_for_write ws project principal distinguishes promote) in
  match nr_authorization_error resolved with
  | Some message => throw (forbidden_after_create project message)
  | None => ret (mkResolvedWriteScope (mkResolvedScope ws (nr_project_id resolved))
                   (nr_promoted_from resolved))
  end.

Definition create_explicit_scope_guarded (workspace project : string) (viewer : option UserId)
    : Scoped ResolvedWriteScope :=
  let! _u := of_result (refuse_foreign_profile_name (Some workspace) project viewer) in
  let! ws := map_err from_store (writer_get_or_create_workspace workspace) in
  create_project_in_workspace_guarded ws workspace project viewer true.

(** *** The cross-project profile and the global scope *)

Definition lookup_global_scope : Scoped (option ResolvedScope) :=
  let! ws := map_err from_store (reader_find_workspace DEFAULT_WORKSPACE_NAME) in
  match ws with
  | None => ret None
  | Some ws =>
      let! id := map_err from_store (reader_find_project ws GLOBAL_SCOPE_PROJECT) in
      ret (mkResolvedScope ws <$> id)
  end.

Definition create_global_scope : Scoped ResolvedScope :=
  let! ws := map_err from_store (writer_get_or_create_workspace DEFAULT_WORKSPACE_NAME) in
  let! resolved := map_err (λ e, project_lookup_error e DEFAULT_WORKSPACE_NAME GLOBAL_SCOPE_PROJECT)
    (writer_resolve_project_name_for_write ws GLOBAL_SCOPE_PROJECT None false false) in
  ret (mkResolvedScope ws (nr_project_id resolved)).
End Calls.

(** [EffectiveProfileShare] of [crates/ai-memory-core/src/profile.rs]. *)
Inductive EffectiveProfileShare := ShareGlobal | ShareWorkspace | ShareUser.

Section Profile.
Context {P : Type}.
Variable w : World.
Abbreviation Scoped := (M P ScopeResolutionError).

Definition lookup_profile_scope (share : EffectiveProfileShare) (ws : WorkspaceId)
    (viewer : option UserId) : Scoped (option ResolvedScope) :=
  match share with
  | ShareGlobal => lookup_global_scope w
  | ShareWorkspace =>
      let! id := map_err from_store (reader_find_project w ws WORKSPACE_PROFILE_PROJECT) in
      ret (mkResolvedScope ws <$> id)
  | ShareUser =>
      match viewer with
      | None => ret None
      | Some viewer =>
          let! default_ws := map_err from_store (reader_find_workspace w DEFAULT_WORKSPACE_NAME) in
          match default_ws with
          | None => ret None
          | Some default_ws =>
              let! id := map_err from_store
                (reader_find_project w default_ws (user_profile_project w viewer)) in
              match id with
              | None => ret None
              | Some id =>
                  let! scope := authorize_scope_for w false (mkResolvedScope default_ws id)
                                  (Some viewer) Read in
                  ret (Some scope)
              end
          end
      end
  end.

Definition create_profile_scope (share : EffectiveProfileShare) (ws : WorkspaceId)
    (viewer : option UserId) : Scoped ResolvedScope :=
  match share with
  | ShareGlobal =>
      let! ws := map_err from_store (writer_get_or_create_workspace w DEFAULT_WORKSPACE_NAME) in
      let! resolved := create_project_in_workspace_guarded w ws DEFAULT_WORKSPACE_NAME
                         GLOBAL_SCOPE_PROJECT viewer false in
      ret (scope resolved)
  | ShareWorkspace =>
      let! found := map_err from_store (reader_workspace_name_by_id w ws) in
      let workspace := match found with Some name => name | None => uuid_hyphenated w ws end in
      let! resolved := create_project_in_workspace_guarded w ws workspace
                         WORKSPACE_PROFILE_PROJECT viewer false in
      ret (scope resolved)
  | ShareUser =>
      match viewer with
      | None => throw (Forbidden PRIVATE_PROFILE_NEEDS_USER)
      | Some viewer =>
          let! ws := map_err from_store (writer_get_or_create_workspace w DEFAULT_WORKSPACE_NAME) in
          let! resolved := create_project_in_workspace_guarded w ws DEFAULT_WORKSPACE_NAME
                             (user_profile_project w viewer) (Some viewer) false in
          ret (scope resolved)
      end
  end.

(** *** Several scopes *)

(** One round of the loop: the scopes so far, without repetition. *)
Fixpoint resolve_each (scopes : list ScopeName) (resolved : list ResolvedScope)
    : Scoped (list ResolvedScope) :=
  match scopes with
  | [] => ret resolved
  | name :: scopes =>
      let! workspace := ok_or (trimmed_opt (Some (sn_workspace name))) ScopeWorkspaceEmpty in
      let! project := ok_or (trimmed_opt (Some (sn_project name))) ScopeProjectEmpty in
      let! ids := lookup_existing_scope w workspace project in
      resolve_each scopes (if decide (ids ∈ resolved) then resolved else resolved ++ [ids])
  end.

Definition resolve_many_existing_scopes (scopes : list ScopeName) (max : nat)
    : Scoped (list ResolvedScope) :=
  if (max <? length scopes)%nat then throw (TooManyScopes max (length scopes))
  else resolve_each scopes [].

Definition resolve_many_existing_scopes_guarded (scopes : list ScopeName) (max : nat)
    (viewer : option UserId) (need : ProjectAccess) : Scoped (list ResolvedScope) :=
  let! resolved := resolve_many_existing_scopes scopes max in
  let! _u := for_each (λ scope, let! _s := authorize_scope_for w false scope viewer need in ret tt)
               resolved in
  ret resolved.
End Profile.

(** ** The resolver *)

Record ScopeResolver := mkScopeResolver {
  writer : bool;
  active_project : bool;
  default_workspace_id : WorkspaceId;
  default_project_id : ProjectId;
  authz : option ProjectPrincipal;
  sr_distinguishes : bool;
}.

Definition new_resolver (ws : WorkspaceId) (proj : ProjectId) : ScopeResolver :=
  mkScopeResolver false false ws proj None false.

Definition with_writer (r : ScopeResolver) : ScopeResolver :=
  mkScopeResolver true (active_project r) (default_workspace_id r) (default_project_id r) (authz r)
    (sr_distinguishes r).

Definition with_project_authz (principal : ProjectPrincipal) (distinguishes : bool) (r : ScopeResolver)
    : ScopeResolver :=
  mkScopeResolver (writer r) (active_project r) (default_workspace_id r) (default_project_id r)
    (Some principal) distinguishes.

Definition with_active_project (r : ScopeResolver) : ScopeResolver :=
  mkScopeResolver (writer r) true (default_workspace_id r) (default_project_id r) (authz r)
    (sr_distinguishes r).

Section Resolver.
Context `{ProjectPointer P}.
Variable w : World.
Variable r : ScopeResolver.
Abbreviation Scoped := (M P ScopeResolutionError).

(** A question to the attached pointer. *)
Definition ask_pointer {A} (question : P → P * A) : Scoped (option A) := λ s,
  if active_project r then
    let (p, a) := question (st_pointer s) in (mkRequest (st_db s) (st_trace s) p, Ok (Some a))
  else (s, Ok None).

Definition default_ids : WorkspaceId * ProjectId := (default_workspace_id r, default_project_id r).

Definition authorize_scope (scope : ResolvedScope) (need : ProjectAccess) : Scoped unit :=
  match authz r with
  | None => ret tt
  | Some principal => decide_scope w (writer r) scope principal (sr_distinguishes r) need
  end.

Definition lookup_existing (workspace project : string) : Scoped ResolvedScope :=
  lookup_existing_scope w workspace project.

Definition resolve_named_in_workspace (ws : WorkspaceId) (workspace project : string)
    (need : ProjectAccess) : Scoped (option ResolvedScope) :=
  let! found := map_err (λ e, project_lookup_error e workspace project)
                  (reader_resolve_existing_project_name w ws project) in
  match found with
  | None => ret None
  | Some id =>
      let scope := mkResolvedScope ws id in
      let! _u := authorize_scope scope need in
      ret (Some scope)
  end.

Definition resolve_explicit_pair (workspace project : string) (need : ProjectAccess)
    : Scoped ResolvedScope :=
  let! ws := lookup_existing_workspace w workspace in
  let! found := resolve_named_in_workspace ws workspace project need in
  ok_or found (ProjectNotFoundInWorkspace workspace project).

(** The errors after which a [workspace/project] label is tried. *)
Definition exact_miss (e : ScopeResolutionError) : bool :=
  match e with WorkspaceNotFound _ | ProjectNotFoundInWorkspace _ _ => true | _ => false end.

Definition source_of (pointer : ReadPointer) : ScopeSource :=
  match pointer with
  | PointerSession _ _ => SrcSession
  | PointerSharedSlot _ _ => SrcSharedSlot
  | PointerStartupSeed _ _ => SrcStartupSeed
  | PointerMismatch => SrcDefaultAfterMismatch
  | PointerUnset => SrcDefault
  end.

Definition resolve_current_or_project_traced (explicit_project : option string) (actor : ActorKey)
    (need : ProjectAccess) : Scoped (ResolvedScope * ScopeSource) :=
  let! asked := ask_pointer (pointer_read actor) in
  let pointer := match asked with Some p => p | None => PointerUnset end in
  let active := pointer_ids pointer in
  match trimmed_opt explicit_project with
  | Some project =>
      let! in_active :=
        match active with
        | Some (ws, _) => resolve_named_in_workspace ws "the active workspace" project need
        | None => ret None
        end in
      match in_active with
      | Some scope => ret (scope, SrcExplicit)
      | None =>
          let! in_default :=
            if decide (fst <$> active = Some (default_workspace_id r)) then ret None
            else resolve_named_in_workspace (default_workspace_id r) "the default workspace" project
                   need in
          match in_default with
          | Some scope => ret (scope, SrcExplicit)
          | None => throw (ProjectNotFoundInActiveOrDefault project)
          end
      end
  | None =>
      let (ws, id) := match active with Some ids => ids | None => default_ids end in
      let scope := mkResolvedScope ws id in
      let! _u := authorize_scope scope need in
      ret (scope, source_of pointer)
  end.

Definition resolve_existing_args_traced (explicit_workspace explicit_project : option string)
    (actor : ActorKey) (need : ProjectAccess) : Scoped (ResolvedScope * ScopeSource) :=
  match trimmed_opt explicit_workspace, trimmed_opt explicit_project with
  | Some workspace, Some project =>
      let! exact := attempt (resolve_explicit_pair workspace project need) in
      let! scope :=
        match exact, split_slashed_project project with
        | Err error, Some (label_workspace, label_project) =>
            if exact_miss error then
              map_err (λ _, error) (resolve_explicit_pair label_workspace label_project need)
            else throw error
        | exact, _ => of_result exact
        end in
      ret (scope, SrcExplicit)
  | Some _, None => throw WorkspaceProjectPairRequired
  | None, project => resolve_current_or_project_traced project actor need
  end.

Definition resolve_existing_args (explicit_workspace explicit_project : option string)
    (actor : ActorKey) (need : ProjectAccess) : Scoped ResolvedScope :=
  let! traced := resolve_existing_args_traced explicit_workspace explicit_project actor need in
  ret (fst traced).

Definition resolve_read_args (explicit_workspace explicit_project : option string) (actor : ActorKey)
    : Scoped ResolvedScope :=
  resolve_existing_args explicit_workspace explicit_project actor Read.

Definition resolve_read_args_traced (explicit_workspace explicit_project : option string)
    (actor : ActorKey) : Scoped (ResolvedScope * ScopeSource) :=
  resolve_existing_args_traced explicit_workspace explicit_project actor Read.

Definition resolve_current_or_project (explicit_project : option string) (actor : ActorKey)
    : Scoped ResolvedScope :=
  let! traced := resolve_current_or_project_traced explicit_project actor Read in
  ret (fst traced).

(** [resolve_write_args] without a project name. *)
Definition resolve_unscoped_write (actor : ActorKey) : Scoped ResolvedWriteScope :=
  let! asked := ask_pointer (pointer_lookup_for actor) in
  let! ids :=
    match asked with
    | Some (Resolved ws id) => ret (ws, id)
    | Some Mismatch => throw AmbiguousUnscopedWrite
    | Some Unset | None => ret default_ids
    end in
  let scope := mkResolvedScope (fst ids) (snd ids) in
  let! _u := authorize_scope scope Write in
  ret (mkResolvedWriteScope scope None).

Definition creator : option UserId := authz r ≫= pr_user_id.

(** [resolve_write_args] for a [workspace/project] label. *)
Definition resolve_slashed_write (explicit_workspace : option string)
    (active : option (WorkspaceId * ProjectId)) (project label_workspace label_project : string)
    : Scoped ResolvedWriteScope :=
  let! exact :=
    match trimmed_opt explicit_workspace with
    | Some workspace => attempt (resolve_explicit_pair workspace project Write)
    | None =>
        let ws := match active with Some (ws, _) => ws | None => default_workspace_id r end in
        let! found := resolve_named_in_workspace ws "the active workspace" project Write in
        ret match found with
            | Some scope => Ok scope
            | None => Err (ProjectNotFoundInWorkspace "the active workspace" project)
            end
    end in
  let! scope :=
    match exact with
    | Err error =>
        if exact_miss error then
          let! _u := of_result (refuse_foreign_profile_name w (Some label_workspace) label_project creator) in
          map_err (λ _, error) (resolve_explicit_pair label_workspace label_project Write)
        else throw error
    | Ok scope => ret scope
    end in
  ret (mkResolvedWriteScope scope None).

(** [resolve_write_args] for any other project name. *)
Definition resolve_named_write (explicit_workspace : option string)
    (active : option (WorkspaceId * ProjectId)) (project : string) : Scoped ResolvedWriteScope :=
  let! ws :=
    match trimmed_opt explicit_workspace with
    | Some workspace => map_err from_store (writer_get_or_create_workspace w workspace)
    | None => ret match active with Some (ws, _) => ws | None => default_workspace_id r end
    end in
  let! _u := of_result (refuse_foreign_profile_name w (trimmed_opt explicit_workspace) project creator) in
  let workspace := match trimmed_opt explicit_workspace with
                   | Some workspace => workspace | None => "the active workspace" end in
  let! resolved := map_err (λ e, project_lookup_error e workspace project)
    (writer_resolve_project_name_for_write w ws project (authz r) (sr_distinguishes r) true) in
  match nr_authorization_error resolved with
  | Some message => throw (forbidden_after_create project message)
  | None => ret (mkResolvedWriteScope (mkResolvedScope ws (nr_project_id resolved))
                   (nr_promoted_from resolved))
  end.

Definition resolve_write_args (explicit_workspace explicit_project : option string) (actor : ActorKey)
    : Scoped ResolvedWriteScope :=
  match trimmed_opt explicit_project with
  | None =>
      match trimmed_opt explicit_workspace with
      | Some _ => throw WorkspaceProjectPairRequired
      | None => resolve_unscoped_write actor
      end
  | Some project =>
      if negb (writer r) then throw WriterRequired
      else
        let! asked := ask_pointer (pointer_get_for actor) in
        let active := mjoin asked in
        match split_slashed_project project with
        | Some (label_workspace, label_project) =>
            resolve_slashed_write explicit_workspace active project label_workspace label_project
        | None => resolve_named_write explicit_workspace active project
        end
  end.

Definition resolve_many_existing (scopes : list ScopeName) (max : nat) : Scoped (list ResolvedScope) :=
  let! resolved := resolve_many_existing_scopes w scopes max in
  let! _u := for_each (λ scope, authorize_scope scope Read) resolved in
  ret resolved.
End Resolver.
