(* ===== verification/ScopeResolverFacts.v ===== *)
(** * What scope resolution guarantees

    A small logic of calls: [spec m Q] says that the computation appends calls
    to the trace and that [Q] holds of those calls and of the result, whatever
    other requests do and whichever calls fail. *)

From S2P Require Export ScopeResolver ProjectNamesFacts ActiveProjectFacts.

Local Open Scope rust_scope.
Local Open Scope string_scope.

Section Logic.
Context {P : Type}.

Definition spec {E A} (m : M P E A) (Q : list Call → result A E → Prop) : Prop :=
  ∀ s, ∃ calls, st_trace (fst (m s)) = (st_trace s ++ calls)%list ∧ Q calls (snd (m s)).

Lemma spec_weaken {E A} (m : M P E A) (Q R : list Call → result A E → Prop) :
  spec m Q → (∀ calls r, Q calls r → R calls r) → spec m R.
Proof. intros H HQ s. destruct (H s) as (calls & Ht & Hq). exists calls. auto. Qed.

Lemma spec_result {E A} (r : result A E) Q : Q [] r → spec (of_result r) Q.
Proof. intros HQ s. exists []. simpl. by rewrite app_nil_r. Qed.

Lemma spec_ret {E A} (a : A) (Q : list Call → result A E → Prop) : Q [] (Ok a) → spec (ret a) Q.
Proof. apply (spec_result (Ok a)). Qed.

Lemma spec_throw {E A} (e : E) (Q : list Call → result A E → Prop) : Q [] (Err e) → spec (throw e) Q.
Proof. apply (spec_result (Err e)). Qed.

Lemma spec_ok_or {E A} (o : option A) (e : E) (Q : list Call → result A E → Prop) :
  match o with Some a => Q [] (Ok a) | None => Q [] (Err e) end → spec (ok_or o e) Q.
Proof. destruct o; [apply spec_ret|apply spec_throw]. Qed.

Lemma spec_bind {E A B} (m : M P E A) (k : A → M P E B) (Q : list Call → result A E → Prop)
    (R : list Call → result B E → Prop) :
  spec m Q →
  (∀ calls a, Q calls (Ok a) → spec (k a) (λ more, R (calls ++ more)%list)) →
  (∀ calls e, Q calls (Err e) → R calls (Err e)) →
  spec (bind m k) R.
Proof.
  intros Hm Hk He s. unfold bind. destruct (Hm s) as (calls & Ht & Hq).
  destruct (m s) as [s1 [a|e]]; simpl in *.
  - destruct (Hk calls a Hq s1) as (more & Ht' & Hr). exists (calls ++ more)%list.
    rewrite Ht', Ht, app_assoc. done.
  - exists calls. auto.
Qed.

Lemma spec_map_err {E E' A} (f : E → E') (m : M P E A) (Q : list Call → result A E → Prop)
    (R : list Call → result A E' → Prop) :
  spec m Q →
  (∀ calls a, Q calls (Ok a) → R calls (Ok a)) →
  (∀ calls e, Q calls (Err e) → R calls (Err (f e))) →
  spec (map_err f m) R.
Proof.
  intros Hm Ha He s. unfold map_err. destruct (Hm s) as (calls & Ht & Hq). exists calls.
  destruct (m s) as [s1 [a|e]]; simpl in *; auto.
Qed.

Lemma spec_attempt {E E' A} (m : M P E A) (R : list Call → result (result A E) E' → Prop) :
  spec m (λ calls r, R calls (Ok r)) → spec (attempt m) R.
Proof.
  intros Hm s. unfold attempt. destruct (Hm s) as (calls & Ht & Hq). exists calls.
  destruct (m s) as [s1 r]; simpl in *; auto.
Qed.

(** *** Single calls *)

Variable w : World.

Lemma spec_reading {A} (f : Snapshot → result A StoreError) :
  spec (reading w f) (λ calls r, ∃ snap, calls = [Reading snap] ∧ ∀ a, r = Ok a → f snap = Ok a).
Proof.
  intros s. eexists. split; [reflexivity|]. eexists. split; [reflexivity|].
  unfold reading. simpl. intros a. by destruct (delivery w _).
Qed.

Lemma spec_writing {A} (f : Snapshot → N → Transaction A) :
  spec (writing w f) (λ calls r, ∃ snap fresh,
    (calls = [Reading snap] ∧ (∃ e, r = Err e) ∨ calls = [Writing snap (fst (f snap fresh))]) ∧
    ∀ a, r = Ok a → snd (f snap fresh) = Ok a).
Proof.
  intros s. unfold writing. set (snap := next_snapshot w s).
  destruct (f snap (fresh_id w (length (st_trace s)))) as [after r] eqn:E.
  destruct (delivery w _); (eexists; split; [reflexivity|]);
    exists snap, (fresh_id w (length (st_trace s))); rewrite E; simpl; split; eauto; by intros.
Qed.

(** *** Traces without writes *)

Definition is_reading (c : Call) : bool := match c with Reading _ => true | Writing _ _ => false end.

(** The computation only reads. *)
Definition reads {E A} (m : M P E A) : Prop := spec m (λ calls _, Forall (λ c, is_reading c = true) calls).

Lemma reads_bind {E A B} (m : M P E A) (k : A → M P E B) :
  reads m → (∀ a, reads (k a)) → reads (bind m k).
Proof.
  intros Hm Hk. eapply spec_bind; [exact Hm| |done]. intros calls a Hc. cbn beta in *.
  eapply spec_weaken; [apply Hk|]. intros more r Hmore. cbn beta in *. by apply Forall_app.
Qed.

Lemma reads_map_err {E E' A} (f : E → E') (m : M P E A) : reads m → reads (map_err f m).
Proof. intros Hm. by eapply spec_map_err. Qed.

Lemma reads_attempt {E E' A} (m : M P E A) : reads m → reads (E:=E') (attempt m).
Proof. intros Hm. by apply spec_attempt. Qed.

Lemma reads_result {E A} (r : result A E) : reads (of_result r).
Proof. by apply spec_result. Qed.

Lemma reads_ret {E A} (a : A) : reads (E:=E) (ret a).
Proof. apply (reads_result (Ok a)). Qed.

Lemma reads_throw {E A} (e : E) : reads (A:=A) (throw e).
Proof. apply (reads_result (Err e)). Qed.

Lemma reads_ok_or {E A} (o : option A) (e : E) : reads (ok_or o e).
Proof. destruct o; [apply reads_ret|apply reads_throw]. Qed.

Lemma reads_reading {A} (f : Snapshot → result A StoreError) : reads (reading w f).
Proof.
  eapply spec_weaken; [apply spec_reading|]. intros calls r (snap & -> & _). repeat constructor.
Qed.

Lemma reads_for_each {E A} (body : A → M P E unit) l : (∀ a, reads (body a)) → reads (for_each body l).
Proof. intros Hb. induction l; simpl; [apply reads_ret|]. by apply reads_bind. Qed.
End Logic.

Create HintDb reads discriminated.
#[export] Hint Resolve reads_bind reads_map_err reads_attempt reads_result reads_ret reads_throw
  reads_ok_or reads_reading reads_for_each : reads.
#[export] Hint Extern 1 (reads (match ?x with _ => _ end)) => destruct x : reads.
#[export] Hint Extern 1 (reads (let (_, _) := ?x in _)) => destruct x : reads.

(** ** Authorization *)

(** The decision that admits the caller to a scope, on what a call saw; a
    write sees its own creation too. *)
Definition access_on (principal : ProjectPrincipal) (distinguishes : bool) (scope : ResolvedScope)
    (need : ProjectAccess) (snap : Snapshot) : Prop :=
  distinguishes = false ∨ entitled snap (workspace_id scope) (project_id scope) principal need.

Definition admitted (principal : ProjectPrincipal) (distinguishes : bool) (need : ProjectAccess)
    (scope : ResolvedScope) (c : Call) : Prop :=
  match c with
  | Reading snap => access_on principal distinguishes scope need snap
  | Writing snap after =>
      access_on principal distinguishes scope need snap ∨
      access_on principal distinguishes scope need (mkSnapshot after (fault snap))
  end.

Lemma transaction_Ok {A} snap (body : result (Db * A) StoreError) d a :
  transaction snap body = (d, Ok a) → body = Ok (d, a).
Proof.
  unfold transaction. destruct (query snap StBegin tt), body as [[d' a']|], (query snap StCommit tt);
    by intros [= <- <-].
Qed.

(** A resolution for a write that reports no refusal was decided in its own
    transaction. *)
Lemma write_resolution_admitted snap fresh ws requested principal distinguishes promote mode after res :
  resolve_project_name_for_write snap fresh ws requested (Some principal) distinguishes promote mode
    = (after, Ok res) →
  nr_authorization_error res = None →
  admitted principal distinguishes Write (mkResolvedScope ws (nr_project_id res)) (Writing snap after).
Proof.
  unfold resolve_project_name_for_write, admitted, access_on. cbn [workspace_id project_id].
  destruct (query snap StBegin tt); [|done].
  destruct (resolve_name snap ws requested) as [[m|]|]; [| |done].
  - intros H%transaction_Ok _. left. unfold write_matched in H.
    apply result_bind_Ok in H as (u & Hu & H).
    apply result_bind_Ok in Hu as (ctx & Hctx & Hu).
    assert (nr_project_id res = cm_id m) as ->.
    { destruct (if promote then _ else _); [|by simplify_eq].
      apply result_bind_Ok in H as (d & _ & [= _ <-]). done. }
    eapply authorize_admits; [exact Hctx|]. destruct (authorize ctx Write) as [[]|]; [done|discriminate].
  - destruct (transaction _ _) as [d [res'|e]] eqn:E; [|by intros].
    destruct (query snap StSchedulerState tt); [|by intros]. intros [= -> ->] Hn. right.
    apply transaction_Ok in E. unfold write_new in E.
    apply result_bind_Ok in E as (u & _ & E). apply result_bind_Ok in E as ([d id] & _ & E).
    apply result_bind_Ok in E as (refused & Hr & [= -> <-]). simpl in Hn |- *. subst refused.
    apply result_bind_Ok in Hr as (ctx & Hctx & Hr).
    eapply authorize_admits; [exact Hctx|]. by destruct (authorize ctx Write) as [[]|].
Qed.

Section Carries.
Context {P : Type}.
Variable principal : ProjectPrincipal.
Variable distinguishes : bool.
Variable need : ProjectAccess.

(** Every scope in the result was known before ([o]) or admitted by a call. *)
Definition carries {E A} (o : option ResolvedScope) (sel : A → option ResolvedScope) (m : M P E A) : Prop :=
  spec m (λ calls r, ∀ a scope, r = Ok a → sel a = Some scope →
    o = Some scope ∨ Exists (admitted principal distinguishes need scope) calls).

Lemma carries_any {E A} o (m : M P E A) Q : spec m Q → carries o (λ _, o) m.
Proof. intros H. eapply spec_weaken; [exact H|]. intros calls r _ a scope _ Hs. by left. Qed.

Lemma carries_known {E A} o (m : M P E A) : reads m → carries o (λ _, o) m.
Proof. apply carries_any. Qed.

Lemma carries_result {E A} o sel (r : result A E) :
  (∀ a, r = Ok a → sel a = o ∨ sel a = None) → carries o sel (of_result r).
Proof. intros H. apply spec_result. intros a scope Hr Hs. left. destruct (H a Hr); congruence. Qed.

Lemma carries_ret {E A} o (sel : A → option ResolvedScope) a :
  sel a = o ∨ sel a = None → carries (E:=E) o sel (ret a).
Proof. intros H. apply (carries_result _ _ (Ok a)). by intros ? [= <-]. Qed.

Lemma carries_throw {E A} o (sel : A → option ResolvedScope) (e : E) : carries o sel (throw e).
Proof. by apply (carries_result _ _ (Err e)). Qed.

Lemma carries_bind {E A B} o (sel : A → option ResolvedScope) (sel' : B → option ResolvedScope)
    (m : M P E A) (k : A → M P E B) :
  carries o sel m → (∀ a, carries (sel a) sel' (k a)) → carries o sel' (bind m k).
Proof.
  intros Hm Hk. eapply spec_bind; [exact Hm| |by intros].
  intros calls a Hc. eapply spec_weaken; [apply Hk|].
  intros more r Hmore b scope Hr Hs. destruct (Hmore b scope Hr Hs) as [Ha|Hm'].
  - destruct (Hc a scope eq_refl Ha) as [?|He]; [by left|right]. apply Exists_app. by left.
  - right. apply Exists_app. by right.
Qed.

Lemma carries_map_err {E E' A} o sel (f : E → E') (m : M P E A) :
  carries o sel m → carries o sel (map_err f m).
Proof. intros Hm. eapply spec_map_err; [exact Hm| |by intros]. intros calls a Hq b scope [= <-]. by apply Hq. Qed.

Lemma carries_attempt {E E' A} o (sel : A → option ResolvedScope) (m : M P E A) :
  carries o sel m →
  carries (E:=E') o (λ r, match r with Ok a => sel a | Err _ => None end) (attempt m).
Proof.
  intros Hm. apply spec_attempt. eapply spec_weaken; [exact Hm|].
  intros calls r Hq a scope [= <-] Hs. destruct r as [a|]; [|done]. by apply (Hq a).
Qed.

Lemma carries_none {E A} o (sel : A → option ResolvedScope) (m : M P E A) :
  carries None sel m → carries o sel m.
Proof.
  intros Hm. eapply spec_weaken; [exact Hm|].
  intros calls r Hq a scope Hr Hs. destruct (Hq a scope Hr Hs); [done|by right].
Qed.
End Carries.

#[export] Hint Extern 2 (reads _) => apply reads_reading : reads.

Section Resolving.
Context `{ProjectPointer P}.
Variable w : World.
Variable r : ScopeResolver.

Lemma reads_ask_pointer {A} (question : P → P * A) : reads (ask_pointer r question).
Proof.
  intros s. unfold ask_pointer. exists []. destruct (active_project r); simpl;
    [destruct (question (st_pointer s))|]; simpl; rewrite app_nil_r; by split.
Qed.

Lemma reads_decide_scope b scope principal distinguishes need :
  reads (P:=P) (decide_scope w b scope principal distinguishes need).
Proof. unfold decide_scope. eauto 10 with reads. Qed.

Lemma reads_authorize_scope scope need : reads (P:=P) (authorize_scope w r scope need).
Proof. unfold authorize_scope. destruct (authz r); [apply reads_decide_scope|auto with reads]. Qed.

Hint Resolve reads_ask_pointer reads_authorize_scope : reads.

Lemma reads_lookup_existing_workspace workspace : reads (P:=P) (lookup_existing_workspace w workspace).
Proof. unfold lookup_existing_workspace. auto with reads. Qed.

Lemma reads_lookup_existing_scope workspace project :
  reads (P:=P) (lookup_existing_scope w workspace project).
Proof.
  unfold lookup_existing_scope. apply reads_bind; [apply reads_lookup_existing_workspace|].
  auto 10 with reads.
Qed.

Hint Resolve reads_lookup_existing_workspace reads_lookup_existing_scope : reads.

Lemma reads_resolve_named ws workspace project need :
  reads (P:=P) (resolve_named_in_workspace w r ws workspace project need).
Proof. unfold resolve_named_in_workspace. auto 10 with reads. Qed.

Hint Resolve reads_resolve_named : reads.

Lemma reads_resolve_explicit_pair workspace project need :
  reads (P:=P) (resolve_explicit_pair w r workspace project need).
Proof. unfold resolve_explicit_pair. auto 10 with reads. Qed.

Hint Resolve reads_resolve_explicit_pair : reads.

Lemma reads_resolve_current explicit_project actor need :
  reads (resolve_current_or_project_traced w r explicit_project actor need).
Proof.
  unfold resolve_current_or_project_traced. apply reads_bind; [auto with reads|]. intros asked.
  destruct (trimmed_opt explicit_project) as [project|]; [|auto 10 with reads].
  apply reads_bind; [auto with reads|]. intros [scope|]; [auto with reads|].
  apply reads_bind; auto with reads.
Qed.

Lemma reads_resolve_existing_args ew ep actor need :
  reads (resolve_existing_args_traced w r ew ep actor need).
Proof.
  unfold resolve_existing_args_traced.
  destruct (trimmed_opt ew) as [workspace|]; [|apply reads_resolve_current].
  destruct (trimmed_opt ep) as [project|]; [|auto with reads].
  apply reads_bind; [auto with reads|]. intros exact.
  apply reads_bind; [|auto with reads].
  destruct exact as [scope|e]; [auto with reads|].
  destruct (split_slashed_project project) as [[lw lp]|]; auto 10 with reads.
Qed.

Lemma reads_resolve_each scopes resolved : reads (P:=P) (resolve_each w scopes resolved).
Proof.
  revert resolved. induction scopes as [|name scopes IH]; intros resolved; simpl; [auto with reads|].
  repeat (apply reads_bind; [auto with reads|intros ?]). apply IH.
Qed.

Lemma reads_resolve_many scopes max : reads (P:=P) (resolve_many_existing w r scopes max).
Proof.
  unfold resolve_many_existing, resolve_many_existing_scopes.
  apply reads_bind; [destruct (_ <? _)%nat; [auto with reads|apply reads_resolve_each]|].
  auto 10 with reads.
Qed.
End Resolving.

Section Authorized.
Context `{ProjectPointer P}.
Variable w : World.
Variable r : ScopeResolver.
Variable principal : ProjectPrincipal.
Hypothesis Hauthz : authz r = Some principal.

Local Abbreviation dist := (sr_distinguishes r).

Lemma decide_scope_admits b scope need :
  spec (P:=P) (decide_scope w b scope principal dist need)
    (λ calls res, res = Ok tt → Exists (admitted principal dist need scope) calls).
Proof.
  unfold decide_scope. apply spec_bind with (Q := λ calls res, ∀ decision, res = Ok decision →
    is_ok decision = true → Exists (admitted principal dist need scope) calls).
  - apply spec_map_err with (Q := λ calls res, ∃ snap, calls = [Reading snap] ∧ ∀ a, res = Ok a →
      decide_access snap (workspace_id scope) (project_id scope) principal dist need = Ok a);
      [destruct need, b; apply spec_reading| |by intros].
    intros calls a (snap & -> & Hd) decision [= <-] Hok. constructor. simpl.
    specialize (Hd a eq_refl). apply result_bind_Ok in Hd as (ctx & Hctx & [= <-]).
    eapply authorize_admits; [exact Hctx|]. by destruct (authorize ctx need) as [[]|].
  - intros calls decision Hd. destruct (is_ok decision) eqn:E.
    + apply spec_ret. intros _. apply Exists_app. left. by eapply Hd.
    + apply spec_bind with (Q := λ _ _, True); [|intros|by intros].
      { eapply spec_weaken; [apply reads_map_err, reads_reading|done]. }
      apply spec_bind with (Q := λ _ _, True); [|intros; by apply spec_throw|by intros].
      eapply spec_weaken; [apply reads_map_err, reads_reading|done].
  - by intros.
Qed.

Lemma carries_authorize o scope need :
  carries principal dist need o (λ _, Some scope) (authorize_scope (P:=P) w r scope need).
Proof.
  unfold authorize_scope. rewrite Hauthz. eapply spec_weaken; [apply decide_scope_admits|].
  intros calls res Hres [] s Hr [= <-]. right. by apply Hres.
Qed.

Lemma carries_resolve_named o ws workspace project need :
  carries principal dist need o id (resolve_named_in_workspace (P:=P) w r ws workspace project need).
Proof.
  unfold resolve_named_in_workspace.
  apply carries_bind with (sel := λ _, o); [apply carries_known; auto with reads|].
  intros [p|]; [|apply carries_ret; by right].
  eapply carries_bind; [apply carries_authorize|]. intros ?. apply carries_ret. by left.
Qed.

Lemma carries_ok_or {E} need (found : option ResolvedScope) (e : E) :
  carries (P:=P) principal dist need found Some (ok_or found e).
Proof. destruct found; [apply carries_ret; by left|apply carries_throw]. Qed.

Lemma carries_explicit_pair o workspace project need :
  carries principal dist need o Some (resolve_explicit_pair (P:=P) w r workspace project need).
Proof.
  unfold resolve_explicit_pair. apply carries_none.
  apply carries_bind with (sel := λ _, None); [apply carries_known; auto with reads|].
  - apply reads_lookup_existing_workspace.
  - intros ws. eapply carries_bind; [apply carries_resolve_named|]. intros found. apply carries_ok_or.
Qed.

Lemma carries_current_or_project explicit_project actor need :
  carries principal dist need None (λ traced, Some (fst traced))
    (resolve_current_or_project_traced w r explicit_project actor need).
Proof.
  unfold resolve_current_or_project_traced.
  apply carries_bind with (sel := λ _, None); [apply carries_known, reads_ask_pointer|]. intros asked.
  destruct (trimmed_opt explicit_project) as [project|].
  - apply carries_bind with (sel := id).
    { destruct (pointer_ids _) as [[ws p]|]; [apply carries_resolve_named|apply carries_ret; by right]. }
    intros [scope|]; [apply carries_ret; by left|].
    apply carries_bind with (sel := id).
    { destruct (decide _); [apply carries_ret; by right|apply carries_resolve_named]. }
    intros [scope|]; [apply carries_ret; by left|apply carries_throw].
  - destruct (match pointer_ids _ with Some ids => ids | None => _ end) as [ws p].
    eapply carries_bind; [apply carries_authorize|]. intros ?. apply carries_ret. by left.
Qed.

Lemma carries_existing_args ew ep actor need :
  carries principal dist need None (λ traced, Some (fst traced))
    (resolve_existing_args_traced w r ew ep actor need).
Proof.
  unfold resolve_existing_args_traced.
  destruct (trimmed_opt ew) as [workspace|]; [|apply carries_current_or_project].
  destruct (trimmed_opt ep) as [project|]; [|apply carries_throw].
  eapply carries_bind; [apply carries_attempt, carries_explicit_pair|]. intros exact.
  apply carries_bind with (sel := Some); [|intros scope; apply carries_ret; by left].
  destruct exact as [scope|e]; [apply carries_result; intros ? [= <-]; by left|].
  destruct (split_slashed_project project) as [[lw lp]|].
  - destruct (exact_miss e); [apply carries_map_err, carries_explicit_pair|apply carries_throw].
  - apply carries_throw.
Qed.

(** *** Writes *)

Lemma carries_write_resolution o ws project :
  carries principal dist Write o
    (λ res, match nr_authorization_error res with
            | None => Some (mkResolvedScope ws (nr_project_id res)) | Some _ => None end)
    (writer_resolve_project_name_for_write (P:=P) w ws project (authz r) dist true).
Proof.
  unfold writer_resolve_project_name_for_write. rewrite Hauthz.
  eapply spec_weaken; [apply spec_writing|].
  intros calls res (snap & fresh & Hcalls & Hres) a scope Ha Hs. right.
  destruct (nr_authorization_error a) eqn:En; [done|]. injection Hs as <-.
  destruct Hcalls as [[_ [e He]]|Hcalls]; [congruence|]. subst calls. constructor.
  specialize (Hres a Ha).
  destruct (resolve_project_name_for_write _ _ _ _ _ _ _ _) as [after out] eqn:E. simpl in Hres |- *. subst out.
  by eapply (write_resolution_admitted _ _ _ _ _ _ _ _ after).
Qed.

Lemma carries_unscoped_write actor :
  carries principal dist Write None (λ res, Some (scope res)) (resolve_unscoped_write w r actor).
Proof.
  unfold resolve_unscoped_write.
  apply carries_bind with (sel := λ _, None); [apply carries_known, reads_ask_pointer|]. intros asked.
  apply carries_bind with (sel := λ _, None).
  { destruct asked as [[]|]; try (apply carries_ret; by left). apply carries_throw. }
  intros ids. eapply carries_bind; [apply carries_authorize|]. intros ?. apply carries_ret. by left.
Qed.

Lemma carries_slashed_write ew active project lw lp :
  carries principal dist Write None (λ res, Some (scope res))
    (resolve_slashed_write (P:=P) w r ew active project lw lp).
Proof.
  unfold resolve_slashed_write.
  apply carries_bind with
    (sel := λ exact : result ResolvedScope ScopeResolutionError,
            match exact with Ok scope => Some scope | Err _ => None end).
  { destruct (trimmed_opt ew) as [workspace|]; [apply carries_attempt, carries_explicit_pair|].
    eapply carries_bind; [apply carries_resolve_named|].
    intros [scope|]; apply carries_ret; [by left|by right]. }
  intros exact. apply carries_bind with (sel := Some); [|intros scope; apply carries_ret; by left].
  destruct exact as [scope|e]; [apply carries_ret; by left|].
  destruct (exact_miss e); [|apply carries_throw].
  apply carries_bind with (sel := λ _, None); [apply carries_known; auto with reads|].
  intros ?. apply carries_map_err, carries_explicit_pair.
Qed.

Lemma carries_named_write ew active project :
  carries principal dist Write None (λ res, Some (scope res))
    (resolve_named_write (P:=P) w r ew active project).
Proof.
  unfold resolve_named_write.
  apply carries_bind with (sel := λ _, None).
  { destruct (trimmed_opt ew); [|apply carries_known; auto with reads].
    apply carries_map_err. unfold writer_get_or_create_workspace. eapply carries_any, spec_writing. }
  intros ws. apply carries_bind with (sel := λ _, None); [apply carries_known; auto with reads|]. intros _.
  eapply carries_bind; [apply carries_map_err, (carries_write_resolution _ ws)|]. intros res. cbn beta.
  destruct (nr_authorization_error res); [apply carries_throw|apply carries_ret; by left].
Qed.

Lemma carries_write_args ew ep actor :
  carries principal dist Write None (λ res, Some (scope res)) (resolve_write_args w r ew ep actor).
Proof.
  unfold resolve_write_args. destruct (trimmed_opt ep) as [project|].
  2: { destruct (trimmed_opt ew); [apply carries_throw|apply carries_unscoped_write]. }
  destruct (negb (writer r)); [apply carries_throw|].
  apply carries_bind with (sel := λ _, None); [apply carries_known, reads_ask_pointer|]. intros asked.
  destruct (split_slashed_project project) as [[lw lp]|];
    [apply carries_slashed_write|apply carries_named_write].
Qed.

(** *** Several scopes *)

Lemma for_each_admits need l :
  spec (P:=P) (for_each (λ scope, authorize_scope w r scope need) l)
    (λ calls res, res = Ok tt → Forall (λ scope, Exists (admitted principal dist need scope) calls) l).
Proof.
  induction l as [|scope l IH]; simpl; [apply spec_ret; by constructor|].
  eapply spec_bind; [apply (carries_authorize None scope need)| |by intros].
  intros calls [] Hc. eapply spec_weaken; [apply IH|]. intros more res Hmore Hres.
  destruct (Hc tt scope eq_refl eq_refl) as [|Hs]; [done|]. constructor.
  - apply Exists_app. by left.
  - eapply Forall_impl; [by apply Hmore|]. intros s Hm. apply Exists_app. by right.
Qed.

Lemma many_existing_admits scopes max :
  spec (P:=P) (resolve_many_existing w r scopes max)
    (λ calls res, ∀ l, res = Ok l → Forall (λ s, Exists (admitted principal dist Read s) calls) l).
Proof.
  unfold resolve_many_existing. apply spec_bind with (Q := λ _ _, True); [|intros calls l _|by intros].
  { eapply spec_weaken; [|done]. unfold resolve_many_existing_scopes.
    destruct (_ <? _)%nat; [apply reads_throw|apply reads_resolve_each]. }
  eapply spec_bind; [apply for_each_admits| |by intros].
  intros more [] Hm. apply spec_ret. intros l' [= <-].
  eapply Forall_impl; [by apply Hm|]. intros s Hs. rewrite app_nil_r. apply Exists_app. by right.
Qed.
End Authorized.
