(* ===== verification/ScopePolicy.v ===== *)
(** * The scope policies

    Theorems about the resolver's entry points: who is let through, which
    project an explicit pair of names denotes, how an unscoped write relates
    to an unscoped read, and what a write request may change. *)

From S2P Require Export ScopeResolverFacts.

Local Open Scope rust_scope.
Local Open Scope string_scope.

(** The calls made between two states of a request. *)
Definition new_calls {P} (s s' : Request P) : list Call := drop (length (st_trace s)) (st_trace s').

Lemma spec_run {P E A} (m : M P E A) Q s s' r :
  spec m Q → m s = (s', r) → Q (new_calls s s') r.
Proof.
  intros Hm Hrun. destruct (Hm s) as (calls & Ht & Hq). rewrite Hrun in Ht, Hq. simpl in Ht, Hq.
  unfold new_calls. by rewrite Ht, drop_app_length.
Qed.

(** The store as a call found it. *)
Definition seen (c : Call) : Snapshot := match c with Reading snap | Writing snap _ => snap end.

(** ** Names *)

(** On what the calls saw, the two names denote the scope: the workspace bears
    its name, and the project is the only one there answering to its own. *)
Definition denotes (calls : list Call) (workspace project : string) (scope : ResolvedScope) : Prop :=
  Exists (λ c, workspace_by_name (db (seen c)) workspace = Some (workspace_id scope)) calls ∧
  Exists (λ c, ∃ p, filter (answers (workspace_id scope) project) (projects (db (seen c))) = [p] ∧
                 pt_id p = project_id scope) calls.

(** On what the calls saw, one of the two names denotes nothing. *)
Definition denotes_nothing (calls : list Call) (workspace project : string) : Prop :=
  Exists (λ c, workspace_by_name (db (seen c)) workspace = None) calls ∨
  ∃ ws, Exists (λ c, workspace_by_name (db (seen c)) workspace = Some ws) calls ∧
    Exists (λ c, filter (answers ws project) (projects (db (seen c))) = []) calls.

Lemma denotes_app l1 l2 workspace project scope :
  denotes l1 workspace project scope ∨ denotes l2 workspace project scope →
  denotes (l1 ++ l2) workspace project scope.
Proof. unfold denotes. rewrite !Exists_app. tauto. Qed.

Lemma denotes_nothing_app l1 l2 workspace project :
  denotes_nothing l1 workspace project → denotes_nothing (l1 ++ l2) workspace project.
Proof.
  intros [?|(ws & ? & ?)]; [left; apply Exists_app; by left|right].
  exists ws. split; apply Exists_app; by left.
Qed.

Section Names.
Context `{ProjectPointer P}.
Variable w : World.
Variable r : ScopeResolver.

Lemma decide_scope_not_miss b scope principal distinguishes need :
  spec (P:=P) (decide_scope w b scope principal distinguishes need)
    (λ _ res, ∀ e, res = Err e → exact_miss e = false).
Proof.
  assert (Hstore : ∀ A (f : Snapshot → result A StoreError),
    spec (P:=P) (map_err from_store (reading w f)) (λ _ res, ∀ e, res = Err e → exact_miss e = false)).
  { intros A f. eapply spec_map_err with (Q := λ _ _, True); [by eapply spec_weaken; [apply spec_reading|]| |].
    - by intros.
    - by intros calls e _ e' [= <-]. }
  unfold decide_scope. eapply spec_bind; [destruct need, b; apply Hstore| |by intros; simplify_eq; eauto].
  intros calls decision _. destruct (is_ok decision); [by apply spec_ret|].
  eapply spec_bind; [apply Hstore| |by intros; simplify_eq; eauto]. intros calls' authz' _.
  eapply spec_bind; [apply Hstore| |by intros; simplify_eq; eauto]. intros calls'' found _.
  apply spec_throw. by intros e [= <-].
Qed.

Lemma authorize_scope_not_miss scope need :
  spec (P:=P) (authorize_scope w r scope need) (λ _ res, ∀ e, res = Err e → exact_miss e = false).
Proof.
  unfold authorize_scope. destruct (authz r); [apply decide_scope_not_miss|by apply spec_ret].
Qed.

Lemma project_lookup_error_not_miss e workspace project :
  exact_miss (project_lookup_error e workspace project) = false.
Proof. by destruct e. Qed.

Lemma lookup_workspace_spec workspace :
  spec (P:=P) (lookup_existing_workspace w workspace) (λ calls res,
    match res with
    | Ok ws => Exists (λ c, workspace_by_name (db (seen c)) workspace = Some ws) calls
    | Err e => exact_miss e = true →
               Exists (λ c, workspace_by_name (db (seen c)) workspace = None) calls
    end).
Proof.
  unfold lookup_existing_workspace. apply spec_bind with (Q := λ calls res,
    match res with
    | Ok found => Exists (λ c, workspace_by_name (db (seen c)) workspace = found) calls
    | Err e => exact_miss e = false
    end).
  - eapply spec_map_err; [apply spec_reading| |done].
    intros calls found (snap & -> & Hf). constructor. simpl.
    specialize (Hf found eq_refl). by apply query_Ok in Hf as [_ <-].
  - intros calls [ws|] Hc; apply spec_ok_or; rewrite app_nil_r; auto.
  - intros calls e He. congruence.
Qed.

Lemma resolve_named_spec ws workspace project need :
  spec (P:=P) (resolve_named_in_workspace w r ws workspace project need) (λ calls res,
    match res with
    | Ok (Some scope) => workspace_id scope = ws ∧
        Exists (λ c, ∃ p, filter (answers ws project) (projects (db (seen c))) = [p] ∧
                       pt_id p = project_id scope) calls
    | Ok None => Exists (λ c, filter (answers ws project) (projects (db (seen c))) = []) calls
    | Err e => exact_miss e = false
    end).
Proof.
  unfold resolve_named_in_workspace. apply spec_bind with (Q := λ calls res,
    match res with
    | Ok (Some id) => Exists (λ c, ∃ p, filter (answers ws project) (projects (db (seen c))) = [p] ∧
                                     pt_id p = id) calls
    | Ok None => Exists (λ c, filter (answers ws project) (projects (db (seen c))) = []) calls
    | Err e => exact_miss e = false
    end).
  - eapply spec_map_err; [apply spec_reading| |intros; apply project_lookup_error_not_miss].
    intros calls found (snap & -> & Hf). specialize (Hf found eq_refl).
    destruct (resolve_existing_inv _ _ _ _ Hf) as [[-> Hn]|(p & -> & Hp)]; constructor; simpl; eauto.
  - intros calls [id|] Hc; [|apply spec_ret; by rewrite app_nil_r].
    eapply spec_bind; [apply authorize_scope_not_miss| |intros more e He; eauto].
    intros more [] _. apply spec_ret. split; [done|]. simpl. apply Exists_app. by left.
  - by intros.
Qed.

(** What an explicit pair of names comes to. *)
Lemma explicit_pair_spec workspace project need :
  spec (P:=P) (resolve_explicit_pair w r workspace project need) (λ calls res,
    match res with
    | Ok scope => denotes calls workspace project scope
    | Err e => exact_miss e = true → denotes_nothing calls workspace project
    end).
Proof.
  unfold resolve_explicit_pair. eapply spec_bind; [apply lookup_workspace_spec| |].
  - intros calls ws Hws. cbn beta iota in Hws. eapply spec_bind; [apply resolve_named_spec| |].
    + intros more [scope|] Hp; cbn beta iota in Hp; apply spec_ok_or.
      * destruct Hp as [<- Hp]. split; rewrite !Exists_app; auto.
      * intros _. right. exists ws. split; rewrite !Exists_app; auto.
    + intros more e He Hm. cbn beta iota in He. congruence.
  - intros calls e He Hm. left. by apply He.
Qed.
End Names.

(** ** The active project as the pointer *)

Lemma lookup_of_traced meanwhile actor now s :
  snd (lookup_for meanwhile actor now s) = fst (snd (lookup_traced meanwhile actor now s)).
Proof. unfold lookup_for. by destruct (lookup_traced _ _ _ _). Qed.

(** At one moment, whatever other threads do during the call. *)
#[refine] Definition active_project_pointer (meanwhile : nat → ActiveProject → ActiveProject) (now : Z)
    : ProjectPointer ActiveProject := {|
  pointer_lookup_for actor := lookup_for meanwhile actor now;
  pointer_get_for actor := get_for meanwhile actor now;
  pointer_read actor := read_pointer meanwhile actor now;
|}.
Proof.
  - intros actor p. unfold get_for. by destruct (lookup_for _ _ _ _) as [s []].
  - intros actor p. rewrite lookup_of_traced. unfold read_pointer.
    destruct (lookup_traced _ _ _ _) as [s [[] []]]; simpl; auto;
      destruct (seeded _) as [[]|]; eauto.
Defined.

(** ** Reads and writes of the resolver *)

Section Policy.
Context `{ProjectPointer P}.
Variable w : World.
Variable r : ScopeResolver.


(** A request that names both workspace and project is answered with the
    scope these names denote: the only project of that workspace answering to
    the name, or, when one of the names denotes nothing and the project was
    given as a [workspace/project] label, what the label's halves denote.  The
    source is reported as explicit, never inferred. *)
Theorem explicit_names_are_honoured ew ep actor need workspace project (s s' : Request P) scope source :
  trimmed_opt ew = Some workspace → trimmed_opt ep = Some project →
  resolve_existing_args_traced w r ew ep actor need s = (s', Ok (scope, source)) →
  source = SrcExplicit ∧
  (denotes (new_calls s s') workspace project scope ∨
   denotes_nothing (new_calls s s') workspace project ∧
   ∃ label_workspace label_project,
     split_slashed_project project = Some (label_workspace, label_project) ∧
     denotes (new_calls s s') label_workspace label_project scope).
Proof.
  intros Hw Hp Hrun.
  assert (Hs : spec (resolve_existing_args_traced w r ew ep actor need) (λ calls res,
    ∀ sc src, res = Ok (sc, src) → src = SrcExplicit ∧
      (denotes calls workspace project sc ∨
       denotes_nothing calls workspace project ∧
       ∃ lw lp, split_slashed_project project = Some (lw, lp) ∧ denotes calls lw lp sc))).
  2: { by apply (spec_run _ _ _ _ _ Hs Hrun). }
  unfold resolve_existing_args_traced. rewrite Hw, Hp.
  eapply spec_bind; [apply spec_attempt with (R := λ calls res, match res with
      | Ok exact => match exact with
        | Ok sc => denotes calls workspace project sc
        | Err e => exact_miss e = true → denotes_nothing calls workspace project
        end
      | Err _ => False end), explicit_pair_spec| |by intros].
  intros calls exact Hexact. cbn beta iota in Hexact.
  apply spec_bind with (Q := λ more res, ∀ sc, res = Ok sc →
    denotes (calls ++ more) workspace project sc ∨
    denotes_nothing (calls ++ more) workspace project ∧
    ∃ lw lp, split_slashed_project project = Some (lw, lp) ∧ denotes (calls ++ more) lw lp sc);
    [|intros more sc Hq; apply spec_ret; rewrite app_nil_r; intros ? ? [= <- <-]; eauto|by intros].
  destruct exact as [sc|e].
  - apply spec_result. rewrite app_nil_r. intros ? [= <-]. by left.
  - destruct (split_slashed_project project) as [[lw lp]|]; [|by apply spec_result].
    destruct (exact_miss e); [|by apply spec_throw].
    eapply spec_map_err; [apply explicit_pair_spec| |by intros].
    intros more sc Hd ? [= <-]. right. split; [by apply denotes_nothing_app, Hexact|].
    exists lw, lp. split; [done|]. apply denotes_app. by right.
Qed.

(** An unscoped write goes where an unscoped read of the same moment
    answers from, except when that answer is a guess: for a caller that
    matches no session the write is refused, and while the read falls back to
    the project last active on disk the write goes to the server's default. *)
Theorem unscoped_write_follows_read actor need (s s1 s2 : Request P) sc source res :
  resolve_existing_args_traced w r None None actor need s = (s1, Ok (sc, source)) →
  resolve_write_args w r None None actor s = (s2, res) →
  match source with
  | SrcDefaultAfterMismatch => res = Err AmbiguousUnscopedWrite
  | SrcStartupSeed => ∀ target, res = Ok target →
      scope target = mkResolvedScope (default_workspace_id r) (default_project_id r)
  | _ => ∀ target, res = Ok target → scope target = sc
  end ∧ (∀ target, res = Ok target → promoted_from target = None ∧ source ≠ SrcExplicit).
Proof.
  unfold resolve_existing_args_traced, resolve_current_or_project_traced, resolve_write_args,
    resolve_unscoped_write, ask_pointer, bind, ret, throw, default_ids. cbn [trimmed_opt].
  assert (Hfin : ∀ sc' (s0 : Request P) x,
    (let (s3, d) := authorize_scope w r sc' Write s0 in
     match d with Ok _ => (s3, Ok (mkResolvedWriteScope sc' None)) | Err e => (s3, Err e) end) = (s2, x) →
    ∀ target, x = Ok target → target = mkResolvedWriteScope sc' None).
  { intros sc' s0 x. destruct (authorize_scope w r sc' Write s0) as [s3 [[]|]]; naive_solver. }
  destruct (active_project r).
  - pose proof (pointer_read_lookup actor (st_pointer s)) as Hread.
    destruct (pointer_read actor (st_pointer s)) as [p1 answer].
    destruct (pointer_lookup_for actor (st_pointer s)) as [p2 l]. simpl in Hread. intros Hr Hw.
    destruct l as [ws proj| |]; simpl in Hread; [destruct Hread as [-> | ->]|subst answer|
      destruct Hread as [->|(ws & proj & ->)]]; simpl in Hr, Hw;
      (destruct (authorize_scope w r _ need _) as [s3 [[]|]]; [|done]); injection Hr as <- <- <-;
      [| |injection Hw as <- <-; by split| |];
      (split; intros target Ht; by rewrite (Hfin _ _ _ Hw target Ht)).
  - intros Hr Hw. simpl in Hr, Hw.
    destruct (authorize_scope w r _ need _) as [s3 [[]|]]; [|done]. injection Hr as <- <- <-.
    split; intros target Ht; by rewrite (Hfin _ _ _ Hw target Ht).
Qed.
End Policy.

(** ** What a write may change *)

Lemma transaction_db {A} snap (body : result (Db * A) StoreError) :
  fst (transaction snap body) = db snap ∨ ∃ d a, body = Ok (d, a) ∧ fst (transaction snap body) = d.
Proof.
  unfold transaction. destruct (query snap StBegin tt), body as [[d x]|], (query snap StCommit tt);
    eauto.
Qed.

Lemma rename_project_in_tx_Ok snap ws id current new_name author audit_op d :
  rename_project_in_tx snap ws id current new_name author audit_op = Ok d →
  ∃ name, validate_project_rename current new_name = Ok name ∧
    d = mkDb (workspaces (db snap)) (rename_row id ws name <$> projects (db snap)) (grants (db snap))
          (users (db snap)) (audit_log (db snap) ++ [mkAuditRow audit_op ws id author current name]).
Proof.
  unfold rename_project_in_tx. intros H. apply result_bind_Ok in H as (name & Hn & H).
  peel_ok. exists name. by split.
Qed.

Section Effects.
Variable w : World.
Variable r : ScopeResolver.
Variable workspace : option string.
Variable project : option string.

(** The changes a write request may make, call by call: none; the workspace
    it names, when there is none; a project of the name it gives, when none
    answers to it, in the mode and with the creator the policies set; or the
    audited promotion of the answering project to its canonical name, when
    that is the name given and the caller may write to it. *)
Inductive write_effect : Call → Prop :=
  | effect_reading snap : write_effect (Reading snap)
  | effect_unchanged snap : write_effect (Writing snap (db snap))
  | effect_workspace snap id name new :
      workspace = Some name → project = Some new → split_slashed_project new = None →
      workspace_by_name (db snap) name = None →
      write_effect (Writing snap (insert_workspace (db snap) id name))
  | effect_project snap ws id name :
      project = Some name → split_slashed_project name = None →
      refuse_foreign_profile_name w workspace name (creator r) = Ok tt →
      filter (answers ws name) (projects (db snap)) = [] →
      write_effect (Writing snap (insert_project (db snap)
        (mkProjectTuple id ws name "" ""
           (Some (access_mode_str (initial_access_mode name (new_project_mode w)))) (Some <$> creator r))))
  | effect_promotion snap ws p name new :
      project = Some name → split_slashed_project name = None →
      filter (answers ws name) (projects (db snap)) = [p] → pt_canonical_name p = name →
      validate_project_rename (pt_name p) name = Ok new →
      (∀ principal, authz r = Some principal →
         access_on principal (sr_distinguishes r) (mkResolvedScope ws (pt_id p)) Write snap) →
      write_effect (Writing snap
        (mkDb (workspaces (db snap)) (rename_row (pt_id p) ws new <$> projects (db snap))
           (grants (db snap)) (users (db snap))
           (audit_log (db snap)
            ++ [mkAuditRow "promote_project_name" ws (pt_id p) (creator r) (pt_name p) new]))).
End Effects.

Section WriteEffects.
Context `{ProjectPointer P}.
Variable w : World.
Variable r : ScopeResolver.

Lemma write_matched_effect workspace name snap ws p prov d res :
  split_slashed_project name = None →
  filter (answers ws name) (projects (db snap)) = [p] →
  write_matched snap ws name (authz r) (sr_distinguishes r) true (match_of (p, prov)) = Ok (d, res) →
  write_effect w r workspace (Some name) (Writing snap d).
Proof.
  intros Hs Hp Hm. unfold write_matched in Hm. apply result_bind_Ok in Hm as (u & Hu & Hm).
  unfold promotion_target in Hm. simpl in Hm. unfold nullif_empty in Hm.
  destruct (decide (pt_canonical_name p = "")) as [?|Hne]; [injection Hm as <- _; apply effect_unchanged|].
  destruct (bool_decide (pt_canonical_name p = name) && _) eqn:Hc;
    [|injection Hm as <- _; apply effect_unchanged].
  apply andb_true_iff in Hc as [Hc%bool_decide_eq_true _].
  apply result_bind_Ok in Hm as (d' & (new & Hv & ->)%rename_project_in_tx_Ok & [= <- _]).
  rewrite Hc in Hv. apply (effect_promotion _ _ _ _ snap ws p name new); try done.
  intros principal Ha. rewrite Ha in Hu. apply result_bind_Ok in Hu as (ctx & Hctx & Hu).
  eapply authorize_admits; [exact Hctx|]. by destruct (authorize ctx Write) as [[]|].
Qed.

Lemma write_new_effect workspace name snap fresh ws d res :
  split_slashed_project name = None →
  refuse_foreign_profile_name w workspace name (creator r) = Ok tt →
  filter (answers ws name) (projects (db snap)) = [] →
  write_new snap fresh ws name (authz r) (sr_distinguishes r) (new_project_mode w) = Ok (d, res) →
  write_effect w r workspace (Some name) (Writing snap d).
Proof.
  intros Hs Hf Hn Hw. unfold write_new in Hw. apply result_bind_Ok in Hw as (u & _ & Hw).
  apply result_bind_Ok in Hw as ([d' id] & Hi & Hw).
  apply result_bind_Ok in Hw as (refused & _ & [= <- _]).
  unfold insert_project_with_identityless_name in Hi. peel_ok. simplify_eq.
  by apply effect_project.
Qed.

Lemma resolution_effect workspace name snap fresh ws :
  split_slashed_project name = None →
  refuse_foreign_profile_name w workspace name (creator r) = Ok tt →
  write_effect w r workspace (Some name)
    (Writing snap (fst (resolve_project_name_for_write snap fresh ws name (authz r)
                          (sr_distinguishes r) true (new_project_mode w)))).
Proof.
  intros Hs Hf. unfold resolve_project_name_for_write.
  destruct (query snap StBegin tt) as [?|]; [|apply effect_unchanged].
  destruct (resolve_name snap ws name) as [found|] eqn:Er; [|apply effect_unchanged].
  apply resolve_name_inv in Er as [[-> Hn]|(p & prov & -> & Hp)].
  - destruct (transaction _ _) as [d out] eqn:Et.
    assert (fst (transaction snap (write_new snap fresh ws name (authz r) (sr_distinguishes r)
              (new_project_mode w))) = d) as Hd by by rewrite Et.
    assert (write_effect w r workspace (Some name) (Writing snap d)).
    { destruct (transaction_db snap (write_new snap fresh ws name (authz r) (sr_distinguishes r)
        (new_project_mode w))) as [E|(d' & x & Hb & E)]; rewrite <- Hd, E.
      - apply effect_unchanged.
      - by eapply write_new_effect. }
    by destruct out, (query snap StSchedulerState tt).
  - destruct (transaction_db snap (write_matched snap ws name (authz r) (sr_distinguishes r) true
      (match_of (p, prov)))) as [->|(d & x & Hb & ->)]; [apply effect_unchanged|].
    by eapply write_matched_effect.
Qed.

Lemma workspace_effect name project snap fresh :
  split_slashed_project project = None →
  write_effect w r (Some name) (Some project)
    (Writing snap (fst (get_or_create_workspace snap fresh name))).
Proof.
  intros Hs. unfold get_or_create_workspace.
  match goal with |- context [transaction snap ?b] => destruct (transaction_db snap b) as [->|(d & x & Hb & ->)] end;
    [apply effect_unchanged|].
  apply result_bind_Ok in Hb as (existing & [_ <-]%query_Ok & Hb).
  destruct (workspace_by_name (db snap) name) as [id|] eqn:Ew; [injection Hb as <- _; apply effect_unchanged|].
  apply result_bind_Ok in Hb as (u & _ & [= <- _]). by apply (effect_workspace _ _ _ _ snap fresh name project).
Qed.

(** The calls of a computation all have an effect a write may have. *)
Definition limited {E A} (workspace project : option string) (m : M P E A) : Prop :=
  spec m (λ calls _, Forall (write_effect w r workspace project) calls).

Lemma limited_reads {E A} workspace project (m : M P E A) : reads m → limited workspace project m.
Proof.
  intros Hm. eapply spec_weaken; [exact Hm|]. intros calls x Hc. eapply Forall_impl; [exact Hc|].
  intros [snap|] Hr; [apply effect_reading|done].
Qed.

Lemma limited_bind {E A B} workspace project (m : M P E A) (k : A → M P E B) :
  limited workspace project m → (∀ a, limited workspace project (k a)) →
  limited workspace project (bind m k).
Proof.
  intros Hm Hk. eapply spec_bind; [exact Hm| |done]. intros calls a Hc. cbn beta in Hc.
  eapply spec_weaken; [apply Hk|]. intros more x Hmore. cbn beta in *. by apply Forall_app.
Qed.

Lemma limited_writing {A} workspace project (f : Snapshot → N → Transaction A) :
  (∀ snap fresh, write_effect w r workspace project (Writing snap (fst (f snap fresh)))) →
  limited workspace project (writing w f).
Proof.
  intros Hf. eapply spec_weaken; [apply spec_writing|].
  intros calls x (snap & fresh & [[-> _]| ->] & _); repeat constructor. apply Hf.
Qed.

Lemma limited_map_err {E E' A} workspace project (f : E → E') (m : M P E A) :
  limited workspace project m → limited workspace project (map_err f m).
Proof. intros Hm. by eapply spec_map_err. Qed.

Lemma limited_named_write ew active project :
  split_slashed_project project = None →
  limited (trimmed_opt ew) (Some project) (resolve_named_write w r ew active project).
Proof.
  intros Hs. unfold resolve_named_write. apply limited_bind.
  { destruct (trimmed_opt ew) as [workspace|]; [|apply limited_reads; auto with reads].
    by apply limited_map_err, limited_writing; intros; apply workspace_effect. }
  intros ws. destruct (refuse_foreign_profile_name w (trimmed_opt ew) project (creator r)) as [[]|e] eqn:Ef.
  2: { apply spec_bind with (Q := λ calls res, calls = [] ∧ res = Err e); [by apply spec_result| |].
       - by intros calls a [_ ?].
       - intros calls e' [-> _]. constructor. }
  apply limited_bind; [apply limited_reads; auto with reads|]. intros _.
  apply limited_bind; [|intros res; apply limited_reads; auto with reads].
  apply limited_map_err, limited_writing. intros. by apply resolution_effect.
Qed.

(** A write request changes the store only as its arguments allow,
    whether it succeeds or fails and whatever fails on the way: it creates at
    most the workspace it names and a project of exactly the name it gives (in
    the mode the policy sets, with the caller as creator, never another
    operator's profile project, and only when no project answers to the name),
    or promotes the answering project to its own canonical name, audited and
    when the caller may write to it.  A [workspace/project] label and a
    request without a project change nothing. *)
Theorem write_request_effects ew ep actor (s s' : Request P) res :
  resolve_write_args w r ew ep actor s = (s', res) →
  Forall (write_effect w r (trimmed_opt ew) (trimmed_opt ep)) (new_calls s s').
Proof.
  intros Hrun.
  assert (Hl : limited (trimmed_opt ew) (trimmed_opt ep) (resolve_write_args w r ew ep actor));
    [|by apply (spec_run _ _ _ _ _ Hl Hrun)].
  unfold resolve_write_args. destruct (trimmed_opt ep) as [project|].
  2: { apply limited_reads. destruct (trimmed_opt ew); [auto with reads|].
       unfold resolve_unscoped_write. apply reads_bind; [apply reads_ask_pointer|]. intros asked.
       apply reads_bind; [auto with reads|]. intros ids. apply reads_bind; [|auto with reads].
       apply reads_authorize_scope. }
  destruct (negb (writer r)); [apply limited_reads; auto with reads|].
  apply limited_bind; [apply limited_reads, reads_ask_pointer|]. intros asked.
  destruct (split_slashed_project project) as [[lw lp]|] eqn:Es; [|by apply limited_named_write].
  apply limited_reads. unfold resolve_slashed_write. apply reads_bind.
  { destruct (trimmed_opt ew) as [workspace|]; [apply reads_attempt, reads_resolve_explicit_pair|].
    apply reads_bind; [apply reads_resolve_named|auto with reads]. }
  intros exact. apply reads_bind; [|auto with reads].
  destruct exact as [sc|e]; [auto with reads|]. destruct (exact_miss e); [|auto with reads].
  apply reads_bind; [auto with reads|]. intros _. apply reads_map_err, reads_resolve_explicit_pair.
Qed.
End WriteEffects.

(** ** Concrete requests *)

(** No other request interferes and nothing fails. *)
Definition quiet : World :=
  mkWorld (λ _ d, d) (λ _ _, None) (λ _, Delivered) (λ n, (100 + N.of_nat n)%N) Open pretty pretty.

#[local] Instance quiet_pointer : ProjectPointer ActiveProject := active_project_pointer (λ _ s, s) 0%Z.

Definition request_on (d : Db) (p : ActiveProject) : Request ActiveProject := mkRequest d [] p.

(** User 2, who may read the project "secret" of [demo_db]. *)
Definition user2 : ActorKey := mkActorKey (Some "user2") (Some "session").
Definition resolver2 : ScopeResolver :=
  with_active_project (with_writer (with_project_authz (user_principal 2%N) true (new_resolver 7%N 9%N))).
Definition demo_request : Request ActiveProject := request_on demo_db new.

Definition secret : ResolvedScope := mkResolvedScope 7%N 5%N.

Definition read_secret : Request ActiveProject * result (ResolvedScope * ScopeSource) ScopeResolutionError :=
  resolve_existing_args_traced quiet resolver2 (Some " team ") (Some "secret") user2 Read demo_request.

(** A write to it is refused. *)
Example write_secret_refused :
  snd (resolve_write_args quiet resolver2 (Some "team") (Some "secret") user2 demo_request)
  = Err (Forbidden ("not authorized for secret: this needs write access. " +:+ RESTRICTED_PROJECT_FORBIDDEN)).
Proof. vm_compute. reflexivity. Qed.


(** The label [team/secret] with a wrong workspace. *)
Definition read_label : Request ActiveProject * result (ResolvedScope * ScopeSource) ScopeResolutionError :=
  resolve_existing_args_traced quiet resolver2 (Some "default") (Some "team/secret") user2 Read demo_request.

Lemma explicit_names_are_honoured_witness :
  snd read_label = Ok (secret, SrcExplicit) ∧
  (SrcExplicit = SrcExplicit ∧
   (denotes (new_calls demo_request (fst read_label)) "default" "team/secret" secret ∨
    denotes_nothing (new_calls demo_request (fst read_label)) "default" "team/secret" ∧
    ∃ label_workspace label_project,
      split_slashed_project "team/secret" = Some (label_workspace, label_project) ∧
      denotes (new_calls demo_request (fst read_label)) label_workspace label_project secret)).
Proof.
  split; [vm_compute; reflexivity|].
  apply (explicit_names_are_honoured quiet resolver2 (Some "default") (Some "team/secret") user2 Read
           "default" "team/secret" demo_request); vm_compute; reflexivity.
Defined.

(** A caller whose user published from another session: the read falls back
    to the default and the write is refused. *)
Definition elsewhere : ActorKey := mkActorKey (Some "user2") (Some "other").
Definition published : ActiveProject :=
  set_for (λ _ s, s) map_to_list user2 7%N 5%N false 0 0 new.

Lemma unscoped_write_follows_read_witness :
  ∃ s2 res,
    resolve_write_args quiet resolver2 None None elsewhere (request_on demo_db published) = (s2, res) ∧
    (res = Err AmbiguousUnscopedWrite ∧
     ∀ target, res = Ok target → promoted_from target = None ∧ SrcDefaultAfterMismatch ≠ SrcExplicit).
Proof.
  eexists _, _. split; [vm_compute; reflexivity|].
  eapply (unscoped_write_follows_read quiet resolver2 elsewhere Read (request_on demo_db published) _ _
           (mkResolvedScope 7%N 9%N) SrcDefaultAfterMismatch); vm_compute; reflexivity.
Defined.

(** *** Creating *)

Definition create_notes : Request ActiveProject * result ResolvedWriteScope ScopeResolutionError :=
  resolve_write_args quiet resolver2 (Some "new") (Some "notes") user2 demo_request.

Lemma write_request_effects_witness :
  is_ok (snd create_notes) = true ∧
  Forall (write_effect quiet resolver2 (Some "new") (Some "notes"))
    (new_calls demo_request (fst create_notes)).
Proof.
  split; [vm_compute; reflexivity|].
  apply (write_request_effects quiet resolver2 (Some "new") (Some "notes") user2 demo_request
           (fst create_notes) (snd create_notes)).
  vm_compute. reflexivity.
Defined.

(** A refused profile name leaves its workspace behind. *)
Lemma refused_profile_name_creates_workspace :
  let (s, res) := resolve_write_args quiet resolver2 (Some "squat") (Some "_profile.1") user2 demo_request in
  res = Err (Forbidden PROFILE_NAME_RESERVED) ∧
  workspaces (st_db s) = [(7%N, "team"); (100%N, "squat")].
Proof. vm_compute. split; reflexivity. Qed.

(** A name with several slashes is no label, and is created as it stands. *)
Lemma slashed_project_is_created :
  let (s, res) := resolve_write_args quiet resolver2 (Some "team") (Some "a/b/c") user2 demo_request in
  is_ok res = true ∧ pt_name <$> projects (st_db s) = ["secret"; "a/b/c"].
Proof. vm_compute. split; reflexivity. Qed.
