(* ===== verification/FtsQuery.v ===== *)
(** * Full-text query preparation

    Models [crates/ai-memory-store/src/fts_query.rs]: user text made into an
    FTS5 MATCH expression, and the terms and phrases of the auxiliary CJK
    index.  Arguments: FTS5's own parser ([parses], the probe table of the
    source), and the Unicode tables behind [str::to_lowercase] and
    [char::is_alphanumeric]. *)

From S2P Require Export Text.

Local Open Scope string_scope.
Local Open Scope list_scope.

Definition DEFAULT_STOPWORDS : list string :=
  ["a"; "an"; "and"; "are"; "as"; "at"; "be"; "been"; "but"; "by"; "can"; "could"; "did"; "do";
   "does"; "for"; "from"; "had"; "has"; "have"; "how"; "i"; "if"; "in"; "is"; "it"; "its"; "me";
   "my"; "of"; "on"; "or"; "our"; "she"; "should"; "so"; "that"; "the"; "their"; "them"; "they";
   "this"; "to"; "was"; "we"; "were"; "what"; "when"; "where"; "which"; "who"; "why"; "will";
   "with"; "would"; "you"; "your"].

Definition MAX_FTS_QUERY_BYTES : nat := 4096.

Definition quote_char : ascii := "034"%char.
Definition open_paren : ascii := "("%char.
Definition close_paren : ascii := ")"%char.
Definition nul : ascii := "000"%char.
Definition space : ascii := " "%char.
Definition star : ascii := "*"%char.

(** ** String functions of the standard library *)

Definition contains (a : ascii) (s : bytes) : bool := bool_decide (a ∈ s).

Definition starts_with (pre s : bytes) : bool :=
  match strip_prefix pre s with Some _ => true | None => false end.

(** [str::replace] of one ASCII character. *)
Definition replace_char (a : ascii) (by_ : bytes) (s : bytes) : bytes :=
  mjoin ((λ b, if Ascii.eqb b a then by_ else [b]) <$> s).

Definition is_char_boundary (s : bytes) (i : nat) : bool :=
  match s !! i with Some b => negb (continuation b) | None => true end.

(** [str::floor_char_boundary]. *)
Fixpoint floor_from (s : bytes) (i : nat) : nat :=
  if is_char_boundary s i then i else match i with 0 => 0 | S j => floor_from s j end.

Definition floor_char_boundary (s : bytes) (i : nat) : nat :=
  if (length s <=? i)%nat then length s else floor_from s i.

(** [str::split] on the characters of a predicate. *)
Fixpoint split_by (p : ascii → bool) (s : bytes) : list bytes :=
  match s with
  | [] => [[]]
  | a :: s =>
      if p a then [] :: split_by p s
      else match split_by p s with [] => [[a]] | piece :: rest => (a :: piece) :: rest end
  end.

(** [char::is_ascii_punctuation]. *)
Definition is_ascii_punctuation (c : utf8_char) : bool :=
  match c with
  | [a] =>
      let n := byte_val a in
      ((33 <=? n) && (n <=? 47) || (58 <=? n) && (n <=? 64) || (91 <=? n) && (n <=? 96)
       || (123 <=? n) && (n <=? 126))%N
  | _ => false
  end.

(** [slice::windows(2)]. *)
Fixpoint windows2 {A} (l : list A) : list (A * A) :=
  match l with
  | x :: (y :: _) as l' => (x, y) :: windows2 l'
  | _ => []
  end.

(** ** Bounding *)

Definition bounded_query_text (raw : bytes) : bytes :=
  let bounded := take (floor_char_boundary raw MAX_FTS_QUERY_BYTES) raw in
  if negb (contains nul bounded) then bounded else replace_char nul [space] bounded.

Section Query.
Variable parses : bytes → bool.
Variable to_lowercase : bytes → bytes.
Variable is_alphanumeric : utf8_char → bool.

(** ** Stopwords *)

(** [FtsStopwords]: only membership is observed. *)
Definition FtsStopwords := list bytes.

Definition new_stopwords (words : list bytes) : FtsStopwords := to_lowercase <$> words.
Definition no_stopwords : FtsStopwords := [].
Definition default_stopwords : FtsStopwords := new_stopwords (lit <$> DEFAULT_STOPWORDS).

Definition is_stopword (stopwords : FtsStopwords) (word : bytes) : bool :=
  bool_decide (to_lowercase word ∈ stopwords).

(** ** Tokens *)

Definition has_unknown_bare_column (token : bytes) : bool :=
  contains ":"%char token && negb (contains quote_char token)
  && negb (starts_with (lit "title:") token) && negb (starts_with (lit "body:") token).

Definition should_quote_fts5_token (token : bytes) : bool :=
  if starts_with [quote_char] token && ends_with quote_char token then false
  else
    let core := match strip_suffix star token with Some core => core | None => token end in
    existsb (λ c, is_ascii_punctuation c && negb (bool_decide (c = lit ":"))) (chars core).

Definition quoted (s : bytes) : bytes := quote_char :: s ++ [quote_char].

Definition quote_fts5_token (token : bytes) : bytes :=
  if contains quote_char token then quoted (replace_char quote_char [quote_char; quote_char] token)
  else
    let '(token, prefix) :=
      match strip_suffix star token with
      | Some core => if existsb is_alphanumeric (chars core) then (core, [star]) else (token, [])
      | None => (token, [])
      end in
    let split := concat ((λ c, if is_ascii_punctuation c then [space] else c) <$> chars token) in
    let split := join [space] (split_whitespace split) in
    if bool_decide (split = []) || bool_decide (split = token) then quoted token ++ prefix
    else open_paren :: quoted token ++ prefix ++ lit " OR " ++ quoted split ++ prefix ++ [close_paren].

(** A token without enclosing parentheses. *)
Definition prepare_bare_token (token : bytes) : list bytes :=
  if has_unknown_bare_column token then
    quote_fts5_token <$> split_whitespace (replace_char ":"%char [space] token)
  else
    match (if contains quote_char token then None else split_once ":"%char token) with
    | Some (column, term) =>
        if bool_decide (column ∈ [lit "title"; lit "body"]) && negb (bool_decide (term = []))
           && (should_quote_fts5_token term || contains ":"%char term)
        then [column ++ lit ":" ++ quote_fts5_token term]
        else if should_quote_fts5_token token then [quote_fts5_token token] else [token]
    | None => if should_quote_fts5_token token then [quote_fts5_token token] else [token]
    end.

Definition on_first (f : bytes → bytes) (parts : list bytes) : list bytes :=
  match parts with [] => [] | p :: rest => f p :: rest end.

Definition on_last (f : bytes → bytes) (parts : list bytes) : list bytes :=
  reverse (on_first f (reverse parts)).

(** The parentheses at the two ends: how many, and what is between them. *)
Definition leading_parens (token : bytes) : nat :=
  (length token - length (drop_while (Ascii.eqb open_paren) token))%nat.
Definition trailing_parens (token : bytes) : nat :=
  (length token - length (drop_end_while (Ascii.eqb close_paren) token))%nat.

(** The recursion is on a strictly shorter token; [fuel] bounds its depth. *)
Fixpoint prepare_token_fuel (fuel : nat) (token : bytes) : list bytes :=
  let opened := leading_parens token in
  let closed := trailing_parens token in
  if (((0 <? opened) || (0 <? closed)) && (opened + closed <? length token))%nat then
    match fuel with
    | 0 => []
    | S fuel =>
        let inner := take (length token - closed - opened)%nat (drop opened token) in
        on_last (λ p, p ++ drop (length token - closed)%nat token)
          (on_first (λ p, take opened token ++ p) (prepare_token_fuel fuel inner))
    end
  else prepare_bare_token token.

Definition prepare_fts5_token (token : bytes) : list bytes := prepare_token_fuel (length token) token.

(** ** Queries *)

Definition is_operator (t : bytes) : bool :=
  bool_decide (t ∈ [lit "OR"; lit "AND"; lit "NOT"; lit "NEAR"]).

Definition explicit_syntax (raw : bytes) : bool :=
  contains quote_char raw || contains open_paren raw || contains close_paren raw
  || existsb is_operator (split_whitespace raw).

(** The words of one segment between quotes. *)
Definition segment_words (segment : bytes) : list bytes :=
  mjoin (split_whitespace <$> split_by (λ a, Ascii.eqb a open_paren || Ascii.eqb a close_paren) segment).

(** The words of the text, each with whether it was quoted. *)
Definition fallback_words (raw : bytes) : list (bytes * bool) :=
  let segments := split_on quote_char raw in
  let unclosed := Nat.even (length segments) in
  let last := (length segments - 1)%nat in
  mjoin (imap (λ index segment,
           let is_quoted := (index mod 2 =? 1) && negb (unclosed && (index =? last)) in
           (λ word, (word, is_quoted)) <$> segment_words segment) segments)%nat.

Definition bag_of_words (stopwords : FtsStopwords) (raw : bytes) : bytes :=
  let words := fallback_words raw in
  let content := fst <$> filter (λ wq, snd wq || negb (is_stopword stopwords (fst wq)) = true) words in
  let kept := match content with [] => fst <$> words | _ => content end in
  join (lit " OR ") (quote_fts5_token <$> kept).

Definition prepare_fts5_query (raw : bytes) (stopwords : FtsStopwords) : bytes :=
  let raw := bounded_query_text raw in
  let explicit := explicit_syntax raw in
  let tokens := mjoin (prepare_fts5_token <$>
    filter (λ t, explicit || negb (is_stopword stopwords t) = true) (split_whitespace raw)) in
  let tokens :=
    if bool_decide (tokens = []) && negb explicit
    then mjoin (prepare_fts5_token <$> split_whitespace raw) else tokens in
  match tokens with
  | [] => []
  | _ =>
      let candidate := join (if explicit then lit " " else lit " OR ") tokens in
      if parses candidate then candidate else bag_of_words stopwords raw
  end.

(** ** The CJK index *)

Definition cjk_ranges : list (N * N) :=
  [(4352, 4607); (11904, 12287); (12293, 12294); (12337, 12341); (12347, 12347); (12352, 12543);
   (12592, 12687); (12784, 12799); (13312, 19903); (19968, 40959); (43360, 43391); (44032, 55215);
   (55216, 55295); (63744, 64255); (65382, 65439); (131072, 205743)]%N.

Definition is_cjk (c : utf8_char) : bool :=
  is_alphanumeric c
  && existsb (λ r, (fst r <=? code_point c) && (code_point c <=? snd r))%N cjk_ranges.

Definition bigrams (run : list utf8_char) : list bytes := (λ p, fst p ++ snd p) <$> windows2 run.

Definition append_cjk_terms (terms : list bytes) (run : list utf8_char) : list bytes :=
  match run with [] => terms | _ => terms ++ run ++ bigrams run end.

(** The loop over the characters, with the run so far. *)
Fixpoint cjk_terms_loop (cs : list utf8_char) (terms : list bytes) (run : list utf8_char) : list bytes :=
  match cs with
  | [] => append_cjk_terms terms run
  | c :: cs =>
      if is_cjk c then cjk_terms_loop cs terms (run ++ [c])
      else cjk_terms_loop cs (append_cjk_terms terms run) []
  end.

Definition cjk_terms (raw : bytes) : list bytes := cjk_terms_loop (chars raw) [] [].
Definition cjk_index_terms (raw : bytes) : bytes := join [space] (cjk_terms raw).

(** The terms that a run of the query is looked up by. *)
Definition cjk_phrase (run : list utf8_char) : list bytes :=
  match run with [c] => [c] | _ => bigrams run end.

Definition append_cjk_query (phrases : list bytes) (run : list utf8_char) (column : option bytes)
    : list bytes :=
  match run with
  | [] => phrases
  | _ =>
      let prefix := match column with Some column => column ++ lit ":" | None => [] end in
      phrases ++ [prefix ++ quoted (join [space] (cjk_phrase run))]
  end.

Fixpoint cjk_query_loop (cs : list utf8_char) (column : option bytes) (phrases : list bytes)
    (run : list utf8_char) : list bytes :=
  match cs with
  | [] => append_cjk_query phrases run column
  | c :: cs =>
      if is_cjk c then cjk_query_loop cs column phrases (run ++ [c])
      else cjk_query_loop cs column (append_cjk_query phrases run column) []
  end.

Definition cjk_token (phrases : list bytes) (token : bytes) : list bytes :=
  let token := drop_while (Ascii.eqb open_paren) token in
  let '(column, text) :=
    match split_once ":"%char token with
    | Some (column, text) =>
        if bool_decide (column ∈ [lit "title"; lit "body"]) then (Some column, text) else (None, token)
    | None => (None, token)
    end in
  cjk_query_loop (chars text) column phrases [].

Definition prepare_cjk_fts5_query (raw : bytes) : option bytes :=
  let bounded := bounded_query_text raw in
  if existsb (λ t, bool_decide (t ∈ [lit "AND"; lit "NOT"; lit "NEAR"])) (split_whitespace bounded) then None
  else
    match foldl cjk_token [] (split_whitespace bounded) with
    | [] => None
    | phrases => Some (join (lit " OR ") phrases)
    end.
End Query.
