(* ===== verification/FtsQueryFacts.v ===== *)
(** * What query preparation guarantees *)

From S2P Require Export FtsQuery.

Local Open Scope string_scope.
Local Open Scope list_scope.
Local Open Scope nat_scope.

(** ** Bytes of derived strings *)

Lemma elem_of_join a sep l : a ∈ join sep l → a ∈ sep ∨ ∃ x, x ∈ l ∧ a ∈ x.
Proof.
  induction l as [|x l IH]; [by intros ?%elem_of_nil|].
  destruct l as [|y l]; [intros Ha; right; exists x; split; [left|done]|].
  cbn [join]. rewrite !elem_of_app. intros [?|[?|Ha]]; [right; exists x; split; [left|done]|by left|].
  destruct (IH Ha) as [?|(z & ? & ?)]; [by left|right]. exists z. split; [by right|done].
Qed.

Lemma elem_of_words a cs word w :
  w ∈ words_of cs word → a ∈ w → a ∈ word ∨ ∃ c, c ∈ cs ∧ a ∈ c.
Proof.
  revert word. induction cs as [|c cs IH]; intros word; simpl.
  - destruct word; [by intros ?%elem_of_nil|]. intros ->%list_elem_of_singleton. by left.
  - assert (Hskip : ∀ word', w ∈ words_of cs word' → a ∈ w → a ∈ word' ∨ ∃ c', c' ∈ c :: cs ∧ a ∈ c').
    { intros word' Hw Ha. destruct (IH word' Hw Ha) as [?|(c' & ? & ?)]; [by left|right].
      exists c'. split; [by right|done]. }
    destruct (is_whitespace c).
    + assert (Hnil : w ∈ words_of cs [] → a ∈ w → a ∈ word ∨ ∃ c', c' ∈ c :: cs ∧ a ∈ c').
      { intros Hw Ha. destruct (Hskip [] Hw Ha) as [?%elem_of_nil|?]; [done|by right]. }
      destruct word as [|b word]; [done|]. intros [->|Hw]%elem_of_cons Ha; [by left|by apply Hnil].
    + intros Hw Ha. destruct (Hskip _ Hw Ha) as [[?|?]%elem_of_app|?]; [by left| |by right].
      right. exists c. split; [left|done].
Qed.

Lemma elem_of_chars a s c : c ∈ chars s → a ∈ c → a ∈ s.
Proof.
  intros Hc Ha. rewrite <- (concat_chars s). apply list_elem_of_In, in_concat.
  exists c. by rewrite <- !list_elem_of_In.
Qed.

Lemma elem_of_split_whitespace a s w : w ∈ split_whitespace s → a ∈ w → a ∈ s.
Proof.
  intros Hw Ha. destruct (elem_of_words a _ _ _ Hw Ha) as [?%elem_of_nil|(c & Hc & Hac)]; [done|].
  by eapply elem_of_chars.
Qed.

Lemma elem_of_split_by a p s piece : piece ∈ split_by p s → a ∈ piece → a ∈ s.
Proof.
  revert piece. induction s as [|b s IH]; intros piece; simpl.
  { intros ->%list_elem_of_singleton. done. }
  assert (Hs : ∀ q, q ∈ split_by p s → a ∈ q → a ∈ b :: s) by (intros q Hq Ha; right; eauto).
  destruct (p b); [intros [->|Hp]%elem_of_cons Ha; [by apply elem_of_nil in Ha|eauto]|].
  destruct (split_by p s) as [|q rest]; [by intros ->%list_elem_of_singleton [->|?%elem_of_nil]%elem_of_cons; [left|]|].
  intros [->|Hp]%elem_of_cons Ha; [|eapply Hs; [by right|done]].
  apply elem_of_cons in Ha as [->|Ha]; [left|eapply Hs; [left|done]].
Qed.

Lemma elem_of_split_on a c s piece : piece ∈ split_on c s → a ∈ piece → a ∈ s ∧ a ≠ c.
Proof.
  revert piece. induction s as [|b s IH]; intros piece; simpl.
  { intros ->%list_elem_of_singleton Ha. by apply elem_of_nil in Ha. }
  assert (Hs : ∀ q, q ∈ split_on c s → a ∈ q → a ∈ b :: s ∧ a ≠ c).
  { intros q Hq Ha. destruct (IH q Hq Ha). split; [by right|done]. }
  destruct (Ascii.eqb_spec b c) as [->|Hbc].
  { intros [->|Hp]%elem_of_cons Ha; [by apply elem_of_nil in Ha|eauto]. }
  destruct (split_on c s) as [|q rest].
  { intros ->%list_elem_of_singleton [->|?%elem_of_nil]%elem_of_cons; [split; [left|done]|done]. }
  intros [->|Hp]%elem_of_cons Ha; [|eapply Hs; [by right|done]].
  apply elem_of_cons in Ha as [->|Ha]; [split; [left|done]|eapply Hs; [left|done]].
Qed.

Lemma elem_of_replace_char a b by_ s : a ∈ replace_char b by_ s → a ∈ by_ ∨ a ∈ s ∧ a ≠ b.
Proof.
  unfold replace_char. rewrite list_elem_of_join. intros (x & Ha & (y & -> & Hy)%list_elem_of_fmap).
  destruct (Ascii.eqb_spec y b) as [Heq|Hyb]; [by left|].
  apply list_elem_of_singleton in Ha as ->. by right.
Qed.

(** ** Bounding *)

Lemma nul_not_bounded raw : nul ∉ bounded_query_text raw.
Proof.
  unfold bounded_query_text. set (b := take _ raw).
  destruct (contains nul b) eqn:E; cbn [negb].
  - intros [H%list_elem_of_singleton|[_ H]]%elem_of_replace_char; done.
  - by apply bool_decide_eq_false in E.
Qed.

Lemma floor_from_le s i : (floor_from s i ≤ i)%nat.
Proof. induction i as [|i IH]; simpl; destruct (is_char_boundary s _); lia. Qed.

Lemma length_replace_char b c s : length (replace_char b [c] s) = length s.
Proof.
  unfold replace_char. induction s as [|a s IH]; [done|].
  rewrite fmap_cons. simpl. rewrite length_app, IH. by destruct (Ascii.eqb a b).
Qed.

Lemma bounded_query_text_length raw : (length (bounded_query_text raw) ≤ MAX_FTS_QUERY_BYTES)%nat.
Proof.
  unfold bounded_query_text. set (b := take _ raw).
  assert (length b ≤ MAX_FTS_QUERY_BYTES)%nat.
  { subst b. rewrite length_take. unfold floor_char_boundary.
    destruct (Nat.leb_spec (length raw) MAX_FTS_QUERY_BYTES); [lia|].
    pose proof (floor_from_le raw MAX_FTS_QUERY_BYTES). lia. }
  destruct (negb _); [done|]. by rewrite length_replace_char.
Qed.

(** ** The ends of a token *)

Lemma drop_end_while_take {A} (p : A → bool) l :
  drop_end_while p l = take (length (drop_end_while p l)) l.
Proof.
  unfold drop_end_while. rewrite length_reverse. rewrite (drop_while_drop p (reverse l)) at 1.
  rewrite length_reverse, reverse_drop, reverse_involutive by done.
  pose proof (length_drop_while p (reverse l)). rewrite length_reverse in *. f_equal. lia.
Qed.

(** ** Tokens *)

Section Facts.
Variable parses : bytes → bool.
Variable to_lowercase : bytes → bytes.
Variable is_alphanumeric : utf8_char → bool.

Abbreviation quote_token := (quote_fts5_token is_alphanumeric).

(** The token between its parentheses, when there are some. *)
Definition inner_token (token : bytes) : bytes :=
  take (length token - trailing_parens token - leading_parens token) (drop (leading_parens token) token).

Definition has_parens (token : bytes) : bool :=
  ((0 <? leading_parens token) || (0 <? trailing_parens token))
  && (leading_parens token + trailing_parens token <? length token).

Lemma has_parens_inner token :
  has_parens token = true → (length (inner_token token) < length token)%nat.
Proof.
  unfold has_parens, inner_token.
  intros [[H%Nat.ltb_lt|H%Nat.ltb_lt]%orb_true_iff H2%Nat.ltb_lt]%andb_true_iff;
    rewrite length_take, length_drop; lia.
Qed.

Lemma prepare_token_fuel_enough fuel token :
  (length token ≤ fuel)%nat →
  prepare_token_fuel is_alphanumeric fuel token = prepare_fts5_token is_alphanumeric token.
Proof.
  unfold prepare_fts5_token. revert token. induction fuel as [fuel IH] using lt_wf_ind. intros token Hle.
  destruct (Nat.eq_dec fuel (length token)) as [->|Hne]; [done|].
  destruct fuel as [|fuel]; [lia|]. cbn [prepare_token_fuel]. fold (has_parens token) (inner_token token).
  destruct (length token) as [|n] eqn:El; cbn [prepare_token_fuel]; fold (has_parens token) (inner_token token).
  - destruct (has_parens token) eqn:Ep; [|done]. apply has_parens_inner in Ep. lia.
  - rewrite El. destruct (has_parens token) eqn:Ep; [|done]. apply has_parens_inner in Ep.
    rewrite (IH fuel), (IH n) by lia. done.
Qed.

(** Neither end of what is between the parentheses is one. *)
Lemma take_drop_while_head {A} (p : A → bool) n l :
  take n (drop_while p l) ≠ [] → drop_while p (take n (drop_while p l)) = take n (drop_while p l).
Proof.
  destruct (drop_while p l) as [|x rest] eqn:E; [by rewrite take_nil|]. apply drop_while_head in E.
  destruct n; [done|]. intros _. by apply drop_while_none.
Qed.

Lemma inner_token_front token :
  inner_token token
  = take (length token - trailing_parens token - leading_parens token) (drop_while (Ascii.eqb open_paren) token).
Proof. unfold inner_token. by rewrite (drop_while_drop _ token). Qed.

Lemma inner_token_back token :
  inner_token token = drop (leading_parens token) (drop_end_while (Ascii.eqb close_paren) token).
Proof.
  unfold inner_token. rewrite (drop_end_while_take _ token).
  rewrite skipn_firstn_comm. f_equal. unfold trailing_parens.
  assert (length (drop_end_while (Ascii.eqb close_paren) token) ≤ length token).
  { rewrite drop_end_while_take, length_take. lia. }
  lia.
Qed.

Lemma inner_leading token : inner_token token ≠ [] → leading_parens (inner_token token) = 0.
Proof.
  unfold leading_parens at 1. rewrite inner_token_front. intros Hne.
  rewrite take_drop_while_head by done. lia.
Qed.

Lemma inner_trailing token : inner_token token ≠ [] → trailing_parens (inner_token token) = 0.
Proof.
  unfold trailing_parens at 1. rewrite inner_token_back. unfold drop_end_while. intros Hne.
  rewrite <- (reverse_involutive (drop (leading_parens token) _)), reverse_drop, reverse_involutive in *.
  rewrite !reverse_involutive. rewrite take_drop_while_head; [rewrite !length_reverse; lia|].
  intros E. apply Hne. by rewrite E.
Qed.

(** The tokenizer's recursion terminates: with fuel the length of the
    token, the model satisfies the source's recursive equation on every token,
    and one level of recursion is all there is, since the token between the
    parentheses has none of its own at its ends. *)
Theorem prepare_fts5_token_terminates token :
  prepare_fts5_token is_alphanumeric token
  = (if has_parens token
     then on_last (λ p, p ++ drop (length token - trailing_parens token) token)
            (on_first (λ p, take (leading_parens token) token ++ p)
               (prepare_fts5_token is_alphanumeric (inner_token token)))
     else prepare_bare_token is_alphanumeric token) ∧
  (has_parens token = true → has_parens (inner_token token) = false).
Proof.
  split.
  - unfold prepare_fts5_token at 1. destruct (length token) as [|n] eqn:El; cbn [prepare_token_fuel];
      fold (has_parens token) (inner_token token); rewrite <- ?El; destruct (has_parens token) eqn:Ep; try done.
    + apply has_parens_inner in Ep. lia.
    + apply has_parens_inner in Ep. by rewrite prepare_token_fuel_enough by lia.
  - intros [_ Hlt%Nat.ltb_lt]%andb_true_iff.
    assert (Hin : inner_token token ≠ []).
    { intros E. apply (f_equal length) in E. unfold inner_token in E.
      rewrite length_take, length_drop in E. simpl in E. lia. }
    unfold has_parens at 1. rewrite inner_leading, inner_trailing by done. done.
Qed.

(** ** The degraded query *)

(** Expressions of FTS5's documented grammar: a string, in which a quote could
    only occur doubled, optionally a prefix; a group; a disjunction. *)
Inductive fts5_expression : bytes → Prop :=
  | fts5_string body (prefix : bool) :
      quote_char ∉ body → nul ∉ body →
      fts5_expression (quoted body ++ (if prefix then [star] else []))
  | fts5_group e : fts5_expression e → fts5_expression (open_paren :: e ++ [close_paren])
  | fts5_or e1 e2 : fts5_expression e1 → fts5_expression e2 → fts5_expression (e1 ++ lit " OR " ++ e2).

(** A word without quotes or NULs. *)
Definition plain (word : bytes) : Prop := (quote_char ∉ word) ∧ (nul ∉ word).

Lemma plain_split word :
  plain word →
  plain (join [space] (split_whitespace
    (concat ((λ c, if is_ascii_punctuation c then [space] else c) <$> chars word)))).
Proof.
  assert (H : ∀ a, a ≠ space → a ∈ join [space] (split_whitespace
    (concat ((λ c, if is_ascii_punctuation c then [space] else c) <$> chars word))) → a ∈ word).
  { intros a Hs [?%list_elem_of_singleton|(w & Hw & Ha)]%elem_of_join; [done|].
    apply (elem_of_split_whitespace a) in Hw; [|done].
    apply list_elem_of_In, in_concat in Hw as (c & Hc & Hac).
    apply list_elem_of_In, list_elem_of_fmap in Hc as (c' & -> & Hc'). apply list_elem_of_In in Hac.
    destruct (is_ascii_punctuation c'); [by apply list_elem_of_singleton in Hac|by eapply elem_of_chars]. }
  intros [Hq Hn]. split; intros Ha; by apply H in Ha.
Qed.

Lemma plain_core word core : plain word → strip_suffix star word = Some core → plain core.
Proof.
  unfold strip_suffix. destruct (ends_with star word) eqn:E; [|done]. intros [Hq Hn] [= <-].
  assert (Hsub : ∀ a, a ∈ removelast word → a ∈ word).
  { intros a. rewrite !list_elem_of_In. destruct word as [|b word]; [done|].
    intros Ha. rewrite (app_removelast_last b) by done. apply in_or_app. by left. }
  split; intros Ha; by apply Hsub in Ha.
Qed.

Lemma quote_token_expression word : plain word → fts5_expression (quote_token word).
Proof.
  intros Hp. unfold quote_fts5_token, contains. rewrite bool_decide_false by apply Hp.
  assert (Hmain : ∀ token (prefix : bool), plain token →
    fts5_expression
      (let split := join [space] (split_whitespace
         (concat ((λ c, if is_ascii_punctuation c then [space] else c) <$> chars token))) in
       if bool_decide (split = []) || bool_decide (split = token)
       then quoted token ++ (if prefix then [star] else [])
       else open_paren :: quoted token ++ (if prefix then [star] else []) ++ lit " OR " ++ quoted split
              ++ (if prefix then [star] else []) ++ [close_paren])).
  { intros token prefix Ht. pose proof (plain_split _ Ht) as Hs. cbv zeta.
    set (sp := join [space] (split_whitespace _)) in *.
    destruct (_ || _); [apply fts5_string; apply Ht|].
    set (e1 := quoted token ++ (if prefix then [star] else [])).
    set (e2 := quoted sp ++ (if prefix then [star] else [])).
    assert (Hor : fts5_expression (e1 ++ lit " OR " ++ e2)).
    { apply fts5_or; apply fts5_string; (apply Ht || apply Hs). }
    apply fts5_group in Hor. unfold e1, e2 in Hor. by rewrite <- !app_assoc in Hor. }
  destruct (strip_suffix star word) as [core|] eqn:Ec; [|apply (Hmain word false Hp)].
  destruct (existsb is_alphanumeric (chars core)); [|apply (Hmain word false Hp)].
  apply (Hmain core true). by eapply plain_core.
Qed.

Lemma join_expression l :
  l ≠ [] → Forall fts5_expression l → fts5_expression (join (lit " OR ") l).
Proof.
  intros Hne Hl. induction Hl as [|e l He Hl IH]; [done|].
  destruct l as [|e' l]; [done|]. cbn [join]. apply fts5_or; [done|]. by apply IH.
Qed.

Lemma fallback_words_plain raw word q :
  nul ∉ raw → (word, q) ∈ fallback_words raw → plain word.
Proof.
  intros Hn. unfold fallback_words. rewrite list_elem_of_join.
  intros (ws & Hw & Hws). apply list_elem_of_lookup_1 in Hws as (i & Hi).
  rewrite list_lookup_imap in Hi. apply fmap_Some in Hi as (segment & Hseg & ->).
  apply list_elem_of_lookup_2 in Hseg. apply list_elem_of_fmap in Hw as (w & [= <- _] & Hw).
  assert (Hsub : ∀ a, a ∈ word → a ∈ raw ∧ a ≠ quote_char).
  { intros a Ha. apply (elem_of_split_on _ _ _ _ Hseg).
    unfold segment_words in Hw. apply list_elem_of_join in Hw as (piece & Hpw & Hp).
    apply list_elem_of_fmap in Hp as (p & -> & Hp).
    eapply elem_of_split_by; [exact Hp|]. by eapply elem_of_split_whitespace. }
  split; intros Ha; apply Hsub in Ha; naive_solver.
Qed.

(** C36. A search text never makes the MATCH fail: the prepared query is
    empty (the search is skipped), or accepted by FTS5's own parser, or
    degraded to a disjunction, well formed in FTS5's grammar, of the text's
    words taken literally, in which a word is missing only if it is an
    unquoted stopword. *)
Theorem prepared_query_is_searchable raw stopwords :
  let bounded := bounded_query_text raw in
  let out := prepare_fts5_query parses to_lowercase is_alphanumeric raw stopwords in
  out = [] ∨ parses out = true ∨
  fts5_expression out ∧
  ∃ kept, out = join (lit " OR ") (quote_token <$> kept) ∧
    (∀ word, word ∈ kept → ∃ q, (word, q) ∈ fallback_words bounded) ∧
    (∀ word q, (word, q) ∈ fallback_words bounded →
       word ∈ kept ∨ q = false ∧ is_stopword to_lowercase stopwords word = true).
Proof.
  intros bounded out. subst out. unfold prepare_fts5_query. fold bounded.
  match goal with |- context [match ?t with [] => [] | _ => _ end] => set (tokens := t) end.
  destruct tokens as [|t ts] eqn:Et; [by left|].
  destruct (parses _) eqn:Ep; [right; by left|].
  unfold bag_of_words. set (words := fallback_words bounded).
  set (content := fst <$> filter _ words). set (kept := match content with [] => _ | _ => content end).
  destruct (decide (kept = [])) as [->|Hne]; [by left|]. right. right.
  assert (Hsub : ∀ word, word ∈ kept → ∃ q, (word, q) ∈ words).
  { intros word Hw. assert (word ∈ fst <$> words) as ((w & q) & -> & ?)%list_elem_of_fmap; [|by exists q].
    unfold kept in Hw. destruct content as [|c cs] eqn:Ec; [done|]. rewrite <- Ec in Hw.
    apply list_elem_of_fmap in Hw as (wq & -> & [_ ?]%list_elem_of_filter). by apply list_elem_of_fmap_2. }
  split.
  - apply join_expression; [by intros E%fmap_nil_inv|]. apply Forall_fmap, Forall_forall. intros word Hw.
    apply quote_token_expression. destruct (Hsub word Hw) as [q Hq].
    eapply fallback_words_plain; [apply nul_not_bounded|exact Hq].
  - exists kept. split_and!; [done|done|]. intros word q Hw.
    destruct (snd (word, q) || negb (is_stopword to_lowercase stopwords word)) eqn:Ek.
    + left. assert (word ∈ content).
      { unfold content. apply list_elem_of_fmap. exists (word, q). split; [done|].
        by apply list_elem_of_filter. }
      unfold kept. by destruct content; [apply elem_of_nil in H|].
    + apply orb_false_iff in Ek as [Hq Hs%negb_false_iff]. right. by split.
Qed.
End Facts.
