(* ===== verification/FtsCjkFacts.v ===== *)
(** * The auxiliary CJK index finds exactly the runs it is asked for *)

From Stdlib Require Import ZifyBool ZifyN.
From S2P Require Export FtsQueryFacts.

Local Open Scope string_scope.
Local Open Scope list_scope.
Local Open Scope nat_scope.

(** ** Consecutive elements *)

Definition infix {A} (p l : list A) : Prop := ∃ l1 l2, l = l1 ++ p ++ l2.

Lemma infix_refl {A} (l : list A) : infix l l.
Proof. exists [], []. by rewrite app_nil_r. Qed.

Lemma infix_app_l {A} (p l l' : list A) : infix p l → infix p (l ++ l').
Proof. intros (a & b & ->). exists a, (b ++ l'). by rewrite <- !app_assoc. Qed.

Lemma infix_app_r {A} (p l l' : list A) : infix p l → infix p (l' ++ l).
Proof. intros (a & b & ->). exists (l' ++ a), b. by rewrite <- !app_assoc. Qed.

Lemma infix_nil {A} (p : list A) : p ≠ [] → ¬ infix p [].
Proof. intros Hp (a & b & E). by destruct a, p. Qed.

Lemma infix_singleton {A} (x : A) l : infix [x] l ↔ x ∈ l.
Proof.
  split.
  - intros (a & b & ->). rewrite !elem_of_app. right. left. by apply list_elem_of_singleton.
  - intros (a & b & ->)%list_elem_of_split. by exists a, b.
Qed.

Lemma infix_lookup {A} (p l : list A) :
  infix p l ↔ ∃ k, k + length p ≤ length l ∧ ∀ j, j < length p → l !! (k + j) = p !! j.
Proof.
  split.
  - intros (a & b & ->). exists (length a). split; [rewrite !length_app; lia|].
    intros j Hj. rewrite lookup_app_r by lia. rewrite lookup_app_l by lia. f_equal. lia.
  - intros (k & Hk & Hl). exists (take k l), (drop (length p) (drop k l)).
    assert (E : take (length p) (drop k l) = p).
    { apply list_eq. intros j. destruct (decide (j < length p)).
      - rewrite lookup_take_lt, lookup_drop by lia. by apply Hl.
      - rewrite (lookup_ge_None_2 p) by lia. apply lookup_ge_None_2. rewrite length_take. lia. }
    rewrite <- E at 1. by rewrite !take_drop.
Qed.

(** An element outside the pattern separates its occurrences. *)
Lemma infix_separated {A} (P : A → Prop) (p l1 l2 : list A) x :
  Forall P p → ¬ P x → infix p (l1 ++ x :: l2) → infix p l1 ∨ infix p l2.
Proof.
  rewrite !infix_lookup, length_app. cbn [length]. intros Hp Hx (k & Hk & Hl).
  destruct (decide (k + length p ≤ length l1)); [|destruct (decide (length l1 < k))].
  - left. exists k. split; [done|]. intros j Hj. rewrite <- Hl by done. by rewrite lookup_app_l by lia.
  - right. exists (k - length l1 - 1). split; [lia|]. intros j Hj. rewrite <- Hl by done.
    rewrite lookup_app_r, lookup_cons_ne_0 by lia. f_equal. lia.
  - specialize (Hl (length l1 - k) ltac:(lia)). rewrite lookup_app_r in Hl by lia.
    replace (k + (length l1 - k) - length l1) with 0 in Hl by lia. cbn in Hl.
    symmetry in Hl. destruct Hx. by eapply Forall_lookup_1.
Qed.

Lemma infix_separated_iff {A} (P : A → Prop) (p l1 l2 : list A) x :
  Forall P p → ¬ P x → infix p (l1 ++ x :: l2) ↔ infix p l1 ∨ infix p l2.
Proof.
  intros Hp Hx. split; [by apply (infix_separated P)|].
  intros [H|H]; [by apply infix_app_l|]. apply infix_app_r. by apply (infix_app_r _ _ [x]).
Qed.

Lemma infix_skip {A} (P : A → Prop) (p u l : list A) :
  p ≠ [] → Forall P p → Forall (λ x, ¬ P x) u → infix p (u ++ l) → infix p l.
Proof.
  intros Hne Hp. induction 1 as [|x u Hx _ IH]; [done|]. intros H.
  destruct (infix_separated P p [] (u ++ l) x Hp Hx H) as [H'|H']; [by apply infix_nil in H'|auto].
Qed.

(** ** Bigrams *)

Lemma length_windows2 {A} (l : list A) : length (windows2 l) = length l - 1.
Proof.
  induction l as [|x l IH]; [done|]. destruct l as [|y l]; [done|].
  change (windows2 (x :: y :: l)) with ((x, y) :: windows2 (y :: l)). cbn [length] in *. lia.
Qed.

Lemma windows2_lookup {A} (l : list A) i x y :
  windows2 l !! i = Some (x, y) ↔ l !! i = Some x ∧ l !! S i = Some y.
Proof.
  revert i. induction l as [|a l IH]; intros i; [by split; [|intros [? _]]|].
  destruct l as [|b l]; [split; [done|]; by destruct i as [|[]]; intros [_ ?]|].
  change (windows2 (a :: b :: l)) with ((a, b) :: windows2 (b :: l)).
  destruct i as [|i]; [cbn; naive_solver|]. cbn [lookup list_lookup] in *. apply IH.
Qed.

Lemma bigrams_lookup run i w :
  bigrams run !! i = Some w ↔ ∃ x y, w = x ++ y ∧ run !! i = Some x ∧ run !! S i = Some y.
Proof.
  unfold bigrams. rewrite list_lookup_fmap, fmap_Some. split.
  - intros ([x y] & Hw%windows2_lookup & ->). by exists x, y.
  - intros (x & y & -> & Hw). exists (x, y). by rewrite windows2_lookup.
Qed.

Lemma length_bigrams run : length (bigrams run) = length run - 1.
Proof. unfold bigrams. by rewrite length_fmap, length_windows2. Qed.

Lemma chars_one c : encoded c → chars c = [c].
Proof. intros Hc. rewrite <- (app_nil_r c) at 1. by rewrite (encoded_chars c Hc). Qed.

Lemma chars_two x y : encoded x → encoded y → chars (x ++ y) = [x; y].
Proof. intros Hx Hy. rewrite (encoded_chars x Hx). by rewrite chars_one. Qed.

(** Of two characters. *)
Definition two (w : bytes) : Prop := length (chars w) = 2.

Lemma bigrams_two run : Forall encoded run → Forall two (bigrams run).
Proof.
  intros Hr. apply Forall_lookup. intros i w (x & y & -> & Hx & Hy)%bigrams_lookup. unfold two.
  rewrite chars_two; [done| |]; by eapply Forall_lookup_1.
Qed.

Lemma run_not_two run : Forall encoded run → Forall (λ w, ¬ two w) run.
Proof. intros Hr. eapply Forall_impl; [exact Hr|]. intros c Hc. unfold two. by rewrite chars_one. Qed.

Lemma infix_length {A} (p l : list A) : infix p l → length p ≤ length l.
Proof. intros (a & b & ->). rewrite !length_app. lia. Qed.

(** Consecutive bigrams are those of consecutive characters. *)
Lemma infix_bigrams q run :
  Forall encoded q → Forall encoded run → 2 ≤ length q →
  infix (bigrams q) (bigrams run) ↔ infix q run.
Proof.
  intros Hq Hr H2. rewrite !infix_lookup, !length_bigrams. split; intros (k & Hk & Hl); exists k.
  - assert (Hpair : ∀ j, j < length q - 1 → run !! (k + j) = q !! j ∧ run !! (k + S j) = q !! S j).
    { intros j Hj. specialize (Hl j Hj).
      destruct (lookup_lt_is_Some_2 q j) as [x Hx]; [lia|].
      destruct (lookup_lt_is_Some_2 q (S j)) as [y Hy]; [lia|].
      assert (Hb : bigrams q !! j = Some (x ++ y)) by (apply bigrams_lookup; eauto).
      apply (eq_trans Hl), bigrams_lookup in Hb as (x' & y' & E & Hx' & Hy').
      assert (E' : chars (x ++ y) = chars (x' ++ y')) by by rewrite E.
      rewrite !chars_two in E' by (exact (Forall_lookup_1 _ _ _ _ Hq Hx) || exact (Forall_lookup_1 _ _ _ _ Hq Hy) ||
        exact (Forall_lookup_1 _ _ _ _ Hr Hx') || exact (Forall_lookup_1 _ _ _ _ Hr Hy')). injection E' as -> ->.
      rewrite Nat.add_succ_r.
      split; [exact (eq_trans Hx' (eq_sym Hx))|exact (eq_trans Hy' (eq_sym Hy))]. }
    split; [lia|]. intros j Hj. destruct (decide (j < length q - 1)) as [Hlt|Hge]; [by apply Hpair|].
    destruct (Hpair (j - 1)) as [_ E]; [lia|]. by replace (S (j - 1)) with j in E by lia.
  - split; [lia|]. intros j Hj.
    destruct (lookup_lt_is_Some_2 q j) as [x Hx]; [lia|].
    destruct (lookup_lt_is_Some_2 q (S j)) as [y Hy]; [lia|].
    transitivity (Some (x ++ y)); [|symmetry; apply bigrams_lookup; eauto].
    apply bigrams_lookup. exists x, y. rewrite <- Nat.add_succ_r, !Hl by lia. eauto.
Qed.

(** ** Runs *)

Section Cjk.
Variable is_alphanumeric : utf8_char → bool.

Abbreviation cjk c := (is_cjk is_alphanumeric c = true).

(** The maximal non-empty runs, after a run read so far. *)
Fixpoint runs (cs run : list utf8_char) : list (list utf8_char) :=
  match cs with
  | [] => match run with [] => [] | _ => [run] end
  | c :: cs =>
      if is_cjk is_alphanumeric c then runs cs (run ++ [c])
      else match run with [] => runs cs [] | _ => run :: runs cs [] end
  end.

Lemma cjk_terms_runs cs terms run :
  cjk_terms_loop is_alphanumeric cs terms run
  = terms ++ mjoin ((λ run, run ++ bigrams run) <$> runs cs run).
Proof.
  revert terms run. induction cs as [|c cs IH]; intros terms run; cbn [cjk_terms_loop runs].
  - destruct run; simpl; by rewrite ?app_nil_r.
  - destruct (is_cjk is_alphanumeric c); rewrite IH; [done|].
    destruct run as [|u run]; [done|]. rewrite fmap_cons. cbn [append_cjk_terms mjoin list_join].
    by rewrite <- !app_assoc.
Qed.

Lemma runs_nonempty cs run : Forall (λ r, r ≠ []) (runs cs run).
Proof.
  revert run. induction cs as [|c cs IH]; intros run; simpl.
  - destruct run; [constructor|by apply Forall_singleton].
  - destruct (is_cjk is_alphanumeric c); [done|]. destruct run; [done|]. by constructor.
Qed.

Lemma runs_encoded cs run : Forall encoded cs → Forall encoded run → Forall (Forall encoded) (runs cs run).
Proof.
  intros Hcs. revert run. induction Hcs as [|c cs Hc Hcs IH]; intros run Hr; simpl.
  - destruct run; [constructor|by apply Forall_singleton].
  - destruct (is_cjk is_alphanumeric c); [by apply IH, Forall_app; rewrite Forall_singleton|].
    destruct run; [by apply IH|]. constructor; [done|by apply IH].
Qed.

(** A run of the text lies in one of its maximal runs. *)
Lemma infix_runs q cs run :
  q ≠ [] → Forall (λ c, cjk c) q →
  infix q (run ++ cs) ↔ Exists (infix q) (runs cs run).
Proof.
  intros Hne Hq. revert run. induction cs as [|c cs IH]; intros run; simpl.
  - rewrite app_nil_r. destruct run; rewrite ?Exists_cons, Exists_nil; [|tauto].
    split; [by intros ?%infix_nil|done].
  - destruct (is_cjk is_alphanumeric c) eqn:Ec.
    + rewrite <- IH, <- app_assoc. done.
    + rewrite (infix_separated_iff (λ c, cjk c)) by (done || congruence).
      specialize (IH []). simpl in IH. rewrite IH.
      destruct run; rewrite ?Exists_cons; [|tauto]. split; [|by right].
      by intros [?%infix_nil|?].
Qed.

(** Consecutive bigrams stay within the terms of one run. *)
Lemma infix_terms p l :
  p ≠ [] → Forall two p → Forall (Forall encoded) l → Forall (λ r, r ≠ []) l →
  infix p (mjoin ((λ run, run ++ bigrams run) <$> l)) ↔ Exists (λ run, infix p (bigrams run)) l.
Proof.
  intros Hne Hp He. induction He as [|run l Hr Hl IH]; intros Hn; simpl.
  { rewrite Exists_nil. split; [by intros ?%infix_nil|done]. }
  apply Forall_cons in Hn as [Hrun Hn]. rewrite Exists_cons, <- IH by done. rewrite <- app_assoc. split.
  - intros H%(infix_skip two); [|done|done|by apply run_not_two].
    destruct Hl as [|run' l Hr' Hl]; simpl in H.
    { rewrite app_nil_r in H. by left. }
    apply Forall_cons in Hn as [Hrun' _]. destruct run' as [|u run']; [done|].
    simpl in H |- *. apply Forall_cons in Hr' as [Hu _].
    apply (infix_separated two) in H as [H|H]; [by left| |done|unfold two; by rewrite chars_one].
    right. by apply (infix_app_r _ _ [u]).
  - intros [H|H]; apply infix_app_r; [by apply infix_app_l|by apply infix_app_r].
Qed.

Lemma Exists_iff {A} (P Q : A → Prop) l : Forall (λ x, P x ↔ Q x) l → Exists P l ↔ Exists Q l.
Proof. induction 1; rewrite ?Exists_nil, ?Exists_cons; tauto. Qed.

(** The terms of the index contain a phrase iff the text contains the run. *)
Lemma phrase_in_terms text q :
  valid_utf8 text = true → q ≠ [] → Forall (λ c, cjk c) q → Forall encoded q →
  infix (cjk_phrase q) (cjk_terms is_alphanumeric text) ↔ infix q (chars text).
Proof.
  intros Hv Hne Hc Hq. apply chars_encoded in Hv.
  unfold cjk_terms. rewrite cjk_terms_runs. simpl.
  rewrite <- (app_nil_l (chars text)) at 2. rewrite infix_runs by done.
  pose proof (runs_encoded (chars text) [] Hv (Forall_nil_2 _)) as Hr.
  pose proof (runs_nonempty (chars text) []) as Hn.
  destruct q as [|x [|y q]]; [done| |].
  - cbn [cjk_phrase]. rewrite infix_singleton, list_elem_of_join. setoid_rewrite list_elem_of_fmap.
    rewrite Exists_exists. setoid_rewrite infix_singleton. split.
    + intros (ts & Hx & run & -> & Hrun). exists run. split; [done|].
      apply elem_of_app in Hx as [Hx|Hx]; [done|exfalso].
      rewrite Forall_forall in Hr. specialize (Hr run Hrun).
      apply bigrams_two in Hr. rewrite Forall_forall in Hr. specialize (Hr x Hx).
      apply Forall_cons in Hq as [Hx' _]. unfold two in Hr. by rewrite chars_one in Hr.
    + intros (run & Hrun & Hx). eexists. split; [|eauto]. apply elem_of_app. by left.
  - change (cjk_phrase (x :: y :: q)) with (bigrams (x :: y :: q)).
    rewrite infix_terms; [|done|by apply bigrams_two|done|done].
    apply Exists_iff. eapply Forall_impl; [exact Hr|]. intros run Hrun.
    apply infix_bigrams; [done|done|simpl; lia].
Qed.

(** ** The query *)

Lemma byte_in_128 lo hi a : (128 <= lo)%N → byte_in lo hi a = true → (128 <= byte_val a)%N.
Proof. unfold byte_in. intros Hlo [H%N.leb_le _]%andb_true_iff. lia. Qed.

Lemma second_byte_128 a b : second_byte a b = true → (128 <= byte_val b)%N.
Proof.
  unfold second_byte, continuation.
  destruct (byte_val a =? 224)%N, (byte_val a =? 237)%N, (byte_val a =? 240)%N, (byte_val a =? 244)%N;
    by apply byte_in_128.
Qed.

(** An ASCII byte is a character of its own. *)
Lemma encoded_ascii c a : encoded c → a ∈ c → (byte_val a < 128)%N → c = [a].
Proof.
  intros Hc Ha Hlt. pose proof (chars_one c Hc) as Hch.
  pose proof (encoded_valid c Hc []) as Hv. rewrite app_nil_r in Hv. cbn [valid_utf8] in Hv.
  destruct c as [|x s1]; [by apply elem_of_nil in Ha|]. cbn [valid_utf8] in Hv. cbn [chars] in Hch.
  destruct (byte_val x <? 128)%N eqn:E1.
  { rewrite (utf8_width_1 _ E1) in Hch. injection Hch as Hs _. subst s1.
    by apply list_elem_of_singleton in Ha as ->. }
  apply N.ltb_ge in E1. unfold continuation in Hv.
  destruct (byte_in 194 223 x) eqn:E2.
  { destruct s1 as [|b s2]; [done|]. rewrite (utf8_width_2 _ E2) in Hch. injection Hch as <- _.
    apply andb_true_iff in Hv as [Hb%second_byte_128 _].
    apply elem_of_cons in Ha as [->| ->%list_elem_of_singleton]; lia. }
  destruct (byte_in 224 239 x) eqn:E3.
  { destruct s1 as [|b [|d s3]]; try done. rewrite (utf8_width_3 _ E3) in Hch. injection Hch as <- _.
    apply andb_true_iff in Hv as [[Hb%second_byte_128 Hd]%andb_true_iff _].
    apply byte_in_128 in Hd; [|done].
    apply elem_of_cons in Ha as [->|[->| ->%list_elem_of_singleton]%elem_of_cons]; lia. }
  destruct (byte_in 240 244 x) eqn:E4; [|done].
  destruct s1 as [|b [|d [|e s4]]]; try done. rewrite (utf8_width_4 _ E4) in Hch. injection Hch as <- _.
  apply andb_true_iff in Hv as [[[Hb%second_byte_128 Hd]%andb_true_iff He]%andb_true_iff _].
  apply byte_in_128 in Hd; [|done]. apply byte_in_128 in He; [|done].
  apply elem_of_cons in Ha as [->|[->|[->| ->%list_elem_of_singleton]%elem_of_cons]%elem_of_cons]; lia.
Qed.

Lemma cjk_code c : cjk c → ∃ lo hi, (lo, hi) ∈ cjk_ranges ∧ (lo <= code_point c <= hi)%N.
Proof.
  unfold is_cjk. intros [_ ([lo hi] & Hin & [H1%N.leb_le H2%N.leb_le]%andb_true_iff)%existsb_exists]%andb_true_iff.
  exists lo, hi. rewrite list_elem_of_In. done.
Qed.

Lemma cjk_above c : cjk c → (4352 <= code_point c)%N.
Proof.
  intros (lo & hi & Hin & Hc)%cjk_code. unfold cjk_ranges in Hin.
  assert (Forall (λ r, 4352 <= fst r)%N cjk_ranges) as Hall by (repeat constructor; done).
  rewrite Forall_forall in Hall. specialize (Hall _ Hin). simpl in Hall. lia.
Qed.

Lemma cjk_not_whitespace c : cjk c → is_whitespace c = false.
Proof.
  intros (lo & hi & Hin & Hc)%cjk_code. unfold is_whitespace, cjk_ranges in *.
  repeat (apply elem_of_cons in Hin as [Heq|Hin]; [injection Heq as -> ->; repeat (apply orb_false_iff; split); lia|]).
  by apply elem_of_nil in Hin.
Qed.

(** No ASCII byte occurs in CJK text. *)
Lemma cjk_no_ascii q a :
  Forall (λ c, cjk c) q → Forall encoded q → (byte_val a < 128)%N → a ∉ concat q.
Proof.
  intros Hc Hq Hlt Ha. apply list_elem_of_In, in_concat in Ha as (c & Hin & Ha).
  apply list_elem_of_In in Hin, Ha. rewrite Forall_forall in Hc, Hq.
  pose proof (cjk_above c (Hc c Hin)) as Habove.
  rewrite (encoded_ascii c a (Hq c Hin) Ha Hlt) in Habove. unfold code_point in Habove. simpl in Habove. lia.
Qed.

Lemma words_of_solid cs word :
  Forall (λ c, is_whitespace c = false) cs → word ++ concat cs ≠ [] → words_of cs word = [word ++ concat cs].
Proof.
  intros Hc. revert word. induction Hc as [|c cs Hc _ IH]; intros word Hne; simpl in *.
  - rewrite app_nil_r in *. by destruct word.
  - rewrite Hc, IH by by rewrite <- app_assoc. by rewrite <- app_assoc.
Qed.

Lemma cjk_query_run cs run column phrases :
  Forall (λ c, cjk c) cs →
  cjk_query_loop is_alphanumeric cs column phrases run = append_cjk_query phrases (run ++ cs) column.
Proof.
  intros Hc. revert run. induction Hc as [|c cs Hc _ IH]; intros run; simpl; [by rewrite app_nil_r|].
  by rewrite Hc, IH, <- app_assoc.
Qed.

(** The auxiliary CJK index finds exactly the runs it is asked for: a
    query that is one CJK run is looked up as the exact phrase of its
    overlapping bigrams (of the character itself, when it is one), and these
    terms follow each other among the terms indexed for a text if and only if
    the run occurs in the text. *)
Theorem cjk_lookup_exact text q :
  valid_utf8 text = true → q ≠ [] → Forall (λ c, cjk c) q → Forall encoded q →
  length (concat q) ≤ MAX_FTS_QUERY_BYTES →
  prepare_cjk_fts5_query is_alphanumeric (concat q) = Some (quoted (join [space] (cjk_phrase q))) ∧
  cjk_index_terms is_alphanumeric text = join [space] (cjk_terms is_alphanumeric text) ∧
  (infix (cjk_phrase q) (cjk_terms is_alphanumeric text) ↔ infix q (chars text)).
Proof.
  intros Hv Hne Hc Hq Hlen. split; [|split; [done|by apply phrase_in_terms]].
  pose proof (λ a Ha, cjk_no_ascii q a Hc Hq Ha) as Hascii.
  assert (Hq0 : concat q ≠ []).
  { destruct q as [|c q]; [done|]. simpl. apply Forall_cons in Hq as [[Hc0 _ _] _]. by destruct c. }
  assert (Hb : bounded_query_text (concat q) = concat q).
  { unfold bounded_query_text, floor_char_boundary. rewrite (proj2 (Nat.leb_le _ _)) by done.
    rewrite firstn_all. unfold contains. rewrite bool_decide_false; [done|]. by apply Hascii. }
  unfold prepare_cjk_fts5_query. rewrite Hb.
  assert (Hw : split_whitespace (concat q) = [concat q]).
  { unfold split_whitespace. rewrite (proj1 (chars_concat q Hq)).
    apply (words_of_solid q []); [|done]. eapply Forall_impl; [exact Hc|]. intros c. apply cjk_not_whitespace. }
  rewrite Hw. cbn [existsb foldl].
  rewrite bool_decide_false.
  2: { intros Hop. assert (Hu : ∀ w, concat q = w → Forall (λ a, (128 <= byte_val a)%N) w).
       { intros w <-. apply Forall_forall. intros a Ha. destruct (N.lt_ge_cases (byte_val a) 128); [|done].
         by apply Hascii in Ha. }
       apply elem_of_cons in Hop as [E|[E|E%list_elem_of_singleton]%elem_of_cons];
         apply Hu in E; inversion_clear E; done. }
  cbn [orb]. unfold cjk_token.
  assert (Hd : drop_while (Ascii.eqb open_paren) (concat q) = concat q).
  { destruct (concat q) as [|a s] eqn:E; [done|]. apply drop_while_none.
    destruct (Ascii.eqb_spec open_paren a) as [<-|]; [|done].
    exfalso. apply (Hascii open_paren); [done|left]. }
  rewrite Hd, (proj2 (split_once_None _ _)) by by apply Hascii.
  rewrite (proj1 (chars_concat q Hq)), cjk_query_run by done.
  by destruct q.
Qed.
End Cjk.

(** "日本語" in "the 日本語 text", every character taken as alphanumeric. *)
Definition nihongo : list utf8_char := chars (lit "日本語").

Lemma cjk_lookup_exact_witness :
  prepare_cjk_fts5_query (λ _, true) (concat nihongo) = Some (quoted (lit "日本 本語")) ∧
  infix (cjk_phrase nihongo) (cjk_terms (λ _, true) (lit "the 日本語 text")).
Proof.
  split; [vm_compute; reflexivity|].
  apply (cjk_lookup_exact (λ _, true) (lit "the 日本語 text") nihongo).
  - vm_compute. reflexivity.
  - vm_compute. discriminate.
  - apply (bool_decide_unpack _). vm_compute. exact I.
  - apply chars_encoded. vm_compute. reflexivity.
  - apply Nat.leb_le. vm_compute. reflexivity.
  - exists (chars (lit "the ")), (chars (lit " text")). vm_compute. reflexivity.
Defined.

(** The index terms of the source's own examples. *)
Example cjk_terms_pay :
  cjk_index_terms (λ _, true) (lit "pay 支付服务 now") = lit "支 付 服 务 支付 付服 服务".
Proof. vm_compute. reflexivity. Qed.
