(* ===== verification/Identity.v ===== *)
(** * Who acts: agents and operators

    Models the parts of [crates/ai-memory-core/src] that say who a row belongs
    to: [AgentKind] of ids.rs, the qualified operator identity and the owner
    filter of actor.rs, and the byte cap of sanitize.rs that stored prose goes
    through.  Texts that are compared whole are [string]s, texts that are cut
    or trimmed are their UTF-8 bytes. *)

From S2P Require Export Text.

(** ** Agents *)

Inductive AgentKind :=
  | ClaudeCode | Codex | OpenCode | Cursor | GeminiCli | ClaudeDesktop | OpenClaw
  | AntigravityCli | Omp | Pi | Crush | Grok | Zero | Devin | KimiCode | KiroCli | CommandCode
  | Hermes | Pool | Zcode | CopilotCli | Grizzybot | Droid | Muse | CodeBuddy | IbmBob | Dsh
  | Cline | QwenCode | Qoder | Other.

#[export] Instance agent_kind_eq_dec : EqDecision AgentKind.
Proof. solve_decision. Defined.

(** [AgentKind::ALL]. *)
Definition AgentKind_ALL : list AgentKind :=
  [ClaudeCode; Codex; OpenCode; Cursor; GeminiCli; ClaudeDesktop; OpenClaw; AntigravityCli;
   Omp; Pi; Crush; Grok; Zero; Devin; KimiCode; KiroCli; CommandCode; Hermes; Pool; Zcode;
   CopilotCli; Grizzybot; Droid; Muse; CodeBuddy; IbmBob; Dsh; Cline; QwenCode; Qoder; Other].

Definition AgentKind_as_str (k : AgentKind) : string :=
  match k with
  | ClaudeCode => "claude-code"
  | Codex => "codex"
  | OpenCode => "open-code"
  | Cursor => "cursor"
  | GeminiCli => "gemini-cli"
  | ClaudeDesktop => "claude-desktop"
  | OpenClaw => "openclaw"
  | AntigravityCli => "antigravity-cli"
  | Omp => "omp"
  | Pi => "pi"
  | Crush => "crush"
  | Grok => "grok"
  | Zero => "zero"
  | Devin => "devin"
  | KimiCode => "kimi-code"
  | KiroCli => "kiro-cli"
  | CommandCode => "command-code"
  | Hermes => "hermes"
  | Pool => "pool"
  | Zcode => "zcode"
  | CopilotCli => "copilot-cli"
  | Grizzybot => "grizzybot"
  | Droid => "droid"
  | Muse => "muse"
  | CodeBuddy => "codebuddy"
  | IbmBob => "ibm-bob"
  | Dsh => "dsh"
  | Cline => "cline"
  | QwenCode => "qwen-code"
  | Qoder => "qoder"
  | Other => "other"
  end.

Definition wire_names : list (list string * AgentKind) :=
  [(["claude-code"; "claude_code"; "claude"], ClaudeCode);
   (["codex"], Codex);
   (["open-code"; "opencode"; "opencode2"; "opencode-v2"; "open-code2"], OpenCode);
   (["cursor"], Cursor);
   (["gemini-cli"; "gemini"], GeminiCli);
   (["claude-desktop"; "claude_desktop"], ClaudeDesktop);
   (["openclaw"; "open-claw"], OpenClaw);
   (["antigravity-cli"; "antigravity"; "agy"], AntigravityCli);
   (["pi"], Pi);
   (["crush"], Crush);
   (["omp"; "oh-my-pi"], Omp);
   (["grok"], Grok);
   (["zero"], Zero);
   (["devin"], Devin);
   (["kimi-code"; "kimi"], KimiCode);
   (["kiro-cli"; "kiro"], KiroCli);
   (["command-code"; "commandcode"; "cmdc"; "cmd"], CommandCode);
   (["hermes"; "hermes-agent"], Hermes);
   (["pool"; "poolside"], Pool);
   (["zcode"; "zai"], Zcode);
   (["copilot-cli"; "copilot_cli"], CopilotCli);
   (["grizzybot"; "grizzy-bot"], Grizzybot);
   (["droid"; "factory-droid"; "factory_droid"], Droid);
   (["muse"; "muse-code"; "musecode"], Muse);
   (["codebuddy"; "code-buddy"], CodeBuddy);
   (["ibm-bob"; "bob"], IbmBob);
   (["dsh"; "deepseek-harness"; "deepseek_harness"], Dsh);
   (["cline"; "cline-cli"], Cline);
   (["qwen-code"; "qwen"; "qwencode"], QwenCode);
   (["qoder"], Qoder)].

Definition AgentKind_from_wire (s : string) : AgentKind :=
  match list_find (λ w, s ∈ fst w) wire_names with
  | Some (_, (_, k)) => k
  | None => Other
  end.

Definition reuses_session_id_after_end (k : AgentKind) : bool :=
  match k with Grok | KimiCode => true | _ => false end.

(** ** Operators *)

Record ActorContext := mkActorContext {
  ac_agent : option bytes;
  ac_user : option bytes;
  ac_name : option bytes;
  ac_email : option bytes;
  ac_session_id : option bytes;
  ac_issuer : option bytes;
  ac_sub : option bytes;
  ac_client : option bytes;
}.

Definition anonymous : ActorContext :=
  mkActorContext None None None None None None None None.

Definition has_any (a : ActorContext) : bool :=
  bool_decide (is_Some (ac_agent a)) || bool_decide (is_Some (ac_user a))
  || bool_decide (is_Some (ac_name a)) || bool_decide (is_Some (ac_email a))
  || bool_decide (is_Some (ac_session_id a)) || bool_decide (is_Some (ac_issuer a))
  || bool_decide (is_Some (ac_sub a)) || bool_decide (is_Some (ac_client a)).

Inductive IdentityKey :=
  | Subject (issuer subject : bytes)
  | KeyUser (user : bytes).

#[export] Instance identity_key_eq_dec : EqDecision IdentityKey.
Proof. solve_decision. Defined.

(** The closure [trimmed] of [identity_key]. *)
Definition trimmed (v : option bytes) : option bytes :=
  v ≫= λ s, let t := trim s in if bool_decide (t = []) then None else Some t.

Definition identity_key (a : ActorContext) : option IdentityKey :=
  match trimmed (ac_issuer a), trimmed (ac_sub a) with
  | Some issuer, Some subject => Some (Subject issuer subject)
  | _, _ => KeyUser <$> trimmed (ac_user a)
  end.

Definition to_actor_context (k : IdentityKey) : ActorContext :=
  match k with
  | Subject issuer subject =>
      mkActorContext None None None None None (Some issuer) (Some subject) None
  | KeyUser user => mkActorContext None (Some user) None None None None None None
  end.

Definition is_valid (k : IdentityKey) : bool :=
  bool_decide (identity_key (to_actor_context k) = Some k).

Definition storage_key (k : IdentityKey) : bytes :=
  match k with
  | Subject issuer subject =>
      lit "oidc:" ++ lit (pretty (N.of_nat (length issuer))) ++ lit ":" ++ issuer ++ subject
  | KeyUser user => lit "user:" ++ user
  end.

(** [str::parse::<usize>] on a 64-bit machine: an optional [+], then decimal
    digits, checked at every step. *)
Definition usize_max : N := 18446744073709551615%N.

Definition digit_value (a : ascii) : option N :=
  if byte_in 48 57 a then Some (byte_val a - 48)%N else None.

Fixpoint parse_digits (s : bytes) (acc : N) : option N :=
  match s with
  | [] => Some acc
  | a :: s' =>
      match digit_value a with
      | Some d =>
          let acc' := (acc * 10 + d)%N in
          if (usize_max <? acc')%N then None else parse_digits s' acc'
      | None => None
      end
  end.

Definition parse_usize (s : bytes) : option N :=
  match s with
  | [] => None
  | a :: s' =>
      if Ascii.eqb a "+"%char then match s' with [] => None | _ => parse_digits s' 0 end
      else parse_digits s 0
  end.

(** [is_char_boundary]; [get(..n)] with [get(n..)]. *)
Definition is_char_boundary (s : bytes) (n : nat) : bool :=
  match drop n s with
  | [] => n =? length s
  | a :: _ => (n =? 0) || negb (continuation a)
  end.

Definition split_at_checked (s : bytes) (n : N) : option (bytes * bytes) :=
  if (n <=? N.of_nat (length s))%N && is_char_boundary s (N.to_nat n)
  then Some (take (N.to_nat n) s, drop (N.to_nat n) s) else None.

Definition from_storage_key (key : bytes) : option IdentityKey :=
  parsed ← match strip_prefix (lit "user:") key with
           | Some user => Some (KeyUser user)
           | None =>
               encoded ← strip_prefix (lit "oidc:") key;
               '(issuer_len, remainder) ← split_once ":"%char encoded;
               issuer_len ← parse_usize issuer_len;
               '(issuer, subject) ← split_at_checked remainder issuer_len;
               Some (Subject issuer subject)
           end;
  if is_valid parsed then Some parsed else None.

(** ** Ownership *)

Inductive OwnerFilter :=
  | FilterUser (me : bytes)
  | Unattributed
  | AnyOwner.

Definition for_actor_context (a : ActorContext) : OwnerFilter :=
  match identity_key a with
  | Some identity => FilterUser (storage_key identity)
  | None => Unattributed
  end.

Definition admits (filter : OwnerFilter) (owner : option bytes) : bool :=
  match filter, owner with
  | _, None | AnyOwner, _ => true
  | FilterUser me, Some owner => bool_decide (me = owner)
  | Unattributed, Some _ => false
  end.

Definition owner_identity (identity : option IdentityKey) (distinguishes_operators : bool)
    : option IdentityKey :=
  if distinguishes_operators
  then identity ≫= λ k, if is_valid k then Some k else None
  else None.

Definition owner_stamp (identity : option IdentityKey) (distinguishes_operators : bool)
    : option bytes :=
  storage_key <$> owner_identity identity distinguishes_operators.

(** ** Capabilities *)

Inductive AuthLevel := LevelAnonymous | LevelRoot | LevelUser.

Inductive Capability :=
  | CapAdmin | CapUserManagement | CapNormalRead | CapNormalWrite | CapSkipAdmissionChain.

Inductive AuthzError :=
  | AuthenticationRequired (message : string)
  | AuthzForbidden (message : string).

Definition require_root (level : AuthLevel) (anonymous_message user_message : string)
    : result unit AuthzError :=
  match level with
  | LevelRoot => Ok tt
  | LevelAnonymous => Err (AuthenticationRequired anonymous_message)
  | LevelUser => Err (AuthzForbidden user_message)
  end.

Definition authorize_level (level : AuthLevel) (capability : Capability)
    (distinguishes_operators : bool) : result unit AuthzError :=
  match capability with
  | CapNormalRead | CapNormalWrite => Ok tt
  | CapSkipAdmissionChain =>
      match level with
      | LevelUser => Err (AuthzForbidden "admission webhook skip is root-only")
      | LevelAnonymous | LevelRoot => Ok tt
      end
  | CapAdmin =>
      if negb distinguishes_operators then Ok tt
      else require_root level "admin operation requires authentication in multi-user mode"
             "admin operation is root-only in multi-user mode"
  | CapUserManagement =>
      require_root level "user management requires authentication" "user management is root-only"
  end.

Definition parse_skip_admission_chain (raw : option bytes) : list bytes :=
  match raw with
  | Some value =>
      List.filter (λ token, negb (bool_decide (token = []))) (trim <$> split_on ","%char value)
  | None => []
  end.

Definition skip_admission_chain_for (level : AuthLevel) (raw : option bytes) : list bytes :=
  if is_ok (authorize_level level CapSkipAdmissionChain true)
  then parse_skip_admission_chain raw else [].

(** ** The byte cap on stored prose *)

Definition ellipsis : bytes := ["226"%char; "128"%char; "166"%char].

(** The loop over [char_indices]: the end of the last character that ends
    within [limit]. *)
Fixpoint fitting_end (limit index : nat) (cs : list utf8_char) (end_ : nat) : nat :=
  match cs with
  | [] => end_
  | c :: cs' =>
      let next := index + length c in
      if limit <? next then end_ else fitting_end limit next cs' next
  end.

Definition truncate_utf8_bytes (input : bytes) (max : nat) : bytes :=
  if length input <=? max then input
  else if max <? length ellipsis then []
  else take (fitting_end (max - length ellipsis) 0 (chars input) 0) input ++ ellipsis.

(** Examples of the tests. *)
Example skip_chain_demo : parse_skip_admission_chain (Some (lit "a, ,b,")) = [lit "a"; lit "b"].
Proof. reflexivity. Qed.
Example storage_key_demo :
  from_storage_key (storage_key (Subject (lit "https://idp:1") (lit "42")))
  = Some (Subject (lit "https://idp:1") (lit "42")).
Proof. vm_compute. reflexivity. Qed.
Example truncate_demo : truncate_utf8_bytes (lit "abcdefgh") 6 = lit "abc" ++ ellipsis.
Proof. reflexivity. Qed.
