(* ===== verification/IdentityFacts.v ===== *)
(** * Operator identities and the byte cap

    The storage form of an identity is injective and parses back, the owner
    filter of an identity admits exactly its own rows and the shared ones, and
    truncated prose keeps its cap and its encoding. *)

From S2P Require Export Identity.
From Stdlib Require Import ZifyBool ZifyN.
Open Scope nat_scope.

Lemma AgentKind_wire k : AgentKind_from_wire (AgentKind_as_str k) = k.
Proof. by destruct k; vm_compute. Qed.

#[export] Instance AgentKind_as_str_inj : Inj (=) (=) AgentKind_as_str.
Proof. intros a b H. by rewrite <- (AgentKind_wire a), H, AgentKind_wire. Qed.

Lemma AgentKind_ALL_complete k : k ∈ AgentKind_ALL.
Proof. by destruct k; vm_compute; repeat constructor. Qed.

(** ** Decimal numbers *)

Lemma digit_value_char d : (d < 10)%N → digit_value (pretty_N_char d) = Some d.
Proof.
  intros H. assert (d ∈ [0; 1; 2; 3; 4; 5; 6; 7; 8; 9]%N) as Hd.
  { rewrite !elem_of_cons. lia. }
  revert H. by repeat (apply elem_of_cons in Hd as [->|Hd]; [done|]); apply elem_of_nil in Hd.
Qed.

Lemma parse_pretty_go x s :
  (x ≤ usize_max)%N → parse_digits (lit (pretty_N_go x s)) 0 = parse_digits (lit s) x.
Proof.
  revert s. induction (N.lt_wf_0 x) as [x _ IH]; intros s Hx.
  destruct (decide (x = 0)%N) as [->|Hne]; [done|].
  rewrite pretty_N_go_step by lia.
  rewrite IH by first [apply N.div_lt; lia | pose proof (N.Div0.div_le_mono x usize_max 10); pose proof (N.Div0.div_le_upper_bound usize_max 10 usize_max); lia].
  cbn [lit String.list_ascii_of_string parse_digits].
  rewrite digit_value_char by (apply N.mod_lt; lia).
  rewrite (N.mul_comm _ 10), <- N.div_mod by lia.
  by destruct (N.ltb_spec usize_max x); [lia|].
Qed.

Lemma pretty_N_head (n : N) : ∃ a s, lit (pretty n) = a :: s ∧ is_Some (digit_value a).
Proof.
  unfold pretty, pretty_N. case_decide as H0; [by exists "0"%char, []|].
  cut (∀ s, (∃ a t, lit s = a :: t ∧ is_Some (digit_value a)) ∨ s = "" →
    ∃ a t, lit (pretty_N_go n s) = a :: t ∧ is_Some (digit_value a)).
  { intros Hc. by apply Hc; right. }
  induction (N.lt_wf_0 n) as [n _ IH]; intros s Hs.
  rewrite pretty_N_go_step by lia.
  assert (Hn : ∃ a t, lit (String (pretty_N_char (n `mod` 10)) s) = a :: t ∧ is_Some (digit_value a)).
  { do 2 eexists. split; [done|]. rewrite digit_value_char by (apply N.mod_lt; lia). eauto. }
  destruct (decide (n `div` 10 = 0)%N) as [->|Hd]; [done|].
  apply IH; [apply N.div_lt; lia|done|by left].
Qed.

Lemma parse_usize_pretty (n : N) : (n ≤ usize_max)%N → parse_usize (lit (pretty n)) = Some n.
Proof.
  intros Hn. destruct (pretty_N_head n) as (a & s & Hs & [d Hd]).
  assert (Hp : parse_digits (lit (pretty n)) 0 = Some n).
  { unfold pretty, pretty_N. case_decide; [by subst|]. by rewrite parse_pretty_go. }
  unfold parse_usize. rewrite Hs in *. destruct (Ascii.eqb_spec a "+"%char) as [->|]; [|done].
  by vm_compute in Hd.
Qed.

Lemma parse_digits_all s acc n a : parse_digits s acc = Some n → a ∈ s → is_Some (digit_value a).
Proof.
  revert acc. induction s as [|b s IH]; intros acc H Ha; [by apply elem_of_nil in Ha|].
  cbn [parse_digits] in H. destruct (digit_value b) eqn:E; [|done].
  apply elem_of_cons in Ha as [->|Ha]; [eauto|].
  cbv zeta in H. destruct (usize_max <? _)%N; [done|]. eauto.
Qed.

(** ** The storage form *)

(** Valid identities are made of Rust strings. *)
Definition key_texts (k : IdentityKey) : Prop :=
  match k with
  | Subject issuer subject =>
      valid_utf8 issuer = true ∧ valid_utf8 subject = true
      ∧ (N.of_nat (length issuer) ≤ usize_max)%N
  | KeyUser user => valid_utf8 user = true
  end.

Lemma no_colon_pretty (n : N) : ":"%char ∉ lit (pretty n).
Proof.
  unfold pretty, pretty_N. case_decide.
  { intros H'. by repeat (apply elem_of_cons in H' as [H'|H']; [done|]); apply elem_of_nil in H'. }
  cut (∀ s, ":"%char ∉ lit s → ":"%char ∉ lit (pretty_N_go n s)).
  { intros Hc. apply Hc. by apply not_elem_of_nil. }
  clear. induction (N.lt_wf_0 n) as [n _ IH]; intros s Hs.
  destruct (decide (n = 0)%N) as [->|]; [done|]. rewrite pretty_N_go_step by lia.
  apply IH; [apply N.div_lt; lia|]. cbn [lit String.list_ascii_of_string].
  rewrite not_elem_of_cons. split; [|done]. intros Hc.
  assert (n `mod` 10 < 10)%N as Hm by (apply N.mod_lt; lia).
  pose proof (digit_value_char _ Hm) as Hd. by rewrite <- Hc in Hd.
Qed.

Lemma split_once_prefix c l r : c ∉ l → split_once c (l ++ c :: r) = Some (l, r).
Proof. intros H. apply split_once_Some. done. Qed.

Lemma boundary_at s t : valid_utf8 t = true → is_char_boundary (s ++ t) (length s) = true.
Proof.
  intros Ht. unfold is_char_boundary. rewrite drop_app_length.
  destruct t as [|a t]; [rewrite app_nil_r; apply Nat.eqb_refl|].
  apply orb_true_iff. right. cbn [valid_utf8] in Ht. unfold continuation, byte_in in *.
  destruct (byte_val a <? 128)%N eqn:E1; [lia|].
  destruct ((194 <=? byte_val a) && (byte_val a <=? 223))%N eqn:E2; [lia|].
  destruct ((224 <=? byte_val a) && (byte_val a <=? 239))%N eqn:E3; [lia|].
  destruct ((240 <=? byte_val a) && (byte_val a <=? 244))%N eqn:E4; [lia|done].
Qed.

Lemma split_at_app s t :
  valid_utf8 t = true → split_at_checked (s ++ t) (N.of_nat (length s)) = Some (s, t).
Proof.
  intros Ht. unfold split_at_checked. rewrite Nat2N.id, boundary_at, length_app by done.
  rewrite (proj2 (N.leb_le _ _)) by lia. cbn [andb].
  by rewrite take_app_length, drop_app_length.
Qed.

Lemma from_storage_key_storage k :
  key_texts k → from_storage_key (storage_key k) = if is_valid k then Some k else None.
Proof.
  intros Hk. unfold from_storage_key. destruct k as [issuer subject|user]; cbn [storage_key].
  - destruct Hk as (_ & Hs & Hl).
    assert (strip_prefix (lit "user:") (lit "oidc:" ++ lit (pretty (N.of_nat (length issuer)))
              ++ lit ":" ++ issuer ++ subject) = None) as -> by done.
    rewrite (proj2 (strip_prefix_Some (lit "oidc:") _ _) eq_refl). cbn [mbind option_bind].
    change (lit ":" ++ issuer ++ subject) with (":"%char :: issuer ++ subject).
    rewrite split_once_prefix by apply no_colon_pretty. cbn [mbind option_bind].
    rewrite parse_usize_pretty by done. cbn [mbind option_bind].
    by rewrite split_at_app.
  - by rewrite (proj2 (strip_prefix_Some (lit "user:") _ _) eq_refl).
Qed.

#[export] Instance storage_key_inj : Inj (=) (=) storage_key.
Proof.
  intros [i s|u] [i' s'|u']; cbn [storage_key]; try done.
  - intros H%app_inv_head. change (lit ":" ++ ?x) with (":"%char :: x) in H.
    pose proof (split_once_prefix ":"%char (lit (pretty (N.of_nat (length i)))) (i ++ s)
                  (no_colon_pretty _)) as E.
    change (lit ":" ++ i' ++ s') with (":"%char :: (i' ++ s')) in H.
    change (lit ":" ++ i ++ s) with (":"%char :: (i ++ s)) in H.
    rewrite H, split_once_prefix in E by apply no_colon_pretty. injection E as Hn Hb.
    assert (length i = length i') as Hl.
    { apply (f_equal str) in Hn. unfold str, lit in Hn.
      rewrite !String.string_of_list_ascii_of_string in Hn.
      apply pretty_N_inj in Hn. lia. }
    symmetry in Hb. apply app_inj_1 in Hb as [-> ->]; [done|lia].
  - by intros ->%app_inv_head.
Qed.

Lemma from_storage_key_valid s k : from_storage_key s = Some k → is_valid k = true.
Proof.
  unfold from_storage_key. intros (k' & _ & H)%bind_Some. destruct (is_valid k') eqn:E; naive_solver.
Qed.

(** ** Trimming *)

Lemma trim_idempotent s : valid_utf8 s = true → trim (trim s) = trim s ∧ valid_utf8 (trim s) = true.
Proof.
  intros Hs. pose proof (chars_encoded _ Hs) as He. unfold trim at 2 3 4.
  set (l := drop_while is_whitespace (chars s)).
  assert (Hl : Forall encoded (drop_end_while is_whitespace l)).
  { unfold drop_end_while. apply Forall_reverse.
    destruct (drop_while_suffix is_whitespace (reverse l)) as [pre Hp].
    destruct (drop_while_suffix is_whitespace (chars s)) as [pre' Hp'].
    assert (Forall encoded (reverse l)) as Hr.
    { apply Forall_reverse. unfold l. rewrite Hp' in He. by apply Forall_app in He as [_ ?]. }
    rewrite Hp in Hr. by apply Forall_app in Hr as [_ ?]. }
  destruct (chars_concat _ Hl) as [Hc Hv]. split; [|done].
  unfold trim. rewrite Hc. f_equal.
  assert (Hfront : drop_while is_whitespace (drop_end_while is_whitespace l)
                   = drop_end_while is_whitespace l).
  { apply drop_while_fixed. unfold drop_end_while.
    destruct (drop_while_suffix is_whitespace (reverse l)) as [pre Hp].
    apply (f_equal reverse) in Hp. rewrite reverse_involutive, reverse_app in Hp.
    destruct (reverse (drop_while is_whitespace (reverse l))) as [|x t]; [done|].
    by apply (drop_while_head is_whitespace (chars s) x (t ++ reverse pre)). }
  rewrite Hfront. unfold drop_end_while.
  rewrite reverse_involutive. f_equal. apply drop_while_fixed.
  destruct (drop_while _ (reverse l)) eqn:E; [done|]. by eapply drop_while_head.
Qed.

Lemma length_trim s : length (trim s) ≤ length s.
Proof.
  rewrite <- (concat_chars s) at 2. unfold trim, drop_end_while.
  set (f := λ cs : list utf8_char, length (concat cs)).
  assert (Hf : ∀ k r, f (k ++ r) = f k + f r).
  { intros k r. unfold f. by rewrite concat_app, length_app. }
  assert (Hr : ∀ k, f (reverse k) = f k).
  { induction k as [|c k IH]; [done|]. rewrite reverse_cons, Hf, IH. unfold f. simpl.
    rewrite app_nil_r, length_app. lia. }
  change (f (reverse (drop_while is_whitespace (reverse (drop_while is_whitespace (chars s)))))
          ≤ f (chars s)).
  rewrite Hr. etrans; [by apply drop_while_length|]. rewrite Hr. by apply drop_while_length.
Qed.

Lemma trimmed_Some v t :
  (∀ s, v = Some s → valid_utf8 s = true) → trimmed v = Some t →
  t ≠ [] ∧ trim t = t ∧ valid_utf8 t = true.
Proof.
  intros Hv (s & -> & H)%bind_Some. cbv zeta in H. case_bool_decide as Hne; [done|]. injection H as <-.
  destruct (trim_idempotent s (Hv s eq_refl)). done.
Qed.

Lemma trimmed_fixed t : t ≠ [] → trim t = t → trimmed (Some t) = Some t.
Proof. intros Hne Ht. cbn. rewrite Ht. by case_bool_decide. Qed.

(** The texts of an actor context are Rust strings. *)
Definition actor_texts (a : ActorContext) : Prop :=
  ∀ s, (ac_user a = Some s ∨ ac_issuer a = Some s ∨ ac_sub a = Some s) → valid_utf8 s = true.

Lemma identity_key_valid a k : actor_texts a → identity_key a = Some k → is_valid k = true.
Proof.
  intros Ha. unfold identity_key, is_valid. intros H. apply bool_decide_eq_true.
  assert (Ht : ∀ v t, v = ac_user a ∨ v = ac_issuer a ∨ v = ac_sub a → trimmed v = Some t →
                      trimmed (Some t) = Some t).
  { intros v t Hv Et. destruct (trimmed_Some v t) as (? & ? & _); [|done|by apply trimmed_fixed].
    intros s ->. apply Ha. naive_solver. }
  assert (Huser : ∀ k', KeyUser <$> trimmed (ac_user a) = Some k' →
                        identity_key (to_actor_context k') = Some k').
  { intros k' (u & Hu & ->)%fmap_Some.
    unfold identity_key. cbn [to_actor_context ac_issuer ac_sub ac_user].
    rewrite (Ht _ _ (or_introl eq_refl) Hu). done. }
  destruct (trimmed (ac_issuer a)) as [i|] eqn:Ei; [|by apply Huser].
  destruct (trimmed (ac_sub a)) as [s|] eqn:Es; [|by apply Huser].
  injection H as <-. unfold identity_key. cbn [to_actor_context ac_issuer ac_sub ac_user].
  by rewrite (Ht _ _ (or_intror (or_introl eq_refl)) Ei), (Ht _ _ (or_intror (or_intror eq_refl)) Es).
Qed.

Lemma identity_key_texts a k :
  actor_texts a → (∀ s, ac_issuer a = Some s → (N.of_nat (length s) ≤ usize_max)%N) →
  identity_key a = Some k → key_texts k.
Proof.
  intros Ha Hlen. unfold identity_key. intros H.
  assert (Ht : ∀ v t, v = ac_user a ∨ v = ac_issuer a ∨ v = ac_sub a → trimmed v = Some t →
                      valid_utf8 t = true).
  { intros v t Hv Et. destruct (trimmed_Some v t) as (_ & _ & ?); [|done|done].
    intros s ->. apply Ha. naive_solver. }
  assert (Huser : ∀ k', KeyUser <$> trimmed (ac_user a) = Some k' → key_texts k').
  { intros k' (u & Hu & ->)%fmap_Some. by apply (Ht (ac_user a)); [left|]. }
  destruct (trimmed (ac_issuer a)) as [i|] eqn:Ei; [|by apply Huser].
  destruct (trimmed (ac_sub a)) as [s|] eqn:Es; [|by apply Huser].
  injection H as <-. repeat split; [by eapply (Ht (ac_issuer a)); [right; left|]
                                   |by eapply (Ht (ac_sub a)); [right; right|]|].
  apply bind_Some in Ei as (s0 & E0 & Ei). cbv zeta in Ei. specialize (Hlen _ E0). case_bool_decide; [done|].
  injection Ei as <-. pose proof (length_trim s0). lia.
Qed.


(** ** The byte cap *)

Lemma fitting_end_spec limit (pre cs : list utf8_char) e :
  length (concat pre) ≤ limit → e = length (concat pre) →
  ∃ l r, cs = l ++ r ∧ fitting_end limit e cs e = length (concat (pre ++ l))
         ∧ length (concat (pre ++ l)) ≤ limit
         ∧ match r with [] => True | c :: _ => limit < length (concat (pre ++ l)) + length c end.
Proof.
  revert pre e. induction cs as [|c cs IH]; intros pre e Hp ->.
  - exists [], []. by rewrite (app_nil_r pre).
  - cbn [fitting_end]. cbv zeta. destruct (Nat.ltb_spec limit (length (concat pre) + length c)).
    + exists [], (c :: cs). by rewrite (app_nil_r pre).
    + destruct (IH (pre ++ [c]) (length (concat pre) + length c)) as (l & r & -> & Hf & Hl & Hr).
      { rewrite concat_app, length_app. simpl. rewrite app_nil_r. lia. }
      { rewrite concat_app, length_app. simpl. by rewrite app_nil_r. }
      exists (c :: l), r. rewrite <- app_assoc in *. done.
Qed.

Lemma fitting_end_chars limit input :
  ∃ l r, chars input = l ++ r ∧ fitting_end limit 0 (chars input) 0 = length (concat l)
         ∧ take (length (concat l)) input = concat l
         ∧ length (concat l) ≤ limit
         ∧ match r with [] => True | c :: _ => limit < length (concat l) + length c end.
Proof.
  destruct (fitting_end_spec limit [] (chars input) 0) as (l & r & E & Hf & Hl & Hr);
    [simpl; lia|done|].
  exists l, r. repeat split; [done|done| |done|done].
  rewrite <- (concat_chars input) at 1. by rewrite E, concat_app, take_app_length.
Qed.

Lemma truncate_length input max : length (truncate_utf8_bytes input max) ≤ max.
Proof.
  unfold truncate_utf8_bytes. destruct (Nat.leb_spec (length input) max); [done|].
  destruct (Nat.ltb_spec max (length ellipsis)); [simpl; lia|].
  destruct (fitting_end_chars (max - length ellipsis) input) as (l & r & _ & -> & -> & Hl & _).
  rewrite length_app. lia.
Qed.

Lemma truncate_valid input max :
  valid_utf8 input = true → valid_utf8 (truncate_utf8_bytes input max) = true.
Proof.
  intros Hv. unfold truncate_utf8_bytes. destruct (_ <=? _); [done|]. destruct (_ <? _); [done|].
  destruct (fitting_end_chars (max - length ellipsis) input) as (l & r & E & -> & -> & _ & _).
  pose proof (chars_encoded _ Hv) as He. rewrite E in He. apply Forall_app in He as [He _].
  rewrite valid_utf8_app; [done|]. by apply chars_concat.
Qed.

(** Nothing is cut that fits, and a cut keeps as many characters as fit. *)
Lemma truncate_maximal input max :
  length ellipsis ≤ max →
  (length input ≤ max → truncate_utf8_bytes input max = input)
  ∧ (max < length input →
     ∃ l c r, chars input = l ++ c :: r ∧ truncate_utf8_bytes input max = concat l ++ ellipsis
              ∧ max < length (concat (l ++ [c])) + length ellipsis).
Proof.
  intros Hmax. unfold truncate_utf8_bytes. split; intros Hi.
  { by rewrite (proj2 (Nat.leb_le _ _)). }
  rewrite (proj2 (Nat.leb_gt _ _)) by done. rewrite (proj2 (Nat.ltb_ge _ _)) by done.
  destruct (fitting_end_chars (max - length ellipsis) input) as (l & r & E & -> & -> & Hl & Hr).
  destruct r as [|c r].
  { rewrite app_nil_r in E. pose proof (concat_chars input) as Hc. rewrite E in Hc.
    rewrite Hc in Hl. lia. }
  exists l, c, r. split; [done|]. split; [done|].
  rewrite concat_app, length_app. change (concat [c]) with (c ++ []). rewrite (length_app c).
  simpl in *. lia.
Qed.

Lemma truncate_idempotent input max :
  truncate_utf8_bytes (truncate_utf8_bytes input max) max = truncate_utf8_bytes input max.
Proof.
  unfold truncate_utf8_bytes at 1. by rewrite (proj2 (Nat.leb_le _ _)) by apply truncate_length.
Qed.

(** ** Owners *)

(** The filter of an actor admits the rows stamped with its own identity, the
    shared ones, and no other. *)
Lemma admits_own a k owner :
  identity_key a = Some k →
  admits (for_actor_context a) (storage_key <$> owner) = true ↔ owner = None ∨ owner = Some k.
Proof.
  intros Hk. unfold for_actor_context. rewrite Hk. destruct owner as [k'|]; cbn; [|naive_solver].
  rewrite bool_decide_eq_true. split.
  - intros ->%storage_key_inj. by right.
  - by intros [|[= ->]].
Qed.

Lemma admits_unattributed a owner :
  identity_key a = None →
  admits (for_actor_context a) owner = true ↔ owner = None.
Proof.
  intros Hk. unfold for_actor_context. rewrite Hk. by destruct owner.
Qed.

(** C40. An operator identity is stored without loss: distinct identities have
    distinct storage keys (a username never collides with a subject, and the
    issuer and subject cannot be split differently), a key parses back exactly
    when the identity is a valid one, what an actor context yields is always
    valid, and the owner filter of that actor admits of all stored rows exactly
    its own and the shared ones. *)
Theorem identity_keys_faithful a k :
  actor_texts a → (∀ s, ac_issuer a = Some s → (N.of_nat (length s) ≤ usize_max)%N) →
  identity_key a = Some k →
  from_storage_key (storage_key k) = Some k
  ∧ (∀ k', storage_key k' = storage_key k → k' = k)
  ∧ (∀ k', key_texts k' → is_valid k' = false → from_storage_key (storage_key k') = None)
  ∧ (∀ owner, admits (for_actor_context a) (storage_key <$> owner) = true
              ↔ owner = None ∨ owner = Some k).
Proof.
  intros Ha Hlen Hk. split_and!.
  - rewrite from_storage_key_storage by by eapply identity_key_texts.
    by rewrite (identity_key_valid a).
  - by intros k' ->%storage_key_inj.
  - intros k' Ht Hv. by rewrite from_storage_key_storage, Hv.
  - intros owner. by apply admits_own.
Qed.

Definition demo_actor : ActorContext :=
  mkActorContext None (Some (lit "alice")) None None None (Some (lit " https://idp:1 "))
    (Some (lit "42")) None.

Lemma identity_keys_faithful_witness :
  from_storage_key (storage_key (Subject (lit "https://idp:1") (lit "42")))
  = Some (Subject (lit "https://idp:1") (lit "42")).
Proof.
  refine (proj1 (identity_keys_faithful demo_actor _ _ _ _)); [| |by vm_compute].
  - intros s [[= <-]|[[= <-]|[= <-]]]; by vm_compute.
  - intros s [= <-]; by vm_compute.
Defined.
