(* ===== verification/OpsBase.v ===== *)
(** * What the writer's transactions share

    The statements, errors and audit rows of the mailbox and handoff
    transactions of [crates/ai-memory-store/src/ops.rs].  A transaction runs
    on the tables it is given; any of its statements may fail ([faults]: the
    statement's error, a violated foreign key included), and a transaction
    that ends in an error returns no tables, because SQLite rolls it back. *)

From S2P Require Export StoreTables Identity.

Definition SessionId := N.

(** The statements of a page's transactions, by their role. *)
Inductive PageStatement :=
  | PsPurged | PsLatest | PsExisting | PsUnlatest | PsCloseWindows | PsCollisions | PsTombstone
  | PsRevive | PsInsert | PsCjk | PsDropLinks | PsLinkWorkspace | PsLinkProject | PsLinkTarget | PsLink
  | PsEntity | PsEntityLink | PsIncomingBare | PsProjectName | PsWorkspaceName | PsIncomingNamed
  | PsIncomingGlobal | PsEvidence | PsDelete | PsDropEntities.

(** The statements of the capture transactions. *)
Inductive IngestStatement :=
  | IgPurged | IgSession | IgInsertSession | IgMatches | IgCount | IgSweepKeys | IgAgent | IgKey
  | IgClaim | IgObserve | IgCjk | IgRebind | IgValidate | IgComplete | IgAbandoned | IgUsage
  | IgScope | IgAuthz | IgOwned | IgPages | IgRuns | IgLive | IgCollateral | IgDelete (table : nat)
  | IgTombstone.

(** The statements, by their role in a transaction; a page transaction runs
    some of its own several times ([i] counts them). *)
Inductive OpsStatement :=
  | OsBegin | OsCommit | OsAudit
  | OsCount | OsInsert | OsOldest | OsExists | OsUpdate | OsRead
  | OsSession | OsEndSession | OsExisting | OsExpire | OsExpireAudit
  | OsReceiver | OsClaimed | OsReopen | OsMetadata | OsSweepRead | OsSweep (chunk : nat)
  | OsSweepAudit
  | OsPage (st : PageStatement) (i : nat)
  | OsIngest (st : IngestStatement).

Definition faults := OpsStatement → option string.

Definition no_faults : faults := λ _, None.

Inductive OpsError :=
  | OpsSqlite (message : string)
  | InvalidState (message : string)
  | OpsMalformed (message : string)
  | SessionPurged (session : bytes)
  | SessionCollision
  | OpsNotFound (message : string)
  | OpsForbidden (message : string)
  | PagePathCollides (requested existing : bytes).

Definition statement {A} (f : faults) (st : OpsStatement) (a : A) : result A OpsError :=
  match f st with Some message => Err (OpsSqlite message) | None => Ok a end.

Record OpsAudit := mkOpsAudit {
  oa_at : Z;
  oa_op : string;
  oa_workspace : WorkspaceId;
  oa_project : ProjectId;
  oa_page : option N;
  oa_author : option UserId;
  oa_detail : string;
}.

(** [audit_with_detail] and [audit]. *)
Definition audit_with_detail (f : faults) (st : OpsStatement) (op : string) (ws : WorkspaceId)
    (pj : ProjectId) (page : option N) (author : option UserId) (at_ : Z) (detail : string)
    (log : list OpsAudit) : result (list OpsAudit) OpsError :=
  statement f st (log ++ [mkOpsAudit at_ op ws pj page author detail]).

Definition audit (f : faults) (st : OpsStatement) (op : string) (ws : WorkspaceId) (pj : ProjectId)
    (at_ : Z) (log : list OpsAudit) : result (list OpsAudit) OpsError :=
  audit_with_detail f st op ws pj None None at_ "{}" log.

Definition validate_identity_storage_key (value : option bytes) (label : string)
    : result unit OpsError :=
  match value with
  | Some key =>
      match from_storage_key key with
      | None => Err (InvalidState (label +:+ " is not a qualified identity storage key"))
      | Some _ => Ok tt
      end
  | None => Ok tt
  end.

(** [UPDATE]: the rows the condition selects are changed; the count is the
    number of rows selected. *)
Definition update_where {A} (p : A → bool) (g : A → A) (rows : list A) : list A :=
  (λ r, if p r then g r else r) <$> rows.

Definition count_where {A} (p : A → bool) (rows : list A) : nat := length (List.filter p rows).

(** [ORDER BY]: SQLite returns the selected rows in some order that agrees
    with the sort keys; rows with equal keys come in any order. *)
Definition OrderBy (A : Type) := (A → A → bool) → list A → list A.

Class OrdersRows {A} (order : OrderBy A) : Prop := {
  order_perm lt `{!StrictWeakOrder lt} rows : order lt rows ≡ₚ rows;
  order_sorted lt `{!StrictWeakOrder lt} rows : StronglySorted (λ a b, lt b a = false) (order lt rows);
}.

(** The prose cap. *)
Definition HANDOFF_FIELD_MAX_BYTES : nat := 16 * 1024.

(** ** Lemmas on rows and statements *)

Lemma statement_Ok {A} f st (a x : A) : statement f st a = Ok x → x = a.
Proof. unfold statement. by destruct (f st); intros [=]. Qed.

Lemma statement_no_faults {A} st (a : A) : statement no_faults st a = Ok a.
Proof. done. Qed.

(** Open an [Ok] transaction: every statement returned what it computes. *)
Ltac open_transaction :=
  peel_ok;
  repeat match goal with
  | H : audit _ _ _ _ _ _ _ = Ok _ |- _ => apply statement_Ok in H
  | H : audit_with_detail _ _ _ _ _ _ _ _ _ _ = Ok _ |- _ => apply statement_Ok in H
  | H : statement _ _ _ = Ok _ |- _ => apply statement_Ok in H; subst
  end; simplify_eq.

Lemma elem_update_where {A} (p : A → bool) g rows r :
  r ∈ update_where p g rows ↔ ∃ r0, r0 ∈ rows ∧ r = if p r0 then g r0 else r0.
Proof. unfold update_where. rewrite list_elem_of_fmap. naive_solver. Qed.

Lemma fmap_update_where {A B} (key : A → B) (p : A → bool) g rows :
  (∀ r, key (g r) = key r) → key <$> update_where p g rows = key <$> rows.
Proof.
  intros Hg. unfold update_where. rewrite <- list_fmap_compose. apply list_fmap_ext.
  intros i r _. cbn. destruct (p r); auto.
Qed.

Lemma elem_filter {A} (p : A → bool) rows r : r ∈ List.filter p rows ↔ r ∈ rows ∧ p r = true.
Proof. rewrite !list_elem_of_In. apply List.filter_In. Qed.

Lemma count_where_0 {A} (p : A → bool) rows : count_where p rows = 0 ↔ ∀ r, r ∈ rows → p r = false.
Proof.
  unfold count_where. induction rows as [|r rows IH]; simpl.
  { split; [|done]. intros _ r Hr. by apply elem_of_nil in Hr. }
  destruct (p r) eqn:E; simpl; [split; [done|]|].
  - intros H. specialize (H r). rewrite H in E by left. done.
  - rewrite IH. setoid_rewrite elem_of_cons. naive_solver.
Qed.

Lemma count_where_pos {A} (p : A → bool) rows : count_where p rows ≠ 0 ↔ ∃ r, r ∈ rows ∧ p r = true.
Proof.
  split.
  - intros H. unfold count_where in H. destruct (List.filter p rows) as [|r l] eqn:E; [done|].
    exists r. apply elem_filter. rewrite E. by left.
  - intros (r & Hr & Hp) H. rewrite count_where_0 in H. rewrite (H r Hr) in Hp. done.
Qed.

Lemma count_where_app {A} (p : A → bool) k l : count_where p (k ++ l) = count_where p k + count_where p l.
Proof. unfold count_where. by rewrite List.filter_app, length_app. Qed.

Lemma existsb_elem {A} (p : A → bool) rows : existsb p rows = true ↔ ∃ r, r ∈ rows ∧ p r = true.
Proof. rewrite List.existsb_exists. by setoid_rewrite list_elem_of_In. Qed.

Lemma existsb_none {A} (p : A → bool) rows : existsb p rows = false ↔ ∀ r, r ∈ rows → p r = false.
Proof.
  split.
  - intros H r Hr. destruct (p r) eqn:E; [|done].
    rewrite <- H. symmetry. apply existsb_elem. eauto.
  - intros H. destruct (existsb p rows) eqn:E; [|done].
    apply existsb_elem in E as (r & Hr & Hp). by rewrite H in Hp.
Qed.

Section Keyed.
Context {A K : Type} (key : A → K).

Lemma key_unique rows r r' :
  NoDup (key <$> rows) → r ∈ rows → r' ∈ rows → key r = key r' → r = r'.
Proof.
  intros Hn Hr Hr' Hk. apply list_elem_of_lookup in Hr as [i Hi].
  apply list_elem_of_lookup in Hr' as [j Hj].
  assert (i = j) as ->; [|congruence].
  eapply NoDup_lookup; [exact Hn|..]; rewrite list_lookup_fmap.
  - by rewrite Hi.
  - rewrite Hj. cbn. by rewrite Hk.
Qed.

(** A statement that selects by the primary key finds the row of that key. *)
Lemma find_unique (p : A → bool) rows r :
  NoDup (key <$> rows) → r ∈ rows → p r = true → (∀ r', p r' = true → key r' = key r) →
  List.find p rows = Some r.
Proof.
  intros Hn Hr Hp Hkey. destruct (List.find p rows) as [r'|] eqn:E.
  - apply List.find_some in E as [Hr' Hp']. apply list_elem_of_In in Hr'.
    f_equal. eauto using key_unique.
  - apply list_elem_of_In in Hr. by rewrite (List.find_none _ _ E _ Hr) in Hp.
Qed.

Lemma count_unique (p : A → bool) rows r :
  NoDup (key <$> rows) → r ∈ rows → p r = true → (∀ r', p r' = true → key r' = key r) →
  count_where p rows = 1.
Proof.
  intros Hn Hr Hp Hkey. induction rows as [|x rows IH]; [by apply elem_of_nil in Hr|].
  rewrite fmap_cons in Hn. apply NoDup_cons in Hn as [Hx Hn].
  unfold count_where. simpl. apply elem_of_cons in Hr as [->|Hr].
  - rewrite Hp. simpl. f_equal. apply count_where_0. intros r' Hr'.
    destruct (p r') eqn:E; [|done]. exfalso. apply Hx, list_elem_of_fmap. exists r'. split; [|done].
    symmetry. by apply Hkey.
  - destruct (p x) eqn:E; [|by apply IH].
    exfalso. apply Hx, list_elem_of_fmap. exists r. auto.
Qed.

Lemma NoDup_key_filter (p : A → bool) rows : NoDup (key <$> rows) → NoDup (key <$> List.filter p rows).
Proof.
  induction rows as [|r rows IH]; [done|]. rewrite fmap_cons, NoDup_cons. intros [Hr Hn]. cbn.
  destruct (p r); [|by apply IH]. rewrite fmap_cons, NoDup_cons. split; [|by apply IH].
  intros (r' & Hk & [Hr' _]%elem_filter)%list_elem_of_fmap. apply Hr, list_elem_of_fmap. eauto.
Qed.
End Keyed.

(** The first row of an [ORDER BY]. *)
Lemma order_head {A} (order : OrderBy A) lt rows r l :
  OrdersRows order → StrictWeakOrder lt → order lt rows = r :: l →
  r ∈ rows ∧ ∀ r', r' ∈ rows → lt r' r = false.
Proof.
  intros Ho Hlt E. pose proof (order_perm lt rows) as Hp. rewrite E in Hp.
  pose proof (order_sorted lt rows) as Hs. rewrite E in Hs. apply StronglySorted_inv in Hs as [_ Hs].
  rewrite Forall_forall in Hs. split; [rewrite <- Hp; by left|].
  intros r' Hr'. rewrite <- Hp in Hr'. apply elem_of_cons in Hr' as [->|Hr'].
  - destruct (lt r r) eqn:Er; [|done]. by rewrite (swo_asym _ _ Er) in Er.
  - by apply Hs.
Qed.

(** An [ORDER BY] that selects nothing had nothing to select. *)
Lemma order_filter_nil {A} (order : OrderBy A) lt p rows r :
  OrdersRows order → StrictWeakOrder lt → order lt (List.filter p rows) = [] → r ∈ rows → p r = false.
Proof.
  intros Ho Hlt E Hr. pose proof (order_perm lt (List.filter p rows)) as Hp. rewrite E in Hp.
  apply Permutation_nil in Hp. destruct (p r) eqn:Epr; [|done].
  assert (Hin : r ∈ List.filter p rows) by by apply elem_filter. rewrite Hp in Hin. by apply elem_of_nil in Hin.
Qed.

#[export] Instance sort_orders_rows {A} :
  OrdersRows (A:=A) (λ lt rows, sort_by_key id lt rows).
Proof.
  split; intros lt Hlt rows.
  - apply sort_by_key_perm.
  - exact (sort_by_key_sorted id lt rows).
Qed.
