(* ===== verification/AgentMessages.v ===== *)
(** * Cross-project messages

    Models the mailbox of [crates/ai-memory-store/src/ops.rs] (send, pop,
    cancel, edit) and its readers in reader.rs and dashboard.rs, over the rows
    of [agent_messages], with the types of
    [crates/ai-memory-core/src/message.rs].  The new message id, the clock
    and the order SQLite gives rows with equal sort keys are arguments, as is
    the range of timestamps jiff accepts. *)

From S2P Require Export OpsBase.
Open Scope nat_scope.
Open Scope rust_scope.

Definition MessageId := N.

(** ** Types *)

Inductive MessageState := MsPending | MsClaimed | MsCancelled | MsEditing.

#[export] Instance message_state_eq_dec : EqDecision MessageState.
Proof. solve_decision. Defined.

Definition MessageState_as_str (s : MessageState) : string :=
  match s with
  | MsPending => "pending"
  | MsClaimed => "claimed"
  | MsCancelled => "cancelled"
  | MsEditing => "editing"
  end.

Definition MessageState_from_str (s : string) : result MessageState OpsError :=
  if decide (s = "pending") then Ok MsPending
  else if decide (s = "claimed") then Ok MsClaimed
  else if decide (s = "cancelled") then Ok MsCancelled
  else if decide (s = "editing") then Ok MsEditing
  else Err (OpsMalformed ("unknown message state: " +:+ s)).

Inductive MessageNature := NatureUnknown | Measured | Reported | Inferred.

#[export] Instance message_nature_eq_dec : EqDecision MessageNature.
Proof. solve_decision. Defined.

Definition MessageNature_as_str (n : MessageNature) : string :=
  match n with
  | NatureUnknown => "unknown"
  | Measured => "measured"
  | Reported => "reported"
  | Inferred => "inferred"
  end.

Definition MessageNature_from_str (s : string) : result MessageNature OpsError :=
  if decide (s = "unknown") then Ok NatureUnknown
  else if decide (s = "measured") then Ok Measured
  else if decide (s = "reported") then Ok Reported
  else if decide (s = "inferred") then Ok Inferred
  else Err (OpsMalformed ("unknown message nature: " +:+ s)).

Inductive MessageBox := Inbox | Outbox.

Record NewAgentMessage := mkNewAgentMessage {
  nm_from_workspace : WorkspaceId;
  nm_from_project : ProjectId;
  nm_from_agent : AgentKind;
  nm_from_session : option SessionId;
  nm_from_owner_user : option bytes;
  nm_to_workspace : WorkspaceId;
  nm_to_project : ProjectId;
  nm_to_agent : option AgentKind;
  nm_subject : option bytes;
  nm_body : bytes;
  nm_nature : MessageNature;
  nm_evidence : option bytes;
}.

Record MessageClaim := mkMessageClaim {
  mc_workspace : WorkspaceId;
  mc_project : ProjectId;
  mc_agent : AgentKind;
  mc_session : option SessionId;
  mc_user : option bytes;
}.

Record MessageOrigin := mkMessageOrigin {
  mo_from_workspace : WorkspaceId;
  mo_from_project : ProjectId;
  mo_from_agent : AgentKind;
  mo_from_owner_user : option bytes;
}.

Record AgentMessage := mkAgentMessage {
  am_id : MessageId;
  am_to_workspace : WorkspaceId;
  am_to_project : ProjectId;
  am_to_agent : option AgentKind;
  am_origin : MessageOrigin;
  am_subject : option bytes;
  am_body : bytes;
  am_nature : MessageNature;
  am_evidence : option bytes;
  am_state : MessageState;
  am_created_at : Z;
  am_claimed_at : option Z;
}.

(** A row of [agent_messages]. *)
Record MessageRow := mkMessageRow {
  r_id : MessageId;
  r_from_workspace : WorkspaceId;
  r_from_project : ProjectId;
  r_from_agent : string;
  r_from_session : option SessionId;
  r_from_owner_user : option bytes;
  r_to_workspace : WorkspaceId;
  r_to_project : ProjectId;
  r_subject : option bytes;
  r_body : bytes;
  r_state : string;
  r_created_at : Z;
  r_claimed_at : option Z;
  r_claimed_by_session : option SessionId;
  r_claimed_by_agent : option string;
  r_claimed_by_user : option bytes;
  r_nature : option string;
  r_evidence : option bytes;
  r_to_agent : option string;
  r_edited_at : option Z;
}.

Record Mailbox := mkMailbox {
  messages : list MessageRow;
  mail_log : list OpsAudit;
}.

(** ** Bounds *)

Definition MESSAGE_FIELD_MAX_BYTES : nat := HANDOFF_FIELD_MAX_BYTES.
Definition MESSAGE_EVIDENCE_MAX_BYTES : nat := 1000.
Definition MAX_PENDING_INBOX_MESSAGES : nat := 256.

Definition bound_message_field (value : bytes) : bytes :=
  truncate_utf8_bytes value MESSAGE_FIELD_MAX_BYTES.

Definition bound_message_evidence (value : bytes) : bytes :=
  truncate_utf8_bytes value MESSAGE_EVIDENCE_MAX_BYTES.

Section Messages.
Variable timestamp_ok : Z → bool.
Variable order : OrderBy MessageRow.

(** ** Reading a row *)

Definition timestamp_from_microsecond (label : string) (us : Z) : result Z OpsError :=
  if timestamp_ok us then Ok us else Err (OpsMalformed ("bad " +:+ label)).

Definition row_to_agent_message (r : MessageRow) : result AgentMessage OpsError :=
  let? nature := MessageNature_from_str (default "unknown" (r_nature r)) in
  let? state := MessageState_from_str (r_state r) in
  let? created_at := timestamp_from_microsecond "created_at" (r_created_at r) in
  let? claimed_at := match r_claimed_at r with
                     | None => Ok None
                     | Some us => let? at_ := timestamp_from_microsecond "claimed_at" us in
                                  Ok (Some at_)
                     end in
  Ok (mkAgentMessage (r_id r) (r_to_workspace r) (r_to_project r)
        (AgentKind_from_wire <$> r_to_agent r)
        (mkMessageOrigin (r_from_workspace r) (r_from_project r)
           (AgentKind_from_wire (r_from_agent r)) (r_from_owner_user r))
        (r_subject r) (r_body r) nature (r_evidence r) state created_at claimed_at).

(** The conditions of the statements. *)
Definition is_state (s : MessageState) (r : MessageRow) : bool :=
  bool_decide (r_state r = MessageState_as_str s).

Definition in_inbox (ws : WorkspaceId) (pj : ProjectId) (r : MessageRow) : bool :=
  bool_decide (r_to_workspace r = ws) && bool_decide (r_to_project r = pj).

Definition in_outbox (ws : WorkspaceId) (pj : ProjectId) (r : MessageRow) : bool :=
  bool_decide (r_from_workspace r = ws) && bool_decide (r_from_project r = pj).

(** [to_agent IS NULL OR to_agent = ?]. *)
Definition for_agent (agent : AgentKind) (r : MessageRow) : bool :=
  match r_to_agent r with
  | None => true
  | Some to => bool_decide (to = AgentKind_as_str agent)
  end.

Definition has_id (id : MessageId) (r : MessageRow) : bool := bool_decide (r_id r = id).

Definition pending_in (ws : WorkspaceId) (pj : ProjectId) (r : MessageRow) : bool :=
  in_inbox ws pj r && is_state MsPending r.

Definition pending_count (ws : WorkspaceId) (pj : ProjectId) (rows : list MessageRow) : nat :=
  count_where (pending_in ws pj) rows.

Definition oldest_first (a b : MessageRow) : bool := (r_created_at a <? r_created_at b)%Z.

(** ** Sending *)

Definition INBOX_FULL : string :=
  "recipient inbox is full (256 pending messages); the recipient must pop or the sender cancel before more can be sent".

Definition new_row (m : NewAgentMessage) (id : MessageId) (now : Z) : MessageRow :=
  mkMessageRow id (nm_from_workspace m) (nm_from_project m) (AgentKind_as_str (nm_from_agent m))
    (nm_from_session m) (nm_from_owner_user m) (nm_to_workspace m) (nm_to_project m)
    (bound_message_field <$> nm_subject m) (bound_message_field (nm_body m))
    "pending" now None None None None
    (Some (MessageNature_as_str (nm_nature m)))
    (bound_message_evidence <$> nm_evidence m) (AgentKind_as_str <$> nm_to_agent m) None.

Definition lacks_evidence (m : NewAgentMessage) : bool :=
  bool_decide (nm_nature m = Measured)
  && match nm_evidence m with None => true | Some v => bool_decide (trim v = []) end.

Definition insert_message (f : faults) (box : Mailbox) (m : NewAgentMessage) (id : MessageId)
    (now : Z) : result (MessageId * Mailbox) OpsError :=
  let? _u := validate_identity_storage_key (nm_from_owner_user m) "message sender" in
  bail_if lacks_evidence m with
    InvalidState "evidence_required: measured messages require non-empty evidence";;
  let? _u := statement f OsBegin tt in
  let? pending := statement f OsCount
                    (pending_count (nm_to_workspace m) (nm_to_project m) (messages box)) in
  bail_if MAX_PENDING_INBOX_MESSAGES <=? pending with InvalidState INBOX_FULL;;
  bail_if existsb (has_id id) (messages box) with OpsSqlite "UNIQUE constraint failed";;
  let? rows := statement f OsInsert (messages box ++ [new_row m id now]) in
  let? log := audit f OsAudit "send_message" (nm_to_workspace m) (nm_to_project m) now
                (mail_log box) in
  let? _u := statement f OsCommit tt in
  Ok (id, mkMailbox rows log).

(** ** Popping *)

Definition claimable (claim : MessageClaim) (r : MessageRow) : bool :=
  in_inbox (mc_workspace claim) (mc_project claim) r && is_state MsPending r
  && for_agent (mc_agent claim) r.

Definition claim_row (claim : MessageClaim) (now : Z) (r : MessageRow) : MessageRow :=
  mkMessageRow (r_id r) (r_from_workspace r) (r_from_project r) (r_from_agent r)
    (r_from_session r) (r_from_owner_user r) (r_to_workspace r) (r_to_project r) (r_subject r)
    (r_body r) "claimed" (r_created_at r) (Some now) (mc_session claim)
    (Some (AgentKind_as_str (mc_agent claim))) (mc_user claim) (r_nature r) (r_evidence r)
    (r_to_agent r) (r_edited_at r).

(** [SELECT id .. ORDER BY created_at ASC LIMIT 1]. *)
Definition oldest_claimable (claim : MessageClaim) (rows : list MessageRow) : option MessageId :=
  r_id <$> head (order oldest_first (List.filter (claimable claim) rows)).

Definition pop_message_in_transaction (f : faults) (box : Mailbox) (claim : MessageClaim)
    (specific_id : option MessageId) (now : Z)
    : result (option AgentMessage * Mailbox) OpsError :=
  let? _u := validate_identity_storage_key (mc_user claim) "message recipient" in
  let? target := match specific_id with
                 | Some id => Ok (Some id)
                 | None => statement f OsOldest (oldest_claimable claim (messages box))
                 end in
  match target with
  | None => Ok (None, box)
  | Some target =>
      let hit := λ r, has_id target r && claimable claim r in
      let? exists_ := statement f OsExists (existsb hit (messages box)) in
      if negb exists_ then Ok (None, box)
      else
        let? rows := statement f OsUpdate (update_where hit (claim_row claim now) (messages box)) in
        let changed := count_where hit (messages box) in
        if changed =? 0 then Ok (None, box)
        else
          let? log := audit f OsAudit "pop_message" (mc_workspace claim) (mc_project claim) now
                        (mail_log box) in
          let? row := statement f OsRead
            (List.find (λ r, has_id target r && in_inbox (mc_workspace claim) (mc_project claim) r)
               rows) in
          match row with
          | None => Ok (None, mkMailbox rows log)
          | Some row => let? message := row_to_agent_message row in
                        Ok (Some message, mkMailbox rows log)
          end
  end.

Definition pop_message (f : faults) (box : Mailbox) (claim : MessageClaim)
    (specific_id : option MessageId) (now : Z)
    : result (option AgentMessage * Mailbox) OpsError :=
  let? _u := statement f OsBegin tt in
  let? popped := pop_message_in_transaction f box claim specific_id now in
  let? _u := statement f OsCommit tt in
  Ok popped.

(** ** Cancelling *)

Definition set_state (s : MessageState) (r : MessageRow) : MessageRow :=
  mkMessageRow (r_id r) (r_from_workspace r) (r_from_project r) (r_from_agent r)
    (r_from_session r) (r_from_owner_user r) (r_to_workspace r) (r_to_project r) (r_subject r)
    (r_body r) (MessageState_as_str s) (r_created_at r) (r_claimed_at r)
    (r_claimed_by_session r) (r_claimed_by_agent r) (r_claimed_by_user r) (r_nature r)
    (r_evidence r) (r_to_agent r) (r_edited_at r).

Definition cancel_messages (f : faults) (box : Mailbox) (ws : WorkspaceId) (pj : ProjectId)
    (specific_id : option MessageId) (now : Z) : result (nat * Mailbox) OpsError :=
  let? _u := statement f OsBegin tt in
  let hit := λ r, match specific_id with Some id => has_id id r | None => true end
                  && in_outbox ws pj r && is_state MsPending r in
  let? rows := statement f OsUpdate (update_where hit (set_state MsCancelled) (messages box)) in
  let changed := count_where hit (messages box) in
  let? log := if 0 <? changed then audit f OsAudit "cancel_message" ws pj now (mail_log box)
              else Ok (mail_log box) in
  let? _u := statement f OsCommit tt in
  Ok (changed, mkMailbox rows log).

(** ** Editing *)

Definition begin_message_edit (f : faults) (box : Mailbox) (ws : WorkspaceId) (pj : ProjectId)
    (id : MessageId) (now : Z) : result (option AgentMessage * Mailbox) OpsError :=
  let? _u := statement f OsBegin tt in
  let hit := λ r, has_id id r && in_inbox ws pj r && is_state MsPending r in
  let? rows := statement f OsUpdate (update_where hit (set_state MsEditing) (messages box)) in
  if count_where hit (messages box) =? 0 then Ok (None, box)
  else
    let? row := statement f OsRead (List.find (has_id id) rows) in
    match row with
    | None => Err (OpsSqlite "query returned no rows")
    | Some row =>
        let? message := row_to_agent_message row in
        let? log := audit f OsAudit "edit_message_begin" ws pj now (mail_log box) in
        let? _u := statement f OsCommit tt in
        Ok (Some message, mkMailbox rows log)
    end.

Definition save_row (subject : option bytes) (body : bytes) (now : Z) (r : MessageRow)
    : MessageRow :=
  mkMessageRow (r_id r) (r_from_workspace r) (r_from_project r) (r_from_agent r)
    (r_from_session r) (r_from_owner_user r) (r_to_workspace r) (r_to_project r)
    (bound_message_field <$> subject) (bound_message_field body) "pending" (r_created_at r)
    (r_claimed_at r) (r_claimed_by_session r) (r_claimed_by_agent r) (r_claimed_by_user r)
    (r_nature r) (r_evidence r) (r_to_agent r) (Some now).

Definition finish_row (replacement : option (option bytes * bytes)) (now : Z) (r : MessageRow)
    : MessageRow :=
  match replacement with
  | Some (subject, body) => save_row subject body now r
  | None => set_state MsPending r
  end.

Definition finish_message_edit (f : faults) (box : Mailbox) (ws : WorkspaceId) (pj : ProjectId)
    (id : MessageId) (replacement : option (option bytes * bytes)) (now : Z)
    : result (bool * Mailbox) OpsError :=
  let? _u := statement f OsBegin tt in
  let hit := λ r, has_id id r && in_inbox ws pj r && is_state MsEditing r in
  let? rows := statement f OsUpdate (update_where hit (finish_row replacement now) (messages box)) in
  let changed := count_where hit (messages box) in
  let? log := if 0 <? changed
              then audit f OsAudit (match replacement with
                                    | Some _ => "edit_message_save"
                                    | None => "edit_message_release"
                                    end) ws pj now (mail_log box)
              else Ok (mail_log box) in
  let? _u := statement f OsCommit tt in
  Ok (0 <? changed, mkMailbox rows log).

(** ** Reading the mailbox *)

Fixpoint read_rows (rows : list MessageRow) : result (list AgentMessage) OpsError :=
  match rows with
  | [] => Ok []
  | r :: rows' => let? message := row_to_agent_message r in
                  let? rest := read_rows rows' in
                  Ok (message :: rest)
  end.

Definition box_row (mailbox : MessageBox) (ws : WorkspaceId) (pj : ProjectId) : MessageRow → bool :=
  match mailbox with Inbox => in_inbox ws pj | Outbox => in_outbox ws pj end.

Definition list_messages (f : faults) (box : Mailbox) (ws : WorkspaceId) (pj : ProjectId)
    (mailbox : MessageBox) (limit : nat) : result (list AgentMessage) OpsError :=
  let limit := Nat.max 1 (Nat.min limit 200) in
  let? rows := statement f OsRead
    (take limit (order oldest_first
       (List.filter (λ r, box_row mailbox ws pj r && is_state MsPending r) (messages box)))) in
  read_rows rows.

Definition pending_message_count (f : faults) (box : Mailbox) (ws : WorkspaceId) (pj : ProjectId)
    : result nat OpsError :=
  statement f OsCount (pending_count ws pj (messages box)).

Definition pending_messages_for_agent (f : faults) (box : Mailbox) (ws : WorkspaceId)
    (pj : ProjectId) (agent : AgentKind) : result nat OpsError :=
  statement f OsCount (count_where (λ r, pending_in ws pj r && for_agent agent r) (messages box)).

(** [ORDER BY created_at DESC, id DESC]. *)
Definition newest_first (a b : MessageRow) : bool :=
  ((r_created_at b <? r_created_at a)
   || (r_created_at a =? r_created_at b) && (Z.of_N (r_id b) <? Z.of_N (r_id a)))%Z.

(** The page numbers are [usize]; an offset past [i64::MAX] is cut to it. *)
Definition message_history_filtered (f : faults) (box : Mailbox) (ws : WorkspaceId)
    (pj : ProjectId) (mailbox : MessageBox) (state : option MessageState) (limit offset : Z)
    : result (list AgentMessage) OpsError :=
  let rows := List.filter (λ r, box_row mailbox ws pj r
                                && match state with Some s => is_state s r | None => true end)
                (messages box) in
  let? rows := statement f OsRead
    (take (Z.to_nat (Z.max 1 (Z.min limit 100)))
       (drop (Z.to_nat (Z.min offset i64_max)) (order newest_first rows))) in
  read_rows rows.

Definition message_in_mailbox (f : faults) (box : Mailbox) (ws : WorkspaceId) (pj : ProjectId)
    (id : MessageId) : result (option AgentMessage) OpsError :=
  let? row := statement f OsRead
                (List.find (λ r, has_id id r && in_inbox ws pj r) (messages box)) in
  match row with
  | None => Ok None
  | Some row => let? message := row_to_agent_message row in Ok (Some message)
  end.

(** ** The writer's commands *)

Inductive MailCmd :=
  | CmdInsert (message : NewAgentMessage)
  | CmdPop (claim : MessageClaim) (specific_id : option MessageId)
  | CmdCancel (ws : WorkspaceId) (pj : ProjectId) (specific_id : option MessageId)
  | CmdBeginEdit (ws : WorkspaceId) (pj : ProjectId) (id : MessageId)
  | CmdFinishEdit (ws : WorkspaceId) (pj : ProjectId) (id : MessageId)
      (replacement : option (option bytes * bytes)).

Inductive MailReply :=
  | RepInserted (id : MessageId)
  | RepPopped (message : option AgentMessage)
  | RepCancelled (changed : nat)
  | RepEditBegun (message : option AgentMessage)
  | RepEditFinished (changed : bool)
  | RepError (e : OpsError).

Definition reply_of {A} (box : Mailbox) (rep : A → MailReply) (r : result (A * Mailbox) OpsError)
    : MailReply * Mailbox :=
  match r with
  | Ok (a, box') => (rep a, box')
  | Err e => (RepError e, box)
  end.

(** One command, with the id and the time it draws and the faults it meets:
    the writer runs commands one after the other. *)
Record MailTurn := mkMailTurn {
  t_cmd : MailCmd;
  t_id : MessageId;
  t_now : Z;
  t_faults : faults;
}.

Definition mail_step (box : Mailbox) (t : MailTurn) : MailReply * Mailbox :=
  match t_cmd t with
  | CmdInsert m => reply_of box RepInserted (insert_message (t_faults t) box m (t_id t) (t_now t))
  | CmdPop claim id => reply_of box RepPopped (pop_message (t_faults t) box claim id (t_now t))
  | CmdCancel ws pj id =>
      reply_of box RepCancelled (cancel_messages (t_faults t) box ws pj id (t_now t))
  | CmdBeginEdit ws pj id =>
      reply_of box RepEditBegun (begin_message_edit (t_faults t) box ws pj id (t_now t))
  | CmdFinishEdit ws pj id rep =>
      reply_of box RepEditFinished (finish_message_edit (t_faults t) box ws pj id rep (t_now t))
  end.

Fixpoint mail_run (box : Mailbox) (turns : list MailTurn) : list MailReply * Mailbox :=
  match turns with
  | [] => ([], box)
  | t :: turns' =>
      let '(reply, box') := mail_step box t in
      let '(replies, final) := mail_run box' turns' in
      (reply :: replies, final)
  end.
End Messages.

Definition empty_mailbox : Mailbox := mkMailbox [] [].
