(* ===== verification/AgentMessagesFacts.v ===== *)
(** * What the mailbox guarantees

    The mailbox refines the lives of its messages: what was sent, retracted,
    held, saved and popped according to the replies of the writer.  Every
    message is delivered at most once, to the project and agent it is
    addressed to, with the text last stored; a pop takes the oldest waiting
    message whenever there is one. *)

From S2P Require Export AgentMessages.
From S2P Require Import IdentityFacts.
Open Scope nat_scope.
Open Scope rust_scope.

(** ** The life of a message, as the writer's replies tell it *)

Record Life := mkLife {
  l_sent : NewAgentMessage;
  l_sent_at : Z;
  l_subject : option bytes;
  l_body : bytes;
  l_state : MessageState;
  l_popped_at : option Z;
}.

Definition sent_life (m : NewAgentMessage) (now : Z) : Life :=
  mkLife m now (bound_message_field <$> nm_subject m) (bound_message_field (nm_body m))
    MsPending None.

Definition in_state (s : MessageState) (l : Life) : Life :=
  mkLife (l_sent l) (l_sent_at l) (l_subject l) (l_body l) s (l_popped_at l).

Definition popped_life (now : Z) (l : Life) : Life :=
  mkLife (l_sent l) (l_sent_at l) (l_subject l) (l_body l) MsClaimed (Some now).

Definition finished_life (replacement : option (option bytes * bytes)) (l : Life) : Life :=
  match replacement with
  | Some (subject, body) =>
      mkLife (l_sent l) (l_sent_at l) (bound_message_field <$> subject) (bound_message_field body)
        MsPending (l_popped_at l)
  | None => in_state MsPending l
  end.

(** Whether a retraction by this project concerns the message. *)
Definition retractable (ws : WorkspaceId) (pj : ProjectId) (specific_id : option MessageId)
    (id : MessageId) (l : Life) : bool :=
  match specific_id with Some id' => bool_decide (id = id') | None => true end
  && (bool_decide (nm_from_workspace (l_sent l) = ws)
      && bool_decide (nm_from_project (l_sent l) = pj))
  && bool_decide (l_state l = MsPending).

Definition life_step (id : MessageId) (l : option Life) (t : MailTurn) (reply : MailReply)
    : option Life :=
  match t_cmd t, reply with
  | CmdInsert m, RepInserted id' => if decide (id' = id) then Some (sent_life m (t_now t)) else l
  | CmdPop _ _, RepPopped (Some am) =>
      if decide (am_id am = id) then popped_life (t_now t) <$> l else l
  | CmdCancel ws pj specific_id, RepCancelled _ =>
      (λ l, if retractable ws pj specific_id id l then in_state MsCancelled l else l) <$> l
  | CmdBeginEdit _ _ id', RepEditBegun (Some _) =>
      if decide (id' = id) then in_state MsEditing <$> l else l
  | CmdFinishEdit _ _ id' replacement, RepEditFinished true =>
      if decide (id' = id) then finished_life replacement <$> l else l
  | _, _ => l
  end.

Definition History := list (MailTurn * MailReply).

Definition life (id : MessageId) (h : History) : option Life :=
  foldl (λ l e, life_step id l (fst e) (snd e)) None h.

Lemma life_snoc id h t reply : life id (h ++ [(t, reply)]) = life_step id (life id h) t reply.
Proof. unfold life. by rewrite foldl_app. Qed.

(** What a reader of the message gets to see. *)
Definition message_of (id : MessageId) (l : Life) : AgentMessage :=
  let m := l_sent l in
  mkAgentMessage id (nm_to_workspace m) (nm_to_project m) (nm_to_agent m)
    (mkMessageOrigin (nm_from_workspace m) (nm_from_project m) (nm_from_agent m)
       (nm_from_owner_user m))
    (l_subject l) (l_body l) (nm_nature m) (bound_message_evidence <$> nm_evidence m)
    (l_state l) (l_sent_at l) (l_popped_at l).

(** ** Rows and lives *)

Record describes (l : Life) (r : MessageRow) : Prop := {
  d_from_workspace : r_from_workspace r = nm_from_workspace (l_sent l);
  d_from_project : r_from_project r = nm_from_project (l_sent l);
  d_from_agent : r_from_agent r = AgentKind_as_str (nm_from_agent (l_sent l));
  d_from_owner : r_from_owner_user r = nm_from_owner_user (l_sent l);
  d_to_workspace : r_to_workspace r = nm_to_workspace (l_sent l);
  d_to_project : r_to_project r = nm_to_project (l_sent l);
  d_to_agent : r_to_agent r = AgentKind_as_str <$> nm_to_agent (l_sent l);
  d_subject : r_subject r = l_subject l;
  d_body : r_body r = l_body l;
  d_state : r_state r = MessageState_as_str (l_state l);
  d_created : r_created_at r = l_sent_at l;
  d_claimed : r_claimed_at r = l_popped_at l;
  d_nature : r_nature r = Some (MessageNature_as_str (nm_nature (l_sent l)));
  d_evidence : r_evidence r = bound_message_evidence <$> nm_evidence (l_sent l);
}.

#[export] Hint Resolve Build_describes : core.

Record sim (rows : list MessageRow) (lives : MessageId → option Life) : Prop := {
  sim_nodup : NoDup (r_id <$> rows);
  sim_row r : r ∈ rows → ∃ l, lives (r_id r) = Some l ∧ describes l r;
  sim_life id l : lives id = Some l → ∃ r, r ∈ rows ∧ r_id r = id;
}.

Lemma sim_find rows lives id l :
  sim rows lives → lives id = Some l → ∃ r, r ∈ rows ∧ r_id r = id ∧ describes l r.
Proof.
  intros Hs Hl. destruct (sim_life _ _ Hs _ _ Hl) as (r & Hr & <-).
  destruct (sim_row _ _ Hs r Hr) as (l' & Hl' & Hd). exists r. by simplify_eq.
Qed.

Lemma sim_update (hit : MessageRow → bool) g rows lives lives' :
  sim rows lives → (∀ r, r_id (g r) = r_id r) →
  (∀ r l, r ∈ rows → lives (r_id r) = Some l → describes l r →
          ∃ l', lives' (r_id r) = Some l' ∧ describes l' (if hit r then g r else r)) →
  (∀ id, lives id = None → lives' id = None) →
  sim (update_where hit g rows) lives'.
Proof.
  intros Hs Hid Hstep Hnone. split.
  - rewrite fmap_update_where by done. apply Hs.
  - intros r (r0 & Hr0 & ->)%elem_update_where.
    destruct (sim_row _ _ Hs r0 Hr0) as (l & Hl & Hd).
    destruct (Hstep r0 l Hr0 Hl Hd) as (l' & Hl' & Hd'). exists l'. split; [|done].
    destruct (hit r0); by rewrite ?Hid.
  - intros id l' Hl'. destruct (lives id) as [l|] eqn:E; [|by rewrite Hnone in Hl'].
    destruct (sim_life _ _ Hs _ _ E) as (r & Hr & <-).
    exists (if hit r then g r else r). split; [apply elem_update_where; eauto|].
    destruct (hit r); by rewrite ?Hid.
Qed.

Lemma sim_insert rows lives m id now :
  sim rows lives → (∀ r, r ∈ rows → has_id id r = false) →
  sim (rows ++ [new_row m id now])
      (λ id', if decide (id = id') then Some (sent_life m now) else lives id').
Proof.
  intros Hs Hfresh.
  assert (Hne : ∀ r, r ∈ rows → id ≠ r_id r).
  { intros r Hr ->. specialize (Hfresh _ Hr). unfold has_id in Hfresh.
    by rewrite bool_decide_eq_true_2 in Hfresh. }
  split.
  - rewrite fmap_app. apply NoDup_app. split; [apply Hs|]. split; [|apply NoDup_singleton].
    intros x (r & -> & Hr)%list_elem_of_fmap Hx%list_elem_of_singleton. by eapply Hne.
  - intros r [Hr| ->%list_elem_of_singleton]%elem_of_app.
    + rewrite decide_False by by apply Hne. by apply Hs.
    + cbn [r_id new_row]. rewrite decide_True by done. by exists (sent_life m now).
  - intros id' l. case_decide as E.
    + intros _. exists (new_row m id now). split; [apply elem_of_app; right; by left|done].
    + intros Hl. destruct (sim_life _ _ Hs _ _ Hl) as (r & Hr & Hid).
      exists r. split; [apply elem_of_app; by left|done].
Qed.

(** ** The conditions of the statements, in terms of lives *)

#[export] Instance MessageState_as_str_inj : Inj (=) (=) MessageState_as_str.
Proof. by intros [] []. Qed.

Definition addressed_to (ws : WorkspaceId) (pj : ProjectId) (l : Life) : Prop :=
  nm_to_workspace (l_sent l) = ws ∧ nm_to_project (l_sent l) = pj.

(** The claim reaches the message: its project, and its agent if one is named. *)
Definition reaches (claim : MessageClaim) (l : Life) : Prop :=
  addressed_to (mc_workspace claim) (mc_project claim) l
  ∧ (nm_to_agent (l_sent l) = None ∨ nm_to_agent (l_sent l) = Some (mc_agent claim)).

Definition waiting (claim : MessageClaim) (l : Life) : Prop :=
  l_state l = MsPending ∧ reaches claim l.

Lemma is_state_life l r s : describes l r → is_state s r = true ↔ l_state l = s.
Proof.
  intros Hd. unfold is_state. rewrite bool_decide_eq_true, (d_state _ _ Hd).
  split; [apply MessageState_as_str_inj|by intros ->].
Qed.

Lemma in_inbox_life l r ws pj : describes l r → in_inbox ws pj r = true ↔ addressed_to ws pj l.
Proof.
  intros Hd. unfold in_inbox, addressed_to.
  by rewrite andb_true_iff, !bool_decide_eq_true, (d_to_workspace _ _ Hd), (d_to_project _ _ Hd).
Qed.

Lemma claimable_life l r claim : describes l r → claimable claim r = true ↔ waiting claim l.
Proof.
  intros Hd. unfold claimable, waiting, reaches.
  rewrite !andb_true_iff, (in_inbox_life _ _ _ _ Hd), (is_state_life _ _ _ Hd).
  unfold for_agent. rewrite (d_to_agent _ _ Hd).
  destruct (nm_to_agent (l_sent l)) as [a|]; cbn; [|naive_solver].
  rewrite bool_decide_eq_true. split.
  - intros [[? ?] ->%AgentKind_as_str_inj]. auto.
  - intros (? & ? & [[=]|[= ->]]); auto.
Qed.

Lemma has_id_true id r : has_id id r = true ↔ r_id r = id.
Proof. apply bool_decide_eq_true. Qed.

Section Facts.
Variable timestamp_ok : Z → bool.
Variable order : OrderBy MessageRow.
Context `{!OrdersRows order}.

(** ** Reading a row *)

Lemma nature_round n : MessageNature_from_str (MessageNature_as_str n) = Ok n.
Proof. by destruct n. Qed.

Lemma state_round s : MessageState_from_str (MessageState_as_str s) = Ok s.
Proof. by destruct s. Qed.

Definition times_ok (l : Life) : Prop :=
  timestamp_ok (l_sent_at l) = true ∧ (∀ at_, l_popped_at l = Some at_ → timestamp_ok at_ = true).

Lemma row_message l r :
  describes l r →
  (∀ am, row_to_agent_message timestamp_ok r = Ok am → am = message_of (r_id r) l)
  ∧ (times_ok l → row_to_agent_message timestamp_ok r = Ok (message_of (r_id r) l)).
Proof.
  intros Hd. unfold row_to_agent_message, timestamp_from_microsecond, times_ok, message_of.
  rewrite (d_nature _ _ Hd), (d_state _ _ Hd), (d_created _ _ Hd), (d_claimed _ _ Hd).
  change (default "unknown" (Some ?n)) with n. rewrite nature_round, state_round. cbn [result_bind].
  rewrite (d_from_agent _ _ Hd), AgentKind_wire, (d_to_agent _ _ Hd), (d_subject _ _ Hd),
    (d_body _ _ Hd), (d_evidence _ _ Hd), (d_to_workspace _ _ Hd), (d_to_project _ _ Hd),
    (d_from_workspace _ _ Hd), (d_from_project _ _ Hd), (d_from_owner _ _ Hd).
  assert (AgentKind_from_wire <$> (AgentKind_as_str <$> nm_to_agent (l_sent l))
          = nm_to_agent (l_sent l)) as ->.
  { destruct (nm_to_agent (l_sent l)); [|done]. cbn. by rewrite AgentKind_wire. }
  destruct (timestamp_ok (l_sent_at l)) eqn:E1; cbn [result_bind]; [|by split; [|intros []]].
  destruct (l_popped_at l) as [at_|]; cbn [result_bind].
  - destruct (timestamp_ok at_) eqn:E2; cbn [result_bind]; [by split; [intros am [= <-]|]|].
    split; [done|]. intros [_ H]. by rewrite H in E2.
  - by split; [intros am [= <-]|].
Qed.

(** ** What each command does *)

Lemma insert_message_Ok f box m id now id' box' :
  insert_message f box m id now = Ok (id', box') →
  id' = id ∧ messages box' = messages box ++ [new_row m id now]
  ∧ (∀ r, r ∈ messages box → has_id id r = false)
  ∧ pending_count (nm_to_workspace m) (nm_to_project m) (messages box) < MAX_PENDING_INBOX_MESSAGES
  ∧ lacks_evidence m = false.
Proof.
  unfold insert_message. intros H. open_transaction.
  repeat split; [|apply Nat.leb_gt; done|done].
  by apply existsb_none.
Qed.

Lemma cancel_messages_Ok f box ws pj specific_id now n box' :
  cancel_messages f box ws pj specific_id now = Ok (n, box') →
  messages box' =
    update_where (λ r, match specific_id with Some id => has_id id r | None => true end
                       && in_outbox ws pj r && is_state MsPending r)
      (set_state MsCancelled) (messages box)
  ∧ n = count_where (λ r, match specific_id with Some id => has_id id r | None => true end
                       && in_outbox ws pj r && is_state MsPending r) (messages box).
Proof. unfold cancel_messages. intros H. by open_transaction. Qed.

Lemma begin_message_edit_Ok f box ws pj id now res box' :
  begin_message_edit timestamp_ok f box ws pj id now = Ok (res, box') →
  let hit := λ r, has_id id r && in_inbox ws pj r && is_state MsPending r in
  match res with
  | None => box' = box ∧ ∀ r, r ∈ messages box → hit r = false
  | Some am =>
      messages box' = update_where hit (set_state MsEditing) (messages box)
      ∧ ∃ r, r ∈ messages box ∧ hit r = true
  end.
Proof.
  intros H hit. unfold begin_message_edit in H. fold hit in H. open_transaction.
  destruct (count_where _ (messages box) =? 0) eqn:E.
  { open_transaction. split; [done|]. by apply count_where_0, Nat.eqb_eq. }
  apply Nat.eqb_neq, count_where_pos in E. open_transaction.
  destruct (List.find _ _) as [row|]; by open_transaction.
Qed.

Lemma finish_message_edit_Ok f box ws pj id replacement now res box' :
  finish_message_edit f box ws pj id replacement now = Ok (res, box') →
  let hit := λ r, has_id id r && in_inbox ws pj r && is_state MsEditing r in
  messages box' = update_where hit (finish_row replacement now) (messages box)
  ∧ res = (0 <? count_where hit (messages box)).
Proof. intros H hit. unfold finish_message_edit in H. fold hit in H. by open_transaction. Qed.
(** The pop: nothing is claimed, or exactly the row handed out is. *)
Definition pop_hit (claim : MessageClaim) (target : MessageId) (r : MessageRow) : bool :=
  has_id target r && claimable claim r.

Lemma pop_hit_true claim target r :
  pop_hit claim target r = true ↔ r_id r = target ∧ claimable claim r = true.
Proof. unfold pop_hit. by rewrite andb_true_iff, has_id_true. Qed.

Lemma claim_row_found claim now rows r :
  NoDup (r_id <$> rows) → r ∈ rows → claimable claim r = true →
  List.find (λ r', has_id (r_id r) r' && in_inbox (mc_workspace claim) (mc_project claim) r')
    (update_where (pop_hit claim (r_id r)) (claim_row claim now) rows)
  = Some (claim_row claim now r).
Proof.
  intros Hn Hr Hc. eapply (find_unique r_id).
  - by rewrite fmap_update_where.
  - apply elem_update_where. exists r. split; [done|].
    by rewrite (proj2 (pop_hit_true _ _ _) (conj eq_refl Hc)).
  - apply andb_true_iff. split; [by apply has_id_true|].
    unfold claimable in Hc. by apply andb_true_iff in Hc as [[? _]%andb_true_iff _].
  - intros r' [H _]%andb_true_iff. by apply has_id_true.
Qed.

Lemma pop_message_Ok f box claim specific_id now res box' :
  NoDup (r_id <$> messages box) →
  pop_message timestamp_ok order f box claim specific_id now = Ok (res, box') →
  match res with
  | None =>
      box' = box ∧ ∀ r, r ∈ messages box → claimable claim r = true →
                        ∃ id, specific_id = Some id ∧ r_id r ≠ id
  | Some am =>
      ∃ r, r ∈ messages box ∧ claimable claim r = true
           ∧ row_to_agent_message timestamp_ok (claim_row claim now r) = Ok am
           ∧ messages box' = update_where (pop_hit claim (r_id r)) (claim_row claim now) (messages box)
           ∧ (∀ id, specific_id = Some id → r_id r = id)
           ∧ (specific_id = None → ∀ r', r' ∈ messages box → claimable claim r' = true →
                                         oldest_first r' r = false)
  end.
Proof.
  intros Hn H. unfold pop_message in H. open_transaction. unfold pop_message_in_transaction in Hr0.
  assert (Htarget : ∃ target,
    match specific_id with
    | Some id => Ok (Some id)
    | None => statement f OsOldest (oldest_claimable order claim (messages box))
    end = Ok target ∧
    match target with
    | None => specific_id = None ∧ ∀ r, r ∈ messages box → claimable claim r = false
    | Some target =>
        (∀ id, specific_id = Some id → target = id)
        ∧ (specific_id = None → ∃ r, r ∈ messages box ∧ claimable claim r = true ∧ r_id r = target
             ∧ ∀ r', r' ∈ messages box → claimable claim r' = true → oldest_first r' r = false)
    end).
  { peel_ok. eexists. split; [eassumption|].
    destruct specific_id as [id|]; [injection Hr1 as <-; naive_solver|].
    apply statement_Ok in Hr1 as ->. unfold oldest_claimable.
    assert (StrictWeakOrder oldest_first).
    { split; unfold oldest_first; intros *; rewrite ?Z.ltb_lt, ?Z.ltb_ge; lia. }
    destruct (order oldest_first _) as [|r l] eqn:E; cbn.
    - split; [done|]. intros r Hr'. destruct (claimable claim r) eqn:Ec; [|done].
      assert (r ∈ List.filter (claimable claim) (messages box)) as Hin by by apply elem_filter.
      rewrite <- (order_perm (order:=order) oldest_first), E in Hin. by apply elem_of_nil in Hin.
    - destruct (order_head _ _ _ _ _ _ _ E) as [[? ?]%elem_filter Hmin].
      split; [done|]. intros _. exists r. repeat split; try done.
      intros r' ? ?. apply Hmin. by apply elem_filter. }
  destruct Htarget as (target & Et & Ht). rewrite Et in Hr0. cbn [result_bind] in Hr0.
  destruct target as [target|].
  2:{ open_transaction. split; [done|]. intros r Hr' Hc. by rewrite (proj2 Ht r Hr') in Hc. }
  change (λ r, has_id target r && claimable claim r) with (pop_hit claim target) in Hr0.
  open_transaction. destruct (existsb (pop_hit claim target) (messages box)) eqn:Ex; cbn [negb] in Hr0.
  - apply existsb_elem in Ex as (r & Hr' & [Hid Hc]%pop_hit_true). subst target.
    open_transaction. rewrite (proj2 (Nat.eqb_neq _ _)) in Hr0.
    2:{ apply count_where_pos. exists r. by rewrite pop_hit_true. }
    open_transaction. rewrite claim_row_found in Hr0 by done. open_transaction.
    exists r. repeat split; try done; [by apply Ht|].
    intros Hnone r' ? ?. destruct Ht as [_ Ht]. destruct (Ht Hnone) as (r0 & ? & ? & Hid & Hmin).
    rewrite (key_unique r_id _ r r0) by done. by apply Hmin.
  - open_transaction. split; [done|]. intros r Hr' Hc.
    assert (r_id r ≠ target) as Hne.
    { intros Hid. rewrite existsb_none in Ex. specialize (Ex r Hr').
      by rewrite (proj2 (pop_hit_true _ _ _) (conj Hid Hc)) in Ex. }
    destruct specific_id as [id|]; [exists id; split; [done|]; by rewrite <- (proj1 Ht id)|].
    destruct (proj2 Ht eq_refl) as (r0 & ? & ? & Hid & _).
    rewrite existsb_none in Ex. specialize (Ex r0 ltac:(done)).
    by rewrite (proj2 (pop_hit_true _ _ _)) in Ex.
Qed.
(** ** Histories *)

(** The mailboxes the writer reaches from an empty one, with what it was asked
    and replied, whatever the clock, the fresh ids and the faults were. *)
Inductive mail_history : History → Mailbox → Prop :=
  | history_start log : mail_history [] (mkMailbox [] log)
  | history_step h box t reply box' :
      mail_history h box → mail_step timestamp_ok order box t = (reply, box') →
      mail_history (h ++ [(t, reply)]) box'.

Lemma reply_of_Ok {A} box (rep : A → MailReply) r reply box' :
  reply_of box rep r = (reply, box') →
  (∃ a, r = Ok (a, box') ∧ reply = rep a) ∨ (∃ e, reply = RepError e ∧ box' = box).
Proof. destruct r as [[a b]|e]; intros [= <- <-]; [left|right]; eauto. Qed.

Lemma life_step_error id l t e : life_step id l t (RepError e) = l.
Proof. unfold life_step. by destruct (t_cmd t). Qed.

Lemma sim_ext rows lives lives' :
  (∀ id, lives id = lives' id) → sim rows lives → sim rows lives'.
Proof.
  intros Hext [Hn Hr Hl]. split; [done|..].
  - intros r H. rewrite <- Hext. by apply Hr.
  - intros id l. rewrite <- Hext. by apply Hl.
Qed.

(** A statement on one row, selected by its id and a condition on its life. *)
Lemma sim_one rows lives lives' (hit : MessageRow → bool) g (k : Life → Life) target :
  sim rows lives → (∀ r, r_id (g r) = r_id r) →
  (∀ r, hit r = true → r_id r = target) →
  (∃ r, r ∈ rows ∧ hit r = true) →
  (∀ r l, hit r = true → describes l r → describes (k l) (g r)) →
  (∀ id, lives' id = if decide (target = id) then k <$> lives id else lives id) →
  sim (update_where hit g rows) lives'.
Proof.
  intros Hs Hid Htarget (r0 & Hr0 & Hh0) Hk Hl. pose proof (Htarget r0 Hh0) as <-.
  eapply sim_update; [done..| |].
  - intros r l Hr Hlife Hd. rewrite Hl. destruct (hit r) eqn:Eh.
    + rewrite decide_True by (symmetry; auto). rewrite Hlife. exists (k l). auto.
    + rewrite decide_False; [by exists l|]. intros Heq.
      rewrite (key_unique r_id rows r0 r) in Hh0 by (done || apply Hs). congruence.
  - intros id Hnone. rewrite Hl, Hnone. by case_decide.
Qed.

Lemma describes_state l r s : describes l r → describes (in_state s l) (set_state s r).
Proof. by intros []. Qed.

Lemma describes_popped l r claim now :
  describes l r → describes (popped_life now l) (claim_row claim now r).
Proof. by intros []. Qed.

Lemma describes_finished l r replacement now :
  describes l r → describes (finished_life replacement l) (finish_row replacement now r).
Proof. by intros []; destruct replacement as [[]|]. Qed.

Lemma retractable_life l r ws pj specific_id :
  describes l r →
  match specific_id with Some id => has_id id r | None => true end
  && in_outbox ws pj r && is_state MsPending r = retractable ws pj specific_id (r_id r) l.
Proof.
  intros Hd. unfold retractable, in_outbox. f_equal.
  - rewrite (d_from_workspace _ _ Hd), (d_from_project _ _ Hd). done.
  - apply eq_true_iff_eq. by rewrite (is_state_life _ _ _ Hd), bool_decide_eq_true.
Qed.

(** One command: the rows go on matching the lives. *)
Lemma mail_step_sim box lives t reply box' :
  sim (messages box) lives → mail_step timestamp_ok order box t = (reply, box') →
  sim (messages box') (λ id, life_step id (lives id) t reply).
Proof.
  intros Hs H. unfold mail_step in H.
  destruct (t_cmd t) as [m|claim specific_id|ws pj specific_id|ws pj id|ws pj id replacement] eqn:Et;
    apply reply_of_Ok in H as [(a & H & ->)|(e & -> & ->)];
    try (eapply sim_ext; [|exact Hs]; intros ?; by rewrite life_step_error);
    unfold life_step; rewrite Et.
  - apply insert_message_Ok in H as (-> & -> & Hfresh & _). by apply sim_insert.
  - apply pop_message_Ok in H; [|apply Hs]. destruct a as [am|]; [|by destruct H as [-> _]].
    destruct H as (r & Hr & Hc & Hrow & -> & _).
    destruct (sim_row _ _ Hs r Hr) as (l & Hl & Hd).
    assert (Hid : am_id am = r_id r).
    { apply (row_message (popped_life (t_now t) l)) in Hrow; [by subst|].
      by apply describes_popped. }
    eapply (sim_one _ _ _ _ _ (popped_life (t_now t)) (r_id r)); [done|done| | | |].
    + by intros r' [-> _]%pop_hit_true.
    + exists r. by rewrite pop_hit_true.
    + intros r' l' _. apply describes_popped.
    + intros id. by rewrite Hid.
  - apply cancel_messages_Ok in H as [-> _]. eapply sim_update; [done|done| |].
    + intros r l Hr -> Hd. rewrite (retractable_life l) by done. cbn.
      eexists. split; [done|]. destruct (retractable _ _ _ _ _); [by apply describes_state|done].
    + by intros id ->.
  - apply begin_message_edit_Ok in H. destruct a as [am|]; [|by destruct H as [-> _]].
    destruct H as [-> Hhit]. eapply (sim_one _ _ _ _ _ (in_state MsEditing) id); [done|done| |done| |done].
    + by intros r [[?%has_id_true _]%andb_true_iff _]%andb_true_iff.
    + intros r l _. apply describes_state.
  - apply finish_message_edit_Ok in H as [-> ->].
    destruct (count_where _ (messages box)) as [|n] eqn:E.
    + cbn [Nat.ltb Nat.leb]. eapply sim_update; [done| | |done].
      { by intros r; destruct replacement as [[]|]. }
      intros r l Hr -> Hd. rewrite count_where_0 in E. rewrite (E r Hr). by exists l.
    + cbn [Nat.ltb Nat.leb].
      eapply (sim_one _ _ _ _ _ (finished_life replacement) id); [done| | | | |done].
      * by intros r; destruct replacement as [[]|].
      * by intros r [[?%has_id_true _]%andb_true_iff _]%andb_true_iff.
      * apply count_where_pos. by rewrite E.
      * intros r l _. apply describes_finished.
Qed.

Lemma history_sim h box : mail_history h box → sim (messages box) (λ id, life id h).
Proof.
  induction 1 as [log|h box t reply box' Hh IH Hstep].
  - split; [constructor|by intros r Hr%elem_of_nil|done].
  - eapply sim_ext; [|by eapply mail_step_sim]. intros id. by rewrite life_snoc.
Qed.
Lemma history_split pre t reply post box :
  mail_history (pre ++ (t, reply) :: post) box →
  ∃ box1 box2, mail_history pre box1 ∧ mail_step timestamp_ok order box1 t = (reply, box2).
Proof.
  revert box. induction post as [|e post IH] using rev_ind; intros box H.
  - inversion H as [? E|h box1 t' reply' box2 Hh Hs E]; [by destruct pre|].
    apply app_inj_tail in E as [-> [= -> ->]]. eauto.
  - rewrite app_comm_cons, app_assoc in H.
    inversion H as [? E|h box1 t' reply' box2 Hh Hs E]; [by destruct (pre ++ _)|].
    apply app_inj_tail in E as [-> _]. by eapply IH.
Qed.

Lemma life_sent id h l :
  life id h = Some l →
  ∃ t, (t, RepInserted id) ∈ h ∧ t_cmd t = CmdInsert (l_sent l) ∧ t_now t = l_sent_at l.
Proof.
  revert l. induction h as [|[t reply] h IH] using rev_ind; intros l H; [done|].
  rewrite life_snoc in H.
  assert (Hold : ∀ l0, life id h = Some l0 → l_sent l0 = l_sent l → l_sent_at l0 = l_sent_at l →
    ∃ t0, (t0, RepInserted id) ∈ h ++ [(t, reply)] ∧ t_cmd t0 = CmdInsert (l_sent l)
          ∧ t_now t0 = l_sent_at l).
  { intros l0 Hl0 Es Ea. destruct (IH l0 Hl0) as (t0 & Hin & Hc & Hn). exists t0.
    rewrite <- Es, <- Ea. repeat split; [|done|done]. apply elem_of_app. by left. }
  unfold life_step in H.
  destruct (t_cmd t) as [m|claim sp|ws pj sp|ws pj id'|ws pj id' [[su bo]|]] eqn:Et;
    destruct reply as [id0|[am|]|n|[am|]|[]|e]; try (by eapply Hold);
    repeat case_decide; subst;
    try (by eapply Hold); try (apply fmap_Some in H as (l0 & Hl0 & ->); by eapply Hold).
  - injection H as <-. exists t. repeat split; [|done]. apply elem_of_app. right. by left.
  - apply fmap_Some in H as (l0 & Hl0 & ->). destruct (retractable _ _ _ _ _); by eapply Hold.
Qed.

(** The moves a message can make, who makes them, and what they return. *)
Inductive moves (t : MailTurn) (reply : MailReply) (id : MessageId) : Life → Life → Prop :=
  | move_popped claim specific_id l :
      t_cmd t = CmdPop claim specific_id → waiting claim l →
      reply = RepPopped (Some (message_of id (popped_life (t_now t) l))) →
      moves t reply id l (popped_life (t_now t) l)
  | move_cancelled ws pj specific_id n l :
      t_cmd t = CmdCancel ws pj specific_id → (∀ id', specific_id = Some id' → id' = id) →
      nm_from_workspace (l_sent l) = ws → nm_from_project (l_sent l) = pj →
      l_state l = MsPending → reply = RepCancelled n →
      moves t reply id l (in_state MsCancelled l)
  | move_held ws pj l :
      t_cmd t = CmdBeginEdit ws pj id → addressed_to ws pj l → l_state l = MsPending →
      reply = RepEditBegun (Some (message_of id (in_state MsEditing l))) →
      moves t reply id l (in_state MsEditing l)
  | move_finished ws pj replacement l :
      t_cmd t = CmdFinishEdit ws pj id replacement → addressed_to ws pj l →
      l_state l = MsEditing → reply = RepEditFinished true →
      moves t reply id l (finished_life replacement l).

Lemma begin_message_edit_row f box ws pj id now am box' :
  NoDup (r_id <$> messages box) →
  begin_message_edit timestamp_ok f box ws pj id now = Ok (Some am, box') →
  ∃ r, r ∈ messages box ∧ has_id id r && in_inbox ws pj r && is_state MsPending r = true
       ∧ row_to_agent_message timestamp_ok (set_state MsEditing r) = Ok am.
Proof.
  intros Hn H. pose proof (begin_message_edit_Ok _ _ _ _ _ _ _ _ H) as [_ (r & Hr & Hhit)].
  unfold begin_message_edit in H. open_transaction.
  exists r. split; [done|]. split; [done|].
  destruct (count_where _ (messages box) =? 0); [open_transaction|]. open_transaction.
  pose proof Hhit as [[Hid%has_id_true _]%andb_true_iff _]%andb_true_iff.
  rewrite (find_unique r_id _ _ (set_state MsEditing r)) in H.
  - by open_transaction.
  - by rewrite fmap_update_where.
  - apply elem_update_where. exists r. by rewrite Hhit.
  - by apply has_id_true.
  - intros r' Hr'%has_id_true. by rewrite Hr'.
Qed.

(** Each step leaves a message alone or makes it take one of its moves. *)
Lemma step_moves h box t reply box' id l :
  mail_history h box → mail_step timestamp_ok order box t = (reply, box') →
  life id h = Some l →
  life_step id (Some l) t reply = Some l
  ∨ ∃ l', life_step id (Some l) t reply = Some l' ∧ moves t reply id l l'.
Proof.
  intros Hh H Hl. pose proof (history_sim _ _ Hh) as Hs. unfold mail_step in H.
  destruct (t_cmd t) as [m|claim sp|ws pj sp|ws pj id'|ws pj id' replacement] eqn:Et;
    apply reply_of_Ok in H as [(a & H & ->)|(e & -> & ->)];
    try (left; by rewrite life_step_error); unfold life_step; rewrite Et.
  - apply insert_message_Ok in H as (-> & _ & Hfresh & _). left. rewrite decide_False; [done|].
    intros <-. destruct (sim_life _ _ Hs _ _ Hl) as (r & Hr & Hid).
    specialize (Hfresh r Hr). by rewrite (proj2 (has_id_true _ _) Hid) in Hfresh.
  - apply pop_message_Ok in H; [|apply Hs]. destruct a as [am|]; [|by left].
    destruct H as (r & Hr & Hc & Hrow & _). destruct (sim_row _ _ Hs r Hr) as (l0 & Hl0 & Hd).
    apply (row_message (popped_life (t_now t) l0)) in Hrow; [|by apply describes_popped].
    subst am. change (am_id _) with (r_id r). case_decide as E; [|by left]. subst id. right.
    rewrite Hl in Hl0. injection Hl0 as <-. eexists. split; [done|].
    eapply move_popped; [done| |done]. by eapply claimable_life.
  - cbn. destruct (retractable ws pj sp id l) eqn:E; [right|by left].
    eexists. split; [done|]. unfold retractable in E.
    apply andb_true_iff in E as [[Es E]%andb_true_iff Ep%bool_decide_eq_true].
    apply andb_true_iff in E as [?%bool_decide_eq_true ?%bool_decide_eq_true].
    eapply move_cancelled; [done| |done..]. intros id' ->. by apply bool_decide_eq_true in Es.
  - destruct a as [am|]; [|by left]. case_decide as E; [subst id'|by left]. right.
    apply begin_message_edit_row in H as (r & Hr & Hhit & Hrow); [|apply Hs].
    apply andb_true_iff in Hhit as [[Hid%has_id_true Hin]%andb_true_iff Hp].
    destruct (sim_row _ _ Hs r Hr) as (l0 & Hl0 & Hd). rewrite Hid, Hl in Hl0. injection Hl0 as <-.
    eexists. split; [done|]. eapply move_held; [done|by eapply in_inbox_life|by eapply is_state_life|].
    apply (row_message (in_state MsEditing l)) in Hrow; [|by apply describes_state].
    subst am. by cbn; rewrite Hid.
  - destruct a; [|by left]. case_decide as E; [subst id'|by left]. right.
    apply finish_message_edit_Ok in H as [_ Hpos].
    assert (Hhit : ∃ r, r ∈ messages box ∧ has_id id r && in_inbox ws pj r && is_state MsEditing r = true).
    { apply count_where_pos. symmetry in Hpos. apply Nat.ltb_lt in Hpos. lia. }
    destruct Hhit as (r & Hr & [[Hid%has_id_true Hin]%andb_true_iff Hp]%andb_true_iff).
    destruct (sim_row _ _ Hs r Hr) as (l0 & Hl0 & Hd). rewrite Hid, Hl in Hl0. injection Hl0 as <-.
    eexists. split; [done|]. eapply move_finished; [done|by eapply in_inbox_life|by eapply is_state_life|done].
Qed.
(** A pop that returns a message returns a waiting one. *)
Lemma pop_message_life h box f claim specific_id now res box' :
  mail_history h box →
  pop_message timestamp_ok order f box claim specific_id now = Ok (res, box') →
  match res with
  | None =>
      box' = box ∧ ∀ id l, life id h = Some l → waiting claim l →
                           ∃ id', specific_id = Some id' ∧ id ≠ id'
  | Some am =>
      ∃ l, life (am_id am) h = Some l ∧ waiting claim l
           ∧ am = message_of (am_id am) (popped_life now l)
           ∧ (∀ id, specific_id = Some id → am_id am = id)
           ∧ (specific_id = None → ∀ id' l', life id' h = Some l' → waiting claim l' →
                                             (l_sent_at l ≤ l_sent_at l')%Z)
  end.
Proof.
  intros Hh H. pose proof (history_sim _ _ Hh) as Hs. apply pop_message_Ok in H; [|apply Hs].
  destruct res as [am|].
  - destruct H as (r & Hr & Hc & Hrow & _ & Hspec & Hmin).
    destruct (sim_row _ _ Hs r Hr) as (l & Hl & Hd).
    apply (row_message (popped_life now l)) in Hrow; [|by apply describes_popped]. subst am.
    change (am_id _) with (r_id r). exists l. repeat split; [done|by eapply claimable_life..|done|].
    intros Hnone id' l' Hl' Hw. destruct (sim_find _ _ _ _ Hs Hl') as (r' & Hr' & _ & Hd').
    specialize (Hmin Hnone r' Hr' (proj2 (claimable_life _ _ _ Hd') Hw)).
    unfold oldest_first in Hmin. rewrite (d_created _ _ Hd), (d_created _ _ Hd') in Hmin. lia.
  - destruct H as [-> H]. split; [done|]. intros id l Hl Hw.
    destruct (sim_find _ _ _ _ Hs Hl) as (r & Hr & <- & Hd).
    apply (H r Hr). by eapply claimable_life.
Qed.

Definition popped_ids (h : History) : list MessageId :=
  omap (λ e, match snd e with RepPopped (Some am) => Some (am_id am) | _ => None end) h.

Lemma popped_step h box t am box' :
  mail_history h box → mail_step timestamp_ok order box t = (RepPopped (Some am), box') →
  ∃ claim specific_id l,
    t_cmd t = CmdPop claim specific_id ∧ life (am_id am) h = Some l ∧ waiting claim l
    ∧ am = message_of (am_id am) (popped_life (t_now t) l).
Proof.
  intros Hh H. unfold mail_step in H.
  destruct (t_cmd t) as [m|claim sp|ws pj sp|ws pj id'|ws pj id' replacement] eqn:Et;
    apply reply_of_Ok in H as [(a & H & [=])|(e & [=] & _)]. subst a.
  apply (pop_message_life h) in H; [|done]. destruct H as (l & ? & ? & ? & _).
  by exists claim, sp, l.
Qed.

Lemma popped_claimed h box id :
  mail_history h box → id ∈ popped_ids h → ∃ l, life id h = Some l ∧ l_state l = MsClaimed.
Proof.
  induction 1 as [log|h box t reply box' Hh IH Hstep]; [by intros ?%elem_of_nil|].
  unfold popped_ids. rewrite omap_app, elem_of_app, life_snoc. intros [Hid|Hid].
  - destruct (IH Hid) as (l & Hl & Hc). rewrite Hl.
    destruct (step_moves _ _ _ _ _ _ _ Hh Hstep Hl) as [->|(l' & -> & Hm)]; [by exists l|].
    exfalso. destruct Hm as [? ? ? ? [? _]| | |]; congruence.
  - cbn in Hid. destruct reply as [|[am|]| | | |]; try by apply elem_of_nil in Hid.
    apply list_elem_of_singleton in Hid as ->.
    destruct (popped_step _ _ _ _ _ Hh Hstep) as (claim & sp & l & Et & Hl & _ & _).
    rewrite Hl. unfold life_step. rewrite Et. cbn. rewrite decide_True by done.
    by exists (popped_life (t_now t) l).
Qed.

(** C13. The mailbox delivers at most once and to the right place: in every
    history of the writer, whatever ids, times and faults it meets, no message
    is popped twice; and a popped message was sent before to the project that
    pops it, for its agent or for any, was waiting there (neither popped,
    retracted nor held for an edit), and is returned with the sender recorded
    when it was sent and the text that was stored last. *)
Theorem message_delivered_once h box :
  mail_history h box →
  NoDup (popped_ids h)
  ∧ ∀ pre t am post, h = pre ++ (t, RepPopped (Some am)) :: post →
    ∃ claim specific_id l t0,
      t_cmd t = CmdPop claim specific_id
      ∧ life (am_id am) pre = Some l ∧ waiting claim l
      ∧ am = message_of (am_id am) (popped_life (t_now t) l)
      ∧ (t0, RepInserted (am_id am)) ∈ pre ∧ t_cmd t0 = CmdInsert (l_sent l).
Proof.
  intros Hh. split.
  - induction Hh as [log|h box t reply box' Hh IH Hstep]; [constructor|].
    unfold popped_ids. rewrite omap_app. apply NoDup_app. split; [done|].
    destruct reply as [|[am|]| | | |]; cbn; (split; [|first [apply NoDup_singleton|constructor]]);
      try (intros y _ Hid; by apply elem_of_nil in Hid).
    intros id Hid ->%list_elem_of_singleton.
    destruct (popped_claimed _ _ _ Hh Hid) as (l & Hl & Hc).
    destruct (popped_step _ _ _ _ _ Hh Hstep) as (claim & sp & l' & _ & Hl' & [Hp _] & _). congruence.
  - intros pre t am post ->. apply history_split in Hh as (box1 & box2 & Hh & Hstep).
    destruct (popped_step _ _ _ _ _ Hh Hstep) as (claim & sp & l & Et & Hl & Hw & Ham).
    destruct (life_sent _ _ _ Hl) as (t0 & Hin & Hc & _). by exists claim, sp, l, t0.
Qed.
(** Without faults a pop that reads representable times does not fail. *)
Lemma pop_succeeds h box claim specific_id now :
  mail_history h box →
  validate_identity_storage_key (mc_user claim) "message recipient" = Ok tt →
  (∀ id l, life id h = Some l → timestamp_ok (l_sent_at l) = true) → timestamp_ok now = true →
  is_ok (pop_message timestamp_ok order no_faults box claim specific_id now) = true.
Proof.
  intros Hh Hv Ht Hnow. pose proof (history_sim _ _ Hh) as Hs.
  unfold pop_message, pop_message_in_transaction. rewrite Hv.
  cbn [statement no_faults result_bind].
  set (target := match specific_id with Some id => Ok (Some id) | None => _ end).
  assert (∃ o, target = Ok o) as [[id|] ->] by (unfold target; destruct specific_id; eauto);
    cbn [result_bind]; [|done].
  change (λ r, has_id id r && claimable claim r) with (pop_hit claim id).
  destruct (existsb (pop_hit claim id) (messages box)) eqn:Ex; cbn [negb result_bind]; [|done].
  apply existsb_elem in Ex as (r & Hr & [<- Hc]%pop_hit_true).
  cbv zeta. destruct (count_where _ _ =? 0); [done|].
  unfold audit, audit_with_detail. cbn [statement no_faults result_bind].
  rewrite claim_row_found by (done || apply Hs).
  destruct (sim_row _ _ Hs r Hr) as (l & Hl & Hd).
  destruct (row_message (popped_life now l) (claim_row claim now r)) as [_ Hrow];
    [by apply describes_popped|].
  rewrite Hrow; [done|]. split; [exact (Ht _ _ Hl)|]. by intros at_ [= <-].
Qed.

(** A pop is exact: it returns a message waiting for the claim (the named
    one if one is named, otherwise one of the oldest) and no message only when
    none is waiting (or not the named one), in which case nothing changes; and
    it fails only for a malformed operator key, a failing statement or an
    unrepresentable time. *)
Theorem pop_takes_oldest_waiting h box claim specific_id now :
  mail_history h box →
  (∀ f res box',
     pop_message timestamp_ok order f box claim specific_id now = Ok (res, box') →
     match res with
     | Some am =>
         ∃ l, life (am_id am) h = Some l ∧ waiting claim l
              ∧ am = message_of (am_id am) (popped_life now l)
              ∧ (∀ id, specific_id = Some id → am_id am = id)
              ∧ (specific_id = None → ∀ id' l', life id' h = Some l' → waiting claim l' →
                                                (l_sent_at l ≤ l_sent_at l')%Z)
     | None =>
         box' = box ∧ ∀ id l, life id h = Some l → waiting claim l →
                              ∃ id', specific_id = Some id' ∧ id ≠ id'
     end)
  ∧ (validate_identity_storage_key (mc_user claim) "message recipient" = Ok tt →
     (∀ id l, life id h = Some l → timestamp_ok (l_sent_at l) = true) → timestamp_ok now = true →
     is_ok (pop_message timestamp_ok order no_faults box claim specific_id now) = true).
Proof.
  intros Hh. split.
  - intros f res box'. by apply pop_message_life.
  - by apply pop_succeeds.
Qed.

(** ** Reading a mailbox *)

(** A project sees what is addressed to it or what it sent. *)
Definition on_side (mailbox : MessageBox) (ws : WorkspaceId) (pj : ProjectId) (l : Life) : Prop :=
  match mailbox with
  | Inbox => addressed_to ws pj l
  | Outbox => nm_from_workspace (l_sent l) = ws ∧ nm_from_project (l_sent l) = pj
  end.

Lemma box_row_life l r mailbox ws pj :
  describes l r → box_row mailbox ws pj r = true ↔ on_side mailbox ws pj l.
Proof.
  intros Hd. destruct mailbox; cbn; [by apply in_inbox_life|].
  unfold in_outbox. by rewrite andb_true_iff, !bool_decide_eq_true, (d_from_workspace _ _ Hd),
    (d_from_project _ _ Hd).
Qed.

Lemma elem_read_rows rows msgs am :
  read_rows timestamp_ok rows = Ok msgs → am ∈ msgs →
  ∃ r, r ∈ rows ∧ row_to_agent_message timestamp_ok r = Ok am.
Proof.
  revert msgs. induction rows as [|r rows IH]; intros msgs H Ham; cbn [read_rows] in H.
  - peel_ok. subst. by apply elem_of_nil in Ham.
  - peel_ok. subst. apply elem_of_cons in Ham as [->|Ham].
    + exists r. split; [by left|done].
    + destruct (IH _ Hr0 Ham) as (r' & ? & ?). exists r'. split; [by right|done].
Qed.

Lemma message_of_row h box r am :
  mail_history h box → r ∈ messages box → row_to_agent_message timestamp_ok r = Ok am →
  ∃ l, life (am_id am) h = Some l ∧ am = message_of (am_id am) l ∧ describes l r.
Proof.
  intros Hh Hr Hrow. destruct (sim_row _ _ (history_sim _ _ Hh) r Hr) as (l & Hl & Hd).
  apply (row_message l) in Hrow; [|done]. subst am. by exists l.
Qed.

(** Every read returns messages of the named side of the named project, as
    their lives describe them. *)
Lemma mailbox_reads_scoped h box ws pj mailbox am :
  mail_history h box →
  (∀ f limit msgs, list_messages timestamp_ok order f box ws pj mailbox limit = Ok msgs → am ∈ msgs →
     ∃ l, life (am_id am) h = Some l ∧ am = message_of (am_id am) l ∧ on_side mailbox ws pj l
          ∧ l_state l = MsPending)
  ∧ (∀ f state limit offset msgs,
       message_history_filtered timestamp_ok order f box ws pj mailbox state limit offset = Ok msgs →
       am ∈ msgs →
       ∃ l, life (am_id am) h = Some l ∧ am = message_of (am_id am) l ∧ on_side mailbox ws pj l
            ∧ (∀ s, state = Some s → l_state l = s))
  ∧ (∀ f id, message_in_mailbox timestamp_ok f box ws pj id = Ok (Some am) →
       am_id am = id ∧ ∃ l, life id h = Some l ∧ am = message_of id l ∧ addressed_to ws pj l).
Proof.
  intros Hh. split_and!.
  - intros f limit msgs H Ham. unfold list_messages in H. open_transaction.
    destruct (elem_read_rows _ _ _ H Ham) as (r & Hr & Hrow).
    apply elem_of_take in Hr as (i & Hr%list_elem_of_lookup_2 & _).
    assert (Hswo : StrictWeakOrder oldest_first).
    { split; unfold oldest_first; intros *; rewrite ?Z.ltb_lt, ?Z.ltb_ge; lia. }
    rewrite (order_perm (order:=order) oldest_first) in Hr.
    apply elem_filter in Hr as [Hr [Hside Hp]%andb_true_iff].
    destruct (message_of_row _ _ _ _ Hh Hr Hrow) as (l & ? & ? & Hd). exists l.
    repeat split; try done; [by eapply box_row_life|by eapply is_state_life].
  - intros f state limit offset msgs H Ham. unfold message_history_filtered in H. open_transaction.
    destruct (elem_read_rows _ _ _ H Ham) as (r & Hr & Hrow).
    apply elem_of_take in Hr as (i & Hr & _). rewrite lookup_drop in Hr.
    apply list_elem_of_lookup_2 in Hr.
    assert (Hswo : StrictWeakOrder newest_first).
    { split; unfold newest_first; intros *; lia. }
    rewrite (order_perm (order:=order) newest_first) in Hr.
    apply elem_filter in Hr as [Hr [Hside Hp]%andb_true_iff].
    destruct (message_of_row _ _ _ _ Hh Hr Hrow) as (l & ? & ? & Hd). exists l.
    repeat split; try done; [by eapply box_row_life|].
    intros s ->. by eapply is_state_life.
  - intros f id H. unfold message_in_mailbox in H. open_transaction.
    destruct (List.find _ _) as [r|] eqn:E; [|done]. open_transaction.
    apply List.find_some in E as [Hin%list_elem_of_In [Hid%has_id_true Hbox]%andb_true_iff].
    destruct (message_of_row _ _ _ _ Hh Hin Hr) as (l & Hl & Ham & Hd).
    apply (row_message l) in Hr; [|done].
    assert (Hid' : am_id am = id) by (rewrite Hr; exact Hid).
    split; [done|]. rewrite Hid' in *. exists l. do 2 (split; [done|]).
    by apply (in_inbox_life l r).
Qed.

(** ** The bound on an inbox *)

Lemma count_update_le {A} (p hit : A → bool) g (rows : list A) :
  (∀ r, hit r = true → p (g r) = true → p r = true) →
  count_where p (update_where hit g rows) ≤ count_where p rows.
Proof.
  intros Hg. unfold count_where, update_where. induction rows as [|r rows IH]; [done|]. cbn.
  destruct (hit r) eqn:Eh; [|destruct (p r); simpl; lia].
  destruct (p (g r)) eqn:Ep; [rewrite (Hg r) by done; simpl; lia|destruct (p r); simpl; lia].
Qed.

Lemma count_update_add {A} (p hit : A → bool) g (rows : list A) :
  count_where p (update_where hit g rows) ≤ count_where p rows + count_where hit rows.
Proof.
  unfold count_where, update_where. induction rows as [|r rows IH]; [done|]. cbn.
  destruct (hit r) eqn:Eh; destruct (p r), (p (g r)); simpl; lia.
Qed.

Definition finished_edits (h : History) : nat :=
  count_where (λ e, match snd e with RepEditFinished true => true | _ => false end) h.

Lemma not_pending_in ws pj r : r_state r ≠ "pending" → pending_in ws pj r = true → False.
Proof.
  intros Hne H. unfold pending_in in H. apply andb_true_iff in H as [_ H].
  by apply bool_decide_eq_true in H.
Qed.

(** A send is refused by a full inbox, so no send takes an inbox past 256
    pending messages; a finished edit returns its message unconditionally, and
    the bound is exceeded by at most the number of finished edits. *)
Lemma inbox_bounded h box ws pj :
  mail_history h box →
  pending_count ws pj (messages box) ≤ MAX_PENDING_INBOX_MESSAGES + finished_edits h.
Proof.
  induction 1 as [log|h box t reply box' Hh IH Hstep]; [apply Nat.le_0_l|].
  pose proof (history_sim _ _ Hh) as Hs.
  assert (Hf : finished_edits h ≤ finished_edits (h ++ [(t, reply)])).
  { unfold finished_edits. rewrite count_where_app. lia. }
  unfold pending_count in *. unfold mail_step in Hstep.
  destruct (t_cmd t) as [m|claim sp|ws' pj' sp|ws' pj' id|ws' pj' id replacement];
    apply reply_of_Ok in Hstep as [(a & H & ->)|(e & -> & ->)]; try lia.
  - apply insert_message_Ok in H as (_ & -> & _ & Hlt & _). rewrite count_where_app.
    assert (Hone : count_where (pending_in ws pj) [new_row m (t_id t) (t_now t)]
                   = if pending_in ws pj (new_row m (t_id t) (t_now t)) then 1 else 0).
    { unfold count_where. cbn [List.filter]. by destruct (pending_in ws pj _). }
    rewrite Hone. destruct (pending_in ws pj (new_row _ _ _)) eqn:E; [|lia].
    unfold pending_in in E. apply andb_true_iff in E as [E _]. unfold in_inbox in E.
    apply andb_true_iff in E as [Ew%bool_decide_eq_true Ep%bool_decide_eq_true].
    cbn in Ew, Ep. subst ws pj. unfold pending_count in Hlt. lia.
  - apply pop_message_Ok in H; [|apply Hs]. destruct a as [am|]; [|destruct H as [-> _]; lia].
    destruct H as (r & _ & _ & _ & -> & _). etrans; [apply count_update_le|lia].
    intros r' _ Hp. by apply not_pending_in in Hp.
  - apply cancel_messages_Ok in H as [-> _]. etrans; [apply count_update_le|lia].
    intros r' _ Hp. by apply not_pending_in in Hp.
  - apply begin_message_edit_Ok in H. destruct a as [am|]; [|destruct H as [-> _]; lia].
    destruct H as [-> _]. etrans; [apply count_update_le|lia].
    intros r' _ Hp. by apply not_pending_in in Hp.
  - apply finish_message_edit_Ok in H as [-> ->].
    set (hit := λ r, has_id id r && in_inbox ws' pj' r && is_state MsEditing r).
    etrans; [apply count_update_add|]. fold hit.
    unfold finished_edits in *. rewrite count_where_app in *.
    assert (Hu : count_where hit (messages box) ≤ 1).
    { destruct (count_where hit (messages box)) eqn:E; [lia|].
      destruct (proj1 (count_where_pos hit (messages box))) as (r & Hr & Hhit); [lia|].
      rewrite (count_unique r_id hit _ r) in E; [lia|apply Hs|done|done|].
      unfold hit in *. intros r' [[->%has_id_true _]%andb_true_iff _]%andb_true_iff.
      by apply andb_true_iff in Hhit as [[->%has_id_true _]%andb_true_iff _]. }
    destruct (count_where hit (messages box)) as [|[|n]]; [lia| |lia].
    change (count_where _ [(t, RepEditFinished (0 <? 1))]) with 1. lia.
Qed.

Lemma mail_run_history h box turns replies box' :
  mail_history h box → mail_run timestamp_ok order box turns = (replies, box') →
  mail_history (h ++ zip turns replies) box'.
Proof.
  revert h box replies. induction turns as [|t turns IH]; intros h box replies Hh H; cbn [mail_run] in H.
  - injection H as <- <-. by rewrite app_nil_r.
  - destruct (mail_step _ _ _ _) as [reply box1] eqn:E.
    destruct (mail_run _ _ box1 turns) as [replies' final] eqn:Er. injection H as <- <-.
    cbn [zip_with]. change ((t, reply) :: zip turns replies') with ([(t, reply)] ++ zip turns replies').
    rewrite app_assoc. eapply IH; [|done]. by eapply history_step.
Qed.
End Facts.

(** ** A concrete history *)

Definition any_time (_ : Z) : bool := true.
Definition sorted_rows : OrderBy MessageRow := λ lt rows, sort_by_key id lt rows.

Definition demo_message (body : string) : NewAgentMessage :=
  mkNewAgentMessage 1%N 10%N Codex None None 1%N 20%N (Some ClaudeCode) None (lit body)
    NatureUnknown None.

Definition demo_claim : MessageClaim := mkMessageClaim 1%N 20%N ClaudeCode None None.

(** Two messages; the older one is held, corrected and put back; two pops. *)
Definition demo_turns : list MailTurn :=
  [mkMailTurn (CmdInsert (demo_message "fix the build")) 7%N 100 no_faults;
   mkMailTurn (CmdInsert (demo_message "ship it")) 8%N 200 no_faults;
   mkMailTurn (CmdBeginEdit 1%N 20%N 7%N) 0%N 300 no_faults;
   mkMailTurn (CmdFinishEdit 1%N 20%N 7%N (Some (None, lit "fix the tests"))) 0%N 400 no_faults;
   mkMailTurn (CmdPop demo_claim None) 0%N 500 no_faults;
   mkMailTurn (CmdPop demo_claim (Some 7%N)) 0%N 600 no_faults].

Definition demo_run : list MailReply * Mailbox :=
  mail_run any_time sorted_rows empty_mailbox demo_turns.

Definition demo_history : History := zip demo_turns (fst demo_run).

Lemma demo_is_history : mail_history any_time sorted_rows demo_history (snd demo_run).
Proof.
  apply (mail_run_history any_time sorted_rows [] empty_mailbox demo_turns).
  - apply history_start.
  - unfold demo_run. by destruct (mail_run _ _ _ _).
Qed.

Lemma message_delivered_once_witness :
  popped_ids demo_history = [7%N] ∧ NoDup (popped_ids demo_history)
  ∧ ∃ l, life 7%N (take 4 demo_history) = Some l ∧ waiting demo_claim l
         ∧ l_body l = lit "fix the tests".
Proof.
  split; [by vm_compute|]. destruct (message_delivered_once _ _ _ _ demo_is_history) as [Hn Hp].
  split; [done|].
  destruct (Hp (take 4 demo_history) (mkMailTurn (CmdPop demo_claim None) 0%N 500 no_faults)
              (message_of 7%N (popped_life 500 (finished_life (Some (None, lit "fix the tests"))
                 (sent_life (demo_message "fix the build") 100))))
              (drop 5 demo_history)) as (claim & sp & l & t0 & Et & Hl & Hw & Ham & _).
  - by vm_compute.
  - exists l. change (am_id (message_of 7%N _)) with 7%N in Hl. split; [done|].
    assert (Hc : Some claim = Some demo_claim).
    { by vm_compute in Et; injection Et as <- _. }
    injection Hc as ->. split; [done|].
    apply (f_equal am_body) in Ham. exact (eq_sym Ham).
Defined.

Lemma pop_takes_oldest_waiting_witness :
  is_ok (pop_message any_time sorted_rows no_faults (snd demo_run) demo_claim None 700) = true.
Proof.
  apply (proj2 (pop_takes_oldest_waiting any_time sorted_rows _ _ demo_claim None 700 demo_is_history));
    done.
Defined.

(** ** The bound is not kept by edits

    256 messages, one of them held; another is sent in the room it leaves, and
    the held one is released: 257 messages are pending. *)
Definition overfill_turns : list MailTurn :=
  ((λ n, mkMailTurn (CmdInsert (demo_message "x")) (N.of_nat n) 0 no_faults) <$> seq 0 256)
  ++ [mkMailTurn (CmdBeginEdit 1%N 20%N 0%N) 0%N 0 no_faults;
      mkMailTurn (CmdInsert (demo_message "x")) 256%N 0 no_faults;
      mkMailTurn (CmdFinishEdit 1%N 20%N 0%N None) 0%N 0 no_faults].

Lemma edit_overfills_inbox :
  pending_count 1%N 20%N
    (messages (snd (mail_run any_time sorted_rows empty_mailbox overfill_turns))) = 257.
Proof. vm_compute. reflexivity. Qed.
