(* ===== verification/Handoffs.v ===== *)
(** * Handoffs between sessions

    Models the handoff transactions of [crates/ai-memory-store/src/ops.rs]
    (publish, checkpoint, end of session, accept, release, cancel, expire)
    with the selection of a handoff in reader.rs and the types of
    [crates/ai-memory-core/src/handoff.rs], over the rows of [handoffs],
    [sessions] and [observations].  Fresh ids, the clock, serde_json's reader and
    printer of string lists, the times jiff accepts and SQLite's order of rows with equal keys are arguments; a path is its text. *)

From S2P Require Export OpsBase.
Open Scope nat_scope.
Open Scope rust_scope.

Definition HandoffId := N.
Definition ObservationId := N.
Definition PageId := N.

(** ** Types *)

Inductive HandoffState := HsOpen | HsAccepted | HsExpired.

#[export] Instance handoff_state_eq_dec : EqDecision HandoffState.
Proof. solve_decision. Defined.

Definition HandoffState_as_str (s : HandoffState) : string :=
  match s with HsOpen => "open" | HsAccepted => "accepted" | HsExpired => "expired" end.

Definition HandoffState_from_str (s : string) : result HandoffState OpsError :=
  if decide (s = "open") then Ok HsOpen
  else if decide (s = "accepted") then Ok HsAccepted
  else if decide (s = "expired") then Ok HsExpired
  else Err (OpsMalformed ("unknown handoff state: " +:+ s)).

Record NewHandoff := mkNewHandoff {
  nh_workspace : WorkspaceId;
  nh_project : ProjectId;
  nh_from_session : option SessionId;
  nh_from_agent : AgentKind;
  nh_to_agent : option AgentKind;
  nh_cwd : option bytes;
  nh_summary : bytes;
  nh_open_questions : list bytes;
  nh_next_steps : list bytes;
  nh_files_touched : list bytes;
  nh_owner_user : option bytes;
}.

Record HandoffAcceptance := mkHandoffAcceptance {
  ha_id : HandoffId;
  ha_workspace : WorkspaceId;
  ha_project : ProjectId;
  ha_agent : AgentKind;
  ha_session : option SessionId;
  ha_user : option bytes;
  ha_filter : OwnerFilter;
  ha_cwd : option bytes;
}.

(** A row of [handoffs]; the lists are stored as JSON. *)
Record HandoffRow := mkHandoffRow {
  h_id : HandoffId;
  h_workspace : WorkspaceId;
  h_project : ProjectId;
  h_from_session : option SessionId;
  h_from_agent : string;
  h_to_agent : option string;
  h_cwd : option bytes;
  h_summary : bytes;
  h_open_questions : bytes;
  h_next_steps : bytes;
  h_files_touched : bytes;
  h_state : string;
  h_created_at : Z;
  h_accepted_by : option string;
  h_accepted_at : option Z;
  h_accepted_by_session : option SessionId;
  h_owner_user : option bytes;
  h_accepted_by_user : option bytes;
}.

(** A row of [sessions]. *)
Record SessionRow := mkSessionRow {
  s_id : SessionId;
  s_workspace : WorkspaceId;
  s_project : ProjectId;
  s_agent_kind : string;
  s_cwd : option bytes;
  s_started_at : Z;
  s_actor_user : option bytes;
  s_ended_at : option Z;
  s_summary_page : option PageId;
  s_ended_observation_count : nat;
}.

(** A row of [observations]. *)
Record ObservationRow := mkObservationRow {
  o_id : ObservationId;
  o_session : SessionId;
  o_workspace : WorkspaceId;
  o_project : ProjectId;
  o_kind : string;
  o_extension : option bytes;
  o_source_event : option bytes;
  o_title : bytes;
  o_body : bytes;
  o_importance : Z;
  o_created_at : Z;
  o_file_path : option bytes;
}.

(** Real work: [SUBSTANTIVE_OBSERVATION_KIND_SQL]. *)
Definition o_substantive (o : ObservationRow) : bool :=
  bool_decide (o_kind o ∈ ["user-prompt"; "pre-tool-use"; "post-tool-use"]%string).

Record HandoffDb := mkHandoffDb {
  sessions : list SessionRow;
  observations : list ObservationRow;
  handoffs : list HandoffRow;
  handoff_log : list OpsAudit;
}.

Definition with_handoffs (d : HandoffDb) (rows : list HandoffRow) (log : list OpsAudit) : HandoffDb :=
  mkHandoffDb (sessions d) (observations d) rows log.

Definition with_sessions (d : HandoffDb) (rows : list SessionRow) : HandoffDb :=
  mkHandoffDb rows (observations d) (handoffs d) (handoff_log d).

(** ** Working directories *)

Definition slash : ascii := "/"%char.
Definition backslash : ascii := "\"%char.

Definition is_ascii_alphabetic (a : ascii) : bool := byte_in 65 90 a || byte_in 97 122 a.

Definition is_windows_style_path (path : bytes) : bool :=
  match path with
  | a :: b :: _ =>
      (is_ascii_alphabetic a && Ascii.eqb b ":"%char) || (Ascii.eqb a slash && Ascii.eqb b slash)
  | _ => false
  end.

Definition normalize_cwd (p : bytes) : bytes :=
  let replaced := (λ a, if Ascii.eqb a backslash then slash else a) <$> p in
  let trimmed := drop_end_while (Ascii.eqb slash) replaced in
  let core := match trimmed with [] => [slash] | _ => trimmed end in
  if is_windows_style_path core then to_ascii_lowercase core else core.

Definition cwd_within (ancestor descendant : bytes) : bool :=
  let a := normalize_cwd ancestor in
  let d := normalize_cwd descendant in
  if bool_decide (a = d) then true
  else if bool_decide (a = [slash])
  then match d with x :: _ :: _ => Ascii.eqb x slash | _ => false end
  else match strip_prefix a d with
       | Some (x :: _) => Ascii.eqb x slash
       | _ => false
       end.

Definition auto_handoff_matches_cwd (handoff_cwd cwd_filter : option bytes) : bool :=
  match cwd_filter, handoff_cwd with
  | None, _ => true
  | _, None => true
  | Some session_cwd, Some handoff_cwd => cwd_within handoff_cwd session_cwd
  end.

(** ** Which of two handoffs is delivered *)

Record SelectionKey := mkSelectionKey {
  sk_manual : bool;
  sk_created_at : Z;
  sk_specificity : nat;
  sk_id : HandoffId;
}.

Definition handoff_selection_key (manual : bool) (created_at : Z) (cwd : option bytes)
    (id : HandoffId) : SelectionKey :=
  mkSelectionKey manual created_at
    (if manual then 0 else match cwd with Some cwd => length (normalize_cwd cwd) | None => 0 end) id.

(** The order of the tuples: each part decides when the ones before are
    equal; the bytes of an id compare as the number they spell. *)
Definition selection_lt (a b : SelectionKey) : bool :=
  if bool_decide (sk_manual a = sk_manual b) then
    if (sk_created_at a =? sk_created_at b)%Z then
      if sk_specificity a =? sk_specificity b then (sk_id a <? sk_id b)%N
      else sk_specificity a <? sk_specificity b
    else (sk_created_at a <? sk_created_at b)%Z
  else negb (sk_manual a).

(** ** The conditions of the statements *)

Definition is_handoff_state (s : HandoffState) (r : HandoffRow) : bool :=
  bool_decide (h_state r = HandoffState_as_str s).

Definition in_scope (ws : WorkspaceId) (pj : ProjectId) (r : HandoffRow) : bool :=
  bool_decide (h_workspace r = ws) && bool_decide (h_project r = pj).

Definition is_handoff (id : HandoffId) (r : HandoffRow) : bool := bool_decide (h_id r = id).

Definition automatic (r : HandoffRow) : bool := bool_decide (is_Some (h_from_session r)).

(** [owner_clause]: the owner part of a [WHERE]. *)
Definition owner_clause (filter : OwnerFilter) (r : HandoffRow) : bool :=
  match filter, h_owner_user r with
  | AnyOwner, _ => true
  | FilterUser user, Some owner => bool_decide (owner = user)
  | FilterUser _, None => true
  | Unattributed, owner => bool_decide (owner = None)
  end.

(** [EXISTS (SELECT 1 FROM sessions ... ended_at IS NULL)]. *)
Definition session_open (d : HandoffDb) (id : SessionId) : bool :=
  existsb (λ s, bool_decide (s_id s = id) && bool_decide (s_ended_at s = None)) (sessions d).

(** The source of the handoff is still open. *)
Definition source_open (d : HandoffDb) (r : HandoffRow) : bool :=
  match h_from_session r with Some id => session_open d id | None => false end.

(** And captured something after the cutoff. *)
Definition session_busy (d : HandoffDb) (since : Z) (id : SessionId) : bool :=
  session_open d id
  && existsb (λ o, bool_decide (o_session o = id) && (since <? o_created_at o)%Z) (observations d).

Definition source_busy (d : HandoffDb) (since : Z) (r : HandoffRow) : bool :=
  match h_from_session r with Some id => session_busy d since id | None => false end.

Definition set_handoff_state (s : HandoffState) (r : HandoffRow) : HandoffRow :=
  mkHandoffRow (h_id r) (h_workspace r) (h_project r) (h_from_session r) (h_from_agent r)
    (h_to_agent r) (h_cwd r) (h_summary r) (h_open_questions r) (h_next_steps r)
    (h_files_touched r) (HandoffState_as_str s) (h_created_at r) (h_accepted_by r)
    (h_accepted_at r) (h_accepted_by_session r) (h_owner_user r) (h_accepted_by_user r).

(** ** Publishing *)

Definition HANDOFF_LIST_MAX_ITEMS : nat := 256.

Definition bound_handoff_field (value : bytes) : bytes :=
  truncate_utf8_bytes value HANDOFF_FIELD_MAX_BYTES.

Definition bound_handoff_list (items : list bytes) : list bytes :=
  bound_handoff_field <$> take HANDOFF_LIST_MAX_ITEMS items.

Record HandoffFields := mkHandoffFields {
  hf_summary : bytes;
  hf_open_questions : bytes;
  hf_next_steps : bytes;
  hf_files_touched : bytes;
  hf_cwd : option bytes;
}.

(** The stored cwd: without trailing separators, a bare root as [/]. *)
Definition stored_cwd (p : bytes) : bytes :=
  match drop_end_while (λ a, Ascii.eqb a slash || Ascii.eqb a backslash) p with
  | [] => [slash]
  | trimmed => trimmed
  end.

Section Handoffs.
Variable json_list : list bytes → bytes.
Variable json_strings : bytes → option (list bytes).
Variable timestamp_ok : Z → bool.
Variable order : OrderBy HandoffRow.

Definition handoff_fields (h : NewHandoff) : HandoffFields :=
  mkHandoffFields (bound_handoff_field (nh_summary h))
    (json_list (bound_handoff_list (nh_open_questions h)))
    (json_list (bound_handoff_list (nh_next_steps h)))
    (json_list (bound_handoff_list (nh_files_touched h)))
    (stored_cwd <$> nh_cwd h).

(** The rows [expire_same_cwd_auto_handoffs] retires. *)
Definition same_cwd_superseded (d : HandoffDb) (h : NewHandoff) (cwd : option bytes)
    (keep : option HandoffId) (r : HandoffRow) : bool :=
  in_scope (nh_workspace h) (nh_project h) r && is_handoff_state HsOpen r && automatic r
  && bool_decide (h_cwd r = cwd) && bool_decide (h_owner_user r = nh_owner_user h)
  && negb (bool_decide (Some (h_id r) = keep))
  && (bool_decide (h_from_session r = nh_from_session h) || negb (source_open d r)).

Definition expire_same_cwd_auto_handoffs (f : faults) (d : HandoffDb) (h : NewHandoff)
    (cwd : option bytes) (keep : option HandoffId) (now : Z) : result HandoffDb OpsError :=
  let hit := same_cwd_superseded d h cwd keep in
  let? rows := statement f OsExpire
                 (update_where hit (set_handoff_state HsExpired) (handoffs d)) in
  let? log := if 0 <? count_where hit (handoffs d)
              then audit f OsExpireAudit "expire_superseded_handoffs" (nh_workspace h)
                     (nh_project h) now (handoff_log d)
              else Ok (handoff_log d) in
  Ok (with_handoffs d rows log).

Definition refresh_row (fields : HandoffFields) (now : Z) (r : HandoffRow) : HandoffRow :=
  mkHandoffRow (h_id r) (h_workspace r) (h_project r) (h_from_session r) (h_from_agent r)
    (h_to_agent r) (hf_cwd fields) (hf_summary fields) (hf_open_questions fields)
    (hf_next_steps fields) (hf_files_touched fields) (h_state r) now (h_accepted_by r)
    (h_accepted_at r) (h_accepted_by_session r) (h_owner_user r) (h_accepted_by_user r).

Definition refresh_handoff_row (f : faults) (d : HandoffDb) (id : HandoffId) (h : NewHandoff)
    (now : Z) : result HandoffDb OpsError :=
  let fields := handoff_fields h in
  let? d := expire_same_cwd_auto_handoffs f d h (hf_cwd fields) (Some id) now in
  let? rows := statement f OsUpdate
                 (update_where (λ r, is_handoff id r && is_handoff_state HsOpen r)
                    (refresh_row fields now) (handoffs d)) in
  let? log := audit f OsAudit "refresh_handoff" (nh_workspace h) (nh_project h) now
                (handoff_log d) in
  Ok (with_handoffs d rows log).

Definition new_handoff_row (h : NewHandoff) (id : HandoffId) (now : Z) : HandoffRow :=
  let fields := handoff_fields h in
  mkHandoffRow id (nh_workspace h) (nh_project h) (nh_from_session h)
    (AgentKind_as_str (nh_from_agent h)) (AgentKind_as_str <$> nh_to_agent h) (hf_cwd fields)
    (hf_summary fields) (hf_open_questions fields) (hf_next_steps fields)
    (hf_files_touched fields) "open" now None None None (nh_owner_user h) None.

Definition insert_handoff_row (f : faults) (d : HandoffDb) (h : NewHandoff) (id : HandoffId)
    (now : Z) : result (HandoffId * HandoffDb) OpsError :=
  let? _u := validate_identity_storage_key (nh_owner_user h) "handoff owner" in
  let? d := match nh_from_session h with
            | Some _ =>
                expire_same_cwd_auto_handoffs f d h (hf_cwd (handoff_fields h)) None now
            | None => Ok d
            end in
  bail_if existsb (is_handoff id) (handoffs d) with OpsSqlite "UNIQUE constraint failed";;
  let? rows := statement f OsInsert (handoffs d ++ [new_handoff_row h id now]) in
  let? log := audit f OsAudit "insert_handoff" (nh_workspace h) (nh_project h) now
                (handoff_log d) in
  Ok (id, with_handoffs d rows log).

Definition insert_handoff (f : faults) (d : HandoffDb) (h : NewHandoff) (id : HandoffId) (now : Z)
    : result (HandoffId * HandoffDb) OpsError :=
  let? _u := statement f OsBegin tt in
  let? inserted := insert_handoff_row f d h id now in
  let? _u := statement f OsCommit tt in
  Ok inserted.

Definition find_session (d : HandoffDb) (id : SessionId) : option SessionRow :=
  List.find (λ s, bool_decide (s_id s = id)) (sessions d).

(** The open baton of the session, the newest if there are several. *)
Definition newest_created (a b : HandoffRow) : bool := (h_created_at b <? h_created_at a)%Z.

Definition own_open_baton (session : SessionId) (s : SessionRow) (r : HandoffRow) : bool :=
  bool_decide (h_from_session r = Some session) && in_scope (s_workspace s) (s_project s) r
  && bool_decide (h_owner_user r = s_actor_user s) && is_handoff_state HsOpen r.

Definition checkpoint_session_handoff (f : faults) (d : HandoffDb) (h : NewHandoff)
    (id : HandoffId) (now : Z) : result (option HandoffId * HandoffDb) OpsError :=
  match nh_from_session h with
  | None => Err (InvalidState "checkpoint handoff has no source session")
  | Some session =>
      let? _u := statement f OsBegin tt in
      let? live := statement f OsSession (find_session d session) in
      match live with
      | Some s =>
          if bool_decide (s_ended_at s = None) then
            bail_if negb (bool_decide (s_workspace s = nh_workspace h))
                    || negb (bool_decide (s_project s = nh_project h))
                    || negb (bool_decide (s_actor_user s = nh_owner_user h)) with
              InvalidState "checkpoint handoff scope or owner does not match its session";;
            let? existing := statement f OsExisting
              (h_id <$> head (order newest_created
                 (List.filter (own_open_baton session s) (handoffs d)))) in
            let? done_ := match existing with
                          | Some baton => let? d' := refresh_handoff_row f d baton h now in
                                          Ok (baton, d')
                          | None => insert_handoff_row f d h id now
                          end in
            let? _u := statement f OsCommit tt in
            Ok (Some (fst done_), snd done_)
          else Ok (None, d)
      | None => Ok (None, d)
      end
  end.

(** ** The end of a session *)

Definition end_row (d : HandoffDb) (session : SessionId) (summary_page : option PageId)
    (occurred_at : Z) (s : SessionRow) : SessionRow :=
  mkSessionRow (s_id s) (s_workspace s) (s_project s) (s_agent_kind s) (s_cwd s) (s_started_at s)
    (s_actor_user s) (Some occurred_at) summary_page
    (count_where (λ o, bool_decide (o_session o = session)) (observations d)).

Definition end_session_row (f : faults) (d : HandoffDb) (session : SessionId)
    (summary_page : option PageId) (occurred_at : Z) : result HandoffDb OpsError :=
  let? rows := statement f OsEndSession
                 (update_where (λ s, bool_decide (s_id s = session))
                    (end_row d session summary_page occurred_at) (sessions d)) in
  Ok (with_sessions d rows).

Definition end_session_with_handoff (f : faults) (d : HandoffDb) (session : SessionId)
    (summary_page : option PageId) (h : NewHandoff) (id : HandoffId) (ended now : Z)
    : result (HandoffId * HandoffDb) OpsError :=
  bail_if negb (bool_decide (nh_from_session h = Some session)) with
    InvalidState "automatic handoff source does not match the ended session";;
  let? _u := statement f OsBegin tt in
  let? scope := statement f OsSession (find_session d session) in
  match scope with
  | None => Err (InvalidState "cannot end a missing session with an automatic handoff")
  | Some s =>
      bail_if negb (bool_decide (s_workspace s = nh_workspace h))
              || negb (bool_decide (s_project s = nh_project h)) with
        InvalidState "automatic handoff scope does not match the ended session";;
      bail_if negb (bool_decide (s_actor_user s = nh_owner_user h)) with
        InvalidState "automatic handoff owner does not match the ended session";;
      let? d := end_session_row f d session summary_page ended in
      let? inserted := insert_handoff_row f d h id now in
      let? _u := statement f OsCommit tt in
      Ok inserted
  end.

(** ** Accepting *)

(** What the receiver session allows: a refusal, a session that already holds
    a baton, or the tables with the receiver reopened where its agent reuses
    session ids. *)
Inductive Receiver := ReceiverHolds | ReceiverReady (d : HandoffDb).

Definition reopen_row (s : SessionRow) : SessionRow :=
  mkSessionRow (s_id s) (s_workspace s) (s_project s) (s_agent_kind s) (s_cwd s) (s_started_at s)
    (s_actor_user s) None (s_summary_page s) (s_ended_observation_count s).

Definition holds_baton (session : SessionId) (r : HandoffRow) : bool :=
  is_handoff_state HsAccepted r && bool_decide (h_accepted_by_session r = Some session).

Definition check_receiver (f : faults) (d : HandoffDb) (a : HandoffAcceptance)
    (session : SessionId) : result Receiver OpsError :=
  let? receiver := statement f OsReceiver (find_session d session) in
  match receiver with
  | None => Err (InvalidState "handoff receiver session does not exist")
  | Some s =>
      bail_if negb (bool_decide (s_workspace s = ha_workspace a)
                    && bool_decide (s_project s = ha_project a)
                    && bool_decide (s_agent_kind s = AgentKind_as_str (ha_agent a))) with
        InvalidState "handoff receiver session does not match the accepting scope and agent";;
      let? already_claimed := statement f OsClaimed (existsb (holds_baton session) (handoffs d)) in
      if already_claimed : bool then Ok ReceiverHolds
      else if bool_decide (s_ended_at s = None) then Ok (ReceiverReady d)
      else if reuses_session_id_after_end (ha_agent a) then
        let? rows := statement f OsReopen
                       (update_where (λ s, bool_decide (s_id s = session)) reopen_row (sessions d)) in
        Ok (ReceiverReady (with_sessions d rows))
      else Err (InvalidState "an ended session cannot accept a handoff")
  end.

(** The operator named by the claim agrees with the filter it claims through. *)
Definition check_filter (filter : OwnerFilter) (user : option bytes) : result unit OpsError :=
  match filter, user with
  | FilterUser expected, Some actual =>
      if bool_decide (expected = actual) then Ok tt
      else Err (InvalidState "accepting handoff operator does not match its owner filter")
  | FilterUser _, None =>
      Err (InvalidState "an owner-scoped handoff claim requires an accepting operator")
  | Unattributed, Some _ =>
      Err (InvalidState "an unattributed handoff claim cannot record a named operator")
  | _, _ => Ok tt
  end.

(** The row the claim is about. *)
Definition claim_target (a : HandoffAcceptance) (r : HandoffRow) : bool :=
  is_handoff (ha_id a) r && in_scope (ha_workspace a) (ha_project a) r
  && is_handoff_state HsOpen r.

Definition accept_row (a : HandoffAcceptance) (now : Z) (r : HandoffRow) : HandoffRow :=
  mkHandoffRow (h_id r) (h_workspace r) (h_project r) (h_from_session r) (h_from_agent r)
    (h_to_agent r) (h_cwd r) (h_summary r) (h_open_questions r) (h_next_steps r)
    (h_files_touched r) "accepted" (h_created_at r) (Some (AgentKind_as_str (ha_agent a)))
    (Some now) (ha_session a) (h_owner_user r) (ha_user a).

(** The rows [expire_superseded_auto_handoffs] considers. *)
Definition sweep_candidate (d : HandoffDb) (ws : WorkspaceId) (pj : ProjectId)
    (owner : option bytes) (busy_since : option Z) (r : HandoffRow) : bool :=
  in_scope ws pj r && is_handoff_state HsOpen r && automatic r
  && bool_decide (h_owner_user r = owner)
  && negb match busy_since with
          | None => source_open d r
          | Some since => source_busy d since r
          end.

(** [chunks(500)]. *)
Fixpoint chunks {A} (fuel n : nat) (l : list A) : list (list A) :=
  match fuel, l with
  | S fuel', _ :: _ => take n l :: chunks fuel' n (drop n l)
  | _, _ => []
  end.

Definition expire_ids (ids : list HandoffId) (r : HandoffRow) : bool :=
  is_handoff_state HsOpen r && bool_decide (h_id r ∈ ids).

Fixpoint expire_chunks (f : faults) (k : nat) (batches : list (list HandoffId))
    (rows : list HandoffRow) (expired : nat) : result (list HandoffRow * nat) OpsError :=
  match batches with
  | [] => Ok (rows, expired)
  | ids :: batches' =>
      let? rows' := statement f (OsSweep k)
                      (update_where (expire_ids ids) (set_handoff_state HsExpired) rows) in
      expire_chunks f (S k) batches' rows' (expired + count_where (expire_ids ids) rows)
  end.

Definition sweep_ids (d : HandoffDb) (accepted : HandoffRow) (ws : WorkspaceId) (pj : ProjectId)
    (receiving_cwd : option bytes) (busy_since : option Z) : list HandoffId :=
  let receiving_cwd := match receiving_cwd with Some cwd => Some cwd | None => h_cwd accepted end in
  let accepted_key := handoff_selection_key false (h_created_at accepted) (h_cwd accepted)
                        (h_id accepted) in
  h_id <$> List.filter
    (λ r, sweep_candidate d ws pj (h_owner_user accepted) busy_since r
          && auto_handoff_matches_cwd (h_cwd r) receiving_cwd
          && selection_lt (handoff_selection_key false (h_created_at r) (h_cwd r) (h_id r))
               accepted_key)
    (handoffs d).

Definition expire_superseded_auto_handoffs (f : faults) (d : HandoffDb) (accepted : HandoffRow)
    (ws : WorkspaceId) (pj : ProjectId) (receiving_cwd : option bytes) (busy_since : option Z)
    : result (list HandoffRow * nat) OpsError :=
  let? ids := statement f OsSweepRead (sweep_ids d accepted ws pj receiving_cwd busy_since) in
  expire_chunks f 0 (chunks (length ids) 500 ids) (handoffs d) 0.

Definition accept_handoff_in_transaction (f : faults) (d : HandoffDb) (a : HandoffAcceptance)
    (busy_since : option Z) (now : Z) : result (bool * HandoffDb) OpsError :=
  let? _u := validate_identity_storage_key (ha_user a) "accepting handoff operator" in
  let? _u := check_filter (ha_filter a) (ha_user a) in
  let? receiver := match ha_session a with
                   | Some session => check_receiver f d a session
                   | None => Ok (ReceiverReady d)
                   end in
  match receiver with
  | ReceiverHolds => Ok (false, d)
  | ReceiverReady d =>
      let? metadata := statement f OsMetadata (List.find (claim_target a) (handoffs d)) in
      match metadata with
      | None => Ok (false, d)
      | Some target =>
          if source_busy d (default i64_max busy_since) target then Ok (false, d)
          else
            let hit := λ r, claim_target a r && owner_clause (ha_filter a) r in
            let? rows := statement f OsUpdate (update_where hit (accept_row a now) (handoffs d)) in
            if 0 <? count_where hit (handoffs d) then
              let? log := audit f OsAudit "accept_handoff" (ha_workspace a) (ha_project a) now
                            (handoff_log d) in
              let d' := with_handoffs d rows log in
              if automatic target then
                let? swept := expire_superseded_auto_handoffs f d' target (ha_workspace a)
                                (ha_project a) (ha_cwd a) busy_since in
                let? log := if 0 <? snd swept
                            then audit f OsSweepAudit "expire_superseded_handoffs"
                                   (ha_workspace a) (ha_project a) now log
                            else Ok log in
                Ok (true, with_handoffs d (fst swept) log)
              else Ok (true, d')
            else Ok (false, with_handoffs d rows (handoff_log d))
      end
  end.

(** [accept_handoff], and the claim of a startup, whose cutoff is [busy_since]. *)
Definition accept_handoff (f : faults) (d : HandoffDb) (a : HandoffAcceptance)
    (busy_since : option Z) (now : Z) : result (bool * HandoffDb) OpsError :=
  let? _u := statement f OsBegin tt in
  let? claimed := accept_handoff_in_transaction f d a busy_since now in
  let? _u := statement f OsCommit tt in
  Ok claimed.

(** ** Releasing, cancelling, expiring *)

Definition release_row (r : HandoffRow) : HandoffRow :=
  mkHandoffRow (h_id r) (h_workspace r) (h_project r) (h_from_session r) (h_from_agent r)
    (h_to_agent r) (h_cwd r) (h_summary r) (h_open_questions r) (h_next_steps r)
    (h_files_touched r) "open" (h_created_at r) None None None (h_owner_user r) None.

(** [ORDER BY accepted_at DESC, created_at DESC]; a missing time sorts last. *)
Definition latest_accepted (a b : HandoffRow) : bool :=
  match h_accepted_at a, h_accepted_at b with
  | Some x, Some y => ((y <? x) || (x =? y) && (h_created_at b <? h_created_at a))%Z
  | Some _, None => true
  | None, Some _ => false
  | None, None => (h_created_at b <? h_created_at a)%Z
  end.

Inductive LifecycleOnlyEndOutcome :=
  | Substantive
  | Ended (reopened_handoff : option HandoffId).

Definition end_lifecycle_only_session_in_tx (f : faults) (d : HandoffDb) (session : SessionId)
    (ended now : Z) : result (LifecycleOnlyEndOutcome * HandoffDb) OpsError :=
  let? substantive := statement f OsExists
    (existsb (λ o, bool_decide (o_session o = session) && o_substantive o) (observations d)) in
  if substantive : bool then Ok (Substantive, d)
  else
    let? d := end_session_row f d session None ended in
    let? target := statement f OsUpdate
                     (head (order latest_accepted (List.filter (holds_baton session) (handoffs d)))) in
    match target with
    | None => Ok (Ended None, d)
    | Some held =>
        let rows := update_where (λ r, is_handoff (h_id held) r && holds_baton session r)
                      release_row (handoffs d) in
        let? log := audit f OsAudit "release_lifecycle_only_handoff" (h_workspace held)
                      (h_project held) now (handoff_log d) in
        Ok (Ended (Some (h_id held)), with_handoffs d rows log)
    end.

Definition end_lifecycle_only_session (f : faults) (d : HandoffDb) (session : SessionId)
    (ended now : Z) : result (LifecycleOnlyEndOutcome * HandoffDb) OpsError :=
  let? _u := statement f OsBegin tt in
  let? res := end_lifecycle_only_session_in_tx f d session ended now in
  let? _u := statement f OsCommit tt in
  Ok res.

Definition cancel_handoff (f : faults) (d : HandoffDb) (id : HandoffId) (ws : WorkspaceId)
    (pj : ProjectId) (filter : OwnerFilter) (now : Z) : result (bool * HandoffDb) OpsError :=
  let? _u := statement f OsBegin tt in
  let hit := λ r, is_handoff id r && in_scope ws pj r && is_handoff_state HsOpen r
                  && owner_clause filter r in
  let? rows := statement f OsUpdate (update_where hit (set_handoff_state HsExpired) (handoffs d)) in
  let changed := count_where hit (handoffs d) in
  let? log := if 0 <? changed then audit f OsAudit "cancel_handoff" ws pj now (handoff_log d)
              else Ok (handoff_log d) in
  let? _u := statement f OsCommit tt in
  Ok (0 <? changed, with_handoffs d rows log).

Definition expire_open_handoffs (f : faults) (d : HandoffDb) (ws : WorkspaceId) (pj : ProjectId)
    (filter : OwnerFilter) (older_than : option Z) (author : option UserId) (now : Z)
    : result (nat * HandoffDb) OpsError :=
  let? _u := statement f OsBegin tt in
  let hit := λ r, in_scope ws pj r && is_handoff_state HsOpen r && owner_clause filter r
                  && match older_than with
                     | Some cutoff => (h_created_at r <=? cutoff)%Z
                     | None => true
                     end in
  let? rows := statement f OsUpdate (update_where hit (set_handoff_state HsExpired) (handoffs d)) in
  let changed := count_where hit (handoffs d) in
  let? log := if 0 <? changed
              then audit_with_detail f OsAudit "expire_open_handoffs" ws pj None author now
                     ("{" +:+ String "034"%char "expired" +:+ String "034"%char ":"
                      +:+ pretty changed +:+ "}")
                     (handoff_log d)
              else Ok (handoff_log d) in
  let? _u := statement f OsCommit tt in
  Ok (changed, with_handoffs d rows log).

(** ** Selecting *)

(** A handoff as it is read back. *)
Record Handoff := mkHandoff {
  hv_id : HandoffId;
  hv_workspace : WorkspaceId;
  hv_project : ProjectId;
  hv_from_session : option SessionId;
  hv_from_agent : AgentKind;
  hv_to_agent : option AgentKind;
  hv_cwd : option bytes;
  hv_owner_user : option bytes;
  hv_summary : bytes;
  hv_open_questions : list bytes;
  hv_next_steps : list bytes;
  hv_files_touched : list bytes;
  hv_state : HandoffState;
  hv_created_at : Z;
  hv_accepted_by : option AgentKind;
  hv_accepted_at : option Z;
  hv_accepted_by_session : option SessionId;
  hv_accepted_by_user : option bytes;
}.

Definition qualified (value : option bytes) (label : string) : result unit OpsError :=
  match value with
  | Some key =>
      match from_storage_key key with
      | None => Err (OpsMalformed (label +:+ " is not a qualified identity storage key"))
      | Some _ => Ok tt
      end
  | None => Ok tt
  end.

Definition strings_from_str (text : bytes) : result (list bytes) OpsError :=
  match json_strings text with
  | Some l => Ok l
  | None => Err (OpsMalformed "json")
  end.

Definition read_time (label : string) (us : Z) : result Z OpsError :=
  if timestamp_ok us then Ok us else Err (OpsMalformed ("bad " +:+ label)).

Definition row_to_handoff (r : HandoffRow) : result Handoff OpsError :=
  let? _u := qualified (h_owner_user r) "handoff owner" in
  let? _u := qualified (h_accepted_by_user r) "accepting handoff operator" in
  let? open_questions := strings_from_str (h_open_questions r) in
  let? next_steps := strings_from_str (h_next_steps r) in
  let? files_touched := strings_from_str (h_files_touched r) in
  let? state := HandoffState_from_str (h_state r) in
  let? created_at := read_time "created_at" (h_created_at r) in
  let? accepted_at := match h_accepted_at r with
                      | None => Ok None
                      | Some us => let? at_ := read_time "accepted_at" us in Ok (Some at_)
                      end in
  Ok (mkHandoff (h_id r) (h_workspace r) (h_project r) (h_from_session r)
        (AgentKind_from_wire (h_from_agent r)) (AgentKind_from_wire <$> h_to_agent r) (h_cwd r)
        (h_owner_user r) (h_summary r) open_questions next_steps files_touched state created_at
        (AgentKind_from_wire <$> h_accepted_by r) accepted_at (h_accepted_by_session r)
        (h_accepted_by_user r)).

(** [handoff_owner_sql] with the scope and the cutoff of [open_handoff_for]. *)
Definition deliverable (d : HandoffDb) (ws : WorkspaceId) (pj : ProjectId) (filter : OwnerFilter)
    (busy_since : option Z) (r : HandoffRow) : bool :=
  in_scope ws pj r && is_handoff_state HsOpen r && owner_clause filter r
  && negb match busy_since with Some since => source_busy d since r | None => false end.

Definition is_handoff_candidate (h : Handoff) (cwd_filter : option bytes) (filter : OwnerFilter)
    : bool :=
  if negb (admits filter (hv_owner_user h)) then false
  else match hv_from_session h with
       | None => true
       | Some _ => auto_handoff_matches_cwd (hv_cwd h) cwd_filter
       end.

Definition handoff_key (h : Handoff) : SelectionKey :=
  handoff_selection_key (bool_decide (hv_from_session h = None)) (hv_created_at h) (hv_cwd h)
    (hv_id h).

(** [prefer_handoff(a, b).is_gt()]. *)
Definition prefer_handoff (a b : Handoff) : bool := selection_lt (handoff_key b) (handoff_key a).

(** One turn of the loop. *)
Definition keep_preferred (cwd_filter : option bytes) (filter : OwnerFilter)
    (selected : option Handoff) (h : Handoff) : option Handoff :=
  if is_handoff_candidate h cwd_filter filter
     && match selected with None => true | Some current => prefer_handoff h current end
  then Some h else selected.

Definition open_handoff_for (f : faults) (d : HandoffDb) (ws : WorkspaceId) (pj : ProjectId)
    (cwd_filter : option bytes) (filter : OwnerFilter) (busy_since : option Z)
    : result (option Handoff) OpsError :=
  let? rows := statement f OsRead
    (order newest_created (List.filter (deliverable d ws pj filter busy_since) (handoffs d))) in
  let? read := try_map row_to_handoff rows in
  Ok (foldl (keep_preferred cwd_filter filter) None read).
End Handoffs.

(** ** The writer's commands *)

Section Commands.
Variable json_list : list bytes → bytes.
Variable order : OrderBy HandoffRow.

Inductive HandoffCmd :=
  | CmdPublish (h : NewHandoff)
  | CmdCheckpoint (h : NewHandoff)
  | CmdEndWithHandoff (session : SessionId) (summary_page : option PageId) (h : NewHandoff)
  | CmdAccept (a : HandoffAcceptance) (busy_since : option Z)
  | CmdEndLifecycleOnly (session : SessionId)
  | CmdCancelHandoff (id : HandoffId) (ws : WorkspaceId) (pj : ProjectId) (filter : OwnerFilter)
  | CmdExpireOpen (ws : WorkspaceId) (pj : ProjectId) (filter : OwnerFilter)
      (older_than : option Z) (author : option UserId)
  | CmdOthers (sessions' : list SessionRow) (observations' : list ObservationRow).

Inductive HandoffReply :=
  | RepPublished (id : HandoffId)
  | RepCheckpointed (id : option HandoffId)
  | RepAccepted (claimed : bool)
  | RepEnded (outcome : LifecycleOnlyEndOutcome)
  | RepCancelledHandoff (changed : bool)
  | RepExpired (changed : nat)
  | RepOthers
  | RepHandoffError (e : OpsError).

Record HandoffTurn := mkHandoffTurn {
  ht_cmd : HandoffCmd;
  ht_id : HandoffId;
  ht_ended : Z;
  ht_now : Z;
  ht_faults : faults;
}.

Definition handoff_reply {A} (d : HandoffDb) (rep : A → HandoffReply)
    (r : result (A * HandoffDb) OpsError) : HandoffReply * HandoffDb :=
  match r with
  | Ok (a, d') => (rep a, d')
  | Err e => (RepHandoffError e, d)
  end.

(** One command of the writer; [CmdOthers] is any other command, which may
    change sessions and observations but no handoff. *)
Definition handoff_step (d : HandoffDb) (t : HandoffTurn) : HandoffReply * HandoffDb :=
  let f := ht_faults t in
  match ht_cmd t with
  | CmdPublish h => handoff_reply d RepPublished (insert_handoff json_list f d h (ht_id t) (ht_now t))
  | CmdCheckpoint h =>
      handoff_reply d RepCheckpointed
        (checkpoint_session_handoff json_list order f d h (ht_id t) (ht_now t))
  | CmdEndWithHandoff session page h =>
      handoff_reply d RepPublished
        (end_session_with_handoff json_list f d session page h (ht_id t) (ht_ended t) (ht_now t))
  | CmdAccept a busy_since => handoff_reply d RepAccepted (accept_handoff f d a busy_since (ht_now t))
  | CmdEndLifecycleOnly session =>
      handoff_reply d RepEnded
        (end_lifecycle_only_session order f d session (ht_ended t) (ht_now t))
  | CmdCancelHandoff id ws pj filter =>
      handoff_reply d RepCancelledHandoff (cancel_handoff f d id ws pj filter (ht_now t))
  | CmdExpireOpen ws pj filter older author =>
      handoff_reply d RepExpired (expire_open_handoffs f d ws pj filter older author (ht_now t))
  | CmdOthers sessions' observations' =>
      (RepOthers, mkHandoffDb sessions' observations' (handoffs d) (handoff_log d))
  end.

Fixpoint handoff_run (d : HandoffDb) (turns : list HandoffTurn) : list HandoffReply * HandoffDb :=
  match turns with
  | [] => ([], d)
  | t :: turns' =>
      let '(reply, d') := handoff_step d t in
      let '(replies, final) := handoff_run d' turns' in
      (reply :: replies, final)
  end.
End Commands.

(** Examples of the tests. *)
Example cwd_demo :
  cwd_within (lit "/repo/") (lit "/repo/api") = true
  ∧ cwd_within (lit "/repo") (lit "/repo-other") = false
  ∧ cwd_within (lit "C:\repo") (lit "c:\repo\api") = true
  ∧ cwd_within (lit "/") (lit "/anything/here") = true
  ∧ cwd_within (lit "/Repo") (lit "/repo/src") = false.
Proof. done. Qed.
