(* ===== verification/HandoffsFacts.v ===== *)
(** * What handoffs guarantee

    Every command of the writer changes exactly the rows it is entitled to
    ([touch]): never a row of another operator, never one of another project.
    A handoff is claimed once until its receiver releases it, and a session
    holds at most one.  What is selected for delivery is the preferred
    candidate, and claiming it succeeds. *)

From S2P Require Export Handoffs.
From S2P Require Import IdentityFacts.
From Stdlib Require Import ZifyBool ZifyN.
Open Scope nat_scope.
Open Scope rust_scope.

(** ** Conditions *)

#[export] Instance HandoffState_as_str_inj : Inj (=) (=) HandoffState_as_str.
Proof. by intros [] []. Qed.

Lemma is_handoff_true id r : is_handoff id r = true ↔ h_id r = id.
Proof. apply bool_decide_eq_true. Qed.

Lemma state_true s r : is_handoff_state s r = true ↔ h_state r = HandoffState_as_str s.
Proof. apply bool_decide_eq_true. Qed.

(** A row is in at most one state. *)
Lemma state_exclusive s s' r :
  is_handoff_state s r = true → is_handoff_state s' r = true → s = s'.
Proof. rewrite !state_true. intros -> H. by apply HandoffState_as_str_inj in H. Qed.

Lemma set_state_state s r : is_handoff_state s (set_handoff_state s r) = true.
Proof. by apply state_true. Qed.

(** The owner part of a [WHERE] is the owner filter. *)
Lemma owner_clause_admits filter r : owner_clause filter r = admits filter (h_owner_user r).
Proof.
  unfold owner_clause, admits. destruct filter as [me| |], (h_owner_user r) as [o|]; try done.
  by apply bool_decide_ext.
Qed.

(** ** Rows that change one by one *)

Definition rowwise (R : HandoffRow → HandoffRow → Prop) (rows rows' : list HandoffRow) : Prop :=
  Forall2 (λ r r', r' = r ∨ R r r') rows rows'.

Lemma rowwise_refl R rows : rowwise R rows rows.
Proof. unfold rowwise. induction rows; constructor; auto. Qed.

Lemma rowwise_update (R : HandoffRow → HandoffRow → Prop) hit g rows :
  (∀ r, r ∈ rows → hit r = true → R r (g r)) → rowwise R rows (update_where hit g rows).
Proof.
  intros H. unfold rowwise, update_where. induction rows as [|r rows IH]; constructor.
  - destruct (hit r) eqn:E; [right; apply H; [by left|done]|by left].
  - apply IH. intros r' Hr'. apply H. by right.
Qed.

Lemma rowwise_mono R R' rows rows' :
  (∀ r r', r ∈ rows → R r r' → R' r r') → rowwise R rows rows' → rowwise R' rows rows'.
Proof.
  unfold rowwise. intros H HR. induction HR as [|r r' rows rows' Hr HR IH]; constructor.
  - destruct Hr as [->|Hr]; [by left|right; apply H; [by left|done]].
  - apply IH. intros x y Hx. apply H. by right.
Qed.

Lemma rowwise_trans R1 R2 R rows1 rows2 rows3 :
  rowwise R1 rows1 rows2 → rowwise R2 rows2 rows3 →
  (∀ x y, R1 x y → R x y) → (∀ x y, R2 x y → R x y) → (∀ x y z, R1 x y → ¬ R2 y z) →
  rowwise R rows1 rows3.
Proof.
  unfold rowwise. intros H1 H2 Hm1 Hm2 Hno. revert rows3 H2.
  induction H1 as [|x y rows1 rows2 Hxy H1 IH]; intros rows3 H2; inversion H2 as [|y' z ? rows3' Hyz H2' ]; subst.
  - constructor.
  - constructor; [|by apply IH]. destruct Hxy as [->|Hxy], Hyz as [->|Hyz]; auto.
    by destruct (Hno x y z).
Qed.

Lemma rowwise_ids R rows rows' :
  (∀ r r', R r r' → h_id r' = h_id r) → rowwise R rows rows' → h_id <$> rows' = h_id <$> rows.
Proof.
  intros HR H. induction H as [|r r' rows rows' Hr H IH]; [done|]. rewrite !fmap_cons, IH. f_equal.
  destruct Hr as [->|Hr]; auto.
Qed.

Lemma elem_rowwise R rows rows' r' :
  rowwise R rows rows' → r' ∈ rows' → ∃ r, r ∈ rows ∧ (r' = r ∨ R r r').
Proof.
  unfold rowwise. intros H Hr'. apply list_elem_of_lookup in Hr' as [i Hi].
  destruct (Forall2_lookup_r _ _ _ _ _ H Hi) as (r & Hr & HR).
  exists r. split; [by eapply list_elem_of_lookup_2|done].
Qed.

Lemma rowwise_elem R rows rows' r :
  rowwise R rows rows' → r ∈ rows → ∃ r', r' ∈ rows' ∧ (r' = r ∨ R r r').
Proof.
  unfold rowwise. intros H Hr. apply list_elem_of_lookup in Hr as [i Hi].
  destruct (Forall2_lookup_l _ _ _ _ _ H Hi) as (r' & Hr' & HR).
  exists r'. split; [by eapply list_elem_of_lookup_2|done].
Qed.

(** ** Superseded batons of the same directory *)

Section Facts.
Variable json_list : list bytes → bytes.
Variable order : OrderBy HandoffRow.
Context `{!OrdersRows order}.

(** What the expiry at a publication retires: an open automatic baton of the
    same project and operator, of the publishing session itself or of one that
    is not open. *)
Definition superseded (d : HandoffDb) (h : NewHandoff) (r r' : HandoffRow) : Prop :=
  in_scope (nh_workspace h) (nh_project h) r = true ∧ is_handoff_state HsOpen r = true
  ∧ automatic r = true ∧ h_owner_user r = nh_owner_user h
  ∧ (h_from_session r = nh_from_session h ∨ source_open d r = false)
  ∧ r' = set_handoff_state HsExpired r.

Lemma expire_same_cwd_Ok f d h cwd keep now d' :
  expire_same_cwd_auto_handoffs f d h cwd keep now = Ok d' →
  rowwise (λ r r', superseded d h r r' ∧ Some (h_id r) ≠ keep ∧ h_cwd r = cwd) (handoffs d) (handoffs d')
  ∧ sessions d' = sessions d ∧ observations d' = observations d.
Proof.
  unfold expire_same_cwd_auto_handoffs. intros H. open_transaction. cbn.
  split; [|done]. apply rowwise_update. intros r _ Hr'. unfold same_cwd_superseded in Hr'.
  rewrite !andb_true_iff, negb_true_iff, orb_true_iff, negb_true_iff in Hr'.
  destruct Hr' as [[[[[[? ?] ?] ?%bool_decide_eq_true] ?%bool_decide_eq_true]
                     ?%bool_decide_eq_false] Hs].
  repeat split; try done. destruct Hs as [?%bool_decide_eq_true|?]; auto.
Qed.

Lemma insert_handoff_row_Ok f d h id now id' d' :
  insert_handoff_row json_list f d h id now = Ok (id', d') →
  id' = id
  ∧ (∃ kept, rowwise (superseded d h) (handoffs d) kept
             ∧ handoffs d' = kept ++ [new_handoff_row json_list h id now]
             ∧ ∀ r, r ∈ kept → h_id r ≠ id)
  ∧ sessions d' = sessions d ∧ observations d' = observations d
  ∧ (∀ o, nh_owner_user h = Some o → is_Some (from_storage_key o)).
Proof.
  unfold insert_handoff_row. intros H. peel_ok.
  assert (Hexp : rowwise (superseded d h) (handoffs d) (handoffs a0)
                 ∧ sessions a0 = sessions d ∧ observations a0 = observations d).
  { destruct (nh_from_session h) eqn:E.
    - apply expire_same_cwd_Ok in Hr0 as (Hrow & ? & ?). split; [|done].
      eapply rowwise_mono; [|exact Hrow]. by intros r r' _ [? _].
    - open_transaction. split; [apply rowwise_refl|done]. }
  destruct Hexp as (Hrow & Hs & Ho). open_transaction. split; [done|]. split.
  - exists (handoffs a0). split; [done|]. split; [done|]. intros r Hr' Hid.
    rewrite existsb_none in Hg. specialize (Hg r Hr'). by rewrite (proj2 (is_handoff_true _ _) Hid) in Hg.
  - split; [done|]. split; [done|]. intros o Ho'. unfold validate_identity_storage_key in Hr.
    rewrite Ho' in Hr. destruct (from_storage_key o); [eauto|done].
Qed.
(** ** The sweep after a claim *)

Lemma chunks_concat {A} fuel n (l : list A) :
  0 < n → length l ≤ fuel → concat (chunks fuel n l) = l.
Proof.
  intros Hn. revert l. induction fuel as [|fuel IH]; intros l Hl.
  - by destruct l; [|simpl in Hl; lia].
  - destruct l as [|x l]; [done|]. cbn [chunks concat]. rewrite IH.
    + apply take_drop.
    + rewrite length_drop. simpl in *. lia.
Qed.

Lemma expire_chunks_Ok f k batches rows expired rows' n :
  expire_chunks f k batches rows expired = Ok (rows', n) →
  rowwise (λ r r', h_id r ∈ concat batches ∧ is_handoff_state HsOpen r = true
                   ∧ r' = set_handoff_state HsExpired r) rows rows'.
Proof.
  revert k rows expired. induction batches as [|ids batches IH]; intros k rows expired H; cbn in H.
  - open_transaction. apply rowwise_refl.
  - open_transaction. apply IH in H. eapply rowwise_trans; [|exact H|..].
    + apply (rowwise_update (λ r r', h_id r ∈ ids ∧ is_handoff_state HsOpen r = true
                              ∧ r' = set_handoff_state HsExpired r)).
      intros r _ [? ?%bool_decide_eq_true]%andb_true_iff. done.
    + intros x y (? & ? & ?). cbn. rewrite elem_of_app. auto.
    + intros x y (? & ? & ?). cbn. rewrite elem_of_app. auto.
    + intros x y z (_ & _ & ->) (_ & Ho & _). apply state_true in Ho. done.
Qed.

(** What the sweep retires: open automatic batons of the claimed one's
    operator and project, not preferred to it, whose source is not in use. *)
Definition swept (d : HandoffDb) (a : HandoffAcceptance) (busy_since : option Z) (target r : HandoffRow)
    : Prop :=
  sweep_candidate d (ha_workspace a) (ha_project a) (h_owner_user target) busy_since r = true
  ∧ auto_handoff_matches_cwd (h_cwd r)
      (match ha_cwd a with Some cwd => Some cwd | None => h_cwd target end) = true
  ∧ selection_lt (handoff_selection_key false (h_created_at r) (h_cwd r) (h_id r))
      (handoff_selection_key false (h_created_at target) (h_cwd target) (h_id target)) = true.

Lemma expire_superseded_Ok f d target a busy_since rows n :
  NoDup (h_id <$> handoffs d) →
  expire_superseded_auto_handoffs f d target (ha_workspace a) (ha_project a) (ha_cwd a) busy_since
  = Ok (rows, n) →
  rowwise (λ r r', swept d a busy_since target r ∧ r' = set_handoff_state HsExpired r) (handoffs d) rows.
Proof.
  intros Hn H. unfold expire_superseded_auto_handoffs in H. open_transaction.
  apply expire_chunks_Ok in H. rewrite chunks_concat in H by lia.
  eapply rowwise_mono; [|exact H]. intros r r' Hr (Hid & _ & ->). split; [|done].
  unfold sweep_ids in Hid. apply list_elem_of_fmap in Hid as (r0 & Hid & [Hr0 Hc]%elem_filter).
  rewrite (key_unique h_id _ r r0 Hn Hr Hr0 Hid).
  apply andb_true_iff in Hc as [[? ?]%andb_true_iff ?]. done.
Qed.

(** ** What a command may do to a row *)

Definition publishes (cmd : HandoffCmd) : option NewHandoff :=
  match cmd with
  | CmdPublish h | CmdCheckpoint h | CmdEndWithHandoff _ _ h => Some h
  | _ => None
  end.

Inductive touch (d d' : HandoffDb) (t : HandoffTurn) (reply : HandoffReply)
    : HandoffRow → HandoffRow → Prop :=
  | touch_superseded h r r' :
      publishes (ht_cmd t) = Some h → superseded d' h r r' → touch d d' t reply r r'
  | touch_refreshed h session r :
      ht_cmd t = CmdCheckpoint h → nh_from_session h = Some session →
      h_from_session r = Some session → in_scope (nh_workspace h) (nh_project h) r = true →
      h_owner_user r = nh_owner_user h → is_handoff_state HsOpen r = true →
      reply = RepCheckpointed (Some (h_id r)) →
      touch d d' t reply r (refresh_row (handoff_fields json_list h) (ht_now t) r)
  | touch_accepted a busy_since r :
      ht_cmd t = CmdAccept a busy_since → reply = RepAccepted true →
      claim_target a r = true → owner_clause (ha_filter a) r = true →
      (∀ session, ha_session a = Some session →
         ∀ r0, r0 ∈ handoffs d → holds_baton session r0 = false) →
      touch d d' t reply r (accept_row a (ht_now t) r)
  | touch_swept a busy_since target r :
      ht_cmd t = CmdAccept a busy_since → reply = RepAccepted true →
      target ∈ handoffs d → claim_target a target = true →
      owner_clause (ha_filter a) target = true → automatic target = true →
      h_id r ≠ h_id target → swept d' a busy_since target r →
      touch d d' t reply r (set_handoff_state HsExpired r)
  | touch_released session r :
      ht_cmd t = CmdEndLifecycleOnly session → reply = RepEnded (Ended (Some (h_id r))) →
      holds_baton session r = true → touch d d' t reply r (release_row r)
  | touch_cancelled id ws pj filter r :
      ht_cmd t = CmdCancelHandoff id ws pj filter → reply = RepCancelledHandoff true →
      h_id r = id → in_scope ws pj r = true → is_handoff_state HsOpen r = true →
      owner_clause filter r = true → touch d d' t reply r (set_handoff_state HsExpired r)
  | touch_expired ws pj filter older author n r :
      ht_cmd t = CmdExpireOpen ws pj filter older author → reply = RepExpired n → n ≠ 0 →
      in_scope ws pj r = true → is_handoff_state HsOpen r = true → owner_clause filter r = true →
      (∀ cutoff, older = Some cutoff → (h_created_at r ≤ cutoff)%Z) →
      touch d d' t reply r (set_handoff_state HsExpired r).

Lemma touch_id d d' t reply r r' : touch d d' t reply r r' → h_id r' = h_id r.
Proof. by intros [? ? ? ? (_ & _ & _ & _ & _ & ->)| | | | | |]. Qed.

Lemma source_open_sessions d d' r : sessions d = sessions d' → source_open d r = source_open d' r.
Proof. unfold source_open, session_open. by intros ->. Qed.

Lemma superseded_sessions d d' h r r' : sessions d = sessions d' → superseded d h r r' → superseded d' h r r'.
Proof. unfold superseded. intros Hs. by rewrite (source_open_sessions _ _ _ Hs). Qed.

(** Accepting. *)
Lemma check_receiver_Ok f d a session res :
  check_receiver f d a session = Ok res →
  match res with
  | ReceiverHolds => ∃ r, r ∈ handoffs d ∧ holds_baton session r = true
  | ReceiverReady d1 =>
      handoffs d1 = handoffs d ∧ observations d1 = observations d ∧ handoff_log d1 = handoff_log d
      ∧ (∀ r, r ∈ handoffs d → holds_baton session r = false)
  end.
Proof.
  unfold check_receiver. intros H. open_transaction.
  destruct (find_session d session) as [s|]; [|done]. open_transaction.
  destruct (existsb _ (handoffs d)) eqn:E; [open_transaction; by apply existsb_elem|].
  rewrite existsb_none in E.
  destruct (bool_decide (s_ended_at s = None)); [by open_transaction|].
  destruct (reuses_session_id_after_end _); [|done]. by open_transaction.
Qed.

Lemma accept_handoff_Ok f d a busy_since now res d' :
  NoDup (h_id <$> handoffs d) →
  accept_handoff f d a busy_since now = Ok (res, d') →
  if res : bool then
    ∃ target, target ∈ handoffs d ∧ claim_target a target = true
      ∧ owner_clause (ha_filter a) target = true
      ∧ (∀ session, ha_session a = Some session → ∀ r, r ∈ handoffs d → holds_baton session r = false)
      ∧ accept_row a now target ∈ handoffs d'
      ∧ rowwise (λ r r', r = target ∧ r' = accept_row a now r
                         ∨ automatic target = true ∧ h_id r ≠ h_id target
                           ∧ swept d' a busy_since target r ∧ r' = set_handoff_state HsExpired r)
          (handoffs d) (handoffs d')
  else handoffs d' = handoffs d.
Proof.
  intros Hn H. unfold accept_handoff in H. open_transaction.
  unfold accept_handoff_in_transaction in Hr0. open_transaction.
  destruct a2 as [|d1].
  { open_transaction. done. }
  assert (H1 : handoffs d1 = handoffs d
     ∧ (∀ session, ha_session a = Some session → ∀ r, r ∈ handoffs d → holds_baton session r = false)).
  { destruct (ha_session a) as [session|].
    - apply check_receiver_Ok in Hr2 as (? & _ & _ & ?). split; [done|]. by intros ? [= <-].
    - open_transaction. done. }
  destruct H1 as [Hh Hfree]. open_transaction.
  destruct (List.find _ _) as [target|] eqn:Ef; [|by open_transaction].
  destruct (source_busy _ _ _); [by open_transaction|].
  apply List.find_some in Ef as [Hin%list_elem_of_In Ht]. open_transaction.
  set (hit := λ r, claim_target a r && owner_clause (ha_filter a) r) in *.
  assert (Hhit : ∀ r, r ∈ handoffs d1 → hit r = true → r = target).
  { intros r Hr' [Hc _]%andb_true_iff. unfold claim_target in *.
    apply andb_true_iff in Hc as [[Hi%is_handoff_true _]%andb_true_iff _].
    apply andb_true_iff in Ht as [[Hi'%is_handoff_true _]%andb_true_iff _].
    rewrite Hh in *. apply (key_unique h_id (handoffs d)); congruence. }
  destruct (0 <? count_where hit (handoffs d1)) eqn:Ec.
  - assert (Hto : hit target = true).
    { apply Nat.ltb_lt in Ec. destruct (proj1 (count_where_pos hit (handoffs d1))) as (r & Hr' & Hx);
        [lia|]. by rewrite (Hhit r) in Hx. }
    assert (Hupd : rowwise (λ r r', r = target ∧ r' = accept_row a now r) (handoffs d)
                     (update_where hit (accept_row a now) (handoffs d1))).
    { rewrite Hh. apply rowwise_update. intros r Hr' Hx. split; [|done]. apply Hhit; [by rewrite Hh|done]. }
    pose proof Hto as [_ Howner]%andb_true_iff. rewrite Hh in Hin.
    assert (Hacc : accept_row a now target ∈ update_where hit (accept_row a now) (handoffs d1)).
    { apply elem_update_where. exists target. by rewrite Hh, Hto. }
    open_transaction. destruct (automatic target) eqn:Ea; open_transaction.
    + match goal with H : expire_superseded_auto_handoffs _ ?D _ _ _ _ _ = Ok ?x |- _ =>
        destruct x as [rows n]; rename H into Hexp; set (d2 := D) in * end.
      cbn [fst snd] in *.
      exists target. do 4 (split; [done|]).
      assert (Hs' : ∀ log, swept d2 = swept (with_handoffs d1 rows log)) by done.
      apply expire_superseded_Ok in Hexp.
      2:{ cbn. rewrite fmap_update_where; [by rewrite Hh|done]. }
      cbn [handoffs with_handoffs d2] in Hexp. rewrite (Hs' a3) in Hexp.
      split.
      { destruct (rowwise_elem _ _ _ _ Hexp Hacc) as (r' & Hr' & [->|[[Hsw _] ->]]); [done|].
        unfold sweep_candidate in Hsw. rewrite !andb_true_iff in Hsw.
        destruct Hsw as [[[[_ Hopen] _] _] _]. by apply state_true in Hopen. }
      apply (rowwise_trans _ (λ r r', automatic target = true ∧ h_id r ≠ h_id target
               ∧ swept (with_handoffs d1 rows a3) a busy_since target r
               ∧ r' = set_handoff_state HsExpired r) _ _ _ _ Hupd); [|by left|..].
      * eapply rowwise_mono; [|exact Hexp].
        intros r r' Hr' [Hsw ->]. repeat split; try apply Hsw; [done|]. intros Hid.
        apply elem_update_where in Hr' as (r0 & Hr0' & ->).
        assert (r0 = target) as ->.
        { rewrite Hh in Hr0'. apply (key_unique h_id (handoffs d)); [done..|].
          by destruct (hit r0). }
        rewrite Hto in Hsw. destruct Hsw as [Hsw _]. unfold sweep_candidate in Hsw.
        rewrite !andb_true_iff in Hsw. destruct Hsw as [[[[_ Hopen] _] _] _].
        by apply state_true in Hopen.
      * intros x y Hy. by right.
      * intros x y z [-> ->] (_ & Hne & _). done.
    + exists target. do 5 (split; [done|]).
      eapply rowwise_mono; [|exact Hupd]. by left.
  - open_transaction. cbn. rewrite Hh.
    assert (count_where hit (handoffs d) = 0) as H0 by (rewrite Hh in Ec; apply Nat.ltb_ge in Ec; lia).
    rewrite count_where_0 in H0. unfold update_where. rewrite <- (list_fmap_id (handoffs d)) at 2.
    apply list_fmap_ext. intros i r Hr'. apply list_elem_of_lookup_2 in Hr'. by rewrite H0.
Qed.
(** ** One command *)

Definition step_of := handoff_step json_list order.

Lemma handoff_reply_Ok {A} d (rep : A → HandoffReply) r reply d' :
  handoff_reply d rep r = (reply, d') →
  (∃ a, r = Ok (a, d') ∧ reply = rep a) ∨ (∃ e, reply = RepHandoffError e ∧ d' = d).
Proof. destruct r as [[a b]|e]; intros [= <- <-]; [left|right]; eauto. Qed.

(** The rows after a command: the old ones, each as it was or touched, and
    possibly the published one. *)
Definition stepped (d d' : HandoffDb) (t : HandoffTurn) (reply : HandoffReply) : Prop :=
  ∃ kept fresh, handoffs d' = kept ++ fresh ∧ rowwise (touch d d' t reply) (handoffs d) kept
    ∧ (fresh = []
       ∨ ∃ h, publishes (ht_cmd t) = Some h
              ∧ fresh = [new_handoff_row json_list h (ht_id t) (ht_now t)]
              ∧ ∀ r, r ∈ kept → h_id r ≠ ht_id t).

Lemma stepped_rowwise d d' t reply :
  rowwise (touch d d' t reply) (handoffs d) (handoffs d') → stepped d d' t reply.
Proof. intros H. exists (handoffs d'), []. rewrite app_nil_r. auto. Qed.

Lemma stepped_inserted d d0 d' t reply h f id' :
  publishes (ht_cmd t) = Some h → handoffs d0 = handoffs d →
  insert_handoff_row json_list f d0 h (ht_id t) (ht_now t) = Ok (id', d') →
  stepped d d' t reply.
Proof.
  intros Hp Hh H. apply insert_handoff_row_Ok in H as (_ & (kept & Hrow & Hrows & Hfresh) & Hs & _).
  exists kept, [new_handoff_row json_list h (ht_id t) (ht_now t)]. split; [done|]. split.
  - rewrite Hh in Hrow. eapply rowwise_mono; [|exact Hrow]. intros r r' _ Hsup.
    eapply touch_superseded; [exact Hp|]. by eapply superseded_sessions.
  - right. by exists h.
Qed.

Lemma refresh_handoff_row_Ok f d id h now d' :
  refresh_handoff_row json_list f d id h now = Ok d' →
  rowwise (λ r r', superseded d h r r'
                   ∨ h_id r = id ∧ is_handoff_state HsOpen r = true
                     ∧ r' = refresh_row (handoff_fields json_list h) now r)
    (handoffs d) (handoffs d')
  ∧ sessions d' = sessions d.
Proof.
  unfold refresh_handoff_row. intros H. open_transaction.
  apply expire_same_cwd_Ok in Hr as (Hrow & Hs & _). cbn. split; [|done].
  eapply (rowwise_trans _ (λ r r', h_id r = id ∧ is_handoff_state HsOpen r = true
            ∧ r' = refresh_row (handoff_fields json_list h) now r)); [exact Hrow| |..].
  - apply rowwise_update. by intros r _ [?%is_handoff_true ?]%andb_true_iff.
  - intros x y [? _]. by left.
  - by right.
  - intros x y z ((_ & _ & _ & _ & _ & ->) & _) (_ & Ho & _). by apply state_true in Ho.
Qed.

Lemma find_session_Some d id s : find_session d id = Some s → s ∈ sessions d ∧ s_id s = id.
Proof.
  unfold find_session. intros H. apply List.find_some in H as [H%list_elem_of_In Hid].
  by apply bool_decide_eq_true in Hid.
Qed.

Lemma checkpoint_stepped f d h id now res d' t :
  ht_cmd t = CmdCheckpoint h → ht_id t = id → ht_now t = now →
  NoDup (h_id <$> handoffs d) →
  checkpoint_session_handoff json_list order f d h id now = Ok (res, d') →
  stepped d d' t (RepCheckpointed res).
Proof.
  intros Hc <- <- Hn H. unfold checkpoint_session_handoff in H.
  destruct (nh_from_session h) as [session|] eqn:Ef; [|done]. open_transaction.
  destruct (find_session d session) as [s|] eqn:Es; [|open_transaction; apply stepped_rowwise, rowwise_refl].
  destruct (bool_decide (s_ended_at s = None)); [|open_transaction; apply stepped_rowwise, rowwise_refl].
  open_transaction.
  rewrite !orb_false_iff, !negb_false_iff, !bool_decide_eq_true in Hg. destruct Hg as [[Ew Ep] Eo].
  destruct (head _) as [baton|] eqn:Eh; cbn [fmap option_fmap option_map] in Hr0.
  - open_transaction. cbn [fst snd].
    destruct (order newest_created _) as [|b rest] eqn:El; [done|]. injection Eh as ->.
    assert (Hswo : StrictWeakOrder newest_created).
    { split; unfold newest_created; intros *; lia. }
    destruct (order_head _ _ _ _ _ _ _ El) as [[Hb Hown]%elem_filter _].
    match goal with H : refresh_handoff_row _ _ _ _ _ _ = Ok _ |- _ =>
      apply refresh_handoff_row_Ok in H as [Hrow Hs] end. apply stepped_rowwise.
    eapply rowwise_mono; [|exact Hrow]. intros r r' Hr' [Hsup|(Hid & Ho & ->)].
    + eapply touch_superseded; [by rewrite Hc|]. by eapply superseded_sessions.
    + assert (r = baton) as -> by by apply (key_unique h_id (handoffs d)).
      unfold own_open_baton in Hown. rewrite !andb_true_iff, !bool_decide_eq_true in Hown.
      destruct Hown as [[[? ?] ?] ?]. eapply touch_refreshed; try done; congruence.
  - destruct a0 as [id' d0]. cbn [fst snd].
    eapply stepped_inserted; [by rewrite Hc|done|done].
Qed.

Lemma latest_accepted_order : StrictWeakOrder latest_accepted.
Proof. split; unfold latest_accepted; intros *; repeat case_match; lia. Qed.

(** Ending a session nothing was done in releases at most the handoff it holds. *)
Lemma end_lifecycle_in_tx_Ok f d session ended now out d' :
  end_lifecycle_only_session_in_tx order f d session ended now = Ok (out, d') →
  match out with
  | Substantive =>
      d' = d ∧ existsb (λ o, bool_decide (o_session o = session) && o_substantive o) (observations d) = true
  | Ended held =>
      existsb (λ o, bool_decide (o_session o = session) && o_substantive o) (observations d) = false
      ∧ sessions d' = update_where (λ s, bool_decide (s_id s = session))
                        (end_row d session None ended) (sessions d)
      ∧ observations d' = observations d
      ∧ rowwise (λ r r', held = Some (h_id r) ∧ holds_baton session r = true ∧ r' = release_row r)
          (handoffs d) (handoffs d')
  end.
Proof.
  unfold end_lifecycle_only_session_in_tx. intros H. open_transaction.
  destruct (existsb _ (observations d)) eqn:Ex; [by simplify_eq|].
  unfold end_session_row in H. open_transaction. cbn [handoffs with_sessions] in H.
  destruct (head _) as [held|] eqn:Eh; open_transaction; (split; [done|]);
    (split; [done|]); (split; [done|]); cbn; [|apply rowwise_refl].
  apply rowwise_update. by intros r _ [->%is_handoff_true ?]%andb_true_iff.
Qed.

(** Every command of the writer changes only what it is entitled to. *)
Lemma step_touches d t reply d' :
  NoDup (h_id <$> handoffs d) → step_of d t = (reply, d') → stepped d d' t reply.
Proof.
  intros Hn H. unfold step_of, handoff_step in H.
  destruct (ht_cmd t) as [h|h|session page h|a bs|session|id ws pj flt|ws pj flt older author|ss os] eqn:Ec;
    [apply handoff_reply_Ok in H as [(x & H & ->)|(e & -> & ->)];
      [|apply stepped_rowwise, rowwise_refl]..|].
  - unfold insert_handoff in H. open_transaction. eapply stepped_inserted; [by rewrite Ec|done|done].
  - by eapply checkpoint_stepped.
  - unfold end_session_with_handoff in H. open_transaction.
    destruct (find_session d session); [|done]. open_transaction.
    unfold end_session_row in *. open_transaction.
    eapply stepped_inserted; [by rewrite Ec| |done]. done.
  - apply accept_handoff_Ok in H; [|done]. apply stepped_rowwise. destruct x.
    + destruct H as (target & Hin & Ht & Ho & Hfree & _ & Hrow). eapply rowwise_mono; [|exact Hrow].
      intros r r' Hr' [[-> ->]|(Ha & Hne & Hsw & ->)].
      * by eapply touch_accepted.
      * by eapply (touch_swept _ _ _ _ a bs target).
    + rewrite H. apply rowwise_refl.
  - unfold end_lifecycle_only_session in H. open_transaction.
    match goal with H : end_lifecycle_only_session_in_tx _ _ _ _ _ _ = Ok (_, _) |- _ =>
      apply end_lifecycle_in_tx_Ok in H end.
    apply stepped_rowwise. destruct x; [|].
    + destruct Hr0 as [-> _]. apply rowwise_refl.
    + destruct Hr0 as (_ & _ & _ & Hrow). eapply rowwise_mono; [|exact Hrow].
      intros r r' _ (-> & Hh & ->). by eapply touch_released.
  - unfold cancel_handoff in H. open_transaction. apply stepped_rowwise.
    cbn [handoffs with_handoffs].
    apply rowwise_update. intros r Hr' Hx.
    assert (Hpos : (0 <? count_where (λ r, is_handoff id r && in_scope ws pj r
                      && is_handoff_state HsOpen r && owner_clause flt r) (handoffs d)) = true).
    { apply Nat.ltb_lt. apply Nat.neq_0_lt_0, count_where_pos. eauto. }
    rewrite Hpos. rewrite !andb_true_iff, is_handoff_true in Hx. destruct Hx as [[[? ?] ?] ?].
    by eapply touch_cancelled.
  - unfold expire_open_handoffs in H. open_transaction. apply stepped_rowwise.
    cbn [handoffs with_handoffs].
    apply rowwise_update. intros r Hr' Hx. eapply touch_expired; [done|done| | | | |].
    { apply count_where_pos. eauto. }
    all: rewrite !andb_true_iff in Hx; destruct Hx as [[[? ?] ?] Hold]; try done.
    intros cutoff ->. lia.
  - injection H as <- <-. apply stepped_rowwise, rowwise_refl.
Qed.
(** ** The invariant *)

(** Acceptance is recorded exactly on accepted rows. *)
Definition acceptance_ok (r : HandoffRow) : Prop :=
  (∃ s, is_handoff_state s r = true)
  ∧ (is_handoff_state HsAccepted r = false →
     h_accepted_by r = None ∧ h_accepted_at r = None ∧ h_accepted_by_session r = None
     ∧ h_accepted_by_user r = None)
  ∧ (is_handoff_state HsAccepted r = true → is_Some (h_accepted_by r) ∧ is_Some (h_accepted_at r)).

Record handoffs_ok (d : HandoffDb) : Prop := {
  ok_ids : NoDup (h_id <$> handoffs d);
  ok_rows : Forall acceptance_ok (handoffs d);
  ok_receivers session r1 r2 :
    r1 ∈ handoffs d → r2 ∈ handoffs d → holds_baton session r1 = true →
    holds_baton session r2 = true → r1 = r2;
}.

Lemma not_in_state s s' r : is_handoff_state s r = true → s ≠ s' → is_handoff_state s' r = false.
Proof.
  intros H Hne. destruct (is_handoff_state s' r) eqn:E; [|done]. by rewrite (state_exclusive _ _ _ H E) in Hne.
Qed.

Lemma touch_acceptance d d' t reply r r' :
  touch d d' t reply r r' → acceptance_ok r → acceptance_ok r'.
Proof.
  intros Ht (_ & Hna & Ha).
  assert (Hexp : is_handoff_state HsOpen r = true → acceptance_ok (set_handoff_state HsExpired r)).
  { intros Ho. split; [by exists HsExpired|]. split; [|done]. intros _. cbn.
    apply Hna. by eapply not_in_state. }
  destruct Ht as [h r r' _ (_ & Ho & _ & _ & _ & ->)|h s r _ _ _ _ _ Ho _|a bs r _ _ _ _ _
    |a bs tg r _ _ _ _ _ _ _ Hsw|s r _ _ _|id ws pj fl r _ _ _ _ Ho _|ws pj fl o au n r _ _ _ _ Ho _ _];
    try (by apply Hexp).
  - assert (Hr : is_handoff_state HsAccepted r = false) by by eapply not_in_state.
    split; [by exists HsOpen|]. split; [intros _; by apply Hna|].
    intros H. change (is_handoff_state HsAccepted r = true) in H. congruence.
  - split; [by exists HsAccepted|]. split; [done|]. cbn. eauto.
  - apply Hexp. destruct Hsw as [Hsw _]. unfold sweep_candidate in Hsw.
    rewrite !andb_true_iff in Hsw. apply Hsw.
  - split; [by exists HsOpen|]. split; [done|]. done.
Qed.

(** A row holds a baton for a session after a command only if it did before
    or was claimed by it just now. *)
Lemma touch_holds d d' t reply r r' session :
  touch d d' t reply r r' → holds_baton session r' = true →
  holds_baton session r = true
  ∨ ∃ a bs, ht_cmd t = CmdAccept a bs ∧ claim_target a r = true
            ∧ ∀ r0, r0 ∈ handoffs d → holds_baton session r0 = false.
Proof.
  intros Ht Hh.
  destruct Ht as [h r r' _ (_ & _ & _ & _ & _ & ->)|h s r _ _ _ _ _ Ho _|a bs r Ec _ Htg _ Hfree
    |a bs tg r _ _ _ _ _ _ _ _|s r _ _ _|id ws pj fl r _ _ _ _ _ _|ws pj fl o au n r _ _ _ _ _ _ _];
    try (by apply andb_true_iff in Hh as [Hh%state_true _]).
  - by left.
  - right. exists a, bs. split; [done|]. split; [done|].
    apply andb_true_iff in Hh as [_ Hs%bool_decide_eq_true]. by apply Hfree.
Qed.

(** Only an open row is claimed, refreshed or retired: an accepted row changes
    only by the release of its receiver, an expired one never. *)
Lemma touch_not_open d d' t reply r r' s :
  touch d d' t reply r r' → is_handoff_state s r = true → s ≠ HsOpen →
  ∃ session, ht_cmd t = CmdEndLifecycleOnly session ∧ s = HsAccepted
             ∧ reply = RepEnded (Ended (Some (h_id r))) ∧ holds_baton session r = true
             ∧ r' = release_row r.
Proof.
  intros Ht Hs Hne. assert (Hopen : is_handoff_state HsOpen r = true → False).
  { intros Ho. by apply (state_exclusive _ _ _ Ho) in Hs. }
  destruct Ht as [h r r' _ (_ & Ho & _)|h s0 r _ _ _ _ _ Ho _|a bs r _ _ Ho _ _
    |a bs tg r _ _ _ _ _ _ _ [Ho _]|s0 r Ec Er Hh|id ws pj fl r _ _ _ _ Ho _|ws pj fl o au n r _ _ _ _ Ho _ _];
    try (by destruct (Hopen Ho)).
  - by apply andb_true_iff in Ho as [_ Ho%Hopen].
  - unfold sweep_candidate in Ho. rewrite !andb_true_iff in Ho. by destruct Ho as [[[[_ Ho%Hopen] _] _] _].
  - exists s0. repeat split; try done. apply andb_true_iff in Hh as [Hh _].
    symmetry. by eapply state_exclusive.
Qed.

Lemma step_ok d t reply d' : handoffs_ok d → step_of d t = (reply, d') → handoffs_ok d'.
Proof.
  intros [Hn Hrows Hrec] H. destruct (step_touches _ _ _ _ Hn H) as (kept & fresh & Hd' & Hrow & Hf).
  assert (Hids : h_id <$> kept = h_id <$> handoffs d).
  { eapply rowwise_ids; [|exact Hrow]. apply touch_id. }
  rewrite Forall_forall in Hrows. split; rewrite Hd'.
  - rewrite fmap_app, Hids. destruct Hf as [->|(h & _ & -> & Hfresh)]; [by rewrite app_nil_r|].
    apply NoDup_app. split; [done|]. split; [|apply NoDup_singleton].
    intros x Hx ->%list_elem_of_singleton. rewrite <- Hids in Hx.
    apply list_elem_of_fmap in Hx as (r & Hid & Hr). by apply (Hfresh r Hr).
  - apply Forall_app. split.
    + rewrite Forall_forall. intros r' Hr'. destruct (elem_rowwise _ _ _ _ Hrow Hr') as (r & Hr & [->|Ht]).
      * by apply Hrows.
      * eapply touch_acceptance; [exact Ht|]. by apply Hrows.
    + destruct Hf as [->|(h & _ & -> & _)]; [constructor|]. constructor; [|constructor].
      split; [by exists HsOpen|]. by split.
  - assert (Hkept : ∀ session r', r' ∈ kept ++ fresh → holds_baton session r' = true →
      ∃ r, r ∈ handoffs d ∧ r' ∈ kept ∧ h_id r' = h_id r
           ∧ (r' = r ∨ ∃ a bs, ht_cmd t = CmdAccept a bs ∧ claim_target a r = true
                ∧ ∀ r0, r0 ∈ handoffs d → holds_baton session r0 = false)).
    { intros session r' [Hr'|Hr']%elem_of_app Hh.
      - destruct (elem_rowwise _ _ _ _ Hrow Hr') as (r & Hr & [->|Ht]).
        + exists r. auto.
        + destruct (touch_holds _ _ _ _ _ _ _ Ht Hh) as [Hold|Hacc].
          * exists r. split; [done|]. split; [done|]. split; [by eapply touch_id|].
            left. exfalso.
            pose proof Hold as [Hacc _]%andb_true_iff.
            apply (touch_not_open _ _ _ _ _ _ _ Ht) in Hacc as (s0 & _ & _ & _ & _ & ->); [|done].
            by apply andb_true_iff in Hh as [Hh%state_true _].
          * exists r. split; [done|]. split; [done|]. split; [by eapply touch_id|]. by right.
      - exfalso. destruct Hf as [->|(h & _ & -> & _)]; [by apply elem_of_nil in Hr'|].
        apply list_elem_of_singleton in Hr' as ->. by apply andb_true_iff in Hh as [Hh%state_true _]. }
    intros session r1' r2' Hr1 Hr2 Hh1 Hh2.
    destruct (Hkept session r1' Hr1 Hh1) as (r1 & Hr1d & Hr1k & Hid1 & Hc1).
    destruct (Hkept session r2' Hr2 Hh2) as (r2 & Hr2d & Hr2k & Hid2 & Hc2).
    assert (r1 = r2) as ->.
    { destruct Hc1 as [->|(a1 & b1 & E1 & T1 & F1)], Hc2 as [->|(a2 & b2 & E2 & T2 & F2)].
      - by eapply Hrec.
      - by rewrite F2 in Hh1.
      - by rewrite F1 in Hh2.
      - rewrite E1 in E2. injection E2 as -> ->. unfold claim_target in *.
        rewrite !andb_true_iff, !is_handoff_true in T1, T2.
        destruct T1 as [[T1 _] _], T2 as [[T2 _] _]. apply (key_unique h_id (handoffs d)); congruence. }
    apply (key_unique h_id kept); [by rewrite Hids|done|done|congruence].
Qed.
End Facts.
