(* ===== verification/HandoffContract.v ===== *)
(** * The contract of handoffs

    Claimed once, never across an operator or project boundary, selected by
    the published preference, and claimable when selected; and the directory
    rule as a prefix of path components. *)

From S2P Require Export HandoffsFacts.
From S2P Require Import IdentityFacts.
From Stdlib Require Import ZifyBool ZifyN.
Open Scope nat_scope.
Open Scope rust_scope.

Definition HandoffHistory := list (HandoffTurn * HandoffReply).

Section Contract.
Variable json_list : list bytes → bytes.
Variable json_strings : bytes → option (list bytes).
Variable timestamp_ok : Z → bool.
Variable order : OrderBy HandoffRow.
Context `{!OrdersRows order}.

(** What the writer makes of the tables, one command after the other. *)
Inductive trajectory : HandoffDb → HandoffHistory → HandoffDb → Prop :=
  | trajectory_nil d : trajectory d [] d
  | trajectory_cons d t reply d1 h d2 :
      step_of json_list order d t = (reply, d1) → trajectory d1 h d2 →
      trajectory d ((t, reply) :: h) d2.

Hint Constructors trajectory : core.

Lemma trajectory_app d h1 h2 d2 :
  trajectory d (h1 ++ h2) d2 ↔ ∃ d1, trajectory d h1 d1 ∧ trajectory d1 h2 d2.
Proof.
  split.
  - revert d. induction h1 as [|[t reply] h1 IH]; intros d H; [eauto|].
    inversion H; subst. destruct (IH _ ltac:(eassumption)) as (d1' & ? & ?). eauto.
  - intros (d1 & H1 & H2). revert H2. induction H1; intros H2; [done|]. cbn. eauto.
Qed.

Lemma trajectory_ok d h d' : handoffs_ok d → trajectory d h d' → handoffs_ok d'.
Proof.
  intros Hok Ht. induction Ht as [|d t reply d1 h d2 Hs Ht IH]; [done|].
  apply IH. by eapply (step_ok json_list order).
Qed.

(** A table without handoffs is fine. *)
Lemma no_handoffs_ok d : handoffs d = [] → handoffs_ok d.
Proof.
  intros Hd. split; rewrite Hd; [constructor|constructor|]. by intros ? ? ? ?%elem_of_nil.
Qed.

(** A row and what a command makes of it. *)
Lemma step_row d t reply d' r :
  handoffs_ok d → step_of json_list order d t = (reply, d') → r ∈ handoffs d →
  ∃ r', r' ∈ handoffs d' ∧ h_id r' = h_id r ∧ (r' = r ∨ touch json_list d d' t reply r r').
Proof.
  intros [Hn _ _] Hs Hr.
  destruct (step_touches json_list order _ _ _ _ Hn Hs) as (kept & fresh & Hd' & Hrow & _).
  destruct (rowwise_elem _ _ _ _ Hrow Hr) as (r' & Hr' & Hc). exists r'. split.
  - rewrite Hd'. apply elem_of_app. by left.
  - split; [|done]. destruct Hc as [->|Ht]; [done|by eapply touch_id].
Qed.

(** ** Claimed once *)

Lemma accepted_stays d t reply d' r :
  handoffs_ok d → step_of json_list order d t = (reply, d') → r ∈ handoffs d →
  is_handoff_state HsAccepted r = true → reply ≠ RepEnded (Ended (Some (h_id r))) →
  r ∈ handoffs d'.
Proof.
  intros Hok Hs Hr Ha Hne. destruct (step_row _ _ _ _ _ Hok Hs Hr) as (r' & Hr' & _ & [->|Ht]); [done|].
  by apply (touch_not_open json_list _ _ _ _ _ _ _ Ht) in Ha as (s & _ & _ & E & _).
Qed.

Lemma accepted_until_released d h d' r :
  handoffs_ok d → trajectory d h d' → r ∈ handoffs d → is_handoff_state HsAccepted r = true →
  (∃ t, (t, RepEnded (Ended (Some (h_id r)))) ∈ h) ∨ r ∈ handoffs d'.
Proof.
  intros Hok Ht. induction Ht as [d|d t reply d1 h d2 Hs Ht IH]; intros Hr Ha; [by right|].
  assert (Hrep : reply = RepEnded (Ended (Some (h_id r))) ∨ reply ≠ RepEnded (Ended (Some (h_id r)))).
  { destruct reply as [| | |[|[id|]]| | | |]; try (by right).
    destruct (decide (id = h_id r)) as [->|Hne]; [by left|right]. by intros [= ?]. }
  destruct Hrep as [->|Hne]; [left; exists t; by left|].
  destruct IH as [[t0 Ht0]|]; [by eapply (step_ok json_list order)|by eapply accepted_stays|done| |by right].
  left. exists t0. by right.
Qed.

Lemma accept_claims d t d' a busy_since :
  handoffs_ok d → ht_cmd t = CmdAccept a busy_since →
  step_of json_list order d t = (RepAccepted true, d') →
  ∃ r, r ∈ handoffs d ∧ claim_target a r = true ∧ admits (ha_filter a) (h_owner_user r) = true
       ∧ accept_row a (ht_now t) r ∈ handoffs d'.
Proof.
  intros [Hn _ _] Hc Hs. unfold step_of, handoff_step in Hs. rewrite Hc in Hs.
  apply handoff_reply_Ok in Hs as [(x & H & [= <-])|(e & [=] & _)].
  apply accept_handoff_Ok in H; [|done]. destruct H as (r & Hr & Ht & Ho & _ & Hacc & _).
  exists r. by rewrite <- owner_clause_admits.
Qed.

Lemma claim_target_true a r :
  claim_target a r = true ↔
  h_id r = ha_id a ∧ in_scope (ha_workspace a) (ha_project a) r = true
  ∧ is_handoff_state HsOpen r = true.
Proof. unfold claim_target. rewrite !andb_true_iff, is_handoff_true. naive_solver. Qed.


(** ** The boundary of operators and projects *)

(** Whom a command may act for, per row. *)
Definition entitled (cmd : HandoffCmd) (r : HandoffRow) : Prop :=
  match cmd with
  | CmdPublish h | CmdCheckpoint h | CmdEndWithHandoff _ _ h =>
      h_owner_user r = nh_owner_user h ∧ in_scope (nh_workspace h) (nh_project h) r = true
      ∧ automatic r = true
  | CmdAccept a _ =>
      admits (ha_filter a) (h_owner_user r) = true
      ∧ in_scope (ha_workspace a) (ha_project a) r = true
  | CmdEndLifecycleOnly session => holds_baton session r = true
  | CmdCancelHandoff id ws pj filter =>
      h_id r = id ∧ admits filter (h_owner_user r) = true ∧ in_scope ws pj r = true
  | CmdExpireOpen ws pj filter _ _ =>
      admits filter (h_owner_user r) = true ∧ in_scope ws pj r = true
  | CmdOthers _ _ => False
  end.

(** Whose a handoff is and where it came from. *)
Definition provenance (r : HandoffRow)
    : HandoffId * WorkspaceId * ProjectId * option SessionId * string * option string * option bytes :=
  (h_id r, h_workspace r, h_project r, h_from_session r, h_from_agent r, h_to_agent r, h_owner_user r).

Lemma touch_entitled d d' t reply r r' :
  touch json_list d d' t reply r r' → entitled (ht_cmd t) r ∧ provenance r' = provenance r.
Proof.
  intros Ht.
  destruct Ht as [h r r' Hp (Hsc & _ & Ha & Ho & _ & ->)|h s r Hc Hf Hrf Hsc Ho _ _
    |a bs r Hc _ (_ & Hsc & _)%claim_target_true Ho _
    |a bs tg r Hc _ _ _ Ho _ _ [Hsw _]|s r Hc _ Hh|id ws pj fl r Hc _ <- Hsc _ Ho
    |ws pj fl o au n r Hc _ _ Hsc _ Ho _]; (split; [|done]).
  - unfold entitled. destruct (ht_cmd t); simplify_eq/=; auto.
  - rewrite Hc. cbn. split; [done|]. split; [done|]. unfold automatic. rewrite Hrf. done.
  - rewrite Hc. cbn. by rewrite <- owner_clause_admits.
  - rewrite Hc. cbn. unfold sweep_candidate in Hsw. rewrite !andb_true_iff in Hsw.
    destruct Hsw as [[[[Hsc _] _] Hown%bool_decide_eq_true] _]. rewrite Hown, <- owner_clause_admits. done.
  - by rewrite Hc.
  - rewrite Hc. cbn. by rewrite <- owner_clause_admits.
  - rewrite Hc. cbn. by rewrite <- owner_clause_admits.
Qed.

(** ** Selection *)

Lemma selection_lt_irrefl k : selection_lt k k = false.
Proof.
  unfold selection_lt. rewrite bool_decide_eq_true_2 by done.
  rewrite Z.eqb_refl, Nat.eqb_refl. apply N.ltb_irrefl.
Qed.

Lemma selection_lt_trans a b c :
  selection_lt a b = true → selection_lt b c = true → selection_lt a c = true.
Proof.
  destruct a as [[] ? ? ?], b as [[] ? ? ?], c as [[] ? ? ?]; unfold selection_lt; cbn;
    repeat (case_bool_decide; try done); repeat case_match; lia.
Qed.

(** Keys of different handoffs are ordered one way or the other. *)
Lemma selection_lt_total a b :
  sk_id a ≠ sk_id b → selection_lt a b = false → selection_lt b a = true.
Proof.
  destruct a as [[] ? ? ?], b as [[] ? ? ?]; unfold selection_lt; cbn;
    repeat (case_bool_decide; try done); repeat case_match; lia.
Qed.

(** The loop ends with the preferred candidate. *)
Lemma keep_preferred_best cwd_filter filter hs seen selected :
  NoDup (hv_id <$> seen ++ hs) →
  match selected with
  | Some c => c ∈ seen ∧ is_handoff_candidate c cwd_filter filter = true
              ∧ ∀ h, h ∈ seen → is_handoff_candidate h cwd_filter filter = true → h ≠ c →
                     prefer_handoff c h = true
  | None => ∀ h, h ∈ seen → is_handoff_candidate h cwd_filter filter = false
  end →
  match foldl (keep_preferred cwd_filter filter) selected hs with
  | Some c => c ∈ seen ++ hs ∧ is_handoff_candidate c cwd_filter filter = true
              ∧ ∀ h, h ∈ seen ++ hs → is_handoff_candidate h cwd_filter filter = true → h ≠ c →
                     prefer_handoff c h = true
  | None => ∀ h, h ∈ seen ++ hs → is_handoff_candidate h cwd_filter filter = false
  end.
Proof.
  revert seen selected. induction hs as [|x hs IH]; intros seen selected Hn Hsel.
  - by rewrite app_nil_r.
  - cbn [foldl]. replace (seen ++ x :: hs) with ((seen ++ [x]) ++ hs) in * by by rewrite <- app_assoc.
    apply IH; [done|]. unfold keep_preferred.
    assert (Hx : ∀ c, c ∈ seen → hv_id c ≠ hv_id x).
    { intros c Hc Hid. rewrite !fmap_app in Hn. apply NoDup_app in Hn as [Hn _].
      apply NoDup_app in Hn as (_ & Hd & _). apply (Hd (hv_id c)).
      - by apply list_elem_of_fmap_2.
      - rewrite Hid. by left. }
    destruct (is_handoff_candidate x cwd_filter filter) eqn:Ec; cbn [andb].
    + destruct selected as [c|].
      * destruct Hsel as (Hc & Hcc & Hbest). destruct (prefer_handoff x c) eqn:Ep.
        -- split; [apply elem_of_app; right; by left|]. split; [done|].
           intros h [Hh|Hh]%elem_of_app Hhc Hne.
           ++ destruct (decide (hv_id h = hv_id c)) as [Hid|Hid].
              ** assert (h = c) as ->; [|done].
                 rewrite !fmap_app, <- app_assoc in Hn. apply NoDup_app in Hn as [Hn _].
                 by apply (key_unique hv_id seen).
              ** assert (Hhc' : prefer_handoff c h = true) by (apply Hbest; [done|done|by intros ->]).
                 unfold prefer_handoff in *. eauto using selection_lt_trans.
           ++ apply list_elem_of_singleton in Hh as ->. done.
        -- split; [apply elem_of_app; by left|]. split; [done|].
           intros h [Hh|Hh]%elem_of_app Hhc Hne; [by apply Hbest|].
           apply list_elem_of_singleton in Hh as ->. unfold prefer_handoff in *.
           apply selection_lt_total; [|done]. by apply Hx.
      * split; [apply elem_of_app; right; by left|]. split; [done|].
        intros h [Hh|Hh]%elem_of_app Hhc Hne; [by rewrite Hsel in Hhc|].
        by apply list_elem_of_singleton in Hh as ->.
    + destruct selected as [c|].
      * destruct Hsel as (Hc & Hcc & Hbest). split; [apply elem_of_app; by left|]. split; [done|].
        intros h [Hh|Hh]%elem_of_app Hhc Hne; [by apply Hbest|].
        apply list_elem_of_singleton in Hh as ->. by rewrite Ec in Hhc.
      * intros h [Hh|Hh]%elem_of_app; [by apply Hsel|]. by apply list_elem_of_singleton in Hh as ->.
Qed.

Lemma row_to_handoff_Ok r hv :
  row_to_handoff json_strings timestamp_ok r = Ok hv →
  hv_id hv = h_id r ∧ hv_from_session hv = h_from_session r ∧ hv_cwd hv = h_cwd r
  ∧ hv_owner_user hv = h_owner_user r ∧ hv_created_at hv = h_created_at r.
Proof.
  unfold row_to_handoff, read_time, strings_from_str. intros H. peel_ok. subst hv. cbn.
  repeat split. destruct (timestamp_ok (h_created_at r)); [|done]. by simplify_eq.
Qed.

Lemma try_map_elem {A B E} (f : A → result B E) l l' y :
  try_map f l = Ok l' → y ∈ l' → ∃ x, x ∈ l ∧ f x = Ok y.
Proof.
  revert l'. induction l as [|x l IH]; intros l' H Hy; cbn in H.
  - injection H as <-. by apply elem_of_nil in Hy.
  - destruct (f x) as [b|e] eqn:Ef; [|done]. destruct (try_map f l) as [bs|e] eqn:Em; [|done].
    injection H as <-. apply elem_of_cons in Hy as [->|Hy].
    + exists x. split; [by left|done].
    + destruct (IH _ eq_refl Hy) as (x' & ? & ?). exists x'. split; [by right|done].
Qed.

Lemma try_map_elem_r {A B E} (f : A → result B E) l l' x :
  try_map f l = Ok l' → x ∈ l → ∃ y, y ∈ l' ∧ f x = Ok y.
Proof.
  revert l'. induction l as [|x0 l IH]; intros l' H Hx; cbn in H; [by apply elem_of_nil in Hx|].
  destruct (f x0) as [b|e] eqn:Ef; [|done]. destruct (try_map f l) as [bs|e] eqn:Em; [|done].
  injection H as <-. apply elem_of_cons in Hx as [->|Hx].
  - exists b. split; [by left|done].
  - destruct (IH _ eq_refl Hx) as (y & ? & ?). exists y. split; [by right|done].
Qed.

Lemma try_map_ids rows hs :
  try_map (row_to_handoff json_strings timestamp_ok) rows = Ok hs → hv_id <$> hs = h_id <$> rows.
Proof.
  revert hs. induction rows as [|r rows IH]; intros hs H; cbn in H; [by injection H as <-|].
  destruct (row_to_handoff _ _ r) as [hv|e] eqn:Er; [|done].
  destruct (try_map _ rows) as [hvs|e]; [|done]. injection H as <-.
  rewrite !fmap_cons, (IH _ eq_refl). f_equal. by apply row_to_handoff_Ok in Er as [-> _].
Qed.

(** A handoff a session in this directory may get. *)
Definition candidate_row (d : HandoffDb) (ws : WorkspaceId) (pj : ProjectId) (filter : OwnerFilter)
    (busy_since : option Z) (cwd_filter : option bytes) (r : HandoffRow) : Prop :=
  deliverable d ws pj filter busy_since r = true
  ∧ (automatic r = true → auto_handoff_matches_cwd (h_cwd r) cwd_filter = true).

Definition row_key (r : HandoffRow) : SelectionKey :=
  handoff_selection_key (negb (automatic r)) (h_created_at r) (h_cwd r) (h_id r).

Lemma candidate_row_handoff d ws pj filter busy_since cwd_filter r hv :
  deliverable d ws pj filter busy_since r = true →
  row_to_handoff json_strings timestamp_ok r = Ok hv →
  (is_handoff_candidate hv cwd_filter filter = true
   ↔ candidate_row d ws pj filter busy_since cwd_filter r)
  ∧ handoff_key hv = row_key r.
Proof.
  intros Hd (Hid & Hf & Hc & Ho & Ht)%row_to_handoff_Ok.
  unfold is_handoff_candidate, candidate_row, handoff_key, row_key, automatic.
  rewrite Hid, Hf, Hc, Ho, Ht. split.
  - pose proof Hd as [[_ Hown]%andb_true_iff _]%andb_true_iff.
    rewrite owner_clause_admits in Hown. rewrite Hown. cbn [negb].
    destruct (h_from_session r); cbn; naive_solver.
  - by destruct (h_from_session r).
Qed.

Lemma newest_created_order : StrictWeakOrder newest_created.
Proof. split; unfold newest_created; intros *; lia. Qed.

(** What is selected is a candidate, and preferred to every other one. *)
Lemma open_handoff_for_best f d ws pj cwd_filter filter busy_since res :
  handoffs_ok d →
  open_handoff_for json_strings timestamp_ok order f d ws pj cwd_filter filter busy_since = Ok res →
  match res with
  | Some hv =>
      ∃ r, r ∈ handoffs d ∧ row_to_handoff json_strings timestamp_ok r = Ok hv
           ∧ candidate_row d ws pj filter busy_since cwd_filter r
           ∧ ∀ r', r' ∈ handoffs d → candidate_row d ws pj filter busy_since cwd_filter r' → r' ≠ r →
                   selection_lt (row_key r') (row_key r) = true
  | None => ∀ r, r ∈ handoffs d → ¬ candidate_row d ws pj filter busy_since cwd_filter r
  end.
Proof.
  intros [Hn _ _] H. unfold open_handoff_for in H. open_transaction.
  set (rows := order newest_created (List.filter (deliverable d ws pj filter busy_since) (handoffs d))) in *.
  pose proof newest_created_order as Hswo.
  assert (Hrows : ∀ r, r ∈ rows ↔ r ∈ handoffs d ∧ deliverable d ws pj filter busy_since r = true).
  { intros r. unfold rows. rewrite (order_perm (order:=order) newest_created). apply elem_filter. }
  assert (Hids : NoDup (hv_id <$> a0)).
  { rewrite (try_map_ids _ _ Hr0). unfold rows.
    rewrite (order_perm (order:=order) newest_created).
    by apply (NoDup_key_filter h_id). }
  pose proof (keep_preferred_best cwd_filter filter a0 [] None Hids) as Hbest.
  destruct (foldl _ None a0) as [hv|]; specialize (Hbest ltac:(by intros h Hh%elem_of_nil)).
  - destruct Hbest as (Hin & Hc & Hb). destruct (try_map_elem _ _ _ _ Hr0 Hin) as (r & Hr & Hread).
    pose proof (proj1 (Hrows r) Hr) as [Hrd Hdel]. exists r. split; [done|]. split; [done|].
    destruct (candidate_row_handoff _ _ _ _ _ cwd_filter _ _ Hdel Hread) as [Hiff Hkey].
    split; [by apply Hiff|]. intros r' Hr' Hcand Hne. pose proof Hcand as [Hdel' _].
    destruct (try_map_elem_r _ _ _ r' Hr0) as (hv' & Hin' & Hread'); [by apply Hrows|].
    destruct (candidate_row_handoff _ _ _ _ _ cwd_filter _ _ Hdel' Hread') as [Hiff' Hkey'].
    rewrite <- Hkey, <- Hkey'. apply Hb; [done|by apply Hiff'|]. intros ->. apply Hne.
    apply (key_unique h_id (handoffs d)); [done..|].
    apply row_to_handoff_Ok in Hread as [<- _], Hread' as [<- _]. done.
  - intros r Hr' Hcand. pose proof Hcand as [Hdel _].
    destruct (try_map_elem_r _ _ _ r Hr0) as (hv' & Hin' & Hread'); [by apply Hrows|].
    destruct (candidate_row_handoff _ _ _ _ _ cwd_filter _ _ Hdel Hread') as [Hiff' _].
    specialize (Hbest hv' Hin'). by rewrite (proj2 Hiff' Hcand) in Hbest.
Qed.
(** ** Claiming what was selected *)

Lemma expire_chunks_no_faults k batches rows expired :
  ∃ res, expire_chunks no_faults k batches rows expired = Ok res.
Proof.
  revert k rows expired. induction batches as [|ids batches IH]; intros k rows expired; cbn; [eauto|].
  apply IH.
Qed.

Lemma accept_succeeds d a busy_since now r :
  handoffs_ok d → r ∈ handoffs d → claim_target a r = true → owner_clause (ha_filter a) r = true →
  validate_identity_storage_key (ha_user a) "accepting handoff operator" = Ok tt →
  check_filter (ha_filter a) (ha_user a) = Ok tt →
  (∀ session, ha_session a = Some session →
     check_receiver no_faults d a session = Ok (ReceiverReady d)) →
  source_busy d (default i64_max busy_since) r = false →
  ∃ d', accept_handoff no_faults d a busy_since now = Ok (true, d').
Proof.
  intros [Hn _ _] Hr Ht Ho Hv Hf Hrec Hbusy.
  unfold accept_handoff, accept_handoff_in_transaction, expire_superseded_auto_handoffs, audit,
    audit_with_detail.
  cbn [statement no_faults result_bind]. rewrite Hv, Hf. cbn [result_bind].
  assert (Hready : match ha_session a with
                   | Some session => check_receiver no_faults d a session
                   | None => Ok (ReceiverReady d)
                   end = Ok (ReceiverReady d)).
  { destruct (ha_session a) as [session|]; [by apply Hrec|done]. }
  rewrite Hready. cbn [result_bind].
  rewrite (find_unique h_id (claim_target a) (handoffs d) r Hn Hr Ht).
  2:{ intros r' (Hid & _)%claim_target_true. apply claim_target_true in Ht as (Hid' & _). congruence. }
  cbn [result_bind]. rewrite Hbusy.
  assert (Hpos : (0 <? count_where (λ r, claim_target a r && owner_clause (ha_filter a) r) (handoffs d))
                 = true).
  { apply Nat.ltb_lt. apply Nat.neq_0_lt_0, count_where_pos. exists r. by rewrite Ht, Ho. }
  cbv zeta. rewrite Hpos. destruct (automatic r); [|by eexists].
  match goal with |- context [expire_chunks no_faults ?k ?b ?rows ?e] =>
    destruct (expire_chunks_no_faults k b rows e) as [[rows' n] Hch] end.
  rewrite Hch. cbn [result_bind fst snd].
  destruct (0 <? n); by eexists.
Qed.

(** C35. Delivery: a session that asks for the handoff of its directory is
    offered one exactly when some open handoff of the project is deliverable
    to its operator there (a manual one, or an automatic one left in the
    directory or above it by a session not in use), and it is the preferred
    one: manual before automatic, then the newest, then the most specific
    directory; and claiming what was offered, when nothing happens in between,
    succeeds. *)
Theorem preferred_handoff_is_delivered f d ws pj cwd_filter filter busy_since res :
  handoffs_ok d → Forall (λ o, (o_created_at o ≤ i64_max)%Z) (observations d) →
  open_handoff_for json_strings timestamp_ok order f d ws pj cwd_filter filter busy_since = Ok res →
  match res with
  | None => ∀ r, r ∈ handoffs d → ¬ candidate_row d ws pj filter busy_since cwd_filter r
  | Some hv =>
      ∃ r, r ∈ handoffs d ∧ row_to_handoff json_strings timestamp_ok r = Ok hv
           ∧ candidate_row d ws pj filter busy_since cwd_filter r
           ∧ (∀ r', r' ∈ handoffs d → candidate_row d ws pj filter busy_since cwd_filter r' → r' ≠ r →
                    selection_lt (row_key r') (row_key r) = true)
           ∧ ∀ a now,
               ha_id a = hv_id hv → ha_workspace a = ws → ha_project a = pj → ha_filter a = filter →
               validate_identity_storage_key (ha_user a) "accepting handoff operator" = Ok tt →
               check_filter filter (ha_user a) = Ok tt →
               (∀ session, ha_session a = Some session →
                  check_receiver no_faults d a session = Ok (ReceiverReady d)) →
               ∃ d', accept_handoff no_faults d a busy_since now = Ok (true, d')
  end.
Proof.
  intros Hok Hobs H. pose proof (open_handoff_for_best _ _ _ _ _ _ _ _ Hok H) as Hbest.
  destruct res as [hv|]; [|done]. destruct Hbest as (r & Hr & Hread & Hc & Hb).
  exists r. do 4 (split; [done|]). intros a now Hid <- <- <- Hv Hf Hrec.
  destruct Hc as [[[[Hsc Hopen]%andb_true_iff Ho]%andb_true_iff Hbusy%negb_true_iff]%andb_true_iff _].
  apply (accept_succeeds d a busy_since now r); try done.
  - apply claim_target_true. apply row_to_handoff_Ok in Hread as [<- _]. done.
  - destruct busy_since as [since|]; [done|]. cbn. unfold source_busy.
    destruct (h_from_session r) as [s|]; [|done]. unfold session_busy.
    apply andb_false_iff. right. apply existsb_none. intros o Ho'.
    rewrite Forall_forall in Hobs. specialize (Hobs o Ho'). unfold i64_max in *. lia.
Qed.
End Contract.

(** ** The directory rule *)

Lemma split_on_app c s t : split_on c (s ++ c :: t) = split_on c s ++ split_on c t.
Proof.
  induction s as [|a s IH]; cbn.
  - by rewrite Ascii.eqb_refl.
  - destruct (Ascii.eqb a c); [by rewrite IH|]. rewrite IH.
    destruct (split_on c s) as [|p ps] eqn:E; [by destruct (split_on_nonempty c s)|done].
Qed.

Lemma join_app sep k l : k ≠ [] → l ≠ [] → join sep (k ++ l) = join sep k ++ sep ++ join sep l.
Proof.
  intros Hk Hl. induction k as [|x k IH]; [done|]. destruct k as [|y k].
  - cbn. by destruct l.
  - change ((x :: y :: k) ++ l) with (x :: ((y :: k) ++ l)).
    change (join sep (x :: y :: k)) with (x ++ sep ++ join sep (y :: k)).
    rewrite <- !app_assoc, <- IH by done. done.
Qed.

(** The components of a normalized path; the root is the empty component an
    absolute path begins with. *)
Definition path_components (p : bytes) : list bytes :=
  if bool_decide (normalize_cwd p = [slash]) then [[]] else split_on slash (normalize_cwd p).

Lemma split_on_inj c s t : split_on c s = split_on c t → s = t.
Proof. intros H. rewrite <- (join_split_on c s), H. apply join_split_on. Qed.

Lemma split_on_prefix c s t :
  split_on c s `prefix_of` split_on c t ↔ s = t ∨ ∃ r, t = s ++ c :: r.
Proof.
  split.
  - intros [l Hl]. destruct l as [|x l].
    + left. rewrite app_nil_r in Hl. symmetry. by eapply split_on_inj.
    + right. exists (join [c] (x :: l)). rewrite <- (join_split_on c t), Hl, join_app by
        first [apply split_on_nonempty|done]. by rewrite join_split_on.
  - intros [->|[r ->]]; [done|]. rewrite split_on_app. by apply prefix_app_r.
Qed.

Lemma normalize_not_empty p : normalize_cwd p ≠ [].
Proof.
  unfold normalize_cwd. set (core := match drop_end_while _ _ with [] => _ | _ => _ end).
  assert (core ≠ []) as Hc by (unfold core; by destruct (drop_end_while _ _)).
  clearbody core. destruct (is_windows_style_path core); [|done].
  unfold to_ascii_lowercase. by destruct core.
Qed.

Lemma drop_end_while_last {A} (p : A → bool) l x t : drop_end_while p l = t ++ [x] → p x = false.
Proof.
  unfold drop_end_while. intros H. apply (f_equal reverse) in H.
  rewrite reverse_involutive, reverse_snoc in H. by eapply drop_while_head.
Qed.

(** A normalized path other than the root does not end in a separator. *)
Lemma normalize_last p t : normalize_cwd p = t ++ [slash] → t = [].
Proof.
  unfold normalize_cwd. set (replaced := _ <$> p).
  destruct (drop_end_while (Ascii.eqb slash) replaced) as [|a s] eqn:E.
  - cbn. intros H. by destruct t as [|x [|]].
  - assert (Hlast : ∀ u x, a :: s = u ++ [x] → x ≠ slash).
    { intros u x Hu ->. rewrite Hu in E. apply drop_end_while_last in E. by rewrite Ascii.eqb_refl in E. }
    destruct (is_windows_style_path (a :: s)); intros H.
    + exfalso. destruct (exists_last (l := a :: s)) as (u & x & Hu); [done|].
      pose proof (Hlast u x Hu) as Hne. rewrite Hu in H. unfold to_ascii_lowercase in H.
      rewrite fmap_app in H. apply app_inj_tail in H as [_ H]. cbn in H.
      destruct ((65 <=? byte_val x) && (byte_val x <=? 90))%N eqn:Ex; [|done].
      apply (f_equal byte_val) in H. unfold byte_val in H, Ex. rewrite N_ascii_embedding in H by lia.
      change (N_of_ascii slash) with 47%N in H. lia.
    + exfalso. by apply (Hlast t slash).
Qed.

(** One directory contains another exactly when its normalized path
    components begin the other's: no sibling with a longer name, no parent,
    and nothing that a wildcard character could match. *)
Theorem cwd_within_components ancestor descendant :
  cwd_within ancestor descendant = true
  ↔ path_components ancestor `prefix_of` path_components descendant.
Proof.
  unfold cwd_within, path_components. pose proof (normalize_last ancestor) as Hla.
  pose proof (normalize_last descendant) as Hld. pose proof (normalize_not_empty descendant) as Hd0.
  destruct (decide (normalize_cwd ancestor = normalize_cwd descendant)) as [->|Hne].
  { rewrite (bool_decide_eq_true_2 (_ = _)) by done. done. }
  rewrite (bool_decide_eq_false_2 (normalize_cwd ancestor = normalize_cwd descendant)) by done.
  destruct (decide (normalize_cwd ancestor = [slash])) as [Ha|Ha].
  - rewrite Ha in *. rewrite !(bool_decide_eq_true_2 ([slash] = [slash])) by done.
    rewrite bool_decide_eq_false_2 by congruence.
    destruct (normalize_cwd descendant) as [|x [|y t]] eqn:Ed; [done|..].
    + split; [done|]. cbn. destruct (Ascii.eqb x slash) eqn:Ex.
      * apply Ascii.eqb_eq in Ex as ->. done.
      * intros [l [=]].
    + cbn [split_on]. destruct (Ascii.eqb x slash) eqn:Ex; (split; [|]); try done.
      * intros _. by eexists.
      * intros [l Hl]. cbn in Hl. by repeat case_match.
  - rewrite (bool_decide_eq_false_2 (normalize_cwd ancestor = [slash])) by done.
    destruct (decide (normalize_cwd descendant = [slash])) as [Hd|Hd].
    + rewrite (bool_decide_eq_true_2 (normalize_cwd descendant = [slash])) by done. split.
      * rewrite Hd. destruct (normalize_cwd ancestor) as [|x a] eqn:Ea.
        { by destruct (normalize_not_empty ancestor). }
        cbn. destruct (Ascii.eqb x slash) eqn:Ex; [|done]. apply Ascii.eqb_eq in Ex as ->.
        destruct a; done.
      * intros [l Hl]. exfalso.
        assert (Hs : split_on slash (normalize_cwd ancestor) = [[]]).
        { destruct (split_on slash (normalize_cwd ancestor)) as [|p ps] eqn:E;
            [by destruct (split_on_nonempty slash (normalize_cwd ancestor))|].
          cbn in Hl. injection Hl as <- Hl. by destruct ps. }
        change [[]] with (split_on slash []) in Hs. apply split_on_inj in Hs.
        by destruct (normalize_not_empty ancestor).
    + rewrite (bool_decide_eq_false_2 (normalize_cwd descendant = [slash])) by done.
      rewrite split_on_prefix. split.
      * destruct (strip_prefix _ _) as [[|x r]|] eqn:E; try done. intros Hx%Ascii.eqb_eq. subst x.
        apply strip_prefix_Some in E. right. by exists r.
      * intros [H|[r H]]; [done|]. apply strip_prefix_Some in H. rewrite H. apply Ascii.eqb_refl.
Qed.

Lemma handoff_run_trajectory json_list order d turns replies d' :
  handoff_run json_list order d turns = (replies, d') →
  trajectory json_list order d (zip turns replies) d'.
Proof.
  revert d replies. induction turns as [|t turns IH]; intros d replies H; cbn [handoff_run] in H.
  - injection H as <- <-. constructor.
  - destruct (handoff_step json_list order d t) as [reply d1] eqn:E.
    destruct (handoff_run json_list order d1 turns) as [replies' final] eqn:Er. injection H as <- <-.
    cbn. econstructor; [exact E|]. by apply IH.
Qed.

(** ** A concrete history

    Alice's session ends with a handoff; her next session claims it, ends
    without doing anything and gives it back; the one after claims it again. *)
Definition demo_json (l : list bytes) : bytes := concat l.
Definition demo_order : OrderBy HandoffRow := λ lt rows, sort_by_key id lt rows.
Definition demo_owner : bytes := lit "user:alice".

Definition demo_session (id : SessionId) : SessionRow :=
  mkSessionRow id 1%N 1%N "codex" None 0 (Some demo_owner) None None 0.

Definition demo_start : HandoffDb := mkHandoffDb (demo_session <$> [1; 2; 3]%N) [] [] [].

Definition demo_handoff : NewHandoff :=
  mkNewHandoff 1%N 1%N (Some 1%N) Codex None (Some (lit "/repo/")) (lit "left off at the parser")
    [] [lit "fix it"] [] (Some demo_owner).

Definition demo_accept (session : SessionId) : HandoffAcceptance :=
  mkHandoffAcceptance 5%N 1%N 1%N Codex (Some session) (Some demo_owner) (FilterUser demo_owner)
    (Some (lit "/repo/api")).

Definition demo_turn (cmd : HandoffCmd) (now : Z) : HandoffTurn :=
  mkHandoffTurn cmd 5%N now now no_faults.

Definition demo_turns : list HandoffTurn :=
  [demo_turn (CmdEndWithHandoff 1%N None demo_handoff) 100;
   demo_turn (CmdAccept (demo_accept 2%N) None) 200;
   demo_turn (CmdEndLifecycleOnly 2%N) 300;
   demo_turn (CmdAccept (demo_accept 3%N) None) 400].

Definition demo_run : list HandoffReply * HandoffDb :=
  handoff_run demo_json demo_order demo_start demo_turns.

Lemma demo_trajectory :
  trajectory demo_json demo_order demo_start (zip demo_turns (fst demo_run)) (snd demo_run).
Proof. apply handoff_run_trajectory. unfold demo_run. by destruct (handoff_run _ _ _ _). Qed.


(** Alice's handoff before the claims. *)
Definition demo_published : HandoffDb :=
  snd (handoff_run demo_json demo_order demo_start (take 1 demo_turns)).

Lemma demo_published_ok : handoffs_ok demo_published.
Proof.
  eapply (trajectory_ok demo_json demo_order demo_start); [by apply no_handoffs_ok|].
  apply (handoff_run_trajectory demo_json demo_order demo_start (take 1 demo_turns)
           (fst (handoff_run demo_json demo_order demo_start (take 1 demo_turns)))).
  unfold demo_published. by destruct (handoff_run _ _ _ _).
Qed.

Definition demo_row : HandoffRow := new_handoff_row demo_json demo_handoff 5%N 100.


Lemma preferred_handoff_is_delivered_witness :
  ∃ d', accept_handoff no_faults demo_published (demo_accept 2%N) None 200 = Ok (true, d').
Proof.
  pose proof (preferred_handoff_is_delivered (λ _, Some []) (λ _, true) demo_order no_faults
    demo_published 1%N 1%N (Some (lit "/repo/api")) (FilterUser demo_owner) None) as H.
  destruct (open_handoff_for (λ _, Some []) (λ _, true) demo_order no_faults demo_published 1%N 1%N
              (Some (lit "/repo/api")) (FilterUser demo_owner) None) as [[hv|]|e] eqn:E.
  - destruct (H _ demo_published_ok (Forall_nil_2 _) eq_refl) as (r & _ & _ & _ & _ & Hclaim).
    vm_compute in E. injection E as <-. apply Hclaim; try done.
    intros session [= <-]. by vm_compute.
  - by vm_compute in E.
  - by vm_compute in E.
Defined.
