(* ===== verification/SessionQueue.v ===== *)
(** * The session consolidation queue

    Models [crates/ai-memory-store/src/session_consolidation.rs], the durable
    queue of sessions whose observations an LLM has yet to consolidate
    (enqueue, claim under a lease, complete, fail, release, reconcile), the
    writer commands that reach it, and one round of the worker in
    [crates/ai-memory-cli/src/commands/serve.rs].  The tables [sessions] and
    [observations] are those of [Handoffs]; the clock, fresh claim ids, the
    order of rows with equal keys and what the consolidator does with a
    session are arguments. *)

From S2P Require Export Handoffs LlmFallback.
Open Scope nat_scope.
Open Scope rust_scope.

Definition ClaimId := N.

Definition SESSION_CONSOLIDATION_MAX_ATTEMPTS : Z := 5.

(** ** Jobs *)

(** A row of [session_consolidation_jobs]; its key is the session and the
    generation, the number of observations it covers. *)
Record JobRow := mkJobRow {
  j_session : SessionId;
  j_workspace : WorkspaceId;
  j_project : ProjectId;
  j_generation : Z;
  j_state : string;
  j_requested_at : Z;
  j_next_attempt_at : Z;
  j_started_at : option Z;
  j_completed_at : option Z;
  j_attempts : Z;
  j_claim : option ClaimId;
  j_last_error : option bytes;
}.

Definition JobKey : Type := SessionId * Z.
Definition job_key (j : JobRow) : JobKey := (j_session j, j_generation j).

Record SessionConsolidationJob := mkJob {
  job_session : SessionId;
  job_workspace : WorkspaceId;
  job_project : ProjectId;
  job_generation : Z;
  job_attempts : Z;
  job_claim : ClaimId;
  job_attempt_spent : bool;
}.

Definition in_job_state (state : string) (j : JobRow) : bool := bool_decide (j_state j = state).

(** [generation_i64]: the generation as SQLite stores it. *)
Definition generation_i64 (job : SessionConsolidationJob) : Z := Z.min (job_generation job) i64_max.

Definition truncate_error (error : bytes) : bytes := concat (take 1024 (chars error)).

(** ** Enqueueing *)

Inductive EnqueueEligibility := EndedSession | AnySession.

Definition ended_predicate (e : EnqueueEligibility) (s : SessionRow) : bool :=
  match e with
  | EndedSession => negb (bool_decide (s_ended_at s = None))
  | AnySession => true
  end.

(** [SELECT COUNT( * ) FROM observations WHERE session_id = ?]. *)
Definition observation_count (d : HandoffDb) (session : SessionId) : Z :=
  Z.of_nat (count_where (λ o, bool_decide (o_session o = session)) (observations d)).

Definition new_job (d : HandoffDb) (now : Z) (s : SessionRow) : JobRow :=
  mkJobRow (s_id s) (s_workspace s) (s_project s) (observation_count d (s_id s)) "pending" now now
    None None 0 None None.

(** The rows of the [INSERT]'s [SELECT]. *)
Definition eligible (d : HandoffDb) (ws : WorkspaceId) (pj : ProjectId) (session : SessionId)
    (e : EnqueueEligibility) (s : SessionRow) : bool :=
  bool_decide (s_id s = session) && bool_decide (s_workspace s = ws)
  && bool_decide (s_project s = pj) && ended_predicate e s
  && (0 <? observation_count d (s_id s))%Z.

(** [INSERT OR IGNORE]: a row whose key is taken is left out. *)
Definition insert_or_ignore (jobs : list JobRow) (row : JobRow) : list JobRow :=
  if existsb (λ j, bool_decide (job_key j = job_key row)) jobs then jobs else jobs ++ [row].

(** An older generation still waiting. *)
Definition supersedable (d : HandoffDb) (session : SessionId) (j : JobRow) : bool :=
  bool_decide (j_session j = session) && in_job_state "pending" j
  && (j_generation j <? observation_count d session)%Z.

Definition supersede_row (now : Z) (j : JobRow) : JobRow :=
  mkJobRow (j_session j) (j_workspace j) (j_project j) (j_generation j) "superseded"
    (j_requested_at j) (j_next_attempt_at j) (j_started_at j) (Some now) (j_attempts j) None
    (Some (lit "superseded by a newer observation generation")).

Definition enqueue_eligible_in_tx (f : faults) (d : HandoffDb) (jobs : list JobRow)
    (ws : WorkspaceId) (pj : ProjectId) (session : SessionId) (e : EnqueueEligibility) (now : Z)
    : result (bool * list JobRow) OpsError :=
  let? inserted := statement f OsInsert
    (foldl insert_or_ignore jobs
       (new_job d now <$> List.filter (eligible d ws pj session e) (sessions d))) in
  let? rows := statement f OsUpdate
    (update_where (supersedable d session) (supersede_row now) inserted) in
  Ok (length inserted =? S (length jobs), rows).

Definition enqueue_in_tx (f : faults) (d : HandoffDb) (jobs : list JobRow) (ws : WorkspaceId)
    (pj : ProjectId) (session : SessionId) (now : Z) : result (bool * list JobRow) OpsError :=
  enqueue_eligible_in_tx f d jobs ws pj session EndedSession now.

Definition enqueue_eligible (f : faults) (d : HandoffDb) (jobs : list JobRow) (ws : WorkspaceId)
    (pj : ProjectId) (session : SessionId) (e : EnqueueEligibility) (now : Z)
    : result (bool * list JobRow) OpsError :=
  let? _u := statement f OsBegin tt in
  let? res := enqueue_eligible_in_tx f d jobs ws pj session e now in
  let? _u := statement f OsCommit tt in
  Ok res.

Definition enqueue (f : faults) (d : HandoffDb) (jobs : list JobRow) (ws : WorkspaceId)
    (pj : ProjectId) (session : SessionId) (now : Z) : result (bool * list JobRow) OpsError :=
  enqueue_eligible f d jobs ws pj session EndedSession now.

Definition enqueue_checkpoint (f : faults) (d : HandoffDb) (jobs : list JobRow) (ws : WorkspaceId)
    (pj : ProjectId) (session : SessionId) (now : Z) : result (bool * list JobRow) OpsError :=
  enqueue_eligible f d jobs ws pj session AnySession now.

(** ** Claiming *)

Definition at_most (limit : Z) (t : option Z) : bool :=
  match t with Some x => (x <=? limit)%Z | None => false end.

(** A job is due: waiting and its time has come, or running under a lease that
    has expired. *)
Definition due (now stale_before : Z) (j : JobRow) : bool :=
  in_job_state "pending" j && (j_attempts j <? SESSION_CONSOLIDATION_MAX_ATTEMPTS)%Z
    && (j_next_attempt_at j <=? now)%Z
  || in_job_state "running" j && (j_attempts j <=? SESSION_CONSOLIDATION_MAX_ATTEMPTS)%Z
    && at_most stale_before (j_started_at j).

(** [ORDER BY requested_at ASC, generation ASC]. *)
Definition requested_first (a b : JobRow) : bool :=
  (j_requested_at a <? j_requested_at b)%Z
  || (j_requested_at a =? j_requested_at b)%Z && (j_generation a <? j_generation b)%Z.

(** The row the claim's [UPDATE] selects. *)
Definition claimable_job (session : SessionId) (generation attempts now stale_before : Z)
    (j : JobRow) : bool :=
  bool_decide (j_session j = session) && (j_generation j =? generation)%Z
  && (j_attempts j =? attempts)%Z
  && (in_job_state "pending" j && (j_next_attempt_at j <=? now)%Z
      || in_job_state "running" j && at_most stale_before (j_started_at j)).

Definition claim_job_row (now : Z) (claim : ClaimId) (j : JobRow) : JobRow :=
  mkJobRow (j_session j) (j_workspace j) (j_project j) (j_generation j) "running"
    (j_requested_at j) (j_next_attempt_at j) (Some now) None
    (if in_job_state "pending" j then (j_attempts j + 1)%Z else j_attempts j) (Some claim) None.

(** [u64::try_from] and [u32::try_from] of an [i64]. *)
Definition u64_try_from (z : Z) : option Z := if (0 <=? z)%Z then Some z else None.
Definition u32_max : Z := (2 ^ 32 - 1)%Z.
Definition u32_try_from (z : Z) : option Z :=
  if (0 <=? z)%Z && (z <=? u32_max)%Z then Some z else None.
Definition u32_saturating_add (a b : Z) : Z := Z.min (a + b) u32_max.

Definition claimed_attempts (state : string) (attempts : Z) : result Z OpsError :=
  if bool_decide (state = "pending") then Ok (u32_saturating_add attempts 1)
  else if bool_decide (state = "running") then Ok attempts
  else Err (OpsMalformed ("invalid claimable session consolidation state: " +:+ state)).

Section Queue.
Context (order : OrderBy JobRow).

Definition claim_next (f : faults) (jobs : list JobRow) (now stale_before : Z) (claim : ClaimId)
    : result (option SessionConsolidationJob * list JobRow) OpsError :=
  let? _u := statement f OsBegin tt in
  let? row := statement f OsOldest
    (head (order requested_first (List.filter (due now stale_before) jobs))) in
  match row with
  | None =>
      let? _u := statement f OsCommit tt in
      Ok (None, jobs)
  | Some row =>
      let? generation := from_option Ok
        (Err (OpsMalformed "negative session consolidation generation"))
        (u64_try_from (j_generation row)) in
      let? attempts := from_option Ok
        (Err (OpsMalformed "invalid session consolidation attempt count"))
        (u32_try_from (j_attempts row)) in
      let? claimed := claimed_attempts (j_state row) attempts in
      let hit := claimable_job (j_session row) (Z.min generation i64_max) attempts now
                   stale_before in
      let? rows := statement f OsUpdate (update_where hit (claim_job_row now claim) jobs) in
      bail_if negb (count_where hit jobs =? 1) with
        InvalidState "session consolidation job changed while being claimed";;
      let? _u := statement f OsCommit tt in
      Ok (Some (mkJob (j_session row) (j_workspace row) (j_project row) generation claimed claim
                  (bool_decide (j_state row = "pending"))), rows)
  end.

(** ** Settling *)

(** The row a claim still holds. *)
Definition claim_held (job : SessionConsolidationJob) (j : JobRow) : bool :=
  bool_decide (j_session j = job_session job) && (j_generation j =? generation_i64 job)%Z
  && in_job_state "running" j && bool_decide (j_claim j = Some (job_claim job)).

Definition require_claim_update (changed : nat) : result unit OpsError :=
  if changed =? 1 then Ok tt
  else Err (InvalidState "session consolidation claim is no longer active").

(** One guarded [UPDATE] of the row the claim holds. *)
Definition settle (f : faults) (jobs : list JobRow) (job : SessionConsolidationJob)
    (g : JobRow → JobRow) : result (list JobRow) OpsError :=
  let? rows := statement f OsUpdate (update_where (claim_held job) g jobs) in
  let? _u := require_claim_update (count_where (claim_held job) jobs) in
  Ok rows.

Definition complete_row (now : Z) (j : JobRow) : JobRow :=
  mkJobRow (j_session j) (j_workspace j) (j_project j) (j_generation j) "completed"
    (j_requested_at j) (j_next_attempt_at j) (j_started_at j) (Some now) (j_attempts j) None None.

Definition complete (f : faults) (jobs : list JobRow) (job : SessionConsolidationJob) (now : Z)
    : result (list JobRow) OpsError :=
  settle f jobs job (complete_row now).

Definition fail_row (now : Z) (error : bytes) (j : JobRow) : JobRow :=
  mkJobRow (j_session j) (j_workspace j) (j_project j) (j_generation j) "failed"
    (j_requested_at j) (j_next_attempt_at j) (j_started_at j) (Some now) (j_attempts j) None
    (Some error).

Definition retry_row (retry_at : Z) (error : bytes) (j : JobRow) : JobRow :=
  mkJobRow (j_session j) (j_workspace j) (j_project j) (j_generation j) "pending"
    (j_requested_at j) retry_at None (j_completed_at j) (j_attempts j) None (Some error).

Definition fail (f : faults) (jobs : list JobRow) (job : SessionConsolidationJob) (error : bytes)
    (retry_at : option Z) (now : Z) : result (list JobRow) OpsError :=
  let error := truncate_error error in
  if (SESSION_CONSOLIDATION_MAX_ATTEMPTS <=? job_attempts job)%Z
     || bool_decide (retry_at = None)
  then settle f jobs job (fail_row now error)
  else settle f jobs job (retry_row (default now retry_at) error).

Definition release_job_row (now : Z) (spent : bool) (j : JobRow) : JobRow :=
  mkJobRow (j_session j) (j_workspace j) (j_project j) (j_generation j) "pending"
    (j_requested_at j) now None (j_completed_at j)
    (if spent && (0 <? j_attempts j)%Z then (j_attempts j - 1)%Z else j_attempts j) None
    (j_last_error j).

Definition release (f : faults) (jobs : list JobRow) (job : SessionConsolidationJob) (now : Z)
    : result (list JobRow) OpsError :=
  settle f jobs job (release_job_row now (job_attempt_spent job)).

(** The rows of the session that are neither completed nor running. *)
Definition reconcilable (session : SessionId) (j : JobRow) : bool :=
  bool_decide (j_session j = session)
  && (in_job_state "failed" j || in_job_state "pending" j || in_job_state "superseded" j).

Definition reconcile_session_consolidation_completed (f : faults) (jobs : list JobRow)
    (session : SessionId) (now : Z) : result (nat * list JobRow) OpsError :=
  let? rows := statement f OsUpdate (update_where (reconcilable session) (complete_row now) jobs) in
  Ok (count_where (reconcilable session) jobs, rows).

(** ** The writer's commands *)

Inductive QueueCmd :=
  | CmdEnqueue (ws : WorkspaceId) (pj : ProjectId) (session : SessionId)
  | CmdEnqueueCheckpoint (ws : WorkspaceId) (pj : ProjectId) (session : SessionId)
  | CmdClaim (now stale_before : Z)
  | CmdComplete (job : SessionConsolidationJob)
  | CmdFail (job : SessionConsolidationJob) (error : bytes) (retry_at : option Z)
  | CmdRelease (job : SessionConsolidationJob)
  | CmdReconcile (session : SessionId).

Inductive QueueReply :=
  | RepEnqueued (inserted : bool)
  | RepClaimedJob (job : option SessionConsolidationJob)
  | RepSettled
  | RepReconciled (changed : nat)
  | RepQueueError (e : OpsError).

(** A command as the writer runs it: the tables it finds, the time and the
    claim id it draws, the faults it meets. *)
Record QueueTurn := mkQueueTurn {
  qt_cmd : QueueCmd;
  qt_db : HandoffDb;
  qt_now : Z;
  qt_claim : ClaimId;
  qt_faults : faults;
}.

Definition queue_reply {A} (jobs : list JobRow) (rep : A → QueueReply)
    (r : result (A * list JobRow) OpsError) : QueueReply * list JobRow :=
  match r with Ok (a, jobs') => (rep a, jobs') | Err e => (RepQueueError e, jobs) end.

Definition settled (r : result (list JobRow) OpsError) : result (unit * list JobRow) OpsError :=
  let? jobs := r in Ok (tt, jobs).

Definition queue_step (jobs : list JobRow) (t : QueueTurn) : QueueReply * list JobRow :=
  let f := qt_faults t in
  let now := qt_now t in
  match qt_cmd t with
  | CmdEnqueue ws pj session =>
      queue_reply jobs RepEnqueued (enqueue f (qt_db t) jobs ws pj session now)
  | CmdEnqueueCheckpoint ws pj session =>
      queue_reply jobs RepEnqueued (enqueue_checkpoint f (qt_db t) jobs ws pj session now)
  | CmdClaim now stale_before =>
      queue_reply jobs RepClaimedJob (claim_next f jobs now stale_before (qt_claim t))
  | CmdComplete job => queue_reply jobs (λ _, RepSettled) (settled (complete f jobs job now))
  | CmdFail job error retry_at =>
      queue_reply jobs (λ _, RepSettled) (settled (fail f jobs job error retry_at now))
  | CmdRelease job => queue_reply jobs (λ _, RepSettled) (settled (release f jobs job now))
  | CmdReconcile session =>
      queue_reply jobs RepReconciled (reconcile_session_consolidation_completed f jobs session now)
  end.

Fixpoint queue_run (jobs : list JobRow) (turns : list QueueTurn) : list QueueReply * list JobRow :=
  match turns with
  | [] => ([], jobs)
  | t :: turns' =>
      let '(reply, jobs') := queue_step jobs t in
      let '(replies, final) := queue_run jobs' turns' in
      (reply :: replies, final)
  end.

(** ** The worker *)

(** The errors of a consolidation, as far as the worker tells them apart. *)
Inductive ConsolidatorError :=
  | ConsolidatorLlm (e : LlmError)
  | ConsolidatorSerde (message : string)
  | ConsolidatorOther (message : string).

Definition is_terminal_session_consolidation_error (e : ConsolidatorError) : bool :=
  match e with
  | ConsolidatorLlm llm => negb (is_transient llm)
  | ConsolidatorSerde _ => true
  | ConsolidatorOther _ => false
  end.

Definition i64_saturating_add (a b : Z) : Z := Z.max i64_min (Z.min (a + b) i64_max).

(** In seconds; [u32] and [u64] arithmetic that never saturates here. *)
Definition session_consolidation_retry_delay (attempt : Z) : Z :=
  let exponent := Z.min (Z.max 0 (attempt - 1)) 4 in
  u64_saturating_mul 30 (Z.shiftl 1 exponent).

(** Ten minutes, in microseconds. *)
Definition SESSION_CONSOLIDATION_LEASE : Z := (10 * 60 * 1000000)%Z.

(** What becomes of a claimed job: the agent wrote the page itself, the server
    shuts down first, or the consolidator returns. *)
Inductive Consolidation :=
  | WrittenByAgent
  | Cancelled
  | Consolidated
  | ConsolidationFailed (e : ConsolidatorError) (summary : bytes).

Definition worker_settles (job : SessionConsolidationJob) (c : Consolidation) (now : Z) : QueueCmd :=
  match c with
  | WrittenByAgent | Consolidated => CmdComplete job
  | Cancelled => CmdRelease job
  | ConsolidationFailed e summary =>
      CmdFail job summary
        (if is_terminal_session_consolidation_error e
            || (SESSION_CONSOLIDATION_MAX_ATTEMPTS <=? job_attempts job)%Z
         then None
         else Some (i64_saturating_add now
                      (session_consolidation_retry_delay (job_attempts job) * 1000000)))
  end.

Definition worker_claims (now : Z) : QueueCmd :=
  CmdClaim now (i64_saturating_sub now SESSION_CONSOLIDATION_LEASE).

(** One round of the loop: claim, let other commands run while the job is
    worked on, settle.  It waits when nothing is due or the claim failed. *)
Definition worker_round (jobs : list JobRow) (claim settling : QueueTurn) (others : list QueueTurn)
    (c : SessionConsolidationJob → Consolidation) : option QueueReply * list JobRow :=
  let '(reply, jobs) := queue_step jobs claim in
  match reply with
  | RepClaimedJob (Some job) =>
      let '(_, jobs) := queue_run jobs others in
      let t := mkQueueTurn (worker_settles job (c job) (qt_now settling)) (qt_db settling)
                 (qt_now settling) (qt_claim settling) (qt_faults settling) in
      let '(reply, jobs) := queue_step jobs t in
      (Some reply, jobs)
  | _ => (None, jobs)
  end.
End Queue.
