(* ===== verification/SessionQueueFacts.v ===== *)
(** * What the session queue guarantees

    The queue refines a ledger kept per job from the writer's replies alone:
    who holds the lease since when, how many attempts are spent, how many
    failed.  From it: a job is settled only by its latest claimant, is taken
    over only after its lease has run out, fails at most five times, is never
    forgotten, and a worker empties the queue. *)

From S2P Require Export SessionQueue.
Open Scope nat_scope.
Open Scope rust_scope.

(** ** The ledger *)

(** The key under which a claimed job addresses its row. *)
Definition job_of (job : SessionConsolidationJob) : JobKey := (job_session job, generation_i64 job).

Record Ledger := mkLedger {
  lg_holder : option (ClaimId * Z);
  lg_spent : Z;
  lg_failed : nat;
}.

Definition no_ledger : Ledger := mkLedger None 0 0.

Definition QueueHistory := list (QueueTurn * QueueReply).

Definition ledger_step (k : JobKey) (l : Ledger) (e : QueueTurn * QueueReply) : Ledger :=
  match qt_cmd (fst e), snd e with
  | CmdClaim now _, RepClaimedJob (Some job) =>
      if decide (job_of job = k)
      then mkLedger (Some (job_claim job, now))
             (if job_attempt_spent job then lg_spent l + 1 else lg_spent l)%Z (lg_failed l)
      else l
  | CmdComplete job, RepSettled =>
      if decide (job_of job = k) then mkLedger None (lg_spent l) (lg_failed l) else l
  | CmdFail job _ _, RepSettled =>
      if decide (job_of job = k) then mkLedger None (lg_spent l) (S (lg_failed l)) else l
  | CmdRelease job, RepSettled =>
      if decide (job_of job = k)
      then mkLedger None (if job_attempt_spent job then lg_spent l - 1 else lg_spent l)%Z
             (lg_failed l)
      else l
  | _, _ => l
  end.

Definition ledger (k : JobKey) (h : QueueHistory) : Ledger := foldl (ledger_step k) no_ledger h.

Lemma ledger_snoc k h e : ledger k (h ++ [e]) = ledger_step k (ledger k h) e.
Proof. unfold ledger. by rewrite foldl_app. Qed.

(** The job a claim hands out, and the job a settlement is about. *)
Definition claims_job (e : QueueTurn * QueueReply) : option SessionConsolidationJob :=
  match qt_cmd (fst e), snd e with
  | CmdClaim _ _, RepClaimedJob job => job
  | _, _ => None
  end.

Definition settling (cmd : QueueCmd) : option SessionConsolidationJob :=
  match cmd with
  | CmdComplete job | CmdFail job _ _ | CmdRelease job => Some job
  | _ => None
  end.

Definition settles_job (e : QueueTurn * QueueReply) : option SessionConsolidationJob :=
  match snd e with RepSettled => settling (qt_cmd (fst e)) | _ => None end.

Definition handed (h : QueueHistory) (job : SessionConsolidationJob) : Prop :=
  ∃ e, e ∈ h ∧ claims_job e = Some job.

(** ** Rows *)

Definition unsettled (j : JobRow) : bool := in_job_state "pending" j || in_job_state "running" j.

(** A row agrees with its ledger. *)
Record row_ok (l : Ledger) (j : JobRow) : Prop := {
  row_state : j_state j ∈ ["pending"; "running"; "completed"; "failed"; "superseded"];
  row_holder : if in_job_state "running" j
               then ∃ c since, lg_holder l = Some (c, since) ∧ j_claim j = Some c
                               ∧ j_started_at j = Some since ∧ (Z.of_nat (lg_failed l) < j_attempts j)%Z
               else lg_holder l = None ∧ j_claim j = None;
  row_spent : lg_spent l = j_attempts j;
  row_attempts : (0 ≤ j_attempts j ≤ SESSION_CONSOLIDATION_MAX_ATTEMPTS)%Z;
  row_failed : (Z.of_nat (lg_failed l) ≤ j_attempts j)%Z;
  row_generation : (0 < j_generation j ≤ i64_max)%Z;
}.

(** A waiting row with no attempt left: no claim selects it. *)
Definition stranded (j : JobRow) : bool :=
  in_job_state "pending" j && (j_attempts j =? SESSION_CONSOLIDATION_MAX_ATTEMPTS)%Z.

(** The release that leaves it so: of the last attempt, by a worker that had
    taken the job over and so does not give the attempt back. *)
Definition strands (k : JobKey) (e : QueueTurn * QueueReply) : Prop :=
  ∃ job, qt_cmd (fst e) = CmdRelease job ∧ snd e = RepSettled ∧ job_of job = k
         ∧ job_attempts job = SESSION_CONSOLIDATION_MAX_ATTEMPTS ∧ job_attempt_spent job = false.

Record queue_ok (h : QueueHistory) (jobs : list JobRow) : Prop := {
  ok_keys : NoDup (job_key <$> jobs);
  ok_job_rows j : j ∈ jobs → row_ok (ledger (job_key j) h) j;
  ok_absent k : k ∉ job_key <$> jobs → ledger k h = no_ledger;
  ok_handed job j : handed h job → j ∈ jobs → claim_held job j = true → j_attempts j = job_attempts job;
  ok_stranded j : j ∈ jobs → stranded j = true → ∃ e, e ∈ h ∧ strands (job_key j) e;
  ok_handed_attempts job : handed h job → (1 ≤ job_attempts job ≤ SESSION_CONSOLIDATION_MAX_ATTEMPTS)%Z;
}.

Lemma in_job_state_true s j : in_job_state s j = true ↔ j_state j = s.
Proof. apply bool_decide_eq_true. Qed.

Lemma claim_held_true job j :
  claim_held job j = true ↔ job_key j = job_of job ∧ j_state j = "running" ∧ j_claim j = Some (job_claim job).
Proof.
  unfold claim_held, job_key, job_of, in_job_state.
  rewrite !andb_true_iff, !bool_decide_eq_true, Z.eqb_eq.
  split; [intros [[[-> ->] ?] ?]; done|]. by intros ([= -> ->] & ? & ?).
Qed.

(** ** Single statements *)

Lemma update_none {A} (p : A → bool) g rows :
  (∀ r, r ∈ rows → p r = false) → update_where p g rows = rows.
Proof.
  intros H. unfold update_where. induction rows as [|r rows IH]; [done|]. cbn.
  rewrite (H r) by left. f_equal. apply IH. intros r' Hr'. apply H. by right.
Qed.

Lemma count_one {A} (p : A → bool) rows : count_where p rows = 1 → ∃ r, r ∈ rows ∧ p r = true.
Proof. intros H. apply count_where_pos. lia. Qed.

Lemma settle_Ok f jobs job g jobs' :
  settle f jobs job g = Ok jobs' →
  jobs' = update_where (claim_held job) g jobs ∧ ∃ j, j ∈ jobs ∧ claim_held job j = true.
Proof.
  unfold settle, require_claim_update. intros H. open_transaction.
  destruct (Nat.eqb_spec (count_where (claim_held job) jobs) 1); [|done].
  split; [done|]. by apply count_one.
Qed.

(** A statement selecting rows of one key leaves every other row alone. *)
Lemma fold_insert jobs rows k :
  (∀ r, r ∈ rows → job_key r = k) →
  foldl insert_or_ignore jobs rows = jobs
  ∨ k ∉ job_key <$> jobs ∧ ∃ r, r ∈ rows ∧ foldl insert_or_ignore jobs rows = jobs ++ [r].
Proof.
  intros Hk. induction rows as [|r rows IH]; [by left|]. cbn [foldl].
  unfold insert_or_ignore at 2 4.
  destruct (existsb _ jobs) eqn:E.
  - destruct IH as [IH|(Hn & r' & Hr' & IH)]; [|by left|].
    + intros r' Hr'. apply Hk. by right.
    + right. split; [done|]. exists r'. split; [by right|done].
  - right. split.
    + intros (j & Hj & Hjin)%list_elem_of_fmap. rewrite existsb_none in E.
      specialize (E _ Hjin). rewrite bool_decide_eq_false in E. apply E. rewrite <- Hj. symmetry. apply Hk. left.
    + exists r. split; [left|]. assert (Hin : job_key r ∈ job_key <$> jobs ++ [r]).
      { rewrite fmap_app. apply elem_of_app. right. left. }
      clear E IH. revert Hin. generalize (jobs ++ [r]). intros jobs' Hin.
      assert (Hk' : ∀ r', r' ∈ rows → job_key r' = job_key r).
      { intros r' Hr'. rewrite (Hk r) by left. apply Hk. by right. }
      clear Hk. revert Hk'. induction rows as [|r' rows IH]; intros Hk'; [done|]. cbn [foldl].
      unfold insert_or_ignore at 2. assert (existsb (λ j, bool_decide (job_key j = job_key r')) jobs' = true) as ->.
      { apply existsb_elem. apply list_elem_of_fmap in Hin as (j & Hj & ?). exists j. split; [done|].
        apply bool_decide_eq_true. rewrite <- Hj. symmetry. apply Hk'. left. }
      apply IH. intros r'' Hr''. apply Hk'. by right.
Qed.

(** ** What one command does to the rows *)

(** The row a command claims or settles. *)
Definition touched (e : QueueTurn * QueueReply) : option JobKey :=
  match claims_job e with
  | Some job => Some (job_of job)
  | None => job_of <$> settles_job e
  end.

Lemma ledger_untouched k l e : touched e ≠ Some k → ledger_step k l e = l.
Proof.
  destruct e as [t reply]. unfold touched, ledger_step, claims_job, settles_job, settling. cbn.
  destruct (qt_cmd t), reply; try done; try (destruct job; try done); cbn;
    intros Hk; by rewrite decide_False by congruence.
Qed.

Definition enqueuing (cmd : QueueCmd)
    : option (WorkspaceId * ProjectId * SessionId * EnqueueEligibility) :=
  match cmd with
  | CmdEnqueue ws pj session => Some (ws, pj, session, EndedSession)
  | CmdEnqueueCheckpoint ws pj session => Some (ws, pj, session, AnySession)
  | _ => None
  end.

Inductive job_move (t : QueueTurn) (reply : QueueReply) : JobRow → JobRow → Prop :=
  | move_superseded ws pj session e inserted j :
      enqueuing (qt_cmd t) = Some (ws, pj, session, e) → reply = RepEnqueued inserted →
      supersedable (qt_db t) session j = true → job_move t reply j (supersede_row (qt_now t) j)
  | move_claimed now stale_before job j :
      qt_cmd t = CmdClaim now stale_before → reply = RepClaimedJob (Some job) →
      job_of job = job_key j → job_claim job = qt_claim t →
      job_attempts job = j_attempts (claim_job_row now (qt_claim t) j) →
      job_attempt_spent job = in_job_state "pending" j → due now stale_before j = true →
      job_move t reply j (claim_job_row now (qt_claim t) j)
  | move_completed job j :
      qt_cmd t = CmdComplete job → reply = RepSettled → claim_held job j = true →
      job_move t reply j (complete_row (qt_now t) j)
  | move_failed job error retry_at j :
      qt_cmd t = CmdFail job error retry_at → reply = RepSettled → claim_held job j = true →
      (SESSION_CONSOLIDATION_MAX_ATTEMPTS ≤ job_attempts job)%Z ∨ retry_at = None →
      job_move t reply j (fail_row (qt_now t) (truncate_error error) j)
  | move_retried job error retry_at j :
      qt_cmd t = CmdFail job error (Some retry_at) → reply = RepSettled → claim_held job j = true →
      (job_attempts job < SESSION_CONSOLIDATION_MAX_ATTEMPTS)%Z →
      job_move t reply j (retry_row retry_at (truncate_error error) j)
  | move_released job j :
      qt_cmd t = CmdRelease job → reply = RepSettled → claim_held job j = true →
      job_move t reply j (release_job_row (qt_now t) (job_attempt_spent job) j)
  | move_reconciled session n j :
      qt_cmd t = CmdReconcile session → reply = RepReconciled n → reconcilable session j = true →
      job_move t reply j (complete_row (qt_now t) j).

Lemma move_key t reply j j' : job_move t reply j j' → job_key j' = job_key j.
Proof. by destruct 1. Qed.

Definition kept_or_moved (t : QueueTurn) (reply : QueueReply) (j j' : JobRow) : Prop :=
  j' = j ∧ touched (t, reply) ≠ Some (job_key j) ∨ job_move t reply j j'.

(** The row an enqueue adds. *)
Inductive added_row (t : QueueTurn) (jobs : list JobRow) : JobRow → Prop :=
  | added ws pj session e s :
      enqueuing (qt_cmd t) = Some (ws, pj, session, e) → s ∈ sessions (qt_db t) →
      eligible (qt_db t) ws pj session e s = true →
      job_key (new_job (qt_db t) (qt_now t) s) ∉ job_key <$> jobs →
      added_row t jobs (new_job (qt_db t) (qt_now t) s).

Inductive queue_stepped (t : QueueTurn) (reply : QueueReply) (jobs : list JobRow)
    : list JobRow → Prop :=
  | queue_stepped_intro kept new :
      Forall2 (kept_or_moved t reply) jobs kept →
      match new with
      | [] => reply ≠ RepEnqueued true
      | [j] => reply = RepEnqueued true ∧ added_row t jobs j
      | _ => False
      end →
      (∀ k, touched (t, reply) = Some k → k ∈ job_key <$> jobs) →
      queue_stepped t reply jobs (kept ++ new).

Lemma stepped_touched t reply jobs jobs' k :
  queue_stepped t reply jobs jobs' → touched (t, reply) = Some k → k ∈ job_key <$> jobs.
Proof. destruct 1; auto. Qed.

Lemma update_moves {A} (R : A → A → Prop) hit g rows :
  (∀ r, r ∈ rows → if hit r : bool then R r (g r) else R r r) → Forall2 R rows (update_where hit g rows).
Proof.
  intros H. unfold update_where. induction rows as [|r rows IH]; constructor.
  - specialize (H r). destruct (hit r); apply H; left.
  - apply IH. intros r' Hr'. apply H. by right.
Qed.

(** Commands that leave every row where it is in the table. *)
Lemma queue_stepped_update t reply jobs hit g :
  reply ≠ RepEnqueued true →
  (∀ k, touched (t, reply) = Some k → k ∈ job_key <$> jobs) →
  (∀ j, j ∈ jobs → hit j = true → job_move t reply j (g j)) →
  (∀ j, j ∈ jobs → hit j = false → touched (t, reply) ≠ Some (job_key j)) →
  queue_stepped t reply jobs (update_where hit g jobs).
Proof.
  intros Hr Hk Hm Hu. rewrite <- (app_nil_r (update_where hit g jobs)).
  apply queue_stepped_intro; try done.
  apply update_moves. intros j Hj. destruct (hit j) eqn:E; [right|left]; auto.
Qed.

Lemma queue_stepped_refl t reply jobs :
  reply ≠ RepEnqueued true → touched (t, reply) = None → queue_stepped t reply jobs jobs.
Proof.
  intros Hr Ht. assert (jobs = update_where (λ _, false) id jobs) as E.
  { symmetry. by apply update_none. }
  rewrite E at 2. apply queue_stepped_update; try done; by rewrite Ht.
Qed.

Lemma settled_stepped t jobs job g jobs' f :
  settling (qt_cmd t) = Some job → settle f jobs job g = Ok jobs' → NoDup (job_key <$> jobs) →
  (∀ j, claim_held job j = true → job_move t RepSettled j (g j)) →
  queue_stepped t RepSettled jobs jobs'.
Proof.
  intros Hc [-> (j & Hj & Hh)]%settle_Ok Hn Hm.
  assert (Ht : touched (t, RepSettled) = Some (job_of job)).
  { unfold touched, claims_job, settles_job. cbn. rewrite Hc. by destruct (qt_cmd t). }
  pose proof (proj1 (claim_held_true _ _) Hh) as (Hk & _).
  apply queue_stepped_update; [done|..].
  - rewrite Ht. intros k [= <-]. rewrite <- Hk. by apply list_elem_of_fmap_2.
  - auto.
  - intros j' Hj' Hf. rewrite Ht. intros E%(inj Some). assert (j' = j) as -> by
      (eapply (key_unique job_key); eauto; congruence). congruence.
Qed.

Lemma update_app {A} (p : A → bool) g (k l : list A) :
  update_where p g (k ++ l) = update_where p g k ++ update_where p g l.
Proof. apply fmap_app. Qed.

Lemma enqueue_stepped t f jobs ws pj session e now b jobs' :
  enqueuing (qt_cmd t) = Some (ws, pj, session, e) → qt_now t = now →
  enqueue_eligible f (qt_db t) jobs ws pj session e now = Ok (b, jobs') →
  queue_stepped t (RepEnqueued b) jobs jobs'.
Proof.
  intros Hc <- H. unfold enqueue_eligible, enqueue_eligible_in_tx in H. open_transaction.
  assert (Htc : ∀ b k, touched (t, RepEnqueued b) ≠ Some k).
  { unfold touched, claims_job, settles_job. cbn. by destruct (qt_cmd t). }
  set (rows := new_job _ _ <$> _) in *.
  assert (Hrows : ∀ r, r ∈ rows → job_key r = (session, observation_count (qt_db t) session)
            ∧ ∃ s, s ∈ sessions (qt_db t) ∧ eligible (qt_db t) ws pj session e s = true
                   ∧ r = new_job (qt_db t) (qt_now t) s).
  { intros r (s & -> & [Hs He]%elem_filter)%list_elem_of_fmap. split; [|by exists s].
    unfold eligible in He. rewrite !andb_true_iff, !bool_decide_eq_true in He.
    destruct He as [[[[<- _] _] _] _]. done. }
  assert (Hsup : ∀ b l, Forall2 (kept_or_moved t (RepEnqueued b)) l
                        (update_where (supersedable (qt_db t) session) (supersede_row (qt_now t)) l)).
  { intros b l. apply update_moves. intros j _. destruct (supersedable _ _ _) eqn:E.
    - right. by eapply move_superseded.
    - by left. }
  destruct (fold_insert jobs rows _ (λ r Hr, proj1 (Hrows r Hr))) as [E|(Hk & r & Hr & E)]; rewrite E in *.
  - replace (length jobs =? _) with false by (symmetry; apply Nat.eqb_neq; lia).
    rewrite <- (app_nil_r (update_where _ _ jobs)). apply queue_stepped_intro; [apply Hsup|done|].
    intros k Hk. by apply Htc in Hk.
  - replace (length _ =? _) with true by (symmetry; apply Nat.eqb_eq; rewrite length_app; cbn; lia).
    destruct (Hrows r Hr) as (Hrk & s & Hs & He & ->). rewrite update_app.
    apply queue_stepped_intro; [apply Hsup| |intros k Hk'; by apply Htc in Hk'].
    unfold update_where at 1. cbn [fmap list_fmap].
    replace (supersedable _ _ _) with false; [split; [done|]; by eapply added; [..|by rewrite Hrk]|].
    symmetry. unfold supersedable. destruct (bool_decide _) eqn:E1; [|done].
    apply bool_decide_eq_true in E1. cbn. apply Z.ltb_ge. rewrite <- E1. cbn. lia.
Qed.

#[export] Instance requested_first_order : StrictWeakOrder requested_first.
Proof. split; unfold requested_first; intros *; lia. Qed.

Section Order.
Context (order : OrderBy JobRow) `{!OrdersRows order}.

Lemma due_claimable now stale_before j :
  due now stale_before j = true →
  claimable_job (j_session j) (j_generation j) (j_attempts j) now stale_before j = true.
Proof.
  unfold due, claimable_job. intros [[[-> _]%andb_true_iff ->]%andb_true_iff
    |[[-> _]%andb_true_iff ->]%andb_true_iff]%orb_true_iff;
    rewrite bool_decide_eq_true_2, !Z.eqb_refl by done; cbn; [done|by rewrite orb_true_r].
Qed.

Lemma claimable_key session generation attempts now stale_before j :
  claimable_job session generation attempts now stale_before j = true →
  job_key j = (session, generation).
Proof. unfold claimable_job, job_key. rewrite !andb_true_iff, bool_decide_eq_true, Z.eqb_eq. intros [[[-> ->] _] _]. done. Qed.

(** A claim hands out the first due job and marks exactly its row. *)
Lemma claim_next_Ok f jobs now stale_before claim res jobs' :
  NoDup (job_key <$> jobs) → (∀ j, j ∈ jobs → j_generation j ≤ i64_max)%Z →
  claim_next order f jobs now stale_before claim = Ok (res, jobs') →
  match res with
  | None => jobs' = jobs ∧ ∀ j, j ∈ jobs → due now stale_before j = false
  | Some job =>
      ∃ j hit, j ∈ jobs ∧ due now stale_before j = true
        ∧ (∀ j', j' ∈ jobs → due now stale_before j' = true → requested_first j' j = false)
        ∧ jobs' = update_where hit (claim_job_row now claim) jobs
        ∧ (∀ j', j' ∈ jobs → hit j' = true ↔ j' = j)
        ∧ job_of job = job_key j ∧ job_claim job = claim
        ∧ job_attempts job = j_attempts (claim_job_row now claim j)
        ∧ job_attempt_spent job = in_job_state "pending" j
        ∧ job_workspace job = j_workspace j ∧ job_project job = j_project j
  end.
Proof.
  intros Hn Hg H. unfold claim_next in H. open_transaction.
  destruct (order requested_first _) as [|j l] eqn:El; cbn [head] in H.
  - open_transaction. split; [done|]. intros j. exact (order_filter_nil order _ _ _ _ _ _ El).
  - destruct (order_head _ _ _ _ _ _ _ El) as [[Hj Hd]%elem_filter Hfirst].
    unfold u64_try_from, u32_try_from in H.
    destruct (Z.leb_spec 0 (j_generation j)); [|discriminate H].
    destruct ((0 <=? j_attempts j)%Z && _) eqn:Ha; [|discriminate H]. cbn [from_option] in H.
    open_transaction. rewrite Z.min_l in * by auto.
    eexists j, _. split; [done|]. split; [done|]. split.
    { intros j' Hj' Hd'. apply Hfirst. by apply elem_filter. }
    split; [done|]. split.
    { intros j' Hj'. split; [|intros ->; by apply due_claimable].
      intros Hk%claimable_key. by apply (key_unique job_key jobs). }
    unfold job_of, generation_i64. cbn. rewrite Z.min_l by auto.
    split; [done|]. split; [done|]. split; [|split; [done|split; done]].
    unfold claimed_attempts, in_job_state in *.
    destruct (bool_decide (j_state j = "pending")) eqn:Ep; open_transaction; [|by case_bool_decide; open_transaction].
    unfold u32_saturating_add. rewrite Z.min_l; [done|].
    unfold due, in_job_state in Hd. rewrite Ep in Hd. apply bool_decide_eq_true in Ep. rewrite Ep in Hd.
    unfold SESSION_CONSOLIDATION_MAX_ATTEMPTS in Hd. cbn in Hd. unfold u32_max. lia.
Qed.

Lemma queue_reply_Ok {A} jobs (rep : A → QueueReply) r reply jobs' :
  queue_reply jobs rep r = (reply, jobs') →
  (∃ a, r = Ok (a, jobs') ∧ reply = rep a) ∨ (∃ e, reply = RepQueueError e ∧ jobs' = jobs).
Proof. destruct r as [[a b]|e]; intros [= <- <-]; [left|right]; eauto. Qed.

Lemma settled_Ok r u jobs' : settled r = Ok (u, jobs') → r = Ok jobs'.
Proof. unfold settled. intros H. open_transaction. done. Qed.

Lemma error_stepped t e jobs : queue_stepped t (RepQueueError e) jobs jobs.
Proof.
  apply queue_stepped_refl; [done|]. unfold touched, claims_job, settles_job. cbn. by destruct (qt_cmd t).
Qed.

Lemma fail_stepped t f jobs job error retry_at now jobs' :
  qt_cmd t = CmdFail job error retry_at → qt_now t = now → NoDup (job_key <$> jobs) →
  fail f jobs job error retry_at now = Ok jobs' → queue_stepped t RepSettled jobs jobs'.
Proof.
  intros Hc <- Hn H. unfold fail in H.
  destruct (_ || _) eqn:E; (eapply settled_stepped; [by rewrite Hc|exact H|done|]); intros j Hh.
  - eapply move_failed; [done..|]. rewrite orb_true_iff, Z.leb_le, bool_decide_eq_true in E. done.
  - rewrite orb_false_iff, Z.leb_gt, bool_decide_eq_false in E. destruct E, retry_at; [|done].
    by eapply move_retried.
Qed.

Lemma claim_stepped t f jobs now stale_before res jobs' :
  qt_cmd t = CmdClaim now stale_before → NoDup (job_key <$> jobs) →
  (∀ j, j ∈ jobs → j_generation j ≤ i64_max)%Z →
  claim_next order f jobs now stale_before (qt_claim t) = Ok (res, jobs') →
  queue_stepped t (RepClaimedJob res) jobs jobs'.
Proof.
  intros Hc Hn Hg H. apply claim_next_Ok in H; [|done..].
  assert (Ht : touched (t, RepClaimedJob res) = job_of <$> res).
  { unfold touched, claims_job, settles_job. cbn. rewrite Hc. by destruct res. }
  destruct res as [job|]; cbn in Ht; [|destruct H as [-> _]; by apply queue_stepped_refl].
  destruct H as (j & hit & Hj & Hd & _ & -> & Hhit & Hk & Hcl & Ha & Hs & _).
  apply queue_stepped_update; [done|..].
  - rewrite Ht. intros k [= <-]. rewrite Hk. by apply list_elem_of_fmap_2.
  - intros j' Hj' ->%Hhit; [|done]. by eapply move_claimed.
  - intros j' Hj' Hf. rewrite Ht. intros E%(inj Some).
    assert (j' = j) as -> by (eapply (key_unique job_key); eauto; congruence).
    by rewrite (proj2 (Hhit j Hj)) in Hf.
Qed.

Lemma queue_step_stepped t reply jobs jobs' :
  NoDup (job_key <$> jobs) → (∀ j, j ∈ jobs → j_generation j ≤ i64_max)%Z →
  queue_step order jobs t = (reply, jobs') → queue_stepped t reply jobs jobs'.
Proof.
  intros Hn Hg H. unfold queue_step in H.
  destruct (qt_cmd t) as [ws pj session|ws pj session|now stale|job|job error at_|job|session] eqn:Hc;
    apply queue_reply_Ok in H as [(a & H & ->)|(e & -> & ->)]; try apply error_stepped.
  - by eapply enqueue_stepped; [rewrite Hc| |exact H].
  - by eapply enqueue_stepped; [rewrite Hc| |exact H].
  - by eapply claim_stepped.
  - apply settled_Ok in H. eapply settled_stepped; [by rewrite Hc|exact H|done|].
    intros j Hh. by eapply move_completed.
  - apply settled_Ok in H. by eapply fail_stepped.
  - apply settled_Ok in H. eapply settled_stepped; [by rewrite Hc|exact H|done|].
    intros j Hh. by eapply move_released.
  - unfold reconcile_session_consolidation_completed in H. open_transaction.
    assert (Ht : ∀ r, touched (t, RepReconciled r) = None).
    { unfold touched, claims_job, settles_job. cbn. by rewrite Hc. }
    apply queue_stepped_update; [done|by rewrite Ht| |by rewrite Ht].
    intros j _ Hj. by eapply move_reconciled.
Qed.

(** ** Histories *)

(** What the writer was asked and replied from an empty queue on.  A job is
    settled by who was handed it ([SessionConsolidationJob]'s fields are
    private), claim ids are fresh ([Uuid::new_v4]), and SQLite's row counts fit
    its integers; the tables, clocks, faults and the interleaving are free. *)
Inductive queue_history : QueueHistory → list JobRow → Prop :=
  | queue_start : queue_history [] []
  | queue_next h jobs t reply jobs' :
      queue_history h jobs →
      (∀ job, settling (qt_cmd t) = Some job → handed h job) →
      (∀ job, handed h job → job_claim job ≠ qt_claim t) →
      (Z.of_nat (length (observations (qt_db t))) ≤ i64_max)%Z →
      queue_step order jobs t = (reply, jobs') →
      queue_history (h ++ [(t, reply)]) jobs'.

End Order.

Lemma handed_snoc h e job : handed (h ++ [e]) job ↔ handed h job ∨ claims_job e = Some job.
Proof.
  unfold handed. setoid_rewrite elem_of_app. setoid_rewrite list_elem_of_singleton.
  split; [|naive_solver]. intros (e' & [He| ->] & Hc); eauto.
Qed.

Lemma count_where_le {A} (p : A → bool) rows : count_where p rows ≤ length rows.
Proof. unfold count_where. rewrite List.filter_length_le. done. Qed.

(** ** The invariant *)

Lemma move_ledger t reply j j' l :
  job_move t reply j j' →
  ledger_step (job_key j) l (t, reply) =
    match settling (qt_cmd t), qt_cmd t, reply with
    | Some job, CmdFail _ _ _, _ => mkLedger None (lg_spent l) (S (lg_failed l))
    | Some job, CmdRelease _, _ =>
        mkLedger None (if job_attempt_spent job then lg_spent l - 1 else lg_spent l)%Z (lg_failed l)
    | Some job, _, _ => mkLedger None (lg_spent l) (lg_failed l)
    | None, CmdClaim now _, _ =>
        mkLedger (Some (qt_claim t, now))
          (if in_job_state "pending" j then lg_spent l + 1 else lg_spent l)%Z (lg_failed l)
    | None, _, _ => l
    end.
Proof.
  assert (Hk : ∀ job, claim_held job j = true → job_of job = job_key j).
  { by intros job (-> & _)%claim_held_true. }
  unfold ledger_step.
  destruct 1 as [ws pj session e ins j Hc -> _|now stale job j Hc -> Hj Hcl _ Hs _|job j Hc -> Hh
    |job error at_ j Hc -> Hh _|job error at_ j Hc -> Hh _|job j Hc -> Hh|session n j Hc -> _];
    cbn; try (rewrite Hc; cbn; rewrite decide_True by auto; congruence).
  - by destruct (qt_cmd t).
  - rewrite Hc. cbn. by rewrite decide_True, Hcl, Hs by done.
  - by rewrite Hc.
Qed.

Lemma state_not s s' j : in_job_state s j = true → s ≠ s' → in_job_state s' j = false.
Proof. intros Hs%in_job_state_true Hne. apply bool_decide_eq_false. congruence. Qed.

Ltac known_state := by repeat (left || right).

Lemma move_row_ok t reply j j' l :
  job_move t reply j j' →
  (∀ job, settling (qt_cmd t) = Some job → claim_held job j = true → j_attempts j = job_attempts job) →
  row_ok l j → row_ok (ledger_step (job_key j) l (t, reply)) j'.
Proof.
  intros Hm Hh [Hst Hho Hsp Hat Hfa Hge]. rewrite (move_ledger _ _ _ _ l Hm).
  assert (Hrun : ∀ job, claim_held job j = true → in_job_state "running" j = true).
  { by intros job (_ & ? & _)%claim_held_true; apply in_job_state_true. }
  unfold SESSION_CONSOLIDATION_MAX_ATTEMPTS in *.
  destruct Hm as [ws pj session e ins j Hc -> Hs|now stale job j Hc -> Hk Hcl Ha Hsp' Hd
    |job j Hc -> Hheld|job error at_ j Hc -> Hheld _|job error at_ j Hc -> Hheld Hlt
    |job j Hc -> Hheld|session n j Hc -> Hr];
    try rewrite Hc in *; cbn [settling] in *;
    try (rewrite (Hrun _ Hheld) in Hho; destruct Hho as (? & ? & ? & ? & ? & ?)).
  - replace (match settling (qt_cmd t) with Some _ => _ | None => _ end) with l
      by (destruct (qt_cmd t); done).
    unfold supersedable in Hs. rewrite !andb_true_iff in Hs. destruct Hs as [[_ Hp] _].
    rewrite (state_not _ "running" _ Hp) in Hho by done.
    split; cbn; unfold SESSION_CONSOLIDATION_MAX_ATTEMPTS; [known_state|by destruct Hho|done..].
  - unfold due, SESSION_CONSOLIDATION_MAX_ATTEMPTS in Hd.
    destruct (in_job_state "pending" j) eqn:Hp; cbn in *.
    + rewrite (state_not _ "running" _ Hp) in Hho, Hd by done.
      split; cbn; unfold SESSION_CONSOLIDATION_MAX_ATTEMPTS; rewrite ?Hp; [known_state|eexists _, _; repeat split; lia|lia|lia|lia|done].
    + destruct (in_job_state "running" j); [|done]. destruct Hho as (? & ? & ? & ? & ? & ?).
      split; cbn; unfold SESSION_CONSOLIDATION_MAX_ATTEMPTS; rewrite ?Hp; [known_state|eexists _, _; repeat split; lia|lia|lia|lia|done].
  - split; cbn; unfold SESSION_CONSOLIDATION_MAX_ATTEMPTS; [known_state|done..].
  - split; cbn; unfold SESSION_CONSOLIDATION_MAX_ATTEMPTS; [known_state|done|done|done|lia|done].
  - split; cbn; unfold SESSION_CONSOLIDATION_MAX_ATTEMPTS; [known_state|done|done|done|lia|done].
  - assert (Hpos : (0 <? j_attempts j)%Z = true) by lia.
    split; cbn; unfold SESSION_CONSOLIDATION_MAX_ATTEMPTS; rewrite ?Hpos, ?andb_true_r;
      [known_state|done|destruct (job_attempt_spent job); lia..|done].
  - unfold reconcilable in Hr. rewrite andb_true_iff, !orb_true_iff in Hr.
    assert (Hnr : in_job_state "running" j = false).
    { destruct Hr as [_ [[Hp|Hp]|Hp]]; by eapply state_not. }
    rewrite Hnr in Hho. destruct Hho. split; cbn; unfold SESSION_CONSOLIDATION_MAX_ATTEMPTS; [known_state|done..].
Qed.

Lemma moves_keys t reply jobs kept :
  Forall2 (kept_or_moved t reply) jobs kept → job_key <$> kept = job_key <$> jobs.
Proof.
  induction 1 as [|j j' jobs kept Hj Hk IH]; [done|]. rewrite !fmap_cons, IH. f_equal.
  destruct Hj as [[-> _]|Hm]; [done|by eapply move_key].
Qed.

Lemma moves_elem t reply jobs kept j' :
  Forall2 (kept_or_moved t reply) jobs kept → j' ∈ kept → ∃ j, j ∈ jobs ∧ kept_or_moved t reply j j'.
Proof.
  intros H (i & Hi)%list_elem_of_lookup. destruct (Forall2_lookup_r _ _ _ _ _ H Hi) as (j & Hj & ?).
  exists j. split; [|done]. by eapply list_elem_of_lookup_2.
Qed.

Lemma elem_moves t reply jobs kept j :
  Forall2 (kept_or_moved t reply) jobs kept → j ∈ jobs → ∃ j', j' ∈ kept ∧ kept_or_moved t reply j j'.
Proof.
  intros H (i & Hi)%list_elem_of_lookup. destruct (Forall2_lookup_l _ _ _ _ _ H Hi) as (j' & Hj & ?).
  exists j'. split; [|done]. by eapply list_elem_of_lookup_2.
Qed.

(** Where the rows after a command come from. *)
Lemma stepped_elem t reply jobs jobs' j' :
  queue_stepped t reply jobs jobs' → j' ∈ jobs' →
  (∃ j, j ∈ jobs ∧ kept_or_moved t reply j j') ∨ (reply = RepEnqueued true ∧ added_row t jobs j').
Proof.
  intros [kept new Hm Hn _] [Hj|Hj]%elem_of_app; [left; by eapply moves_elem|right].
  destruct new as [|j [|]]; [by apply elem_of_nil in Hj| |done].
  by apply list_elem_of_singleton in Hj as ->.
Qed.

Lemma stepped_keys t reply jobs jobs' k :
  queue_stepped t reply jobs jobs' → k ∈ job_key <$> jobs → k ∈ job_key <$> jobs'.
Proof.
  intros [kept new Hm _ _]. rewrite fmap_app, (moves_keys _ _ _ _ Hm), elem_of_app. by left.
Qed.

Lemma stepped_nodup t reply jobs jobs' :
  queue_stepped t reply jobs jobs' → NoDup (job_key <$> jobs) → NoDup (job_key <$> jobs').
Proof.
  intros [kept new Hm Hn _] Hnd. rewrite fmap_app, (moves_keys _ _ _ _ Hm).
  destruct new as [|j [|]]; [by rewrite app_nil_r| |done]. destruct Hn as [_ [ws pj session e s _ _ _ Hf]].
  apply NoDup_app. split; [done|]. split; [|by apply NoDup_singleton].
  intros k Hk ->%list_elem_of_singleton. done.
Qed.

(** The row a claim hands out. *)
Lemma stepped_claimed t reply jobs jobs' job :
  queue_stepped t reply jobs jobs' → claims_job (t, reply) = Some job →
  ∃ j j', j ∈ jobs ∧ j' ∈ jobs' ∧ job_move t reply j j' ∧ job_of job = job_key j
          ∧ job_claim job = qt_claim t ∧ job_attempts job = j_attempts j'
          ∧ in_job_state "running" j' = true.
Proof.
  intros [kept new Hm _ Ht] Hc.
  assert (E : touched (t, reply) = Some (job_of job)) by (unfold touched; by rewrite Hc).
  destruct (proj1 (list_elem_of_fmap _ _ _) (Ht _ E)) as (j & Hk & Hj).
  destruct (elem_moves _ _ _ _ _ Hm Hj) as (j' & Hj' & [[_ Hn]|Hmv]); [by rewrite E, Hk in Hn|].
  exists j, j'. split; [done|]. split; [apply elem_of_app; by left|]. split; [done|].
  unfold claims_job in Hc. cbn in Hc. destruct Hmv as [? ? ? ? ? ? H|? ? ? ? H -> ? ? ?|? ? H|? ? ? ? H|? ? ? ? H|? ? H|? ? ? H];
    try (rewrite H in Hc; cbn in Hc; try discriminate Hc); [by destruct (qt_cmd t)|].
  injection Hc as ->. done.
Qed.

Lemma added_row_ok t jobs j l :
  added_row t jobs j → (Z.of_nat (length (observations (qt_db t))) ≤ i64_max)%Z → l = no_ledger → row_ok l j.
Proof.
  intros [ws pj session e s Hc Hs He Hf] Hlen ->. unfold eligible in He.
  rewrite !andb_true_iff in He. destruct He as [_ Hpos].
  split; cbn; [known_state|done|done|unfold SESSION_CONSOLIDATION_MAX_ATTEMPTS; lia|lia|].
  unfold observation_count in *. pose proof (count_where_le (λ o, bool_decide (o_session o = s_id s)) (observations (qt_db t))).
  lia.
Qed.

Lemma queue_generations h jobs j : queue_ok h jobs → j ∈ jobs → (j_generation j ≤ i64_max)%Z.
Proof. intros H Hj. destruct (ok_job_rows _ _ H j Hj). lia. Qed.

Lemma added_pending t jobs j : added_row t jobs j → j_state j = "pending" ∧ j_attempts j = 0%Z.
Proof. by destruct 1. Qed.

Lemma added_quiet t jobs j reply k : added_row t jobs j → reply = RepEnqueued true → touched (t, reply) ≠ Some k.
Proof.
  intros [ws pj session e s Hc _ _ _] ->. unfold touched, claims_job, settles_job. cbn.
  by destruct (qt_cmd t).
Qed.

Section Step.
Context (h : QueueHistory) (jobs jobs' : list JobRow) (t : QueueTurn) (reply : QueueReply).
Context (Hok : queue_ok h jobs) (Hstep : queue_stepped t reply jobs jobs').
Context (Hset : ∀ job, settling (qt_cmd t) = Some job → handed h job).
Context (Hfresh : ∀ job, handed h job → job_claim job ≠ qt_claim t).
Context (Hlen : (Z.of_nat (length (observations (qt_db t))) ≤ i64_max)%Z).

Lemma step_rows j' : j' ∈ jobs' → row_ok (ledger (job_key j') (h ++ [(t, reply)])) j'.
Proof using Hok Hstep Hset Hlen.
  intros Hj'. rewrite ledger_snoc.
  destruct (stepped_elem _ _ _ _ _ Hstep Hj') as [(j & Hj & [[-> Hq]|Hm])|[Hr Ha]].
  - rewrite ledger_untouched by done. by apply Hok.
  - rewrite (move_key _ _ _ _ Hm). eapply move_row_ok; [done| |by apply Hok].
    intros job Hs Hh. apply (ok_handed _ _ Hok); auto.
  - rewrite ledger_untouched by by eapply added_quiet. eapply added_row_ok; [done..|].
    apply (ok_absent _ _ Hok). destruct Ha. done.
Qed.

Lemma step_handed job j' :
  handed (h ++ [(t, reply)]) job → j' ∈ jobs' → claim_held job j' = true →
  j_attempts j' = job_attempts job.
Proof using Hok Hstep Hfresh.
  intros Hj Hj' Hh. pose proof (proj1 (claim_held_true _ _) Hh) as (Hk & Hrun & Hc).
  destruct (stepped_elem _ _ _ _ _ Hstep Hj') as [(j & Hjj & Hm)|[_ [Hp _]%added_pending]]; [|congruence].
  apply handed_snoc in Hj as [Hj|Hj].
  - destruct Hm as [[-> _]|Hm]; [by apply (ok_handed _ _ Hok)|].
    destruct Hm; try done. injection Hc as Hc. symmetry in Hc. by apply Hfresh in Hc.
  - destruct (stepped_claimed _ _ _ _ _ Hstep Hj) as (i & i' & Hi & Hi' & Hmi & Hki & _ & -> & _).
    rewrite Hki in Hk. f_equal. eapply (key_unique job_key jobs'); [|done..|].
    + by eapply stepped_nodup, (ok_keys _ _ Hok).
    + by rewrite Hk, (move_key _ _ _ _ Hmi).
Qed.

Lemma step_stranded j' :
  j' ∈ jobs' → stranded j' = true → ∃ e, e ∈ h ++ [(t, reply)] ∧ strands (job_key j') e.
Proof using Hok Hstep Hset.
  intros Hj' Hs. pose proof Hs as [Hp Ha]%andb_true_iff.
  apply in_job_state_true in Hp. apply Z.eqb_eq in Ha.
  unfold SESSION_CONSOLIDATION_MAX_ATTEMPTS in Ha.
  destruct (stepped_elem _ _ _ _ _ Hstep Hj') as [(j & Hj & [[-> _]|Hm])|[_ [_ H0]%added_pending]];
    [| |rewrite H0 in Ha; discriminate Ha].
  - destruct (ok_stranded _ _ Hok j Hj Hs) as (e & He & ?). exists e. split; [|done].
    apply elem_of_app. by left.
  - pose proof (row_attempts _ _ (ok_job_rows _ _ Hok j Hj)) as Hle.
    unfold strands, SESSION_CONSOLIDATION_MAX_ATTEMPTS in *.
    assert (Hatt : ∀ job, settling (qt_cmd t) = Some job → claim_held job j = true →
                     j_attempts j = job_attempts job) by (intros; apply (ok_handed _ _ Hok); auto).
    destruct Hm as [| | | |job error at_ j Hc -> Hh Hlt|job j Hc -> Hh|]; try done; cbn in Ha.
    + rewrite (Hatt job) in Ha; [unfold SESSION_CONSOLIDATION_MAX_ATTEMPTS in Hlt; lia|by rewrite Hc|done].
    + assert (Hspent : job_attempt_spent job = false).
      { destruct (job_attempt_spent job); [|done]. cbn in Ha. destruct (Z.ltb_spec 0 (j_attempts j)); lia. }
      rewrite Hspent in Ha. exists (t, RepSettled). split; [apply elem_of_app; right; left|].
      exists job. cbn in *. split; [done|]. split; [done|].
      split; [exact (eq_sym (proj1 (proj1 (claim_held_true _ _) Hh)))|]. split; [|done].
      rewrite <- (Hatt job); [done|by rewrite Hc|done].
Qed.

Lemma step_queue_ok : queue_ok (h ++ [(t, reply)]) jobs'.
Proof using Hok Hstep Hset Hfresh Hlen.
  split.
  - by eapply stepped_nodup, (ok_keys _ _ Hok).
  - apply step_rows.
  - intros k Hk. rewrite ledger_snoc, ledger_untouched.
    + apply (ok_absent _ _ Hok). intros Hin. apply Hk. by eapply stepped_keys.
    + intros Ht. apply Hk. eapply stepped_keys; [done|]. by eapply stepped_touched.
  - intros job j. apply step_handed.
  - apply step_stranded.
  - intros job [Hj|Hj]%handed_snoc; [by apply (ok_handed_attempts _ _ Hok)|].
    destruct (stepped_claimed _ _ _ _ _ Hstep Hj) as (i & i' & Hi & Hi' & _ & _ & _ & -> & Hrun).
    destruct (step_rows i' Hi') as [_ Hho _ Hat _ _]. rewrite Hrun in Hho.
    destruct Hho as (_ & _ & _ & _ & _ & ?). lia.
Qed.
End Step.

Section Reachable.
Context (order : OrderBy JobRow) `{!OrdersRows order}.
Notation queue_history := (queue_history order).

Lemma history_ok h jobs : queue_history h jobs → queue_ok h jobs.
Proof.
  induction 1 as [|h jobs t reply jobs' Hh IH Hset Hfresh Hlen Hs].
  - split; [apply NoDup_nil_2|..]; try (intros ? ? (? & Hx & _)); try (intros ? (? & Hx & _));
      try (intros ? Hx); try done; by apply elem_of_nil in Hx.
  - eapply step_queue_ok; try done. apply (queue_step_stepped order); [apply IH| |done].
    intros j. by eapply queue_generations.
Qed.
End Reachable.
