(* ===== verification/SessionQueueContract.v ===== *)
(** * What the users of the session queue rely on

    Leases, attempts, the account every queued generation gets, and a worker
    that empties the queue. *)

From S2P Require Export SessionQueueFacts.
Open Scope nat_scope.
Open Scope rust_scope.

(** ** Histories of one job *)

Definition claim_time (e : QueueTurn * QueueReply) : Z :=
  match qt_cmd (fst e) with CmdClaim now _ => now | _ => 0%Z end.

Definition lease_cutoff (e : QueueTurn * QueueReply) : Z :=
  match qt_cmd (fst e) with CmdClaim _ stale_before => stale_before | _ => 0%Z end.

(** Nobody claims or settles the job. *)
Definition quiet (k : JobKey) (h : QueueHistory) : Prop := ∀ e, e ∈ h → touched e ≠ Some k.

(** A failure of the job is recorded. *)
Definition fails (k : JobKey) (e : QueueTurn * QueueReply) : bool :=
  match qt_cmd (fst e), snd e with
  | CmdFail job _ _, RepSettled => bool_decide (job_of job = k)
  | _, _ => false
  end.

Definition failures (k : JobKey) (h : QueueHistory) : nat := count_where (fails k) h.

Lemma ledger_claim k l e job :
  claims_job e = Some job → job_of job = k →
  lg_holder (ledger_step k l e) = Some (job_claim job, claim_time e).
Proof.
  destruct e as [t reply]. unfold claims_job, ledger_step, claim_time. cbn. intros Hc Hk.
  destruct (qt_cmd t), reply; try done. rewrite Hc. by rewrite decide_True.
Qed.

Lemma ledger_settle k l e job :
  settles_job e = Some job → job_of job = k → lg_holder (ledger_step k l e) = None.
Proof.
  destruct e as [t reply]. unfold settles_job, settling, ledger_step. cbn. intros Hc Hk.
  destruct reply; try done. destruct (qt_cmd t); try done; injection Hc as ->; by rewrite decide_True.
Qed.

Lemma touched_cases k e :
  touched e = Some k →
  ∃ job, job_of job = k ∧ (claims_job e = Some job ∨ claims_job e = None ∧ settles_job e = Some job).
Proof.
  unfold touched. destruct (claims_job e) as [job|]; [intros [= <-]; eauto|].
  destruct (settles_job e) as [job|]; [intros [= <-]; eauto|done].
Qed.

Lemma ledger_quiet k h l : quiet k h → foldl (ledger_step k) l h = l.
Proof.
  revert l. induction h as [|e h IH]; intros l Hq; [done|]. cbn [foldl].
  rewrite ledger_untouched by (apply Hq; left). apply IH. intros e' He'. apply Hq. by right.
Qed.

(** The ledger's holder is the last claim. *)
Lemma holder_last_claim k h c since :
  lg_holder (ledger k h) = Some (c, since) →
  ∃ before e0 mid job, h = before ++ e0 :: mid ∧ claims_job e0 = Some job ∧ job_of job = k
    ∧ job_claim job = c ∧ claim_time e0 = since ∧ quiet k mid.
Proof.
  induction h as [|e h IH] using rev_ind; [done|]. rewrite ledger_snoc.
  destruct (decide (touched e = Some k)) as [(job & Hk & [Hc|[_ Hs]])%touched_cases|Ht].
  - rewrite (ledger_claim _ _ _ _ Hc Hk). intros [= <- <-].
    exists h, e, [], job. repeat split; try done. by intros ? ?%elem_of_nil.
  - by rewrite (ledger_settle _ _ _ _ Hs Hk).
  - rewrite ledger_untouched by done. intros (before & e0 & mid & job & -> & ? & ? & ? & ? & Hq)%IH.
    exists before, e0, (mid ++ [e]), job. rewrite <- app_assoc. repeat split; try done.
    intros e' [He'| ->%list_elem_of_singleton]%elem_of_app; [by apply Hq|done].
Qed.

Lemma last_claim_holder k before e0 mid job :
  claims_job e0 = Some job → job_of job = k → quiet k mid →
  lg_holder (ledger k (before ++ e0 :: mid)) = Some (job_claim job, claim_time e0).
Proof.
  intros Hc Hk Hq. unfold ledger. rewrite foldl_app. cbn [foldl].
  rewrite ledger_quiet by done. by apply ledger_claim.
Qed.

Lemma failures_ledger k h : failures k h = lg_failed (ledger k h).
Proof.
  induction h as [|[t reply] h IH] using rev_ind; [done|].
  rewrite ledger_snoc. unfold failures in *. rewrite count_where_app, IH.
  unfold count_where, fails, ledger_step. cbn.
  destruct (qt_cmd t), reply as [|[job'|]| | |]; cbn;
    repeat case_decide; repeat case_bool_decide; cbn; try done; lia.
Qed.

(** What a settlement finds. *)
Lemma stepped_settled t reply jobs jobs' job :
  queue_stepped t reply jobs jobs' → settles_job (t, reply) = Some job →
  ∃ j, j ∈ jobs ∧ claim_held job j = true.
Proof.
  intros [kept new Hm _ Ht] Hs.
  assert (Hr : reply = RepSettled ∧ settling (qt_cmd t) = Some job).
  { unfold settles_job in Hs. cbn in Hs. by destruct reply. }
  destruct Hr as [-> Hc].
  assert (E : touched (t, RepSettled) = Some (job_of job)).
  { unfold touched, claims_job. rewrite Hs. cbn. by destruct (qt_cmd t). }
  destruct (proj1 (list_elem_of_fmap _ _ _) (Ht _ E)) as (j & Hk & Hj).
  destruct (elem_moves _ _ _ _ _ Hm Hj) as (j' & Hj' & [[_ Hn]|Hmv]); [by rewrite E, Hk in Hn|].
  exists j. split; [done|].
  destruct Hmv as [? ? ? ? ? ? _ ?|? ? ? ? _ ?|? ? Hq _ ?|? ? ? ? Hq _ ?|? ? ? ? Hq _ ?|? ? Hq _ ?|? ? ? _ ?];
    try done; rewrite Hq in Hc; by injection Hc as ->.
Qed.

Section Contract.
Context (order : OrderBy JobRow) `{!OrdersRows order}.
Notation queue_history := (queue_history order).

Lemma queue_history_last h t reply jobs :
  queue_history (h ++ [(t, reply)]) jobs →
  ∃ jobs0, queue_history h jobs0 ∧ queue_stepped t reply jobs0 jobs
    ∧ (∀ job, settling (qt_cmd t) = Some job → handed h job)
    ∧ (∀ job, handed h job → job_claim job ≠ qt_claim t).
Proof.
  intros H. inversion H as [E|h0 jobs0 t0 reply0 jobs1 Hh Hs Hf Hl Hst E]; [by destruct h|].
  apply app_inj_tail in E as [-> [= -> ->]]. exists jobs0. split; [done|]. split; [|done].
  pose proof (history_ok order _ _ Hh) as Hok.
  apply (queue_step_stepped order); [apply Hok| |done]. intros j. by eapply queue_generations.
Qed.

Lemma queue_history_split pre e post jobs :
  queue_history (pre ++ e :: post) jobs → ∃ jobs1, queue_history (pre ++ [e]) jobs1.
Proof.
  revert jobs. induction post as [|x post IH] using rev_ind; intros jobs H; [by exists jobs|].
  rewrite app_comm_cons, app_assoc in H. destruct x as [t reply].
  apply queue_history_last in H as (jobs0 & H & _). by eapply IH.
Qed.

Lemma handed_unique h jobs job job' :
  queue_history h jobs → handed h job → handed h job' → job_claim job = job_claim job' → job = job'.
Proof.
  intros Hh. revert job job'.
  induction Hh as [|h jobs t reply jobs' Hh IH Hset Hfresh Hlen Hs]; intros job job' Hj Hj' Heq.
  { destruct Hj as (? & Hx & _). by apply elem_of_nil in Hx. }
  assert (Hnew : ∀ job, claims_job (t, reply) = Some job → job_claim job = qt_claim t).
  { intros job0 Hc. pose proof (history_ok order _ _ Hh) as Hok.
    edestruct stepped_claimed as (? & ? & _ & _ & _ & _ & ? & _); [|exact Hc|done].
    apply (queue_step_stepped order); [apply Hok| |done]. intros j. by eapply queue_generations. }
  apply handed_snoc in Hj as [Hj|Hj], Hj' as [Hj'|Hj'].
  - by apply IH.
  - rewrite (Hnew _ Hj') in Heq. by apply Hfresh in Heq.
  - rewrite (Hnew _ Hj) in Heq. symmetry in Heq. by apply Hfresh in Heq.
  - congruence.
Qed.

(** C22. A lease is exclusive: in every history of the queue, a job is
    completed, failed or released only by its latest claimant, whom nobody
    settled or took over in between, so a claim is settled at most once; and a
    job is handed to another worker only when the claim before it was settled
    or is as old as the lease. *)
Theorem lease_is_exclusive h jobs :
  queue_history h jobs →
  ∀ pre e post job, h = pre ++ e :: post →
    (settles_job e = Some job →
     ∃ before e0 mid, pre = before ++ e0 :: mid ∧ claims_job e0 = Some job ∧ quiet (job_of job) mid)
    ∧ (claims_job e = Some job →
       ∀ before e0 mid job0, pre = before ++ e0 :: mid → claims_job e0 = Some job0 →
         job_of job0 = job_of job → quiet (job_of job) mid → (claim_time e0 ≤ lease_cutoff e)%Z).
Proof.
  intros Hh pre [t reply] post job ->.
  destruct (queue_history_split _ _ _ _ Hh) as [jobs1 Hnow].
  destruct (queue_history_last _ _ _ _ Hnow) as (jobs0 & Hpre & Hst & Hset & Hfresh).
  pose proof (history_ok order _ _ Hpre) as Hok. split.
  - intros Hs. destruct (stepped_settled _ _ _ _ _ Hst Hs) as (j & Hj & Hheld).
    apply claim_held_true in Hheld as (Hk & Hrun & Hc).
    destruct (ok_job_rows _ _ Hok j Hj) as [_ Hho _ _ _ _].
    rewrite (proj2 (in_job_state_true _ _) Hrun), Hk in Hho.
    destruct Hho as (c & since & Hhold & Hc' & _).
    destruct (holder_last_claim _ _ _ _ Hhold) as (before & e0 & mid & job0 & -> & Hc0 & Hk0 & Hcl & _ & Hq).
    exists before, e0, mid. split; [done|]. split; [|done]. rewrite Hc0. f_equal.
    eapply (handed_unique _ _ _ _ Hpre); [|apply Hset|congruence].
    + exists e0. split; [|done]. apply elem_of_app. right. left.
    + unfold settles_job in Hs. cbn in Hs. by destruct reply.
  - intros Hc before e0 mid job0 -> Hc0 Hk0 Hq.
    destruct (stepped_claimed _ _ _ _ _ Hst Hc) as (j & j' & Hj & _ & Hmv & Hk & _ & _ & _).
    pose proof (last_claim_holder _ before e0 mid job0 Hc0 Hk0 Hq) as Hhold.
    rewrite Hk in Hhold. destruct (ok_job_rows _ _ Hok j Hj) as [_ Hho _ _ _ _].
    destruct (in_job_state "running" j) eqn:Hrun; [|by rewrite Hhold in Hho; destruct Hho].
    destruct Hho as (c & since & Hhold' & _ & Hstart & _).
    rewrite Hhold in Hhold'. injection Hhold' as <- <-.
    unfold claims_job in Hc. cbn in Hc. unfold lease_cutoff. cbn.
    destruct Hmv as [? ? ? ? ? ? _ -> _|now stale ? j Hq' -> _ _ _ _ Hd|? ? Hq' ->|? ? ? ? Hq' ->|? ? ? ? Hq' ->|? ? Hq' ->|? ? ? Hq' ->];
      try (by destruct (qt_cmd t)); try (by rewrite Hq' in Hc).
    rewrite Hq'. unfold due in Hd. rewrite Hrun in Hd.
    assert (Hp : in_job_state "pending" j = false) by (by eapply state_not).
    rewrite Hp, Hstart in Hd. cbn in Hd. rewrite andb_true_iff in Hd. lia.
Qed.

(** ** Attempts *)

Lemma unsettled_due l j :
  row_ok l j → unsettled j = true → stranded j = false →
  ∃ T, ∀ now stale_before, (T ≤ now)%Z → (T ≤ stale_before)%Z → due now stale_before j = true.
Proof.
  intros [_ Hho _ Hat _ _] Hu Hs. unfold unsettled, stranded, due in *.
  destruct (in_job_state "pending" j) eqn:Hp; cbn in *.
  - exists (j_next_attempt_at j). intros now stale Hn _. apply orb_true_iff. left. lia.
  - rewrite Hu in Hho. destruct Hho as (c & since & _ & _ & Hst & _).
    exists since. intros now stale _ Hl. rewrite Hu, Hst. cbn. lia.
Qed.

(** Attempts are bounded and none is forgotten: in every history at most
    five failures of one job are recorded, a claim hands out attempt one to
    five, and a job neither settled nor superseded can be claimed again once
    its delay and lease are over, unless a worker that had taken over the fifth
    attempt released it. *)
Theorem attempts_bounded h jobs :
  queue_history h jobs →
  (∀ k, (Z.of_nat (failures k h) ≤ SESSION_CONSOLIDATION_MAX_ATTEMPTS)%Z)
  ∧ (∀ job, handed h job → (1 ≤ job_attempts job ≤ SESSION_CONSOLIDATION_MAX_ATTEMPTS)%Z)
  ∧ (∀ j, j ∈ jobs → unsettled j = true →
       (∃ T, ∀ now stale_before, (T ≤ now)%Z → (T ≤ stale_before)%Z → due now stale_before j = true)
       ∨ stranded j = true ∧ ∃ e, e ∈ h ∧ strands (job_key j) e).
Proof.
  intros Hh. pose proof (history_ok order _ _ Hh) as Hok. split; [|split].
  - intros k. rewrite failures_ledger.
    destruct (decide (k ∈ job_key <$> jobs)) as [(j & -> & Hj)%list_elem_of_fmap|Hk].
    + destruct (ok_job_rows _ _ Hok j Hj). lia.
    + by rewrite (ok_absent _ _ Hok k Hk).
  - apply (ok_handed_attempts _ _ Hok).
  - intros j Hj Hu. destruct (stranded j) eqn:Hs.
    + right. split; [done|]. by apply (ok_stranded _ _ Hok).
    + left. by eapply unsettled_due; [apply Hok|..].
Qed.

(** ** The account of a queued generation *)

(** Why a row is where it is, from what happened since it was queued. *)
Definition accounted (post : QueueHistory) (j : JobRow) : Prop :=
  unsettled j = true
  ∨ (∃ e job, e ∈ post ∧ settles_job e = Some job ∧ job_of job = job_key j
       ∧ (qt_cmd (fst e) = CmdComplete job ∧ in_job_state "completed" j = true
          ∨ (∃ error retry_at, qt_cmd (fst e) = CmdFail job error retry_at
               ∧ (SESSION_CONSOLIDATION_MAX_ATTEMPTS ≤ job_attempts job ∨ retry_at = None)%Z)
            ∧ in_job_state "failed" j = true))
  ∨ (∃ e n, e ∈ post ∧ qt_cmd (fst e) = CmdReconcile (j_session j) ∧ snd e = RepReconciled n
       ∧ in_job_state "completed" j = true)
  ∨ (∃ e ws pj el b, e ∈ post ∧ enqueuing (qt_cmd (fst e)) = Some (ws, pj, j_session j, el)
       ∧ snd e = RepEnqueued b ∧ in_job_state "superseded" j = true
       ∧ (j_generation j < observation_count (qt_db (fst e)) (j_session j))%Z).

Lemma accounted_mono post e j : accounted post j → accounted (post ++ [e]) j.
Proof.
  intros [Hu|[(e0 & job & He & H)|[(e0 & n & He & H)|(e0 & ws & pj & el & b & He & H)]]].
  - by left.
  - right; left. exists e0, job. split; [|done]. apply elem_of_app. by left.
  - right; right; left. exists e0, n. split; [|done]. apply elem_of_app. by left.
  - right; right; right. exists e0, ws, pj, el, b. split; [|done]. apply elem_of_app. by left.
Qed.

Lemma move_accounted post t reply j j' :
  job_move t reply j j' → accounted (post ++ [(t, reply)]) j'.
Proof.
  assert (Hin : (t, reply) ∈ post ++ [(t, reply)]) by (apply elem_of_app; right; left).
  assert (Hk : ∀ job i, claim_held job i = true → job_of job = job_key i).
  { by intros job i (-> & _)%claim_held_true. }
  destruct 1 as [ws pj session e ins j Hc -> Hs|now stale job j Hc -> _ _ _ _ _|job j Hc -> Hh
    |job error at_ j Hc -> Hh Hl|job error at_ j Hc -> Hh _|job j Hc -> Hh|session n j Hc -> Hr].
  - right; right; right. unfold supersedable in Hs.
    rewrite !andb_true_iff, bool_decide_eq_true in Hs. destruct Hs as [[<- _] Hlt].
    eexists _, ws, pj, e, ins. split; [done|]. cbn. split; [done|]. split; [done|]. split; [done|]. lia.
  - by left.
  - right; left. eexists _, job. split; [done|]. unfold settles_job. cbn. rewrite Hc. split; [done|].
    split; [by apply (Hk job j)|by left].
  - right; left. eexists _, job. split; [done|]. unfold settles_job. cbn. rewrite Hc. split; [done|].
    split; [by apply (Hk job j)|]. right. split; [|done]. eauto.
  - by left.
  - by left.
  - right; right; left. unfold reconcilable in Hr. rewrite andb_true_iff, bool_decide_eq_true in Hr.
    destruct Hr as [<- _]. eexists _, n. done.
Qed.

(** C19. A queued generation is never lost: once a command has queued it, its
    row exists at every later time and is waiting or being worked on, completed
    by a claimant or by a manual consolidation, failed for good by a claimant,
    or superseded by an enqueue that saw more observations. *)
Theorem queued_generation_accounted h jobs :
  queue_history h jobs →
  ∀ pre t post ws pj session el, h = pre ++ (t, RepEnqueued true) :: post →
    enqueuing (qt_cmd t) = Some (ws, pj, session, el) →
    ∃ j, j ∈ jobs ∧ job_key j = (session, observation_count (qt_db t) session)
         ∧ j_workspace j = ws ∧ j_project j = pj ∧ accounted post j.
Proof.
  intros Hh pre t post ws pj session el -> Hc. revert jobs Hh.
  induction post as [|e post IH] using rev_ind; intros jobs Hh.
  - destruct (queue_history_last _ _ _ _ Hh) as (jobs0 & _ & [kept new _ Hn _] & _).
    destruct new as [|j [|]]; [done| |done]. destruct Hn as [_ [ws' pj' session' el' s Hc' Hs He _]].
    rewrite Hc in Hc'. injection Hc' as <- <- <- <-.
    unfold eligible in He. rewrite !andb_true_iff, !bool_decide_eq_true in He.
    destruct He as [[[[<- <-] <-] _] _].
    eexists. split; [apply elem_of_app; right; by left|]. repeat split. by left.
  - destruct e as [t' reply']. rewrite app_comm_cons, app_assoc in Hh.
    destruct (queue_history_last _ _ _ _ Hh) as (jobs0 & Hh0 & [kept new Hm _ _] & _).
    destruct (IH _ Hh0) as (j & Hj & Hk & Hw & Hp & Hacc).
    destruct (elem_moves _ _ _ _ _ Hm Hj) as (j' & Hj' & Hmv). exists j'.
    split; [apply elem_of_app; by left|]. destruct Hmv as [[-> _]|Hmv].
    + do 3 (split; [done|]). by apply accounted_mono.
    + rewrite (move_key _ _ _ _ Hmv). split; [done|].
      split; [by destruct Hmv|]. split; [by destruct Hmv|]. by eapply move_accounted.
Qed.

(** ** A worker empties the queue *)

Record row_fit (j : JobRow) : Prop := {
  fit_attempts : (0 ≤ j_attempts j ≤ SESSION_CONSOLIDATION_MAX_ATTEMPTS)%Z;
  fit_generation : (0 < j_generation j ≤ i64_max)%Z;
}.

Definition rows_fit (jobs : list JobRow) : Prop :=
  NoDup (job_key <$> jobs) ∧ ∀ j, j ∈ jobs → row_fit j.

Lemma queue_rows_fit h jobs : queue_ok h jobs → rows_fit jobs.
Proof. intros Hok. split; [apply Hok|]. intros j Hj. destruct (ok_job_rows _ _ Hok j Hj). done. Qed.

(** Work is left on the row. *)
Definition active (j : JobRow) : bool := unsettled j && negb (stranded j).

Lemma due_state now stale_before j :
  due now stale_before j = true →
  j_state j = "pending" ∧ (j_attempts j < 5)%Z ∨ j_state j = "running" ∧ (j_attempts j ≤ 5)%Z.
Proof.
  unfold due, SESSION_CONSOLIDATION_MAX_ATTEMPTS.
  rewrite orb_true_iff, !andb_true_iff, !in_job_state_true. intros [[[? ?] _]|[[? ?] _]]; [left|right]; (split; [done|lia]).
Qed.

Lemma claim_succeeds jobs now stale_before claim :
  rows_fit jobs → (∃ j, j ∈ jobs ∧ due now stale_before j = true) →
  ∃ job jobs', claim_next order no_faults jobs now stale_before claim = Ok (Some job, jobs').
Proof.
  intros [Hn Hfit] (j0 & Hj0 & Hd0). unfold claim_next. cbn.
  destruct (order requested_first _) as [|j l] eqn:El; cbn.
  { by rewrite (order_filter_nil order _ _ _ _ _ _ El Hj0) in Hd0. }
  destruct (order_head _ _ _ _ _ _ _ El) as [[Hj Hd]%elem_filter _].
  destruct (Hfit j Hj) as [Ha Hg]. unfold SESSION_CONSOLIDATION_MAX_ATTEMPTS in Ha.
  unfold u64_try_from, u32_try_from.
  replace (0 <=? j_generation j)%Z with true by lia. cbn.
  replace ((0 <=? j_attempts j)%Z && (j_attempts j <=? u32_max)%Z) with true by (unfold u32_max; lia).
  cbn. assert (Hc : ∃ a, claimed_attempts (j_state j) (j_attempts j) = Ok a).
  { unfold claimed_attempts. destruct (due_state _ _ _ Hd) as [[-> _]|[-> _]]; cbn; eauto. }
  destruct Hc as [a ->]. cbn. rewrite Z.min_l by lia.
  rewrite (count_unique job_key _ jobs j); try done; [by eauto|by apply due_claimable|].
  intros j' Hk%claimable_key. by rewrite Hk.
Qed.

Lemma settle_succeeds jobs job g j :
  NoDup (job_key <$> jobs) → j ∈ jobs → claim_held job j = true →
  settle no_faults jobs job g = Ok (update_where (claim_held job) g jobs).
Proof.
  intros Hn Hj Hh. unfold settle, require_claim_update. cbn.
  rewrite (count_unique job_key _ jobs j); try done.
  intros j' (Hk & _)%claim_held_true. apply claim_held_true in Hh as (-> & _). done.
Qed.

(** The row a worker's settlement leaves. *)
Definition settled_row (job : SessionConsolidationJob) (cmd : QueueCmd) (now : Z) (j : JobRow) : JobRow :=
  match cmd with
  | CmdComplete _ => complete_row now j
  | CmdFail _ error None => fail_row now (truncate_error error) j
  | CmdFail _ error (Some at_) => retry_row at_ (truncate_error error) j
  | _ => j
  end.

Lemma worker_settles_step jobs job c t j :
  NoDup (job_key <$> jobs) → j ∈ jobs → claim_held job j = true → c ≠ Cancelled →
  qt_faults t = no_faults → qt_cmd t = worker_settles job c (qt_now t) →
  queue_step order jobs t =
    (RepSettled, update_where (claim_held job) (settled_row job (qt_cmd t) (qt_now t)) jobs).
Proof.
  intros Hn Hj Hh Hc Hf Ht. unfold queue_step. rewrite Hf, Ht.
  assert (Hs : ∀ g, settle no_faults jobs job g = Ok (update_where (claim_held job) g jobs)).
  { intros g. by eapply settle_succeeds. }
  unfold worker_settles. destruct c as [| | |e summary]; [| done| |];
    [by cbn beta iota; unfold complete; rewrite Hs..|].
  cbn beta iota. unfold fail. destruct (is_terminal_session_consolidation_error e || _) eqn:E; cbn beta iota.
  - by rewrite bool_decide_eq_true_2, orb_true_r, Hs.
  - apply orb_false_iff in E as [_ E]. rewrite E, bool_decide_eq_false_2 by done.
    cbn [orb]. by rewrite Hs.
Qed.

(** How much is left to do on a row: it falls with every settled claim. *)
Definition work (j : JobRow) : nat :=
  if negb (active j) then 0
  else if in_job_state "pending" j then Z.to_nat (2 * (5 - j_attempts j) + 1)
  else Z.to_nat (2 * (5 - j_attempts j) + 2).

Definition total_work (jobs : list JobRow) : nat := sum_list (work <$> jobs).

Definition settled_for_good (j : JobRow) : bool :=
  in_job_state "completed" j || in_job_state "failed" j.

(** What rounds make of a row. *)
Definition fate (j j' : JobRow) : Prop :=
  job_key j' = job_key j ∧ (active j = false → j' = j)
  ∧ (active j = true → active j' = true ∨ settled_for_good j' = true).

#[local] Instance fate_trans : Transitive fate.
Proof.
  intros j1 j2 j3 (Hk & Hi & Ha) (Hk' & Hi' & Ha'). split; [congruence|]. split.
  - intros H. rewrite (Hi H) in Hi'. auto.
  - intros [H|H]%Ha; [auto|].
    assert (active j2 = false) as Hn.
    { unfold active, unsettled, settled_for_good, in_job_state in *.
      apply orb_true_iff in H as [H%bool_decide_eq_true|H%bool_decide_eq_true]; by rewrite H. }
    rewrite (Hi' Hn). by right.
Qed.

Definition shrinks (j j' : JobRow) : Prop := j' = j ∨ fate j j' ∧ row_fit j' ∧ work j' < work j.

Lemma active_states j :
  active j = true ↔ j_state j = "pending" ∧ j_attempts j ≠ 5%Z ∨ j_state j = "running".
Proof.
  unfold active, unsettled, stranded, SESSION_CONSOLIDATION_MAX_ATTEMPTS, in_job_state.
  destruct (decide (j_state j = "pending")) as [E|E].
  - rewrite E. cbn. destruct (Z.eqb_spec (j_attempts j) 5); cbn.
    + split; [done|]. by intros [[_ ?]|?].
    + split; [by left|done].
  - rewrite (bool_decide_eq_false_2 _ E). cbn. rewrite andb_true_r, bool_decide_eq_true.
    split; [by right|by intros [[? _]|?]].
Qed.

Lemma settled_row_shrinks job c j now now' claim stale_before :
  let t := worker_settles job c now' in
  let j1 := claim_job_row now claim j in
  row_fit j → due now stale_before j = true → job_attempts job = j_attempts j1 →
  c ≠ Cancelled → fate j (settled_row job t now' j1) ∧ row_fit (settled_row job t now' j1)
                   ∧ work (settled_row job t now' j1) < work j.
Proof.
  intros t j1 [Ha Hg] Hd Hatt Hc.
  assert (Hact : active j = true).
  { apply active_states. destruct (due_state _ _ _ Hd) as [[? ?]|[? ?]]; [left|right]; (split; [done|lia]) || done. }
  assert (Hw : 2 * Z.to_nat (5 - j_attempts j1) + 1 < work j ∧ (j_attempts j1 ≤ 5)%Z ∧ (0 ≤ j_attempts j1)%Z).
  { unfold work. rewrite Hact. cbn. unfold j1, in_job_state, SESSION_CONSOLIDATION_MAX_ATTEMPTS in *. cbn.
    destruct (due_state _ _ _ Hd) as [[E ?]|[E ?]]; unfold in_job_state; rewrite E;
      [rewrite bool_decide_eq_true_2 by done|rewrite bool_decide_eq_false_2 by done]; lia. }
  destruct Hw as (Hw & Hle & Hge).
  assert (Hdone : ∀ j2, job_key j2 = job_key j → settled_for_good j2 = true → j_attempts j2 = j_attempts j1 →
            fate j j2 ∧ row_fit j2 ∧ work j2 < work j).
  { intros j2 Hk Hs Hat. assert (active j2 = false) as Hn.
    { unfold active, unsettled, settled_for_good, in_job_state in *.
      apply orb_true_iff in Hs as [H%bool_decide_eq_true|H%bool_decide_eq_true]; by rewrite H. }
    split; [split; [done|]; split; [by rewrite Hact|by right]|].
    assert (j_generation j2 = j_generation j) as Hgen by by injection Hk.
    split; [split; [by rewrite Hat|by rewrite Hgen]|]. unfold work at 1. rewrite Hn. cbn. lia. }
  unfold t, worker_settles. destruct c as [| | |e summary]; try (by apply Hdone).
  destruct (_ || _) eqn:E; [by apply Hdone|]. apply orb_false_iff in E as [_ E]. rewrite Hatt in E.
  unfold SESSION_CONSOLIDATION_MAX_ATTEMPTS in E. cbn [settled_row].
  set (j2 := retry_row _ _ _). assert (Ha2 : active j2 = true).
  { apply active_states. left. split; [done|]. unfold j2. cbn [j_attempts retry_row]. lia. }
  split; [split; [done|]; split; [by rewrite Hact|by left]|]. split; [split; [done|done]|].
  unfold work at 1. rewrite Ha2. cbn [negb]. change (in_job_state "pending" j2) with true. cbv iota.
  change (j_attempts j2) with (j_attempts j1). lia.
Qed.

Lemma shrink_total jobs jobs' :
  Forall2 shrinks jobs jobs' →
  total_work jobs' ≤ total_work jobs ∧ (jobs' ≠ jobs → total_work jobs' < total_work jobs).
Proof.
  unfold total_work. induction 1 as [|j j' jobs jobs' Hj _ [IH1 IH2]]; [done|]. cbn.
  destruct Hj as [->|(_ & _ & Hlt)]; [|split; [lia|intros _; lia]].
  split; [lia|]. intros Hne. specialize (IH2 ltac:(congruence)). lia.
Qed.

Lemma shrink_fit jobs jobs' : rows_fit jobs → Forall2 shrinks jobs jobs' → rows_fit jobs'.
Proof.
  intros [Hn Hf] H.
  assert (Hk : job_key <$> jobs' = job_key <$> jobs).
  { clear -H. induction H as [|j j' jobs jobs' Hj _ IH]; [done|]. rewrite !fmap_cons, IH. f_equal.
    destruct Hj as [->|((? & _) & _)]; done. }
  split; [by rewrite Hk|]. intros j' (i & Hi)%list_elem_of_lookup.
  destruct (Forall2_lookup_r _ _ _ _ _ H Hi) as (j & Hj & [->|(_ & ? & _)]); [|done].
  apply Hf. by eapply list_elem_of_lookup_2.
Qed.

Lemma due_active now stale_before j : due now stale_before j = true → active j = true.
Proof.
  intros Hd. apply active_states. destruct (due_state _ _ _ Hd) as [[? ?]|[? ?]]; [left; split; [done|lia]|by right].
Qed.

Lemma claim_settles jobs now stale_before claim job jobs1 c t :
  rows_fit jobs → claim_next order no_faults jobs now stale_before claim = Ok (Some job, jobs1) →
  c ≠ Cancelled → qt_faults t = no_faults → qt_cmd t = worker_settles job c (qt_now t) →
  ∃ jobs2, queue_step order jobs1 t = (RepSettled, jobs2) ∧ Forall2 shrinks jobs jobs2 ∧ jobs2 ≠ jobs.
Proof.
  intros [Hn Hf] Hcl Hc Hft Ht.
  apply claim_next_Ok in Hcl as (j & hit & Hj & Hd & _ & -> & Hhit & Hk & Hid & Hatt & _);
    [|done..|intros i Hi; destruct (Hf i Hi); lia].
  set (j1 := claim_job_row now claim j) in *. set (g := settled_row job (qt_cmd t) (qt_now t)).
  assert (Hkeys : job_key <$> update_where hit (claim_job_row now claim) jobs = job_key <$> jobs).
  { by apply fmap_update_where. }
  assert (Hheld : claim_held job j1 = true).
  { apply claim_held_true. split; [by rewrite Hk|]. split; [done|]. cbn. by rewrite Hid. }
  assert (Hothers : ∀ i, i ∈ jobs → hit i = false → claim_held job i = false).
  { intros i Hi Hh. destruct (claim_held job i) eqn:E; [|done]. exfalso.
    apply claim_held_true in E as (Hki & _). assert (i = j) as -> by
      (eapply (key_unique job_key jobs); [done..|congruence]).
    by rewrite (proj2 (Hhit j Hj)) in Hh. }
  rewrite (worker_settles_step _ job c t j1); try done.
  2: by rewrite Hkeys.
  2: { apply elem_update_where. exists j. split; [done|]. by rewrite (proj2 (Hhit j Hj)). }
  eexists. split; [done|].
  pose proof (settled_row_shrinks job c j now (qt_now t) claim stale_before (Hf j Hj) Hd Hatt Hc) as (Hfate & Hfit & Hlt).
  rewrite <- Ht in Hfate, Hfit, Hlt. fold j1 g in Hfate, Hfit, Hlt. split.
  - unfold update_where. rewrite <- list_fmap_compose. apply Forall2_fmap_r, Forall_Forall2_diag.
    rewrite Forall_forall. intros i Hi. cbn. destruct (hit i) eqn:Eh.
    + apply Hhit in Eh as ->; [|done]. fold j1. rewrite Hheld. by right.
    + rewrite (Hothers i Hi Eh). by left.
  - intros E. assert (Hin : g j1 ∈ jobs).
    { rewrite <- E. apply elem_update_where. exists j1. rewrite Hheld. split; [|done].
      apply elem_update_where. exists j. split; [done|]. by rewrite (proj2 (Hhit j Hj)). }
    assert (g j1 = j) as Eq; [|rewrite Eq in Hlt; lia].
    destruct Hfate as [Hkg _]. by apply (key_unique job_key jobs).
Qed.

(** One round of an undisturbed worker. *)
Lemma round_shrinks jobs claim settling c now reply jobs' :
  rows_fit jobs → qt_cmd claim = worker_claims now → qt_faults claim = no_faults →
  qt_faults settling = no_faults → (∀ job, c job ≠ Cancelled) →
  (∀ j, j ∈ jobs → active j = true →
     due now (i64_saturating_sub now SESSION_CONSOLIDATION_LEASE) j = true) →
  worker_round order jobs claim settling [] c = (reply, jobs') →
  Forall2 shrinks jobs jobs' ∧ ((∃ j, j ∈ jobs ∧ active j = true) → total_work jobs' < total_work jobs).
Proof.
  intros Hfit Hcmd Hf1 Hf2 Hc Hdue. unfold worker_round, queue_step at 1. rewrite Hcmd, Hf1.
  unfold worker_claims. cbn beta iota zeta. set (stale := i64_saturating_sub _ _) in *.
  assert (Hrefl : Forall2 shrinks jobs jobs).
  { apply Forall_Forall2_diag, Forall_forall. intros j _. by left. }
  destruct (claim_next order no_faults jobs now stale (qt_claim claim)) as [[[job|] jobs1]|e] eqn:Ecl;
    cbn [queue_reply].
  - destruct (claim_settles _ _ _ _ _ _ (c job)
      (mkQueueTurn (worker_settles job (c job) (qt_now settling)) (qt_db settling) (qt_now settling)
         (qt_claim settling) (qt_faults settling)) Hfit Ecl) as (jobs2 & Hs & Hsh & Hne); [auto|done|done|].
    cbn [queue_run]. rewrite Hs. intros [= <- <-]. split; [done|]. intros _. by apply shrink_total.
  - intros [= <- <-]. assert (jobs1 = jobs ∧ ∀ j, j ∈ jobs → due now stale j = false) as [-> Hnone].
    { destruct Hfit as [Hn Hf]. apply claim_next_Ok in Ecl; [done|done|done|].
      intros i Hi. destruct (Hf i Hi). lia. }
    split; [done|]. intros (j & Hj & Ha). specialize (Hnone j Hj). by rewrite Hdue in Hnone.
  - intros [= <- <-]. split; [done|]. intros (j & Hj & Ha).
    destruct (claim_succeeds jobs now stale (qt_claim claim) Hfit) as (? & ? & E); [eauto|congruence].
Qed.

(** Undisturbed rounds: the worker polls when what is left is due, the
    statements succeed, and the server does not shut down. *)
Inductive worker_rounds :
    list (SessionConsolidationJob → Consolidation) → list JobRow → list JobRow → Prop :=
  | rounds_none jobs : worker_rounds [] jobs jobs
  | rounds_next c cs jobs claim settling now reply jobs1 jobs2 :
      qt_cmd claim = worker_claims now → qt_faults claim = no_faults →
      qt_faults settling = no_faults → (∀ job, c job ≠ Cancelled) →
      (∀ j, j ∈ jobs → active j = true →
         due now (i64_saturating_sub now SESSION_CONSOLIDATION_LEASE) j = true) →
      worker_round order jobs claim settling [] c = (reply, jobs1) →
      worker_rounds cs jobs1 jobs2 → worker_rounds (c :: cs) jobs jobs2.

Lemma work_active j : row_fit j → active j = true → 0 < work j.
Proof.
  intros [Ha _] Hact. unfold work. rewrite Hact. cbn [negb].
  unfold SESSION_CONSOLIDATION_MAX_ATTEMPTS in Ha. destruct (in_job_state "pending" j); lia.
Qed.

Lemma work_done jobs j : rows_fit jobs → total_work jobs = 0 → j ∈ jobs → active j = false.
Proof.
  intros [_ Hf]. unfold total_work. induction jobs as [|i jobs IH]; intros H Hj; [by apply elem_of_nil in Hj|].
  cbn in H. apply Nat.eq_add_0 in H as [Hi H]. apply elem_of_cons in Hj as [->|Hj].
  - destruct (active i) eqn:Ha; [|done]. pose proof (work_active i (Hf i ltac:(left)) Ha). lia.
  - apply IH; [intros k Hk; apply Hf; by right|done|done].
Qed.

Lemma total_work_bound jobs : rows_fit jobs → total_work jobs ≤ 12 * length jobs.
Proof.
  intros [_ Hf]. unfold total_work. induction jobs as [|i jobs IH]; [done|]. cbn.
  assert (work i ≤ 12).
  { destruct (Hf i ltac:(left)) as [Ha _]. unfold SESSION_CONSOLIDATION_MAX_ATTEMPTS in Ha. unfold work. destruct (negb _); [lia|]. destruct (in_job_state "pending" i); lia. }
  specialize (IH ltac:(intros k Hk; apply Hf; by right)). lia.
Qed.

Lemma rounds_drain cs jobs jobs' :
  worker_rounds cs jobs jobs' → rows_fit jobs →
  Forall2 fate jobs jobs' ∧ (total_work jobs ≤ length cs → ∀ j, j ∈ jobs' → active j = false).
Proof.
  induction 1 as [jobs|c cs jobs claim settling now reply jobs1 jobs2 Hcmd Hf1 Hf2 Hc Hdue Hr _ IH];
    intros Hfit.
  - split; [apply Forall_Forall2_diag, Forall_forall; intros j _; split; [done|]; split; [done|by left]|].
    intros H j Hj. eapply work_done; [done| |done]. cbn in H. lia.
  - destruct (round_shrinks _ _ _ _ _ _ _ Hfit Hcmd Hf1 Hf2 Hc Hdue Hr) as [Hsh Hlt].
    pose proof (shrink_fit _ _ Hfit Hsh) as Hfit1. destruct (IH Hfit1) as [Hfate Hdone].
    destruct (shrink_total _ _ Hsh) as [Hle _]. split.
    + transitivity jobs1; [|exact Hfate].
      eapply Forall2_impl; [exact Hsh|]. intros j j' [->|[? _]]; [|done].
      split; [done|]. split; [done|by left].
    + cbn [length]. intros H. destruct (existsb active jobs) eqn:E.
      * apply existsb_elem in E. specialize (Hlt E). apply Hdone. lia.
      * assert (total_work jobs = 0) as H0; [|apply Hdone; lia].
        clear -E. unfold total_work. induction jobs as [|j jobs IH]; [done|]. cbn in *.
        apply orb_false_iff in E as [Ej E]. unfold work at 1. rewrite Ej. cbn. by apply IH.
Qed.

End Contract.

(** ** Histories by running *)

#[export] Instance session_consolidation_job_eq_dec : EqDecision SessionConsolidationJob.
Proof. solve_decision. Defined.

Definition handed_jobs (h : QueueHistory) : list SessionConsolidationJob := omap claims_job h.

Lemma elem_handed_jobs h job : job ∈ handed_jobs h ↔ handed h job.
Proof. unfold handed_jobs, handed. rewrite list_elem_of_omap. naive_solver. Qed.

Definition fair_turn (h : QueueHistory) (t : QueueTurn) : bool :=
  match settling (qt_cmd t) with Some job => bool_decide (job ∈ handed_jobs h) | None => true end
  && forallb (λ job, negb (job_claim job =? qt_claim t)%N) (handed_jobs h)
  && (Z.of_nat (length (observations (qt_db t))) <=? i64_max)%Z.

Fixpoint fair_run (order : OrderBy JobRow) (h : QueueHistory) (jobs : list JobRow)
    (turns : list QueueTurn) : option (QueueHistory * list JobRow) :=
  match turns with
  | [] => Some (h, jobs)
  | t :: turns' =>
      if fair_turn h t
      then let '(reply, jobs') := queue_step order jobs t in
           fair_run order (h ++ [(t, reply)]) jobs' turns'
      else None
  end.

Lemma fair_run_history order turns h jobs h' jobs' :
  queue_history order h jobs → fair_run order h jobs turns = Some (h', jobs') →
  queue_history order h' jobs'.
Proof.
  revert h jobs. induction turns as [|t turns IH]; intros h jobs Hh; cbn; [by intros [= <- <-]|].
  destruct (fair_turn h t) eqn:Ef; [|done]. destruct (queue_step order jobs t) as [reply jobs1] eqn:Es.
  apply IH. unfold fair_turn in Ef. rewrite !andb_true_iff in Ef. destruct Ef as [[Hset Hfr] Hlen].
  econstructor; [exact Hh| | |by apply Z.leb_le|exact Es].
  - intros job Hs. rewrite Hs in Hset. by apply bool_decide_eq_true, elem_handed_jobs in Hset.
  - intros job Hj%elem_handed_jobs. rewrite forallb_forall in Hfr. apply list_elem_of_In in Hj.
    specialize (Hfr job Hj). by apply negb_true_iff, N.eqb_neq in Hfr.
Qed.

(** ** A concrete session

    Session 7 ends after one observation; its first consolidation meets a rate
    limit, the second succeeds. *)
Definition queue_order : OrderBy JobRow := λ lt rows, sort_by_key id lt rows.

(** A captured prompt. *)
Definition demo_prompt (id : ObservationId) (session : SessionId) (at_ : Z) : ObservationRow :=
  mkObservationRow id session 1%N 2%N "user-prompt" None None (lit "prompt") (lit "text") 8 at_ None.

Definition queue_db (ended : option Z) (observed : nat) : HandoffDb :=
  mkHandoffDb [mkSessionRow 7%N 1%N 2%N "codex" None 0 None ended None 0]
    ((λ i, demo_prompt (N.of_nat i) 7%N 50) <$> seq 0 observed) [] [].

Definition queue_turn (cmd : QueueCmd) (now : Z) (claim : ClaimId) : QueueTurn :=
  mkQueueTurn cmd (queue_db (Some 90%Z) 1) now claim no_faults.

Definition queue_job (attempts : Z) (claim : ClaimId) (spent : bool) : SessionConsolidationJob :=
  mkJob 7%N 1%N 2%N 1 attempts claim spent.

Definition queue_turns : list QueueTurn :=
  [queue_turn (CmdEnqueue 1%N 2%N 7%N) 100 0%N;
   queue_turn (CmdClaim 1000 0) 1000 11%N;
   queue_turn (CmdFail (queue_job 1 11%N true) (lit "429") (Some 2000%Z)) 1500 0%N;
   queue_turn (CmdClaim 2000 1000) 2000 12%N;
   queue_turn (CmdComplete (queue_job 2 12%N true)) 2500 0%N].

Definition queue_replies : list QueueReply :=
  [RepEnqueued true; RepClaimedJob (Some (queue_job 1 11%N true)); RepSettled;
   RepClaimedJob (Some (queue_job 2 12%N true)); RepSettled].

Definition queue_demo (n : nat) : QueueHistory := take n (zip queue_turns queue_replies).
Definition queue_rows (n : nat) : list JobRow := snd (queue_run queue_order [] (take n queue_turns)).

Lemma queue_demo_history n : n ∈ [3; 5] → queue_history queue_order (queue_demo n) (queue_rows n).
Proof.
  intros Hn. apply (fair_run_history queue_order (take n queue_turns) [] []); [constructor|].
  revert Hn. rewrite !elem_of_cons. intros [->|[->|[]%elem_of_nil]]; by vm_compute.
Qed.

Lemma lease_is_exclusive_witness :
  ∃ before e0 mid, queue_demo 4 = before ++ e0 :: mid
    ∧ claims_job e0 = Some (queue_job 2 12%N true) ∧ quiet (7%N, 1%Z) mid.
Proof.
  apply (lease_is_exclusive queue_order (queue_demo 5) (queue_rows 5)
           (queue_demo_history 5 ltac:(by repeat constructor)) (queue_demo 4)
           (queue_turn (CmdComplete (queue_job 2 12%N true)) 2500 0%N, RepSettled) []
           (queue_job 2 12%N true)); by vm_compute.
Defined.

Lemma attempts_bounded_witness :
  failures (7%N, 1%Z) (queue_demo 5) = 1
  ∧ (Z.of_nat (failures (7%N, 1%Z) (queue_demo 5)) ≤ SESSION_CONSOLIDATION_MAX_ATTEMPTS)%Z.
Proof.
  split; [by vm_compute|].
  apply (attempts_bounded queue_order (queue_demo 5) (queue_rows 5)
           (queue_demo_history 5 ltac:(by repeat constructor))).
Defined.

Lemma queued_generation_accounted_witness :
  ∃ j, j ∈ queue_rows 5 ∧ job_key j = (7%N, 1%Z) ∧ accounted (drop 1 (queue_demo 5)) j.
Proof.
  destruct (queued_generation_accounted queue_order (queue_demo 5) (queue_rows 5)
              (queue_demo_history 5 ltac:(by repeat constructor)) []
              (queue_turn (CmdEnqueue 1%N 2%N 7%N) 100 0%N) (drop 1 (queue_demo 5))
              1%N 2%N 7%N EndedSession) as (j & Hj & Hk & _ & _ & Ha); [by vm_compute|by vm_compute|].
  exists j. split; [done|]. split; [by vm_compute in Hk |- *|done].
Defined.

(** The retry of the third turn, worked off an hour later. *)
Definition queue_poll : Z := (3600 * 1000000)%Z.
Definition queue_claims : QueueTurn := queue_turn (worker_claims queue_poll) queue_poll 12%N.
Definition queue_settles : QueueTurn := queue_turn (CmdReconcile 0%N) (queue_poll + 1) 0%N.
Definition queue_answer : SessionConsolidationJob → Consolidation := λ _, Consolidated.
Definition queue_drained : list JobRow :=
  snd (worker_round queue_order (queue_rows 3) queue_claims queue_settles [] queue_answer).

Lemma queue_rounds n :
  worker_rounds queue_order (replicate (S n) queue_answer) (queue_rows 3) queue_drained.
Proof.
  assert (Hidle : ∀ m, worker_rounds queue_order (replicate m queue_answer) queue_drained queue_drained).
  { induction m as [|m IH]; [constructor|]. cbn [replicate].
    eapply (rounds_next _ _ _ _ queue_claims queue_settles queue_poll); [done..| | |exact IH].
    - intros j Hj. vm_compute in Hj. apply list_elem_of_singleton in Hj as ->. by vm_compute.
    - by vm_compute. }
  cbn [replicate].
  eapply (rounds_next _ _ _ _ queue_claims queue_settles queue_poll); [done..| | |apply Hidle].
  - intros j Hj. vm_compute in Hj. apply list_elem_of_singleton in Hj as ->. by vm_compute.
  - by vm_compute.
Qed.


(** ** Two things the queue does not promise *)

(** The fifth attempt outlives its server, the next server takes it over and
    is shut down gracefully: the released job waits and is never due again. *)
Definition stranding_turns : list QueueTurn :=
  queue_turn (CmdEnqueue 1%N 2%N 7%N) 100 0%N ::
  concat ((λ i : Z, [queue_turn (CmdClaim (1000 * i) 0) (1000 * i) (Z.to_N i);
                     queue_turn (CmdFail (queue_job i (Z.to_N i) true) (lit "429") (Some 0%Z))
                       (1000 * i) 0%N]) <$> [1; 2; 3; 4]%Z) ++
  [queue_turn (CmdClaim 5000 0) 5000 5%N;
   queue_turn (CmdClaim 9000 8000) 9000 6%N;
   queue_turn (CmdRelease (queue_job 5 6%N false)) 9500 0%N].

Lemma release_strands_job :
  ∃ h j, fair_run queue_order [] [] stranding_turns = Some (h, [j])
    ∧ j_state j = "pending" ∧ stranded j = true
    ∧ ∀ now stale_before, due now stale_before j = false.
Proof.
  eexists _, _. split; [by vm_compute|]. split; [by vm_compute|]. split; [by vm_compute|].
  intros now stale. by vm_compute.
Qed.

(** A checkpoint of an open session waits; after one more observation an
    enqueue that creates nothing, the session being open, supersedes it. *)
Lemma superseded_without_successor :
  let t1 := mkQueueTurn (CmdEnqueueCheckpoint 1%N 2%N 7%N) (queue_db None 1) 100 0%N no_faults in
  let t2 := mkQueueTurn (CmdEnqueue 1%N 2%N 7%N) (queue_db None 2) 200 0%N no_faults in
  let '(replies, jobs) := queue_run queue_order [] [t1; t2] in
  replies = [RepEnqueued true; RepEnqueued false] ∧ j_state <$> jobs = ["superseded"].
Proof. by vm_compute. Qed.
