(* ===== verification/IdleEnd.v ===== *)
(** * Ending idle sessions

    Models [idle_end_sessions] of [crates/ai-memory-store/src/ops.rs] and the
    tick [run_idle_end_tick] of [crates/ai-memory-hooks/src/idle_end.rs]: the
    server ends sessions whose harness never delivered its end, as a real end
    would have.  The tables are those of [Handoffs] with the job queue of
    [SessionQueue] and, of the wiki, the latest version of each session's
    summary page.  Between the steps of a tick other requests change
    everything; what they do, the clock, fresh ids, the page the agent may
    have written, failures and the text of an audit row are arguments. *)

From S2P Require Export SessionQueue.
Open Scope nat_scope.
Open Scope rust_scope.

(** The latest version of [sessions/<id>.md] in a project. *)
Definition PageKey : Type := WorkspaceId * ProjectId * SessionId.

Record ServerDb := mkServerDb {
  sv_db : HandoffDb;
  sv_jobs : list JobRow;
  sv_pages : gmap PageKey PageId;
}.

(** ** The batch, in the store *)

Inductive IdleEndAction :=
  | SubstantiveEnd (expected_page : PageId) (observation_count now_us last_activity_us : Z)
  | LifecycleOnlyEnd (now_us last_activity_us : Z).

Record IdleEndCandidate := mkIdleEndCandidate {
  ic_session : SessionId;
  ic_workspace : WorkspaceId;
  ic_project : ProjectId;
  ic_agent : AgentKind;
  ic_action : IdleEndAction;
}.

Inductive IdleEndResult := EndedSubstantive | EndedLifecycleOnly | Lost.

Section IdleEnd.
Context (order : OrderBy HandoffRow).
(** The JSON of the audit row: session, whether substantive, last activity. *)
Context (detail : SessionId → bool → Z → string).

(** The scope and open guards of both ends. *)
Definition still_open (c : IdleEndCandidate) (s : SessionRow) : bool :=
  bool_decide (s_id s = ic_session c) && bool_decide (s_workspace s = ic_workspace c)
  && bool_decide (s_project s = ic_project c) && bool_decide (s_ended_at s = None).

Definition page_key (c : IdleEndCandidate) : PageKey :=
  (ic_workspace c, ic_project c, ic_session c).

Definition end_substantive (f : faults) (db : ServerDb) (c : IdleEndCandidate)
    (expected_page : PageId) (count now_us last_activity_us : Z) (enqueue_consolidation : bool)
    (clock : Z) : result (option ServerDb) OpsError :=
  let d := sv_db db in
  let hit s := still_open c s && (observation_count d (ic_session c) =? count)%Z
               && bool_decide (sv_pages db !! page_key c = Some expected_page) in
  let? _u := statement f OsBegin tt in
  let? rows := statement f OsEndSession
    (update_where hit (end_row d (ic_session c) (Some expected_page) now_us) (sessions d)) in
  if count_where hit (sessions d) =? 0 then Ok None
  else
    let d := with_sessions d rows in
    let? log := audit_with_detail f OsAudit "idle_session_end" (ic_workspace c) (ic_project c)
                  (Some expected_page) None now_us (detail (ic_session c) true last_activity_us)
                  (handoff_log d) in
    let d := with_handoffs d (handoffs d) log in
    let? jobs := if enqueue_consolidation
                 then let? res := enqueue_in_tx f d (sv_jobs db) (ic_workspace c) (ic_project c)
                                    (ic_session c) clock in
                      Ok (snd res)
                 else Ok (sv_jobs db) in
    let? _u := statement f OsCommit tt in
    Ok (Some (mkServerDb d jobs (sv_pages db))).

Definition end_lifecycle_only (f : faults) (db : ServerDb) (c : IdleEndCandidate)
    (now_us last_activity_us clock : Z) : result (option ServerDb) OpsError :=
  let d := sv_db db in
  let? _u := statement f OsBegin tt in
  let? open := statement f OsCount (count_where (still_open c) (sessions d)) in
  if open =? 0 then Ok None
  else
    let? res := end_lifecycle_only_session_in_tx order f d (ic_session c) now_us clock in
    let '(outcome, d) := res in
    match outcome with
    | Ended _ =>
        let? log := audit_with_detail f OsSweepAudit "idle_session_end" (ic_workspace c)
                      (ic_project c) None None now_us
                      (detail (ic_session c) false last_activity_us) (handoff_log d) in
        let? _u := statement f OsCommit tt in
        Ok (Some (mkServerDb (with_handoffs d (handoffs d) log) (sv_jobs db) (sv_pages db)))
    | Substantive => Ok None
    end.

(** One candidate: [None] stands for a transaction dropped, which is [Lost]. *)
Definition end_candidate (f : faults) (db : ServerDb) (c : IdleEndCandidate)
    (enqueue_consolidation : bool) (clock : Z) : result (IdleEndResult * ServerDb) OpsError :=
  match ic_action c with
  | SubstantiveEnd page count now_us last =>
      let? res := end_substantive f db c page count now_us last enqueue_consolidation clock in
      Ok match res with Some db' => (EndedSubstantive, db') | None => (Lost, db) end
  | LifecycleOnlyEnd now_us last =>
      let? res := end_lifecycle_only f db c now_us last clock in
      Ok match res with Some db' => (EndedLifecycleOnly, db') | None => (Lost, db) end
  end.

(** The candidates one after the other; an error ends the batch, and the
    candidates before it stay ended. *)
Fixpoint idle_end_candidates (fs : SessionId → faults) (active : list SessionId) (db : ServerDb)
    (candidates : list IdleEndCandidate) (enqueue_consolidation : bool) (clock : Z)
    : result (list IdleEndResult) OpsError * ServerDb :=
  match candidates with
  | [] => (Ok [], db)
  | c :: rest =>
      let step := if existsb (λ s, bool_decide (s = ic_session c)) active then Ok (Lost, db)
                  else end_candidate (fs (ic_session c)) db c enqueue_consolidation clock in
      match step with
      | Err e => (Err e, db)
      | Ok (r, db') =>
          let '(rs, final) := idle_end_candidates fs active db' rest enqueue_consolidation clock in
          (let? rs := rs in Ok (r :: rs), final)
      end
  end.

(** [active]: the sessions of active managed runs, or why they could not be read. *)
Definition idle_end_sessions (fs : SessionId → faults) (active : result (list SessionId) OpsError)
    (db : ServerDb) (candidates : list IdleEndCandidate) (enqueue_consolidation : bool) (clock : Z)
    : result (list IdleEndResult) OpsError * ServerDb :=
  match active with
  | Err e => (Err e, db)
  | Ok active => idle_end_candidates fs active db candidates enqueue_consolidation clock
  end.
End IdleEnd.

(** ** The tick *)

Definition IDLE_END_BATCH : nat := 25.

Record IdleOpenSession := mkIdleOpenSession {
  io_session : SessionId;
  io_workspace : WorkspaceId;
  io_project : ProjectId;
  io_agent : AgentKind;
  io_actor_user : option bytes;
  io_last_activity_us : Z;
  io_seen_page : option PageId;
}.

Record IdleEndTickOutcome := mkTickOutcome {
  to_ended : nat;
  to_lifecycle_only : nat;
  to_skipped : nat;
  to_pages_written : nat;
}.

Inductive PageDecision :=
  | PageWritten (page : PageId)
  | KeptAgentPage (page : PageId)
  | PageSuperseded.

(** The reads and writes of one session, between which other requests run. *)
Inductive TickPoint := TickSubstantive | TickAgentCheck | TickPageRead | TickCountRead | TickDigest | TickWrite.

(** What a tick meets: the other requests before each of its steps, the reads
    that fail, whether the agent wrote the session's page, and the id the page
    it writes gets (or why the wiki refuses it). *)
Record TickEnv := mkTickEnv {
  te_others : SessionId → TickPoint → ServerDb → ServerDb;
  te_fails : SessionId → TickPoint → option string;
  te_by_agent : SessionId → bool;
  te_page : SessionId → result PageId string;
  te_before_batch : ServerDb → ServerDb;
}.

Section Tick.
Context (order : OrderBy HandoffRow) (detail : SessionId → bool → Z → string).
Context (env : TickEnv).

(** A read at a point of the tick: other requests first, then it fails or sees
    the tables as they are. *)
Definition tick_read {A} (s : IdleOpenSession) (at_ : TickPoint) (db : ServerDb)
    (read : ServerDb → A) : result A string * ServerDb :=
  let db := te_others env (io_session s) at_ db in
  (match te_fails env (io_session s) at_ with Some e => Err e | None => Ok (read db) end, db).

Definition in_session_scope (s : IdleOpenSession) (db : ServerDb) : bool :=
  existsb (λ r, bool_decide (s_id r = io_session s) && bool_decide (s_workspace r = io_workspace s)
                && bool_decide (s_project r = io_project s)) (sessions (sv_db db)).

Definition session_has_substantive_observation (s : IdleOpenSession) (db : ServerDb) : bool :=
  in_session_scope s db
  && existsb (λ o, bool_decide (o_session o = io_session s) && o_substantive o)
       (observations (sv_db db)).

Definition session_observation_count (s : IdleOpenSession) (db : ServerDb) : Z :=
  if in_session_scope s db then observation_count (sv_db db) (io_session s) else 0.

Definition session_page (s : IdleOpenSession) : PageKey :=
  (io_workspace s, io_project s, io_session s).

(** [SessionDigest::load_with_count]: the count of the digest's snapshot. *)
Definition load_with_count (s : IdleOpenSession) (db : ServerDb) : result Z string :=
  if in_session_scope s db then Ok (Z.min (observation_count (sv_db db) (io_session s)) i64_max)
  else Err "session collision".

(** [stored_session_identity]. *)
Definition stored_session_identity (owner : option bytes) : result (option IdentityKey) string :=
  match owner with
  | None => Ok None
  | Some key =>
      match from_storage_key key with
      | Some k => Ok (Some k)
      | None => Err "malformed stored session owner identity"
      end
  end.

(** [write_page_if] with the precondition on the version seen at selection. *)
Definition write_page_if (s : IdleOpenSession) (db : ServerDb)
    : result (option PageId) string * ServerDb :=
  match te_page env (io_session s) with
  | Err e => (Err e, db)
  | Ok page =>
      if bool_decide (sv_pages db !! session_page s = io_seen_page s)
      then (Ok (Some page),
            mkServerDb (sv_db db) (sv_jobs db) (<[session_page s := page]> (sv_pages db)))
      else (Ok None, db)
  end.

Definition write_summary (s : IdleOpenSession) (db : ServerDb)
    : result (PageDecision * Z) string * ServerDb :=
  let '(digest, db) := tick_read s TickDigest db (load_with_count s) in
  match (let? n := digest in n) with
  | Err e => (Err e, db)
  | Ok count =>
      match stored_session_identity (io_actor_user s) with
      | Err e => (Err e, db)
      | Ok _ =>
          let db := te_others env (io_session s) TickWrite db in
          let '(written, db) := write_page_if s db in
          (let? written := written in
           Ok (match written with Some page => PageWritten page | None => PageSuperseded end, count),
           db)
      end
  end.

Definition summary_page_decision (s : IdleOpenSession) (db : ServerDb)
    : result (PageDecision * Z) string * ServerDb :=
  let '(by_agent, db) := tick_read s TickAgentCheck db (λ _, te_by_agent env (io_session s)) in
  match by_agent with
  | Err e => (Err e, db)
  | Ok false => write_summary s db
  | Ok true =>
      let '(current, db) := tick_read s TickPageRead db (λ db, sv_pages db !! session_page s) in
      match current with
      | Err e => (Err e, db)
      | Ok None => write_summary s db
      | Ok (Some page) =>
          let '(count, db) := tick_read s TickCountRead db (session_observation_count s) in
          (let? count := count in Ok (KeptAgentPage page, count), db)
      end
  end.

Definition candidate_of (s : IdleOpenSession) (action : IdleEndAction) : IdleEndCandidate :=
  mkIdleEndCandidate (io_session s) (io_workspace s) (io_project s) (io_agent s) action.

Definition skip (o : IdleEndTickOutcome) : IdleEndTickOutcome :=
  mkTickOutcome (to_ended o) (to_lifecycle_only o) (S (to_skipped o)) (to_pages_written o).
Definition wrote (o : IdleEndTickOutcome) : IdleEndTickOutcome :=
  mkTickOutcome (to_ended o) (to_lifecycle_only o) (to_skipped o) (S (to_pages_written o)).

(** The classification loop. *)
Fixpoint tick_candidates (now_us : Z) (db : ServerDb) (o : IdleEndTickOutcome)
    (eligible : list IdleOpenSession)
    : result (list IdleEndCandidate * IdleEndTickOutcome) string * ServerDb :=
  match eligible with
  | [] => (Ok ([], o), db)
  | s :: rest =>
      let add c (r : result (list IdleEndCandidate * IdleEndTickOutcome) string * ServerDb) :=
        (let? res := fst r in Ok (c :: fst res, snd res), snd r) in
      let '(substantive, db) :=
        tick_read s TickSubstantive db (session_has_substantive_observation s) in
      match substantive with
      | Err e => (Err e, db)
      | Ok false =>
          add (candidate_of s (LifecycleOnlyEnd now_us (io_last_activity_us s)))
            (tick_candidates now_us db o rest)
      | Ok true =>
          let '(decision, db) := summary_page_decision s db in
          match decision with
          | Ok (PageWritten page, count) =>
              add (candidate_of s (SubstantiveEnd page count now_us (io_last_activity_us s)))
                (tick_candidates now_us db (wrote o) rest)
          | Ok (KeptAgentPage page, count) =>
              add (candidate_of s (SubstantiveEnd page count now_us (io_last_activity_us s)))
                (tick_candidates now_us db o rest)
          | Ok (PageSuperseded, _) | Err _ => tick_candidates now_us db (skip o) rest
          end
      end
  end.

(** The sessions no active run owns, counting the others as skipped.  [take]
    stops pulling at the batch bound: what lies behind is not even filtered. *)
Fixpoint eligible_sessions (room : nat) (active : list SessionId) (o : IdleEndTickOutcome)
    (l : list IdleOpenSession) : list IdleOpenSession * IdleEndTickOutcome :=
  match room, l with
  | 0, _ | _, [] => ([], o)
  | S room', s :: rest =>
      if existsb (λ a, bool_decide (a = io_session s)) active
      then eligible_sessions room active (skip o) rest
      else let '(l', o') := eligible_sessions room' active o rest in (s :: l', o')
  end.

Definition count_result (o : IdleEndTickOutcome) (r : IdleEndResult) : IdleEndTickOutcome :=
  match r with
  | EndedSubstantive =>
      mkTickOutcome (S (to_ended o)) (to_lifecycle_only o) (to_skipped o) (to_pages_written o)
  | EndedLifecycleOnly =>
      mkTickOutcome (to_ended o) (S (to_lifecycle_only o)) (to_skipped o) (to_pages_written o)
  | Lost => skip o
  end.

Definition run_idle_end_tick (fs : SessionId → faults) (active_read : result (list SessionId) string)
    (active_stamp : result (list SessionId) OpsError) (idle : list IdleOpenSession) (now_us clock : Z)
    (consolidate_on_session_end has_consolidator : bool) (db : ServerDb)
    : result IdleEndTickOutcome string * ServerDb :=
  let o := mkTickOutcome 0 0 0 0 in
  match idle with
  | [] => (Ok o, db)
  | _ =>
      match active_read with
      | Err e => (Err e, db)
      | Ok active =>
          let enqueue_consolidation := consolidate_on_session_end && has_consolidator in
          let '(eligible, o) := eligible_sessions IDLE_END_BATCH active o idle in
          let '(res, db) := tick_candidates now_us db o eligible in
          match res with
          | Err e => (Err e, db)
          | Ok ([], o) => (Ok o, db)
          | Ok (candidates, o) =>
              let db := te_before_batch env db in
              match idle_end_sessions order detail fs active_stamp db candidates
                      enqueue_consolidation clock with
              | (Err _, db) => (Err "end_idle_sessions failed", db)
              | (Ok results, db) => (Ok (foldl count_result o results), db)
              end
          end
      end
  end.
End Tick.
