(* ===== verification/IdleEndFacts.v ===== *)
(** * What ending idle sessions guarantees

    The batch ends a session only if it is open, belongs to no active run and
    is still what the tick judged: the summary page is the latest and was
    decided over exactly the observations there are.  Whatever other requests
    do while the tick reads and writes, it never overwrites a page it did not
    see at selection. *)

From S2P Require Export IdleEnd HandoffsFacts.
From S2P Require Import SessionQueueFacts.
Open Scope nat_scope.
Open Scope rust_scope.

(** ** One candidate *)

(** What the session had when it was ended, and what its row became. *)
Inductive stamped (db : ServerDb) (c : IdleEndCandidate) (s : SessionRow) : SessionRow → Prop :=
  | stamped_substantive page count now_us last :
      ic_action c = SubstantiveEnd page count now_us last → still_open c s = true →
      observation_count (sv_db db) (ic_session c) = count → sv_pages db !! page_key c = Some page →
      stamped db c s (end_row (sv_db db) (ic_session c) (Some page) now_us s)
  | stamped_lifecycle now_us last :
      ic_action c = LifecycleOnlyEnd now_us last → still_open c s = true →
      existsb (λ o, bool_decide (o_session o = ic_session c) && o_substantive o)
        (observations (sv_db db)) = false →
      stamped db c s (end_row (sv_db db) (ic_session c) None now_us s).

Definition unowned (active : list SessionId) (c : IdleEndCandidate) : Prop := ic_session c ∉ active.

(** A row a batch ended: with its summary page comes its job. *)
Definition ended_by (enqueue : bool) (active : list SessionId) (db db' : ServerDb)
    (c : IdleEndCandidate) (s s' : SessionRow) : Prop :=
  unowned active c ∧ stamped db c s s'
  ∧ (enqueue = true → is_Some (s_summary_page s') →
     (0 < observation_count (sv_db db) (ic_session c))%Z →
     (ic_session c, observation_count (sv_db db) (ic_session c)) ∈ job_key <$> sv_jobs db').

(** What a batch, or one candidate of it, does to the tables. *)
Record batch_effect (enqueue : bool) (active : list SessionId) (db : ServerDb)
    (cands : list IdleEndCandidate) (db' : ServerDb) : Prop := {
  be_observations : observations (sv_db db') = observations (sv_db db);
  be_pages : sv_pages db' = sv_pages db;
  be_sessions : Forall2 (λ s s', s' = s ∨ ∃ c, c ∈ cands ∧ ended_by enqueue active db db' c s s')
                  (sessions (sv_db db)) (sessions (sv_db db'));
  be_handoffs : handoffs_ok (sv_db db) → handoffs_ok (sv_db db');
  be_jobs k : k ∈ job_key <$> sv_jobs db → k ∈ job_key <$> sv_jobs db';
}.

Lemma still_open_true c s :
  still_open c s = true ↔
  s_id s = ic_session c ∧ s_workspace s = ic_workspace c ∧ s_project s = ic_project c
  ∧ s_ended_at s = None.
Proof. unfold still_open. rewrite !andb_true_iff, !bool_decide_eq_true. tauto. Qed.

Lemma handoffs_ok_ext d d' : handoffs d' = handoffs d → handoffs_ok d → handoffs_ok d'.
Proof. intros E [? ? ?]. by split; rewrite E. Qed.

(** Inserting puts the key there, new or not. *)
Lemma insert_present jobs rows r :
  r ∈ rows → job_key r ∈ job_key <$> foldl insert_or_ignore jobs rows.
Proof.
  assert (Hmono : ∀ l jobs k, k ∈ job_key <$> jobs → k ∈ job_key <$> foldl insert_or_ignore jobs l).
  { clear. induction l as [|x l IH]; [done|]. intros jobs k Hk. cbn. apply IH.
    unfold insert_or_ignore. destruct (existsb _ _); [done|]. rewrite fmap_app. apply elem_of_app. by left. }
  revert jobs. induction rows as [|x rows IH]; intros jobs Hr; [by apply elem_of_nil in Hr|].
  cbn. apply elem_of_cons in Hr as [->|Hr]; [|by apply IH]. apply Hmono. unfold insert_or_ignore.
  destruct (existsb _ jobs) eqn:E; [|rewrite fmap_app; apply elem_of_app; right; left].
  apply existsb_elem in E as (j & Hj & Hk%bool_decide_eq_true). rewrite <- Hk. by apply list_elem_of_fmap_2.
Qed.

Lemma enqueue_in_tx_Ok f d jobs ws pj session now b jobs' :
  enqueue_in_tx f d jobs ws pj session now = Ok (b, jobs') →
  (∀ k, k ∈ job_key <$> jobs → k ∈ job_key <$> jobs')
  ∧ ((∃ s, s ∈ sessions d ∧ eligible d ws pj session EndedSession s = true) →
     (session, observation_count d session) ∈ job_key <$> jobs').
Proof.
  unfold enqueue_in_tx, enqueue_eligible_in_tx. intros H. open_transaction.
  rewrite fmap_update_where by done. split.
  - intros k. destruct (fold_insert jobs (new_job d now <$> List.filter (eligible d ws pj session EndedSession) (sessions d))
      (session, observation_count d session)) as [->|(_ & r & _ & ->)]; [|done|].
    + intros r (s & -> & [_ He]%elem_filter)%list_elem_of_fmap. unfold eligible in He.
      rewrite !andb_true_iff, !bool_decide_eq_true in He. destruct He as [[[[<- _] _] _] _]. done.
    + rewrite fmap_app, elem_of_app. by left.
  - intros (s & Hs & He). pose proof He as He'. unfold eligible in He'.
    rewrite !andb_true_iff, !bool_decide_eq_true in He'. destruct He' as [[[[<- _] _] _] _].
    apply (insert_present jobs _ (new_job d now s)), list_elem_of_fmap_2, elem_filter. done.
Qed.

Section Facts.
Context (order : OrderBy HandoffRow) `{!OrdersRows order}.
Context (detail : SessionId → bool → Z → string).

Lemma stamped_update enqueue active db db' c g :
  (∀ s, still_open c s = true → ended_by enqueue active db db' c s (g s)) →
  ∀ rows, Forall2 (λ s s', s' = s ∨ ∃ c', c' ∈ [c] ∧ ended_by enqueue active db db' c' s s')
            rows (update_where (still_open c) g rows).
Proof.
  intros Hg rows. apply update_moves. intros s _. destruct (still_open c s) eqn:E; [right|by left].
  exists c. split; [left|]. auto.
Qed.

(** Ending a session of a substantive candidate: nothing unless the guards
    hold, and then the row, its audit row and its job together. *)
Lemma end_substantive_Ok f db c page count now_us last enqueue clock res :
  end_substantive detail f db c page count now_us last enqueue clock = Ok res →
  match res with
  | None => True
  | Some db' =>
      observation_count (sv_db db) (ic_session c) = count ∧ sv_pages db !! page_key c = Some page
      ∧ (∃ s, s ∈ sessions (sv_db db) ∧ still_open c s = true)
      ∧ sessions (sv_db db') = update_where (still_open c)
          (end_row (sv_db db) (ic_session c) (Some page) now_us) (sessions (sv_db db))
      ∧ handoffs (sv_db db') = handoffs (sv_db db)
      ∧ observations (sv_db db') = observations (sv_db db) ∧ sv_pages db' = sv_pages db
      ∧ (∀ k, k ∈ job_key <$> sv_jobs db → k ∈ job_key <$> sv_jobs db')
      ∧ (enqueue = true → (0 < count)%Z → (ic_session c, count) ∈ job_key <$> sv_jobs db')
  end.
Proof.
  unfold end_substantive. intros H. open_transaction.
  set (hit := λ s, still_open c s && _ && _) in *.
  destruct (Nat.eqb_spec (count_where hit (sessions (sv_db db))) 0) as [_|Hne]; [by open_transaction|].
  apply count_where_pos in Hne as (s & Hs & Hhit). unfold hit in Hhit.
  rewrite !andb_true_iff, Z.eqb_eq, bool_decide_eq_true in Hhit. destruct Hhit as [[Ho Hcount] Hpage].
  assert (Hhits : update_where hit (end_row (sv_db db) (ic_session c) (Some page) now_us) (sessions (sv_db db))
                  = update_where (still_open c) (end_row (sv_db db) (ic_session c) (Some page) now_us) (sessions (sv_db db))).
  { unfold update_where. apply list_fmap_ext. intros i x _. unfold hit.
    by rewrite (proj2 (Z.eqb_eq _ _) Hcount), bool_decide_eq_true_2, !andb_true_r. }
  rewrite Hhits in H.
  set (rows := update_where (still_open c) _ _) in H.
  assert (Hended : (0 < count)%Z → ∀ log, ∃ s', s' ∈ rows
      ∧ eligible (with_handoffs (with_sessions (sv_db db) rows) (handoffs (sv_db db)) log)
          (ic_workspace c) (ic_project c) (ic_session c) EndedSession s' = true).
  { intros Hpos log. exists (end_row (sv_db db) (ic_session c) (Some page) now_us s). split.
    - apply elem_update_where. exists s. by rewrite Ho.
    - apply still_open_true in Ho as (Hid & Hw & Hp & _). unfold eligible. cbn.
      rewrite Hid, Hw, Hp, !bool_decide_eq_true_2 by done.
      apply Z.ltb_lt. by rewrite <- Hcount in Hpos. }
  open_transaction. destruct enqueue; open_transaction; cbn [sv_db sv_jobs sv_pages with_handoffs
    with_sessions sessions handoffs observations].
  - match goal with H : enqueue_in_tx _ _ _ _ _ _ _ = Ok ?r |- _ =>
      destruct r as [b jobs]; apply enqueue_in_tx_Ok in H as [Hk Hin] end.
    do 7 (split; [by eauto|]). split; [exact Hk|]. intros _ Hpos.
    destruct (Hended Hpos (handoff_log (with_sessions (sv_db db) rows) ++ [mkOpsAudit now_us "idle_session_end"
      (ic_workspace c) (ic_project c) (Some page) None (detail (ic_session c) true last)])) as (s' & Hs' & He).
    apply Hin. eauto.
  - do 7 (split; [by eauto|]). done.
Qed.

(** Ending a session of a lifecycle-only candidate. *)
Lemma end_lifecycle_only_Ok f db c now_us last clock res :
  NoDup (s_id <$> sessions (sv_db db)) →
  end_lifecycle_only order detail f db c now_us last clock = Ok res →
  match res with
  | None => True
  | Some db' =>
      existsb (λ o, bool_decide (o_session o = ic_session c) && o_substantive o)
        (observations (sv_db db)) = false
      ∧ (∃ s, s ∈ sessions (sv_db db) ∧ still_open c s = true)
      ∧ sessions (sv_db db') = update_where (still_open c)
          (end_row (sv_db db) (ic_session c) None now_us) (sessions (sv_db db))
      ∧ observations (sv_db db') = observations (sv_db db) ∧ sv_pages db' = sv_pages db
      ∧ sv_jobs db' = sv_jobs db ∧ (handoffs_ok (sv_db db) → handoffs_ok (sv_db db'))
  end.
Proof.
  intros Hn. unfold end_lifecycle_only. intros H. open_transaction.
  destruct (Nat.eqb_spec (count_where (still_open c) (sessions (sv_db db))) 0) as [_|Hne]; [by open_transaction|].
  apply count_where_pos in Hne as (s & Hs & Ho). open_transaction.
  match goal with H : end_lifecycle_only_session_in_tx _ _ _ _ _ _ = Ok ?r |- _ =>
    destruct r as [[|held] d']; rename H into Hend end; open_transaction; [done|].
  pose proof (end_lifecycle_in_tx_Ok order _ _ _ _ _ _ _ Hend) as (Hex & Hses & Hobs & _).
  cbn [sv_db sv_jobs sv_pages with_handoffs sessions observations].
  split; [done|]. split; [by exists s|]. split; [|split; [done|split; [done|split; [done|]]]].
  - rewrite Hses. unfold update_where. apply list_fmap_ext. intros i x Hx%list_elem_of_lookup_2.
    destruct (bool_decide (s_id x = ic_session c)) eqn:E.
    + apply bool_decide_eq_true in E. pose proof (proj1 (still_open_true c s) Ho) as (Hid & _).
      assert (x = s) as -> by (eapply (key_unique s_id (sessions (sv_db db))); [done..|congruence]).
      by rewrite Ho.
    + destruct (still_open c x) eqn:Eo; [|done]. apply still_open_true in Eo as (Hid & _).
      by rewrite bool_decide_eq_true_2 in E.
  - intros Hok. apply (handoffs_ok_ext d'); [done|].
    set (f' := λ st, match st with OsBegin | OsCommit => None | st => f st end).
    assert (Hend' : end_lifecycle_only_session_in_tx order f' (sv_db db) (ic_session c) now_us clock
                    = Ok (Ended held, d')) by exact Hend.
    apply (step_ok (λ _, []) order (sv_db db)
             (mkHandoffTurn (CmdEndLifecycleOnly (ic_session c)) 0%N now_us clock f')
             (RepEnded (Ended held))); [done|].
    unfold step_of, handoff_step. cbn [ht_cmd ht_faults ht_ended ht_now].
    unfold end_lifecycle_only_session. by rewrite Hend'.
Qed.

Lemma batch_effect_refl enqueue active db cands : batch_effect enqueue active db cands db.
Proof. split; try done. apply Forall_Forall2_diag, Forall_forall. intros s _. by left. Qed.

(** A session of the candidate, ended. *)
Definition result_holds (enqueue : bool) (db : ServerDb) (c : IdleEndCandidate) (r : IdleEndResult)
    (db' : ServerDb) : Prop :=
  match r with
  | Lost => True
  | EndedSubstantive =>
      ∃ page count now_us last s', ic_action c = SubstantiveEnd page count now_us last
        ∧ observation_count (sv_db db) (ic_session c) = count
        ∧ sv_pages db !! page_key c = Some page ∧ s' ∈ sessions (sv_db db')
        ∧ s_id s' = ic_session c ∧ s_ended_at s' = Some now_us ∧ s_summary_page s' = Some page
        ∧ Z.of_nat (s_ended_observation_count s') = count
        ∧ (enqueue = true → (0 < count)%Z → (ic_session c, count) ∈ job_key <$> sv_jobs db')
  | EndedLifecycleOnly =>
      ∃ now_us last s', ic_action c = LifecycleOnlyEnd now_us last ∧ s' ∈ sessions (sv_db db')
        ∧ existsb (λ o, bool_decide (o_session o = ic_session c) && o_substantive o)
            (observations (sv_db db)) = false
        ∧ s_id s' = ic_session c ∧ s_ended_at s' = Some now_us ∧ s_summary_page s' = None
  end.

Lemma end_candidate_Ok f db c enqueue clock active r db' :
  NoDup (s_id <$> sessions (sv_db db)) → unowned active c →
  end_candidate order detail f db c enqueue clock = Ok (r, db') →
  batch_effect enqueue active db [c] db' ∧ result_holds enqueue db c r db'.
Proof.
  intros Hn Hu. unfold end_candidate.
  destruct (ic_action c) as [page count now_us last|now_us last] eqn:Hact; intros H; open_transaction.
  - destruct a as [db1|]; simplify_eq; [|split; [apply batch_effect_refl|done]].
    match goal with H : end_substantive _ _ _ _ _ _ _ _ _ _ = Ok _ |- _ =>
      apply end_substantive_Ok in H as (Hcount & Hpage & (s & Hs & Ho) & Hses & Hho & Hobs & Hpg & Hk & Hjob) end.
    split.
    + split; [done|done| | |done].
      * rewrite Hses. apply stamped_update. intros s1 Ho1. split; [done|]. split.
        -- by eapply stamped_substantive.
        -- intros He _ Hpos. rewrite Hcount in *. auto.
      * by apply handoffs_ok_ext.
    + exists page, count, now_us, last, (end_row (sv_db db) (ic_session c) (Some page) now_us s).
      do 3 (split; [done|]). split; [rewrite Hses; apply elem_update_where; exists s; by rewrite Ho|].
      split; [by apply still_open_true in Ho as (? & _)|]. do 2 (split; [done|]). split; [|done].
      cbn. by rewrite <- Hcount.
  - destruct a as [db1|]; simplify_eq; [|split; [apply batch_effect_refl|done]].
    match goal with H : end_lifecycle_only _ _ _ _ _ _ _ _ = Ok _ |- _ =>
      apply end_lifecycle_only_Ok in H as (Hex & (s & Hs & Ho) & Hses & Hobs & Hpg & Hk & Hok); [|done] end.
    split.
    + split; [done|done| |done|by rewrite Hk].
      rewrite Hses. apply stamped_update. intros s1 Ho1. split; [done|]. split; [by eapply stamped_lifecycle|].
      by intros _ [? ?].
    + exists now_us, last, (end_row (sv_db db) (ic_session c) None now_us s).
      split; [done|]. split; [rewrite Hses; apply elem_update_where; exists s; by rewrite Ho|].
      split; [done|]. split; [by apply still_open_true in Ho as (? & _)|done].
Qed.

Lemma stamped_ext db db1 c s s' :
  observations (sv_db db1) = observations (sv_db db) → sv_pages db1 = sv_pages db →
  stamped db1 c s s' → stamped db c s s'.
Proof.
  intros Ho Hp. assert (Hc : ∀ x, observation_count (sv_db db1) x = observation_count (sv_db db) x).
  { intros x. unfold observation_count. by rewrite Ho. }
  assert (He : ∀ x p t r, end_row (sv_db db1) x p t r = end_row (sv_db db) x p t r).
  { intros. unfold end_row. by rewrite Ho. }
  destruct 1; rewrite He; [eapply stamped_substantive|eapply stamped_lifecycle]; try done;
    by rewrite <- ?Hc, <- ?Hp, <- ?Ho.
Qed.

Lemma stamped_ended db c s s' : stamped db c s s' → s_id s' = s_id s ∧ s_ended_at s' ≠ None.
Proof. by destruct 1. Qed.

Lemma stamped_open db c s s' : stamped db c s s' → s_ended_at s = None.
Proof. by destruct 1 as [? ? ? ? _ (_ & _ & _ & ?)%still_open_true|? ? _ (_ & _ & _ & ?)%still_open_true]. Qed.

Lemma effect_ids enqueue active db cands db' :
  batch_effect enqueue active db cands db' → s_id <$> sessions (sv_db db') = s_id <$> sessions (sv_db db).
Proof.
  intros [_ _ H _ _]. induction H as [|s s' l l' Hs _ IH]; [done|]. rewrite !fmap_cons, IH. f_equal.
  destruct Hs as [->|(c & _ & _ & Hst & _)]; [done|]. by apply stamped_ended in Hst as [-> _].
Qed.

Lemma batch_effect_trans enqueue active db cands1 db1 cands2 db2 :
  batch_effect enqueue active db cands1 db1 → batch_effect enqueue active db1 cands2 db2 →
  batch_effect enqueue active db (cands1 ++ cands2) db2.
Proof.
  intros [Ho1 Hp1 Hs1 Hh1 Hj1] [Ho2 Hp2 Hs2 Hh2 Hj2].
  assert (Hc : ∀ x, observation_count (sv_db db1) x = observation_count (sv_db db) x).
  { intros x. unfold observation_count. by rewrite Ho1. }
  split; [congruence|congruence| |auto|auto].
  apply Forall2_same_length_lookup. split; [by etrans; eapply Forall2_length|].
  intros i s s2 Hi Hi2. destruct (Forall2_lookup_l _ _ _ _ _ Hs1 Hi) as (s1 & Hi1 & H1).
  pose proof (Forall2_lookup_lr _ _ _ _ _ _ Hs2 Hi1 Hi2) as H2. cbn in H2.
  destruct H2 as [->|(c & Hcin & Hu & Hst & Hq)].
  - destruct H1 as [->|(c & Hcin & Hu & Hst & Hq)]; [by left|right]. exists c.
    split; [apply elem_of_app; by left|]. split; [done|]. split; [done|]. auto.
  - right. assert (s1 = s) as ->.
    { destruct H1 as [->|(c' & _ & _ & Hst' & _)]; [done|]. apply stamped_ended in Hst' as [_ Hne].
      by apply stamped_open in Hst. }
    exists c. split; [apply elem_of_app; by right|]. split; [done|].
    split; [by eapply stamped_ext|]. intros He Hsum Hpos. rewrite <- Hc in *. auto.
Qed.

(** Once ended, a session is left alone by the rest of the batch. *)
Lemma effect_ended enqueue active db cands db' s :
  batch_effect enqueue active db cands db' → s ∈ sessions (sv_db db) → s_ended_at s ≠ None →
  s ∈ sessions (sv_db db').
Proof.
  intros [_ _ H _ _] (i & Hi)%list_elem_of_lookup Hne.
  destruct (Forall2_lookup_l _ _ _ _ _ H Hi) as (s' & Hi' & [->|(c & _ & _ & Hst & _)]).
  - by eapply list_elem_of_lookup_2.
  - by apply stamped_open in Hst.
Qed.

Lemma result_holds_later enqueue active db c r db1 cands db2 :
  result_holds enqueue db c r db1 → batch_effect enqueue active db1 cands db2 →
  result_holds enqueue db c r db2.
Proof.
  intros H He. pose proof (be_jobs _ _ _ _ _ He) as Hj. destruct r; [| |done].
  - destruct H as (page & count & now_us & last & s' & ? & ? & ? & Hs & ? & Hend & ? & ? & Hq).
    exists page, count, now_us, last, s'. do 3 (split; [done|]).
    split; [eapply effect_ended; [done|done|by rewrite Hend]|]. repeat (split; [done|]). auto.
  - destruct H as (now_us & last & s' & ? & Hs & ? & ? & Hend & ?).
    exists now_us, last, s'. split; [done|].
    split; [eapply effect_ended; [done|done|by rewrite Hend]|]. done.
Qed.

Lemma result_holds_ext enqueue active db cands db1 c r db2 :
  batch_effect enqueue active db cands db1 → result_holds enqueue db1 c r db2 →
  result_holds enqueue db c r db2.
Proof.
  intros [Ho Hp _ _ _] H. unfold result_holds, observation_count in *. by rewrite Ho, Hp in H.
Qed.

Lemma idle_end_candidates_Ok fs active enqueue clock cands : ∀ db res db',
  NoDup (s_id <$> sessions (sv_db db)) →
  idle_end_candidates order detail fs active db cands enqueue clock = (res, db') →
  batch_effect enqueue active db cands db'
  ∧ ∀ rs, res = Ok rs →
      Forall2 (λ c r, result_holds enqueue db c r db' ∧ (ic_session c ∈ active → r = Lost)) cands rs.
Proof.
  induction cands as [|c cands IH]; intros db res db' Hn H; cbn in H.
  { injection H as <- <-. split; [apply batch_effect_refl|]. by intros rs [= <-]. }
  assert (Hact : existsb (λ s, bool_decide (s = ic_session c)) active = true ↔ ic_session c ∈ active).
  { rewrite existsb_elem. setoid_rewrite bool_decide_eq_true. naive_solver. }
  destruct (existsb _ active) eqn:Ea.
  - destruct (idle_end_candidates order detail fs active db cands enqueue clock) as [rs1 final] eqn:Er.
    injection H as <- <-. destruct (IH _ _ _ Hn Er) as [He Hres]. split.
    + apply (batch_effect_trans _ _ _ [c] db cands); [apply batch_effect_refl|done].
    + intros rs Hrs. open_transaction. constructor; [done|]. by apply Hres.
  - destruct (end_candidate order detail (fs (ic_session c)) db c enqueue clock) as [[r db1]|e] eqn:Ec.
    + destruct (idle_end_candidates order detail fs active db1 cands enqueue clock) as [rs1 final] eqn:Er.
      injection H as <- <-. apply (end_candidate_Ok _ _ _ _ _ active) in Ec as [He1 Hr]; [|done|].
      2: { intros Hin. apply Hact in Hin. done. }
      destruct (IH _ _ _ ltac:(by rewrite (effect_ids _ _ _ _ _ He1)) Er) as [He Hres]. split.
      * by apply (batch_effect_trans _ _ _ [c] db1 cands).
      * intros rs Hrs. open_transaction. constructor.
        -- split; [by eapply result_holds_later|]. intros Hin. apply Hact in Hin. done.
        -- eapply Forall2_impl; [by apply Hres|]. cbn. intros c' r' [? ?].
           split; [by eapply result_holds_ext|done].
    + injection H as <- <-. split; [apply batch_effect_refl|done].
Qed.
End Facts.
