(* ===== verification/IdleEndContract.v ===== *)
(** * The contract of ending idle sessions

    What the batch answers for each candidate, and what a tick may do whatever
    happens around it. *)

From S2P Require Export IdleEndFacts.
Open Scope nat_scope.
Open Scope rust_scope.

(** ** What each candidate deserves *)

Definition no_substantive (db : ServerDb) (x : SessionId) : bool :=
  negb (existsb (λ o, bool_decide (o_session o = x) && o_substantive o) (observations (sv_db db))).

(** A session of the candidate is open and still what the tick judged. *)
Definition guards_hold (db : ServerDb) (c : IdleEndCandidate) : bool :=
  existsb (still_open c) (sessions (sv_db db))
  && match ic_action c with
     | SubstantiveEnd page count _ _ =>
         (observation_count (sv_db db) (ic_session c) =? count)%Z
         && bool_decide (sv_pages db !! page_key c = Some page)
     | LifecycleOnlyEnd _ _ => no_substantive db (ic_session c)
     end.

Definition verdict (active : list SessionId) (db : ServerDb) (c : IdleEndCandidate) : IdleEndResult :=
  if bool_decide (ic_session c ∈ active) then Lost
  else if guards_hold db c
       then match ic_action c with
            | SubstantiveEnd _ _ _ _ => EndedSubstantive
            | LifecycleOnlyEnd _ _ => EndedLifecycleOnly
            end
       else Lost.

Lemma existsb_active (active : list SessionId) x :
  existsb (λ s, bool_decide (s = x)) active = bool_decide (x ∈ active).
Proof.
  apply eq_true_iff_eq. rewrite existsb_elem, bool_decide_eq_true.
  setoid_rewrite bool_decide_eq_true. split; [by intros (? & ? & <-)|eauto].
Qed.

Section Contract.
Context (order : OrderBy HandoffRow) `{!OrdersRows order}.
Context (detail : SessionId → bool → Z → string).

Lemma end_substantive_None f db c page count now_us last enqueue clock :
  ic_action c = SubstantiveEnd page count now_us last →
  end_substantive detail f db c page count now_us last enqueue clock = Ok None →
  guards_hold db c = false.
Proof.
  intros Hact. unfold end_substantive, guards_hold. rewrite Hact. intros H. open_transaction.
  set (hit := λ s, still_open c s && _ && _) in *.
  destruct (Nat.eqb_spec (count_where hit (sessions (sv_db db))) 0) as [Hz|_].
  - rewrite count_where_0 in Hz. destruct (existsb _ _) eqn:E; [|done].
    apply existsb_elem in E as (s & Hs & Ho). specialize (Hz s Hs). unfold hit in Hz.
    rewrite Ho in Hz. exact Hz.
  - exfalso. open_transaction.
Qed.

Lemma end_lifecycle_only_None f db c now_us last clock :
  ic_action c = LifecycleOnlyEnd now_us last →
  end_lifecycle_only order detail f db c now_us last clock = Ok None →
  guards_hold db c = false.
Proof.
  intros Hact. unfold end_lifecycle_only, guards_hold, no_substantive. rewrite Hact. intros H. open_transaction.
  destruct (Nat.eqb_spec (count_where (still_open c) (sessions (sv_db db))) 0) as [Hz|_].
  - rewrite count_where_0 in Hz. destruct (existsb (still_open c) _) eqn:E; [|done].
    apply existsb_elem in E as (s & Hs & Ho). by rewrite (Hz s Hs) in Ho.
  - open_transaction.
    match goal with H : end_lifecycle_only_session_in_tx _ _ _ _ _ _ = Ok ?r |- _ =>
      destruct r as [out d2]; apply end_lifecycle_in_tx_Ok in H; destruct out end; open_transaction.
    match goal with H : _ ∧ _ |- _ => destruct H as [_ ->] end. apply andb_false_r.
Qed.

(** One candidate gets what it deserves. *)
Lemma end_candidate_verdict f db c enqueue clock active r db' :
  NoDup (s_id <$> sessions (sv_db db)) → ic_session c ∉ active →
  end_candidate order detail f db c enqueue clock = Ok (r, db') → r = verdict active db c.
Proof.
  intros Hn Ha. unfold end_candidate, verdict. rewrite bool_decide_eq_false_2 by done.
  destruct (ic_action c) as [page count now_us last|now_us last] eqn:Hact; intros H; open_transaction.
  - match goal with H : end_substantive _ _ _ _ _ _ _ _ _ _ = Ok ?a |- _ => destruct a as [db1|] end; simplify_eq.
    + match goal with H : end_substantive _ _ _ _ _ _ _ _ _ _ = Ok _ |- _ =>
        apply end_substantive_Ok in H as (Hcount & Hpage & Hs & _) end.
      apply existsb_elem in Hs. unfold guards_hold. rewrite Hs, Hact, Hcount, Z.eqb_refl.
      by rewrite bool_decide_eq_true_2.
    + by erewrite end_substantive_None by done.
  - match goal with H : end_lifecycle_only _ _ _ _ _ _ _ _ = Ok ?a |- _ => destruct a as [db1|] end; simplify_eq.
    + match goal with H : end_lifecycle_only _ _ _ _ _ _ _ _ = Ok _ |- _ =>
        apply end_lifecycle_only_Ok in H as (Hex & Hs & _); [|done..] end.
      apply existsb_elem in Hs. unfold guards_hold, no_substantive. by rewrite Hs, Hact, Hex.
    + by erewrite end_lifecycle_only_None by done.
Qed.

(** Ending other sessions leaves a candidate's verdict alone. *)
Lemma verdict_later enqueue active active' db cands db' c :
  batch_effect enqueue active' db cands db' → ic_session c ∉ (ic_session <$> cands) →
  verdict active db' c = verdict active db c.
Proof.
  intros [Ho Hp Hs _ _] Hc. unfold verdict, guards_hold, no_substantive, observation_count.
  rewrite Ho, Hp.
  assert (E : existsb (still_open c) (sessions (sv_db db')) = existsb (still_open c) (sessions (sv_db db))).
  { clear Ho Hp. revert Hs. generalize (sessions (sv_db db)), (sessions (sv_db db')). induction 1 as [|s s' l l' Hs _ IH]; [done|].
    cbn. rewrite IH. f_equal. destruct Hs as [->|(c' & Hin & _ & Hst & _)]; [done|].
    assert (Hid : s_id s = ic_session c').
    { by destruct Hst as [? ? ? ? _ (? & _)%still_open_true|? ? _ (? & _)%still_open_true]. }
    destruct (stamped_ended _ _ _ _ Hst) as [Hid' _]. unfold still_open.
    rewrite Hid', Hid, !(bool_decide_eq_false_2 (ic_session c' = ic_session c)); [done|..];
      intros E; apply Hc; rewrite <- E; by apply list_elem_of_fmap_2. }
  by rewrite E.
Qed.

Lemma idle_end_candidates_verdict fs active enqueue clock cands : ∀ db rs db',
  NoDup (s_id <$> sessions (sv_db db)) → NoDup (ic_session <$> cands) →
  idle_end_candidates order detail fs active db cands enqueue clock = (Ok rs, db') →
  rs = verdict active db <$> cands.
Proof.
  induction cands as [|c cands IH]; intros db rs db' Hn Hd H; cbn in H; [by simplify_eq|].
  rewrite fmap_cons in Hd. apply NoDup_cons in Hd as [Hc Hd]. rewrite existsb_active in H.
  assert (Hkeep : ∀ db1, batch_effect enqueue active db [c] db1 →
            verdict active db1 <$> cands = verdict active db <$> cands).
  { intros db1 He. apply list_fmap_ext. intros i c' Hi%list_elem_of_lookup_2.
    eapply verdict_later; [done|]. cbn. intros E%list_elem_of_singleton. apply Hc. rewrite <- E.
    by apply list_elem_of_fmap_2. }
  case_bool_decide as Ha.
  - destruct (idle_end_candidates _ _ _ _ _ _ _ _) as [rs1 final] eqn:Er. injection H as Hrs <-.
    open_transaction. rewrite fmap_cons. f_equal; [unfold verdict; by rewrite bool_decide_eq_true_2|].
    by eapply IH.
  - destruct (end_candidate order detail (fs (ic_session c)) db c enqueue clock) as [[r db1]|e] eqn:Ec; [|done].
    destruct (idle_end_candidates _ _ _ _ _ _ _ _) as [rs1 final] eqn:Er. injection H as Hrs <-.
    open_transaction. rewrite fmap_cons. f_equal; [by eapply end_candidate_verdict|].
    apply (end_candidate_Ok order detail _ _ _ _ _ active) in Ec as [He _]; [|done..].
    rewrite <- (Hkeep db1) by done. eapply IH; [|done|done]. by rewrite (effect_ids _ _ _ _ _ He).
Qed.

(** Ending idle sessions in a batch is exact: whatever the batch answers,
    the only rows it changes are open sessions of candidates no active run
    owns, stamped with their scope's page, count and time, a session ended with
    its page having its consolidation job when consolidation is on, and nothing
    observed or written to the wiki is touched; when it answers, each candidate
    gets its verdict on the tables the batch found, and a session reported
    ended is ended as reported. *)
Theorem idle_end_batch_exact fs active db cands enqueue clock res db' :
  NoDup (s_id <$> sessions (sv_db db)) → NoDup (ic_session <$> cands) →
  idle_end_sessions order detail fs (Ok active) db cands enqueue clock = (res, db') →
  batch_effect enqueue active db cands db'
  ∧ ∀ rs, res = Ok rs →
      rs = verdict active db <$> cands
      ∧ Forall2 (λ c r, result_holds enqueue db c r db') cands rs.
Proof.
  cbn. intros Hn Hd H. destruct (idle_end_candidates_Ok order detail _ _ _ _ _ _ _ _ Hn H) as [He Hr].
  split; [done|]. intros rs ->. split; [by eapply idle_end_candidates_verdict|].
  eapply Forall2_impl; [by apply Hr|]. by intros c r [? _].
Qed.
End Contract.

(** ** A tick *)

Section Tick.
Context (order : OrderBy HandoffRow) `{!OrdersRows order}.
Context (detail : SessionId → bool → Z → string) (env : TickEnv).
(** The sessions a tick may end: listed as idle and owned by no active run. *)
Context (listed : IdleOpenSession → Prop).

(** What the tables go through while a tick reads and writes: other requests,
    and a summary page put over the version seen at selection, never over a
    page the agent wrote. *)
Inductive tick_reach : ServerDb → ServerDb → Prop :=
  | reach_refl db : tick_reach db db
  | reach_others db d x at_ : tick_reach db d → tick_reach db (te_others env x at_ d)
  | reach_page db d0 d s page :
      tick_reach db d0 → (te_by_agent env (io_session s) = true → sv_pages d0 !! session_page s = None) →
      tick_reach d0 d → listed s → te_page env (io_session s) = Ok page →
      sv_pages d !! session_page s = io_seen_page s →
      tick_reach db (mkServerDb (sv_db d) (sv_jobs d) (<[session_page s := page]> (sv_pages d))).

Lemma tick_reach_trans db1 db2 db3 : tick_reach db1 db2 → tick_reach db2 db3 → tick_reach db1 db3.
Proof.
  intros H1 H2. induction H2; [done|constructor; auto|].
  eapply reach_page; [by apply IHtick_reach1|done..].
Qed.

(** Why a candidate is one: no substantive work; or the page the tick wrote
    over the observations it counted; or the agent's page, counted after. *)
Inductive decided (db : ServerDb) (now_us : Z) (s : IdleOpenSession) : IdleEndAction → Prop :=
  | decided_lifecycle d :
      tick_reach db d → session_has_substantive_observation s d = false →
      decided db now_us s (LifecycleOnlyEnd now_us (io_last_activity_us s))
  | decided_written d d' page count :
      tick_reach db d → load_with_count s d = Ok count → tick_reach d d' →
      sv_pages d' !! session_page s = io_seen_page s → te_page env (io_session s) = Ok page →
      decided db now_us s (SubstantiveEnd page count now_us (io_last_activity_us s))
  | decided_kept d d' page :
      tick_reach db d → te_by_agent env (io_session s) = true →
      sv_pages d !! session_page s = Some page → tick_reach d d' →
      decided db now_us s (SubstantiveEnd page (session_observation_count s d') now_us
                             (io_last_activity_us s)).

Lemma decided_lift db d now_us s a : tick_reach db d → decided d now_us s a → decided db now_us s a.
Proof.
  intros Hd [d' Hd' ?|d' d'' ? ? Hd' ? ? ? ?|d' d'' ? Hd' ? ? ?]; pose proof (tick_reach_trans _ _ _ Hd Hd');
    [by eapply decided_lifecycle|by eapply (decided_written _ _ _ d' d'')|by eapply (decided_kept _ _ _ d' d'')].
Qed.

Lemma tick_read_reach {A} s at_ db (read : ServerDb → A) res db' :
  tick_read env s at_ db read = (res, db') →
  tick_reach db db' ∧ ∀ a, res = Ok a → a = read db'.
Proof.
  unfold tick_read. intros [= <- <-]. split; [do 2 constructor|].
  destruct (te_fails env _ at_); [done|]. by intros a [= <-].
Qed.

Lemma write_summary_reach s now_us db res db' :
  listed s → (te_by_agent env (io_session s) = true →
              sv_pages db !! session_page s = None) →
  write_summary env s db = (res, db') →
  tick_reach db db'
  ∧ ∀ page count, res = Ok (PageWritten page, count) ∨ res = Ok (KeptAgentPage page, count) →
      decided db now_us s (SubstantiveEnd page count now_us (io_last_activity_us s)).
Proof.
  intros Hs Hagent. unfold write_summary.
  destruct (tick_read env s TickDigest db (load_with_count s)) as [digest db1] eqn:Er.
  apply tick_read_reach in Er as [Hr1 Hdig].
  destruct (let? n := digest in n) as [count|e] eqn:Ec; [|intros [= <- <-]; split; [done|]; by intros ? ? [?|?]].
  destruct digest as [n|]; [|done]. cbn in Ec. subst n. specialize (Hdig _ eq_refl).
  destruct (stored_session_identity _) as [key|e]; [|intros [= <- <-]; split; [done|]; by intros ? ? [?|?]].
  unfold write_page_if. set (db2 := te_others env (io_session s) TickWrite db1).
  assert (Hr2 : tick_reach db1 db2) by (do 2 constructor).
  assert (Hr : tick_reach db db2) by (by eapply tick_reach_trans).
  destruct (te_page env (io_session s)) as [page|e] eqn:Ep;
    [|intros [= <- <-]; split; [done|]; by intros ? ? [?|?]].
  case_bool_decide as Hseen; intros [= <- <-].
  - split.
    + apply (reach_page db db db2 s page); try done. apply reach_refl.
    + intros page' count' [H|H]; [|done]. injection H as <- <-. symmetry in Hdig. by apply (decided_written _ _ _ db1 db2).
  - split; [done|]. by intros ? ? [?|?].
Qed.

Lemma summary_page_decision_reach s now_us db res db' :
  listed s → summary_page_decision env s db = (res, db') →
  tick_reach db db'
  ∧ ∀ page count, res = Ok (PageWritten page, count) ∨ res = Ok (KeptAgentPage page, count) →
      decided db now_us s (SubstantiveEnd page count now_us (io_last_activity_us s)).
Proof.
  intros Hs. unfold summary_page_decision.
  destruct (tick_read env s TickAgentCheck db _) as [by_agent db1] eqn:Er.
  apply tick_read_reach in Er as [Hr1 Hagent].
  destruct by_agent as [[|]|e]; [| |intros [= <- <-]; split; [done|]; by intros ? ? [?|?]].
  - specialize (Hagent _ eq_refl). symmetry in Hagent.
    destruct (tick_read env s TickPageRead db1 _) as [current db2] eqn:Er2.
    apply tick_read_reach in Er2 as [Hr2 Hcur].
    assert (Hr : tick_reach db db2) by (by eapply tick_reach_trans).
    destruct current as [[page|]|e]; [| |intros [= <- <-]; split; [done|]; by intros ? ? [?|?]].
    + specialize (Hcur _ eq_refl). symmetry in Hcur.
      destruct (tick_read env s TickCountRead db2 _) as [count db3] eqn:Er3.
      apply tick_read_reach in Er3 as [Hr3 Hcount].
      destruct count as [n|e]; cbn; intros [= <- <-]; (split; [by eapply tick_reach_trans|]);
        intros page' count' [H|H]; try done.
      injection H as <- <-. rewrite (Hcount _ eq_refl). by eapply (decided_kept _ _ _ db2 db3).
    + intros H. apply (write_summary_reach _ now_us) in H as [Hw Hd]; [|done|intros _; symmetry; by apply Hcur].
      split; [by eapply tick_reach_trans|]. intros page count Hres. eapply decided_lift; [exact Hr|]. by eapply Hd.
  - specialize (Hagent _ eq_refl). intros H.
    apply (write_summary_reach _ now_us) in H as [Hw Hd]; [|done|by rewrite <- Hagent].
    split; [by eapply tick_reach_trans|]. intros page count Hres. eapply decided_lift; [exact Hr1|]. by eapply Hd.
Qed.

Definition candidate_decided (db : ServerDb) (now_us : Z) (s : IdleOpenSession) (c : IdleEndCandidate) : Prop :=
  ∃ action, c = candidate_of s action ∧ decided db now_us s action.

Lemma candidate_decided_lift db d now_us s c :
  tick_reach db d → candidate_decided d now_us s c → candidate_decided db now_us s c.
Proof. intros Hd (a & -> & H). exists a. split; [done|]. by eapply decided_lift. Qed.

(** The classification loop over [eligible] from the count [o]. *)
Definition classified (now_us : Z) (db : ServerDb) (o : IdleEndTickOutcome) (eligible : list IdleOpenSession)
    (r : result (list IdleEndCandidate * IdleEndTickOutcome) string * ServerDb) : Prop :=
  tick_reach db (snd r)
  ∧ ∀ cands o', fst r = Ok (cands, o') →
      (∃ chosen, chosen `sublist_of` eligible ∧ Forall2 (candidate_decided db now_us) chosen cands)
      ∧ to_ended o' = to_ended o ∧ to_lifecycle_only o' = to_lifecycle_only o
      ∧ to_skipped o' + length cands = to_skipped o + length eligible.

Lemma classified_add now_us db d o o0 s rest action r :
  tick_reach db d → decided db now_us s action → to_ended o0 = to_ended o →
  to_lifecycle_only o0 = to_lifecycle_only o → to_skipped o0 = to_skipped o →
  classified now_us d o0 rest r →
  classified now_us db o (s :: rest)
    (let? x := fst r in Ok (candidate_of s action :: fst x, snd x), snd r).
Proof.
  intros Hd Hdec He Hlo Hsk [Hr Hres]. split; [by eapply tick_reach_trans|].
  intros cands o' H. destruct r as [[[cands1 o1]|] db2]; [|done]. injection H as <- <-.
  destruct (Hres _ _ eq_refl) as ((chosen & Hsubl & Hf) & ? & ? & Hsum). cbn [length fst] in *.
  split; [|split; [congruence|split; [congruence|lia]]].
  exists (s :: chosen). split; [by apply sublist_skip|]. constructor; [by exists action|].
  eapply Forall2_impl; [exact Hf|]. intros x c. by eapply candidate_decided_lift.
Qed.

Lemma classified_skip now_us db d o s rest r :
  tick_reach db d → classified now_us d (skip o) rest r → classified now_us db o (s :: rest) r.
Proof.
  intros Hd [Hr Hres]. split; [by eapply tick_reach_trans|].
  intros cands o' E. destruct (Hres _ _ E) as ((chosen & Hsubl & Hf) & ? & ? & Hsum). cbn in Hsum |- *.
  split; [|split; [done|split; [done|lia]]]. exists chosen. split; [by apply sublist_cons|].
  eapply Forall2_impl; [exact Hf|]. intros x c. by eapply candidate_decided_lift.
Qed.

Lemma tick_candidates_classified now_us eligible : ∀ db o,
  (∀ s, s ∈ eligible → listed s) → classified now_us db o eligible (tick_candidates env now_us db o eligible).
Proof.
  induction eligible as [|s rest IH]; intros db o Hl; cbn [tick_candidates].
  { split; [constructor|]. intros ? ? [= <- <-]. split; [|cbn; lia]. exists []. split; constructor. }
  assert (Hs : listed s) by (apply Hl; left).
  assert (Hrest : ∀ x, x ∈ rest → listed x) by (intros x Hx; apply Hl; by right).
  destruct (tick_read env s TickSubstantive db _) as [substantive db1] eqn:Er.
  apply tick_read_reach in Er as [Hr1 Hsub].
  destruct substantive as [[|]|e].
  - destruct (summary_page_decision env s db1) as [decision db2] eqn:Ed.
    apply (summary_page_decision_reach _ now_us) in Ed as [Hr2 Hdec]; [|done].
    assert (Hr : tick_reach db db2) by (by eapply tick_reach_trans).
    destruct decision as [[[page|page|] count]|e];
      [| |by eapply classified_skip; [|apply IH]|by eapply classified_skip; [|apply IH]];
      (eapply classified_add; [exact Hr| | | | |by apply IH]; try done);
      (eapply decided_lift; [exact Hr1|]); apply Hdec; auto.
  - specialize (Hsub _ eq_refl). eapply classified_add; [exact Hr1| | | | |by apply IH]; try done.
    by eapply decided_lifecycle.
  - by split.
Qed.
End Tick.

(** ** The tick as a whole *)

Lemma eligible_sessions_ok active l : ∀ room o,
  let '(eligible, o') := eligible_sessions room active o l in
  eligible `sublist_of` l ∧ (∀ s, s ∈ eligible → io_session s ∉ active)
  ∧ length eligible ≤ room ∧ to_ended o' = to_ended o
  ∧ to_lifecycle_only o' = to_lifecycle_only o
  ∧ to_skipped o' + length eligible ≤ to_skipped o + length l
  ∧ (length l ≤ room → to_skipped o' + length eligible = to_skipped o + length l).
Proof.
  induction l as [|s rest IH]; intros room o; destruct room as [|room]; cbn [eligible_sessions].
  1-3: (split; [apply sublist_nil_l|]); (split; [by intros ? ?%elem_of_nil|]);
         cbn; lia.
  - rewrite existsb_active. case_bool_decide as Ha.
    + specialize (IH (S room) (skip o)). destruct (eligible_sessions _ _ _ _) as [el o'].
      destruct IH as (H1 & H2 & H3 & H4 & H5 & H6 & H7). cbn in *.
      split; [by apply sublist_cons|]. repeat (split; [done|]). split; [lia|]. intros. lia.
    + specialize (IH room o). destruct (eligible_sessions _ _ _ _) as [el o'].
      destruct IH as (H1 & H2 & H3 & H4 & H5 & H6 & H7). cbn [length].
      split; [by apply sublist_skip|]. split; [intros x [->|Hx]%elem_of_cons; [done|by apply H2]|].
      split; [lia|]. repeat (split; [done|]). split; [lia|]. intros. lia.
Qed.

Section Guarded.
Context (order : OrderBy HandoffRow) `{!OrdersRows order}.
Context (detail : SessionId → bool → Z → string) (env : TickEnv).

Definition results_of (o : IdleEndTickOutcome) (rs : list IdleEndResult) (o' : IdleEndTickOutcome) : Prop :=
  to_ended o' = to_ended o + count_where (λ r, match r with EndedSubstantive => true | _ => false end) rs
  ∧ to_lifecycle_only o' = to_lifecycle_only o
      + count_where (λ r, match r with EndedLifecycleOnly => true | _ => false end) rs
  ∧ to_ended o' + to_lifecycle_only o' + to_skipped o'
      = to_ended o + to_lifecycle_only o + to_skipped o + length rs.

Lemma foldl_count_result rs : ∀ o, results_of o rs (foldl count_result o rs).
Proof.
  induction rs as [|r rs IH]; intros o; unfold results_of, count_where; cbn; [lia|].
  specialize (IH (count_result o r)). unfold results_of, count_where in IH. destruct r; cbn in *; lia.
Qed.

(** What a tick did: its own requests and pages, and then at most one batch
    over candidates it decided. *)
Inductive tick_did (fs : SessionId → faults) (active_stamp : result (list SessionId) OpsError)
    (listed : IdleOpenSession → Prop) (idle : list IdleOpenSession) (now_us clock : Z) (enqueue : bool)
    (db : ServerDb) : result IdleEndTickOutcome string → ServerDb → Prop :=
  | did_no_batch res db' :
      tick_reach env listed db db' →
      (∀ o, res = Ok o → to_ended o = 0 ∧ to_lifecycle_only o = 0) →
      tick_did fs active_stamp listed idle now_us clock enqueue db res db'
  | did_batch chosen cands o d db1 rs res db' :
      tick_reach env listed db d → db1 = te_before_batch env d →
      chosen `sublist_of` idle → (∀ s, s ∈ chosen → listed s) →
      Forall2 (candidate_decided env listed db now_us) chosen cands →
      0 < length cands ≤ IDLE_END_BATCH → to_ended o = 0 → to_lifecycle_only o = 0 →
      idle_end_sessions order detail fs active_stamp db1 cands enqueue clock = (rs, db') →
      match rs with
      | Ok rs => res = Ok (foldl count_result o rs)
      | Err _ => ∃ e, res = Err e
      end →
      tick_did fs active_stamp listed idle now_us clock enqueue db res db'.

Lemma idle_end_length fs active cands : ∀ db enqueue clock rs db',
  idle_end_sessions order detail fs active db cands enqueue clock = (Ok rs, db') → length rs = length cands.
Proof.
  destruct active as [active|]; [|done]. cbn.
  induction cands as [|c cands IH]; intros db enqueue clock rs db' H; cbn in H; [by injection H as <- <-|].
  destruct (if existsb _ _ then _ else _) as [[r db1]|]; [|done].
  destruct (idle_end_candidates _ _ _ _ _ _ _ _) as [[rs1|] final] eqn:Er; [|done].
  injection H as <- <-. cbn. f_equal. by eapply IH.
Qed.

Lemma run_tick_did fs active_read active_stamp idle now_us clock cfg has db res db' :
  run_idle_end_tick order detail env fs active_read active_stamp idle now_us clock cfg has db = (res, db') →
  tick_did fs active_stamp
    (λ s, s ∈ idle ∧ ∃ active, active_read = Ok active ∧ io_session s ∉ active)
    idle now_us clock (cfg && has) db res db'
  ∧ ∀ o, res = Ok o →
      to_ended o + to_lifecycle_only o + to_skipped o ≤ length idle
      ∧ (length idle ≤ IDLE_END_BATCH → to_ended o + to_lifecycle_only o + to_skipped o = length idle).
Proof.
  unfold run_idle_end_tick. set (listed := λ s, s ∈ idle ∧ _).
  destruct (decide (idle = [])) as [->|Hne].
  { intros [= <- <-]. split; [|intros o [= <-]; cbn; lia]. apply did_no_batch; [constructor|].
    by intros o [= <-]. }
  assert (E : ∀ X (a b : X), match idle with [] => a | _ => b end = b) by (by destruct idle).
  rewrite E. clear E Hne.
  destruct active_read as [active|e]; [|intros [= <- <-]; split; [by apply did_no_batch; [constructor|]|done]].
  pose proof (eligible_sessions_ok active idle IDLE_END_BATCH (mkTickOutcome 0 0 0 0)) as Hel.
  destruct (eligible_sessions _ _ _ _) as [eligible o0].
  destruct Hel as (Hsub & Hun & Hlen & He0 & Hl0 & Hsum & Hall). cbn in He0, Hl0, Hsum, Hall.
  assert (Hlisted : ∀ s, s ∈ eligible → listed s).
  { intros s Hs. split; [by eapply elem_of_sublist|]. exists active. auto. }
  destruct (tick_candidates_classified env listed now_us eligible db o0 Hlisted) as [Hr Hres].
  destruct (tick_candidates env now_us db o0 eligible) as [[[cands o]|e] d]; cbn in Hr, Hres;
    [|intros [= <- <-]; split; [by apply did_no_batch|done]].
  destruct (Hres _ _ eq_refl) as ((chosen & Hch & Hf) & He & Hlo & Hsk). clear Hres.
  pose proof (Forall2_length _ _ _ Hf) as Hlc. pose proof (sublist_length _ _ Hch) as Hle.
  destruct (decide (cands = [])) as [->|Hne].
  { intros [= <- <-]. cbn in Hsk. split; [|intros ? [= <-]; lia]. apply did_no_batch; [done|].
    intros ? [= <-]. lia. }
  assert (E : ∀ X (a b : X), match cands with [] => a | _ => b end = b) by (by destruct cands).
  assert (Hpos : 0 < length cands) by (destruct cands; [done|cbn; lia]).
  destruct (idle_end_sessions order detail fs active_stamp (te_before_batch env d) cands (cfg && has) clock)
    as [rs db1] eqn:Eb.
  intros H. assert (Hfin : match rs with Ok rs => res = Ok (foldl count_result o rs) | Err _ => ∃ e, res = Err e end
    ∧ db' = db1).
  { clear -H Hne. destruct cands; [done|]. destruct rs; injection H as <- <-; eauto. }
  destruct Hfin as [Hfin ->]. split.
  - eapply (did_batch _ _ _ _ _ _ _ _ chosen cands o d _ rs); try done;
      [by etrans|intros s Hs; apply Hlisted; by eapply elem_of_sublist|lia..].
  - intros o' ->. destruct rs as [rs|]; [|by destruct Hfin]. injection Hfin as ->.
    destruct (foldl_count_result rs o) as (_ & _ & Hs).
    assert (length rs = length cands) by (by eapply idle_end_length). split; lia.
Qed.

Lemma decided_sessions listed db now_us chosen cands :
  Forall2 (candidate_decided env listed db now_us) chosen cands →
  ic_session <$> cands = io_session <$> chosen.
Proof. induction 1 as [|s c l l' (a & -> & _) _ IH]; [done|]. by rewrite !fmap_cons, IH. Qed.

Lemma NoDup_sublist {A} (l k : list A) : l `sublist_of` k → NoDup k → NoDup l.
Proof.
  induction 1 as [|x l k Hs IH|x l k Hs IH]; [done| |]; intros Hk; apply NoDup_cons in Hk as [Hx Hk].
  - apply NoDup_cons. split; [|by apply IH]. intros Hin. apply Hx. by eapply elem_of_sublist.
  - by apply IH.
Qed.

(** The sessions a tick is about: selected as idle, owned by no active run. *)
Definition endable (idle : list IdleOpenSession) (active : result (list SessionId) string)
    (s : IdleOpenSession) : Prop :=
  s ∈ idle ∧ ∃ l, active = Ok l ∧ io_session s ∉ l.

Definition all_pages (db : ServerDb) (k : PageKey) (p : PageId) : Prop := sv_pages db !! k = Some p.


Lemma reach_keeps_page listed k p :
  (∀ x at_ d, all_pages d k p → all_pages (te_others env x at_ d) k p) →
  (∀ s, listed s → session_page s = k → io_seen_page s ≠ Some p ∨ te_by_agent env (io_session s) = true) →
  ∀ db d, tick_reach env listed db d → all_pages db k p → all_pages d k p.
Proof.
  intros Ho Hs db d Hr. induction Hr as [db|db d x at_ Hr IH|db d0 d s page Hr IH Ha Hr' IH' Hl Hp Hseen];
    intros Hk; [done|auto|]. unfold all_pages in *. cbn. specialize (IH Hk). specialize (IH' IH).
  destruct (decide (session_page s = k)) as [E|E]; [|by rewrite lookup_insert_ne].
  destruct (Hs s Hl E) as [Hne|Hby]; rewrite E in *; [congruence|]. by rewrite (Ha Hby) in IH.
Qed.

(** A tick never overwrites a page it may not: as long as other requests
    leave a session's page alone, a page the agent wrote, or any version other
    than the one seen at selection, is still the latest after the tick. *)
Theorem idle_end_keeps_pages fs active_read active_stamp idle now_us clock cfg has db res db' k p :
  (∀ x at_ d, all_pages d k p → all_pages (te_others env x at_ d) k p) →
  (∀ d, all_pages d k p → all_pages (te_before_batch env d) k p) →
  (∀ d, NoDup (s_id <$> sessions (sv_db (te_before_batch env d)))) →
  (∀ s, s ∈ idle → session_page s = k →
     io_seen_page s ≠ Some p ∨ te_by_agent env (io_session s) = true) →
  all_pages db k p →
  run_idle_end_tick order detail env fs active_read active_stamp idle now_us clock cfg has db = (res, db') →
  all_pages db' k p.
Proof.
  intros Ho Hb Hn Hs Hk H. apply run_tick_did in H as [Hdid _].
  assert (Hkeep : ∀ d, tick_reach env (λ s, s ∈ idle ∧ ∃ l, active_read = Ok l ∧ io_session s ∉ l) db d →
            all_pages d k p).
  { intros d Hr. eapply reach_keeps_page; [exact Ho| |exact Hr|done]. intros s [Hin _]. by apply Hs. }
  destruct Hdid as [res db' Hr _|chosen cands o d db1 rs res db' Hr -> _ _ _ _ _ _ Hrun _]; [by apply Hkeep|].
  specialize (Hb _ (Hkeep _ Hr)). destruct active_stamp as [active|e]; cbn in Hrun; [|by injection Hrun as _ <-].
  apply (idle_end_candidates_Ok order detail) in Hrun as [[_ Hp _ _ _] _]; [|apply Hn].
  unfold all_pages. by rewrite Hp.
Qed.
End Guarded.

(** ** A concrete tick

    Session 7 has work and no page yet, session 8 has none, session 9 is
    observed once more between the judgement and the batch. *)
Definition idle_order : OrderBy HandoffRow := λ lt rows, sort_by_key id lt rows.
Definition idle_detail : SessionId → bool → Z → string := λ _ _ _, "{}".

Definition idle_row (x : SessionId) : SessionRow := mkSessionRow x 1%N 2%N "codex" None 0 None None None 0.

Definition idle_tables (obs : list ObservationRow) (pages : gmap PageKey PageId) : ServerDb :=
  mkServerDb (mkHandoffDb (idle_row <$> [7; 8; 9]%N) obs [] []) [] pages.

(** A captured prompt. *)
Definition observed (id : ObservationId) (session : SessionId) (at_ : Z) : ObservationRow :=
  mkObservationRow id session 1%N 2%N "user-prompt" None None (lit "prompt") (lit "text") 8 at_ None.

Definition idle_obs : list ObservationRow := [observed 1%N 7%N 50; observed 2%N 9%N 60].

Definition idle_session (x : SessionId) : IdleOpenSession :=
  mkIdleOpenSession x 1%N 2%N Codex None 50 None.

Definition idle_selected : list IdleOpenSession := idle_session <$> [7; 8; 9]%N.

(** The wiki of the tick: pages 107 and 109 will be its own. *)
Definition idle_env : TickEnv :=
  mkTickEnv (λ _ _ db, db) (λ _ _, None) (λ _, false) (λ x, Ok (x + 100)%N)
    (λ db, idle_tables (idle_obs ++ [observed 3%N 9%N 70]) (sv_pages db)).

Definition idle_run (env : TickEnv) (db : ServerDb) :=
  run_idle_end_tick idle_order idle_detail env (λ _, no_faults) (Ok []) (Ok []) idle_selected
    1000 1000 true true db.

Example idle_run_example :
  fst (idle_run idle_env (idle_tables idle_obs ∅)) = Ok (mkTickOutcome 1 1 1 2).
Proof. by vm_compute. Qed.

Lemma idle_ids obs pages : NoDup (s_id <$> sessions (sv_db (idle_tables obs pages))).
Proof. apply (bool_decide_unpack _). by vm_compute. Qed.

Definition idle_candidates : list IdleEndCandidate :=
  [candidate_of (idle_session 7%N) (SubstantiveEnd 107%N 1 1000 50);
   candidate_of (idle_session 8%N) (LifecycleOnlyEnd 1000 50);
   candidate_of (idle_session 9%N) (SubstantiveEnd 109%N 2 1000 50)].

Definition idle_written : gmap PageKey PageId :=
  {[ (1%N, 2%N, 7%N) := 107%N; (1%N, 2%N, 9%N) := 109%N ]}.

Lemma idle_end_batch_exact_witness :
  let '(res, db') := idle_end_sessions idle_order idle_detail (λ _, no_faults) (Ok [])
                       (idle_tables idle_obs idle_written) idle_candidates true 1000 in
  res = Ok [EndedSubstantive; EndedLifecycleOnly; Lost]
  ∧ batch_effect true [] (idle_tables idle_obs idle_written) idle_candidates db'.
Proof.
  destruct (idle_end_sessions _ _ _ _ _ _ _ _) as [res db'] eqn:E. split.
  - transitivity (fst (res, db')); [done|]. rewrite <- E. by vm_compute.
  - eapply (idle_end_batch_exact idle_order idle_detail _ [] _ _ _ _ _ _ (idle_ids _ _)); [|exact E].
    apply (bool_decide_unpack _). by vm_compute.
Defined.


(** The agent's page of session 7 stays. *)
Definition agent_env : TickEnv :=
  mkTickEnv (λ _ _ db, db) (λ _ _, None) (λ x, bool_decide (x = 7%N)) (λ x, Ok (x + 100)%N)
    (λ db, idle_tables idle_obs (sv_pages db)).

Lemma idle_end_keeps_pages_witness :
  all_pages (snd (idle_run agent_env (idle_tables idle_obs {[ (1%N, 2%N, 7%N) := 55%N ]}))) (1%N, 2%N, 7%N) 55%N.
Proof.
  destruct (idle_run _ _) as [res db'] eqn:E.
  eapply (idle_end_keeps_pages idle_order idle_detail agent_env); [..|exact E]; try done.
  - intros d. apply idle_ids.
  - intros s Hs. unfold idle_selected in Hs. rewrite !fmap_cons, !elem_of_cons in Hs.
    destruct Hs as [->|[->|[->|[]%elem_of_nil]]]; intros [=]. by right.
Defined.
