(* ===== verification/Okf.v ===== *)
(** * Frontmatter of wiki pages

    Models [crates/ai-memory-core/src/okf.rs], the conformance of a page's
    frontmatter to the Open Knowledge Format, and the parts of [page.rs] it
    and the store use: tiers, evidence, relations, expiry and entity names.
    serde_json objects keep insertion order here (the [preserve_order]
    feature), and comparing two of them does not look at the order.  jiff's
    parsers and printers, the package version and the Unicode lowercase table
    are arguments. *)

From S2P Require Export Json.
Open Scope nat_scope.
Open Scope rust_scope.

(** ** [serde_json::Map] *)

Definition JMap := list (bytes * json).

Definition map_get (key : bytes) (m : JMap) : option json := json_get key (JObject m).

Definition contains_key (key : bytes) (m : JMap) : bool := bool_decide (key ∈ fst <$> m).

(** [insert]: in place when the key is there, at the end when it is not. *)
Fixpoint map_insert (key : bytes) (v : json) (m : JMap) : JMap :=
  match m with
  | [] => [(key, v)]
  | (k, x) :: m' => if bool_decide (k = key) then (k, v) :: m' else (k, x) :: map_insert key v m'
  end.

(** [remove]: the last entry takes the place of the removed one. *)
Fixpoint swap_remove (key : bytes) (m : JMap) : JMap :=
  match m with
  | [] => []
  | (k, x) :: m' =>
      if bool_decide (k = key)
      then match last m' with Some e => e :: removelast m' | None => [] end
      else (k, x) :: swap_remove key m'
  end.

(** [PartialEq]: objects are compared as maps. *)
Fixpoint json_same (a b : json) : bool :=
  match a, b with
  | JNull, JNull => true
  | JBool x, JBool y => Bool.eqb x y
  | JNumber x, JNumber y | JString x, JString y => bool_decide (x = y)
  | JArray xs, JArray ys =>
      (fix go (xs ys : list json) : bool :=
         match xs, ys with
         | [], [] => true
         | x :: xs', y :: ys' => json_same x y && go xs' ys'
         | _, _ => false
         end) xs ys
  | JObject xs, JObject ys =>
      (length xs =? length ys)
      && (fix all (xs : list (bytes * json)) : bool :=
            match xs with
            | [] => true
            | (k, x) :: xs' =>
                match map_get k ys with Some y => json_same x y | None => false end && all xs'
            end) xs
  | _, _ => false
  end.

(** The first segment of a path. *)
Definition path_family (path : bytes) : bytes := default [] (head (split_on "/"%char path)).

(** ** Types *)

Definition get_str (key : string) (m : JMap) : option bytes := map_get (lit key) m ≫= as_str.

Definition kind_type (kind : bytes) : option bytes :=
  if bool_decide (kind = lit "fact") then Some (lit "Fact")
  else if bool_decide (kind = lit "note") then Some (lit "Note")
  else if bool_decide (kind = lit "procedure") then Some (lit "Procedure")
  else if bool_decide (kind = lit "decision") then Some (lit "Decision")
  else None.

Definition slot_type (slot : bytes) : option bytes :=
  if bool_decide (slot = lit "invariant") then Some (lit "Invariant")
  else if bool_decide (slot = lit "state") then Some (lit "State")
  else None.

Definition family_types : list (bytes * bytes) :=
  (λ p, (lit (fst p), lit (snd p))) <$>
    [("sessions", "Session Summary"); ("_rules", "Rule"); ("gotchas", "Gotcha");
     ("decisions", "Decision"); ("procedures", "Procedure"); ("concepts", "Concept");
     ("notes", "Note"); ("runbooks", "Runbook"); ("_slots", "State");
     ("_lint", "Lint Report"); ("_pending", "Pending Note")]%string.

Definition family_type (family : bytes) : bytes :=
  default (lit "Note") (snd <$> head (filter (λ p, fst p = family) family_types)).

Definition derive_type (path : bytes) (m : JMap) : bytes :=
  match get_str "kind" m ≫= kind_type with
  | Some t => t
  | None =>
      match get_str "slot_kind" m ≫= slot_type with
      | Some t => t
      | None => family_type (path_family path)
      end
  end.

Definition blank (s : bytes) : bool := bool_decide (trim s = []).

(** ** Conforming *)

Section Okf.
(** [env!("CARGO_PKG_VERSION")], jiff's [Timestamp] parser (nanoseconds),
    [Date] parser (days since the epoch), range and printer. *)
Context (version : bytes).
Context (parse_timestamp : bytes → option Z) (parse_date : bytes → option Z).
Context (timestamp_in_range : Z → bool) (print_timestamp : Z → bytes).

Definition process_actor : bytes := lit "process:ai-memory/" ++ version.

(** An RFC 3339 instant, or a date, which stands for its last microsecond. *)
Definition parse_expires_at_instant (raw : bytes) : option Z :=
  let raw := trim raw in
  match parse_timestamp raw with
  | Some ts => Some ts
  | None =>
      match parse_date raw with
      | Some day =>
          let ts := ((day * 86400 + 86399) * 1000000000 + 999999000)%Z in
          if timestamp_in_range ts then Some ts else None
      | None => None
      end
  end.

Definition is_instant (s : bytes) : bool :=
  match parse_timestamp (trim s) with Some _ => true | None => false end.

Definition fill_type (path : bytes) (m : JMap) : JMap :=
  match get_str "type" m with
  | Some t => if blank t then map_insert (lit "type") (JString (derive_type path m)) m else m
  | None => map_insert (lit "type") (JString (derive_type path m)) m
  end.

Definition fill_description (m : JMap) : JMap :=
  if contains_key (lit "description") m then m
  else match get_str "summary" m with
       | Some summary =>
           if blank summary then m else map_insert (lit "description") (JString summary) m
       | None => m
       end.

Definition fill_stale_after (m : JMap) : JMap :=
  if contains_key (lit "stale_after") m then m
  else match get_str "expires_at" m with
       | Some expires =>
           match parse_expires_at_instant expires with
           | Some instant =>
               map_insert (lit "stale_after")
                 (JString (if is_instant expires then expires else print_timestamp instant)) m
           | None => m
           end
       | None => m
       end.

(** Whether anything changed, and the map. *)
Definition repair_date_only_stale_after_in (m : JMap) : bool * JMap :=
  match map_get (lit "stale_after") m, map_get (lit "expires_at") m with
  | Some (JString stale), Some (JString expires) =>
      if negb (bool_decide (stale = expires)) || is_instant stale then (false, m)
      else match parse_expires_at_instant expires with
           | Some instant =>
               (true, map_insert (lit "stale_after") (JString (print_timestamp instant)) m)
           | None => (false, m)
           end
  | _, _ => (false, m)
  end.

Definition repair_date_only_stale_after (fm : json) : bool * json :=
  match fm with
  | JObject m => let '(changed, m) := repair_date_only_stale_after_in m in (changed, JObject m)
  | _ => (false, fm)
  end.

Definition fill_sources (m : JMap) : JMap :=
  if contains_key (lit "sources") m then m
  else match get_str "session_id" m with
       | Some session =>
           let entry := [(lit "resource", JString (lit "ai-memory://session/" ++ session))] in
           let entry := match get_str "agent" m with
                        | Some agent => map_insert (lit "author") (JString (lit "process:" ++ agent)) entry
                        | None => entry
                        end in
           map_insert (lit "sources") (JArray [JObject entry]) m
       | None => m
       end.

Definition fill_generated (m : JMap) : JMap :=
  let by_ := default process_actor (get_str "generated_by_model" m) in
  match map_get (lit "generated") m with
  | Some (JObject generated) =>
      if contains_key (lit "by") generated then m
      else map_insert (lit "generated") (JObject (map_insert (lit "by") (JString by_) generated)) m
  | _ => map_insert (lit "generated") (JObject [(lit "by", JString by_)]) m
  end.

Definition conform_frontmatter (path : bytes) (frontmatter : json) : json :=
  let m := match frontmatter with JObject m => m | _ => [] end in
  JObject
    (fill_generated
       (fill_sources
          (snd (repair_date_only_stale_after_in
                  (fill_stale_after (fill_description (fill_type path m))))))).
End Okf.

(** ** [generated.at] *)

Definition strip_generated_at (frontmatter : json) : json :=
  match frontmatter with
  | JObject m =>
      match map_get (lit "generated") m with
      | Some (JObject generated) =>
          JObject (map_insert (lit "generated") (JObject (swap_remove (lit "at") generated)) m)
      | _ => frontmatter
      end
  | _ => frontmatter
  end.

Definition stamp_generated_at (frontmatter : json) (at_ : bytes) : json :=
  match frontmatter with
  | JObject m =>
      match map_get (lit "generated") m with
      | Some (JObject generated) =>
          JObject (map_insert (lit "generated")
                     (JObject (map_insert (lit "at") (JString at_) generated)) m)
      | _ => frontmatter
      end
  | _ => frontmatter
  end.

Definition generated_at (frontmatter : json) : option bytes :=
  (json_get (lit "generated") frontmatter ≫= json_get (lit "at")) ≫= as_str.

Definition is_conformant (frontmatter : json) : bool :=
  match json_get (lit "type") frontmatter ≫= as_str with
  | Some t => negb (blank t)
  | None => false
  end.
