(* ===== verification/OkfFacts.v ===== *)
(** * What conforming a frontmatter guarantees

    It is idempotent, keeps every key it is not responsible for, and stamping
    the write time is invisible to the comparison of contents. *)

From S2P Require Export Okf.
Open Scope nat_scope.
Open Scope rust_scope.

(** ** Maps *)

Lemma map_get_cons k x m key :
  map_get key ((k, x) :: m) = if bool_decide (k = key) then Some x else map_get key m.
Proof.
  unfold map_get, json_get. rewrite filter_cons. cbn. case_bool_decide as E.
  - by rewrite decide_True.
  - by rewrite decide_False.
Qed.

Lemma map_get_insert_eq key v m : map_get key (map_insert key v m) = Some v.
Proof.
  induction m as [|[k x] m IH]; cbn [map_insert]; [rewrite map_get_cons; by rewrite bool_decide_eq_true_2|].
  case_bool_decide as E; rewrite map_get_cons.
  - by rewrite bool_decide_eq_true_2.
  - by rewrite bool_decide_eq_false_2.
Qed.

Lemma map_get_insert_ne key key' v m : key ≠ key' → map_get key' (map_insert key v m) = map_get key' m.
Proof.
  intros Hne. induction m as [|[k x] m IH]; cbn [map_insert].
  { rewrite map_get_cons. by rewrite bool_decide_eq_false_2. }
  case_bool_decide as E; rewrite !map_get_cons; [subst k; by rewrite bool_decide_eq_false_2|by rewrite IH].
Qed.

Lemma contains_key_get key m : contains_key key m = bool_decide (is_Some (map_get key m)).
Proof.
  unfold contains_key. induction m as [|[k x] m IH]; [done|]. rewrite map_get_cons, fmap_cons. cbn [fst].
  destruct (decide (k = key)) as [->|Hne].
  - rewrite (bool_decide_eq_true_2 (key = key)), !bool_decide_eq_true_2 by (done || left). done.
  - rewrite (bool_decide_eq_false_2 (k = key)) by done. rewrite <- IH. apply bool_decide_ext.
    rewrite elem_of_cons. split; [by intros [->|?]|by right].
Qed.

Lemma insert_keys key v m :
  fst <$> map_insert key v m = if contains_key key m then fst <$> m else (fst <$> m) ++ [key].
Proof.
  induction m as [|[k x] m IH]; [done|]. cbn [map_insert]. rewrite contains_key_get, map_get_cons.
  case_bool_decide as E.
  - rewrite bool_decide_eq_true_2 by eauto. done.
  - rewrite <- contains_key_get, fmap_cons, IH. cbn. by destruct (contains_key key m).
Qed.

Lemma map_insert_same key v m : map_get key m = Some v → map_insert key v m = m.
Proof.
  induction m as [|[k x] m IH]; [done|]. rewrite map_get_cons. cbn [map_insert].
  case_bool_decide as E; [by intros [= ->]|]. intros H. by rewrite IH.
Qed.

Lemma insert_insert key v w m : map_insert key v (map_insert key w m) = map_insert key v m.
Proof.
  induction m as [|[k x] m IH]; cbn [map_insert]; [by rewrite bool_decide_eq_true_2|].
  case_bool_decide as E; cbn [map_insert]; [by rewrite bool_decide_eq_true_2|].
  by rewrite bool_decide_eq_false_2, IH.
Qed.

(** Values whose objects hold every key once, as serde_json's do. *)
Fixpoint json_ok (j : json) : Prop :=
  match j with
  | JArray items => (fix go (l : list json) : Prop := match l with [] => True | x :: l' => json_ok x ∧ go l' end) items
  | JObject fields =>
      NoDup (fst <$> fields)
      ∧ (fix go (l : list (bytes * json)) : Prop :=
           match l with [] => True | (_, x) :: l' => json_ok x ∧ go l' end) fields
  | _ => True
  end.

Lemma json_ok_array items : json_ok (JArray items) ↔ Forall json_ok items.
Proof.
  cbn. induction items as [|x l IH]; [by split|]. rewrite Forall_cons, <- IH. done.
Qed.

Lemma json_ok_object m : json_ok (JObject m) ↔ NoDup (fst <$> m) ∧ Forall (λ f, json_ok (snd f)) m.
Proof.
  cbn. apply and_iff_compat_l. induction m as [|[k x] l IH]; [by split|]. rewrite Forall_cons, <- IH. done.
Qed.

Lemma map_get_elem key m v : map_get key m = Some v → (key, v) ∈ m.
Proof.
  induction m as [|[k x] m IH]; [done|]. rewrite map_get_cons.
  case_bool_decide as E; [subst k; intros [= ->]; left|right; by apply IH].
Qed.

Lemma elem_map_get key m v : NoDup (fst <$> m) → (key, v) ∈ m → map_get key m = Some v.
Proof.
  induction m as [|[k x] m IH]; [by intros _ ?%elem_of_nil|]. rewrite fmap_cons, map_get_cons.
  intros [Hk Hn]%NoDup_cons [[= -> ->]|Hin]%elem_of_cons; [by rewrite bool_decide_eq_true_2|].
  rewrite bool_decide_eq_false_2; [by apply IH|]. intros ->. apply Hk.
  by apply (list_elem_of_fmap_2' fst m (key, v)).
Qed.

Lemma map_insert_ok key v m : json_ok v → json_ok (JObject m) → json_ok (JObject (map_insert key v m)).
Proof.
  rewrite !json_ok_object. intros Hv [Hn Hf]. split.
  - rewrite insert_keys. unfold contains_key. case_bool_decide as E; [done|].
    apply NoDup_app. split; [done|]. split; [|apply NoDup_singleton].
    by intros k Hk ->%list_elem_of_singleton.
  - clear Hn. induction Hf as [|[k x] m Hx Hf IH]; cbn [map_insert]; [by repeat constructor|].
    case_bool_decide; by constructor.
Qed.

Lemma map_get_ok key m v : json_ok (JObject m) → map_get key m = Some v → json_ok v.
Proof.
  rewrite json_ok_object. intros [_ Hf] H%map_get_elem. rewrite Forall_forall in Hf. by apply (Hf (key, v)).
Qed.

(** ** Comparing *)

(** Two objects with the same entries, whatever their order. *)
Lemma json_same_object xs ys :
  json_same (JObject xs) (JObject ys) = true
  ↔ length xs = length ys
    ∧ ∀ k x, (k, x) ∈ xs → ∃ y, map_get k ys = Some y ∧ json_same x y = true.
Proof.
  cbn [json_same]. rewrite andb_true_iff, Nat.eqb_eq. apply and_iff_compat_l.
  generalize xs at 1 2. clear xs. intros xs. induction xs as [|[k x] xs IH].
  { split; [by intros _ ? ? ?%elem_of_nil|done]. }
  rewrite andb_true_iff, IH. split.
  - intros [Hk H] k' x' [[= -> ->]|Hin]%elem_of_cons; [|by apply H].
    destruct (map_get k ys) as [y|]; [by exists y|done].
  - intros H. split; [|intros k' x' Hin; apply H; by right].
    destruct (H k x ltac:(left)) as (y & -> & ?). done.
Qed.

Lemma json_same_refl j : json_ok j → json_same j j = true.
Proof.
  induction j as [|b|n|s|items IH|fields IH] using json_nested_ind; intros Hok; cbn [json_same];
    [done|by destruct b|by rewrite bool_decide_eq_true_2..| |].
  - apply json_ok_array in Hok. induction IH as [|x l Hx _ IHl]; [done|].
    apply Forall_cons in Hok as [H1 H2]. by rewrite Hx, IHl.
  - apply json_same_object. split; [done|]. intros k x Hin. exists x.
    apply json_ok_object in Hok as [Hn Hf]. split; [by apply elem_map_get|].
    rewrite Forall_forall in IH, Hf. apply (IH (k, x) Hin), (Hf (k, x) Hin).
Qed.

Lemma swap_remove_perm key v m :
  NoDup (fst <$> m) → map_get key m = Some v → (key, v) :: swap_remove key m ≡ₚ m.
Proof.
  induction m as [|[k x] m IH]; [done|]. rewrite map_get_cons, fmap_cons. cbn [swap_remove].
  intros [Hk Hn]%NoDup_cons. case_bool_decide as E.
  - intros [= ->]. subst k. constructor.
    destruct (last m) as [e|] eqn:El; [|by apply last_None in El as ->].
    apply last_Some in El as [m0 ->]. rewrite removelast_last. by rewrite Permutation_app_comm.
  - intros H. rewrite <- (IH Hn H) at 2. constructor.
Qed.

Lemma swap_remove_none key m : map_get key m = None → swap_remove key m = m.
Proof.
  induction m as [|[k x] m IH]; [done|]. rewrite map_get_cons. cbn [swap_remove].
  case_bool_decide as E; [done|]. intros H. by rewrite IH.
Qed.

(** Reordering an object does not change what it compares equal to. *)
Lemma json_same_perm xs xs' ys ys' :
  NoDup (fst <$> ys) → xs ≡ₚ xs' → ys ≡ₚ ys' →
  json_same (JObject xs) (JObject ys) = true → json_same (JObject xs') (JObject ys') = true.
Proof.
  intros Hn Hx Hy. rewrite !json_same_object. intros [Hl H]. split; [by rewrite <- Hx, <- Hy|].
  intros k x Hin. rewrite <- Hx in Hin. destruct (H k x Hin) as (y & Hy' & Hs). exists y. split; [|done].
  apply elem_map_get; [by rewrite <- Hy|]. rewrite <- Hy. by apply map_get_elem.
Qed.

(** ** Conforming *)

Section Conform.
Context (version : bytes).
Context (parse_timestamp : bytes → option Z) (parse_date : bytes → option Z).
Context (timestamp_in_range : Z → bool) (print_timestamp : Z → bytes).
(** jiff reads back what it prints. *)
Hypothesis timestamp_roundtrip : ∀ t, is_instant parse_timestamp (print_timestamp t) = true.

Notation expires_at_instant := (parse_expires_at_instant parse_timestamp parse_date timestamp_in_range).
Notation fill_stale := (fill_stale_after parse_timestamp parse_date timestamp_in_range print_timestamp).
Notation repair :=
  (repair_date_only_stale_after_in parse_timestamp parse_date timestamp_in_range print_timestamp).
Notation conform :=
  (conform_frontmatter version parse_timestamp parse_date timestamp_in_range print_timestamp).

(** The keys of one step; no step reads what another one writes. *)
Definition agrees_off (key : bytes) (m m' : JMap) : Prop := ∀ k, k ≠ key → map_get k m' = map_get k m.

Lemma agrees_insert key v m : agrees_off key m (map_insert key v m).
Proof. intros k Hk. by rewrite map_get_insert_ne. Qed.

Lemma agrees_refl key m : agrees_off key m m.
Proof. done. Qed.

Hint Resolve agrees_insert agrees_refl : core.

(** What a frontmatter must have for a step to have nothing to do. *)
Definition typed (m : JMap) : Prop := ∃ t, get_str "type" m = Some t ∧ blank t = false.

Definition described (m : JMap) : Prop :=
  contains_key (lit "description") m = true
  ∨ ∀ s, get_str "summary" m = Some s → blank s = true.

Definition dated (m : JMap) : Prop :=
  (contains_key (lit "stale_after") m = true
   ∨ ∀ e, get_str "expires_at" m = Some e → expires_at_instant e = None)
  ∧ (∀ s, get_str "stale_after" m = Some s → get_str "expires_at" m = Some s →
       is_instant parse_timestamp s = true ∨ expires_at_instant s = None).

Definition sourced (m : JMap) : Prop :=
  contains_key (lit "sources") m = true ∨ get_str "session_id" m = None.

Definition attributed (m : JMap) : Prop :=
  ∃ g, map_get (lit "generated") m = Some (JObject g) ∧ contains_key (lit "by") g = true.

Lemma family_type_visible family : blank (family_type family) = false.
Proof.
  assert (Hall : forallb (λ t, negb (blank t)) (lit "Note" :: (snd <$> family_types)) = true) by by vm_compute.
  rewrite forallb_forall in Hall. apply negb_true_iff, Hall, list_elem_of_In. unfold family_type.
  destruct (filter _ family_types) as [|[k t] l] eqn:Ef; cbn; [left|right].
  assert (Hin : (k, t) ∈ filter (λ p, fst p = family) family_types) by (rewrite Ef; left).
  apply list_elem_of_filter in Hin as [_ Hin]. by apply (list_elem_of_fmap_2 snd) in Hin.
Qed.

Lemma kind_type_visible kind t : kind_type kind = Some t → blank t = false.
Proof. unfold kind_type. repeat (destruct (bool_decide _); [intros [= <-]; by vm_compute|]). done. Qed.

Lemma slot_type_visible slot t : slot_type slot = Some t → blank t = false.
Proof. unfold slot_type. repeat (destruct (bool_decide _); [intros [= <-]; by vm_compute|]). done. Qed.

Lemma derive_type_visible path m : blank (derive_type path m) = false.
Proof.
  unfold derive_type. destruct (_ ≫= kind_type) as [t|] eqn:Ek.
  { apply bind_Some in Ek as (kind & _ & Hk). by eapply kind_type_visible. }
  destruct (_ ≫= slot_type) as [t|] eqn:Es; [|apply family_type_visible].
  apply bind_Some in Es as (slot & _ & Hs). by eapply slot_type_visible.
Qed.

Lemma get_str_insert key v m : get_str key (map_insert (lit key) (JString v) m) = Some v.
Proof. unfold get_str. by rewrite map_get_insert_eq. Qed.

Lemma get_str_agree key k m m' : agrees_off k m m' → lit key ≠ k → get_str key m' = get_str key m.
Proof. intros H Hne. unfold get_str. by rewrite H. Qed.

Lemma contains_agree key k m m' : agrees_off k m m' → key ≠ k → contains_key key m' = contains_key key m.
Proof. intros H Hne. rewrite !contains_key_get. by rewrite H. Qed.

Lemma contains_insert key v m : contains_key key (map_insert key v m) = true.
Proof. rewrite contains_key_get, map_get_insert_eq. by apply bool_decide_eq_true_2. Qed.

(** Each step establishes its condition, ... *)
Lemma fill_type_typed path m : typed (fill_type path m) ∧ agrees_off (lit "type") m (fill_type path m).
Proof.
  unfold fill_type. destruct (get_str "type" m) as [t|] eqn:E; [destruct (blank t) eqn:Eb|].
  - split; [|auto]. eexists. rewrite get_str_insert. split; [done|apply derive_type_visible].
  - split; [by exists t|auto].
  - split; [|auto]. eexists. rewrite get_str_insert. split; [done|apply derive_type_visible].
Qed.

Lemma fill_description_described m :
  described (fill_description m) ∧ agrees_off (lit "description") m (fill_description m).
Proof.
  unfold fill_description, described. destruct (contains_key _ m) eqn:E; [by auto|].
  destruct (get_str "summary" m) as [s|] eqn:Es.
  - destruct (blank s) eqn:Eb; [|split; [left; apply contains_insert|auto]].
    split; [|auto]. right. intros s'. rewrite Es. by intros [= <-].
  - split; [|auto]. right. intros s'. by rewrite Es.
Qed.

Lemma fill_sources_sourced m : sourced (fill_sources m) ∧ agrees_off (lit "sources") m (fill_sources m).
Proof.
  unfold fill_sources, sourced. destruct (contains_key _ m) eqn:E; [by auto|].
  destruct (get_str "session_id" m) as [s|] eqn:Es; [|by auto].
  split; [left; apply contains_insert|auto].
Qed.

Lemma fill_generated_attributed m :
  attributed (fill_generated version m) ∧ agrees_off (lit "generated") m (fill_generated version m).
Proof.
  assert (Hnew : ∀ by_, attributed (map_insert (lit "generated") (JObject [(lit "by", JString by_)]) m)).
  { intros by_. eexists. rewrite map_get_insert_eq. split; [done|by vm_compute]. }
  unfold fill_generated. destruct (map_get _ m) as [[| | | | |g]|] eqn:E; try by auto.
  destruct (contains_key (lit "by") g) eqn:Eb; [split; [by exists g|auto]|].
  split; [|auto]. eexists. rewrite map_get_insert_eq. split; [done|apply contains_insert].
Qed.

Lemma fill_stale_agrees m : agrees_off (lit "stale_after") m (fill_stale m).
Proof.
  unfold fill_stale_after. destruct (contains_key _ m); [auto|].
  destruct (get_str "expires_at" m) as [e|]; [|auto]. destruct (expires_at_instant e); auto.
Qed.

Lemma repair_agrees m : agrees_off (lit "stale_after") m (snd (repair m)).
Proof.
  unfold repair_date_only_stale_after_in.
  destruct (map_get (lit "stale_after") m) as [[| | |s| |]|]; try apply agrees_refl.
  destruct (map_get (lit "expires_at") m) as [[| | |e| |]|]; try apply agrees_refl.
  destruct (_ || _); [apply agrees_refl|]. destruct (expires_at_instant e); [apply agrees_insert|apply agrees_refl].
Qed.

Lemma map_get_get_str key m s : map_get (lit key) m = Some (JString s) ↔ get_str key m = Some s.
Proof.
  unfold get_str. destruct (map_get _ m) as [[| | |x| |]|]; cbn; split; try done; by intros [= ->].
Qed.

Lemma repair_dated m : dated (snd (repair (fill_stale m))).
Proof.
  assert (Hset : ∀ m t, dated (map_insert (lit "stale_after") (JString (print_timestamp t)) m)).
  { intros m0 t. split; [left; apply contains_insert|]. intros s Hs _. rewrite get_str_insert in Hs.
    injection Hs as <-. left. apply timestamp_roundtrip. }
  set (m1 := fill_stale m).
  assert (H1 : contains_key (lit "stale_after") m1 = true
               ∨ ∀ e, get_str "expires_at" m1 = Some e → expires_at_instant e = None).
  { subst m1. unfold fill_stale_after. destruct (contains_key _ m) eqn:E; [by left|].
    destruct (get_str "expires_at" m) as [e|] eqn:Ee; [|right; by rewrite Ee].
    destruct (expires_at_instant e) eqn:Ei; [left; apply contains_insert|].
    right. intros e'. rewrite Ee. by intros [= <-]. }
  unfold repair_date_only_stale_after_in.
  destruct (map_get (lit "stale_after") m1) as [[| | |s| |]|] eqn:Es;
    try (split; [exact H1|]; intros s' Hs'; unfold get_str in Hs'; cbn [snd] in Hs'; rewrite Es in Hs'; discriminate Hs').
  destruct (map_get (lit "expires_at") m1) as [[| | |e| |]|] eqn:Ee;
    try (split; [exact H1|]; intros s' _ Hs'; unfold get_str in Hs'; cbn [snd] in Hs'; rewrite Ee in Hs'; discriminate Hs').
  apply map_get_get_str in Es, Ee.
  destruct (negb _ || _) eqn:Eg; cbn [snd].
  - split; [exact H1|]. intros s' Hs' He'. rewrite Es in Hs'. rewrite Ee in He'. injection Hs' as <-.
    injection He' as ->. rewrite bool_decide_eq_true_2 in Eg by done. by left.
  - destruct (expires_at_instant e) as [i|] eqn:Ei; cbn [snd]; [apply Hset|].
    split; [exact H1|]. intros s' Hs' He'. rewrite Ee in He'. injection He' as ->. by right.
Qed.

(** ... and has nothing to do where it holds. *)
Lemma typed_fill path m : typed m → fill_type path m = m.
Proof. intros (t & Ht & Hb). unfold fill_type. by rewrite Ht, Hb. Qed.

Lemma described_fill m : described m → fill_description m = m.
Proof.
  unfold fill_description. intros [->|H]; [done|]. destruct (contains_key _ m); [done|].
  destruct (get_str "summary" m) as [s|]; [|done]. by rewrite H.
Qed.

Lemma dated_fill m : dated m → snd (repair (fill_stale m)) = m.
Proof.
  intros [H1 H2]. assert (E : fill_stale m = m).
  { unfold fill_stale_after. destruct H1 as [->|H]; [done|]. destruct (contains_key _ m); [done|].
    destruct (get_str "expires_at" m) as [e|]; [|done]. by rewrite H. }
  rewrite E. unfold repair_date_only_stale_after_in.
  destruct (map_get (lit "stale_after") m) as [[| | |s| |]|] eqn:Es; try done.
  destruct (map_get (lit "expires_at") m) as [[| | |e| |]|] eqn:Ee; try done.
  apply map_get_get_str in Es, Ee. case_bool_decide as Heq; [|done]. subst e.
  destruct (H2 s Es Ee) as [-> | ->]; [done|]. by destruct (is_instant _ s).
Qed.

Lemma sourced_fill m : sourced m → fill_sources m = m.
Proof.
  unfold fill_sources. intros [->|H]; [done|]. destruct (contains_key _ m); [done|]. by rewrite H.
Qed.

Lemma attributed_fill m : attributed m → fill_generated version m = m.
Proof. intros (g & Hg & Hb). unfold fill_generated. by rewrite Hg, Hb. Qed.

Lemma typed_agree k m m' : agrees_off k m m' → lit "type" ≠ k → typed m → typed m'.
Proof. intros H Hne (t & Ht & Hb). exists t. by rewrite (get_str_agree _ _ _ _ H Hne). Qed.

Lemma described_agree k m m' :
  agrees_off k m m' → lit "description" ≠ k → lit "summary" ≠ k → described m → described m'.
Proof.
  intros H H1 H2. unfold described. by rewrite (contains_agree _ _ _ _ H H1), (get_str_agree _ _ _ _ H H2).
Qed.

Lemma dated_agree k m m' :
  agrees_off k m m' → lit "stale_after" ≠ k → lit "expires_at" ≠ k → dated m → dated m'.
Proof.
  intros H H1 H2. unfold dated.
  by rewrite (contains_agree _ _ _ _ H H1), (get_str_agree "stale_after" _ _ _ H H1), (get_str_agree _ _ _ _ H H2).
Qed.

Lemma sourced_agree k m m' :
  agrees_off k m m' → lit "sources" ≠ k → lit "session_id" ≠ k → sourced m → sourced m'.
Proof.
  intros H H1 H2. unfold sourced. by rewrite (contains_agree _ _ _ _ H H1), (get_str_agree _ _ _ _ H H2).
Qed.

(** The steps one after the other. *)
Definition steps (path : bytes) (m : JMap) : JMap :=
  fill_generated version (fill_sources (snd (repair (fill_stale (fill_description (fill_type path m)))))).

Lemma conform_steps path fm :
  conform path fm = JObject (steps path (match fm with JObject m => m | _ => [] end)).
Proof. unfold conform_frontmatter, steps. reflexivity. Qed.

Lemma stale_agrees m : agrees_off (lit "stale_after") m (snd (repair (fill_stale m))).
Proof. intros k Hk. by rewrite repair_agrees, fill_stale_agrees. Qed.

Lemma steps_conformed path m :
  typed (steps path m) ∧ described (steps path m) ∧ dated (steps path m) ∧ sourced (steps path m)
  ∧ attributed (steps path m).
Proof.
  unfold steps. set (m1 := fill_type path m). set (m2 := fill_description m1).
  set (m3 := snd (repair (fill_stale m2))). set (m4 := fill_sources m3).
  destruct (fill_type_typed path m) as [C1 A1]. destruct (fill_description_described m1) as [C2 A2].
  pose proof (repair_dated m2) as C3. pose proof (stale_agrees m2) as A3.
  destruct (fill_sources_sourced m3) as [C4 A4]. destruct (fill_generated_attributed m4) as [C5 A5].
  fold m1 m2 m3 m4 in C1, A1, C2, A2, C3, A3, C4, A4.
  pose proof (typed_agree _ _ _ A2 ltac:(discriminate) C1) as T2.
  pose proof (typed_agree _ _ _ A3 ltac:(discriminate) T2) as T3.
  pose proof (typed_agree _ _ _ A4 ltac:(discriminate) T3) as T4.
  pose proof (described_agree _ _ _ A3 ltac:(discriminate) ltac:(discriminate) C2) as D3.
  pose proof (described_agree _ _ _ A4 ltac:(discriminate) ltac:(discriminate) D3) as D4.
  pose proof (dated_agree _ _ _ A4 ltac:(discriminate) ltac:(discriminate) C3) as S4.
  split; [by eapply typed_agree|]. split; [by eapply described_agree|]. split; [by eapply dated_agree|].
  split; [by eapply sourced_agree|done].
Qed.

Lemma steps_idem path m : steps path (steps path m) = steps path m.
Proof.
  destruct (steps_conformed path m) as (C1 & C2 & C3 & C4 & C5). unfold steps at 1.
  rewrite (typed_fill path (steps path m)) by done. rewrite described_fill, dated_fill by done.
  by rewrite sourced_fill, attributed_fill.
Qed.

(** What conforming may do to an entry that is already there. *)
Definition entry_kept (m m' : JMap) (k : bytes) (v : json) : Prop :=
  map_get k m' = Some v
  ∨ (k = lit "type" ∧ ∀ t, v = JString t → blank t = true)
  ∨ (k = lit "stale_after" ∧ ∃ e, v = JString e ∧ get_str "expires_at" m = Some e
       ∧ is_instant parse_timestamp e = false)
  ∨ (k = lit "generated" ∧ ∀ g, v = JObject g →
       contains_key (lit "by") g = false
       ∧ ∃ by_, map_get k m' = Some (JObject (map_insert (lit "by") by_ g))).

Lemma steps_entry path m k v : map_get k m = Some v → entry_kept m (steps path m) k v.
Proof.
  intros Hk. unfold steps, entry_kept. set (m1 := fill_type path m). set (m2 := fill_description m1).
  set (m3 := snd (repair (fill_stale m2))). set (m4 := fill_sources m3).
  destruct (fill_type_typed path m) as [_ A1]. destruct (fill_description_described m1) as [_ A2].
  pose proof (stale_agrees m2) as A3. destruct (fill_sources_sourced m3) as [_ A4].
  destruct (fill_generated_attributed m4) as [_ A5]. fold m1 m2 m3 m4 in A1, A2, A3, A4.
  destruct (decide (k = lit "generated")) as [->|Hg].
  { assert (H4 : map_get (lit "generated") m4 = Some v) by (rewrite A4, A3, A2, A1; done).
    unfold fill_generated. rewrite H4.
    destruct v as [| | | | |g]; try (right; right; right; split; [done|]; by intros g').
    destruct (contains_key (lit "by") g) eqn:Eb; [by left|]. right; right; right. split; [done|].
    intros g' [= <-]. split; [done|]. eexists. by rewrite map_get_insert_eq. }
  rewrite A5 by done.
  destruct (decide (k = lit "sources")) as [->|Hs].
  { left. assert (H3 : map_get (lit "sources") m3 = Some v) by (rewrite A3, A2, A1; done).
    unfold m4, fill_sources. rewrite contains_key_get, H3, bool_decide_eq_true_2 by eauto. done. }
  rewrite A4 by done.
  destruct (decide (k = lit "stale_after")) as [->|Ha].
  { assert (H2 : map_get (lit "stale_after") m2 = Some v) by (rewrite A2, A1; done).
    assert (E : fill_stale m2 = m2).
    { unfold fill_stale_after. by rewrite contains_key_get, H2, bool_decide_eq_true_2 by eauto. }
    unfold m3. rewrite E. unfold repair_date_only_stale_after_in. rewrite H2.
    destruct v as [| | |s| |]; try by left.
    destruct (map_get (lit "expires_at") m2) as [[| | |e| |]|] eqn:Ee; try by left.
    case_bool_decide as Heq; [|by left]. subst e. cbn [negb orb].
    destruct (is_instant parse_timestamp s) eqn:Ei; [by left|].
    right; right; left. split; [done|]. exists s. split; [done|]. split; [|done].
    apply map_get_get_str in Ee. rewrite <- Ee. unfold get_str. by rewrite A2, A1. }
  rewrite A3 by done.
  destruct (decide (k = lit "description")) as [->|Hd].
  { left. assert (H1 : map_get (lit "description") m1 = Some v) by (rewrite A1; done).
    unfold m2, fill_description. rewrite contains_key_get, H1, bool_decide_eq_true_2 by eauto. done. }
  rewrite A2 by done.
  destruct (decide (k = lit "type")) as [->|Ht]; [|left; by rewrite A1].
  unfold m1, fill_type, get_str. rewrite Hk. destruct v as [| | |s| |]; cbn [mbind option_bind as_str];
    try (right; left; split; [done|]; by intros t).
  destruct (blank s) eqn:Eb; [|by left]. right; left. split; [done|]. by intros t [= <-].
Qed.

(** Objects stay objects with every key once. *)
Lemma steps_ok path m : json_ok (JObject m) → json_ok (JObject (steps path m)).
Proof.
  intros Hok. unfold steps.
  assert (H1 : json_ok (JObject (fill_type path m))).
  { unfold fill_type. destruct (get_str _ _) as [t|]; [destruct (blank t)|]; by try apply map_insert_ok. }
  revert H1. generalize (fill_type path m). clear m Hok. intros m Hok.
  assert (H1 : json_ok (JObject (fill_description m))).
  { unfold fill_description. destruct (contains_key _ _); [done|]. destruct (get_str _ _) as [t|]; [|done].
    destruct (blank t); by try apply map_insert_ok. }
  revert H1. generalize (fill_description m). clear m Hok. intros m Hok.
  assert (H1 : json_ok (JObject (fill_stale m))).
  { unfold fill_stale_after. destruct (contains_key _ _); [done|]. destruct (get_str _ _) as [t|]; [|done].
    destruct (expires_at_instant t); by try apply map_insert_ok. }
  revert H1. generalize (fill_stale m). clear m Hok. intros m Hok.
  assert (H1 : json_ok (JObject (snd (repair m)))).
  { unfold repair_date_only_stale_after_in.
    destruct (map_get (lit "stale_after") m) as [[| | |s| |]|]; try done.
    destruct (map_get (lit "expires_at") m) as [[| | |e| |]|]; try done.
    destruct (_ || _); [done|]. destruct (expires_at_instant e); by try apply map_insert_ok. }
  revert H1. generalize (snd (repair m)). clear m Hok. intros m Hok.
  assert (H1 : json_ok (JObject (fill_sources m))).
  { unfold fill_sources. destruct (contains_key _ _); [done|]. destruct (get_str _ _) as [s|]; [|done].
    apply map_insert_ok; [|done]. apply json_ok_array, Forall_singleton.
    destruct (get_str "agent" m) as [a|]; [apply map_insert_ok; [done|]|];
      apply json_ok_object; (split; [apply NoDup_singleton|by apply Forall_singleton]). }
  revert H1. generalize (fill_sources m). clear m Hok. intros m Hok. unfold fill_generated.
  assert (Hnew : ∀ by_, json_ok (JObject (map_insert (lit "generated") (JObject [(lit "by", JString by_)]) m))).
  { intros by_. apply map_insert_ok; [|done]. apply json_ok_object.
    split; [apply NoDup_singleton|by apply Forall_singleton]. }
  destruct (map_get _ m) as [[| | | | |g]|] eqn:E; try done. destruct (contains_key _ g); [done|].
  apply map_insert_ok; [|done]. apply map_insert_ok; [done|]. by eapply map_get_ok.
Qed.
Lemma conform_ok path fm : json_ok fm → json_ok (conform path fm).
Proof.
  rewrite conform_steps. intros Hok. apply steps_ok. destruct fm as [| | | | |m]; [..|exact Hok];
    (apply json_ok_object; split; constructor).
Qed.

End Conform.

(** ** The write time *)

Lemma map_insert_perm key s v m :
  NoDup (fst <$> m) → map_get key m = Some v → map_insert key s m ≡ₚ (key, s) :: swap_remove key m.
Proof.
  induction m as [|[k x] m IH]; [done|]. rewrite map_get_cons, fmap_cons. cbn [map_insert swap_remove].
  intros [Hk Hn]%NoDup_cons. case_bool_decide as E; intros H.
  - subst k. constructor. destruct (last m) as [e|] eqn:El; [|by apply last_None in El as ->].
    apply last_Some in El as [m0 ->]. rewrite removelast_last. by rewrite Permutation_app_comm.
  - rewrite (IH Hn H). constructor.
Qed.

Lemma map_insert_new key s m : map_get key m = None → map_insert key s m = m ++ [(key, s)].
Proof.
  induction m as [|[k x] m IH]; [done|]. rewrite map_get_cons. cbn [map_insert].
  case_bool_decide as E; [done|]. intros H. cbn. by rewrite IH.
Qed.

Lemma swap_remove_insert key s g :
  NoDup (fst <$> g) → swap_remove key (map_insert key s g) ≡ₚ swap_remove key g.
Proof.
  intros Hn.
  assert (Hn' : NoDup (fst <$> map_insert key s g)).
  { rewrite insert_keys. unfold contains_key. case_bool_decide as E; [done|]. apply NoDup_app.
    split; [done|]. split; [by intros k Hk ->%list_elem_of_singleton|apply NoDup_singleton]. }
  pose proof (swap_remove_perm key s _ Hn' (map_get_insert_eq key s g)) as Hp.
  apply (Permutation.Permutation_cons_inv (a:=(key, s))). etrans; [exact Hp|].
  destruct (map_get key g) as [v|] eqn:E; [by eapply map_insert_perm|].
  rewrite (map_insert_new _ _ _ E), (swap_remove_none _ _ E). symmetry. apply Permutation_cons_append.
Qed.

Lemma swap_remove_ok key g : json_ok (JObject g) → json_ok (JObject (swap_remove key g)).
Proof.
  destruct (map_get key g) as [v|] eqn:E; [|by rewrite swap_remove_none]. rewrite !json_ok_object. intros [Hn Hf].
  pose proof (swap_remove_perm key v g Hn E) as Hp. split.
  - rewrite <- Hp in Hn. rewrite fmap_cons in Hn. by apply NoDup_cons in Hn as [_ ?].
  - rewrite <- Hp in Hf. by apply Forall_cons in Hf as [_ ?].
Qed.

Lemma json_same_insert key a b m :
  json_ok (JObject m) → json_same a b = true →
  json_same (JObject (map_insert key a m)) (JObject (map_insert key b m)) = true.
Proof.
  rewrite json_ok_object. intros [Hn Hf] Hab. apply json_same_object. split.
  - pose proof (f_equal length (insert_keys key a m)) as Ha. pose proof (f_equal length (insert_keys key b m)) as Hb.
    rewrite length_fmap in Ha, Hb. congruence.
  - intros k x Hin.
    assert (Hget : map_get k (map_insert key a m) = Some x).
    { apply elem_map_get; [|done]. rewrite insert_keys. unfold contains_key.
      case_bool_decide as E; [done|]. apply NoDup_app. split; [done|].
      split; [by intros k' Hk ->%list_elem_of_singleton|apply NoDup_singleton]. }
    destruct (decide (key = k)) as [->|Hne].
    + rewrite map_get_insert_eq in Hget. injection Hget as <-. exists b. by rewrite map_get_insert_eq.
    + rewrite map_get_insert_ne in Hget |- * by done. exists x. split; [done|].
      apply json_same_refl. rewrite Forall_forall in Hf. by apply (Hf (k, x)), map_get_elem.
Qed.

(** Stamping changes nothing the comparison of contents sees. *)
Lemma stamp_invisible fm at_ :
  json_ok fm → json_same (strip_generated_at (stamp_generated_at fm at_)) (strip_generated_at fm) = true.
Proof.
  intros Hok. destruct fm as [| | | | |m]; try by apply json_same_refl. cbn [stamp_generated_at].
  destruct (map_get (lit "generated") m) as [[| | | | |g]|] eqn:E;
    try (cbn [strip_generated_at]; rewrite E; by apply json_same_refl).
  cbn [strip_generated_at]. rewrite E, map_get_insert_eq, insert_insert. apply json_same_insert; [done|].
  pose proof (map_get_ok _ _ _ Hok E) as Hg. pose proof (proj1 (json_ok_object g) Hg) as [Hn _].
  pose proof (swap_remove_ok (lit "at") g Hg) as Hs.
  eapply (json_same_perm _ _ _ _ (proj1 (proj1 (json_ok_object _) Hs))); [|done|by apply json_same_refl].
  symmetry. by apply swap_remove_insert.
Qed.

Lemma generated_ok f m :
  (∀ g, json_ok (JObject g) → json_ok (JObject (f g))) → json_ok (JObject m) →
  ∀ g, map_get (lit "generated") m = Some (JObject g) →
  json_ok (JObject (map_insert (lit "generated") (JObject (f g)) m)).
Proof. intros Hf Hok g Hg. apply map_insert_ok; [|done]. apply Hf. by eapply map_get_ok. Qed.

Lemma strip_ok fm : json_ok fm → json_ok (strip_generated_at fm).
Proof.
  intros Hok. destruct fm as [| | | | |m]; try done. cbn [strip_generated_at].
  destruct (map_get _ m) as [[| | | | |g]|] eqn:E; try done.
  by apply (generated_ok (swap_remove (lit "at"))); [intros g'; apply swap_remove_ok|..].
Qed.

Lemma stamp_ok fm at_ : json_ok fm → json_ok (stamp_generated_at fm at_).
Proof.
  intros Hok. destruct fm as [| | | | |m]; try done. cbn [stamp_generated_at].
  destruct (map_get _ m) as [[| | | | |g]|] eqn:E; try done.
  by apply (generated_ok (map_insert (lit "at") (JString at_))); [intros g'; by apply map_insert_ok|..].
Qed.

(** ** The claim *)

Lemma typed_conformant m : typed m → is_conformant (JObject m) = true.
Proof.
  intros (t & Ht & Hb). unfold is_conformant. unfold get_str, map_get in Ht. rewrite Ht. by rewrite Hb.
Qed.

(** Conforming a frontmatter to the open format is stable: conforming again
    changes not a byte, every page gets a type, keys stay unique, no entry is
    lost, and an entry that is there is kept as it is, but for a blank type, an
    expiry date that an older build copied, and the actor missing from
    [generated]. *)
Theorem conform_frontmatter_stable version parse_timestamp parse_date timestamp_in_range print_timestamp
    path fm :
  (∀ t, is_instant parse_timestamp (print_timestamp t) = true) →
  let conform := conform_frontmatter version parse_timestamp parse_date timestamp_in_range print_timestamp in
  conform path (conform path fm) = conform path fm ∧ is_conformant (conform path fm) = true
  ∧ (json_ok fm → json_ok (conform path fm))
  ∧ ∀ m, fm = JObject m →
      ∃ m', conform path fm = JObject m'
        ∧ ∀ k v, map_get k m = Some v → entry_kept parse_timestamp m m' k v.
Proof.
  intros Hrt conform. unfold conform. rewrite !conform_steps.
  destruct (steps_conformed version parse_timestamp parse_date timestamp_in_range print_timestamp Hrt path
              match fm with JObject m => m | _ => [] end) as (Ht & _).
  split; [f_equal; by apply steps_idem|]. split; [by apply typed_conformant|]. split.
  - rewrite <- conform_steps. by apply conform_ok.
  - intros m ->. eexists. split; [reflexivity|]. intros k v Hk. by apply steps_entry.
Qed.

(** A summary that expires on a day. *)
Definition okf_print (t : Z) : bytes := lit "2026-10-01T23:59:59.999999Z".
Definition okf_parse (s : bytes) : option Z := if bool_decide (s = okf_print 0) then Some 0%Z else None.
Definition okf_date (s : bytes) : option Z := if bool_decide (s = lit "2026-10-01") then Some 20727%Z else None.

Definition okf_page : json :=
  JObject [(lit "type", JString []); (lit "expires_at", JString (lit "2026-10-01"));
           (lit "session_id", JString (lit "0192")); (lit "tier", JString (lit "episodic"))].

Definition okf_conform : json :=
  conform_frontmatter (lit "2.4.0") okf_parse okf_date (λ _, true) okf_print (lit "sessions/0192.md") okf_page.

Example okf_conform_example :
  (fst <$> match okf_conform with JObject m => m | _ => [] end)
  = lit <$> ["type"; "expires_at"; "session_id"; "tier"; "stale_after"; "sources"; "generated"]%string
  ∧ json_get (lit "type") okf_conform = Some (JString (lit "Session Summary"))
  ∧ json_get (lit "stale_after") okf_conform = Some (JString (okf_print 0)).
Proof. by vm_compute. Qed.

Lemma conform_frontmatter_stable_witness :
  conform_frontmatter (lit "2.4.0") okf_parse okf_date (λ _, true) okf_print (lit "sessions/0192.md") okf_conform
  = okf_conform ∧ is_conformant okf_conform = true.
Proof.
  unfold okf_conform.
  assert (Hrt : ∀ t, is_instant okf_parse (okf_print t) = true) by (intros t; vm_compute; exact eq_refl).
  pose proof (conform_frontmatter_stable (lit "2.4.0") okf_parse okf_date (λ _, true) okf_print
                (lit "sessions/0192.md") okf_page Hrt) as H. cbv zeta in H.
  split; [exact (proj1 H)|exact (proj1 (proj2 H))].
Defined.
