(* ===== verification/Pages.v ===== *)
(** * Pages of the wiki, in the store

    Models the page transactions of [crates/ai-memory-store/src/ops.rs] (write,
    conditional write, batch, reindex from disk, soft delete, delete, the sweep
    of old tombstones) with the page types of [crates/ai-memory-core/src]
    [page.rs] and [ids.rs], over the tables [pages], [links], [entities],
    [entity_page_links], [page_evidence], [pages_cjk_fts] and
    [purged_sessions].  A page is never updated in place: a new version
    supersedes the latest one.

    The workspaces and projects are those of [StoreTables] and do not change
    here.  The columns a page write leaves at their defaults (access counters,
    salience, embeddings) and the [pages_fts] index, a trigger's copy of title,
    body and path, are left out. *)

From S2P Require Export OpsBase Okf.
From S2P Require Import FtsQuery.
Open Scope nat_scope.
Open Scope rust_scope.

Definition PageId := N.
Definition EntityId := N.

(** ** Page types *)

Inductive Tier := Working | Episodic | Semantic | Procedural.

Definition tier_as_str (t : Tier) : string :=
  match t with
  | Working => "working" | Episodic => "episodic" | Semantic => "semantic" | Procedural => "procedural"
  end.

Definition tier_from_str (s : string) : option Tier :=
  if bool_decide (s = "working") then Some Working
  else if bool_decide (s = "episodic") then Some Episodic
  else if bool_decide (s = "semantic") then Some Semantic
  else if bool_decide (s = "procedural") then Some Procedural
  else None.

Inductive PageEvidenceKind := EvSession | EvObservation | EvFeedback | EvReconsolidation.

Definition evidence_as_str (k : PageEvidenceKind) : string :=
  match k with
  | EvSession => "session" | EvObservation => "observation" | EvFeedback => "feedback"
  | EvReconsolidation => "reconsolidation"
  end.

Record PageEvidence := mkPageEvidence { ev_kind : PageEvidenceKind; ev_source : bytes }.

Inductive Relation := Causes | Fixes | Contradicts.

Definition relation_as_str (r : Relation) : string :=
  match r with Causes => "causes" | Fixes => "fixes" | Contradicts => "contradicts" end.

Definition relation_parse (s : string) : option Relation :=
  if bool_decide (s = "causes") then Some Causes
  else if bool_decide (s = "fixes") then Some Fixes
  else if bool_decide (s = "contradicts") then Some Contradicts
  else None.

#[export] Instance relation_eq_dec : EqDecision Relation.
Proof. solve_decision. Defined.

(** A link as it is written: [\[\[path\]\]], [\[\[project:path\]\]] or
    [\[\[workspace/project:path\]\]]. *)
Record LinkTarget := mkLinkTarget {
  lt_workspace : option string;
  lt_project : option string;
  lt_path : bytes;
  lt_relation : option Relation;
}.

Definition is_cross_project (l : LinkTarget) : bool := bool_decide (is_Some (lt_project l)).

Record NewPage := mkNewPage {
  np_workspace : WorkspaceId;
  np_project : ProjectId;
  np_path : bytes;
  np_title : bytes;
  np_body : bytes;
  np_tier : Tier;
  np_frontmatter : json;
  np_pinned : bool;
  np_links : list LinkTarget;
  np_author : option UserId;
  np_expires_at : option Z;
  np_entities : list bytes;
  np_evidence : list PageEvidence;
}.

(** ** Tables *)

Record PageRow := mkPageRow {
  p_id : PageId;
  p_workspace : WorkspaceId;
  p_project : ProjectId;
  p_path : bytes;
  p_path_search : bytes;
  p_title : bytes;
  p_tier : string;
  p_body : bytes;
  p_body_sha256 : bytes;
  p_frontmatter : bytes;
  p_latest : bool;
  p_supersedes : option PageId;
  p_pinned : bool;
  p_author : option UserId;
  p_created_at : Z;
  p_updated_at : Z;
  p_expires_at : option Z;
  p_valid_from : option Z;
  p_valid_to : option Z;
  p_superseded_at : option Z;
  p_compacted_at : option Z;
}.

Record LinkRow := mkLinkRow {
  l_from : PageId;
  l_to : option PageId;
  l_workspace : option string;
  l_project : option string;
  l_path : bytes;
  l_type : string;
}.

Record EntityRow := mkEntityRow {
  en_id : EntityId;
  en_workspace : WorkspaceId;
  en_project : ProjectId;
  en_name : bytes;
  en_created_at : Z;
}.

Record EntityLink := mkEntityLink {
  el_entity : EntityId;
  el_page : PageId;
  el_valid_from : Z;
  el_superseded_at : option Z;
}.

Record EvidenceRow := mkEvidenceRow {
  er_page : PageId;
  er_kind : string;
  er_source : bytes;
  er_created_at : Z;
}.

(** The CJK index terms of a page's title, body and path. *)
Definition CjkRow : Type := PageId * (bytes * bytes * bytes).

Record PageDb := mkPageDb {
  pd_scopes : Db;
  pages : list PageRow;
  links : list LinkRow;
  entities : list EntityRow;
  entity_links : list EntityLink;
  evidence : list EvidenceRow;
  cjk_index : list CjkRow;
  purged_sessions : list (SessionId * (WorkspaceId * ProjectId));
  page_log : list OpsAudit;
}.

Definition with_pages (d : PageDb) (x : list PageRow) : PageDb :=
  mkPageDb (pd_scopes d) x (links d) (entities d) (entity_links d) (evidence d) (cjk_index d)
    (purged_sessions d) (page_log d).
Definition with_links (d : PageDb) (x : list LinkRow) : PageDb :=
  mkPageDb (pd_scopes d) (pages d) x (entities d) (entity_links d) (evidence d) (cjk_index d)
    (purged_sessions d) (page_log d).
Definition with_entities (d : PageDb) (x : list EntityRow) : PageDb :=
  mkPageDb (pd_scopes d) (pages d) (links d) x (entity_links d) (evidence d) (cjk_index d)
    (purged_sessions d) (page_log d).
Definition with_entity_links (d : PageDb) (x : list EntityLink) : PageDb :=
  mkPageDb (pd_scopes d) (pages d) (links d) (entities d) x (evidence d) (cjk_index d)
    (purged_sessions d) (page_log d).
Definition with_evidence (d : PageDb) (x : list EvidenceRow) : PageDb :=
  mkPageDb (pd_scopes d) (pages d) (links d) (entities d) (entity_links d) x (cjk_index d)
    (purged_sessions d) (page_log d).
Definition with_cjk_index (d : PageDb) (x : list CjkRow) : PageDb :=
  mkPageDb (pd_scopes d) (pages d) (links d) (entities d) (entity_links d) (evidence d) x
    (purged_sessions d) (page_log d).
Definition with_page_log (d : PageDb) (x : list OpsAudit) : PageDb :=
  mkPageDb (pd_scopes d) (pages d) (links d) (entities d) (entity_links d) (evidence d) (cjk_index d)
    (purged_sessions d) x.

(** The rows of a path. *)
Definition at_path (ws : WorkspaceId) (pj : ProjectId) (path : bytes) (r : PageRow) : bool :=
  bool_decide (p_workspace r = ws) && bool_decide (p_project r = pj) && bool_decide (p_path r = path).

Definition latest_at (ws : WorkspaceId) (pj : ProjectId) (path : bytes) (r : PageRow) : bool :=
  at_path ws pj path r && p_latest r.

Definition is_page (id : PageId) (r : PageRow) : bool := bool_decide (p_id r = id).

(** [query_row] with [optional]. *)
Definition first_row {A} (p : A → bool) (rows : list A) : option A := head (List.filter p rows).

(** ** What the store takes from elsewhere *)

(** jiff, SHA-256, serde_json, the Unicode tables and the uuid crate. *)
Record PageEnv := mkPageEnv {
  pe_version : bytes;
  pe_parse_timestamp : bytes → option Z;
  pe_parse_date : bytes → option Z;
  pe_timestamp_in_range : Z → bool;
  pe_print_timestamp : Z → bytes;
  (** [strftime] of a microsecond timestamp. *)
  pe_format_seconds : Z → bytes;
  pe_sha256 : bytes → bytes;
  pe_json_print : json → bytes;
  pe_json_parse : bytes → option json;
  pe_lowercase : bytes → bytes;
  pe_is_alphanumeric : utf8_char → bool;
  pe_nfc : bytes → bytes;
  pe_parse_session : bytes → option SessionId;
  pe_session_text : SessionId → bytes;
}.

Section Pages.
Context (env : PageEnv).

Definition conform (path : bytes) (fm : json) : json :=
  conform_frontmatter (pe_version env) (pe_parse_timestamp env) (pe_parse_date env)
    (pe_timestamp_in_range env) (pe_print_timestamp env) path fm.

(** The key a case-folding, normalizing file system keeps a path under. *)
Definition portable_page_key (path : bytes) : bytes := pe_nfc env (pe_lowercase env path).

(** ** Entities *)

Definition MAX_ENTITY_LEN : nat := 64.
Definition MAX_ENTITIES_PER_PAGE : nat := 10.

(** One word; [n] characters so far. *)
Fixpoint push_word (word : list utf8_char) (collapsed : bytes) (n : nat) : option (bytes * nat) :=
  match word with
  | [] => Some (collapsed, n)
  | c :: word' =>
      if is_control c then None
      else if MAX_ENTITY_LEN <? S n then None
      else push_word word' (collapsed ++ c) (S n)
  end.

Fixpoint collapse_words (words : list bytes) (collapsed : bytes) (n : nat) : option bytes :=
  match words with
  | [] => Some collapsed
  | word :: words' =>
      let '(collapsed, n) :=
        if bool_decide (collapsed = []) then (collapsed, n) else (collapsed ++ lit " ", S n) in
      match push_word (chars word) collapsed n with
      | Some (collapsed, n) => collapse_words words' collapsed n
      | None => None
      end
  end.

Definition normalize_entity (raw : bytes) : option bytes :=
  match collapse_words (split_whitespace raw) [] 0 with
  | Some collapsed =>
      let normalized := pe_lowercase env collapsed in
      if bool_decide (normalized = []) || (MAX_ENTITY_LEN <? char_count normalized) then None
      else Some normalized
  | None => None
  end.

(** The loop with its [break] at the cap. *)
Fixpoint normalize_entities_loop (raw : list bytes) (seen : gset bytes) (out : list bytes) : list bytes :=
  match raw with
  | [] => out
  | item :: raw' =>
      match normalize_entity item with
      | None => normalize_entities_loop raw' seen out
      | Some name =>
          if bool_decide (name ∈ seen) then normalize_entities_loop raw' seen out
          else
            let out := out ++ [name] in
            if MAX_ENTITIES_PER_PAGE <=? length out then out
            else normalize_entities_loop raw' ({[name]} ∪ seen) out
      end
  end.

Definition normalize_entities (raw : list bytes) : list bytes := normalize_entities_loop raw ∅ [].

(** ** Pieces of a write *)

(** [str::replace] of the listed characters by a space. *)
Definition to_spaces (cs : list ascii) (s : bytes) : bytes :=
  (λ a, if existsb (Ascii.eqb a) cs then " "%char else a) <$> s.

Definition path_search_text (path : bytes) : bytes :=
  let segments := to_spaces ["/"; "."]%char path in
  let words := to_spaces ["-"; "_"]%char segments in
  segments ++ lit " " ++ words.

Definition stamped_frontmatter (conformed : json) (now : Z) : bytes :=
  let conformed :=
    match generated_at conformed with
    | Some _ => conformed
    | None =>
        let ts := if pe_timestamp_in_range env (now * 1000) then now else 0%Z in
        stamp_generated_at conformed (pe_format_seconds env ts)
    end in
  pe_json_print env conformed.

(** The [compacted] marker of the frontmatter, as the column's time. *)
Definition compacted_at (conformed : json) (now : Z) : option Z :=
  match json_get (lit "compacted") conformed with
  | Some (JBool true) => Some now
  | _ => None
  end.

(** [INSERT INTO pages]: the pairing trigger, the primary key and the unique
    index of latest paths. *)
Definition insert_page_row (f : faults) (d : PageDb) (row : PageRow) : result PageDb OpsError :=
  let? rows := statement f (OsPage PsInsert 0) (pages d ++ [row]) in
  bail_if negb (existsb (λ p, bool_decide (pt_id p = p_project row)
                              && bool_decide (pt_workspace p = p_workspace row)) (projects (pd_scopes d)))
    with OpsSqlite "pages.workspace_id does not match the project's workspace";;
  bail_if existsb (is_page (p_id row)) (pages d) with OpsSqlite "UNIQUE constraint failed: pages.id";;
  bail_if p_latest row && existsb (latest_at (p_workspace row) (p_project row) (p_path row)) (pages d)
    with OpsSqlite "UNIQUE constraint failed: index 'idx_pages_latest_path'";;
  Ok (with_pages d rows).

Definition index_page_cjk (f : faults) (d : PageDb) (id : PageId) (title body path_search : bytes)
    : result PageDb OpsError :=
  let terms := cjk_index_terms (pe_is_alphanumeric env) in
  let? rows := statement f (OsPage PsCjk 0)
    (cjk_index d ++ [(id, (terms title, terms body, terms path_search))]) in
  Ok (with_cjk_index d rows).

(** ** Links *)

Definition DEFAULT_WORKSPACE_NAME : string := "default".
Definition GLOBAL_SCOPE_PROJECT : string := "_global".

Definition link_workspace_name (l : LinkTarget) : option string :=
  match lt_workspace l, lt_project l with
  | None, Some project =>
      if bool_decide (project = GLOBAL_SCOPE_PROJECT) then Some DEFAULT_WORKSPACE_NAME else None
  | name, _ => name
  end.

Definition workspace_by_name (d : Db) (name : string) : option WorkspaceId :=
  fst <$> first_row (λ w, bool_decide (snd w = name)) (workspaces d).

Definition project_by_name (d : Db) (ws : WorkspaceId) (name : string) : option ProjectId :=
  pt_id <$> first_row (λ p, bool_decide (pt_workspace p = ws) && bool_decide (pt_name p = name)) (projects d).

Definition latest_page_id (d : PageDb) (ws : WorkspaceId) (pj : ProjectId) (path : bytes) : option PageId :=
  p_id <$> first_row (latest_at ws pj path) (pages d).

Definition latest_page_id_for_link (f : faults) (i : nat) (d : PageDb) (page : NewPage) (l : LinkTarget)
    : result (option PageId) OpsError :=
  let? scope :=
    match lt_project l with
    | None => Ok (Some (np_workspace page, np_project page))
    | Some project =>
        let? ws :=
          match link_workspace_name l with
          | None => Ok (Some (np_workspace page))
          | Some name => statement f (OsPage PsLinkWorkspace i) (workspace_by_name (pd_scopes d) name)
          end in
        match ws with
        | None => Ok None
        | Some ws =>
            let? pj := statement f (OsPage PsLinkProject i) (project_by_name (pd_scopes d) ws project) in
            Ok (pair ws <$> pj)
        end
    end in
  match scope with
  | None => Ok None
  | Some (ws, pj) => statement f (OsPage PsLinkTarget i) (latest_page_id d ws pj (lt_path l))
  end.

Definition link_type (l : LinkTarget) : string :=
  match lt_relation l with Some r => relation_as_str r | None => "references" end.

(** The dedupe key: the table's primary key but for the source page. *)
Definition link_key (l : LinkTarget) : option string * option string * bytes * option Relation :=
  (link_workspace_name l, lt_project l, lt_path l, lt_relation l).

Fixpoint insert_links (f : faults) (i : nat) (d : PageDb) (from : PageId) (page : NewPage)
    (seen : list (option string * option string * bytes * option Relation)) (ls : list LinkTarget)
    : result PageDb OpsError :=
  match ls with
  | [] => Ok d
  | l :: ls' =>
      if bool_decide (link_key l ∈ seen) then insert_links f (S i) d from page seen ls'
      else
        let? to := latest_page_id_for_link f i d page l in
        let? rows := statement f (OsPage PsLink i)
          (links d ++ [mkLinkRow from to (link_workspace_name l) (lt_project l) (lt_path l) (link_type l)]) in
        insert_links f (S i) (with_links d rows) from page (link_key l :: seen) ls'
  end.

Definition replace_links_in_tx (f : faults) (d : PageDb) (from : PageId) (page : NewPage)
    : result PageDb OpsError :=
  let? rows := statement f (OsPage PsDropLinks 0)
    (List.filter (λ l, negb (bool_decide (l_from l = from))) (links d)) in
  insert_links f 0 (with_links d rows) from page [] (np_links page).

(** ** Entities of a version *)

Definition same_entity (ws : WorkspaceId) (pj : ProjectId) (name : bytes) (e : EntityRow) : bool :=
  bool_decide (en_workspace e = ws) && bool_decide (en_project e = pj) && bool_decide (en_name e = name).

(** [INSERT ... ON CONFLICT (workspace_id, project_id, name) DO UPDATE ...
    RETURNING id]. *)
Definition upsert_entity (f : faults) (i : nat) (d : PageDb) (ws : WorkspaceId) (pj : ProjectId)
    (name : bytes) (fresh : EntityId) (now : Z) : result (EntityId * PageDb) OpsError :=
  let? found := statement f (OsPage PsEntity i) (first_row (same_entity ws pj name) (entities d)) in
  bail_if negb (existsb (λ p, bool_decide (pt_id p = pj) && bool_decide (pt_workspace p = ws))
                  (projects (pd_scopes d)))
    with OpsSqlite "entities workspace/project mismatch";;
  match found with
  | Some e => Ok (en_id e, d)
  | None =>
      bail_if existsb (λ e, bool_decide (en_id e = fresh)) (entities d)
        with OpsSqlite "UNIQUE constraint failed: entities.id";;
      Ok (fresh, with_entities d (entities d ++ [mkEntityRow fresh ws pj name now]))
  end.

(** [INSERT ... ON CONFLICT (entity_id, page_id) DO NOTHING], its scope trigger
    included. *)
Definition insert_entity_link (f : faults) (i : nat) (d : PageDb) (entity : EntityId) (page : PageId)
    (valid_from : Z) : result PageDb OpsError :=
  let? _u := statement f (OsPage PsEntityLink i) tt in
  bail_if negb (existsb (λ e, bool_decide (en_id e = entity)
                              && existsb (λ r, is_page page r && bool_decide (en_workspace e = p_workspace r)
                                               && bool_decide (en_project e = p_project r)) (pages d))
                  (entities d))
    with OpsSqlite "entity/page scope mismatch";;
  if existsb (λ l, bool_decide (el_entity l = entity) && bool_decide (el_page l = page)) (entity_links d)
  then Ok d
  else Ok (with_entity_links d (entity_links d ++ [mkEntityLink entity page valid_from None])).

Fixpoint attach_names (f : faults) (i : nat) (d : PageDb) (id : PageId) (page : NewPage)
    (fresh : nat → EntityId) (version_created_at now : Z) (names : list bytes) : result PageDb OpsError :=
  match names with
  | [] => Ok d
  | name :: names' =>
      let? res := upsert_entity f i d (np_workspace page) (np_project page) name (fresh i) now in
      let? d := insert_entity_link f i (snd res) (fst res) id version_created_at in
      attach_names f (S i) d id page fresh version_created_at now names'
  end.

(** [clock] is the second reading of the clock, for new entity rows. *)
Definition attach_entities_in_tx (f : faults) (d : PageDb) (id : PageId) (page : NewPage)
    (fresh : nat → EntityId) (version_created_at clock : Z) : result PageDb OpsError :=
  if bool_decide (np_entities page = []) then Ok d
  else attach_names f 0 d id page fresh version_created_at clock (normalize_entities (np_entities page)).

Fixpoint insert_evidence (f : faults) (i : nat) (d : PageDb) (id : PageId) (now : Z)
    (ev : list PageEvidence) : result PageDb OpsError :=
  match ev with
  | [] => Ok d
  | e :: ev' =>
      let row := mkEvidenceRow id (evidence_as_str (ev_kind e)) (ev_source e) now in
      let? rows := statement f (OsPage PsEvidence i)
        (if existsb (λ r, bool_decide (er_page r = id) && bool_decide (er_kind r = er_kind row)
                          && bool_decide (er_source r = er_source row)) (evidence d)
         then evidence d else evidence d ++ [row]) in
      insert_evidence f (S i) (with_evidence d rows) id now ev'
  end.

Definition insert_evidence_in_tx (f : faults) (d : PageDb) (id : PageId) (ev : list PageEvidence) (now : Z)
    : result PageDb OpsError := insert_evidence f 0 d id now ev.

(** ** Incoming links *)

Definition point_to (id : PageId) (l : LinkRow) : LinkRow :=
  mkLinkRow (l_from l) (Some id) (l_workspace l) (l_project l) (l_path l) (l_type l).

(** [EXISTS (SELECT 1 FROM pages from_page ...)]. *)
Definition from_page_where (p : PageRow → bool) (d : PageDb) (l : LinkRow) : bool :=
  existsb (λ r, is_page (l_from l) r && p r) (pages d).

Definition bare_incoming (d : PageDb) (ws : WorkspaceId) (pj : ProjectId) (path : bytes) (l : LinkRow) : bool :=
  bool_decide (l_project l = None) && bool_decide (l_path l = path)
  && from_page_where (λ r, bool_decide (p_workspace r = ws) && bool_decide (p_project r = pj)) d l.

Definition named_incoming (d : PageDb) (project workspace : string) (ws : WorkspaceId) (path : bytes)
    (l : LinkRow) : bool :=
  bool_decide (l_project l = Some project) && bool_decide (l_path l = path)
  && (bool_decide (l_workspace l = Some workspace)
      || bool_decide (l_workspace l = None)
         && from_page_where (λ r, bool_decide (p_workspace r = ws)) d l).

Definition global_incoming (path : bytes) (l : LinkRow) : bool :=
  bool_decide (l_project l = Some GLOBAL_SCOPE_PROJECT) && bool_decide (l_path l = path)
  && bool_decide (l_workspace l = None).

Definition project_name (d : Db) (pj : ProjectId) : option string :=
  pt_name <$> first_row (λ p, bool_decide (pt_id p = pj)) (projects d).

Definition workspace_name_of (d : Db) (ws : WorkspaceId) : option string :=
  snd <$> first_row (λ w, bool_decide (fst w = ws)) (workspaces d).

Definition refresh_incoming_links_for_path (f : faults) (d : PageDb) (page : NewPage) (latest : PageId)
    : result PageDb OpsError :=
  let path := np_path page in
  let? rows := statement f (OsPage PsIncomingBare 0)
    (update_where (bare_incoming d (np_workspace page) (np_project page) path) (point_to latest) (links d)) in
  let d := with_links d rows in
  let? project := statement f (OsPage PsProjectName 0) (project_name (pd_scopes d) (np_project page)) in
  let? workspace := statement f (OsPage PsWorkspaceName 0) (workspace_name_of (pd_scopes d) (np_workspace page)) in
  match project, workspace with
  | Some project, Some workspace =>
      let? rows := statement f (OsPage PsIncomingNamed 0)
        (update_where (named_incoming d project workspace (np_workspace page) path) (point_to latest)
           (links d)) in
      let d := with_links d rows in
      if bool_decide (project = GLOBAL_SCOPE_PROJECT) && bool_decide (workspace = DEFAULT_WORKSPACE_NAME)
      then
        let? rows := statement f (OsPage PsIncomingGlobal 0)
          (update_where (global_incoming path) (point_to latest) (links d)) in
        Ok (with_links d rows)
      else Ok d
  | _, _ => Ok d
  end.

(** ** Writing a version *)

(** The ids a write draws. *)
Record FreshIds := mkFreshIds { fr_page : PageId; fr_entity : nat → EntityId }.

Definition new_row (page : NewPage) (id : PageId) (frontmatter : bytes) (supersedes : option PageId)
    (compacted : option Z) (now : Z) : PageRow :=
  mkPageRow id (np_workspace page) (np_project page) (np_path page) (path_search_text (np_path page))
    (np_title page) (tier_as_str (np_tier page)) (np_body page) (pe_sha256 env (np_body page)) frontmatter
    true supersedes (np_pinned page) (np_author page) now now (np_expires_at page) (Some now) None None compacted.

(** What follows the [INSERT] of a version. *)
Definition finish_version (f : faults) (ids : FreshIds) (clock : Z) (d : PageDb) (page : NewPage)
    (op : string) (now : Z) : result (PageId * PageDb) OpsError :=
  let id := fr_page ids in
  let? d := index_page_cjk f d id (np_title page) (np_body page) (path_search_text (np_path page)) in
  let? d := replace_links_in_tx f d id page in
  let? d := attach_entities_in_tx f d id page (fr_entity ids) now clock in
  let? d := refresh_incoming_links_for_path f d page id in
  let? d := insert_evidence_in_tx f d id (np_evidence page) now in
  let? log := audit_with_detail f OsAudit op (np_workspace page) (np_project page) (Some id)
                (np_author page) now "{}" (page_log d) in
  Ok (id, with_page_log d log).

Definition unlatest_row (now : Z) (r : PageRow) : PageRow :=
  mkPageRow (p_id r) (p_workspace r) (p_project r) (p_path r) (p_path_search r) (p_title r) (p_tier r)
    (p_body r) (p_body_sha256 r) (p_frontmatter r) false (p_supersedes r) (p_pinned r) (p_author r)
    (p_created_at r) (p_updated_at r) (p_expires_at r) (p_valid_from r) (Some now) (p_superseded_at r) (p_compacted_at r).

Definition close_window (now : Z) (l : EntityLink) : EntityLink :=
  mkEntityLink (el_entity l) (el_page l) (el_valid_from l) (Some now).

Definition open_window_of (id : PageId) (l : EntityLink) : bool :=
  bool_decide (el_page l = id) && bool_decide (el_superseded_at l = None).

Definition revive_row (r : PageRow) : PageRow :=
  mkPageRow (p_id r) (p_workspace r) (p_project r) (p_path r) (p_path_search r) (p_title r) (p_tier r)
    (p_body r) (p_body_sha256 r) (p_frontmatter r) (p_latest r) (p_supersedes r) (p_pinned r) (p_author r)
    (p_created_at r) (p_updated_at r) (p_expires_at r) (p_valid_from r) (p_valid_to r) None (p_compacted_at r).

(** The latest version already says what the page says. *)
Definition same_content (existing : PageRow) (page : NewPage) (conformed : json) : bool :=
  let existing_fm := default JNull (pe_json_parse env (p_frontmatter existing)) in
  bool_decide (p_body_sha256 existing = pe_sha256 env (np_body page))
  && json_same (strip_generated_at existing_fm) (strip_generated_at conformed)
  && bool_decide (p_title existing = np_title page)
  && bool_decide (p_tier existing = tier_as_str (np_tier page))
  && bool_decide (p_pinned existing = np_pinned page).

Definition colliding_live_path (f : faults) (d : PageDb) (page : NewPage) : result (option bytes) OpsError :=
  let key := portable_page_key (np_path page) in
  let? rows := statement f (OsPage PsCollisions 0)
    (List.filter (λ r, bool_decide (p_workspace r = np_workspace page)
                       && bool_decide (p_project r = np_project page) && p_latest r
                       && negb (bool_decide (p_path r = np_path page))) (pages d)) in
  Ok (p_path <$> first_row (λ r, bool_decide (portable_page_key (p_path r) = key)) rows).

(** A version retired by the sweep or by the reconcile pass. *)
Definition tombstone_at (ws : WorkspaceId) (pj : ProjectId) (path : bytes) (r : PageRow) : bool :=
  at_path ws pj path r && negb (p_latest r) && bool_decide (is_Some (p_superseded_at r)).

(** [ORDER BY superseded_at DESC]. *)
Definition later_tombstone (a b : PageRow) : bool :=
  match p_superseded_at a, p_superseded_at b with
  | Some x, Some y => (y <? x)%Z
  | Some _, None => true
  | None, _ => false
  end.

Context (order : OrderBy PageRow).

Definition most_recent_tombstone_at_path (f : faults) (d : PageDb) (page : NewPage)
    : result (option PageId) OpsError :=
  statement f (OsPage PsTombstone 0)
    (p_id <$> head (order later_tombstone
                      (List.filter (tombstone_at (np_workspace page) (np_project page) (np_path page)) (pages d)))).

Definition supersede_latest (f : faults) (ids : FreshIds) (clock : Z) (d : PageDb) (page : NewPage)
    (existing : PageRow) (conformed : json) (now : Z) : result (PageId * PageDb) OpsError :=
  let frontmatter := stamped_frontmatter conformed now in
  let? rows := statement f (OsPage PsUnlatest 0)
    (update_where (is_page (p_id existing)) (unlatest_row now) (pages d)) in
  let d := with_pages d rows in
  let? windows := statement f (OsPage PsCloseWindows 0)
    (update_where (open_window_of (p_id existing)) (close_window now) (entity_links d)) in
  let d := with_entity_links d windows in
  let? d := insert_page_row f d (new_row page (fr_page ids) frontmatter (Some (p_id existing))
                                   (compacted_at conformed now) now) in
  finish_version f ids clock d page "supersede_page" now.

Definition create_or_resurrect (f : faults) (ids : FreshIds) (clock : Z) (d : PageDb) (page : NewPage)
    (conformed : json) (now : Z) : result (PageId * PageDb) OpsError :=
  let? colliding := colliding_live_path f d page in
  match colliding with
  | Some existing => Err (PagePathCollides (np_path page) existing)
  | None =>
      let? tombstone := most_recent_tombstone_at_path f d page in
      let? rows := match tombstone with
                   | Some id => statement f (OsPage PsRevive 0) (update_where (is_page id) revive_row (pages d))
                   | None => Ok (pages d)
                   end in
      let d := with_pages d rows in
      let frontmatter := stamped_frontmatter conformed now in
      let? d := insert_page_row f d (new_row page (fr_page ids) frontmatter tombstone
                                       (compacted_at conformed now) now) in
      finish_version f ids clock d page
        (match tombstone with Some _ => "resurrect_tombstoned_page" | None => "create_page" end) now
  end.

(** [clock]: what a later reading of the clock in the transaction gives. *)
Definition upsert_page_in_tx (f : faults) (ids : FreshIds) (clock : Z) (d : PageDb) (page : NewPage)
    (now : Z) : result (PageId * PageDb) OpsError :=
  let conformed := conform (np_path page) (np_frontmatter page) in
  let? existing := statement f (OsPage PsExisting 0)
    (first_row (latest_at (np_workspace page) (np_project page) (np_path page)) (pages d)) in
  match existing with
  | Some existing =>
      if same_content existing page conformed
      then
        let? d := insert_evidence_in_tx f d (p_id existing) (np_evidence page) now in
        Ok (p_id existing, d)
      else supersede_latest f ids clock d page existing conformed now
  | None => create_or_resurrect f ids clock d page conformed now
  end.

Definition upsert_page (f : faults) (ids : FreshIds) (clock : Z) (d : PageDb) (page : NewPage) (now : Z)
    : result (PageId * PageDb) OpsError :=
  let? _u := statement f OsBegin tt in
  let? res := upsert_page_in_tx f ids clock d page now in
  let? _u := statement f OsCommit tt in
  Ok res.

(** The pages of a batch, one after the other; each draws ids and may fail on
    its own. *)
Fixpoint upsert_all (f : nat → faults) (ids : nat → FreshIds) (clock : nat → Z) (i : nat) (d : PageDb)
    (batch : list NewPage) (now : Z) : result (list PageId * PageDb) OpsError :=
  match batch with
  | [] => Ok ([], d)
  | page :: rest =>
      let? res := upsert_page_in_tx (f i) (ids i) (clock i) d page now in
      let? rest := upsert_all f ids clock (S i) (snd res) rest now in
      Ok (fst res :: fst rest, snd rest)
  end.

Definition upsert_pages_batch (tx : faults) (f : nat → faults) (ids : nat → FreshIds) (clock : nat → Z)
    (d : PageDb) (batch : list NewPage) (now : Z) : result (list PageId * PageDb) OpsError :=
  let? _u := statement tx OsBegin tt in
  let? res := upsert_all f ids clock 0 d batch now in
  let? _u := statement tx OsCommit tt in
  Ok res.

(** ** Conditional writes *)

Inductive PagePrecondition := Absent | Latest (id : PageId).

Inductive ConditionalUpsert := Upserted (id : PageId) | Mismatch (current : option PageId).

Inductive ConditionalBatchUpsert :=
  | BatchUpserted (ids : list PageId)
  | BatchMismatch (index : nat) (current : option PageId).

Definition holds (precondition : PagePrecondition) (current : option PageId) : bool :=
  match precondition with
  | Absent => bool_decide (current = None)
  | Latest expected => bool_decide (current = Some expected)
  end.

Definition latest_page_id_in_tx (f : faults) (d : PageDb) (page : NewPage)
    : result (option PageId) OpsError :=
  statement f (OsPage PsLatest 0) (latest_page_id d (np_workspace page) (np_project page) (np_path page)).

Definition upsert_page_if (f : faults) (ids : FreshIds) (clock : Z) (d : PageDb) (page : NewPage)
    (precondition : PagePrecondition) (now : Z) : result (ConditionalUpsert * PageDb) OpsError :=
  let? _u := statement f OsBegin tt in
  let? current := latest_page_id_in_tx f d page in
  if negb (holds precondition current) then Ok (Mismatch current, d)
  else
    let? res := upsert_page_in_tx f ids clock d page now in
    let? _u := statement f OsCommit tt in
    Ok (Upserted (fst res), snd res).

Fixpoint check_preconditions (f : nat → faults) (i : nat) (d : PageDb)
    (batch : list (NewPage * PagePrecondition)) : result (option (nat * option PageId)) OpsError :=
  match batch with
  | [] => Ok None
  | (page, precondition) :: rest =>
      let? current := latest_page_id_in_tx (f i) d page in
      if negb (holds precondition current) then Ok (Some (i, current))
      else check_preconditions f (S i) d rest
  end.

Definition upsert_pages_batch_if (tx : faults) (f : nat → faults) (ids : nat → FreshIds)
    (clock : nat → Z) (d : PageDb) (batch : list (NewPage * PagePrecondition)) (now : Z)
    : result (ConditionalBatchUpsert * PageDb) OpsError :=
  let? _u := statement tx OsBegin tt in
  let? failed := check_preconditions f 0 d batch in
  match failed with
  | Some (index, current) => Ok (BatchMismatch index current, d)
  | None =>
      let? res := upsert_all f ids clock 0 d (fst <$> batch) now in
      let? _u := statement tx OsCommit tt in
      Ok (BatchUpserted (fst res), snd res)
  end.

(** ** Reindexing from disk *)

Definition strip_md (s : bytes) : option bytes :=
  if bool_decide (drop (length s - 3) s = lit ".md") && (3 <=? length s)
  then Some (take (length s - 3) s) else None.

(** The session whose summary lives at the path. *)
Definition session_of_path (path : bytes) : option SessionId :=
  (strip_prefix (lit "sessions/") path ≫= strip_md) ≫= pe_parse_session env.

(** [json_extract(frontmatter_json, '$.session_id') IS NOT ?]: anything but
    that very text, a missing key included. *)
Definition session_id_is_not (text : bytes) (r : PageRow) : bool :=
  negb (bool_decide ((pe_json_parse env (p_frontmatter r) ≫= json_get (lit "session_id"))
                     = Some (JString text))).

Definition purged_page_blocked (d : PageDb) (page : NewPage) (session : SessionId) : bool :=
  let text := pe_session_text env session in
  let owns_file := bool_decide ((json_get (lit "session_id") (np_frontmatter page) ≫= as_str) = Some text) in
  existsb (λ s, bool_decide (fst s = session) && bool_decide (snd s = (np_workspace page, np_project page)))
    (purged_sessions d)
  && (owns_file
      || negb (existsb (λ r, latest_at (np_workspace page) (np_project page) (np_path page) r
                             && session_id_is_not text r) (pages d))).

Definition upsert_page_from_disk (f : faults) (ids : FreshIds) (clock : Z) (d : PageDb) (page : NewPage)
    (now : Z) : result (PageId * PageDb) OpsError :=
  let? _u := statement f OsBegin tt in
  let? _u := match session_of_path (np_path page) with
             | Some session =>
                 let? blocked := statement f (OsPage PsPurged 0) (purged_page_blocked d page session) in
                 if blocked : bool then Err (SessionPurged (pe_session_text env session)) else Ok tt
             | None => Ok tt
             end in
  let? res := upsert_page_in_tx f ids clock d page now in
  let? _u := statement f OsCommit tt in
  Ok res.

(** ** Retiring and deleting *)

Definition tombstone_row (now : Z) (r : PageRow) : PageRow :=
  mkPageRow (p_id r) (p_workspace r) (p_project r) (p_path r) (p_path_search r) (p_title r) (p_tier r)
    (p_body r) (p_body_sha256 r) (p_frontmatter r) false (p_supersedes r) (p_pinned r) (p_author r)
    (p_created_at r) (p_updated_at r) (p_expires_at r) (p_valid_from r) (Some now) (Some now) (p_compacted_at r).

Definition soft_delete_if_latest (op : string) (f : faults) (d : PageDb) (ws : WorkspaceId)
    (pj : ProjectId) (path : bytes) (expected : PageId) (now : Z) : result (bool * PageDb) OpsError :=
  let? _u := statement f OsBegin tt in
  let hit r := is_page expected r && latest_at ws pj path r in
  let? rows := statement f (OsPage PsUnlatest 0) (update_where hit (tombstone_row now) (pages d)) in
  let affected := count_where hit (pages d) in
  let? d := if affected =? 0 then Ok (with_pages d rows)
            else
              let? windows := statement f (OsPage PsCloseWindows 0)
                (update_where (open_window_of expected) (close_window now) (entity_links d)) in
              let? log := audit_with_detail f OsAudit op ws pj (Some expected) None now "{}" (page_log d) in
              Ok (with_page_log (with_entity_links (with_pages d rows) windows) log) in
  let? _u := statement f OsCommit tt in
  Ok (negb (affected =? 0), d).

Definition soft_delete_for_decay_if_latest := soft_delete_if_latest "soft_delete_for_decay".
Definition soft_delete_for_reconcile_if_latest := soft_delete_if_latest "soft_delete_for_reconcile".

(** [DELETE FROM pages]: what refers to a deleted row goes with it, or loses
    the reference. *)
Definition orphaned (dead : list PageId) (id : option PageId) : option PageId :=
  match id with Some x => if bool_decide (x ∈ dead) then None else Some x | None => None end.

Definition drop_supersedes (dead : list PageId) (r : PageRow) : PageRow :=
  mkPageRow (p_id r) (p_workspace r) (p_project r) (p_path r) (p_path_search r) (p_title r) (p_tier r)
    (p_body r) (p_body_sha256 r) (p_frontmatter r) (p_latest r) (orphaned dead (p_supersedes r)) (p_pinned r)
    (p_author r) (p_created_at r) (p_updated_at r) (p_expires_at r) (p_valid_from r) (p_valid_to r) (p_superseded_at r)
    (p_compacted_at r).

Definition unlink (dead : list PageId) (l : LinkRow) : LinkRow :=
  mkLinkRow (l_from l) (orphaned dead (l_to l)) (l_workspace l) (l_project l) (l_path l) (l_type l).

Definition alive {A} (dead : list PageId) (page : A → PageId) (x : A) : bool :=
  negb (bool_decide (page x ∈ dead)).

Definition delete_pages (dead : list PageId) (d : PageDb) : PageDb :=
  mkPageDb (pd_scopes d)
    (drop_supersedes dead <$> List.filter (alive dead p_id) (pages d))
    (unlink dead <$> List.filter (alive dead l_from) (links d))
    (entities d)
    (List.filter (alive dead el_page) (entity_links d))
    (List.filter (alive dead er_page) (evidence d))
    (List.filter (alive dead fst) (cjk_index d))
    (purged_sessions d) (page_log d).

(** The entities of a project that no page mentions any more. *)
Definition unmentioned (d : PageDb) (ws : WorkspaceId) (pj : ProjectId) (e : EntityRow) : bool :=
  bool_decide (en_workspace e = ws) && bool_decide (en_project e = pj)
  && negb (existsb (λ l, bool_decide (el_entity l = en_id e)) (entity_links d)).

Definition drop_unmentioned (d : PageDb) (ws : WorkspaceId) (pj : ProjectId) : PageDb :=
  with_entities d (List.filter (λ e, negb (unmentioned d ws pj e)) (entities d)).

Definition delete_page_inner (f : faults) (d : PageDb) (ws : WorkspaceId) (pj : ProjectId) (path : bytes)
    (expected : option PageId) (author : option UserId) (now : Z) : result (bool * PageDb) OpsError :=
  let? _u := statement f OsBegin tt in
  let? page := statement f (OsPage PsLatest 0) (latest_page_id d ws pj path) in
  if match expected with Some id => negb (bool_decide (page = Some id)) | None => false end
  then Ok (false, d)
  else
    let dead := p_id <$> List.filter (at_path ws pj path) (pages d) in
    let? d := statement f (OsPage PsDelete 0) (delete_pages dead d) in
    let? d := if length dead =? 0 then Ok d
              else
                let? d := statement f (OsPage PsDropEntities 0) (drop_unmentioned d ws pj) in
                let? log := audit_with_detail f OsAudit "delete_page" ws pj page author now "{}" (page_log d) in
                Ok (with_page_log d log) in
    let? _u := statement f OsCommit tt in
    Ok (negb (length dead =? 0), d).

Definition delete_page (f : faults) (d : PageDb) (ws : WorkspaceId) (pj : ProjectId) (path : bytes)
    (author : option UserId) (now : Z) : result (bool * PageDb) OpsError :=
  delete_page_inner f d ws pj path None author now.

Definition delete_page_if_latest (f : faults) (d : PageDb) (ws : WorkspaceId) (pj : ProjectId)
    (path : bytes) (expected : PageId) (author : option UserId) (now : Z)
    : result (bool * PageDb) OpsError :=
  delete_page_inner f d ws pj path (Some expected) author now.

(** ** The sweep of old tombstones *)

(** An eligible root of the recursive query. *)
Definition sweepable (ws : WorkspaceId) (pj : ProjectId) (path : bytes) (cutoff : Z) (r : PageRow) : bool :=
  tombstone_at ws pj path r
  && match p_superseded_at r with Some t => (t <=? cutoff)%Z | None => false end.

(** [WITH RECURSIVE decay_chain]: a version has one predecessor, so the set is
    built by following [supersedes]; [UNION] stops at an id already there. *)
Fixpoint decay_chain (fuel : nat) (d : PageDb) (ws : WorkspaceId) (pj : ProjectId) (path : bytes)
    (seen : list PageId) (id : PageId) : list PageId :=
  match fuel with
  | 0 => seen
  | S fuel' =>
      if bool_decide (id ∈ seen) then seen
      else
        let seen := seen ++ [id] in
        match first_row (is_page id) (pages d) ≫= p_supersedes with
        | Some parent =>
            if existsb (λ r, is_page parent r && at_path ws pj path r) (pages d)
            then decay_chain fuel' d ws pj path seen parent
            else seen
        | None => seen
        end
  end.

Definition hard_delete_decayed_page_chain (f : faults) (d : PageDb) (ws : WorkspaceId) (pj : ProjectId)
    (path : bytes) (tombstone : PageId) (expected_latest : option PageId) (cutoff now : Z)
    : result (nat * PageDb) OpsError :=
  let? _u := statement f OsBegin tt in
  let? current := statement f (OsPage PsLatest 0) (latest_page_id d ws pj path) in
  if negb (bool_decide (current = expected_latest)) then Ok (0, d)
  else
    let dead := if existsb (λ r, is_page tombstone r && sweepable ws pj path cutoff r) (pages d)
                then decay_chain (S (length (pages d))) d ws pj path [] tombstone else [] in
    let n := count_where (λ r, bool_decide (p_id r ∈ dead)) (pages d) in
    let? d := statement f (OsPage PsDelete 0) (delete_pages dead d) in
    let? d := if n =? 0 then Ok d
              else
                let? d := statement f (OsPage PsDropEntities 0) (drop_unmentioned d ws pj) in
                let? log := audit_with_detail f OsAudit "hard_delete_decayed" ws pj (Some tombstone) None
                              now "{}" (page_log d) in
                Ok (with_page_log d log) in
    let? _u := statement f OsCommit tt in
    Ok (n, d).

(** ** The writer's commands *)

Inductive PageCmd :=
  | UpsertPage (page : NewPage)
  | UpsertPageFromDisk (page : NewPage)
  | UpsertPageIf (page : NewPage) (precondition : PagePrecondition)
  | UpsertPageBatch (batch : list NewPage)
  | UpsertPageBatchIf (batch : list (NewPage * PagePrecondition))
  | DeletePage (ws : WorkspaceId) (pj : ProjectId) (path : bytes) (author : option UserId)
  | DeletePageIfLatest (ws : WorkspaceId) (pj : ProjectId) (path : bytes) (expected : PageId)
      (author : option UserId)
  | SoftDeleteForDecayIfLatest (ws : WorkspaceId) (pj : ProjectId) (path : bytes) (expected : PageId)
  | SoftDeleteForReconcileIfLatest (ws : WorkspaceId) (pj : ProjectId) (path : bytes) (expected : PageId)
  | HardDeleteDecayedPageChain (ws : WorkspaceId) (pj : ProjectId) (path : bytes) (tombstone : PageId)
      (expected_latest : option PageId) (cutoff : Z).

Inductive PageReply :=
  | ReWritten (id : PageId)
  | ReConditional (r : ConditionalUpsert)
  | ReBatch (ids : list PageId)
  | ReConditionalBatch (r : ConditionalBatchUpsert)
  | ReDone
  | ReHit (hit : bool)
  | ReDeleted (n : nat)
  | RePageError (e : OpsError).

(** A command as the writer runs it: the time, the later clock readings, the
    ids it draws and the faults it meets, per page of a batch. *)
Record PageTurn := mkPageTurn {
  pt_cmd : PageCmd;
  pt_now : Z;
  pt_clock : nat → Z;
  pt_fresh : nat → FreshIds;
  pt_faults : faults;
  pt_page_faults : nat → faults;
}.

Definition page_reply {A} (d : PageDb) (rep : A → PageReply) (r : result (A * PageDb) OpsError)
    : PageReply * PageDb :=
  match r with Ok (a, d') => (rep a, d') | Err e => (RePageError e, d) end.

Definition page_step (d : PageDb) (t : PageTurn) : PageReply * PageDb :=
  let f := pt_faults t in
  let now := pt_now t in
  match pt_cmd t with
  | UpsertPage page => page_reply d ReWritten (upsert_page f (pt_fresh t 0) (pt_clock t 0) d page now)
  | UpsertPageFromDisk page =>
      page_reply d ReWritten (upsert_page_from_disk f (pt_fresh t 0) (pt_clock t 0) d page now)
  | UpsertPageIf page precondition =>
      page_reply d ReConditional (upsert_page_if f (pt_fresh t 0) (pt_clock t 0) d page precondition now)
  | UpsertPageBatch batch =>
      page_reply d ReBatch (upsert_pages_batch f (pt_page_faults t) (pt_fresh t) (pt_clock t) d batch now)
  | UpsertPageBatchIf batch =>
      page_reply d ReConditionalBatch
        (upsert_pages_batch_if f (pt_page_faults t) (pt_fresh t) (pt_clock t) d batch now)
  | DeletePage ws pj path author => page_reply d (λ _, ReDone) (delete_page f d ws pj path author now)
  | DeletePageIfLatest ws pj path expected author =>
      page_reply d ReHit (delete_page_if_latest f d ws pj path expected author now)
  | SoftDeleteForDecayIfLatest ws pj path expected =>
      page_reply d ReHit (soft_delete_for_decay_if_latest f d ws pj path expected now)
  | SoftDeleteForReconcileIfLatest ws pj path expected =>
      page_reply d ReHit (soft_delete_for_reconcile_if_latest f d ws pj path expected now)
  | HardDeleteDecayedPageChain ws pj path tombstone expected_latest cutoff =>
      page_reply d ReDeleted (hard_delete_decayed_page_chain f d ws pj path tombstone expected_latest cutoff now)
  end.

Fixpoint page_run (d : PageDb) (turns : list PageTurn) : list PageReply * PageDb :=
  match turns with
  | [] => ([], d)
  | t :: turns' =>
      let '(reply, d') := page_step d t in
      let '(replies, final) := page_run d' turns' in
      (reply :: replies, final)
  end.
End Pages.
