(* ===== verification/PagesFacts.v ===== *)
(** * The versions of a page

    What the rows of [pages] look like in every database the page transactions
    make: one chain of versions per path, headed by the latest version or by
    the tombstone of a retired one. *)

From S2P Require Export Pages.
From S2P Require Import OkfFacts.
Open Scope nat_scope.
Open Scope rust_scope.

Lemma is_page_true id r : is_page id r = true ↔ p_id r = id.
Proof. unfold is_page. apply bool_decide_eq_true. Qed.

Lemma at_path_true ws pj path r :
  at_path ws pj path r = true ↔ p_workspace r = ws ∧ p_project r = pj ∧ p_path r = path.
Proof. unfold at_path. rewrite !andb_true_iff, !bool_decide_eq_true. tauto. Qed.

Lemma latest_at_true ws pj path r :
  latest_at ws pj path r = true ↔
  (p_workspace r = ws ∧ p_project r = pj ∧ p_path r = path) ∧ p_latest r = true.
Proof. unfold latest_at. by rewrite andb_true_iff, at_path_true. Qed.

Lemma first_row_Some {A} (p : A → bool) rows r : first_row p rows = Some r → r ∈ rows ∧ p r = true.
Proof.
  unfold first_row. destruct (List.filter p rows) as [|x l] eqn:E; [done|]. intros [= ->].
  apply elem_filter. rewrite E. left.
Qed.

Lemma first_row_None {A} (p : A → bool) rows : first_row p rows = None ↔ ∀ r, r ∈ rows → p r = false.
Proof.
  unfold first_row. rewrite <- count_where_0. unfold count_where. by destruct (List.filter p rows).
Qed.

Lemma first_row_unique {A} (p : A → bool) rows r :
  r ∈ rows → p r = true → (∀ r', r' ∈ rows → p r' = true → r' = r) → first_row p rows = Some r.
Proof.
  intros Hr Hp Hu. destruct (first_row p rows) as [r'|] eqn:E.
  - apply first_row_Some in E as [Hr' Hp']. f_equal. by apply Hu.
  - rewrite first_row_None in E. by rewrite (E r Hr) in Hp.
Qed.

(** ** One table of versions *)

Definition same_path (r r' : PageRow) : Prop :=
  p_workspace r = p_workspace r' ∧ p_project r = p_project r' ∧ p_path r = p_path r'.

(** The end of a chain: the latest version, or the tombstone of a path without
    one. *)
Definition head_row (r : PageRow) : bool := p_latest r || bool_decide (is_Some (p_superseded_at r)).

Definition paired (scopes : Db) (r : PageRow) : bool :=
  existsb (λ p, bool_decide (pt_id p = p_project r) && bool_decide (pt_workspace p = p_workspace r))
    (projects scopes).

(** What never changes in a version, but that deleting its predecessor cuts
    the reference to it. *)
Record same_version (r r' : PageRow) : Prop := {
  sv_id : p_id r' = p_id r;
  sv_path : same_path r r';
  sv_search : p_path_search r' = p_path_search r;
  sv_title : p_title r' = p_title r;
  sv_tier : p_tier r' = p_tier r;
  sv_body : p_body r' = p_body r;
  sv_sha : p_body_sha256 r' = p_body_sha256 r;
  sv_frontmatter : p_frontmatter r' = p_frontmatter r;
  sv_pinned : p_pinned r' = p_pinned r;
  sv_author : p_author r' = p_author r;
  sv_created : p_created_at r' = p_created_at r;
  sv_updated : p_updated_at r' = p_updated_at r;
  sv_expires : p_expires_at r' = p_expires_at r;
  sv_from : p_valid_from r' = p_valid_from r;
  sv_compacted : p_compacted_at r' = p_compacted_at r;
}.

Lemma same_path_refl r : same_path r r.
Proof. done. Qed.
Lemma same_path_sym r r' : same_path r r' → same_path r' r.
Proof. unfold same_path. intros (? & ? & ?). auto. Qed.
Lemma same_path_trans r1 r2 r3 : same_path r1 r2 → same_path r2 r3 → same_path r1 r3.
Proof. unfold same_path. intros (-> & -> & ->). done. Qed.

Lemma same_version_refl r : same_version r r.
Proof. by split. Qed.
Lemma same_version_trans r1 r2 r3 : same_version r1 r2 → same_version r2 r3 → same_version r1 r3.
Proof.
  intros H1 H2. destruct H1, H2. split; try congruence. by eapply same_path_trans.
Qed.

Section Rows.
Context (env : PageEnv) (scopes : Db).

Record rows_ok (rows : list PageRow) : Prop := {
  ro_ids : NoDup (p_id <$> rows);
  ro_paired r : r ∈ rows → paired scopes r = true;
  ro_sha r : r ∈ rows → p_body_sha256 r = pe_sha256 env (p_body r);
  (** A path has at most one head, ... *)
  ro_head r r' : r ∈ rows → r' ∈ rows → head_row r = true → head_row r' = true → same_path r r' → r = r';
  (** ... a version's window is open while it is the latest, ... *)
  ro_window r : r ∈ rows →
    if p_latest r then p_valid_to r = None ∧ p_superseded_at r = None else is_Some (p_valid_to r);
  (** ... and what a version supersedes is an earlier version of the page. *)
  ro_pred r x : r ∈ rows → p_supersedes r = Some x →
    ∃ r', r' ∈ rows ∧ p_id r' = x ∧ same_path r r' ∧ head_row r' = false;
  ro_succ r r' x : r ∈ rows → r' ∈ rows → p_supersedes r = Some x → p_supersedes r' = Some x → r = r';
  (** No two live pages of a project share a file. *)
  ro_files r r' : r ∈ rows → r' ∈ rows → p_latest r = true → p_latest r' = true →
    p_workspace r = p_workspace r' → p_project r = p_project r' →
    portable_page_key env (p_path r) = portable_page_key env (p_path r') → p_path r = p_path r';
}.

Lemma ro_unique rows r r' : rows_ok rows → r ∈ rows → r' ∈ rows → p_id r = p_id r' → r = r'.
Proof. intros Hok. apply (key_unique p_id). apply Hok. Qed.

Lemma ro_latest rows r r' :
  rows_ok rows → r ∈ rows → r' ∈ rows → p_latest r = true → p_latest r' = true → same_path r r' → r = r'.
Proof. intros Hok Hr Hr' Hl Hl'. apply (ro_head _ Hok); [done..| |]; unfold head_row; by rewrite ?Hl, ?Hl'. Qed.

(** The rows after some of them were changed in place. *)
Definition versions_kept (rows rows' : list PageRow) : Prop := Forall2 same_version rows rows'.

Lemma update_versions p g rows :
  (∀ r, r ∈ rows → p r = true → same_version r (g r)) → versions_kept rows (update_where p g rows).
Proof.
  intros H. unfold versions_kept, update_where. induction rows as [|r rows IH]; [constructor|]. cbn. constructor.
  - destruct (p r) eqn:E; [apply H; [left|done]|apply same_version_refl].
  - apply IH. intros r' Hr'. apply H. by right.
Qed.

Lemma versions_ids rows rows' : versions_kept rows rows' → p_id <$> rows' = p_id <$> rows.
Proof. induction 1 as [|r r' l l' H _ IH]; [done|]. rewrite !fmap_cons, IH. by rewrite (sv_id _ _ H). Qed.

(** *** Giving a path a new latest version *)

(** What becomes of the head that a new version supersedes. *)
Record retired (p p' : PageRow) : Prop := {
  rt_version : same_version p p';
  rt_supersedes : p_supersedes p' = p_supersedes p;
  rt_latest : p_latest p' = false;
  rt_tombstone : p_superseded_at p' = None;
  rt_valid_to : is_Some (p_valid_to p');
}.

Lemma retired_not_head p p' : retired p p' → head_row p' = false.
Proof. intros [_ _ Hl Ht _]. unfold head_row. rewrite Hl, Ht. done. Qed.

Definition over (prev : option PageRow) (g : PageRow → PageRow) (rows : list PageRow) : list PageRow :=
  match prev with Some p => update_where (is_page (p_id p)) g rows | None => rows end.

Lemma elem_over prev g rows r :
  rows_ok rows → (∀ p, prev = Some p → p ∈ rows) →
  r ∈ over prev g rows ↔
  (r ∈ rows ∧ ∀ p, prev = Some p → r ≠ p) ∨ (∃ p, prev = Some p ∧ r = g p).
Proof.
  intros Hok Hprev. destruct prev as [p|]; cbn [over].
  - rewrite elem_update_where. specialize (Hprev p eq_refl). split.
    + intros (r0 & Hr0 & ->). destruct (is_page (p_id p) r0) eqn:E.
      * apply is_page_true in E. right. exists p. split; [done|]. f_equal. by eapply ro_unique.
      * left. split; [done|]. intros p' [= <-] ->. unfold is_page in E.
        by rewrite bool_decide_eq_true_2 in E.
    + intros [[Hr Hne]|(p' & [= <-] & ->)].
      * exists r. split; [done|]. destruct (is_page (p_id p) r) eqn:E; [|done].
        apply is_page_true in E. destruct (Hne p eq_refl). by eapply ro_unique.
      * exists p. split; [done|]. unfold is_page. by rewrite bool_decide_eq_true_2.
  - split; [intros Hr; left; split; [done|by intros p]|]. by intros [[Hr _]|(p & ? & _)].
Qed.

Lemma over_rows_ok prev g rows new :
  rows_ok rows →
  match prev with
  | Some p => p ∈ rows ∧ head_row p = true ∧ retired p (g p) ∧ same_path new p
              ∧ p_supersedes new = Some (p_id p)
  | None => (∀ r, r ∈ rows → head_row r = true → ¬ same_path r new) ∧ p_supersedes new = None
  end →
  p_id new ∉ p_id <$> rows → paired scopes new = true → p_body_sha256 new = pe_sha256 env (p_body new) →
  p_latest new = true → p_valid_to new = None → p_superseded_at new = None →
  (∀ r, r ∈ rows → p_latest r = true → p_workspace r = p_workspace new → p_project r = p_project new →
        portable_page_key env (p_path r) = portable_page_key env (p_path new) → p_path r = p_path new) →
  rows_ok (over prev g rows ++ [new]).
Proof.
  intros Hok Hprev Hfresh Hpair Hsha Hlat Hto Hsup Hfiles.
  assert (Hin : ∀ p, prev = Some p → p ∈ rows) by (intros p ->; apply Hprev).
  assert (Hret : ∀ p, prev = Some p → retired p (g p)) by (intros p ->; apply Hprev).
  (* an old row or the retired head *)
  assert (Hold : ∀ r, r ∈ over prev g rows → ∃ r0, r0 ∈ rows ∧ same_version r0 r
            ∧ p_supersedes r = p_supersedes r0 ∧ (r = r0 ∧ (∀ p, prev = Some p → r ≠ p) ∨ retired r0 r)).
  { intros r Hr. apply (elem_over _ _ _ _ Hok Hin) in Hr as [[Hr Hne]|(p & Hp & ->)].
    - exists r. split; [done|]. split; [apply same_version_refl|]. split; [done|]. by left.
    - exists p. pose proof (Hret p Hp) as H. split; [by apply Hin|]. split; [apply H|]. split; [apply H|by right]. }
  assert (Hheads : ∀ r, r ∈ over prev g rows → head_row r = true →
            r ∈ rows ∧ (∀ p, prev = Some p → r ≠ p) ∧ ¬ same_path r new).
  { intros r Hr Hh. destruct (Hold r Hr) as (r0 & Hr0 & _ & _ & [[-> Hne]|Hrt]).
    - split; [done|]. split; [done|]. intros Hs. destruct prev as [p|].
      + destruct Hprev as (Hp & Hhp & _ & Hsp & _). apply (Hne p eq_refl).
        apply (ro_head _ Hok); try done. by eapply same_path_trans.
      + destruct Hprev as [Hnone _]. by apply (Hnone r0).
    - by rewrite (retired_not_head _ _ Hrt) in Hh. }
  assert (Hhn : head_row new = true) by (unfold head_row; by rewrite Hlat).
  split.
  - rewrite fmap_app. assert (E : p_id <$> over prev g rows = p_id <$> rows).
    { destruct prev as [p|]; [|done]. cbn [over]. apply versions_ids, update_versions.
      intros r Hr Hp. apply is_page_true in Hp.
      assert (r = p) as -> by (eapply ro_unique; [done|done|by apply Hin|done]). by apply Hret. }
    rewrite E. apply NoDup_app. split; [apply Hok|]. split; [|apply NoDup_singleton].
    intros x Hx Hx'. apply list_elem_of_singleton in Hx' as ->. by apply Hfresh.
  - intros r [Hr|Hr]%elem_of_app; [|by apply list_elem_of_singleton in Hr as ->].
    destruct (Hold r Hr) as (r0 & Hr0 & Hv & _). destruct (sv_path _ _ Hv) as (Hw & Hp & _).
    unfold paired. rewrite <- Hw, <- Hp. by apply (ro_paired _ Hok).
  - intros r [Hr|Hr]%elem_of_app; [|by apply list_elem_of_singleton in Hr as ->].
    destruct (Hold r Hr) as (r0 & Hr0 & Hv & _). rewrite (sv_sha _ _ Hv), (sv_body _ _ Hv). by apply (ro_sha _ Hok).
  - intros r r' [Hr|Hr]%elem_of_app [Hr'|Hr']%elem_of_app Hh Hh' Hs;
      rewrite ?list_elem_of_singleton in *; subst.
    + destruct (Hheads _ Hr Hh) as (? & _). destruct (Hheads _ Hr' Hh') as (? & _). by apply (ro_head _ Hok).
    + by destruct (Hheads _ Hr Hh) as (_ & _ & []).
    + destruct (Hheads _ Hr' Hh') as (_ & _ & []). by apply same_path_sym.
    + done.
  - intros r [Hr|Hr]%elem_of_app; [|apply list_elem_of_singleton in Hr as ->; by rewrite Hlat].
    destruct (Hold r Hr) as (r0 & Hr0 & _ & _ & [[-> _]|Hrt]); [by apply (ro_window _ Hok)|].
    rewrite (rt_latest _ _ Hrt). apply Hrt.
  - intros r x [Hr|Hr]%elem_of_app Hx.
    + destruct (Hold r Hr) as (r0 & Hr0 & Hv & Hs & _). rewrite Hs in Hx.
      destruct (ro_pred _ Hok r0 x Hr0 Hx) as (r' & Hr' & Hid & Hsp & Hh). exists r'.
      split; [|split; [done|split; [|done]]].
      * apply elem_of_app. left. apply (elem_over _ _ _ _ Hok Hin). left. split; [done|].
        intros p Hp ->. rewrite Hp in Hprev. destruct Hprev as (_ & Hhp & _). by rewrite Hh in Hhp.
      * eapply same_path_trans; [|exact Hsp]. apply same_path_sym, Hv.
    + apply list_elem_of_singleton in Hr as ->. destruct prev as [p|]; [|destruct Hprev; congruence].
      destruct Hprev as (Hp & _ & Hrt & Hsp & Hsn). rewrite Hsn in Hx. injection Hx as <-.
      exists (g p). split; [apply elem_of_app; left; apply (elem_over _ _ _ _ Hok Hin); right; by exists p|].
      split; [apply Hrt|]. split; [|by eapply retired_not_head].
      eapply same_path_trans; [exact Hsp|]. apply Hrt.
  - assert (Hnew : ∀ r x, r ∈ over prev g rows → p_supersedes r = Some x → p_supersedes new = Some x → False).
    { intros r x Hr Hx Hx'. destruct (Hold r Hr) as (r0 & Hr0 & _ & Hs & _). rewrite Hs in Hx.
      destruct (ro_pred _ Hok r0 x Hr0 Hx) as (r' & Hr' & Hid & _ & Hh).
      destruct prev as [p|]; [|destruct Hprev; congruence].
      destruct Hprev as (Hp & Hhp & _ & _ & Hsn). rewrite Hsn in Hx'. injection Hx' as Hx'.
      assert (r' = p) as -> by (eapply ro_unique; [done..|congruence]). by rewrite Hh in Hhp. }
    intros r r' x [Hr|Hr]%elem_of_app [Hr'|Hr']%elem_of_app Hx Hx';
      rewrite ?list_elem_of_singleton in *; subst; try done; try (exfalso; by eapply Hnew).
    destruct (Hold r Hr) as (r0 & Hr0 & Hv & Hs & Hc). destruct (Hold r' Hr') as (r1 & Hr1 & Hv' & Hs' & Hc').
    rewrite Hs in Hx. rewrite Hs' in Hx'. assert (r0 = r1) as <- by (by eapply (ro_succ _ Hok)).
    apply (elem_over _ _ _ _ Hok Hin) in Hr as [[Hr Hne]|(p & Hp & ->)];
      apply (elem_over _ _ _ _ Hok Hin) in Hr' as [[Hr' Hne']|(p' & Hp' & ->)].
    + eapply ro_unique; [done..|]. by rewrite (sv_id _ _ Hv), (sv_id _ _ Hv').
    + destruct (Hne p' Hp'). eapply ro_unique; [done|done|by apply Hin|].
      rewrite (sv_id _ _ Hv), <- (sv_id _ _ Hv'). apply (rt_version _ _ (Hret p' Hp')).
    + destruct (Hne' p Hp). eapply ro_unique; [done|done|by apply Hin|].
      rewrite (sv_id _ _ Hv'), <- (sv_id _ _ Hv). apply (rt_version _ _ (Hret p Hp)).
    + congruence.
  - assert (Hlive : ∀ r, r ∈ over prev g rows → p_latest r = true → r ∈ rows).
    { intros r Hr Hl. apply Hheads; [done|]. unfold head_row. by rewrite Hl. }
    intros r r' [Hr|Hr]%elem_of_app [Hr'|Hr']%elem_of_app Hl Hl' Hw Hp Hk;
      rewrite ?list_elem_of_singleton in *; subst; try done.
    + apply (ro_files _ Hok); auto.
    + auto.
    + symmetry. auto.
Qed.

(** *** Retiring a page *)

Lemma tombstone_version now r : same_version r (tombstone_row now r).
Proof. by split. Qed.

Lemma unlatest_retired rows now p :
  rows_ok rows → p ∈ rows → p_latest p = true → retired p (unlatest_row now p).
Proof.
  intros Hok Hp Hl. pose proof (ro_window _ Hok p Hp) as Hw. rewrite Hl in Hw. destruct Hw as [_ Hs].
  by split.
Qed.

Lemma revive_retired rows p :
  rows_ok rows → p ∈ rows → p_latest p = false → retired p (revive_row p).
Proof.
  intros Hok Hp Hl. pose proof (ro_window _ Hok p Hp) as Hw. rewrite Hl in Hw.
  by split.
Qed.

Lemma soft_delete_rows_ok e ws pj path now rows :
  rows_ok rows →
  rows_ok (update_where (λ r, is_page e r && latest_at ws pj path r) (tombstone_row now) rows).
Proof.
  intros Hok. set (hit := λ r, _).
  assert (Helem : ∀ r, r ∈ update_where hit (tombstone_row now) rows →
            ∃ r0, r0 ∈ rows ∧ same_version r0 r ∧ p_supersedes r = p_supersedes r0 ∧ head_row r = head_row r0
              ∧ (p_latest r = true → r = r0)
              ∧ (if p_latest r then p_valid_to r = None ∧ p_superseded_at r = None else is_Some (p_valid_to r))).
  { intros r (r0 & Hr0 & ->)%elem_update_where. exists r0. pose proof (ro_window _ Hok r0 Hr0) as Hw.
    destruct (hit r0) eqn:E; [|by repeat (split; [done || apply same_version_refl|])].
    unfold hit in E. rewrite andb_true_iff, latest_at_true in E. destruct E as [_ [_ Hl]].
    split; [done|]. split; [apply tombstone_version|]. split; [done|]. cbn.
    split; [unfold head_row; by rewrite Hl|]. split; [done|]. by eexists. }
  assert (Hids : p_id <$> update_where hit (tombstone_row now) rows = p_id <$> rows).
  { apply versions_ids, update_versions. intros. apply tombstone_version. }
  assert (Huniq : ∀ r r', r ∈ update_where hit (tombstone_row now) rows →
            r' ∈ update_where hit (tombstone_row now) rows → p_id r = p_id r' → r = r').
  { intros r r'. apply (key_unique p_id). rewrite Hids. apply Hok. }
  split.
  - rewrite Hids. apply Hok.
  - intros r Hr. destruct (Helem r Hr) as (r0 & Hr0 & Hv & _). destruct (sv_path _ _ Hv) as (Hw & Hp & _).
    unfold paired. rewrite <- Hw, <- Hp. by apply (ro_paired _ Hok).
  - intros r Hr. destruct (Helem r Hr) as (r0 & Hr0 & Hv & _).
    rewrite (sv_sha _ _ Hv), (sv_body _ _ Hv). by apply (ro_sha _ Hok).
  - intros r r' Hr Hr' Hh Hh' Hs. destruct (Helem r Hr) as (r0 & Hr0 & Hv & _ & E & _).
    destruct (Helem r' Hr') as (r1 & Hr1 & Hv' & _ & E' & _). apply Huniq; [done..|].
    rewrite (sv_id _ _ Hv), (sv_id _ _ Hv'). f_equal. apply (ro_head _ Hok); [done|done|congruence|congruence|].
    eapply same_path_trans; [apply Hv|]. eapply same_path_trans; [exact Hs|]. apply same_path_sym, Hv'.
  - intros r Hr. by destruct (Helem r Hr) as (r0 & Hr0 & _ & _ & _ & _ & ?).
  - intros r x Hr Hx. destruct (Helem r Hr) as (r0 & Hr0 & Hv & E & _). rewrite E in Hx.
    destruct (ro_pred _ Hok r0 x Hr0 Hx) as (r' & Hr' & Hid & Hs & Hh). exists r'.
    split; [|split; [done|split; [|done]]].
    + apply elem_update_where. exists r'. split; [done|]. destruct (hit r') eqn:Eh; [|done].
      unfold hit in Eh. rewrite andb_true_iff, latest_at_true in Eh. destruct Eh as [_ [_ Hl]].
      unfold head_row in Hh. by rewrite Hl in Hh.
    + eapply same_path_trans; [|exact Hs]. apply same_path_sym, Hv.
  - intros r r' x Hr Hr' Hx Hx'. destruct (Helem r Hr) as (r0 & Hr0 & Hv & E & _).
    destruct (Helem r' Hr') as (r1 & Hr1 & Hv' & E' & _). apply Huniq; [done..|].
    rewrite (sv_id _ _ Hv), (sv_id _ _ Hv'). f_equal. rewrite E in Hx. rewrite E' in Hx'.
    by eapply (ro_succ _ Hok).
  - intros r r' Hr Hr' Hl Hl'. destruct (Helem r Hr) as (r0 & Hr0 & _ & _ & _ & E & _).
    destruct (Helem r' Hr') as (r1 & Hr1 & _ & _ & _ & E' & _). specialize (E Hl). specialize (E' Hl').
    subst. by apply (ro_files _ Hok).
Qed.

(** *** Deleting rows *)

Definition surviving (dead : list PageId) (rows : list PageRow) : list PageRow :=
  drop_supersedes dead <$> List.filter (alive dead p_id) rows.

Lemma drop_version dead r : same_version r (drop_supersedes dead r).
Proof. by split. Qed.

Lemma elem_surviving dead rows r :
  r ∈ surviving dead rows ↔ ∃ r0, r0 ∈ rows ∧ p_id r0 ∉ dead ∧ r = drop_supersedes dead r0.
Proof.
  unfold surviving, alive. rewrite list_elem_of_fmap. setoid_rewrite elem_filter.
  setoid_rewrite negb_true_iff. setoid_rewrite bool_decide_eq_false. naive_solver.
Qed.

Lemma orphaned_Some dead x y : orphaned dead x = Some y ↔ x = Some y ∧ y ∉ dead.
Proof.
  unfold orphaned. destruct x as [z|]; [|naive_solver]. case_bool_decide; naive_solver.
Qed.

Lemma surviving_ids dead rows :
  p_id <$> surviving dead rows = p_id <$> List.filter (alive dead p_id) rows.
Proof. unfold surviving. rewrite <- list_fmap_compose. by apply list_fmap_ext. Qed.

Lemma surviving_rows_ok dead rows : rows_ok rows → rows_ok (surviving dead rows).
Proof.
  intros Hok.
  assert (Hids : NoDup (p_id <$> surviving dead rows)).
  { rewrite surviving_ids. apply NoDup_key_filter, Hok. }
  split.
  - exact Hids.
  - intros r (r0 & Hr0 & _ & ->)%elem_surviving. by apply (ro_paired _ Hok) in Hr0.
  - intros r (r0 & Hr0 & _ & ->)%elem_surviving. by apply (ro_sha _ Hok) in Hr0.
  - intros r r' (r0 & Hr0 & _ & ->)%elem_surviving (r1 & Hr1 & _ & ->)%elem_surviving Hh Hh' Hs.
    f_equal. by apply (ro_head _ Hok).
  - intros r (r0 & Hr0 & _ & ->)%elem_surviving. by apply (ro_window _ Hok) in Hr0.
  - intros r x (r0 & Hr0 & _ & ->)%elem_surviving Hx. cbn in Hx. apply orphaned_Some in Hx as [Hx Hd].
    destruct (ro_pred _ Hok r0 x Hr0 Hx) as (r' & Hr' & Hid & Hs & Hh). exists (drop_supersedes dead r').
    split; [apply elem_surviving; exists r'; by rewrite Hid|]. done.
  - intros r r' x (r0 & Hr0 & _ & ->)%elem_surviving (r1 & Hr1 & _ & ->)%elem_surviving Hx Hx'.
    apply orphaned_Some in Hx as [Hx _]. apply orphaned_Some in Hx' as [Hx' _]. f_equal.
    by eapply (ro_succ _ Hok).
  - intros r r' (r0 & Hr0 & _ & ->)%elem_surviving (r1 & Hr1 & _ & ->)%elem_surviving.
    exact (ro_files _ Hok r0 r1 Hr0 Hr1).
Qed.

(** ** Chains *)

Section Chains.
Variable rows : list PageRow.

(** [r] supersedes [r']. *)
Definition supersedes (r r' : PageRow) : Prop := r ∈ rows ∧ r' ∈ rows ∧ p_supersedes r = Some (p_id r').

(** [r'] is in the history of [r]. *)
Definition in_history : relation PageRow := rtc supersedes.

Hypothesis Hok : rows_ok rows.

Lemma superseded_not_head r r' : supersedes r r' → head_row r' = false.
Proof.
  intros (Hr & Hr' & Hx). destruct (ro_pred _ Hok r _ Hr Hx) as (r1 & Hr1 & Hid & _ & Hh).
  by assert (r1 = r') as <- by (by eapply ro_unique).
Qed.

Lemma supersedes_path r r' : supersedes r r' → same_path r r'.
Proof.
  intros (Hr & Hr' & Hx). destruct (ro_pred _ Hok r _ Hr Hx) as (r1 & Hr1 & Hid & Hs & _).
  by assert (r1 = r') as <- by (by eapply ro_unique).
Qed.

Lemma in_history_path r r' : in_history r r' → same_path r r'.
Proof. induction 1 as [r|r1 r2 r3 H _ IH]; [done|]. eapply same_path_trans; [by apply supersedes_path|done]. Qed.

(** Two heads of one history are the same: a version has one successor. *)
Lemma one_head r1 r2 x :
  in_history r1 x → in_history r2 x → head_row r1 = true → head_row r2 = true → r1 = r2.
Proof.
  intros H1 H2 Hh1 Hh2. revert x H1 H2.
  refine (rtc_ind_r (λ x, in_history r2 x → r1 = r2) _ _ _); [intros H2|intros y x H1 Hyx IH H2].
  - apply rtc_inv_r in H2 as [->|(z & _ & Hz)]; [done|]. apply superseded_not_head in Hz. congruence.
  - apply rtc_inv_r in H2 as [->|(z & H2 & Hz)].
    + apply superseded_not_head in Hyx. congruence.
    + destruct Hyx as (Hy & Hx & Ey), Hz as (Hz & _ & Ez).
      assert (z = y) as -> by (by eapply (ro_succ _ Hok)). auto.
Qed.
End Chains.
End Rows.
