(* ===== verification/PagesLinks.v ===== *)
(** * The links between pages

    A link is kept by the name of its target; [to_page_id] is where that name
    leads.  Every link whose target has a latest version points to it, and no
    link points anywhere else than to a version of the page it names. *)

From S2P Require Export PagesFacts.
Open Scope nat_scope.
Open Scope rust_scope.

(** ** Looking names up *)

Lemma workspace_by_name_ok d name ws :
  workspace_by_name d name = Some ws → (ws, name) ∈ workspaces d.
Proof.
  unfold workspace_by_name. intros ([w n] & H & ->)%fmap_Some. apply first_row_Some in H as [Hin Hn].
  apply bool_decide_eq_true in Hn. cbn in *. by subst.
Qed.

Lemma workspace_by_name_found d name ws :
  db_ok d → (ws, name) ∈ workspaces d → workspace_by_name d name = Some ws.
Proof.
  intros Hok Hin. unfold workspace_by_name.
  erewrite (first_row_unique _ _ (ws, name)); [done|done|by apply bool_decide_eq_true|].
  intros w Hw Hn%bool_decide_eq_true. by apply (key_unique snd (workspaces d)); [apply Hok|..].
Qed.

Lemma workspace_name_of_ok d ws name : workspace_name_of d ws = Some name → (ws, name) ∈ workspaces d.
Proof.
  unfold workspace_name_of. intros ([w n] & H & ->)%fmap_Some. apply first_row_Some in H as [Hin Hn].
  apply bool_decide_eq_true in Hn. cbn in *. by subst.
Qed.

Lemma project_by_name_ok d ws name pj :
  project_by_name d ws name = Some pj →
  ∃ p, p ∈ projects d ∧ pt_id p = pj ∧ pt_workspace p = ws ∧ pt_name p = name.
Proof.
  unfold project_by_name. intros (p & H & ->)%fmap_Some. apply first_row_Some in H as [Hin Hp].
  rewrite andb_true_iff, !bool_decide_eq_true in Hp. destruct Hp. by exists p.
Qed.

Lemma project_by_name_found d p :
  db_ok d → p ∈ projects d → project_by_name d (pt_workspace p) (pt_name p) = Some (pt_id p).
Proof.
  intros Hok Hin. unfold project_by_name. erewrite (first_row_unique _ _ p); [done|done| |].
  - by rewrite !bool_decide_eq_true_2.
  - intros p' Hp'. rewrite andb_true_iff, !bool_decide_eq_true. intros [Hw Hn].
    apply (key_unique (λ p, (pt_workspace p, pt_name p)) (projects d)); [apply Hok|done..|congruence].
Qed.

Lemma project_name_found d p : db_ok d → p ∈ projects d → project_name d (pt_id p) = Some (pt_name p).
Proof.
  intros Hok Hin. unfold project_name. erewrite (first_row_unique _ _ p); [done|done|by apply bool_decide_eq_true|].
  intros p' Hp' Hi%bool_decide_eq_true. by apply (key_unique pt_id (projects d)); [apply Hok|..].
Qed.

Lemma workspace_name_found d ws : db_ok d → ws ∈ fst <$> workspaces d →
  ∃ name, workspace_name_of d ws = Some name.
Proof.
  intros Hok ([w n] & -> & Hin)%list_elem_of_fmap. exists n. unfold workspace_name_of.
  erewrite (first_row_unique _ _ (w, n)); [done|done|by apply bool_decide_eq_true|].
  intros w' Hw' Hi%bool_decide_eq_true. by apply (key_unique fst (workspaces d)); [apply Hok|..].
Qed.

(** ** Where a link leads *)

Section Links.
Context (scopes : Db).

(** The project a link stored at page [from] means. *)
Definition scope_from (ws : WorkspaceId) (pj : ProjectId) (l : LinkRow) : option (WorkspaceId * ProjectId) :=
  match l_project l with
  | None => Some (ws, pj)
  | Some name =>
      match l_workspace l with None => Some ws | Some w => workspace_by_name scopes w end
        ≫= λ ws, pair ws <$> project_by_name scopes ws name
  end.

(** The page a link names: its path in that project. *)
Definition names_page (rows : list PageRow) (l : LinkRow) (ws : WorkspaceId) (pj : ProjectId) (path : bytes) : Prop :=
  l_path l = path ∧ ∃ from, from ∈ rows ∧ p_id from = l_from l
    ∧ scope_from (p_workspace from) (p_project from) l = Some (ws, pj).

Definition names_row (rows : list PageRow) (l : LinkRow) (r : PageRow) : Prop :=
  names_page rows l (p_workspace r) (p_project r) (p_path r).

(** The primary key. *)
Definition link_pk (l : LinkRow) : PageId * option string * option string * bytes * string :=
  (l_from l, l_workspace l, l_project l, l_path l, l_type l).

Record links_ok (rows : list PageRow) (ls : list LinkRow) : Prop := {
  lo_from l : l ∈ ls → l_from l ∈ p_id <$> rows;
  lo_global l : l ∈ ls → l_workspace l = None → l_project l ≠ Some GLOBAL_SCOPE_PROJECT;
  lo_keys : NoDup (link_pk <$> ls);
  (** A link points to the latest version of the page it names, ... *)
  lo_resolved l r : l ∈ ls → r ∈ rows → p_latest r = true → names_row rows l r → l_to l = Some (p_id r);
  (** ... and to nothing but a version of that page. *)
  lo_to l x : l ∈ ls → l_to l = Some x → ∃ r, r ∈ rows ∧ p_id r = x ∧ names_row rows l r;
}.

Lemma names_unique rows l ws pj path ws' pj' path' :
  NoDup (p_id <$> rows) → names_page rows l ws pj path → names_page rows l ws' pj' path' →
  ws = ws' ∧ pj = pj' ∧ path = path'.
Proof.
  intros Hn (<- & f & Hf & Hid & Hs) (<- & f' & Hf' & Hid' & Hs').
  assert (f = f') as <- by (eapply (key_unique p_id); [done..|congruence]).
  rewrite Hs in Hs'. by injection Hs' as -> ->.
Qed.

(** Names do not depend on what else happens to the rows. *)
Lemma names_kept rows rows' l ws pj path :
  (∀ r, r ∈ rows → p_id r = l_from l → ∃ r', r' ∈ rows' ∧ p_id r' = p_id r ∧ same_path r r') →
  names_page rows l ws pj path → names_page rows' l ws pj path.
Proof.
  intros Hk (Hp & f & Hf & Hid & Hs). split; [done|].
  destruct (Hk f Hf Hid) as (f' & Hf' & Hid' & Hw & Hpj & _). exists f'.
  split; [done|]. split; [congruence|]. by rewrite <- Hw, <- Hpj.
Qed.

Lemma names_point rows id l ws pj path :
  names_page rows (point_to id l) ws pj path ↔ names_page rows l ws pj path.
Proof. done. Qed.

(** *** Repointing *)

Definition incoming (d : PageDb) (ws : WorkspaceId) (pj : ProjectId) (path : bytes) (l : LinkRow) : bool :=
  bare_incoming d ws pj path l
  || match project_name (pd_scopes d) pj, workspace_name_of (pd_scopes d) ws with
     | Some project, Some workspace =>
         named_incoming d project workspace ws path l
         || (bool_decide (project = GLOBAL_SCOPE_PROJECT) && bool_decide (workspace = DEFAULT_WORKSPACE_NAME))
            && global_incoming path l
     | _, _ => false
     end.

Lemma update_update {A} (p q : A → bool) g rows :
  (∀ x, q (g x) = q x) → (∀ x, g (g x) = g x) →
  update_where q g (update_where p g rows) = update_where (λ x, p x || q x) g rows.
Proof.
  intros Hq Hg. unfold update_where. rewrite <- list_fmap_compose. apply list_fmap_ext. intros i x _. cbn.
  destruct (p x); cbn; [rewrite Hq, Hg; by destruct (q x)|done].
Qed.

Lemma from_page_where_ext p d d' l : pages d = pages d' → from_page_where p d l = from_page_where p d' l.
Proof. unfold from_page_where. by intros ->. Qed.

Lemma update_where_ext_in {A} (p q : A → bool) g rows :
  (∀ x, x ∈ rows → p x = q x) → update_where p g rows = update_where q g rows.
Proof.
  intros H. unfold update_where. apply list_fmap_ext. intros i x Hx%list_elem_of_lookup_2. by rewrite H.
Qed.

Lemma update_where_ext {A} (p q : A → bool) g rows :
  (∀ x, p x = q x) → update_where p g rows = update_where q g rows.
Proof. intros H. by apply update_where_ext_in. Qed.

Lemma refresh_Ok f d page id d' :
  refresh_incoming_links_for_path f d page id = Ok d' →
  d' = with_links d (update_where (incoming d (np_workspace page) (np_project page) (np_path page))
                       (point_to id) (links d)).
Proof.
  unfold refresh_incoming_links_for_path, incoming. intros H. open_transaction.
  cbn [pd_scopes with_links links pages] in H.
  assert (Hbare : Ok (E:=OpsError) (with_links d (update_where (bare_incoming d (np_workspace page) (np_project page) (np_path page))
                                  (point_to id) (links d))) = Ok d' → d' = with_links d (update_where
            (λ l, bare_incoming d (np_workspace page) (np_project page) (np_path page) l || false)
            (point_to id) (links d))).
  { intros [= <-]. unfold with_links. f_equal. apply update_where_ext. intros l. by rewrite orb_false_r. }
  destruct (project_name (pd_scopes d) (np_project page)) as [project|] eqn:Ep; [|exact (Hbare H)].
  destruct (workspace_name_of (pd_scopes d) (np_workspace page)) as [workspace|] eqn:Ew; [|exact (Hbare H)].
  clear Hbare. open_transaction. cbn [pd_scopes with_links links pages] in *.
  destruct (bool_decide (project = _) && bool_decide (workspace = _)) eqn:E; open_transaction;
    unfold with_links; cbn; f_equal; rewrite !update_update by done;
    apply update_where_ext; intros l; cbn; rewrite ?orb_false_r, ?orb_assoc; done.
Qed.

(** A link is incoming exactly when it names the page. *)
Lemma incoming_names d ws pj path l :
  pd_scopes d = scopes → db_ok scopes → NoDup (p_id <$> pages d) →
  l_from l ∈ p_id <$> pages d →
  (l_workspace l = None → l_project l ≠ Some GLOBAL_SCOPE_PROJECT) →
  (∃ p, p ∈ projects scopes ∧ pt_id p = pj ∧ pt_workspace p = ws) →
  incoming d ws pj path l = true ↔ names_page (pages d) l ws pj path.
Proof.
  intros Es Hok Hn (from & Hid & Hfrom)%list_elem_of_fmap Hg (p & Hp & Hpj & Hws).
  unfold incoming, names_page. rewrite Es. subst ws pj. rewrite (project_name_found _ _ Hok Hp).
  assert (Hw : pt_workspace p ∈ fst <$> workspaces scopes).
  { pose proof (ok_project_workspaces _ Hok) as H. rewrite Forall_forall in H. by apply H. }
  destruct (workspace_name_found _ _ Hok Hw) as [wname Ew]. rewrite Ew. apply workspace_name_of_ok in Ew.
  assert (Hfp : ∀ q, from_page_where q d l = q from).
  { intros q. unfold from_page_where. apply eq_true_iff_eq. rewrite existsb_elem. split.
    - intros (r & Hr & [Hi%is_page_true Hq]%andb_true_iff).
      by assert (r = from) as -> by (eapply (key_unique p_id); [done..|congruence]).
    - intros Hq. exists from. split; [done|]. by rewrite (proj2 (is_page_true _ _)), Hq. }
  assert (Hex : (∃ f0, f0 ∈ pages d ∧ p_id f0 = l_from l ∧
              scope_from (p_workspace f0) (p_project f0) l = Some (pt_workspace p, pt_id p))
            ↔ scope_from (p_workspace from) (p_project from) l = Some (pt_workspace p, pt_id p)).
  { split; [|by exists from]. intros (f0 & Hf0 & Hi & Hs).
    by assert (f0 = from) as -> by (eapply (key_unique p_id); [done..|congruence]). }
  rewrite Hex. clear Hex. unfold scope_from, bare_incoming, named_incoming, global_incoming. rewrite !Hfp.
  destruct (l_project l) as [name|] eqn:El.
  - rewrite (bool_decide_eq_false_2 (Some name = None)) by done. cbn [andb orb].
    assert (Hglob : (bool_decide (pt_name p = GLOBAL_SCOPE_PROJECT) && bool_decide (wname = DEFAULT_WORKSPACE_NAME)
      && (bool_decide (Some name = Some GLOBAL_SCOPE_PROJECT) && bool_decide (l_path l = path)
          && bool_decide (l_workspace l = None))) = false).
    { destruct (l_workspace l) as [w|]; [by rewrite !andb_false_r|].
      rewrite (bool_decide_eq_false_2 (Some name = Some _)) by auto. by rewrite !andb_false_r. }
    rewrite Hglob, orb_false_r, !andb_true_iff, !orb_true_iff, !andb_true_iff, !bool_decide_eq_true.
    assert (Hname : ∀ ws', project_by_name scopes ws' name = Some (pt_id p) ↔ ws' = pt_workspace p ∧ name = pt_name p).
    { intros ws'. split.
      - intros (p' & Hp' & Hi & <- & <-)%project_by_name_ok.
        by assert (p' = p) as -> by (eapply (key_unique pt_id); [apply Hok|done..]).
      - intros [-> ->]. by apply project_by_name_found. }
    destruct (l_workspace l) as [w|] eqn:Elw; cbn.
    + split.
      * intros [[[= ->] Hpath] [[= ->]|[? _]]]; [|done]. split; [done|].
        rewrite (workspace_by_name_found _ _ _ Hok Ew). cbn. by rewrite (proj2 (Hname _)).
      * intros [Hpath Hs]. apply bind_Some in Hs as (ws' & Hw' & Hs). apply fmap_Some in Hs as (pj' & Hs & [= -> <-]).
        apply Hname in Hs as [-> ->]. split; [done|]. left.
        apply workspace_by_name_ok in Hw'. f_equal.
        pose proof (key_unique fst (workspaces scopes) _ _ (ok_workspace_ids _ Hok) Hw' Ew eq_refl) as E. congruence.
    + split.
      * intros [[[= ->] Hpath] [?|[_ Hfw]]]; [done|]. split; [done|]. cbn. by rewrite Hfw, (proj2 (Hname _)).
      * intros [Hpath Hs]. apply fmap_Some in Hs as (pj' & Hs & [= Hw' <-]).
        rewrite <- Hw' in Hs. apply Hname in Hs as [_ ->]. split; [done|]. by right.
  - rewrite (bool_decide_eq_false_2 (None = Some _)) by done.
    rewrite (bool_decide_eq_false_2 (None = Some GLOBAL_SCOPE_PROJECT)) by done.
    rewrite (bool_decide_eq_true_2 (None = None)) by done. cbn [andb]. rewrite andb_false_r, !orb_false_r.
    rewrite andb_true_iff, bool_decide_eq_true, andb_true_iff, !bool_decide_eq_true.
    split; [by intros [? [-> ->]]|]. by intros [? [= -> ->]].
Qed.
End Links.
