(* ===== verification/PagesTables.v ===== *)
(** * What a page write leaves in the other tables

    The links, entities, evidence and CJK index of a version, and the invariant
    of all page tables together. *)

From S2P Require Export PagesLinks.
From S2P Require Import FtsQuery.
Open Scope nat_scope.
Open Scope rust_scope.

(** ** Links *)

(** The project a link of a page means. *)
Definition target_scope (scopes : Db) (ws : WorkspaceId) (pj : ProjectId) (l : LinkTarget)
    : option (WorkspaceId * ProjectId) :=
  match lt_project l with
  | None => Some (ws, pj)
  | Some project =>
      match link_workspace_name l with None => Some ws | Some name => workspace_by_name scopes name end
        ≫= λ ws, pair ws <$> project_by_name scopes ws project
  end.

Definition link_target (d : PageDb) (page : NewPage) (l : LinkTarget) : option PageId :=
  target_scope (pd_scopes d) (np_workspace page) (np_project page) l
    ≫= λ scope, latest_page_id d (fst scope) (snd scope) (lt_path l).

Definition link_row (d : PageDb) (from : PageId) (page : NewPage) (l : LinkTarget) : LinkRow :=
  mkLinkRow from (link_target d page l) (link_workspace_name l) (lt_project l) (lt_path l) (link_type l).

(** The first of the links with each key. *)
Fixpoint distinct_links (seen : list (option string * option string * bytes * option Relation))
    (ls : list LinkTarget) : list LinkTarget :=
  match ls with
  | [] => []
  | l :: ls' =>
      if bool_decide (link_key l ∈ seen) then distinct_links seen ls'
      else l :: distinct_links (link_key l :: seen) ls'
  end.

Lemma latest_page_id_for_link_Ok f i d page l x :
  latest_page_id_for_link f i d page l = Ok x → x = link_target d page l.
Proof.
  unfold latest_page_id_for_link, link_target, target_scope. intros H. apply result_bind_Ok in H as (scope & Hs & H).
  destruct (lt_project l) as [project|].
  - destruct (link_workspace_name l) as [name|]; apply result_bind_Ok in Hs as (ws & Hw & Hs).
    + apply statement_Ok in Hw as ->. destruct (workspace_by_name _ name) as [ws|]; cbn; [|by simplify_eq].
      open_transaction. destruct (project_by_name _ ws project); cbn in *; [by apply statement_Ok in H|by simplify_eq].
    + injection Hw as <-. cbn. open_transaction.
      destruct (project_by_name _ _ project); cbn in *; [by apply statement_Ok in H|by simplify_eq].
  - injection Hs as <-. by apply statement_Ok in H.
Qed.

Lemma insert_links_Ok f i d from page seen ls d' :
  insert_links f i d from page seen ls = Ok d' →
  d' = with_links d (links d ++ (link_row d from page <$> distinct_links seen ls)).
Proof.
  revert i d seen. induction ls as [|l ls IH]; intros i d seen H; cbn in *.
  - injection H as <-. rewrite app_nil_r. by destruct d.
  - case_bool_decide; [by apply IH in H|]. open_transaction. apply latest_page_id_for_link_Ok in Hr as ->.
    apply IH in H as ->. unfold with_links at 1. cbn. rewrite <- app_assoc. done.
Qed.

Lemma elem_distinct seen ls l :
  l ∈ distinct_links seen ls → l ∈ ls ∧ link_key l ∉ seen.
Proof.
  revert seen. induction ls as [|l' ls IH]; intros seen H; cbn in *; [by apply elem_of_nil in H|].
  case_bool_decide as E.
  - apply IH in H as [? ?]. split; [by right|done].
  - apply elem_of_cons in H as [->|H]; [split; [left|done]|]. apply IH in H as [? H]. split; [by right|].
    intros Hs. apply H. by right.
Qed.

Lemma distinct_keys seen ls : NoDup (link_key <$> distinct_links seen ls).
Proof.
  revert seen. induction ls as [|l ls IH]; intros seen; cbn; [constructor|].
  case_bool_decide; [apply IH|]. rewrite fmap_cons, NoDup_cons. split; [|apply IH].
  intros (l' & E & H')%list_elem_of_fmap. apply elem_distinct in H' as [_ H']. apply H'. rewrite E. left.
Qed.

(** Every link is written, under its key. *)
Lemma distinct_covers seen ls l :
  l ∈ ls → link_key l ∈ seen ∨ ∃ l', l' ∈ distinct_links seen ls ∧ link_key l' = link_key l.
Proof.
  revert seen. induction ls as [|l' ls IH]; intros seen H; [by apply elem_of_nil in H|]. cbn.
  apply elem_of_cons in H as [<-|H].
  - case_bool_decide; [by left|]. right. exists l. split; [left|done].
  - case_bool_decide; [by apply IH|]. apply (IH (link_key l' :: seen)) in H as [[->|H]%elem_of_cons|(l0 & H & E)].
    + right. exists l'. split; [left|done].
    + by left.
    + right. exists l0. split; [by right|done].
Qed.

Lemma link_type_inj l l' : link_type l = link_type l' → lt_relation l = lt_relation l'.
Proof. unfold link_type. by destruct (lt_relation l) as [[]|], (lt_relation l') as [[]|]. Qed.

Lemma link_workspace_global l :
  link_workspace_name l = None → lt_project l ≠ Some GLOBAL_SCOPE_PROJECT.
Proof.
  unfold link_workspace_name. intros H E. rewrite E in H. destruct (lt_workspace l); [done|].
  by rewrite bool_decide_eq_true_2 in H.
Qed.

(** ** Entities *)

Definition entity_key (e : EntityRow) : WorkspaceId * ProjectId * bytes := (en_workspace e, en_project e, en_name e).

Definition same_scope (e : EntityRow) (r : PageRow) : Prop :=
  en_workspace e = p_workspace r ∧ en_project e = p_project r.

Record entities_ok (rows : list PageRow) (es : list EntityRow) (els : list EntityLink) : Prop := {
  eo_ids : NoDup (en_id <$> es);
  eo_names : NoDup (entity_key <$> es);
  eo_keys : NoDup ((λ l, (el_entity l, el_page l)) <$> els);
  eo_link l : l ∈ els → ∃ e r, e ∈ es ∧ r ∈ rows ∧ en_id e = el_entity l ∧ p_id r = el_page l ∧ same_scope e r;
  (** A mention is current exactly while its version is the latest. *)
  eo_window l r : l ∈ els → r ∈ rows → p_id r = el_page l → (el_superseded_at l = None ↔ p_latest r = true);
}.

(** The page has the entity of this name. *)
Definition mentions (d : PageDb) (id : PageId) (name : bytes) : Prop :=
  ∃ e l, e ∈ entities d ∧ l ∈ entity_links d ∧ el_entity l = en_id e ∧ el_page l = id ∧ en_name e = name.

Lemma same_entity_true ws pj name e :
  same_entity ws pj name e = true ↔ entity_key e = (ws, pj, name).
Proof.
  unfold same_entity, entity_key. rewrite !andb_true_iff, !bool_decide_eq_true. naive_solver.
Qed.

Lemma upsert_entity_Ok f i d ws pj name fresh now id d' :
  upsert_entity f i d ws pj name fresh now = Ok (id, d') →
  ∃ k, d' = with_entities d (entities d ++ k)
    ∧ (∃ e, e ∈ entities d ++ k ∧ en_id e = id ∧ entity_key e = (ws, pj, name))
    ∧ (NoDup (en_id <$> entities d) → NoDup (en_id <$> entities d ++ k))
    ∧ (NoDup (entity_key <$> entities d) → NoDup (entity_key <$> entities d ++ k)).
Proof.
  unfold upsert_entity. intros H. open_transaction. destruct (first_row _ _) as [e|] eqn:E; open_transaction.
  - apply first_row_Some in E as [He Hk%same_entity_true]. exists []. rewrite app_nil_r.
    split; [by destruct d'|]. split; [by exists e|done].
  - rewrite first_row_None in E. rewrite existsb_none in Hg0. exists [mkEntityRow id ws pj name now].
    split; [done|]. split.
    { eexists. split; [apply elem_of_app; right; left|done]. }
    assert (Hn : ∀ K (key : EntityRow → K) x, (∀ e, e ∈ entities d → key e ≠ key x) →
              NoDup (key <$> entities d) → NoDup (key <$> entities d ++ [x])).
    { intros K key x Hx Hn. rewrite fmap_app. apply NoDup_app. split; [done|]. split; [|apply NoDup_singleton].
      intros y (e & -> & He)%list_elem_of_fmap Hy%list_elem_of_singleton. by apply (Hx e). }
    split; intros Hnd; apply Hn; try done; intros e He Hk.
    + specialize (Hg0 e He). rewrite bool_decide_eq_false in Hg0. done.
    + specialize (E e He). apply not_true_iff_false in E. by apply E, same_entity_true.
Qed.

(** What [attach_names] does to the tables. *)
Record attached (d d' : PageDb) (id : PageId) (page : NewPage) (names : list bytes) : Prop := {
  ad_frame : d' = with_entity_links (with_entities d (entities d')) (entity_links d');
  ad_entities : ∃ k, entities d' = entities d ++ k;
  ad_links : ∃ k, entity_links d' = entity_links d ++ k
    ∧ ∀ l, l ∈ k → el_page l = id ∧ el_superseded_at l = None
        ∧ ∃ e, e ∈ entities d' ∧ en_id e = el_entity l ∧ en_name e ∈ names;
  ad_mentions name : name ∈ names → mentions d' id name;
  ad_ok r : r ∈ pages d → p_id r = id → p_latest r = true → NoDup (p_id <$> pages d) →
    entities_ok (pages d) (entities d) (entity_links d) → entities_ok (pages d) (entities d') (entity_links d');
}.

Lemma attached_refl d id page : attached d d id page [].
Proof.
  split.
  - by destruct d.
  - exists []. by rewrite app_nil_r.
  - exists []. rewrite app_nil_r. split; [done|]. by intros l ?%elem_of_nil.
  - by intros ? ?%elem_of_nil.
  - done.
Qed.

Lemma attach_one f i d id page name fresh at_ now eid d1 d' :
  upsert_entity f i d (np_workspace page) (np_project page) name fresh now = Ok (eid, d1) →
  insert_entity_link f i d1 eid id at_ = Ok d' → attached d d' id page [name].
Proof.
  intros (k & -> & (e & He & Heid & Hek) & Hids & Hnames)%upsert_entity_Ok H.
  unfold insert_entity_link in H. open_transaction. cbn [with_entities entities pages entity_links] in *.
  apply negb_false_iff, existsb_elem in Hg as (e' & He' & [Hi%bool_decide_eq_true Hp]%andb_true_iff).
  apply existsb_elem in Hp as (r' & Hr' & Hp). rewrite !andb_true_iff, !bool_decide_eq_true, is_page_true in Hp.
  destruct Hp as [[Hpid Hpw] Hpp].
  assert (Hname : en_name e = name) by (unfold entity_key in Hek; congruence).
  assert (Hk : ∃ j, d' = with_entity_links (with_entities d (entities d ++ k)) (entity_links d ++ j)
     ∧ (∀ l, l ∈ j → l = mkEntityLink (en_id e) id at_ None)
     ∧ (∃ l, l ∈ entity_links d ++ j ∧ el_entity l = en_id e ∧ el_page l = id)
     ∧ (NoDup ((λ l, (el_entity l, el_page l)) <$> entity_links d) →
        NoDup ((λ l, (el_entity l, el_page l)) <$> entity_links d ++ j))).
  { destruct (existsb _ _) eqn:E; injection H as <-.
    - apply existsb_elem in E as (l & Hl & [??]%andb_true_iff). rewrite !bool_decide_eq_true in *.
      exists []. rewrite app_nil_r. split; [done|]. split; [by intros ? ?%elem_of_nil|]. split; [by exists l|done].
    - rewrite existsb_none in E. exists [mkEntityLink (en_id e) id at_ None]. split; [done|].
      split; [by intros l ->%list_elem_of_singleton|]. split.
      { eexists. split; [apply elem_of_app; right; left|done]. }
      intros Hn. rewrite fmap_app. apply NoDup_app. split; [done|]. split; [|apply NoDup_singleton].
      intros y (l & -> & Hl)%list_elem_of_fmap [= E1 E2]%list_elem_of_singleton. specialize (E l Hl).
      rewrite andb_false_iff, !bool_decide_eq_false in E. naive_solver. }
  clear H. destruct Hk as (j & -> & Hj & (l & Hl & Hle & Hlp) & Hkeys).
  cbn [with_entity_links with_entities entities entity_links pages] in *. split.
  - done.
  - by exists k.
  - exists j. split; [done|]. intros l' Hl'. rewrite (Hj _ Hl'). split; [done|]. split; [done|].
    exists e. split; [done|]. split; [done|]. rewrite Hname. left.
  - intros name' ->%list_elem_of_singleton. exists e, l. by repeat split.
  - intros r Hr Hid Hlat Hn Hok. split.
    + apply Hids, Hok.
    + apply Hnames, Hok.
    + apply Hkeys, Hok.
    + intros l' [Hl'|Hl']%elem_of_app.
      * destruct (eo_link _ _ _ Hok l' Hl') as (e0 & r0 & He0 & Hr0 & ? & ? & ?). exists e0, r0.
        split; [apply elem_of_app; by left|done].
      * rewrite (Hj _ Hl'). cbn. by exists e', r'.
    + intros l' r0 [Hl'|Hl']%elem_of_app Hr0 Hi0; [by apply (eo_window _ _ _ Hok)|].
      rewrite (Hj _ Hl') in Hi0 |- *. cbn in *.
      assert (r0 = r) as -> by (eapply (key_unique p_id); [done..|congruence]). by rewrite Hlat.
Qed.

Lemma mentions_mono d d' id name :
  (∀ e, e ∈ entities d → e ∈ entities d') → (∀ l, l ∈ entity_links d → l ∈ entity_links d') →
  mentions d id name → mentions d' id name.
Proof. unfold mentions. naive_solver. Qed.

Lemma attached_trans d d1 d' id page names names' :
  attached d d1 id page names → attached d1 d' id page names' → attached d d' id page (names ++ names').
Proof.
  intros [F (k & Hk) (j & Hj & Hjs) M O] [F' (k' & Hk') (j' & Hj' & Hjs') M' O'].
  assert (Hpages : pages d1 = pages d) by (by rewrite F). split.
  - rewrite F' at 1. rewrite F at 1. done.
  - exists (k ++ k'). by rewrite Hk', Hk, app_assoc.
  - exists (j ++ j'). rewrite Hj', Hj, app_assoc. split; [done|]. intros l [Hl|Hl]%elem_of_app.
    + destruct (Hjs l Hl) as (? & ? & e & He & ? & ?). repeat split; [done..|]. exists e.
      rewrite Hk'. split; [apply elem_of_app; by left|]. split; [done|]. apply elem_of_app. by left.
    + destruct (Hjs' l Hl) as (? & ? & e & He & ? & ?). repeat split; [done..|]. exists e.
      split; [done|]. split; [done|]. apply elem_of_app. by right.
  - intros name [Hn|Hn]%elem_of_app; [|by apply M'].
    eapply mentions_mono; [| |by apply M]; intros x Hx; rewrite ?Hk', ?Hj'; apply elem_of_app; by left.
  - intros r Hr Hid Hlat Hn Hok. specialize (O r Hr Hid Hlat Hn Hok). rewrite <- Hpages in *. eauto.
Qed.

Lemma attach_names_Ok f i d id page fresh at_ now names d' :
  attach_names f i d id page fresh at_ now names = Ok d' → attached d d' id page names.
Proof.
  revert i d. induction names as [|name names IH]; intros i d H; cbn in H.
  { injection H as <-. apply attached_refl. }
  apply result_bind_Ok in H as ([eid d1] & H1 & H). apply result_bind_Ok in H as (d2 & H2 & H).
  apply (attached_trans d d2 d' id page [name]); [by eapply attach_one|by eapply IH].
Qed.

(** ** Evidence *)

Definition evidence_key (r : EvidenceRow) : PageId * string * bytes := (er_page r, er_kind r, er_source r).

Definition evidence_row (id : PageId) (now : Z) (e : PageEvidence) : EvidenceRow :=
  mkEvidenceRow id (evidence_as_str (ev_kind e)) (ev_source e) now.

Definition add_evidence (id : PageId) (now : Z) (rows : list EvidenceRow) (e : PageEvidence) : list EvidenceRow :=
  if bool_decide (evidence_key (evidence_row id now e) ∈ evidence_key <$> rows) then rows
  else rows ++ [evidence_row id now e].

Lemma insert_evidence_Ok f i d id now ev d' :
  insert_evidence f i d id now ev = Ok d' →
  d' = with_evidence d (foldl (add_evidence id now) (evidence d) ev).
Proof.
  revert i d. induction ev as [|e ev IH]; intros i d H; cbn in *.
  { injection H as <-. by destruct d. }
  open_transaction. apply IH in H as ->. unfold with_evidence at 1. cbn. unfold with_evidence. do 2 f_equal.
  unfold add_evidence. destruct (existsb _ _) eqn:E.
  - rewrite bool_decide_eq_true_2; [done|]. apply existsb_elem in E as (r & Hr & E).
    rewrite !andb_true_iff, !bool_decide_eq_true in E. destruct E as [[E1 E2] E3].
    apply list_elem_of_fmap. exists r. unfold evidence_key. cbn in *. by rewrite E1, E2, E3.
  - rewrite bool_decide_eq_false_2; [done|]. intros (r & Hk & Hr)%list_elem_of_fmap.
    rewrite existsb_none in E. specialize (E r Hr). injection Hk as E1 E2 E3. cbn in E.
    by rewrite <- E1, <- E2, <- E3, !bool_decide_eq_true_2 in E.
Qed.

Record evidence_ok (rows : list PageRow) (ev : list EvidenceRow) : Prop := {
  vo_keys : NoDup (evidence_key <$> ev);
  vo_page e : e ∈ ev → er_page e ∈ p_id <$> rows;
}.

Lemma add_evidence_ok rows id now ev e :
  id ∈ p_id <$> rows → evidence_ok rows ev → evidence_ok rows (add_evidence id now ev e).
Proof.
  intros Hid [Hn Hp]. unfold add_evidence. case_bool_decide as Hk; [by split|]. split.
  - rewrite fmap_app. apply NoDup_app. split; [done|]. split; [|apply NoDup_singleton].
    by intros x Hx ->%list_elem_of_singleton.
  - intros e' [He'| ->%list_elem_of_singleton]%elem_of_app; [by apply Hp|done].
Qed.

Lemma evidence_added_ok rows id now l ev :
  id ∈ p_id <$> rows → evidence_ok rows ev → evidence_ok rows (foldl (add_evidence id now) ev l).
Proof.
  intros Hid. revert ev. induction l as [|e l IH]; intros ev Hok; [done|]. cbn. by apply IH, add_evidence_ok.
Qed.

(** What is added is what is new. *)
Lemma elem_evidence_added id now l ev r :
  r ∈ foldl (add_evidence id now) ev l → r ∈ ev ∨ ∃ e, e ∈ l ∧ r = evidence_row id now e.
Proof.
  revert ev. induction l as [|e l IH]; intros ev H; cbn in H; [by left|].
  apply IH in H as [H|(e' & He' & ->)]; [|right; exists e'; split; [by right|done]].
  unfold add_evidence in H. case_bool_decide; [by left|].
  apply elem_of_app in H as [H| ->%list_elem_of_singleton]; [by left|]. right. exists e. split; [left|done].
Qed.

Lemma evidence_added_covers id now l ev k :
  k ∈ evidence_key <$> ev ∨ (∃ e, e ∈ l ∧ k = evidence_key (evidence_row id now e)) →
  k ∈ evidence_key <$> foldl (add_evidence id now) ev l.
Proof.
  revert ev. induction l as [|e l IH]; intros ev [H|(e' & He' & ->)]; cbn; try done.
  - by apply elem_of_nil in He'.
  - apply IH. left. unfold add_evidence. case_bool_decide; [done|]. rewrite fmap_app. apply elem_of_app. by left.
  - apply elem_of_cons in He' as [->|He'].
    + apply IH. left. unfold add_evidence. case_bool_decide; [done|]. rewrite fmap_app.
      apply elem_of_app. right. left.
    + apply IH. right. by exists e'.
Qed.

(** ** The links after a new version *)

Section LinksWritten.
Context (scopes : Db) (Hscopes : db_ok scopes).

Lemma scope_from_row ws pj d id page l :
  pd_scopes d = scopes → scope_from scopes ws pj (link_row d id page l) = target_scope scopes ws pj l.
Proof. done. Qed.

Lemma paired_project new :
  paired scopes new = true → ∃ p, p ∈ projects scopes ∧ pt_id p = p_project new ∧ pt_workspace p = p_workspace new.
Proof.
  intros (p & Hp & [?%bool_decide_eq_true ?%bool_decide_eq_true]%andb_true_iff)%existsb_elem. by exists p.
Qed.

(** What [links_ok] needs to know of a write. *)
Record new_version (rows rows' : list PageRow) (new : PageRow) : Prop := {
  nv_ids : NoDup (p_id <$> rows');
  nv_new : new ∈ rows';
  nv_fresh : p_id new ∉ p_id <$> rows;
  nv_latest : p_latest new = true;
  nv_paired : paired scopes new = true;
  nv_kept r : r ∈ rows → ∃ r', r' ∈ rows' ∧ p_id r' = p_id r ∧ same_path r r';
  nv_old r' : r' ∈ rows' → r' = new ∨
    (∃ r, r ∈ rows ∧ p_id r = p_id r' ∧ same_path r' r ∧ (p_latest r' = true → p_latest r = true));
  nv_only r r' : r ∈ rows' → r' ∈ rows' → p_latest r = true → p_latest r' = true → same_path r r' → r = r';
}.

Lemma links_written_ok d rows new page ls :
  pd_scopes d = scopes → new_version rows (pages d) new → links_ok scopes rows ls →
  p_workspace new = np_workspace page → p_project new = np_project page → p_path new = np_path page →
  links_ok scopes (pages d)
    (update_where (incoming d (np_workspace page) (np_project page) (np_path page)) (point_to (p_id new))
       (ls ++ (link_row d (p_id new) page <$> distinct_links [] (np_links page)))).
Proof.
  intros Es [Hids Hnew Hfresh Hlat Hpair Hkept Hold Honly] Hok Ew Ep Epath.
  set (id := p_id new). set (news := link_row d id page <$> _). set (all := ls ++ news).
  assert (Hfrom : ∀ l, l ∈ all → l_from l ∈ p_id <$> pages d).
  { intros l [Hl|(lt & -> & _)%list_elem_of_fmap]%elem_of_app; [|by apply list_elem_of_fmap; exists new].
    pose proof (lo_from _ _ _ Hok l Hl) as (r & -> & Hr)%list_elem_of_fmap.
    destruct (Hkept r Hr) as (r' & Hr' & <- & _). apply list_elem_of_fmap. by exists r'. }
  assert (Hglobal : ∀ l, l ∈ all → l_workspace l = None → l_project l ≠ Some GLOBAL_SCOPE_PROJECT).
  { intros l [Hl|(lt & -> & _)%list_elem_of_fmap]%elem_of_app; [by apply (lo_global _ _ _ Hok)|].
    apply link_workspace_global. }
  assert (Hin : ∀ l, l ∈ all → incoming d (np_workspace page) (np_project page) (np_path page) l = true
                      ↔ names_row scopes (pages d) l new).
  { intros l Hl. unfold names_row. rewrite Ew, Ep, Epath.
    apply incoming_names; auto. rewrite <- Ew, <- Ep. by apply paired_project. }
  assert (Hup : ∀ l ws pj path, l ∈ ls → names_page scopes rows l ws pj path → names_page scopes (pages d) l ws pj path).
  { intros l ws pj path _. apply names_kept. intros r Hr _. by apply Hkept. }
  assert (Hdown : ∀ l ws pj path, l ∈ ls → names_page scopes (pages d) l ws pj path → names_page scopes rows l ws pj path).
  { intros l ws pj path Hl. apply names_kept. intros r' Hr' Hid.
    destruct (Hold r' Hr') as [->|(r & Hr & Hir & Hs & _)]; [|by exists r].
    destruct Hfresh. rewrite Hid. by apply (lo_from _ _ _ Hok). }
  assert (Hnames : ∀ lt r, names_row scopes (pages d) (link_row d id page lt) r →
            target_scope scopes (np_workspace page) (np_project page) lt = Some (p_workspace r, p_project r)
            ∧ lt_path lt = p_path r).
  { intros lt r (Hp & f & Hf & Hi & Hs). split; [|done].
    assert (f = new) as -> by (by eapply (key_unique p_id)). by rewrite Ew, Ep in Hs. }
  assert (Htarget : ∀ lt x, link_target d page lt = Some x →
            ∃ r, r ∈ pages d ∧ p_id r = x ∧ p_latest r = true ∧ names_row scopes (pages d) (link_row d id page lt) r).
  { intros lt x H. unfold link_target in H. apply bind_Some in H as ([ws pj] & Hs & H).
    unfold latest_page_id in H. apply fmap_Some in H as (r & H & ->). apply first_row_Some in H as [Hr H].
    apply latest_at_true in H as [(Hrw & Hrp & Hrpath) Hrl]. exists r. split; [done|]. split; [done|]. split; [done|].
    split; [done|]. exists new. split; [done|]. split; [done|]. rewrite Ew, Ep, Hrw, Hrp. by rewrite <- Es. }
  assert (Hfound : ∀ lt r, r ∈ pages d → p_latest r = true →
            names_row scopes (pages d) (link_row d id page lt) r → link_target d page lt = Some (p_id r)).
  { intros lt r Hr Hl [Hs Hp]%Hnames. unfold link_target. rewrite Es, Hs. cbn. unfold latest_page_id.
    rewrite (first_row_unique _ _ r); [done|done|rewrite Hp; by apply latest_at_true|].
    intros r' Hr' [(? & ? & ?) ?]%latest_at_true. apply Honly; [done..|]. unfold same_path. by rewrite <- Hp. }
  split.
  - intros l (l0 & Hl0 & ->)%elem_update_where. destruct (incoming _ _ _ _ l0); exact (Hfrom l0 Hl0).
  - intros l (l0 & Hl0 & ->)%elem_update_where. destruct (incoming _ _ _ _ l0); exact (Hglobal l0 Hl0).
  - rewrite fmap_update_where by done. unfold all. rewrite fmap_app. apply NoDup_app. split; [apply Hok|]. split.
    + intros k (l & -> & Hl)%list_elem_of_fmap (l' & Hk & (lt & -> & _)%list_elem_of_fmap)%list_elem_of_fmap.
      apply Hfresh. replace (p_id new) with (l_from l) by exact (f_equal (λ k, k.1.1.1.1) Hk).
      by apply (lo_from _ _ _ Hok).
    + unfold news. rewrite <- list_fmap_compose. pose proof (distinct_keys [] (np_links page)) as Hd.
      apply NoDup_fmap_2_strong; [|by eapply NoDup_fmap_1]. intros lt lt' Hlt Hlt' [= E1 E2 E3 E4%link_type_inj].
      apply (key_unique link_key _ _ _ Hd Hlt Hlt'). unfold link_key. congruence.
  - intros l r (l0 & Hl0 & ->)%elem_update_where Hr Hl Hn.
    assert (Hn0 : names_row scopes (pages d) l0 r) by (by destruct (incoming _ _ _ _ l0)).
    destruct (incoming _ _ _ _ l0) eqn:Ei.
    + apply (Hin l0 Hl0) in Ei. destruct (names_unique _ _ _ _ _ _ _ _ _ Hids Hn0 Ei) as (? & ? & ?).
      cbn. f_equal. f_equal. by apply Honly.
    + assert (Hne : r ≠ new).
      { intros ->. apply (Hin l0 Hl0) in Hn0. congruence. }
      apply elem_of_app in Hl0 as [Hl0|(lt & -> & _)%list_elem_of_fmap].
      * destruct (Hold r Hr) as [->|(r0 & Hr0 & <- & (Hw & Hp & Hpath) & Hll)]; [done|].
        apply (lo_resolved _ _ _ Hok); auto. apply Hdown; [done|]. unfold names_row in Hn0. congruence.
      * by apply Hfound.
  - intros l x (l0 & Hl0 & ->)%elem_update_where Hx. destruct (incoming _ _ _ _ l0) eqn:Ei.
    + injection Hx as <-. exists new. split; [done|]. split; [done|]. by apply (Hin l0 Hl0).
    + apply elem_of_app in Hl0 as [Hl0|(lt & -> & _)%list_elem_of_fmap].
      * destruct (lo_to _ _ _ Hok l0 x Hl0 Hx) as (r & Hr & <- & Hn). destruct (Hkept r Hr) as (r' & Hr' & Hi & Hs).
        exists r'. split; [done|]. split; [done|]. destruct Hs as (Hw & Hp & Hpath). unfold names_row.
        rewrite <- Hw, <- Hp, <- Hpath. by apply Hup.
      * destruct (Htarget lt x Hx) as (r & Hr & Hi & _ & Hn). by exists r.
Qed.
End LinksWritten.
