(* ===== verification/PagesInvariant.v ===== *)
(** * The tables of pages stay well-formed

    [pages_ok] holds of all page tables together; every command of the writer
    keeps it, whatever the faults, the clocks and the ids it draws. *)

From S2P Require Export PagesTables.
From S2P Require Import FtsQuery.
Open Scope nat_scope.
Open Scope rust_scope.

(** ** Entities when versions come and go *)

Lemma entities_closed_ok rows (hit : PageRow → bool) g x now es els :
  NoDup (p_id <$> rows) → (∀ r, same_version r (g r)) → (∀ r, p_latest (g r) = false) →
  (∀ r, r ∈ rows → hit r = true ↔ p_id r = x) → entities_ok rows es els →
  entities_ok (update_where hit g rows) es (update_where (open_window_of x) (close_window now) els).
Proof.
  intros Hn Hg Hlat Hhit Hok.
  assert (Hrow : ∀ r, r ∈ rows → p_id (if hit r then g r else r) = p_id r).
  { intros r _. destruct (hit r); [apply (sv_id _ _ (Hg r))|done]. }
  split.
  - apply Hok.
  - apply Hok.
  - rewrite fmap_update_where by done. apply Hok.
  - intros l (l0 & Hl0 & ->)%elem_update_where. destruct (eo_link _ _ _ Hok l0 Hl0) as (e & r & He & Hr & He' & Hr' & Hs).
    exists e, (if hit r then g r else r). split; [done|]. split; [apply elem_update_where; by exists r|].
    split; [by destruct (open_window_of x l0)|]. rewrite Hrow by done.
    split; [by destruct (open_window_of x l0)|]. destruct (hit r); [|done]. unfold same_scope in *.
    destruct (sv_path _ _ (Hg r)) as (<- & <- & _). done.
  - intros l r (l0 & Hl0 & ->)%elem_update_where (r0 & Hr0 & ->)%elem_update_where. rewrite Hrow by done. intros Hid.
    assert (Hid0 : p_id r0 = el_page l0) by (by destruct (open_window_of x l0)).
    pose proof (eo_window _ _ _ Hok l0 r0 Hl0 Hr0 Hid0) as Hw. destruct (hit r0) eqn:E.
    + rewrite Hlat. split; [|done]. unfold open_window_of.
      apply Hhit in E; [|done]. rewrite <- Hid0, E, bool_decide_eq_true_2 by done. cbn. by case_bool_decide.
    + replace (open_window_of x l0) with false; [done|]. symmetry. unfold open_window_of.
      rewrite bool_decide_eq_false_2; [done|]. rewrite <- Hid0. intros E'. apply Hhit in E'; [congruence|done].
Qed.

Lemma entities_revive_ok rows p es els :
  entities_ok rows es els → entities_ok (update_where p revive_row rows) es els.
Proof.
  intros Hok. split; try apply Hok.
  - intros l Hl. destruct (eo_link _ _ _ Hok l Hl) as (e & r & He & Hr & He' & Hr' & Hs).
    exists e, (if p r then revive_row r else r). split; [done|]. split; [apply elem_update_where; by exists r|].
    by destruct (p r).
  - intros l r Hl (r0 & Hr0 & ->)%elem_update_where Hid.
    pose proof (eo_window _ _ _ Hok l r0 Hl Hr0) as Hw. destruct (p r0); cbn in *; by apply Hw.
Qed.

Lemma entities_add_row rows new es els :
  p_id new ∉ p_id <$> rows → entities_ok rows es els → entities_ok (rows ++ [new]) es els.
Proof.
  intros Hf Hok. split; try apply Hok.
  - intros l Hl. destruct (eo_link _ _ _ Hok l Hl) as (e & r & He & Hr & ?). exists e, r.
    split; [done|]. split; [apply elem_of_app; by left|done].
  - intros l r Hl [Hr| ->%list_elem_of_singleton]%elem_of_app Hid; [by apply (eo_window _ _ _ Hok)|].
    destruct Hf. destruct (eo_link _ _ _ Hok l Hl) as (e & r & He & Hr & _ & Hi & _).
    apply list_elem_of_fmap. exists r. split; [congruence|done].
Qed.

Lemma entities_surviving_ok dead rows es els :
  entities_ok rows es els → entities_ok (surviving dead rows) es (List.filter (alive dead el_page) els).
Proof.
  assert (Hal : ∀ l, alive dead el_page l = true ↔ el_page l ∉ dead).
  { intros l. unfold alive. by rewrite negb_true_iff, bool_decide_eq_false. }
  intros Hok. split.
  - apply Hok.
  - apply Hok.
  - apply NoDup_key_filter, Hok.
  - intros l [Hl Ha%Hal]%elem_filter. destruct (eo_link _ _ _ Hok l Hl) as (e & r & He & Hr & He' & Hr' & Hs).
    exists e, (drop_supersedes dead r). split; [done|]. split; [|done].
    apply elem_surviving. exists r. by rewrite Hr'.
  - intros l r [Hl _]%elem_filter (r0 & Hr0 & _ & ->)%elem_surviving Hid. exact (eo_window _ _ _ Hok l r0 Hl Hr0 Hid).
Qed.

Lemma entities_unmentioned_ok rows d ws pj :
  entities_ok rows (entities d) (entity_links d) →
  entities_ok rows (entities (drop_unmentioned d ws pj)) (entity_links (drop_unmentioned d ws pj)).
Proof.
  intros Hok. cbn. split; try apply Hok.
  - apply NoDup_key_filter, Hok.
  - apply NoDup_key_filter, Hok.
  - intros l Hl. destruct (eo_link _ _ _ Hok l Hl) as (e & r & He & Hr & He' & ?).
    exists e, r. split; [|done]. apply elem_filter. split; [done|]. apply negb_true_iff. unfold unmentioned.
    apply andb_false_iff. right. apply negb_false_iff, existsb_elem. exists l. split; [done|]. by apply bool_decide_eq_true.
Qed.

(** ** Links when versions come and go *)

Lemma links_retire_ok scopes rows hit g ls :
  (∀ r, same_version r (g r)) → (∀ r, p_latest (g r) = true → p_latest r = true) → links_ok scopes rows ls →
  links_ok scopes (update_where hit g rows) ls.
Proof.
  intros Hg Hlat Hok.
  assert (Hv : ∀ r, same_version r (if hit r then g r else r)).
  { intros r. destruct (hit r); [done|apply same_version_refl]. }
  assert (Hup : ∀ l ws pj path, names_page scopes rows l ws pj path → names_page scopes (update_where hit g rows) l ws pj path).
  { intros l ws pj path. apply names_kept. intros r Hr _. exists (if hit r then g r else r).
    split; [apply elem_update_where; by exists r|]. split; apply Hv. }
  assert (Hdown : ∀ l ws pj path, names_page scopes (update_where hit g rows) l ws pj path → names_page scopes rows l ws pj path).
  { intros l ws pj path. apply names_kept. intros r (r0 & Hr0 & ->)%elem_update_where _. exists r0. split; [done|].
    split; [symmetry; apply Hv|apply same_path_sym, Hv]. }
  split; try apply Hok.
  - intros l Hl. pose proof (lo_from _ _ _ Hok l Hl) as (r & -> & Hr)%list_elem_of_fmap. apply list_elem_of_fmap.
    exists (if hit r then g r else r). split; [symmetry; apply Hv|]. apply elem_update_where. by exists r.
  - intros l r Hl (r0 & Hr0 & ->)%elem_update_where Hla Hn. rewrite (sv_id _ _ (Hv r0)).
    apply (lo_resolved _ _ _ Hok); [done..| |].
    + destruct (hit r0); auto.
    + apply Hdown in Hn. unfold names_row. by destruct (sv_path _ _ (Hv r0)) as (-> & -> & ->).
  - intros l x Hl Hx. destruct (lo_to _ _ _ Hok l x Hl Hx) as (r & Hr & <- & Hn).
    exists (if hit r then g r else r). split; [apply elem_update_where; by exists r|]. split; [apply Hv|].
    apply Hup in Hn. unfold names_row in *. by destruct (sv_path _ _ (Hv r)) as (<- & <- & <-).
Qed.

Lemma links_surviving_ok scopes dead rows ls :
  links_ok scopes rows ls →
  links_ok scopes (surviving dead rows) (unlink dead <$> List.filter (alive dead l_from) ls).
Proof.
  intros Hok.
  assert (Hal : ∀ l, alive dead l_from l = true ↔ l_from l ∉ dead).
  { intros l. unfold alive. by rewrite negb_true_iff, bool_decide_eq_false. }
  assert (Hup : ∀ l ws pj path, l_from l ∉ dead → names_page scopes rows l ws pj path →
            names_page scopes (surviving dead rows) (unlink dead l) ws pj path).
  { intros l ws pj path Hd (Hp & f & Hf & Hi & Hs). split; [done|]. exists (drop_supersedes dead f).
    split; [apply elem_surviving; exists f; by rewrite Hi|]. done. }
  assert (Hdown : ∀ l ws pj path, names_page scopes (surviving dead rows) (unlink dead l) ws pj path →
            names_page scopes rows l ws pj path).
  { intros l ws pj path (Hp & f & (f0 & Hf & _ & ->)%elem_surviving & Hi & Hs). split; [done|]. by exists f0. }
  split.
  - intros l (l0 & -> & [Hl0 Ha%Hal]%elem_filter)%list_elem_of_fmap.
    pose proof (lo_from _ _ _ Hok l0 Hl0) as (r & Hi & Hr)%list_elem_of_fmap. apply list_elem_of_fmap.
    exists (drop_supersedes dead r). split; [done|]. apply elem_surviving. exists r. by rewrite <- Hi.
  - intros l (l0 & -> & [Hl0 _]%elem_filter)%list_elem_of_fmap. exact (lo_global _ _ _ Hok l0 Hl0).
  - rewrite <- list_fmap_compose. rewrite (list_fmap_ext _ link_pk) by done. apply NoDup_key_filter, Hok.
  - intros l r (l0 & -> & [Hl0 _]%elem_filter)%list_elem_of_fmap (r0 & Hr0 & Hd & ->)%elem_surviving Hla Hn.
    cbn. rewrite (lo_resolved _ _ _ Hok l0 r0 Hl0 Hr0 Hla (Hdown _ _ _ _ Hn)). cbn. by rewrite bool_decide_eq_false_2.
  - intros l x (l0 & -> & [Hl0 Ha%Hal]%elem_filter)%list_elem_of_fmap [Hx Hd]%orphaned_Some.
    destruct (lo_to _ _ _ Hok l0 x Hl0 Hx) as (r & Hr & <- & Hn). exists (drop_supersedes dead r).
    split; [apply elem_surviving; by exists r|]. split; [done|]. by apply Hup.
Qed.

(** ** All tables *)

Section Invariant.
Context (env : PageEnv).

Definition cjk_of (r : PageRow) : CjkRow :=
  let terms := cjk_index_terms (pe_is_alphanumeric env) in
  (p_id r, (terms (p_title r), terms (p_body r), terms (p_path_search r))).

Record pages_ok (d : PageDb) : Prop := {
  po_scopes : db_ok (pd_scopes d);
  po_rows : rows_ok env (pd_scopes d) (pages d);
  po_search r : r ∈ pages d → p_path_search r = path_search_text (p_path r);
  po_links : links_ok (pd_scopes d) (pages d) (links d);
  po_entities : entities_ok (pages d) (entities d) (entity_links d);
  po_evidence : evidence_ok (pages d) (evidence d);
  (** The CJK index holds the terms of every version, in the order of the
      table. *)
  po_cjk : cjk_index d = cjk_of <$> pages d;
}.

(** ** Writing a version *)

(** What [finish_version] leaves, given the tables with the new version in
    [pages]. *)
Record finished (d d' : PageDb) (id : PageId) (page : NewPage) (op : string) (now : Z) : Prop := {
  fi_scopes : pd_scopes d' = pd_scopes d;
  fi_pages : pages d' = pages d;
  fi_purged : purged_sessions d' = purged_sessions d;
  (** Its links replace those stored under its id, and the links that name the
      page are pointed to it; ... *)
  fi_links : links d' =
    update_where (incoming d (np_workspace page) (np_project page) (np_path page)) (point_to id)
      (List.filter (λ l, negb (bool_decide (l_from l = id))) (links d)
       ++ (link_row d id page <$> distinct_links [] (np_links page)));
  (** ... it mentions its entities, ... *)
  fi_entities : attached d (with_entity_links (with_entities d (entities d')) (entity_links d')) id page
                  (normalize_entities env (np_entities page));
  (** ... its evidence is kept once, its terms are indexed and the write is
      in the audit log. *)
  fi_evidence : evidence d' = foldl (add_evidence id now) (evidence d) (np_evidence page);
  fi_cjk : cjk_index d' = cjk_index d ++ [(id,
      (cjk_index_terms (pe_is_alphanumeric env) (np_title page),
       cjk_index_terms (pe_is_alphanumeric env) (np_body page),
       cjk_index_terms (pe_is_alphanumeric env) (path_search_text (np_path page))))];
  fi_log : page_log d' =
    page_log d ++ [mkOpsAudit now op (np_workspace page) (np_project page) (Some id) (np_author page) "{}"];
}.

Lemma attached_same d d1 d2 id page names :
  attached d1 d2 id page names →
  pages d1 = pages d → entities d1 = entities d → entity_links d1 = entity_links d →
  attached d (with_entity_links (with_entities d (entities d2)) (entity_links d2)) id page names.
Proof. intros [F E L M O] Ep Ee El. split; cbn; try rewrite <- ?Ep, <- ?Ee, <- ?El; done. Qed.

Lemma attach_entities_Ok f d id page fresh at_ clock d' :
  attach_entities_in_tx env f d id page fresh at_ clock = Ok d' →
  attached d d' id page (normalize_entities env (np_entities page)).
Proof.
  unfold attach_entities_in_tx. case_bool_decide as E; [|apply attach_names_Ok].
  rewrite E. intros [= <-]. apply attached_refl.
Qed.

Lemma finish_version_Ok f ids clock d page op now id d' :
  finish_version env f ids clock d page op now = Ok (id, d') →
  id = fr_page ids ∧ finished d d' id page op now.
Proof.
  unfold finish_version. intros H.
  apply result_bind_Ok in H as (d1 & H1 & H). apply result_bind_Ok in H as (d2 & H2 & H).
  apply result_bind_Ok in H as (d3 & H3 & H). apply result_bind_Ok in H as (d4 & H4 & H).
  apply result_bind_Ok in H as (d5 & H5 & H). apply result_bind_Ok in H as (log & H6 & H).
  injection H as <- <-. split; [done|].
  unfold index_page_cjk in H1. apply result_bind_Ok in H1 as (cjk & Hc%statement_Ok & [= <-]).
  unfold replace_links_in_tx in H2. apply result_bind_Ok in H2 as (ls & Hl%statement_Ok & H2).
  apply insert_links_Ok in H2 as ->. apply attach_entities_Ok in H3.
  apply refresh_Ok in H4. apply insert_evidence_Ok in H5. apply statement_Ok in H6.
  pose proof (ad_frame _ _ _ _ _ H3) as F. pose proof (attached_same d _ _ _ _ _ H3 eq_refl eq_refl eq_refl) as Ha.
  subst log d5 d4 ls cjk. rewrite F. split; try done.
Qed.

(** A version on top of the one it supersedes. *)
Record stacked (d d0 : PageDb) (prev : option PageRow) (g : PageRow → PageRow) (row : PageRow) : Prop := {
  sk_scopes : pd_scopes d0 = pd_scopes d;
  sk_pages : pages d0 = over prev g (pages d) ++ [row];
  sk_links : links d0 = links d;
  sk_entities : entities d0 = entities d;
  sk_evidence : evidence d0 = evidence d;
  sk_cjk : cjk_index d0 = cjk_index d;
  sk_rows : rows_ok env (pd_scopes d) (pages d0);
  sk_prev p : prev = Some p → p ∈ pages d ∧ retired p (g p);
  sk_mentions : entities_ok (over prev g (pages d)) (entities d) (entity_links d0);
  sk_latest : p_latest row = true;
  sk_fresh : p_id row ∉ p_id <$> pages d;
}.

Lemma over_versions d prev g :
  pages_ok d → (∀ p, prev = Some p → p ∈ pages d ∧ retired p (g p)) →
  versions_kept (pages d) (over prev g (pages d)).
Proof.
  intros Hok Hp. destruct prev as [p|]; cbn [over].
  - destruct (Hp p eq_refl) as [Hin Hr]. apply update_versions. intros r Hr' Hi%is_page_true.
    assert (r = p) as -> by (eapply ro_unique; [apply Hok|done..]). apply Hr.
  - unfold versions_kept. apply Forall2_same_length_lookup_2; [done|]. intros i x y Hx Hy.
    assert (x = y) as -> by congruence. apply same_version_refl.
Qed.

Lemma versions_elem rows rows' r :
  versions_kept rows rows' → r ∈ rows → ∃ r', r' ∈ rows' ∧ same_version r r'.
Proof.
  intros H Hr. apply list_elem_of_lookup in Hr as [i Hi].
  destruct (Forall2_lookup_l _ _ _ _ _ H Hi) as (r' & Hi' & Hv). exists r'. split; [|done].
  by eapply list_elem_of_lookup_2.
Qed.

Lemma stacked_version d d0 prev g row :
  pages_ok d → stacked d d0 prev g row → new_version (pd_scopes d) (pages d) (pages d0) row.
Proof.
  intros Hok S. pose proof (sk_rows _ _ _ _ _ S) as Hrows. pose proof (sk_pages _ _ _ _ _ S) as Ep.
  assert (Hnew : row ∈ pages d0) by (rewrite Ep; apply elem_of_app; right; left).
  split.
  - apply Hrows.
  - done.
  - apply S.
  - apply S.
  - by apply (ro_paired _ _ _ Hrows).
  - intros r Hr. destruct (versions_elem _ _ _ (over_versions _ _ _ Hok (sk_prev _ _ _ _ _ S)) Hr) as (r' & Hr' & Hv).
    exists r'. split; [rewrite Ep; apply elem_of_app; by left|]. split; apply Hv.
  - intros r' Hr'. rewrite Ep in Hr'. apply elem_of_app in Hr' as [Hr'| ->%list_elem_of_singleton]; [|by left].
    right. apply (elem_over env (pd_scopes d)) in Hr' as [[Hr' _]|(p & Hp & ->)];
      [by exists r'| |apply Hok|by apply S].
    destruct (sk_prev _ _ _ _ _ S p Hp) as [Hin Hrt]. exists p. split; [done|].
    split; [symmetry; apply Hrt|]. split; [apply same_path_sym, Hrt|]. by rewrite (rt_latest _ _ Hrt).
  - intros r r' Hr Hr' Hl Hl'. by apply (ro_latest _ _ _ _ _ Hrows).
Qed.

Lemma versions_cjk rows rows' : versions_kept rows rows' → cjk_of <$> rows' = cjk_of <$> rows.
Proof.
  induction 1 as [|r r' l l' H _ IH]; [done|]. rewrite !fmap_cons, IH. f_equal. unfold cjk_of.
  by rewrite (sv_id _ _ H), (sv_title _ _ H), (sv_body _ _ H), (sv_search _ _ H).
Qed.

Lemma versions_search rows rows' :
  versions_kept rows rows' → (∀ r, r ∈ rows → p_path_search r = path_search_text (p_path r)) →
  ∀ r, r ∈ rows' → p_path_search r = path_search_text (p_path r).
Proof.
  intros H Hs r' Hr'. apply list_elem_of_lookup in Hr' as [i Hi].
  destruct (Forall2_lookup_r _ _ _ _ _ H Hi) as (r & Hr & Hv). rewrite (sv_search _ _ Hv).
  destruct (sv_path _ _ Hv) as (_ & _ & <-). apply Hs. by eapply list_elem_of_lookup_2.
Qed.

Lemma evidence_rows_ok rows rows' ev :
  (∀ x, x ∈ p_id <$> rows → x ∈ p_id <$> rows') → evidence_ok rows ev → evidence_ok rows' ev.
Proof. intros H [Hk Hp]. split; [done|]. auto. Qed.

Lemma finished_ok d d0 d' page prev g op fm sup comp now id :
  pages_ok d → stacked d d0 prev g (new_row env page id fm sup comp now) →
  finished d0 d' id page op now → pages_ok d'.
Proof.
  set (row := new_row _ _ _ _ _ _ _). intros Hok S F.
  pose proof (sk_pages _ _ _ _ _ S) as Ep. pose proof (stacked_version _ _ _ _ _ Hok S) as Hnv.
  pose proof (over_versions _ _ _ Hok (sk_prev _ _ _ _ _ S)) as Hv.
  assert (Hid : id ∈ p_id <$> pages d0).
  { rewrite Ep, fmap_app. apply elem_of_app. right. left. }
  assert (Hfresh : id ∉ p_id <$> pages d) by apply S.
  assert (Hlinks : List.filter (λ l, negb (bool_decide (l_from l = id))) (links d0) = links d).
  { rewrite (sk_links _ _ _ _ _ S). apply List.forallb_filter_id, List.forallb_forall. intros l Hl%list_elem_of_In.
    apply negb_true_iff, bool_decide_eq_false. intros E. apply Hfresh. rewrite <- E.
    by apply (lo_from _ _ _ (po_links _ Hok)). }
  split.
  - rewrite (fi_scopes _ _ _ _ _ _ F), (sk_scopes _ _ _ _ _ S). apply Hok.
  - rewrite (fi_scopes _ _ _ _ _ _ F), (fi_pages _ _ _ _ _ _ F), (sk_scopes _ _ _ _ _ S). apply S.
  - rewrite (fi_pages _ _ _ _ _ _ F), Ep. intros r [Hr| ->%list_elem_of_singleton]%elem_of_app; [|done].
    eapply versions_search; [exact Hv|apply Hok|done].
  - rewrite (fi_links _ _ _ _ _ _ F), (fi_scopes _ _ _ _ _ _ F), (fi_pages _ _ _ _ _ _ F), (sk_scopes _ _ _ _ _ S), Hlinks.
    eapply (links_written_ok (pd_scopes d) (po_scopes _ Hok) d0 (pages d) row page (links d)); try done; [apply S|apply Hok].
  - rewrite (fi_pages _ _ _ _ _ _ F). pose proof (ad_ok _ _ _ _ _ (fi_entities _ _ _ _ _ _ F) row) as Ha. cbn in Ha.
    apply Ha; [rewrite Ep; apply elem_of_app; right; left|done|done|apply (sk_rows _ _ _ _ _ S)|].
    rewrite (sk_entities _ _ _ _ _ S), Ep. apply entities_add_row; [|apply S].
    by rewrite (versions_ids _ _ Hv).
  - rewrite (fi_evidence _ _ _ _ _ _ F), (fi_pages _ _ _ _ _ _ F), (sk_evidence _ _ _ _ _ S).
    apply evidence_added_ok; [done|]. eapply evidence_rows_ok; [|apply Hok]. intros x Hx.
    rewrite Ep, fmap_app, (versions_ids _ _ Hv). apply elem_of_app. by left.
  - rewrite (fi_cjk _ _ _ _ _ _ F), (fi_pages _ _ _ _ _ _ F), (sk_cjk _ _ _ _ _ S), (po_cjk _ Hok), Ep.
    by rewrite fmap_app, (versions_cjk _ _ Hv).
Qed.

Lemma insert_page_row_Ok f d row d' :
  insert_page_row f d row = Ok d' →
  d' = with_pages d (pages d ++ [row]) ∧ paired (pd_scopes d) row = true ∧ p_id row ∉ p_id <$> pages d.
Proof.
  unfold insert_page_row. intros H. open_transaction. split; [done|].
  split; [by apply negb_false_iff|]. intros (r & Hi & Hr)%list_elem_of_fmap.
  rewrite existsb_none in Hg0. specialize (Hg0 r Hr). unfold is_page in Hg0.
  by rewrite <- Hi, bool_decide_eq_true_2 in Hg0.
Qed.

(** *** Over the latest version *)

Definition superseded (d : PageDb) (existing row : PageRow) (now : Z) : PageDb :=
  with_entity_links
    (with_pages d (update_where (is_page (p_id existing)) (unlatest_row now) (pages d) ++ [row]))
    (update_where (open_window_of (p_id existing)) (close_window now) (entity_links d)).

Lemma supersede_Ok f ids clock d page existing conformed now id d' :
  supersede_latest env f ids clock d page existing conformed now = Ok (id, d') →
  id = fr_page ids ∧
  let row := new_row env page id (stamped_frontmatter env conformed now) (Some (p_id existing))
               (compacted_at conformed now) now in
  finished (superseded d existing row now) d' id page "supersede_page" now
  ∧ paired (pd_scopes d) row = true ∧ id ∉ p_id <$> pages d.
Proof.
  unfold supersede_latest. intros H.
  apply result_bind_Ok in H as (rows & ->%statement_Ok & H).
  apply result_bind_Ok in H as (windows & ->%statement_Ok & H).
  apply result_bind_Ok in H as (d1 & H1 & H). apply finish_version_Ok in H as [-> F].
  apply insert_page_row_Ok in H1 as (-> & Hp & Hf). split; [done|]. split; [exact F|]. split; [exact Hp|].
  cbn in Hf. by rewrite fmap_update_where in Hf.
Qed.

Lemma superseded_stacked d existing page id fm comp now :
  pages_ok d → existing ∈ pages d → latest_at (np_workspace page) (np_project page) (np_path page) existing = true →
  let row := new_row env page id fm (Some (p_id existing)) comp now in
  paired (pd_scopes d) row = true → id ∉ p_id <$> pages d →
  stacked d (superseded d existing row now) (Some existing) (unlatest_row now) row.
Proof.
  intros Hok Hin [(Hw & Hp & Hpath) Hl]%latest_at_true row Hpair Hf.
  assert (Hsp : same_path row existing) by (unfold same_path; by rewrite Hw, Hp, Hpath).
  assert (Hrt : retired existing (unlatest_row now existing)) by (by eapply unlatest_retired; [apply Hok|..]).
  split; try done.
  - apply (over_rows_ok env (pd_scopes d) (Some existing)); try done; [apply Hok| |].
    + split; [done|]. split; [unfold head_row; by rewrite Hl|]. done.
    + intros r Hr Hlr Hwr Hpr Hk. cbn in *. rewrite <- Hpath in Hk |- *.
      apply (ro_files _ _ _ (po_rows _ Hok)); try done; congruence.
  - by intros p [= <-].
  - cbn. apply entities_closed_ok; try done; [apply Hok| |apply Hok]. intros r _. apply is_page_true.
Qed.

(** *** Over a tombstone, or nothing *)

#[export] Instance later_tombstone_order : StrictWeakOrder later_tombstone.
Proof.
  split; unfold later_tombstone; intros a b; [|intros c];
    destruct (p_superseded_at a), (p_superseded_at b); try destruct (p_superseded_at c); intros; try done;
    rewrite ?Z.ltb_lt, ?Z.ltb_ge in *; lia.
Qed.

Definition created (d : PageDb) (prev : option PageRow) (row : PageRow) : PageDb :=
  with_pages d (over prev revive_row (pages d) ++ [row]).

Definition create_op (prev : option PageRow) : string :=
  match prev with Some _ => "resurrect_tombstoned_page" | None => "create_page" end.

(** Another live page of the project is kept in the same file. *)
Definition collides (d : PageDb) (page : NewPage) (r : PageRow) : Prop :=
  r ∈ pages d ∧ p_workspace r = np_workspace page ∧ p_project r = np_project page ∧ p_latest r = true
  ∧ p_path r ≠ np_path page ∧ portable_page_key env (p_path r) = portable_page_key env (np_path page).

Lemma colliding_Ok f d page x :
  colliding_live_path env f d page = Ok x →
  match x with Some path => ∃ r, collides d page r ∧ p_path r = path | None => ∀ r, ¬ collides d page r end.
Proof.
  unfold colliding_live_path. intros H. open_transaction. destruct (first_row _ _) as [r|] eqn:E; cbn.
  - apply first_row_Some in E as [[Hr Hc]%elem_filter Hk%bool_decide_eq_true].
    rewrite !andb_true_iff, !bool_decide_eq_true, negb_true_iff, bool_decide_eq_false in Hc.
    destruct Hc as [[[? ?] ?] ?]. by exists r.
  - intros r (Hr & Hw & Hp & Hl & Hne & Hk). rewrite first_row_None in E.
    assert (Hin : r ∈ List.filter (λ r, bool_decide (p_workspace r = np_workspace page)
                  && bool_decide (p_project r = np_project page) && p_latest r
                  && negb (bool_decide (p_path r = np_path page))) (pages d)).
    { apply elem_filter. rewrite Hw, Hp, Hl, (bool_decide_eq_false_2 _ Hne), !bool_decide_eq_true_2; done. }
    specialize (E r Hin). by rewrite bool_decide_eq_false in E.
Qed.

Lemma tombstone_at_true ws pj path r :
  tombstone_at ws pj path r = true ↔
  (p_workspace r = ws ∧ p_project r = pj ∧ p_path r = path) ∧ p_latest r = false ∧ is_Some (p_superseded_at r).
Proof. unfold tombstone_at. rewrite !andb_true_iff, at_path_true, negb_true_iff, bool_decide_eq_true. tauto. Qed.

Context (order : OrderBy PageRow) `{!OrdersRows order}.

(** The predecessor of a page that is not there. *)
Definition gone_version (d : PageDb) (page : NewPage) (prev : option PageRow) : Prop :=
  match prev with
  | Some p => p ∈ pages d ∧ tombstone_at (np_workspace page) (np_project page) (np_path page) p = true
  | None => ∀ r, r ∈ pages d → tombstone_at (np_workspace page) (np_project page) (np_path page) r = false
  end.

Lemma tombstone_Ok f d page x :
  most_recent_tombstone_at_path order f d page = Ok x → ∃ prev, x = p_id <$> prev ∧ gone_version d page prev.
Proof.
  unfold most_recent_tombstone_at_path. intros H%statement_Ok.
  destruct (order later_tombstone _) as [|p l] eqn:E; subst x.
  - exists None. split; [done|]. intros r Hr. eapply order_filter_nil; [exact _|exact _|exact E|done].
  - exists (Some p). split; [done|]. apply order_head in E as [Hp _]; [|done|apply _]. by apply elem_filter in Hp.
Qed.

Lemma create_Ok f ids clock d page conformed now id d' :
  create_or_resurrect env order f ids clock d page conformed now = Ok (id, d') →
  id = fr_page ids ∧ (∀ r, ¬ collides d page r) ∧ ∃ prev, gone_version d page prev ∧
  let row := new_row env page id (stamped_frontmatter env conformed now) (p_id <$> prev)
               (compacted_at conformed now) now in
  finished (created d prev row) d' id page (create_op prev) now
  ∧ paired (pd_scopes d) row = true ∧ id ∉ p_id <$> pages d.
Proof.
  unfold create_or_resurrect. intros H.
  apply result_bind_Ok in H as (x & Hx%colliding_Ok & H). destruct x as [path|]; [done|].
  apply result_bind_Ok in H as (t & (prev & -> & Hprev)%tombstone_Ok & H).
  apply result_bind_Ok in H as (rows & Hrows & H).
  apply result_bind_Ok in H as (d1 & H1 & H). apply finish_version_Ok in H as [-> F].
  apply insert_page_row_Ok in H1 as (-> & Hp & Hf). split; [done|]. split; [done|]. exists prev. split; [done|].
  assert (rows = over prev revive_row (pages d)) as ->.
  { destruct prev as [p|]; cbn in *; [by apply statement_Ok in Hrows|by injection Hrows]. }
  split; [by destruct prev|]. split; [exact Hp|]. cbn in Hf. destruct prev as [p|]; [|done].
  cbn [over] in Hf. by rewrite fmap_update_where in Hf.
Qed.

Lemma created_stacked d prev page id fm comp now :
  pages_ok d → gone_version d page prev → (∀ r, ¬ collides d page r) →
  (∀ r, r ∈ pages d → latest_at (np_workspace page) (np_project page) (np_path page) r = false) →
  let row := new_row env page id fm (p_id <$> prev) comp now in
  paired (pd_scopes d) row = true → id ∉ p_id <$> pages d →
  stacked d (created d prev row) prev revive_row row.
Proof.
  intros Hok Hprev Hfree Hgone row Hpair Hf.
  assert (Hnone : ∀ r, r ∈ pages d → head_row r = true → same_path r row → tombstone_at (np_workspace page) (np_project page) (np_path page) r = true).
  { intros r Hr Hh Hs. apply tombstone_at_true. split; [exact Hs|].
    destruct (p_latest r) eqn:El.
    - specialize (Hgone r Hr). apply not_true_iff_false in Hgone. destruct Hgone. by apply latest_at_true.
    - split; [done|]. unfold head_row in Hh. rewrite El in Hh. cbn in Hh. by apply bool_decide_eq_true in Hh. }
  assert (Hrt : ∀ p, prev = Some p → p ∈ pages d ∧ retired p (revive_row p)).
  { intros p ->. destruct Hprev as [Hin (_ & Hl & _)%tombstone_at_true]. split; [done|].
    by eapply revive_retired; [apply Hok|..]. }
  split; try done.
  - apply (over_rows_ok env (pd_scopes d) prev); try done; [apply Hok| |].
    + destruct prev as [p|].
      * destruct Hprev as [Hin Ht]. destruct (Hrt p eq_refl) as [_ Hr]. apply tombstone_at_true in Ht as (Hs & Hl & Hsup).
        split; [done|]. split; [unfold head_row; by rewrite Hl, bool_decide_eq_true_2|]. split; [done|]. split; [|done].
        by apply same_path_sym.
      * split; [|done]. intros r Hr Hh Hs. specialize (Hnone r Hr Hh Hs). by rewrite (Hprev r Hr) in Hnone.
    + intros r Hr Hl Hw Hp Hk. destruct (decide (p_path r = np_path page)) as [E|E]; [done|].
      by destruct (Hfree r).
  - cbn. destruct prev as [p|]; cbn [over]; [apply entities_revive_ok, Hok|apply Hok].
Qed.

(** ** What a transaction does *)

Definition conformed (page : NewPage) : json := conform env (np_path page) (np_frontmatter page).

Definition version_row (page : NewPage) (id : PageId) (prev : option PageRow) (now : Z) : PageRow :=
  new_row env page id (stamped_frontmatter env (conformed page) now) (p_id <$> prev)
    (compacted_at (conformed page) now) now.

Inductive page_write (d : PageDb) (page : NewPage) (now : Z) : PageId → PageDb → Prop :=
  | write_unchanged old :
      old ∈ pages d → latest_at (np_workspace page) (np_project page) (np_path page) old = true →
      same_content env old page (conformed page) = true →
      page_write d page now (p_id old)
        (with_evidence d (foldl (add_evidence (p_id old) now) (evidence d) (np_evidence page)))
  | write_superseded old id d' :
      old ∈ pages d → latest_at (np_workspace page) (np_project page) (np_path page) old = true →
      same_content env old page (conformed page) = false →
      paired (pd_scopes d) (version_row page id (Some old) now) = true → id ∉ p_id <$> pages d →
      finished (superseded d old (version_row page id (Some old) now) now) d' id page "supersede_page" now →
      page_write d page now id d'
  | write_created prev id d' :
      (∀ r, r ∈ pages d → latest_at (np_workspace page) (np_project page) (np_path page) r = false) →
      (∀ r, ¬ collides d page r) → gone_version d page prev →
      paired (pd_scopes d) (version_row page id prev now) = true → id ∉ p_id <$> pages d →
      finished (created d prev (version_row page id prev now)) d' id page (create_op prev) now →
      page_write d page now id d'.

Lemma upsert_Ok f ids clock d page now id d' :
  upsert_page_in_tx env order f ids clock d page now = Ok (id, d') → page_write d page now id d'.
Proof.
  unfold upsert_page_in_tx. intros H. apply result_bind_Ok in H as (existing & ->%statement_Ok & H).
  destruct (first_row _ _) as [old|] eqn:E.
  - apply first_row_Some in E as [Hin Hl]. destruct (same_content _ _ _ _) eqn:Es.
    + apply result_bind_Ok in H as (d1 & H1 & H). injection H as <- <-. apply insert_evidence_Ok in H1 as ->.
      by apply write_unchanged.
    + apply supersede_Ok in H as (-> & F & Hp & Hf). by eapply write_superseded.
  - rewrite first_row_None in E. apply create_Ok in H as (-> & Hfree & prev & Hprev & F & Hp & Hf).
    by eapply write_created.
Qed.

Lemma evidence_pages_ok d id now ev :
  pages_ok d → id ∈ p_id <$> pages d → pages_ok (with_evidence d (foldl (add_evidence id now) (evidence d) ev)).
Proof. intros [H1 H2 H3 H4 H5 H6 H7] Hid. split; try done. cbn. by apply evidence_added_ok. Qed.

Lemma write_ok d page now id d' : pages_ok d → page_write d page now id d' → pages_ok d'.
Proof.
  intros Hok [old Hin Hl Hs|old id' d1 Hin Hl Hs Hp Hf F|prev id' d1 Hg Hfree Hprev Hp Hf F].
  - apply evidence_pages_ok; [done|]. apply list_elem_of_fmap. by exists old.
  - eapply finished_ok; [exact Hok| |exact F]. by apply superseded_stacked.
  - eapply finished_ok; [exact Hok| |exact F]. by apply created_stacked.
Qed.

(** One step of a transaction, its audit row apart; only some commands erase. *)
Inductive page_change (erasing : bool) (d : PageDb) : PageDb → Prop :=
  | change_write page now id d' : page_write d page now id d' → page_change erasing d d'
  | change_retire r now log :
      r ∈ pages d → p_latest r = true →
      page_change erasing d (with_page_log (with_entity_links
        (with_pages d (update_where (is_page (p_id r)) (tombstone_row now) (pages d)))
        (update_where (open_window_of (p_id r)) (close_window now) (entity_links d))) log)
  | change_delete dead ws pj log :
      erasing = true →
      page_change erasing d (with_page_log (drop_unmentioned (delete_pages dead d) ws pj) log).

Lemma retire_ok d r now log :
  pages_ok d → r ∈ pages d → p_latest r = true →
  pages_ok (with_page_log (with_entity_links
    (with_pages d (update_where (is_page (p_id r)) (tombstone_row now) (pages d)))
    (update_where (open_window_of (p_id r)) (close_window now) (entity_links d))) log).
Proof.
  intros [H1 H2 H3 H4 H5 H6 H7] Hin Hl.
  assert (Hv : versions_kept (pages d) (update_where (is_page (p_id r)) (tombstone_row now) (pages d))).
  { apply update_versions. intros. apply tombstone_version. }
  split; cbn; try done.
  - pose proof (soft_delete_rows_ok env (pd_scopes d) (p_id r) (p_workspace r) (p_project r) (p_path r) now _ H2) as H.
    erewrite update_where_ext_in in H; [exact H|]. intros x Hx. cbn.
    destruct (is_page (p_id r) x) eqn:E; [|done]. apply is_page_true in E.
    assert (x = r) as -> by (eapply ro_unique; [exact H2|done..]). cbn. by apply latest_at_true.
  - by eapply versions_search.
  - by apply links_retire_ok.
  - apply entities_closed_ok; try done; [apply H2|]. intros x _. apply is_page_true.
  - eapply evidence_rows_ok; [|done]. by rewrite (versions_ids _ _ Hv).
  - by rewrite (versions_cjk _ _ Hv).
Qed.

Lemma delete_ok d dead ws pj log :
  pages_ok d → pages_ok (with_page_log (drop_unmentioned (delete_pages dead d) ws pj) log).
Proof.
  intros [H1 H2 H3 H4 H5 H6 H7]. split; try done.
  - by apply surviving_rows_ok.
  - intros r (r0 & Hr0 & _ & ->)%elem_surviving. exact (H3 r0 Hr0).
  - by apply links_surviving_ok.
  - apply (entities_unmentioned_ok _ (delete_pages dead d)). by apply entities_surviving_ok.
  - destruct H6 as [Hk Hp]. split; [by apply NoDup_key_filter|]. cbn.
    intros e [He Ha]%elem_filter. unfold alive in Ha. apply negb_true_iff, bool_decide_eq_false in Ha.
    destruct (proj1 (list_elem_of_fmap _ _ _) (Hp e He)) as (r & Hi & Hr). apply list_elem_of_fmap.
    exists (drop_supersedes dead r). split; [done|]. apply elem_surviving. exists r. by rewrite <- Hi.
  - cbn. rewrite H7. clear. induction (pages d) as [|r rows IH]; [done|]. cbn.
    unfold alive in *. cbn. destruct (negb _); [|done]. rewrite !fmap_cons, IH. done.
Qed.

Lemma change_ok e d d' : pages_ok d → page_change e d d' → pages_ok d'.
Proof.
  intros Hok [page now id d1 H|r now log Hin Hl|dead ws pj log _].
  - by eapply write_ok.
  - by apply retire_ok.
  - by apply delete_ok.
Qed.

Lemma changes_ok e d d' : pages_ok d → rtc (page_change e) d d' → pages_ok d'.
Proof. intros Hok H. revert Hok. induction H as [|d1 d2 d3 H _ IH]; [done|]. intros Hok. by eapply IH, change_ok. Qed.

End Invariant.
