(* ===== verification/PagesHistory.v ===== *)
(** * The page commands as steps

    What each command of the writer does to the tables, as a sequence of page
    changes; the histories that start from empty tables. *)

From S2P Require Export PagesInvariant.
Open Scope nat_scope.
Open Scope rust_scope.

Lemma update_where_none {A} (p : A → bool) g rows :
  (∀ x, x ∈ rows → p x = false) → update_where p g rows = rows.
Proof.
  intros H. unfold update_where. induction rows as [|x rows IH]; [done|]. rewrite fmap_cons, H by left.
  f_equal. apply IH. intros y Hy. apply H. by right.
Qed.

Lemma orphaned_nil x : orphaned [] x = x.
Proof. destruct x as [x|]; [|done]. cbn. by rewrite bool_decide_eq_false_2 by apply not_elem_of_nil. Qed.

Lemma delete_nothing d : delete_pages [] d = d.
Proof.
  assert (Hf : ∀ A (f : A → PageId) l, List.filter (alive [] f) l = l).
  { intros A f l. apply List.forallb_filter_id, List.forallb_forall. intros x _. unfold alive.
    by rewrite bool_decide_eq_false_2 by apply not_elem_of_nil. }
  unfold delete_pages. rewrite !Hf.
  assert (Hp : drop_supersedes [] <$> pages d = pages d).
  { rewrite <- (list_fmap_id (pages d)) at 2. apply list_fmap_ext. intros i [] _. unfold drop_supersedes. cbn.
    by rewrite orphaned_nil. }
  assert (Hl : unlink [] <$> links d = links d).
  { rewrite <- (list_fmap_id (links d)) at 2. apply list_fmap_ext. intros i [] _. unfold unlink. cbn.
    by rewrite orphaned_nil. }
  rewrite Hp, Hl. by destruct d.
Qed.

Section Steps.
Context (env : PageEnv) (order : OrderBy PageRow) `{!OrdersRows order}.

Local Notation page_change := (page_change env).
Local Notation pages_ok := (pages_ok env).

(** ** One command *)

Definition retired_db (d : PageDb) (r : PageRow) (now : Z) (log : list OpsAudit) : PageDb :=
  with_page_log (with_entity_links
    (with_pages d (update_where (is_page (p_id r)) (tombstone_row now) (pages d)))
    (update_where (open_window_of (p_id r)) (close_window now) (entity_links d))) log.

Lemma latest_page_id_Some d ws pj path id :
  latest_page_id d ws pj path = Some id → ∃ r, r ∈ pages d ∧ latest_at ws pj path r = true ∧ p_id r = id.
Proof. unfold latest_page_id. intros (r & H & ->)%fmap_Some. apply first_row_Some in H as [??]. by exists r. Qed.

Lemma latest_page_id_found d r :
  pages_ok d → r ∈ pages d → p_latest r = true →
  latest_page_id d (p_workspace r) (p_project r) (p_path r) = Some (p_id r).
Proof.
  intros Hok Hr Hl. unfold latest_page_id.
  rewrite (first_row_unique _ _ r); [done|done|by apply latest_at_true|].
  intros r' Hr' [? ?]%latest_at_true. by apply (ro_latest env (pd_scopes d) (pages d)); [apply Hok|..].
Qed.

Lemma latest_page_id_None d ws pj path :
  latest_page_id d ws pj path = None ↔ ∀ r, r ∈ pages d → latest_at ws pj path r = false.
Proof. unfold latest_page_id. by rewrite fmap_None, first_row_None. Qed.

Lemma soft_delete_Ok op f d ws pj path x now hit d' :
  pages_ok d → soft_delete_if_latest op f d ws pj path x now = Ok (hit, d') →
  if hit then ∃ r log, r ∈ pages d ∧ latest_at ws pj path r = true ∧ p_id r = x ∧ d' = retired_db d r now log
  else latest_page_id d ws pj path ≠ Some x ∧ d' = d.
Proof.
  intros Hok. unfold soft_delete_if_latest. set (sel := λ r, is_page x r && latest_at ws pj path r). intros H.
  apply result_bind_Ok in H as (_u & _ & H). apply result_bind_Ok in H as (rows & ->%statement_Ok & H).
  apply result_bind_Ok in H as (d1 & H1 & H). apply result_bind_Ok in H as (_v & _ & [= <- <-]).
  destruct (count_where sel (pages d) =? 0) eqn:E.
  - apply Nat.eqb_eq in E. rewrite count_where_0 in E. injection H1 as <-. split.
    + intros (r & Hr & Hl & Hi)%latest_page_id_Some. specialize (E r Hr). unfold sel in E.
      by rewrite Hl, (proj2 (is_page_true _ _)) in E.
    + rewrite update_where_none by done. by destruct d.
  - apply Nat.eqb_neq, count_where_pos in E as (r & Hr & [Hi%is_page_true Hl]%andb_true_iff). cbn.
    apply result_bind_Ok in H1 as (w & ->%statement_Ok & H1). apply result_bind_Ok in H1 as (log & _ & [= <-]).
    exists r, log. split; [done|]. split; [done|]. split; [done|]. unfold retired_db. subst x.
    rewrite (update_where_ext_in (is_page (p_id r)) sel); [done|]. intros r' Hr'. unfold sel.
    destruct (is_page (p_id r) r') eqn:E; [|done]. apply is_page_true in E.
    assert (r' = r) as -> by (eapply ro_unique; [apply Hok|done..]). done.
Qed.

(** The tables after a delete; nothing else happens when nothing is deleted. *)
Definition deleted_db (d : PageDb) (dead : list PageId) (ws : WorkspaceId) (pj : ProjectId) (log : list OpsAudit)
    : PageDb :=
  match dead with [] => d | _ => with_page_log (drop_unmentioned (delete_pages dead d) ws pj) log end.

Lemma delete_Ok f d ws pj path expected author now hit d' :
  delete_page_inner f d ws pj path expected author now = Ok (hit, d') →
  (hit = false ∧ d' = d ∧ ∃ id, expected = Some id ∧ latest_page_id d ws pj path ≠ Some id) ∨
  ((∀ id, expected = Some id → latest_page_id d ws pj path = Some id)
   ∧ let dead := p_id <$> List.filter (at_path ws pj path) (pages d) in
     hit = negb (length dead =? 0) ∧ ∃ log, d' = deleted_db d dead ws pj log).
Proof.
  unfold delete_page_inner. set (dead := p_id <$> _). intros H.
  apply result_bind_Ok in H as (_u & _ & H). apply result_bind_Ok in H as (page & ->%statement_Ok & H).
  destruct (match expected with Some id => _ | None => _ end) eqn:E.
  - injection H as <- <-. left. destruct expected as [id|]; [|done]. apply negb_true_iff, bool_decide_eq_false in E.
    split; [done|]. split; [done|]. by exists id.
  - right. split.
    { intros id ->. by apply negb_false_iff, bool_decide_eq_true in E. }
    apply result_bind_Ok in H as (d1 & ->%statement_Ok & H). apply result_bind_Ok in H as (d2 & H2 & H).
    apply result_bind_Ok in H as (_v & _ & [= <- <-]). split; [done|].
    destruct dead as [|x dead]; cbn [length Nat.eqb] in H2.
    + injection H2 as <-. exists []. by rewrite delete_nothing.
    + apply result_bind_Ok in H2 as (d3 & ->%statement_Ok & H2). apply result_bind_Ok in H2 as (log & _ & [= <-]).
      by exists log.
Qed.
(** *** The sweep *)

Definition condemned (d : PageDb) (ws : WorkspaceId) (pj : ProjectId) (path : bytes) (tombstone : PageId)
    (cutoff : Z) : list PageId :=
  if existsb (λ r, is_page tombstone r && sweepable ws pj path cutoff r) (pages d)
  then decay_chain (S (length (pages d))) d ws pj path [] tombstone else [].

Lemma decay_chain_seen fuel d ws pj path seen id x : x ∈ seen → x ∈ decay_chain fuel d ws pj path seen id.
Proof.
  revert seen id. induction fuel as [|fuel IH]; intros seen id Hx; [done|]. cbn.
  case_bool_decide; [done|]. assert (x ∈ seen ++ [id]) by (apply elem_of_app; by left).
  destruct (_ ≫= _); [|done]. destruct (existsb _ _); auto.
Qed.

Lemma decay_chain_id fuel d ws pj path seen id : id ∈ decay_chain (S fuel) d ws pj path seen id.
Proof.
  cbn. case_bool_decide as E; [done|]. assert (id ∈ seen ++ [id]) by (apply elem_of_app; right; left).
  destruct (_ ≫= _); [|done]. destruct (existsb _ _); [by apply decay_chain_seen|done].
Qed.

(** What the chain reaches is the root's history. *)
Lemma decay_chain_history fuel d ws pj path seen root r x :
  rows_ok env (pd_scopes d) (pages d) → r ∈ pages d → in_history (pages d) root r →
  (∀ y, y ∈ seen → ∃ r', r' ∈ pages d ∧ p_id r' = y ∧ in_history (pages d) root r') →
  x ∈ decay_chain fuel d ws pj path seen (p_id r) →
  ∃ r', r' ∈ pages d ∧ p_id r' = x ∧ in_history (pages d) root r'.
Proof.
  intros Hok. revert seen r. induction fuel as [|fuel IH]; intros seen r Hr Hh Hs Hx; [by apply Hs|]. cbn in Hx.
  case_bool_decide; [by apply Hs|].
  assert (Hs' : ∀ y, y ∈ seen ++ [p_id r] → ∃ r', r' ∈ pages d ∧ p_id r' = y ∧ in_history (pages d) root r').
  { intros y [Hy| ->%list_elem_of_singleton]%elem_of_app; [by apply Hs|by exists r]. }
  assert (Hfirst : first_row (is_page (p_id r)) (pages d) = Some r).
  { apply first_row_unique; [done|by apply is_page_true|]. intros r' Hr' Hi%is_page_true. by eapply ro_unique. }
  rewrite Hfirst in Hx. cbn in Hx. destruct (p_supersedes r) as [parent|] eqn:Ep; [|by apply Hs'].
  destruct (existsb _ _) eqn:E; [|by apply Hs'].
  apply existsb_elem in E as (q & Hq & [Hi%is_page_true _]%andb_true_iff). rewrite <- Hi in Hx, Ep.
  eapply (IH (seen ++ [p_id r]) q); try done. eapply rtc_r; [exact Hh|]. by split.
Qed.

(** It reaches all of it: the fuel is enough, for every round marks a row. *)
Lemma decay_chain_closed fuel d ws pj path seen r y z :
  rows_ok env (pd_scopes d) (pages d) → r ∈ pages d → at_path ws pj path r = true →
  NoDup seen → (∀ x, x ∈ seen → x ∈ p_id <$> pages d) →
  S (length (pages d)) ≤ fuel + length seen →
  (∀ y z, p_id y ∈ seen → supersedes (pages d) y z → p_id z ∈ seen ∨ p_id z = p_id r) →
  p_id y ∈ decay_chain fuel d ws pj path seen (p_id r) → supersedes (pages d) y z →
  p_id z ∈ decay_chain fuel d ws pj path seen (p_id r).
Proof.
  intros Hok. revert seen r. induction fuel as [|fuel IH]; intros seen r Hr Hat Hn Hin Hlen Hcl Hy Hyz.
  { exfalso. cbn in Hlen. assert (length seen ≤ length (p_id <$> pages d)); [|rewrite length_fmap in *; lia].
    by apply submseteq_length, NoDup_submseteq. }
  cbn in *. case_bool_decide as Hseen.
  { destruct (Hcl y z Hy Hyz) as [?| ->]; done. }
  assert (Hrow : ∀ y, y ∈ pages d → p_id y = p_id r → y = r) by (intros; by eapply ro_unique).
  assert (Hfirst : first_row (is_page (p_id r)) (pages d) = Some r).
  { apply first_row_unique; [done|by apply is_page_true|]. intros r' Hr' Hi%is_page_true. auto. }
  rewrite Hfirst in Hy |- *. cbn in *. destruct (p_supersedes r) as [parent|] eqn:Ep.
  - destruct (ro_pred _ _ _ Hok r parent Hr Ep) as (q & Hq & Hi & Hs & _).
    assert (Hqp : at_path ws pj path q = true).
    { apply at_path_true. destruct Hs as (<- & <- & <-). by apply at_path_true. }
    rewrite (proj2 (existsb_elem _ _)) in Hy |- * by (exists q; by rewrite (proj2 (is_page_true _ _) Hi), Hqp).
    rewrite <- Hi in Hy |- *. apply (IH (seen ++ [p_id r]) q); try done.
    + apply NoDup_app. split; [done|]. split; [|apply NoDup_singleton].
      by intros x Hx ->%list_elem_of_singleton.
    + intros x [Hx| ->%list_elem_of_singleton]%elem_of_app; [by apply Hin|]. apply list_elem_of_fmap. by exists r.
    + rewrite length_app. cbn. lia.
    + intros y' z' [Hy'|Hy'%list_elem_of_singleton]%elem_of_app Hyz'.
      * left. apply elem_of_app. destruct (Hcl y' z' Hy' Hyz') as [?| ->]; [by left|right; left].
      * right. destruct Hyz' as (Hy0 & _ & Hz). rewrite (Hrow y' Hy0 Hy'), Ep in Hz. congruence.
  - apply elem_of_app in Hy as [Hy|Hy%list_elem_of_singleton].
    + apply elem_of_app. destruct (Hcl y z Hy Hyz) as [?| ->]; [by left|right; left].
    + destruct Hyz as (Hy0 & _ & Hz). by rewrite (Hrow y Hy0 Hy), Ep in Hz.
Qed.

Lemma sweepable_true ws pj path cutoff r :
  sweepable ws pj path cutoff r = true ↔
  tombstone_at ws pj path r = true ∧ ∃ t, p_superseded_at r = Some t ∧ (t ≤ cutoff)%Z.
Proof.
  unfold sweepable. rewrite andb_true_iff. destruct (p_superseded_at r) as [t|].
  - rewrite Z.leb_le. split; [intros [? ?]; eauto|]. by intros [? (? & [= <-] & ?)].
  - split; [by intros []|]. by intros [_ (? & ? & _)].
Qed.

(** The condemned versions are an old tombstone's whole history, or none. *)
Lemma condemned_history d ws pj path tombstone cutoff :
  pages_ok d →
  (condemned d ws pj path tombstone cutoff = []
   ∧ ∀ r, r ∈ pages d → p_id r = tombstone → sweepable ws pj path cutoff r = false)
  ∨ ∃ root, root ∈ pages d ∧ p_id root = tombstone ∧ sweepable ws pj path cutoff root = true
     ∧ ∀ r, r ∈ pages d → p_id r ∈ condemned d ws pj path tombstone cutoff ↔ in_history (pages d) root r.
Proof.
  intros Hok. pose proof (po_rows _ _ Hok) as Hrows. unfold condemned. destruct (existsb _ _) eqn:E.
  - right. apply existsb_elem in E as (root & Hroot & [Hi%is_page_true Hs]%andb_true_iff). exists root.
    split; [done|]. split; [done|]. split; [done|]. intros r Hr. subst tombstone. split.
    + intros H. apply (decay_chain_history _ _ _ _ _ _ root) in H as (r' & Hr' & Hi & Hh); [|done..| |].
      * by assert (r' = r) as -> by (by eapply ro_unique).
      * apply rtc_refl.
      * by intros y ?%elem_of_nil.
    + intros H. revert Hr. revert r H. refine (rtc_ind_r _ _ _ _).
      * intros _. apply decay_chain_id.
      * intros y z Hry Hyz IH Hz. eapply (decay_chain_closed _ _ _ _ _ [] root y z); try done.
        -- apply sweepable_true in Hs as [Ht _]. unfold tombstone_at in Ht. rewrite !andb_true_iff in Ht. apply Ht.
        -- constructor.
        -- by intros x ?%elem_of_nil.
        -- cbn. lia.
        -- by intros ? ? ?%elem_of_nil.
        -- apply IH, Hyz.
  - left. split; [done|]. intros r Hr Hi. rewrite existsb_none in E. specialize (E r Hr).
    by rewrite (proj2 (is_page_true _ _) Hi) in E.
Qed.

Lemma hard_delete_Ok f d ws pj path tombstone expected cutoff now n d' :
  pages_ok d →
  hard_delete_decayed_page_chain f d ws pj path tombstone expected cutoff now = Ok (n, d') →
  (latest_page_id d ws pj path ≠ expected ∧ n = 0 ∧ d' = d)
  ∨ (latest_page_id d ws pj path = expected
     ∧ let dead := condemned d ws pj path tombstone cutoff in
       n = count_where (λ r, bool_decide (p_id r ∈ dead)) (pages d) ∧ ∃ log, d' = deleted_db d dead ws pj log).
Proof.
  intros Hok. unfold hard_delete_decayed_page_chain. fold (condemned d ws pj path tombstone cutoff). intros H.
  apply result_bind_Ok in H as (_u & _ & H). apply result_bind_Ok in H as (cur & ->%statement_Ok & H).
  case_bool_decide as E; cbn [negb] in H; [|left; by injection H as <- <-]. right. split; [done|].
  set (dead := condemned _ _ _ _ _ _) in *. cbv zeta in H |- *.
  apply result_bind_Ok in H as (d1 & ->%statement_Ok & H). apply result_bind_Ok in H as (d2 & H2 & H).
  apply result_bind_Ok in H as (_v & _ & [= <- <-]). split; [done|].
  destruct (condemned_history d ws pj path tombstone cutoff Hok) as [[Hd _]|(root & Hroot & Hi & _ & Hd)]; fold dead in Hd.
  - rewrite Hd in H2 |- *. rewrite (proj2 (count_where_0 _ _)) in H2.
    + injection H2 as <-. exists []. by rewrite delete_nothing.
    + intros r _. by rewrite bool_decide_eq_false_2 by apply not_elem_of_nil.
  - assert (Hin : p_id root ∈ dead) by (apply Hd; [done|apply rtc_refl]).
    rewrite (proj2 (Nat.eqb_neq _ _)) in H2
      by (apply count_where_pos; exists root; by rewrite bool_decide_eq_true_2).
    apply result_bind_Ok in H2 as (d3 & ->%statement_Ok & H2). apply result_bind_Ok in H2 as (log & _ & [= <-]).
    exists log. unfold deleted_db. destruct dead; [by apply elem_of_nil in Hin|done].
Qed.

(** *** Any command *)

Lemma upsert_all_Ok e f ids clock i d batch now written d' :
  upsert_all env order f ids clock i d batch now = Ok (written, d') →
  rtc (page_change e) d d' ∧ length written = length batch.
Proof.
  revert i d written d'. induction batch as [|page batch IH]; intros i d written d' H; cbn in H.
  { by injection H as <- <-. }
  apply result_bind_Ok in H as ([id d1] & H1 & H). apply result_bind_Ok in H as ([ids' d2] & H2 & H).
  injection H as <- <-. apply upsert_Ok in H1; [|done]. apply IH in H2 as [H2 Hlen]. split; [|by cbn; f_equal].
  eapply rtc_l; [by eapply change_write|done].
Qed.

Lemma in_transaction {A} f (r : result A OpsError) a :
  (let? _u := statement f OsBegin tt in let? res := r in let? _u := statement f OsCommit tt in Ok res) = Ok a →
  r = Ok a.
Proof.
  intros H. apply result_bind_Ok in H as (_u & _ & H). apply result_bind_Ok in H as (x & -> & H).
  by apply result_bind_Ok in H as (_v & _ & [= <-]).
Qed.

Lemma deleted_changes d dead ws pj log : rtc (page_change true) d (deleted_db d dead ws pj log).
Proof. destruct dead; [done|]. by apply rtc_once, change_delete. Qed.

Lemma retired_changes e d r now log :
  r ∈ pages d → p_latest r = true → rtc (page_change e) d (retired_db d r now log).
Proof. intros Hr Hl. by apply rtc_once, change_retire. Qed.

Lemma soft_delete_changes e op f d ws pj path x now hit d' :
  pages_ok d → soft_delete_if_latest op f d ws pj path x now = Ok (hit, d') → rtc (page_change e) d d'.
Proof.
  intros Hok H%soft_delete_Ok; [|done]. destruct hit; [|by destruct H as [_ ->]].
  destruct H as (r & log & Hr & [_ Hl]%latest_at_true & _ & ->). by apply retired_changes.
Qed.

Lemma delete_changes f d ws pj path expected author now hit d' :
  delete_page_inner f d ws pj path expected author now = Ok (hit, d') → rtc (page_change true) d d'.
Proof. intros [(_ & -> & _)|(_ & _ & log & ->)]%delete_Ok; [done|apply deleted_changes]. Qed.

Lemma page_reply_changes {A} e d (rep : A → PageReply) r reply d' :
  page_reply d rep r = (reply, d') → (∀ a, r = Ok (a, d') → rtc (page_change e) d d') → rtc (page_change e) d d'.
Proof. unfold page_reply. destruct r as [[a d1]|err]; intros [= <- <-] H; [by apply (H a)|done]. Qed.

Lemma upsert_page_Ok f ids clock d page now id d' :
  upsert_page env order f ids clock d page now = Ok (id, d') → page_write env d page now id d'.
Proof. intros H%in_transaction. by apply upsert_Ok in H. Qed.

Lemma upsert_if_Ok f ids clock d page pre now r d' :
  upsert_page_if env order f ids clock d page pre now = Ok (r, d') →
  let current := latest_page_id d (np_workspace page) (np_project page) (np_path page) in
  match r with
  | Mismatch c => c = current ∧ holds pre current = false ∧ d' = d
  | Upserted id => holds pre current = true ∧ page_write env d page now id d'
  end.
Proof.
  unfold upsert_page_if, latest_page_id_in_tx. intros H.
  apply result_bind_Ok in H as (_u & _ & H). apply result_bind_Ok in H as (cur & ->%statement_Ok & H).
  destruct (holds pre _) eqn:E; cbn in H.
  - apply result_bind_Ok in H as ([id d1] & H1 & H). apply result_bind_Ok in H as (_v & _ & [= <- <-]).
    by apply upsert_Ok in H1.
  - by injection H as <- <-.
Qed.

Lemma check_preconditions_Ok f i d batch x :
  check_preconditions f i d batch = Ok x →
  let current page := latest_page_id d (np_workspace page) (np_project page) (np_path page) in
  match x with
  | None => Forall (λ p, holds (snd p) (current (fst p)) = true) batch
  | Some (k, cur) => ∃ before p after, batch = before ++ p :: after ∧ k = i + length before
      ∧ Forall (λ p, holds (snd p) (current (fst p)) = true) before
      ∧ cur = current (fst p) ∧ holds (snd p) cur = false
  end.
Proof.
  revert i. induction batch as [|[page pre] batch IH]; intros i H; cbn in H.
  { injection H as <-. constructor. }
  unfold latest_page_id_in_tx in H at 1. apply result_bind_Ok in H as (cur & ->%statement_Ok & H).
  destruct (holds pre _) eqn:E; cbn in H.
  - apply IH in H. destruct x as [[k cur]|].
    + destruct H as (before & p & after & -> & -> & Hb & ? & ?). exists ((page, pre) :: before), p, after.
      split; [done|]. split; [cbn; lia|]. split; [by constructor|]. done.
    + by constructor.
  - injection H as <-. exists [], (page, pre), batch. split; [done|]. split; [cbn; lia|]. done.
Qed.

Lemma upsert_batch_if_Ok tx f ids clock d batch now r d' :
  upsert_pages_batch_if env order tx f ids clock d batch now = Ok (r, d') →
  let current page := latest_page_id d (np_workspace page) (np_project page) (np_path page) in
  match r with
  | BatchMismatch k cur => d' = d ∧ ∃ before p after, batch = before ++ p :: after ∧ k = length before
      ∧ Forall (λ p, holds (snd p) (current (fst p)) = true) before
      ∧ cur = current (fst p) ∧ holds (snd p) cur = false
  | BatchUpserted written => Forall (λ p, holds (snd p) (current (fst p)) = true) batch
      ∧ upsert_all env order f ids clock 0 d (fst <$> batch) now = Ok (written, d')
  end.
Proof.
  unfold upsert_pages_batch_if. intros H.
  apply result_bind_Ok in H as (_u & _ & H). apply result_bind_Ok in H as (x & Hx%check_preconditions_Ok & H).
  destruct x as [[k cur]|].
  - injection H as <- <-. by split.
  - apply result_bind_Ok in H as ([ids' d1] & H1 & H). by apply result_bind_Ok in H as (_v & _ & [= <- <-]).
Qed.

Lemma from_disk_Ok f ids clock d page now id d' :
  upsert_page_from_disk env order f ids clock d page now = Ok (id, d') →
  page_write env d page now id d'
  ∧ ∀ session, session_of_path env (np_path page) = Some session → purged_page_blocked env d page session = false.
Proof.
  unfold upsert_page_from_disk. intros H.
  apply result_bind_Ok in H as (_u & _ & H). apply result_bind_Ok in H as (_v & Hb & H).
  apply result_bind_Ok in H as ([id1 d1] & H1 & H). apply result_bind_Ok in H as (_w & _ & [= <- <-]).
  apply upsert_Ok in H1; [|done]. split; [done|]. intros session Es. rewrite Es in Hb.
  apply result_bind_Ok in Hb as (b & ->%statement_Ok & Hb). by destruct (purged_page_blocked _ _ _ _).
Qed.

(** The commands that erase versions. *)
Definition erases (cmd : PageCmd) : bool :=
  match cmd with
  | DeletePage _ _ _ _ | DeletePageIfLatest _ _ _ _ _ | HardDeleteDecayedPageChain _ _ _ _ _ _ => true
  | _ => false
  end.

Lemma write_changes e d page now id d' : page_write env d page now id d' → rtc (page_change e) d d'.
Proof. intros H. by eapply rtc_once, change_write. Qed.

Lemma page_step_changes d t reply d' :
  pages_ok d → page_step env order d t = (reply, d') → rtc (page_change (erases (pt_cmd t))) d d'.
Proof.
  intros Hok. unfold page_step. destruct (pt_cmd t); cbn [erases]; intros H; eapply page_reply_changes; try exact H; intros a Ha;
    clear H.
  - by eapply write_changes, upsert_page_Ok.
  - by eapply write_changes, from_disk_Ok.
  - apply upsert_if_Ok in Ha. destruct a; [|by destruct Ha as (_ & _ & ->)]. by eapply write_changes, Ha.
  - apply in_transaction in Ha. by eapply upsert_all_Ok in Ha as [? _].
  - apply upsert_batch_if_Ok in Ha. destruct a; [|by destruct Ha as (-> & _)].
    destruct Ha as [_ Ha]. by eapply upsert_all_Ok in Ha as [? _].
  - by eapply delete_changes.
  - by eapply delete_changes.
  - by eapply soft_delete_changes.
  - by eapply soft_delete_changes.
  - apply hard_delete_Ok in Ha; [|done]. destruct Ha as [(_ & _ & ->)|(_ & _ & log & ->)]; [done|apply deleted_changes].
Qed.

Lemma page_step_ok d t reply d' : pages_ok d → page_step env order d t = (reply, d') → pages_ok d'.
Proof. intros Hok H. eapply changes_ok; [exact Hok|by eapply page_step_changes]. Qed.

(** ** Histories *)

Definition empty_pages (scopes : Db) (purged : list (SessionId * (WorkspaceId * ProjectId))) : PageDb :=
  mkPageDb scopes [] [] [] [] [] [] purged [].

(** The tables are empty. *)
Ltac no_row := try constructor; intros; match goal with H : _ ∈ [] |- _ => by apply elem_of_nil in H end.

Lemma empty_pages_ok scopes purged : db_ok scopes → pages_ok (empty_pages scopes purged).
Proof.
  intros Hs. assert (Hr : rows_ok env scopes []) by (split; no_row).
  assert (Hl : links_ok scopes [] []) by (split; no_row).
  assert (He : entities_ok [] [] []) by (split; no_row).
  assert (Hv : evidence_ok [] []) by (split; no_row).
  split; try done. by intros r ?%elem_of_nil.
Qed.

Lemma page_run_ok d turns : pages_ok d → pages_ok (snd (page_run env order d turns)).
Proof.
  revert d. induction turns as [|t turns IH]; intros d Hok; [done|]. cbn.
  destruct (page_step env order d t) as [reply d1] eqn:E.
  pose proof (IH d1 (page_step_ok _ _ _ _ Hok E)) as H. by destruct (page_run env order d1 turns).
Qed.
End Steps.
