(* ===== verification/PagesWrites.v ===== *)
(** * Writing a page

    A write without faults succeeds, unless another live page of the project is
    kept in the same file; what it leaves on each branch; writing the same page
    again leaves nothing. *)

From S2P Require Export PagesHistory.
From S2P Require Import FtsQuery OkfFacts.
From stdpp Require Import countable.
Open Scope nat_scope.
Open Scope rust_scope.

Lemma bind_no_faults {A B} st (a : A) (k : A → result B OpsError) :
  (let? x := statement no_faults st a in k x) = k a.
Proof. done. Qed.

(** ** A write without faults *)

Lemma latest_page_id_for_link_total i d page l : ∃ x, latest_page_id_for_link no_faults i d page l = Ok x.
Proof.
  unfold latest_page_id_for_link. destruct (lt_project l) as [project|]; [|by eexists].
  destruct (link_workspace_name l) as [name|]; cbn; [destruct (workspace_by_name _ name) as [ws|]; cbn|];
    try (destruct (project_by_name _ _ project); cbn); by eexists.
Qed.

Lemma insert_links_total i d from page seen ls : ∃ d', insert_links no_faults i d from page seen ls = Ok d'.
Proof.
  revert i d seen. induction ls as [|l ls IH]; intros i d seen; cbn; [by eexists|].
  case_bool_decide; [apply IH|]. destruct (latest_page_id_for_link_total i d page l) as [x ->]. apply IH.
Qed.

Lemma insert_evidence_total i d id now ev : ∃ d', insert_evidence no_faults i d id now ev = Ok d'.
Proof. revert i d. induction ev as [|e ev IH]; intros i d; cbn; [by eexists|]. apply IH. Qed.

Lemma refresh_total d page id : ∃ d', refresh_incoming_links_for_path no_faults d page id = Ok d'.
Proof.
  unfold refresh_incoming_links_for_path. rewrite !bind_no_faults.
  destruct (project_name _ _); [|by eexists]. destruct (workspace_name_of _ _); [|by eexists]. rewrite bind_no_faults.
  destruct (bool_decide _ && bool_decide _); cbn; by eexists.
Qed.

Definition project_exists (scopes : Db) (page : NewPage) : Prop :=
  existsb (λ p, bool_decide (pt_id p = np_project page) && bool_decide (pt_workspace p = np_workspace page))
    (projects scopes) = true.

(** The entity ids a write may draw. *)
Record fresh_entities (fresh : nat → EntityId) (i : nat) (d : PageDb) : Prop := {
  fe_new k : i ≤ k → fresh k ∉ en_id <$> entities d;
  fe_inj j k : fresh j = fresh k → j = k;
}.

Lemma upsert_entity_total i d page name fresh now :
  project_exists (pd_scopes d) page → fresh_entities fresh i d →
  ∃ id d', upsert_entity no_faults i d (np_workspace page) (np_project page) name (fresh i) now = Ok (id, d')
    ∧ fresh_entities fresh (S i) d'.
Proof.
  intros Hp [Hn Hi]. unfold upsert_entity. rewrite bind_no_faults. unfold project_exists in Hp. rewrite Hp. cbn [negb].
  clear Hp. destruct (first_row _ _) as [e|].
  - exists (en_id e), d. split; [done|]. split; [|done]. intros k Hk. apply Hn. lia.
  - destruct (existsb _ _) eqn:E.
    + exfalso. apply existsb_elem in E as (e & He & Hid%bool_decide_eq_true). apply (Hn i); [lia|].
      rewrite <- Hid. by apply list_elem_of_fmap_2.
    + eexists _, _. split; [done|]. split; [|done]. cbn. intros k Hk. rewrite fmap_app. intros [Hx|Hx]%elem_of_app.
      * apply (Hn k); [lia|done].
      * apply list_elem_of_singleton in Hx. apply Hi in Hx. lia.
Qed.

Lemma attach_names_total i d id page fresh at_ now names r :
  project_exists (pd_scopes d) page → fresh_entities fresh i d →
  r ∈ pages d → p_id r = id → p_workspace r = np_workspace page → p_project r = np_project page →
  ∃ d', attach_names no_faults i d id page fresh at_ now names = Ok d'.
Proof.
  intros Hp Hf Hr Hid Hw Hpj. revert i d Hp Hf Hr. induction names as [|name names IH]; intros i d Hp Hf Hr; cbn [attach_names].
  { by eexists. }
  destruct (upsert_entity_total i d page name fresh now Hp Hf) as (eid & d1 & H1 & Hf1). rewrite H1. cbn [result_bind fst snd].
  apply upsert_entity_Ok in H1 as (k & -> & (e & He & Heid & Hek) & _).
  assert (Hlink : ∃ d2, insert_entity_link no_faults i (with_entities d (entities d ++ k)) eid id at_ = Ok d2
                    ∧ pd_scopes d2 = pd_scopes d ∧ pages d2 = pages d ∧ entities d2 = entities d ++ k).
  { unfold insert_entity_link. rewrite bind_no_faults. cbn [entities pages with_entities].
    rewrite (proj2 (existsb_elem _ _)); cbn [negb].
    - destruct (existsb _ _); by eexists.
    - exists e. split; [done|]. rewrite bool_decide_eq_true_2 by done. cbn. apply existsb_elem. exists r.
      unfold entity_key in Hek. injection Hek as E1 E2 E3.
      by rewrite (proj2 (is_page_true _ _) Hid), !bool_decide_eq_true_2 by congruence. }
  destruct Hlink as (d2 & -> & Es & Ep & Ee). cbn [result_bind]. apply IH.
  - by rewrite Es.
  - destruct Hf1 as [Hn Hi]. split; [|done]. by rewrite Ee.
  - by rewrite Ep.
Qed.

Section Writes.
Context (env : PageEnv) (order : OrderBy PageRow) `{!OrdersRows order}.

Lemma finish_total ids clock d page op now r :
  project_exists (pd_scopes d) page → fresh_entities (fr_entity ids) 0 d →
  r ∈ pages d → p_id r = fr_page ids → p_workspace r = np_workspace page → p_project r = np_project page →
  ∃ d', finish_version env no_faults ids clock d page op now = Ok (fr_page ids, d').
Proof.
  intros Hp Hf Hr Hid Hw Hpj. unfold finish_version, index_page_cjk, replace_links_in_tx. rewrite !bind_no_faults.
  cbn [result_bind]. rewrite bind_no_faults.
  match goal with |- context [insert_links ?f ?i ?d ?a ?b ?c ?e] =>
    destruct (insert_links_total i d a b c e) as [d1 H1]; rewrite H1 end.
  apply insert_links_Ok in H1 as ->. cbn [result_bind]. unfold attach_entities_in_tx.
  assert (Ha : ∀ d2, pd_scopes d2 = pd_scopes d → pages d2 = pages d → entities d2 = entities d →
            ∃ d3, (if bool_decide (np_entities page = []) then Ok d2
                   else attach_names no_faults 0 d2 (fr_page ids) page (fr_entity ids) now clock
                          (normalize_entities env (np_entities page))) = Ok d3).
  { intros d2 E1 E2 E3. case_bool_decide; [by eexists|]. eapply attach_names_total; try done.
    - by rewrite E1.
    - destruct Hf as [Hn Hi]. split; [|done]. by rewrite E3.
    - by rewrite E2. }
  match goal with |- context [attach_names _ 0 ?d2] => destruct (Ha d2) as [d3 H3]; [done..|rewrite H3] end.
  cbn [result_bind]. destruct (refresh_total d3 page (fr_page ids)) as [d4 ->]. cbn [result_bind].
  destruct (insert_evidence_total 0 d4 (fr_page ids) now (np_evidence page)) as [d5 H5].
  unfold insert_evidence_in_tx. rewrite H5. by eexists.
Qed.

Lemma insert_row_total d row :
  paired (pd_scopes d) row = true → p_id row ∉ p_id <$> pages d →
  (∀ r, r ∈ pages d → latest_at (p_workspace row) (p_project row) (p_path row) r = false) →
  insert_page_row no_faults d row = Ok (with_pages d (pages d ++ [row])).
Proof.
  intros Hp Hf Hl. unfold insert_page_row. rewrite bind_no_faults. unfold paired in Hp. rewrite Hp. cbn [negb].
  rewrite (proj2 (existsb_none _ _)).
  - rewrite (proj2 (existsb_none (latest_at _ _ _) _)) by done. by rewrite andb_false_r.
  - intros r Hr. unfold is_page. apply bool_decide_eq_false. intros E. apply Hf. rewrite <- E. by apply list_elem_of_fmap_2.
Qed.

Lemma colliding_total d page : ∃ x, colliding_live_path env no_faults d page = Ok x.
Proof. unfold colliding_live_path. rewrite bind_no_faults. by eexists. Qed.

(** What a write needs: its project, and ids no row has. *)
Record writable (d : PageDb) (ids : FreshIds) (page : NewPage) : Prop := {
  wr_project : project_exists (pd_scopes d) page;
  wr_page : fr_page ids ∉ p_id <$> pages d;
  wr_entities : fresh_entities (fr_entity ids) 0 d;
}.

Lemma supersede_total ids clock d page old conformed now :
  pages_ok env d → writable d ids page → old ∈ pages d →
  latest_at (np_workspace page) (np_project page) (np_path page) old = true →
  ∃ d', supersede_latest env no_faults ids clock d page old conformed now = Ok (fr_page ids, d').
Proof.
  intros Hok [Hp Hf He] Hin Hl. unfold supersede_latest. rewrite !bind_no_faults.
  match goal with |- context [insert_page_row _ _ ?row] => set (new := row) end.
  rewrite insert_row_total; cbn [pd_scopes pages with_pages with_entity_links].
  - cbn [result_bind]. match goal with |- context [finish_version _ _ _ _ ?d1 _ ?op _] =>
      apply (finish_total ids clock d1 page op now new) end; try done.
    + by destruct He.
    + apply elem_of_app. right. left.
  - done.
  - by rewrite fmap_update_where.
  - intros r (r0 & Hr0 & ->)%elem_update_where. destruct (is_page (p_id old) r0) eqn:Ei.
    + unfold latest_at. cbn. by rewrite andb_false_r.
    + apply not_true_iff_false. intros [Hs Hl0]%latest_at_true. apply latest_at_true in Hl as [Hs' Hl'].
      assert (r0 = old) as ->; [|unfold is_page in Ei; by rewrite bool_decide_eq_true_2 in Ei].
      apply (ro_latest _ _ _ _ _ (po_rows _ _ Hok)); try done. unfold same_path. cbn in Hs. naive_solver congruence.
Qed.

Lemma create_total ids clock d page conformed now :
  pages_ok env d → writable d ids page →
  (∀ r, r ∈ pages d → latest_at (np_workspace page) (np_project page) (np_path page) r = false) →
  (∃ d', create_or_resurrect env order no_faults ids clock d page conformed now = Ok (fr_page ids, d'))
  ∨ ∃ r, collides env d page r
      ∧ create_or_resurrect env order no_faults ids clock d page conformed now
        = Err (PagePathCollides (np_path page) (p_path r)).
Proof.
  intros Hok [Hp Hf He] Hnone. unfold create_or_resurrect.
  destruct (colliding_total d page) as [x Hx]. rewrite Hx. apply colliding_Ok in Hx. cbn [result_bind].
  destruct x as [path|]; [right; destruct Hx as (r & Hr & <-); by exists r|]. left.
  unfold most_recent_tombstone_at_path. rewrite bind_no_faults. set (t := p_id <$> head _).
  set (rows := match t with Some id => update_where (is_page id) revive_row (pages d) | None => pages d end).
  assert (Hrows : match t with
            | Some id => statement no_faults (OsPage PsRevive 0) (update_where (is_page id) revive_row (pages d))
            | None => Ok (pages d) end = Ok rows) by (unfold rows; by destruct t).
  rewrite Hrows. cbn [result_bind].
  match goal with |- context [insert_page_row _ _ ?row] => set (new := row) end.
  rewrite insert_row_total; cbn [pd_scopes pages with_pages].
  - cbn [result_bind]. match goal with |- context [finish_version _ _ _ _ ?d1 _ ?op _] =>
      apply (finish_total ids clock d1 page op now new) end; try done.
    + by destruct He.
    + apply elem_of_app. right. left.
  - done.
  - unfold rows. destruct t; [|done]. by rewrite fmap_update_where.
  - intros r Hr. unfold rows in Hr. destruct t; [|by apply Hnone].
    apply elem_update_where in Hr as (r0 & Hr0 & ->). specialize (Hnone r0 Hr0). by destruct (is_page _ r0).
Qed.

Lemma upsert_total ids clock d page now :
  pages_ok env d → writable d ids page →
  (∃ id d', upsert_page env order no_faults ids clock d page now = Ok (id, d'))
  ∨ ∃ r, collides env d page r
      ∧ (∀ r, r ∈ pages d → latest_at (np_workspace page) (np_project page) (np_path page) r = false)
      ∧ upsert_page env order no_faults ids clock d page now = Err (PagePathCollides (np_path page) (p_path r)).
Proof.
  intros Hok Hw. unfold upsert_page. rewrite bind_no_faults. unfold upsert_page_in_tx. rewrite bind_no_faults.
  destruct (first_row _ _) as [old|] eqn:E.
  - left. apply first_row_Some in E as [Hin Hl]. destruct (same_content _ _ _ _).
    + unfold insert_evidence_in_tx. destruct (insert_evidence_total 0 d (p_id old) now (np_evidence page)) as [d1 ->].
      by eexists _, _.
    + destruct (supersede_total ids clock d page old (conformed env page) now Hok Hw Hin Hl) as [d' H].
      unfold conformed in H. rewrite H. by eexists _, _.
  - rewrite first_row_None in E. destruct (create_total ids clock d page (conformed env page) now Hok Hw E) as [[d' H]|(r & Hr & H)];
      unfold conformed in H; rewrite H; [left; by eexists _, _|right; by exists r].
Qed.
(** ** Reading a page back *)

(** serde_json prints a value so that it reads it back. *)
Definition json_round_trip : Prop := ∀ j, json_ok j → pe_json_parse env (pe_json_print env j) = Some j.

Lemma stamped_same page now :
  json_round_trip → json_ok (np_frontmatter page) →
  ∃ fm, pe_json_parse env (stamped_frontmatter env (conformed env page) now) = Some fm
    ∧ json_same (strip_generated_at fm) (strip_generated_at (conformed env page)) = true.
Proof.
  intros Hj Hok. unfold stamped_frontmatter.
  assert (Hc : json_ok (conformed env page)) by by apply conform_ok.
  destruct (generated_at _) as [g|].
  - exists (conformed env page). rewrite Hj by done. split; [done|]. by apply json_same_refl, strip_ok.
  - eexists. rewrite Hj by by apply stamp_ok. split; [done|]. by apply stamp_invisible.
Qed.

Lemma version_same_content page id prev now :
  json_round_trip → json_ok (np_frontmatter page) →
  same_content env (version_row env page id prev now) page (conformed env page) = true.
Proof.
  intros Hj Hok. unfold same_content, version_row, new_row. cbn [p_frontmatter p_body_sha256 p_title p_tier p_pinned].
  destruct (stamped_same page now Hj Hok) as (fm & -> & Hs).
  change (default JNull (Some fm)) with fm. rewrite Hs. by rewrite !bool_decide_eq_true_2.
Qed.

Lemma latest_unique d r page :
  pages_ok env d → r ∈ pages d → latest_at (np_workspace page) (np_project page) (np_path page) r = true →
  first_row (latest_at (np_workspace page) (np_project page) (np_path page)) (pages d) = Some r.
Proof.
  intros Hok Hr [Hs Hl]%latest_at_true. apply first_row_unique; [done|by apply latest_at_true|].
  intros r' Hr' [Hs' Hl']%latest_at_true. apply (ro_latest _ _ _ _ _ (po_rows _ _ Hok)); try done.
  unfold same_path. destruct Hs as (-> & -> & ->). done.
Qed.

(** After a write the latest version says what was written, and the evidence
    is there. *)
Lemma write_reads_back d page now id d' :
  json_round_trip → json_ok (np_frontmatter page) → pages_ok env d → page_write env d page now id d' →
  ∃ r, first_row (latest_at (np_workspace page) (np_project page) (np_path page)) (pages d') = Some r ∧ p_id r = id
    ∧ same_content env r page (conformed env page) = true
    ∧ ∀ e, e ∈ np_evidence page → evidence_key (evidence_row id now e) ∈ evidence_key <$> evidence d'.
Proof.
  intros Hj Hfm Hok H. pose proof (write_ok env _ _ _ _ _ Hok H) as Hok'.
  assert (Hev : ∀ ev e, e ∈ np_evidence page → evidence_key (evidence_row id now e)
            ∈ evidence_key <$> foldl (add_evidence id now) ev (np_evidence page)).
  { intros ev e He. apply evidence_added_covers. right. by exists e. }
  assert (Hnew : ∀ d0 prev op, pages d' = pages d0 → version_row env page id prev now ∈ pages d0 →
            finished env d0 d' id page op now → ∃ r, first_row
              (latest_at (np_workspace page) (np_project page) (np_path page)) (pages d') = Some r ∧ p_id r = id
              ∧ same_content env r page (conformed env page) = true
              ∧ ∀ e, e ∈ np_evidence page → evidence_key (evidence_row id now e) ∈ evidence_key <$> evidence d').
  { intros d0 prev op Ep Hin F. exists (version_row env page id prev now). split.
    - apply latest_unique; [done|by rewrite Ep|]. by apply latest_at_true.
    - split; [done|]. split; [by apply version_same_content|]. rewrite (fi_evidence _ _ _ _ _ _ _ F). by apply Hev. }
  destruct H as [old Hin Hl Hs|old id d' Hin Hl Hs Hp Hf F|prev id d' Hg Hfree Hprev Hp Hf F].
  - exists old. split; [by apply latest_unique|]. split; [done|]. split; [done|]. by apply Hev.
  - eapply Hnew; [apply F| |exact F]. cbn. apply elem_of_app. right. left.
  - eapply Hnew; [apply F| |exact F]. cbn. apply elem_of_app. right. left.
Qed.

Lemma evidence_readd id now l ev :
  (∀ e, e ∈ l → evidence_key (evidence_row id now e) ∈ evidence_key <$> ev) → foldl (add_evidence id now) ev l = ev.
Proof.
  induction l as [|e l IH]; intros H; [done|]. cbn. unfold add_evidence at 2.
  rewrite bool_decide_eq_true_2 by (apply H; left). apply IH. intros e' He'. apply H. by right.
Qed.

End Writes.

(** ** A wiki of two projects *)

(** ** A codec for JSON *)

Fixpoint json_tree (j : json) : gen_tree bytes :=
  match j with
  | JNull => GenNode 0 []
  | JBool b => GenNode (if b then 1 else 2) []
  | JNumber n => GenNode 3 [GenLeaf n]
  | JString s => GenLeaf s
  | JArray items => GenNode 4 (json_tree <$> items)
  | JObject fields => GenNode 5 ((λ f, GenNode 6 [GenLeaf (fst f); json_tree (snd f)]) <$> fields)
  end.

Fixpoint tree_json (t : gen_tree bytes) : json :=
  match t with
  | GenLeaf s => JString s
  | GenNode 1 _ => JBool true
  | GenNode 2 _ => JBool false
  | GenNode 3 [GenLeaf n] => JNumber n
  | GenNode 4 items => JArray (tree_json <$> items)
  | GenNode 5 fields =>
      JObject ((λ f, match f with GenNode _ [GenLeaf k; v] => (k, tree_json v) | _ => ([], JNull) end) <$> fields)
  | _ => JNull
  end.

Lemma tree_json_tree j : tree_json (json_tree j) = j.
Proof.
  induction j as [|[]| | |items IH|fields IH] using json_nested_ind; try done; cbn; f_equal;
    rewrite <- list_fmap_compose.
  - induction IH as [|j l H _ IHl]; [done|]. rewrite fmap_cons. cbn. by rewrite H, IHl.
  - induction IH as [|[k v] l H _ IHl]; [done|]. rewrite fmap_cons. cbn in *. by rewrite H, IHl.
Qed.

Fixpoint bits (p : positive) : bytes :=
  match p with xH => [] | xO p => "0"%char :: bits p | xI p => "1"%char :: bits p end.

Fixpoint unbits (s : bytes) : positive :=
  match s with [] => xH | a :: s => if Ascii.eqb a "0" then xO (unbits s) else xI (unbits s) end.

Lemma unbits_bits p : unbits (bits p) = p.
Proof. induction p as [p IH|p IH|]; cbn; by rewrite ?IH. Qed.

Definition demo_print (j : json) : bytes := bits (encode (json_tree j)).
Definition demo_parse (s : bytes) : option json := tree_json <$> decode (unbits s).

Lemma demo_json j : demo_parse (demo_print j) = Some j.
Proof. unfold demo_parse, demo_print. rewrite unbits_bits, decode_encode. cbn. by rewrite tree_json_tree. Qed.

(** ** The environment *)

Definition demo_env : PageEnv := {|
  pe_version := lit "2.4.0";
  pe_parse_timestamp := okf_parse;
  pe_parse_date := okf_date;
  pe_timestamp_in_range := λ _, true;
  pe_print_timestamp := okf_print;
  pe_format_seconds := λ _, lit "2026-01-01T00:00:00Z";
  pe_sha256 := λ body, body;
  pe_json_print := demo_print;
  pe_json_parse := demo_parse;
  pe_lowercase := to_ascii_lowercase;
  pe_is_alphanumeric := λ c, match c with [a] => is_ascii_alphanumeric a | _ => true end;
  pe_nfc := λ s, s;
  pe_parse_session := λ s, if bool_decide (s = lit "0192") then Some 192%N else None;
  pe_session_text := λ _, lit "0192";
|}.

Lemma demo_round_trip : json_round_trip demo_env.
Proof. intros j _. apply demo_json. Qed.

Definition demo_order : OrderBy PageRow := λ lt rows, sort_by_key id lt rows.

(** Workspace [default] with projects [_global] and [app]. *)
Definition demo_scopes : Db := {|
  workspaces := [(1%N, "default"%string)];
  projects := [mkProjectTuple 10%N 1%N "_global" "_global" "_global" None None;
               mkProjectTuple 11%N 1%N "app" "app" "app" None None];
  grants := ∅;
  users := ∅;
  audit_log := [];
|}.

Lemma demo_scopes_ok : db_ok demo_scopes.
Proof. split; apply (bool_decide_unpack _); by vm_compute. Qed.

Definition demo_page (pj : ProjectId) (path body : string) (links : list LinkTarget) (entities : list string)
    : NewPage :=
  mkNewPage 1%N pj (lit path) (lit path) (lit body) Semantic (JObject []) false links (Some 7%N) None
    (lit <$> entities) [mkPageEvidence EvSession (lit "0192")].

(** The session page names the decision, which is written later, and a global
    rule. *)
Definition demo_session (body : string) : NewPage :=
  demo_page 11%N "sessions/s1.md" body
    [mkLinkTarget None None (lit "decisions/d1.md") (Some Causes);
     mkLinkTarget None (Some "_global"%string) (lit "_rules/r1.md") None] ["Sqlite"; "sqlite "; "Rust"].

Definition demo_decision (body : string) : NewPage := demo_page 11%N "decisions/d1.md" body [] [].
Definition demo_rule : NewPage := demo_page 10%N "_rules/r1.md" "rule" [] [].

Definition demo_ids (n : N) (i : nat) : FreshIds :=
  mkFreshIds (n * 100 + N.of_nat i)%N (λ k, (n * 10000 + N.of_nat i * 100 + N.of_nat k)%N).

Definition demo_turn (n : N) (cmd : PageCmd) : PageTurn :=
  mkPageTurn cmd (Z.of_N n) (λ _, Z.of_N n) (demo_ids n) no_faults (λ _, no_faults).

Definition demo_turns (cmds : list PageCmd) : list PageTurn := imap (λ i cmd, demo_turn (N.of_nat (S i)) cmd) cmds.

Definition demo_start : PageDb := empty_pages demo_scopes [(192%N, (1%N, 11%N))].

Definition demo_run (cmds : list PageCmd) : list PageReply * PageDb :=
  page_run demo_env demo_order demo_start (demo_turns cmds).

(** Written, superseded, retired, resurrected. *)
Definition demo_cmds : list PageCmd :=
  [UpsertPage (demo_session "one"); UpsertPage demo_rule; UpsertPage (demo_decision "first");
   UpsertPage (demo_session "two"); UpsertPage (demo_session "two");
   SoftDeleteForDecayIfLatest 1%N 11%N (lit "decisions/d1.md") 300%N;
   UpsertPage (demo_decision "second")].

Definition demo_db : PageDb := snd (demo_run demo_cmds).

Example demo_replies :
  fst (demo_run demo_cmds)
  = [ReWritten 100; ReWritten 200; ReWritten 300; ReWritten 400; ReWritten 400; ReHit true; ReWritten 700]%N.
Proof. by vm_compute. Qed.

(** The old version's links still lead where their names do. *)
Example demo_links :
  (λ l, (l_from l, l_to l)) <$> links demo_db
  = [(100, Some 700); (100, Some 200); (400, Some 700); (400, Some 200)]%N.
Proof. by vm_compute. Qed.

Example demo_versions :
  (λ r, (p_id r, p_latest r, p_supersedes r)) <$> pages demo_db
  = [(100, false, None); (200, true, None); (300, false, None); (400, true, Some 100); (700, true, Some 300)]%N.
Proof. by vm_compute. Qed.

Lemma demo_db_run :
  demo_db = snd (page_run demo_env demo_order (empty_pages demo_scopes [(192%N, (1%N, 11%N))]) (demo_turns demo_cmds)).
Proof. unfold demo_db, demo_run, demo_start. reflexivity. Qed.

Lemma demo_start_ok : pages_ok demo_env demo_start.
Proof. apply empty_pages_ok, demo_scopes_ok. Qed.

Lemma demo_db_ok : pages_ok demo_env demo_db.
Proof. apply page_run_ok; [apply _|]. apply demo_start_ok. Qed.
