(* ===== verification/PagesContract.v ===== *)
(** * What the wiki relies on in its page store

    The tables stay well-formed; a write keeps every version and is exact; a
    conditional write is a compare-and-swap; the sweep takes one retired
    history; links lead to the latest version. *)

From S2P Require Export PagesWrites.
From S2P Require Import OkfFacts.
Open Scope nat_scope.
Open Scope rust_scope.

(** ** Histories are kept *)

(** The same version, its predecessor included. *)
Definition kept_version (r r' : PageRow) : Prop := same_version r r' ∧ p_supersedes r' = p_supersedes r.

Record history_kept (rows rows' : list PageRow) : Prop := {
  hk_versions r : r ∈ rows → ∃ r', r' ∈ rows' ∧ kept_version r r';
  (** What headed a page is in the history of what heads it now. *)
  hk_heads h : h ∈ rows → head_row h = true →
    ∃ h' x, h' ∈ rows' ∧ head_row h' = true ∧ same_path h h' ∧ in_history rows' h' x ∧ x ∈ rows' ∧ kept_version h x;
}.

Lemma kept_refl r : kept_version r r.
Proof. split; [apply same_version_refl|done]. Qed.

Lemma kept_trans r1 r2 r3 : kept_version r1 r2 → kept_version r2 r3 → kept_version r1 r3.
Proof. intros [H1 E1] [H2 E2]. split; [by eapply same_version_trans|congruence]. Qed.

Lemma history_transport rows rows' h x h' :
  (∀ r, r ∈ rows → ∃ r', r' ∈ rows' ∧ kept_version r r') →
  in_history rows h x → h' ∈ rows' → kept_version h h' →
  ∃ x', in_history rows' h' x' ∧ x' ∈ rows' ∧ kept_version x x'.
Proof.
  intros Hk H. revert h'. induction H as [h|h y x (Hh & Hy & E) _ IH]; intros h' Hh' Hv; [by exists h'|].
  destruct (Hk y Hy) as (y' & Hy' & Hvy). destruct (IH y' Hy' Hvy) as (x' & Hx & Hin & Hvx).
  exists x'. split; [|done]. eapply rtc_l; [|exact Hx]. split; [done|]. split; [done|].
  destruct Hv as [_ ->]. by rewrite E, (sv_id _ _ (proj1 Hvy)).
Qed.

Lemma history_kept_refl rows : history_kept rows rows.
Proof.
  split; [intros r Hr; exists r; split; [done|apply kept_refl]|].
  intros h Hh Hd. exists h, h. by repeat (split; [done || apply kept_refl|]).
Qed.

Lemma history_kept_trans rows1 rows2 rows3 :
  history_kept rows1 rows2 → history_kept rows2 rows3 → history_kept rows1 rows3.
Proof.
  intros [V1 H1] [V2 H2]. split.
  - intros r Hr. destruct (V1 r Hr) as (r2 & Hr2 & K1). destruct (V2 r2 Hr2) as (r3 & Hr3 & K2).
    exists r3. split; [done|]. by eapply kept_trans.
  - intros h Hh Hd. destruct (H1 h Hh Hd) as (h2 & x2 & Hh2 & Hd2 & Hs2 & Hi2 & Hx2 & K2).
    destruct (H2 h2 Hh2 Hd2) as (h3 & y3 & Hh3 & Hd3 & Hs3 & Hi3 & Hy3 & K3).
    destruct (history_transport _ _ _ _ _ V2 Hi2 Hy3 K3) as (x3 & Hi & Hx3 & K).
    exists h3, x3. split; [done|]. split; [done|]. split; [by eapply same_path_trans|].
    split; [unfold in_history in *; by etrans|]. split; [done|]. by eapply kept_trans.
Qed.

(** Rows changed in place, heads staying heads. *)
Lemma history_kept_update p g rows :
  (∀ r, kept_version r (g r)) → (∀ r, r ∈ rows → p r = true → head_row (g r) = true) →
  history_kept rows (update_where p g rows).
Proof.
  intros Hg Hh.
  assert (Hk : ∀ r, kept_version r (if p r then g r else r)) by (intros r; destruct (p r); [done|apply kept_refl]).
  split.
  - intros r Hr. exists (if p r then g r else r). split; [apply elem_update_where; by exists r|done].
  - intros h Hin Hd. exists (if p h then g h else h), (if p h then g h else h).
    assert ((if p h then g h else h) ∈ update_where p g rows) by (apply elem_update_where; by exists h).
    split; [done|]. split; [destruct (p h) eqn:E; [by apply Hh|done]|]. split; [apply Hk|].
    split; [apply rtc_refl|]. split; [done|apply Hk].
Qed.

Section Kept.
Context (env : PageEnv).

Lemma history_kept_stacked d d0 prev g row :
  pages_ok env d → stacked env d d0 prev g row → p_supersedes row = p_id <$> prev →
  history_kept (pages d) (pages d0).
Proof.
  intros Hok S Es. pose proof (sk_pages _ _ _ _ _ _ S) as Ep. pose proof (sk_prev _ _ _ _ _ _ S) as Hprev.
  pose proof (sk_rows _ _ _ _ _ _ S) as Hrows.
  assert (Helem : ∀ r, r ∈ pages d → ∃ r', r' ∈ pages d0 ∧ kept_version r r' ∧ (r' = r ∨ prev = Some r)).
  { intros r Hr. assert (prev = Some r ∨ prev ≠ Some r) as [Hp|Hp].
    { destruct (decide (p_id <$> prev = Some (p_id r))) as [E|E]; [left|right; by intros ->].
      apply fmap_Some in E as (p & -> & E). f_equal. symmetry. eapply ro_unique; [apply Hok|done|by apply Hprev|done]. }
    - exists (g r). split; [rewrite Ep; apply elem_of_app; left|].
      + apply (elem_over env (pd_scopes d)); [apply Hok|by apply Hprev|]. right. by exists r.
      + destruct (Hprev r Hp) as [_ Hrt]. split; [split; apply Hrt|by right].
    - exists r. split; [rewrite Ep; apply elem_of_app; left|split; [apply kept_refl|by left]].
      apply (elem_over env (pd_scopes d)); [apply Hok|by apply Hprev|]. left. split; [done|].
      intros p -> ->. done. }
  split.
  - intros r Hr. destruct (Helem r Hr) as (r' & ? & ? & _). by exists r'.
  - intros h Hh Hd. destruct (Helem h Hh) as (h' & Hh' & K & [->|Hp]).
    + exists h, h. by repeat (split; [done || apply kept_refl|]).
    + assert (Hrow : row ∈ pages d0) by (rewrite Ep; apply elem_of_app; right; left).
      assert (Hsup : supersedes (pages d0) row h').
      { split; [done|]. split; [done|]. rewrite Es, Hp. cbn. by rewrite (sv_id _ _ (proj1 K)). }
      exists row, h'. split; [done|]. split; [unfold head_row; by rewrite (sk_latest _ _ _ _ _ _ S)|].
      split; [|split; [by apply rtc_once|by split]]. eapply same_path_trans; [apply (proj1 K)|].
      apply same_path_sym. by eapply supersedes_path.
Qed.

Lemma change_kept d d' : pages_ok env d → page_change env false d d' → history_kept (pages d) (pages d').
Proof.
  intros Hok [page now id d1 H|r now log Hin Hl|dead ws pj log He]; [| |done].
  - destruct H as [old Hin Hl Hs|old id d1 Hin Hl Hs Hp Hf F|prev id d1 Hg Hfree Hprev Hp Hf F].
    + apply history_kept_refl.
    + rewrite (fi_pages _ _ _ _ _ _ _ F). eapply history_kept_stacked; [done|by apply superseded_stacked|done].
    + rewrite (fi_pages _ _ _ _ _ _ _ F). eapply history_kept_stacked; [done|by apply created_stacked|done].
  - apply history_kept_update; [intros x; split; [apply tombstone_version|done]|done].
Qed.

Lemma changes_kept d d' : pages_ok env d → rtc (page_change env false) d d' → history_kept (pages d) (pages d').
Proof.
  intros Hok H. revert Hok. induction H as [|d1 d2 d3 H _ IH]; intros Hok; [apply history_kept_refl|].
  eapply history_kept_trans; [by apply change_kept|]. apply IH. by eapply change_ok.
Qed.
End Kept.

Section Claims.
Context (env : PageEnv) (order : OrderBy PageRow) `{!OrdersRows order}.

(** ** The claims *)

(** C8. The page tables stay well-formed: after any commands of the writer, in
    any order, with any faults, clocks and ids, a path has at most one latest
    version or tombstone, versions form chains, no two live pages of a project
    share a file, links lead to versions of the pages they name, an entity
    mention is current exactly while its version is the latest, evidence is
    kept once and the CJK index holds the terms of every version. *)
Theorem page_tables_stay_ok scopes purged turns :
  db_ok scopes → pages_ok env (snd (page_run env order (empty_pages scopes purged) turns)).
Proof. intros Hs. by apply page_run_ok, empty_pages_ok. Qed.


(** What a successful write leaves, by what was there. *)
Definition write_leaves (d : PageDb) (page : NewPage) (ids : FreshIds) (now : Z) (id : PageId) (d' : PageDb) : Prop :=
  match first_row (latest_at (np_workspace page) (np_project page) (np_path page)) (pages d) with
  | Some old =>
      if same_content env old page (conformed env page)
      then id = p_id old ∧ d' = with_evidence d (foldl (add_evidence id now) (evidence d) (np_evidence page))
      else id = fr_page ids
           ∧ finished env (superseded d old (version_row env page id (Some old) now) now) d' id page "supersede_page" now
  | None =>
      id = fr_page ids ∧ ∃ prev, gone_version d page prev
      ∧ finished env (created d prev (version_row env page id prev now)) d' id page (create_op prev) now
  end.

Lemma upsert_leaves f ids clock d page now id d' :
  upsert_page env order f ids clock d page now = Ok (id, d') → write_leaves d page ids now id d'.
Proof.
  intros H%in_transaction. unfold upsert_page_in_tx in H. unfold write_leaves.
  apply result_bind_Ok in H as (existing & ->%statement_Ok & H). fold (conformed env page) in H.
  destruct (first_row _ _) as [old|] eqn:E.
  - destruct (same_content _ _ _ _) eqn:Es.
    + apply result_bind_Ok in H as (d1 & H1%insert_evidence_Ok & [= <- <-]). by split.
    + by apply supersede_Ok in H as (-> & F & _ & _).
  - apply create_Ok in H as (-> & _ & prev & Hprev & F & _ & _); [|done]. split; [done|]. by exists prev.
Qed.

(** C16. Writing a page is exact and fails for one reason: without faults, with
    fresh ids and an existing project, the write is refused only when there is
    no live page at the path and a live page at another path is kept in the
    same file; otherwise an unchanged page gains its evidence only, a changed
    one is superseded with its entity windows closed, a new one starts or
    continues from its tombstone, with links, entities, evidence, index and
    audit written, and the latest version is the one returned, with the
    content asked for. *)
Theorem page_write_exact ids clock d page now :
  pages_ok env d → writable d ids page → json_round_trip env → json_ok (np_frontmatter page) →
  match upsert_page env order no_faults ids clock d page now with
  | Ok (id, d') => write_leaves d page ids now id d'
      ∧ ∃ r, first_row (latest_at (np_workspace page) (np_project page) (np_path page)) (pages d') = Some r
          ∧ p_id r = id ∧ same_content env r page (conformed env page) = true
  | Err e => ∃ r, collides env d page r ∧ e = PagePathCollides (np_path page) (p_path r)
      ∧ ∀ r, r ∈ pages d → latest_at (np_workspace page) (np_project page) (np_path page) r = false
  end.
Proof.
  intros Hok Hw Hj Hfm.
  destruct (upsert_total env order ids clock d page now Hok Hw) as [(id & d' & H)|(r & Hr & Hnone & H)]; rewrite H.
  - split; [by eapply upsert_leaves|]. apply upsert_page_Ok in H; [|done].
    destruct (write_reads_back env _ _ _ _ _ Hj Hfm Hok H) as (r & ? & ? & ? & _). by exists r.
  - by exists r.
Qed.

(** Writing a page twice is writing it once: after a successful write, the
    same page written again, at any time and with any ids, answers the same
    version and leaves every table as it is. *)
Theorem rewriting_changes_nothing f ids clock d page now id d' ids' clock' now' :
  json_round_trip env → json_ok (np_frontmatter page) → pages_ok env d →
  upsert_page env order f ids clock d page now = Ok (id, d') →
  upsert_page env order no_faults ids' clock' d' page now' = Ok (id, d').
Proof.
  intros Hj Hfm Hok H%upsert_page_Ok; [|done].
  destruct (write_reads_back env _ _ _ _ _ Hj Hfm Hok H) as (r & Hr & Hi & Hs & He).
  unfold upsert_page, upsert_page_in_tx. rewrite !bind_no_faults, Hr. fold (conformed env page). rewrite Hs, Hi.
  unfold insert_evidence_in_tx. destruct (insert_evidence_total 0 d' id now' (np_evidence page)) as [d2 H2].
  rewrite H2. apply insert_evidence_Ok in H2 as ->. rewrite evidence_readd; [by destruct d'|exact He].
Qed.

(** A conditional write is a compare-and-swap: it writes only if the latest
    version of the path is the one expected, so a version written in between is
    never overwritten; what it writes is then the latest version, either the
    expected one, unchanged, or its direct successor; refused, it reports the
    latest version and changes nothing. *)
Theorem conditional_write_is_cas f ids clock d page pre now r d' :
  pages_ok env d → upsert_page_if env order f ids clock d page pre now = Ok (r, d') →
  let latest d := latest_page_id d (np_workspace page) (np_project page) (np_path page) in
  match r with
  | Mismatch c => c = latest d ∧ d' = d ∧ match pre with Absent => latest d ≠ None | Latest x => latest d ≠ Some x end
  | Upserted id =>
      latest d' = Some id
      ∧ match pre with
        | Absent => latest d = None
        | Latest x => latest d = Some x
            ∧ (id = x ∨ ∃ row, row ∈ pages d' ∧ p_id row = id ∧ p_supersedes row = Some x)
        end
  end.
Proof.
  intros Hok H%upsert_if_Ok; [|done]. cbv zeta in H |- *. destruct r as [id|c].
  - destruct H as [Hpre Hw]. pose proof (write_ok env _ _ _ _ _ Hok Hw) as Hok'.
    assert (Hlat : ∀ d0 r, pages_ok env d0 → r ∈ pages d0 → latest_at (np_workspace page) (np_project page) (np_path page) r = true →
              latest_page_id d0 (np_workspace page) (np_project page) (np_path page) = Some (p_id r)).
    { intros d0 r Hok0 Hr [(<- & <- & <-) Hl]%latest_at_true. by apply (latest_page_id_found env). }
    assert (Hrow : ∀ prev, latest_at (np_workspace page) (np_project page) (np_path page) (version_row env page id prev now) = true)
      by (intros prev; by apply latest_at_true).
    destruct Hw as [old Hin Hl Hs|old id d' Hin Hl Hs Hp Hf F|prev id d' Hg Hfree Hprev Hp Hf F].
    + split; [by apply Hlat|]. pose proof (Hlat d old Hok Hin Hl) as E. rewrite E in Hpre |- *.
      unfold holds in Hpre. destruct pre as [|x]; apply bool_decide_eq_true in Hpre; [done|]. injection Hpre as <-. auto.
    + assert (Hin' : version_row env page id (Some old) now ∈ pages d').
      { rewrite (fi_pages _ _ _ _ _ _ _ F). cbn. apply elem_of_app. right. left. }
      split; [by apply (Hlat d' _ Hok' Hin')|]. pose proof (Hlat d old Hok Hin Hl) as E. rewrite E in Hpre |- *.
      unfold holds in Hpre. destruct pre as [|x]; apply bool_decide_eq_true in Hpre; [done|]. injection Hpre as <-.
      split; [done|]. right. by exists (version_row env page id (Some old) now).
    + assert (Hin' : version_row env page id prev now ∈ pages d').
      { rewrite (fi_pages _ _ _ _ _ _ _ F). cbn. apply elem_of_app. right. left. }
      split; [by apply (Hlat d' _ Hok' Hin')|]. apply latest_page_id_None in Hg. rewrite Hg in Hpre |- *.
      unfold holds in Hpre. destruct pre as [|x]; apply bool_decide_eq_true in Hpre; done.
  - destruct H as (-> & Hpre & ->). split; [done|]. split; [done|].
    unfold holds in Hpre. destruct pre; by apply bool_decide_eq_false in Hpre.
Qed.
(** A conditional batch is all or nothing: it writes only if every
    condition holds of the tables it finds, and then what the unconditional
    batch writes; otherwise it reports the first condition that fails, with the
    version it found, and changes nothing. *)
Theorem conditional_batch_all_or_nothing tx f ids clock d batch now r d' :
  upsert_pages_batch_if env order tx f ids clock d batch now = Ok (r, d') →
  let latest page := latest_page_id d (np_workspace page) (np_project page) (np_path page) in
  let holds_of p := holds (snd p) (latest (fst p)) = true in
  match r with
  | BatchUpserted written =>
      Forall holds_of batch ∧ length written = length batch
      ∧ upsert_pages_batch env order tx f ids clock d (fst <$> batch) now = Ok (written, d')
  | BatchMismatch k current =>
      d' = d ∧ ∃ p, batch !! k = Some p ∧ Forall holds_of (take k batch) ∧ ¬ holds_of p ∧ current = latest (fst p)
  end.
Proof.
  intros H. pose proof (upsert_batch_if_Ok _ _ _ _ _ _ _ _ _ _ _ H) as Hr. cbv zeta in Hr |- *.
  destruct r as [written|k current].
  - destruct Hr as [Hall Hup]. split; [done|]. split.
    + apply (upsert_all_Ok env order true) in Hup as [_ Hlen]. by rewrite length_fmap in Hlen.
    + unfold upsert_pages_batch_if in H. unfold upsert_pages_batch.
      apply result_bind_Ok in H as (_u & Hb & H). rewrite Hb. cbn [result_bind].
      apply result_bind_Ok in H as (x & _ & H). destruct x as [[k c]|]; [done|].
      apply result_bind_Ok in H as (res & -> & H). cbn [result_bind].
      apply result_bind_Ok in H as (_v & -> & [= <- <-]). by destruct res.
  - destruct Hr as (-> & before & p & after & -> & -> & Hb & -> & Hf). split; [done|]. exists p.
    rewrite lookup_app_r, Nat.sub_diag, take_app_length by done. split; [done|]. split; [done|].
    split; [by rewrite Hf|done].
Qed.

(** The sweep takes one retired history and nothing else: it does nothing
    when a page was written since the sweep chose the tombstone, or the
    tombstone is not one or is too recent; otherwise exactly the versions in
    the tombstone's history are gone, all others are kept, and no version in
    the history of a live page is among the gone or loses its predecessor. *)
Theorem sweep_takes_one_retired_history f d ws pj path tombstone expected cutoff now n d' :
  pages_ok env d →
  hard_delete_decayed_page_chain f d ws pj path tombstone expected cutoff now = Ok (n, d') →
  (n = 0 ∧ d' = d
   ∧ (latest_page_id d ws pj path ≠ expected
      ∨ ∀ r, r ∈ pages d → p_id r = tombstone → sweepable ws pj path cutoff r = false))
  ∨ (latest_page_id d ws pj path = expected ∧
     ∃ root, root ∈ pages d ∧ p_id root = tombstone ∧ sweepable ws pj path cutoff root = true
       ∧ length (pages d) = n + length (pages d')
       ∧ (∀ r, r ∈ pages d → in_history (pages d) root r → p_id r ∉ p_id <$> pages d')
       ∧ (∀ r, r ∈ pages d → ¬ in_history (pages d) root r → ∃ r', r' ∈ pages d' ∧ same_version r r')
       ∧ (∀ live r, live ∈ pages d → p_latest live = true → r ∈ pages d → in_history (pages d) live r →
            ∃ r', r' ∈ pages d' ∧ kept_version r r')).
Proof.
  intros Hok H. pose proof (po_rows _ _ Hok) as Hrows.
  destruct (hard_delete_Ok env _ _ _ _ _ _ _ _ _ _ _ Hok H) as [(Hc & -> & ->)|(Hc & Hn & log & ->)]; [by auto 6|].
  destruct (condemned_history env d ws pj path tombstone cutoff Hok) as [[Hd Hnot]|(root & Hroot & Hi & Hs & Hd)].
  { left. rewrite Hd in *. split; [|split; [done|by right]]. rewrite Hn. apply count_where_0. intros r _.
    apply bool_decide_eq_false, not_elem_of_nil. }
  right. split; [done|]. exists root. split; [done|]. split; [done|]. split; [done|].
  set (dead := condemned _ _ _ _ _ _) in *.
  assert (Hpages : pages (deleted_db d dead ws pj log) = surviving dead (pages d)).
  { assert (Hin : p_id root ∈ dead) by (apply Hd; [done|apply rtc_refl]).
    unfold deleted_db. destruct dead; [by apply elem_of_nil in Hin|done]. }
  rewrite Hpages. assert (Hkeep : ∀ r, r ∈ pages d → ¬ in_history (pages d) root r →
            drop_supersedes dead r ∈ surviving dead (pages d)).
  { intros r Hr Hh. apply elem_surviving. exists r. by rewrite Hd. }
  assert (Hlive : ∀ live r, live ∈ pages d → p_latest live = true → in_history (pages d) live r →
            ¬ in_history (pages d) root r).
  { intros live r Hlv Hll Hlr Hrr. apply sweepable_true in Hs as ((_ & Hl & Hsup)%tombstone_at_true & _).
    assert (root = live) as ->; [|congruence]. eapply (one_head env (pd_scopes d)); try done; unfold head_row.
    - by rewrite (bool_decide_eq_true_2 _ Hsup), orb_true_r.
    - by rewrite Hll. }
  split; [|split; [|split]].
  - rewrite Hn. unfold surviving, count_where. rewrite length_fmap.
    rewrite <- (List.filter_length (λ r, bool_decide (p_id r ∈ dead)) (pages d)). done.
  - intros r Hr Hh (r' & Hi' & (r0 & Hr0 & Hnd & ->)%elem_surviving)%list_elem_of_fmap. apply Hnd. cbn in Hi'.
    rewrite <- Hi'. by apply (Hd r Hr).
  - intros r Hr Hh. exists (drop_supersedes dead r). split; [by apply Hkeep|apply drop_version].
  - intros live r Hlv Hll Hr Hlr. exists (drop_supersedes dead r).
    split; [apply Hkeep; [done|exact (Hlive live r Hlv Hll Hlr)]|]. split; [apply drop_version|]. cbn.
    destruct (p_supersedes r) as [x|] eqn:Ex; [|done]. cbn.
    destruct (ro_pred _ _ _ Hrows r x Hr Ex) as (q & Hq & <- & _).
    rewrite bool_decide_eq_false_2; [done|]. rewrite (Hd q Hq). apply (Hlive live q Hlv Hll).
    eapply rtc_r; [exact Hlr|]. by split.
Qed.

(** Where a stored link leads, its name resolved afresh. *)
Definition resolve (d : PageDb) (l : LinkRow) : option PageId :=
  match first_row (is_page (l_from l)) (pages d) with
  | Some from =>
      scope_from (pd_scopes d) (p_workspace from) (p_project from) l
        ≫= λ scope, latest_page_id d (fst scope) (snd scope) (l_path l)
  | None => None
  end.

End Claims.

(** ** Witnesses *)

Definition answer {A} (r : result (A * PageDb) OpsError) : option A :=
  match r with Ok (a, _) => Some a | Err _ => None end.

Lemma answer_Ok {A} (r : result (A * PageDb) OpsError) a : answer r = Some a → ∃ d', r = Ok (a, d').
Proof. destruct r as [[a' d']|e]; [|done]. intros [= ->]. by exists d'. Qed.

Definition demo_next (cmd : PageCmd) : PageTurn := demo_turn 8 cmd.

Lemma page_tables_stay_ok_witness :
  db_ok demo_scopes ∧ pages_ok demo_env demo_db ∧ length (pages demo_db) = 5.
Proof.
  split; [exact demo_scopes_ok|]. split; [|by vm_compute].
  rewrite demo_db_run. exact (page_tables_stay_ok demo_env demo_order _ _ _ demo_scopes_ok).
Defined.

(** A third text of the session page. *)
Notation demo_third :=
  (page_step demo_env demo_order demo_db (demo_next (UpsertPage (demo_session "three")))).


Lemma demo_writable page : np_workspace page = 1%N → np_project page = 11%N → writable demo_db (demo_ids 8 0) page.
Proof.
  intros Hw Hp. split.
  - unfold project_exists. rewrite Hw, Hp. by vm_compute.
  - apply (bool_decide_unpack _). by vm_compute.
  - split; cbn; [|lia]. intros k _ H%list_elem_of_fmap. destruct H as (e & E & He).
    assert (Hb : Forall (λ e, (en_id e < 80000)%N) (entities demo_db)) by (apply (bool_decide_unpack _); by vm_compute).
    rewrite Forall_forall in Hb. specialize (Hb e He). lia.
Qed.

Lemma page_write_exact_witness :
  (∃ d', upsert_page demo_env demo_order no_faults (demo_ids 8 0) 8 demo_db (demo_session "three") 8 = Ok (800%N, d')
    ∧ write_leaves demo_env demo_db (demo_session "three") (demo_ids 8 0) 8 800%N d')
  ∧ (∃ r, collides demo_env demo_db (demo_page 11%N "Sessions/S1.md" "other" [] []) r ∧ p_path r = lit "sessions/s1.md").
Proof.
  split.
  - pose proof (page_write_exact demo_env demo_order (demo_ids 8 0) 8 demo_db (demo_session "three") 8 demo_db_ok
      (demo_writable (demo_session "three") eq_refl eq_refl) demo_round_trip ltac:(cbn; split; constructor)) as H.
    destruct (upsert_page _ _ _ _ _ _ _ _) as [[id d']|e] eqn:E; [|exfalso; revert E; vm_compute; discriminate].
    assert (id = 800%N) as ->; [revert E; vm_compute; congruence|]. exists d'. split; [done|]. exact (proj1 H).
  - pose proof (page_write_exact demo_env demo_order (demo_ids 8 0) 8 demo_db (demo_page 11%N "Sessions/S1.md" "other" [] []) 8
      demo_db_ok (demo_writable (demo_page 11%N "Sessions/S1.md" "other" [] []) eq_refl eq_refl) demo_round_trip ltac:(cbn; split; constructor)) as H.
    destruct (upsert_page _ _ _ _ _ _ _ _) as [[id d']|e] eqn:E; [exfalso; revert E; vm_compute; discriminate|].
    destruct H as (r & Hr & -> & _). exists r. split; [done|]. revert E. vm_compute. congruence.
Defined.

Lemma rewriting_changes_nothing_witness :
  ∃ d', upsert_page demo_env demo_order no_faults (demo_ids 8 0) 8 demo_db (demo_session "three") 8 = Ok (800%N, d')
    ∧ upsert_page demo_env demo_order no_faults (demo_ids 9 0) 9 d' (demo_session "three") 9 = Ok (800%N, d').
Proof.
  destruct (answer_Ok (upsert_page demo_env demo_order no_faults (demo_ids 8 0) 8 demo_db (demo_session "three") 8) 800%N
    ltac:(vm_compute; exact eq_refl)) as [d' E]. exists d'. split; [exact E|].
  assert (Hfm : json_ok (np_frontmatter (demo_session "three"))) by (cbn; split; constructor).
  exact (rewriting_changes_nothing demo_env demo_order _ _ _ _ _ _ _ _ (demo_ids 9 0) 9 9 demo_round_trip Hfm demo_db_ok E).
Defined.

Notation demo_cas pre :=
  (upsert_page_if demo_env demo_order no_faults (demo_ids 8 0) 8 demo_db (demo_session "three") pre 8).

(** Written over version 400, refused over version 100. *)
Lemma conditional_write_is_cas_witness :
  (∃ d', demo_cas (Latest 400%N) = Ok (Upserted 800%N, d')
    ∧ ∃ row, row ∈ pages d' ∧ p_id row = 800%N ∧ p_supersedes row = Some 400%N)
  ∧ (∃ d', demo_cas (Latest 100%N) = Ok (Mismatch (Some 400%N), d') ∧ d' = demo_db).
Proof.
  split.
  - destruct (answer_Ok (demo_cas (Latest 400%N)) (Upserted 800%N) ltac:(vm_compute; exact eq_refl)) as [d' E]. exists d'. split; [exact E|].
    pose proof (conditional_write_is_cas demo_env demo_order _ _ _ _ _ _ _ _ _ demo_db_ok E) as H.
    cbv beta zeta iota in H. destruct H as (_ & _ & [H|H]); [discriminate H|exact H].
  - destruct (answer_Ok (demo_cas (Latest 100%N)) (Mismatch (Some 400%N)) ltac:(vm_compute; exact eq_refl)) as [d' E]. exists d'. split; [exact E|].
    exact (proj1 (proj2 (conditional_write_is_cas demo_env demo_order _ _ _ _ _ _ _ _ _ demo_db_ok E))).
Defined.

Notation demo_batch pre :=
  (upsert_pages_batch_if demo_env demo_order no_faults (λ _, no_faults) (demo_ids 8) (λ _, 8%Z) demo_db
    [(demo_page 11%N "concepts/c1.md" "new" [] [], Absent); (demo_session "three", pre)] 8).

Lemma conditional_batch_all_or_nothing_witness :
  (∃ d', demo_batch (Latest 400%N) = Ok (BatchUpserted [800; 801]%N, d')
    ∧ upsert_pages_batch demo_env demo_order no_faults (λ _, no_faults) (demo_ids 8) (λ _, 8%Z) demo_db
        [demo_page 11%N "concepts/c1.md" "new" [] []; demo_session "three"] 8 = Ok ([800; 801]%N, d'))
  ∧ (∃ d', demo_batch Absent = Ok (BatchMismatch 1 (Some 400%N), d') ∧ d' = demo_db).
Proof.
  split.
  - destruct (answer_Ok (demo_batch (Latest 400%N)) (BatchUpserted [800; 801]%N) ltac:(vm_compute; exact eq_refl)) as [d' E]. exists d'. split; [exact E|].
    exact (proj2 (proj2 (conditional_batch_all_or_nothing demo_env demo_order _ _ _ _ _ _ _ _ _ E))).
  - destruct (answer_Ok (demo_batch Absent) (BatchMismatch 1 (Some 400%N)) ltac:(vm_compute; exact eq_refl)) as [d' E]. exists d'. split; [exact E|].
    exact (proj1 (conditional_batch_all_or_nothing demo_env demo_order _ _ _ _ _ _ _ _ _ E)).
Defined.

(** The decision is retired again and swept, with its two earlier versions. *)
Definition demo_retired : PageDb :=
  snd (demo_run (demo_cmds ++ [SoftDeleteForReconcileIfLatest 1%N 11%N (lit "decisions/d1.md") 700%N])).

Lemma demo_retired_ok : pages_ok demo_env demo_retired.
Proof. apply page_run_ok; [apply _|]. apply demo_start_ok. Qed.

Notation demo_sweep cutoff :=
  (hard_delete_decayed_page_chain no_faults demo_retired 1%N 11%N (lit "decisions/d1.md") 700%N None cutoff 20).

Lemma sweep_takes_one_retired_history_witness :
  (∃ d', demo_sweep 10 = Ok (2, d') ∧ length (pages demo_retired) = 2 + length (pages d')
    ∧ length (pages d') = 3)
  ∧ (∃ d', demo_sweep 7 = Ok (0, d') ∧ d' = demo_retired).
Proof.
  split.
  - destruct (answer_Ok (demo_sweep 10) 2 ltac:(vm_compute; exact eq_refl)) as [d' E]. exists d'. split; [exact E|].
    destruct (sweep_takes_one_retired_history demo_env _ _ _ _ _ _ _ _ _ _ _ demo_retired_ok E)
      as [(H & _)|(_ & root & _ & _ & _ & Hlen & _)]; [discriminate H|]. split; [exact Hlen|].
    assert (H5 : length (pages demo_retired) = 5) by (vm_compute; exact eq_refl). rewrite H5 in Hlen. by injection Hlen.
  - destruct (answer_Ok (demo_sweep 7) 0 ltac:(vm_compute; exact eq_refl)) as [d' E]. exists d'. split; [exact E|].
    destruct (sweep_takes_one_retired_history demo_env _ _ _ _ _ _ _ _ _ _ _ demo_retired_ok E)
      as [(_ & H & _)|(_ & root & Hr & Hi & Hs & _)]; [exact H|]. exfalso.
    assert (Hb : Forall (λ r, sweepable 1%N 11%N (lit "decisions/d1.md") 7 r = false) (pages demo_retired))
      by (apply (bool_decide_unpack _); vm_compute; exact I).
    rewrite Forall_forall in Hb. specialize (Hb root Hr). congruence.
Defined.

(** The first version of the session page, superseded since, still leads to
    the decision of today. *)
Definition demo_link : LinkRow := mkLinkRow 100%N (Some 700%N) None None (lit "decisions/d1.md") "causes".

