(* ===== verification/Observation.v ===== *)
(** * Sessions and observations

    Models [crates/ai-memory-core/src/observation.rs]: the kinds of captured
    events, the keys of the file index, and the inputs of the writer that
    begin a session, record an observation and report its token usage.  A
    path is its text ([to_string_lossy]). *)

From S2P Require Export OpsBase.
Open Scope nat_scope.
Open Scope rust_scope.

(** ** Kinds *)

Inductive ObservationKind :=
  | SessionStart | UserPrompt | PreToolUse | PostToolUse | PreCompact | PostCompaction
  | Notification | Stop | SessionEnd | OtherKind.

#[export] Instance observation_kind_eq_dec : EqDecision ObservationKind.
Proof. solve_decision. Defined.

Definition kind_as_str (k : ObservationKind) : string :=
  match k with
  | SessionStart => "session-start"
  | UserPrompt => "user-prompt"
  | PreToolUse => "pre-tool-use"
  | PostToolUse => "post-tool-use"
  | PreCompact => "pre-compact"
  | PostCompaction => "post-compaction"
  | Notification => "notification"
  | Stop => "stop"
  | SessionEnd => "session-end"
  | OtherKind => "other"
  end.

(** The spellings a kind is read from, in the order of the [match]. *)
Definition kind_spellings : list (list string * ObservationKind) :=
  [ (["session-start"; "session_start"; "SessionStart"], SessionStart);
    (["user-prompt"; "user_prompt"; "UserPromptSubmit"], UserPrompt);
    (["pre-tool-use"; "pre_tool_use"; "PreToolUse"], PreToolUse);
    (["post-tool-use"; "post_tool_use"; "PostToolUse"], PostToolUse);
    (["pre-compact"; "pre_compact"; "PreCompact"], PreCompact);
    (["post-compaction"; "post_compaction"; "PostCompaction"], PostCompaction);
    (["notification"; "Notification"], Notification);
    (["stop"; "Stop"], Stop);
    (["session-end"; "session_end"; "SessionEnd"], SessionEnd);
    (["other"; "Other"], OtherKind) ]%string.

Definition kind_from_str (s : string) : result ObservationKind OpsError :=
  match List.find (λ '(spellings, _), bool_decide (s ∈ spellings)) kind_spellings with
  | Some (_, k) => Ok k
  | None => Err (OpsMalformed ("unknown observation kind: " +:+ s))
  end.

Lemma kind_round_trip k : kind_from_str (kind_as_str k) = Ok k.
Proof. by destruct k. Qed.

#[export] Instance kind_as_str_inj : Inj (=) (=) kind_as_str.
Proof. by intros [] []. Qed.

(** ** Keys of the file index *)

Definition FILE_PATH_MAX_CHARS : nat := 512.

(** [split(['/', '\\'])]. *)
Definition path_segments (path : bytes) : list bytes :=
  split_on "/"%char ((λ a, if Ascii.eqb a "\"%char then "/"%char else a) <$> path).

Definition valid_file_path_key (path : bytes) : bool :=
  negb (bool_decide (path = []))
  && (char_count path <=? FILE_PATH_MAX_CHARS)
  && negb match path with a :: _ => Ascii.eqb a "/"%char || Ascii.eqb a "\"%char | [] => false end
  && negb match path with
          | drive :: colon :: _ =>
              Ascii.eqb colon ":"%char && (byte_in 65 90 drive || byte_in 97 122 drive)
          | _ => false
          end
  && negb (existsb (λ segment, bool_decide (segment = lit "..")) (path_segments path)).

(** ** Inputs of the writer *)

Record NewObservation := mkNewObservation {
  no_session : SessionId;
  no_workspace : WorkspaceId;
  no_project : ProjectId;
  no_kind : ObservationKind;
  no_extension : option bytes;
  no_source_event : option bytes;
  no_title : bytes;
  no_body : bytes;
  no_importance : Z;
  no_occurred_at : option Z;
  no_file_path : option bytes;
}.

Record NewSession := mkNewSession {
  ns_id : SessionId;
  ns_workspace : WorkspaceId;
  ns_project : ProjectId;
  ns_agent : AgentKind;
  ns_cwd : option bytes;
  ns_actor_user : option bytes;
  ns_occurred_at : option Z;
}.

(** Totals of the whole session, as [u64]s. *)
Record NewSessionUsage := mkNewSessionUsage {
  nu_session : SessionId;
  nu_input : Z;
  nu_output : Z;
  nu_cache_write : Z;
  nu_cache_read : Z;
  nu_model : option bytes;
}.
