(* ===== verification/Ingest.v ===== *)
(** * Capture ingest in the store

    Models the transactions of [crates/ai-memory-store/src/ops.rs] that turn
    delivered hook events into rows: beginning a session, recording an
    observation, claiming and completing an ingest key, admitting an event to
    its session, ending the admitted session, closing abandoned sessions and
    recording token usage.  They run on the tables of [Handoffs] and [Pages]
    (whose [purged_sessions] they consult) with the ingest keys and the CJK
    index of the observations.  Fresh ids, the clock, SHA-256 and the text of
    a session id are arguments. *)

From S2P Require Import FtsQuery.
From S2P Require Export Observation SessionQueue Pages.
Open Scope nat_scope.
Open Scope rust_scope.

(** ** Tables *)

(** A row of [ingest_keys]. *)
Record IngestKeyRow := mkIngestKeyRow {
  ik_project : ProjectId;
  ik_key : bytes;
  ik_seen_at : Z;
  ik_completed_at : option Z;
  ik_session : option SessionId;
  ik_agent : option string;
  ik_kind : option string;
  ik_identity : option bytes;
  ik_retained : bool;
}.

(** A row of [session_usage]. *)
Record UsageRow := mkUsageRow {
  us_session : SessionId;
  us_input : Z;
  us_output : Z;
  us_cache_write : Z;
  us_cache_read : Z;
  us_model : option bytes;
  us_updated_at : Z;
}.

(** The CJK index terms of an observation's title and body. *)
Definition ObservationCjk : Type := ObservationId * (bytes * bytes).

(** What other components derived from a session: the columns a purge reads. *)
Record RunRow := mkRunRow {
  rn_id : N;
  rn_workspace : WorkspaceId;
  rn_project : ProjectId;
  rn_session : option SessionId;
}.
Record RejectionRow := mkRejectionRow {
  rj_workspace : WorkspaceId;
  rj_project : ProjectId;
  rj_source_run : option N;
}.
Record CandidateRow := mkCandidateRow { cd_source_kind : string; cd_source_ref : bytes }.
Record SignalRow := mkSignalRow { sg_page : PageId; sg_query : bytes; sg_last_session : option bytes }.

Record DerivedRows := mkDerivedRows {
  dv_runs : list RunRow;
  dv_rejections : list RejectionRow;
  dv_candidates : list CandidateRow;
  dv_signals : list SignalRow;
}.

Record IngestDb := mkIngestDb {
  ig_tables : HandoffDb;
  ig_pages : PageDb;
  ig_jobs : list JobRow;
  ig_keys : list IngestKeyRow;
  ig_cjk : list ObservationCjk;
  ig_usage : list UsageRow;
  ig_derived : DerivedRows;
}.

Definition with_tables (d : IngestDb) (t : HandoffDb) : IngestDb :=
  mkIngestDb t (ig_pages d) (ig_jobs d) (ig_keys d) (ig_cjk d) (ig_usage d) (ig_derived d).
Definition with_keys (d : IngestDb) (rows : list IngestKeyRow) : IngestDb :=
  mkIngestDb (ig_tables d) (ig_pages d) (ig_jobs d) rows (ig_cjk d) (ig_usage d) (ig_derived d).
Definition with_cjk (d : IngestDb) (rows : list ObservationCjk) : IngestDb :=
  mkIngestDb (ig_tables d) (ig_pages d) (ig_jobs d) (ig_keys d) rows (ig_usage d) (ig_derived d).
Definition with_usage (d : IngestDb) (rows : list UsageRow) : IngestDb :=
  mkIngestDb (ig_tables d) (ig_pages d) (ig_jobs d) (ig_keys d) (ig_cjk d) rows (ig_derived d).

Definition with_observations (t : HandoffDb) (rows : list ObservationRow) : HandoffDb :=
  mkHandoffDb (sessions t) rows (handoffs t) (handoff_log t).

Definition ig_sessions (d : IngestDb) : list SessionRow := sessions (ig_tables d).
Definition ig_observations (d : IngestDb) : list ObservationRow := observations (ig_tables d).
Definition ig_scopes (d : IngestDb) : Db := pd_scopes (ig_pages d).

(** ** Conditions *)

Definition is_session (id : SessionId) (s : SessionRow) : bool := bool_decide (s_id s = id).

Definition of_session (id : SessionId) (o : ObservationRow) : bool := bool_decide (o_session o = id).

(** The trigger [sessions_ws_proj_pairing_ai] lets the scope pass. *)
Definition scope_paired (d : IngestDb) (ws : WorkspaceId) (pj : ProjectId) : bool :=
  existsb (λ p, bool_decide (pt_id p = pj) && bool_decide (pt_workspace p = ws))
    (projects (ig_scopes d)).

Definition PAIRING_MESSAGE : string := "sessions.workspace_id does not match the project's workspace".

(** The foreign keys of a scope alone. *)
Definition scope_exists (d : IngestDb) (ws : WorkspaceId) (pj : ProjectId) : bool :=
  existsb (λ w, bool_decide (fst w = ws)) (workspaces (ig_scopes d))
  && existsb (λ p, bool_decide (pt_id p = pj)) (projects (ig_scopes d)).

Definition FOREIGN_KEY_MESSAGE : string := "FOREIGN KEY constraint failed".

(** ** Ingest keys *)

Definition INGEST_KEY_TTL_MICROS : Z := 30 * 24 * 60 * 60 * 1000000.

Definition is_ascii_hexdigit (a : ascii) : bool :=
  byte_in 48 57 a || byte_in 65 70 a || byte_in 97 102 a.

Definition recovery_ingest_key (key : bytes) : bool :=
  match strip_prefix (lit "recovery_") key with
  | Some digest => (length digest =? 55) && forallb is_ascii_hexdigit digest
  | None => false
  end.

(** [to_be_bytes] of a 64-bit integer, signed or not. *)
Definition be64 (z : Z) : bytes :=
  (λ i, ascii_of_N (Z.to_N (Z.land (Z.shiftr z (8 * (7 - Z.of_nat i))) 255))) <$> seq 0 8.

Definition identity_field (value : option bytes) : bytes :=
  match value with
  | Some v => be64 (Z.of_nat (length v)) ++ v
  | None => be64 u64_max
  end.

(** What [recovery_event_identity] feeds its hasher. *)
Definition recovery_event_bytes (session_text : bytes) (obs : NewObservation) (agent : option string)
    : bytes :=
  concat (identity_field <$>
    [Some session_text; lit <$> agent; Some (lit (kind_as_str (no_kind obs))); no_extension obs;
     no_source_event obs; Some (no_title obs); Some (no_body obs)])
  ++ be64 (default 0%Z (no_occurred_at obs)).

Definition is_key (pj : ProjectId) (key : bytes) (r : IngestKeyRow) : bool :=
  bool_decide (ik_project r = pj) && bool_decide (ik_key r = key).

Definition find_key (d : IngestDb) (pj : ProjectId) (key : bytes) : option IngestKeyRow :=
  List.find (is_key pj key) (ig_keys d).

(** The sweep spares a row: retained for recovery, or not yet expired. *)
Definition key_kept (now : Z) (r : IngestKeyRow) : bool :=
  ik_retained r || negb (ik_seen_at r <? now - INGEST_KEY_TTL_MICROS)%Z.

Inductive IngestObservationOutcome :=
  | Inserted (id : ObservationId)
  | ResumePending
  | AlreadyComplete.

#[export] Instance ingest_outcome_eq_dec : EqDecision IngestObservationOutcome.
Proof. solve_decision. Defined.

Definition inserted (o : IngestObservationOutcome) : bool :=
  match o with Inserted _ => true | _ => false end.

Section Ingest.
Context (env : PageEnv) (sha256_hex : bytes → bytes) (order : OrderBy HandoffRow).

Definition recovery_event_identity (obs : NewObservation) (agent : option string) : bytes :=
  sha256_hex (recovery_event_bytes (pe_session_text env (no_session obs)) obs agent).

(** ** Beginning a session *)

Definition session_is_purged (f : faults) (d : IngestDb) (s : NewSession) : result bool OpsError :=
  statement f (OsIngest IgPurged)
    (existsb (λ t, bool_decide (t = (ns_id s, (ns_workspace s, ns_project s))))
       (purged_sessions (ig_pages d))).

Definition new_session_row (s : NewSession) (started_at : Z) : SessionRow :=
  mkSessionRow (ns_id s) (ns_workspace s) (ns_project s) (AgentKind_as_str (ns_agent s)) (ns_cwd s)
    started_at (ns_actor_user s) None None 0.

(** [INSERT INTO sessions]; the trigger runs before a conflict is noticed. *)
Definition insert_session (on_conflict_nothing : bool) (f : faults) (d : IngestDb) (s : NewSession)
    (started_at : Z) : result IngestDb OpsError :=
  let? _u := statement f (OsIngest IgInsertSession) tt in
  bail_if negb (scope_paired d (ns_workspace s) (ns_project s)) with OpsSqlite PAIRING_MESSAGE;;
  if existsb (is_session (ns_id s)) (ig_sessions d) then
    if on_conflict_nothing then Ok d else Err (OpsSqlite "UNIQUE constraint failed: sessions.id")
  else
    bail_if negb (scope_exists d (ns_workspace s) (ns_project s)) with OpsSqlite FOREIGN_KEY_MESSAGE;;
    Ok (with_tables d (with_sessions (ig_tables d) (ig_sessions d ++ [new_session_row s started_at]))).

Definition begin_session_row (f : faults) (d : IngestDb) (s : NewSession) (now : Z)
    : result IngestDb OpsError :=
  let? _u := validate_identity_storage_key (ns_actor_user s) "session owner" in
  let? purged := session_is_purged f d s in
  bail_if (purged : bool) with SessionPurged (pe_session_text env (ns_id s));;
  insert_session true f d s (default now (ns_occurred_at s)).

Definition begin_session : faults → IngestDb → NewSession → Z → result IngestDb OpsError :=
  begin_session_row.

Definition matches_receiver (s : NewSession) (r : SessionRow) : bool :=
  is_session (ns_id s) r && bool_decide (s_workspace r = ns_workspace s)
  && bool_decide (s_project r = ns_project s)
  && bool_decide (s_agent_kind r = AgentKind_as_str (ns_agent s))
  && bool_decide (s_actor_user r = ns_actor_user s).

Definition begin_session_in_transaction (f : faults) (d : IngestDb) (s : NewSession) (now : Z)
    : result IngestDb OpsError :=
  let? d := begin_session_row f d s now in
  let? matches_ := statement f (OsIngest IgMatches) (existsb (matches_receiver s) (ig_sessions d)) in
  bail_if negb matches_ with
    InvalidState "startup receiver id belongs to a different scope, agent, or operator";;
  Ok d.

(** ** Recording an observation *)

Definition new_observation_row (obs : NewObservation) (id : ObservationId) (now : Z) : ObservationRow :=
  let both := match no_extension obs, no_source_event obs with
              | Some extension, Some source_event => (Some extension, Some source_event)
              | _, _ => (None, None)
              end in
  mkObservationRow id (no_session obs) (no_workspace obs) (no_project obs) (kind_as_str (no_kind obs))
    (fst both) (snd both) (no_title obs) (no_body obs) (Z.max 1 (Z.min 10 (no_importance obs)))
    (default now (no_occurred_at obs)) (no_file_path obs).

Definition observation_cjk (obs : NewObservation) (id : ObservationId) : ObservationCjk :=
  let terms := cjk_index_terms (pe_is_alphanumeric env) in
  (id, (terms (no_title obs), terms (no_body obs))).

Definition insert_observation_row (f : faults) (d : IngestDb) (obs : NewObservation)
    (id : ObservationId) (now : Z) : result (ObservationId * IngestDb) OpsError :=
  let? _u := statement f (OsIngest IgObserve) tt in
  bail_if existsb (λ o, bool_decide (o_id o = id)) (ig_observations d) with
    OpsSqlite "UNIQUE constraint failed: observations.id";;
  bail_if negb (existsb (is_session (no_session obs)) (ig_sessions d)
                && scope_exists d (no_workspace obs) (no_project obs)) with
    OpsSqlite FOREIGN_KEY_MESSAGE;;
  let? cjk := statement f (OsIngest IgCjk) (ig_cjk d ++ [observation_cjk obs id]) in
  let t := with_observations (ig_tables d) (ig_observations d ++ [new_observation_row obs id now]) in
  Ok (id, with_cjk (with_tables d t) cjk).

Definition insert_observation : faults → IngestDb → NewObservation → ObservationId → Z →
    result (ObservationId * IngestDb) OpsError :=
  insert_observation_row.

(** ** Claiming a key *)

Definition sweep_keys (f : faults) (d : IngestDb) (now : Z) : result IngestDb OpsError :=
  let? rows := statement f (OsIngest IgSweepKeys) (List.filter (key_kept now) (ig_keys d)) in
  Ok (with_keys d rows).

(** The stored claim is of this very event. *)
Definition same_event (obs : NewObservation) (agent : option string) (r : IngestKeyRow) : bool :=
  bool_decide (ik_session r = Some (no_session obs))
  && bool_decide (ik_agent r = agent)
  && bool_decide (ik_kind r = Some (kind_as_str (no_kind obs)))
  && bool_decide (ik_identity r = Some (recovery_event_identity obs agent)).

Definition new_key_row (obs : NewObservation) (key : bytes) (agent : option string) (now : Z)
    : IngestKeyRow :=
  let recovery := recovery_ingest_key key in
  let when {A} (x : A) := if recovery then Some x else None in
  mkIngestKeyRow (no_project obs) key now None (when (no_session obs))
    (if recovery then agent else None) (when (kind_as_str (no_kind obs)))
    (when (recovery_event_identity obs agent)) recovery.

(** The lookup, then the claim with its observation.  [agent] is the agent of
    the session. *)
Definition claim_or_resume (f : faults) (d : IngestDb) (obs : NewObservation) (key : bytes)
    (agent : option string) (now clock : Z) (id : ObservationId)
    : result (IngestObservationOutcome * IngestDb) OpsError :=
  let? existing := statement f (OsIngest IgKey) (find_key d (no_project obs) key) in
  match existing with
  | Some r =>
      bail_if recovery_ingest_key key && negb (same_event obs agent r) with SessionCollision;;
      Ok (match ik_completed_at r with Some _ => AlreadyComplete | None => ResumePending end, d)
  | None =>
      let? rows := statement f (OsIngest IgClaim) (ig_keys d ++ [new_key_row obs key agent now]) in
      let? res := insert_observation_row f (with_keys d rows) obs id clock in
      Ok (Inserted (fst res), snd res)
  end.

Definition insert_observation_keyed (f : faults) (d : IngestDb) (obs : NewObservation) (key : bytes)
    (now clock : Z) (id : ObservationId) : result (IngestObservationOutcome * IngestDb) OpsError :=
  let? _u := statement f OsBegin tt in
  let? d := sweep_keys f d now in
  let? agent := if recovery_ingest_key key
                then statement f (OsIngest IgAgent)
                       (s_agent_kind <$> find_session (ig_tables d) (no_session obs))
                else Ok None in
  bail_if recovery_ingest_key key && bool_decide (agent = None) with SessionCollision;;
  let? res := claim_or_resume f d obs key agent now clock id in
  let? _u := statement f OsCommit tt in
  Ok res.

(** The flag tells whether a key was there to complete. *)
Definition complete_row (now : Z) (r : IngestKeyRow) : IngestKeyRow :=
  mkIngestKeyRow (ik_project r) (ik_key r) (ik_seen_at r)
    (match ik_completed_at r with Some at_ => Some at_ | None => Some now end)
    (ik_session r) (ik_agent r) (ik_kind r) (ik_identity r) (ik_retained r).

Definition complete_observation_ingest_if_claimed (f : faults) (d : IngestDb) (pj : ProjectId)
    (key : bytes) (now : Z) : result (bool * IngestDb) OpsError :=
  let? rows := statement f (OsIngest IgComplete)
                 (update_where (is_key pj key) (complete_row now) (ig_keys d)) in
  Ok (negb (count_where (is_key pj key) (ig_keys d) =? 0), with_keys d rows).

Definition complete_observation_ingest (f : faults) (d : IngestDb) (pj : ProjectId) (key : bytes)
    (now : Z) : result IngestDb OpsError :=
  let? res := complete_observation_ingest_if_claimed f d pj key now in
  bail_if negb (fst res) with InvalidState "cannot complete an ingest key that was not claimed";;
  Ok (snd res).

(** ** Admitting an event to its session *)

Record AdmittedSession := mkAdmittedSession {
  as_session : SessionId;
  as_workspace : WorkspaceId;
  as_project : ProjectId;
  as_agent : AgentKind;
  as_owner : option bytes;
}.

Inductive HookSessionAdmission :=
  | Observation (session : AdmittedSession) (ingest : IngestObservationOutcome)
  | EndOpen (session : AdmittedSession) (ingest : IngestObservationOutcome)
  | ReEnd (session : AdmittedSession) (ingest : IngestObservationOutcome)
  | AlreadyEnded (session : AdmittedSession)
  | InvalidMissingEnd
  | InvalidScopedEnd.

Definition corrupt_owner (owner : option bytes) : bool :=
  match owner with Some value => bool_decide (from_storage_key value = None) | None => false end.

(** What admission read of the session, or of the row it inserted. *)
Record AdmissionTarget := mkAdmissionTarget {
  at_owner : option bytes;
  at_ended_at : option Z;
  at_ended_count : nat;
  at_cwd : option bytes;
  at_workspace : WorkspaceId;
  at_project : ProjectId;
}.

Definition rescope (obs : NewObservation) (ws : WorkspaceId) (pj : ProjectId) : NewObservation :=
  mkNewObservation (no_session obs) ws pj (no_kind obs) (no_extension obs) (no_source_event obs)
    (no_title obs) (no_body obs) (no_importance obs) (no_occurred_at obs) (no_file_path obs).

Definition same_directory (a b : bytes) : bool := bool_decide (normalize_cwd a = normalize_cwd b).

Definition scoped_to (s : NewSession) (r : SessionRow) : bool :=
  bool_decide (s_workspace r = ns_workspace s) && bool_decide (s_project r = ns_project s).

Definition same_cwd (s : NewSession) (r : SessionRow) : bool :=
  match s_cwd r, ns_cwd s with Some stored, Some event => same_directory stored event | _, _ => false end.

Definition ends_session (obs : NewObservation) : bool := bool_decide (no_kind obs = SessionEnd).

Definition target_of (s : NewSession) (obs : NewObservation) (r : SessionRow) : AdmissionTarget :=
  let '(ws, pj) := if ends_session obs then (s_workspace r, s_project r)
                   else (ns_workspace s, ns_project s) in
  mkAdmissionTarget (s_actor_user r) (s_ended_at r) (s_ended_observation_count r) (s_cwd r) ws pj.

(** The session the event goes to; [inl] is an end that names no session of
    its own, and creates nothing. *)
Definition admission_target (f : faults) (d : IngestDb) (s : NewSession) (obs : NewObservation)
    (filter : OwnerFilter) (now : Z)
    : result (HookSessionAdmission + (AdmissionTarget * IngestDb)) OpsError :=
  let? existing := statement f (OsIngest IgSession) (find_session (ig_tables d) (ns_id s)) in
  match existing with
  | Some r =>
      bail_if corrupt_owner (s_actor_user r)
              || negb (bool_decide (s_agent_kind r = AgentKind_as_str (ns_agent s)))
              || negb (admits filter (s_actor_user r)) with SessionCollision;;
      if ends_session obs && negb (scoped_to s r) && negb (same_cwd s r)
      then Ok (inl InvalidScopedEnd)
      else Ok (inr (target_of s obs r, d))
  | None =>
      if ends_session obs then Ok (inl InvalidMissingEnd)
      else
        let? _u := validate_identity_storage_key (ns_actor_user s) "session owner" in
        bail_if negb (admits filter (ns_actor_user s)) with SessionCollision;;
        let? purged := session_is_purged f d s in
        bail_if (purged : bool) with SessionPurged (pe_session_text env (ns_id s));;
        let? d := insert_session false f d s (default now (ns_occurred_at s)) in
        Ok (inr (mkAdmissionTarget (ns_actor_user s) None 0 None (ns_workspace s) (ns_project s), d))
  end.

(** The rebinding of a native move. *)
Definition rebind_row (s : NewSession) (cwd : bytes) (r : SessionRow) : SessionRow :=
  mkSessionRow (s_id r) (ns_workspace s) (ns_project s) (s_agent_kind r) (Some cwd) (s_started_at r)
    (s_actor_user r) (s_ended_at r) (s_summary_page r) (s_ended_observation_count r).

(** The directory the session is rebound to. *)
Definition rebinds (s : NewSession) (t : AdmissionTarget) (moved_from key : option bytes)
    (ingest : IngestObservationOutcome) : option bytes :=
  match moved_from, at_cwd t, ns_cwd s with
  | Some from, Some stored, Some cwd =>
      if bool_decide (is_Some key) && bool_decide (at_ended_at t = None) && inserted ingest
         && same_directory stored from
      then Some cwd else None
  | _, _, _ => None
  end.

Definition ingest_event (f : faults) (d : IngestDb) (obs : NewObservation) (key : option bytes)
    (agent : AgentKind) (now clock : Z) (id : ObservationId)
    : result (IngestObservationOutcome * IngestDb) OpsError :=
  match key with
  | Some key =>
      let? d := sweep_keys f d now in
      claim_or_resume f d obs key (Some (AgentKind_as_str agent)) now clock id
  | None =>
      let? res := insert_observation_row f d obs id clock in
      Ok (Inserted (fst res), snd res)
  end.

Definition admit_hook_session_event (f : faults) (d : IngestDb) (s : NewSession)
    (obs : NewObservation) (filter : OwnerFilter) (key moved_from : option bytes) (now clock : Z)
    (id : ObservationId) : result (HookSessionAdmission * IngestDb) OpsError :=
  bail_if negb (bool_decide (no_session obs = ns_id s))
          || negb (bool_decide (no_workspace obs = ns_workspace s))
          || negb (bool_decide (no_project obs = ns_project s)) with
    InvalidState "hook observation does not match its session tuple";;
  let? _u := statement f OsBegin tt in
  let? target := admission_target f d s obs filter now in
  match target with
  | inl refused => let? _u := statement f OsCommit tt in Ok (refused, d)
  | inr (t, d) =>
      let obs := rescope obs (at_workspace t) (at_project t) in
      let guard := mkAdmittedSession (ns_id s) (at_workspace t) (at_project t) (ns_agent s) (at_owner t) in
      let ended := bool_decide (is_Some (at_ended_at t)) in
      let? covered := if ends_session obs && ended
                      then let? count := statement f (OsIngest IgCount)
                             (count_where (of_session (ns_id s)) (ig_observations d)) in
                           Ok (count <=? at_ended_count t)
                      else Ok false in
      if covered : bool then let? _u := statement f OsCommit tt in Ok (AlreadyEnded guard, d)
      else
        let? res := ingest_event f d obs key (ns_agent s) now clock id in
        let '(ingest, d) := res in
        let? d := match rebinds s t moved_from key ingest with
                  | Some cwd =>
                      let? rows := statement f (OsIngest IgRebind)
                        (update_where (is_session (ns_id s)) (rebind_row s cwd) (ig_sessions d)) in
                      bail_if negb (scope_exists d (ns_workspace s) (ns_project s)) with
                        OpsSqlite FOREIGN_KEY_MESSAGE;;
                      Ok (with_tables d (with_sessions (ig_tables d) rows))
                  | None => Ok d
                  end in
        let? _u := statement f OsCommit tt in
        Ok (if negb (ends_session obs) then Observation guard ingest
            else if ended then ReEnd guard ingest
            else EndOpen guard ingest, d)
  end.

(** ** Ending the admitted session *)

Definition names_admitted (a : AdmittedSession) (r : SessionRow) : bool :=
  is_session (as_session a) r && bool_decide (s_workspace r = as_workspace a)
  && bool_decide (s_project r = as_project a)
  && bool_decide (s_agent_kind r = AgentKind_as_str (as_agent a)).

Definition validate_admitted_session (f : faults) (d : IngestDb) (a : AdmittedSession)
    : result unit OpsError :=
  let? row := statement f (OsIngest IgValidate) (List.find (names_admitted a) (ig_sessions d)) in
  match row with
  | None => Err SessionCollision
  | Some r =>
      bail_if negb (bool_decide (s_actor_user r = as_owner a)) || corrupt_owner (s_actor_user r) with
        SessionCollision;;
      Ok tt
  end.

Definition end_session (f : faults) (d : IngestDb) (id : SessionId) (page : option PageId) (now : Z)
    : result IngestDb OpsError :=
  let? t := end_session_row f (ig_tables d) id page now in
  Ok (with_tables d t).

Definition end_admitted_session (f : faults) (d : IngestDb) (a : AdmittedSession)
    (page : option PageId) (ended : Z) : result IngestDb OpsError :=
  let? _u := statement f OsBegin tt in
  let? _u := validate_admitted_session f d a in
  let? t := end_session_row f (ig_tables d) (as_session a) page ended in
  let? _u := statement f OsCommit tt in
  Ok (with_tables d t).

Definition end_admitted_lifecycle_only_session (f : faults) (d : IngestDb) (a : AdmittedSession)
    (ended now : Z) : result (LifecycleOnlyEndOutcome * IngestDb) OpsError :=
  let? _u := statement f OsBegin tt in
  let? _u := validate_admitted_session f d a in
  let? res := end_lifecycle_only_session_in_tx order f (ig_tables d) (as_session a) ended now in
  let? _u := statement f OsCommit tt in
  Ok (fst res, with_tables d (snd res)).

Definition end_admitted_session_with_handoff (json_list : list bytes → bytes) (f : faults)
    (d : IngestDb) (a : AdmittedSession) (page : option PageId) (h : NewHandoff) (id : HandoffId)
    (ended now : Z) : result (HandoffId * IngestDb) OpsError :=
  bail_if negb (bool_decide (nh_from_session h = Some (as_session a)))
          || negb (bool_decide (nh_workspace h = as_workspace a))
          || negb (bool_decide (nh_project h = as_project a))
          || negb (bool_decide (nh_owner_user h = as_owner a)) with SessionCollision;;
  let? _u := statement f OsBegin tt in
  let? _u := validate_admitted_session f d a in
  let? t := end_session_row f (ig_tables d) (as_session a) page ended in
  let? res := insert_handoff_row json_list f t h id now in
  let? _u := statement f OsCommit tt in
  Ok (fst res, with_tables d (snd res)).

(** ** Sessions nobody ended *)

(** [COALESCE((SELECT MAX(created_at) ...), started_at)]. *)
Definition last_activity (d : IngestDb) (s : SessionRow) : Z :=
  match o_created_at <$> List.filter (of_session (s_id s)) (ig_observations d) with
  | [] => s_started_at s
  | t :: ts => foldr Z.max t ts
  end.

Definition abandoned (d : IngestDb) (cutoff : Z) (s : SessionRow) : bool :=
  bool_decide (s_ended_at s = None) && (last_activity d s <? cutoff)%Z.

Definition close_row (d : IngestDb) (s : SessionRow) : SessionRow :=
  mkSessionRow (s_id s) (s_workspace s) (s_project s) (s_agent_kind s) (s_cwd s) (s_started_at s)
    (s_actor_user s) (Some (last_activity d s)) (s_summary_page s)
    (count_where (of_session (s_id s)) (ig_observations d)).

Definition close_abandoned_sessions (f : faults) (d : IngestDb) (cutoff : Z)
    : result (nat * IngestDb) OpsError :=
  let? rows := statement f (OsIngest IgAbandoned)
                 (update_where (abandoned d cutoff) (close_row d) (ig_sessions d)) in
  Ok (count_where (abandoned d cutoff) (ig_sessions d),
      with_tables d (with_sessions (ig_tables d) rows)).

(** ** Token usage *)

(** [i64::try_from(n).unwrap_or(i64::MAX)] of a [u64]. *)
Definition to_i64 (n : Z) : Z := Z.min n i64_max.

Definition usage_row (u : NewSessionUsage) (now : Z) : UsageRow :=
  mkUsageRow (nu_session u) (to_i64 (nu_input u)) (to_i64 (nu_output u)) (to_i64 (nu_cache_write u))
    (to_i64 (nu_cache_read u)) (nu_model u) now.

Definition merge_usage (excluded r : UsageRow) : UsageRow :=
  mkUsageRow (us_session r) (Z.max (us_input r) (us_input excluded))
    (Z.max (us_output r) (us_output excluded)) (Z.max (us_cache_write r) (us_cache_write excluded))
    (Z.max (us_cache_read r) (us_cache_read excluded))
    (match us_model excluded with Some model => Some model | None => us_model r end)
    (us_updated_at excluded).

Definition usage_of (id : SessionId) (r : UsageRow) : bool := bool_decide (us_session r = id).

Definition upsert_session_usage (f : faults) (d : IngestDb) (u : NewSessionUsage) (now : Z)
    : result IngestDb OpsError :=
  let? _u := statement f (OsIngest IgUsage) tt in
  if existsb (usage_of (nu_session u)) (ig_usage d) then
    Ok (with_usage d (update_where (usage_of (nu_session u)) (merge_usage (usage_row u now)) (ig_usage d)))
  else
    bail_if negb (existsb (is_session (nu_session u)) (ig_sessions d)) with OpsSqlite FOREIGN_KEY_MESSAGE;;
    Ok (with_usage d (ig_usage d ++ [usage_row u now])).

End Ingest.
