(* ===== verification/Purge.v ===== *)
(** * Purging a session

    Models [purge_session_with_owner] of [crates/ai-memory-store/src/ops.rs]:
    everything a session recorded is deleted in one transaction, which leaves
    a tombstone that [Ingest] consults.  What refers to a deleted row goes
    with it or loses the reference, as the foreign keys of the migrations
    say; of the tables derived from a session only the columns the purge reads
    are here. *)

From S2P Require Import ProjectAuthz.
From S2P Require Export Ingest.
Open Scope nat_scope.
Open Scope rust_scope.

Inductive Compaction := Skip | Reclaim.
Inductive PurgeMode := PurgeCommit | PurgePreview.

#[export] Instance compaction_eq_dec : EqDecision Compaction.
Proof. solve_decision. Defined.

Record PurgeSessionSummary := mkPurgeSummary {
  observations_deleted : nat;
  handoffs_deleted : nat;
  pages_deleted : nat;
  auto_improve_runs_deleted : nat;
  removed_paths : list bytes;
  collateral_observations_deleted : nat;
  collateral_handoffs_denulled : nat;
  compacted : bool;
}.

(** ** References to what is deleted *)

Definition forget {A} (gone : A → bool) (x : option A) : option A :=
  match x with Some y => if gone y then None else Some y | None => None end.

Definition forget_session (id : SessionId) : option SessionId → option SessionId :=
  forget (λ x, bool_decide (x = id)).

Definition unlink_handoff (id : SessionId) (r : HandoffRow) : HandoffRow :=
  mkHandoffRow (h_id r) (h_workspace r) (h_project r) (forget_session id (h_from_session r))
    (h_from_agent r) (h_to_agent r) (h_cwd r) (h_summary r) (h_open_questions r) (h_next_steps r)
    (h_files_touched r) (h_state r) (h_created_at r) (h_accepted_by r) (h_accepted_at r)
    (forget_session id (h_accepted_by_session r)) (h_owner_user r) (h_accepted_by_user r).

Definition unlink_rejection (runs : list N) (r : RejectionRow) : RejectionRow :=
  mkRejectionRow (rj_workspace r) (rj_project r)
    (forget (λ run, bool_decide (run ∈ runs)) (rj_source_run r)).

Definition unlink_run (id : SessionId) (r : RunRow) : RunRow :=
  mkRunRow (rn_id r) (rn_workspace r) (rn_project r) (forget_session id (rn_session r)).

Definition unlink_summary (dead : list PageId) (s : SessionRow) : SessionRow :=
  mkSessionRow (s_id s) (s_workspace s) (s_project s) (s_agent_kind s) (s_cwd s) (s_started_at s)
    (s_actor_user s) (s_ended_at s) (orphaned dead (s_summary_page s)) (s_ended_observation_count s).

Section Purge.
Context (env : PageEnv).
Context (ws : WorkspaceId) (pj : ProjectId) (sid : SessionId).

(** ** What a purge collects *)

Definition session_here (s : SessionRow) : bool :=
  is_session sid s && bool_decide (s_workspace s = ws) && bool_decide (s_project s = pj).

Definition observation_here (o : ObservationRow) : bool :=
  of_session sid o && bool_decide (o_workspace o = ws) && bool_decide (o_project o = pj).

Definition authored_here (r : HandoffRow) : bool :=
  bool_decide (h_from_session r = Some sid) && in_scope ws pj r.

Definition session_page_path : bytes := lit "sessions/" ++ pe_session_text env sid ++ lit ".md".

Definition own_page (d : IngestDb) (r : PageRow) : bool :=
  bool_decide (p_workspace r = ws) && bool_decide (p_project r = pj)
  && (bool_decide ((find_session (ig_tables d) sid ≫= s_summary_page) = Some (p_id r))
      || (bool_decide (p_path r = session_page_path)
          && negb (session_id_is_not env (pe_session_text env sid) r))).

Definition page_ids (d : IngestDb) : list PageId := p_id <$> List.filter (own_page d) (pages (ig_pages d)).

(** The paths of those pages, each once, that no other live page is at. *)
Definition paths_to_remove (d : IngestDb) : list bytes :=
  List.filter
    (λ path, negb (existsb (λ r, latest_at ws pj path r && negb (bool_decide (p_id r ∈ page_ids d)))
                     (pages (ig_pages d))))
    (remove_dups (p_path <$> List.filter (own_page d) (pages (ig_pages d)))).

Definition run_here (r : RunRow) : bool :=
  bool_decide (rn_session r = Some sid) && bool_decide (rn_workspace r = ws)
  && bool_decide (rn_project r = pj).

Definition run_ids (d : IngestDb) : list N := rn_id <$> List.filter run_here (dv_runs (ig_derived d)).

Definition collateral_observation (o : ObservationRow) : bool :=
  of_session sid o && negb (bool_decide (o_project o = pj)).

Definition collateral_handoff (r : HandoffRow) : bool :=
  negb (bool_decide (h_project r = pj))
  && (bool_decide (h_from_session r = Some sid) || bool_decide (h_accepted_by_session r = Some sid)).

Definition purge_summary (d : IngestDb) : PurgeSessionSummary :=
  mkPurgeSummary (count_where observation_here (ig_observations d))
    (count_where authored_here (handoffs (ig_tables d))) (length (page_ids d))
    (length (run_ids d)) (paths_to_remove d)
    (count_where collateral_observation (ig_observations d))
    (count_where collateral_handoff (handoffs (ig_tables d))) false.

(** ** The deletions, in their order *)

Definition with_derived (d : IngestDb) (x : DerivedRows) : IngestDb :=
  mkIngestDb (ig_tables d) (ig_pages d) (ig_jobs d) (ig_keys d) (ig_cjk d) (ig_usage d) x.
Definition with_ig_pages (d : IngestDb) (x : PageDb) : IngestDb :=
  mkIngestDb (ig_tables d) x (ig_jobs d) (ig_keys d) (ig_cjk d) (ig_usage d) (ig_derived d).

Definition delete_rejections (runs : list N) (d : IngestDb) : IngestDb :=
  let v := ig_derived d in
  let hit r := match rj_source_run r with Some run => bool_decide (run ∈ runs) | None => false end
               && bool_decide (rj_workspace r = ws) && bool_decide (rj_project r = pj) in
  with_derived d (mkDerivedRows (dv_runs v) (List.filter (λ r, negb (hit r)) (dv_rejections v))
                    (dv_candidates v) (dv_signals v)).

Definition delete_runs (d : IngestDb) : IngestDb :=
  let v := ig_derived d in
  with_derived d (mkDerivedRows (List.filter (λ r, negb (run_here r)) (dv_runs v))
                    (unlink_rejection (run_ids d) <$> dv_rejections v) (dv_candidates v) (dv_signals v)).

Definition delete_authored_handoffs (d : IngestDb) : IngestDb :=
  let t := ig_tables d in
  with_tables d (with_handoffs t (List.filter (λ r, negb (authored_here r)) (handoffs t)) (handoff_log t)).

(** The signals of a page go with it. *)
Definition delete_session_pages (dead : list PageId) (d : IngestDb) : IngestDb :=
  let v := ig_derived d in
  let d := with_ig_pages d (delete_pages dead (ig_pages d)) in
  let d := with_derived d (mkDerivedRows (dv_runs v) (dv_rejections v) (dv_candidates v)
                             (List.filter (λ r, alive dead sg_page r) (dv_signals v))) in
  with_tables d (with_sessions (ig_tables d) (unlink_summary dead <$> ig_sessions d)).

(** The trigger takes the index rows of a deleted observation with it. *)
Definition delete_observations (p : ObservationRow → bool) (d : IngestDb) : IngestDb :=
  let gone := o_id <$> List.filter p (ig_observations d) in
  let t := with_observations (ig_tables d) (List.filter (λ o, negb (p o)) (ig_observations d)) in
  with_cjk (with_tables d t) (List.filter (λ c, negb (bool_decide (fst c ∈ gone))) (ig_cjk d)).

Definition delete_candidates (d : IngestDb) : IngestDb :=
  let v := ig_derived d in
  let hit r := bool_decide (cd_source_kind r = "prompt")
               && bool_decide (cd_source_ref r = lit "session:" ++ pe_session_text env sid) in
  with_derived d (mkDerivedRows (dv_runs v) (dv_rejections v)
                    (List.filter (λ r, negb (hit r)) (dv_candidates v)) (dv_signals v)).

Definition delete_signals (d : IngestDb) : IngestDb :=
  let v := ig_derived d in
  let hit r := bool_decide (sg_last_session r = Some (pe_session_text env sid)) in
  with_derived d (mkDerivedRows (dv_runs v) (dv_rejections v) (dv_candidates v)
                    (List.filter (λ r, negb (hit r)) (dv_signals v))).

(** [ON CONFLICT(session_id) DO UPDATE SET purged_at]: a tombstone that is
    there keeps its scope. *)
Definition add_tombstone (d : IngestDb) : IngestDb :=
  let p := ig_pages d in
  let rows := if existsb (λ t, bool_decide (fst t = sid)) (purged_sessions p) then purged_sessions p
              else purged_sessions p ++ [(sid, (ws, pj))] in
  with_ig_pages d (mkPageDb (pd_scopes p) (pages p) (links p) (entities p) (entity_links p) (evidence p)
                     (cjk_index p) rows (page_log p)).

(** The session's row, with the cascades. *)
Definition delete_session (d : IngestDb) : IngestDb :=
  if negb (existsb session_here (ig_sessions d)) then d
  else
    let d := delete_observations (of_session sid) d in
    let t := ig_tables d in
    let v := ig_derived d in
    mkIngestDb
      (mkHandoffDb (List.filter (λ s, negb (session_here s)) (sessions t)) (observations t)
         (unlink_handoff sid <$> handoffs t) (handoff_log t))
      (ig_pages d)
      (List.filter (λ j, negb (bool_decide (j_session j = sid))) (ig_jobs d))
      (List.filter (λ k, negb (bool_decide (ik_session k = Some sid))) (ig_keys d))
      (ig_cjk d)
      (List.filter (λ u, negb (usage_of sid u)) (ig_usage d))
      (mkDerivedRows (unlink_run sid <$> dv_runs v) (dv_rejections v) (dv_candidates v) (dv_signals v)).

(** The statements from the first [DELETE] to the audit row.  The loops over
    ids are one statement each. *)
Definition purge_deletes (f : faults) (d : IngestDb) (author : option UserId) (now : Z)
    : result IngestDb OpsError :=
  let dead := page_ids d in
  let del k (d : IngestDb) := statement f (OsIngest (IgDelete k)) d in
  let? d := del 0 (delete_rejections (run_ids d) d) in
  let? d := del 1 (delete_runs d) in
  let? d := del 2 (delete_authored_handoffs d) in
  let? d := del 3 (delete_session_pages dead d) in
  let? d := del 4 (delete_observations observation_here d) in
  let? d := del 5 (delete_candidates d) in
  let? d := del 6 (delete_signals d) in
  let? d := statement f (OsIngest IgTombstone) (add_tombstone d) in
  let? d := del 7 (delete_session d) in
  let? log := audit_with_detail f OsAudit "purge_session" ws pj None author now "{}"
                (handoff_log (ig_tables d)) in
  Ok (with_tables d (with_handoffs (ig_tables d) (handoffs (ig_tables d)) log)).

(** ** The command *)

(** [StoreError] of the authorization, among the errors here. *)
Definition authz_error (e : StoreError) : OpsError :=
  match e with
  | Sqlite m => OpsSqlite m
  | MalformedRecord m => OpsMalformed m
  | StoreForbidden m => OpsForbidden m
  | NotFound m => OpsNotFound m
  | _ => OpsSqlite "the project's authorization could not be resolved"
  end.

(** The checks of [purge_owned_session], in the deletion's transaction. *)
Definition check_owner (f : faults) (authz_faults : Statement → option string) (d : IngestDb)
    (author : option UserId) (owner : IdentityKey) : result unit OpsError :=
  match author with
  | None => Err (OpsForbidden "operator required")
  | Some user =>
      let snap := mkSnapshot (ig_scopes d) authz_faults in
      match resolve_project_authz_strict snap ws pj (user_principal user) true with
      | Err e => Err (authz_error e)
      | Ok authz =>
          match authorize_project authz Write with
          | Err _ => Err (OpsForbidden "project write access required")
          | Ok _ =>
              let? owned := statement f (OsIngest IgOwned)
                (existsb (λ s, session_here s
                               && bool_decide (s_actor_user s = Some (storage_key owner)))
                   (ig_sessions d)) in
              bail_if negb owned with OpsNotFound "session not found";;
              Ok tt
          end
      end
  end.

Definition purge_in_transaction (f : faults) (authz_faults : Statement → option string) (d : IngestDb)
    (author : option UserId) (mode : PurgeMode) (owner : option IdentityKey) (now : Z)
    : result (PurgeSessionSummary * IngestDb) OpsError :=
  let? _u := statement f OsBegin tt in
  let? here := statement f (OsIngest IgScope) (count_where session_here (ig_sessions d)) in
  bail_if here =? 0 with OpsNotFound "session not found in this workspace/project";;
  let? _u := match owner with
             | Some owner => check_owner f authz_faults d author owner
             | None => Ok tt
             end in
  let? summary := statement f (OsIngest IgCollateral) (purge_summary d) in
  bail_if bool_decide (is_Some owner)
          && ((0 <? collateral_observations_deleted summary)
              || (0 <? collateral_handoffs_denulled summary)) with
    InvalidState "session spans projects; an administrator must purge it";;
  match mode with
  | PurgePreview => Ok (summary, d)
  | PurgeCommit =>
      let? d := purge_deletes f d author now in
      let? _u := statement f OsCommit tt in
      Ok (summary, d)
  end.

Definition compacted_summary (c : bool) (s : PurgeSessionSummary) : PurgeSessionSummary :=
  mkPurgeSummary (observations_deleted s) (handoffs_deleted s) (pages_deleted s)
    (auto_improve_runs_deleted s) (removed_paths s) (collateral_observations_deleted s)
    (collateral_handoffs_denulled s) c.

(** Reclaiming the freed space comes after the commit: when it fails, the
    command fails and the purge stays. *)
Definition purge_session_with_owner (f : faults) (authz_faults : Statement → option string)
    (d : IngestDb) (author : option UserId) (compaction : Compaction) (mode : PurgeMode)
    (owner : option IdentityKey) (now : Z) : result PurgeSessionSummary OpsError * IngestDb :=
  match purge_in_transaction f authz_faults d author mode owner now with
  | Err e => (Err e, d)
  | Ok (summary, d') =>
      match mode, compaction with
      | PurgeCommit, Reclaim =>
          (let? _u := statement f (OsIngest (IgDelete 8)) tt in Ok (compacted_summary true summary), d')
      | _, _ => (Ok summary, d')
      end
  end.
End Purge.
