(* ===== verification/Capture.v ===== *)
(** * The writer's capture commands

    The commands of [crates/ai-memory-store/src/writer.rs] that reach
    [Ingest] and [Purge], as a machine that runs one command at a time, and
    its histories. *)

From S2P Require Export Purge.
Open Scope nat_scope.
Open Scope rust_scope.

(** The writer runs one command at a time; one that fails leaves the tables
    alone.  [it_now] is the command's first reading of the clock and
    [it_clock] the reading of the row it inserts. *)
Inductive IngestCmd :=
  | CmdBegin (s : NewSession)
  | CmdObserve (obs : NewObservation)
  | CmdObserveKeyed (obs : NewObservation) (key : bytes)
  | CmdAdmit (s : NewSession) (obs : NewObservation) (filter : OwnerFilter)
      (key moved_from : option bytes)
  | CmdComplete (pj : ProjectId) (key : bytes)
  | CmdCompleteIfClaimed (pj : ProjectId) (key : bytes)
  | CmdEnd (id : SessionId) (page : option PageId)
  | CmdEndAdmitted (a : AdmittedSession) (page : option PageId) (occurred_at : option Z)
  | CmdEndWithHandoff (a : AdmittedSession) (page : option PageId) (h : NewHandoff)
      (occurred_at : option Z)
  | CmdEndLifecycleOnly (a : AdmittedSession) (occurred_at : option Z)
  | CmdCloseAbandoned (cutoff : Z)
  | CmdUsage (u : NewSessionUsage)
  | CmdPurge (ws : WorkspaceId) (pj : ProjectId) (id : SessionId) (author : option UserId)
      (compaction : Compaction) (mode : PurgeMode) (owner : option IdentityKey).

Inductive IngestReply :=
  | RepIngestDone
  | RepObservation (id : ObservationId)
  | RepIngest (o : IngestObservationOutcome)
  | RepAdmission (a : HookSessionAdmission)
  | RepClaimed (matched : bool)
  | RepLifecycle (o : LifecycleOnlyEndOutcome)
  | RepHandoff (id : HandoffId)
  | RepClosed (n : nat)
  | RepPurged (summary : PurgeSessionSummary)
  | RepIngestError (e : OpsError).

Record IngestTurn := mkIngestTurn {
  it_cmd : IngestCmd;
  it_now : Z;
  it_clock : Z;
  it_id : ObservationId;
  it_handoff : HandoffId;
  it_faults : faults;
  it_authz : Statement → option string;
}.

Section Capture.
Context (env : PageEnv) (sha256_hex : bytes → bytes) (order : OrderBy HandoffRow).
Context (json_list : list bytes → bytes).

Definition ingest_reply {A} (d : IngestDb) (rep : A → IngestReply) (r : result (A * IngestDb) OpsError)
    : IngestReply * IngestDb :=
  match r with Ok (a, d') => (rep a, d') | Err e => (RepIngestError e, d) end.

Definition ingest_done (d : IngestDb) (r : result IngestDb OpsError) : IngestReply * IngestDb :=
  match r with Ok d' => (RepIngestDone, d') | Err e => (RepIngestError e, d) end.

Definition ingest_step (d : IngestDb) (t : IngestTurn) : IngestReply * IngestDb :=
  let f := it_faults t in
  match it_cmd t with
  | CmdBegin s => ingest_done d (begin_session env f d s (it_now t))
  | CmdObserve obs =>
      ingest_reply d RepObservation (insert_observation env f d obs (it_id t) (it_clock t))
  | CmdObserveKeyed obs key =>
      ingest_reply d RepIngest (insert_observation_keyed env sha256_hex f d obs key (it_now t) (it_clock t) (it_id t))
  | CmdAdmit s obs filter key moved_from =>
      ingest_reply d RepAdmission
        (admit_hook_session_event env sha256_hex f d s obs filter key moved_from (it_now t) (it_clock t) (it_id t))
  | CmdComplete pj key => ingest_done d (complete_observation_ingest f d pj key (it_now t))
  | CmdCompleteIfClaimed pj key =>
      ingest_reply d RepClaimed (complete_observation_ingest_if_claimed f d pj key (it_now t))
  | CmdEnd id page => ingest_done d (end_session f d id page (it_now t))
  | CmdEndAdmitted a page at_ =>
      ingest_done d (end_admitted_session f d a page (default (it_now t) at_))
  | CmdEndWithHandoff a page h at_ =>
      ingest_reply d RepHandoff
        (end_admitted_session_with_handoff json_list f d a page h (it_handoff t)
           (default (it_now t) at_) (it_clock t))
  | CmdEndLifecycleOnly a at_ =>
      ingest_reply d RepLifecycle
        (end_admitted_lifecycle_only_session order f d a (default (it_now t) at_) (it_clock t))
  | CmdCloseAbandoned cutoff => ingest_reply d RepClosed (close_abandoned_sessions f d cutoff)
  | CmdUsage u => ingest_done d (upsert_session_usage f d u (it_now t))
  | CmdPurge ws pj id author compaction mode owner =>
      let '(r, d') := purge_session_with_owner env ws pj id f (it_authz t) d author compaction mode
                        owner (it_now t) in
      (match r with Ok s => RepPurged s | Err e => RepIngestError e end, d')
  end.

Fixpoint ingest_run (d : IngestDb) (turns : list IngestTurn) : list IngestReply * IngestDb :=
  match turns with
  | [] => ([], d)
  | t :: turns' =>
      let '(rep, d) := ingest_step d t in
      let '(reps, final) := ingest_run d turns' in
      (rep :: reps, final)
  end.

End Capture.
