(* ===== verification/IngestFacts.v ===== *)
(** * What a capture command changes

    Every command of [Capture] is a sequence of the elementary changes
    [change]; an invariant of the tables is checked on those.  The tables
    invariant [ingest_ok] holds in every history. *)

From S2P Require Import IdentityFacts HandoffsFacts.
From S2P Require Export Capture.
Open Scope nat_scope.
Open Scope rust_scope.

(** ** Elementary changes *)

Definition add_session (d : IngestDb) (s : NewSession) (started_at : Z) : IngestDb :=
  with_tables d (with_sessions (ig_tables d) (ig_sessions d ++ [new_session_row s started_at])).

Definition update_sessions (p : SessionRow → bool) (g : SessionRow → SessionRow) (d : IngestDb) : IngestDb :=
  with_tables d (with_sessions (ig_tables d) (update_where p g (ig_sessions d))).

Definition has_session (d : IngestDb) (id : SessionId) : Prop := ∃ r, r ∈ ig_sessions d ∧ s_id r = id.

Definition is_purged_in (d : IngestDb) (id : SessionId) (ws : WorkspaceId) (pj : ProjectId) : Prop :=
  (id, (ws, pj)) ∈ purged_sessions (ig_pages d).

Lemma is_session_true id r : is_session id r = true ↔ s_id r = id.
Proof. apply bool_decide_eq_true. Qed.

Lemma is_session_false id r : is_session id r = false ↔ s_id r ≠ id.
Proof. apply bool_decide_eq_false. Qed.

Lemma existsb_session d id : existsb (is_session id) (ig_sessions d) = true ↔ has_session d id.
Proof. rewrite existsb_elem. unfold has_session. by setoid_rewrite is_session_true. Qed.

Lemma find_session_has d id r : find_session (ig_tables d) id = Some r → r ∈ ig_sessions d ∧ s_id r = id.
Proof.
  unfold find_session. intros [Hr Hid]%List.find_some. apply list_elem_of_In in Hr.
  by apply bool_decide_eq_true in Hid.
Qed.

Lemma find_session_none d id : find_session (ig_tables d) id = None ↔ ¬ has_session d id.
Proof.
  unfold find_session. split.
  - intros H (r & Hr & Hid). apply list_elem_of_In in Hr. pose proof (List.find_none _ _ H _ Hr) as Hf.
    cbn in Hf. by rewrite bool_decide_eq_false in Hf.
  - intros H. destruct (List.find _ _) as [r|] eqn:E; [|done].
    apply List.find_some in E as [Hr Hid%bool_decide_eq_true]. apply list_elem_of_In in Hr.
    destruct H. by exists r.
Qed.

Section Changes.
Context (env : PageEnv) (sha256_hex : bytes → bytes).
(** The session that may be purged, and the one that may be begun. *)
Context (gone : option SessionId) (begun : option NewSession).

Definition add_observation (d : IngestDb) (obs : NewObservation) (id : ObservationId) (now : Z) : IngestDb :=
  with_cjk
    (with_tables d (with_observations (ig_tables d) (ig_observations d ++ [new_observation_row obs id now])))
    (ig_cjk d ++ [observation_cjk env obs id]).

Definition claim_key (d : IngestDb) (obs : NewObservation) (key : bytes) (agent : option string) (now : Z)
    : IngestDb :=
  with_keys d (ig_keys d ++ [new_key_row env sha256_hex obs key agent now]).

(** What a purge leaves, but for its audit row. *)
Definition purged_db (ws : WorkspaceId) (pj : ProjectId) (sid : SessionId) (d : IngestDb) : IngestDb :=
  delete_session ws pj sid (add_tombstone ws pj sid (delete_signals env sid (delete_candidates env sid
    (delete_observations (observation_here ws pj sid) (delete_session_pages (page_ids env ws pj sid d)
      (delete_authored_handoffs ws pj sid (delete_runs ws pj sid
        (delete_rejections ws pj (run_ids ws pj sid d) d)))))))).

Definition upserted_usage (d : IngestDb) (u : NewSessionUsage) (now : Z) : IngestDb :=
  if existsb (usage_of (nu_session u)) (ig_usage d)
  then with_usage d (update_where (usage_of (nu_session u)) (merge_usage (usage_row u now)) (ig_usage d))
  else with_usage d (ig_usage d ++ [usage_row u now]).

Inductive change (d : IngestDb) : IngestDb → Prop :=
  | ch_session s t :
      begun = Some s → ¬ has_session d (ns_id s) → ¬ is_purged_in d (ns_id s) (ns_workspace s) (ns_project s) →
      corrupt_owner (ns_actor_user s) = false → change d (add_session d s t)
  | ch_observe obs id now :
      (∀ o, o ∈ ig_observations d → o_id o ≠ id) → has_session d (no_session obs) →
      change d (add_observation d obs id now)
  | ch_sweep now : change d (with_keys d (List.filter (key_kept now) (ig_keys d)))
  | ch_claim obs key agent now :
      find_key d (no_project obs) key = None → has_session d (no_session obs) →
      (recovery_ingest_key key = true → is_Some agent) → change d (claim_key d obs key agent now)
  | ch_complete pj key now :
      change d (with_keys d (update_where (is_key pj key) (complete_row now) (ig_keys d)))
  | ch_rebind s cwd : change d (update_sessions (is_session (ns_id s)) (rebind_row s cwd) d)
  | ch_end id page at_ : change d (update_sessions (is_session id) (end_row (ig_tables d) id page at_) d)
  | ch_close cutoff : change d (update_sessions (abandoned d cutoff) (close_row d) d)
  | ch_usage u now :
      has_session d (nu_session u) ∨ (∃ r, r ∈ ig_usage d ∧ us_session r = nu_session u) →
      change d (upserted_usage d u now)
  | ch_handoffs t :
      sessions t = ig_sessions d → observations t = ig_observations d → change d (with_tables d t)
  | ch_purge ws pj sid :
      gone = Some sid → existsb (session_here ws pj sid) (ig_sessions d) = true →
      change d (purged_db ws pj sid d).

Notation changes := (rtc change).

(** ** The operations, by their changes *)

Lemma validate_key_Ok value label u :
  validate_identity_storage_key value label = Ok u → corrupt_owner value = false.
Proof.
  unfold validate_identity_storage_key, corrupt_owner. destruct value as [v|]; [|done].
  destruct (from_storage_key v); [|done]. intros _. by apply bool_decide_eq_false.
Qed.

Lemma session_is_purged_Ok f d s : session_is_purged f d s = Ok false → ¬ is_purged_in d (ns_id s) (ns_workspace s) (ns_project s).
Proof.
  unfold session_is_purged, is_purged_in. intros H%statement_Ok. symmetry in H. rewrite existsb_none in H.
  intros Hin%H. by rewrite bool_decide_eq_false in Hin.
Qed.

Lemma insert_session_Ok b f d s t d' :
  insert_session b f d s t = Ok d' →
  (b = true ∧ has_session d (ns_id s) ∧ d' = d) ∨ (¬ has_session d (ns_id s) ∧ d' = add_session d s t).
Proof.
  unfold insert_session. intros H. peel_ok. destruct (existsb _ _) eqn:E.
  - apply existsb_session in E. destruct b; [|done]. left. by injection H.
  - peel_ok. right. split; [|done]. rewrite <- existsb_session. by rewrite E.
Qed.

Lemma begin_session_row_Ok f d s now d' :
  begun = Some s → begin_session_row env f d s now = Ok d' → changes d d' ∧ has_session d' (ns_id s).
Proof.
  unfold begin_session_row. intros Hb H. peel_ok. apply validate_key_Ok in Hr. subst.
  apply session_is_purged_Ok in Hr0. apply insert_session_Ok in H as [(_ & ? & ->)|(Hn & ->)]; [done|].
  split; [apply rtc_once; by constructor|]. exists (new_session_row s (default now (ns_occurred_at s))).
  split; [|done]. unfold add_session, ig_sessions. cbn. apply elem_of_app. right. by left.
Qed.

Lemma insert_observation_row_Ok f d obs id now id' d' :
  insert_observation_row env f d obs id now = Ok (id', d') →
  id' = id ∧ d' = add_observation d obs id now ∧ has_session d (no_session obs)
  ∧ (∀ o, o ∈ ig_observations d → o_id o ≠ id).
Proof.
  unfold insert_observation_row. intros H. peel_ok. apply statement_Ok in Hr0. subst.
  apply negb_false_iff, andb_true_iff in Hg0 as [Hs _]. apply existsb_session in Hs.
  repeat split; [done|]. rewrite existsb_none in Hg. intros o Ho. apply Hg in Ho.
  by apply bool_decide_eq_false in Ho.
Qed.

Lemma insert_observation_row_changes f d obs id now id' d' :
  insert_observation_row env f d obs id now = Ok (id', d') → change d d'.
Proof. intros (-> & -> & ? & ?)%insert_observation_row_Ok. by constructor. Qed.

Lemma sweep_keys_Ok f d now d' :
  sweep_keys f d now = Ok d' → d' = with_keys d (List.filter (key_kept now) (ig_keys d)).
Proof. unfold sweep_keys. intros H. peel_ok. apply statement_Ok in Hr. by subst. Qed.

(** What a claim finds, and what it leaves. *)
Inductive claim_case (d : IngestDb) (obs : NewObservation) (key : bytes) (agent : option string)
    (now clock : Z) (id : ObservationId) : IngestObservationOutcome → IngestDb → Prop :=
  | claim_resumes r :
      find_key d (no_project obs) key = Some r → ik_completed_at r = None →
      (recovery_ingest_key key = true → same_event env sha256_hex obs agent r = true) →
      claim_case d obs key agent now clock id ResumePending d
  | claim_completed r at_ :
      find_key d (no_project obs) key = Some r → ik_completed_at r = Some at_ →
      (recovery_ingest_key key = true → same_event env sha256_hex obs agent r = true) →
      claim_case d obs key agent now clock id AlreadyComplete d
  | claim_inserts :
      find_key d (no_project obs) key = None → has_session d (no_session obs) →
      (∀ o, o ∈ ig_observations d → o_id o ≠ id) →
      claim_case d obs key agent now clock id (Inserted id)
        (add_observation (claim_key d obs key agent now) obs id clock).

Lemma claim_or_resume_Ok f d obs key agent now clock id out d' :
  claim_or_resume env sha256_hex f d obs key agent now clock id = Ok (out, d') →
  claim_case d obs key agent now clock id out d'.
Proof.
  unfold claim_or_resume. intros H. peel_ok. apply statement_Ok in Hr. subst.
  destruct (find_key _ _ _) as [r|] eqn:E; peel_ok.
  - assert (Hsame : recovery_ingest_key key = true → same_event env sha256_hex obs agent r = true).
    { intros Hrec. rewrite Hrec in Hg. by apply negb_false_iff in Hg. }
    destruct (ik_completed_at r) as [at_|] eqn:Ec; simplify_eq; by econstructor.
  - apply statement_Ok in Hr. subst. destruct a0 as [id' d1].
    apply insert_observation_row_Ok in Hr0 as (-> & -> & Hs & Ho). cbn in *. simplify_eq.
    by constructor.
Qed.

Lemma claim_case_changes d obs key agent now clock id out d' :
  (recovery_ingest_key key = true → is_Some agent) →
  claim_case d obs key agent now clock id out d' → changes d d'.
Proof.
  intros Ha []; [done..|]. eapply rtc_l; [by apply ch_claim|]. apply rtc_once. by apply ch_observe.
Qed.

(** ** Admission, by cases *)

(** The session an event is admitted to, and the tables with it. *)
Inductive admitted (d : IngestDb) (s : NewSession) (obs : NewObservation) (filter : OwnerFilter) (now : Z)
    : AdmissionTarget → IngestDb → Prop :=
  | adm_existing r :
      find_session (ig_tables d) (ns_id s) = Some r → corrupt_owner (s_actor_user r) = false →
      s_agent_kind r = AgentKind_as_str (ns_agent s) → admits filter (s_actor_user r) = true →
      (ends_session obs = true → scoped_to s r || same_cwd s r = true) →
      admitted d s obs filter now (target_of s obs r) d
  | adm_new :
      ¬ has_session d (ns_id s) → ends_session obs = false → corrupt_owner (ns_actor_user s) = false →
      admits filter (ns_actor_user s) = true → ¬ is_purged_in d (ns_id s) (ns_workspace s) (ns_project s) →
      admitted d s obs filter now
        (mkAdmissionTarget (ns_actor_user s) None 0 None (ns_workspace s) (ns_project s))
        (add_session d s (default now (ns_occurred_at s))).

Definition guard_of (s : NewSession) (t : AdmissionTarget) : AdmittedSession :=
  mkAdmittedSession (ns_id s) (at_workspace t) (at_project t) (ns_agent s) (at_owner t).

Definition rescoped (obs : NewObservation) (t : AdmissionTarget) : NewObservation :=
  rescope obs (at_workspace t) (at_project t).

Inductive ingested (d : IngestDb) (obs : NewObservation) (agent : AgentKind) (now clock : Z)
    (id : ObservationId) : option bytes → IngestObservationOutcome → IngestDb → Prop :=
  | in_unkeyed :
      has_session d (no_session obs) → (∀ o, o ∈ ig_observations d → o_id o ≠ id) →
      ingested d obs agent now clock id None (Inserted id) (add_observation d obs id clock)
  | in_keyed key out d' :
      claim_case (with_keys d (List.filter (key_kept now) (ig_keys d))) obs key
        (Some (AgentKind_as_str agent)) now clock id out d' →
      ingested d obs agent now clock id (Some key) out d'.

Definition rebound (d : IngestDb) (s : NewSession) (cwd : option bytes) : IngestDb :=
  match cwd with
  | Some cwd => update_sessions (is_session (ns_id s)) (rebind_row s cwd) d
  | None => d
  end.

Definition answer_of (obs : NewObservation) (t : AdmissionTarget) (g : AdmittedSession)
    (out : IngestObservationOutcome) : HookSessionAdmission :=
  if negb (ends_session obs) then Observation g out
  else if bool_decide (is_Some (at_ended_at t)) then ReEnd g out else EndOpen g out.

Definition covered (d : IngestDb) (s : NewSession) (obs : NewObservation) (t : AdmissionTarget) : bool :=
  ends_session obs && bool_decide (is_Some (at_ended_at t))
  && (count_where (of_session (ns_id s)) (ig_observations d) <=? at_ended_count t).

Inductive admit_case (d : IngestDb) (s : NewSession) (obs : NewObservation) (filter : OwnerFilter)
    (key moved_from : option bytes) (now clock : Z) (id : ObservationId)
    : HookSessionAdmission → IngestDb → Prop :=
  | adc_missing :
      ends_session obs = true → ¬ has_session d (ns_id s) →
      admit_case d s obs filter key moved_from now clock id InvalidMissingEnd d
  | adc_scoped r :
      ends_session obs = true → find_session (ig_tables d) (ns_id s) = Some r →
      scoped_to s r = false → same_cwd s r = false →
      admit_case d s obs filter key moved_from now clock id InvalidScopedEnd d
  | adc_covered t d0 :
      admitted d s obs filter now t d0 → covered d0 s obs t = true →
      admit_case d s obs filter key moved_from now clock id (AlreadyEnded (guard_of s t)) d0
  | adc_ingested t d0 out d1 :
      admitted d s obs filter now t d0 → covered d0 s obs t = false →
      ingested d0 (rescoped obs t) (ns_agent s) now clock id key out d1 →
      admit_case d s obs filter key moved_from now clock id (answer_of obs t (guard_of s t) out)
        (rebound d1 s (rebinds s t moved_from key out)).

Lemma admission_target_Ok f d s obs filter now res :
  admission_target env f d s obs filter now = Ok res →
  match res with
  | inl a =>
      ends_session obs = true
      ∧ ((a = InvalidMissingEnd ∧ ¬ has_session d (ns_id s))
         ∨ (a = InvalidScopedEnd ∧ ∃ r, find_session (ig_tables d) (ns_id s) = Some r
              ∧ scoped_to s r = false ∧ same_cwd s r = false))
  | inr (t, d0) => admitted d s obs filter now t d0
  end.
Proof.
  unfold admission_target. intros H. peel_ok. apply statement_Ok in Hr. subst.
  destruct (find_session _ _) as [r|] eqn:E.
  - peel_ok. apply orb_false_iff in Hg as [[Hc Hag]%orb_false_iff Had].
    apply negb_false_iff, bool_decide_eq_true in Hag. apply negb_false_iff in Had.
    destruct (ends_session obs) eqn:Ee; cbn in H.
    + destruct (scoped_to s r) eqn:Es, (same_cwd s r) eqn:Ec; cbn in H; simplify_eq;
        try (constructor; try done; intros _; by rewrite Es, Ec).
      split; [done|]. right. eauto.
    + simplify_eq. constructor; try done. by rewrite Ee.
  - apply find_session_none in E. destruct (ends_session obs) eqn:Ee.
    + simplify_eq. split; [done|]. by left.
    + peel_ok. apply validate_key_Ok in Hr. subst. apply session_is_purged_Ok in Hr0.
      apply insert_session_Ok in Hr1 as [(? & ? & ?)|(_ & ->)]; [done|]. subst.
      apply negb_false_iff in Hg. by constructor.
Qed.

Lemma ingest_event_Ok f d obs key agent now clock id out d' :
  ingest_event env sha256_hex f d obs key agent now clock id = Ok (out, d') →
  ingested d obs agent now clock id key out d'.
Proof.
  unfold ingest_event. destruct key as [key|]; intros H; peel_ok.
  - apply sweep_keys_Ok in Hr as ->. constructor. by eapply claim_or_resume_Ok.
  - destruct a as [id' d1]. apply insert_observation_row_Ok in Hr as (-> & -> & ? & ?). cbn in *. simplify_eq.
    by constructor.
Qed.

Lemma admit_Ok f d s obs filter key moved_from now clock id a d' :
  admit_hook_session_event env sha256_hex f d s obs filter key moved_from now clock id = Ok (a, d') →
  no_session obs = ns_id s ∧ no_workspace obs = ns_workspace s ∧ no_project obs = ns_project s
  ∧ admit_case d s obs filter key moved_from now clock id a d'.
Proof.
  unfold admit_hook_session_event. intros H. apply bail_Ok in H as [Hg H].
  apply orb_false_iff in Hg as [[H1 H2]%orb_false_iff H3].
  apply negb_false_iff, bool_decide_eq_true in H1, H2, H3. repeat split; try done.
  apply result_bind_Ok in H as (_u & _ & H). apply result_bind_Ok in H as (res & Hres & H).
  apply admission_target_Ok in Hres. destruct res as [refused|[t d0]].
  - peel_ok. simplify_eq. destruct Hres as [Hends [[-> ?]|(-> & r & ? & ? & ?)]]; by econstructor.
  - cbv zeta in H.
    change (ends_session (rescope obs (at_workspace t) (at_project t))) with (ends_session obs) in H.
    apply result_bind_Ok in H as (cov & Hcov & H). assert (Hc : cov = covered d0 s obs t).
    { unfold covered. destruct (ends_session obs && bool_decide (is_Some (at_ended_at t))) eqn:E; cbn in *.
      - peel_ok. apply statement_Ok in Hr. by subst.
      - by injection Hcov as <-. }
    destruct cov; peel_ok.
    + simplify_eq. by constructor.
    + destruct a0 as [out d1]. apply ingest_event_Ok in Hr. peel_ok. simplify_eq.
      assert (d' = rebound d1 s (rebinds s t moved_from key out)) as ->.
      { unfold rebound. destruct (rebinds s t moved_from key out); peel_ok; [|by subst].
        apply statement_Ok in Hr2. by subst. }
      exact (adc_ingested d s obs filter key moved_from now clock id t d0 out d1 Hres (eq_sym Hc) Hr).
Qed.

Lemma admitted_changes d s obs filter now t d0 :
  begun = Some s → admitted d s obs filter now t d0 → changes d d0 ∧ has_session d0 (ns_id s).
Proof.
  intros Hb [r Hr _ _ _ _|Hn _ Hc _ Hp].
  - split; [done|]. apply find_session_has in Hr as [? ?]. by exists r.
  - split; [apply rtc_once; by constructor|]. exists (new_session_row s (default now (ns_occurred_at s))).
    split; [|done]. unfold add_session, ig_sessions. cbn. apply elem_of_app. right. by left.
Qed.

Lemma ingested_changes d obs agent now clock id key out d' :
  ingested d obs agent now clock id key out d' → changes d d'.
Proof.
  intros [Hs Ho|k o d1 Hc]; [apply rtc_once; by constructor|].
  eapply rtc_l; [apply ch_sweep|]. eapply claim_case_changes; [|exact Hc]. by intros _.
Qed.

Lemma rebound_changes d s cwd : changes d (rebound d s cwd).
Proof. destruct cwd; [apply rtc_once; constructor|done]. Qed.

Lemma admit_changes f d s obs filter key moved_from now clock id a d' :
  begun = Some s →
  admit_hook_session_event env sha256_hex f d s obs filter key moved_from now clock id = Ok (a, d') →
  changes d d'.
Proof.
  intros Hb (_ & _ & _ & [?|?|t d0 Ha _|t d0 out d1 Ha _ Hi])%admit_Ok; [done..| |].
  - by apply (admitted_changes _ _ _ _ _ _ _ Hb) in Ha as [? _].
  - apply (admitted_changes _ _ _ _ _ _ _ Hb) in Ha as [Ha _]. apply ingested_changes in Hi.
    etrans; [exact Ha|]. etrans; [exact Hi|]. apply rebound_changes.
Qed.

Lemma insert_keyed_changes f d obs key now clock id out d' :
  insert_observation_keyed env sha256_hex f d obs key now clock id = Ok (out, d') → changes d d'.
Proof.
  unfold insert_observation_keyed. intros H. peel_ok. apply sweep_keys_Ok in Hr0 as ->. simplify_eq.
  apply claim_or_resume_Ok in Hr2. eapply rtc_l; [apply ch_sweep|].
  eapply claim_case_changes; [|exact Hr2]. intros Hrec. rewrite Hrec in Hg. cbn in Hg.
  apply bool_decide_eq_false in Hg. destruct a1; [by eexists|done].
Qed.
End Changes.

(** ** Turns *)

(** The session a turn purges. *)
Definition purges (t : IngestTurn) : option SessionId :=
  match it_cmd t with CmdPurge _ _ id _ _ PurgeCommit _ => Some id | _ => None end.

(** The session a turn may begin. *)
Definition begun_by (t : IngestTurn) : option NewSession :=
  match it_cmd t with CmdBegin s | CmdAdmit s _ _ _ _ => Some s | _ => None end.

Section CaptureFacts.
Context (env : PageEnv) (sha256_hex : bytes → bytes) (gone : option SessionId) (begun : option NewSession).

Notation changes := (rtc (change env sha256_hex gone begun)).

(** ** Commands, by their changes *)

Lemma changes_update d p g :
  (∀ d', d' = update_sessions p g d → change env sha256_hex gone begun d d') → changes d (update_sessions p g d).
Proof. intros H. by apply rtc_once, H. Qed.

Lemma changes_handoffs d t :
  sessions t = ig_sessions d → observations t = ig_observations d → changes d (with_tables d t).
Proof. intros. by apply rtc_once, ch_handoffs. Qed.

(** An audit row. *)
Definition logged (d : IngestDb) (log : list OpsAudit) : IngestDb :=
  with_tables d (with_handoffs (ig_tables d) (handoffs (ig_tables d)) log).

Lemma changes_logged d log : changes d (logged d log).
Proof. by apply changes_handoffs. Qed.

Lemma logged_same d log :
  ig_keys (logged d log) = ig_keys d ∧ ig_sessions (logged d log) = ig_sessions d
  ∧ ig_observations (logged d log) = ig_observations d ∧ ig_pages (logged d log) = ig_pages d
  ∧ ig_usage (logged d log) = ig_usage d ∧ ig_jobs (logged d log) = ig_jobs d ∧ ig_cjk (logged d log) = ig_cjk d
  ∧ handoffs (ig_tables (logged d log)) = handoffs (ig_tables d) ∧ ig_derived (logged d log) = ig_derived d.
Proof. done. Qed.

(** An end stamp followed by changes to handoffs alone. *)
Lemma changes_end d id page at_ t :
  sessions t = update_where (λ s, bool_decide (s_id s = id)) (end_row (ig_tables d) id page at_) (ig_sessions d) →
  observations t = ig_observations d → changes d (with_tables d t).
Proof.
  intros Hs Ho. eapply rtc_l; [apply (ch_end _ _ _ _ _ id page at_)|].
  change (with_tables d t)
    with (with_tables (update_sessions (is_session id) (end_row (ig_tables d) id page at_) d) t).
  by apply changes_handoffs.
Qed.

Lemma end_session_row_tables f t id page at_ t' :
  end_session_row f t id page at_ = Ok t' →
  t' = with_sessions t (update_where (λ s, bool_decide (s_id s = id)) (end_row t id page at_) (sessions t)).
Proof. unfold end_session_row. intros H. by open_transaction. Qed.

Lemma with_tables_handoffs d t log : with_tables (with_tables d t) log = with_tables d log.
Proof. done. Qed.

Lemma purge_deletes_Ok ws pj sid f d author now d' :
  purge_deletes env ws pj sid f d author now = Ok d' →
  ∃ log, d' = logged (purged_db env ws pj sid d) log.
Proof. unfold logged, purge_deletes, purged_db. intros H. open_transaction. eexists. reflexivity. Qed.

Lemma purge_Ok ws pj sid f fa d author compaction mode owner now r d' :
  purge_session_with_owner env ws pj sid f fa d author compaction mode owner now = (r, d') →
  d' = d ∨ (existsb (session_here ws pj sid) (ig_sessions d) = true ∧ mode = PurgeCommit
            ∧ ∃ log, d' = logged (purged_db env ws pj sid d) log).
Proof.
  unfold purge_session_with_owner. destruct (purge_in_transaction _ _ _ _ _ _ _ _ _ _ _) as [[sum d1]|e] eqn:E.
  2: { intros [= _ <-]. by left. }
  intros Hr. assert (d' = d1) as -> by (by destruct mode, compaction; injection Hr as _ <-). clear Hr.
  unfold purge_in_transaction in E. peel_ok. apply statement_Ok in Hr0. subst.
  apply Nat.eqb_neq, count_where_pos in Hg as (s & Hs & Hh).
  destruct mode; peel_ok.
  - right. simplify_eq. split; [apply existsb_elem; eauto|]. split; [done|].
    by eapply purge_deletes_Ok.
  - left. by simplify_eq.
Qed.

Lemma purge_changes ws pj sid f fa d author compaction mode owner now r d' :
  (mode = PurgeCommit → gone = Some sid) →
  purge_session_with_owner env ws pj sid f fa d author compaction mode owner now = (r, d') → changes d d'.
Proof.
  intros Hg [->|(Hh & Hm & log & ->)]%purge_Ok; [done|].
  apply (rtc_l _ _ (purged_db env ws pj sid d)); [apply ch_purge; auto|]. apply changes_logged.
Qed.

Lemma upsert_usage_Ok f d u now d' :
  upsert_session_usage f d u now = Ok d' →
  d' = upserted_usage d u now
  ∧ (has_session d (nu_session u) ∨ ∃ r, r ∈ ig_usage d ∧ us_session r = nu_session u).
Proof.
  unfold upsert_session_usage, upserted_usage. intros H. apply result_bind_Ok in H as (_ & _ & H).
  destruct (existsb _ _) eqn:E.
  - injection H as <-. split; [done|]. right. apply existsb_elem in E as (r & Hr & Hu).
    unfold usage_of in Hu. apply bool_decide_eq_true in Hu. eauto.
  - peel_ok. subst. split; [done|]. left. apply negb_false_iff in Hg. by apply existsb_session in Hg.
Qed.

Lemma changes_once d d' : change env sha256_hex gone begun d d' → changes d d'.
Proof. apply rtc_once. Qed.

End CaptureFacts.

Ltac case_result E :=
  match goal with
  | |- (match ?r with Ok _ => _ | Err _ => _ end) = _ → _ => destruct r eqn:E; [try match goal with p : _ * _ |- _ => destruct p end|]
  end.

Lemma ingest_step_changes env sha256_hex order json_list d t rep d' :
  ingest_step env sha256_hex order json_list d t = (rep, d') → rtc (change env sha256_hex (purges t) (begun_by t)) d d'.
Proof.
  unfold ingest_step. destruct (it_cmd t) as [s|obs|obs key|s obs filter key mv|pj key|pj key|id page
      |a page at_|a page h at_|a at_|cutoff|u|ws pj id author comp mode owner] eqn:Ecmd; cbn.
  - unfold ingest_done, begin_session. destruct (begin_session_row _ _ _ _ _) eqn:E; intros [= _ <-]; [|done].
    apply (begin_session_row_Ok env sha256_hex (purges t) (begun_by t)) in E as [? _]; [done|].
    unfold begun_by. by rewrite Ecmd.
  - unfold ingest_reply, insert_observation. destruct (insert_observation_row _ _ _ _ _ _) as [[id d1]|] eqn:E;
      intros [= _ <-]; [|done].
    apply changes_once. by eapply insert_observation_row_changes.
  - unfold ingest_reply. destruct (insert_observation_keyed _ _ _ _ _ _ _ _ _) as [[o d1]|] eqn:E;
      intros [= _ <-]; [|done]. by eapply insert_keyed_changes.
  - unfold ingest_reply. destruct (admit_hook_session_event _ _ _ _ _ _ _ _ _ _ _ _) as [[o d1]|] eqn:E;
      intros [= _ <-]; [|done]. eapply admit_changes; [|exact E].
    unfold begun_by. by rewrite Ecmd.
  - unfold ingest_done, complete_observation_ingest, complete_observation_ingest_if_claimed.
    case_result E; intros [= _ <-]; [|done].
    open_transaction. apply changes_once, ch_complete.
  - unfold ingest_reply, complete_observation_ingest_if_claimed.
    case_result E; intros [= _ <-]; [|done].
    open_transaction. apply changes_once, ch_complete.
  - unfold ingest_done, end_session. case_result E; intros [= _ <-]; [|done].
    peel_ok. apply end_session_row_tables in Hr as ->. subst. by eapply changes_end.
  - unfold ingest_done, end_admitted_session. case_result E; intros [= _ <-]; [|done].
    peel_ok. apply end_session_row_tables in Hr1 as ->. subst. by eapply changes_end.
  - unfold ingest_reply, end_admitted_session_with_handoff.
    case_result E; intros [= _ <-]; [|done].
    peel_ok. apply end_session_row_tables in Hr1 as ->. destruct a3 as [o' t']. simplify_eq.
    apply insert_handoff_row_Ok in Hr2 as (_ & _ & Hs & Ho & _). eapply changes_end; [exact Hs|exact Ho].
  - unfold ingest_reply, end_admitted_lifecycle_only_session.
    case_result E; intros [= _ <-]; [|done].
    peel_ok. destruct a2 as [o' t']. simplify_eq. apply end_lifecycle_in_tx_Ok in Hr1.
    destruct o' as [|held]; cbn.
    + destruct Hr1 as [-> _]. by apply changes_handoffs.
    + destruct Hr1 as (_ & Hs & Ho & _). eapply changes_end; [exact Hs|exact Ho].
  - unfold ingest_reply, close_abandoned_sessions. case_result E;
      intros [= _ <-]; [|done].
    open_transaction. apply changes_once, ch_close.
  - unfold ingest_done. destruct (upsert_session_usage _ _ _ _) as [d1|] eqn:E; intros [= _ <-]; [|done].
    apply upsert_usage_Ok in E as [-> ?]. by apply changes_once, ch_usage.
  - destruct (purge_session_with_owner _ _ _ _ _ _ _ _ _ _ _ _) as [r d1] eqn:E. intros [= _ <-].
    eapply purge_changes; [|exact E]. intros ->. unfold purges. by rewrite Ecmd.
Qed.
