(* ===== verification/IngestInvariant.v ===== *)
(** * The tables invariant of capture

    [ingest_ok] holds in every history: the keys are unique, an observation,
    a usage row and a recovery claim belong to a session that exists, an end
    never claims to cover more than was observed, and the CJK index holds
    every observation once, in order. *)

From S2P Require Import FtsQuery.
From S2P Require Export IngestFacts.
Open Scope nat_scope.
Open Scope rust_scope.

(** ** Lists *)

Lemma filter_filter {A} (p q : A → bool) l :
  List.filter p (List.filter q l) = List.filter (λ x, q x && p x) l.
Proof. induction l as [|x l IH]; [done|]. cbn. destruct (q x); cbn; by rewrite IH. Qed.

Lemma filter_ext_elem {A} (p q : A → bool) l :
  (∀ x, x ∈ l → p x = q x) → List.filter p l = List.filter q l.
Proof. intros H. apply List.filter_ext_in. intros x Hx. apply H, list_elem_of_In, Hx. Qed.

Lemma fmap_filter {A B} (p : B → bool) (g : A → B) l :
  List.filter p (g <$> l) = g <$> List.filter (λ x, p (g x)) l.
Proof. induction l as [|x l IH]; [done|]. cbn. destruct (p (g x)); cbn; by rewrite IH. Qed.

Lemma count_where_filter {A} (p q : A → bool) l :
  (∀ x, p x = true → q x = true) → count_where p (List.filter q l) = count_where p l.
Proof.
  intros H. unfold count_where. rewrite filter_filter. f_equal. apply List.filter_ext. intros x.
  destruct (p x) eqn:E; [by rewrite H|by rewrite andb_false_r].
Qed.

(** ** The invariant *)

Section Invariant.
Context (env : PageEnv) (sha256_hex : bytes → bytes) (order : OrderBy HandoffRow).
Context (json_list : list bytes → bytes).

Definition index_of (o : ObservationRow) : ObservationCjk :=
  let terms := cjk_index_terms (pe_is_alphanumeric env) in (o_id o, (terms (o_title o), terms (o_body o))).

Definition slot (r : IngestKeyRow) : ProjectId * bytes := (ik_project r, ik_key r).

(** The observations of a session. *)
Definition observed_count (d : IngestDb) (id : SessionId) : nat :=
  count_where (of_session id) (ig_observations d).

(** A claim is bound to its event exactly when its key is a recovery key. *)
Definition claim_ok (d : IngestDb) (r : IngestKeyRow) : Prop :=
  ik_retained r = recovery_ingest_key (ik_key r)
  ∧ if ik_retained r
    then (∃ id, ik_session r = Some id ∧ has_session d id) ∧ is_Some (ik_agent r) ∧ is_Some (ik_kind r)
         ∧ is_Some (ik_identity r)
    else ik_session r = None.

Record ingest_ok (d : IngestDb) : Prop := {
  io_sessions : NoDup (s_id <$> ig_sessions d);
  io_observations : NoDup (o_id <$> ig_observations d);
  io_parent o : o ∈ ig_observations d → has_session d (o_session o);
  io_cjk : ig_cjk d = index_of <$> ig_observations d;
  io_keys : NoDup (slot <$> ig_keys d);
  io_claims r : r ∈ ig_keys d → claim_ok d r;
  io_watermark s : s ∈ ig_sessions d → s_ended_observation_count s ≤ observed_count d (s_id s);
  io_usage : NoDup (us_session <$> ig_usage d);
  io_usage_parent r : r ∈ ig_usage d → has_session d (us_session r);
  io_tombstones : NoDup (fst <$> purged_sessions (ig_pages d));
}.

Lemma claim_ok_mono d d' r :
  (∀ id, has_session d id → has_session d' id) → claim_ok d r → claim_ok d' r.
Proof. unfold claim_ok. destruct (ik_retained r); naive_solver. Qed.

(** ** Sessions that change row by row *)

Lemma has_session_update d p g id :
  (∀ r, s_id (g r) = s_id r) → has_session (update_sessions p g d) id ↔ has_session d id.
Proof.
  intros Hg. unfold has_session, update_sessions, ig_sessions. cbn. setoid_rewrite elem_update_where. split.
  - intros (r & (r0 & Hr & ->) & <-). exists r0. split; [done|]. destruct (p r0); [by rewrite Hg|done].
  - intros (r & Hr & <-). exists (if p r then g r else r). split; [by exists r|]. destruct (p r); [by rewrite Hg|done].
Qed.

Lemma ok_update_sessions d p g :
  ingest_ok d → (∀ r, s_id (g r) = s_id r) →
  (∀ r, r ∈ ig_sessions d → p r = true → s_ended_observation_count (g r) ≤ observed_count d (s_id r)) →
  ingest_ok (update_sessions p g d).
Proof.
  intros Hok Hg Hw. split; try exact (io_observations d Hok); try exact (io_cjk d Hok);
    try exact (io_keys d Hok); try exact (io_usage d Hok); try exact (io_tombstones d Hok).
  - unfold update_sessions, ig_sessions. cbn. rewrite fmap_update_where by done. apply Hok.
  - intros o Ho. apply has_session_update; [done|]. by apply Hok.
  - intros r Hr. eapply claim_ok_mono; [|by apply Hok]. intros id. by apply has_session_update.
  - intros s (s0 & Hs & ->)%elem_update_where. change (observed_count (update_sessions p g d)) with (observed_count d).
    destruct (p s0) eqn:E; [rewrite Hg; auto|by apply Hok].
  - intros r Hr. apply has_session_update; [done|]. by apply Hok.
Qed.

Lemma observed_add d obs id now sid :
  observed_count (add_observation env d obs id now) sid =
  observed_count d sid + (if bool_decide (no_session obs = sid) then 1 else 0).
Proof.
  unfold observed_count.
  change (ig_observations (add_observation env d obs id now))
    with (ig_observations d ++ [new_observation_row obs id now]).
  rewrite count_where_app. f_equal. unfold count_where, of_session. cbn. by destruct (bool_decide _).
Qed.

Lemma find_key_none d pj key : find_key d pj key = None → ∀ r, r ∈ ig_keys d → slot r ≠ (pj, key).
Proof.
  unfold find_key. intros H r Hr [= H1 H2]. apply list_elem_of_In in Hr.
  pose proof (List.find_none _ _ H _ Hr) as Hf. unfold is_key in Hf. subst.
  by rewrite !bool_decide_eq_true_2 in Hf.
Qed.

Lemma NoDup_snoc {A} (l : list A) x : NoDup l → x ∉ l → NoDup (l ++ [x]).
Proof.
  intros Hl Hx. apply NoDup_app. split; [done|]. split; [|apply NoDup_singleton].
  intros y Hy ->%list_elem_of_singleton. done.
Qed.

(** ** What a purge leaves *)

Lemma session_here_id ws pj sid s : session_here ws pj sid s = true → s_id s = sid.
Proof. unfold session_here. intros [[H _]%andb_true_iff _]%andb_true_iff. by apply is_session_true. Qed.

Lemma purged_db_eq ws pj sid d :
  existsb (session_here ws pj sid) (ig_sessions d) = true →
  let dead := page_ids env ws pj sid d in
  ig_sessions (purged_db env ws pj sid d) =
    unlink_summary dead <$> List.filter (λ s, negb (session_here ws pj sid s)) (ig_sessions d)
  ∧ ig_observations (purged_db env ws pj sid d) =
      List.filter (λ o, negb (of_session sid o)) (ig_observations d)
  ∧ ig_keys (purged_db env ws pj sid d) =
      List.filter (λ k, negb (bool_decide (ik_session k = Some sid))) (ig_keys d)
  ∧ ig_usage (purged_db env ws pj sid d) = List.filter (λ u, negb (usage_of sid u)) (ig_usage d)
  ∧ ig_jobs (purged_db env ws pj sid d) = List.filter (λ j, negb (bool_decide (j_session j = sid))) (ig_jobs d)
  ∧ handoffs (ig_tables (purged_db env ws pj sid d)) =
      unlink_handoff sid <$> List.filter (λ r, negb (authored_here ws pj sid r)) (handoffs (ig_tables d))
  ∧ pages (ig_pages (purged_db env ws pj sid d)) = pages (delete_pages dead (ig_pages d))
  ∧ purged_sessions (ig_pages (purged_db env ws pj sid d)) =
      (if existsb (λ t, bool_decide (fst t = sid)) (purged_sessions (ig_pages d))
       then purged_sessions (ig_pages d) else purged_sessions (ig_pages d) ++ [(sid, (ws, pj))]).
Proof.
  intros Hh dead. unfold purged_db, delete_session.
  match goal with |- context [if negb (existsb _ (ig_sessions ?x)) then _ else _] => set (d1 := x) end.
  assert (E : existsb (session_here ws pj sid) (ig_sessions d1) = true).
  { apply existsb_elem in Hh as (s & Hs & Hh). apply existsb_elem. exists (unlink_summary dead s).
    split; [|done]. change (ig_sessions d1) with (unlink_summary dead <$> ig_sessions d).
    by apply list_elem_of_fmap_2. }
  rewrite E. cbv [negb]. split_and!; try reflexivity.
  - trans (List.filter (λ s, negb (session_here ws pj sid s)) (unlink_summary dead <$> ig_sessions d));
      [reflexivity|]. by rewrite fmap_filter.
  - trans (List.filter (λ o, negb (of_session sid o))
             (List.filter (λ o, negb (observation_here ws pj sid o)) (ig_observations d))); [reflexivity|].
    rewrite filter_filter. apply List.filter_ext. intros o.
    unfold observation_here. by destruct (of_session sid o), (bool_decide _), (bool_decide _).
Qed.

(** The index follows the observations. *)
Definition indexed (d : IngestDb) : Prop :=
  NoDup (o_id <$> ig_observations d) ∧ ig_cjk d = index_of <$> ig_observations d.

Lemma indexed_delete p d : indexed d → indexed (delete_observations p d).
Proof.
  intros [Hn Hc]. split.
  - change (ig_observations (delete_observations p d)) with (List.filter (λ o, negb (p o)) (ig_observations d)).
    by apply NoDup_key_filter.
  - change (ig_cjk (delete_observations p d)) with
      (List.filter (λ c, negb (bool_decide (fst c ∈ o_id <$> List.filter p (ig_observations d)))) (ig_cjk d)).
    change (ig_observations (delete_observations p d)) with (List.filter (λ o, negb (p o)) (ig_observations d)).
    rewrite Hc, fmap_filter. f_equal. apply filter_ext_elem. intros o Ho. f_equal. cbn.
    destruct (p o) eqn:E.
    + apply bool_decide_eq_true, list_elem_of_fmap. exists o. split; [done|]. by apply elem_filter.
    + apply bool_decide_eq_false. intros (o' & Hid & [Ho' Hp]%elem_filter)%list_elem_of_fmap.
      assert (o = o') as <- by (by eapply (key_unique o_id)). congruence.
Qed.

Lemma indexed_same d d' :
  ig_observations d' = ig_observations d → ig_cjk d' = ig_cjk d → indexed d → indexed d'.
Proof. unfold indexed. intros -> ->. done. Qed.

Lemma indexed_purged ws pj sid d : indexed d → indexed (purged_db env ws pj sid d).
Proof.
  intros H. unfold purged_db, delete_session. set (d1 := add_tombstone _ _ _ _).
  assert (Hd1 : indexed d1).
  { eapply indexed_same; [reflexivity..|]. apply (indexed_delete (observation_here ws pj sid)).
    eapply indexed_same; [reflexivity..|]. exact H. }
  destruct (negb _); [done|]. by apply (indexed_delete (of_session sid)) in Hd1.
Qed.

Lemma has_session_purged ws pj sid d id :
  existsb (session_here ws pj sid) (ig_sessions d) = true → id ≠ sid → has_session d id →
  has_session (purged_db env ws pj sid d) id.
Proof.
  intros Hh Hne (r & Hr & Hid). destruct (purged_db_eq ws pj sid d Hh) as (Hs & _).
  unfold has_session. rewrite Hs. exists (unlink_summary (page_ids env ws pj sid d) r). split; [|done].
  apply list_elem_of_fmap_2, elem_filter. split; [done|]. apply negb_true_iff.
  destruct (session_here ws pj sid r) eqn:E; [|done]. by apply session_here_id in E as <-.
Qed.

Lemma ok_purged ws pj sid d :
  ingest_ok d → existsb (session_here ws pj sid) (ig_sessions d) = true → ingest_ok (purged_db env ws pj sid d).
Proof.
  intros Hok Hh. destruct (purged_db_eq ws pj sid d Hh) as (Hs & Ho & Hk & Hu & _ & _ & _ & Ht).
  destruct (indexed_purged ws pj sid d (conj (io_observations d Hok) (io_cjk d Hok))) as [Hi Hc].
  split; try done.
  - rewrite Hs, <- list_fmap_compose. apply (NoDup_key_filter s_id), Hok.
  - intros o. rewrite Ho. intros [Hin Hne%negb_true_iff]%elem_filter. apply bool_decide_eq_false in Hne.
    apply has_session_purged; [done..|]. by apply Hok.
  - rewrite Hk. apply NoDup_key_filter, Hok.
  - intros r. rewrite Hk. intros [Hr Hne%negb_true_iff%bool_decide_eq_false]%elem_filter.
    destruct (io_claims d Hok r Hr) as [Hret Hb]. split; [done|]. destruct (ik_retained r); [|done].
    destruct Hb as ((id & Hid & Hhas) & Hrest). split; [|done]. exists id. split; [done|].
    apply has_session_purged; [done| |done]. congruence.
  - intros s. unfold observed_count. rewrite Hs, Ho.
    intros (s0 & -> & [Hin Hne%negb_true_iff]%elem_filter)%list_elem_of_fmap. cbn.
    destruct (decide (s_id s0 = sid)) as [Heq|Hid].
    + exfalso. apply existsb_elem in Hh as (s1 & Hs1 & Hh). pose proof (session_here_id _ _ _ _ Hh) as Hid1.
      assert (s0 = s1) as -> by (eapply (key_unique s_id); [apply Hok|done..|congruence]). congruence.
    + rewrite count_where_filter; [by apply Hok|]. intros o Ho1. unfold of_session in Ho1 |- *. apply bool_decide_eq_true in Ho1.
      apply negb_true_iff, bool_decide_eq_false. by rewrite Ho1.
  - rewrite Hu. apply NoDup_key_filter, Hok.
  - intros r. rewrite Hu. intros [Hr Hne%negb_true_iff%bool_decide_eq_false]%elem_filter.
    apply has_session_purged; [done..|]. by apply Hok.
  - rewrite Ht. destruct (existsb (λ t, bool_decide (fst t = sid)) _) eqn:E; [apply Hok|]. rewrite fmap_app. apply NoDup_snoc; [apply Hok|].
    rewrite existsb_none in E. intros (t & Ht' & Hin)%list_elem_of_fmap. apply E in Hin. cbn in Ht'.
    by rewrite <- Ht', bool_decide_eq_true_2 in Hin.
Qed.

(** ** Every change keeps the invariant *)

Lemma has_session_add d s t id : has_session (add_session d s t) id ↔ has_session d id ∨ id = ns_id s.
Proof.
  unfold has_session. change (ig_sessions (add_session d s t)) with (ig_sessions d ++ [new_session_row s t]).
  setoid_rewrite elem_of_app. setoid_rewrite list_elem_of_singleton. split.
  - intros (r & [Hr| ->] & <-); [left; eauto|by right].
  - intros [(r & Hr & <-)| ->]; [eauto|]. exists (new_session_row s t). auto.
Qed.

Lemma ok_keys d keys :
  ingest_ok d → NoDup (slot <$> keys) → (∀ r, r ∈ keys → claim_ok d r) → ingest_ok (with_keys d keys).
Proof. intros [] Hn Hc. by split. Qed.

Lemma ok_usage d rows :
  ingest_ok d → NoDup (us_session <$> rows) → (∀ r, r ∈ rows → has_session d (us_session r)) →
  ingest_ok (with_usage d rows).
Proof. intros [] Hn Hc. by split. Qed.

Lemma ok_add_session d s t : ingest_ok d → ¬ has_session d (ns_id s) → ingest_ok (add_session d s t).
Proof.
  intros Hok Hn. split; try exact (io_observations d Hok); try exact (io_cjk d Hok);
    try exact (io_keys d Hok); try exact (io_usage d Hok); try exact (io_tombstones d Hok).
  - change (ig_sessions (add_session d s t)) with (ig_sessions d ++ [new_session_row s t]).
    rewrite fmap_app. apply NoDup_snoc; [apply Hok|]. intros (r & Hid & Hr)%list_elem_of_fmap. apply Hn.
    by exists r.
  - intros o Ho. apply has_session_add. left. by apply Hok.
  - intros r Hr. eapply claim_ok_mono; [|by apply Hok]. intros id Hid. apply has_session_add. by left.
  - intros r [Hr| ->%list_elem_of_singleton]%elem_of_app; [by apply Hok|]. cbn. lia.
  - intros r Hr. apply has_session_add. left. by apply Hok.
Qed.

Lemma ok_add_observation d obs id now :
  ingest_ok d → (∀ o, o ∈ ig_observations d → o_id o ≠ id) → has_session d (no_session obs) →
  ingest_ok (add_observation env d obs id now).
Proof.
  intros Hok Hid Hp. split; try exact (io_sessions d Hok); try exact (io_keys d Hok);
    try exact (io_usage d Hok); try exact (io_tombstones d Hok); try exact (io_usage_parent d Hok);
    try exact (io_claims d Hok).
  - change (ig_observations (add_observation env d obs id now))
      with (ig_observations d ++ [new_observation_row obs id now]).
    rewrite fmap_app. apply NoDup_snoc; [apply Hok|]. intros (o & He & Ho)%list_elem_of_fmap.
    by apply (Hid o).
  - intros o [Ho| ->%list_elem_of_singleton]%elem_of_app; [by apply Hok|done].
  - change (ig_observations (add_observation env d obs id now))
      with (ig_observations d ++ [new_observation_row obs id now]).
    change (ig_cjk (add_observation env d obs id now)) with (ig_cjk d ++ [observation_cjk env obs id]).
    by rewrite fmap_app, (io_cjk d Hok).
  - intros s Hs. rewrite observed_add. etrans; [by apply (io_watermark d Hok)|]. lia.
Qed.

Lemma ingest_change_ok gone begun d d' : change env sha256_hex gone begun d d' → ingest_ok d → ingest_ok d'.
Proof.
  intros [s t _ Hn _ _|obs id now Hid Hp|now|obs key agent now Hf Hp Ha|pj key now|s cwd|id page at_|cutoff|u now Hu
      |t Hs Ho|ws pj sid _ Hh] Hok.
  - by apply ok_add_session.
  - by apply ok_add_observation.
  - apply ok_keys; [done|apply NoDup_key_filter, Hok|]. intros r [Hr _]%elem_filter. by apply Hok.
  - apply ok_keys; [done| |].
    + rewrite fmap_app. apply NoDup_snoc; [apply Hok|]. intros (r & He & Hr)%list_elem_of_fmap.
      by apply (find_key_none _ _ _ Hf r Hr).
    + intros r [Hr| ->%list_elem_of_singleton]%elem_of_app; [by apply Hok|]. split; [done|]. cbn.
      destruct (recovery_ingest_key key); [|done]. split_and!; eauto.
  - apply ok_keys; [done|rewrite fmap_update_where; [apply Hok|done]|].
    intros r (r0 & Hr & ->)%elem_update_where. destruct (is_key pj key r0); by apply (io_claims d Hok) in Hr.
  - apply ok_update_sessions; [done..|]. intros r Hr _. exact (io_watermark d Hok r Hr).
  - apply ok_update_sessions; [done..|]. intros r Hr Hid%is_session_true. subst id. done.
  - apply ok_update_sessions; [done..|]. intros r Hr _. done.
  - unfold upserted_usage. destruct (existsb _ _) eqn:E.
    + apply ok_usage; [done|rewrite fmap_update_where; [apply Hok|done]|].
      intros r (r0 & Hr & ->)%elem_update_where. destruct (usage_of _ r0); by apply (io_usage_parent d Hok) in Hr.
    + rewrite existsb_none in E. apply ok_usage; [done| |].
      * rewrite fmap_app. apply NoDup_snoc; [apply Hok|]. intros (r & He & Hr)%list_elem_of_fmap.
        apply E in Hr. unfold usage_of in Hr. cbn in He. by rewrite <- He, bool_decide_eq_true_2 in Hr.
      * intros r [Hr| ->%list_elem_of_singleton]%elem_of_app; [by apply Hok|].
        destruct Hu as [Hu|(r & Hr & Hu)]; [done|]. apply E in Hr. unfold usage_of in Hr.
        by rewrite bool_decide_eq_true_2 in Hr.
  - destruct t as [ss os hs log]. cbn in Hs, Ho. subst ss os. destruct Hok. by split.
  - by apply ok_purged.
Qed.

Lemma ingest_step_ok d t rep d' :
  ingest_step env sha256_hex order json_list d t = (rep, d') → ingest_ok d → ingest_ok d'.
Proof.
  intros H%ingest_step_changes Hok. induction H as [|d d1 d' Hc _ IH]; [done|]. by eapply IH, ingest_change_ok.
Qed.

Lemma ingest_run_ok d turns reps d' :
  ingest_run env sha256_hex order json_list d turns = (reps, d') → ingest_ok d → ingest_ok d'.
Proof.
  revert d reps. induction turns as [|t turns IH]; intros d reps; cbn.
  - by intros [= _ <-].
  - destruct (ingest_step _ _ _ _ d t) as [rep d1] eqn:E, (ingest_run _ _ _ _ d1 turns) as [reps1 d2] eqn:Er.
    intros [= _ <-] Hok. eapply IH; [exact Er|]. by eapply ingest_step_ok.
Qed.
End Invariant.
