(* ===== verification/IngestKeys.v ===== *)
(** * The life of an ingest key

    A key is claimed with its observation, answers every further delivery
    without recording it again, first as pending and, once completed, as
    complete, until the sweep (30 days) or, for a recovery key, until its
    session is purged. *)

From S2P Require Export IngestInvariant.
From S2P Require Import PagesHistory PagesWrites.
Open Scope nat_scope.
Open Scope rust_scope.

(** ** Deliveries *)

(** The slot a turn delivered to, and what became of it. *)
Definition delivery (t : IngestTurn) (rep : IngestReply)
    : option (ProjectId * bytes * IngestObservationOutcome) :=
  match it_cmd t, rep with
  | CmdObserveKeyed obs key, RepIngest o => Some (no_project obs, key, o)
  | CmdAdmit _ _ _ (Some key) _, RepAdmission (Observation g o)
  | CmdAdmit _ _ _ (Some key) _, RepAdmission (EndOpen g o)
  | CmdAdmit _ _ _ (Some key) _, RepAdmission (ReEnd g o) => Some (as_project g, key, o)
  | _, _ => None
  end.

(** The slot a turn completed. *)
Definition completed_slot (t : IngestTurn) (rep : IngestReply) : option (ProjectId * bytes) :=
  match it_cmd t, rep with
  | CmdComplete pj key, RepIngestDone | CmdCompleteIfClaimed pj key, RepClaimed _ => Some (pj, key)
  | _, _ => None
  end.

Definition completes (pj : ProjectId) (key : bytes) (turn : IngestTurn * IngestReply) : bool :=
  bool_decide (completed_slot (fst turn) (snd turn) = Some (pj, key)).

(** The session of a turn's event. *)
Definition event_session (t : IngestTurn) : option SessionId :=
  match it_cmd t with
  | CmdObserve obs | CmdObserveKeyed obs _ => Some (no_session obs)
  | CmdAdmit s _ _ _ _ | CmdBegin s => Some (ns_id s)
  | _ => None
  end.

(** A later turn leaves the claim of [t0] its life. *)
Definition within_life (t0 : IngestTurn) (key : bytes) (t : IngestTurn) : Prop :=
  if recovery_ingest_key key then purges t = None ∨ purges t ≠ event_session t0
  else (it_now t ≤ it_now t0 + INGEST_KEY_TTL_MICROS)%Z.

(** ** Lookup *)

Lemma find_app {A} (p : A → bool) k l :
  List.find p (k ++ l) = match List.find p k with Some x => Some x | None => List.find p l end.
Proof. induction k as [|x k IH]; [done|]. cbn. by destruct (p x). Qed.

Lemma find_filter_kept {A} (p q : A → bool) l x :
  List.find p l = Some x → q x = true → List.find p (List.filter q l) = Some x.
Proof.
  induction l as [|y l IH]; [done|]. cbn. destruct (p y) eqn:E.
  - intros [= ->] ->. cbn. by rewrite E.
  - intros H Hq. destruct (q y); cbn; [rewrite E|]; auto.
Qed.

Lemma find_filter_none {A} (p q : A → bool) l :
  List.find p l = None → List.find p (List.filter q l) = None.
Proof.
  induction l as [|y l IH]; [done|]. cbn. destruct (p y) eqn:E; [done|].
  intros H. destruct (q y); cbn; [rewrite E|]; auto.
Qed.

Lemma find_update {A} (p q : A → bool) (g : A → A) l :
  (∀ x, p (g x) = p x) →
  List.find p (update_where q g l) = (λ x, if q x then g x else x) <$> List.find p l.
Proof.
  intros Hp. induction l as [|y l IH]; [done|]. cbn.
  assert (p (if q y then g y else y) = p y) as -> by (by destruct (q y)).
  by destruct (p y).
Qed.

Lemma is_key_true pj key r : is_key pj key r = true ↔ ik_project r = pj ∧ ik_key r = key.
Proof. unfold is_key. by rewrite andb_true_iff, !bool_decide_eq_true. Qed.

Lemma is_key_slot pj key r :
  is_key pj key r = bool_decide (Some (pj, key) = Some (ik_project r, ik_key r)).
Proof.
  apply Bool.eq_iff_eq_true. rewrite is_key_true, bool_decide_eq_true. split; [by intros [<- <-]|].
  by intros [= <- <-].
Qed.

Section Keys.
Context (env : PageEnv) (sha256_hex : bytes → bytes) (order : OrderBy HandoffRow).
Context (json_list : list bytes → bytes).

Notation step := (ingest_step env sha256_hex order json_list).
Notation run := (ingest_run env sha256_hex order json_list).

(** ** What a turn does to the keys *)

(** Rows may go, but not those that are kept; rows may come, behind. *)
Definition keys_survive (t : IngestTurn) (keys keys' : list IngestKeyRow) : Prop :=
  ∃ p tail, keys' = List.filter p keys ++ tail
    ∧ ∀ r, key_kept (it_now t) r = true → purges t = None ∨ purges t ≠ ik_session r → p r = true.

Lemma survive_refl t keys : keys_survive t keys keys.
Proof.
  exists (λ _, true), []. split; [|done]. rewrite app_nil_r.
  induction keys as [|r keys IH]; [done|]. cbn. by rewrite <- IH.
Qed.

Lemma survive_sweep t keys tail : keys_survive t keys (List.filter (key_kept (it_now t)) keys ++ tail).
Proof. by exists (key_kept (it_now t)), tail. Qed.

Lemma survive_snoc t keys tail : keys_survive t keys (keys ++ tail).
Proof.
  exists (λ _, true), tail. split; [|done]. f_equal.
  induction keys as [|r keys IH]; [done|]. cbn. by rewrite <- IH.
Qed.

Lemma claim_case_keys d obs key agent now clock id out d' :
  claim_case env sha256_hex d obs key agent now clock id out d' → ∃ tail, ig_keys d' = ig_keys d ++ tail.
Proof.
  intros [r _ _ _|r at_ _ _ _|_ _ _]; [exists []; by rewrite app_nil_r..|]. by eexists.
Qed.

Lemma rebound_same d s cwd :
  ig_keys (rebound d s cwd) = ig_keys d ∧ ig_observations (rebound d s cwd) = ig_observations d
  ∧ ig_pages (rebound d s cwd) = ig_pages d ∧ ig_cjk (rebound d s cwd) = ig_cjk d.
Proof. by destruct cwd. Qed.

Lemma admitted_same d s obs filter now t d0 :
  admitted d s obs filter now t d0 →
  ig_keys d0 = ig_keys d ∧ ig_observations d0 = ig_observations d ∧ ig_pages d0 = ig_pages d
  ∧ ig_cjk d0 = ig_cjk d.
Proof. by intros []. Qed.

Lemma ingested_keys d obs agent t clock id key out d' :
  ingested env sha256_hex d obs agent (it_now t) clock id key out d' → keys_survive t (ig_keys d) (ig_keys d').
Proof.
  intros [_ _|k o d1 Hc]; [apply survive_refl|].
  apply claim_case_keys in Hc as [tail ->]. apply survive_sweep.
Qed.

Lemma admit_keys f d s obs filter key mv t clock id a d' :
  admit_hook_session_event env sha256_hex f d s obs filter key mv (it_now t) clock id = Ok (a, d') →
  keys_survive t (ig_keys d) (ig_keys d').
Proof.
  intros (_ & _ & _ & [?|?|t1 d0 Ha _|t1 d0 out d1 Ha _ Hi])%admit_Ok; try apply survive_refl.
  - apply admitted_same in Ha as (-> & _). apply survive_refl.
  - destruct (rebound_same d1 s (rebinds s t1 mv key out)) as (-> & _).
    apply admitted_same in Ha as (Hk & _). rewrite <- Hk. by eapply ingested_keys.
Qed.

Lemma step_keys d t rep d' :
  step d t = (rep, d') →
  match completed_slot t rep with
  | Some (pj, key) => ig_keys d' = update_where (is_key pj key) (complete_row (it_now t)) (ig_keys d)
  | None => keys_survive t (ig_keys d) (ig_keys d')
  end.
Proof.
  assert (Hs : ∀ x y : HandoffDb, ∀ d, ig_keys (with_tables d x) = ig_keys d) by done.
  unfold ingest_step, completed_slot.
  destruct (it_cmd t) as [s|obs|obs key|s obs filter key mv|pj key|pj key|id page
      |a page at_|a page h at_|a at_|cutoff|u|ws pj id author comp mode owner] eqn:Ecmd.
  - unfold ingest_done, begin_session. destruct (begin_session_row _ _ _ _ _) eqn:E; intros [= <- <-];
      [|apply survive_refl].
    unfold begin_session_row in E. peel_ok.
    apply insert_session_Ok in E as [(_ & _ & ->)|(_ & ->)]; apply survive_refl.
  - unfold ingest_reply, insert_observation. destruct (insert_observation_row _ _ _ _ _ _) as [[id d1]|] eqn:E;
      intros [= <- <-]; [|apply survive_refl].
    apply insert_observation_row_Ok in E as (_ & -> & _). apply survive_refl.
  - unfold ingest_reply. destruct (insert_observation_keyed _ _ _ _ _ _ _ _ _) as [[o d1]|] eqn:E;
      intros [= <- <-]; [|apply survive_refl].
    unfold insert_observation_keyed in E. peel_ok. simplify_eq. apply sweep_keys_Ok in Hr0 as ->.
    apply claim_or_resume_Ok, claim_case_keys in Hr2 as [tail ->]. apply survive_sweep.
  - unfold ingest_reply. destruct (admit_hook_session_event _ _ _ _ _ _ _ _ _ _ _ _) as [[o d1]|] eqn:E;
      intros [= <- <-]; [|apply survive_refl]. by eapply admit_keys.
  - unfold ingest_done, complete_observation_ingest, complete_observation_ingest_if_claimed.
    destruct (result_bind _ _) as [d1|] eqn:E; intros [= <- <-]; [|apply survive_refl]. by open_transaction.
  - unfold ingest_reply, complete_observation_ingest_if_claimed.
    destruct (result_bind _ _) as [[o d1]|] eqn:E; intros [= <- <-]; [|apply survive_refl]. by open_transaction.
  - unfold ingest_done, end_session. destruct (result_bind _ _) as [d1|] eqn:E; intros [= <- <-];
      [|apply survive_refl]. peel_ok. subst. apply survive_refl.
  - unfold ingest_done, end_admitted_session. destruct (result_bind _ _) as [d1|] eqn:E; intros [= <- <-];
      [|apply survive_refl]. peel_ok. subst. apply survive_refl.
  - unfold ingest_reply, end_admitted_session_with_handoff.
    match goal with |- context [match ?r with _ => _ end] => destruct r as [[o d1]|] eqn:E end;
      intros [= <- <-]; [|apply survive_refl]. peel_ok. simplify_eq. apply survive_refl.
  - unfold ingest_reply, end_admitted_lifecycle_only_session.
    destruct (result_bind _ _) as [[o d1]|] eqn:E; intros [= <- <-]; [|apply survive_refl].
    peel_ok. simplify_eq. apply survive_refl.
  - unfold ingest_reply, close_abandoned_sessions. destruct (result_bind _ _) as [[o d1]|] eqn:E;
      intros [= <- <-]; [|apply survive_refl]. open_transaction. apply survive_refl.
  - unfold ingest_done. destruct (upsert_session_usage _ _ _ _) as [d1|] eqn:E; intros [= <- <-];
      [|apply survive_refl].
    apply upsert_usage_Ok in E as [-> _]. unfold upserted_usage. destruct (existsb _ _); apply survive_refl.
  - destruct (purge_session_with_owner _ _ _ _ _ _ _ _ _ _ _ _) as [r d1] eqn:E. intros [= <- <-].
    apply purge_Ok in E as [->|(Hh & -> & log & ->)]; [apply survive_refl|].
    destruct (purged_db_eq env ws pj id d Hh) as (_ & _ & Hk & _).
    destruct (logged_same (purged_db env ws pj id d) log) as (-> & _). rewrite Hk. eexists _, []. split; [by rewrite app_nil_r|]. cbn beta. intros r0 _ [Hp|Hp].
    + unfold purges in Hp. by rewrite Ecmd in Hp.
    + unfold purges in Hp. rewrite Ecmd in Hp. apply negb_true_iff, bool_decide_eq_false. congruence.
Qed.

(** ** A claim through its life *)

Definition row_lives (r : IngestKeyRow) (t : IngestTurn) : Prop :=
  if ik_retained r then purges t = None ∨ purges t ≠ ik_session r
  else ik_session r = None ∧ (it_now t ≤ ik_seen_at r + INGEST_KEY_TTL_MICROS)%Z.

Lemma row_lives_kept r t :
  row_lives r t → key_kept (it_now t) r = true ∧ (purges t = None ∨ purges t ≠ ik_session r).
Proof.
  unfold row_lives, key_kept. destruct (ik_retained r); cbn; [done|]. intros [-> Hle].
  split; [apply negb_true_iff, Z.ltb_ge; lia|]. destruct (purges t); [by right|by left].
Qed.

Definition settled (done_ : bool) (now : Z) (r : IngestKeyRow) : IngestKeyRow :=
  if done_ then complete_row now r else r.

Lemma step_claim d t rep d' pj key r :
  step d t = (rep, d') → find_key d pj key = Some r → row_lives r t →
  find_key d' pj key = Some (settled (completes pj key (t, rep)) (it_now t) r).
Proof.
  intros Hstep Hf [Hk Hp]%row_lives_kept. apply step_keys in Hstep. unfold completes. cbn.
  destruct (completed_slot t rep) as [[pj' key']|].
  - unfold find_key in *. rewrite Hstep, find_update by done. rewrite Hf. cbn. f_equal.
    apply List.find_some in Hf as [_ [<- <-]%is_key_true]. unfold settled. by rewrite is_key_slot.
  - rewrite bool_decide_eq_false_2 by done. destruct Hstep as (p & tail & Hkeys & Hkeep).
    unfold find_key in *. rewrite Hkeys, find_app, (find_filter_kept _ _ _ _ Hf); [done|]. by apply Hkeep.
Qed.

Lemma settled_fields b now r :
  ik_retained (settled b now r) = ik_retained r ∧ ik_session (settled b now r) = ik_session r
  ∧ ik_seen_at (settled b now r) = ik_seen_at r ∧ ik_identity (settled b now r) = ik_identity r
  ∧ ik_kind (settled b now r) = ik_kind r ∧ ik_agent (settled b now r) = ik_agent r.
Proof. by destruct b. Qed.

Lemma row_lives_settled b now r t : row_lives (settled b now r) t ↔ row_lives r t.
Proof. by destruct b. Qed.

Definition is_done (r : IngestKeyRow) : bool := bool_decide (is_Some (ik_completed_at r)).

Lemma is_done_settled b now r : is_done (settled b now r) = is_done r || b.
Proof. unfold is_done, settled, complete_row. destruct b; cbn; by destruct (ik_completed_at r). Qed.

Lemma run_claim turns d reps d' pj key r :
  run d turns = (reps, d') → find_key d pj key = Some r → Forall (row_lives r) turns →
  ∃ r', find_key d' pj key = Some r' ∧ is_done r' = is_done r || existsb (completes pj key) (zip turns reps)
        ∧ (∀ t, row_lives r' t ↔ row_lives r t) ∧ ik_identity r' = ik_identity r ∧ ik_agent r' = ik_agent r.
Proof.
  revert d reps r. induction turns as [|t turns IH]; intros d reps r; cbn.
  - intros [= <- <-] Hf _. exists r. cbn. by rewrite orb_false_r.
  - destruct (step d t) as [rep d1] eqn:E, (run d1 turns) as [reps1 d2] eqn:Er. intros [= <- <-] Hf.
    intros [Ht Hts]%Forall_cons. pose proof (step_claim _ _ _ _ _ _ _ E Hf Ht) as Hf1.
    edestruct (IH _ _ _ Er Hf1) as (r' & Hr' & Hd & Hl & Hi & Ha).
    { eapply Forall_impl; [exact Hts|]. intros u. by apply row_lives_settled. }
    exists r'. split; [done|]. cbn. rewrite Hd, is_done_settled, orb_assoc.
    destruct (settled_fields (completes pj key (t, rep)) (it_now t) r) as (_ & _ & _ & Hi1 & _ & Ha1).
    split; [done|]. split; [|by rewrite Hi, Ha, Hi1, Ha1]. intros u. rewrite Hl. by apply row_lives_settled.
Qed.

(** ** A delivery *)

(** The event a turn delivers. *)
Definition delivered (t : IngestTurn) : option NewObservation :=
  match it_cmd t with
  | CmdObserve obs | CmdObserveKeyed obs _ | CmdAdmit _ obs _ _ _ => Some obs
  | _ => None
  end.

Lemma rescope_self obs : rescope obs (no_workspace obs) (no_project obs) = obs.
Proof. by destruct obs. Qed.

(** Every delivery is one claim on the swept keys. *)
Lemma delivery_case d t rep d' pj key o :
  step d t = (rep, d') → delivery t rep = Some (pj, key, o) →
  ∃ obs ws agent d0 d1, delivered t = Some obs ∧ event_session t = Some (no_session obs)
    ∧ ig_keys d0 = List.filter (key_kept (it_now t)) (ig_keys d) ∧ ig_observations d0 = ig_observations d
    ∧ claim_case env sha256_hex d0 (rescope obs ws pj) key agent (it_now t) (it_clock t) (it_id t) o d1
    ∧ ig_keys d' = ig_keys d1 ∧ ig_observations d' = ig_observations d1.
Proof.
  unfold ingest_step, delivery, delivered, event_session.
  destruct (it_cmd t) as [|obs|obs key0|s obs filter key0 mv| | | | | | | | |]; try by intros _.
  - unfold ingest_reply. destruct (insert_observation_keyed _ _ _ _ _ _ _ _ _) as [[o1 d1]|] eqn:E;
      intros [= <- <-]; [|done]. intros [= <- <- <-]. unfold insert_observation_keyed in E. peel_ok. simplify_eq.
    apply sweep_keys_Ok in Hr0. apply claim_or_resume_Ok in Hr2.
    exists obs, (no_workspace obs), a1, a0, d1. rewrite rescope_self. rewrite Hr0. rewrite Hr0 in Hr2. by split_and!.
  - unfold ingest_reply. destruct (admit_hook_session_event _ _ _ _ _ _ _ _ _ _ _ _) as [[a d1]|] eqn:E;
      intros [= <- <-]; [|by destruct key0].
    apply admit_Ok in E as (Hsess & _ & _ & Hc). destruct key0 as [key0|]; [|done].
    destruct Hc as [_ _|r _ _ _ _|t1 d0 _ _|t1 d0 out d1 Ha _ Hi]; try done.
    intros Hd. assert (pj = at_project t1 ∧ key = key0 ∧ o = out) as (-> & -> & ->).
    { unfold answer_of, guard_of in Hd. repeat case_match; simplify_eq; done. }
    inversion Hi as [|k out' d1' Hcl]; subst.
    destruct (rebound_same d1 s (rebinds s t1 mv (Some key0) out)) as (-> & -> & _).
    apply admitted_same in Ha as (Hk & Ho & _).
    exists obs, (at_workspace t1), (Some (AgentKind_as_str (ns_agent s))), (with_keys d0 (List.filter (key_kept (it_now t)) (ig_keys d0))), d1.
    split; [done|]. split; [by rewrite Hsess|]. split; [by rewrite <- Hk|]. split; [exact Ho|].
    by split; [exact Hcl|].
Qed.

(** A delivery that inserts leaves one new row and its claim. *)
Lemma delivery_inserts d t rep d' pj key id :
  step d t = (rep, d') → delivery t rep = Some (pj, key, Inserted id) →
  ∃ row r, ig_observations d' = ig_observations d ++ [row] ∧ o_id row = id
    ∧ find_key d' pj key = Some r ∧ is_done r = false
    ∧ (∀ u, within_life t key u → row_lives r u)
    ∧ ∃ obs agent, delivered t = Some obs
        ∧ (recovery_ingest_key key = true → ik_identity r = Some (recovery_event_identity env sha256_hex obs agent)).
Proof.
  intros Hstep Hd. destruct (delivery_case _ _ _ _ _ _ _ Hstep Hd) as
    (obs & ws & agent & d0 & d1 & Hdel & Hev & Hk0 & Ho0 & Hc & Hk & Ho).
  inversion Hc as [| |Hf Hp Hid]; subst.
  exists (new_observation_row (rescope obs ws pj) (it_id t) (it_clock t)),
    (new_key_row env sha256_hex (rescope obs ws pj) key agent (it_now t)).
  split; [by rewrite Ho, <- Ho0|]. split; [done|]. split.
  { unfold find_key in *. cbn in Hf. rewrite Hk. change (ig_keys (add_observation _ _ _ _ _)) with
      (ig_keys d0 ++ [new_key_row env sha256_hex (rescope obs ws pj) key agent (it_now t)]).
    rewrite find_app, Hf. cbn. unfold is_key. cbn. by rewrite !bool_decide_eq_true_2. }
  split; [done|]. split.
  - intros u. unfold within_life, row_lives. cbn. rewrite Hev. by destruct (recovery_ingest_key key).
  - exists obs, agent. split; [done|]. cbn. by intros ->.
Qed.

(** A delivery to a claim that lives records nothing. *)
Lemma delivery_resumes d t rep d' pj key o r :
  step d t = (rep, d') → delivery t rep = Some (pj, key, o) →
  find_key d pj key = Some r → row_lives r t →
  o = (if is_done r then AlreadyComplete else ResumePending) ∧ ig_observations d' = ig_observations d
  ∧ ∃ obs agent, delivered t = Some obs
      ∧ (recovery_ingest_key key = true → ik_identity r = Some (recovery_event_identity env sha256_hex obs agent)).
Proof.
  intros Hstep Hd Hf [Hkept _]%row_lives_kept. destruct (delivery_case _ _ _ _ _ _ _ Hstep Hd) as
    (obs & ws & agent & d0 & d1 & Hdel & _ & Hk0 & Ho0 & Hc & Hk & Ho).
  assert (Hf0 : find_key d0 pj key = Some r).
  { unfold find_key in *. rewrite Hk0. by apply find_filter_kept. }
  assert (Hsame : ∀ r', find_key d0 pj key = Some r' →
    (recovery_ingest_key key = true → same_event env sha256_hex (rescope obs ws pj) agent r' = true) →
    ∃ obs agent, delivered t = Some obs
      ∧ (recovery_ingest_key key = true → ik_identity r = Some (recovery_event_identity env sha256_hex obs agent))).
  { intros r' Hr' Hs. assert (r' = r) as -> by congruence. exists obs, agent. split; [done|].
    intros Hrec. specialize (Hs Hrec). unfold same_event in Hs. rewrite !andb_true_iff, !bool_decide_eq_true in Hs.
    by destruct Hs as [_ ?]. }
  destruct Hc as [r' Hr' Hnone Hs|r' at_ Hr' Hat Hs|Hnone Hp Hid].
  - split; [|split; [congruence|exact (Hsame r' Hr' Hs)]]. cbn in Hr'. assert (r' = r) as -> by congruence.
    unfold is_done. by rewrite Hnone.
  - split; [|split; [congruence|exact (Hsame r' Hr' Hs)]]. cbn in Hr'. assert (r' = r) as -> by congruence.
    unfold is_done. by rewrite Hat.
  - cbn in Hnone. congruence.
Qed.
End Keys.

(** ** The bytes a recovery identity hashes *)

#[export] Instance lit_inj : Inj (=) (=) lit.
Proof.
  intros a b H. rewrite <- (String.string_of_list_ascii_of_string a), <- (String.string_of_list_ascii_of_string b).
  unfold lit in H. by rewrite H.
Qed.

Lemma be64_length z : length (be64 z) = 8.
Proof. done. Qed.

Lemma testbit_255 n : (0 ≤ n)%Z → Z.testbit 255 n = bool_decide (n < 8)%Z.
Proof.
  intros Hn. change 255%Z with (Z.ones 8). rewrite Z.testbit_ones by lia.
  apply Bool.eq_iff_eq_true. rewrite andb_true_iff, bool_decide_eq_true, Z.leb_le, Z.ltb_lt. lia.
Qed.

(** Eight bytes, most significant first, determine the integer modulo [2^64]. *)
Lemma be64_inj a b : be64 a = be64 b → (a mod 2 ^ 64 = b mod 2 ^ 64)%Z.
Proof.
  intros H. apply Z.bits_inj'. intros n Hn. destruct (decide (n < 64)%Z) as [Hlt|].
  2: { rewrite !Z.mod_pow2_bits_high by lia. done. }
  rewrite !Z.mod_pow2_bits_low by lia.
  set (i := Z.to_nat (7 - n / 8)).
  assert (Hi : i < 8) by (unfold i; pose proof (Z.div_lt_upper_bound n 8 8); pose proof (Z.div_pos n 8); lia).
  assert (Hb : ∀ z, be64 z !! i = Some (ascii_of_N (Z.to_N (Z.land (Z.shiftr z (8 * (n / 8))) 255)))).
  { intros z. apply list_lookup_fmap_Some. exists i.
    split; [|apply lookup_seq; lia]. do 4 f_equal. unfold i. pose proof (Z.div_lt_upper_bound n 8 8). pose proof (Z.div_pos n 8). lia. }
  pose proof (Hb a) as Ha. rewrite H, Hb in Ha. injection Ha as Ha.
  assert (Hr : ∀ z, (0 ≤ Z.land z 255 < 256)%Z).
  { intros z. change 255%Z with (Z.ones 8). rewrite Z.land_ones by lia. apply Z.mod_pos_bound. lia. }
  apply (f_equal N_of_ascii) in Ha. pose proof (Hr (Z.shiftr a (8 * (n / 8)))). pose proof (Hr (Z.shiftr b (8 * (n / 8)))).
  rewrite !N_ascii_embedding in Ha by lia. apply Z2N.inj in Ha; [|lia..].
  apply (f_equal (λ z, Z.testbit z (n mod 8))) in Ha.
  pose proof (Z.mod_pos_bound n 8 ltac:(lia)). rewrite !Z.land_spec, testbit_255 in Ha by lia.
  rewrite bool_decide_eq_true_2, !andb_true_r, !Z.shiftr_spec in Ha by lia.
  rewrite Z.add_comm, <- Z.div_mod in Ha by lia. done.
Qed.

(** A length no string reaches marks a missing field. *)
Definition field_ok (value : option bytes) : Prop :=
  match value with Some v => (Z.of_nat (length v) < u64_max)%Z | None => True end.

Lemma identity_field_inj v w x y :
  field_ok v → field_ok w → identity_field v ++ x = identity_field w ++ y → v = w ∧ x = y.
Proof.
  assert (Hlen : ∀ n m k l, (0 ≤ n ≤ u64_max)%Z → (0 ≤ m ≤ u64_max)%Z →
            be64 n ++ k = be64 m ++ l → n = m ∧ k = l).
  { unfold u64_max. intros n m k l Hn Hm H. apply app_inj_1 in H as [H ->]; [|done]. split; [|done].
    apply be64_inj in H. rewrite !Z.mod_small in H by lia. done. }
  unfold field_ok, identity_field. destruct v as [v|], w as [w|]; intros Hv Hw.
  - rewrite <- !app_assoc. intros [Hl H]%Hlen; [|lia..].
    apply app_inj_1 in H as [-> ->]; [done|]. lia.
  - rewrite <- app_assoc. intros [Hl _]%Hlen; unfold u64_max in *; lia.
  - rewrite <- app_assoc. intros [Hl _]%Hlen; unfold u64_max in *; lia.
  - intros [_ ->]%Hlen; unfold u64_max in *; [done|lia..].
Qed.

(** Strings of Rust are shorter than [usize::MAX] bytes, and an event time is
    an [i64]. *)
Definition event_in_range (text : bytes) (obs : NewObservation) : Prop :=
  field_ok (Some text) ∧ field_ok (no_extension obs) ∧ field_ok (no_source_event obs)
  ∧ field_ok (Some (no_title obs)) ∧ field_ok (Some (no_body obs))
  ∧ in_i64 (default 0%Z (no_occurred_at obs)).

(** What the identity is of. *)
Definition event_identity (text : bytes) (obs : NewObservation) (agent : option string) :=
  (text, agent, no_kind obs, no_extension obs, no_source_event obs, no_title obs, no_body obs,
   default 0%Z (no_occurred_at obs)).

Definition agent_in_range (agent : option string) : Prop := field_ok (lit <$> agent).

Lemma recovery_event_bytes_inj text obs agent text' obs' agent' :
  event_in_range text obs → event_in_range text' obs' → agent_in_range agent → agent_in_range agent' →
  recovery_event_bytes text obs agent = recovery_event_bytes text' obs' agent' →
  event_identity text obs agent = event_identity text' obs' agent'.
Proof.
  intros (Ht & He & Hs & Hti & Hb & Ho) (Ht' & He' & Hs' & Hti' & Hb' & Ho') Ha Ha'.
  unfold recovery_event_bytes, event_identity. rewrite !fmap_cons, fmap_nil. cbn [concat app].
  rewrite !app_nil_r, <- !app_assoc.
  assert (Hk : ∀ k, field_ok (Some (lit (kind_as_str k)))) by (intros []; vm_compute; done).
  intros [[= ->] H]%identity_field_inj; [|done..].
  apply identity_field_inj in H as [Hag H]; [|done..].
  apply identity_field_inj in H as [[= Hkind] H]; [|done..].
  apply identity_field_inj in H as [-> H]; [|done..].
  apply identity_field_inj in H as [-> H]; [|done..].
  apply identity_field_inj in H as [[= ->] H]; [|done..].
  apply identity_field_inj in H as [[= ->] H]; [|done..].
  apply be64_inj in H.
  assert (agent = agent') as ->.
  { destruct agent as [a|], agent' as [a'|]; cbn in Hag; by simplify_eq. }
  assert (no_kind obs = no_kind obs') as ->.
  { apply (inj kind_as_str). by apply (inj lit). }
  f_equal. unfold in_i64, i64_min, i64_max in Ho, Ho'. revert H. generalize dependent (default 0%Z (no_occurred_at obs)).
  generalize dependent (default 0%Z (no_occurred_at obs')). intros x Hx y Hy Hm.
  pose proof (Z.div_mod x (2 ^ 64) ltac:(lia)). pose proof (Z.div_mod y (2 ^ 64) ltac:(lia)).
  pose proof (Z.mod_pos_bound x (2 ^ 64) ltac:(lia)). pose proof (Z.mod_pos_bound y (2 ^ 64) ltac:(lia)).
  nia.
Qed.

(** ** A capture, on concrete tables *)

Definition cap_env : PageEnv := {|
  pe_version := pe_version demo_env;
  pe_parse_timestamp := pe_parse_timestamp demo_env;
  pe_parse_date := pe_parse_date demo_env;
  pe_timestamp_in_range := pe_timestamp_in_range demo_env;
  pe_print_timestamp := pe_print_timestamp demo_env;
  pe_format_seconds := pe_format_seconds demo_env;
  pe_sha256 := pe_sha256 demo_env;
  pe_json_print := pe_json_print demo_env;
  pe_json_parse := pe_json_parse demo_env;
  pe_lowercase := pe_lowercase demo_env;
  pe_is_alphanumeric := pe_is_alphanumeric demo_env;
  pe_nfc := pe_nfc demo_env;
  pe_parse_session := pe_parse_session demo_env;
  pe_session_text := λ id, lit (pretty id);
|}.

(** A hash without collisions. *)
Definition cap_sha (b : bytes) : bytes := b.
Definition cap_order : OrderBy HandoffRow := λ lt rows, sort_by_key id lt rows.
Definition cap_json (l : list bytes) : bytes := concat l.

Definition cap_start : IngestDb :=
  mkIngestDb (mkHandoffDb [] [] [] []) (empty_pages demo_scopes []) [] [] [] []
    (mkDerivedRows [] [] [] []).

Lemma cap_start_ok : ingest_ok cap_env cap_start.
Proof.
  split; try (apply NoDup_nil_2); try done; intros ? H; by apply elem_of_nil in H.
Qed.

Definition alice : bytes := lit "user:alice".
Definition cap_cwd : bytes := lit "/home/alice/app".

Definition cap_session (id : SessionId) (pj : ProjectId) : NewSession :=
  mkNewSession id 1%N pj Codex (Some cap_cwd) (Some alice) None.

Definition cap_event (id : SessionId) (pj : ProjectId) (kind : ObservationKind) (text : string) : NewObservation :=
  mkNewObservation id 1%N pj kind None None (lit text) (lit "body") 12 None None.

(** A hook event, delivered under a key. *)
Definition cap_admit (id : SessionId) (pj : ProjectId) (kind : ObservationKind) (text : string)
    (key : option string) : IngestCmd :=
  CmdAdmit (cap_session id pj) (cap_event id pj kind text) (FilterUser alice) (lit <$> key) None.

Definition cap_turn (now : N) (cmd : IngestCmd) : IngestTurn :=
  mkIngestTurn cmd (Z.of_N now) (Z.of_N now) (100 + now)%N (200 + now)%N no_faults (λ _, None).

Definition cap_turns (cmds : list IngestCmd) : list IngestTurn :=
  imap (λ i cmd, cap_turn (N.of_nat (S i)) cmd) cmds.

Notation cap_step := (ingest_step cap_env cap_sha cap_order cap_json).
Notation cap_run := (ingest_run cap_env cap_sha cap_order cap_json).

Definition cap_guard (id : SessionId) (pj : ProjectId) : AdmittedSession :=
  mkAdmittedSession id 1%N pj Codex (Some alice).

Definition cap_purge (id : SessionId) (pj : ProjectId) : IngestCmd :=
  CmdPurge 1%N pj id None Skip PurgeCommit None.

(** The key of a recovered event: [recovery_] and 55 hexadecimal digits. *)
Definition cap_recovery_key : string := "recovery_0123456789abcdef0123456789abcdef0123456789abcdef0123456".

Arguments cap_session (id pj)%_N_scope.
Arguments cap_event (id pj)%_N_scope kind text%_string_scope.
Arguments cap_admit (id pj)%_N_scope kind text%_string_scope key.
Arguments cap_turn now%_N_scope cmd.
Arguments cap_guard (id pj)%_N_scope.
Arguments cap_purge (id pj)%_N_scope.
