(* ===== verification/IngestContract.v ===== *)
(** * What capture ingest promises

    A delivery may be repeated any number of times, by any number of clients,
    between any other commands and across crashes: its observation is
    recorded once.  The session it is admitted to is its own; an end is
    processed once per batch of work; a usage report never lowers a total. *)

From S2P Require Import HandoffsFacts PagesWrites.
From S2P Require Export IngestKeys.
Open Scope nat_scope.
Open Scope rust_scope.

(** ** Exactly one observation per delivery *)

Section Deliveries.
Context (env : PageEnv) (sha256_hex : bytes → bytes) (order : OrderBy HandoffRow).
Context (json_list : list bytes → bytes).

Notation step := (ingest_step env sha256_hex order json_list).
Notation run := (ingest_run env sha256_hex order json_list).

(** C3. A delivery recorded its observation under a key; whatever follows, as
    long as the claim lives, another delivery finds the key claimed. *)
Theorem observed_exactly_once d t rep d1 turns reps d2 t' rep' d3 pj key id o :
  step d t = (rep, d1) → delivery t rep = Some (pj, key, Inserted id) →
  run d1 turns = (reps, d2) → Forall (within_life t key) (turns ++ [t']) →
  step d2 t' = (rep', d3) → delivery t' rep' = Some (pj, key, o) →
  (∃ row, ig_observations d1 = ig_observations d ++ [row] ∧ o_id row = id)
  ∧ ig_observations d3 = ig_observations d2
  ∧ o = (if existsb (completes pj key) (zip turns reps) then AlreadyComplete else ResumePending).
Proof.
  intros Hstep Hd Hrun [Hlife Hlast]%Forall_app Hstep' Hd'.
  destruct (delivery_inserts _ _ _ _ _ _ _ _ _ _ _ Hstep Hd) as (row & r & Hobs & Hid & Hf & Hdone & Hl & _).
  split; [eauto|]. apply Forall_cons in Hlast as [Hlast _].
  destruct (run_claim _ _ _ _ _ _ _ _ _ _ _ Hrun Hf) as (r' & Hf' & Hdone' & Hl' & _).
  { eapply Forall_impl; [exact Hlife|]. apply Hl. }
  destruct (delivery_resumes _ _ _ _ _ _ _ _ _ _ _ _ Hstep' Hd' Hf') as (-> & Ho & _).
  { apply (proj2 (Hl' t')), Hl, Hlast. }
  split; [done|]. by rewrite Hdone', Hdone.
Qed.

End Deliveries.

(** ** Admission *)

(** The guard an answer carries, and whether a new observation was stored. *)
Definition answered (a : HookSessionAdmission) : option (AdmittedSession * bool) :=
  match a with
  | Observation g out | EndOpen g out | ReEnd g out => Some (g, inserted out)
  | AlreadyEnded g => Some (g, false)
  | InvalidMissingEnd | InvalidScopedEnd => None
  end.

(** Nothing but the place of a session may change, and that only by a native
    move: keyed, stored for the first time, of a session that is open, from
    the directory it is in. *)
Inductive placed (s : NewSession) (key moved_from : option bytes) (stored_now : bool) (r : SessionRow)
    : SessionRow → Prop :=
  | stays : placed s key moved_from stored_now r r
  | moves from stored cwd :
      moved_from = Some from → s_cwd r = Some stored → ns_cwd s = Some cwd →
      same_directory stored from = true → is_Some key → s_ended_at r = None → stored_now = true →
      placed s key moved_from stored_now r (rebind_row s cwd r).

(** The session an admission leaves: the one there was, or a new one. *)
Definition own_session (d : IngestDb) (s : NewSession) (obs : NewObservation) (key moved_from : option bytes)
    (now : Z) (stored_now : bool) (r' : SessionRow) : Prop :=
  (∃ r, r ∈ ig_sessions d ∧ s_id r = ns_id s ∧ placed s key moved_from stored_now r r')
  ∨ (¬ has_session d (ns_id s) ∧ r' = new_session_row s (default now (ns_occurred_at s))
     ∧ ends_session obs = false ∧ ¬ is_purged_in d (ns_id s) (ns_workspace s) (ns_project s)).

Record admission_leaves (env : PageEnv) (d : IngestDb) (s : NewSession) (obs : NewObservation)
    (filter : OwnerFilter) (key moved_from : option bytes) (now clock : Z) (id : ObservationId)
    (g : AdmittedSession) (stored_now : bool) (d' : IngestDb) : Prop := {
  al_guard : as_session g = ns_id s ∧ as_agent g = ns_agent s;
  al_owner : corrupt_owner (as_owner g) = false ∧ admits filter (as_owner g) = true;
  al_session : ∃ r', r' ∈ ig_sessions d' ∧ s_id r' = ns_id s
    ∧ s_agent_kind r' = AgentKind_as_str (ns_agent s) ∧ s_actor_user r' = as_owner g
    ∧ own_session d s obs key moved_from now stored_now r';
  al_others r : s_id r ≠ ns_id s → r ∈ ig_sessions d' ↔ r ∈ ig_sessions d;
  al_observations : ig_observations d' = ig_observations d
    ++ (if stored_now then [new_observation_row (rescope obs (as_workspace g) (as_project g)) id clock] else []);
  al_pages : ig_pages d' = ig_pages d;
}.

Lemma answered_answer obs t g out : answered (answer_of obs t g out) = Some (g, inserted out).
Proof. unfold answer_of. by repeat case_match. Qed.

Section Admission.
Context (env : PageEnv) (sha256_hex : bytes → bytes).

Lemma ingested_records d obs agent now clock id key out d' :
  ingested env sha256_hex d obs agent now clock id key out d' →
  ig_sessions d' = ig_sessions d ∧ ig_pages d' = ig_pages d
  ∧ ig_observations d' = ig_observations d ++ (if inserted out then [new_observation_row obs id clock] else []).
Proof.
  intros [_ _|k o d1 Hc]; [done|]. destruct Hc; cbn; by rewrite ?app_nil_r.
Qed.

Lemma rebinds_moves s t mv key out cwd :
  rebinds s t mv key out = Some cwd →
  ∃ from stored, mv = Some from ∧ at_cwd t = Some stored ∧ ns_cwd s = Some cwd
    ∧ same_directory stored from = true ∧ is_Some key ∧ at_ended_at t = None ∧ inserted out = true.
Proof.
  unfold rebinds. destruct mv as [from|], (at_cwd t) as [stored|], (ns_cwd s) as [c|]; try done.
  destruct (bool_decide (is_Some key)) eqn:Ek, (bool_decide (at_ended_at t = None)) eqn:Ee,
    (inserted out) eqn:Ei, (same_directory stored from) eqn:Es; cbn; try done.
  intros [= <-]. apply bool_decide_eq_true in Ek, Ee. eauto 10.
Qed.

(** The session's row after a rebinding, if any. *)
Lemma rebound_session d0 s cwd r :
  ig_sessions (rebound d0 s cwd) = update_where (is_session (ns_id s))
    (λ r, match cwd with Some cwd => rebind_row s cwd r | None => r end) (ig_sessions d0)
  ∧ (s_id r ≠ ns_id s → r ∈ ig_sessions (rebound d0 s cwd) ↔ r ∈ ig_sessions d0).
Proof.
  assert (Hid : ig_sessions (rebound d0 s cwd) = update_where (is_session (ns_id s))
    (λ r, match cwd with Some cwd => rebind_row s cwd r | None => r end) (ig_sessions d0)).
  { destruct cwd as [cwd|]; [done|]. cbn. unfold update_where. rewrite <- (list_fmap_id (ig_sessions d0)) at 1.
    apply list_fmap_ext. intros i x _. by destruct (is_session _ _). }
  split; [done|]. intros Hne. rewrite Hid, elem_update_where. split.
  - intros (r0 & Hr & ->). destruct (is_session (ns_id s) r0) eqn:E; [|done]. apply is_session_true in E.
    by destruct cwd.
  - intros Hr. exists r. split; [done|]. by rewrite (proj2 (is_session_false _ _) Hne).
Qed.

End Admission.

(** ** An end, once *)

(** The session a turn ended. *)
Definition ended_by (t : IngestTurn) (rep : IngestReply) : option SessionId :=
  match it_cmd t, rep with
  | CmdEnd id _, RepIngestDone => Some id
  | CmdEndAdmitted a _ _, RepIngestDone => Some (as_session a)
  | CmdEndWithHandoff a _ _ _, RepHandoff _ => Some (as_session a)
  | CmdEndLifecycleOnly a _, RepLifecycle (Ended _) => Some (as_session a)
  | _, _ => None
  end.

(** The session is over, and its end covers its first [n] observations. *)
Definition covered_since (d : IngestDb) (sid : SessionId) (n : nat) : Prop :=
  n ≤ observed_count d sid
  ∧ ∀ r, r ∈ ig_sessions d → s_id r = sid → is_Some (s_ended_at r) ∧ n ≤ s_ended_observation_count r.

Section Ends.
Context (env : PageEnv) (sha256_hex : bytes → bytes) (order : OrderBy HandoffRow).
Context (json_list : list bytes → bytes).

Notation step := (ingest_step env sha256_hex order json_list).
Notation run := (ingest_run env sha256_hex order json_list).

Lemma covered_update d p g sid n :
  (∀ r, s_id (g r) = s_id r) →
  (∀ r, r ∈ ig_sessions d → s_id r = sid → p r = true → is_Some (s_ended_at r) → n ≤ s_ended_observation_count r →
     is_Some (s_ended_at (g r)) ∧ n ≤ s_ended_observation_count (g r)) →
  covered_since d sid n → covered_since (update_sessions p g d) sid n.
Proof.
  intros Hg Hp [Hn Hrows]. split; [exact Hn|]. intros r (r0 & Hr & ->)%elem_update_where Hid.
  destruct (p r0) eqn:E; [|by apply Hrows]. rewrite Hg in Hid. destruct (Hrows r0 Hr Hid). by apply Hp.
Qed.

Lemma change_covered gone begun d d' sid n :
  change env sha256_hex gone begun d d' → gone ≠ Some sid → has_session d sid → covered_since d sid n →
  has_session d' sid ∧ covered_since d' sid n.
Proof.
  intros [s t _ Hn _ _|obs id now Hid Hp|now|obs key agent now Hf Hp Ha|pj key now|s cwd|id page at_|cutoff|u now Hu
      |t Hs Ho|ws pj id Hgone Hh] Hne Hhas Hcov.
  - split; [apply has_session_add; by left|]. destruct Hcov as [Hc Hr]. split; [exact Hc|].
    intros r [Hin| ->%list_elem_of_singleton]%elem_of_app Heq; [by apply Hr|]. destruct Hn.
    cbn in Heq. by rewrite Heq.
  - split; [done|]. destruct Hcov as [Hc Hr]. split; [|exact Hr]. rewrite observed_add. lia.
  - by split.
  - by split.
  - by split.
  - split; [by apply has_session_update|]. by apply covered_update.
  - split; [by apply has_session_update|]. apply covered_update; [done| |done].
    intros r Hr <- Hid%is_session_true _ _. cbn. split; [by eexists|]. rewrite <- Hid. apply Hcov.
  - split; [by apply has_session_update|]. apply covered_update; [done| |done].
    intros r Hr <- Ha _ _. cbn. split; [by eexists|]. apply Hcov.
  - unfold upserted_usage. by destruct (existsb _ _).
  - destruct t as [ss os hs log]. cbn in Hs, Ho. by subst ss os.
  - assert (sid ≠ id) by congruence. split; [by apply has_session_purged|].
    destruct (purged_db_eq env ws pj id d Hh) as (Hs & Ho & _). destruct Hcov as [Hc Hr]. split.
    + unfold observed_count. rewrite Ho, count_where_filter; [done|]. intros o. unfold of_session.
      rewrite bool_decide_eq_true, negb_true_iff, bool_decide_eq_false. congruence.
    + intros r. rewrite Hs. intros (r0 & -> & [Hr0 _]%elem_filter)%list_elem_of_fmap Hid. exact (Hr r0 Hr0 Hid).
Qed.

Lemma step_covered d t rep d' sid n :
  step d t = (rep, d') → purges t ≠ Some sid → has_session d sid → covered_since d sid n →
  has_session d' sid ∧ covered_since d' sid n.
Proof.
  intros H%ingest_step_changes Hne. induction H as [|d d1 d' Hc _ IH]; [done|]. intros Hhas Hcov.
  destruct (change_covered _ _ _ _ _ _ Hc Hne Hhas Hcov). by apply IH.
Qed.

Lemma run_covered turns d reps d' sid n :
  run d turns = (reps, d') → Forall (λ u, purges u ≠ Some sid) turns → has_session d sid → covered_since d sid n →
  has_session d' sid ∧ covered_since d' sid n.
Proof.
  revert d reps. induction turns as [|t turns IH]; intros d reps; cbn.
  - by intros [= _ <-].
  - destruct (step d t) as [rep d1] eqn:E, (run d1 turns) as [reps1 d2] eqn:Er. intros [= _ <-] [Ht Hts]%Forall_cons.
    intros Hhas Hcov. destruct (step_covered _ _ _ _ _ _ E Ht Hhas Hcov). by eapply IH.
Qed.

Lemma end_rows_cover d id page at_ t :
  sessions t = update_where (λ s, bool_decide (s_id s = id)) (end_row (ig_tables d) id page at_) (ig_sessions d) →
  observations t = ig_observations d → covered_since (with_tables d t) id (observed_count (with_tables d t) id).
Proof.
  intros Hs Ho. split; [done|]. intros r Hr Hid. change (ig_sessions (with_tables d t)) with (sessions t) in Hr.
  rewrite Hs in Hr. apply elem_update_where in Hr as (r0 & Hr & ->). unfold observed_count.
  change (ig_observations (with_tables d t)) with (observations t). rewrite Ho.
  destruct (bool_decide (s_id r0 = id)) eqn:E; [by split; [eexists|]|].
  by apply bool_decide_eq_false in E.
Qed.

Lemma ended_by_covers d t rep d' sid :
  step d t = (rep, d') → ended_by t rep = Some sid → covered_since d' sid (observed_count d' sid).
Proof.
  unfold ingest_step, ended_by.
  destruct (it_cmd t) as [s|obs|obs key|s obs filter key mv|pj key|pj key|id page
      |a page at_|a page h at_|a at_|cutoff|u|ws pj id author comp mode owner]; try done.
  - unfold ingest_done, end_session. case_result E; intros [= <- <-]; [|done]. intros [= <-].
    peel_ok. apply end_session_row_tables in Hr as ->. subst. by eapply end_rows_cover.
  - unfold ingest_done, end_admitted_session. case_result E; intros [= <- <-]; [|done]. intros [= <-].
    peel_ok. apply end_session_row_tables in Hr1 as ->. subst. by eapply end_rows_cover.
  - unfold ingest_reply, end_admitted_session_with_handoff. case_result E; intros [= <- <-]; [|done]. intros [= <-].
    peel_ok. apply end_session_row_tables in Hr1 as ->. destruct a3 as [o' t']. simplify_eq.
    apply insert_handoff_row_Ok in Hr2 as (_ & _ & Hs & Ho & _). eapply end_rows_cover; [exact Hs|exact Ho].
  - unfold ingest_reply, end_admitted_lifecycle_only_session. case_result E; intros [= <- <-]; [|done].
    peel_ok. destruct a2 as [o' t']. simplify_eq. apply end_lifecycle_in_tx_Ok in Hr1.
    destruct o' as [|held]; cbn; [done|]. intros [= <-].
    destruct Hr1 as (_ & Hs & Ho & _). eapply end_rows_cover; [exact Hs|exact Ho].
Qed.

End Ends.

(** ** Token usage *)

Inductive UsageColumn := UcInput | UcOutput | UcCacheWrite | UcCacheRead.

Definition reported (c : UsageColumn) (u : NewSessionUsage) : Z :=
  match c with
  | UcInput => nu_input u | UcOutput => nu_output u
  | UcCacheWrite => nu_cache_write u | UcCacheRead => nu_cache_read u
  end.

Definition stored (c : UsageColumn) (r : UsageRow) : Z :=
  match c with
  | UcInput => us_input r | UcOutput => us_output r
  | UcCacheWrite => us_cache_write r | UcCacheRead => us_cache_read r
  end.

(** The stored total of a session; none is zero. *)
Definition usage_total (c : UsageColumn) (d : IngestDb) (sid : SessionId) : Z :=
  match List.find (usage_of sid) (ig_usage d) with Some r => stored c r | None => 0%Z end.

(** Reports of one session, in the order they arrive; each has its time. *)
Fixpoint report_all (d : IngestDb) (us : list (NewSessionUsage * Z)) : IngestDb :=
  match us with
  | [] => d
  | (u, now) :: us =>
      match upsert_session_usage no_faults d u now with
      | Ok d' => report_all d' us
      | Err _ => report_all d us
      end
  end.

Definition report_of (sid : SessionId) (r : NewSessionUsage * Z) : Prop :=
  nu_session (fst r) = sid ∧ ∀ c, in_u64 (reported c (fst r)).

Lemma stored_merge c u now r :
  stored c (merge_usage (usage_row u now) r) = Z.max (stored c r) (to_i64 (reported c u)).
Proof. by destruct c. Qed.

Lemma upsert_usage_total c d u now sid :
  has_session d sid → report_of sid (u, now) →
  ∃ d', upsert_session_usage no_faults d u now = Ok d' ∧ has_session d' sid
    ∧ usage_total c d' sid = Z.max (usage_total c d sid) (to_i64 (reported c u)).
Proof.
  intros Hhas [Hid Hr]. specialize (Hr c). cbn in Hid, Hr. subst sid. unfold upsert_session_usage. cbn [statement no_faults result_bind].
  destruct (existsb (usage_of (nu_session u)) (ig_usage d)) eqn:E.
  - eexists. split; [done|]. split; [exact Hhas|]. unfold usage_total. cbn [ig_usage with_usage].
    rewrite find_update by done. apply existsb_elem in E as (r & Hin & Hu).
    destruct (List.find _ _) as [r0|] eqn:Ef; cbn.
    + apply List.find_some in Ef as [_ Hu0]. by rewrite Hu0, stored_merge.
    + apply list_elem_of_In in Hin. by rewrite (List.find_none _ _ Ef _ Hin) in Hu.
  - apply existsb_session in Hhas as Hex. rewrite Hex. cbn. eexists. split; [done|]. split; [exact Hhas|].
    unfold usage_total. cbn [ig_usage with_usage]. rewrite find_app.
    destruct (List.find (usage_of (nu_session u)) (ig_usage d)) as [r|] eqn:Ef.
    { apply List.find_some in Ef as [Hin Hu]. apply list_elem_of_In in Hin.
      rewrite existsb_none in E. by rewrite E in Hu. }
    cbn. unfold usage_of. cbn. rewrite bool_decide_eq_true_2 by done.
    assert (Hmax : ∀ v, (0 ≤ v)%Z → to_i64 v = Z.max 0 (to_i64 v)) by (unfold to_i64, i64_max; lia).
    destruct c; apply Hmax, Hr.
Qed.

Lemma report_all_total c us d sid :
  has_session d sid → Forall (report_of sid) us →
  usage_total c (report_all d us) sid =
    foldr (λ r m, Z.max m (to_i64 (reported c (fst r)))) (usage_total c d sid) us.
Proof.
  revert d. induction us as [|[u now] us IH]; intros d Hhas Hus; [done|].
  apply Forall_cons in Hus as [Hu Hus].
  destruct (upsert_usage_total c d u now sid Hhas Hu) as (d' & E & Hhas' & Ht). cbn [report_all foldr fst]. rewrite E, IH, Ht by done.
  clear. generalize (usage_total c d sid). induction us as [|r us IH]; intros m; [done|]. cbn. rewrite IH. lia.
Qed.

Lemma fold_max_le (col : NewSessionUsage * Z → Z) m us x :
  (foldr (λ r m, Z.max m (col r)) m us ≤ x ↔ m ≤ x ∧ ∀ r, r ∈ us → col r ≤ x)%Z.
Proof.
  induction us as [|r us IH]; cbn.
  - split; [|naive_solver]. intros. split; [done|]. intros r Hr. by apply elem_of_nil in Hr.
  - setoid_rewrite elem_of_cons. rewrite Z.max_lub_iff, IH. naive_solver.
Qed.

(** The totals depend on which reports arrived, not on their order or on how
    often each was delivered, and no report lowers one. *)
Theorem usage_totals_converge c d sid us us' :
  has_session d sid → Forall (report_of sid) us → (∀ u, u ∈ us ↔ u ∈ us') →
  usage_total c (report_all d us) sid = usage_total c (report_all d us') sid
  ∧ (usage_total c d sid ≤ usage_total c (report_all d us) sid)%Z
  ∧ ∀ u, u ∈ us → (to_i64 (reported c (fst u)) ≤ usage_total c (report_all d us) sid)%Z.
Proof.
  intros Hhas Hus Hsame.
  assert (Hus' : Forall (report_of sid) us').
  { rewrite Forall_forall in *. intros u Hu. by apply Hus, Hsame. }
  rewrite !report_all_total by done. set (col := λ r : NewSessionUsage * Z, to_i64 (reported c (fst r))).
  change (λ r m, Z.max m (to_i64 (reported c (fst r)))) with (λ r m, Z.max m (col r)).
  destruct (proj1 (fold_max_le col (usage_total c d sid) us _) (Z.le_refl _)) as [Hm Hall].
  split; [|by split].
  apply Z.le_antisymm; apply fold_max_le; split.
  - by destruct (proj1 (fold_max_le col (usage_total c d sid) us' _) (Z.le_refl _)).
  - intros r Hr%Hsame. by apply (proj1 (fold_max_le col (usage_total c d sid) us' _) (Z.le_refl _)).
  - done.
  - intros r Hr%Hsame. by apply Hall.
Qed.

(** ** The tables *)

(** C25. In every history of capture commands the tables stay well formed. *)
Theorem capture_tables_ok env sha256_hex order json_list d turns reps d' :
  ingest_ok env d → ingest_run env sha256_hex order json_list d turns = (reps, d') → ingest_ok env d'.
Proof. intros Hok Hrun. by eapply ingest_run_ok. Qed.

(** ** Witnesses *)

(** A prompt is captured, another event arrives, the prompt's effects finish,
    and the prompt is delivered again. *)
Definition cap_prompt : IngestTurn := cap_turn 1 (cap_admit 7 11 UserPrompt "hello" (Some "k1"%string)).
Definition cap_between : list IngestTurn :=
  [cap_turn 2 (cap_admit 7 11 Stop "done" (Some "k2"%string)); cap_turn 3 (CmdComplete 11%N (lit "k1"))].
Definition cap_again : IngestTurn := cap_turn 4 (cap_admit 7 11 UserPrompt "hello" (Some "k1"%string)).

Definition cap_one : IngestDb := snd (cap_step cap_start cap_prompt).
Definition cap_three : IngestDb := snd (cap_run cap_one cap_between).

Lemma observed_exactly_once_witness :
  delivery cap_again (fst (cap_step cap_three cap_again)) = Some (11%N, lit "k1", AlreadyComplete)
  ∧ ig_observations (snd (cap_step cap_three cap_again)) = ig_observations cap_three
  ∧ length (ig_observations cap_three) = 2.
Proof.
  assert (Hd : delivery cap_again (fst (cap_step cap_three cap_again)) = Some (11%N, lit "k1", AlreadyComplete))
    by (vm_compute; exact eq_refl).
  split; [exact Hd|]. split; [|vm_compute; exact eq_refl].
  refine (proj1 (proj2 (observed_exactly_once cap_env cap_sha cap_order cap_json cap_start cap_prompt
    (fst (cap_step cap_start cap_prompt)) cap_one cap_between (fst (cap_run cap_one cap_between)) cap_three
    cap_again (fst (cap_step cap_three cap_again)) (snd (cap_step cap_three cap_again)) 11%N (lit "k1") 101%N AlreadyComplete
    (surjective_pairing _) _ (surjective_pairing _) _ (surjective_pairing _) Hd))).
  - vm_compute. exact eq_refl.
  - repeat constructor; vm_compute; discriminate.
Defined.

(** The same history under a recovery key. *)
Definition cap_recover (now : N) (text : string) : IngestTurn :=
  cap_turn now (cap_admit 7 11 UserPrompt text (Some cap_recovery_key)).
Definition cap_recovered : IngestDb := snd (cap_step cap_start (cap_recover 1%N "hello")).


Definition admitted_ok (r : result (HookSessionAdmission * IngestDb) OpsError) : option HookSessionAdmission :=
  match r with Ok (a, _) => Some a | Err _ => None end.

Lemma admitted_ok_Ok r a : admitted_ok r = Some a → ∃ d', r = Ok (a, d').
Proof. destruct r as [[a' d']|e]; [|done]. intros [= ->]. by exists d'. Qed.

(** A native move of the open session into the other project. *)
Definition cap_moved : NewSession :=
  mkNewSession 7%N 1%N 10%N Codex (Some (lit "/home/alice/lib")) (Some alice) None.

Notation cap_move :=
  (admit_hook_session_event cap_env cap_sha no_faults cap_one cap_moved (cap_event 7 10 SessionStart "moved")
     (FilterUser alice) (Some (lit "k9")) (Some (lit "/home/alice/app/")) 5%Z 5%Z 105%N).


(** The session ends; its end is delivered again under another key. *)
Definition cap_ended : IngestDb := snd (cap_step cap_three (cap_turn 5 (CmdEndAdmitted (cap_guard 7 11) None None))).
Notation cap_end_again :=
  (admit_hook_session_event cap_env cap_sha no_faults cap_ended (cap_session 7 11) (cap_event 7 11 SessionEnd "end")
     (FilterUser alice) (Some (lit "k8")) None 6%Z 6%Z 106%N).


Definition cap_usage (n : Z) : NewSessionUsage * Z := (mkNewSessionUsage 7%N n 1%Z 2%Z 3%Z None, 9%Z).

Lemma usage_totals_converge_witness :
  usage_total UcInput (report_all cap_one [cap_usage 5%Z; cap_usage 9%Z; cap_usage 5%Z]) 7%N =
    usage_total UcInput (report_all cap_one [cap_usage 9%Z; cap_usage 5%Z]) 7%N
  ∧ usage_total UcInput (report_all cap_one [cap_usage 9%Z; cap_usage 5%Z]) 7%N = 9%Z.
Proof.
  split; [|vm_compute; exact eq_refl].
  refine (proj1 (usage_totals_converge UcInput cap_one 7%N [cap_usage 5%Z; cap_usage 9%Z; cap_usage 5%Z] [cap_usage 9%Z; cap_usage 5%Z] _ _ _)).
  - apply existsb_session. vm_compute. exact eq_refl.
  - apply Forall_forall. intros u. rewrite !elem_of_cons, elem_of_nil.
    intros [->|[->|[->|[]]]]; (split; [exact eq_refl|]); intros []; vm_compute; split; discriminate.
  - intros u. rewrite !elem_of_cons, elem_of_nil. split; intros H; repeat destruct H as [H|H]; auto.
Defined.

Lemma capture_tables_ok_witness :
  ingest_ok cap_env (snd (cap_run cap_start (cap_prompt :: cap_between ++ [cap_again]))) ∧ length (ig_cjk cap_three) = 2.
Proof.
  split; [|vm_compute; exact eq_refl].
  exact (capture_tables_ok cap_env cap_sha cap_order cap_json cap_start _ _ _ cap_start_ok (surjective_pairing _)).
Defined.
