(* ===== verification/PurgeContract.v ===== *)
(** * What a purge promises

    A purge deletes what its session recorded and nothing of another session,
    and leaves a tombstone: in the tombstone's project nothing brings the
    session back.  In another project the tombstone is silent, and a second
    purge there does not renew it ([purge_elsewhere_is_undone]). *)

From S2P Require Import ProjectAuthz PagesHistory PagesWrites.
From S2P Require Export IngestContract.
Open Scope nat_scope.
Open Scope rust_scope.

(** ** Exactness *)

Record purge_leaves (env : PageEnv) (ws : WorkspaceId) (pj : ProjectId) (sid : SessionId) (d d' : IngestDb)
    : Prop := {
  pl_sessions s : s ∈ ig_sessions d' ↔
    (∃ s0, s0 ∈ ig_sessions d ∧ s_id s0 ≠ sid ∧ s = unlink_summary (page_ids env ws pj sid d) s0);
  pl_observations o : o ∈ ig_observations d' ↔ o ∈ ig_observations d ∧ o_session o ≠ sid;
  pl_index c : c ∈ ig_cjk d' → (∃ o, o ∈ ig_observations d' ∧ c = index_of env o);
  pl_keys k : k ∈ ig_keys d' ↔ k ∈ ig_keys d ∧ ik_session k ≠ Some sid;
  pl_jobs j : j ∈ ig_jobs d' ↔ j ∈ ig_jobs d ∧ j_session j ≠ sid;
  pl_usage u : u ∈ ig_usage d' ↔ u ∈ ig_usage d ∧ us_session u ≠ sid;
  (** Of the handoffs only those it authored here go; no other names it. *)
  pl_handoffs h : h ∈ handoffs (ig_tables d') ↔
    (∃ h0, h0 ∈ handoffs (ig_tables d) ∧ authored_here ws pj sid h0 = false ∧ h = unlink_handoff sid h0);
  (** Of the pages only its own versions go. *)
  pl_pages r : r ∈ pages (ig_pages d') ↔
    (∃ r0, r0 ∈ pages (ig_pages d) ∧ (p_id r0 ∉ page_ids env ws pj sid d)
      ∧ r = drop_supersedes (page_ids env ws pj sid d) r0);
  pl_tombstone : sid ∈ fst <$> purged_sessions (ig_pages d');
}.

Section Purge.
Context (env : PageEnv).

Lemma alive_true {A} dead (page : A → PageId) x : alive dead page x = true ↔ page x ∉ dead.
Proof. unfold alive. by rewrite negb_true_iff, bool_decide_eq_false. Qed.

Lemma purged_db_leaves ws pj sid d :
  ingest_ok env d → existsb (session_here ws pj sid) (ig_sessions d) = true →
  purge_leaves env ws pj sid d (purged_db env ws pj sid d).
Proof.
  intros Hok Hh. destruct (purged_db_eq env ws pj sid d Hh) as (Hs & Ho & Hk & Hu & Hj & Hha & Hp & Ht).
  apply existsb_elem in Hh as Hex. destruct Hex as (s1 & Hs1 & Hh1).
  destruct (indexed_purged env ws pj sid d (conj (io_observations env d Hok) (io_cjk env d Hok))) as [_ Hc].
  split.
  - intros s. rewrite Hs, list_elem_of_fmap. setoid_rewrite elem_filter. split.
    + intros (s0 & -> & Hs0 & Hne%negb_true_iff). exists s0. split; [done|]. split; [|done]. intros Hid.
      assert (s0 = s1) as -> by (eapply (key_unique s_id); [apply Hok|done..|by rewrite (session_here_id _ _ _ _ Hh1)]).
      congruence.
    + intros (s0 & Hs0 & Hne & ->). exists s0. split; [done|]. split; [done|]. apply negb_true_iff.
      destruct (session_here ws pj sid s0) eqn:E; [|done]. by apply session_here_id in E.
  - intros o. rewrite Ho, elem_filter. unfold of_session. by rewrite negb_true_iff, bool_decide_eq_false.
  - intros c. rewrite Hc. intros (o & -> & Hin)%list_elem_of_fmap. eauto.
  - intros k. rewrite Hk, elem_filter. by rewrite negb_true_iff, bool_decide_eq_false.
  - intros j. rewrite Hj, elem_filter. by rewrite negb_true_iff, bool_decide_eq_false.
  - intros u. rewrite Hu, elem_filter. unfold usage_of. by rewrite negb_true_iff, bool_decide_eq_false.
  - intros h. rewrite Hha, list_elem_of_fmap. setoid_rewrite elem_filter. setoid_rewrite negb_true_iff. naive_solver.
  - intros r. rewrite Hp. unfold delete_pages. cbn [pages]. rewrite list_elem_of_fmap. setoid_rewrite elem_filter.
    setoid_rewrite alive_true. naive_solver.
  - rewrite Ht. destruct (existsb _ (purged_sessions _)) eqn:E.
    + apply existsb_elem in E as (t & Htin & <-%bool_decide_eq_true). by apply list_elem_of_fmap_2.
    + rewrite fmap_app. apply elem_of_app. right. by left.
Qed.

Lemma leaves_logged ws pj sid d d' log : purge_leaves env ws pj sid d d' → purge_leaves env ws pj sid d (logged d' log).
Proof. intros []. by split. Qed.

End Purge.

(** ** Finality *)

(** A turn that may begin the session names the purged scope. *)
Definition names_scope (ws : WorkspaceId) (pj : ProjectId) (sid : SessionId) (t : IngestTurn) : Prop :=
  ∀ s, begun_by t = Some s → ns_id s = sid → ns_workspace s = ws ∧ ns_project s = pj.

Definition gone_for_good (ws : WorkspaceId) (pj : ProjectId) (sid : SessionId) (d : IngestDb) : Prop :=
  ¬ has_session d sid ∧ is_purged_in d sid ws pj.

Section Finality.
Context (env : PageEnv) (sha256_hex : bytes → bytes) (order : OrderBy HandoffRow).
Context (json_list : list bytes → bytes).

Notation step := (ingest_step env sha256_hex order json_list).
Notation run := (ingest_run env sha256_hex order json_list).

Lemma change_gone gone begun d d' ws pj sid :
  change env sha256_hex gone begun d d' →
  (∀ s, begun = Some s → ns_id s = sid → ns_workspace s = ws ∧ ns_project s = pj) →
  gone_for_good ws pj sid d → gone_for_good ws pj sid d'.
Proof.
  intros [s t Hb Hn Hp _|obs id now Hid Hp|now|obs key agent now Hf Hp Ha|pj' key now|s cwd|id page at_|cutoff|u now Hu
      |t Hs Ho|ws' pj' id Hgone Hh] Hscope [Hnone Hpur].
  - split; [|exact Hpur]. intros [?| ->]%has_session_add; [done|].
    destruct (Hscope s Hb eq_refl) as [Hw Hpj]. by rewrite Hw, Hpj in Hp.
  - by split.
  - by split.
  - by split.
  - by split.
  - split; [|exact Hpur]. by rewrite has_session_update.
  - split; [|exact Hpur]. by rewrite has_session_update.
  - split; [|exact Hpur]. by rewrite has_session_update.
  - unfold upserted_usage. destruct (existsb _ _); by split.
  - destruct t as [ss os hs log]. cbn in Hs, Ho. subst ss os. by split.
  - destruct (purged_db_eq env ws' pj' id d Hh) as (Hs & _ & _ & _ & _ & _ & _ & Ht). split.
    + intros (r & Hr & Hid). rewrite Hs in Hr. apply list_elem_of_fmap in Hr as (r0 & -> & [Hr0 _]%elem_filter).
      apply Hnone. by exists r0.
    + unfold is_purged_in. rewrite Ht. unfold is_purged_in in Hpur. destruct (existsb _ (purged_sessions _)); [exact Hpur|].
      by apply elem_of_app; left.
Qed.

Lemma step_gone d t rep d' ws pj sid :
  step d t = (rep, d') → names_scope ws pj sid t → gone_for_good ws pj sid d → gone_for_good ws pj sid d'.
Proof.
  intros H%ingest_step_changes Hscope. induction H as [|d d1 d' Hc _ IH]; [done|]. intros Hg.
  eapply IH, change_gone; [exact Hc|exact Hscope|exact Hg].
Qed.

Lemma run_gone turns d reps d' ws pj sid :
  run d turns = (reps, d') → Forall (names_scope ws pj sid) turns → gone_for_good ws pj sid d →
  gone_for_good ws pj sid d'.
Proof.
  revert d reps. induction turns as [|t turns IH]; intros d reps; cbn.
  - by intros [= _ <-].
  - destruct (step d t) as [rep d1] eqn:E, (run d1 turns) as [reps1 d2] eqn:Er. intros [= _ <-] [Ht Hts]%Forall_cons Hg.
    eapply IH; [exact Er|exact Hts|]. by eapply step_gone.
Qed.

(** C14. Once a session was purged where its tombstone is, no late delivery that
    names that scope brings it or anything of it back. *)
Theorem purge_is_terminal d t summary d1 turns reps d2 ws pj sid author compaction owner :
  ingest_ok env d → it_cmd t = CmdPurge ws pj sid author compaction PurgeCommit owner →
  step d t = (RepPurged summary, d1) → is_purged_in d1 sid ws pj →
  run d1 turns = (reps, d2) → Forall (names_scope ws pj sid) turns →
  ¬ has_session d2 sid ∧ is_purged_in d2 sid ws pj
  ∧ (∀ o, o ∈ ig_observations d2 → o_session o ≠ sid) ∧ (∀ u, u ∈ ig_usage d2 → us_session u ≠ sid).
Proof.
  intros Hok Hcmd Hstep Hpur Hrun Hscope. pose proof (ingest_step_ok _ _ _ _ _ _ _ _ Hstep Hok) as Hok1.
  pose proof (ingest_run_ok _ _ _ _ _ _ _ _ Hrun Hok1) as Hok2.
  unfold ingest_step in Hstep. rewrite Hcmd in Hstep.
  destruct (purge_session_with_owner _ _ _ _ _ _ _ _ _ _ _ _) as [r d1'] eqn:E.
  destruct r as [sum|]; [|done]. injection Hstep as -> ->.
  assert (Hgone : gone_for_good ws pj sid d1).
  { split; [|done]. intros Hhas. unfold purge_session_with_owner in E.
    destruct (purge_in_transaction _ _ _ _ _ _ _ _ _ _ _) as [[s0 d0]|] eqn:Ep; [|done].
    assert (d0 = d1) as -> by (by destruct compaction; injection E as _ <-).
    unfold purge_in_transaction in Ep. peel_ok. apply Nat.eqb_neq in Hg. apply statement_Ok in Hr0, Hr2. subst.
    apply count_where_pos in Hg as (s & Hs & Hh).
    match goal with H : purge_deletes _ _ _ _ _ _ _ _ = Ok _ |- _ => apply purge_deletes_Ok in H as [log ->] end.
    assert (Hleft : purge_leaves env ws pj sid d (logged (purged_db env ws pj sid d) log)).
    { apply leaves_logged, purged_db_leaves; [done|]. apply existsb_elem. eauto. }
    destruct Hhas as (r & Hin & Hid). by apply (pl_sessions _ _ _ _ _ _ Hleft) in Hin as (s' & _ & Hne & ->). }
  destruct (run_gone _ _ _ _ _ _ _ Hrun Hscope Hgone) as [Hnone Hpur2].
  split; [done|]. split; [done|]. split.
  - intros o Ho <-. by apply Hnone, (io_parent env d2 Hok2).
  - intros u Hu <-. by apply Hnone, (io_usage_parent env d2 Hok2).
Qed.
End Finality.

(** ** Witnesses *)

(** Session 7 of the demo tables, purged in its project. *)
Definition cap_purge_turn : IngestTurn := cap_turn 5 (cap_purge 7 11).
Definition cap_purged : IngestDb := snd (cap_step cap_three cap_purge_turn).

Lemma cap_three_ok : ingest_ok cap_env cap_three.
Proof.
  eapply ingest_run_ok; [apply surjective_pairing|]. eapply ingest_step_ok; [apply surjective_pairing|apply cap_start_ok].
Qed.

Notation cap_purge_call :=
  (purge_session_with_owner cap_env 1%N 11%N 7%N no_faults (λ _, None) cap_three None Skip PurgeCommit None 5).


(** Late deliveries: under a new key, and of the end. *)
Definition cap_late : list IngestTurn :=
  [cap_turn 6 (cap_admit 7 11 UserPrompt "late" (Some "k3"%string)); cap_turn 7 (cap_admit 7 11 SessionEnd "end" None);
   cap_turn 8 (CmdBegin (cap_session 7 11))].

Lemma purge_is_terminal_witness :
  fst (cap_run cap_purged cap_late) =
    [RepIngestError (SessionPurged (lit "7")); RepAdmission InvalidMissingEnd; RepIngestError (SessionPurged (lit "7"))]
  ∧ ¬ has_session (snd (cap_run cap_purged cap_late)) 7%N.
Proof.
  split; [vm_compute; exact eq_refl|].
  assert (H : match fst (cap_step cap_three cap_purge_turn) with RepPurged _ => True | _ => False end)
    by (vm_compute; exact I).
  destruct (cap_step cap_three cap_purge_turn) as [rep d1] eqn:E. cbn in H. destruct rep as [| | | | | | | |summary|]; try destruct H.
  assert (Hd1 : cap_purged = d1) by (unfold cap_purged; by rewrite E). rewrite Hd1.
  refine (proj1 (purge_is_terminal cap_env cap_sha cap_order cap_json cap_three cap_purge_turn summary d1 cap_late _ _
    1%N 11%N 7%N None Skip None cap_three_ok eq_refl E _ (surjective_pairing _) _)).
  - rewrite <- Hd1. unfold is_purged_in. apply (bool_decide_unpack _). vm_compute. exact I.
  - repeat (apply List.Forall_nil || apply List.Forall_cons); intros s [= <-] _; split; exact eq_refl.
Defined.

(** ** Where a purge is undone

    The id of the purged session is used again in another project, which is
    allowed, and purged there.  That purge keeps the scope of the first
    tombstone, so the next late delivery recreates the session; and while it
    exists there, an event of the first project is recorded in the first
    project again. *)

Definition cap_elsewhere : list IngestTurn :=
  cap_turns [cap_admit 7 11 UserPrompt "a" None; cap_purge 7 11; cap_admit 7 10 UserPrompt "b" None; cap_purge 7 10;
             cap_admit 7 10 UserPrompt "late" None; cap_admit 7 11 UserPrompt "late" None].

Theorem purge_elsewhere_is_undone :
  let '(reps, d) := cap_run cap_start cap_elsewhere in
  (∃ summary, reps !! 3 = Some (RepPurged summary))
  ∧ reps !! 4 = Some (RepAdmission (Observation (cap_guard 7 10) (Inserted 105%N)))
  ∧ has_session d 7%N ∧ is_purged_in d 7%N 1%N 11%N
  ∧ ∃ o, o ∈ ig_observations d ∧ o_session o = 7%N ∧ o_project o = 11%N.
Proof.
  destruct (cap_run cap_start cap_elsewhere) as [reps d] eqn:E.
  assert (Hr : reps = fst (cap_run cap_start cap_elsewhere)) by by rewrite E.
  assert (Hd : d = snd (cap_run cap_start cap_elsewhere)) by by rewrite E. subst. clear E.
  split; [eexists; vm_compute; exact eq_refl|]. split; [vm_compute; exact eq_refl|].
  split; [apply existsb_session; vm_compute; exact eq_refl|].
  split; [unfold is_purged_in; apply (bool_decide_unpack _); vm_compute; exact I|].
  assert (H : existsb (λ o, bool_decide (o_session o = 7%N) && bool_decide (o_project o = 11%N))
                (ig_observations (snd (cap_run cap_start cap_elsewhere))) = true) by (vm_compute; exact eq_refl).
  apply existsb_elem in H as (o & Ho & [H1 H2]%andb_true_iff). exists o.
  by apply bool_decide_eq_true in H1, H2.
Qed.
