(* ===== verification/HookEvents.v ===== *)
(** * Hook events

    Models what the hook server reads of an event before it is processed:
    the event and provenance types and the payload accessors of
    [crates/ai-memory-hooks/src/payload.rs], the tool fields per agent of
    capture_policy.rs, the drop list of drop_list.rs and the predicates of
    router.rs that need no state.  The envelope has the fields the router
    reads; building it from a query string and a body, and the identity
    fields only scope resolution reads, are left out.  The ids native session
    names map to and serde_json's printer are arguments. *)

From S2P Require Export Observation Json.
From Stdlib Require Import SpecFloat.
Open Scope nat_scope.
Open Scope rust_scope.

(** ** Events *)

Inductive HookEvent :=
  | EvSessionStart | EvUserPrompt | EvPreToolUse | EvPostToolUse | EvPreCompact | EvPostCompaction
  | EvNotification | EvStop | EvSessionEnd | EvSubagentStart | EvSubagentStop | EvOther.

#[export] Instance hook_event_eq_dec : EqDecision HookEvent.
Proof. solve_decision. Defined.

(** The spellings of an event, in the order of the [match]. *)
Definition event_spellings : list (list string * HookEvent) :=
  [ (["session-start"; "session_start"; "SessionStart"; "sessionStart"], EvSessionStart);
    (["user-prompt"; "user_prompt"; "user-prompt-submit"; "user_prompt_submit"; "UserPromptSubmit";
      "beforeSubmitPrompt"], EvUserPrompt);
    (["pre-tool-use"; "pre_tool_use"; "PreToolUse"; "preToolUse"; "BeforeTool"], EvPreToolUse);
    (["post-tool-use"; "post_tool_use"; "PostToolUse"; "postToolUse"; "postToolUseFailure";
      "PostToolUseFailure"; "AfterTool"], EvPostToolUse);
    (["pre-compact"; "pre_compact"; "PreCompact"; "preCompact"; "PreCompress"], EvPreCompact);
    (["post-compaction"; "post_compaction"; "PostCompaction"], EvPostCompaction);
    (["notification"; "Notification"], EvNotification);
    (["stop"; "Stop"], EvStop);
    (["session-end"; "session_end"; "SessionEnd"; "sessionEnd"], EvSessionEnd);
    (["subagent-start"; "subagent_start"; "SubagentStart"; "subagentStart"], EvSubagentStart);
    (["subagent-stop"; "subagent_stop"; "SubagentStop"; "subagentStop"; "subagent-end"; "SubagentEnd"],
     EvSubagentStop) ]%string.

Definition HookEvent_parse (s : bytes) : HookEvent :=
  match List.find (λ '(spellings, _), bool_decide (s ∈ lit <$> spellings)) event_spellings with
  | Some (_, e) => e
  | None => EvOther
  end.

Definition to_observation_kind (e : HookEvent) : ObservationKind :=
  match e with
  | EvSessionStart => SessionStart
  | EvUserPrompt => UserPrompt
  | EvPreToolUse => PreToolUse
  | EvPostToolUse => PostToolUse
  | EvPreCompact => PreCompact
  | EvPostCompaction => PostCompaction
  | EvNotification => Notification
  | EvStop => Stop
  | EvSessionEnd => SessionEnd
  | EvSubagentStart | EvSubagentStop | EvOther => OtherKind
  end.

Definition importance_for (e : HookEvent) : Z :=
  match e with
  | EvSessionStart | EvSessionEnd => 7
  | EvUserPrompt => 8
  | EvPostToolUse | EvPreToolUse => 5
  | EvStop | EvPreCompact | EvPostCompaction => 6
  | EvNotification | EvOther | EvSubagentStart | EvSubagentStop => 3
  end%Z.

(** The ceiling of a stored body, by event. *)
Definition OBSERVATION_BODY_MAX_BYTES : nat := N.to_nat 16384.
Definition TOOL_EXCERPT_MAX_BYTES : nat := 2000.

Definition durable_body_cap (e : HookEvent) : nat :=
  match e with
  | EvNotification | EvPreToolUse | EvPostToolUse | EvStop | EvOther => TOOL_EXCERPT_MAX_BYTES
  | _ => OBSERVATION_BODY_MAX_BYTES
  end.

(** ** Provenance and routing *)

Inductive ProjectStrategy := Basename | RepoRootStrategy.
Inductive ProjectSource := Unspecified | Marker | RepoRoot.
Inductive MidSessionRouting := FollowCwd | Sticky.

Definition ProjectStrategy_parse (value : option bytes) : ProjectStrategy :=
  match value with
  | Some v => if bool_decide (v = lit "repo-root") || bool_decide (v = lit "repo_root")
              then RepoRootStrategy else Basename
  | None => Basename
  end.

Definition ProjectSource_parse (value : option bytes) : ProjectSource :=
  match value with
  | Some v => if bool_decide (v = lit "marker") then Marker
              else if bool_decide (v = lit "repo-root") || bool_decide (v = lit "repo_root") then RepoRoot
              else Unspecified
  | None => Unspecified
  end.

Definition yields_to_session (s : ProjectSource) : bool :=
  match s with RepoRoot => true | _ => false end.

Definition overrules_derived_override (r : MidSessionRouting) : bool :=
  match r with Sticky => true | FollowCwd => false end.

(** ** The envelope *)

Record HookEnvelope := mkHookEnvelope {
  hv_event : HookEvent;
  hv_agent : AgentKind;
  hv_session_id : option bytes;
  hv_cwd : option bytes;
  hv_workspace_override : option bytes;
  hv_project_override : option bytes;
  hv_project_strategy : ProjectStrategy;
  hv_project_source : ProjectSource;
  hv_aliases_invalid : bool;
  hv_drop_subagent_requested : bool;
  hv_recall_default_global_requested : bool;
  hv_all_owners_requested : bool;
  hv_managed_run : option bytes;
  hv_auto_handoff_off : bool;
  hv_extension : option bytes;
  hv_source_event : option bytes;
  hv_ingest_key : option bytes;
  hv_title_hint : option bytes;
  hv_body_excerpt : option bytes;
  hv_occurred_at : option bytes;
  hv_file_path : option bytes;
  hv_raw : json;
}.

(** A key accepted from the client: 1 to 64 plain bytes. *)
Definition valid_ingest_key (key : bytes) : bool :=
  negb (bool_decide (key = [])) && (length key <=? 64)
  && forallb (λ b, is_ascii_alphanumeric b || Ascii.eqb b "-"%char || Ascii.eqb b "_"%char) key.

Definition query_flag_value (value : option bytes) : option bytes := to_ascii_lowercase ∘ trim <$> value.

Definition query_flag_truthy (value : option bytes) : bool :=
  bool_decide (query_flag_value value ∈ Some ∘ lit <$> ["1"; "true"; "yes"; "on"]%string).

Definition query_flag_falsy (value : option bytes) : bool :=
  bool_decide (query_flag_value value ∈ Some ∘ lit <$> ["0"; "false"; "no"; "off"]%string).

Definition MAX_OCCURRED_AT_FUTURE_SKEW_MICROS : Z := 5 * 60 * 1000000.

(** A client's event time is believed when it is positive and not further
    ahead than the skew. *)
Definition occurred_at_micros (parse_timestamp : bytes → option Z) (now : Z) (env : HookEnvelope) : option Z :=
  match hv_occurred_at env ≫= parse_timestamp with
  | Some parsed =>
      if ((0 <? parsed) && (parsed <=? Z.min i64_max (now + MAX_OCCURRED_AT_FUTURE_SKEW_MICROS)))%Z
      then Some parsed else None
  | None => None
  end.

(** ** Payload accessors *)

Definition jget (key : string) (j : json) : option json := json_get (lit key) j.
Definition get_string (key : string) (j : json) : option bytes := jget key j ≫= as_str.
Definition as_bool (j : json) : option bool := match j with JBool b => Some b | _ => None end.

(** [as_object] and then [get]: only the fields of an object. *)
Definition sub_object (key : string) (j : json) : option json :=
  jget key j ≫= λ o, if is_object o then Some o else None.

Definition SUBAGENT_MARKER_KEYS : list string := ["subagentType"; "agent_id"]%string.

Definition body_is_subagent (raw : json) : bool :=
  existsb (λ key, match get_string key raw with
                  | Some value => negb (bool_decide (trim value = []))
                  | None => false
                  end) SUBAGENT_MARKER_KEYS.

Definition push_candidates (value : json) : list json :=
  let info o := match jget "info" o with Some i => [i] | None => [] end in
  value :: (match jget "properties" value with Some p => p :: info p | None => [] end)
  ++ info value ++ (match jget "path" value with Some p => [p] | None => [] end).

Definition extraction_candidates (value : json) : list json :=
  push_candidates value
  ++ (match jget "payload" value with Some p => push_candidates p | None => [] end)
  ++ (match jget "event" value with Some e => push_candidates e | None => [] end).

(** The first non-empty string under one of the keys, key by key. *)
Definition extract_string (value : json) (keys : list string) : option bytes :=
  head (keys ≫= λ key,
    omap (λ candidate, match get_string key candidate with
                       | Some s => if bool_decide (s = []) then None else Some s
                       | None => None
                       end) (extraction_candidates value)).

Definition event_tool_name (raw : json) : option bytes :=
  extract_string raw ["tool"; "tool_name"; "name"]%string.
Definition event_tool_use_id (raw : json) : option bytes := extract_string raw ["tool_use_id"]%string.

Definition or_else {A} (a b : option A) : option A := match a with Some x => Some x | None => b end.

Section Payload.
(** [serde_json::to_string] of a value, its numbers and booleans included. *)
Variable to_string : json → bytes.

Fixpoint value_to_text (value : json) : option bytes :=
  match value with
  | JString s => if bool_decide (s = []) then None else Some s
  | JArray items =>
      let joined := join [newline] (omap value_to_text items) in
      if bool_decide (joined = []) then None else Some joined
  | JObject fields =>
      match get_string "text" value with
      | Some s => Some s
      | None =>
          let content :=
            (fix content (fields : list (bytes * json)) : option bytes :=
               match fields with
               | [] => None
               | (k, v) :: fields => if bool_decide (k = lit "content") then value_to_text v else content fields
               end) fields in
          or_else content
            (let s := to_string value in
             if bool_decide (s = lit "{}") || bool_decide (s = lit "null") then None else Some s)
      end
  | JNumber _ | JBool _ => Some (to_string value)
  | JNull => None
  end.

Definition extract_content (value : json) (keys : list string) : option bytes :=
  head (keys ≫= λ key,
    omap (λ candidate, match jget key candidate ≫= value_to_text with
                       | Some s => if bool_decide (s = []) then None else Some s
                       | None => None
                       end) (extraction_candidates value)).

Definition user_prompt_text (raw : json) : option bytes :=
  extract_content raw ["prompt"; "message"; "text"]%string.
End Payload.

(** ** Tool fields, per agent *)

Definition tool_name_and (id_key : option string) (raw : json) : option (bytes * option bytes) :=
  match get_string "tool_name" raw with
  | Some name => Some (name, id_key ≫= λ key, get_string key raw)
  | None => None
  end.

Definition cline_tool_fields (object : json) : option (bytes * option bytes * option json) :=
  let nested := or_else (jget "tool_call" object) (jget "tool_result" object) ≫=
                λ o, if is_object o then Some o else None in
  match nested ≫= λ tool, (tool,.) <$> get_string "name" tool with
  | Some (tool, name) => Some (name, get_string "id" tool, jget "input" tool)
  | None =>
      or_else (jget "preToolUse" object) (jget "postToolUse" object) ≫= λ envelope,
      if negb (is_object envelope) then None
      else match or_else (jget "toolName" envelope) (jget "tool" envelope) ≫= as_str with
           | Some name => Some (name, None, jget "parameters" envelope)
           | None => None
           end
  end.

Definition tool_payload_fields (agent : AgentKind) (raw : json) : option (bytes * option bytes) :=
  if negb (is_object raw) then None
  else
    match agent with
    | ClaudeCode | CommandCode | Codex | Cursor | Grok | Grizzybot | Zcode | CopilotCli | Muse
    | CodeBuddy | IbmBob | Dsh | QwenCode | Qoder => tool_name_and (Some "tool_use_id"%string) raw
    | OpenCode | Pi | Omp =>
        match get_string "tool" raw with
        | Some name => Some (name, get_string "callID" raw)
        | None => None
        end
    | KiroCli | GeminiCli | Pool | Droid => tool_name_and None raw
    | AntigravityCli =>
        match jget "toolCall" raw ≫= get_string "name" with
        | Some name => Some (name, None)
        | None => None
        end
    | Hermes =>
        match get_string "tool_name" raw with
        | Some name => Some (name, sub_object "extra" raw ≫= get_string "tool_call_id")
        | None => None
        end
    | Cline => fst <$> cline_tool_fields raw
    | ClaudeDesktop | OpenClaw | Crush | Zero | Devin | KimiCode | Other => None
    end.

(** ** The drop list *)

Definition MAX_DROP_ENTRIES : nat := 64.
Definition MAX_DROP_ENTRY_CHARS : nat := 128.

Record IngestDropEvents := mkDropEvents { de_kinds : list HookEvent }.

Record IngestDropList := mkDropList {
  dl_tool_use_id_prefixes : list bytes;
  dl_tool_names : list bytes;
  dl_drop_events : IngestDropEvents;
}.

(** Why a configured list is refused. *)
Inductive DropListError :=
  | TooManyEntries (list_name : string) (entries : nat)
  | BlankEntry (list_name : string)
  | LongEntry (list_name : string)
  | ControlEntry (list_name : string)
  | DrivesSession (value : bytes)
  | UnknownEvent (value : bytes)
  | NotDroppable (value : bytes).

Definition is_droppable_event (e : HookEvent) : bool :=
  match e with EvSessionStart | EvSessionEnd | EvOther => false | _ => true end.

Definition validate_list (list_name : string) (entries : list bytes) : result unit DropListError :=
  bail_if MAX_DROP_ENTRIES <? length entries with TooManyEntries list_name (length entries);;
  try_for_each (λ entry,
    bail_if bool_decide (trim entry = []) with BlankEntry list_name;;
    bail_if MAX_DROP_ENTRY_CHARS <? char_count entry with LongEntry list_name;;
    bail_if existsb is_control (chars entry) with ControlEntry list_name;;
    Ok tt) entries.

Definition add_kind (kinds : list HookEvent) (e : HookEvent) : list HookEvent :=
  if bool_decide (e ∈ kinds) then kinds else kinds ++ [e].

Fixpoint drop_events_from (kinds : list HookEvent) (raw : list bytes)
    : result IngestDropEvents DropListError :=
  match raw with
  | [] => Ok (mkDropEvents kinds)
  | value :: raw =>
      bail_if bool_decide (trim value = []) with BlankEntry "drop_events";;
      let event := HookEvent_parse value in
      if is_droppable_event event then drop_events_from (add_kind kinds event) raw
      else Err (match event with
                | EvSessionStart | EvSessionEnd => DrivesSession value
                | EvOther => UnknownEvent value
                | _ => NotDroppable value
                end)
  end.

Definition IngestDropEvents_new (raw : list bytes) : result IngestDropEvents DropListError :=
  drop_events_from [] raw.

Definition IngestDropList_new (prefixes names drop_events : list bytes)
    : result IngestDropList DropListError :=
  let? _u := validate_list "drop_tool_use_id_prefixes" prefixes in
  let? _u := validate_list "drop_tool_names" names in
  let? events := IngestDropEvents_new drop_events in
  Ok (mkDropList prefixes names events).

Definition starts_with (prefix s : bytes) : bool := bool_decide (is_Some (strip_prefix prefix s)).

Definition drop_list_matches (l : IngestDropList) (env : HookEnvelope) : bool :=
  if bool_decide (dl_tool_use_id_prefixes l = []) && bool_decide (dl_tool_names l = []) then false
  else
    match hv_event env with
    | EvPreToolUse | EvPostToolUse =>
        let '(name, id) := match tool_payload_fields (hv_agent env) (hv_raw env) with
                           | Some (name, id) => (Some name, id)
                           | None => (event_tool_name (hv_raw env), event_tool_use_id (hv_raw env))
                           end in
        (match id with
         | Some id => existsb (λ prefix, starts_with prefix id) (dl_tool_use_id_prefixes l)
         | None => false
         end)
        || match name with Some name => bool_decide (name ∈ dl_tool_names l) | None => false end
    | _ => false
    end.

Definition matches_event_kind (l : IngestDropList) (env : HookEnvelope) : bool :=
  bool_decide (hv_event env ∈ de_kinds (dl_drop_events l)).

(** ** Events nobody wants stored *)

Definition CURSOR_DRAFT_SESSION_ID : bytes := lit "empty-state-draft".

Definition is_cursor_draft_placeholder (env : HookEnvelope) : bool :=
  bool_decide (hv_agent env = Cursor) && bool_decide (hv_session_id env = Some CURSOR_DRAFT_SESSION_ID).

Definition eq_ignore_ascii_case (a b : bytes) : bool :=
  bool_decide (to_ascii_lowercase a = to_ascii_lowercase b).

Definition is_codex_memory_agent_cwd (cwd : bytes) : bool :=
  let normalized := (λ a, if Ascii.eqb a "\"%char then "/"%char else a) <$> cwd in
  match reverse (split_on "/"%char (drop_end_while (Ascii.eqb "/"%char) normalized)) with
  | memories :: codex_home :: _ =>
      eq_ignore_ascii_case memories (lit "memories") && eq_ignore_ascii_case codex_home (lit ".codex")
  | _ => false
  end.

Definition trim_start (s : bytes) : bytes := concat (drop_while is_whitespace (chars s)).

Definition looks_like_codex_memory_agent_prompt (candidate : bytes) : bool :=
  starts_with (lit "## memory writing agent") (to_ascii_lowercase (trim_start candidate)).

Definition is_harness_self_maintenance (to_string : json → bytes) (env : HookEnvelope) : bool :=
  bool_decide (hv_agent env = Codex)
  && (match hv_cwd env with Some cwd => is_codex_memory_agent_cwd cwd | None => false end
      || match user_prompt_text to_string (hv_raw env) with
         | Some prompt => looks_like_codex_memory_agent_prompt prompt
         | None => false
         end).

(** The event's session: the id its native name maps to, or a fresh one for a
    start without a name. *)
Definition resolve_session_id (from_native : bytes → SessionId) (fresh : SessionId) (env : HookEnvelope)
    : result SessionId string :=
  match hv_session_id env with
  | Some raw => Ok (from_native raw)
  | None =>
      match hv_event env with
      | EvSessionStart => Ok fresh
      | _ => Err "hook payload missing session_id and event is not session-start"
      end
  end.

(** ** Sessions known to be subagents

    A bounded set, oldest first. *)

Definition SUBAGENT_SESSIONS_MAX : nat := N.to_nat 4096.

Definition SubagentSessionKey : Type := WorkspaceId * ProjectId * SessionId.

Record SubagentSessionSet := mkSubagents {
  sa_ids : gset SubagentSessionKey;
  sa_order : list SubagentSessionKey;
  sa_max : nat;
}.

Definition default_subagents : SubagentSessionSet := mkSubagents ∅ [] SUBAGENT_SESSIONS_MAX.

(** [while self.ids.len() > self.max]; every round takes one from the order. *)
Fixpoint evict_oldest {K} `{Countable K} (max : nat) (ids : gset K) (order : list K) : gset K * list K :=
  if size ids <=? max then (ids, order)
  else match order with
       | oldest :: order => evict_oldest max (ids ∖ {[oldest]}) order
       | [] => (ids, [])
       end.

Definition retain_others {A} `{EqDecision A} (key : A) (order : list A) : list A :=
  List.filter (λ k, negb (bool_decide (k = key))) order.

Definition subagent_insert (key : SubagentSessionKey) (s : SubagentSessionSet) : SubagentSessionSet :=
  if bool_decide (key ∈ sa_ids s) then
    mkSubagents (sa_ids s) (retain_others key (sa_order s) ++ [key]) (sa_max s)
  else
    let '(ids, order) := evict_oldest (sa_max s) ({[key]} ∪ sa_ids s) (sa_order s ++ [key]) in
    mkSubagents ids order (sa_max s).

Definition subagent_contains (key : SubagentSessionKey) (s : SubagentSessionSet) : bool :=
  bool_decide (key ∈ sa_ids s).

Definition subagent_remove (key : SubagentSessionKey) (s : SubagentSessionSet) : SubagentSessionSet :=
  if bool_decide (key ∈ sa_ids s)
  then mkSubagents (sa_ids s ∖ {[key]}) (retain_others key (sa_order s)) (sa_max s)
  else s.

(** Whether the event is dropped as a subagent's; its scope is [None] when it
    does not resolve. *)
Definition should_drop_subagent (session : result SessionId string) (scope : option (WorkspaceId * ProjectId))
    (env : HookEnvelope) (s : SubagentSessionSet) : bool * SubagentSessionSet :=
  if negb (hv_drop_subagent_requested env) then (false, s)
  else
    match session, scope with
    | Ok session_id, Some (ws, pj) =>
        let key := (ws, pj, session_id) in
        let marked := match hv_event env with EvSubagentStart | EvSubagentStop => true | _ => false end
                      || body_is_subagent (hv_raw env) in
        if marked then
          (true, if bool_decide (hv_agent env = ClaudeCode) then s else subagent_insert key s)
        else
          let tracked := subagent_contains key s in
          (tracked, if tracked && bool_decide (hv_event env = EvSessionEnd) then subagent_remove key s else s)
    | _, _ => (false, s)
    end.

(** ** The rate limiter of the sources

    Tokens are 64-bit floating point numbers with the standard's rounding. *)

Definition INGEST_RATE_MAX_KEYS : nat := N.to_nat 4096.
Definition INGEST_RATE_MAX_KEY_BYTES : nat := 128.

Definition f64 := spec_float.
Definition f64_add : f64 → f64 → f64 := SFadd 53 1024.
Definition f64_sub : f64 → f64 → f64 := SFsub 53 1024.
Definition f64_mul : f64 → f64 → f64 := SFmul 53 1024.
Definition f64_div : f64 → f64 → f64 := SFdiv 53 1024.
Definition f64_of_Z (z : Z) : f64 := binary_normalize 53 1024 z 0 false.

(** [f64::min] and [f64::max]: the other one of a NaN. *)
Definition f64_min (a b : f64) : f64 :=
  if SFeqb a a then (if SFltb b a then b else a) else b.
Definition f64_max (a b : f64) : f64 :=
  if SFeqb a a then (if SFltb a b then b else a) else b.

(** [Duration::as_secs_f64] of nanoseconds. *)
Definition as_secs_f64 (nanos : Z) : f64 :=
  f64_add (f64_of_Z (nanos / 1000000000)) (f64_div (f64_of_Z (nanos mod 1000000000)) (f64_of_Z 1000000000)).

(** Instants are nanoseconds. *)
Record TokenBucket := mkBucket { tb_tokens : f64; tb_last_refill : Z }.

Record IngestRateLimiter := mkLimiter {
  rl_buckets : gmap bytes TokenBucket;
  rl_order : list bytes;
  rl_max_keys : nat;
  rl_refill_per_sec : f64;
  rl_burst : f64;
}.

Definition limiter_new (refill_per_sec burst : f64) : IngestRateLimiter :=
  mkLimiter ∅ [] INGEST_RATE_MAX_KEYS refill_per_sec (f64_max burst (f64_of_Z 1)).

Definition limiter_disabled : IngestRateLimiter := limiter_new (f64_of_Z 0) (f64_of_Z 0).

Definition fnv1a64 (s : bytes) : Z :=
  foldl (λ hash b, Z.modulo (Z.lxor hash (Z.of_N (byte_val b)) * 0x100000001b3) (2 ^ 64))
    0xcbf29ce484222325%Z s.

(** [{:016x}]. *)
Definition hex_digit (z : Z) : ascii :=
  ascii_of_N (Z.to_N (if (z <? 10)%Z then 48 + z else 87 + z)).
Definition hex16 (z : Z) : bytes :=
  (λ i, hex_digit (Z.land (Z.shiftr z (4 * (15 - Z.of_nat i))) 15)) <$> seq 0 16.

Definition bounded_rate_key (raw : bytes) : bytes :=
  if length raw <=? INGEST_RATE_MAX_KEY_BYTES then raw else lit "h:" ++ hex16 (fnv1a64 raw).

Fixpoint evict_buckets (max : nat) (buckets : gmap bytes TokenBucket) (order : list bytes)
    : gmap bytes TokenBucket * list bytes :=
  if size buckets <=? max then (buckets, order)
  else match order with
       | oldest :: order => evict_buckets max (delete oldest buckets) order
       | [] => (buckets, [])
       end.

(** The key has a bucket, unless that was evicted at once. *)
Definition with_bucket (key : bytes) (now : Z) (l : IngestRateLimiter) : IngestRateLimiter :=
  match rl_buckets l !! key with
  | Some _ => l
  | None =>
      let '(buckets, order) :=
        evict_buckets (rl_max_keys l) (<[key := mkBucket (rl_burst l) now]> (rl_buckets l)) (rl_order l ++ [key]) in
      mkLimiter buckets order (rl_max_keys l) (rl_refill_per_sec l) (rl_burst l)
  end.

Definition refilled (l : IngestRateLimiter) (now : Z) (b : TokenBucket) : f64 :=
  let elapsed := as_secs_f64 (Z.max 0 (now - tb_last_refill b)) in
  f64_min (f64_add (tb_tokens b) (f64_mul elapsed (rl_refill_per_sec l))) (rl_burst l).

Definition try_take (raw_key : bytes) (now : Z) (l : IngestRateLimiter) : bool * IngestRateLimiter :=
  if SFleb (rl_refill_per_sec l) (f64_of_Z 0) then (true, l)
  else
    let key := bounded_rate_key raw_key in
    let l := with_bucket key now l in
    match rl_buckets l !! key with
    | None => (true, l)
    | Some b =>
        let tokens := refilled l now b in
        let taken := SFleb (f64_of_Z 1) tokens in
        let tokens := if taken then f64_sub tokens (f64_of_Z 1) else tokens in
        (taken, mkLimiter (<[key := mkBucket tokens now]> (rl_buckets l)) (rl_order l) (rl_max_keys l)
                  (rl_refill_per_sec l) (rl_burst l))
    end.
