(* ===== verification/HookProcess.v ===== *)
(** * Processing a hook event

    Models [process_authorized] of [crates/ai-memory-hooks/src/router.rs]: how
    an event becomes rows and effects.  Its scope is resolved, it is admitted
    to its session by the store ([Capture]), its effects run one call after
    the other, and its ingest key is completed last, so a delivery that is
    interrupted is resumed by the next one.

    Every call of the handler is numbered.  Before call [n] other requests
    have changed the tables ([he_turns], [he_jobs], [he_pages]); the call may
    fail, and a command of the writer may be executed although its reply is
    lost.  The scope resolution, the managed runs, the wiki and its webhooks,
    the texts of a summary page and a baton, SHA-256, the clock and fresh ids
    are arguments.  The gate that keeps two deliveries of a key apart only
    removes interleavings; it, the project cache, metrics, log lines and the
    per-call token rows are left out. *)

From S2P Require Import IdleEnd.
From S2P Require Export Capture HookEvents.
Open Scope nat_scope.
Open Scope rust_scope.

(** ** Outcomes *)

Inductive HookProcessingOutcome :=
  | Stored | Replayed | Resumed | IgnoredEnd | DroppedPolicy | DroppedSubagent | DroppedUnauthorized
  | DroppedCollision | DroppedInvalid.

#[export] Instance hook_outcome_eq_dec : EqDecision HookProcessingOutcome.
Proof. solve_decision. Defined.

Inductive HookError :=
  | HeStore (e : OpsError)
  | HeCaptureNotAuthorized
  | HeManagedRunBoundaryRefused
  | HeOther (message : string).

(** ** The server *)

(** The settings of [HookState]. *)
Record HookConfig := mkHookConfig {
  hc_consolidator : bool;
  hc_consolidate_on_session_end : bool;
  hc_session_consolidation_notify : bool;
  hc_profile_notify : bool;
  hc_create_handoff_on_session_end : bool;
  hc_skip_wiki_checkpoints : bool;
  hc_trusted_proxy_identity : bool;
  hc_home_dir : option bytes;
  hc_mid_session_routing : MidSessionRouting;
}.

Inductive Channel := ChDelivered | ChClosed | ChReplyLost.

Definition HookScope : Type := WorkspaceId * ProjectId.

(** What an automatic baton says. *)
Record BatonText := mkBatonText {
  bt_summary : bytes;
  bt_open_questions : list bytes;
  bt_next_steps : list bytes;
}.

(** What is used of a session's digest; the text of a turn checkpoint's baton
    ([true]) differs from that of a session's end. *)
Record SessionDigest := mkSessionDigest {
  dg_substantive : bool;
  dg_baton : bool → BatonText;
}.

Record HookEnv := mkHookEnv {
  he_page : PageEnv;
  he_sha256_hex : bytes → bytes;
  he_order : OrderBy HandoffRow;
  he_json_list : list bytes → bytes;
  he_to_string : json → bytes;
  he_from_native : bytes → SessionId;
  he_parse_timestamp : bytes → option Z;
  he_scrub : bytes → bytes;
  he_sanitized : NewObservation → NewObservation;
  he_managed_run_id : bytes → bool;
  he_native_identity : bytes → bool;
  (** Before the [n]-th call. *)
  he_turns : nat → list IngestTurn;
  he_jobs : nat → list JobRow → list JobRow;
  he_pages : nat → PageDb → PageDb;
  (** The [n]-th call. *)
  he_now : nat → Z;
  he_clock : nat → Z;
  he_id : nat → N;
  he_fresh_session : nat → SessionId;
  he_faults : nat → faults;
  he_channel : nat → Channel;
  he_fails : nat → option HookError;
  he_pinned : nat → result (option HookScope) HookError;
  he_lookup_workspace : nat → bytes → option WorkspaceId;
  he_resolve : nat → result HookScope HookError;
  he_authorize : nat → HookScope → result bool HookError;
  he_distinguishes : nat → result bool HookError;
  he_link : nat → result unit HookError;
  he_by_agent : nat → result bool HookError;
  he_digest : nat → result SessionDigest HookError;
  he_write_page : nat → PageDb → result PageId HookError * PageDb;
  he_commit : nat → result bool HookError;
  (** [Err] is a refusal, [Ok true] has observers to tell. *)
  he_webhooks : nat → result bool HookError;
}.

(** What the handler did, in its order. *)
Inductive HookEffect :=
  | EfCommand (cmd : IngestCmd) (rep : IngestReply)
  | EfEnqueue (checkpoint : bool) (id : SessionId) (r : result bool OpsError)
  | EfBaton (r : result (option HandoffId) OpsError)
  | EfLink
  | EfPublish (advances : bool) (user session : option bytes) (scope : HookScope) (default_global : bool)
  | EfLog
  | EfPage (r : result PageId HookError)
  | EfCommit
  | EfWorkerNotified
  | EfProfileNotified
  | EfObserversTold.

Record HandlerState := mkHandler {
  hd_db : IngestDb;
  hd_calls : nat;
  hd_trace : list HookEffect;
}.

Definition Handler (A : Type) : Type := HandlerState → HandlerState * result A HookError.

Definition hret {A} (a : A) : Handler A := λ s, (s, Ok a).
Definition hfail {A} (e : HookError) : Handler A := λ s, (s, Err e).
Definition hbind {A B} (m : Handler A) (k : A → Handler B) : Handler B := λ s,
  let '(s, r) := m s in
  match r with Ok a => k a s | Err e => (s, Err e) end.

(** The result as a value: a failure that is logged and ignored. *)
Definition hattempt {A} (m : Handler A) : Handler (result A HookError) := λ s,
  let '(s, r) := m s in (s, Ok r).

Definition of_res {A} (r : result A HookError) : Handler A := λ s, (s, r).

Notation "'let*' x := m 'in' k" := (hbind m (λ x, k))
  (at level 10, x name, m at level 100, k at level 200,
   format "'let*'  x  :=  m  'in' '//' k") : rust_scope.

Definition with_jobs (d : IngestDb) (rows : list JobRow) : IngestDb :=
  mkIngestDb (ig_tables d) (ig_pages d) rows (ig_keys d) (ig_cjk d) (ig_usage d) (ig_derived d).

(** [StoreError::is_stale_session_scope_reference]. *)
Definition is_stale_session_scope_reference (e : HookError) : bool :=
  match e with
  | HeStore (OpsSqlite message) =>
      bool_decide (message = FOREIGN_KEY_MESSAGE) || bool_decide (message = PAIRING_MESSAGE)
  | _ => false
  end.

Section Process.
Context (cfg : HookConfig) (env : HookEnv).

(** ** Calls *)

Definition others (n : nat) (d : IngestDb) : IngestDb :=
  let d := snd (ingest_run (he_page env) (he_sha256_hex env) (he_order env) (he_json_list env) d (he_turns env n)) in
  with_ig_pages (with_jobs d (he_jobs env n (ig_jobs d))) (he_pages env n (ig_pages d)).

Definition call {A} (f : nat → IngestDb → result A HookError * IngestDb) : Handler A := λ s,
  let n := hd_calls s in
  let '(r, db) := f n (others n (hd_db s)) in
  (mkHandler db (S n) (hd_trace s), r).

Definition effect (e : HookEffect) : Handler unit := λ s,
  (mkHandler (hd_db s) (hd_calls s) (hd_trace s ++ [e]), Ok tt).

(** A read of the tables, or of something outside of them. *)
Definition read {A} (f : IngestDb → A) : Handler A :=
  call (λ n db, (match he_fails env n with Some e => Err e | None => Ok (f db) end, db)).
Definition ask {A} (f : nat → A) : Handler A := call (λ n db, (Ok (f n), db)).
Definition asking {A} (f : nat → result A HookError) : Handler A := call (λ n db, (f n, db)).

Definition at_clock {A} (f : Z → Handler A) : Handler A := λ s, f (he_clock env (hd_calls s)) s.

Definition turn_of (n : nat) (cmd : IngestCmd) : IngestTurn :=
  mkIngestTurn cmd (he_now env n) (he_clock env n) (he_id env n) (he_id env n) (he_faults env n) (λ _, None).

Definition UNEXPECTED : HookError := HeOther "the writer answered another command".
Definition WRITER_CLOSED : HookError := HeOther "writer closed".

(** A command of the writer; what it did happened even when its reply is lost. *)
Definition command {A} (cmd : IngestCmd) (expect : IngestReply → option A) : Handler A := λ s,
  let n := hd_calls s in
  let db := others n (hd_db s) in
  match he_channel env n with
  | ChClosed => (mkHandler db (S n) (hd_trace s), Err WRITER_CLOSED)
  | channel =>
      let '(rep, db) := ingest_step (he_page env) (he_sha256_hex env) (he_order env) (he_json_list env)
                          db (turn_of n cmd) in
      (mkHandler db (S n) (hd_trace s ++ [EfCommand cmd rep]),
       match channel, rep with
       | ChReplyLost, _ => Err WRITER_CLOSED
       | _, RepIngestError e => Err (HeStore e)
       | _, _ => match expect rep with Some a => Ok a | None => Err UNEXPECTED end
       end)
  end.

Definition done_reply (rep : IngestReply) : option unit :=
  match rep with RepIngestDone => Some tt | _ => None end.

(** The writer's commands on the job queue and on the batons. *)
Definition queue_command {A} (record : result A OpsError → HookEffect)
    (f : nat → IngestDb → result (A * IngestDb) OpsError) : Handler A := λ s,
  let n := hd_calls s in
  let db := others n (hd_db s) in
  match he_channel env n with
  | ChClosed => (mkHandler db (S n) (hd_trace s), Err WRITER_CLOSED)
  | channel =>
      let r := f n db in
      let answer := let? res := r in Ok (fst res) in
      (mkHandler (match r with Ok (_, db') => db' | Err _ => db end) (S n) (hd_trace s ++ [record answer]),
       match channel, answer with
       | ChReplyLost, _ => Err WRITER_CLOSED
       | _, Ok a => Ok a
       | _, Err e => Err (HeStore e)
       end)
  end.

Definition enqueue_jobs (checkpoint : bool) (ws : WorkspaceId) (pj : ProjectId) (id : SessionId) : Handler bool :=
  queue_command (EfEnqueue checkpoint id) (λ n db,
    let? res := (if checkpoint then enqueue_checkpoint else enqueue)
                  (he_faults env n) (ig_tables db) (ig_jobs db) ws pj id (he_now env n) in
    Ok (fst res, with_jobs db (snd res))).

Definition baton_command (h : NewHandoff) : Handler (option HandoffId) :=
  queue_command EfBaton (λ n db,
    let? res := checkpoint_session_handoff (he_json_list env) (he_order env) (he_faults env n) (ig_tables db) h (he_id env n)
                  (he_now env n) in
    Ok (fst res, with_tables db (snd res))).

(** ** Which session an event sticks to *)

Definition normalize_project_path_key (path : bytes) : bytes :=
  let normalized := (λ a, if Ascii.eqb a backslash then slash else a) <$> path in
  let normalized := if 1 <? length normalized then drop_end_while (Ascii.eqb slash) normalized
                    else normalized in
  if is_windows_style_path normalized then to_ascii_lowercase normalized else normalized.

Definition not_blank (s : option bytes) : option bytes :=
  match s with Some v => if bool_decide (trim v = []) then None else Some v | None => None end.

Definition drive_root (s : bytes) : bool :=
  match s with [d; c] => is_ascii_alphabetic d && Ascii.eqb c ":"%char | _ => false end.

Definition meaningful_session_anchor (session_cwd home_dir : option bytes) : option bytes :=
  match not_blank session_cwd with
  | None => None
  | Some cwd =>
      let norm := normalize_project_path_key cwd in
      if bool_decide (norm = [slash]) || bool_decide (norm = []) || drive_root norm
         || bool_decide (normalize_project_path_key <$> home_dir = Some norm)
      then None else Some norm
  end.

(** [Path::starts_with] of Unix paths: component by component, where empty
    components and inner [.] do not count. *)
Definition path_components (p : bytes) : list bytes :=
  let parts := split_on slash p in
  let kept := List.filter (λ c, negb (bool_decide (c = [])) && negb (bool_decide (c = lit "."))) parts in
  match p with
  | a :: _ => if Ascii.eqb a slash then [slash] :: kept
              else match parts with
                   | first :: _ => if bool_decide (first = lit ".") then lit "." :: kept else kept
                   | [] => kept
                   end
  | [] => kept
  end.

Definition path_starts_with (p base : bytes) : bool :=
  bool_decide (path_components base = take (length (path_components base)) (path_components p)).

Definition sticky_within_session_tree (session_cwd event_cwd home_dir : option bytes) : bool :=
  match meaningful_session_anchor session_cwd home_dir with
  | None => false
  | Some session_norm =>
      match not_blank event_cwd with
      | None => true
      | Some cwd => path_starts_with (normalize_project_path_key cwd) session_norm
      end
  end.

Definition sticky_out_of_tree_under_repo_root (session_cwd home_dir : option bytes)
    (strategy : ProjectStrategy) : bool :=
  match strategy with RepoRootStrategy => true | Basename => false end
  && bool_decide (is_Some (meaningful_session_anchor session_cwd home_dir)).

Definition overrides_permit_sticky (workspace_is_rescope : bool) (project_override : option bytes)
    (source : ProjectSource) (routing : MidSessionRouting) : bool :=
  if workspace_is_rescope then false
  else match project_override with
       | None => true
       | Some _ => overrules_derived_override routing && yields_to_session source
       end.

Definition sticky_cwd_admits (session_cwd event_cwd home_dir : option bytes) (strategy : ProjectStrategy)
    (routing : MidSessionRouting) : bool :=
  sticky_within_session_tree session_cwd event_cwd home_dir
  || sticky_out_of_tree_under_repo_root session_cwd home_dir strategy
  || (overrules_derived_override routing
      && bool_decide (is_Some (meaningful_session_anchor session_cwd home_dir))).

Definition workspace_override_is_rescope (name : option bytes) (session_ws : WorkspaceId) : Handler bool :=
  match name with
  | None => hret false
  | Some name =>
      let* resolved := ask (λ n, he_lookup_workspace env n name) in
      hret (match resolved with Some ws => negb (bool_decide (ws = session_ws)) | None => true end)
  end.

Definition has_publishable_scope_hint (cwd project_override : option bytes) : bool :=
  match cwd with Some v => negb (bool_decide (v = [])) | None => false end
  || bool_decide (is_Some project_override).

Definition find_session_scope (id : SessionId) (d : IngestDb)
    : option (WorkspaceId * ProjectId * option bytes) :=
  (λ s, (s_workspace s, s_project s, s_cwd s)) <$> find_session (ig_tables d) id.

(** ** What is read of an event *)

(** The directory a relocated OpenCode session left. *)
Definition moved_from_cwd (ev : HookEnvelope) : option bytes :=
  if bool_decide (hv_agent ev = OpenCode) && bool_decide (hv_event ev = EvSessionStart)
     && bool_decide (hv_managed_run ev = None)
     && bool_decide ((jget "session_moved" (hv_raw ev) ≫= as_bool) = Some true)
  then match get_string "session_moved_from_cwd" (hv_raw ev) with
       | Some cwd => if bool_decide (cwd = []) then None else Some cwd
       | None => None
       end
  else None.

Definition owner_stamp_for_event (identity : option IdentityKey) : Handler (option bytes) :=
  match identity with
  | None => hret None
  | Some k =>
      let* distinguishes := ask (λ n, if hc_trusted_proxy_identity cfg then Ok true else he_distinguishes env n) in
      hret (owner_stamp (Some k) (match distinguishes with Ok b => b | Err _ => true end))
  end.

Definition durable_body (ev : HookEnvelope) : bytes :=
  match hv_body_excerpt ev with
  | None => []
  | Some excerpt => truncate_utf8_bytes (he_scrub env excerpt) (durable_body_cap (hv_event ev))
  end.

(** The filter of the sessions the caller may write to. *)
Definition event_owner_filter (ev : HookEnvelope) (actor : option IdentityKey) (level : AuthLevel)
    : Handler OwnerFilter :=
  if hv_all_owners_requested ev then
    if negb (bool_decide (hv_event ev = EvSessionEnd)) then hfail (HeStore SessionCollision)
    else
      let* distinguishes := asking (λ n, if hc_trusted_proxy_identity cfg then Ok true else he_distinguishes env n) in
      if is_ok (authorize_level level CapAdmin distinguishes) then hret AnyOwner
      else hfail (HeStore SessionCollision)
  else hret (match actor with Some k => FilterUser (storage_key k) | None => Unattributed end).

(** ** Admission *)

Definition hook_session (ev : HookEnvelope) (id : SessionId) (scope : HookScope) (owner : option bytes)
    (now : Z) : NewSession :=
  mkNewSession id (fst scope) (snd scope) (hv_agent ev) (hv_cwd ev) owner
    (occurred_at_micros (he_parse_timestamp env) now ev).

Definition hook_observation (ev : HookEnvelope) (id : SessionId) (scope : HookScope) (now : Z) : NewObservation :=
  let kind := to_observation_kind (hv_event ev) in
  he_sanitized env
    (mkNewObservation id (fst scope) (snd scope) kind (hv_extension ev) (hv_source_event ev)
       (default (lit (kind_as_str kind)) (hv_title_hint ev)) (durable_body ev) (importance_for (hv_event ev))
       (occurred_at_micros (he_parse_timestamp env) now ev) (hv_file_path ev)).

Definition admission_reply (rep : IngestReply) : option HookSessionAdmission :=
  match rep with RepAdmission a => Some a | _ => None end.

Definition admit_event (ev : HookEnvelope) (id : SessionId) (scope : HookScope) (owner : option bytes)
    (filter : OwnerFilter) : Handler HookSessionAdmission :=
  at_clock (λ now,
    command (CmdAdmit (hook_session ev id scope owner now) (hook_observation ev id scope now) filter
               (hv_ingest_key ev) (moved_from_cwd ev)) admission_reply).

(** The admission, once more with a scope resolved anew when the one used was
    stale; a pinned scope is not resolved again. *)
Definition admit_or_retry (ev : HookEnvelope) (id : SessionId) (pinned : option HookScope) (scope : HookScope)
    (owner : option bytes) (filter : OwnerFilter) : Handler HookSessionAdmission :=
  let* first := hattempt (admit_event ev id scope owner filter) in
  match first with
  | Ok a => hret a
  | Err e =>
      if bool_decide (pinned = None) && is_stale_session_scope_reference e then
        let* scope := asking (he_resolve env) in
        admit_event ev id scope owner filter
      else hfail e
  end.

(** ** Effects *)

Definition enqueue_session_end_consolidation (id : SessionId) (scope : HookScope) : Handler bool :=
  if negb (hc_consolidate_on_session_end cfg) || negb (hc_consolidator cfg) then hret false
  else if negb (hc_session_consolidation_notify cfg) then hret false
  else
    let* inserted := enqueue_jobs false (fst scope) (snd scope) id in
    let* _u := effect EfWorkerNotified in
    hret inserted.

Definition enqueue_session_checkpoint_consolidation (id : SessionId) (scope : HookScope) : Handler bool :=
  if negb (hc_consolidator cfg) then hret false
  else if negb (hc_session_consolidation_notify cfg) then hret false
  else
    let* inserted := enqueue_jobs true (fst scope) (snd scope) id in
    let* _u := effect EfWorkerNotified in
    hret inserted.

(** Whether something new was committed; a failure is logged only. *)
Definition commit_wiki : Handler bool :=
  if hc_skip_wiki_checkpoints cfg then hret false
  else
    let* committed := ask (he_commit env) in
    let* _u := effect EfCommit in
    hret (match committed with Ok b => b | Err _ => false end).

Definition has_substantive (id : SessionId) (scope : HookScope) (d : IngestDb) : bool :=
  existsb (λ s, is_session id s && bool_decide (s_workspace s = fst scope) && bool_decide (s_project s = snd scope))
    (ig_sessions d)
  && existsb (λ o, of_session id o && o_substantive o) (ig_observations d).

Definition session_page_at (id : SessionId) : bytes :=
  lit "sessions/" ++ pe_session_text (he_page env) id ++ lit ".md".

Definition latest_page_id_by_ids (id : SessionId) (scope : HookScope) (d : IngestDb) : option PageId :=
  p_id <$> List.find (latest_at (fst scope) (snd scope) (session_page_at id)) (pages (ig_pages d)).

Definition agent_session_page_id (id : SessionId) (scope : HookScope) : Handler (option PageId) :=
  let* by_agent := ask (he_by_agent env) in
  match by_agent with
  | Ok true => read (latest_page_id_by_ids id scope)
  | Ok false | Err _ => hret None
  end.

Definition write_page : Handler PageId := λ s,
  let n := hd_calls s in
  let db := others n (hd_db s) in
  let '(r, pages) := he_write_page env n (ig_pages db) in
  (mkHandler (with_ig_pages db pages) (S n) (hd_trace s ++ [EfPage r]), r).

Definition write_checkpoint_page (id : SessionId) (scope : HookScope) (resumed : bool) : Handler bool :=
  let* _previous := (if resumed then read (latest_page_id_by_ids id scope) else hret None) in
  let* own := agent_session_page_id id scope in
  match own with
  | Some _ => hret false
  | None =>
      let* digest := asking (he_digest env) in
      if negb (dg_substantive digest) then hret false
      else
        let* _page := write_page in
        let* _committed := ask (he_commit env) in
        let* _u := effect EfCommit in
        hret true
  end.

Definition generation_consolidating_or_done (id : SessionId) (d : IngestDb) : bool :=
  existsb (λ j, bool_decide (j_session j = id) && (in_job_state "running" j || in_job_state "completed" j)
                && bool_decide (j_generation j = observation_count (ig_tables d) id)) (ig_jobs d).

Definition open_session_scope (id : SessionId) (d : IngestDb) : option HookScope :=
  match find_session (ig_tables d) id with
  | Some s => if bool_decide (s_ended_at s = None) then Some (s_workspace s, s_project s) else None
  | None => None
  end.

Definition advances_active_project_fallback (e : HookEvent) : bool :=
  match e with EvSessionStart | EvUserPrompt | EvPreToolUse => true | _ => false end.

(** ** Completion of the key *)

Definition claimed_reply (rep : IngestReply) : option bool :=
  match rep with RepClaimed matched => Some matched | _ => None end.

Definition complete_key (pj : ProjectId) (key : option bytes) : Handler unit :=
  match key with
  | Some key => command (CmdComplete pj key) done_reply
  | None => hret tt
  end.

Definition complete_key_if_claimed (pj : ProjectId) (key : option bytes) : Handler unit :=
  match key with
  | Some key => let* _matched := command (CmdCompleteIfClaimed pj key) claimed_reply in hret tt
  | None => hret tt
  end.

(** ** The session of the event *)

(** The session's own scope, when the event sticks to it. *)
Definition sticky_scope_of (ev : HookEnvelope) (id : SessionId) : Handler (option HookScope) :=
  let* found := read (find_session_scope id) in
  match found with
  | Some (ws, pj, session_cwd) =>
      if bool_decide (moved_from_cwd ev = None) then
        let* rescope := workspace_override_is_rescope (hv_workspace_override ev) ws in
        hret (if overrides_permit_sticky rescope (hv_project_override ev) (hv_project_source ev)
                   (hc_mid_session_routing cfg)
                 && sticky_cwd_admits session_cwd (hv_cwd ev) (hc_home_dir cfg) (hv_project_strategy ev)
                      (hc_mid_session_routing cfg)
              then Some (ws, pj) else None)
      else hret None
  | None => hret None
  end.

(** The scope of the event, and whether it may move the active project. *)
Definition route_event (ev : HookEnvelope) (id : SessionId) (pinned : option HookScope)
    : Handler (HookScope * bool) :=
  let* sticky := sticky_scope_of ev id in
  let publishable := bool_decide (is_Some pinned) || bool_decide (is_Some sticky)
                     || has_publishable_scope_hint (hv_cwd ev) (hv_project_override ev) in
  let* scope := (match or_else pinned sticky with
                 | Some scope => hret scope
                 | None => asking (he_resolve env)
                 end) in
  hret (scope, publishable).

(** A redelivered end of a session that has ended: what the end may have
    missed is repaired. *)
Definition repair_ended (ev : HookEnvelope) (id : SessionId) (session : AdmittedSession)
    : Handler HookProcessingOutcome :=
  let scope := (as_workspace session, as_project session) in
  let* committed := commit_wiki in
  let* substantive := read (has_substantive id scope) in
  let* inserted := (if substantive then enqueue_session_end_consolidation id scope else hret false) in
  let* _u := complete_key_if_claimed (as_project session) (hv_ingest_key ev) in
  hret (if committed || inserted then Resumed else IgnoredEnd).

Definition link_managed_run (ev : HookEnvelope) (pinned : option HookScope) : Handler unit :=
  match pinned, hv_managed_run ev, hv_session_id ev with
  | None, Some run, Some native =>
      if he_managed_run_id env run && he_native_identity env native then
        let* _linked := asking (he_link env) in
        effect EfLink
      else hret tt
  | _, _, _ => hret tt
  end.

Definition publish_active_project_for_event (ev : HookEnvelope) (actor : option IdentityKey)
    (scope : HookScope) : Handler unit :=
  effect (EfPublish (advances_active_project_fallback (hv_event ev)) (storage_key <$> actor)
            (hv_session_id ev) scope (hv_recall_default_global_requested ev)).

(** ** Before and after a compaction *)

Definition is_checkpoint_event (e : HookEvent) : bool :=
  match e with EvPreCompact | EvPostCompaction => true | _ => false end.

(** A failed page is logged; a failed enqueue fails the event. *)
Definition checkpoint_stage (ev : HookEnvelope) (id : SessionId) (scope : HookScope) (resumed : bool)
    : Handler unit :=
  if negb (is_checkpoint_event (hv_event ev)) then hret tt
  else
    let* rewritten := (if resumed then read (generation_consolidating_or_done id) else hret false) in
    if rewritten then hret tt
    else
      let* written := hattempt (write_checkpoint_page id scope resumed) in
      match written with
      | Ok true => let* _inserted := enqueue_session_checkpoint_consolidation id scope in hret tt
      | Ok false | Err _ => hret tt
      end.

(** ** The end of a session, or of a turn *)

Definition strip_prefix_ignore_ascii_case (text prefix : bytes) : option bytes :=
  if (length prefix <=? length text) && is_char_boundary text (length prefix)
     && eq_ignore_ascii_case (take (length prefix) text) prefix
  then Some (drop (length prefix) text) else None.

Definition is_normal_termination (reason : bytes) : bool :=
  let reason := trim reason in
  let reason := default reason (strip_prefix_ignore_ascii_case reason (lit "TERMINATION_REASON_")) in
  eq_ignore_ascii_case reason (lit "NO_TOOL_CALL") || eq_ignore_ascii_case reason (lit "MODEL_STOP").

Definition stop_is_turn_checkpoint (raw : json) : bool :=
  let idle := bool_decide ((jget "fullyIdle" raw ≫= as_bool) = Some true) in
  let failed := match get_string "error" raw with
                | Some error => negb (bool_decide (trim error = []))
                | None => false
                end in
  idle && negb failed
  && match get_string "terminationReason" raw with Some reason => is_normal_termination reason | None => false end.

Definition turn_checkpoint (ev : HookEnvelope) : bool :=
  bool_decide (hv_event ev = EvStop)
  && match hv_agent ev with
     | OpenCode => bool_decide ((jget "turn_checkpoint" (hv_raw ev) ≫= as_bool) = Some true)
     | AntigravityCli => stop_is_turn_checkpoint (hv_raw ev)
     | _ => false
     end
  && bool_decide (hv_managed_run ev = None) && negb (body_is_subagent (hv_raw ev)).

Definition MAX_REPORTED_SESSION_TOKENS : Z := 1000000000.
Definition MAX_REPORTED_MODEL_BYTES : nat := 64.

(** [Value::as_u64]: a number written without sign, fraction and exponent
    that fits. *)
Definition is_digit (a : ascii) : bool := (48 <=? byte_val a)%N && (byte_val a <=? 57)%N.
Definition decimal (s : bytes) : Z := foldl (λ n a, 10 * n + (Z.of_N (byte_val a) - 48))%Z 0%Z s.

Definition as_u64 (j : json) : option Z :=
  match j with
  | JNumber s => if negb (bool_decide (s = [])) && forallb is_digit s && (decimal s <? 2 ^ 64)%Z
                 then Some (decimal s) else None
  | _ => None
  end.

(** [while end > 0 && !s.is_char_boundary(end)]. *)
Fixpoint boundary_below (s : bytes) (end_ : nat) : nat :=
  match end_ with
  | 0 => 0
  | S less => if is_char_boundary s end_ then end_ else boundary_below s less
  end.

Definition parse_reported_session_usage (raw : json) (id : SessionId) : option NewSessionUsage :=
  jget "_ai_memory_usage" raw ≫= λ usage,
  let field key := Z.min (default 0%Z (jget key usage ≫= as_u64)) MAX_REPORTED_SESSION_TOKENS in
  let input := field "input_tokens"%string in
  let output := field "output_tokens"%string in
  let cache_write := field "cache_write_tokens"%string in
  let cache_read := field "cache_read_tokens"%string in
  if ((input =? 0) && (output =? 0) && (cache_write =? 0) && (cache_read =? 0))%Z then None
  else
    let model := match trim <$> get_string "model" usage with
                 | Some s => if bool_decide (s = []) then None
                             else Some (take (boundary_below s (Nat.min (length s) MAX_REPORTED_MODEL_BYTES)) s)
                 | None => None
                 end in
    Some (mkNewSessionUsage id input output cache_write cache_read model).

(** A failed write is logged. *)
Definition report_usage (ev : HookEnvelope) (id : SessionId) : Handler unit :=
  match parse_reported_session_usage (hv_raw ev) id with
  | Some usage => let* _stored := hattempt (command (CmdUsage usage) done_reply) in hret tt
  | None => hret tt
  end.

Definition lifecycle_reply (rep : IngestReply) : option LifecycleOnlyEndOutcome :=
  match rep with RepLifecycle o => Some o | _ => None end.

(** Whether a session without substantive work has ended here. *)
Definition end_lifecycle_only (ev : HookEnvelope) (admitted : AdmittedSession) : Handler bool :=
  let* ended := at_clock (λ now,
    command (CmdEndLifecycleOnly admitted (occurred_at_micros (he_parse_timestamp env) now ev)) lifecycle_reply) in
  match ended with
  | Ended _ => let* _committed := commit_wiki in hret true
  | Substantive => hret false
  end.

Definition session_summary_page (id : SessionId) (scope : HookScope) (track : bool) : Handler PageId :=
  let* _previous := (if track then read (latest_page_id_by_ids id scope) else hret None) in
  let* own := agent_session_page_id id scope in
  match own with
  | Some page => hret page
  | None => write_page
  end.

Definition child_session (ev : HookEnvelope) : bool :=
  match hv_agent ev with OpenCode | Omp | Grok => true | _ => false end && body_is_subagent (hv_raw ev).

Definition should_create_handoff (ev : HookEnvelope) : bool :=
  bool_decide (hv_managed_run ev = None) && negb (child_session ev) && negb (hv_auto_handoff_off ev)
  && hc_create_handoff_on_session_end cfg.

Definition build_auto_handoff (ev : HookEnvelope) (id : SessionId) (scope : HookScope) (digest : SessionDigest)
    (owner : option bytes) (checkpoint : bool) : NewHandoff :=
  let text := dg_baton digest checkpoint in
  mkNewHandoff (fst scope) (snd scope) (Some id) (hv_agent ev) None (hv_cwd ev) (bt_summary text)
    (bt_open_questions text) (bt_next_steps text) [] owner.

(** The baton the webhooks let through, and whether observers are to be told. *)
Definition admitted_baton (ev : HookEnvelope) (h : NewHandoff) : Handler (option NewHandoff * bool) :=
  if should_create_handoff ev then
    let* allowed := ask (he_webhooks env) in
    hret (match allowed with Ok observers => (Some h, observers) | Err _ => (None, false) end)
  else hret (None, false).

Definition handoff_reply (rep : IngestReply) : option HandoffId :=
  match rep with RepHandoff id => Some id | _ => None end.

Definition end_with_baton (ev : HookEnvelope) (admitted : AdmittedSession) (page : PageId)
    (handoff : option NewHandoff) : Handler (option HandoffId) :=
  at_clock (λ now,
    let occurred := occurred_at_micros (he_parse_timestamp env) now ev in
    match handoff with
    | Some h => let* id := command (CmdEndWithHandoff admitted (Some page) h occurred) handoff_reply in hret (Some id)
    | None => let* _u := command (CmdEndAdmitted admitted (Some page) occurred) done_reply in hret None
    end).

(** A checkpoint leaves the session open. *)
Definition pass_baton (ev : HookEnvelope) (admitted : AdmittedSession) (page : PageId)
    (handoff : option NewHandoff) : Handler (option HandoffId) :=
  if turn_checkpoint ev then
    match handoff with Some h => baton_command h | None => hret None end
  else end_with_baton ev admitted page handoff.

Definition summarise_and_end (ev : HookEnvelope) (id : SessionId) (scope page_scope : HookScope)
    (admitted : AdmittedSession) (session_owner : option IdentityKey) (resumed : bool) : Handler unit :=
  let* digest := asking (he_digest env) in
  let* page := session_summary_page id page_scope (turn_checkpoint ev && resumed) in
  let* owner := owner_stamp_for_event session_owner in
  let* baton := admitted_baton ev (build_auto_handoff ev id page_scope digest owner (turn_checkpoint ev)) in
  let* handoff := pass_baton ev admitted page (fst baton) in
  let* _told := (if bool_decide (is_Some handoff) && snd baton then effect EfObserversTold else hret tt) in
  let* _committed := commit_wiki in
  if turn_checkpoint ev then hret tt
  else
    let* _inserted := enqueue_session_end_consolidation id scope in
    if hc_profile_notify cfg then effect EfProfileNotified else hret tt.

(** Whether the event is answered here, its key completed. *)
Definition end_stage (ev : HookEnvelope) (id : SessionId) (scope : HookScope) (admitted : AdmittedSession)
    (session_owner : option IdentityKey) (resumed : bool) : Handler bool :=
  let checkpoint := turn_checkpoint ev in
  let answered := let* _u := complete_key (snd scope) (hv_ingest_key ev) in hret true in
  if negb (bool_decide (hv_event ev = EvSessionEnd) || checkpoint) then hret false
  else
    let* _u := report_usage ev id in
    let* open := (if checkpoint then read (open_session_scope id) else hret None) in
    if checkpoint && bool_decide (open = None) then answered
    else
      let page_scope := default scope open in
      let* substantive := read (has_substantive id page_scope) in
      if checkpoint && negb substantive then answered
      else
        let* ended := (if substantive then hret false else end_lifecycle_only ev admitted) in
        if ended then answered
        else
          let* _u := summarise_and_end ev id scope page_scope admitted session_owner resumed in
          hret false.

(** ** An event *)

(** What follows an admission that recorded, or had recorded, the event. *)
Definition after_admission (ev : HookEnvelope) (id : SessionId) (pinned : option HookScope)
    (publishable : bool) (actor : option IdentityKey) (admitted : AdmittedSession)
    (ingest : IngestObservationOutcome) : Handler HookProcessingOutcome :=
  match ingest with
  | AlreadyComplete => hret Replayed
  | Inserted _ | ResumePending =>
      let outcome := if inserted ingest then Stored else Resumed in
      let scope := (as_workspace admitted, as_project admitted) in
      let resumed := negb (inserted ingest) in
      let* _l := link_managed_run ev pinned in
      let* _p := (if publishable then publish_active_project_for_event ev actor scope else hret tt) in
      let* _g := effect EfLog in
      let* session_owner :=
        of_res (match stored_session_identity (as_owner admitted) with
                | Ok k => Ok k
                | Err message => Err (HeOther message)
                end) in
      let* _c := checkpoint_stage ev id scope resumed in
      let* answered := end_stage ev id scope admitted session_owner resumed in
      let* _u := (if answered then hret tt else complete_key (snd scope) (hv_ingest_key ev)) in
      hret outcome
  end.

Definition session_of (ev : HookEnvelope) : Handler SessionId := λ s,
  (s, match resolve_session_id (he_from_native env) (he_fresh_session env (hd_calls s)) ev with
      | Ok id => Ok id
      | Err message => Err (HeOther message)
      end).

Definition settle_admission (ev : HookEnvelope) (id : SessionId) (pinned : option HookScope)
    (publishable : bool) (actor : option IdentityKey) (admission : HookSessionAdmission)
    : Handler HookProcessingOutcome :=
  match admission with
  | InvalidMissingEnd | InvalidScopedEnd => hret IgnoredEnd
  | AlreadyEnded session => repair_ended ev id session
  | Observation session ingest | EndOpen session ingest | ReEnd session ingest =>
      after_admission ev id pinned publishable actor session ingest
  end.

Definition process_authorized (ev : HookEnvelope) (actor : option IdentityKey) (level : AuthLevel)
    : Handler HookProcessingOutcome :=
  if hv_aliases_invalid ev then hfail (HeOther "invalid marker aliases")
  else
    let* id := session_of ev in
    if is_harness_self_maintenance (he_to_string env) ev then hret DroppedPolicy
    else
      let* pinned := asking (he_pinned env) in
      let* routed := route_event ev id pinned in
      let* allowed := asking (λ n, he_authorize env n (fst routed)) in
      if negb allowed then hfail HeCaptureNotAuthorized
      else
        let* owner := owner_stamp_for_event actor in
        let* filter := event_owner_filter ev actor level in
        let* admission := admit_or_retry ev id pinned (fst routed) owner filter in
        settle_admission ev id pinned (snd routed) actor admission.

(** The final outcome of a delivery; [None] is a failure to retry. *)
Definition classify (r : result HookProcessingOutcome HookError) : option HookProcessingOutcome :=
  match r with
  | Ok outcome => Some outcome
  | Err HeCaptureNotAuthorized => Some DroppedUnauthorized
  | Err (HeStore SessionCollision) => Some DroppedCollision
  | Err (HeStore (SessionPurged _)) => Some DroppedInvalid
  | Err HeManagedRunBoundaryRefused => Some DroppedInvalid
  | Err (HeStore _) | Err (HeOther _) => None
  end.

Definition process_envelope (ev : HookEnvelope) (actor : option IdentityKey) (level : AuthLevel)
    : HandlerState → HandlerState * option HookProcessingOutcome := λ s,
  let '(s, r) := process_authorized ev actor level s in (s, classify r).

End Process.
