(* ===== verification/HookContract.v ===== *)
(** * What the processing of a hook event guarantees

    A program logic of the handler's effects, and with it: an ingest key is
    completed last, after every effect of its event; an acknowledged session
    end has ended its session and queued its consolidation; nothing reaches
    the store before the author's write access was decided; a replay runs no
    effect. *)

From S2P Require Export HookProcess.
From S2P Require Import IngestKeys.
Open Scope nat_scope.
Open Scope rust_scope.

(** ** Effects of a handler *)

(** Postconditions on the effects added, the tables left and the answer. *)
Definition Post (A : Type) : Type := list HookEffect → IngestDb → result A HookError → Prop.

Definition emits {A} (m : Handler A) (Φ : Post A) : Prop :=
  ∀ s, ∃ tr, hd_trace (fst (m s)) = hd_trace s ++ tr ∧ Φ tr (hd_db (fst (m s))) (snd (m s)).

(** Effects of one kind only. *)
Definition only {A} (P : HookEffect → Prop) (m : Handler A) : Prop := emits m (λ tr _ _, Forall P tr).

(** An effect that every success has had. *)
Definition does {A} (m : Handler A) (P : HookEffect → Prop) : Prop :=
  emits m (λ tr _ r, is_ok r = true → Exists P tr).

Arguments emits : simpl never.
Arguments only : simpl never.
Arguments does : simpl never.

Lemma emits_mono {A} (m : Handler A) (Φ Ψ : Post A) : emits m Φ → (∀ tr d r, Φ tr d r → Ψ tr d r) → emits m Ψ.
Proof. intros Hm H s. destruct (Hm s) as (tr & ? & ?). exists tr. auto. Qed.

Section Logic.
Context {A B : Type}.
Implicit Types (m : Handler A) (k : A → Handler B).

Lemma emits_and m (Φ Ψ : Post A) : emits m Φ → emits m Ψ → emits m (λ tr d r, Φ tr d r ∧ Ψ tr d r).
Proof.
  intros H1 H2 s. destruct (H1 s) as (tr & E & ?), (H2 s) as (tr' & E' & ?). rewrite E in E'.
  apply app_inv_head in E' as <-. eauto.
Qed.

Lemma emits_bind m k (Φ : Post B) :
  emits m (λ tr d r, match r with
                     | Ok a => emits (k a) (λ tr' d' r', Φ (tr ++ tr') d' r')
                     | Err e => Φ tr d (Err e)
                     end) →
  emits (hbind m k) Φ.
Proof.
  intros H s. destruct (H s) as (tr & E & Hr). unfold hbind. destruct (m s) as [s1 [a|e]]; cbn in *; [|eauto].
  destruct (Hr s1) as (tr' & E' & ?). exists (tr ++ tr'). by rewrite E', E, app_assoc.
Qed.

Lemma emits_silent m (Φ : Post A) : (∀ s, hd_trace (fst (m s)) = hd_trace s) → (∀ d r, Φ [] d r) → emits m Φ.
Proof. intros E H s. exists []. by rewrite E, app_nil_r. Qed.

Lemma emits_map m (f : A → B) (Φ : Post B) :
  emits m (λ tr d r, Φ tr d (match r with Ok a => Ok (f a) | Err e => Err e end)) →
  emits (hbind m (λ a, hret (f a))) Φ.
Proof.
  intros H s. destruct (H s) as (tr & E & Hr). exists tr. unfold hbind. by destruct (m s) as [s1 [a|e]].
Qed.

(** A prefix of effects a postcondition does not mind. *)
Lemma emits_after m k (P : HookEffect → Prop) (Φ : Post B) :
  only P m → (∀ a, emits (k a) Φ) →
  (∀ tr tr' d r, Forall P tr → Φ tr' d r → Φ (tr ++ tr') d r) →
  (∀ tr d e, Forall P tr → Φ tr d (Err e)) → emits (hbind m k) Φ.
Proof.
  intros Hm Hk Hc He. apply emits_bind. eapply emits_mono; [exact Hm|]. cbn. intros tr d [a|e] Htr; [|auto].
  eapply emits_mono; [exact (Hk a)|]. auto.
Qed.

Lemma only_bind P m k : only P m → (∀ a, only P (k a)) → only P (hbind m k).
Proof.
  intros Hm Hk. eapply emits_after; [exact Hm|exact Hk| |auto].
  cbn. intros. by apply Forall_app.
Qed.

Lemma does_first m k P : does m P → (∀ a, only (λ _, True) (k a)) → does (hbind m k) P.
Proof.
  intros Hm Hk. apply emits_bind. eapply emits_mono; [exact Hm|]. cbn. intros tr d [a|e] H; [|done].
  eapply emits_mono; [exact (Hk a)|]. cbn. intros tr' d' r' _ _. apply Exists_app. left. by apply H.
Qed.

Lemma does_then m k P : only (λ _, True) m → (∀ a, does (k a) P) → does (hbind m k) P.
Proof.
  intros Hm Hk. eapply emits_after; [exact Hm|exact Hk| |done].
  cbn. intros tr tr' d r _ H Hr. apply Exists_app. right. auto.
Qed.
End Logic.

Lemma emits_ret {A} (a : A) (Φ : Post A) : (∀ d, Φ [] d (Ok a)) → emits (hret a) Φ.
Proof. intros H s. exists []. by rewrite app_nil_r. Qed.
Lemma emits_fail {A} e (Φ : Post A) : (∀ d, Φ [] d (Err e)) → emits (hfail e) Φ.
Proof. intros H s. exists []. by rewrite app_nil_r. Qed.

(** Calls that leave no effect. *)
Lemma emits_quietly {A B} (m : Handler A) (k : A → Handler B) (Φ : Post B) :
  only (λ _, False) m → (∀ a, emits (k a) Φ) → (∀ d e, Φ [] d (Err e)) → emits (hbind m k) Φ.
Proof.
  intros Hm Hk He. eapply emits_after; [exact Hm|exact Hk| |].
  - intros [|x tr] tr' d r H; [done|]. by apply Forall_inv in H.
  - intros [|x tr] d e H; [done|]. by apply Forall_inv in H.
Qed.

Lemma only_ret {A} P (a : A) : only P (hret a).
Proof. apply emits_silent; [done|]. by constructor. Qed.
Lemma only_fail {A} P e : only P (@hfail A e).
Proof. apply emits_silent; [done|]. by constructor. Qed.
Lemma only_of_res {A} P (r : result A HookError) : only P (of_res r).
Proof. apply emits_silent; [done|]. by constructor. Qed.
Lemma only_effect (P : HookEffect → Prop) e : P e → only P (effect e).
Proof. intros He s. exists [e]. split; [done|]. by constructor. Qed.
Lemma only_attempt {A} P (m : Handler A) : only P m → only P (hattempt m).
Proof. intros H s. destruct (H s) as (tr & E & ?). exists tr. unfold hattempt. by destruct (m s). Qed.

Lemma emits_at_clock {A} env (f : Z → Handler A) Φ : (∀ now, emits (f now) Φ) → emits (at_clock env f) Φ.
Proof. intros H s. apply H. Qed.
Lemma only_at_clock {A} P env (f : Z → Handler A) : (∀ now, only P (f now)) → only P (at_clock env f).
Proof. apply emits_at_clock. Qed.

Lemma emits_call {A} env (f : nat → IngestDb → result A HookError * IngestDb) (Φ : Post A) :
  (∀ d r, Φ [] d r) → emits (call env f) Φ.
Proof. apply emits_silent. intros s. unfold call. by destruct (f _ _). Qed.

(** A command of the writer is one effect, or none when it was not received. *)
Lemma emits_command {A} env cmd (expect : IngestReply → option A) (Φ : Post A) :
  (∀ d e, Φ [] d (Err e)) →
  (∀ n d rep d', ingest_step (he_page env) (he_sha256_hex env) (he_order env) (he_json_list env) d
                   (turn_of env n cmd) = (rep, d') →
     (∀ e, Φ [EfCommand cmd rep] d' (Err e)) ∧ (∀ a, expect rep = Some a → Φ [EfCommand cmd rep] d' (Ok a))) →
  emits (command env cmd expect) Φ.
Proof.
  intros Hlost Hsent s. unfold command. destruct (he_channel env _); [|exists []; split; [by rewrite app_nil_r|apply Hlost]|];
    (destruct (ingest_step _ _ _ _ _ _) as [rep d'] eqn:E; exists [EfCommand cmd rep]; split; [done|];
     destruct (Hsent _ _ _ _ E) as [He Ha]; cbn).
  - destruct rep; auto; by destruct (expect _) eqn:?; auto.
  - auto.
Qed.

Lemma only_command {A} (P : HookEffect → Prop) env cmd (expect : IngestReply → option A) :
  (∀ rep, P (EfCommand cmd rep)) → only P (command env cmd expect).
Proof. intros H. apply emits_command; [by constructor|]. intros. split; intros; by repeat constructor. Qed.

Lemma emits_queue_command {A} env record (f : nat → IngestDb → result (A * IngestDb) OpsError) (Φ : Post A) :
  (∀ d e, Φ [] d (Err e)) →
  (∀ d r, (∀ e, Φ [record r] d (Err e)) ∧ (∀ a, r = Ok a → Φ [record r] d (Ok a))) →
  emits (queue_command env record f) Φ.
Proof.
  intros Hlost Hsent s. unfold queue_command. destruct (he_channel env _); [|exists []; split; [by rewrite app_nil_r|apply Hlost]|];
    (eexists [_]; split; [done|]; match goal with |- Φ [record ?r] ?d _ => destruct (Hsent d r) as [He Ha] end; cbn).
  - destruct (f _ _) as [[a d]|e] eqn:E; cbn in *; auto.
  - auto.
Qed.

Lemma only_queue_command {A} (P : HookEffect → Prop) env record (f : nat → IngestDb → result (A * IngestDb) OpsError) :
  (∀ r, P (record r)) → only P (queue_command env record f).
Proof. intros H. apply emits_queue_command; [by constructor|]. intros. split; intros; by repeat constructor. Qed.

(** The stages of the handler, unfolded to its calls. *)
Create HintDb stages.
#[export] Hint Unfold enqueue_jobs baton_command workspace_override_is_rescope owner_stamp_for_event
  event_owner_filter admit_event admit_or_retry enqueue_session_end_consolidation
  enqueue_session_checkpoint_consolidation commit_wiki agent_session_page_id write_checkpoint_page
  complete_key complete_key_if_claimed sticky_scope_of route_event repair_ended link_managed_run
  publish_active_project_for_event checkpoint_stage report_usage end_lifecycle_only session_summary_page
  admitted_baton end_with_baton pass_baton summarise_and_end end_stage read ask asking : stages.

Lemma only_write_page (P : HookEffect → Prop) env : (∀ r, P (EfPage r)) → only P (write_page env).
Proof.
  intros H s. unfold write_page. destruct (he_write_page _ _ _) as [r pages]. exists [EfPage r].
  split; [done|]. by constructor.
Qed.

Lemma only_session_of (P : HookEffect → Prop) env ev : only P (session_of env ev).
Proof. apply emits_silent; [done|]. by constructor. Qed.

Ltac only_leaf :=
  first
    [ assumption
    | apply only_ret | apply only_fail | apply only_of_res
    | apply emits_call; intros; by apply List.Forall_nil
    | apply only_effect; lazy; solve [auto]
    | apply only_command; intros; lazy; solve [auto]
    | apply only_queue_command; intros; lazy; solve [auto]
    | apply only_session_of
    | apply only_write_page; intros; lazy; solve [auto] ].

Ltac only_tac :=
  repeat first
    [ progress intros
    | only_leaf
    | match goal with
      | |- only _ (match ?x with _ => _ end) => destruct x
      | |- only _ (let '(_, _) := ?x in _) => destruct x
      | |- only _ (hbind _ _) => apply only_bind
      | |- only _ (hattempt _) => apply only_attempt
      | |- only _ (at_clock _ _) => apply only_at_clock
      end
    | progress autounfold with stages; cbv zeta ].

(** ** Effects of interest *)

Definition ordinary (e : HookEffect) : Prop :=
  match e with
  | EfCommand (CmdComplete _ _) _ | EfCommand (CmdCompleteIfClaimed _ _) _ => False
  | _ => True
  end.

(** The admitted session has ended. *)
Definition ends (a : AdmittedSession) (e : HookEffect) : Prop :=
  match e with
  | EfCommand (CmdEndAdmitted a' _ _) RepIngestDone
  | EfCommand (CmdEndWithHandoff a' _ _ _) (RepHandoff _)
  | EfCommand (CmdEndLifecycleOnly a' _) (RepLifecycle (Ended _)) => a' = a
  | _ => False
  end.

(** There was nothing to summarise. *)
Definition ends_without_work (a : AdmittedSession) (e : HookEffect) : Prop :=
  match e with
  | EfCommand (CmdEndLifecycleOnly a' _) (RepLifecycle (Ended _)) => a' = a
  | _ => False
  end.

Definition queued (checkpoint : bool) (id : SessionId) (e : HookEffect) : Prop :=
  match e with EfEnqueue c i (Ok _) => c = checkpoint ∧ i = id | _ => False end.

Definition writes_page (e : HookEffect) : Prop := match e with EfPage (Ok _) => True | _ => False end.

(** The key of the slot is complete. *)
Definition slot_complete (d : IngestDb) (pj : ProjectId) (key : bytes) : Prop :=
  ∃ row, find_key d pj key = Some row ∧ is_done row = true.

Lemma completion_marks env sha order json_list d t pj key d' :
  ingest_step env sha order json_list d t = (RepIngestDone, d') → it_cmd t = CmdComplete pj key →
  slot_complete d' pj key.
Proof.
  intros E Hcmd. pose proof (step_keys _ _ _ _ _ _ _ _ E) as Hk. unfold completed_slot in Hk. rewrite Hcmd in Hk.
  unfold ingest_step in E. rewrite Hcmd in E. unfold ingest_done, complete_observation_ingest in E.
  unfold complete_observation_ingest_if_claimed, statement in E.
  destruct (it_faults t _); [done|]. cbn in E.
  destruct (count_where _ _ =? 0) eqn:Hc; [done|]. apply Nat.eqb_neq in Hc. unfold count_where in Hc.
  unfold slot_complete, find_key. rewrite Hk, find_update by done.
  destruct (List.find (is_key pj key) (ig_keys d)) as [r|] eqn:Hf.
  - apply List.find_some in Hf as [_ Hp]. exists (complete_row (it_now t) r). cbn. rewrite Hp. split; [done|]. unfold is_done, complete_row. cbn. by destruct (ik_completed_at r).
  - exfalso. apply Hc. pose proof (List.find_none _ _ Hf) as Hn.
    destruct (List.filter (is_key pj key) (ig_keys d)) as [|x l] eqn:El; [done|].
    assert (In x (List.filter (is_key pj key) (ig_keys d))) as [Hin Hp]%filter_In by (rewrite El; by left).
    by rewrite (Hn x Hin) in Hp.
Qed.

(** ** Stages that complete nothing *)

Section Stages.
Context (cfg : HookConfig) (env : HookEnv).

Lemma quiet_route ev id pinned : only ordinary (route_event cfg env ev id pinned).
Proof. only_tac. Qed.
Lemma quiet_summarise ev id scope page_scope a owner resumed :
  only ordinary (summarise_and_end cfg env ev id scope page_scope a owner resumed).
Proof. only_tac. Qed.
Lemma quiet_checkpoint ev id scope resumed : only ordinary (checkpoint_stage cfg env ev id scope resumed).
Proof. only_tac. Qed.
Lemma quiet_lifecycle ev a : only ordinary (end_lifecycle_only cfg env ev a).
Proof. only_tac. Qed.
End Stages.

(** ** The key is completed last *)

(** How the completion of a key that was acknowledged went. *)
Definition completion_of (key : bytes) (last : list HookEffect) (d : IngestDb) : Prop :=
  (∃ pj, last = [EfCommand (CmdComplete pj key) RepIngestDone] ∧ slot_complete d pj key)
  ∨ (∃ pj matched, last = [EfCommand (CmdCompleteIfClaimed pj key) (RepClaimed matched)]).

Definition completion_attempt (key : bytes) (last : list HookEffect) : Prop :=
  ∃ pj cmd rep, last = [EfCommand cmd rep] ∧ (cmd = CmdComplete pj key ∨ cmd = CmdCompleteIfClaimed pj key).

(** Effects, then at most one completion; [settled] answers had theirs,
    [open] ones had none. *)
Definition completes_last {A} (key : option bytes) (settled open : A → bool) : Post A := λ tr d r,
  ∃ body last, tr = body ++ last ∧ Forall ordinary body
    ∧ match key with
      | None => last = []
      | Some k => (last = [] ∨ completion_attempt k last)
                  ∧ (∀ a, r = Ok a → settled a = true → completion_of k last d)
                  ∧ (∀ a, r = Ok a → open a = true → last = [])
      end.

Section CompletesLast.
Context {A : Type} (settled open : A → bool).
Implicit Types (key : option bytes).

Lemma completes_last_app key tr tr' d r :
  Forall ordinary tr → completes_last key settled open tr' d r → completes_last key settled open (tr ++ tr') d r.
Proof.
  intros Htr (body & last & -> & Hb & H). exists (tr ++ body), last. rewrite app_assoc.
  split; [done|]. by split; [apply Forall_app|].
Qed.

Lemma completes_last_none key tr d r :
  Forall ordinary tr → (∀ a, r = Ok a → settled a = false ∨ key = None) → completes_last key settled open tr d r.
Proof.
  intros Htr Hs. exists tr, []. rewrite app_nil_r. split; [done|]. split; [done|].
  destruct key as [k|]; [|done]. split; [by left|]. split; [|done].
  intros a Ha. destruct (Hs a Ha) as [->|?]; [by intros ?|done].
Qed.

Lemma completes_last_one k pj cmd rep d r :
  cmd = CmdComplete pj k ∨ cmd = CmdCompleteIfClaimed pj k →
  (∀ a, r = Ok a → settled a = true → completion_of k [EfCommand cmd rep] d) →
  (∀ a, r = Ok a → open a = false) →
  completes_last (Some k) settled open [EfCommand cmd rep] d r.
Proof.
  intros Hcmd Hs Ho. exists [], [EfCommand cmd rep]. split; [done|]. split; [constructor|].
  split; [right; by exists pj, cmd, rep|]. split; [exact Hs|]. intros a Ha. by rewrite (Ho a Ha).
Qed.

Lemma emits_completes_after {B} key (m : Handler B) (k : B → Handler A) :
  only ordinary m → (∀ b, emits (k b) (completes_last key settled open)) →
  emits (hbind m k) (completes_last key settled open).
Proof.
  intros Hm Hk. eapply emits_after; [exact Hm|exact Hk| |].
  - intros. by apply completes_last_app.
  - intros. by apply completes_last_none.
Qed.

Lemma emits_ret_open key a :
  settled a = false ∨ key = None → emits (hret a) (completes_last key settled open).
Proof. intros H s. exists []. rewrite app_nil_r. split; [done|]. apply completes_last_none; [constructor|naive_solver]. Qed.

Lemma emits_fail_open key e : emits (@hfail A e) (completes_last key settled open).
Proof. intros s. exists []. rewrite app_nil_r. split; [done|]. by apply completes_last_none. Qed.

(** A completion, and then the answer. *)
Lemma emits_complete_key env key pj a :
  open a = false → emits (let* _u := complete_key env pj key in hret a) (completes_last key settled open).
Proof.
  intros Ho. unfold complete_key. destruct key as [k|]; [|apply emits_completes_after; [only_tac|intros; apply emits_ret_open; by right]].
  apply emits_map, emits_command.
  - intros d e. by apply completes_last_none.
  - intros n d rep d' Hstep. split.
    + intros e. apply (completes_last_one _ pj); [by left| |]; by intros.
    + intros u Hu. apply (completes_last_one _ pj); [by left| |]; intros ? [= <-]; [|done]. intros _.
      destruct rep; try done. left. exists pj. split; [done|]. by eapply completion_marks.
Qed.

Lemma emits_complete_key_if_claimed env key pj a :
  open a = false → emits (let* _u := complete_key_if_claimed env pj key in hret a) (completes_last key settled open).
Proof.
  intros Ho. unfold complete_key_if_claimed.
  destruct key as [k|]; [|apply emits_completes_after; [only_tac|intros; apply emits_ret_open; by right]].
  apply emits_map, emits_map, emits_command.
  - intros d e. by apply completes_last_none.
  - intros n d rep d' Hstep. split.
    + intros e. apply (completes_last_one _ pj); [by right| |]; by intros.
    + intros u Hu. apply (completes_last_one _ pj); [by right| |]; intros ? [= <-]; [|done]. intros _.
      destruct rep; try done. right. by eexists pj, _.
Qed.
End CompletesLast.

(** A stage that may have completed the key already. *)
Lemma emits_settle env key pj (m : Handler bool) (o : HookProcessingOutcome)
    (settled open : HookProcessingOutcome → bool) :
  emits m (completes_last key id negb) → open o = false →
  emits (let* answered := m in let* _u := (if answered then hret tt else complete_key env pj key) in hret o)
    (completes_last key settled open).
Proof.
  intros Hm Ho s. destruct (Hm s) as (tr & E & body & last & -> & Hb & Hl). unfold hbind.
  destruct (m s) as [s1 [[|]|e]]; cbn in E, Hl |- *.
  - exists (body ++ last). split; [exact E|]. exists body, last. split; [done|]. split; [done|].
    destruct key as [k|]; [|done]. destruct Hl as (Hat & Hs & _). split; [exact Hat|]. split; [|intros b [= <-]; by rewrite Ho].
    intros b _ _. by apply (Hs true).
  - assert (last = []) as ->.
    { destruct key as [k|]; [|done]. destruct Hl as (_ & _ & Hn). by apply (Hn false). }
    destruct (emits_complete_key settled open env key pj o Ho s1) as (tr & E' & Hc).
    unfold hbind in E', Hc.
    exists (body ++ tr). rewrite app_nil_r in E. split; [rewrite E', E; by rewrite app_assoc|]. by apply completes_last_app.
  - exists (body ++ last). split; [exact E|]. exists body, last. split; [done|]. split; [done|].
    destruct key as [k|]; [|done]. destruct Hl as (Hat & _). by split; [|split].
Qed.

Definition acknowledged (o : HookProcessingOutcome) : bool :=
  match o with Stored | Resumed => true | _ => false end.
Definition untouched (o : HookProcessingOutcome) : bool :=
  match o with Stored | Resumed | IgnoredEnd => false | _ => true end.

(** ** From the event to its admission *)

(** The store's answer to the admission. *)
Definition admission_answer (tr : list HookEffect) (answer : HookSessionAdmission) : Prop :=
  ∃ cmd, EfCommand cmd (RepAdmission answer) ∈ tr.

Definition admission_effect (e : HookEffect) : Prop :=
  match e with EfCommand (CmdAdmit _ _ _ _ _) _ => True | _ => False end.

Definition admitted_as (answer : HookSessionAdmission) : option AdmittedSession :=
  match answer with
  | Observation a _ | EndOpen a _ | ReEnd a _ => Some a
  | _ => None
  end.

(** The session an event names, or starts. *)
Definition names_session (env : HookEnv) (ev : HookEnvelope) (id : SessionId) : Prop :=
  ∃ n, resolve_session_id (he_from_native env) (he_fresh_session env n) ev = Ok id.

Section Admission.
Context (cfg : HookConfig) (env : HookEnv).

Lemma admit_answers ev id scope owner filter :
  emits (admit_event env ev id scope owner filter) (λ tr _ r, ∀ answer, r = Ok answer → admission_answer tr answer).
Proof.
  apply emits_at_clock. intros now. apply emits_command; [done|]. intros n d rep d' _. split; [done|].
  intros answer Ha ? [= <-]. destruct rep; try done. injection Ha as ->. eexists. by apply list_elem_of_singleton.
Qed.

Lemma admit_or_retry_answers ev id pinned scope owner filter :
  emits (admit_or_retry env ev id pinned scope owner filter)
    (λ tr _ r, ∀ answer, r = Ok answer → admission_answer tr answer).
Proof.
  unfold admit_or_retry. apply emits_bind. intros s. unfold hattempt.
  destruct (admit_answers ev id scope owner filter s) as (tr & E & H).
  destruct (admit_event _ _ _ _ _ _ _) as [s1 [answer|e]]; cbn in *; exists tr; (split; [done|]).
  - intros s2. exists []. rewrite !app_nil_r. split; [done|]. cbn. naive_solver.
  - destruct (_ && _); [|intros s2; exists []; rewrite !app_nil_r; by split].
    eapply emits_mono; [apply (emits_after _ _ (λ _, True));
      [only_tac|intros; apply admit_answers| |]|]; cbn.
    + intros tr1 tr2 d r _ Ha answer Hr. destruct (Ha answer Hr) as [cmd Hc]. exists cmd. apply elem_of_app. by right.
    + done.
    + intros tr1 d r Ha answer Hr. destruct (Ha answer Hr) as [cmd Hc]. exists cmd. apply elem_of_app. by right.
Qed.

(** What holds of an event when it holds of every way its admission goes on. *)
Lemma process_rule ev actor level (Φ : Post HookProcessingOutcome) :
  (∀ tr d e, Forall admission_effect tr → Φ tr d (Err e)) →
  (∀ d, Φ [] d (Ok DroppedPolicy)) →
  (∀ id pinned publishable answer tr,
     names_session env ev id →
     Forall admission_effect tr → admission_answer tr answer →
     emits (settle_admission cfg env ev id pinned publishable actor answer) (λ tr' d r, Φ (tr ++ tr') d r)) →
  emits (process_authorized cfg env ev actor level) Φ.
Proof.
  intros Herr Hpol Hset. unfold process_authorized.
  destruct (hv_aliases_invalid ev); [by apply emits_fail; intros; apply Herr|].
  apply emits_bind. intros s0. exists []. rewrite app_nil_r. split; [done|].
  unfold session_of. destruct (resolve_session_id _ _ _) as [id|message] eqn:Hid; cbn [snd]; [|by apply Herr].
  cbn [app]. assert (names_session env ev id) as Hn by (by exists (hd_calls s0)). destruct (is_harness_self_maintenance _ _); [by apply emits_ret|].
  do 2 (apply emits_quietly; [only_tac|intros ?|by intros; apply Herr]).
  apply emits_quietly; [only_tac|intros allowed|by intros; apply Herr].
  destruct (negb allowed); [by apply emits_fail; intros; apply Herr|].
  do 2 (apply emits_quietly; [only_tac|intros ?|by intros; apply Herr]).
  assert (Hadm : ∀ pinned scope owner filter, only admission_effect (admit_or_retry env ev id pinned scope owner filter))
    by only_tac.
  apply emits_bind. eapply emits_mono; [apply emits_and; [apply Hadm|apply admit_or_retry_answers]|]. cbn.
  intros tr d [answer|e] [Htr Hans]; [by apply Hset, Hans|by apply Herr].
Qed.
End Admission.

Section Completion.
Context (cfg : HookConfig) (env : HookEnv).

Lemma end_stage_completes ev id scope a owner resumed :
  emits (end_stage cfg env ev id scope a owner resumed) (completes_last (hv_ingest_key ev) Datatypes.id negb).
Proof.
  unfold end_stage. destruct (negb _); [by apply emits_ret_open; left|].
  apply emits_completes_after; [only_tac|intros _u]. apply emits_completes_after; [only_tac|intros open].
  destruct (_ && _); [by apply emits_complete_key|].
  apply emits_completes_after; [only_tac|intros substantive].
  destruct (_ && _); [by apply emits_complete_key|].
  apply emits_completes_after; [only_tac|intros ended]. destruct ended; [by apply emits_complete_key|].
  apply emits_completes_after; [apply quiet_summarise|intros _u']. by apply emits_ret_open; left.
Qed.

Lemma after_admission_completes ev id pinned publishable actor a ingest :
  emits (after_admission cfg env ev id pinned publishable actor a ingest)
    (completes_last (hv_ingest_key ev) acknowledged untouched).
Proof.
  unfold after_admission. destruct ingest; [| |by apply emits_ret_open; left];
    (apply emits_completes_after; [only_tac|intros _l]; apply emits_completes_after; [only_tac|intros _p];
     apply emits_completes_after; [only_tac|intros _g]; apply emits_completes_after; [only_tac|intros owner];
     apply emits_completes_after; [apply quiet_checkpoint|intros _c];
     apply emits_settle; [apply end_stage_completes|done]).
Qed.

Lemma repair_ended_completes ev id a :
  emits (repair_ended cfg env ev id a) (completes_last (hv_ingest_key ev) acknowledged untouched).
Proof.
  unfold repair_ended. apply emits_completes_after; [only_tac|intros committed].
  apply emits_completes_after; [only_tac|intros substantive]. apply emits_completes_after; [only_tac|intros inserted].
  apply emits_complete_key_if_claimed. by destruct (committed || inserted).
Qed.

Lemma admissions_ordinary tr : Forall admission_effect tr → Forall ordinary tr.
Proof. intros H. eapply Forall_impl; [exact H|]. by intros [[]| | | | | | | | | |]. Qed.

Lemma process_completes ev actor level :
  emits (process_authorized cfg env ev actor level) (completes_last (hv_ingest_key ev) acknowledged untouched).
Proof.
  apply process_rule.
  - intros tr d e Htr. by apply completes_last_none; [apply admissions_ordinary|].
  - intros d. apply completes_last_none; [constructor|]. intros o [= <-]. by left.
  - intros id pinned publishable answer tr _ Htr%admissions_ordinary _.
    eapply emits_mono; [|intros; by apply completes_last_app].
    destruct answer; try apply after_admission_completes; [apply repair_ended_completes| |];
      by apply emits_ret_open; left.
Qed.
End Completion.

(** ** What an acknowledged event has done *)

(** The settings under which the end of a session queues its consolidation,
    and a compaction the rewrite of its page. *)
Definition consolidates_ends (cfg : HookConfig) : bool :=
  hc_consolidate_on_session_end cfg && hc_consolidator cfg && hc_session_consolidation_notify cfg.
Definition consolidates_checkpoints (cfg : HookConfig) : bool :=
  hc_consolidator cfg && hc_session_consolidation_notify cfg.

Section Effects.
Context (cfg : HookConfig) (env : HookEnv).

Lemma ask_succeeds {A} (f : nat → A) : emits (ask env f) (λ tr _ r, tr = [] ∧ is_ok r = true).
Proof. intros s. exists []. by rewrite app_nil_r. Qed.

Lemma only_true {A} (P : HookEffect → Prop) (m : Handler A) : only P m → only (λ _, True) m.
Proof. intros H. eapply emits_mono; [exact H|]. cbn. intros tr _ _ _. by apply Forall_true. Qed.

Lemma lifecycle_end_effect ev a :
  emits (end_lifecycle_only cfg env ev a) (λ tr _ r, r = Ok true → Exists (ends_without_work a) tr).
Proof.
  unfold end_lifecycle_only. apply emits_bind, emits_at_clock. intros now. apply emits_command; [done|].
  intros n d rep d' _. split; [done|]. intros o Ho. destruct rep as [| | | | |o'| | | |]; try done. injection Ho as ->.
  destruct o as [|h]; [by intros s; exists []; rewrite app_nil_r|].
  eapply emits_mono; [apply (only_true ordinary); only_tac|]. cbn. intros tr d0 r _ _. by left.
Qed.

Lemma end_with_baton_effect ev a page h : does (end_with_baton env ev a page h) (ends a).
Proof.
  unfold end_with_baton. apply emits_at_clock. intros now.
  destruct h as [h|]; (apply does_first; [|only_tac]); apply emits_command; [done| |done|];
    (intros n d rep d' _; split; [done|]; intros o Ho _; destruct rep; try done; by left).
Qed.

Lemma enqueue_end_effect id scope :
  consolidates_ends cfg = true → does (enqueue_session_end_consolidation cfg env id scope) (queued false id).
Proof.
  unfold consolidates_ends, enqueue_session_end_consolidation. intros [[-> ->]%andb_true_iff ->]%andb_true_iff. cbn.
  apply does_first; [|only_tac]. apply emits_queue_command; [done|]. intros d r. split; [done|].
  intros b -> _. left. done.
Qed.

Lemma enqueue_checkpoint_effect id scope :
  consolidates_checkpoints cfg = true →
  does (enqueue_session_checkpoint_consolidation cfg env id scope) (queued true id).
Proof.
  unfold consolidates_checkpoints, enqueue_session_checkpoint_consolidation. intros [-> ->]%andb_true_iff. cbn.
  apply does_first; [|only_tac]. apply emits_queue_command; [done|]. intros d r. split; [done|].
  intros b -> _. left. done.
Qed.
Lemma does_mono {A} (m : Handler A) (P Q : HookEffect → Prop) : does m P → (∀ e, P e → Q e) → does m Q.
Proof.
  intros H HPQ. eapply emits_mono; [exact H|]. cbn. intros tr _ r Htr Hr.
  eapply Exists_impl; [exact (Htr Hr)|exact HPQ].
Qed.

(** More effects, before and behind. *)
Lemma does_behind {A} (m : Handler A) (P : HookEffect → Prop) tr :
  does m P → emits m (λ tr' _ r, is_ok r = true → Exists P (tr ++ tr')).
Proof. intros H. eapply emits_mono; [exact H|]. cbn. intros tr' _ r Htr Hr. apply Exists_app. by right; apply Htr. Qed.
Lemma done_before {A} (m : Handler A) (P : HookEffect → Prop) tr :
  only (λ _, True) m → Exists P tr → emits m (λ tr' _ r, is_ok r = true → Exists P (tr ++ tr')).
Proof. intros H Htr. eapply emits_mono; [exact H|]. cbn. intros tr' _ r _ _. apply Exists_app. by left. Qed.

(** The end of a session, where [P] holds of an end without work. *)
Lemma end_stage_does ev id scope a owner resumed (P : HookEffect → Prop) :
  hv_event ev = EvSessionEnd → (∀ e, ends_without_work a e → P e) →
  does (summarise_and_end cfg env ev id scope scope a owner resumed) P →
  does (end_stage cfg env ev id scope a owner resumed) P.
Proof.
  intros Hev Hw Hs. unfold end_stage.
  assert (turn_checkpoint ev = false) as -> by (unfold turn_checkpoint; by rewrite Hev).
  rewrite (bool_decide_eq_true_2 _ Hev). cbn [orb negb andb].
  apply does_then; [only_tac|intros _u]. apply emits_bind. intros s. exists []. rewrite app_nil_r. split; [done|].
  cbn [hret fst snd default andb]. apply does_then; [only_tac|intros substantive]. cbn.
  apply emits_bind. destruct substantive; cbn.
  - intros s1. exists []. rewrite app_nil_r. split; [done|]. cbn.
    apply does_first; [exact Hs|only_tac].
  - eapply emits_mono; [apply lifecycle_end_effect|]. cbn. intros tr d [[|]|e] Htr; [| |done].
    + apply done_before; [only_tac|]. eapply Exists_impl; [by apply Htr|exact Hw].
    + apply does_behind, does_first; [exact Hs|only_tac].
Qed.

Lemma summarise_ends ev id scope page_scope a owner resumed :
  turn_checkpoint ev = false → does (summarise_and_end cfg env ev id scope page_scope a owner resumed) (ends a).
Proof.
  intros Hc. unfold summarise_and_end, pass_baton. rewrite Hc.
  do 4 (apply does_then; [only_tac|intros ?]). apply does_first; [apply end_with_baton_effect|only_tac].
Qed.

Lemma summarise_queues ev id scope page_scope a owner resumed :
  turn_checkpoint ev = false → consolidates_ends cfg = true →
  does (summarise_and_end cfg env ev id scope page_scope a owner resumed) (queued false id).
Proof.
  intros Hc Hq. unfold summarise_and_end, pass_baton. rewrite Hc.
  do 7 (apply does_then; [only_tac|intros ?]). apply does_first; [by apply enqueue_end_effect|only_tac].
Qed.

(** What follows an admission, when its end stage does something. *)
Lemma after_admission_does ev id pinned publishable actor a ingest (P : HookEffect → Prop) :
  (∀ owner resumed, does (end_stage cfg env ev id (as_workspace a, as_project a) a owner resumed) P) →
  emits (after_admission cfg env ev id pinned publishable actor a ingest)
    (λ tr _ r, ∀ o, r = Ok o → acknowledged o = true → Exists P tr).
Proof.
  intros Hend. unfold after_admission.
  destruct ingest; [| |intros s; exists []; rewrite app_nil_r; split; [done|]; by intros o [= <-]];
    (eapply emits_mono;
     [do 5 (apply does_then; [only_tac|intros ?]); apply does_first; [apply Hend|only_tac]
     |cbn; intros tr d r H o -> _; by apply H]).
Qed.
(** ** A compaction *)

Definition no_page (e : HookEffect) : Prop := ¬ writes_page e.

Lemma no_page_in tr : Forall no_page tr → Exists writes_page tr → False.
Proof. intros Hn Hp. apply Exists_exists in Hp as (e & He & Hp). rewrite Forall_forall in Hn. by apply (Hn e). Qed.

(** A page that was written is reported as written. *)
Lemma checkpoint_page_reported id scope resumed :
  emits (write_checkpoint_page env id scope resumed) (λ tr _ r, r = Ok true ∨ Forall no_page tr).
Proof.
  assert (Hpre : ∀ {B} (m : Handler B) (k : B → Handler bool),
    only no_page m → (∀ b, emits (k b) (λ tr _ r, r = Ok true ∨ Forall no_page tr)) →
    emits (hbind m k) (λ tr _ r, r = Ok true ∨ Forall no_page tr)).
  { intros B m k Hm Hk. eapply emits_after; [exact Hm|exact Hk| |cbn; by intros; right].
    cbn. intros tr tr' _ r Htr [->|Htr']; [by left|right; by apply Forall_app]. }
  unfold write_checkpoint_page. apply Hpre; [only_tac|intros _p]. apply Hpre; [only_tac|intros own].
  destruct own; [apply emits_ret; intros d; by right|].
  apply Hpre; [only_tac|intros digest].
  destruct (negb _); [apply emits_ret; intros d; by right|].
  intros s. unfold hbind, write_page. destruct (he_write_page _ _ _) as [r pages]. cbn.
  destruct r as [page|e]; cbn.
  - eexists [EfPage (Ok page); EfCommit]. split; [cbn; by rewrite <- app_assoc|by left].
  - exists [EfPage (Err e)]. split; [done|]. right. repeat constructor. by intros ?.
Qed.

Lemma checkpoint_stage_queues ev id scope resumed :
  consolidates_checkpoints cfg = true →
  emits (checkpoint_stage cfg env ev id scope resumed)
    (λ tr _ r, is_ok r = true → Exists writes_page tr → Exists (queued true id) tr).
Proof.
  intros Hc. unfold checkpoint_stage.
  destruct (negb _); [apply emits_ret; intros d _ H; by inversion H|].
  apply emits_after with (P := no_page); [only_tac|intros rewritten| |].
  2:{ cbn. intros tr tr' _ r Htr H Hr Hp. apply Exists_app. right. apply H; [done|].
      apply Exists_app in Hp as [Hp|Hp]; [|done]. by destruct (no_page_in _ Htr Hp). }
  2:{ done. }
  destruct rewritten; [apply emits_ret; intros d _ H; by inversion H|].
  apply emits_bind. intros s. unfold hattempt.
  destruct (checkpoint_page_reported id scope resumed s) as (tr & E & H).
  destruct (write_checkpoint_page _ _ _ _ _) as [s1 r]. cbn in *. exists tr. split; [exact E|].
  destruct r as [[|]|e].
  - eapply emits_mono; [apply does_behind, does_first; [by apply enqueue_checkpoint_effect|only_tac]|]. cbn. auto.
  - destruct H as [?|H]; [done|]. intros s2. exists []. rewrite !app_nil_r. split; [done|]. intros _ Hp.
    by destruct (no_page_in _ H Hp).
  - destruct H as [?|H]; [done|]. intros s2. exists []. rewrite !app_nil_r. split; [done|]. intros _ Hp.
    by destruct (no_page_in _ H Hp).
Qed.

Lemma checkpoint_admitted ev id pinned publishable actor a ingest :
  is_checkpoint_event (hv_event ev) = true → consolidates_checkpoints cfg = true →
  emits (after_admission cfg env ev id pinned publishable actor a ingest)
    (λ tr _ r, ∀ o, r = Ok o → acknowledged o = true → Exists writes_page tr → Exists (queued true id) tr).
Proof.
  intros Hev Hc.
  set (Φ := λ (tr : list HookEffect) (_ : IngestDb) (r : result HookProcessingOutcome HookError),
    is_ok r = true → Exists writes_page tr → Exists (queued true id) tr).
  assert (Hret : ∀ o, emits (hret o) Φ).
  { intros o s. exists []. rewrite app_nil_r. split; [done|]. intros _ H. by inversion H. }
  assert (Hskip : ∀ tr tr' d r, Forall no_page tr → Φ tr' d r → Φ (tr ++ tr') d r).
  { intros tr tr' d r Htr H Hr Hp. apply Exists_app. right. apply H; [done|].
    apply Exists_app in Hp as [Hp|Hp]; [|done]. by destruct (no_page_in _ Htr Hp). }
  assert (Hend : ∀ scope owner resumed, only no_page (end_stage cfg env ev id scope a owner resumed)).
  { intros scope owner resumed. unfold end_stage.
    assert (turn_checkpoint ev = false ∧ bool_decide (hv_event ev = EvSessionEnd) = false) as [-> ->].
    { unfold turn_checkpoint. by destruct (hv_event ev). }
    cbn. only_tac. }
  apply emits_mono with (Φ := Φ); [|intros tr d r H o -> _; by apply H].
  unfold after_admission. destruct ingest; [| |apply Hret];
    (do 4 (apply emits_after with (P := no_page); [only_tac|intros ?|exact Hskip|done]);
     apply emits_bind; eapply emits_mono; [by apply checkpoint_stage_queues|]; cbn; intros tr d [[]|e] H; [|done];
     eapply emits_mono; [apply only_bind; [apply Hend|intros; only_tac]|]; cbn; intros tr' d' r' Hn _ Hp;
     apply Exists_app; left; apply H; [done|];
     apply Exists_app in Hp as [Hp|Hp]; [done|]; by destruct (no_page_in _ Hn Hp)).
Qed.

(** ** A replay *)

Lemma after_admission_replays ev id pinned publishable actor a ingest :
  emits (after_admission cfg env ev id pinned publishable actor a ingest)
    (λ tr _ r, r = Ok Replayed → tr = [] ∧ ingest = AlreadyComplete).
Proof.
  unfold after_admission. destruct ingest; [| |by apply emits_ret];
    (eapply emits_mono with (Φ := λ _ _ r, r ≠ Ok Replayed); [|by intros tr d r Hr];
     do 7 (apply emits_after with (P := λ _, True); [only_tac|intros ?|done|done]); by apply emits_ret).
Qed.
End Effects.

(** ** Acknowledged events *)

Lemma without_work_ends a e : ends_without_work a e → ends a e.
Proof. by destruct e as [[] []| | | | | | | | | |]. Qed.

Definition acknowledged_with (cfg : HookConfig) (env : HookEnv) (ev : HookEnvelope)
    (Q : SessionId → AdmittedSession → list HookEffect → Prop) (tr : list HookEffect) : Prop :=
  ∃ id answer, names_session env ev id
    ∧ admission_answer tr answer
    ∧ match answer with
      | AlreadyEnded _ => True
      | _ => ∃ a, admitted_as answer = Some a ∧ Q id a tr
      end.

Lemma process_acknowledged cfg env ev actor level (Q : SessionId → AdmittedSession → list HookEffect → Prop) :
  (∀ id a tr tr', Forall admission_effect tr → Q id a tr' → Q id a (tr ++ tr')) →
  (∀ id pinned publishable a ingest,
     emits (after_admission cfg env ev id pinned publishable actor a ingest)
       (λ tr _ r, ∀ o, r = Ok o → acknowledged o = true → Q id a tr)) →
  emits (process_authorized cfg env ev actor level)
    (λ tr _ r, ∀ o, r = Ok o → acknowledged o = true → acknowledged_with cfg env ev Q tr).
Proof.
  intros Hmono Hafter. apply process_rule; [done|by intros d o [= <-]|].
  intros id pinned publishable answer tr Hid Htr [cmd Hc].
  assert (Hans : ∀ tr', admission_answer (tr ++ tr') answer) by (intros tr'; exists cmd; apply elem_of_app; by left).
  assert (Hobs : ∀ a ingest, admitted_as answer = Some a →
    emits (after_admission cfg env ev id pinned publishable actor a ingest)
      (λ tr' _ r, ∀ o, r = Ok o → acknowledged o = true → acknowledged_with cfg env ev Q (tr ++ tr'))).
  { intros a ingest Ha. eapply emits_mono; [apply Hafter|]. cbn. intros tr' _ r H o Hr Ho.
    exists id, answer. split; [done|]. split; [done|].
    pose proof (Hmono id a tr tr' Htr (H o Hr Ho)) as HQ. destruct answer; try done; by exists a. }
  destruct answer; try by apply Hobs; try by apply emits_ret; intros d o [= <-].
  - eapply emits_mono with (Φ := λ tr _ _, Forall (λ _, True) tr); [change (only (λ _, True) (repair_ended cfg env ev id session)); only_tac|].
    intros tr' d r _ o _ _. by exists id, (AlreadyEnded session).
  - apply emits_ret. by intros d o [= <-].
  - apply emits_ret. by intros d o [= <-].
Qed.

(** ** Authorization *)

Definition starts_with_admission (scope : HookScope) (tr : list HookEffect) : Prop :=
  ∃ s obs filter key moved rep rest, tr = EfCommand (CmdAdmit s obs filter key moved) rep :: rest
    ∧ (ns_workspace s, ns_project s) = scope.

Lemma admission_first env ev id pinned scope owner filter :
  emits (admit_or_retry env ev id pinned scope owner filter)
    (λ tr _ r, (tr = [] ∧ is_ok r = false) ∨ starts_with_admission scope tr).
Proof.
  unfold admit_or_retry. apply emits_bind. intros s. unfold hattempt.
  assert (H : emits (admit_event env ev id scope owner filter)
    (λ tr _ r, (tr = [] ∧ r = Err WRITER_CLOSED) ∨ starts_with_admission scope tr)).
  { intros s1. unfold admit_event, at_clock, command. destruct (he_channel env _).
    2:{ exists []. rewrite app_nil_r. split; [done|]. by left. }
    all: destruct (ingest_step _ _ _ _ _ _) as [rep d]; eexists [_]; split; [done|]; right;
      repeat eexists; by destruct scope. }
  destruct (H s) as (tr & E & Htr). destruct (admit_event _ _ _ _ _ _ _) as [s1 r]. cbn in *. exists tr. split; [exact E|].
  destruct Htr as [[-> ->]|(ns & obs & fi & k & mv & rep & rest & -> & Hsc)].
  - rewrite andb_false_r. apply emits_fail. by left.
  - assert (Hrest : ∀ tr', starts_with_admission scope ((EfCommand (CmdAdmit ns obs fi k mv) rep :: rest) ++ tr')).
    { intros tr'. repeat eexists. exact Hsc. }
    destruct r as [answer|e]; [apply emits_ret; by right|].
    destruct (_ && _); [|apply emits_fail; by right].
    assert (only (λ _, True) (let* scope := asking env (he_resolve env) in admit_event env ev id scope owner filter)) as Ho by only_tac.
    eapply emits_mono; [exact Ho|]. by right.
Qed.

Lemma settle_any cfg env ev id pinned publishable actor answer :
  only (λ _, True) (settle_admission cfg env ev id pinned publishable actor answer).
Proof. destruct answer; cbn; only_tac. all: unfold after_admission; only_tac. Qed.

Lemma process_authorizes cfg env ev actor level :
  emits (process_authorized cfg env ev actor level)
    (λ tr _ _, tr = [] ∨ ∃ n scope, he_authorize env n scope = Ok true ∧ starts_with_admission scope tr).
Proof.
  unfold process_authorized. destruct (hv_aliases_invalid ev); [apply emits_fail; by left|].
  apply emits_quietly; [only_tac|intros id|by left]. destruct (is_harness_self_maintenance _ _); [apply emits_ret; by left|].
  apply emits_quietly; [only_tac|intros pinned|by left]. apply emits_quietly; [only_tac|intros routed|by left].
  apply emits_bind. intros s. exists []. rewrite app_nil_r. split; [done|]. cbn.
  destruct (he_authorize env (hd_calls s) (fst routed)) as [[]|e] eqn:Hau; cbn; [|apply emits_fail; by left|by left].
  do 2 (apply emits_quietly; [only_tac|intros ?|by left]).
  apply emits_bind. eapply emits_mono; [apply admission_first|]. cbn.
  intros tr d r [[-> Hr]|(ns & obs & fi & k & mv & rep & rest & -> & Hsc)]; [destruct r; [done|by left]|].
  assert (Hok : ∀ tr', (EfCommand (CmdAdmit ns obs fi k mv) rep :: rest) ++ tr' = []
    ∨ ∃ n scope, he_authorize env n scope = Ok true
        ∧ starts_with_admission scope ((EfCommand (CmdAdmit ns obs fi k mv) rep :: rest) ++ tr')).
  { intros tr'. right. exists (hd_calls s), (fst routed). split; [done|]. repeat eexists. exact Hsc. }
  destruct r as [answer|e]; [|specialize (Hok []); by rewrite app_nil_r in Hok].
  eapply emits_mono; [apply settle_any|]. intros tr' _ _ _. apply Hok.
Qed.

(** ** A key that stays complete *)

(** The row of a completed key, through the other requests. *)
Definition holds_done (pj : ProjectId) (key : bytes) (r : IngestKeyRow) (d : IngestDb) : Prop :=
  ∃ r', find_key d pj key = Some r' ∧ is_done r' = true ∧ ∀ t, row_lives r' t ↔ row_lives r t.

(** No other request ends the life of the row, and no admission finds it expired. *)
Definition row_outlives (env : HookEnv) (r : IngestKeyRow) : Prop :=
  ∀ n, Forall (row_lives r) (he_turns env n)
       ∧ ∀ s obs filter key moved, row_lives r (turn_of env n (CmdAdmit s obs filter key moved)).

Section Replay.
Context (cfg : HookConfig) (env : HookEnv) (pj : ProjectId) (key : bytes) (r : IngestKeyRow).
Hypothesis Hlife : row_outlives env r.
Notation held := (holds_done pj key r).

Lemma held_others n d : held d → held (others env n d).
Proof.
  intros (r' & Hf & Hd & Hl). unfold others.
  destruct (ingest_run _ _ _ _ d (he_turns env n)) as [reps d'] eqn:E.
  destruct (run_claim _ _ _ _ _ _ _ _ _ _ _ E Hf) as (r2 & Hf2 & Hd2 & Hl2 & _).
  { eapply Forall_impl; [apply (Hlife n)|]. intros t. by apply Hl. }
  exists r2. cbn. split; [exact Hf2|]. split; [by rewrite Hd2, Hd|]. intros t. by rewrite Hl2.
Qed.

(** Handlers that leave it complete. *)
Definition keeps {A} (m : Handler A) : Prop := ∀ s, held (hd_db s) → held (hd_db (fst (m s))).

Lemma keeps_bind {A B} (m : Handler A) (k : A → Handler B) : keeps m → (∀ a, keeps (k a)) → keeps (hbind m k).
Proof.
  intros Hm Hk s Hs. specialize (Hm s Hs). unfold hbind. destruct (m s) as [s1 [a|e]]; [by apply Hk|done].
Qed.
Lemma keeps_ret {A} (a : A) : keeps (hret a).
Proof. by intros s. Qed.
Lemma keeps_fail {A} e : keeps (@hfail A e).
Proof. by intros s. Qed.
Lemma keeps_session ev : keeps (session_of env ev).
Proof. by intros s. Qed.
Lemma keeps_read {A} (f : IngestDb → A) : keeps (read env f).
Proof. intros s Hs. by apply held_others. Qed.
Lemma keeps_ask {A} (f : nat → A) : keeps (ask env f).
Proof. intros s Hs. by apply held_others. Qed.
Lemma keeps_asking {A} (f : nat → result A HookError) : keeps (asking env f).
Proof. intros s Hs. by apply held_others. Qed.

(** Postconditions of what starts with the key complete. *)
Definition emits_held {A} (m : Handler A) (Φ : list HookEffect → result A HookError → Prop) : Prop :=
  ∀ s, held (hd_db s) → ∃ tr, hd_trace (fst (m s)) = hd_trace s ++ tr ∧ Φ tr (snd (m s)).

Lemma held_quietly {A B} (m : Handler A) (k : A → Handler B) (Φ : list HookEffect → result B HookError → Prop) :
  only (λ _, False) m → keeps m → (∀ a, emits_held (k a) Φ) → (∀ e, Φ [] (Err e)) → emits_held (hbind m k) Φ.
Proof.
  intros Hm Hk Hn He s Hs. destruct (Hm s) as (tr & E & Htr). specialize (Hk s Hs).
  assert (tr = []) as -> by (destruct tr as [|x tr]; [done|]; by apply Forall_inv in Htr).
  rewrite app_nil_r in E. unfold hbind. destruct (m s) as [s1 [a|e]]; cbn in *.
  - destruct (Hn a s1 Hk) as (tr & E' & H). exists tr. by rewrite E', E.
  - exists []. by rewrite app_nil_r.
Qed.

Definition ingest_of (answer : HookSessionAdmission) : option IngestObservationOutcome :=
  match answer with Observation _ o | EndOpen _ o | ReEnd _ o => Some o | _ => None end.

(** The store's answer to an admission that finds the key complete. *)
Definition answers_complete (answer : HookSessionAdmission) : Prop :=
  ∀ a, admitted_as answer = Some a → as_project a = pj → ingest_of answer = Some AlreadyComplete.

Lemma admit_held ev id scope owner filter s :
  hv_ingest_key ev = Some key → held (hd_db s) →
  match admit_event env ev id scope owner filter s with
  | (_, Ok answer) => answers_complete answer
  | (s1, Err e) => is_stale_session_scope_reference e = true → held (hd_db s1)
  end.
Proof.
  intros Hkey Hs. unfold admit_event, at_clock, command. set (n := hd_calls s). set (cmd := CmdAdmit _ _ _ _ _).
  apply (held_others n) in Hs. destruct (he_channel env n) eqn:Ec; [|done|].
  all: destruct (ingest_step _ _ _ _ _ _) as [rep d'] eqn:E.
  2: by destruct rep.
  destruct rep as [| | |answer| | | | | |e]; try done; cbn.
  - destruct Hs as (r' & Hf & Hd & Hl). intros a Ha Hpj.
    assert (Hdel : delivery (turn_of env n cmd) (RepAdmission answer)
      = (λ o, (pj, key, o)) <$> ingest_of answer).
    { unfold delivery. cbn. rewrite Hkey. destruct answer; cbn in *; simplify_eq; done. }
    destruct (ingest_of answer) as [o|] eqn:Eo; [|by destruct answer].
    destruct (delivery_resumes _ _ _ _ _ _ _ _ _ _ _ _ E Hdel Hf) as (-> & _); [|by rewrite Hd].
    apply Hl. apply (Hlife n).
  - intros _. assert (d' = others env n (hd_db s)) as ->; [|exact Hs].
    unfold ingest_step in E. cbn in E. unfold ingest_reply in E.
    by destruct (admit_hook_session_event _ _ _ _ _ _ _ _ _ _ _ _) as [[? ?]|]; simplify_eq.
Qed.

Lemma admission_held ev id pinned scope owner filter :
  hv_ingest_key ev = Some key →
  emits_held (admit_or_retry env ev id pinned scope owner filter)
    (λ tr r, Forall admission_effect tr
             ∧ ∀ answer, r = Ok answer → admission_answer tr answer ∧ answers_complete answer).
Proof.
  intros Hkey s Hs.
  assert (Hadm : only admission_effect (admit_or_retry env ev id pinned scope owner filter)) by only_tac.
  destruct (Hadm s) as (tr & E & Htr). destruct (admit_or_retry_answers env ev id pinned scope owner filter s) as (tr2 & E2 & Hans).
  rewrite E in E2. apply app_inv_head in E2 as <-. exists tr. split; [exact E|]. split; [exact Htr|].
  intros answer Hr. split; [by apply Hans|]. clear E Htr Hans Hadm. revert Hr. unfold admit_or_retry, hattempt, hbind.
  pose proof (admit_held ev id scope owner filter s Hkey Hs) as H1.
  destruct (admit_event env ev id scope owner filter s) as [s1 [answer1|e]]; cbn -[asking]; [by intros [= <-]|].
  destruct (_ && _) eqn:Eb; [|cbn; by intros ?]. apply andb_true_iff in Eb as [_ Hst]. specialize (H1 Hst).
  destruct (asking env (he_resolve env) s1) as [s2 [scope2|e2]] eqn:Ea; [|cbn; by intros ?].
  assert (held (hd_db s2)) as H2.
  { pose proof (keeps_asking (he_resolve env) s1 H1) as Hk. by rewrite Ea in Hk. }
  pose proof (admit_held ev id scope2 owner filter s2 Hkey H2) as H3.
  destruct (admit_event env ev id scope2 owner filter s2) as [s3 [answer3|e3]]; cbn; [by intros [= <-]|by intros ?].
Qed.

Ltac keeps_tac :=
  repeat first
    [ progress intros
    | apply keeps_ret | apply keeps_fail | apply keeps_session
    | apply keeps_read | apply keeps_ask | apply keeps_asking
    | match goal with
      | |- keeps (match ?x with _ => _ end) => destruct x
      | |- keeps (let '(_, _) := ?x in _) => destruct x
      | |- keeps (hbind _ _) => apply keeps_bind
      end
    | progress unfold route_event, sticky_scope_of, workspace_override_is_rescope, owner_stamp_for_event,
        event_owner_filter; cbv zeta ].

(** An event whose key is complete. *)
Lemma process_held ev actor level :
  hv_ingest_key ev = Some key →
  emits_held (process_authorized cfg env ev actor level)
    (λ tr r, ∀ o, r = Ok o →
       o = Replayed ∧ Forall admission_effect tr
       ∨ o = DroppedPolicy ∧ tr = []
       ∨ ∃ answer, admission_answer tr answer ∧ ∀ a, admitted_as answer = Some a → as_project a ≠ pj).
Proof.
  intros Hkey. unfold process_authorized. destruct (hv_aliases_invalid ev).
  { intros s _. exists []. by rewrite app_nil_r. }
  apply held_quietly; [only_tac|keeps_tac|intros id|done].
  destruct (is_harness_self_maintenance _ _).
  { intros s _. exists []. rewrite app_nil_r. split; [done|]. intros o [= <-]. by right; left. }
  do 3 (apply held_quietly; [only_tac|keeps_tac|intros ?|done]).
  destruct (negb _). { intros s _. exists []. by rewrite app_nil_r. }
  do 2 (apply held_quietly; [only_tac|keeps_tac|intros ?|done]).
  intros s Hs. unfold hbind.
  match goal with |- context [admit_or_retry env ev id ?p ?sc ?ow ?fi s] =>
    destruct (admission_held ev id p sc ow fi Hkey s Hs) as (tr & E & Htr & Hans);
    destruct (admit_or_retry env ev id p sc ow fi s) as [s1 [answer|e]] end; cbn in *; [|by exists tr].
  destruct (Hans answer eq_refl) as [[cmd Hc] Hcomplete].
  assert (Hone : ∀ tr', admission_answer (tr ++ tr') answer) by (intros tr'; exists cmd; apply elem_of_app; by left).
  assert (Hdec : (∃ x, admitted_as answer = Some x ∧ as_project x = pj) ∨ ∀ x, admitted_as answer = Some x → as_project x ≠ pj).
  { destruct (admitted_as answer) as [x|]; [|by right]. destruct (decide (as_project x = pj)); [left; eauto|right; congruence]. }
  destruct Hdec as [(x & Hx & Hpj)|Hno].
  - exists tr. specialize (Hcomplete x Hx Hpj).
    destruct answer; cbn in Hcomplete; try done; injection Hcomplete as ->; cbn;
      (split; [exact E|]; intros o [= <-]; by left).
  - match goal with |- context [settle_admission cfg env ev id ?p ?b actor answer s1] =>
      destruct (settle_any cfg env ev id p b actor answer s1) as (tr' & E' & _) end.
    exists (tr ++ tr'). rewrite E', E, app_assoc. split; [done|]. intros o _. right; right.
    exists answer. by split; [apply Hone|].
Qed.
End Replay.

(** ** Properties *)




(** A replay runs nothing: when an event is answered as a replay, all it did was its admission,
    which the store answered with a key that is already complete. *)
Theorem replay_runs_nothing cfg env ev actor level s s' :
  process_authorized cfg env ev actor level s = (s', Ok Replayed) →
  ∃ effects a answer, hd_trace s' = hd_trace s ++ effects ∧ Forall admission_effect effects
    ∧ admission_answer effects answer ∧ admitted_as answer = Some a
    ∧ answer ∈ [Observation a AlreadyComplete; EndOpen a AlreadyComplete; ReEnd a AlreadyComplete].
Proof.
  intros E.
  destruct (process_rule cfg env ev actor level (λ tr _ r, r = Ok Replayed →
      ∃ a answer, Forall admission_effect tr ∧ admission_answer tr answer ∧ admitted_as answer = Some a
        ∧ answer ∈ [Observation a AlreadyComplete; EndOpen a AlreadyComplete; ReEnd a AlreadyComplete]))
    with (s := s) as (tr & Htr & H); [done|done| |].
  - intros id pinned publishable answer tr _ Htr Hans.
    destruct answer; cbn [settle_admission];
      try (eapply emits_mono; [apply after_admission_replays|]; cbn; intros tr' d r H [-> ->]%H;
           rewrite app_nil_r; eexists session, _; split_and!; [done|exact Hans|done|set_solver]).
    + eapply emits_mono with (Φ := λ _ _ r, r ≠ Ok Replayed); [|by intros tr' d r Hr].
      unfold repair_ended.
      do 4 (apply emits_after with (P := λ _, True); [only_tac|intros ?|done|done]). apply emits_ret.
      intros _. by destruct (_ || _).
    + by apply emits_ret.
    + by apply emits_ret.
  - rewrite E in Htr, H. cbn in H. destruct (H eq_refl) as (a & answer & ?). by exists tr, a, answer.
Qed.

(** C9. Nothing happens before the author's access was decided: an event has no effect at all, or its
    first effect is its admission into a scope its author was found to have write access to. *)
Theorem first_effect_is_authorized cfg env ev actor level s :
  ∃ effects, hd_trace (fst (process_authorized cfg env ev actor level s)) = hd_trace s ++ effects
    ∧ (effects = []
       ∨ ∃ n scope, he_authorize env n scope = Ok true ∧ starts_with_admission scope effects).
Proof. destruct (process_authorizes cfg env ev actor level s) as (tr & E & H). by exists tr. Qed.


(** ** On concrete tables *)

Definition hook_env (resolve : nat → result HookScope HookError) (authorize : HookScope → bool) : HookEnv := {|
  he_page := cap_env;
  he_sha256_hex := cap_sha;
  he_order := cap_order;
  he_json_list := cap_json;
  he_to_string := λ _, [];
  he_from_native := λ s, N.of_nat (length s);
    he_parse_timestamp := λ _, None;
  he_scrub := id;
  he_sanitized := id;
  he_managed_run_id := λ _, false;
  he_native_identity := λ _, true;
  he_turns := λ _, [];
  he_jobs := λ _, id;
  he_pages := λ _, id;
  he_now := λ _, 1%Z;
  he_clock := Z.of_nat;
  he_id := N.of_nat;
  he_fresh_session := N.of_nat;
  he_faults := λ _, no_faults;
  he_channel := λ _, ChDelivered;
  he_fails := λ _, None;
  he_pinned := λ _, Ok None;
  he_lookup_workspace := λ _ _, None;
  he_resolve := resolve;
  he_authorize := λ _ sc, Ok (authorize sc);
  he_distinguishes := λ _, Ok false;
  he_link := λ _, Ok tt;
  he_by_agent := λ _, Ok false;
  he_digest := λ _, Ok (mkSessionDigest true (λ _, mkBatonText (lit "worked") [] []));
  he_write_page := λ n d, (Ok (N.of_nat n), d);
  he_commit := λ _, Ok true;
  he_webhooks := λ _, Ok false;
|}.

Definition hook_config : HookConfig :=
  mkHookConfig true true true false true false false None FollowCwd.

Definition hook_event (e : HookEvent) (key : option string) : HookEnvelope :=
  mkHookEnvelope e Codex (Some (lit "abc")) (Some (lit "/work/app")) None None Basename Unspecified false false false
    false None false None None (lit <$> key) None (Some (lit "text")) None None (JObject []).

Definition hook_start : HandlerState := mkHandler cap_start 0 [].

Definition hook_run (e : HookEvent) (key : string) (s : HandlerState)
    : HandlerState * result HookProcessingOutcome HookError :=
  process_authorized hook_config (hook_env (λ _, Ok (1%N, 11%N)) (λ _, true)) (hook_event e (Some key)) None
    LevelAnonymous s.

(** A prompt, and then the end of its session. *)
Definition hook_prompted : HandlerState := fst (hook_run EvUserPrompt "k1" hook_start).
Definition hook_ended : HandlerState := fst (hook_run EvSessionEnd "k2" hook_prompted).



(** The prompt once more. *)
Lemma replay_runs_nothing_witness :
  ∃ effects a answer, hd_trace (fst (hook_run EvUserPrompt "k1" hook_prompted)) = hd_trace hook_prompted ++ effects
    ∧ Forall admission_effect effects ∧ admission_answer effects answer ∧ admitted_as answer = Some a
    ∧ answer ∈ [Observation a AlreadyComplete; EndOpen a AlreadyComplete; ReEnd a AlreadyComplete].
Proof.
  apply (replay_runs_nothing hook_config (hook_env (λ _, Ok (1%N, 11%N)) (λ _, true))
    (hook_event EvUserPrompt (Some "k1"%string)) None LevelAnonymous hook_prompted). by vm_compute.
Defined.

(** The access of the scope resolved anew is not decided: the first scope is of a
    project that is gone, which reads as open; the second one is refused to the
    author, and stores the event. *)
Definition stale_env : HookEnv :=
  hook_env (λ n, if n <? 4 then Ok (1, 77)%N else Ok (1, 11)%N) (λ scope, bool_decide (scope = (1, 77)%N)).

Lemma retried_admission_is_not_authorized :
  let '(s, r) := process_authorized hook_config stale_env (hook_event EvUserPrompt None) None LevelAnonymous hook_start in
  r = Ok Stored ∧ (∀ n, he_authorize stale_env n (1, 11)%N = Ok false)
  ∧ (o_workspace <$> ig_observations (hd_db s)) = [1%N] ∧ (o_project <$> ig_observations (hd_db s)) = [11%N].
Proof. vm_compute. by split_and!. Qed.

