(* ===== verification/HookBatch.v ===== *)
(** * A batch of hook events

    Models [handle_hook_batch] of [crates/ai-memory-hooks/src/router.rs] and
    its acknowledgement: the drops that cost nothing, the shared capacity, the
    limit of every source, the processing of one item after the other, and
    the answer the relay's drain validates.

    An item is given as the envelope built of its query and body, with the
    assistant's message stripped, and the envelope the capture inspection
    leaves of it, if it leaves one, with its tool name and file path recorded.
    Before every item other requests may have changed the sets shared by all
    requests. *)

From S2P Require Export HookProcess HookContract.
From S2P Require RelayAck.
Open Scope nat_scope.
Open Scope rust_scope.

(** ** The source of an event *)

Definition ProjectStrategy_as_str (s : ProjectStrategy) : string :=
  match s with Basename => "basename" | RepoRootStrategy => "repo-root" end.

(** [{:?}]. *)
Definition HookEvent_debug (e : HookEvent) : string :=
  match e with
  | EvSessionStart => "SessionStart"
  | EvUserPrompt => "UserPrompt"
  | EvPreToolUse => "PreToolUse"
  | EvPostToolUse => "PostToolUse"
  | EvPreCompact => "PreCompact"
  | EvPostCompaction => "PostCompaction"
  | EvNotification => "Notification"
  | EvStop => "Stop"
  | EvSessionEnd => "SessionEnd"
  | EvSubagentStart => "SubagentStart"
  | EvSubagentStop => "SubagentStop"
  | EvOther => "Other"
  end.

Definition not_empty (s : option bytes) : option bytes :=
  match s with Some v => if bool_decide (v = []) then None else Some v | None => None end.

Definition ingest_rate_key (to_string : json → bytes) (ev : HookEnvelope) (actor_user : option bytes) : bytes :=
  let user := lit "u:" ++ default [] actor_user in
  match not_empty (hv_session_id ev) with
  | Some session_id => user ++ [newline] ++ lit "s:" ++ session_id
  | None =>
      user ++ [newline] ++ lit "missing:"
      ++ join (lit ":")
           [ lit (AgentKind_as_str (hv_agent ev)); lit (HookEvent_debug (hv_event ev)); default [] (hv_cwd ev);
             default [] (hv_workspace_override ev); default [] (hv_project_override ev);
             lit (ProjectStrategy_as_str (hv_project_strategy ev)); hex16 (fnv1a64 (to_string (hv_raw ev))) ]
  end.

(** ** The acknowledgement *)

Record HookBatchResult := mkBatchResult { br_index : nat; br_outcome : HookProcessingOutcome }.

Record HookBatchAck := mkHookBatchAck {
  ba_accepted : nat;
  ba_results : list HookBatchResult;
  ba_accepted_indices : option (list nat);
  ba_failed_index : option nat;
}.

Definition ack_with_results (results : list HookBatchResult) (a : HookBatchAck) : HookBatchAck :=
  mkHookBatchAck (ba_accepted a) results (ba_accepted_indices a) (ba_failed_index a).

Definition ack_prefix (accepted : nat) : HookBatchAck := mkHookBatchAck accepted [] None None.

(** The indexes with their positions. *)
Definition positions (indices : list nat) : list (nat * nat) := zip (seq 0 (length indices)) indices.

Definition ack_indexed_with_empty (indices : list nat) (include_empty : bool) (failed : option nat) : HookBatchAck :=
  let legacy_prefix := count_while (λ '(pos, idx), pos =? idx) (positions indices) in
  let contiguous := forallb (λ '(pos, idx), pos =? idx) (positions indices) in
  mkHookBatchAck legacy_prefix []
    (if contiguous && negb (include_empty && bool_decide (indices = [])) then None else Some indices) failed.

Definition ack_indexed (indices : list nat) : HookBatchAck := ack_indexed_with_empty indices false None.
Definition ack_indexed_full_scan (indices : list nat) : HookBatchAck := ack_indexed_with_empty indices true None.
Definition ack_indexed_failed (indices : list nat) (failed : nat) : HookBatchAck :=
  ack_indexed_with_empty indices true (Some failed).

(** As it is serialized. *)
Definition outcome_name (o : HookProcessingOutcome) : string :=
  match o with
  | Stored => "stored"
  | Replayed => "replayed"
  | Resumed => "resumed"
  | IgnoredEnd => "ignored_end"
  | DroppedPolicy => "dropped_policy"
  | DroppedSubagent => "dropped_subagent"
  | DroppedUnauthorized => "dropped_unauthorized"
  | DroppedCollision => "dropped_collision"
  | DroppedInvalid => "dropped_invalid"
  end.

Definition wire_ack (a : HookBatchAck) : RelayAck.BatchAck :=
  RelayAck.mkBatchAck (ba_accepted a) (ba_accepted_indices a) (ba_failed_index a)
    (Some ((λ r, RelayAck.mkEventResult (br_index r) (outcome_name (br_outcome r))) <$> ba_results a)).

(** ** The server *)

Record BatchItem := mkBatchItem {
  bi_envelope : HookEnvelope;
  bi_inspected : option HookEnvelope;
}.

Record BatchState := mkBatchState {
  bs_handler : HandlerState;
  bs_subagents : SubagentSessionSet;
  bs_limiter : IngestRateLimiter;
}.

Record BatchEnv := mkBatchEnv {
  be_hook : HookEnv;
  be_drop_list : IngestDropList;
  (** At an item of the batch. *)
  be_subagents : nat → SubagentSessionSet → SubagentSessionSet;
  be_limiter : nat → IngestRateLimiter → IngestRateLimiter;
  be_permit : nat → bool;
  be_instant : nat → Z;
}.

Definition MAX_HOOK_BATCH_ITEMS : nat := N.to_nat 256.

Inductive StatusCode := StatusOk | StatusAccepted | PayloadTooLarge | TooManyRequests.

(** What becomes of an item. *)
Inductive ItemVerdict :=
  | Acknowledged (outcome : HookProcessingOutcome)
  | RateLimited
  | Saturated
  | FailedItem.

Section Batch.
Context (cfg : HookConfig) (env : BatchEnv).
Context (actor : option IdentityKey) (level : AuthLevel).
Notation hook := (be_hook env).

Definition named_session (ev : HookEnvelope) (h : HandlerState) : result SessionId string :=
  resolve_session_id (he_from_native hook) (he_fresh_session hook (hd_calls h)) ev.

(** Whether the event is a subagent's nobody wants; its scope is resolved only
    when that was asked for. *)
Definition drops_subagent (ev : HookEnvelope) (s : BatchState) : bool * BatchState :=
  let session := named_session ev (bs_handler s) in
  if hv_drop_subagent_requested ev && is_ok session then
    let '(h, scope) := asking hook (he_resolve hook) (bs_handler s) in
    let '(dropped, subagents) :=
      should_drop_subagent session (match scope with Ok sc => Some sc | Err _ => None end) ev (bs_subagents s) in
    (dropped, mkBatchState h subagents (bs_limiter s))
  else (false, s).

(** The drops before capacity, in their order. *)
Definition dropped_early (ev : HookEnvelope) (s : BatchState) : option HookProcessingOutcome * BatchState :=
  if is_cursor_draft_placeholder ev then (Some DroppedInvalid, s)
  else
    let '(subagent, s) := drops_subagent ev s in
    if subagent then (Some DroppedSubagent, s)
    else if is_harness_self_maintenance (he_to_string hook) ev then (Some DroppedPolicy, s)
    else if drop_list_matches (be_drop_list env) ev || matches_event_kind (be_drop_list env) ev
    then (Some DroppedPolicy, s)
    else if negb (is_ok (named_session ev (bs_handler s))) then (Some DroppedInvalid, s)
    else (None, s).

Definition process_item (idx : nat) (ev : HookEnvelope) (s : BatchState) : ItemVerdict * BatchState :=
  if negb (be_permit env idx) then (Saturated, s)
  else
    let '(taken, limiter) :=
      try_take (ingest_rate_key (he_to_string hook) ev (storage_key <$> actor)) (be_instant env idx) (bs_limiter s) in
    let s := mkBatchState (bs_handler s) (bs_subagents s) limiter in
    if negb taken then (RateLimited, s)
    else
      let '(h, outcome) := process_envelope cfg hook ev actor level (bs_handler s) in
      (match outcome with Some o => Acknowledged o | None => FailedItem end,
       mkBatchState h (bs_subagents s) limiter).

Definition handle_item (idx : nat) (item : BatchItem) (s : BatchState) : ItemVerdict * BatchState :=
  let s := mkBatchState (bs_handler s) (be_subagents env idx (bs_subagents s)) (be_limiter env idx (bs_limiter s)) in
  if hv_aliases_invalid (bi_envelope item) then (Acknowledged DroppedInvalid, s)
  else match bi_inspected item with
       | None => (Acknowledged DroppedPolicy, s)
       | Some ev =>
           let '(dropped, s) := dropped_early ev s in
           match dropped with
           | Some o => (Acknowledged o, s)
           | None => process_item idx ev s
           end
       end.

Fixpoint scan_items (idx : nat) (items : list BatchItem) (accepted : list nat) (results : list HookBatchResult)
    (s : BatchState) : StatusCode * HookBatchAck * BatchState :=
  match items with
  | [] => (StatusOk, ack_with_results results (ack_indexed_full_scan accepted), s)
  | item :: items =>
      let '(verdict, s) := handle_item idx item s in
      match verdict with
      | Acknowledged o => scan_items (S idx) items (accepted ++ [idx]) (results ++ [mkBatchResult idx o]) s
      | RateLimited => scan_items (S idx) items accepted results s
      | Saturated => (TooManyRequests, ack_with_results results (ack_indexed accepted), s)
      | FailedItem => (StatusOk, ack_with_results results (ack_indexed_failed accepted idx), s)
      end
  end.

Definition handle_hook_batch (items : list BatchItem) (s : BatchState) : StatusCode * HookBatchAck * BatchState :=
  if MAX_HOOK_BATCH_ITEMS <? length items then (PayloadTooLarge, ack_prefix 0, s)
  else scan_items 0 items [] [] s.

End Batch.

(** ** A single event

    [admit_hook] of [POST /hook]: the answer, and the event that is processed
    after it. *)

Section Single.
Context (cfg : HookConfig) (env : BatchEnv).
Context (actor : option IdentityKey) (level : AuthLevel).
Notation hook := (be_hook env).

Definition hook_answer : Type := StatusCode * string.

Definition admit_envelope (ev : HookEnvelope) (s : BatchState)
    : hook_answer * option HookEnvelope * BatchState :=
  if is_cursor_draft_placeholder ev then ((StatusAccepted, "cursor draft placeholder dropped"%string), None, s)
  else
    let '(subagent, s) := drops_subagent env ev s in
    if subagent then ((StatusAccepted, "subagent capture dropped"%string), None, s)
    else if drop_list_matches (be_drop_list env) ev || matches_event_kind (be_drop_list env) ev
    then ((StatusAccepted, "ingest drop list"%string), None, s)
    else if is_harness_self_maintenance (he_to_string hook) ev
    then ((StatusAccepted, "harness self-maintenance session dropped"%string), None, s)
    else if negb (be_permit env 0) then ((TooManyRequests, "hook queue full"%string), None, s)
    else
      let '(taken, limiter) :=
        try_take (ingest_rate_key (he_to_string hook) ev (storage_key <$> actor)) (be_instant env 0) (bs_limiter s) in
      let s := mkBatchState (bs_handler s) (bs_subagents s) limiter in
      if negb taken then ((TooManyRequests, "hook source rate limited"%string), None, s)
      else ((StatusAccepted, "queued"%string), Some ev, s).

Definition admit_hook (item : BatchItem) (s : BatchState) : hook_answer * option HookEnvelope * BatchState :=
  let s := mkBatchState (bs_handler s) (be_subagents env 0 (bs_subagents s)) (be_limiter env 0 (bs_limiter s)) in
  if hv_aliases_invalid (bi_envelope item) then ((StatusAccepted, "invalid marker aliases"%string), None, s)
  else match bi_inspected item with
       | None => ((StatusAccepted, "capture policy dropped"%string), None, s)
       | Some ev => admit_envelope ev s
       end.

(** The event and its processing. *)
Definition handle_hook (item : BatchItem) (s : BatchState)
    : hook_answer * option (option HookProcessingOutcome) * BatchState :=
  let '(answer, spawned, s) := admit_hook item s in
  match spawned with
  | Some ev =>
      let '(h, outcome) := process_envelope cfg hook ev actor level (bs_handler s) in
      (answer, Some outcome, mkBatchState h (bs_subagents s) (bs_limiter s))
  | None => (answer, None, s)
  end.

End Single.

(** ** The bounded sets *)

(** A set and its members from the oldest on, within the bound. *)
Definition in_order {K} `{Countable K} (ids : gset K) (order : list K) : Prop :=
  NoDup order ∧ ids = list_to_set order.

Definition subagents_ok (s : SubagentSessionSet) : Prop :=
  in_order (sa_ids s) (sa_order s) ∧ size (sa_ids s) ≤ sa_max s.

Definition limiter_ok (l : IngestRateLimiter) : Prop :=
  in_order (dom (rl_buckets l)) (rl_order l) ∧ size (rl_buckets l) ≤ rl_max_keys l
  ∧ Forall (λ key, length key ≤ INGEST_RATE_MAX_KEY_BYTES) (rl_order l).

Section Eviction.
Context {K : Type} `{Countable K}.
Implicit Types (ids : gset K) (order : list K).

Lemma evict_oldest_spec max ids order :
  in_order ids order →
  let '(ids', order') := evict_oldest max ids order in
  in_order ids' order' ∧ size ids' ≤ max ∧ order' `suffix_of` order.
Proof.
  revert ids. induction order as [|k order IH]; intros ids [Hnd ->]; cbn [evict_oldest].
  - cbn. rewrite size_empty. cbn. split; [by split|]. split; [rewrite size_empty; lia|done].
  - destruct (size _ <=? max) eqn:E; [apply Nat.leb_le in E; split; [by split|]; by split|].
    apply NoDup_cons in Hnd as [Hk Hnd]. specialize (IH (list_to_set (k :: order) ∖ {[k]})).
    destruct (evict_oldest max _ order) as [ids' order'].
    destruct IH as (Ho & Hs & Hsuf).
    { split; [done|]. apply set_eq. intros x. rewrite elem_of_difference, !elem_of_list_to_set, elem_of_cons, elem_of_singleton.
      split; [naive_solver|]. intros Hx. split; [by right|]. by intros ->. }
    split; [done|]. split; [done|]. by apply suffix_cons_r.
Qed.

Lemma in_order_snoc ids order k : in_order ids order → k ∉ ids → in_order ({[k]} ∪ ids) (order ++ [k]).
Proof.
  intros [Hnd ->] Hk. rewrite elem_of_list_to_set in Hk. split; [|set_solver].
  apply NoDup_app. split; [done|]. split; [set_solver|]. apply NoDup_singleton.
Qed.

Lemma retain_others_in k order x : x ∈ retain_others k order ↔ x ∈ order ∧ x ≠ k.
Proof.
  unfold retain_others. rewrite !list_elem_of_In, filter_In, negb_true_iff, bool_decide_eq_false. done.
Qed.

Lemma retain_others_NoDup k order : NoDup order → NoDup (retain_others k order).
Proof.
  induction 1 as [|x l Hx Hl IH]; [constructor|]. cbn. destruct (negb _); [|done].
  constructor; [|done]. intros [Hin _]%(retain_others_in k l). done.
Qed.

Lemma in_order_remove ids order k : in_order ids order → in_order (ids ∖ {[k]}) (retain_others k order).
Proof.
  intros [Hnd ->]. split; [by apply retain_others_NoDup|]. apply set_eq. intros x.
  rewrite elem_of_difference, !elem_of_list_to_set, retain_others_in, elem_of_singleton. done.
Qed.

Lemma in_order_renew ids order k : in_order ids order → k ∈ ids → in_order ids (retain_others k order ++ [k]).
Proof.
  intros Ho Hk. pose proof (in_order_snoc _ _ k (in_order_remove _ _ k Ho)) as [Hnd Heq]; [set_solver|].
  split; [done|]. rewrite <- Heq. apply set_eq. intros x. destruct (decide (x = k)); set_solver.
Qed.
End Eviction.

Lemma subagent_insert_ok key s : subagents_ok s → subagents_ok (subagent_insert key s).
Proof.
  intros [Ho Hs]. unfold subagent_insert. destruct (bool_decide _) eqn:E.
  - apply bool_decide_eq_true in E. split; cbn; [by apply in_order_renew|done].
  - apply bool_decide_eq_false in E. pose proof (evict_oldest_spec (sa_max s) _ _ (in_order_snoc _ _ key Ho E)) as H.
    destruct (evict_oldest _ _ _) as [ids order]. by destruct H as (? & ? & _).
Qed.

Lemma subagent_remove_ok key s : subagents_ok s → subagents_ok (subagent_remove key s).
Proof.
  intros [Ho Hs]. unfold subagent_remove. destruct (bool_decide _); [|done]. split; cbn; [by apply in_order_remove|].
  etrans; [|exact Hs]. apply subseteq_size. set_solver.
Qed.

Lemma should_drop_subagent_ok session scope ev s :
  subagents_ok s → subagents_ok (snd (should_drop_subagent session scope ev s)).
Proof.
  intros Hs. unfold should_drop_subagent. repeat case_match; cbn; auto using subagent_insert_ok, subagent_remove_ok.
Qed.

Lemma evict_buckets_dom (max : nat) (b : gmap bytes TokenBucket) (order : list bytes) :
  let '(b', order') := evict_buckets max b order in evict_oldest max (dom b) order = (dom b', order').
Proof.
  revert b. induction order as [|k order IH]; intros b; cbn [evict_buckets evict_oldest]; rewrite size_dom;
    destruct (size b <=? max); try done.
  specialize (IH (delete k b)). rewrite dom_delete_L in IH. exact IH.
Qed.

Lemma bounded_rate_key_length raw : length (bounded_rate_key raw) ≤ INGEST_RATE_MAX_KEY_BYTES.
Proof.
  unfold bounded_rate_key. destruct (_ <=? _) eqn:E; [by apply Nat.leb_le in E|].
  rewrite length_app. unfold hex16. rewrite length_fmap, length_seq. vm_compute. lia.
Qed.

Lemma with_bucket_ok raw now l : limiter_ok l → limiter_ok (with_bucket (bounded_rate_key raw) now l).
Proof.
  intros (Ho & Hs & Hk). unfold with_bucket. destruct (rl_buckets l !! _) eqn:E; [by split_and!|].
  pose proof (evict_buckets_dom (rl_max_keys l) (<[bounded_rate_key raw := mkBucket (rl_burst l) now]> (rl_buckets l))
    (rl_order l ++ [bounded_rate_key raw])) as Hd.
  destruct (evict_buckets _ _ _) as [b order]. rewrite dom_insert_L in Hd.
  pose proof (evict_oldest_spec (rl_max_keys l) _ _
    (in_order_snoc _ _ (bounded_rate_key raw) Ho (proj2 (not_elem_of_dom _ _) E))) as H.
  rewrite Hd in H. destruct H as (Ho' & Hs' & [pre Hsuf]). split; [done|]. split; [by rewrite <- size_dom|].
  cbn. assert (Forall (λ key, length key ≤ INGEST_RATE_MAX_KEY_BYTES) (rl_order l ++ [bounded_rate_key raw])) as Hall.
  { apply Forall_app. split; [done|]. apply Forall_singleton, bounded_rate_key_length. }
  rewrite Hsuf in Hall. by apply Forall_app in Hall as [_ ?].
Qed.

Lemma try_take_ok raw now l : limiter_ok l → limiter_ok (snd (try_take raw now l)).
Proof.
  intros Hl. unfold try_take. case_match; [done|]. cbv zeta. apply (with_bucket_ok raw now) in Hl.
  destruct (rl_buckets (with_bucket _ _ _) !! _) as [b|] eqn:E; cbn [snd]; [|done].
  destruct Hl as ([Hnd Ho] & Hs & Hk). split_and!; cbn; [split; [done|]| |done].
  - rewrite dom_insert_lookup_L; [done|]. by eexists.
  - rewrite map_size_insert_Some; [done|]. by eexists.
Qed.

(** ** What a batch answers *)

Section Answer.
Context (cfg : HookConfig) (env : BatchEnv).
Context (actor : option IdentityKey) (level : AuthLevel).
Notation handle_item := (handle_item cfg env actor level).
Notation scan_items := (scan_items cfg env actor level).
Notation handle_hook_batch := (handle_hook_batch cfg env actor level).

(** The verdicts of a scan, up to the one that stops it. *)
Fixpoint verdicts (idx : nat) (items : list BatchItem) (s : BatchState) : list ItemVerdict :=
  match items with
  | [] => []
  | item :: items =>
      let '(verdict, s) := handle_item idx item s in
      verdict :: match verdict with
                 | Acknowledged _ | RateLimited => verdicts (S idx) items s
                 | Saturated | FailedItem => []
                 end
  end.

(** The acknowledged items among the verdicts from [idx] on. *)
Fixpoint reports (idx : nat) (vs : list ItemVerdict) : list HookBatchResult :=
  match vs with
  | [] => []
  | Acknowledged o :: vs => mkBatchResult idx o :: reports (S idx) vs
  | _ :: vs => reports (S idx) vs
  end.

(** How the scan stops: the status, the failed item and whether an empty list
    of indexes is sent. *)
Fixpoint stop_of (idx : nat) (vs : list ItemVerdict) : StatusCode * option nat * bool :=
  match vs with
  | [] => (StatusOk, None, true)
  | Saturated :: _ => (TooManyRequests, None, false)
  | FailedItem :: _ => (StatusOk, Some idx, true)
  | _ :: vs => stop_of (S idx) vs
  end.

(** The answer is a function of the verdicts. *)
Definition answer_of (idx : nat) (vs : list ItemVerdict) (results : list HookBatchResult) : StatusCode * HookBatchAck :=
  let all := results ++ reports idx vs in
  let '(status, failed, full) := stop_of idx vs in
  (status, ack_with_results all (ack_indexed_with_empty (br_index <$> all) full failed)).

Lemma scan_items_answer idx items results s :
  fst (scan_items idx items (br_index <$> results) results s) = answer_of idx (verdicts idx items s) results.
Proof.
  revert idx results s. induction items as [|item items IH]; intros idx results s; cbn.
  { unfold answer_of. cbn. by rewrite app_nil_r. }
  destruct (handle_item idx item s) as [[o| | |] s'] eqn:E; cbn.
  - change ((br_index <$> results) ++ [idx]) with ((br_index <$> results) ++ (br_index <$> [mkBatchResult idx o])).
    rewrite <- fmap_app, IH. unfold answer_of. cbn [reports stop_of]. by rewrite <- app_assoc.
  - by rewrite IH.
  - unfold answer_of. cbn. by rewrite app_nil_r.
  - unfold answer_of. cbn. by rewrite app_nil_r.
Qed.

Lemma reports_indexes idx vs :
  ascending (br_index <$> reports idx vs)
  ∧ Forall (λ i, idx ≤ i < idx + length vs) (br_index <$> reports idx vs).
Proof.
  revert idx. induction vs as [|v vs IH]; intros idx; [by split; constructor|].
  destruct (IH (S idx)) as [Ha Hb].
  assert (Forall (λ i, idx ≤ i < idx + S (length vs)) (br_index <$> reports (S idx) vs)) as Hb'
    by (eapply Forall_impl; [exact Hb|]; cbn; lia).
  destruct v; cbn; try by split. split.
  - constructor; [|done]. eapply Forall_impl; [exact Hb|]. cbn. lia.
  - constructor; [lia|done].
Qed.

(** Only the last verdict stops the scan. *)
Definition stopping (v : ItemVerdict) : bool :=
  match v with Saturated | FailedItem => true | Acknowledged _ | RateLimited => false end.

Definition stops_last (vs : list ItemVerdict) : Prop :=
  ∀ i v, vs !! i = Some v → stopping v = true → length vs = S i.

Lemma verdicts_stop idx items s :
  stops_last (verdicts idx items s) ∧ length (verdicts idx items s) ≤ length items
  ∧ (length (verdicts idx items s) < length items → ∃ v, last (verdicts idx items s) = Some v ∧ stopping v = true).
Proof.
  revert idx s. induction items as [|item items IH]; intros idx s; [by split_and!; [|cbn; lia|cbn; lia]|].
  cbn. destruct (handle_item idx item s) as [v s'].
  destruct v as [o| | |].
  1, 2: destruct (IH (S idx) s') as (Hs & Hl & Hv); split;
    [intros [|i] v'; cbn; [by intros [= <-]|]; intros H1 H2; f_equal; by eapply Hs|];
    split; [cbn; lia|]; cbn; intros H; destruct Hv as (v' & Hv & ?); [lia|];
    exists v'; split; [|done]; by destruct (verdicts (S idx) items s').
  all: split; [intros [|i] v'; cbn; [by intros|done]|]; split; [cbn; lia|]; intros _; by eexists.
Qed.

Lemma stops_tail v vs : stops_last (v :: vs) → stops_last vs ∧ (stopping v = true → vs = []).
Proof.
  intros H. split.
  - intros i v' Hi Hv. specialize (H (S i) v' Hi Hv). cbn in H. lia.
  - intros Hv. specialize (H 0 v eq_refl Hv). by destruct vs.
Qed.

Lemma stop_failed idx vs status failed full :
  stops_last vs → stop_of idx vs = (status, failed, full) →
  match failed with
  | Some f => idx ≤ f < idx + length vs ∧ Forall (λ i, i < f) (br_index <$> reports idx vs)
              ∧ vs !! (f - idx) = Some FailedItem
  | None => FailedItem ∉ vs
  end.
Proof.
  revert idx. induction vs as [|v vs IH]; intros idx Hstop; cbn; [intros [= <- <- <-]; apply not_elem_of_nil|].
  apply stops_tail in Hstop as [Hstop Hnil].
  destruct v as [o| | |].
  1, 2: intros H; specialize (IH _ Hstop H); destruct failed as [f|]; [|rewrite not_elem_of_cons; by split];
    destruct IH as (Hf & Hb & Hv); split; [lia|]; split; [cbn; try (constructor; [lia|]); exact Hb|];
    replace (f - idx) with (S (f - S idx)) by lia; exact Hv.
  all: rewrite Hnil by done; intros [= <- <- <-].
  - rewrite not_elem_of_cons. split; [done|apply not_elem_of_nil].
  - cbn. split; [lia|]. split; [constructor|]. by rewrite Nat.sub_diag.
Qed.

Lemma contiguous_seq base l :
  forallb (λ '(pos, idx), pos =? idx) (zip (seq base (length l)) l) = true →
  l = seq base (count_while (λ '(pos, idx), pos =? idx) (zip (seq base (length l)) l)).
Proof.
  revert base. induction l as [|x l IH]; intros base; [done|]. cbn.
  destruct (base =? x) eqn:E; [|done]. apply Nat.eqb_eq in E as ->. intros H. cbn. f_equal. by apply IH.
Qed.

Lemma answer_well_formed n results full failed ack :
  ack = ack_with_results results (ack_indexed_with_empty (br_index <$> results) full failed) →
  ascending (br_index <$> results) → Forall (λ i, i < n) (br_index <$> results) →
  (∀ f, failed = Some f → f < n ∧ Forall (λ i, i < f) (br_index <$> results)) →
  RelayAck.well_formed_ack n (wire_ack ack) (br_index <$> results).
Proof.
  intros -> Ha Hn Hf.
  pose proof (proj1 (RelayAck.contiguous_prefix_spec _ _ Ha) eq_refl) as [Hp Hend].
  split; cbn; [|exact Ha|exact Hn|exact Hp|exact Hend|exact Hf|].
  - destruct (_ && _) eqn:E; [|done]. apply andb_true_iff in E as [E _]. by apply contiguous_seq.
  - intros rs [= <-]. rewrite <- list_fmap_compose. by apply list_fmap_ext.
Qed.

Lemma reports_lookup idx vs r :
  r ∈ reports idx vs ↔ idx ≤ br_index r ∧ vs !! (br_index r - idx) = Some (Acknowledged (br_outcome r)).
Proof.
  revert idx. induction vs as [|v vs IH]; intros idx.
  { cbn. split; [by intros ?%not_elem_of_nil|by intros [_ ?]]. }
  assert (Hrest : r ∈ reports (S idx) vs ↔ S idx ≤ br_index r ∧ (v :: vs) !! (br_index r - idx) = Some (Acknowledged (br_outcome r))).
  { rewrite IH. split; intros [Hle Hv]; (split; [done|]).
    - by replace (br_index r - idx) with (S (br_index r - S idx)) by lia.
    - by replace (br_index r - idx) with (S (br_index r - S idx)) in Hv by lia. }
  destruct (decide (br_index r = idx)) as [Heq|Hne].
  - assert (Hno : r ∉ reports (S idx) vs) by (rewrite Hrest; lia). rewrite Heq, Nat.sub_diag. cbn.
    destruct v as [o| | |]; cbn; try (by split; [intros ?|intros [_ ?]]).
    rewrite elem_of_cons. split.
    + intros [->|?]; [by split|done].
    + intros [_ [= ->]]. left. destruct r. cbn in *. by subst.
  - assert (Hiff : (S idx ≤ br_index r ↔ idx ≤ br_index r)) by lia. rewrite Hiff in Hrest. rewrite <- Hrest.
    destruct v; cbn; try done. rewrite elem_of_cons. split; [intros [->|?]; [done|done]|by right].
Qed.

Lemma stop_saturated idx vs status failed full :
  stops_last vs → stop_of idx vs = (status, failed, full) →
  (status = TooManyRequests ↔ Saturated ∈ vs) ∧ (status = StatusOk ∨ status = TooManyRequests).
Proof.
  revert idx. induction vs as [|v vs IH]; intros idx Hstop; cbn.
  { intros [= <- <- <-]. split; [|by left]. split; [done|by intros ?%not_elem_of_nil]. }
  apply stops_tail in Hstop as [Hstop Hnil]. rewrite elem_of_cons.
  destruct v as [o| | |]; [intros H; specialize (IH _ Hstop H); naive_solver..| |];
    rewrite Hnil by done; intros [= <- <- <-]; (split; [|naive_solver]).
  - split; [by left|done].
  - split; [done|]. by intros [?|?%not_elem_of_nil].
Qed.

(** What a batch within the bound answers. *)
Lemma batch_answer items s :
  length items ≤ MAX_HOOK_BATCH_ITEMS →
  fst (handle_hook_batch items s) = answer_of 0 (verdicts 0 items s) [].
Proof.
  intros Hle. unfold handle_hook_batch. rewrite (proj2 (Nat.ltb_ge _ _)) by done. apply (scan_items_answer 0 items []).
Qed.

End Answer.

(** C11. Every answer to a batch passes the validation of the drain that sent it: the relay
    accepts it as it is serialized, whatever the status, releases exactly the items the server
    reports an outcome for, and reads every outcome back under its own name. *)
Theorem batch_ack_passes_relay cfg env actor level items s :
  let ack := snd (fst (handle_hook_batch cfg env actor level items s)) in
  RelayAck.validate (length items) (wire_ack ack) = Ok (br_index <$> ba_results ack)
  ∧ ∀ r, r ∈ ba_results ack →
      RelayAck.acknowledged_outcome (wire_ack ack) (br_index r) = outcome_name (br_outcome r).
Proof.
  cbn zeta.
  assert (Hwf : let ack := snd (fst (handle_hook_batch cfg env actor level items s)) in
    RelayAck.well_formed_ack (length items) (wire_ack ack) (br_index <$> ba_results ack)).
  { destruct (decide (length items ≤ MAX_HOOK_BATCH_ITEMS)) as [Hle|Hgt].
    - rewrite batch_answer by done. destruct (verdicts_stop cfg env actor level 0 items s) as (Hstop & Hlen & _).
      destruct (reports_indexes 0 (verdicts cfg env actor level 0 items s)) as [Ha Hb].
      unfold answer_of. destruct (stop_of _ _) as [[status failed] full] eqn:Es.
      pose proof (stop_failed _ _ _ _ _ Hstop Es) as Hf. cbn.
      eapply answer_well_formed; [done|exact Ha| |].
      + eapply Forall_impl; [exact Hb|]. cbn. lia.
      + intros f ->. destruct Hf as (Hf & Hbelow & _). split; [lia|exact Hbelow].
    - unfold handle_hook_batch. rewrite (proj2 (Nat.ltb_lt _ _)) by lia. cbn.
      apply (answer_well_formed (length items) [] false None); [done|constructor|constructor|done]. }
  cbn zeta in Hwf. split; [by apply RelayAck.well_formed_validates|]. intros r Hr.
  pose proof (ascending_NoDup _ (RelayAck.wf_ascending _ _ _ Hwf)) as Hnd.
  unfold RelayAck.acknowledged_outcome. cbn. rewrite list_find_fmap.
  destruct (list_find _ _) as [[i r']|] eqn:E; cbn.
  - apply list_find_Some in E as (Hi & Hidx & _). cbn in Hidx.
    apply list_elem_of_lookup in Hr as [k Hk].
    assert (i = k) as -> by (eapply NoDup_lookup; [exact Hnd|by rewrite list_lookup_fmap, Hi|by rewrite list_lookup_fmap, Hk, Hidx]).
    assert (r' = r) as -> by congruence. by destruct (br_outcome r).
  - apply list_find_None_Forall in E. rewrite Forall_forall in E. by destruct (E r Hr).
Qed.

(** A batch is scanned to its end or to the item that stops it, and its answer tells all of it:
    an item has a reported outcome exactly when it reached one, the failed index is the item
    whose processing failed, the status is 429 exactly when capacity ran out, and an item that is
    neither reported nor behind the stop was refused by its source's limit. *)
Theorem batch_ack_reports_verdicts cfg env actor level items s :
  length items ≤ MAX_HOOK_BATCH_ITEMS →
  let vs := verdicts cfg env actor level 0 items s in
  let '(status, ack) := fst (handle_hook_batch cfg env actor level items s) in
  (∀ i o, mkBatchResult i o ∈ ba_results ack ↔ vs !! i = Some (Acknowledged o))
  ∧ (∀ i, ba_failed_index ack = Some i ↔ vs !! i = Some FailedItem)
  ∧ (status = TooManyRequests ↔ Saturated ∈ vs)
  ∧ (Forall (λ v, stopping v = false) vs → length vs = length items).
Proof.
  intros Hle. rewrite batch_answer by done. destruct (verdicts_stop cfg env actor level 0 items s) as (Hstop & Hlen & Hlast).
  cbn zeta. set (vs := verdicts _ _ _ _ _ _ _) in *. unfold answer_of.
  destruct (stop_of 0 vs) as [[status failed] full] eqn:Es.
  pose proof (stop_failed _ _ _ _ _ Hstop Es) as Hf. destruct (stop_saturated _ _ _ _ _ Hstop Es) as [Hs _].
  split_and!; [| |exact Hs|].
  - intros i o. cbn. rewrite reports_lookup. cbn. rewrite Nat.sub_0_r. naive_solver lia.
  - intros i. cbn. destruct failed as [f|].
    + destruct Hf as (Hf & _ & Hv). rewrite Nat.sub_0_r in Hv. split; [by intros [= <-]|]. intros Hi. f_equal.
      pose proof (Hstop _ _ Hi eq_refl). pose proof (Hstop _ _ Hv eq_refl). lia.
    + split; [done|]. intros Hi%list_elem_of_lookup_2. done.
  - intros Hgo. destruct (decide (length vs < length items)) as [Hlt|]; [|lia].
    destruct (Hlast Hlt) as (v & Hv & Hst). apply last_Some in Hv as [l' ->].
    apply Forall_app in Hgo as [_ Hgo]. apply Forall_inv in Hgo. cbn beta in Hgo. congruence.
Qed.

(** The answer of a batch's item, read off the answer of the same event sent alone. *)
Definition same_fate (v : ItemVerdict) (answer : hook_answer) (processed : option (option HookProcessingOutcome)) : Prop :=
  match v with
  | Saturated => answer = (TooManyRequests, "hook queue full"%string) ∧ processed = None
  | RateLimited => answer = (TooManyRequests, "hook source rate limited"%string) ∧ processed = None
  | FailedItem => fst answer = StatusAccepted ∧ processed = Some None
  | Acknowledged o => fst answer = StatusAccepted
      ∧ (processed = Some (Some o) ∨ processed = None ∧ o ∈ [DroppedPolicy; DroppedSubagent; DroppedInvalid])
  end.

(** C21. An event is treated the same whether it is sent alone or in a batch of its own: it is refused
    for the same reason, dropped without cost by the same rules, or processed to the same outcome,
    with the same tables, sets and limits left; only an event that names no session and starts
    none is kept from the capacity by a batch alone. *)
Theorem single_event_matches_batch cfg env actor level item s :
  (∀ ev, bi_inspected item = Some ev → hv_session_id ev ≠ None ∨ hv_event ev = EvSessionStart) →
  let '(v, s1) := handle_item cfg env actor level 0 item s in
  let '(answer, processed, s2) := handle_hook cfg env actor level item s in
  same_fate v answer processed ∧ s1 = s2.
Proof.
  intros Hnamed. unfold handle_item, handle_hook, admit_hook. set (s0 := mkBatchState _ _ _). clearbody s0.
  destruct (hv_aliases_invalid _); [by split; [split; [done|right; split; [done|set_solver]]|]|].
  destruct (bi_inspected item) as [ev|]; [|by split; [split; [done|right; split; [done|set_solver]]|]].
  assert (Hok : ∀ h, is_ok (named_session env ev h) = true).
  { intros h. unfold named_session, resolve_session_id. destruct (Hnamed ev eq_refl) as [Hs| ->];
      destruct (hv_session_id ev); done. }
  unfold dropped_early, admit_envelope.
  destruct (is_cursor_draft_placeholder ev); [by split; [split; [done|right; split; [done|set_solver]]|]|].
  destruct (drops_subagent env ev s0) as [[] s3]; [by split; [split; [done|right; split; [done|set_solver]]|]|].
  destruct (_ || _); destruct (is_harness_self_maintenance _ _);
    try by split; [split; [done|right; split; [done|set_solver]]|].
  rewrite Hok. cbn [negb]. unfold process_item. destruct (be_permit env 0); cbn [negb]; [|done].
  destruct (try_take _ _ _) as [[] limiter]; cbn [negb bs_handler bs_subagents bs_limiter]; [|done].
  destruct (process_envelope _ _ _ _ _ _) as [h [o|]]; cbn; [|done]. split; [|done]. split; [done|by left].
Qed.

Definition shared_ok (s : BatchState) : Prop := subagents_ok (bs_subagents s) ∧ limiter_ok (bs_limiter s).

Lemma handle_item_ok cfg env actor level idx item s :
  (∀ x, subagents_ok x → subagents_ok (be_subagents env idx x)) →
  (∀ x, limiter_ok x → limiter_ok (be_limiter env idx x)) →
  shared_ok s → shared_ok (snd (handle_item cfg env actor level idx item s)).
Proof.
  intros Hsub Hlim [Hs Hl]. unfold handle_item. set (s1 := mkBatchState _ _ _).
  assert (shared_ok s1) as H1 by (by split; [apply Hsub|apply Hlim]). clearbody s1. clear s Hs Hl.
  destruct (hv_aliases_invalid _); [done|]. destruct (bi_inspected item) as [ev|]; [|done].
  assert (H2 : shared_ok (snd (dropped_early env ev s1))).
  { unfold dropped_early. destruct (is_cursor_draft_placeholder ev); [done|].
    assert (H3 : shared_ok (snd (drops_subagent env ev s1))).
    { unfold drops_subagent. destruct (_ && _); [|done]. destruct (asking _ _ _) as [h scope].
      pose proof (should_drop_subagent_ok (named_session env ev (bs_handler s1))
        (match scope with Ok sc => Some sc | Err _ => None end) ev _ (proj1 H1)) as Hd.
      destruct (should_drop_subagent _ _ _ _) as [dropped subagents]. split; [exact Hd|exact (proj2 H1)]. }
    destruct (drops_subagent env ev s1) as [[] s2]; [done|]. repeat case_match; done. }
  destruct (dropped_early env ev s1) as [[o|] s2]; [done|]. unfold process_item.
  destruct (negb _); [done|].
  pose proof (try_take_ok (ingest_rate_key (he_to_string (be_hook env)) ev (storage_key <$> actor))
    (be_instant env idx) _ (proj2 H2)) as Ht.
  destruct (try_take _ _ _) as [taken limiter]. destruct (negb taken); [by split; [apply H2|]|].
  destruct (process_envelope _ _ _ _ _ _) as [h outcome]. split; [apply H2|exact Ht].
Qed.

(** C28. The memory every request shares stays bounded: a batch leaves the set of subagent sessions and
    the limiter's buckets within their bounds, each with the order its members are evicted in, and
    no key of a bucket is longer than its bound, whatever the client sends. *)
Theorem shared_sets_stay_bounded cfg env actor level items s :
  (∀ idx x, subagents_ok x → subagents_ok (be_subagents env idx x)) →
  (∀ idx x, limiter_ok x → limiter_ok (be_limiter env idx x)) →
  shared_ok s → shared_ok (snd (handle_hook_batch cfg env actor level items s)).
Proof.
  intros Hsub Hlim Hs. unfold handle_hook_batch. destruct (_ <? _); [done|].
  generalize 0, (@nil nat), (@nil HookBatchResult). revert s Hs.
  induction items as [|item items IH]; intros s Hs idx accepted results; [done|]. cbn [scan_items].
  pose proof (handle_item_ok cfg env actor level idx item s (Hsub idx) (Hlim idx) Hs) as H.
  destruct (handle_item _ _ _ _ _ _ _) as [[] s']; [by apply IH|by apply IH|done|done].
Qed.

(** ** On concrete tables *)

Definition batch_env : BatchEnv :=
  mkBatchEnv (hook_env (λ _, Ok (1%N, 11%N)) (λ _, true))
    (mkDropList [] [] (mkDropEvents [EvNotification])) (λ _, id) (λ _, id) (λ _, true) (λ _, 0%Z).

Definition batch_start : BatchState := mkBatchState hook_start default_subagents limiter_disabled.

Definition batch_of (events : list HookEvent) : list BatchItem :=
  (λ e, mkBatchItem (hook_event e None) (Some (hook_event e None))) <$> events.

(** A prompt, a dropped notification and the end of the session. *)
Definition batch_demo : list BatchItem := batch_of [EvUserPrompt; EvNotification; EvSessionEnd].

Lemma batch_ack_reports_verdicts_witness :
  verdicts hook_config batch_env None LevelAnonymous 0 batch_demo batch_start
    = [Acknowledged Stored; Acknowledged DroppedPolicy; Acknowledged Stored]
  ∧ let '(status, ack) := fst (handle_hook_batch hook_config batch_env None LevelAnonymous batch_demo batch_start) in
    let vs := verdicts hook_config batch_env None LevelAnonymous 0 batch_demo batch_start in
    (∀ i o, mkBatchResult i o ∈ ba_results ack ↔ vs !! i = Some (Acknowledged o))
    ∧ (∀ i, ba_failed_index ack = Some i ↔ vs !! i = Some FailedItem)
    ∧ (status = TooManyRequests ↔ Saturated ∈ vs)
    ∧ (Forall (λ v, stopping v = false) vs → length vs = length batch_demo).
Proof.
  split; [by vm_compute|].
  apply (batch_ack_reports_verdicts hook_config batch_env None LevelAnonymous batch_demo batch_start).
  vm_compute. lia.
Defined.

Lemma shared_ok_start : shared_ok batch_start.
Proof.
  split; [split; [split; [constructor|done]|vm_compute; lia]|].
  split; [split; [constructor|done]|]. split; [vm_compute; lia|constructor].
Qed.

Lemma shared_sets_stay_bounded_witness :
  shared_ok (snd (handle_hook_batch hook_config batch_env None LevelAnonymous batch_demo batch_start)).
Proof. apply shared_sets_stay_bounded; [by intros|by intros|apply shared_ok_start]. Defined.

(** A subagent's session, known from an earlier request. *)
Definition tail_item (e : HookEvent) : BatchItem :=
  let ev := hook_event e None in
  let ev := mkHookEnvelope (hv_event ev) (hv_agent ev) (hv_session_id ev) (hv_cwd ev) (hv_workspace_override ev)
              (hv_project_override ev) (hv_project_strategy ev) (hv_project_source ev) (hv_aliases_invalid ev) true
              (hv_recall_default_global_requested ev) (hv_all_owners_requested ev) (hv_managed_run ev)
              (hv_auto_handoff_off ev) (hv_extension ev) (hv_source_event ev) (hv_ingest_key ev) (hv_title_hint ev)
              (hv_body_excerpt ev) (hv_occurred_at ev) (hv_file_path ev) (hv_raw ev) in
  mkBatchItem ev (Some ev).

Definition tail_batch : list BatchItem := tail_item <$> [EvUserPrompt; EvSessionEnd].

Definition tail_start : BatchState :=
  mkBatchState hook_start (subagent_insert (1%N, 11%N, 3%N) default_subagents) limiter_disabled.

(** Its last events are dropped, and its end forgets it; delivered once more, because the answer was
    lost, the same events are stored. *)
Lemma resent_subagent_tail_is_stored :
  let run s := handle_hook_batch hook_config batch_env None LevelAnonymous tail_batch s in
  let first := run tail_start in
  let second := run (snd first) in
  (br_outcome <$> ba_results (snd (fst first))) = [DroppedSubagent; DroppedSubagent]
  ∧ (br_outcome <$> ba_results (snd (fst second))) = [Stored; Stored]
  ∧ length (ig_observations (hd_db (bs_handler (snd second)))) = 2.
Proof. vm_compute. by split_and!. Qed.

Lemma single_event_matches_batch_witness :
  let item := mkBatchItem (hook_event EvUserPrompt None) (Some (hook_event EvUserPrompt None)) in
  let '(v, s1) := handle_item hook_config batch_env None LevelAnonymous 0 item batch_start in
  let '(answer, processed, s2) := handle_hook hook_config batch_env None LevelAnonymous item batch_start in
  same_fate v answer processed ∧ s1 = s2.
Proof. apply single_event_matches_batch. cbn. intros ev [= <-]. by left. Defined.
